(* ===== verification/_CoqProject ===== *)
-Q . S2P
Prelude.v
OrdMap.v
Types.v
Io.v
TypeParser.v
Vint.v
Comparator.v
ByteComparable.v
Crc.v
StreamCodec.v
Tombstone.v
Token.v
Bloom.v
Merkle.v
Bounds.v
Memtable.v
Trie.v
PartitionView.v
Compaction.v
Strategy.v
RowCache.v
MemtableManager.v
CommitLog.v
LogRecovery.v
Rows.v
Partition.v
Iterators.v
PartitionMerge.v
SSTable.v
Engine.v
EngineViews.v
BigTables.v
EngineCorrect.v
EngineRuns.v
Counter.v
Consistency.v
ReadData.v
Node.v
ReadResolve.v
ReadRepair.v
Gossip.v
GossipExchange.v
GossipNet.v
GossipWire.v
Repair.v
Message.v
FrameCodec.v
JavaWire.v
Handshake.v
Limits.v
WriteHandler.v
Ring.v
Replication.v
ReadCoordinate.v
QuorumRead.v
Coordinated.v
Hints.v
Paxos.v
