(* ===== verification/Prelude.v ===== *)
(** A verification library for the Rust implementation of Cassandra
    (rust/crates).  Paths below are relative to rust/crates/cassandra-<crate>/src.

    ** The program and the parts modelled

    A write goes to the replicas of its partition: the key is hashed to a token,
    the token ring and a replication strategy give the replicas, the coordinator
    waits for as many acknowledgements as the consistency level asks for, and each
    replica appends the write to its commit log and merges it into a memtable,
    which is flushed to a file of sorted partitions; compaction merges such files.
    A replica's read merges the versions found in memtables and files, and a restart
    replays the log.  The coordinator of a read asks one replica for data and others
    for digests, merges the full answers when the digests differ, and repairs the
    replicas that are behind.  A replica that misses a write is sent it later as a
    hint.  Nodes learn of each other by gossip.  Lightweight transactions run Paxos rounds over the
    replicas, and counters are merged shard by shard.  The nodes talk over
    connections that agree on a version in a handshake, send messages in framed
    streams, and account for the bytes they hold; repair compares the replicas by
    hash trees and streams what differs.  Values are typed, compared and indexed
    by their bytes.  The library follows that path:

    - Prelude (this file): tactics, hint databases, machine integers with their
      wrap-around, lawful orders ([RustOrd], [OrdLaws]), bytes, sorting, and
      [Semilattice], the interface by which the merges of the program are shown to
      converge.
    - OrdMap: BTreeMap and BTreeSet as a canonical finite map, an instance of
      stdpp's [FinMap].
    - Types (types: native.rs): the CQL types, their names and the parser of names.
      TypeParser (types: type_parser.rs, dynamic_composite.rs): the Java names of
      types, and composites that carry them.  Vint (types: vint.rs, io: util/varint.rs): variable-length integers.
      Comparator (types: comparator.rs, composite.rs): the order of serialized
      values.  ByteComparable (types: byte_comparable.rs): the encodings whose
      byte order is that order.
    - Crc (messaging: crc.rs), StreamCodec (the reassembly of a byte stream
      cut anywhere, over any lawful [Decoder] and [Encoder]), Message
      (verb.rs, frame.rs, forwarding.rs, connection_type.rs), FrameCodec (frame_codec.rs), JavaWire
      (java_wire.rs), Handshake (handshake.rs) and Limits (resource_limits.rs): the
      internode protocol.
    - Tombstone (common: timestamp.rs, ttl.rs, tombstone.rs): deletion times.
    - Token (common: murmur3.rs, token.rs) and Bounds (common: bounds.rs): the
      hash, ring ranges, and the generic bounds with intersection and difference.
    - Memtable (storage: memtable/partition.rs, mod.rs, shard.rs): the trait
      [MemtableBackend] with its promise [BackendLaws], the skip-list backend, and
      the sharded backend over any lawful backend.  Trie (storage: tries/,
      memtable/trie.rs): the generic trie with its cursor and the two memtables on
      tries.  MemtableManager (storage: memtable/mod.rs): the memtable in front of
      any backend, and the active and flushing memtables of every table.
    - Io: readers over byte lists with the errors of std::io, and UTF-8.  Bloom
      (storage: sstable/bloom.rs) and SSTable (storage: sstable/format.rs,
      tombstone_serializer.rs, writer.rs, metadata.rs, reader.rs): the files of
      sorted partitions in the Big format, written and read byte by byte.
    - PartitionView: what a partition means, as a map of cells under rows that
      merging joins; the views of PartitionData, rows and deletions.  Compaction
      (storage: compaction/mod.rs) and Strategy (compaction/mod.rs, lcs.rs,
      twcs.rs): merging, purging and cutting, and the choice of what to compact.
    - CommitLog (storage: commitlog/): segments, entries and the log over a model
      of its directories as maps from names to files, in which a file has durable
      and buffered bytes.  LogRecovery: runs of the log with crashes.
    - RowCache (storage: cache/row_cache.rs): the row cache over any lawful LRU
      cache.
    - Engine (storage: engine.rs): writing, reading, flushing in two steps,
      compacting, truncating, opening and recovering, over the interface
      [SSTables].  EngineViews, EngineCorrect: the invariant that relates the parts
      of an engine to the mutations it took, and that every step keeps it.
      BigTables: the Big format satisfies the interface.  EngineRuns: the theorems
      on runs.
    - Rows (storage: rows/): cells, liveness, complex columns, rows and encoding
      statistics.  Partition (storage: rows/deletion.rs, partitions/): deletion
      info and partition updates.
    - Iterators and PartitionMerge (storage: partitions/iterators.rs,
      filtered_partition.rs): the iterator traits and the merging iterators.
    - Counter (storage: counter.rs): counter contexts.
    - Consistency (coordinator: consistency.rs): consistency levels.
    - ReadData (coordinator: read/response.rs, verb_handlers/read_handler.rs): digests,
      responses and the bytes of a partition.  ReadResolve (read/resolver.rs,
      repair.rs, mod.rs, verb_handlers/read_repair_handler.rs): comparing and merging
      responses, staging, sending and applying repairs.  ReadRepair: what repairs
      achieve.  ReadCoordinate (read/mod.rs, executor.rs, short_read.rs,
      storage_proxy.rs): the plan and the messages of a read.  QuorumRead: what a read
      returns, over the interface [ReplicationLaws] that the strategies of Replication
      satisfy.
    - Gossip (cluster-metadata: gossip/): the state and every operation of the
      gossiper, over the class of a failure detector.  GossipExchange: the exchange of
      two nodes; GossipNet: a network of nodes, as steps on a cluster and its messages
      in flight; GossipWire (gossip/messages.rs, handlers.rs): the Java bytes of the
      messages and the handlers that answer them.
    - Node (cluster-metadata: node.rs), Ring (ring.rs) and Replication
      (replication.rs, the trait of snitch.rs): endpoints, the token ring and the
      replication strategies.
    - WriteHandler (coordinator: write_response_handler.rs): the handlers that
      collect acknowledgements, with the waiter as a machine beside them.
    - Coordinated (coordinator: write.rs, verb_handlers/mutation_handler.rs): the
      mutation a coordinator sends, its guardrails and what a replica makes of it.
      Hints (hints.rs, hint_delivery.rs): the hints kept for a replica that missed a
      mutation, and their delivery.
    - Merkle (repair: merkle.rs, validator.rs) and Repair (job.rs): hash trees of
      a replica, their comparison, and the plan of a repair.
    - Paxos (coordinator: paxos/): acceptor state, replica handlers, recovery and
      the coordinator's loop.

    ** How definitions correspond to the code

    A method [T::m] is the definition [T_m]; a struct is a record with the fields
    of the source, prefixed where two structs share a name; an enum is an
    inductive type; a trait is a class of operations, and what its clients rely on
    is a second class of laws.  Methods that change [self] return the new value.
    Shared objects are an explicit store (the replicas of Paxos).  i64, i32, u64
    and u8 values are [Z], and every operation that can leave its width is
    followed by [wrap_s] or [wrap_u], as in a release build; lengths and counts
    are [nat].  HashMap and HashSet are gmap and gset.  Code that suspends
    ([await], loops that wait) is a machine whose steps run from one suspension
    point to the next, and the theorems quantify over every interleaving; atomic
    operations of Limits are such steps.  Library functions (compression, the
    digest of the hash trees, the hash of read digests) are arguments, and the theorems name what they rely
    on.

    ** What the theorems show

    - Convergence: replicas that merge the same writes in any order and
      multiplicity hold the same row, partition update and counter
      (row_merge_converges, partition_update_converges, counter_correct), with the
      exact condition under which two cells commute (cell_merge_comm_iff).
    - Storage: all memtable backends answer alike (memtable_backends_agree); a table
      is read as it was written (sstable_roundtrip, bloom_sound); durable mutations
      are replayed, in order within a segment, and segments stay in bounds up to
      what encoding adds (commitlog_recovers,
      segment_size_bounded); compaction without a purge keeps every read, its output is cut within
      bounds, and strategies choose tables once (compaction_transparent,
      compaction_output_bounded, leveled_group_closed, strategies_pick_disjoint).
      Composed, the engine is a map that was never flushed or compacted
      (engine_refines_map), and after crashes it holds what was durable and nothing
      that was neither written nor read back from the log (engine_recovers).  Both
      are for runs in which compactions find nothing to purge, no memtable of the
      table is being flushed at a read, and the mutations form one history.
    - Refinement: the merging iterators yield exactly the merge of
      their sources, in order (merged_row_iterator_correct,
      merged_partition_iterator_correct); visible data is what the tombstones leave
      (live_data_after_correct, lemma active_deletion_merge).
    - Placement: every token has one owner (ring_single_owner); the replica walk is
      its reference definition (natural_endpoints_correct); the topology strategy
      places as many replicas on as many racks as exist (nts_replica_count,
      nts_rack_spread); the maps of the ring stay inverse (token_ring_consistent);
      pending owners are written to (lemma write_replicas_cover); transient marking
      keeps a full replica (lemma transient_replicas_correct).
    - Coordination: consistency levels overlap (lemmas consistency_overlap,
      each_quorum_stronger); the answer of a write handler is right in every
      interleaving and at every level, ANY with its hints included
      (write_await_sound, dc_write_await_sound); every hint stored is
      queued, being delivered, acknowledged, expired, displaced or removed, once,
      and the counters agree (hints_accounted).
    - Reads: a read that succeeds returns an acknowledged write or a newer one when
      the levels overlap, and nothing that no contacted replica held, under lost
      messages, speculation and concurrent writes (quorum_read_fresh); read repair
      makes the contacted replicas agree on data without deletions
      (read_repair_converges).  A replica's contents are a function of the message
      it answers, so they may change between messages; the clock is read once.  The
      hash is assumed to tell apart what is hashed in the read, and the limit of the
      read to exceed the rows, without which the freshness fails (example
      limited_read_stale).
    - Gossip: what any node knows of another was published by that node
      (gossip_authentic), and knowledge never goes back (gossip_monotone), for any
      schedule, loss and duplication of messages; an exchange leaves both nodes with
      the newer of their states (exchange_reconciles), also through the Java
      bytes (exchange_round_refines).
    - Paxos: promises are kept, chosen values are adopted, a success is committed,
      and a call returns (promise_kept, chosen_value_adopted,
      cas_success_committed, execute_cas_terminates).
    - Messaging: however the network cuts the stream, the messages and frames sent
      are the ones delivered, in order (message_stream_reassembly,
      lemma frame_stream_reassembly); a changed byte of a frame with checks is reported
      (frame_corruption_detected); the Java layout is read back
      (java_message_roundtrip); both ends of a handshake agree
      (handshake_agreement); the limits hold in every interleaving and no caller
      is blocked by itself (limits_never_exceeded, limits_obstruction_free).
    - Repair: comparing trees over a range that does not wrap around and is at most
      half the ring finds the differences (merkle_diff_correct); the plan of a job
      joins the replicas that differ, so that they are equal once the streams have
      delivered what it asks for (repair_converges).
    - Types and order: names of types are read back, also inside dynamic composites
      (cql_type_roundtrip, dynamic_composite_roundtrip); integers
      compare as numbers (integer_order); encoded keys sort as the keys do
      (typed_components_order); separators lie where they should
      (separator_correct).
    - Formats and arithmetic: the difference of bounds (subtract_correct), and, as
      lemmas, round trips of deletion times, counters, composites, variable-length
      integers and protocol codes, the hash's golden values and its invertible
      finaliser, and range complements.
    - Limits of the code, each proved on the definitions: a stale proposal that
      overwrites a commit, a promise forgotten on recovery, a commit above the
      promise, a lost wake-up of the write handler, counters counted twice after
      cleanup, a difference of bounds that becomes the full ring, dates that
      sort in the wrong order when encoded, and partitions that a repair of a
      range that wraps around does not see; and, as examples on the engine and the
      log, a read during a flush that stays in the row cache, compacted tables that
      a restart loads again, a truncation undone and a deletion lost by replay, and
      deleted rows that a purge brings back (purge_live_data).  In reads, deleted rows
      that a merge returns, cells that a partition deletion covers, and empty values
      and expiry that a repair loses (the samples of QuorumRead and ReadRepair).  In
      writes, values whose time to live never ends (written_ttl_never_expires) and a
      failure at ANY although a hint is stored (any_fails_before_hint), and in
      the hint store a counter that wraps (no_room_counter_wraps).  In
      gossip, states that are never delivered, restarts that go unnoticed, and an
      application state that blocks every answer (late_state_never_delivered,
      restart_unnoticed, tcm_epoch_blocks_ack).

    The engine and the log are proved against what lies outside them: [LogLaws]
    (compression and encryption invert, a checksum has 32 bits, JSON reads back
    what it wrote), [SSTablesLaws], [LruLaws] and [StrategyLaws].  A crash keeps
    the directory entries, the synced bytes of the log and the tables, and may
    leave any bytes after the synced ones; what a replay takes these for counts as
    written from then on, and is asked to be rows of known tables.

    ** Fuel and bounds

    Recursion is structural except in the places named here.  [drain] and [drain_partitions]
    take fuel, and the theorems are stated for any fuel of at least the number of
    pending elements, for which the result is shown to be complete.  [pop_same]
    takes the number of pending partitions as fuel, which [pop_same_spec] shows to
    be enough.  [parse_cql_type] has one unit more than the text has characters
    ([parse_fuel_enough]), and so has [parse_type] ([p_type_total]); the comparator
    has one unit more than the left value has bytes ([compare_fuel_enough]), used up
    by nested dynamic composites only; [build_levels] has the number of leaves
    ([build_levels_root]); [read_components] has the number of bytes
    ([read_components_serialized]); [show] has one unit more than the number it
    prints.  The readers of a table and of a segment have the number of bytes
    ([read_items_spec], [load_entries_spec], [scan_spec]), since every turn takes
    one.  [short_read_loop] takes the retries that remain ([short_read_budget]).  Segment numbers, memtable numbers and generations are u64 and wrap; the
    theorems on the log and the engine ask for room, [B + 1 + length ops < 2 ^ 64]
    and the like, of which every operation uses at most three.  The counters of hints
    are u64 as well; a store sees fewer than [2 ^ 64 - 2] events, and has room for a
    hint per node.  [execute_cas] is a step function with a measure that bounds its
    steps by twice the retry limit plus one.

    ** What is not modelled

    Input and output, clocks (a clock reading is an argument or a step), logging
    and metrics; panics are [None] where the code can reach them.  The storage
    behind Paxos is the class [PaxosStorage]; the snitch is a record of its two
    lookups.  Characters outside ASCII are not letters, digits or white space in
    the parsers.  The sockets, queues and connection pools of messaging, the
    asymmetric and the incremental repair and the streaming sessions are not
    modelled; what the streams of a repair owe is the record [delivered].  A method
    that takes an atomic number before a lock ([set_local_state] of gossip) is one
    step, and so is the code between two suspension points of a Paxos call, so
    threads that meet inside of these are left out.  In the storage engine, statistics, secondary indexes, materialized
    views, verification, import, snapshots and backups are left out, and so are
    the shell commands of the log's archiver; floating-point sizes and ratios (of
    Bloom filters, size tiers, level scores and latency percentiles) are
    parameters, and so is the failure detector of gossip, whose suspicion level is a
    floating-point estimate.  Gossip's timers, its choice of targets and the services
    around it are left out; of the read path, range reads, paging, the planners of
    queries; of the write path, the plans of a write, the messages to its replicas,
    batches and view updates; of hinted handoff, the optional segment files and the
    throttle.  Cluster metadata transactions, the native
    protocol, CQL, streaming, security and Accord are outside the library. *)
From Stdlib Require Export ZArith Lia.
From stdpp Require Export prelude sorting strings gmap.

Declare Scope ord_scope.
Delimit Scope ord_scope with ord.
Open Scope Z_scope.

(** * Tactics and hint databases

    [cass] collects the facts the components export for [eauto]; [cassrw]
    the rewriting rules that are safe to apply left to right. *)

Create HintDb cass.
Create Rewrite HintDb cassrw.

(** Turn boolean tests on [Z] and [nat] into propositions, everywhere. *)
Ltac bool_to_prop :=
  repeat match goal with
  | H : Z.ltb _ _ = true |- _ => apply Z.ltb_lt in H
  | H : Z.ltb _ _ = false |- _ => apply Z.ltb_ge in H
  | H : Z.leb _ _ = true |- _ => apply Z.leb_le in H
  | H : Z.leb _ _ = false |- _ => apply Z.leb_gt in H
  | H : Z.eqb _ _ = true |- _ => apply Z.eqb_eq in H
  | H : Z.eqb _ _ = false |- _ => apply Z.eqb_neq in H
  | H : Nat.ltb _ _ = true |- _ => apply Nat.ltb_lt in H
  | H : Nat.ltb _ _ = false |- _ => apply Nat.ltb_ge in H
  | H : Nat.leb _ _ = true |- _ => apply Nat.leb_le in H
  | H : Nat.leb _ _ = false |- _ => apply Nat.leb_gt in H
  | H : Nat.eqb _ _ = true |- _ => apply Nat.eqb_eq in H
  | H : Nat.eqb _ _ = false |- _ => apply Nat.eqb_neq in H
  | H : andb _ _ = true |- _ => apply andb_prop in H as [? ?]
  | H : orb _ _ = false |- _ => apply orb_false_elim in H as [? ?]
  | H : negb _ = true |- _ => apply negb_true_iff in H
  | H : negb _ = false |- _ => apply negb_false_iff in H
  end.

(** Case analysis on the boolean tests a goal or a hypothesis branches on. *)
Ltac case_tests :=
  repeat match goal with
  | |- context [if ?b then _ else _] =>
      lazymatch b with
      | context [if _ then _ else _] => fail
      | _ => destruct b eqn:?
      end
  | H : context [if ?b then _ else _] |- _ =>
      lazymatch b with
      | context [if _ then _ else _] => fail
      | _ => destruct b eqn:?
      end
  end.

(** Case analysis on the comparisons of a goal, innermost first, closing the
    linear cases on the way. *)
Ltac no_if t := lazymatch t with context [if _ then _ else _] => fail | _ => idtac end.
Ltac z_tests :=
  repeat (match goal with
    | |- context [Z.eqb ?x ?y] => no_if x; no_if y; destruct (Z.eqb_spec x y)
    | |- context [Z.ltb ?x ?y] => no_if x; no_if y; destruct (Z.ltb_spec x y)
    | |- context [Z.leb ?x ?y] => no_if x; no_if y; destruct (Z.leb_spec x y)
    end; subst; simpl in *; try lia).

Ltac crush := case_tests; bool_to_prop; simplify_eq/=; try lia; try done; eauto with cass.

(** * Machine integers

    An integer of the source is a [Z]; its width is a predicate, and the
    wrap-around of the release profile ([overflow-checks] off) is written out
    where the source adds or shifts. *)

Definition wrap_u (w z : Z) : Z := z mod 2 ^ w.
Definition wrap_s (w z : Z) : Z :=
  let m := z mod 2 ^ w in if m <? 2 ^ (w - 1) then m else m - 2 ^ w.

Definition in_u (w z : Z) : Prop := 0 <= z < 2 ^ w.
Definition in_s (w z : Z) : Prop := - 2 ^ (w - 1) <= z < 2 ^ (w - 1).

Abbreviation is_u8 := (in_u 8).
Abbreviation is_u64 := (in_u 64).
Abbreviation is_i32 := (in_s 32).
Abbreviation is_i64 := (in_s 64).

Definition i64_MIN : Z := - 2 ^ 63.
Definition i64_MAX : Z := 2 ^ 63 - 1.
Definition i32_MIN : Z := - 2 ^ 31.
Definition i32_MAX : Z := 2 ^ 31 - 1.
Definition u32_MAX : Z := 2 ^ 32 - 1.
Definition u64_MAX : Z := 2 ^ 64 - 1.

(** [usize::saturating_sub] on counts kept as [Z]. *)
Definition saturating_sub (a b : Z) : Z := Z.max 0 (a - b).

Lemma pow2_half w : 0 < w -> 2 ^ w = 2 * 2 ^ (w - 1).
Proof. intros. rewrite <- Z.pow_succ_r by lia. f_equal; lia. Qed.

Lemma wrap_u_range w z : 0 <= w -> in_u w (wrap_u w z).
Proof. intros. apply Z.mod_pos_bound. lia. Qed.

Lemma wrap_u_id w z : in_u w z -> wrap_u w z = z.
Proof. apply Z.mod_small. Qed.

Lemma wrap_s_range w z : 0 < w -> in_s w (wrap_s w z).
Proof.
  intros Hw. unfold in_s, wrap_s. pose proof (pow2_half w Hw).
  pose proof (Z.mod_pos_bound z (2 ^ w) ltac:(lia)). crush.
Qed.

Lemma wrap_s_id w z : 0 < w -> in_s w z -> wrap_s w z = z.
Proof.
  unfold in_s, wrap_s. intros Hw Hz. pose proof (pow2_half w Hw).
  destruct (decide (0 <= z)).
  - rewrite Z.mod_small by lia. crush.
  - assert (z mod 2 ^ w = z + 2 ^ w) as ->.
    { rewrite <- (Z.mod_small (z + 2 ^ w) (2 ^ w)) by lia.
      rewrite <- (Z.mul_1_l (2 ^ w)) at 2. rewrite Z_mod_plus_full. done. }
    crush.
Qed.

Lemma wrap_s_mod w z : 0 < w -> wrap_s w z mod 2 ^ w = z mod 2 ^ w.
Proof.
  intros Hw. unfold wrap_s. case_tests.
  - apply Z.mod_mod. lia.
  - rewrite <- (Z.mul_1_l (2 ^ w)) at 2.
    rewrite <- (Z_mod_plus_full (z mod 2 ^ w - 1 * 2 ^ w) 1).
    replace (z mod 2 ^ w - 1 * 2 ^ w + 1 * 2 ^ w) with (z mod 2 ^ w) by lia.
    apply Z.mod_mod. lia.
Qed.

(** Two's complement values that agree modulo [2^w] are equal once wrapped. *)
Lemma wrap_s_cong w a b : a mod 2 ^ w = b mod 2 ^ w -> wrap_s w a = wrap_s w b.
Proof. unfold wrap_s. by intros ->. Qed.

Lemma wrap_s_add_l w a b : 0 < w -> wrap_s w (wrap_s w a + b) = wrap_s w (a + b).
Proof.
  intros. apply wrap_s_cong.
  rewrite <- Z.add_mod_idemp_l, wrap_s_mod, Z.add_mod_idemp_l by lia. done.
Qed.

Lemma wrap_s_add_r w a b : 0 < w -> wrap_s w (a + wrap_s w b) = wrap_s w (a + b).
Proof. intros. rewrite Z.add_comm, wrap_s_add_l by done. f_equal; lia. Qed.

(** A shifted word and a lower one share no bit. *)
Lemma lor_add k a b : 0 <= k -> 0 <= b < 2 ^ k -> Z.lor (a * 2 ^ k) b = a * 2 ^ k + b.
Proof.
  intros Hk Hb. rewrite <- Z.lxor_lor, <- Z.add_nocarry_lxor; [done|..];
    apply Z.bits_inj'; intros n Hn; rewrite Z.land_spec, Z.bits_0;
    (destruct (Z.lt_ge_cases n k) as [Hlt|Hge];
     [by rewrite Z.mul_pow2_bits_low
     |rewrite <- (Z.mod_small b (2 ^ k)) by done; by rewrite Z.mod_pow2_bits_high, andb_false_r by lia]).
Qed.

#[export] Hint Resolve wrap_u_range wrap_s_range : cass.
#[export] Hint Rewrite wrap_s_add_l wrap_s_add_r using lia : cassrw.

(** * Total orders

    [cmp] is the [Ord::cmp] of a Rust type; [OrdLaws] is what every derived or
    hand-written [Ord] of the source is expected to satisfy, and the interface
    the ordered maps of [OrdMap] are built on. *)

Class RustOrd (A : Type) : Type := cmp : A -> A -> comparison.
#[export] Hint Mode RustOrd ! : typeclass_instances.

Class OrdLaws (A : Type) `{RustOrd A} : Prop := {
  cmp_eq (x y : A) : cmp x y = Eq <-> x = y;
  cmp_opp (x y : A) : cmp y x = CompOpp (cmp x y);
  cmp_trans (x y z : A) : cmp x y = Lt -> cmp y z = Lt -> cmp x z = Lt;
}.

Definition is_lt (c : comparison) : bool := match c with Lt => true | _ => false end.
Definition is_gt (c : comparison) : bool := match c with Gt => true | _ => false end.
Definition is_le (c : comparison) : bool := match c with Gt => false | _ => true end.
Definition is_ge (c : comparison) : bool := match c with Lt => false | _ => true end.
Definition is_eq (c : comparison) : bool := match c with Eq => true | _ => false end.

(** [Ordering::then_with]. *)
Definition then_with (c d : comparison) : comparison :=
  match c with Eq => d | _ => c end.

Notation "x <' y" := (is_lt (cmp x y)) (at level 70, no associativity) : ord_scope.
Notation "x <=' y" := (is_le (cmp x y)) (at level 70, no associativity) : ord_scope.
Notation "x >' y" := (is_gt (cmp x y)) (at level 70, no associativity) : ord_scope.
Notation "x >=' y" := (is_ge (cmp x y)) (at level 70, no associativity) : ord_scope.
Notation "x =' y" := (is_eq (cmp x y)) (at level 70, no associativity) : ord_scope.

(** The strict and large orders as propositions. *)
Definition lt_of {A} `{RustOrd A} (x y : A) : Prop := cmp x y = Lt.
Definition le_of {A} `{RustOrd A} (x y : A) : Prop := cmp x y <> Gt.

Section OrdFacts.
Context {A : Type} `{OrdLaws A}.
Implicit Types x y z : A.

Lemma cmp_refl x : cmp x x = Eq.
Proof. by apply cmp_eq. Qed.

Lemma cmp_gt_lt x y : cmp x y = Gt <-> cmp y x = Lt.
Proof. rewrite (cmp_opp x y). destruct (cmp x y); simpl; naive_solver. Qed.

Lemma lt_of_irrefl x : ~ lt_of x x.
Proof. unfold lt_of. by rewrite cmp_refl. Qed.

Lemma lt_of_trans x y z : lt_of x y -> lt_of y z -> lt_of x z.
Proof. apply cmp_trans. Qed.

Lemma le_of_lt_eq x y : le_of x y <-> lt_of x y \/ x = y.
Proof. unfold le_of, lt_of. rewrite <- cmp_eq. destruct (cmp x y); naive_solver. Qed.

Lemma not_lt_of x y : ~ lt_of x y <-> le_of y x.
Proof. unfold le_of, lt_of. by rewrite cmp_gt_lt. Qed.

Lemma not_le_of x y : ~ le_of x y <-> lt_of y x.
Proof.
  unfold le_of, lt_of. rewrite <- cmp_gt_lt. destruct (cmp x y); naive_solver.
Qed.

Lemma le_of_refl x : le_of x x.
Proof. unfold le_of. by rewrite cmp_refl. Qed.

Lemma le_of_trans x y z : le_of x y -> le_of y z -> le_of x z.
Proof.
  rewrite !le_of_lt_eq. intros [?| ->] [?| ->]; eauto using lt_of_trans.
Qed.

Lemma le_lt_of_trans x y z : le_of x y -> lt_of y z -> lt_of x z.
Proof. rewrite le_of_lt_eq. intros [?| ->]; eauto using lt_of_trans. Qed.

Lemma lt_le_of_trans x y z : lt_of x y -> le_of y z -> lt_of x z.
Proof. rewrite le_of_lt_eq. intros ? [?| <-]; eauto using lt_of_trans. Qed.

Lemma le_of_antisym x y : le_of x y -> le_of y x -> x = y.
Proof.
  rewrite !le_of_lt_eq. intros [?|?] [?|?]; auto.
  destruct (lt_of_irrefl x). by eapply lt_of_trans.
Qed.

Lemma lt_of_le x y : lt_of x y -> le_of x y.
Proof. rewrite le_of_lt_eq. auto. Qed.

Lemma lt_of_ne x y : lt_of x y -> x <> y.
Proof. intros ? ->. by apply (lt_of_irrefl y). Qed.

Lemma le_of_total x y : le_of x y \/ le_of y x.
Proof.
  destruct (cmp x y) eqn:E.
  - left. unfold le_of. by rewrite E.
  - left. unfold le_of. by rewrite E.
  - right. apply cmp_gt_lt in E. by apply lt_of_le.
Qed.

Lemma is_lt_spec x y : is_lt (cmp x y) = true <-> lt_of x y.
Proof. unfold lt_of. destruct (cmp x y); simpl; naive_solver. Qed.
Lemma is_le_spec x y : is_le (cmp x y) = true <-> le_of x y.
Proof. unfold le_of. destruct (cmp x y); simpl; naive_solver. Qed.
Lemma is_gt_spec x y : is_gt (cmp x y) = true <-> lt_of y x.
Proof. unfold lt_of. rewrite <- cmp_gt_lt. destruct (cmp x y); simpl; naive_solver. Qed.
Lemma is_ge_spec x y : is_ge (cmp x y) = true <-> le_of y x.
Proof. rewrite <- not_lt_of. unfold lt_of. destruct (cmp x y); simpl; naive_solver. Qed.
Lemma is_eq_spec x y : is_eq (cmp x y) = true <-> x = y.
Proof. rewrite <- cmp_eq. destruct (cmp x y); simpl; naive_solver. Qed.

Lemma is_lt_false x y : is_lt (cmp x y) = false <-> le_of y x.
Proof. rewrite <- not_lt_of, <- is_lt_spec. by rewrite not_true_iff_false. Qed.
Lemma is_le_false x y : is_le (cmp x y) = false <-> lt_of y x.
Proof. rewrite <- not_le_of, <- is_le_spec. by rewrite not_true_iff_false. Qed.
Lemma is_gt_false x y : is_gt (cmp x y) = false <-> le_of x y.
Proof. rewrite <- not_lt_of, <- is_gt_spec. by rewrite not_true_iff_false. Qed.
Lemma is_ge_false x y : is_ge (cmp x y) = false <-> lt_of x y.
Proof. rewrite <- not_le_of, <- is_ge_spec. by rewrite not_true_iff_false. Qed.
Lemma is_eq_false x y : is_eq (cmp x y) = false <-> x <> y.
Proof. rewrite <- is_eq_spec. by rewrite not_true_iff_false. Qed.
End OrdFacts.

#[export] Hint Resolve cmp_refl le_of_refl lt_of_le : cass.

(** Turn comparison tests into order propositions, everywhere. *)
Ltac ord_to_prop :=
  repeat match goal with
  | H : is_lt (cmp _ _) = true |- _ => apply is_lt_spec in H
  | H : is_le (cmp _ _) = true |- _ => apply is_le_spec in H
  | H : is_gt (cmp _ _) = true |- _ => apply is_gt_spec in H
  | H : is_ge (cmp _ _) = true |- _ => apply is_ge_spec in H
  | H : is_eq (cmp _ _) = true |- _ => apply is_eq_spec in H
  | H : is_lt (cmp _ _) = false |- _ => apply is_lt_false in H
  | H : is_le (cmp _ _) = false |- _ => apply is_le_false in H
  | H : is_gt (cmp _ _) = false |- _ => apply is_gt_false in H
  | H : is_ge (cmp _ _) = false |- _ => apply is_ge_false in H
  | H : is_eq (cmp _ _) = false |- _ => apply is_eq_false in H
  | |- is_lt (cmp _ _) = true => apply is_lt_spec
  | |- is_le (cmp _ _) = true => apply is_le_spec
  | |- is_gt (cmp _ _) = true => apply is_gt_spec
  | |- is_ge (cmp _ _) = true => apply is_ge_spec
  | |- is_eq (cmp _ _) = true => apply is_eq_spec
  | |- is_lt (cmp _ _) = false => apply is_lt_false
  | |- is_le (cmp _ _) = false => apply is_le_false
  | |- is_gt (cmp _ _) = false => apply is_gt_false
  | |- is_ge (cmp _ _) = false => apply is_ge_false
  | |- is_eq (cmp _ _) = false => apply is_eq_false
  end.

(** ** Orders of the types the source compares *)

#[export] Instance Z_ord : RustOrd Z := Z.compare.
#[export] Instance Z_ord_laws : OrdLaws Z.
Proof.
  split; unfold cmp, Z_ord; intros.
  - apply Z.compare_eq_iff.
  - apply Z.compare_antisym.
  - rewrite !Z.compare_lt_iff in *. lia.
Qed.

Lemma lt_of_Z (x y : Z) : lt_of x y <-> x < y.
Proof. apply Z.compare_lt_iff. Qed.
Lemma le_of_Z (x y : Z) : le_of x y <-> x <= y.
Proof. unfold le_of, cmp, Z_ord. apply Z.compare_le_iff. Qed.

Lemma then_with_lt c d : then_with c d = Lt <-> c = Lt \/ (c = Eq /\ d = Lt).
Proof. destruct c; simpl; naive_solver. Qed.
Lemma then_with_eq c d : then_with c d = Eq <-> c = Eq /\ d = Eq.
Proof. destruct c; simpl; naive_solver. Qed.
Lemma then_with_opp c d : then_with (CompOpp c) (CompOpp d) = CompOpp (then_with c d).
Proof. by destruct c. Qed.

(** Lexicographic pairs: the shape of every [cmp(..).then_with(..)]. *)
#[export] Instance prod_ord {A B} `{RustOrd A, RustOrd B} : RustOrd (A * B) :=
  fun p q => then_with (cmp p.1 q.1) (cmp p.2 q.2).
Lemma cmp_pair {A B} `{RustOrd A, RustOrd B} (a c : A) (b d : B) :
  cmp (a, b) (c, d) = then_with (cmp a c) (cmp b d).
Proof. done. Qed.
#[export] Instance prod_ord_laws {A B} `{OrdLaws A, OrdLaws B} : OrdLaws (A * B).
Proof.
  split.
  - intros [a b] [c d]. rewrite cmp_pair, then_with_eq, !cmp_eq. naive_solver.
  - intros [a b] [c d]. by rewrite !cmp_pair, (cmp_opp a c), (cmp_opp b d), then_with_opp.
  - intros [a b] [c d] [e f]. rewrite !cmp_pair, !then_with_lt, !cmp_eq.
    intros [?|[-> ?]] [?|[-> ?]]; eauto using cmp_trans.
Qed.

(** Slices and vectors: lexicographic, a strict prefix is smaller. *)
Fixpoint list_cmp {A} `{RustOrd A} (l k : list A) : comparison :=
  match l, k with
  | [], [] => Eq
  | [], _ :: _ => Lt
  | _ :: _, [] => Gt
  | x :: l', y :: k' => then_with (cmp x y) (list_cmp l' k')
  end.
#[export] Instance list_ord {A} `{RustOrd A} : RustOrd (list A) := list_cmp.

#[export] Instance list_ord_laws {A} `{OrdLaws A} : OrdLaws (list A).
Proof.
  split; unfold cmp, list_ord.
  - intros l. induction l as [|x l IH]; intros [|y k]; simpl; try naive_solver.
    rewrite then_with_eq, IH, cmp_eq. naive_solver.
  - intros l. induction l as [|x l IH]; intros [|y k]; simpl; try done.
    by rewrite (cmp_opp x y), IH, then_with_opp.
  - intros l. induction l as [|x l IH]; intros [|y k] [|z m]; simpl; try done.
    rewrite !then_with_lt, !cmp_eq.
    intros [?|[-> ?]] [?|[-> ?]]; eauto using cmp_trans.
Qed.
Lemma cmp_app {A} `{OrdLaws A} (p u v : list A) : cmp (p ++ u) (p ++ v) = cmp u v.
Proof. induction p as [|x p IH]; [done|]. cbn. by rewrite cmp_refl. Qed.

(** An order pulled back along an injection. *)
Definition ord_via {A B} `{RustOrd B} (f : A -> B) : RustOrd A := fun x y => cmp (f x) (f y).
Lemma ord_via_laws {A B} `{OrdLaws B} (f : A -> B) (Hf : Inj (=) (=) f) :
  @OrdLaws A (ord_via f).
Proof.
  assert (forall x y : A, @cmp A (ord_via f) x y = cmp (f x) (f y)) as E by done.
  split; intros *; rewrite !E.
  - rewrite cmp_eq. split; [apply Hf | by intros ->].
  - apply cmp_opp.
  - apply cmp_trans.
Qed.

(** [String]: byte-wise. *)
Definition string_bytes (s : string) : list Z :=
  (fun a => Z.of_N (Ascii.N_of_ascii a)) <$> String.list_ascii_of_string s.
#[export] Instance string_bytes_inj : Inj (=) (=) string_bytes.
Proof.
  intros s t E. unfold string_bytes in E.
  rewrite <- (String.string_of_list_ascii_of_string s),
    <- (String.string_of_list_ascii_of_string t). f_equal.
  revert E. generalize (String.list_ascii_of_string s) (String.list_ascii_of_string t).
  intros l. induction l as [|a l IH]; intros [|b k] E; simplify_eq/=; [done|].
  f_equal; [|by apply IH].
  apply (f_equal Ascii.ascii_of_N) in H.
  by rewrite !Ascii.ascii_N_embedding in H.
Qed.
#[export] Instance string_ord : RustOrd string := ord_via string_bytes.
#[export] Instance string_ord_laws : OrdLaws string.
Proof. apply (ord_via_laws string_bytes), _. Qed.

(** ** Iterator and slice helpers of the standard library *)

Lemma strongly_sorted_lookup {A} (R : A -> A -> Prop) l i j x y :
  StronglySorted R l -> l !! i = Some x -> l !! j = Some y -> (i < j)%nat -> R x y.
Proof.
  intros Hs. revert i j. induction Hs as [|a l _ IH Ha]; intros [|i] [|j] Hi Hj Hij; simplify_eq/=; try lia.
  - by apply (proj1 (Forall_lookup _ _) Ha j).
  - apply (IH i j); [done|done|lia].
Qed.

Section SortBy.
Context {A : Type} (c : A -> A -> comparison).

Fixpoint insert_by (x : A) (l : list A) : list A :=
  match l with
  | [] => [x]
  | y :: l' => if is_gt (c x y) then y :: insert_by x l' else x :: l
  end.

(** [slice::sort_by]: a stable sort. *)
Definition sort_by (l : list A) : list A := foldr insert_by [] l.

(** [Iterator::max_by]: the last of the greatest elements. *)
Definition max_by_step (acc : option A) (x : A) : option A :=
  match acc with
  | None => Some x
  | Some y => if is_gt (c y x) then Some y else Some x
  end.
Definition max_by (l : list A) : option A := foldl max_by_step None l.

Lemma insert_by_perm x l : insert_by x l ≡ₚ x :: l.
Proof.
  induction l as [|y l IH]; simpl; [done|]. case_tests; [|done].
  rewrite IH. apply Permutation_swap.
Qed.

Lemma sort_by_perm l : sort_by l ≡ₚ l.
Proof. induction l; simpl; [done|]. by rewrite insert_by_perm, IHl. Qed.

Context (R : relation A).
Hypothesis c_gt : forall x y, is_gt (c x y) = true -> R y x.
Hypothesis c_le : forall x y, is_gt (c x y) = false -> R x y.

Lemma insert_by_sorted x l : Sorted R l -> Sorted R (insert_by x l).
Proof.
  induction 1 as [|y l Hs IH Hh]; simpl; [by repeat constructor|].
  destruct (is_gt (c x y)) eqn:E; [|by constructor; constructor; auto].
  constructor; [done|]. destruct l as [|z l]; simpl; [by constructor; auto|].
  case_tests; constructor; [by inversion Hh|auto].
Qed.

Lemma sort_by_sorted l : Sorted R (sort_by l).
Proof. induction l; simpl; [constructor|]. by apply insert_by_sorted. Qed.
End SortBy.

(** What [max_by] returns under a total preorder: an element of the list that
    none exceeds. *)
Section MaxBy.
Context {A B : Type} `{OrdLaws B} (key : A -> B).
Abbreviation ckey := (fun x y : A => cmp (key x) (key y)).

Lemma max_by_foldl l a :
  exists m, foldl (max_by_step ckey) (Some a) l = Some m /\ m ∈ a :: l
    /\ forall x, x ∈ a :: l -> le_of (key x) (key m).
Proof.
  revert a. induction l as [|x l IH]; intros a; simpl.
  - exists a. split_and!; [done|set_solver|]. intros x [->|?%elem_of_nil]%elem_of_cons; auto with cass; done.
  - destruct (is_gt (cmp (key a) (key x))) eqn:E; ord_to_prop.
    + destruct (IH a) as (m & -> & Hin & Hmax). exists m. split_and!; [done|set_solver|].
      intros z [->|[->|Hz]%elem_of_cons]%elem_of_cons.
      * apply Hmax; set_solver.
      * eapply le_of_trans; [by apply lt_of_le|]. apply Hmax; set_solver.
      * apply Hmax; set_solver.
    + destruct (IH x) as (m & -> & Hin & Hmax). exists m. split_and!; [done|set_solver|].
      intros z [->|Hz]%elem_of_cons; [|by apply Hmax].
      eapply le_of_trans; [done|]. apply Hmax; set_solver.
Qed.

Lemma max_by_Some l m :
  max_by ckey l = Some m -> m ∈ l /\ forall x, x ∈ l -> le_of (key x) (key m).
Proof.
  destruct l as [|a l]; [done|]. unfold max_by; simpl.
  destruct (max_by_foldl l a) as (m' & -> & ?); naive_solver.
Qed.

Lemma max_by_None l : max_by ckey l = None <-> l = [].
Proof.
  destruct l as [|a l]; [done|]. unfold max_by; simpl.
  destruct (max_by_foldl l a) as (m' & -> & ?); naive_solver.
Qed.
End MaxBy.

(** * Bytes

    A byte is a [Z] in [0, 256); buffers are lists.  [be_bytes] and [be_val]
    are the [to_be_bytes]/[from_be_bytes] of every width, and the
    [BigEndian::write_*]/[read_*] of the byteorder crate. *)

Fixpoint be_bytes (n : nat) (z : Z) : list Z :=
  match n with
  | O => []
  | S m => (z / 256 ^ Z.of_nat m) mod 256 :: be_bytes m z
  end.

Definition be_step (acc b : Z) : Z := acc * 256 + b.
Definition be_val (l : list Z) : Z := foldl be_step 0 l.

Definition bytes_ok (l : list Z) : Prop := Forall is_u8 l.

Lemma length_be_bytes n z : length (be_bytes n z) = n.
Proof. induction n; simpl; auto. Qed.
#[export] Hint Rewrite length_be_bytes : cassrw.

Lemma be_bytes_ok n z : bytes_ok (be_bytes n z).
Proof.
  induction n; simpl; constructor; [|done]. apply Z.mod_pos_bound. lia.
Qed.
#[export] Hint Resolve be_bytes_ok : cass.

Lemma pow256 n : 0 < 256 ^ Z.of_nat n.
Proof. lia. Qed.

Lemma pow256_S n : 256 ^ Z.of_nat (S n) = 256 * 256 ^ Z.of_nat n.
Proof. rewrite Nat2Z.inj_succ, Z.pow_succ_r by lia. done. Qed.

Lemma foldl_be l acc : foldl be_step acc l = acc * 256 ^ Z.of_nat (length l) + be_val l.
Proof.
  unfold be_val. revert acc. induction l as [|b l IH]; intros acc; simpl length; simpl foldl.
  - lia.
  - rewrite IH, (IH (be_step 0 b)), pow256_S. unfold be_step. ring.
Qed.

Lemma be_val_cons b l : be_val (b :: l) = b * 256 ^ Z.of_nat (length l) + be_val l.
Proof. unfold be_val at 1; simpl. by rewrite foldl_be. Qed.

Lemma be_val_app l k : be_val (l ++ k) = be_val l * 256 ^ Z.of_nat (length k) + be_val k.
Proof. unfold be_val at 1. by rewrite foldl_app, foldl_be. Qed.

Lemma be_val_range l : bytes_ok l -> 0 <= be_val l < 256 ^ Z.of_nat (length l).
Proof.
  induction 1 as [|b l Hb Hl IH]; [done|].
  rewrite be_val_cons. simpl length. rewrite pow256_S. unfold in_u in Hb. nia.
Qed.

Lemma be_val_bytes n z : be_val (be_bytes n z) = z mod 256 ^ Z.of_nat n.
Proof.
  induction n as [|n IH]; [by rewrite Z.mod_1_r|].
  simpl be_bytes. rewrite be_val_cons, IH, length_be_bytes, pow256_S.
  pose proof (pow256 n). rewrite (Z.mul_comm 256), Z.rem_mul_r by lia. ring.
Qed.

Lemma be_bytes_val l : bytes_ok l -> be_bytes (length l) (be_val l) = l.
Proof.
  intros Hl. induction Hl as [|b l Hb Hl IH]; [done|].
  simpl. rewrite be_val_cons. pose proof (be_val_range l Hl). pose proof (pow256 (length l)).
  rewrite Z.div_add_l, (Z.div_small (be_val l)), Z.add_0_r by lia.
  unfold in_u in Hb. rewrite (Z.mod_small b) by lia. f_equal. etransitivity; [|exact IH].
  assert (forall n u z, (n <= length l)%nat ->
    be_bytes n (u * 256 ^ Z.of_nat (length l) + z) = be_bytes n z) as Hdrop.
  { induction n as [|n IHn]; intros u z Hn; [done|]. simpl. rewrite IHn by lia. f_equal.
    replace (Z.of_nat (length l)) with (Z.of_nat (length l - S n) + 1 + Z.of_nat n) by lia.
    rewrite !Z.pow_add_r, !Z.mul_assoc by lia. pose proof (pow256 n).
    rewrite Z.div_add_l by lia.
    rewrite Z.add_comm, Z.pow_1_r, Z_mod_plus_full. done. }
  apply Hdrop. done.
Qed.

Lemma be_val_inj l k :
  bytes_ok l -> bytes_ok k -> length l = length k -> be_val l = be_val k -> l = k.
Proof.
  intros Hl Hk Hlen E. rewrite <- (be_bytes_val l), <- (be_bytes_val k) by done.
  by rewrite Hlen, E.
Qed.

(** On buffers of one length the unsigned lexicographic order is the order of
    the big-endian values. *)
Lemma be_val_cmp l k :
  bytes_ok l -> bytes_ok k -> length l = length k -> cmp l k = Z.compare (be_val l) (be_val k).
Proof.
  intros Hl. revert k. induction Hl as [|b l Hb Hl IH]; intros [|c k] Hk Hlen; try done.
  inversion Hk as [|? ? Hc Hk']; subst. simpl in Hlen. injection Hlen as Hlen.
  rewrite !be_val_cons, Hlen.
  change (cmp (b :: l) (c :: k)) with (then_with (cmp b c) (cmp l k)). rewrite (IH k) by done.
  pose proof (be_val_range l Hl). pose proof (be_val_range k Hk'). rewrite Hlen in *.
  unfold cmp, Z_ord. destruct (Z.compare_spec b c) as [->|?|?]; simpl.
  - by rewrite Z.add_compare_mono_l.
  - symmetry. apply Z.compare_lt_iff. nia.
  - symmetry. apply Z.compare_gt_iff. nia.
Qed.

(** ** Fixed-width readers and writers *)

Definition write_be (w : nat) (z : Z) : list Z := be_bytes w z.
Definition read_u (l : list Z) : Z := be_val l.
Definition read_s (l : list Z) : Z := wrap_s (8 * Z.of_nat (length l)) (be_val l).

Lemma pow256_pow2 n : 256 ^ Z.of_nat n = 2 ^ (8 * Z.of_nat n).
Proof. rewrite Z.pow_mul_r by lia. done. Qed.

Lemma read_u_write w z : in_u (8 * Z.of_nat w) z -> read_u (write_be w z) = z.
Proof.
  unfold read_u, write_be. rewrite be_val_bytes, pow256_pow2. apply Z.mod_small.
Qed.

Lemma read_s_write w z :
  (0 < w)%nat -> in_s (8 * Z.of_nat w) z -> read_s (write_be w z) = z.
Proof.
  intros Hw Hz. unfold read_s, write_be. rewrite length_be_bytes, be_val_bytes, pow256_pow2.
  etransitivity; [|apply (wrap_s_id (8 * Z.of_nat w)); [lia|done]].
  apply wrap_s_cong. rewrite Z.mod_mod; [done|lia].
Qed.

Lemma read_s_range l : (0 < length l)%nat -> in_s (8 * Z.of_nat (length l)) (read_s l).
Proof. intros. apply wrap_s_range. lia. Qed.

Lemma write_s_read w l : bytes_ok l -> length l = w -> (0 < w)%nat -> write_be w (read_s l) = l.
Proof.
  intros Hl <- Hw. apply be_val_inj; [apply be_bytes_ok|done|apply length_be_bytes|].
  unfold write_be, read_s. rewrite be_val_bytes, pow256_pow2, wrap_s_mod by lia.
  rewrite <- pow256_pow2. apply Z.mod_small, be_val_range, Hl.
Qed.

(** Taking apart a concatenation of fields of known lengths. *)
Lemma take_field {A} n (l rest : list A) : length l = n -> take n (l ++ rest) = l.
Proof. intros <-. apply take_app_length. Qed.
Lemma drop_field {A} n k (l rest : list A) : length l = n -> drop (n + k) (l ++ rest) = drop k rest.
Proof. intros <-. by rewrite <- drop_drop, drop_app_length. Qed.
Lemma drop_field_0 {A} n (l rest : list A) : length l = n -> drop n (l ++ rest) = rest.
Proof. intros <-. apply drop_app_length. Qed.

(** A field that a prefix has whole. *)
Lemma prefix_field {A} n k (p l : list A) :
  p `prefix_of` l -> (n + k <= length p)%nat -> take k (drop n p) = take k (drop n l).
Proof.
  intros [q ->] Hlen. rewrite drop_app_le, take_app_le; [done| |lia]. rewrite length_drop. lia.
Qed.
Lemma prefix_take {A} k (p l : list A) : p `prefix_of` l -> (k <= length p)%nat -> take k p = take k l.
Proof. intros Hpre Hlen. rewrite <- (drop_0 p), <- (drop_0 l). by apply prefix_field. Qed.
Lemma prefix_shorter {A} (p l : list A) : p `prefix_of` l -> p <> l -> (length p < length l)%nat.
Proof.
  intros [[|x q] ->] Hne; [by rewrite app_nil_r in Hne|]. rewrite length_app. simpl. lia.
Qed.

Lemma length_write_be w z : length (write_be w z) = w.
Proof. apply length_be_bytes. Qed.

(** Reads of the fixed-width fields of a written record. *)
Ltac fields :=
  repeat match goal with
  | |- context [drop ?n (write_be ?w ?z ++ ?l)] =>
      rewrite (drop_app_ge (write_be w z) l n) by (rewrite length_write_be; lia); rewrite length_write_be; cbn [Nat.sub]
  end;
  rewrite ?drop_0, ?take_field by apply length_write_be.

(** * Lists *)

Lemma list_lookup_alter_Some {A} (f : A -> A) (l : list A) i j x :
  alter f i l !! j = Some x ->
  (i = j /\ exists y, l !! j = Some y /\ x = f y) \/ (i <> j /\ l !! j = Some x).
Proof.
  rewrite list_lookup_alter. case_decide as E; [subst|auto].
  intros (y & -> & ->)%fmap_Some. eauto.
Qed.

(** Sums of integers over a list. *)
Definition zsum_with {A} (f : A -> Z) (l : list A) : Z := foldr (fun x acc => f x + acc) 0 l.

Lemma zsum_with_app {A} (f : A -> Z) l k : zsum_with f (l ++ k) = zsum_with f l + zsum_with f k.
Proof. induction l as [|x l IH]; simpl; [done|]. rewrite IH. lia. Qed.
Lemma zsum_with_insert {A} (f : A -> Z) l i x y :
  l !! i = Some x -> zsum_with f (<[i:=y]> l) = zsum_with f l - f x + f y.
Proof.
  revert i. induction l as [|z l IH]; intros [|i] Hx; simplify_eq/=; [lia|].
  rewrite (IH i Hx). lia.
Qed.
Lemma zsum_with_nonneg {A} (f : A -> Z) l : Forall (fun x => 0 <= f x) l -> 0 <= zsum_with f l.
Proof. induction 1; simpl; lia. Qed.
Lemma zsum_with_elem {A} (f : A -> Z) l i x : Forall (fun x => 0 <= f x) l -> l !! i = Some x -> f x <= zsum_with f l.
Proof.
  intros Hl. revert i. induction Hl as [|y l Hy Hl IH]; intros [|i] Hx; simplify_eq/=.
  - pose proof (zsum_with_nonneg f l Hl). lia.
  - pose proof (IH i Hx). lia.
Qed.
Lemma zsum_with_zero {A} (f : A -> Z) l : Forall (fun x => f x = 0) l -> zsum_with f l = 0.
Proof. induction 1; simpl; lia. Qed.

Lemma mjoin_cons {A} (l : list A) (ls : list (list A)) : mjoin (l :: ls) = l ++ mjoin ls.
Proof. done. Qed.

Lemma list_elem_of_mjoin {A} (ls : list (list A)) x :
  x ∈ mjoin ls <-> exists i l, ls !! i = Some l /\ x ∈ l.
Proof.
  rewrite list_elem_of_join. setoid_rewrite list_elem_of_lookup at 2. naive_solver.
Qed.

(** Concatenating lists with no element in two of them keeps [NoDup]. *)
Lemma NoDup_mjoin {A} (ls : list (list A)) :
  (forall i l, ls !! i = Some l -> NoDup l) ->
  (forall i j l k x, ls !! i = Some l -> ls !! j = Some k -> x ∈ l -> x ∈ k -> i = j) ->
  NoDup (mjoin ls).
Proof.
  induction ls as [|l ls IH]; intros Hnd Hdis; [constructor|]. simpl.
  apply NoDup_app. split_and!.
  - by apply (Hnd 0%nat).
  - intros x Hx (i & k & Hk & Hxk)%list_elem_of_mjoin.
    by pose proof (Hdis 0%nat (S i) l k x eq_refl Hk Hx Hxk).
  - apply IH; [intros i k Hk; by apply (Hnd (S i))|].
    intros i j k1 k2 x H1 H2 Hx1 Hx2. by pose proof (Hdis (S i) (S j) k1 k2 x H1 H2 Hx1 Hx2); simplify_eq.
Qed.

Lemma fmap_mjoin {A B} (f : A -> B) (ls : list (list A)) : f <$> mjoin ls = mjoin (fmap f <$> ls).
Proof. induction ls as [|l ls IH]; [done|]. simpl. by rewrite fmap_app, IH. Qed.

Lemma omap_cong {A B} (f g : A -> option B) (l : list A) :
  (forall x, x ∈ l -> f x = g x) -> omap f l = omap g l.
Proof.
  induction l as [|x l IH]; intros Hfg; [done|]. cbn. rewrite (Hfg x) by left.
  rewrite IH by (intros; apply Hfg; by right). done.
Qed.

Lemma Forall2_weaken {A B} (Q : A -> Prop) (P R : A -> B -> Prop) l k :
  Forall2 P l k -> Forall Q l -> (forall x y, Q x -> P x y -> R x y) -> Forall2 R l k.
Proof. intros HP HQ HR. induction HP; constructor; inversion HQ; subst; auto. Qed.

(** Two sets of distinct replicas that together outnumber them meet. *)
Lemma quorums_intersect (n : nat) (Q ids : list nat) :
  NoDup Q -> NoDup ids -> (forall i, i ∈ Q -> (i < n)%nat) -> (forall i, i ∈ ids -> (i < n)%nat) ->
  (n < length Q + length ids)%nat -> exists i, i ∈ Q /\ i ∈ ids.
Proof.
  intros HQ Hids HnQ Hni Hlen. destruct (decide (Exists (.∈ ids) Q)) as [He|Hne].
  - apply Exists_exists in He as (i & ? & ?). eauto.
  - exfalso. assert (NoDup (Q ++ ids)) as Hnd.
    { apply NoDup_app. split_and!; [done| |done]. intros i Hi Hj. apply Hne, Exists_exists. eauto. }
    assert (length (Q ++ ids) <= length (seq 0 n))%nat as Hle.
    { apply submseteq_length, NoDup_submseteq; [done|]. intros i Hi. apply elem_of_seq.
      apply elem_of_app in Hi as [Hi|Hi]; [specialize (HnQ i Hi)|specialize (Hni i Hi)]; lia. }
    rewrite length_app, length_seq in Hle. lia.
Qed.

(** ** Filtering by a test *)

Lemma elem_of_filter_bool {A} (f : A -> bool) l x : x ∈ List.filter f l <-> x ∈ l /\ f x = true.
Proof. rewrite !list_elem_of_In. apply List.filter_In. Qed.
Lemma filter_none {A} (f : A -> bool) l : (forall x, x ∈ l -> f x = false) -> List.filter f l = [].
Proof.
  induction l as [|x l IH]; intros H; [done|]. cbn. rewrite H by left. apply IH. intros y Hy. apply H. by right.
Qed.
Lemma filter_cong {A} (f g : A -> bool) l : (forall x, x ∈ l -> f x = g x) -> List.filter f l = List.filter g l.
Proof. intros H. apply List.filter_ext_in. intros x Hx. apply H. by apply list_elem_of_In. Qed.
Lemma filter_filter {A} (f g : A -> bool) l : List.filter f (List.filter g l) = List.filter (fun x => g x && f x) l.
Proof. induction l as [|x l IH]; [done|]. cbn. destruct (g x); cbn; [destruct (f x)|]; by rewrite IH. Qed.

Lemma filter_sorted {A} (R : relation A) (f : A -> bool) l : StronglySorted R l -> StronglySorted R (List.filter f l).
Proof.
  induction 1 as [|x l _ IH Hx]; cbn; [constructor|]. destruct (f x); [|done]. constructor; [done|].
  rewrite Forall_forall in *. intros y [Hy _]%elem_of_filter_bool. auto.
Qed.
Lemma filter_all {A} (P : A -> bool) l : Forall (fun x => P x = true) l -> List.filter P l = l.
Proof. induction 1 as [|x l Hx _ IH]; simpl; [done|]. by rewrite Hx, IH. Qed.
Lemma filter_disjoint {A} (P Q : A -> bool) (l : list A) :
  (forall x, P x = true -> Q x = true -> False) -> List.filter P l ++ List.filter Q l ⊆+ l.
Proof.
  intros Hd. induction l as [|x l IH]; simpl; [done|]. destruct (P x) eqn:Ep, (Q x) eqn:Eq; [by destruct (Hd x)| | |].
  - simpl. by apply submseteq_skip.
  - rewrite <- Permutation_middle. by apply submseteq_skip.
  - by apply submseteq_cons.
Qed.

(** ** Deciding statements about finitely many points

    On any finite list of points a lawful order is the order of integer ranks,
    so a statement that compares finitely many points is one of linear
    arithmetic. *)
Section Embed.
Context {A : Type} `{OrdLaws A}.

Definition rank_in (l : list A) (x : A) : Z :=
  Z.of_nat (length (List.filter (fun y => is_lt (cmp y x)) l)).

Lemma filter_length_le (P Q : A -> bool) l :
  (forall y, P y = true -> Q y = true) ->
  (length (List.filter P l) <= length (List.filter Q l))%nat.
Proof.
  intros HPQ. induction l as [|y l IH]; simpl; [done|]. specialize (HPQ y).
  destruct (P y); [rewrite HPQ by done; simpl; lia|]. destruct (Q y); simpl; lia.
Qed.

Lemma filter_length_lt (P Q : A -> bool) l x :
  (forall y, P y = true -> Q y = true) -> x ∈ l -> P x = false -> Q x = true ->
  (length (List.filter P l) < length (List.filter Q l))%nat.
Proof.
  intros HPQ Hx HP HQ. induction Hx as [x l|x y l Hx IH]; simpl.
  - rewrite HP, HQ. simpl. pose proof (filter_length_le P Q l HPQ). lia.
  - specialize (IH HP HQ). specialize (HPQ y).
    destruct (P y); [rewrite HPQ by done; simpl; lia|]. destruct (Q y); simpl; lia.
Qed.

Lemma rank_in_lt l x y : x ∈ l -> lt_of x y -> rank_in l x < rank_in l y.
Proof.
  intros Hx Hxy. unfold rank_in. apply inj_lt. apply (filter_length_lt _ _ _ x).
  - intros z Hz. apply is_lt_spec in Hz. apply is_lt_spec. by apply (lt_of_trans z x).
  - done.
  - apply is_lt_false, le_of_refl.
  - by apply is_lt_spec.
Qed.

Lemma cmp_rank_in l x y : x ∈ l -> y ∈ l -> cmp x y = (rank_in l x ?= rank_in l y).
Proof.
  intros Hx Hy. destruct (cmp x y) eqn:E; symmetry.
  - apply cmp_eq in E as ->. apply Z.compare_refl.
  - by apply Z.compare_lt_iff, rank_in_lt.
  - apply Z.compare_gt_iff, rank_in_lt; [done|]. by apply cmp_gt_lt.
Qed.

Lemma lt_of_rank l x y : x ∈ l -> y ∈ l -> lt_of x y <-> rank_in l x < rank_in l y.
Proof. intros. unfold lt_of. rewrite (cmp_rank_in l) by done. apply Z.compare_lt_iff. Qed.
Lemma le_of_rank l x y : x ∈ l -> y ∈ l -> le_of x y <-> rank_in l x <= rank_in l y.
Proof. intros. rewrite <- not_lt_of, (lt_of_rank l) by done. lia. Qed.
Lemma eq_rank l x y : x ∈ l -> y ∈ l -> x = y <-> rank_in l x = rank_in l y.
Proof. intros. rewrite <- cmp_eq, (cmp_rank_in l) by done. apply Z.compare_eq_iff. Qed.
End Embed.

(** [ord_lia l] decides a goal that compares the points of [l]. *)
Ltac elem_tac := first [exact (list_elem_of_here _ _) | apply list_elem_of_further; elem_tac].
Ltac ord_lia l :=
  repeat match goal with
  | H : context [lt_of ?x ?y] |- _ => rewrite (lt_of_rank l x y) in H by elem_tac
  | H : context [le_of ?x ?y] |- _ => rewrite (le_of_rank l x y) in H by elem_tac
  | |- context [lt_of ?x ?y] => rewrite (lt_of_rank l x y) by elem_tac
  | |- context [le_of ?x ?y] => rewrite (le_of_rank l x y) by elem_tac
  end; lia.

Lemma le_of_pair (a b c d : Z) : le_of (a, b) (c, d) <-> a < c \/ (a = c /\ b <= d).
Proof.
  unfold le_of. rewrite cmp_pair. unfold cmp, Z_ord.
  destruct (Z.compare_spec a c); simpl; [|naive_solver lia..].
  rewrite Z.compare_gt_iff. split; [intros; right; lia|lia].
Qed.

(** * Merges that converge

    The merge of a replicated datum is expected to be a join on the states
    that occur: associative, commutative and idempotent on a domain [D] closed
    under it.  [merge_converges] is what the interface gives its clients: the
    result of merging depends only on the set of states merged, not on their
    order or on how often each is delivered. *)
Class Semilattice {A : Type} (D : A -> Prop) (f : A -> A -> A) : Prop := {
  sl_closed x y : D x -> D y -> D (f x y);
  sl_assoc x y z : D x -> D y -> D z -> f (f x y) z = f x (f y z);
  sl_comm x y : D x -> D y -> f x y = f y x;
  sl_idem x : D x -> f x x = x;
}.

Section SemilatticeFacts.
Context {A : Type} (D : A -> Prop) (f : A -> A -> A) `{!Semilattice D f}.

Lemma foldl_closed l x : D x -> Forall D l -> D (foldl f x l).
Proof.
  revert x. induction l as [|y l IH]; intros x Hx Hl; [done|]. inversion Hl; subst.
  apply IH; [by apply sl_closed|done].
Qed.

(** The fold absorbs its start and each of its elements. *)
Lemma foldl_absorbs l x z : D x -> Forall D l -> z ∈ x :: l -> f z (foldl f x l) = foldl f x l.
Proof.
  revert x z. induction l as [|y l IH]; intros x z Hx Hl Hz; simpl.
  - apply list_elem_of_singleton in Hz as ->. by apply sl_idem.
  - inversion Hl as [|? ? Hy Hl']; subst. pose proof (sl_closed x y Hx Hy) as Hxy.
    assert (Hf : f (f x y) (foldl f (f x y) l) = foldl f (f x y) l) by (apply IH; [done..|left]).
    pose proof (foldl_closed l (f x y) Hxy Hl') as Hr.
    apply elem_of_cons in Hz as [->|[->|Hz]%elem_of_cons].
    + rewrite <- Hf at 1. rewrite <- sl_assoc by done. rewrite <- (sl_assoc x x y) by done.
      rewrite sl_idem by done. exact Hf.
    + rewrite <- Hf at 1. rewrite <- sl_assoc by done.
      rewrite (sl_comm x y), <- (sl_assoc y y x), sl_idem, (sl_comm y x) by done. exact Hf.
    + apply IH; [done..|by right].
Qed.

Lemma foldl_least l x u :
  D x -> Forall D l -> D u -> (forall z, z ∈ x :: l -> f z u = u) -> f (foldl f x l) u = u.
Proof.
  revert x. induction l as [|y l IH]; intros x Hx Hl Hu Hz; simpl; [apply Hz; left|].
  inversion Hl as [|? ? Hy Hl']; subst. apply IH; [by apply sl_closed|done..|].
  intros z [->|Hin]%elem_of_cons; [|apply Hz; set_solver].
  rewrite sl_assoc, (Hz y), (Hz x) by (done || set_solver). done.
Qed.

Lemma merge_converges x l y k :
  D x -> Forall D l -> D y -> Forall D k ->
  (forall z, z ∈ x :: l <-> z ∈ y :: k) -> foldl f x l = foldl f y k.
Proof.
  intros Hx Hl Hy Hk Heq.
  pose proof (foldl_closed l x Hx Hl) as H1. pose proof (foldl_closed k y Hy Hk) as H2.
  rewrite <- (foldl_least l x (foldl f y k)); [|done..|].
  - rewrite sl_comm by done. rewrite (foldl_least k y (foldl f x l)); [done..|].
    intros z Hz. apply foldl_absorbs; [done..|by apply Heq].
  - intros z Hz. apply foldl_absorbs; [done..|by apply Heq].
Qed.

(** The order of a semilattice. *)
Definition below (x y : A) : Prop := f x y = y.
Lemma below_refl x : D x -> below x x.
Proof. apply sl_idem. Qed.
Lemma below_trans x y z : D x -> D y -> D z -> below x y -> below y z -> below x z.
Proof. unfold below. intros Hx Hy Hz Hxy Hyz. by rewrite <- Hyz, <- sl_assoc, Hxy by done. Qed.
Lemma below_antisym x y : D x -> D y -> below x y -> below y x -> x = y.
Proof. unfold below. intros Hx Hy Hxy Hyx. by rewrite <- Hyx, sl_comm by done. Qed.
Lemma below_join x y z : D x -> D y -> D z -> below (f x y) z <-> below x z /\ below y z.
Proof.
  unfold below. intros Hx Hy Hz. split.
  - intros E. split; rewrite <- E at 1; rewrite <- sl_assoc by (done || by apply sl_closed).
    + by rewrite <- (sl_assoc x x y), sl_idem.
    + by rewrite (sl_comm x y), <- (sl_assoc y y x), sl_idem, (sl_comm y x).
  - intros [E1 E2]. by rewrite sl_assoc, E2.
Qed.
End SemilatticeFacts.

(** A merge that keeps one of its arguments, of the higher rank, is a join on
    every domain on which the rank tells states apart. *)
Section SemilatticeOfRank.
Context {A B : Type} `{OrdLaws B} (D : A -> Prop) (rank : A -> B) (f : A -> A -> A).
Hypothesis rank_inj : forall x y, D x -> D y -> rank x = rank y -> x = y.
Hypothesis f_max : forall x y, D x -> D y ->
  (f x y = x /\ le_of (rank y) (rank x)) \/ (f x y = y /\ le_of (rank x) (rank y)).

Lemma rank_closed x y : D x -> D y -> D (f x y).
Proof. intros Hx Hy. by destruct (f_max x y Hx Hy) as [[-> _]|[-> _]]. Qed.

Lemma rank_bound x y b :
  D x -> D y -> le_of (rank (f x y)) b <-> le_of (rank x) b /\ le_of (rank y) b.
Proof.
  intros Hx Hy. destruct (f_max x y Hx Hy) as [[-> Hl]|[-> Hl]]; split;
    intuition eauto using le_of_trans.
Qed.

Lemma rank_ext x y : D x -> D y -> (forall b, le_of (rank x) b <-> le_of (rank y) b) -> x = y.
Proof. intros Hx Hy E. apply rank_inj; [done..|]. apply le_of_antisym; apply E, le_of_refl. Qed.

Lemma semilattice_of_rank : Semilattice D f.
Proof.
  split.
  - apply rank_closed.
  - intros x y z Hx Hy Hz.
    apply rank_ext; [auto using rank_closed..|]. intros b.
    rewrite !rank_bound by auto using rank_closed. tauto.
  - intros x y Hx Hy. apply rank_ext; [auto using rank_closed..|]. intros b.
    rewrite !rank_bound by done. tauto.
  - intros x Hx. by destruct (f_max x x Hx Hx) as [[-> _]|[-> _]].
Qed.
End SemilatticeOfRank.

(** Joins of pairs. *)
Definition pair_merge {A B} (f : A -> A -> A) (g : B -> B -> B) (x y : A * B) : A * B :=
  (f x.1 y.1, g x.2 y.2).

Lemma prod_semilattice {A B} (D : A -> Prop) (E : B -> Prop) f g :
  Semilattice D f -> Semilattice E g ->
  Semilattice (fun p : A * B => D p.1 /\ E p.2) (pair_merge f g).
Proof.
  intros Hf Hg. unfold pair_merge. split.
  - intros x y [? ?] [? ?]. split; simpl; by apply sl_closed.
  - intros x y z [? ?] [? ?] [? ?]. simpl. f_equal; by apply sl_assoc.
  - intros x y [? ?] [? ?]. f_equal; by apply sl_comm.
  - intros [x1 x2] [? ?]. f_equal; by apply sl_idem.
Qed.

(** A view that maps merges to joins converges when the joins do. *)
Lemma view_converges {A B} (P : A -> Prop) (f : A -> A -> A) (D : B -> Prop) (g : B -> B -> B)
    (view : A -> B) :
  Semilattice D g ->
  (forall x y, P x -> P y -> P (f x y) /\ view (f x y) = g (view x) (view y)) ->
  (forall x, P x -> D (view x)) ->
  forall x l y k, P x -> Forall P l -> P y -> Forall P k ->
    (forall z, z ∈ x :: l <-> z ∈ y :: k) -> view (foldl f x l) = view (foldl f y k).
Proof.
  intros Hg Hf HD.
  assert (Hfold : forall l x, P x -> Forall P l -> view (foldl f x l) = foldl g (view x) (view <$> l)).
  { induction l as [|z l IH]; intros x Hx Hl; [done|]. inversion Hl; subst. simpl.
    destruct (Hf x z) as [Hxz <-]; [done..|]. by apply IH. }
  intros x l y k Hx Hl Hy Hk Hsame. rewrite !Hfold by done. apply (merge_converges D g); auto.
  - apply Forall_fmap. eapply Forall_impl; [exact Hl|auto].
  - apply Forall_fmap. eapply Forall_impl; [exact Hk|auto].
  - intros z. rewrite <- !fmap_cons, !list_elem_of_fmap. naive_solver.
Qed.
