(* ===== verification/OrdMap.v ===== *)
(** Ordered maps: the [BTreeMap]s and [BTreeSet]s of the source.

    A map is the list of its entries in ascending key order, with the
    ascending order part of the type, so that two maps with the same lookups
    are equal and iteration order is the order of the keys.  [ordmap K] is an
    instance of stdpp's [FinMap] over any key type with [OrdLaws]: every
    [lookup_*]/[insert_*] lemma and [simplify_map_eq] apply to it, and
    [map_to_list] enumerates the entries in key order. *)
From stdpp Require Export fin_maps fin_map_dom.
From S2P Require Export Prelude.

Section Defs.
Context {K : Type} `{RustOrd K}.

Definition above {A} (k : K) (l : list (K * A)) : bool :=
  forallb (fun p => is_lt (cmp k p.1)) l.

Fixpoint keys_sorted {A} (l : list (K * A)) : bool :=
  match l with
  | [] => true
  | p :: l' => above p.1 l' && keys_sorted l'
  end.

Record ordmap (A : Type) : Type := OrdMap {
  entries : list (K * A);
  entries_sorted : Is_true (keys_sorted entries);
}.

Fixpoint lookup_list {A} (k : K) (l : list (K * A)) : option A :=
  match l with
  | [] => None
  | (k', v) :: l' =>
      match cmp k k' with
      | Eq => Some v
      | Lt => None
      | Gt => lookup_list k l'
      end
  end.

Definition cons_opt {A} (k : K) (o : option A) (l : list (K * A)) : list (K * A) :=
  match o with Some v => (k, v) :: l | None => l end.

Fixpoint alter_list {A} (f : option A -> option A) (k : K) (l : list (K * A)) : list (K * A) :=
  match l with
  | [] => cons_opt k (f None) []
  | (k', v) :: l' =>
      match cmp k k' with
      | Eq => cons_opt k (f (Some v)) l'
      | Lt => cons_opt k (f None) l
      | Gt => (k', v) :: alter_list f k l'
      end
  end.
End Defs.

Arguments ordmap K {_} A.
Arguments OrdMap {K _ A} _ _.
Arguments entries {K _ A} _.
Arguments entries_sorted {K _ A} _.

Section Facts.
Context {K : Type} `{OrdLaws K} `{!EqDecision K}.
Implicit Types k i j : K.

Lemma above_spec {A} k (l : list (K * A)) :
  above k l = true <-> forall p, p ∈ l -> lt_of k p.1.
Proof.
  unfold above. rewrite forallb_forall. setoid_rewrite <- list_elem_of_In.
  by setoid_rewrite is_lt_spec.
Qed.

Lemma keys_sorted_cons {A} (p : K * A) l :
  keys_sorted (p :: l) = true <-> (forall q, q ∈ l -> lt_of p.1 q.1) /\ keys_sorted l = true.
Proof. simpl. by rewrite andb_true_iff, above_spec. Qed.

Lemma lookup_list_above {A} k (l : list (K * A)) :
  (forall p, p ∈ l -> lt_of k p.1) -> lookup_list k l = None.
Proof.
  destruct l as [|[k' v] l]; [done|]. intros Hab; simpl.
  pose proof (Hab (k', v) ltac:(set_solver)) as E. unfold lt_of in E. simpl in E. by rewrite E.
Qed.

Lemma lookup_list_elem {A} k (v : A) l :
  keys_sorted l = true -> lookup_list k l = Some v <-> (k, v) ∈ l.
Proof.
  induction l as [|[k' v'] l IH]; [set_solver|].
  rewrite keys_sorted_cons; simpl. intros [Hab Hs]. rewrite elem_of_cons.
  destruct (cmp k k') eqn:E.
  - apply cmp_eq in E as ->. split; [naive_solver|].
    intros [?|Hin]; [naive_solver|]. by destruct (lt_of_irrefl k' (Hab _ Hin)).
  - split; [done|]. intros [?|Hin].
    + simplify_eq. by rewrite cmp_refl in E.
    + destruct (lt_of_irrefl k). eapply lt_of_trans; [exact E|]. by apply (Hab _ Hin).
  - rewrite (IH Hs). split; [auto|]. intros [?|?]; [|done]. simplify_eq.
    by rewrite cmp_refl in E.
Qed.

Lemma elem_of_alter {A} f k (l : list (K * A)) p :
  p ∈ alter_list f k l -> p.1 = k \/ p ∈ l.
Proof.
  assert (forall o (m : list (K * A)), p ∈ cons_opt k o m -> p.1 = k \/ p ∈ m) as Hc.
  { intros [] m; simpl; [rewrite elem_of_cons|]; naive_solver. }
  induction l as [|[k' v] l IH]; simpl; [apply Hc|].
  rewrite elem_of_cons. destruct (cmp k k'); [| |rewrite elem_of_cons; naive_solver].
  - intros [?|?]%Hc; auto.
  - intros [?|?%elem_of_cons]%Hc; auto.
Qed.

Lemma keys_sorted_cons_opt {A} k (o : option A) l :
  (forall p, p ∈ l -> lt_of k p.1) -> keys_sorted l = true -> keys_sorted (cons_opt k o l) = true.
Proof. intros. destruct o; simpl cons_opt; [apply keys_sorted_cons|]; auto. Qed.

Lemma keys_sorted_alter {A} f k (l : list (K * A)) :
  keys_sorted l = true -> keys_sorted (alter_list f k l) = true.
Proof.
  induction l as [|[k' v] l IH]; intros Hs.
  - by apply keys_sorted_cons_opt; [intros ? ?%elem_of_nil|].
  - pose proof Hs as [Hab Hs']%keys_sorted_cons; simpl in Hab |- *.
    destruct (cmp k k') eqn:E.
    + apply cmp_eq in E as ->. by apply keys_sorted_cons_opt.
    + apply keys_sorted_cons_opt; [|done].
      intros p [->|Hp]%elem_of_cons; [done|]. eapply lt_of_trans; [exact E|by apply Hab].
    + apply keys_sorted_cons; simpl. split; [|auto].
      intros q [->|?]%elem_of_alter; [by apply cmp_gt_lt|auto].
Qed.

Lemma lookup_cons_opt {A} k (o : option A) l :
  (forall p, p ∈ l -> lt_of k p.1) -> lookup_list k (cons_opt k o l) = o.
Proof. destruct o; simpl; intros; [by rewrite cmp_refl|by apply lookup_list_above]. Qed.

Lemma lookup_alter_eq {A} f k (l : list (K * A)) :
  keys_sorted l = true -> lookup_list k (alter_list f k l) = f (lookup_list k l).
Proof.
  induction l as [|[k' v] l IH]; intros Hs.
  - by apply lookup_cons_opt; intros ? ?%elem_of_nil.
  - apply keys_sorted_cons in Hs as [Hab Hs']; simpl in Hab |- *.
    destruct (cmp k k') eqn:E.
    + apply cmp_eq in E as ->. by apply lookup_cons_opt.
    + apply lookup_cons_opt.
      intros p [->|Hp]%elem_of_cons; [done|]. eapply lt_of_trans; [exact E|by apply Hab].
    + simpl. rewrite E. auto.
Qed.

Lemma lookup_cons_opt_ne {A} k j (o : option A) l :
  k <> j -> (forall p, p ∈ l -> lt_of k p.1) -> lookup_list j (cons_opt k o l) = lookup_list j l.
Proof.
  intros Hne Hab. destruct o; simpl; [|done]. destruct (cmp j k) eqn:E.
  - apply cmp_eq in E. congruence.
  - symmetry. apply lookup_list_above. intros p Hp. eapply lt_of_trans; [exact E|auto].
  - done.
Qed.

Lemma lookup_alter_ne {A} f k j (l : list (K * A)) :
  k <> j -> keys_sorted l = true -> lookup_list j (alter_list f k l) = lookup_list j l.
Proof.
  intros Hne. induction l as [|[k' v] l IH]; intros Hs.
  - by apply lookup_cons_opt_ne; [|intros ? ?%elem_of_nil].
  - pose proof Hs as [Hab Hs']%keys_sorted_cons; simpl in Hab |- *.
    destruct (cmp k k') eqn:E.
    + apply cmp_eq in E as ->. rewrite lookup_cons_opt_ne by done.
      destruct (cmp j k') eqn:E'; [apply cmp_eq in E'; congruence| |done].
      apply lookup_list_above. intros p Hp. eapply lt_of_trans; [exact E'|auto].
    + rewrite lookup_cons_opt_ne; [done..|].
      intros p [->|Hp]%elem_of_cons; [done|]. eapply lt_of_trans; [exact E|by apply Hab].
    + simpl. by rewrite (IH Hs').
Qed.

(** ** Instances of the finite-map operations *)

Lemma sorted_of {A} (m : ordmap K A) : keys_sorted (entries m) = true.
Proof. apply Is_true_true, entries_sorted. Qed.

Definition mk {A} (l : list (K * A)) (Hl : keys_sorted l = true) : ordmap K A :=
  OrdMap l (Is_true_true_2 _ Hl).

Global Instance ordmap_lookup A : Lookup K A (ordmap K A) := fun k m => lookup_list k (entries m).
Global Instance ordmap_empty A : Empty (ordmap K A) := OrdMap [] I.
Global Instance ordmap_partial_alter A : PartialAlter K A (ordmap K A) := fun f k m =>
  mk (alter_list f k (entries m)) (keys_sorted_alter f k _ (sorted_of m)).
Global Instance ordmap_fold A : MapFold K A (ordmap K A) := fun B f b m =>
  foldr (fun p => f p.1 p.2) b (entries m).

Lemma keys_sorted_fmap {A B} (f : A -> B) (l : list (K * A)) :
  keys_sorted l = true -> keys_sorted (prod_map id f <$> l) = true.
Proof.
  induction l as [|p l IH]; [done|]. rewrite keys_sorted_cons. intros [Hab Hs]; simpl fmap.
  apply keys_sorted_cons. split; [|auto]. intros q (p' & -> & ?)%list_elem_of_fmap; simpl. auto.
Qed.
Global Instance ordmap_fmap : FMap (ordmap K) := fun A B f m =>
  mk (prod_map id f <$> entries m) (keys_sorted_fmap f _ (sorted_of m)).

Definition omap_entry {A B} (f : A -> option B) (p : K * A) : option (K * B) :=
  (fun b => (p.1, b)) <$> f p.2.

Lemma keys_sorted_omap {A B} (f : A -> option B) (l : list (K * A)) :
  keys_sorted l = true -> keys_sorted (omap (omap_entry f) l) = true.
Proof.
  induction l as [|p l IH]; [done|]. rewrite keys_sorted_cons. intros [Hab Hs]; simpl.
  destruct (omap_entry f p) as [q|] eqn:E; [|auto]. apply keys_sorted_cons. split; [|auto].
  unfold omap_entry in E. destruct (f p.2); simplify_eq/=.
  intros q' (p' & Hin & E')%list_elem_of_omap. unfold omap_entry in E'.
  destruct (f p'.2); simplify_eq/=. auto.
Qed.
Global Instance ordmap_omap : OMap (ordmap K) := fun A B f m =>
  mk (omap (omap_entry f) (entries m)) (keys_sorted_omap f _ (sorted_of m)).

Global Instance ordmap_merge : Merge (ordmap K) := fun A B C f m1 m2 =>
  let set_key k m := partial_alter (fun _ => diag_None f (m1 !! k) (m2 !! k)) k m in
  foldr (fun p => set_key p.1) (foldr (fun p => set_key p.1) ∅ (entries m2)) (entries m1).

Lemma ordmap_eq {A} (m1 m2 : ordmap K A) : entries m1 = entries m2 -> m1 = m2.
Proof.
  destruct m1 as [l1 H1], m2 as [l2 H2]; simpl. intros ->. f_equal. apply Is_true_pi.
Qed.

Lemma ordmap_elem {A} (m : ordmap K A) k v : m !! k = Some v <-> (k, v) ∈ entries m.
Proof. apply lookup_list_elem, sorted_of. Qed.

Lemma sorted_ext {A} (l1 l2 : list (K * A)) :
  keys_sorted l1 = true -> keys_sorted l2 = true -> (forall p, p ∈ l1 <-> p ∈ l2) -> l1 = l2.
Proof.
  revert l2. induction l1 as [|p l1 IH]; intros [|q l2] S1 S2 E; [done| | |].
  { destruct (not_elem_of_nil q). apply E. left. }
  { destruct (not_elem_of_nil p). apply E. left. }
  apply keys_sorted_cons in S1 as [A1 S1], S2 as [A2 S2].
  assert (p = q) as ->.
  { assert (p ∈ q :: l2) as [->|Hp]%elem_of_cons by (apply E; left); [done|].
    assert (q ∈ p :: l1) as [->|Hq]%elem_of_cons by (apply E; left); [done|].
    destruct (lt_of_irrefl p.1). eapply lt_of_trans; eauto. }
  f_equal. apply IH; [done..|]. intros p. split; intros Hp.
  - assert (p ∈ q :: l2) as [->|?]%elem_of_cons by (apply E; by right); [|done].
    by destruct (lt_of_irrefl q.1 (A1 _ Hp)).
  - assert (p ∈ q :: l1) as [->|?]%elem_of_cons by (apply E; by right); [|done].
    by destruct (lt_of_irrefl q.1 (A2 _ Hp)).
Qed.

Lemma lookup_set_keys {A B} (g : K -> option B) (l : list (K * A)) (m : ordmap K B) k :
  foldr (fun p => partial_alter (fun _ => g p.1) p.1) m l !! k
  = if decide (k ∈ l.*1) then g k else m !! k.
Proof.
  induction l as [|p l IH]; [done|].
  cbn [foldr fmap list_fmap]. set (m' := foldr _ m l) in *. destruct (decide (p.1 = k)) as [<-|Hne].
  - rewrite decide_True by set_solver. unfold lookup, ordmap_lookup; simpl.
    apply (lookup_alter_eq (fun _ => g p.1)), sorted_of.
  - etransitivity; [apply (lookup_alter_ne (fun _ => g p.1)); [done|apply sorted_of]|].
    etransitivity; [exact IH|]. apply decide_ext. set_solver.
Qed.

Lemma ordmap_keys_None {A} (m : ordmap K A) k : k ∉ (entries m).*1 -> m !! k = None.
Proof.
  intros Hk. apply eq_None_not_Some. intros [v Hv]. apply ordmap_elem in Hv.
  apply Hk, list_elem_of_fmap. by exists (k, v).
Qed.

Global Instance ordmap_finmap : FinMap K (ordmap K).
Proof.
  split.
  - intros A m1 m2 E. apply ordmap_eq, sorted_ext; [apply sorted_of..|].
    intros [k v]. by rewrite <- !ordmap_elem, E.
  - done.
  - intros A f m i. apply lookup_alter_eq, sorted_of.
  - intros A f m i j Hne. by apply lookup_alter_ne, sorted_of.
  - intros A B f m i. apply option_eq. intros b. rewrite fmap_Some, ordmap_elem; simpl.
    rewrite list_elem_of_fmap. setoid_rewrite ordmap_elem. split.
    + intros ([k a] & E & Hin). simplify_eq/=. eauto.
    + intros (a & Hin & ->). by exists (i, a).
  - intros A B f m i. apply option_eq. intros b. rewrite bind_Some, ordmap_elem; simpl.
    rewrite list_elem_of_omap. setoid_rewrite ordmap_elem. unfold omap_entry. split.
    + intros ([k a] & Hin & (b' & E & ?)%fmap_Some). simplify_eq/=. eauto.
    + intros (a & Hin & E). exists (i, a). split; [done|]. simpl. by rewrite E.
  - intros A B C f m1 m2 i. unfold merge, ordmap_merge.
    rewrite (lookup_set_keys (fun k => diag_None f (m1 !! k) (m2 !! k))),
      (lookup_set_keys (fun k => diag_None f (m1 !! k) (m2 !! k))).
    case_decide as E1; [done|]. case_decide as E2; [done|].
    by rewrite (ordmap_keys_None m1), (ordmap_keys_None m2).
  - done.
  - intros A P Hemp Hins [l Hl]. induction l as [|[k x] l IH].
    { replace (OrdMap [] Hl) with (∅ : ordmap K A) by by apply ordmap_eq. done. }
    pose proof (Is_true_true_1 _ Hl) as [Hab Hs]%keys_sorted_cons; simpl in Hab.
    set (m := mk l Hs). specialize (IH (Is_true_true_2 _ Hs)).
    assert (Hhead : forall B (g : A -> B) x',
      entries (<[k:=x']> (g <$> m)) = (k, x') :: entries (g <$> m)).
    { intros B g x'. unfold insert, map_insert, partial_alter, ordmap_partial_alter; simpl.
      destruct l as [|[k' v] l]; [done|]. simpl.
      pose proof (Hab (k', v) ltac:(set_solver)) as E. unfold lt_of in E. simpl in E. by rewrite E. }
    replace (OrdMap ((k, x) :: l) Hl) with (<[k:=x]> m).
    2:{ apply ordmap_eq. pose proof (Hhead A id x) as E.
        assert ((id <$> m) = m) as Em.
        { apply ordmap_eq. simpl. clear. induction l as [|[] l IHl]; [done|]. simpl. by f_equal. }
        rewrite Em in E. by rewrite E. }
    apply Hins; [|intros B C f g b x'; unfold map_fold, ordmap_fold at 1; by rewrite Hhead|done].
    apply (lookup_list_above k l). auto.
Qed.
End Facts.

(** * Map idioms of the source *)

Section Idioms.
Context {K : Type} `{OrdLaws K} `{!EqDecision K} {A : Type}.
Implicit Types (m : ordmap K A) (k : K).

Definition keys m : list K := (entries m).*1.
Definition values m : list A := (entries m).*2.

(** [entry(k).and_modify(f).or_insert(d)]. *)
Definition upsert (f : A -> A) (d : A) k m : ordmap K A :=
  partial_alter (fun o => Some (match o with Some x => f x | None => d end)) k m.

(** [range(k..)] and [range(..k)]. *)
Definition range_from k m : list (K * A) := List.filter (fun p => is_ge (cmp p.1 k)) (entries m).
Definition range_to k m : list (K * A) := List.filter (fun p => is_lt (cmp p.1 k)) (entries m).

Lemma map_to_list_entries m : map_to_list m = entries m.
Proof.
  unfold map_to_list, map_fold, ordmap_fold. induction (entries m) as [|[k v] l IH]; [done|].
  simpl. by f_equal.
Qed.

Lemma filter_above k (l : list (K * A)) :
  (forall q, q ∈ l -> lt_of k q.1) ->
  List.filter (fun p => is_lt (cmp p.1 k)) l = [] /\ List.filter (fun p => is_ge (cmp p.1 k)) l = l.
Proof.
  induction l as [|q l IH]; intros Hab; [done|]. cbn [List.filter].
  assert (E : cmp q.1 k = Gt) by (apply cmp_gt_lt, Hab; left).
  destruct IH as [IH1 IH2]; [intros; apply Hab; by right|]. rewrite E. cbn [is_lt is_ge].
  by rewrite IH1, IH2.
Qed.

(** The entries below a key come before the others. *)
Lemma entries_range_split k m : entries m = range_to k m ++ range_from k m.
Proof.
  unfold range_to, range_from. pose proof (sorted_of m) as Hs. revert Hs.
  induction (entries m) as [|[k' v] l IH]; [done|]. rewrite keys_sorted_cons. intros [Hab Hs]. simpl in Hab.
  cbn [List.filter fst]. destruct (cmp k' k) eqn:E; cbn [is_lt is_ge].
  - apply cmp_eq in E as ->. by destruct (filter_above k l Hab) as [-> ->].
  - simpl. f_equal. auto.
  - destruct (filter_above k l) as [-> ->]; [|done].
    intros q Hq. eapply lt_of_trans; [apply cmp_gt_lt, E|]. by apply Hab.
Qed.

Lemma lookup_upsert_eq f d k m :
  upsert f d k m !! k = Some (match m !! k with Some x => f x | None => d end).
Proof. unfold upsert. by rewrite lookup_partial_alter_eq. Qed.

Lemma lookup_upsert_ne f d k j m : k <> j -> upsert f d k m !! j = m !! j.
Proof. intros. unfold upsert. by rewrite lookup_partial_alter_ne. Qed.

Lemma lookup_upsert f d k j m :
  upsert f d k m !! j
  = if decide (k = j) then Some (match m !! j with Some x => f x | None => d end) else m !! j.
Proof. case_decide; [subst; apply lookup_upsert_eq | by apply lookup_upsert_ne]. Qed.

Lemma elem_of_values m v : v ∈ values m <-> exists k, m !! k = Some v.
Proof.
  unfold values. rewrite list_elem_of_fmap. setoid_rewrite ordmap_elem. split.
  - intros ([k v'] & -> & ?). eauto.
  - intros (k & ?). by exists (k, v).
Qed.

Lemma elem_of_keys m k : k ∈ keys m <-> is_Some (m !! k).
Proof.
  unfold keys, is_Some. rewrite list_elem_of_fmap. setoid_rewrite ordmap_elem. split.
  - intros ([k' v] & -> & ?). eauto.
  - intros (v & ?). by exists (k, v).
Qed.

Lemma keys_strongly_sorted m : StronglySorted lt_of (keys m).
Proof.
  unfold keys. pose proof (sorted_of m) as Hs. revert Hs.
  induction (entries m) as [|p l IH]; [constructor|].
  rewrite keys_sorted_cons. intros [Hab Hs]; simpl. constructor; [auto|].
  rewrite Forall_fmap, Forall_forall. auto.
Qed.

Lemma strongly_sorted_NoDup (l : list K) : StronglySorted lt_of l -> NoDup l.
Proof.
  induction 1 as [|k l _ IH Hab]; constructor; [|done]. intros Hin.
  rewrite Forall_forall in Hab. by destruct (lt_of_irrefl k (Hab _ Hin)).
Qed.

Lemma keys_NoDup m : NoDup (keys m).
Proof. apply strongly_sorted_NoDup, keys_strongly_sorted. Qed.

Lemma entries_NoDup m : NoDup (entries m).
Proof. apply (NoDup_fmap_1 fst), keys_NoDup. Qed.

(** Any insertion-order-independent summary of the entries can be computed
    after taking one key out. *)
Lemma entries_delete m k v :
  m !! k = Some v -> entries m ≡ₚ (k, v) :: entries (delete k m).
Proof. intros E. rewrite <- !map_to_list_entries. symmetry. by apply map_to_list_delete. Qed.

Lemma entries_insert m k v :
  m !! k = None -> entries (<[k:=v]> m) ≡ₚ (k, v) :: entries m.
Proof. intros E. rewrite <- !map_to_list_entries. by apply map_to_list_insert. Qed.
End Idioms.

#[export] Hint Rewrite @lookup_upsert_eq : cassrw.
#[export] Hint Rewrite @lookup_upsert_ne using done : cassrw.

(** Folding a merge over the entries of another map: the loops
    [for (k, v) in &other { self.entry(k).and_modify(..).or_insert(..) }]. *)
Section MergeLoop.
Context {K : Type} `{OrdLaws K} `{!EqDecision K} {A : Type} (f : A -> A -> A).

Definition merge_loop (m other : ordmap K A) : ordmap K A :=
  foldl (fun acc p => upsert (fun x => f x p.2) p.2 p.1 acc) m (entries other).

Definition merge_opt (o p : option A) : option A :=
  match o, p with
  | Some x, Some y => Some (f x y)
  | Some x, None => Some x
  | None, p => p
  end.

Lemma lookup_merge_loop m other k : merge_loop m other !! k = merge_opt (m !! k) (other !! k).
Proof.
  unfold merge_loop. change (other !! k) with (lookup_list k (entries other)). pose proof (sorted_of other) as Hs. revert m Hs.
  induction (entries other) as [|[k' v] l IH]; intros m Hs; [simpl; by destruct (m !! k)|].
  pose proof Hs as [Hab Hs']%keys_sorted_cons; simpl in Hab. simpl foldl. rewrite (IH _ Hs').
  rewrite lookup_upsert. simpl lookup_list. case_decide as E.
  - subst k'. rewrite cmp_refl, (lookup_list_above k l) by auto. by destruct (m !! k).
  - destruct (cmp k k') eqn:E'; [apply cmp_eq in E'; congruence| |done].
    rewrite (lookup_list_above k l); [done|]. intros p Hp. eapply lt_of_trans; [exact E'|auto].
Qed.

Lemma merge_opt_assoc (P : A -> Prop) o p q :
  (forall x y z, P x -> P y -> P z -> f (f x y) z = f x (f y z)) ->
  (forall x, o = Some x -> P x) -> (forall x, p = Some x -> P x) -> (forall x, q = Some x -> P x) ->
  merge_opt (merge_opt o p) q = merge_opt o (merge_opt p q).
Proof. intros Hf ???. destruct o, p, q; simpl; try done. rewrite Hf; auto. Qed.

Lemma merge_opt_comm o p :
  (forall x y, o = Some x -> p = Some y -> f x y = f y x) -> merge_opt o p = merge_opt p o.
Proof. intros Hf. destruct o, p; simpl; try done. by rewrite Hf. Qed.

Lemma merge_opt_idem o : (forall x, o = Some x -> f x x = x) -> merge_opt o o = o.
Proof. intros Hf. destruct o; simpl; [|done]. by rewrite Hf. Qed.
End MergeLoop.
#[export] Hint Rewrite @lookup_merge_loop : cassrw.

(** Inserting the entries of a map one by one rebuilds it. *)
Section Rebuild.
Context {K A : Type} `{OrdLaws K} `{!EqDecision K}.
Implicit Types (l : list (K * A)) (m : ordmap K A).

Definition insert_all m l : ordmap K A := foldl (fun m e => <[e.1 := e.2]> m) m l.

Lemma lookup_insert_all_out l m k : k ∉ l.*1 -> insert_all m l !! k = m !! k.
Proof.
  revert m. induction l as [|[k' v] l IH]; intros m Hk; [done|]. cbn in *.
  rewrite IH by set_solver. apply lookup_insert_ne. set_solver.
Qed.

Lemma lookup_insert_all_in l m k v : NoDup l.*1 -> (k, v) ∈ l -> insert_all m l !! k = Some v.
Proof.
  revert m. induction l as [|[k' v'] l IH]; intros m Hnd Hin; [by apply not_elem_of_nil in Hin|].
  cbn in *. apply NoDup_cons in Hnd as [Hk Hnd]. apply elem_of_cons in Hin as [[= -> ->]|Hin]; [|by apply IH].
  fold (insert_all (<[k' := v']> m) l). rewrite lookup_insert_all_out by done. apply lookup_insert_eq.
Qed.

Lemma insert_all_entries m : insert_all ∅ (entries m) = m.
Proof.
  apply map_eq. intros k. destruct (m !! k) as [v|] eqn:E.
  - apply lookup_insert_all_in; [apply keys_NoDup|]. by apply ordmap_elem.
  - rewrite lookup_insert_all_out; [apply lookup_empty|].
    change ((entries m).*1) with (keys m). rewrite elem_of_keys. by intros [? ?]; simplify_eq.
Qed.
End Rebuild.

(** Merging maps key by key is a join when the merge of values is. *)
Definition map_all {K A} `{OrdLaws K} `{!EqDecision K} (D : K -> A -> Prop) (m : ordmap K A) : Prop :=
  forall k v, m !! k = Some v -> D k v.

Lemma merge_loop_semilattice {K A} `{OrdLaws K} `{!EqDecision K} (D : K -> A -> Prop) (f : A -> A -> A) :
  (forall k, Semilattice (D k) f) -> Semilattice (map_all D) (merge_loop f).
Proof.
  intros HD. split.
  - intros x y Hx Hy k v. rewrite lookup_merge_loop. specialize (Hx k). specialize (Hy k).
    destruct (x !! k), (y !! k); simpl; intros [= <-]; eauto.
    apply sl_closed; eauto.
  - intros x y z Hx Hy Hz. apply map_eq. intros k. rewrite !lookup_merge_loop.
    apply (merge_opt_assoc f (D k)); eauto. intros. by apply (sl_assoc (D:=D k)).
  - intros x y Hx Hy. apply map_eq. intros k. rewrite !lookup_merge_loop.
    apply merge_opt_comm. intros. apply (sl_comm (D:=D k)); eauto.
  - intros x Hx. apply map_eq. intros k. rewrite lookup_merge_loop.
    apply merge_opt_idem. intros. apply (sl_idem (D:=D k)); eauto.
Qed.

Lemma merge_opt_semilattice {A} (D : A -> Prop) (f : A -> A -> A) :
  Semilattice D f -> Semilattice (fun o => forall x, o = Some x -> D x) (merge_opt f).
Proof.
  intros HD. split.
  - intros [x|] [y|] Hx Hy z; simpl; intros [= <-]; auto. apply sl_closed; auto.
  - intros x y z Hx Hy Hz. apply (merge_opt_assoc f D); auto. intros. by apply sl_assoc.
  - intros x y Hx Hy. apply merge_opt_comm. intros. apply sl_comm; auto.
  - intros x Hx. apply merge_opt_idem. intros. apply sl_idem; auto.
Qed.

(** Sorting a list of distinct keys yields the entries of the map it lists. *)
Section SortEntries.
Context {K : Type} `{OrdLaws K} `{!EqDecision K} {A : Type}.
Implicit Types (m : ordmap K A) (l : list (K * A)).

Abbreviation key_cmp := (fun p q : K * A => cmp p.1 q.1).
Abbreviation key_le := (fun p q : K * A => le_of p.1 q.1).

#[local] Instance key_le_trans : Transitive key_le.
Proof. intros p q r. apply le_of_trans. Qed.

Lemma sort_by_key_sorted l : StronglySorted key_le (sort_by key_cmp l).
Proof.
  apply Sorted_StronglySorted; [apply _|]. apply sort_by_sorted; intros p q E; ord_to_prop; auto with cass.
Qed.

Lemma sorted_le_strict l : StronglySorted key_le l -> NoDup l.*1 -> keys_sorted l = true.
Proof.
  induction 1 as [|p l _ IH Hab]; [done|]. simpl fmap. intros [Hnin Hnd]%NoDup_cons.
  apply keys_sorted_cons. split; [|auto]. rewrite Forall_forall in Hab. intros q Hq.
  destruct (proj1 (le_of_lt_eq _ _) (Hab q Hq)) as [?|E]; [done|].
  destruct Hnin. rewrite E. apply list_elem_of_fmap. eauto.
Qed.

Lemma sort_entries m l :
  NoDup l.*1 -> (forall k v, (k, v) ∈ l <-> m !! k = Some v) -> sort_by key_cmp l = entries m.
Proof.
  intros Hnd Hin. apply sorted_ext.
  - apply sorted_le_strict; [apply sort_by_key_sorted|]. by rewrite sort_by_perm.
  - apply sorted_of.
  - intros [k v]. by rewrite sort_by_perm, Hin, ordmap_elem.
Qed.

Lemma size_entries m : size m = length (entries m).
Proof. rewrite <- map_to_list_entries. symmetry. apply length_map_to_list. Qed.
End SortEntries.

(** Union of a list of maps when every key lives in a known one of them. *)
Section UnionList.
Context {K : Type} `{OrdLaws K} `{!EqDecision K} {A : Type}.
Implicit Types (ms : list (ordmap K A)) (k : K).

Lemma lookup_union_list ms k i :
  (forall j m, ms !! j = Some m -> is_Some (m !! k) -> j = i) ->
  foldr (∪) ∅ ms !! k = ms !! i ≫= (.!! k).
Proof.
  revert i. induction ms as [|m ms IH]; intros i Hi; [by destruct i; simpl; apply lookup_empty|].
  cbn [foldr]. rewrite lookup_union. destruct (m !! k) as [v|] eqn:E.
  - pose proof (Hi 0%nat m eq_refl ltac:(eauto)) as <-. simpl. rewrite E.
    by destruct (foldr _ _ _ !! k).
  - rewrite (left_id None _). destruct i as [|i]; simpl.
    + rewrite E. rewrite (IH (length ms)), (lookup_ge_None_2 ms) by
        (first [lia | intros j m' Hj Hs; by pose proof (Hi (S j) m' Hj Hs)]). done.
    + apply IH. intros j m' Hj Hs. by pose proof (Hi (S j) m' Hj Hs); simplify_eq.
Qed.
End UnionList.

(** * Loops over maps *)

(** A loop over a list with distinct keys, each turn of which changes what is
    seen at its own key only. *)
Section KeyedLoop.
Context {S K A V : Type} `{EqDecision K} (look : S -> K -> V) (step : S -> K * A -> S) (h : K -> V -> A -> V).
Context (P : S -> Prop) (Hstep : forall s p, P s -> P (step s p)).
Context (Hlook : forall s p k, P s -> look (step s p) k = if decide (p.1 = k) then h k (look s k) p.2 else look s k).

Lemma keyed_loop_keeps s l : P s -> P (foldl step s l).
Proof. revert s. induction l; intros; simpl; auto. Qed.

Lemma keyed_loop_out s l k : P s -> k ∉ l.*1 -> look (foldl step s l) k = look s k.
Proof.
  revert s. induction l as [|p l IH]; intros s Hs Hk; simpl in *; [done|].
  rewrite IH by (auto || set_solver). rewrite Hlook by done. apply decide_False. set_solver.
Qed.

Lemma keyed_loop_in s l k a :
  P s -> NoDup l.*1 -> (k, a) ∈ l -> look (foldl step s l) k = h k (look s k) a.
Proof.
  revert s. induction l as [|p l IH]; intros s Hs Hnd Hin; [by apply not_elem_of_nil in Hin|].
  simpl in *. apply NoDup_cons in Hnd as [Hp Hnd]. apply elem_of_cons in Hin as [<-|Hin].
  - rewrite keyed_loop_out by auto. rewrite Hlook by done. by apply decide_True.
  - rewrite IH by auto. rewrite Hlook, decide_False; [done| |done].
    intros <-. apply Hp, list_elem_of_fmap. by exists (p.1, a).
Qed.

Lemma keyed_loop_find s l (find : K -> option A) k :
  (forall k a, (k, a) ∈ l <-> find k = Some a) -> P s -> NoDup l.*1 ->
  look (foldl step s l) k = match find k with Some a => h k (look s k) a | None => look s k end.
Proof.
  intros Hf Hs Hnd. destruct (find k) as [a|] eqn:E; [by apply keyed_loop_in; rewrite ?Hf|].
  apply keyed_loop_out; [done|]. intros ([k' a] & -> & Hin)%list_elem_of_fmap. apply Hf in Hin. simpl in *. congruence.
Qed.
End KeyedLoop.

Section MapLoops.
Context {S A V : Type} (P : S -> Prop).

Lemma ordmap_loop {K} `{OrdLaws K} `{!EqDecision K} (look : S -> K -> V) step h (m : ordmap K A) s k :
  (forall s p, P s -> P (step s p)) ->
  (forall s p k, P s -> look (step s p) k = if decide (p.1 = k) then h k (look s k) p.2 else look s k) ->
  P s ->
  look (foldl step s (entries m)) k = match m !! k with Some a => h k (look s k) a | None => look s k end.
Proof.
  intros Hstep Hlook Hs. apply (keyed_loop_find look step h P Hstep Hlook s _ (fun k => m !! k)); [|done|apply keys_NoDup].
  intros. symmetry. apply ordmap_elem.
Qed.

Lemma gmap_loop `{Countable K} (look : S -> K -> V) step h (m : gmap K A) s k :
  (forall s p, P s -> P (step s p)) ->
  (forall s p k, P s -> look (step s p) k = if decide (p.1 = k) then h k (look s k) p.2 else look s k) ->
  P s ->
  look (foldl step s (map_to_list m)) k = match m !! k with Some a => h k (look s k) a | None => look s k end.
Proof.
  intros Hstep Hlook Hs.
  apply (keyed_loop_find look step h P Hstep Hlook s _ (fun k => m !! k)); [|done|apply NoDup_fst_map_to_list].
  intros. apply elem_of_map_to_list.
Qed.
End MapLoops.
