(* ===== verification/Types.v ===== *)
(** * CQL types

    crates/cassandra-types/src/native.rs: the type of CQL types, its protocol
    codes and sizes, the printer [cql_name] and the parser [parse_cql_type].
    Text is ASCII, as a list of characters; the parser recurses on ever shorter
    text, so the length of the text is enough fuel.  The theorem at the end is
    the round trip of printing and parsing. *)
From Stdlib Require Import Ascii.
From S2P Require Export Prelude.

Inductive CqlType :=
| AsciiT | BigintT | BlobT | BooleanT | CounterT | DecimalT | DoubleT | FloatT | IntT | TimestampT | UuidT
| VarcharT | VarintT | TimeuuidT | InetT | DateT | TimeT | SmallintT | TinyintT | DurationT | EmptyT
| ListT (inner : CqlType) (frozen : bool)
| SetT (inner : CqlType) (frozen : bool)
| MapT (key value : CqlType) (frozen : bool)
| TupleT (types : list CqlType)
| CompositeT (types : list CqlType)
| DynamicCompositeT (aliases : list (Z * CqlType))
| UdtT (keyspace name : string) (field_names : list string) (field_types : list CqlType) (is_multi_cell : bool)
| ReversedT (inner : CqlType)
| VectorT (inner : CqlType) (dimensions : nat).

Definition compound (t : CqlType) : bool :=
  match t with
  | ListT _ _ | SetT _ _ | MapT _ _ _ | TupleT _ | CompositeT _ | UdtT _ _ _ _ _ | ReversedT _ | VectorT _ _ => true
  | _ => false
  end.
(** Induction that reaches the types inside lists. *)
Definition CqlType_nested_ind (P : CqlType -> Prop)
    (Hplain : forall t, compound t = false -> P t)
    (Hlist : forall i f, P i -> P (ListT i f)) (Hset : forall i f, P i -> P (SetT i f))
    (Hmap : forall k v f, P k -> P v -> P (MapT k v f))
    (Htuple : forall l, Forall P l -> P (TupleT l)) (Hcomposite : forall l, Forall P l -> P (CompositeT l))
    (Hudt : forall k n fs l m, Forall P l -> P (UdtT k n fs l m))
    (Hreversed : forall i, P i -> P (ReversedT i)) (Hvector : forall i d, P i -> P (VectorT i d)) :
  forall t, P t.
Proof.
  fix IH 1. pose (go := fix go (l : list CqlType) : Forall P l :=
    match l with [] => Forall_nil_2 P | t :: l => Forall_cons_2 P t l (IH t) (go l) end).
  intros t. destruct t;
    [apply Hplain; reflexivity .. | apply Hlist, IH | apply Hset, IH | apply Hmap; apply IH | apply Htuple, go
    | apply Hcomposite, go | apply Hplain; reflexivity | apply Hudt, go | apply Hreversed, IH | apply Hvector, IH].
Qed.

Definition CqlType_protocol_id (self : CqlType) : option Z :=
  match self with
  | AsciiT => Some 1 | BigintT => Some 2 | BlobT => Some 3 | BooleanT => Some 4 | CounterT => Some 5
  | DecimalT => Some 6 | DoubleT => Some 7 | FloatT => Some 8 | IntT => Some 9 | TimestampT => Some 11
  | UuidT => Some 12 | VarcharT => Some 13 | VarintT => Some 14 | TimeuuidT => Some 15 | InetT => Some 16
  | DateT => Some 17 | TimeT => Some 18 | SmallintT => Some 19 | TinyintT => Some 20 | DurationT => Some 21
  | ListT _ _ => Some 32 | MapT _ _ _ => Some 33 | SetT _ _ => Some 34 | UdtT _ _ _ _ _ => Some 48
  | TupleT _ => Some 49 | VectorT _ _ => Some 50
  | EmptyT | ReversedT _ | CompositeT _ | DynamicCompositeT _ => None
  end.

Definition CqlType_is_multi_cell (self : CqlType) : bool :=
  match self with
  | ListT _ frozen | SetT _ frozen | MapT _ _ frozen => negb frozen
  | UdtT _ _ _ _ is_multi_cell => is_multi_cell
  | CompositeT _ | DynamicCompositeT _ => true
  | _ => false
  end.

Fixpoint CqlType_fixed_size (self : CqlType) : option nat :=
  match self with
  | TinyintT => Some 1
  | SmallintT => Some 2
  | IntT | FloatT | DateT => Some 4
  | BigintT | DoubleT | TimestampT | CounterT | TimeT => Some 8
  | UuidT | TimeuuidT => Some 16
  | BooleanT => Some 1
  | EmptyT => Some 0
  | VectorT inner dims => (fun s => s * dims) <$> CqlType_fixed_size inner
  | _ => None
  end%nat.

(** * Text *)

Definition str : Type := list ascii.
Definition lit (s : string) : str := String.list_ascii_of_string s.

(** [slice::join] on text. *)
Fixpoint join (sep : str) (parts : list str) : str :=
  match parts with
  | [] => []
  | [p] => p
  | p :: parts => p ++ sep ++ join sep parts
  end.

Definition digit (d : nat) : ascii := ascii_of_nat (48 + d).
(** The decimal digits of a number, by repeated division; [n] divisions are enough. *)
Fixpoint show_digits (fuel n : nat) (acc : str) : str :=
  match fuel with
  | O => acc
  | S fuel => let acc := digit (n mod 10) :: acc in
              if (n <? 10)%nat then acc else show_digits fuel (n / 10) acc
  end.
Definition show (n : nat) : str := show_digits (S n) n [].

Fixpoint cql_name (self : CqlType) : str :=
  match self with
  | AsciiT => lit "ascii" | BigintT => lit "bigint" | BlobT => lit "blob" | BooleanT => lit "boolean"
  | CounterT => lit "counter" | DecimalT => lit "decimal" | DoubleT => lit "double" | FloatT => lit "float"
  | IntT => lit "int" | TimestampT => lit "timestamp" | UuidT => lit "uuid" | VarcharT => lit "text"
  | VarintT => lit "varint" | TimeuuidT => lit "timeuuid" | InetT => lit "inet" | DateT => lit "date"
  | TimeT => lit "time" | SmallintT => lit "smallint" | TinyintT => lit "tinyint" | DurationT => lit "duration"
  | EmptyT => lit "empty"
  | ListT inner frozen =>
      if frozen then lit "frozen<list<" ++ cql_name inner ++ lit ">>" else lit "list<" ++ cql_name inner ++ lit ">"
  | SetT inner frozen =>
      if frozen then lit "frozen<set<" ++ cql_name inner ++ lit ">>" else lit "set<" ++ cql_name inner ++ lit ">"
  | MapT key value frozen =>
      if frozen then lit "frozen<map<" ++ cql_name key ++ lit ", " ++ cql_name value ++ lit ">>"
      else lit "map<" ++ cql_name key ++ lit ", " ++ cql_name value ++ lit ">"
  | TupleT types => lit "tuple<" ++ join (lit ", ") (map cql_name types) ++ lit ">"
  | CompositeT types => lit "CompositeType(" ++ join (lit ", ") (map cql_name types) ++ lit ")"
  | DynamicCompositeT aliases =>
      lit "DynamicCompositeType("
      ++ join (lit ", ") (map (fun '(alias, ty) => ascii_of_N (Z.to_N alias) :: lit "=>" ++ cql_name ty) aliases)
      ++ lit ")"
  | UdtT keyspace name _ _ _ => lit keyspace ++ lit "." ++ lit name
  | ReversedT inner => cql_name inner
  | VectorT inner dims => lit "vector<" ++ cql_name inner ++ lit ", " ++ show dims ++ lit ">"
  end.

Definition to_lower (c : ascii) : ascii :=
  let n := nat_of_ascii c in if (65 <=? n)%nat && (n <=? 90)%nat then ascii_of_nat (n + 32) else c.

(** The scalar names that are matched after lower-casing. *)
Definition scalar_names : list (string * CqlType) :=
  [("ascii", AsciiT); ("bigint", BigintT); ("blob", BlobT); ("boolean", BooleanT); ("counter", CounterT);
   ("decimal", DecimalT); ("double", DoubleT); ("float", FloatT); ("int", IntT); ("timestamp", TimestampT);
   ("uuid", UuidT); ("text", VarcharT); ("varchar", VarcharT); ("varint", VarintT); ("timeuuid", TimeuuidT);
   ("inet", InetT); ("date", DateT); ("time", TimeT); ("smallint", SmallintT); ("tinyint", TinyintT);
   ("duration", DurationT); ("empty", EmptyT)].
Fixpoint find_name (name : str) (names : list (string * CqlType)) : option CqlType :=
  match names with
  | [] => None
  | (n, ty) :: names => if decide (name = lit n) then Some ty else find_name name names
  end.
Definition from_cql_name (name : str) : option CqlType := find_name (to_lower <$> name) scalar_names.

(** [str::trim] on ASCII. *)
Definition is_space (c : ascii) : bool :=
  let n := nat_of_ascii c in (n =? 32)%nat || ((9 <=? n)%nat && (n <=? 13)%nat).
Fixpoint trim_start (s : str) : str :=
  match s with c :: s' => if is_space c then trim_start s' else s | [] => [] end.
Definition trim (s : str) : str := rev (trim_start (rev (trim_start s))).

Fixpoint strip_prefix (p s : str) : option str :=
  match p, s with
  | [], _ => Some s
  | a :: p, b :: s => if decide (a = b) then strip_prefix p s else None
  | _ :: _, [] => None
  end.
Definition strip_suffix (c : ascii) (s : str) : option str :=
  match rev s with d :: s => if decide (c = d) then Some (rev s) else None | [] => None end.

(** [parse] of an unsigned type: an optional plus sign and at least one digit, without overflow. *)
Definition digit_value (c : ascii) : option Z :=
  let n := nat_of_ascii c in if (48 <=? n)%nat && (n <=? 57)%nat then Some (Z.of_nat n - 48) else None.
Fixpoint parse_digits (max acc : Z) (s : str) : option Z :=
  match s with
  | [] => Some acc
  | c :: s => d ← digit_value c; let acc := acc * 10 + d in if acc <=? max then parse_digits max acc s else None
  end.
Definition parse_unsigned (max : Z) (s : str) : option Z :=
  match s with
  | [] => None
  | c :: rest =>
      if decide (c = "+"%char) then match rest with [] => None | _ => parse_digits max 0 rest end
      else parse_digits max 0 s
  end.
Definition parse_u32 : str -> option Z := parse_unsigned u32_MAX.
Definition parse_u64 : str -> option Z := parse_unsigned u64_MAX.

(** The first comma outside angle brackets. *)
Definition next_depth (depth : Z) (c : ascii) : Z :=
  if decide (c = "<"%char) then depth + 1 else if decide (c = ">"%char) then depth - 1 else depth.
Definition at_comma (depth : Z) (c : ascii) : bool := bool_decide (c = ","%char) && (depth =? 0).
Fixpoint split_comma (depth : Z) (s : str) : option (str * str) :=
  match s with
  | [] => None
  | c :: s => if at_comma depth c then Some ([], s)
              else '(a, b) ← split_comma (next_depth depth c) s; Some (c :: a, b)
  end.
Definition split_top_level_comma (s : str) : option (str * str) := split_comma 0 s.
Fixpoint split_commas (depth : Z) (s : str) : list str :=
  match s with
  | [] => [[]]
  | c :: s =>
      if at_comma depth c then [] :: split_commas depth s
      else match split_commas (next_depth depth c) s with
           | [] => [[c]]
           | p :: ps => (c :: p) :: ps
           end
  end.
Definition split_all_top_level_commas (s : str) : list str := split_commas 0 s.

Definition freeze_cql (ty : CqlType) : CqlType :=
  match ty with
  | ListT inner _ => ListT inner true
  | SetT inner _ => SetT inner true
  | MapT k v _ => MapT k v true
  | UdtT keyspace name field_names field_types _ => UdtT keyspace name field_names field_types false
  | other => other
  end.

(** The text between a type constructor and the closing bracket. *)
Definition parameters (prefix : string) (s : str) : option str :=
  r ← strip_prefix (lit prefix) s; strip_suffix ">"%char r.

Fixpoint parse_fuel (fuel : nat) (s : str) : option CqlType :=
  match fuel with
  | O => None
  | S fuel =>
      let s := trim s in
      if (length s =? 0)%nat then None
      else match parameters "frozen<" s with
      | Some inner => freeze_cql <$> parse_fuel fuel inner
      | None => match parameters "list<" s with
      | Some inner => (fun elem => ListT elem false) <$> parse_fuel fuel inner
      | None => match parameters "set<" s with
      | Some inner => (fun elem => SetT elem false) <$> parse_fuel fuel inner
      | None => match parameters "map<" s with
      | Some inner =>
          '(a, b) ← split_top_level_comma inner;
          key ← parse_fuel fuel (trim a);
          value ← parse_fuel fuel (trim b);
          Some (MapT key value false)
      | None => match parameters "tuple<" s with
      | Some inner =>
          TupleT <$> mapM (fun p => parse_fuel fuel (trim p)) (split_all_top_level_commas inner)
      | None => match parameters "vector<" s with
      | Some inner =>
          '(a, b) ← split_top_level_comma inner;
          element ← parse_fuel fuel (trim a);
          dimensions ← parse_u32 (trim b);
          if dimensions =? 0 then None else Some (VectorT element (Z.to_nat dimensions))
      | None => from_cql_name s
      end end end end end end
  end.
Definition parse_cql_type (s : str) : option CqlType := parse_fuel (S (length s)) s.

Lemma length_lit s : length (lit s) = String.length s.
Proof. induction s; simpl; congruence. Qed.

(** * The parser has enough fuel *)

Lemma trim_start_length s : (length (trim_start s) <= length s)%nat.
Proof. induction s as [|c s IH]; simpl; [done|]. case_match; simpl; lia. Qed.

Lemma trim_length s : (length (trim s) <= length s)%nat.
Proof.
  unfold trim. rewrite length_rev. etransitivity; [apply trim_start_length|]. rewrite length_rev. apply trim_start_length.
Qed.

Lemma strip_prefix_Some p s r : strip_prefix p s = Some r <-> s = p ++ r.
Proof.
  revert s. induction p as [|a p IH]; intros s; simpl; [naive_solver|].
  destruct s as [|b s]; [done|]. case_decide as E; [rewrite IH|]; naive_solver.
Qed.

Lemma strip_suffix_Some c s r : strip_suffix c s = Some r <-> s = r ++ [c].
Proof.
  unfold strip_suffix. rewrite <- (rev_involutive s) at 2. destruct (rev s) as [|d l]; simpl.
  - split; [done|]. intros E. by destruct r.
  - case_decide as E; [subst d|]; split; intros H.
    + by injection H as <-.
    + by apply app_inj_tail in H as [-> _].
    + done.
    + apply app_inj_tail in H as [_ ->]. done.
Qed.

Lemma parameters_length p s r : p <> EmptyString -> parameters p s = Some r -> (length r < length s)%nat.
Proof.
  intros Hp. unfold parameters. intros (r' & H1%strip_prefix_Some & H2%strip_suffix_Some)%bind_Some. subst.
  rewrite !length_app. destruct p; [done|]. simpl. lia.
Qed.

Lemma split_comma_length d s a b : split_comma d s = Some (a, b) -> (length a <= length s /\ length b <= length s)%nat.
Proof.
  revert d a b. induction s as [|c s IH]; intros d a b; simpl; [done|]. case_match.
  - intros [= <- <-]. simpl. lia.
  - intros ([a' b'] & H' & E)%bind_Some. simpl in E. injection E as <- <-. apply IH in H'. simpl. lia.
Qed.

Lemma split_commas_length d s : Forall (fun p => length p <= length s)%nat (split_commas d s).
Proof.
  revert d. induction s as [|c s IH]; intros d; simpl; [by apply Forall_singleton|]. case_match.
  - constructor; [simpl; lia|]. eapply Forall_impl; [apply IH|]. simpl. lia.
  - specialize (IH (next_depth d c)). destruct (split_commas (next_depth d c) s) as [|p ps]; [apply Forall_singleton; simpl; lia|].
    inversion IH as [|? ? Hp Hps]; subst. constructor; [simpl; lia|]. eapply Forall_impl; [apply Hps|]. simpl. lia.
Qed.

Lemma mapM_ext_in {A B} (f g : A -> option B) l : Forall (fun x => f x = g x) l -> mapM f l = mapM g l.
Proof. induction 1 as [|x l Hx _ IH]; [done|]. simpl. by rewrite Hx, IH. Qed.

(** More fuel than the text is long does not matter. *)
Lemma parse_fuel_enough n m s : (length s < n)%nat -> (length s < m)%nat -> parse_fuel n s = parse_fuel m s.
Proof.
  revert m s. induction n as [|n IH]; intros [|m] s Hn Hm; [lia..|]. simpl.
  pose proof (trim_length s). set (t := trim s) in *. clearbody t. case_match; [done|].
  assert (Hrec : forall p r, p <> EmptyString -> parameters p t = Some r -> forall q, (length q <= length r)%nat ->
    parse_fuel n q = parse_fuel m q).
  { intros p r Hp Hr q Hq. pose proof (parameters_length p t r Hp Hr). apply IH; lia. }
  assert (Htrim : forall p r, p <> EmptyString -> parameters p t = Some r -> forall q, (length q <= length r)%nat ->
    parse_fuel n (trim q) = parse_fuel m (trim q)).
  { intros p r Hp Hr q Hq. eapply Hrec; [done|done|]. pose proof (trim_length q). lia. }
  destruct (parameters "frozen<" t) as [r|] eqn:E1; [by rewrite (Hrec "frozen<" r)|].
  destruct (parameters "list<" t) as [r|] eqn:E2; [by rewrite (Hrec "list<" r)|].
  destruct (parameters "set<" t) as [r|] eqn:E3; [by rewrite (Hrec "set<" r)|].
  destruct (parameters "map<" t) as [r|] eqn:E4.
  { destruct (split_top_level_comma r) as [[a b]|] eqn:Es; [|done]. simpl.
    destruct (split_comma_length _ _ _ _ Es). by rewrite (Htrim "map<" r ltac:(done) E4 a), (Htrim "map<" r ltac:(done) E4 b). }
  destruct (parameters "tuple<" t) as [r|] eqn:E5.
  { f_equal. apply mapM_ext_in. eapply Forall_impl; [apply split_commas_length|]. simpl. intros p Hp.
    by apply (Htrim "tuple<" r). }
  destruct (parameters "vector<" t) as [r|] eqn:E6; [|done].
  destruct (split_top_level_comma r) as [[a b]|] eqn:Es; [|done]. simpl.
  destruct (split_comma_length _ _ _ _ Es). by rewrite (Htrim "vector<" r ltac:(done) E6 a).
Qed.

(** * Printing and parsing *)

(** Reading [w] from depth [d] meets no separating comma and ends at depth [d']. *)
Definition passes (d : Z) (w : str) (d' : Z) : Prop :=
  forall rest,
    split_comma d (w ++ rest) = (fun '(a, b) => (w ++ a, b)) <$> split_comma d' rest
    /\ split_commas d (w ++ rest) = match split_commas d' rest with [] => [w] | p :: ps => (w ++ p) :: ps end.

Lemma split_commas_nonempty d s : split_commas d s <> [].
Proof. destruct s; simpl; repeat case_match; done. Qed.

Lemma passes_nil d : passes d [] d.
Proof.
  intros rest. simpl. split; [by destruct (split_comma d rest) as [[]|]|].
  destruct (split_commas d rest) eqn:E; [by apply split_commas_nonempty in E|done].
Qed.

Lemma passes_cons d c w d' :
  at_comma d c = false -> passes (next_depth d c) w d' -> passes d (c :: w) d'.
Proof.
  intros Hc Hw rest. destruct (Hw rest) as [H1 H2]. simpl. rewrite Hc, H1, H2. split.
  - by destruct (split_comma d' rest) as [[]|].
  - by destruct (split_commas d' rest).
Qed.

Lemma passes_app d w d' v d'' : passes d w d' -> passes d' v d'' -> passes d (w ++ v) d''.
Proof.
  intros Hw Hv rest. rewrite <- app_assoc. destruct (Hw (v ++ rest)) as [-> ->], (Hv rest) as [-> ->]. split.
  - destruct (split_comma d'' rest) as [[]|]; simpl; by rewrite ?app_assoc.
  - destruct (split_commas d'' rest); simpl; by rewrite ?app_assoc.
Qed.

Lemma passes_open d w d' : passes (d + 1) w d' -> passes d ("<"%char :: w) d'.
Proof. intros Hw. exact (passes_cons d "<"%char w d' eq_refl Hw). Qed.
Lemma passes_close d w d' : passes (d - 1) w d' -> passes d (">"%char :: w) d'.
Proof. intros Hw. exact (passes_cons d ">"%char w d' eq_refl Hw). Qed.
Lemma passes_comma d w d' : d <> 0 -> passes d w d' -> passes d (","%char :: w) d'.
Proof. intros Hd Hw. apply (passes_cons d); [by apply Z.eqb_neq|exact Hw]. Qed.
Definition plain (c : ascii) : bool :=
  negb (bool_decide (c = "<"%char)) && negb (bool_decide (c = ">"%char)) && negb (bool_decide (c = ","%char)).
Lemma passes_plain d c w d' : plain c = true -> passes d w d' -> passes d (c :: w) d'.
Proof.
  unfold plain. rewrite !andb_true_iff, !negb_true_iff, !bool_decide_eq_false. intros [[H1 H2] H3] Hw.
  apply passes_cons; unfold at_comma, next_depth.
  - by rewrite bool_decide_eq_false_2.
  - by rewrite !decide_False.
Qed.

(** Literal text, character by character. *)
Ltac pass_lit :=
  repeat first [apply passes_open|apply passes_close|apply passes_comma; [lia|]|apply passes_plain; [reflexivity|]].

(** No white space at either end. *)
Definition tight (w : str) : Prop :=
  exists c w' d w'', w = c :: w' /\ w = w'' ++ [d] /\ is_space c = false /\ is_space d = false.

Lemma trim_tight w : tight w -> trim w = w.
Proof.
  intros (c & w' & d & w'' & E1 & E2 & Hc & Hd). unfold trim. rewrite E1 at 1. simpl. rewrite Hc, <- E1, E2.
  rewrite rev_app_distr. simpl. rewrite Hd. simpl. by rewrite rev_involutive.
Qed.

Lemma trim_space w : tight w -> trim (" "%char :: w) = w.
Proof. intros Hw. rewrite <- (trim_tight w Hw) at 2. done. Qed.

Lemma tight_app u v : tight u -> tight v -> tight (u ++ v).
Proof.
  intros (c & u' & _ & _ & -> & _ & Hc & _) (_ & _ & d & v'' & _ & -> & _ & Hd).
  exists c, (u' ++ v'' ++ [d]), d, (c :: u' ++ v''). split_and!; [done| |done|done]. simpl. by rewrite <- app_assoc.
Qed.

Lemma tight_between u w v : tight u -> tight v -> tight (u ++ w ++ v).
Proof.
  intros (c & u' & _ & _ & -> & _ & Hc & _) (_ & _ & d & v'' & _ & -> & _ & Hd).
  exists c, (u' ++ w ++ v'' ++ [d]), d, (c :: u' ++ w ++ v''). split_and!; [done| |done|done]. simpl. by rewrite <- !app_assoc.
Qed.

Definition tightb (w : str) : bool :=
  match w, rev w with c :: _, d :: _ => negb (is_space c) && negb (is_space d) | _, _ => false end.
Lemma tightb_spec w : tightb w = true -> tight w.
Proof.
  unfold tightb. destruct w as [|c w]; [done|]. destruct (rev (c :: w)) as [|d l] eqn:E; [done|].
  intros [Hc Hd]%andb_true_iff. apply negb_true_iff in Hc, Hd. exists c, w, d, (rev l). split_and!; [done| |done|done].
  rewrite <- (rev_involutive (c :: w)), E. done.
Qed.

(** ** Numbers *)

Lemma digit_value_digit d : (d < 10)%nat -> digit_value (digit d) = Some (Z.of_nat d).
Proof. intros Hd. do 10 (destruct d as [|d]; [reflexivity|]). lia. Qed.

Lemma parse_show_digits max fuel n acc :
  (n < fuel)%nat -> Z.of_nat n <= max ->
  parse_digits max 0 (show_digits fuel n acc) = parse_digits max (Z.of_nat n) acc.
Proof.
  revert n acc. induction fuel as [|fuel IH]; intros n acc Hn Hmax; [lia|]. cbn [show_digits].
  pose proof (Nat.div_mod_eq n 10) as Hdm. pose proof (Nat.mod_upper_bound n 10 ltac:(done)) as Hmod.
  destruct (Nat.ltb_spec n 10) as [Hlt|Hge].
  - rewrite Nat.mod_small by done. cbn [parse_digits]. rewrite digit_value_digit by done. cbn [mbind option_bind].
    replace (0 * 10 + Z.of_nat n) with (Z.of_nat n) by lia. by rewrite (proj2 (Z.leb_le _ _)).
  - rewrite IH by lia. cbn [parse_digits]. rewrite digit_value_digit by done. cbn [mbind option_bind].
    replace (Z.of_nat (n / 10) * 10 + Z.of_nat (n mod 10)) with (Z.of_nat n) by lia. by rewrite (proj2 (Z.leb_le _ _)).
Qed.

Lemma show_digits_shape fuel n acc :
  exists d w e, (d < 10)%nat /\ (e < 10)%nat /\ show_digits (S fuel) n acc = digit d :: w
    /\ exists w', show_digits (S fuel) n acc = w' ++ digit e :: acc.
Proof.
  revert n acc. induction fuel as [|fuel IH]; intros n acc; pose proof (Nat.mod_upper_bound n 10 ltac:(done)) as Hm.
  - exists (n mod 10)%nat. cbn [show_digits]. exists acc, (n mod 10)%nat. destruct (n <? 10)%nat; split_and!; try done; by exists [].
  - cbn [show_digits]. destruct (n <? 10)%nat.
    + exists (n mod 10)%nat, acc, (n mod 10)%nat. split_and!; try done. by exists [].
    + destruct (IH (n / 10)%nat (digit (n mod 10) :: acc)) as (d & w & e & Hd & He & E & w' & E').
      exists d, w, (n mod 10)%nat. split_and!; [done|done|done|]. exists (w' ++ [digit e]). by rewrite <- app_assoc.
Qed.

Lemma digit_facts d : (d < 10)%nat -> is_space (digit d) = false /\ digit d <> "+"%char
  /\ forall k, next_depth k (digit d) = k /\ at_comma k (digit d) = false.
Proof. intros Hd. do 10 (destruct d as [|d]; [by split_and!|]). lia. Qed.

Lemma show_tight n : tight (show n).
Proof.
  destruct (show_digits_shape n n []) as (d & w & e & Hd & He & E & w' & E'). exists (digit d), w, (digit e), w'.
  destruct (digit_facts d Hd), (digit_facts e He). unfold show. by rewrite E at 1.
Qed.

Lemma parse_unsigned_show max n : Z.of_nat n <= max -> parse_unsigned max (show n) = Some (Z.of_nat n).
Proof.
  intros Hn. destruct (show_digits_shape n n []) as (d & w & _ & Hd & _ & E & _). unfold show. rewrite E. cbn [parse_unsigned].
  rewrite decide_False by (by apply digit_facts). rewrite <- E, parse_show_digits by (done || lia). done.
Qed.
Lemma parse_u32_show n : Z.of_nat n <= u32_MAX -> parse_u32 (show n) = Some (Z.of_nat n).
Proof. apply parse_unsigned_show. Qed.

Lemma show_passes d n : passes d (show n) d.
Proof.
  unfold show. generalize (S n) at 1. intros fuel. assert (Hacc : passes d [] d) by apply passes_nil.
  revert n Hacc. generalize (@nil ascii). induction fuel as [|fuel IH]; intros acc n Hacc; [done|]. cbn [show_digits].
  pose proof (Nat.mod_upper_bound n 10 ltac:(done)) as Hm.
  destruct (digit_facts (n mod 10) Hm) as (_ & _ & Hk). destruct (Hk d) as [Hn Hc].
  assert (passes d (digit (n mod 10) :: acc) d) by (apply passes_cons; [done|by rewrite Hn]).
  destruct (n <? 10)%nat; [done|by apply IH].
Qed.

(** ** Names *)

(** The types that CQL text can express: scalars, collections, tuples of at least
    one component and vectors with a dimension that fits u32. *)
Fixpoint printable (t : CqlType) : bool :=
  match t with
  | ListT inner _ | SetT inner _ => printable inner
  | MapT key value _ => printable key && printable value
  | TupleT types => negb (length types =? 0)%nat && forallb printable types
  | VectorT inner dims => printable inner && negb (dims =? 0)%nat && (Z.of_nat dims <=? u32_MAX)
  | CompositeT _ | DynamicCompositeT _ | UdtT _ _ _ _ _ | ReversedT _ => false
  | _ => true
  end.

Lemma join_cons sep w ws : ws <> [] -> join sep (w :: ws) = w ++ sep ++ join sep ws.
Proof. by destruct ws. Qed.

Lemma join_passes d ws :
  0 < d -> Forall (fun w => passes d w d) ws -> passes d (join (lit ", ") ws) d.
Proof.
  intros Hd. induction 1 as [|w ws Hw Hws IH]; [apply passes_nil|].
  destruct (decide (ws = [])) as [->|Hne]; [done|]. rewrite join_cons by done.
  eapply passes_app; [exact Hw|]. eapply passes_app; [|exact IH]. pass_lit. apply passes_nil.
Qed.

Lemma split_join w ws :
  Forall (fun w => passes 0 w 0) (w :: ws) ->
  split_all_top_level_commas (join (lit ", ") (w :: ws)) = w :: map (cons " "%char) ws.
Proof.
  unfold split_all_top_level_commas. revert w. induction ws as [|v ws IH]; intros w Hall; inversion Hall as [|? ? Hw Hws]; subst.
  - simpl. rewrite <- (app_nil_r w) at 1. rewrite (proj2 (Hw [])). simpl. by rewrite app_nil_r.
  - rewrite join_cons by done. rewrite (proj2 (Hw _)). specialize (IH v Hws).
    change (lit ", " ++ ?x) with (","%char :: " "%char :: x). cbn [split_commas]. change (at_comma 0 ",") with true. cbv iota.
    change (at_comma 0 " ") with false. change (next_depth 0 " ") with 0. cbv iota. rewrite IH. by rewrite app_nil_r.
Qed.

Lemma length_join_elem sep ws w : w ∈ ws -> (length w <= length (join sep ws))%nat.
Proof.
  induction ws as [|v ws IH]; intros Hw; [by apply not_elem_of_nil in Hw|].
  destruct (decide (ws = [])) as [->|Hne]; [by apply list_elem_of_singleton in Hw as ->|].
  rewrite join_cons, !length_app by done. apply elem_of_cons in Hw as [->|Hw]; [lia|]. specialize (IH Hw). lia.
Qed.

(** A name can stand as a parameter of another. *)
Definition name_ok (w : str) : Prop := tight w /\ forall d, 0 <= d -> passes d w d.

Lemma enclosed_ok u w v :
  tight u -> tight v -> (forall d, 0 <= d -> passes d u (d + 1)) -> (forall d, 0 < d -> passes d w d) ->
  (forall d, 0 <= d -> passes (d + 1) v d) -> name_ok (u ++ w ++ v).
Proof.
  intros Hu Hv Pu Pw Pv. split; [by apply tight_between|]. intros d Hd.
  eapply passes_app; [by apply Pu|]. eapply passes_app; [apply Pw; lia|by apply Pv].
Qed.

(** A frozen collection is the plain one in another pair of brackets. *)
Definition unfrozen (t : CqlType) : CqlType :=
  match t with
  | ListT inner _ => ListT inner false
  | SetT inner _ => SetT inner false
  | MapT k v _ => MapT k v false
  | t => t
  end.
Definition is_frozen (t : CqlType) : bool :=
  match t with ListT _ f | SetT _ f | MapT _ _ f => f | _ => false end.

Lemma frozen_name t :
  is_frozen t = true -> cql_name t = lit "frozen<" ++ cql_name (unfrozen t) ++ lit ">"
    /\ printable (unfrozen t) = printable t /\ is_frozen (unfrozen t) = false /\ freeze_cql (unfrozen t) = t.
Proof.
  destruct t as [| | | | | | | | | | | | | | | | | | | | | inner []|inner []|k v []| | | | | |]; intros [=];
    (split_and!; [|done..]); simpl; rewrite <- !app_assoc; simpl; by rewrite <- ?app_assoc.
Qed.

Ltac enclosed :=
  apply enclosed_ok; [by apply tightb_spec|by apply tightb_spec|intros ? ?; pass_lit; apply passes_nil|
    |intros ? ?; pass_lit; match goal with |- passes ?a _ ?b => replace a with b by lia end; apply passes_nil].

Lemma cql_name_ok n t : (length (cql_name t) < n)%nat -> printable t = true -> name_ok (cql_name t).
Proof.
  revert t. induction n as [|n IH]; intros t Hn Hp; [lia|].
  destruct (is_frozen t) eqn:Hf.
  { destruct (frozen_name t Hf) as (E & Hp' & _). rewrite E in *.
    rewrite !length_app, !length_lit in Hn. cbn [String.length] in Hn. enclosed.
    intros d Hd. apply IH; [lia|by rewrite Hp'|lia]. }
  destruct t as [| | | | | | | | | | | | | | | | | | | | | inner []|inner []|k v []|types| | | | |inner dims]; try done;
    try (split; [by apply tightb_spec|intros d _; pass_lit; apply passes_nil]).
  all: cbn [cql_name printable] in *; rewrite ?length_app, ?length_lit in Hn; cbn [String.length] in Hn.
  - enclosed. intros d Hd. apply IH; [lia|done|lia].
  - enclosed. intros d Hd. apply IH; [lia|done|lia].
  - apply andb_true_iff in Hp as [Hk Hv]. rewrite !(app_assoc (cql_name k)), !(app_assoc (cql_name k ++ lit ", ")).
    enclosed. intros d Hd. rewrite <- app_assoc. eapply passes_app; [apply IH; [lia|done|lia]|].
    eapply passes_app; [pass_lit; apply passes_nil|]. apply IH; [lia|done|lia].
  - apply andb_true_iff in Hp as [_ Hts]. rewrite forallb_forall in Hts. enclosed. intros d Hd.
    apply join_passes; [done|]. apply Forall_forall. intros w Hw. apply list_elem_of_In in Hw as Hw'.
    apply in_map_iff in Hw' as (t & <- & Ht). pose proof (length_join_elem (lit ", ") _ _ Hw).
    apply IH; [lia|by apply Hts|lia].
  - rewrite !andb_true_iff in Hp. destruct Hp as [[Hi _] _].
    rewrite !(app_assoc (cql_name inner)), !(app_assoc (cql_name inner ++ lit ", ")).
    enclosed. intros d Hd. rewrite <- app_assoc. eapply passes_app; [apply IH; [lia|done|lia]|].
    eapply passes_app; [pass_lit; apply passes_nil|]. apply show_passes.
Qed.

(** ** The round trip *)

Lemma parameters_enclosed p w : parameters p (lit p ++ w ++ lit ">") = Some w.
Proof.
  unfold parameters. rewrite (proj2 (strip_prefix_Some _ _ (w ++ lit ">"))) by done. by apply strip_suffix_Some.
Qed.

Lemma parse_step n s : tight s ->
  parse_fuel (S n) s =
  match parameters "frozen<" s with
  | Some inner => freeze_cql <$> parse_fuel n inner
  | None => match parameters "list<" s with
  | Some inner => (fun elem => ListT elem false) <$> parse_fuel n inner
  | None => match parameters "set<" s with
  | Some inner => (fun elem => SetT elem false) <$> parse_fuel n inner
  | None => match parameters "map<" s with
  | Some inner =>
      '(a, b) ← split_top_level_comma inner;
      key ← parse_fuel n (trim a); value ← parse_fuel n (trim b); Some (MapT key value false)
  | None => match parameters "tuple<" s with
  | Some inner => TupleT <$> mapM (fun p => parse_fuel n (trim p)) (split_all_top_level_commas inner)
  | None => match parameters "vector<" s with
  | Some inner =>
      '(a, b) ← split_top_level_comma inner;
      element ← parse_fuel n (trim a);
      dimensions ← parse_u32 (trim b);
      if dimensions =? 0 then None else Some (VectorT element (Z.to_nat dimensions))
  | None => from_cql_name s
  end end end end end end.
Proof.
  intros Hs. cbn [parse_fuel]. rewrite (trim_tight s Hs). destruct Hs as (c & w & _ & _ & -> & _). done.
Qed.

Lemma split_two w v :
  passes 0 w 0 -> split_top_level_comma (w ++ lit ", " ++ v) = Some (w, " "%char :: v).
Proof. intros Hw. unfold split_top_level_comma. rewrite (proj1 (Hw _)). simpl. by rewrite app_nil_r. Qed.

Lemma mapM_names (parse : str -> option CqlType) types :
  (forall t, t ∈ types -> tight (cql_name t) /\ parse (cql_name t) = Some t) -> types <> [] ->
  match map cql_name types with
  | [] => False
  | w :: ws => mapM (fun p => parse (trim p)) (w :: map (cons " "%char) ws) = Some types
  end.
Proof.
  intros Hall Hne. destruct types as [|t types]; [done|]. cbn [map].
  destruct (Hall t) as [Ht Hp]; [by left|]. cbn [mapM]. rewrite (trim_tight _ Ht), Hp. cbn [mbind option_bind].
  assert (E : mapM (fun p => parse (trim p)) (map (cons " "%char) (map cql_name types)) = Some types); [|by rewrite E].
  assert (Hall' : forall t, t ∈ types -> tight (cql_name t) /\ parse (cql_name t) = Some t) by (intros t' ?; apply Hall; by right).
  clear -Hall'. induction types as [|t types IH]; [done|]. cbn [map mapM].
  destruct (Hall' t) as [Ht Hp]; [by left|]. rewrite (trim_space _ Ht), Hp. cbn [mbind option_bind].
  rewrite IH; [done|]. intros t' ?. apply Hall'. by right.
Qed.

Lemma parse_components n types :
  types <> [] ->
  (forall t, In t types -> tight (cql_name t) /\ passes 0 (cql_name t) 0 /\ parse_fuel n (cql_name t) = Some t) ->
  mapM (fun p => parse_fuel n (trim p)) (split_all_top_level_commas (join (lit ", ") (map cql_name types))) = Some types.
Proof.
  intros Hne Hall. pose proof (mapM_names (parse_fuel n) types) as Hm.
  assert (Hpass : Forall (fun w => passes 0 w 0) (map cql_name types)).
  { apply Forall_forall. intros w Hw%list_elem_of_In. apply in_map_iff in Hw as (t & <- & Ht). by apply Hall. }
  destruct types as [|t types]; [done|]. cbn [map] in *. rewrite split_join by done.
  apply Hm; [|done]. intros t' Ht'%list_elem_of_In. destruct (Hall t' Ht') as (? & _ & ?). done.
Qed.

(** The scalar types, whose names are not parameterized. *)
Definition is_scalar (t : CqlType) : bool :=
  match t with
  | ListT _ _ | SetT _ _ | MapT _ _ _ | TupleT _ | CompositeT _ | DynamicCompositeT _ | UdtT _ _ _ _ _
  | ReversedT _ | VectorT _ _ => false
  | _ => true
  end.

Lemma parse_scalar n t : is_scalar t = true -> parse_fuel (S n) (cql_name t) = Some t.
Proof. by destruct t. Qed.

(** What the parser does with each parameterized form. *)
Lemma enclosed_tight p w : tightb (lit p) = true -> tight (lit p ++ w ++ lit ">").
Proof. intros Hp. apply tight_between; by apply tightb_spec. Qed.

Lemma parse_frozen n w : parse_fuel (S n) (lit "frozen<" ++ w ++ lit ">") = freeze_cql <$> parse_fuel n w.
Proof. rewrite parse_step by (by apply enclosed_tight). by rewrite parameters_enclosed. Qed.

Lemma parse_list n w :
  parse_fuel (S n) (lit "list<" ++ w ++ lit ">") = (fun elem => ListT elem false) <$> parse_fuel n w.
Proof. rewrite parse_step by (by apply enclosed_tight). by rewrite (parameters_enclosed "list<"). Qed.

Lemma parse_set n w :
  parse_fuel (S n) (lit "set<" ++ w ++ lit ">") = (fun elem => SetT elem false) <$> parse_fuel n w.
Proof. rewrite parse_step by (by apply enclosed_tight). by rewrite (parameters_enclosed "set<"). Qed.

Lemma parse_map n w v :
  tight w -> passes 0 w 0 -> tight v ->
  parse_fuel (S n) (lit "map<" ++ w ++ lit ", " ++ v ++ lit ">")
  = key ← parse_fuel n w; value ← parse_fuel n v; Some (MapT key value false).
Proof.
  intros Tw Pw Tv. rewrite (app_assoc (lit ", ")), (app_assoc w).
  rewrite parse_step by (by apply enclosed_tight). rewrite (parameters_enclosed "map<").
  rewrite split_two by done. cbn [mbind option_bind]. by rewrite (trim_tight w), trim_space.
Qed.

Lemma parse_tuple n w :
  parse_fuel (S n) (lit "tuple<" ++ w ++ lit ">")
  = TupleT <$> mapM (fun p => parse_fuel n (trim p)) (split_all_top_level_commas w).
Proof. rewrite parse_step by (by apply enclosed_tight). by rewrite (parameters_enclosed "tuple<"). Qed.

Lemma parse_vector n w dims :
  tight w -> passes 0 w 0 -> Z.of_nat dims <= u32_MAX -> dims <> 0%nat ->
  parse_fuel (S n) (lit "vector<" ++ w ++ lit ", " ++ show dims ++ lit ">")
  = element ← parse_fuel n w; Some (VectorT element dims).
Proof.
  intros Tw Pw Hmax Hd. rewrite (app_assoc (lit ", ")), (app_assoc w).
  rewrite parse_step by (by apply enclosed_tight). rewrite (parameters_enclosed "vector<").
  rewrite split_two by done. cbn [mbind option_bind]. rewrite (trim_tight w), trim_space by (done || apply show_tight).
  destruct (parse_fuel n w); [|done]. cbn [mbind option_bind]. rewrite parse_u32_show by done. cbn [mbind option_bind].
  by rewrite (proj2 (Z.eqb_neq _ _)), Nat2Z.id by lia.
Qed.

Lemma parse_print n t :
  (length (cql_name t) < n)%nat -> printable t = true -> parse_fuel n (cql_name t) = Some t.
Proof.
  revert t. induction n as [|n IH]; intros t Hn Hp; [lia|].
  destruct (is_scalar t) eqn:Hs; [by apply parse_scalar|].
  assert (Hok : forall t', (length (cql_name t') < n)%nat -> printable t' = true ->
    tight (cql_name t') /\ passes 0 (cql_name t') 0 /\ parse_fuel n (cql_name t') = Some t').
  { intros t' Hl Hp'. destruct (cql_name_ok n t' Hl Hp') as [? Hpass]. split_and!; [done|by apply Hpass|by apply IH]. }
  destruct (is_frozen t) eqn:Hf.
  { destruct (frozen_name t Hf) as (E & Hp' & _ & Hback). rewrite E in *. rewrite !length_app, !length_lit in Hn.
    cbn [String.length] in Hn. rewrite parse_frozen, IH by (lia || by rewrite Hp'). simpl. by rewrite Hback. }
  destruct t as [| | | | | | | | | | | | | | | | | | | | | inner []|inner []|k v []|types| | | | |inner dims]; try done.
  all: cbn [cql_name printable] in *; rewrite ?length_app, ?length_lit in Hn; cbn [String.length] in Hn.
  - by rewrite parse_list, IH by (lia || done).
  - by rewrite parse_set, IH by (lia || done).
  - apply andb_true_iff in Hp as [Hk Hv].
    destruct (Hok k) as (Tk & Pk & Ek); [lia|done|]. destruct (Hok v) as (Tv & Pv & Ev); [lia|done|].
    by rewrite parse_map, Ek, Ev by done.
  - apply andb_true_iff in Hp as [Hne%negb_true_iff%Nat.eqb_neq Hts]. rewrite forallb_forall in Hts.
    assert (Hall : forall t, In t types -> tight (cql_name t) /\ passes 0 (cql_name t) 0 /\ parse_fuel n (cql_name t) = Some t).
    { intros t Ht. apply Hok; [|by apply Hts].
      pose proof (length_join_elem (lit ", ") (map cql_name types) (cql_name t)
        ltac:(apply list_elem_of_In, in_map, Ht)). lia. }
    rewrite parse_tuple, (parse_components n types); [done| |done]. by intros ->.
  - rewrite !andb_true_iff in Hp. destruct Hp as [[Hi Hd%negb_true_iff%Nat.eqb_neq] Hmax%Z.leb_le].
    destruct (Hok inner) as (Ti & Pi & Ei); [lia|done|]. by rewrite parse_vector, Ei by done.
Qed.

(** Printing a type and parsing the text gives the type back, for every type
    that CQL text can express: scalars, frozen and plain collections, tuples and
    vectors, nested in any way.  The parser needs no more fuel than the text is
    long, whatever the text. *)
Theorem cql_type_roundtrip t (Hp : printable t = true) :
  parse_cql_type (cql_name t) = Some t
  /\ forall s n, (length s < n)%nat -> parse_fuel n s = parse_cql_type s.
Proof.
  split; [apply parse_print; [lia|done]|]. intros s n Hn. apply parse_fuel_enough; [done|lia].
Qed.

Lemma cql_type_roundtrip_witness :
  let t := MapT VarcharT (ListT (TupleT [IntT; VectorT FloatT 768; SetT UuidT false]) true) false in
  cql_name t = lit "map<text, frozen<list<tuple<int, vector<float, 768>, set<uuid>>>>>"
  /\ parse_cql_type (cql_name t) = Some t.
Proof.
  split; [vm_compute; reflexivity|].
  exact (proj1 (cql_type_roundtrip (MapT VarcharT (ListT (TupleT [IntT; VectorT FloatT 768; SetT UuidT false]) true) false)
    ltac:(vm_compute; reflexivity))).
Defined.
