(* ===== verification/Io.v ===== *)
(** * Reading bytes

    The part of [std::io::Read] and [byteorder] that the file formats use: a
    reader is a small error monad over the bytes that are left, and the
    predicate [parses] says that a reader takes exactly the bytes of one written
    value.  It composes along the monad, so the formats built on it get their
    round trips from the shape of their readers.  [String::from_utf8] is here as
    well. *)
From S2P Require Export Prelude.

Inductive IoError :=
| Eof
| BadData.

Definition IoReader (A : Type) : Type := list Z -> IoError + A * list Z.
#[export] Instance IoReader_ret : MRet IoReader := fun A a input => inr (a, input).
#[export] Instance IoReader_bind : MBind IoReader := fun A B f m input =>
  match m input with inl e => inl e | inr (a, input) => f a input end.
Definition io_fail {A} (e : IoError) : IoReader A := fun _ => inl e.

(** [read_exact] *)
Definition io_exact (len : nat) : IoReader (list Z) := fun input =>
  if (length input <? len)%nat then inl Eof else inr (take len input, drop len input).
Definition io_u (w : nat) : IoReader Z := bytes ← io_exact w; mret (read_u bytes).
Definition io_s (w : nat) : IoReader Z := bytes ← io_exact w; mret (read_s bytes).

(** A loop [for _ in 0..count] that pushes what it reads. *)
Fixpoint io_repeat {A} (count : nat) (m : IoReader A) : IoReader (list A) :=
  match count with
  | O => mret []
  | S count => a ← m; l ← io_repeat count m; mret (a :: l)
  end.

(** ** UTF-8 *)

(** [String::from_utf8]: well-formed UTF-8, without surrogates and overlong forms. *)
Definition continuation (b : Z) : bool := (128 <=? b) && (b <=? 191).
Fixpoint utf8 (l : list Z) : bool :=
  match l with
  | [] => true
  | a :: l1 =>
      if a <=? 127 then utf8 l1
      else match l1 with
      | [] => false
      | b :: l2 =>
          if (194 <=? a) && (a <=? 223) then continuation b && utf8 l2
          else match l2 with
          | [] => false
          | c :: l3 =>
              if (224 <=? a) && (a <=? 239) then
                continuation b && continuation c && negb ((a =? 224) && (b <? 160)) && negb ((a =? 237) && (160 <=? b))
                && utf8 l3
              else match l3 with
              | [] => false
              | d :: l4 =>
                  (240 <=? a) && (a <=? 244) && continuation b && continuation c && continuation d
                  && negb ((a =? 240) && (b <? 144)) && negb ((a =? 244) && (144 <=? b)) && utf8 l4
              end
          end
      end
  end.
Definition byte_of (c : Ascii.ascii) : Z := Z.of_N (Ascii.N_of_ascii c).
Definition char_of (b : Z) : Ascii.ascii := Ascii.ascii_of_N (Z.to_N b).

Definition string_of_bytes (l : list Z) : string := String.string_of_list_ascii (char_of <$> l).
Definition io_string (bytes : list Z) : IoReader string :=
  if utf8 bytes then mret (string_of_bytes bytes) else io_fail BadData.

Lemma string_of_string_bytes s : string_of_bytes (string_bytes s) = s.
Proof.
  unfold string_of_bytes, string_bytes. rewrite <- list_fmap_compose.
  rewrite <- (String.string_of_list_ascii_of_string s) at 2. f_equal.
  rewrite <- (list_fmap_id (String.list_ascii_of_string s)) at 2. apply list_fmap_ext.
  intros i a _. simpl. unfold char_of. by rewrite N2Z.id, Ascii.ascii_N_embedding.
Qed.

Lemma string_bytes_ok s : bytes_ok (string_bytes s).
Proof.
  unfold string_bytes, bytes_ok. apply Forall_fmap, Forall_true. intros a. unfold in_u.
  pose proof (Ascii.N_ascii_bounded a). simpl. lia.
Qed.

(** * Reading what was written *)

Definition parses {A} (m : IoReader A) (v : A) (b : list Z) : Prop :=
  forall rest, m (b ++ rest) = inr (v, rest).

Lemma parses_ret {A} (v : A) : parses (mret v) v [].
Proof. done. Qed.

Lemma parses_bind {A B} (m : IoReader A) (f : A -> IoReader B) v w b c :
  parses m v b -> parses (f v) w c -> parses (m ≫= f) w (b ++ c).
Proof. intros Hm Hf rest. unfold mbind, IoReader_bind. rewrite <- app_assoc, Hm. apply Hf. Qed.

Lemma parses_bind_0 {A B} (m : IoReader A) (f : A -> IoReader B) v w c :
  parses m v [] -> parses (f v) w c -> parses (m ≫= f) w c.
Proof. apply (parses_bind m f v w []). Qed.

Lemma parses_map {A B} (m : IoReader A) (f : A -> B) v b :
  parses m v b -> parses (a ← m; mret (f a)) (f v) b.
Proof. intros Hm. rewrite <- (app_nil_r b). eapply parses_bind; [exact Hm|apply parses_ret]. Qed.

Lemma parses_exact n b : length b = n -> parses (io_exact n) b b.
Proof.
  intros Hlen rest. unfold io_exact. rewrite length_app, (proj2 (Nat.ltb_ge _ _)) by lia.
  by rewrite take_field, drop_field_0.
Qed.

Lemma parses_u w z : in_u (8 * Z.of_nat w) z -> parses (io_u w) z (write_be w z).
Proof.
  intros Hz. rewrite <- (read_u_write w z Hz) at 1. apply (parses_map _ read_u), parses_exact, length_write_be.
Qed.

Lemma parses_s w z : (0 < w)%nat -> in_s (8 * Z.of_nat w) z -> parses (io_s w) z (write_be w z).
Proof.
  intros Hw Hz. rewrite <- (read_s_write w z) at 1 by done.
  apply (parses_map _ read_s), parses_exact, length_write_be.
Qed.

Lemma parses_byte z : in_u 8 z -> parses (io_u 1) z [z].
Proof.
  intros Hz. replace [z] with (write_be 1 z); [by apply parses_u|].
  unfold write_be. simpl. unfold in_u in Hz. by rewrite Z.div_1_r, Z.mod_small by lia.
Qed.

Lemma parses_string s : utf8 (string_bytes s) = true -> parses (io_string (string_bytes s)) s [].
Proof. intros Hu rest. unfold io_string. by rewrite Hu, string_of_string_bytes. Qed.

Lemma parses_repeat {A} (m : IoReader A) (f : A -> list Z) l :
  Forall (fun a => parses m a (f a)) l -> parses (io_repeat (length l) m) l (mjoin (f <$> l)).
Proof.
  induction 1 as [|a l Ha _ IH]; [apply parses_ret|].
  cbn [length io_repeat]. rewrite fmap_cons, mjoin_cons.
  eapply parses_bind; [exact Ha|]. by apply (parses_map _ (cons a)).
Qed.

(** A length of 32 bits and the bytes: [write_bytes_and_hash], [read_bytes]. *)
Definition io_bytes : IoReader (list Z) := len ← io_u 4; io_exact (Z.to_nat len).
Definition put_bytes (data : list Z) : list Z := write_be 4 (wrap_u 32 (Z.of_nat (length data))) ++ data.

Lemma parses_bytes data : in_u 32 (Z.of_nat (length data)) -> parses io_bytes data (put_bytes data).
Proof.
  intros Hl. unfold put_bytes. rewrite wrap_u_id by done. eapply parses_bind; [by apply parses_u|].
  by apply parses_exact; rewrite Nat2Z.id.
Qed.

Lemma length_put_bytes data : length (put_bytes data) = (4 + length data)%nat.
Proof. unfold put_bytes. by rewrite length_app, length_write_be. Qed.

(** Bytes that a reader takes are found at an offset. *)
Lemma parses_at {A} (m : IoReader A) v pre b rest :
  parses m v b -> m (drop (length pre) (pre ++ b ++ rest)) = inr (v, rest).
Proof. intros Hm. rewrite drop_app_length. apply Hm. Qed.
