(* ===== verification/TypeParser.v ===== *)
(** * Marshal names and dynamic composites

    crates/cassandra-types/src: type_parser.rs parses the names of types in the
    style of Java classes; dynamic_composite.rs prints them and reads and
    writes composites whose components carry the names of their types.  Text is
    its UTF-8 bytes; characters outside ASCII are taken as neither letters,
    digits nor white space.  The texts of error messages are left out. *)
From Stdlib Require Import Ascii.
From S2P Require Import Io.
From S2P Require Export Prelude OrdMap Types.

(** * type_parser.rs *)

Inductive ParseError :=
| UnknownType (name : str)
| Malformed
| UnexpectedEof.

(** A parser takes the remaining text and returns an error or a value and the
    text after it; [None] is only for want of fuel, which [p_type_total] excludes. *)
Definition Parser (A : Type) : Type := str -> option (ParseError + A * str).
#[export] Instance Parser_ret : MRet Parser := fun A a s => Some (inr (a, s)).
#[export] Instance Parser_bind : MBind Parser := fun A B f p s =>
  match p s with
  | Some (inr (a, s)) => f a s
  | Some (inl e) => Some (inl e)
  | None => None
  end.
Definition perr {A} (e : ParseError) : Parser A := fun _ => Some (inl e).

Fixpoint span (f : ascii -> bool) (s : str) : str * str :=
  match s with
  | [] => ([], [])
  | c :: s' => if f c then let '(a, b) := span f s' in (c :: a, b) else ([], s)
  end.

Definition peek : Parser (option ascii) := fun s => Some (inr (head s, s)).
Definition advance : Parser unit := fun s => Some (inr (tt, tail s)).
Definition skip_ws : Parser unit := fun s => Some (inr (tt, trim_start s)).
Definition consume_str (p : str) : Parser unit := fun s =>
  match strip_prefix p s with Some s => Some (inr (tt, s)) | None => Some (inl Malformed) end.
Definition consume_char (c : ascii) : Parser unit := consume_str [c].

Definition is_alphanumeric (c : ascii) : bool :=
  let n := nat_of_ascii c in
  ((48 <=? n) && (n <=? 57) || (65 <=? n) && (n <=? 90) || (97 <=? n) && (n <=? 122))%nat.
Definition name_char (c : ascii) : bool :=
  is_alphanumeric c || bool_decide (c = "."%char) || bool_decide (c = "_"%char) || bool_decide (c = "-"%char).
Definition raw_char (c : ascii) : bool :=
  negb (bool_decide (c = ","%char) || bool_decide (c = ")"%char) || bool_decide (c = ":"%char)).

(** The loop and the test of the readers of tokens. *)
Definition read_token (f : ascii -> bool) : Parser str := fun s =>
  match span f s with
  | ([], _) => Some (inl UnexpectedEof)
  | (token, s) => Some (inr (token, s))
  end.
Definition read_type_name : Parser str := read_token name_char.
Definition read_raw_token : Parser str := read_token raw_char.

Definition read_alias : Parser Z := fun s =>
  match s with
  | [] => Some (inl UnexpectedEof)
  | ch :: s =>
      if is_space ch || bool_decide (ch = ","%char) || bool_decide (ch = ")"%char) || bool_decide (ch = "="%char)
      then Some (inl Malformed)
      else
        let n := Z.of_nat (nat_of_ascii ch) in
        if (33 <=? n) && (n <=? 127) then Some (inr (n, s)) else Some (inl Malformed)
  end.

(** [&name[name.rfind('.') + 1..]] *)
Fixpoint strip_package (name : str) : str :=
  match name with
  | [] => []
  | c :: rest => if bool_decide ("."%char ∈ rest) then strip_package rest
                 else if decide (c = "."%char) then rest else name
  end.

Definition marshal_names : list (string * CqlType) :=
  [("AsciiType", AsciiT); ("LongType", BigintT); ("BytesType", BlobT); ("BooleanType", BooleanT);
   ("CounterColumnType", CounterT); ("DecimalType", DecimalT); ("DoubleType", DoubleT); ("FloatType", FloatT);
   ("Int32Type", IntT); ("TimestampType", TimestampT); ("UUIDType", UuidT); ("UTF8Type", VarcharT);
   ("IntegerType", VarintT); ("TimeUUIDType", TimeuuidT); ("InetAddressType", InetT); ("SimpleDateType", DateT);
   ("TimeType", TimeT); ("ShortType", SmallintT); ("ByteType", TinyintT); ("DurationType", DurationT);
   ("EmptyType", EmptyT); ("DateType", TimestampT)].
Definition map_simple_name (name : str) : Parser CqlType :=
  match find_name name marshal_names with Some ty => mret ty | None => perr (UnknownType name) end.

Definition freeze : CqlType -> CqlType := freeze_cql.

(** [String::from_utf8] *)
Definition from_utf8 (bytes : list Z) : option str := if utf8 bytes then Some (char_of <$> bytes) else None.

(** [u8::from_str_radix(s, 16)] on two characters; a plus sign may come first. *)
Definition hex_value (c : ascii) : option Z :=
  let n := Z.of_nat (nat_of_ascii c) in
  if (48 <=? n) && (n <=? 57) then Some (n - 48)
  else if (97 <=? n) && (n <=? 102) then Some (n - 87)
  else if (65 <=? n) && (n <=? 70) then Some (n - 55)
  else None.
Definition hex_pair (a b : ascii) : option Z :=
  if decide (a = "+"%char) then hex_value b else x ← hex_value a; y ← hex_value b; Some (16 * x + y).
Fixpoint hex_pairs (s : str) : option (list Z) :=
  match s with
  | [] => Some []
  | a :: b :: s => x ← hex_pair a b; l ← hex_pairs s; Some (x :: l)
  | [_] => None
  end.
Definition hex_decode_str (hex : str) : option str :=
  if (length hex =? 0)%nat || negb (Nat.even (length hex)) then None else hex_pairs hex ≫= from_utf8.

(** The parsers of parameter lists, over the parser of one type; each turn of their
    loops reads a type, so one unit of fuel per character is enough. *)
Fixpoint type_list (elem : Parser CqlType) (fuel : nat) : Parser (list CqlType) :=
  match fuel with
  | O => fun _ => None
  | S fuel =>
      _ ← skip_ws;
      c ← peek;
      if decide (c = Some ")"%char) then mret []
      else
        ty ← elem;
        _ ← skip_ws;
        c ← peek;
        if decide (c = Some ","%char) then _ ← advance; types ← type_list elem fuel; mret (ty :: types)
        else if decide (c = Some ")"%char) then mret [ty]
        else perr (match c with Some _ => Malformed | None => UnexpectedEof end)
  end.
Definition parse_type_params (elem : Parser CqlType) (fuel : nat) : Parser (list CqlType) :=
  _ ← consume_char "("; types ← type_list elem fuel; _ ← consume_char ")"; mret types.

Definition parse_vector_type (elem : Parser CqlType) : Parser CqlType :=
  _ ← consume_char "(";
  _ ← skip_ws;
  inner ← elem;
  _ ← skip_ws;
  _ ← consume_char ",";
  _ ← skip_ws;
  token ← read_raw_token;
  match parse_u32 (trim token) with
  | None => perr Malformed
  | Some dims =>
      if dims =? 0 then perr Malformed
      else _ ← skip_ws; _ ← consume_char ")"; mret (VectorT inner (Z.to_nat dims))
  end.

Fixpoint alias_list (elem : Parser CqlType) (fuel : nat) (aliases : list (Z * CqlType)) : Parser (list (Z * CqlType)) :=
  match fuel with
  | O => fun _ => None
  | S fuel =>
      _ ← skip_ws;
      c ← peek;
      if decide (c = Some ")"%char) then _ ← advance; mret aliases
      else
        alias ← read_alias;
        _ ← skip_ws;
        _ ← consume_str (lit "=>");
        _ ← skip_ws;
        ty ← elem;
        let aliases := alter_list (fun _ => Some ty) alias aliases in
        _ ← skip_ws;
        c ← peek;
        if decide (c = Some ","%char) then _ ← advance; alias_list elem fuel aliases
        else if decide (c = Some ")"%char) then _ ← advance; mret aliases
        else perr (match c with Some _ => Malformed | None => UnexpectedEof end)
  end.
Definition parse_dynamic_composite_type (elem : Parser CqlType) (fuel : nat) : Parser CqlType :=
  _ ← consume_char "("; aliases ← alias_list elem fuel []; mret (DynamicCompositeT aliases).

Definition decoded_name (hex : str) : string :=
  String.string_of_list_ascii (default hex (hex_decode_str hex)).
Fixpoint field_list (elem : Parser CqlType) (fuel : nat) : Parser (list (string * CqlType)) :=
  match fuel with
  | O => fun _ => None
  | S fuel =>
      c ← peek;
      if decide (c = Some ","%char) then
        _ ← advance;
        fname_hex ← read_raw_token;
        _ ← consume_char ":";
        ftype ← elem;
        fields ← field_list elem fuel;
        mret ((decoded_name fname_hex, ftype) :: fields)
      else mret []
  end.
Definition parse_user_type (elem : Parser CqlType) (fuel : nat) : Parser CqlType :=
  _ ← consume_char "(";
  keyspace ← read_raw_token;
  _ ← consume_char ",";
  name_hex ← read_raw_token;
  fields ← field_list elem fuel;
  _ ← consume_char ")";
  mret (UdtT (String.string_of_list_ascii keyspace) (decoded_name name_hex) fields.*1 fields.*2 true).

Definition single (f : CqlType -> CqlType) (params : list CqlType) : Parser CqlType :=
  match params with [inner] => mret (f inner) | _ => perr Malformed end.

Definition parse_parameterized (elem : Parser CqlType) (fuel : nat) (short : str) : Parser CqlType :=
  let params := parse_type_params elem fuel in
  if decide (short = lit "FrozenType") then ps ← params; single freeze ps
  else if decide (short = lit "ReversedType") then ps ← params; single ReversedT ps
  else if decide (short = lit "ListType") then ps ← params; single (fun t => ListT t false) ps
  else if decide (short = lit "SetType") then ps ← params; single (fun t => SetT t false) ps
  else if decide (short = lit "MapType") then
    ps ← params; match ps with [key; value] => mret (MapT key value false) | _ => perr Malformed end
  else if decide (short = lit "TupleType") then ps ← params; mret (TupleT ps)
  else if decide (short = lit "VectorType") then parse_vector_type elem
  else if decide (short = lit "CompositeType") then ps ← params; mret (CompositeT ps)
  else if decide (short = lit "DynamicCompositeType") then parse_dynamic_composite_type elem fuel
  else if decide (short = lit "UserType") then parse_user_type elem fuel
  else _ ← params; perr (UnknownType short).

Fixpoint p_type (fuel : nat) : Parser CqlType :=
  match fuel with
  | O => fun _ => None
  | S fuel =>
      name ← read_type_name;
      let short := strip_package name in
      c ← peek;
      if decide (c = Some "("%char) then parse_parameterized (p_type fuel) fuel short
      else map_simple_name short
  end.

Definition parse_type (s : str) : ParseError + CqlType :=
  let s := trim s in
  if (length s =? 0)%nat then inl UnexpectedEof
  else match p_type (S (length s)) s with
  | Some (inr (ty, rest)) => match trim_start rest with [] => inr ty | _ => inl Malformed end
  | Some (inl e) => inl e
  | None => inl UnexpectedEof
  end.

(** * dynamic_composite.rs *)

Definition hex_digit (n : Z) : ascii := char_of (if n <? 10 then 48 + n else 87 + n).
Definition hex_encode (bytes : list Z) : str :=
  mjoin ((fun b => [hex_digit (Z.shiftr b 4); hex_digit (Z.land b 15)]) <$> bytes).
(** [u8 as char], in UTF-8 *)
Definition latin1 (b : Z) : str := if b <? 128 then [char_of b] else [char_of (192 + b / 64); char_of (128 + b mod 64)].
Definition text_bytes (s : str) : list Z := byte_of <$> s.

Definition hex_name (s : string) : str := hex_encode (text_bytes (lit s)).

Fixpoint java_marshal_name (cql_type : CqlType) : str :=
  match cql_type with
  | AsciiT => lit "AsciiType" | BigintT => lit "LongType" | BlobT => lit "BytesType" | BooleanT => lit "BooleanType"
  | CounterT => lit "CounterColumnType" | DecimalT => lit "DecimalType" | DoubleT => lit "DoubleType"
  | FloatT => lit "FloatType" | IntT => lit "Int32Type" | TimestampT => lit "TimestampType" | UuidT => lit "UUIDType"
  | VarcharT => lit "UTF8Type" | VarintT => lit "IntegerType" | TimeuuidT => lit "TimeUUIDType"
  | InetT => lit "InetAddressType" | DateT => lit "SimpleDateType" | TimeT => lit "TimeType"
  | SmallintT => lit "ShortType" | TinyintT => lit "ByteType" | DurationT => lit "DurationType" | EmptyT => lit "EmptyType"
  | ListT inner _ => lit "ListType(" ++ java_marshal_name inner ++ lit ")"
  | SetT inner _ => lit "SetType(" ++ java_marshal_name inner ++ lit ")"
  | MapT key value _ => lit "MapType(" ++ java_marshal_name key ++ lit "," ++ java_marshal_name value ++ lit ")"
  | TupleT types => lit "TupleType" ++ lit "(" ++ join (lit ",") (map java_marshal_name types) ++ lit ")"
  | CompositeT types => lit "CompositeType" ++ lit "(" ++ join (lit ",") (map java_marshal_name types) ++ lit ")"
  | DynamicCompositeT aliases =>
      lit "DynamicCompositeType("
      ++ join (lit ",") (map (fun '(alias, ty) => latin1 alias ++ lit "=>" ++ java_marshal_name ty) aliases) ++ lit ")"
  | UdtT keyspace name field_names field_types _ =>
      lit "UserType("
      ++ join (lit ",") (lit keyspace :: hex_name name
           :: zip_with (fun field_name ty => hex_name field_name ++ lit ":" ++ ty) field_names (map java_marshal_name field_types))
      ++ lit ")"
  | ReversedT inner => lit "ReversedType(" ++ java_marshal_name inner ++ lit ")"
  | VectorT inner dimensions => lit "VectorType(" ++ java_marshal_name inner ++ lit "," ++ show dimensions ++ lit ")"
  end.

Record DynamicComponent := mkDynamicComponent {
  dyn_comparator : CqlType;
  dyn_value : list Z;
  dyn_eoc : Z
}.
Inductive DynamicParseError :=
| TruncatedComparatorHeader
| TruncatedComparatorName
| TruncatedValueLength
| TruncatedValue
| UnknownAlias (alias : Z)
| InvalidComparatorName
| InvalidComparatorType (e : ParseError)
| LengthOverflow.

Definition pair_dec {A B} (da : forall x y : A, {x = y} + {x <> y}) (db : forall x y : B, {x = y} + {x <> y})
    (p q : A * B) : {p = q} + {p <> q}.
Proof.
  destruct p as [a b], q as [a' b']. destruct (da a a') as [->|N]; [|right; congruence].
  destruct (db b b') as [->|N]; [by left|right; congruence].
Defined.
Definition CqlType_eq_dec : forall x y : CqlType, {x = y} + {x <> y}.
Proof.
  fix IH 1. intros x y. decide equality;
    first [apply Bool.bool_dec | apply String.string_dec | apply Nat.eq_dec | apply (List.list_eq_dec String.string_dec)
          | apply (List.list_eq_dec IH) | apply (List.list_eq_dec (pair_dec Z.eq_dec IH))].
Defined.
#[export] Instance CqlType_eq_decision : EqDecision CqlType := CqlType_eq_dec.

(** [aliases.iter().find_map(..)] *)
Fixpoint find_alias (ty : CqlType) (aliases : list (Z * CqlType)) : option Z :=
  match aliases with
  | [] => None
  | (alias, t) :: aliases => if decide (t = ty) then Some alias else find_alias ty aliases
  end.

Definition serialize_header (component : DynamicComponent) (aliases : list (Z * CqlType)) : DynamicParseError + list Z :=
  match find_alias (dyn_comparator component) aliases with
  | Some alias => inr (write_be 2 (Z.lor 32768 alias))
  | None =>
      let name_bytes := text_bytes (java_marshal_name (dyn_comparator component)) in
      if (32767 <? Z.of_nat (length name_bytes)) then inl LengthOverflow
      else inr (write_be 2 (Z.of_nat (length name_bytes)) ++ name_bytes)
  end.

(** The last component keeps its end-of-component byte. *)
Fixpoint serialize_dynamic_composite (components : list DynamicComponent) (aliases : list (Z * CqlType))
    : DynamicParseError + list Z :=
  match components with
  | [] => inr []
  | component :: components =>
      match serialize_header component aliases with
      | inl e => inl e
      | inr header =>
          if 32767 <? Z.of_nat (length (dyn_value component)) then inl LengthOverflow
          else
            match serialize_dynamic_composite components aliases with
            | inl e => inl e
            | inr out =>
                inr (header ++ write_be 2 (Z.of_nat (length (dyn_value component))) ++ dyn_value component
                     ++ [match components with [] => dyn_eoc component | _ => 0 end] ++ out)
            end
      end
  end.

(** The comparator of a component and the data after it. *)
Definition deserialize_header (data : list Z) (aliases : list (Z * CqlType)) : DynamicParseError + (CqlType * list Z) :=
  if (length data <? 2)%nat then inl TruncatedComparatorHeader
  else
    let header := read_u (take 2 data) in
    let data := drop 2 data in
    if negb (Z.land header 32768 =? 0) then
      let alias := Z.land header 255 in
      match lookup_list alias aliases with Some ty => inr (ty, data) | None => inl (UnknownAlias alias) end
    else
      let name_len := Z.to_nat header in
      if (length data <? name_len)%nat then inl TruncatedComparatorName
      else match from_utf8 (take name_len data) with
      | None => inl InvalidComparatorName
      | Some name =>
          match parse_type name with
          | inl e => inl (InvalidComparatorType e)
          | inr ty => inr (ty, drop name_len data)
          end
      end.

(** Each turn of the loop takes at least five bytes, so the length is enough fuel. *)
Fixpoint read_dynamic (fuel : nat) (data : list Z) (aliases : list (Z * CqlType))
    : DynamicParseError + list DynamicComponent :=
  match fuel, data with
  | _, [] => inr []
  | O, _ => inl TruncatedComparatorHeader
  | S fuel, _ =>
      match deserialize_header data aliases with
      | inl e => inl e
      | inr (comparator, data) =>
          if (length data <? 2)%nat then inl TruncatedValueLength
          else
            let value_len := Z.to_nat (read_u (take 2 data)) in
            let data := drop 2 data in
            if (length data <? value_len + 1)%nat then inl TruncatedValue
            else
              match read_dynamic fuel (drop (value_len + 1) data) aliases with
              | inl e => inl e
              | inr components =>
                  inr (mkDynamicComponent comparator (take value_len data) (nth value_len data 0) :: components)
              end
      end
  end.
Definition deserialize_dynamic_composite (data : list Z) (aliases : list (Z * CqlType)) : DynamicParseError + list DynamicComponent :=
  read_dynamic (length data) data aliases.

(** * The parser has enough fuel

    On text shorter than [n] the parser returns, and a success takes at least [d]
    characters. *)
Definition runs (n d : nat) {A} (p : Parser A) : Prop := forall s, (length s < n)%nat ->
  match p s with
  | None => False
  | Some (inl _) => True
  | Some (inr (_, s')) => (length s' + d <= length s)%nat
  end.

Lemma runs_weaken n d n' d' {A} (p : Parser A) : runs n d p -> (n' <= n)%nat -> (d' <= d)%nat -> runs n' d' p.
Proof. intros H Hn Hd s Hs. specialize (H s ltac:(lia)). destruct (p s) as [[e|[a s']]|]; [done|lia|done]. Qed.

Lemma runs_bind n d e {A B} (p : Parser A) (f : A -> Parser B) :
  runs n d p -> (forall a, runs (n - d) e (f a)) -> runs n (d + e) (p ≫= f).
Proof.
  intros Hp Hf s Hs. specialize (Hp s Hs). unfold mbind, Parser_bind. destruct (p s) as [[err|[a s']]|]; [done| |done].
  specialize (Hf a s' ltac:(lia)). destruct (f a s') as [[err|[b s'']]|]; [done|lia|done].
Qed.
Lemma runs_bind0 n {A B} (p : Parser A) (f : A -> Parser B) :
  runs n 0 p -> (forall a, runs n 0 (f a)) -> runs n 0 (p ≫= f).
Proof. intros Hp Hf. apply (runs_bind n 0 0); [done|]. by rewrite Nat.sub_0_r. Qed.

Lemma runs_ret n {A} (a : A) : runs n 0 (mret a).
Proof. intros s Hs. cbn. lia. Qed.
Lemma runs_err n d {A} e : runs n d (perr e : Parser A).
Proof. by intros s Hs. Qed.
Lemma runs_peek n : runs n 0 peek.
Proof. intros s Hs. cbn. lia. Qed.
Lemma runs_advance n : runs n 0 advance.
Proof. intros s Hs. cbn. destruct s; cbn; lia. Qed.
Lemma runs_skip n : runs n 0 skip_ws.
Proof. intros s Hs. cbn. pose proof (trim_start_length s). lia. Qed.
Lemma runs_str n p : runs n 0 (consume_str p).
Proof.
  intros s Hs. unfold consume_str. destruct (strip_prefix p s) as [r|] eqn:E; [|done].
  apply strip_prefix_Some in E as ->. rewrite length_app. lia.
Qed.
Lemma span_length f s : length s = (length (span f s).1 + length (span f s).2)%nat.
Proof. induction s as [|c s IH]; [done|]. cbn. destruct (f c); [|done]. destruct (span f s). cbn in *. lia. Qed.
Lemma runs_token n f : runs n 1 (read_token f).
Proof.
  intros s Hs. unfold read_token. pose proof (span_length f s). destruct (span f s) as [[|c t] r]; [done|]. cbn in *. lia.
Qed.
Lemma runs_alias n : runs n 0 read_alias.
Proof.
  intros [|c s] Hs; [done|]. unfold read_alias. destruct (_ || _ || _ || _); [done|]. cbn zeta.
  destruct (_ && _); [cbn; lia|done].
Qed.
Lemma runs_token0 n f : runs n 0 (read_token f).
Proof. eapply runs_weaken; [apply (runs_token n)|lia..]. Qed.
Lemma runs_raw n : runs n 0 read_raw_token.
Proof. apply runs_token0. Qed.
Lemma runs_char n c : runs n 0 (consume_char c).
Proof. apply runs_str. Qed.

Create HintDb parser.
#[export] Hint Resolve runs_raw runs_char runs_ret runs_err runs_peek runs_advance runs_skip runs_str runs_token0 runs_alias : parser.

Ltac run_steps := repeat (first [apply runs_bind0; [by auto with parser|intros ?] | case_decide | case_match]); try (by auto with parser).

Section loops.
Context (elem : Parser CqlType) (m : nat).
Hypothesis elem_runs : runs m 1 elem.

(** After an element there is less text, so a loop may go on with less fuel. *)
Lemma runs_elem n {A} (f : CqlType -> Parser A) :
  (n <= m)%nat -> (forall t, runs (n - 1) 0 (f t)) -> runs n 0 (elem ≫= f).
Proof.
  intros Hn Hf. eapply runs_weaken; [apply (runs_bind n 1 0)|lia|lia]; [by eapply runs_weaken; [exact elem_runs|lia..]|done].
Qed.

Lemma runs_type_list fuel n : (n <= m)%nat -> (n <= fuel)%nat -> runs n 0 (type_list elem fuel).
Proof.
  revert n. induction fuel as [|fuel IH]; intros n Hm Hf; [by intros s Hs; lia|]. cbn [type_list]. run_steps.
  apply runs_elem; [done|]. intros t. run_steps. apply runs_bind0; [apply IH; lia|]. auto with parser.
Qed.

Lemma runs_alias_list fuel n aliases : (n <= m)%nat -> (n <= fuel)%nat -> runs n 0 (alias_list elem fuel aliases).
Proof.
  revert n aliases. induction fuel as [|fuel IH]; intros n aliases Hm Hf; [by intros s Hs; lia|]. cbn [alias_list]. run_steps.
  apply runs_elem; [done|]. intros t. run_steps. apply IH; lia.
Qed.

Lemma runs_field_list fuel n : (n <= m)%nat -> (n <= fuel)%nat -> runs n 0 (field_list elem fuel).
Proof.
  revert n. induction fuel as [|fuel IH]; intros n Hm Hf; [by intros s Hs; lia|]. cbn [field_list]. run_steps.
  apply runs_elem; [done|]. intros t. apply runs_bind0; [apply IH; lia|]. auto with parser.
Qed.
End loops.

Lemma runs_parameterized elem fuel short : runs fuel 1 elem -> runs fuel 0 (parse_parameterized elem fuel short).
Proof.
  intros He. assert (Hparams : runs fuel 0 (parse_type_params elem fuel)).
  { unfold parse_type_params. run_steps. apply runs_bind0; [by eapply runs_type_list|]. intros types. run_steps. }
  unfold parse_parameterized, single. run_steps; try (apply runs_bind0; [done|intros ps; run_steps]).
  - unfold parse_vector_type. run_steps. eapply runs_elem; [done..|].
    intros t. run_steps.
  - unfold parse_dynamic_composite_type. run_steps. apply runs_bind0; [by eapply runs_alias_list|]. run_steps.
  - unfold parse_user_type. run_steps. apply runs_bind0; [by eapply runs_field_list|]. intros fs. run_steps.
Qed.

Lemma p_type_runs fuel : runs fuel 1 (p_type fuel).
Proof.
  induction fuel as [|fuel IH]; [by intros s Hs; lia|]. cbn [p_type].
  eapply runs_weaken; [apply (runs_bind (S fuel) 1 0); [apply runs_token|]|lia..]. intros name.
  rewrite Nat.sub_succ, Nat.sub_0_r. run_steps; [by apply runs_parameterized|]. unfold map_simple_name. run_steps.
Qed.

(** Parsing never runs out of fuel. *)
Lemma p_type_total s : p_type (S (length s)) s <> None.
Proof. intros E. pose proof (p_type_runs (S (length s)) s ltac:(lia)) as H. by rewrite E in H. Qed.

(** * Names are read back *)

(** The parser takes [s] up to [rest] and returns [a]. *)
Definition eats {A} (p : Parser A) (s : str) (a : A) (rest : str) : Prop := p s = Some (inr (a, rest)).

Lemma eats_bind {A B} (p : Parser A) (f : A -> Parser B) s a s' b rest :
  eats p s a s' -> eats (f a) s' b rest -> eats (p ≫= f) s b rest.
Proof. unfold eats, mbind, Parser_bind. by intros ->. Qed.
Lemma eats_ret {A} (a : A) s : eats (mret a) s a s.
Proof. done. Qed.
Lemma eats_peek s : eats peek s (head s) s.
Proof. done. Qed.
Lemma eats_advance c s : eats advance (c :: s) tt s.
Proof. done. Qed.
Lemma eats_str p s : eats (consume_str p) (p ++ s) tt s.
Proof. unfold eats, consume_str. by rewrite (proj2 (strip_prefix_Some p (p ++ s) s)). Qed.
Lemma eats_char c s : eats (consume_char c) (c :: s) tt s.
Proof. apply (eats_str [c]). Qed.
Lemma eats_skip c s : is_space c = false -> eats skip_ws (c :: s) tt (c :: s).
Proof. intros E. unfold eats, skip_ws. cbn. by rewrite E. Qed.

Lemma span_app f w rest : forallb f w = true -> (match rest with [] => true | c :: _ => negb (f c) end) = true ->
  span f (w ++ rest) = (w, rest).
Proof.
  intros Hw Hr. induction w as [|c w IH]; cbn in *.
  - destruct rest as [|c rest]; [done|]. cbn. by apply negb_true_iff in Hr as ->.
  - apply andb_true_iff in Hw as [-> Hw]. by rewrite IH.
Qed.
Lemma eats_token f w rest : w <> [] -> forallb f w = true -> (match rest with [] => true | c :: _ => negb (f c) end) = true ->
  eats (read_token f) (w ++ rest) w rest.
Proof. intros Hne Hw Hr. unfold eats, read_token. rewrite span_app by done. by destruct w. Qed.

(** What may follow a type. *)
Definition stops (rest : str) : Prop := match rest with [] => True | c :: _ => c = ","%char \/ c = ")"%char end.
(** A name starts with a letter. *)
Definition starts (w : str) : Prop := exists c s, w = c :: s /\ name_char c = true.

Lemma name_char_space c : name_char c = true -> is_space c = false.
Proof. destruct c as [[] [] [] [] [] [] [] []]; (discriminate || reflexivity). Qed.

Lemma stops_name rest : stops rest -> (match rest with [] => true | c :: _ => negb (name_char c) end) = true.
Proof. destruct rest; [done|]. by intros [-> | ->]. Qed.
Lemma stops_comma s : stops (","%char :: s).
Proof. by left. Qed.
Lemma stops_close s : stops (")"%char :: s).
Proof. by right. Qed.
#[export] Hint Resolve stops_comma stops_close : parser.

(** A parser reads the name [w] as the type [t]. *)
Definition reads_as (elem : Parser CqlType) (w : str) (t : CqlType) : Prop :=
  starts w /\ forall rest, stops rest -> eats elem (w ++ rest) t rest.

Lemma starts_step {A} w (f : unit -> Parser A) s b rest :
  starts w -> eats (f tt) (w ++ s) b rest -> eats (skip_ws ≫= f) (w ++ s) b rest.
Proof.
  intros (c & w' & -> & Hc) H. eapply eats_bind; [apply eats_skip, name_char_space, Hc|exact H].
Qed.
Lemma starts_head w s : starts w -> head (w ++ s) <> Some ")"%char /\ head (w ++ s) <> Some ","%char.
Proof. intros (c & w' & -> & Hc). cbn. split; intros [= ->]; done. Qed.

Lemma join_tail sep w ws : join sep (w :: ws) = w ++ mjoin (map (fun v => sep ++ v) ws).
Proof.
  revert w. induction ws as [|v ws IH]; intros w; [by rewrite app_nil_r|]. rewrite join_cons by done. rewrite IH.
  cbn [map]. rewrite mjoin_cons. by rewrite !app_assoc.
Qed.

Section reads.
Context (elem : Parser CqlType).

(** [step] lemmas: one element of a list and the separator after it. *)
Lemma eats_type_list fuel ws ts rest :
  Forall2 (reads_as elem) ws ts -> (length ws < fuel)%nat ->
  eats (type_list elem fuel) (join (lit ",") ws ++ ")"%char :: rest) ts (")"%char :: rest).
Proof.
  intros H. revert fuel. induction H as [|w t ws ts [Hs He] H IH]; intros [|fuel] Hf; cbn [length] in Hf; [lia| |lia|].
  - cbn [join app type_list]. eapply eats_bind; [by apply eats_skip|]. eapply eats_bind; [apply eats_peek|]. by apply eats_ret.
  - rewrite join_tail. cbn [type_list]. rewrite <- app_assoc. apply starts_step; [done|].
    eapply eats_bind; [apply eats_peek|]. rewrite decide_False by (by apply starts_head).
    destruct H as [|v u ws ts Hv H].
    + eapply eats_bind; [apply He; apply stops_close|]. eapply eats_bind; [by apply eats_skip|].
      eapply eats_bind; [apply eats_peek|]. by apply eats_ret.
    + cbn [map]. rewrite mjoin_cons, <- !app_assoc. eapply eats_bind; [apply He; by left|].
      eapply eats_bind; [by apply eats_skip|]. eapply eats_bind; [apply eats_peek|]. cbn [head app lit String.list_ascii_of_string].
      rewrite decide_True by done. eapply eats_bind; [apply eats_advance|].
      eapply eats_bind; [|apply eats_ret]. specialize (IH fuel ltac:(cbn in *; lia)). rewrite join_tail, <- app_assoc in IH. exact IH.
Qed.

Lemma eats_params fuel ws ts rest :
  Forall2 (reads_as elem) ws ts -> (length ws < fuel)%nat ->
  eats (parse_type_params elem fuel) ("("%char :: join (lit ",") ws ++ ")"%char :: rest) ts rest.
Proof.
  intros H Hf. eapply eats_bind; [apply eats_char|]. eapply eats_bind; [by apply eats_type_list|].
  eapply eats_bind; [apply eats_char|]. by apply eats_ret.
Qed.
End reads.

(** ** Hexadecimal names *)

Lemma char_byte c : char_of (byte_of c) = c.
Proof. unfold char_of, byte_of. rewrite N2Z.id. apply ascii_N_embedding. Qed.
Lemma byte_of_range c : is_u8 (byte_of c).
Proof. unfold byte_of, in_u. pose proof (N_ascii_bounded c). lia. Qed.

Lemma hex_pair_digits b : is_u8 b -> hex_pair (hex_digit (Z.shiftr b 4)) (hex_digit (Z.land b 15)) = Some b
  /\ raw_char (hex_digit (Z.shiftr b 4)) = true /\ raw_char (hex_digit (Z.land b 15)) = true.
Proof.
  intros Hb. assert (H : forallb (fun b => bool_decide (hex_pair (hex_digit (Z.shiftr b 4)) (hex_digit (Z.land b 15)) = Some b)
    && raw_char (hex_digit (Z.shiftr b 4)) && raw_char (hex_digit (Z.land b 15))) (seqZ 0 256) = true) by (vm_compute; reflexivity).
  rewrite List.forallb_forall in H. specialize (H b). rewrite !andb_true_iff in H.
  destruct H as [[H1%bool_decide_eq_true H2] H3]; [|done]. apply list_elem_of_In, elem_of_seqZ. unfold in_u in Hb. lia.
Qed.

Lemma hex_encode_cons b l : hex_encode (b :: l) = hex_digit (Z.shiftr b 4) :: hex_digit (Z.land b 15) :: hex_encode l.
Proof. done. Qed.

Lemma hex_pairs_encode l : bytes_ok l -> hex_pairs (hex_encode l) = Some l.
Proof.
  induction 1 as [|b l Hb _ IH]; [done|]. rewrite hex_encode_cons. cbn [hex_pairs].
  rewrite (proj1 (hex_pair_digits b Hb)). cbn. by rewrite IH.
Qed.
Lemma hex_encode_raw l : bytes_ok l -> forallb raw_char (hex_encode l) = true.
Proof.
  induction 1 as [|b l Hb _ IH]; [done|]. rewrite hex_encode_cons. cbn [forallb].
  destruct (hex_pair_digits b Hb) as (_ & -> & ->). by rewrite IH.
Qed.
Lemma hex_encode_even l : Nat.even (length (hex_encode l)) = true.
Proof. induction l as [|b l IH]; [done|]. by rewrite hex_encode_cons. Qed.

Definition hexable (s : string) : bool := negb (bool_decide (s = EmptyString)) && utf8 (text_bytes (lit s)).

Lemma text_bytes_ok s : bytes_ok (text_bytes s).
Proof. apply Forall_fmap, Forall_true. intros c. apply byte_of_range. Qed.

Lemma hex_name_ok s : hexable s = true ->
  hex_name s <> [] /\ forallb raw_char (hex_name s) = true /\ decoded_name (hex_name s) = s.
Proof.
  unfold hexable, hex_name. intros [Hne%negb_true_iff%bool_decide_eq_false Hu]%andb_true_iff.
  assert (hex_encode (text_bytes (lit s)) <> []) as Hx by (destruct s; done). split_and!; [done|apply hex_encode_raw, text_bytes_ok|].
  unfold decoded_name, hex_decode_str. rewrite hex_encode_even, hex_pairs_encode by apply text_bytes_ok.
  destruct (hex_encode (text_bytes (lit s))); [done|]. cbn [length Nat.eqb orb negb mbind option_bind].
  unfold from_utf8. rewrite Hu. cbn [default]. unfold text_bytes. rewrite <- list_fmap_compose.
  rewrite (list_fmap_ext _ id (lit s)) by (intros i c _; apply char_byte). rewrite list_fmap_id. apply String.string_of_list_ascii_of_string.
Qed.

(** ** The other parameter lists *)

Definition alias_ok (a : Z) : bool := (33 <=? a) && (a <=? 127) && negb ((a =? 44) || (a =? 41) || (a =? 61)).

Lemma eats_alias a s : alias_ok a = true -> eats read_alias (latin1 a ++ s) a s /\ exists c, latin1 a = [c] /\ is_space c = false
  /\ c <> ")"%char.
Proof.
  intros Ha. assert (H : forallb (fun a => implb (alias_ok a)
    (match read_alias (latin1 a) with Some (inr (b, [])) => b =? a | _ => false end && match latin1 a with [c] => negb (is_space c) && negb (bool_decide (c = ")"%char)) | _ => false end))
    (seqZ 0 128) = true) by (vm_compute; reflexivity).
  rewrite List.forallb_forall in H. specialize (H a). rewrite Ha in H. cbn [implb] in H.
  assert (In a (seqZ 0 128)) as Hin.
  { apply list_elem_of_In, elem_of_seqZ. unfold alias_ok in Ha. bool_to_prop. lia. }
  specialize (H Hin). apply andb_true_iff in H as [H1 H2].
  destruct (latin1 a) as [|c [|]]; [done| |done]. apply andb_true_iff in H2 as [H2%negb_true_iff H3%negb_true_iff%bool_decide_eq_false].
  split; [|by exists c]. unfold eats. revert H1. unfold read_alias. cbn [app]. destruct (_ || _ || _ || _); [done|]. cbn zeta.
  destruct (_ && _); [|done]. by intros ->%Z.eqb_eq.
Qed.

Lemma alter_list_append (acc : list (Z * CqlType)) a ty l :
  keys_sorted (acc ++ (a, ty) :: l) = true -> alter_list (fun _ => Some ty) a acc = acc ++ [(a, ty)].
Proof.
  induction acc as [|[k v] acc IH]; [done|]. cbn [app]. rewrite keys_sorted_cons. intros [Hab Hs]. cbn [alter_list].
  assert (cmp a k = Gt) as ->; [|by rewrite IH]. apply cmp_gt_lt, (Hab (a, ty)). set_solver.
Qed.

Section reads.
Context (elem : Parser CqlType).

Definition alias_text (it : Z * str) : str := latin1 it.1 ++ lit "=>" ++ it.2.

Lemma eats_alias_list fuel items ts acc rest :
  Forall2 (fun it t => alias_ok it.1 = true /\ reads_as elem it.2 t) items ts ->
  keys_sorted (acc ++ zip items.*1 ts) = true -> (length items < fuel)%nat ->
  eats (alias_list elem fuel acc) (join (lit ",") (map alias_text items) ++ ")"%char :: rest) (acc ++ zip items.*1 ts) rest.
Proof.
  intros H. revert fuel acc. induction H as [|[a w] t items ts [Ha [Hs He]] H IH]; intros [|fuel] acc Hk Hf; cbn [length] in Hf; [lia| |lia|].
  - cbn. rewrite app_nil_r. done.
  - cbn [map]. rewrite join_tail. cbn [alias_list]. unfold alias_text at 1. cbn [fst snd]. rewrite <- !app_assoc.
    destruct (eats_alias a (lit "=>" ++ w ++ mjoin (map (fun v => lit "," ++ v) (map alias_text items)) ++ ")"%char :: rest) Ha)
      as (Hr & c & Ec & Hsp & Hne). rewrite Ec in *. cbn [app] in *.
    eapply eats_bind; [by apply eats_skip|]. eapply eats_bind; [apply eats_peek|]. cbn [head]. rewrite decide_False by congruence.
    eapply eats_bind; [exact Hr|]. eapply eats_bind; [by apply eats_skip|]. eapply eats_bind; [apply (eats_str (lit "=>"))|].
    apply starts_step; [done|].
    cbn [fmap list_fmap zip zip_with fst snd] in *. pose proof (alter_list_append _ _ _ _ Hk) as Eins.
    replace (acc ++ (a, t) :: zip items.*1 ts) with ((acc ++ [(a, t)]) ++ zip items.*1 ts) in * by (by rewrite <- app_assoc).
    destruct H as [|it u items ts Hit H].
    + cbn [map mjoin list_join app]. eapply eats_bind; [apply He, stops_close|]. rewrite Eins. eapply eats_bind; [by apply eats_skip|].
      eapply eats_bind; [apply eats_peek|]. cbn [head]. rewrite decide_False, decide_True by done.
      eapply eats_bind; [apply eats_advance|]. cbn. by rewrite app_nil_r.
    + cbn [map]. rewrite mjoin_cons, <- !app_assoc. eapply eats_bind; [apply He; by left|]. rewrite Eins.
      eapply eats_bind; [by apply eats_skip|]. eapply eats_bind; [apply eats_peek|]. cbn [head app lit String.list_ascii_of_string].
      rewrite decide_True by done. eapply eats_bind; [apply eats_advance|].
      specialize (IH fuel (acc ++ [(a, t)]) Hk ltac:(cbn in *; lia)). cbn [map] in IH. rewrite join_tail, <- app_assoc, <- (app_assoc acc [(a, t)]) in IH. exact IH.
Qed.

Definition field_text (it : string * str) : str := hex_name it.1 ++ lit ":" ++ it.2.

Lemma eats_field_list fuel items ts rest :
  Forall2 (fun it t => hexable it.1 = true /\ reads_as elem it.2 t) items ts -> (length items < fuel)%nat ->
  eats (field_list elem fuel) (mjoin (map (fun v => lit "," ++ v) (map field_text items)) ++ ")"%char :: rest)
    (zip items.*1 ts) (")"%char :: rest).
Proof.
  intros H. revert fuel. induction H as [|[f w] t items ts [Hh [Hs He]] H IH]; intros [|fuel] Hf; cbn [length] in Hf; [lia|done|lia|].
  cbn [map field_list]. rewrite mjoin_cons. unfold field_text at 1. cbn [fst snd]. rewrite <- !app_assoc.
  destruct (hex_name_ok f Hh) as (Hne & Hraw & Hdec). cbn [lit String.list_ascii_of_string app].
  eapply eats_bind; [apply eats_peek|]. cbn [head]. rewrite decide_True by done. eapply eats_bind; [apply eats_advance|].
  eapply eats_bind; [by apply eats_token|]. eapply eats_bind; [apply eats_char|].
  eapply eats_bind; [apply He|].
  - destruct items; [apply stops_close|by left].
  - eapply eats_bind; [apply IH; lia|]. rewrite Hdec. apply eats_ret.
Qed.

Lemma eats_user fuel keyspace name items ts rest :
  keyspace <> EmptyString -> forallb raw_char (lit keyspace) = true -> hexable name = true ->
  Forall2 (fun it t => hexable it.1 = true /\ reads_as elem it.2 t) items ts -> (length items < fuel)%nat ->
  eats (parse_user_type elem fuel)
    ("("%char :: join (lit ",") (lit keyspace :: hex_name name :: map field_text items) ++ ")"%char :: rest)
    (UdtT keyspace name items.*1 ts true) rest.
Proof.
  intros Hk Hkr Hn H Hf. rewrite join_tail. cbn [map]. rewrite mjoin_cons, <- !app_assoc.
  destruct (hex_name_ok name Hn) as (Hne & Hraw & Hdec).
  eapply eats_bind; [apply eats_char|].
  eapply eats_bind; [apply eats_token; [by destruct keyspace|done|done]|]. eapply eats_bind; [apply eats_char|].
  eapply eats_bind; [apply eats_token; [done|done|by destruct items]|].
  eapply eats_bind; [by apply eats_field_list|]. eapply eats_bind; [apply eats_char|].
  rewrite Hdec, String.string_of_list_ascii_of_string, fst_zip, snd_zip by (rewrite ?length_fmap; apply Forall2_length in H; lia).
  apply eats_ret.
Qed.

Lemma show_chars (f : ascii -> bool) n : (forall d, (d < 10)%nat -> f (digit d) = true) -> forallb f (show n) = true.
Proof.
  intros Hf. unfold show. generalize (S n) at 1. intros fuel. assert (Hacc : forallb f [] = true) by done.
  revert n Hacc. generalize (@nil ascii). induction fuel as [|fuel IH]; intros acc n Hacc; [done|]. cbn [show_digits].
  pose proof (Nat.mod_upper_bound n 10 ltac:(done)) as Hm.
  assert (forallb f (digit (n mod 10) :: acc) = true) by (cbn; by rewrite Hf). destruct (n <? 10)%nat; [done|by apply IH].
Qed.

Lemma eats_vector w t dims rest :
  reads_as elem w t -> (dims <> 0)%nat -> Z.of_nat dims <= u32_MAX ->
  eats (parse_vector_type elem) ("("%char :: w ++ ","%char :: show dims ++ ")"%char :: rest) (VectorT t dims) rest.
Proof.
  intros [Hs He] Hd Hmax. destruct (show_digits_shape dims dims []) as (d & v & _ & Hd10 & _ & E & _).
  assert (show dims <> []) by (unfold show; by rewrite E).
  assert (Hskip : forall r, eats skip_ws (show dims ++ r) tt (show dims ++ r)).
  { intros r. unfold show. rewrite E. apply eats_skip. by apply digit_facts. }
  eapply eats_bind; [apply eats_char|]. apply starts_step; [done|]. eapply eats_bind; [apply He, stops_comma|].
  eapply eats_bind; [by apply eats_skip|]. eapply eats_bind; [apply eats_char|].
  eapply eats_bind; [apply Hskip|]. eapply eats_bind; [apply eats_token; [done|apply show_chars|done]|].
  { intros k Hk. do 10 (destruct k as [|k]; [reflexivity|]). lia. }
  rewrite trim_tight, parse_u32_show by (done || apply show_tight). rewrite (proj2 (Z.eqb_neq _ _)) by lia.
  eapply eats_bind; [by apply eats_skip|]. eapply eats_bind; [apply eats_char|]. rewrite Nat2Z.id. apply eats_ret.
Qed.
End reads.

(** ** All types *)

(** Names do not say whether a collection is frozen or a user type is multi-cell. *)
Fixpoint thaw (t : CqlType) : CqlType :=
  match t with
  | ListT inner _ => ListT (thaw inner) false
  | SetT inner _ => SetT (thaw inner) false
  | MapT key value _ => MapT (thaw key) (thaw value) false
  | TupleT types => TupleT (map thaw types)
  | CompositeT types => CompositeT (map thaw types)
  | DynamicCompositeT aliases => DynamicCompositeT (map (fun '(alias, ty) => (alias, thaw ty)) aliases)
  | UdtT keyspace name field_names field_types _ => UdtT keyspace name field_names (map thaw field_types) true
  | ReversedT inner => ReversedT (thaw inner)
  | VectorT inner dims => VectorT (thaw inner) dims
  | t => t
  end.

(** The types whose names can be read: aliases that the parser admits, in the order of a
    map, user types with names and a keyspace without delimiters, and dimensions
    of a vector. *)
Fixpoint marshal_ok (t : CqlType) : bool :=
  match t with
  | ListT inner _ | SetT inner _ | ReversedT inner => marshal_ok inner
  | MapT key value _ => marshal_ok key && marshal_ok value
  | TupleT types | CompositeT types => forallb marshal_ok types
  | DynamicCompositeT aliases =>
      keys_sorted aliases && forallb (fun '(alias, ty) => alias_ok alias && marshal_ok ty) aliases
  | UdtT keyspace name field_names field_types _ =>
      negb (bool_decide (keyspace = EmptyString)) && forallb raw_char (lit keyspace) && hexable name
      && forallb hexable field_names && (length field_names =? length field_types)%nat && forallb marshal_ok field_types
  | VectorT inner dims => marshal_ok inner && negb (dims =? 0)%nat && (Z.of_nat dims <=? u32_MAX)
  | _ => true
  end.

Definition plain_name (w : str) : bool :=
  match w with [] => false | _ => forallb name_char w && negb (bool_decide ("."%char ∈ w)) end.

Lemma strip_plain w : plain_name w = true -> strip_package w = w.
Proof.
  destruct w as [|c w]; [done|]. intros [_ Hd%negb_true_iff%bool_decide_eq_false]%andb_true_iff. cbn [strip_package].
  rewrite bool_decide_false, decide_False by set_solver. done.
Qed.

Lemma p_name n w rest :
  plain_name w = true -> (match rest with [] => true | c :: _ => negb (name_char c) end) = true ->
  p_type (S n) (w ++ rest)
  = if decide (head rest = Some "("%char) then parse_parameterized (p_type n) n w rest else map_simple_name w rest.
Proof.
  intros Hw Hr. pose proof (strip_plain w Hw) as Hs. assert (w <> [] /\ forallb name_char w = true) as [Hne Hc].
  { destruct w; [done|]. apply andb_true_iff in Hw as [? _]. done. }
  pose proof (eats_token name_char w rest Hne Hc Hr) as E. unfold eats in E. cbn [p_type].
  unfold read_type_name. unfold mbind at 1, Parser_bind at 1. rewrite E. rewrite Hs.
  unfold mbind, Parser_bind, peek. by case_decide.
Qed.

Lemma p_simple n w ty rest :
  plain_name w = true -> find_name w marshal_names = Some ty -> stops rest -> eats (p_type (S n)) (w ++ rest) ty rest.
Proof.
  intros Hw Hf Hr. unfold eats. rewrite p_name by (done || by apply stops_name).
  rewrite decide_False by (destruct rest; [done|]; destruct Hr as [-> | ->]; done). unfold map_simple_name. by rewrite Hf.
Qed.

Lemma p_param n (N : string) rest ty rest' :
  plain_name (lit N) = true -> eats (parse_parameterized (p_type n) n (lit N)) ("("%char :: rest) ty rest' ->
  eats (p_type (S n)) (lit N ++ "("%char :: rest) ty rest'.
Proof. intros Hw H. unfold eats. by rewrite p_name. Qed.

(** Find the branch of a constructor's name. *)
Ltac pick := unfold parse_parameterized; repeat first [rewrite decide_True by reflexivity | rewrite decide_False by discriminate].

Lemma name_starts t : starts (java_marshal_name t).
Proof. destruct t; by eexists _, _. Qed.

Lemma join_length_count ws : Forall (fun w => w <> []) ws -> (length ws <= length (join (lit ",") ws))%nat.
Proof.
  induction 1 as [|[|c w] ws Hw _ IH]; [done|done|]. destruct ws; [cbn; lia|]. rewrite join_cons by done.
  rewrite !length_app. cbn in *. lia.
Qed.

(** The constructors with a list of parameters. *)
Lemma p_list_param n (N : string) ws ts ty rest :
  plain_name (lit N) = true -> Forall2 (reads_as (p_type n)) ws ts -> (length ws < n)%nat ->
  (forall s, parse_parameterized (p_type n) n (lit N) s = (ps ← parse_type_params (p_type n) n; ty ps) s) ->
  forall t, eats (ty ts) rest t rest ->
  eats (p_type (S n)) (lit N ++ "("%char :: join (lit ",") ws ++ ")"%char :: rest) t rest.
Proof.
  intros Hw H Hn Hb t Ht. apply p_param; [done|]. unfold eats. rewrite Hb. eapply eats_bind; [by apply eats_params|exact Ht].
Qed.

Section print.
Context (n : nat).
Hypothesis IH : forall t, (length (java_marshal_name t) < n)%nat -> marshal_ok t = true ->
  reads_as (p_type n) (java_marshal_name t) (thaw t).

Lemma names_read types :
  forallb marshal_ok types = true -> (length (join (lit ",") (map java_marshal_name types)) < n)%nat ->
  Forall2 (reads_as (p_type n)) (map java_marshal_name types) (map thaw types)
  /\ (length (map java_marshal_name types) < n)%nat.
Proof.
  intros Hok Hlen. split.
  - apply Forall2_fmap, Forall_Forall2_diag, Forall_forall. intros t Ht. apply IH.
    + pose proof (length_join_elem (lit ",") (map java_marshal_name types) (java_marshal_name t)) as H.
      rewrite list_elem_of_fmap in H. specialize (H (ex_intro _ t (conj eq_refl Ht))). lia.
    + rewrite forallb_forall in Hok. apply Hok. by apply list_elem_of_In.
  - assert (Forall (fun w => w <> []) (map java_marshal_name types)) as H%join_length_count; [|by eapply Nat.le_lt_trans].
    apply Forall_fmap, Forall_true. intros t. destruct (name_starts t) as (c & w & E & _). cbn. by rewrite E.
Qed.

Lemma aliases_read aliases :
  keys_sorted aliases = true -> forallb (fun '(alias, ty) => alias_ok alias && marshal_ok ty) aliases = true ->
  (length (join (lit ",") (map alias_text (map (fun '(a, ty) => (a, java_marshal_name ty)) aliases))) < n)%nat ->
  Forall2 (fun it t => alias_ok it.1 = true /\ reads_as (p_type n) it.2 t)
    (map (fun '(a, ty) => (a, java_marshal_name ty)) aliases) (map (fun '(a, ty) => thaw ty) aliases)
  /\ zip (map (fun '(a, ty) => (a, java_marshal_name ty)) aliases).*1 (map (fun '(a, ty) => thaw ty) aliases)
     = map (fun '(a, ty) => (a, thaw ty)) aliases
  /\ keys_sorted (map (fun '(a, ty) => (a, thaw ty)) aliases) = true
  /\ (length (map (fun '(a, ty) => (a, java_marshal_name ty)) aliases) < n)%nat.
Proof.
  intros Hk Hok Hlen. split_and!.
  - apply Forall2_fmap, Forall_Forall2_diag, Forall_forall. intros [a t] Ht.
    rewrite forallb_forall in Hok. specialize (Hok (a, t) (proj1 (list_elem_of_In _ _) Ht)). cbn in Hok.
    apply andb_true_iff in Hok as [Ha Hm]. split; [done|]. apply IH; [|done].
    pose proof (length_join_elem (lit ",") (map alias_text (map (fun '(a, ty) => (a, java_marshal_name ty)) aliases))
      (alias_text (a, java_marshal_name t))) as H.
    rewrite list_elem_of_fmap in H. specialize (H (ex_intro _ (a, java_marshal_name t) (conj eq_refl (proj2 (list_elem_of_fmap _ _ _) (ex_intro _ (a, t) (conj eq_refl Ht)))))).
    unfold alias_text in H at 1. rewrite !length_app in H. cbn [snd] in H. lia.
  - clear. induction aliases as [|[a t] aliases IHa]; [done|]. cbn. by f_equal.
  - clear -Hk. induction aliases as [|[a t] aliases IHa]; [done|]. cbn [map]. apply keys_sorted_cons in Hk as [Hab Hk].
    apply keys_sorted_cons. split; [|by apply IHa]. intros q ([b u] & -> & Hb)%list_elem_of_fmap. by apply (Hab (b, u)).
  - assert (Forall (fun w => w <> []) (map alias_text (map (fun '(a, ty) => (a, java_marshal_name ty)) aliases))) as H%join_length_count.
    { apply Forall_fmap, Forall_true. intros [a w]. unfold compose, alias_text. cbn [fst snd]. by destruct (latin1 a). }
    eapply Nat.le_lt_trans; [|exact Hlen]. etransitivity; [|exact H]. by rewrite !length_map.
Qed.

Lemma fields_read names types keyspace name :
  forallb hexable names = true -> forallb marshal_ok types = true -> length names = length types ->
  (length (join (lit ",") (lit keyspace :: hex_name name :: map field_text (zip names (map java_marshal_name types)))) < n)%nat ->
  Forall2 (fun it t => hexable it.1 = true /\ reads_as (p_type n) it.2 t) (zip names (map java_marshal_name types)) (map thaw types)
  /\ (length (zip names (map java_marshal_name types)) < n)%nat.
Proof.
  intros Hn Ht Hlen Hj. rewrite join_tail in Hj. cbn [map] in Hj. rewrite mjoin_cons, !length_app in Hj.
  assert (Hj' : (length (mjoin (map (fun v => lit "," ++ v) (map field_text (zip names (map java_marshal_name types))))) < n)%nat) by lia.
  clear Hj. revert types Ht Hlen Hj'. induction names as [|f names IHn]; intros [|t types] Ht Hlen Hj; try done.
  cbn [forallb] in Hn, Ht. apply andb_true_iff in Hn as [Hf Hn], Ht as [Ht Hts].
  cbn [map zip zip_with] in Hj. rewrite mjoin_cons, length_app in Hj. unfold field_text in Hj at 1. rewrite !length_app in Hj. cbn [snd fst] in Hj.
  destruct (IHn Hn types Hts ltac:(cbn in Hlen; lia)) as [H1 H2]; [unfold zip in *; lia|].
  split; [constructor; [|exact H1]|].
  - split; [done|]. apply IH; [lia|done].
  - cbn [zip zip_with map length]. assert (Hc : forall l : list (string * str),
      (length l <= length (mjoin (map (fun v => lit "," ++ v) (map field_text l))))%nat).
    { clear. induction l as [|it l IHl]; [done|]. cbn [map]. rewrite mjoin_cons, !length_app. cbn in *. lia. }
    specialize (Hc (zip names (map java_marshal_name types))). unfold zip in *. rewrite !length_lit in Hj. cbn [String.length] in Hj. lia.
Qed.

Lemma p_single (N : string) (f : CqlType -> CqlType) t rest :
  plain_name (lit N) = true -> (length (java_marshal_name t) < n)%nat -> (1 < n)%nat -> marshal_ok t = true ->
  (forall s, parse_parameterized (p_type n) n (lit N) s = (ps ← parse_type_params (p_type n) n; single f ps) s) ->
  eats (p_type (S n)) (lit N ++ "("%char :: java_marshal_name t ++ ")"%char :: rest) (f (thaw t)) rest.
Proof.
  intros Hw Hlen Hn Hok Hb. apply (p_list_param n N [java_marshal_name t] [thaw t] (single f)); [done| |done|done|done].
  constructor; [by apply IH|constructor].
Qed.

Lemma p_types (N : string) (f : list CqlType -> CqlType) types rest :
  plain_name (lit N) = true -> (length (join (lit ",") (map java_marshal_name types)) < n)%nat ->
  forallb marshal_ok types = true ->
  (forall s, parse_parameterized (p_type n) n (lit N) s = (ps ← parse_type_params (p_type n) n; mret (f ps)) s) ->
  eats (p_type (S n)) (lit N ++ "("%char :: join (lit ",") (map java_marshal_name types) ++ ")"%char :: rest) (f (map thaw types)) rest.
Proof.
  intros Hw Hlen Hok Hb. destruct (names_read types Hok Hlen) as [H1 H2].
  by apply (p_list_param n N (map java_marshal_name types) (map thaw types) (fun ps => mret (f ps))).
Qed.

Lemma print_parse t :
  (length (java_marshal_name t) < S n)%nat -> marshal_ok t = true -> reads_as (p_type (S n)) (java_marshal_name t) (thaw t).
Proof.
  intros Hlen Hok. split; [apply name_starts|]. intros rest Hr.
  destruct t; try (by apply p_simple).
  all: cbn [java_marshal_name thaw marshal_ok] in *; rewrite ?length_app, ?length_lit in Hlen; cbn [String.length] in Hlen;
    rewrite <- ?app_assoc.
  - apply (p_single "ListType" (fun t => ListT t false)); (done || lia || by intros s; pick).
  - apply (p_single "SetType" (fun t => SetT t false)); (done || lia || by intros s; pick).
  - apply andb_true_iff in Hok as [H1 H2].
    assert (Forall2 (reads_as (p_type n)) [java_marshal_name t1; java_marshal_name t2] [thaw t1; thaw t2]) as H.
    { constructor; [apply IH; [lia|done]|]. constructor; [apply IH; [lia|done]|constructor]. }
    pose proof (p_list_param n "MapType" _ _
      (fun ps => match ps with [key; value] => mret (MapT key value false) | _ => perr Malformed end) rest eq_refl H) as Hmap.
    cbn [join] in Hmap. rewrite <- !app_assoc in Hmap. apply Hmap; [cbn; lia|intros s; by pick|done].
  - apply (p_types "TupleType" TupleT); (done || lia || by intros s; pick).
  - apply (p_types "CompositeType" CompositeT); (done || lia || by intros s; pick).
  - apply andb_true_iff in Hok as [Hk Hok].
    assert (E : map (fun '(alias, ty) => latin1 alias ++ lit "=>" ++ java_marshal_name ty) aliases
      = map alias_text (map (fun '(a, ty) => (a, java_marshal_name ty)) aliases)).
    { clear. induction aliases as [|[a t] aliases IHa]; [done|]. cbn [map]. by f_equal. }
    rewrite E in *. destruct (aliases_read aliases Hk Hok ltac:(lia)) as (H1 & H2 & H3 & H4).
    apply (p_param n "DynamicCompositeType"); [done|]. pick.
    eapply eats_bind; [apply eats_char|]. eapply eats_bind; [apply (eats_alias_list (p_type n) n _ _ [] rest H1); [by rewrite H2|done]|].
    rewrite H2. apply eats_ret.
  - rewrite !andb_true_iff in Hok. destruct Hok as [[[[[Hks%negb_true_iff%bool_decide_eq_false Hraw] Hnm] Hfn] Hl%Nat.eqb_eq] Hts].
    assert (E : zip_with (fun field_name ty => hex_name field_name ++ lit ":" ++ ty) field_names (map java_marshal_name field_types)
      = map field_text (zip field_names (map java_marshal_name field_types))).
    { clear. revert field_types. induction field_names as [|f fs IHf]; intros [|t ts]; try done. cbn. by f_equal. }
    rewrite E in *. destruct (fields_read field_names field_types keyspace name Hfn Hts Hl ltac:(lia)) as [H1 H2].
    apply (p_param n "UserType"); [done|]. pick.
    pose proof (eats_user (p_type n) n keyspace name _ _ rest Hks Hraw Hnm H1 H2) as H.
    rewrite fst_zip in H by (rewrite length_map; lia). exact H.
  - apply (p_single "ReversedType" ReversedT); (done || lia || by intros s; pick).
  - rewrite !andb_true_iff in Hok. destruct Hok as [[Hok Hd%negb_true_iff%Nat.eqb_neq] Hmax%Z.leb_le].
    apply (p_param n "VectorType"); [done|]. pick. apply eats_vector; [apply IH; [lia|done]|done|done].
Qed.
End print.

Lemma print_parse_all n t :
  (length (java_marshal_name t) < n)%nat -> marshal_ok t = true -> reads_as (p_type n) (java_marshal_name t) (thaw t).
Proof.
  revert t. induction n as [|n IH]; intros t Hlen Hok; [lia|]. by apply print_parse.
Qed.

Lemma name_tight t : tight (java_marshal_name t).
Proof.
  destruct t; try (by apply tightb_spec); cbn [java_marshal_name];
    repeat match goal with |- tight (lit ?u ++ ?x ++ ?y ++ ?z) => rewrite (app_assoc x) end;
    (apply tight_between; by apply tightb_spec).
Qed.

(** The name of a type is read back as that type, frozen nowhere. *)
Lemma marshal_name_roundtrip t : marshal_ok t = true -> parse_type (java_marshal_name t) = inr (thaw t).
Proof.
  intros Hok. unfold parse_type. rewrite trim_tight by apply name_tight.
  destruct (print_parse_all (S (length (java_marshal_name t))) t ltac:(lia) Hok) as [Hs H]. specialize (H [] I).
  rewrite app_nil_r in H. unfold eats in H. destruct Hs as (c & w & E & _).
  rewrite H. rewrite E. done.
Qed.

(** * Dynamic composites are read back *)

(** What can be written: a comparator with an alias or a readable name that fits, and
    a value that fits.  A Rust string is UTF-8. *)
Definition component_ok (aliases : list (Z * CqlType)) (c : DynamicComponent) : Prop :=
  let name := java_marshal_name (dyn_comparator c) in
  Z.of_nat (length (dyn_value c)) <= 32767
  /\ (find_alias (dyn_comparator c) aliases = None ->
      marshal_ok (dyn_comparator c) = true /\ Z.of_nat (length name) <= 32767 /\ utf8 (text_bytes name) = true).

(** What is read: comparators without an alias are frozen nowhere, and only the last
    component keeps its end-of-component byte. *)
Definition read_comparator (aliases : list (Z * CqlType)) (ty : CqlType) : CqlType :=
  match find_alias ty aliases with Some _ => ty | None => thaw ty end.
Fixpoint read_form (aliases : list (Z * CqlType)) (components : list DynamicComponent) : list DynamicComponent :=
  match components with
  | [] => []
  | c :: components =>
      mkDynamicComponent (read_comparator aliases (dyn_comparator c)) (dyn_value c)
        (match components with [] => dyn_eoc c | _ => 0 end)
        :: read_form aliases components
  end.

Lemma find_alias_lookup ty aliases a :
  keys_sorted aliases = true -> find_alias ty aliases = Some a -> lookup_list a aliases = Some ty.
Proof.
  intros Hk Hf. apply lookup_list_elem; [done|]. clear Hk. induction aliases as [|[b t] aliases IH]; [done|].
  cbn in Hf. case_decide; simplify_eq; [left|right; auto].
Qed.

Lemma chars_of_text s : char_of <$> text_bytes s = s.
Proof.
  unfold text_bytes. rewrite <- list_fmap_compose. rewrite (list_fmap_ext _ id s) by (intros i c _; apply char_byte).
  apply list_fmap_id.
Qed.

Lemma alias_header a : is_u8 a -> read_u (write_be 2 (Z.lor 32768 a)) = Z.lor 32768 a
  /\ negb (Z.land (Z.lor 32768 a) 32768 =? 0) = true /\ Z.land (Z.lor 32768 a) 255 = a.
Proof.
  intros Ha. assert (H : forallb (fun a => (read_u (write_be 2 (Z.lor 32768 a)) =? Z.lor 32768 a)
    && negb (Z.land (Z.lor 32768 a) 32768 =? 0) && (Z.land (Z.lor 32768 a) 255 =? a)) (seqZ 0 256) = true) by (vm_compute; reflexivity).
  rewrite List.forallb_forall in H. specialize (H a). rewrite !andb_true_iff, !Z.eqb_eq in H.
  destruct H as [[? ?] ?]; [|done]. apply list_elem_of_In, elem_of_seqZ. unfold in_u in Ha. lia.
Qed.

Lemma land_32768_small z : 0 <= z <= 32767 -> Z.land z 32768 = 0.
Proof.
  intros Hz. change 32768 with (2 ^ 15). apply Z.bits_inj'. intros n Hn. rewrite Z.land_spec, Z.pow2_bits_eqb, Z.bits_0 by lia.
  destruct (Z.eqb_spec 15 n) as [<-|]; [|apply andb_false_r]. rewrite <- (Z.mod_small z (2 ^ 15)) by lia.
  by rewrite Z.mod_pow2_bits_high by lia.
Qed.

Lemma header_roundtrip aliases c rest :
  keys_sorted aliases = true -> Forall (fun p => is_u8 p.1) aliases -> component_ok aliases c ->
  exists header, serialize_header c aliases = inr header /\ (2 <= length header)%nat
    /\ deserialize_header (header ++ rest) aliases = inr (read_comparator aliases (dyn_comparator c), rest).
Proof.
  intros Hk Ha [_ Hname]. unfold serialize_header, read_comparator, deserialize_header.
  destruct (find_alias (dyn_comparator c) aliases) as [a|] eqn:Ef.
  - assert (is_u8 a) as Hu.
    { pose proof (find_alias_lookup _ _ _ Hk Ef) as H%lookup_list_elem; [|done]. rewrite Forall_forall in Ha. by apply (Ha _ H). }
    destruct (alias_header a Hu) as (H1 & H2 & H3). eexists. split; [done|]. rewrite length_write_be. split; [lia|].
    rewrite length_app, length_write_be, (take_field 2), (drop_field_0 2), H1, H2, H3 by apply length_write_be.
    by rewrite (find_alias_lookup _ _ _ Hk Ef).
  - destruct (Hname eq_refl) as (Hok & Hlen & Hu). set (name := java_marshal_name (dyn_comparator c)) in *.
    assert (length (text_bytes name) = length name) as El by apply length_fmap. rewrite El.
    rewrite (proj2 (Z.ltb_ge _ _)) by done. eexists. split; [done|]. rewrite length_app, length_write_be, El. split; [lia|].
    rewrite <- app_assoc, !length_app, length_write_be, (take_field 2), (drop_field_0 2) by apply length_write_be.
    rewrite read_u_write by (unfold in_u; cbn; lia). rewrite land_32768_small by lia. cbn [Z.eqb negb].
    rewrite Nat2Z.id, ?length_app, El, !(proj2 (Nat.ltb_ge _ _)) by lia. rewrite (take_field (length name)), (drop_field_0 (length name)) by done.
    unfold from_utf8. rewrite Hu, chars_of_text. subst name. by rewrite marshal_name_roundtrip.
Qed.

Lemma read_dynamic_roundtrip aliases components fuel :
  keys_sorted aliases = true -> Forall (fun p => is_u8 p.1) aliases -> Forall (component_ok aliases) components ->
  exists data, serialize_dynamic_composite components aliases = inr data /\ (length components <= length data)%nat
    /\ ((length components <= fuel)%nat -> read_dynamic fuel data aliases = inr (read_form aliases components)).
Proof.
  intros Hk Ha Hc. revert fuel. induction Hc as [|c components Hc Hcs IH]; intros fuel.
  { exists []. split_and!; [done|done|]. intros _. by destruct fuel. }
  destruct (IH (fuel - 1)%nat) as (out & Eout & Hout & Hread). cbn [serialize_dynamic_composite read_form].
  set (eoc := match components with [] => dyn_eoc c | _ => 0 end).
  destruct (header_roundtrip aliases c (write_be 2 (Z.of_nat (length (dyn_value c))) ++ dyn_value c ++ [eoc] ++ out) Hk Ha Hc)
    as (header & -> & Hlen & Hd). destruct Hc as [Hv _].
  rewrite (proj2 (Z.ltb_ge _ _)), Eout by done. eexists. split; [done|]. split; [rewrite !length_app; cbn; lia|].
  intros Hf. destruct fuel as [|fuel]; [cbn in Hf; lia|]. rewrite Nat.sub_succ, Nat.sub_0_r in Hread. cbn [read_dynamic].
  destruct (header ++ _) as [|x l] eqn:E; [by destruct header|]. rewrite Hd. clear E x l Hd.
  set (rest := [eoc] ++ out). rewrite length_app, length_write_be, (proj2 (Nat.ltb_ge _ _)) by lia.
  rewrite (take_field 2), (drop_field_0 2) by apply length_write_be. rewrite read_u_write by (unfold in_u; cbn; lia).
  rewrite Nat2Z.id, length_app, (proj2 (Nat.ltb_ge _ _)) by (subst rest; cbn; lia).
  rewrite (drop_field (length (dyn_value c)) 1), (take_field (length (dyn_value c))), app_nth2, Nat.sub_diag by (done || lia).
  subst rest. cbn [app drop nth]. rewrite drop_0, Hread by (cbn in Hf; lia). done.
Qed.

(** A dynamic composite is read back from its bytes, the names of its comparators
    included: with a table of aliases, components whose values fit and whose
    comparators have an alias or a name that can be read and fits, writing succeeds and
    reading gives the components, with two losses that the format has: a
    comparator written by name comes back frozen nowhere, and only the last
    end-of-component byte is kept. *)
Theorem dynamic_composite_roundtrip aliases components :
  keys_sorted aliases = true -> Forall (fun p => is_u8 p.1) aliases -> Forall (component_ok aliases) components ->
  exists data, serialize_dynamic_composite components aliases = inr data
    /\ deserialize_dynamic_composite data aliases = inr (read_form aliases components).
Proof.
  intros Hk Ha Hc. destruct (read_dynamic_roundtrip aliases components 0 Hk Ha Hc) as (data & E & Hlen & _).
  exists data. split; [done|]. unfold deserialize_dynamic_composite.
  destruct (read_dynamic_roundtrip aliases components (length data) Hk Ha Hc) as (data' & E' & _ & H).
  rewrite E in E'. injection E' as <-. by apply H.
Qed.

(** An aliased blob, and a list of user types by name. *)
Lemma dynamic_composite_roundtrip_witness :
  let ty := ListT (UdtT "ks" "address" ["street"; "zip"] [VarcharT; MapT IntT (VectorT FloatT 3) true] true) false in
  exists data, serialize_dynamic_composite [mkDynamicComponent BlobT [1; 2] 0; mkDynamicComponent ty [7] 1] [(98, BlobT)] = inr data
    /\ deserialize_dynamic_composite data [(98, BlobT)]
       = inr [mkDynamicComponent BlobT [1; 2] 0; mkDynamicComponent (thaw ty) [7] 1].
Proof.
  intros ty. apply (dynamic_composite_roundtrip [(98, BlobT)] [mkDynamicComponent BlobT [1; 2] 0; mkDynamicComponent ty [7] 1]).
  - reflexivity.
  - constructor; [vm_compute; split; [discriminate|reflexivity]|constructor].
  - constructor; [|constructor; [|constructor]].
    + split; [vm_compute; discriminate|intros E; discriminate E].
    + split; [vm_compute; discriminate|]. intros _. split; [vm_compute; reflexivity|].
      split; [vm_compute; discriminate|vm_compute; reflexivity].
Defined.
