(* ===== verification/Vint.v ===== *)
(** Variable-length integers.  The program has three codecs for one format:
    crates/cassandra-types/src/vint.rs and crates/cassandra-io/src/util/varint.rs,
    which are modelled here, and the one of java_wire.rs, in [JavaWire].

    The file states the format as a reference, [vint_spec], and shows that the
    writers produce it for every unsigned 64-bit value and that the readers take
    it back, whatever follows it. *)
From S2P Require Export Prelude.

(** [u8::leading_ones] and [u64::leading_zeros]. *)
Fixpoint leading_ones_below (n : nat) (b : Z) : nat :=
  match n with
  | O => 0
  | S m => if Z.testbit b (Z.of_nat m) then S (leading_ones_below m b) else 0
  end.
Definition leading_ones (b : Z) : nat := leading_ones_below 8 b.
Definition leading_zeros (v : Z) : Z := if v =? 0 then 64 else 63 - Z.log2 v.

(** [!b] on u8. *)
Definition not_u8 (b : Z) : Z := Z.lxor 255 b.

(** [acc << 8 | byte] on u64, over a sequence of bytes. *)
Definition push_byte (acc b : Z) : Z := Z.lor (wrap_u 64 (Z.shiftl acc 8)) b.

(** * crates/cassandra-types/src/vint.rs *)

Definition zigzag_encode (v : Z) : Z :=
  wrap_u 64 (Z.lxor (wrap_s 64 (Z.shiftl v 1)) (Z.shiftr v 63)).
Definition zigzag_decode (v : Z) : Z := Z.lxor (wrap_s 64 (Z.shiftr v 1)) (- Z.land v 1).

Definition compute_uvint_size (v : Z) : nat :=
  if v <? 2 ^ 7 then 1
  else if v <? 2 ^ 14 then 2
  else if v <? 2 ^ 21 then 3
  else if v <? 2 ^ 28 then 4
  else if v <? 2 ^ 35 then 5
  else if v <? 2 ^ 42 then 6
  else if v <? 2 ^ 49 then 7
  else if v <? 2 ^ 56 then 8
  else 9.

(** The loops that store the bytes of [v] from the lowest at the end. *)
Definition value_bytes (n : nat) (v : Z) : list Z :=
  (fun i => wrap_u 8 (Z.shiftr v (8 * Z.of_nat (n - 1 - i)))) <$> seq 0 n.

Definition encode_uvint (v : Z) : list Z :=
  let size := compute_uvint_size v in
  if (size =? 1)%nat then [wrap_u 8 v]
  else if (size =? 9)%nat then 255 :: value_bytes 8 v
  else
    let extra := (size - 1)%nat in
    let marker := wrap_u 8 (Z.shiftl 255 (8 - Z.of_nat extra)) in
    let high_bits := wrap_u 8 (Z.shiftr v (8 * Z.of_nat extra)) in
    Z.lor marker high_bits :: value_bytes extra v.

(** [None] is [VintError::UnexpectedEof]. *)
Definition decode_uvint (data : list Z) : option (Z * nat) :=
  match data with
  | [] => None
  | first :: rest =>
      let extra := leading_ones first in
      let size := S extra in
      if (extra =? 8)%nat then
        if (length data <? 9)%nat then None
        else Some (foldl push_byte 0 (take 8 rest), 9%nat)
      else if (length data <? size)%nat then None
      else
        let mask := wrap_u 8 (wrap_u 8 (Z.shiftl 1 (8 - Z.of_nat size)) - 1) in
        Some (foldl push_byte (Z.land first mask) (take extra rest), size)
  end.

Definition encode_vint (v : Z) : list Z := encode_uvint (zigzag_encode v).
Definition decode_vint (data : list Z) : option (Z * nat) :=
  '(u, len) ← decode_uvint data; Some (zigzag_decode u, len).

(** * crates/cassandra-io/src/util/varint.rs *)

Definition unsigned_vint_size (value : Z) : nat :=
  let magnitude := 64 - leading_zeros value in
  if magnitude <=? 7 then 1
  else if magnitude <=? 14 then 2
  else if magnitude <=? 21 then 3
  else if magnitude <=? 28 then 4
  else if magnitude <=? 35 then 5
  else if magnitude <=? 42 then 6
  else if magnitude <=? 49 then 7
  else if magnitude <=? 56 then 8
  else 9.

(** [u8::leading_zeros]. *)
Fixpoint leading_zeros_below (n : nat) (b : Z) : nat :=
  match n with
  | O => 0
  | S m => if Z.testbit b (Z.of_nat m) then 0 else S (leading_zeros_below m b)
  end.
Definition extra_bytes_for_first (first_byte : Z) : nat := leading_zeros_below 8 (not_u8 first_byte).

(** The bytes that [encode_unsigned_vint] stores. *)
Definition unsigned_vint_bytes (value : Z) : list Z :=
  let size := unsigned_vint_size value in
  if (size =? 1)%nat then [wrap_u 8 value]
  else if (size =? 9)%nat then 255 :: write_be 8 value
  else
    let extra := (size - 1)%nat in
    let data_bits_in_first := 8 - Z.of_nat extra - 1 in
    let prefix := not_u8 (wrap_u 8 (Z.shiftl 1 (8 - Z.of_nat extra)) - 1) in
    let first_data := Z.land (wrap_u 8 (Z.shiftr value (8 * Z.of_nat extra))) (Z.shiftl 1 data_bits_in_first - 1) in
    Z.lor prefix first_data :: value_bytes extra value.

(** Stores into a buffer.  A buffer of no bytes panics, and so does a short one
    for nine bytes; other short buffers get the bytes that fit. *)
Definition encode_unsigned_vint (value : Z) (buf : list Z) : option (list Z * nat) :=
  let size := unsigned_vint_size value in
  let bytes := unsigned_vint_bytes value in
  if (length buf =? 0)%nat || ((size =? 9)%nat && (length buf <? 9)%nat) then None
  else Some (take (length buf) bytes ++ drop size buf, size).

(** [None] is the panic of an index out of range. *)
Definition decode_unsigned_vint (buf : list Z) : option (Z * nat) :=
  match buf with
  | [] => None
  | first :: rest =>
      let extra := extra_bytes_for_first first in
      if (extra =? 0)%nat then Some (first, 1%nat)
      else if (8 <=? extra)%nat then
        if (length rest <? 8)%nat then None else Some (read_u (take 8 rest), 9%nat)
      else
        let size := S extra in
        let data_bits_in_first := 8 - Z.of_nat extra - 1 in
        let mask := Z.shiftl 1 data_bits_in_first - 1 in
        Some (foldl push_byte (Z.land first mask) (take extra rest), size)
  end.

(** [Read::read_exact] on the bytes left in a stream; [None] is the error. *)
Definition read_exact (n : nat) (input : list Z) : option (list Z * list Z) :=
  if (n <=? length input)%nat then Some (take n input, drop n input) else None.

Definition read_unsigned_vint (reader : list Z) : option (Z * list Z) :=
  '(first, reader) ← read_exact 1 reader;
  let first := default 0 (head first) in
  let extra := extra_bytes_for_first first in
  if (extra =? 0)%nat then Some (first, reader)
  else if (8 <=? extra)%nat then
    '(be, reader) ← read_exact 8 reader; Some (read_u be, reader)
  else
    let data_bits_in_first := 8 - Z.of_nat extra - 1 in
    let mask := Z.shiftl 1 data_bits_in_first - 1 in
    '(rest, reader) ← read_exact extra reader;
    Some (foldl push_byte (Z.land first mask) rest, reader).

Definition write_unsigned_vint (writer : list Z) (value : Z) : option (list Z * nat) :=
  '(buf, n) ← encode_unsigned_vint value (replicate 9 0); Some (writer ++ take n buf, n).
Definition read_vint (reader : list Z) : option (Z * list Z) :=
  '(raw, reader) ← read_unsigned_vint reader; Some (zigzag_decode raw, reader).
Definition write_vint (writer : list Z) (value : Z) : option (list Z * nat) :=
  write_unsigned_vint writer (zigzag_encode value).

(** * One format

    The reference: a size from the number of bits, the first byte as prefix plus
    the value's high bits, and the low bytes in big-endian order. *)

Definition vint_size (v : Z) : nat :=
  let bits := Z.to_nat (Z.log2 (Z.max v 1)) in
  Nat.min 9 (bits / 7 + 1).

(** The prefix of [extra] one-bits. *)
Definition vint_prefix (extra : nat) : Z := 256 - 2 ^ (8 - Z.of_nat extra).

Definition vint_spec (v : Z) : list Z :=
  let extra := (vint_size v - 1)%nat in
  if (vint_size v =? 9)%nat then 255 :: be_bytes 8 v
  else vint_prefix extra + v / 256 ^ Z.of_nat extra :: be_bytes extra v.

(** ** Sizes *)

(** Case analysis on a logarithm below 64. *)
Ltac log_cases L :=
  let n := fresh "n" in
  destruct (Z_of_nat_complete L ltac:(lia)) as [n ->];
  assert (n < 64)%nat by lia;
  do 64 (destruct n as [|n]; [reflexivity|]); lia.

Lemma log2_range v : is_u64 v -> 0 <= Z.log2 (Z.max v 1) < 64.
Proof.
  intros [? ?]. split; [apply Z.log2_nonneg|]. apply Z.log2_lt_pow2; lia.
Qed.

Lemma lt_pow2_log v k : 0 <= v -> 0 < k -> (v <? 2 ^ k) = (Z.log2 (Z.max v 1) <? k).
Proof.
  intros Hv Hk. destruct (decide (v = 0)) as [->|Hne].
  - simpl. rewrite (proj2 (Z.ltb_lt 0 k)) by lia. apply Z.ltb_lt. apply Z.pow_pos_nonneg; lia.
  - rewrite Z.max_l by lia. destruct (Z.ltb_spec (Z.log2 v) k) as [H|H].
    + apply Z.ltb_lt. by apply Z.log2_lt_pow2; [lia|].
    + apply Z.ltb_ge. apply Z.log2_le_pow2; lia.
Qed.

Lemma compute_uvint_size_spec v : is_u64 v -> compute_uvint_size v = vint_size v.
Proof.
  intros Hv. pose proof (log2_range v Hv) as HL. unfold compute_uvint_size, vint_size.
  rewrite !lt_pow2_log by (unfold in_u in Hv; lia).
  set (L := Z.log2 (Z.max v 1)) in *. clearbody L. log_cases L.
Qed.

Lemma unsigned_vint_size_spec v : is_u64 v -> unsigned_vint_size v = vint_size v.
Proof.
  intros Hv. pose proof (log2_range v Hv) as HL. unfold unsigned_vint_size, vint_size, leading_zeros.
  destruct (Z.eqb_spec v 0) as [->|Hne]; [reflexivity|].
  rewrite Z.max_l in * by (unfold in_u in Hv; lia).
  replace (64 - (63 - Z.log2 v)) with (Z.log2 v + 1) by lia.
  set (L := Z.log2 v) in *. clearbody L. log_cases L.
Qed.

Lemma log2_lor_1 v : 0 <= v -> Z.log2 (Z.lor v 1) = Z.log2 (Z.max v 1).
Proof.
  intros Hv. rewrite Z.log2_lor by lia. destruct (decide (v = 0)) as [->|]; [done|].
  rewrite (Z.max_l v 1) by lia. apply Z.max_l. apply Z.log2_nonneg.
Qed.

(** ** Bytes *)

Lemma value_bytes_be n v : value_bytes n v = be_bytes n v.
Proof.
  unfold value_bytes. induction n as [|n IH]; [done|]. cbn [seq be_bytes]. rewrite fmap_cons. f_equal.
  - unfold wrap_u. rewrite Nat.sub_0_r. replace (S n - 1)%nat with n by lia.
    rewrite Z.shiftr_div_pow2, <- pow256_pow2 by lia. done.
  - rewrite <- IH, <- fmap_S_seq, <- list_fmap_compose. apply list_fmap_ext. intros i x _.
    unfold compose. replace (S n - 1 - S x)%nat with (n - 1 - x)%nat by lia. done.
Qed.

Lemma vint_size_range v : (1 <= vint_size v <= 9)%nat.
Proof. unfold vint_size. pose proof (Nat.le_0_l (Z.to_nat (Z.log2 (Z.max v 1)) / 7)). lia. Qed.

Lemma vint_size_bound v : is_u64 v -> (vint_size v < 9)%nat -> v < 2 ^ (7 * Z.of_nat (vint_size v)).
Proof.
  intros Hv Hs. pose proof (log2_range v Hv) as HL. apply Z.ltb_lt.
  rewrite lt_pow2_log by (pose proof (vint_size_range v); unfold in_u in Hv; lia). apply Z.ltb_lt.
  unfold vint_size in *. set (L := Z.log2 _) in *.
  pose proof (Nat.div_mod (Z.to_nat L) 7 ltac:(lia)). pose proof (Nat.mod_upper_bound (Z.to_nat L) 7 ltac:(lia)). lia.
Qed.

(** The high bits fit beside the prefix. *)
Lemma vint_high v : is_u64 v -> (vint_size v < 9)%nat ->
  let extra := Z.of_nat (vint_size v - 1) in 0 <= v / 256 ^ extra < 2 ^ (7 - extra).
Proof.
  intros Hv Hs extra. pose proof (vint_size_bound v Hv Hs) as Hb. pose proof (vint_size_range v).
  split; [apply Z.div_pos; unfold in_u in Hv; lia|]. apply Z.div_lt_upper_bound; [lia|].
  unfold extra. rewrite pow256_pow2, <- Z.pow_add_r by lia.
  replace (8 * Z.of_nat (vint_size v - 1) + (7 - Z.of_nat (vint_size v - 1)))
    with (7 * Z.of_nat (vint_size v)) by lia. done.
Qed.

Ltac extra_cases e := do 8 (destruct e as [|e]; [reflexivity|]); lia.

Lemma prefix_marker e : (e < 8)%nat -> wrap_u 8 (Z.shiftl 255 (8 - Z.of_nat e)) = vint_prefix e.
Proof. intros He. extra_cases e. Qed.
Lemma prefix_not e : (0 < e < 8)%nat -> not_u8 (wrap_u 8 (Z.shiftl 1 (8 - Z.of_nat e)) - 1) = vint_prefix e.
Proof. intros He. destruct e as [|e]; [lia|]. extra_cases e. Qed.

Lemma prefix_mul e : (e < 8)%nat -> vint_prefix e = (2 ^ Z.of_nat e - 1) * 2 ^ (8 - Z.of_nat e).
Proof. intros He. extra_cases e. Qed.

Lemma lor_prefix e h : (e < 8)%nat -> 0 <= h < 2 ^ (7 - Z.of_nat e) -> Z.lor (vint_prefix e) h = vint_prefix e + h.
Proof.
  intros He Hh. rewrite prefix_mul by done. apply lor_add; [lia|].
  pose proof (Z.pow_lt_mono_r 2 (7 - Z.of_nat e) (8 - Z.of_nat e)). lia.
Qed.

Lemma shiftr_high v e : Z.shiftr v (8 * Z.of_nat e) = v / 256 ^ Z.of_nat e.
Proof. rewrite Z.shiftr_div_pow2, <- pow256_pow2 by lia. done. Qed.

Lemma high_byte e h : (e < 8)%nat -> 0 <= h < 2 ^ (7 - Z.of_nat e) -> wrap_u 8 h = h.
Proof.
  intros He Hh. apply wrap_u_id. pose proof (Z.pow_le_mono_r 2 (7 - Z.of_nat e) 8). unfold in_u. lia.
Qed.

Lemma vint_spec_one v : is_u64 v -> vint_size v = 1%nat -> vint_spec v = [wrap_u 8 v].
Proof.
  intros Hv E. pose proof (vint_size_bound v Hv ltac:(lia)) as Hb. unfold vint_spec. rewrite E in *. simpl.
  rewrite Z.div_1_r, wrap_u_id; [done|]. unfold in_u in *. lia.
Qed.

Lemma encode_uvint_spec v : is_u64 v -> encode_uvint v = vint_spec v.
Proof.
  intros Hv. unfold encode_uvint. rewrite compute_uvint_size_spec by done.
  destruct (Nat.eqb_spec (vint_size v) 1) as [E1|H1]; [by rewrite vint_spec_one|].
  unfold vint_spec. destruct (Nat.eqb_spec (vint_size v) 9) as [E9|H9]; [by rewrite value_bytes_be|].
  pose proof (vint_size_range v). pose proof (vint_high v Hv ltac:(lia)) as Hh. simpl in Hh.
  rewrite value_bytes_be, prefix_marker, shiftr_high by lia.
  rewrite (high_byte (vint_size v - 1)), lor_prefix by lia. done.
Qed.

Lemma unsigned_vint_bytes_spec v : is_u64 v -> unsigned_vint_bytes v = vint_spec v.
Proof.
  intros Hv. unfold unsigned_vint_bytes. rewrite unsigned_vint_size_spec by done.
  destruct (Nat.eqb_spec (vint_size v) 1) as [E1|H1]; [by rewrite vint_spec_one|].
  unfold vint_spec. destruct (Nat.eqb_spec (vint_size v) 9) as [E9|H9]; [done|].
  pose proof (vint_size_range v). pose proof (vint_high v Hv ltac:(lia)) as Hh. simpl in Hh.
  rewrite value_bytes_be, prefix_not, shiftr_high by lia.
  rewrite (high_byte (vint_size v - 1)) by lia.
  rewrite Z.shiftl_mul_pow2, Z.mul_1_l by lia.
  replace (2 ^ (8 - Z.of_nat (vint_size v - 1) - 1) - 1) with (Z.ones (7 - Z.of_nat (vint_size v - 1)))
    by (rewrite Z.ones_equiv, <- Z.sub_1_r; do 2 f_equal; lia).
  rewrite Z.land_ones, Z.mod_small, lor_prefix by lia. done.
Qed.

(** The leading bytes of a shifted register. *)
Lemma take_be_bytes n m x : take n (be_bytes (n + m) (x * 256 ^ Z.of_nat m)) = be_bytes n x.
Proof.
  induction n as [|n IH]; [done|]. cbn [Nat.add be_bytes take]. f_equal; [|done].
  rewrite Nat2Z.inj_add, Z.pow_add_r by lia. rewrite (Z.mul_comm (256 ^ Z.of_nat n)).
  rewrite <- Z.div_div, Z.div_mul by lia. done.
Qed.

Lemma be_bytes_add n u z : be_bytes n (u * 256 ^ Z.of_nat n + z) = be_bytes n z.
Proof.
  apply be_val_inj; [apply be_bytes_ok..|by rewrite !length_be_bytes|].
  rewrite !be_val_bytes, Z.add_comm. apply Z_mod_plus_full.
Qed.

Lemma prefix_range e : (e < 8)%nat -> 0 <= vint_prefix e <= 256 - 2 * 2 ^ (7 - Z.of_nat e).
Proof.
  intros He. unfold vint_prefix. rewrite <- Z.pow_succ_r by lia.
  replace (Z.succ (7 - Z.of_nat e)) with (8 - Z.of_nat e) by lia.
  pose proof (Z.pow_le_mono_r 2 (8 - Z.of_nat e) 8). lia.
Qed.

(** ** Readers *)

Lemma push_byte_mod acc b : 0 <= acc -> is_u8 b -> push_byte acc b = (acc * 256 + b) mod 2 ^ 64.
Proof.
  intros Hacc Hb. unfold push_byte, wrap_u, in_u in *. rewrite Z.shiftl_mul_pow2 by lia.
  change (2 ^ 64) with (2 ^ 56 * 2 ^ 8). rewrite Z.mul_mod_distr_r, lor_add by lia.
  pose proof (Z.mod_pos_bound acc (2 ^ 56) ltac:(lia)).
  rewrite (Z.mul_comm (2 ^ 56)), Z.rem_mul_r, (Z.add_comm (acc * 256)), Z_mod_plus_full by lia.
  rewrite Z_div_plus_full, (Z.div_small b), (Z.mod_small b) by lia. change (2 ^ 8) with 256. rewrite Z.add_0_l. lia.
Qed.

Lemma foldl_push acc l :
  is_u64 acc -> bytes_ok l -> foldl push_byte acc l = (acc * 256 ^ Z.of_nat (length l) + be_val l) mod 2 ^ 64.
Proof.
  intros Hacc Hl. revert acc Hacc. induction Hl as [|b l Hb Hl IH]; intros acc Hacc.
  - simpl. unfold be_val; simpl. rewrite Z.mul_1_r, Z.add_0_r, Z.mod_small; [done|apply Hacc].
  - cbn [foldl length]. rewrite push_byte_mod by (try done; apply Hacc).
    rewrite IH by (apply (wrap_u_range 64); lia). rewrite be_val_cons, pow256_S.
    rewrite <- Z.add_mod_idemp_l, Z.mul_mod_idemp_l, Z.add_mod_idemp_l by lia. f_equal. ring.
Qed.

Lemma foldl_push_small acc l v :
  0 <= acc -> bytes_ok l -> acc * 256 ^ Z.of_nat (length l) + be_val l = v -> v < 2 ^ 64 ->
  foldl push_byte acc l = v.
Proof.
  intros Hacc Hl <- Hv. pose proof (be_val_range l Hl). pose proof (pow256 (length l)).
  rewrite foldl_push, Z.mod_small; [done|nia| |done]. unfold in_u. nia.
Qed.

(** What each reader takes from a first byte. *)
Definition first_byte_ok (e : nat) (h : Z) : bool :=
  let b := vint_prefix e + h in
  (leading_ones b =? e)%nat && (extra_bytes_for_first b =? e)%nat
  && (Z.land b (wrap_u 8 (wrap_u 8 (Z.shiftl 1 (8 - Z.of_nat (S e))) - 1)) =? h)
  && (Z.land b (Z.shiftl 1 (8 - Z.of_nat e - 1) - 1) =? h)
  && (Z.land b (Z.shiftr 255 (Z.of_nat e)) =? h)
  && Bool.eqb (Z.land b 128 =? 0) (e =? 0)%nat.

Lemma first_byte_all :
  forallb (fun e => forallb (fun h => first_byte_ok e (Z.of_nat h)) (seq 0 (2 ^ (7 - e)))) (seq 0 8) = true.
Proof. by vm_compute. Qed.

Lemma first_byte_read e h (b := vint_prefix e + h) :
  (e < 8)%nat -> 0 <= h < 2 ^ (7 - Z.of_nat e) ->
  leading_ones b = e /\ extra_bytes_for_first b = e
  /\ Z.land b (wrap_u 8 (wrap_u 8 (Z.shiftl 1 (8 - Z.of_nat (S e))) - 1)) = h
  /\ Z.land b (Z.shiftl 1 (8 - Z.of_nat e - 1) - 1) = h
  /\ Z.land b (Z.shiftr 255 (Z.of_nat e)) = h
  /\ (Z.land b 128 =? 0) = (e =? 0)%nat.
Proof.
  intros He Hh. assert (Hok : first_byte_ok e h = true).
  { pose proof first_byte_all as Hall. rewrite forallb_forall in Hall.
    specialize (Hall e ltac:(apply in_seq; lia)). rewrite forallb_forall in Hall.
    specialize (Hall (Z.to_nat h)). rewrite Z2Nat.id in Hall by lia. apply Hall, in_seq.
    rewrite <- (Nat2Z.id (2 ^ (7 - e))), Nat2Z.inj_pow, Nat2Z.inj_sub by lia. simpl. lia. }
  unfold first_byte_ok in Hok. fold b in Hok. rewrite !andb_true_iff in Hok.
  destruct Hok as [[[[[H1 H2] H3] H4] H5] H6].
  apply Nat.eqb_eq in H1, H2. apply Z.eqb_eq in H3, H4, H5. apply Bool.eqb_prop in H6. by split_and!.
Qed.

(** A written value, taken apart. *)
Lemma vint_spec_split v :
  is_u64 v ->
  (vint_size v = 9%nat /\ vint_spec v = 255 :: be_bytes 8 v)
  \/ exists e h, (e < 8)%nat /\ 0 <= h < 2 ^ (7 - Z.of_nat e) /\ vint_size v = S e
       /\ vint_spec v = vint_prefix e + h :: be_bytes e v /\ h * 256 ^ Z.of_nat e + be_val (be_bytes e v) = v.
Proof.
  intros Hv. pose proof (vint_size_range v). unfold vint_spec.
  destruct (Nat.eqb_spec (vint_size v) 9) as [->|H9]; [by left|]. right.
  pose proof (vint_high v Hv ltac:(lia)) as Hh. simpl in Hh.
  exists (vint_size v - 1)%nat, (v / 256 ^ Z.of_nat (vint_size v - 1)). split_and!; [lia|lia|lia|lia|done|].
  rewrite be_val_bytes. rewrite Z.mul_comm. symmetry. apply Z.div_mod. lia.
Qed.

Lemma be_8 v : is_u64 v -> be_val (be_bytes 8 v) = v.
Proof. intros Hv. rewrite be_val_bytes. apply Z.mod_small, Hv. Qed.

Lemma decode_uvint_spec v rest :
  is_u64 v -> decode_uvint (vint_spec v ++ rest) = Some (v, length (vint_spec v)).
Proof.
  intros Hv. destruct (vint_spec_split v Hv) as [[_ E]|(e & h & He & Hh & _ & E & Ev)]; rewrite E.
  - change ((255 :: be_bytes 8 v) ++ rest) with (255 :: (be_bytes 8 v ++ rest)).
    cbn [decode_uvint]. change (leading_ones 255) with 8%nat. cbn [Nat.eqb].
    rewrite (take_field _ _ _ (length_be_bytes _ _)). cbn [length]. rewrite length_app, !length_be_bytes. cbn [Nat.ltb Nat.leb Nat.add].
    do 2 f_equal. apply foldl_push_small; [lia|apply be_bytes_ok| |apply Hv]. rewrite be_8 by done. lia.
  - change ((vint_prefix e + h :: be_bytes e v) ++ rest) with (vint_prefix e + h :: (be_bytes e v ++ rest)).
    destruct (first_byte_read e h He Hh) as (H1 & _ & H3 & _). cbn [decode_uvint]. rewrite H1, H3.
    rewrite (proj2 (Nat.eqb_neq e 8)) by lia. cbn [length]. rewrite length_app, length_be_bytes, (take_field _ _ _ (length_be_bytes _ _)).
    rewrite (proj2 (Nat.ltb_ge _ _)) by lia. do 2 f_equal.
    apply foldl_push_small; [lia|apply be_bytes_ok|by rewrite length_be_bytes|apply Hv].
Qed.

Lemma foldl_read_spec v e h :
  is_u64 v -> 0 <= h -> h * 256 ^ Z.of_nat e + be_val (be_bytes e v) = v ->
  foldl push_byte h (be_bytes e v) = v.
Proof.
  intros Hv Hh Ev. apply foldl_push_small; [done|apply be_bytes_ok|by rewrite length_be_bytes|apply Hv].
Qed.

Lemma read_u_be8 v : is_u64 v -> read_u (be_bytes 8 v) = v.
Proof. intros Hv. unfold read_u. by apply be_8. Qed.

Lemma decode_unsigned_vint_spec v rest :
  is_u64 v -> decode_unsigned_vint (vint_spec v ++ rest) = Some (v, length (vint_spec v)).
Proof.
  intros Hv. destruct (vint_spec_split v Hv) as [[_ E]|(e & h & He & Hh & _ & E & Ev)]; rewrite E.
  - change ((255 :: be_bytes 8 v) ++ rest) with (255 :: (be_bytes 8 v ++ rest)).
    cbn [decode_unsigned_vint]. change (extra_bytes_for_first 255) with 8%nat. cbn [Nat.eqb Nat.leb].
    rewrite length_app, (take_field _ _ _ (length_be_bytes _ _)). cbn [length]. rewrite !length_be_bytes. cbn [Nat.ltb Nat.leb Nat.add].
    by rewrite read_u_be8.
  - change ((vint_prefix e + h :: be_bytes e v) ++ rest) with (vint_prefix e + h :: (be_bytes e v ++ rest)).
    destruct (first_byte_read e h He Hh) as (_ & H2 & _ & H4 & _). cbn [decode_unsigned_vint]. rewrite H2, H4.
    cbn [length]. rewrite (take_field _ _ _ (length_be_bytes _ _)), length_be_bytes.
    destruct (Nat.eqb_spec e 0) as [->|He0].
    + do 2 f_equal. unfold vint_prefix. rewrite <- Ev. unfold be_val; simpl. lia.
    + rewrite (proj2 (Nat.leb_gt 8 e)) by lia. do 2 f_equal. apply foldl_read_spec; [done|lia|done].
Qed.

Lemma read_exact_app n l rest : length l = n -> read_exact n (l ++ rest) = Some (l, rest).
Proof.
  intros <-. unfold read_exact. rewrite (proj2 (Nat.leb_le _ _)) by (rewrite length_app; lia).
  by rewrite take_app_length, drop_app_length.
Qed.

Lemma read_unsigned_vint_cons first reader :
  read_unsigned_vint (first :: reader) =
  let extra := extra_bytes_for_first first in
  if (extra =? 0)%nat then Some (first, reader)
  else if (8 <=? extra)%nat then
    '(be, reader) ← read_exact 8 reader; Some (read_u be, reader)
  else
    '(rest, reader) ← read_exact extra reader;
    Some (foldl push_byte (Z.land first (Z.shiftl 1 (8 - Z.of_nat extra - 1) - 1)) rest, reader).
Proof.
  change (first :: reader) with ([first] ++ reader). unfold read_unsigned_vint.
  by rewrite (read_exact_app 1 [first] reader).
Qed.

Lemma read_unsigned_vint_spec v rest :
  is_u64 v -> read_unsigned_vint (vint_spec v ++ rest) = Some (v, rest).
Proof.
  intros Hv. destruct (vint_spec_split v Hv) as [[_ E]|(e & h & He & Hh & _ & E & Ev)]; rewrite E.
  - change ((255 :: be_bytes 8 v) ++ rest) with (255 :: (be_bytes 8 v ++ rest)).
    rewrite read_unsigned_vint_cons.
    change (extra_bytes_for_first 255) with 8%nat. cbv zeta. cbn [Nat.eqb Nat.leb].
    rewrite read_exact_app by apply length_be_bytes. cbn [mbind option_bind]. by rewrite read_u_be8.
  - change ((vint_prefix e + h :: be_bytes e v) ++ rest) with (vint_prefix e + h :: (be_bytes e v ++ rest)).
    destruct (first_byte_read e h He Hh) as (_ & H2 & _ & H4 & _).
    rewrite read_unsigned_vint_cons. cbv zeta. rewrite H2, H4. destruct (Nat.eqb_spec e 0) as [->|He0].
    + do 2 f_equal. unfold vint_prefix. rewrite <- Ev. unfold be_val; simpl. lia.
    + rewrite (proj2 (Nat.leb_gt 8 e)), read_exact_app by (lia || apply length_be_bytes).
      cbn [mbind option_bind]. do 2 f_equal. apply foldl_read_spec; [done|lia|done].
Qed.

(** ** Zig-zag *)

Lemma zigzag_encode_spec v : is_i64 v -> zigzag_encode v = if 0 <=? v then 2 * v else - 2 * v - 1.
Proof.
  intros Hv. unfold zigzag_encode, in_s in *. rewrite Z.shiftl_mul_pow2 by lia. change (2 ^ 1) with 2.
  rewrite Z.shiftr_div_pow2 by lia. destruct (Z.leb_spec 0 v).
  - rewrite Z.div_small, Z.lxor_0_r by lia. unfold wrap_u. rewrite wrap_s_mod by lia. rewrite Z.mod_small; lia.
  - replace (v / 2 ^ 63) with (-1) by (apply Z.div_unique with (v + 2 ^ 63); lia).
    rewrite Z.lxor_m1_r. unfold Z.lnot, wrap_u. rewrite <- Z.sub_1_r.
    replace (- wrap_s 64 (v * 2) - 1) with (-1 - wrap_s 64 (v * 2)) by lia.
    rewrite <- Zminus_mod_idemp_r, wrap_s_mod, Zminus_mod_idemp_r by lia. rewrite Z.mod_small; lia.
Qed.

Lemma zigzag_encode_range v : is_i64 v -> is_u64 (zigzag_encode v).
Proof. intros Hv. rewrite zigzag_encode_spec by done. unfold in_s, in_u in *. destruct (Z.leb_spec 0 v); lia. Qed.

Lemma zigzag_decode_even u : 0 <= u < 2 ^ 63 -> zigzag_decode (2 * u) = u.
Proof.
  intros Hu. unfold zigzag_decode. change 1 with (Z.ones 1) at 2. rewrite Z.land_ones, Z.shiftr_div_pow2 by lia.
  change (2 ^ 1) with 2. rewrite (Z.mul_comm 2 u), Z.mod_mul, Z.div_mul by lia.
  rewrite Z.lxor_0_r. apply wrap_s_id; [lia|unfold in_s; lia].
Qed.

Lemma zigzag_decode_odd u : 0 <= u < 2 ^ 63 -> zigzag_decode (2 * u + 1) = - u - 1.
Proof.
  intros Hu. unfold zigzag_decode. change (Z.land (2 * u + 1) 1) with (Z.land (2 * u + 1) (Z.ones 1)).
  rewrite Z.land_ones, Z.shiftr_div_pow2 by lia. change (2 ^ 1) with 2.
  replace ((2 * u + 1) mod 2) with 1 by (apply Z.mod_unique with u; lia).
  replace ((2 * u + 1) / 2) with u by (apply Z.div_unique with 1; lia).
  change (- (1)) with (-1). rewrite Z.lxor_m1_r, wrap_s_id by (lia || (unfold in_s; lia)). unfold Z.lnot. lia.
Qed.

Lemma zigzag_roundtrip v : is_i64 v -> zigzag_decode (zigzag_encode v) = v.
Proof.
  intros Hv. rewrite zigzag_encode_spec by done. unfold in_s in Hv. destruct (Z.leb_spec 0 v).
  - apply zigzag_decode_even. lia.
  - replace (-2 * v - 1) with (2 * (- v - 1) + 1) by lia. rewrite zigzag_decode_odd; lia.
Qed.

(** ** The streams *)

Lemma vint_spec_length v : is_u64 v -> length (vint_spec v) = vint_size v.
Proof.
  intros Hv. destruct (vint_spec_split v Hv) as [[-> ->]|(e & h & _ & _ & -> & -> & _)];
    cbn [length]; by rewrite length_be_bytes.
Qed.

Lemma encode_unsigned_vint_spec v buf :
  is_u64 v -> (vint_size v <= length buf)%nat ->
  encode_unsigned_vint v buf = Some (vint_spec v ++ drop (vint_size v) buf, vint_size v).
Proof.
  intros Hv Hlen. pose proof (vint_size_range v). unfold encode_unsigned_vint.
  rewrite unsigned_vint_size_spec, unsigned_vint_bytes_spec by done.
  rewrite (proj2 (Nat.eqb_neq (length buf) 0)) by lia. cbn [orb].
  destruct (Nat.eqb_spec (vint_size v) 9) as [H9|]; cbn [andb];
    rewrite ?(proj2 (Nat.ltb_ge (length buf) 9)) by lia;
    by rewrite (take_ge (vint_spec v)) by (rewrite vint_spec_length; done).
Qed.

Lemma write_unsigned_vint_spec writer v :
  is_u64 v -> write_unsigned_vint writer v = Some (writer ++ vint_spec v, vint_size v).
Proof.
  intros Hv. pose proof (vint_size_range v). unfold write_unsigned_vint.
  rewrite encode_unsigned_vint_spec by (done || (rewrite length_replicate; lia)). cbn [mbind option_bind].
  by rewrite <- (vint_spec_length v Hv), take_app_length at 1.
Qed.

(** A stream that ends inside a value. *)
Lemma read_exact_short n l : (length l < n)%nat -> read_exact n l = None.
Proof. intros Hl. unfold read_exact. by rewrite (proj2 (Nat.leb_gt _ _)). Qed.

Lemma vint_spec_first v :
  is_u64 v -> exists first rest, vint_spec v = first :: rest /\ leading_ones first = length rest
    /\ extra_bytes_for_first first = length rest /\ (Z.land first 128 =? 0) = (length rest =? 0)%nat
    /\ (length rest <= 8)%nat.
Proof.
  intros Hv. destruct (vint_spec_split v Hv) as [[_ E]|(e & h & He & Hh & _ & E & _)]; rewrite E.
  - exists 255, (be_bytes 8 v). by rewrite length_be_bytes.
  - destruct (first_byte_read e h He Hh) as (? & ? & _ & _ & _ & ?).
    exists (vint_prefix e + h), (be_bytes e v). rewrite length_be_bytes. split_and!; [done..|lia].
Qed.

Lemma vint_truncated_first v p :
  is_u64 v -> p `prefix_of` vint_spec v -> p <> vint_spec v -> p <> [] ->
  exists first r, p = first :: r /\ (length r < leading_ones first)%nat
    /\ extra_bytes_for_first first = leading_ones first /\ (Z.land first 128 =? 0) = false
    /\ (leading_ones first <= 8)%nat.
Proof.
  intros Hv [q Eq] Hne Hp. destruct (vint_spec_first v Hv) as (first & rest & E & H1 & H2 & H3 & H4).
  rewrite E in Eq, Hne. destruct p as [|b r]; [done|]. injection Eq as <- ->.
  assert (length q <> 0%nat) by (destruct q; [by rewrite app_nil_r in Hne|done]).
  rewrite length_app in *. exists first, r. rewrite H2, H1, H3. split_and!; [done|lia|done| |lia].
  apply Nat.eqb_neq. lia.
Qed.

Lemma vint_truncated_rejected v p :
  is_u64 v -> p `prefix_of` vint_spec v -> p <> vint_spec v ->
  decode_uvint p = None /\ read_unsigned_vint p = None.
Proof.
  intros Hv Hpre Hne. destruct (decide (p = [])) as [->|Hp]; [done|].
  destruct (vint_truncated_first v p Hv Hpre Hne Hp) as (first & r & -> & Hlen & Hx & _ & H8). split_and!.
  - cbn [decode_uvint length]. destruct (Nat.eqb_spec (leading_ones first) 8) as [E|].
    + by rewrite (proj2 (Nat.ltb_lt _ _)) by lia.
    + by rewrite (proj2 (Nat.ltb_lt (S (length r)) _)) by lia.
  - rewrite read_unsigned_vint_cons. cbv zeta. rewrite Hx, (proj2 (Nat.eqb_neq _ 0)) by lia.
    destruct (Nat.leb_spec 8 (leading_ones first)); by rewrite read_exact_short by lia.
Qed.

