(* ===== verification/Comparator.v ===== *)
(** * Comparison of serialized values

    crates/cassandra-types/src/comparator.rs: the order of serialized values of a
    CQL type, and composite.rs, whose components it reads.  [None] is the panic
    of an index out of range. *)
From S2P Require Export Prelude Types TypeParser.
From S2P Require Import Vint.

(** * composite.rs *)

Record Component := mkComponent {
  comp_data : list Z;
  comp_eoc : Z
}.

Definition serialize_composite (components : list Component) : list Z :=
  mjoin ((fun c => write_be 2 (wrap_u 16 (Z.of_nat (length (comp_data c)))) ++ comp_data c ++ [comp_eoc c]) <$> components).

(** Each turn of the loop takes at least three bytes, so the length is enough fuel.
    [None] is the error. *)
Fixpoint read_components (fuel : nat) (data : list Z) : option (list Component) :=
  match fuel, data with
  | _, [] => Some []
  | O, _ => None
  | S fuel, _ =>
      if (length data <? 2)%nat then None
      else
        let len := Z.to_nat (read_u (take 2 data)) in
        let data := drop 2 data in
        if (length data <? len + 1)%nat then None
        else
          components ← read_components fuel (drop (len + 1) data);
          Some (mkComponent (take len data) (nth len data 0) :: components)
  end.
Definition deserialize_composite (data : list Z) : option (list Component) := read_components (length data) data.

(** * comparator.rs *)

Definition flip_sign (data : list Z) : list Z :=
  match data with [] => [] | b :: data => Z.lxor b 128 :: data end.
(** [left[..n]] *)
Definition slice_to (n : nat) (data : list Z) : option (list Z) :=
  if (length data <? n)%nat then None else Some (take n data).

(** The eight-byte buffers have the same zeros before the [n] bytes. *)
Definition cmp_signed_fixed (n : nat) (left right : list Z) : option comparison :=
  l ← slice_to n left; r ← slice_to n right;
  Some (cmp (repeat 0 (8 - n) ++ flip_sign l) (repeat 0 (8 - n) ++ flip_sign r)).

(** [total_cmp]: the bits as a signed integer, with the bits below the sign
    flipped when it is negative. *)
Definition total_key (w : Z) (bits : Z) : Z :=
  let s := wrap_s w bits in Z.lxor s (Z.shiftr (wrap_u w (Z.shiftr s (w - 1))) 1).
Definition cmp_total (n : nat) (left right : list Z) : option comparison :=
  l ← slice_to n left; r ← slice_to n right;
  let w := 8 * Z.of_nat n in
  Some (Z.compare (total_key w (read_u l)) (total_key w (read_u r))).
Definition cmp_float : list Z -> list Z -> option comparison := cmp_total 4.
Definition cmp_double : list Z -> list Z -> option comparison := cmp_total 8.

Definition cmp_uuid (left right : list Z) : option comparison :=
  a ← left !! 6%nat; b ← right !! 6%nat;
  let v_a := Z.land (Z.shiftr a 4) 15 in
  let v_b := Z.land (Z.shiftr b 4) 15 in
  Some (if negb (v_a =? v_b) then Z.compare v_a v_b else cmp left right).

Definition timeuuid_timestamp (uuid : list Z) : option Z :=
  if (length uuid <? 8)%nat then None
  else
    let time_low := read_u (take 4 uuid) in
    let time_mid := read_u (take 2 (drop 4 uuid)) in
    let time_hi := Z.land (read_u (take 2 (drop 6 uuid))) 4095 in
    Some (Z.lor (Z.lor (Z.shiftl time_hi 48) (Z.shiftl time_mid 32)) time_low).
Definition cmp_timeuuid (left right : list Z) : option comparison :=
  ts_a ← timeuuid_timestamp left; ts_b ← timeuuid_timestamp right;
  Some (then_with (Z.compare ts_a ts_b) (cmp (drop 8 left) (drop 8 right))).

Definition cmp_varint (left right : list Z) : comparison :=
  match left, right with
  | [], [] => Eq
  | [], _ => Lt
  | _, [] => Gt
  | a :: _, b :: _ =>
      let sign_a := negb (Z.land a 128 =? 0) in
      let sign_b := negb (Z.land b 128 =? 0) in
      if sign_a && negb sign_b then Lt
      else if negb sign_a && sign_b then Gt
      else
        let len_ord := Nat.compare (length left) (length right) in
        if sign_a then then_with (CompOpp len_ord) (cmp left right) else then_with len_ord (cmp left right)
  end.

Definition cmp_decimal (left right : list Z) : comparison :=
  if (length left <? 4)%nat || (length right <? 4)%nat then Nat.compare (length left) (length right)
  else then_with (Z.compare (read_s (take 4 left)) (read_s (take 4 right))) (cmp_varint (drop 4 left) (drop 4 right)).

(** The three integers of a duration. *)
Definition read_duration (data : list Z) : option (Z * Z * Z) :=
  '(months, n1) ← decode_vint data;
  '(days, n2) ← decode_vint (drop n1 data);
  '(nanos, _) ← decode_vint (drop (n1 + n2) data);
  Some (months, days, nanos).
Definition cmp_duration (left right : list Z) : comparison :=
  match read_duration left, read_duration right with
  | Some (ml, dl, nl), Some (mr, dr, nr) =>
      then_with (then_with (Z.compare ml mr) (Z.compare dl dr)) (Z.compare nl nr)
  | _, _ => cmp left right
  end.

Definition read_elem (data : list Z) (pos : nat) : list Z * nat :=
  if (length data <? pos + 4)%nat then ([], 0%nat)
  else
    let len := read_s (take 4 (drop pos data)) in
    if len <? 0 then ([], 4%nat)
    else
      let len := Z.to_nat len in
      (take len (drop (pos + 4) data), (4 + len)%nat).
Definition read_optional_elem (data : list Z) (pos : nat) : option (list Z) * nat :=
  if (length data <? pos + 4)%nat then (None, 0%nat)
  else
    let len := read_s (take 4 (drop pos data)) in
    if len <? 0 then (None, 4%nat)
    else
      let len := Z.to_nat len in
      (Some (take len (drop (pos + 4) data)), (4 + len)%nat).

(** Comparators of component types. *)
Abbreviation comparator := (list Z -> list Z -> option comparison).

(** [count as usize] of a negative count is its 64-bit two's complement. *)
Definition read_count (data : list Z) : Z := wrap_u 64 (read_s (take 4 data)).

Fixpoint seq_loop (inner : comparator) (n : nat) (left right : list Z) (pos_l pos_r : nat) : option comparison :=
  match n with
  | O => Some Eq
  | S n =>
      let '(el_l, n_l) := read_elem left pos_l in
      let '(el_r, n_r) := read_elem right pos_r in
      c ← inner el_l el_r;
      match c with Eq => seq_loop inner n left right (pos_l + n_l) (pos_r + n_r) | c => Some c end
  end.
Definition cmp_collection_seq (inner : comparator) (left right : list Z) : option comparison :=
  if (length left <? 4)%nat || (length right <? 4)%nat then Some (Nat.compare (length left) (length right))
  else
    let cnt_l := read_count left in
    let cnt_r := read_count right in
    c ← seq_loop inner (Z.to_nat (Z.min cnt_l cnt_r)) left right 4 4;
    Some (then_with c (Z.compare cnt_l cnt_r)).

Fixpoint map_loop (key value : comparator) (n : nat) (left right : list Z) (pos_l pos_r : nat) : option comparison :=
  match n with
  | O => Some Eq
  | S n =>
      let '(kl, nkl) := read_elem left pos_l in
      let '(kr, nkr) := read_elem right pos_r in
      c ← key kl kr;
      match c with
      | Eq =>
          let '(vl, nvl) := read_elem left (pos_l + nkl) in
          let '(vr, nvr) := read_elem right (pos_r + nkr) in
          d ← value vl vr;
          match d with Eq => map_loop key value n left right (pos_l + nkl + nvl) (pos_r + nkr + nvr) | d => Some d end
      | c => Some c
      end
  end.
Definition cmp_map (key value : comparator) (left right : list Z) : option comparison :=
  if (length left <? 4)%nat || (length right <? 4)%nat then Some (Nat.compare (length left) (length right))
  else
    let cnt_l := read_count left in
    let cnt_r := read_count right in
    c ← map_loop key value (Z.to_nat (Z.min cnt_l cnt_r)) left right 4 4;
    Some (then_with c (Z.compare cnt_l cnt_r)).

Fixpoint cmp_tuple (types : list comparator) (left right : list Z) (pos_l pos_r : nat) : option comparison :=
  match types with
  | [] => Some Eq
  | ty :: types =>
      let '(el_l, n_l) := read_optional_elem left pos_l in
      let '(el_r, n_r) := read_optional_elem right pos_r in
      let next := cmp_tuple types left right (pos_l + n_l) (pos_r + n_r) in
      match el_l, el_r with
      | None, None => next
      | None, Some _ => Some Lt
      | Some _, None => Some Gt
      | Some l, Some r => c ← ty l r; match c with Eq => next | c => Some c end
      end
  end.

(** [u8 as i8] *)
Definition compare_eoc (left right : Z) : comparison := Z.compare (wrap_s 8 left) (wrap_s 8 right).

(** Components beyond the declared types compare as blobs. *)
Fixpoint components_loop (types : list comparator) (left right : list Component) : option comparison :=
  match left, right with
  | l :: left', r :: right' =>
      let ty := match types with [] => fun a b => Some (cmp a b) | ty :: _ => ty end in
      c ← ty (comp_data l) (comp_data r);
      match then_with c (compare_eoc (comp_eoc l) (comp_eoc r)) with
      | Eq => components_loop (tail types) left' right'
      | c => Some c
      end
  | _, _ => Some Eq
  end.
Definition cmp_composite (types : list comparator) (left right : list Z) : option comparison :=
  match deserialize_composite left, deserialize_composite right with
  | Some l, Some r =>
      c ← components_loop types l r;
      Some (then_with c (Nat.compare (length l) (length r)))
  | _, _ => Some (cmp left right)
  end.

(** The elements of a vector, from index [idx] on. *)
Fixpoint vector_loop (inner : comparator) (size n idx : nat) (left right : list Z) : option comparison :=
  match n with
  | O => Some Eq
  | S n =>
      c ← inner (take size (drop (idx * size) left)) (take size (drop (idx * size) right));
      match c with Eq => vector_loop inner size n (S idx) left right | c => Some c end
  end.
Definition cmp_vector (inner : comparator) (fixed_size : option nat) (dimensions : nat) (left right : list Z)
    : option comparison :=
  match fixed_size with
  | None => Some (cmp left right)
  | Some size =>
      let expected_len := (size * dimensions)%nat in
      if negb (length left =? expected_len)%nat || negb (length right =? expected_len)%nat
      then Some (then_with (Nat.compare (length left) (length right)) (cmp left right))
      else vector_loop inner size dimensions 0 left right
  end.

(** The comparator, given that of dynamic composites: their values hold the names of the
    types to compare with, so that the recursion is not on the type. *)
Section compare.
Context (dynamic : list (Z * CqlType) -> comparator).

Fixpoint compare_with (cql_type : CqlType) (left right : list Z) : option comparison :=
  match cql_type with
  | IntT => cmp_signed_fixed 4 left right
  | BigintT | TimestampT | TimeT | CounterT => cmp_signed_fixed 8 left right
  | SmallintT => cmp_signed_fixed 2 left right
  | TinyintT =>
      a ← left !! 0%nat; b ← right !! 0%nat; Some (Z.compare (wrap_s 8 a) (wrap_s 8 b))
  | AsciiT | VarcharT | BlobT => Some (cmp left right)
  | BooleanT => a ← left !! 0%nat; b ← right !! 0%nat; Some (Z.compare a b)
  | FloatT => cmp_float left right
  | DoubleT => cmp_double left right
  | UuidT => cmp_uuid left right
  | TimeuuidT => cmp_timeuuid left right
  | DateT => l ← slice_to 4 left; r ← slice_to 4 right; Some (Z.compare (read_u l) (read_u r))
  | InetT => Some (cmp left right)
  | VarintT => Some (cmp_varint left right)
  | ReversedT inner => CompOpp <$> compare_with inner left right
  | DecimalT => Some (cmp_decimal left right)
  | DurationT => Some (cmp_duration left right)
  | ListT inner _ | SetT inner _ => cmp_collection_seq (compare_with inner) left right
  | MapT key_type value_type _ => cmp_map (compare_with key_type) (compare_with value_type) left right
  | TupleT types => cmp_tuple (map compare_with types) left right 0 0
  | CompositeT types => cmp_composite (map compare_with types) left right
  | DynamicCompositeT aliases => dynamic aliases left right
  | UdtT _ _ _ field_types _ => cmp_tuple (map compare_with field_types) left right 0 0
  | VectorT inner dimensions => cmp_vector (compare_with inner) (CqlType_fixed_size inner) dimensions left right
  | EmptyT => Some (cmp left right)
  end.
End compare.

Definition type_order_name (cql_type : CqlType) : list Z := text_bytes (java_marshal_name cql_type).

Fixpoint dynamic_loop (compare : CqlType -> comparator) (left right : list DynamicComponent) : option comparison :=
  match left, right with
  | l :: left', r :: right' =>
      let names :=
        if decide (dyn_comparator l = dyn_comparator r) then Eq
        else cmp (type_order_name (dyn_comparator l)) (type_order_name (dyn_comparator r)) in
      match names with
      | Eq =>
          c ← compare (dyn_comparator l) (dyn_value l) (dyn_value r);
          match then_with c (compare_eoc (dyn_eoc l) (dyn_eoc r)) with
          | Eq => dynamic_loop compare left' right'
          | c => Some c
          end
      | c => Some c
      end
  | _, _ => Some Eq
  end.
Definition cmp_dynamic_composite (compare : CqlType -> comparator) (aliases : list (Z * CqlType)) (left right : list Z)
    : option comparison :=
  match deserialize_dynamic_composite left aliases, deserialize_dynamic_composite right aliases with
  | inr l, inr r =>
      c ← dynamic_loop compare l r;
      Some (then_with c (Nat.compare (length l) (length r)))
  | _, _ => Some (cmp left right)
  end.

(** The values inside a dynamic composite are shorter than it, so one unit of fuel more than the
    length of the left value is enough ([compare_fuel_enough]). *)
Fixpoint compare_fuel (fuel : nat) (cql_type : CqlType) : comparator :=
  compare_with (fun aliases left right =>
    match fuel with O => None | S fuel => cmp_dynamic_composite (compare_fuel fuel) aliases left right end) cql_type.
Definition compare_bytes (cql_type : CqlType) (left right : list Z) : option comparison :=
  compare_fuel (S (length left)) cql_type left right.

Lemma cmp_cons (x y : Z) u v : cmp (x :: u) (y :: v) = then_with (cmp x y) (cmp u v).
Proof. done. Qed.
Lemma then_with_refl (x : Z) c : then_with (cmp x x) c = c.
Proof. by rewrite cmp_refl. Qed.
Lemma then_with_ne (x y : Z) c : x <> y -> then_with (cmp x y) c = cmp x y.
Proof. intros H. destruct (cmp x y) eqn:E; [|done..]. by apply cmp_eq in E. Qed.

Lemma slice_full n (l : list Z) : length l = n -> slice_to n l = Some l.
Proof. intros <-. unfold slice_to. by rewrite Nat.ltb_irrefl, take_ge by done. Qed.

(** * Enough fuel

    Comparators that agree on left values not longer than [n] give comparators of
    compound values that agree on those. *)
Definition agree (n : nat) (f g : comparator) : Prop := forall l r, (length l <= n)%nat -> f l r = g l r.

Lemma agree_weaken n m f g : agree n f g -> (m <= n)%nat -> agree m f g.
Proof. intros H Hm l r Hl. apply H. lia. Qed.

Lemma read_elem_length data pos : (length (read_elem data pos).1 <= length data)%nat.
Proof. unfold read_elem. repeat case_match; cbn; [lia..|]. rewrite length_take, length_drop. lia. Qed.
Lemma read_optional_length data pos e n : read_optional_elem data pos = (Some e, n) -> (length e <= length data)%nat.
Proof. unfold read_optional_elem. repeat case_match; intros; simplify_eq. rewrite length_take, length_drop. lia. Qed.

Lemma seq_loop_agree f g n left right pl pr :
  agree (length left) f g -> seq_loop f n left right pl pr = seq_loop g n left right pl pr.
Proof.
  intros H. revert pl pr. induction n as [|n IH]; intros pl pr; [done|]. cbn [seq_loop].
  pose proof (read_elem_length left pl) as Hl. destruct (read_elem left pl) as [el nl], (read_elem right pr) as [er nr].
  cbn in Hl. rewrite H by lia. destruct (g el er) as [[]|]; cbn; auto.
Qed.
Lemma map_loop_agree f g f' g' n left right pl pr :
  agree (length left) f g -> agree (length left) f' g' -> map_loop f f' n left right pl pr = map_loop g g' n left right pl pr.
Proof.
  intros H H'. revert pl pr. induction n as [|n IH]; intros pl pr; [done|]. cbn [map_loop].
  pose proof (read_elem_length left pl) as Hl. destruct (read_elem left pl) as [el nl], (read_elem right pr) as [er nr].
  cbn in Hl. rewrite H by lia. destruct (g el er) as [[]|]; cbn; try done.
  pose proof (read_elem_length left (pl + nl)) as Hv. destruct (read_elem left (pl + nl)) as [vl ml], (read_elem right (pr + nr)) as [vr mr].
  cbn in Hv. rewrite H' by lia. destruct (g' vl vr) as [[]|]; cbn; auto.
Qed.
Lemma cmp_tuple_agree fs gs left right pl pr :
  Forall2 (agree (length left)) fs gs -> cmp_tuple fs left right pl pr = cmp_tuple gs left right pl pr.
Proof.
  intros H. revert pl pr. induction H as [|f g fs gs Hfg _ IH]; intros pl pr; [done|]. cbn [cmp_tuple].
  destruct (read_optional_elem left pl) as [el nl] eqn:El, (read_optional_elem right pr) as [er nr]. rewrite IH.
  destruct el as [el|], er as [er|]; try done. rewrite Hfg by (by eapply read_optional_length). done.
Qed.
Lemma read_components_length fuel data cs c :
  read_components fuel data = Some cs -> c ∈ cs -> (length (comp_data c) <= length data)%nat.
Proof.
  revert data cs. induction fuel as [|fuel IH]; intros data cs E Hc; (destruct data as [|b data]; [cbn in E; simplify_eq; by apply not_elem_of_nil in Hc|]);
    [done|]. cbn [read_components] in E. set (d := b :: data) in *. repeat case_match; [done..|].
  apply bind_Some in E as (cs' & E & [= <-]). apply elem_of_cons in Hc as [->|Hc].
  - cbn [comp_data]. rewrite length_take, length_drop. subst d. cbn [length]. lia.
  - pose proof (IH _ _ E Hc) as H'. rewrite !length_drop in H'. lia.
Qed.
Lemma components_loop_agree n fs gs left right :
  Forall2 (agree n) fs gs -> Forall (fun c => length (comp_data c) <= n)%nat left ->
  components_loop fs left right = components_loop gs left right.
Proof.
  intros H Hl. revert fs gs right H. induction Hl as [|c left Hc _ IH]; intros fs gs right H; [done|].
  destruct right as [|r right]; [done|]. cbn [components_loop]. destruct H as [|f g fs gs Hfg H]; cbn [tail].
  - done.
  - rewrite Hfg by done. destruct (g _ _) as [x|]; cbn; [|done]. destruct (then_with x _); [|done..]. by apply IH.
Qed.
Lemma vector_loop_agree f g size n idx left right :
  agree (length left) f g -> vector_loop f size n idx left right = vector_loop g size n idx left right.
Proof.
  intros H. revert idx. induction n as [|n IH]; intros idx; [done|]. cbn [vector_loop].
  rewrite H by (rewrite length_take, length_drop; lia). destruct (g _ _) as [[]|]; cbn; auto.
Qed.

Lemma compare_with_agree d e n t :
  (forall aliases, agree n (d aliases) (e aliases)) -> agree n (compare_with d t) (compare_with e t).
Proof.
  intros Hde. assert (Hlists : forall m ts, (m <= n)%nat -> Forall (fun t => agree n (compare_with d t) (compare_with e t)) ts ->
    Forall2 (agree m) (map (compare_with d) ts) (map (compare_with e) ts)).
  { intros m ts Hm H. apply Forall2_fmap, Forall_Forall2_diag. eapply Forall_impl; [exact H|]. intros t' Ht'. by apply (agree_weaken n). }
  induction t as [t Ht|i f IH|i f IH|k v f IHk IHv|ts IH|ts IH|k nm fs ts m IH|i IH|i dim IH] using CqlType_nested_ind;
    intros l r Hl; cbn [compare_with].
  - destruct t; try done. by apply Hde.
  - unfold cmp_collection_seq. case_match; [done|]. by rewrite (seq_loop_agree _ _ _ _ _ _ _ (agree_weaken _ _ _ _ IH Hl)).
  - unfold cmp_collection_seq. case_match; [done|]. by rewrite (seq_loop_agree _ _ _ _ _ _ _ (agree_weaken _ _ _ _ IH Hl)).
  - unfold cmp_map. case_match; [done|].
    by rewrite (map_loop_agree _ _ _ _ _ _ _ _ _ (agree_weaken _ _ _ _ IHk Hl) (agree_weaken _ _ _ _ IHv Hl)).
  - by apply cmp_tuple_agree, Hlists.
  - unfold cmp_composite. destruct (deserialize_composite l) as [cl|] eqn:E, (deserialize_composite r) as [cr|]; try done.
    rewrite (components_loop_agree (length l) _ (map (compare_with e) ts)); [done|by apply Hlists|].
    apply Forall_forall. intros c Hc. by eapply read_components_length.
  - by apply cmp_tuple_agree, Hlists.
  - by rewrite IH.
  - unfold cmp_vector. repeat case_match; try done. apply vector_loop_agree. by eapply agree_weaken.
Qed.

Lemma deserialize_header_length data aliases ty rest :
  deserialize_header data aliases = inr (ty, rest) -> (length rest + 2 <= length data)%nat.
Proof. unfold deserialize_header. repeat case_match; intros; simplify_eq; rewrite ?length_drop; bool_to_prop; lia. Qed.
Lemma read_dynamic_length fuel data aliases cs c :
  read_dynamic fuel data aliases = inr cs -> c ∈ cs -> (length (dyn_value c) < length data)%nat.
Proof.
  revert data cs. induction fuel as [|fuel IH]; intros data cs E Hc; (destruct data as [|b data]; [cbn in E; simplify_eq; by apply not_elem_of_nil in Hc|]);
    [done|]. cbn [read_dynamic] in E. set (d := b :: data) in *.
  destruct (deserialize_header d aliases) as [|[ty rest]] eqn:Eh; [done|]. apply deserialize_header_length in Eh.
  case_match; [done|]. case_match; [done|]. case_match; [done|]. simplify_eq. apply elem_of_cons in Hc as [->|Hc].
  - cbn [dyn_value]. rewrite length_take, length_drop. lia.
  - match goal with E : read_dynamic _ _ _ = inr _ |- _ => pose proof (IH _ _ E Hc) as H' end. rewrite !length_drop in H'. lia.
Qed.
Lemma dynamic_loop_agree n (f g : CqlType -> comparator) left right :
  (forall t, agree n (f t) (g t)) -> Forall (fun c => length (dyn_value c) <= n)%nat left ->
  dynamic_loop f left right = dynamic_loop g left right.
Proof.
  intros H Hl. revert right. induction Hl as [|c left Hc _ IH]; intros right; [done|]. destruct right as [|r right]; [done|].
  cbn [dynamic_loop]. destruct (if decide _ then _ else _); [|done..]. rewrite H by done.
  destruct (g _ _ _) as [x|]; cbn; [|done]. destruct (then_with x _); [apply IH|done..].
Qed.

(** Any fuel above the length of the left value gives the same result. *)
Lemma compare_fuel_enough n m t l r : (length l < n)%nat -> (length l < m)%nat -> compare_fuel n t l r = compare_fuel m t l r.
Proof.
  revert m t l r. induction n as [|n IH]; intros [|m] t l r Hn Hm; [lia..|]. cbn [compare_fuel].
  apply (compare_with_agree _ _ (length l)); [|done]. intros aliases l' r' Hl'. unfold cmp_dynamic_composite.
  destruct (deserialize_dynamic_composite l' aliases) as [|cl] eqn:E, (deserialize_dynamic_composite r' aliases) as [|cr]; try done.
  destruct l' as [|b l']; [cbn in E; by simplify_eq|]. cbn [length] in Hl'.
  rewrite (dynamic_loop_agree (length l') _ (compare_fuel m)); [done| |].
  - intros u x y Hx. apply IH; lia.
  - apply Forall_forall. intros c Hc. pose proof (read_dynamic_length _ _ _ _ _ E Hc) as H. cbn [length] in H. lia.
Qed.

(** Composites are read back; any fuel not below the number of components is enough. *)
Lemma read_components_serialized fuel cs :
  Forall (fun c => Z.of_nat (length (comp_data c)) < 2 ^ 16) cs -> (length cs <= fuel)%nat ->
  read_components fuel (serialize_composite cs) = Some cs.
Proof.
  intros Hcs. revert fuel. induction Hcs as [|[d eoc] cs Hd _ IH]; intros fuel Hf; [by destruct fuel|].
  destruct fuel as [|fuel]; cbn [length] in Hf; [lia|]. unfold serialize_composite. rewrite fmap_cons, mjoin_cons.
  change (mjoin _) with (serialize_composite cs). cbn [comp_data comp_eoc] in *. rewrite <- !app_assoc.
  rewrite wrap_u_id by (unfold in_u; lia). cbn [read_components].
  set (rest := [eoc] ++ serialize_composite cs). set (len := write_be 2 (Z.of_nat (length d))).
  assert (length len = 2%nat) as Hlen by (apply length_write_be).
  assert (read_u len = Z.of_nat (length d)) as Hread by (apply read_u_write; unfold in_u; lia).
  destruct (len ++ d ++ rest) as [|x l] eqn:E; [by destruct len|]. rewrite <- E. clear E x l.
  rewrite (take_field 2), (drop_field_0 2), Hread, Nat2Z.id by done. rewrite !length_app, Hlen.
  rewrite (proj2 (Nat.ltb_ge _ _)), (proj2 (Nat.ltb_ge _ _)) by (subst rest; cbn [app length]; lia).
  rewrite (drop_field (length d) 1 d rest), (take_field (length d)) by done.
  rewrite app_nth2, Nat.sub_diag by lia. subst rest. cbn [app drop nth]. rewrite drop_0, IH by lia. done.
Qed.
Lemma composite_roundtrip cs :
  Forall (fun c => Z.of_nat (length (comp_data c)) < 2 ^ 16) cs -> deserialize_composite (serialize_composite cs) = Some cs.
Proof.
  intros Hcs. apply read_components_serialized; [done|]. clear. induction cs as [|c cs IH]; [done|].
  unfold serialize_composite. rewrite fmap_cons, mjoin_cons, length_app. fold (serialize_composite cs). cbn. lia.
Qed.

(** * The integer types compare as their values *)

Definition top (a : Z) : Z := if a <? 128 then a else a - 256.

(** A big-endian two's complement integer without a redundant first byte. *)
Definition minimal (data : list Z) : bool :=
  match data with
  | [] => false
  | [_] => true
  | a :: c :: _ => negb ((a =? 0) && (c <? 128)) && negb ((a =? 255) && negb (c <? 128))
  end.

Lemma read_s_cons a l : bytes_ok (a :: l) -> read_s (a :: l) = top a * 256 ^ Z.of_nat (length l) + be_val l.
Proof.
  intros Hb. pose proof (be_val_range _ Hb) as H. apply Forall_cons in Hb as [Ha Hl].
  pose proof (be_val_range _ Hl). unfold read_s, wrap_s, top, in_u in *. rewrite <- pow256_pow2, Z.mod_small by done.
  assert (2 ^ (8 * Z.of_nat (length (a :: l)) - 1) = 128 * 256 ^ Z.of_nat (length l)) as ->.
  { rewrite pow256_pow2. change 128 with (2 ^ 7). rewrite <- Z.pow_add_r by lia. f_equal. cbn [length]. lia. }
  rewrite be_val_cons. cbn [length]. rewrite pow256_S. z_tests; nia.
Qed.

(** The 256 bytes, by evaluation. *)
Lemma all_bytes (P : Z -> bool) : forallb P (seqZ 0 256) = true -> forall b, is_u8 b -> P b = true.
Proof.
  rewrite List.forallb_forall. intros H b Hb. apply H, list_elem_of_In, elem_of_seqZ. unfold in_u in Hb. lia.
Qed.

Lemma sign_land a : is_u8 a -> negb (Z.land a 128 =? 0) = negb (a <? 128).
Proof.
  intros Ha.
  by apply Bool.eqb_prop, (all_bytes (fun a => Bool.eqb (negb (Z.land a 128 =? 0)) (negb (a <? 128)))).
Qed.
Lemma flip_top b : is_u8 b -> Z.lxor b 128 = top b + 128.
Proof. intros Hb. by apply Z.eqb_eq, (all_bytes (fun b => Z.lxor b 128 =? top b + 128)). Qed.
Lemma wrap_s_top b : is_u8 b -> wrap_s 8 b = top b.
Proof. intros Hb. by apply Z.eqb_eq, (all_bytes (fun b => wrap_s 8 b =? top b)). Qed.

(** The least magnitude of a minimal integer of more than one byte. *)
Lemma minimal_bound a l :
  bytes_ok (a :: l) -> minimal (a :: l) = true -> (0 < length l)%nat ->
  let p := 128 * 256 ^ Z.of_nat (length l - 1) in
  if a <? 128 then p <= read_s (a :: l) else read_s (a :: l) < - p.
Proof.
  intros Hb Hm Hlen. rewrite read_s_cons by done. destruct l as [|c l]; [cbn in Hlen; lia|].
  apply Forall_cons in Hb as [Ha Hb]. pose proof (be_val_range _ Hb) as Hr.
  rewrite be_val_cons in *. apply Forall_cons in Hb as [Hc Hl]. pose proof (be_val_range _ Hl).
  unfold in_u, top, minimal in *. cbn [length] in *. rewrite Nat.sub_succ, Nat.sub_0_r, pow256_S in *.
  apply andb_true_iff in Hm as [Hm1%negb_true_iff Hm2%negb_true_iff].
  pose proof (pow256 (length l)). destruct (Z.ltb_spec a 128), (Z.ltb_spec c 128); cbn [negb] in *;
    rewrite ?andb_true_r in *; bool_to_prop; nia.
Qed.

Lemma read_s_bound a l :
  bytes_ok (a :: l) -> let p := 128 * 256 ^ Z.of_nat (length l) in
  if a <? 128 then 0 <= read_s (a :: l) < p else - p <= read_s (a :: l) < 0.
Proof.
  intros Hb. rewrite read_s_cons by done. apply Forall_cons in Hb as [Ha Hl]. pose proof (be_val_range _ Hl).
  unfold in_u, top in *. case_tests; bool_to_prop; nia.
Qed.

(** The lengths decide between minimal integers of one sign. *)
Lemma minimal_length a l b r :
  bytes_ok (a :: l) -> bytes_ok (b :: r) -> minimal (b :: r) = true -> (a <? 128) = (b <? 128) ->
  (length l < length r)%nat ->
  if a <? 128 then read_s (a :: l) < read_s (b :: r) else read_s (b :: r) < read_s (a :: l).
Proof.
  intros Hl Hr Hm Es Hlen. pose proof (minimal_bound b r Hr Hm ltac:(lia)) as Hb. pose proof (read_s_bound a l Hl) as Ha.
  assert (256 ^ Z.of_nat (length l) <= 256 ^ Z.of_nat (length r - 1)) by (apply Z.pow_le_mono_r; lia).
  cbn zeta in *. rewrite <- Es in Hb. destruct (a <? 128); lia.
Qed.

(** Integers of one length: the first byte is signed, the others are not. *)
Lemma read_s_cmp l r :
  bytes_ok l -> bytes_ok r -> length l = length r ->
  Z.compare (read_s l) (read_s r) =
    match l, r with a :: l', b :: r' => then_with (cmp (top a) (top b)) (cmp l' r') | _, _ => Eq end.
Proof.
  intros Hl Hr E. destruct l as [|a l], r as [|b r]; try done. injection E as E.
  rewrite !read_s_cons by done. apply Forall_cons in Hl as [Ha Hl], Hr as [Hb Hr].
  rewrite be_val_cmp by done. pose proof (be_val_range _ Hl). pose proof (be_val_range _ Hr). rewrite E in *.
  unfold cmp, Z_ord. destruct (Z.compare_spec (top a) (top b)) as [->|?|?]; cbn [then_with].
  - apply Z.add_compare_mono_l.
  - apply Z.compare_lt_iff. nia.
  - apply Z.compare_gt_iff. nia.
Qed.

Lemma cmp_signed_value n l r :
  bytes_ok l -> bytes_ok r -> length l = n -> length r = n ->
  cmp_signed_fixed n l r = Some (Z.compare (read_s l) (read_s r)).
Proof.
  intros Hl Hr El Er. unfold cmp_signed_fixed. rewrite !slice_full by done. cbn [mbind option_bind].
  rewrite cmp_app, read_s_cmp by (done || lia). destruct l as [|a l], r as [|b r]; cbn in El, Er; [done|lia..|].
  apply Forall_cons in Hl as [Ha _], Hr as [Hb _]. unfold flip_sign. rewrite cmp_cons, !flip_top by done.
  unfold cmp at 1 3, Z_ord. by rewrite (Z.add_comm (top a)), (Z.add_comm (top b)), Z.add_compare_mono_l.
Qed.

Lemma cmp_varint_value l r :
  bytes_ok l -> bytes_ok r -> minimal l = true -> minimal r = true ->
  cmp_varint l r = Z.compare (read_s l) (read_s r).
Proof.
  intros Hl Hr Ml Mr. destruct l as [|a l], r as [|b r]; try done. unfold cmp_varint.
  pose proof (read_s_bound a l Hl) as Bl. pose proof (read_s_bound b r Hr) as Br.
  pose proof Hl as [Ha _]%Forall_cons. pose proof Hr as [Hb _]%Forall_cons. rewrite !sign_land by done.
  pose proof (minimal_length a l b r Hl Hr Mr) as Hlr. pose proof (minimal_length b r a l Hr Hl Ml) as Hrl.
  pose proof (read_s_cmp (a :: l) (b :: r) Hl Hr) as Heq. cbn [length] in *. unfold top in Heq.
  destruct (a <? 128) eqn:Ea, (b <? 128) eqn:Eb; cbn [negb andb CompOpp];
    try (symmetry; apply Z.compare_lt_iff; lia); try (symmetry; apply Z.compare_gt_iff; lia);
    cbn [length]; destruct (Nat.compare_spec (S (length l)) (S (length r))) as [E|E|E]; cbn [CompOpp then_with];
    try (symmetry; apply Z.compare_lt_iff; lia); try (symmetry; apply Z.compare_gt_iff; lia);
    rewrite Heq, cmp_cons by lia; [done|]. f_equal. unfold cmp, Z_ord.
  rewrite <- (Z.add_compare_mono_l (-256) a b). f_equal; lia.
Qed.

Definition integer_type (cql_type : CqlType) : bool :=
  match cql_type with
  | TinyintT | SmallintT | IntT | BigintT | TimestampT | TimeT | CounterT | VarintT => true
  | _ => false
  end.
Definition integer_ok (cql_type : CqlType) (data : list Z) : Prop :=
  bytes_ok data /\ match CqlType_fixed_size cql_type with Some n => length data = n | None => minimal data = true end.

(** The comparator orders the serialized integers of every integer type, of
    fixed or variable size, as the numbers they are: it returns the comparison of the
    two's complement values, for values of the size of their type and varints with
    no redundant first byte. *)
Theorem integer_order t left right :
  integer_type t = true -> integer_ok t left -> integer_ok t right ->
  compare_bytes t left right = Some (Z.compare (read_s left) (read_s right)).
Proof.
  intros Ht [Hl El] [Hr Er]. destruct t; try done; unfold compare_bytes; cbn [compare_fuel compare_with CqlType_fixed_size] in *;
    try (by apply cmp_signed_value).
  - by rewrite cmp_varint_value.
  - by destruct left as [|a [|]], right as [|b [|]].
Qed.

(** -129 and -128: the longer varint is the smaller. *)
Lemma integer_order_witness : compare_bytes VarintT [255; 127] [128] = Some Lt.
Proof.
  rewrite (integer_order VarintT); [reflexivity|reflexivity|..];
    (split; [repeat (constructor; [unfold in_u; lia|]); constructor|reflexivity]).
Defined.
