(* ===== verification/ByteComparable.v ===== *)
(** * Order-preserving encodings

    crates/cassandra-types/src/byte_comparable.rs: byte strings whose unsigned
    lexicographic order is the order [compare_bytes] of Comparator gives the
    values.  The theorems say for which types and values this holds, that it
    extends to sequences of components, and what the separators and successors
    of encoded keys are. *)
From S2P Require Export Comparator.

Definition SEPARATOR : Z := 64.
Definition TERMINATOR : Z := 56.
Definition BYTE_SOURCE_END : Z := -1.

(** [!b] on a [w]-bit word *)
Definition not_u (w z : Z) : Z := wrap_u w (Z.lnot z).

(** The prefix of [data] a big-endian read takes; short data is kept. *)
Definition encode_float_bits (n : nat) (data : list Z) : list Z :=
  if (length data <? n)%nat then data
  else
    let w := 8 * Z.of_nat n in
    let bits := read_u (take n data) in
    write_be n (if negb (Z.land bits (2 ^ (w - 1)) =? 0) then not_u w bits else Z.lxor bits (2 ^ (w - 1))).
Definition encode_float32 : list Z -> list Z := encode_float_bits 4.
Definition encode_float64 : list Z -> list Z := encode_float_bits 8.

Definition encode_signed_int (data : list Z) : list Z := flip_sign data.
Definition decode_signed_int (data : list Z) : list Z := flip_sign data.

Fixpoint encode_byte_string (data : list Z) : list Z :=
  match data with
  | [] => [0; 0]
  | b :: data => b :: (if b =? 0 then [255] else []) ++ encode_byte_string data
  end.

Definition uuid_version (data : list Z) : Z := Z.land (Z.shiftr (nth 6 data 0) 4) 15.
Definition encode_uuid (data : list Z) : list Z :=
  if negb (length data =? 16)%nat then data else uuid_version data :: data.

Definition encode_varint (data : list Z) : list Z :=
  match data with
  | [] => [128]
  | b :: _ =>
      let len := wrap_u 8 (Z.of_nat (length data)) in
      (if negb (Z.land b 128 =? 0) then wrap_u 8 (128 - len) else wrap_u 8 (128 + len)) :: data
  end.

(** The elements of a vector from index [idx] on, each encoded. *)
Fixpoint encode_elements (encode : list Z -> list Z) (size n idx : nat) (data : list Z) : list Z :=
  match n with
  | O => []
  | S n => encode (take size (drop (idx * size) data)) ++ encode_elements encode size n (S idx) data
  end.
Definition encode_vector (encode : list Z -> list Z) (fixed_size : option nat) (dimensions : nat) (data : list Z)
    : list Z :=
  match fixed_size with
  | None => data
  | Some size =>
      if negb (length data =? size * dimensions)%nat then data else encode_elements encode size dimensions 0 data
  end.

Fixpoint encode_byte_comparable (cql_type : CqlType) (data : list Z) : list Z :=
  match cql_type with
  | TinyintT | SmallintT | IntT | DateT | BigintT | TimestampT | TimeT | CounterT => encode_signed_int data
  | FloatT => encode_float32 data
  | DoubleT => encode_float64 data
  | AsciiT | VarcharT | BlobT => encode_byte_string data
  | UuidT | TimeuuidT => encode_uuid data
  | BooleanT => data
  | VarintT => encode_varint data
  | ReversedT inner => not_u 8 <$> encode_byte_comparable inner data
  | VectorT inner dimensions => encode_vector (encode_byte_comparable inner) (CqlType_fixed_size inner) dimensions data
  | _ => data
  end.

Fixpoint separate (components : list (list Z)) : list Z :=
  match components with
  | [] => []
  | [component] => component
  | component :: components => component ++ SEPARATOR :: separate components
  end.
Definition encode_components (components : list (list Z)) : list Z := separate components ++ [TERMINATOR].
Definition encode_typed_components (components : list (CqlType * list Z)) : list Z :=
  encode_components ((fun '(ty, data) => encode_byte_comparable ty data) <$> components).

Fixpoint common_prefix (a b : list Z) : nat :=
  match a, b with
  | x :: a, y :: b => if x =? y then S (common_prefix a b) else 0
  | _, _ => 0
  end.
Definition separator_between (previous next : list Z) : list Z :=
  if is_ge (cmp previous next) then next
  else
    let common := common_prefix previous next in
    if (common =? length previous)%nat then previous
    else
      let prev_byte := nth common previous 0 in
      let next_byte := nth common next 0 in
      if (prev_byte <? 255) && (prev_byte + 1 <? next_byte) then take common previous ++ [prev_byte + 1]
      else
        let separator := take (S common) next in
        if is_le (cmp separator previous) then next else separator.

Fixpoint rposition {A} (f : A -> bool) (l : list A) : option nat :=
  match l with
  | [] => None
  | x :: l => match rposition f l with Some i => Some (S i) | None => if f x then Some 0%nat else None end
  end.
Definition successor (key : list Z) : option (list Z) :=
  idx ← rposition (fun byte => negb (byte =? 255)) key;
  let result := take (S idx) key in
  Some (<[idx := nth idx result 0 + 1]> result).

(** ** The cursor *)
Record ByteSource := mkByteSource { bs_bytes : list Z; bs_offset : nat }.
Definition ByteSource_new (bytes : list Z) : ByteSource := mkByteSource bytes 0.
Definition ByteSource_from_value (cql_type : CqlType) (data : list Z) : ByteSource :=
  ByteSource_new (encode_byte_comparable cql_type data).
Definition ByteSource_peek (self : ByteSource) : Z := default BYTE_SOURCE_END (bs_bytes self !! bs_offset self).
Definition ByteSource_next_byte (self : ByteSource) : Z * ByteSource :=
  match bs_bytes self !! bs_offset self with
  | None => (BYTE_SOURCE_END, self)
  | Some byte => (byte, mkByteSource (bs_bytes self) (S (bs_offset self)))
  end.
Definition ByteSource_reset (self : ByteSource) : ByteSource := mkByteSource (bs_bytes self) 0.
Definition ByteSource_is_exhausted (self : ByteSource) : bool := (length (bs_bytes self) <=? bs_offset self)%nat.
Definition ByteSource_remaining (self : ByteSource) : list Z := drop (bs_offset self) (bs_bytes self).

(** * Sequences that differ at a position, or not at all

    No one is a proper prefix of the other: what follows them decides only
    between equal ones. *)

Inductive separated : list Z -> list Z -> Prop :=
| separated_nil : separated [] []
| separated_ne x y u v : x <> y -> separated (x :: u) (y :: v)
| separated_cons x u v : separated u v -> separated (x :: u) (x :: v).
#[export] Hint Constructors separated : cass.

Lemma separated_length u v : length u = length v -> separated u v.
Proof.
  revert v. induction u as [|x u IH]; intros [|y v] E; simplify_eq/=; auto with cass.
  destruct (decide (x = y)) as [->|]; auto with cass.
Qed.

Lemma separated_app u v s t : separated u v -> separated s t -> separated (u ++ s) (v ++ t).
Proof. induction 1; cbn [app]; auto with cass. Qed.

Lemma cmp_separated_app u v s t : separated u v -> cmp (u ++ s) (v ++ t) = then_with (cmp u v) (cmp s t).
Proof.
  induction 1 as [|x y u v Hne|x u v _ IH]; cbn [app]; [done|..]; rewrite !cmp_cons.
  - rewrite !then_with_ne by done. by destruct (cmp x y) eqn:E; [apply cmp_eq in E|..].
  - by rewrite !then_with_refl.
Qed.

Lemma not_u_eq w z : 0 <= w -> in_u w z -> not_u w z = 2 ^ w - 1 - z.
Proof.
  unfold in_u, not_u, Z.lnot, wrap_u. intros Hw Hz.
  rewrite <- (Z_mod_plus_full (Z.pred (- z)) 1), Z.mod_small; lia.
Qed.
Lemma not_u8 b : is_u8 b -> not_u 8 b = 255 - b.
Proof. intros. by rewrite not_u_eq by done. Qed.

Lemma separated_not u v :
  separated u v -> bytes_ok u -> bytes_ok v ->
  separated (not_u 8 <$> u) (not_u 8 <$> v) /\ cmp (not_u 8 <$> u) (not_u 8 <$> v) = CompOpp (cmp u v).
Proof.
  induction 1 as [|x y u v Hne|x u v _ IH]; intros Hu Hv; [auto with cass|..];
    apply Forall_cons in Hu as [Hx Hu], Hv as [Hy Hv]; rewrite !fmap_cons, !cmp_cons, !not_u8 by done.
  - split; [constructor; lia|]. rewrite !then_with_ne by lia. unfold cmp, Z_ord.
    rewrite <- Z.compare_antisym, (Z.compare_sub y x), (Z.compare_sub (255 - x)). f_equal. lia.
  - destruct IH as [IH1 IH2]; [done..|]. rewrite !then_with_refl. auto with cass.
Qed.

(** * The encoders *)

Lemma land_pow2 k z : 0 <= k -> in_u (k + 1) z -> negb (Z.land z (2 ^ k) =? 0) = negb (z <? 2 ^ k).
Proof.
  unfold in_u. intros Hk Hz. rewrite Z.pow_add_r, Z.pow_1_r in Hz by lia.
  assert (E : Z.testbit z k = negb (z <? 2 ^ k)).
  { rewrite <- Z.div_pow2_bits with (m := 0) (n := k), Z.bit0_odd by lia. destruct (Z.ltb_spec z (2 ^ k)); cbn.
    - by rewrite Z.div_small by lia.
    - assert (z / 2 ^ k = 1) as -> by (symmetry; apply (Z.div_unique_pos _ _ _ (z - 2 ^ k)); lia). done. }
  rewrite <- E. destruct (Z.testbit z k) eqn:Ht.
  - destruct (Z.eqb_spec (Z.land z (2 ^ k)) 0) as [E0|]; [|done].
    apply (f_equal (fun x => Z.testbit x k)) in E0. rewrite Z.land_spec, Ht, Z.pow2_bits_true, Z.bits_0 in E0 by done. done.
  - assert (Z.land z (2 ^ k) = 0) as ->; [|done]. apply Z.bits_inj'. intros n Hn.
    rewrite Z.land_spec, Z.pow2_bits_eqb, Z.bits_0 by done. destruct (Z.eqb_spec k n) as [->|]; [by rewrite Ht|].
    apply andb_false_r.
Qed.

Lemma lxor_ones k z : 0 <= k -> in_u k z -> Z.lxor z (Z.ones k) = Z.ones k - z.
Proof.
  unfold in_u. intros Hk Hz. assert (Hlow : forall n, k <= n -> Z.testbit z n = false).
  { intros n Hn. rewrite <- (Z.mod_small z (2 ^ k)) by done. apply Z.mod_pow2_bits_high. lia. }
  rewrite Z.sub_nocarry_ldiff; apply Z.bits_inj'; intros n Hn;
    rewrite ?Z.lxor_spec, ?Z.ldiff_spec, ?Z.bits_0;
    (destruct (Z.lt_ge_cases n k);
     [rewrite Z.ones_spec_low by lia; by destruct (Z.testbit z n)
     |by rewrite Z.ones_spec_high, Hlow by lia]).
Qed.

(** The encoded bits are the key of [total_cmp], moved to the unsigned range. *)
Lemma float_bits_key w bits :
  1 < w -> in_u w bits ->
  (if negb (Z.land bits (2 ^ (w - 1)) =? 0) then not_u w bits else Z.lxor bits (2 ^ (w - 1)))
  = total_key w bits + 2 ^ (w - 1) /\ in_s w (total_key w bits).
Proof.
  intros Hw Hb. pose proof (pow2_half w ltac:(lia)) as Hp. pose proof Hb as Hb'. unfold in_u in Hb'.
  rewrite land_pow2 by (try (replace (w - 1 + 1) with w by lia); done || lia).
  unfold total_key, wrap_s, in_s. rewrite (Z.mod_small bits) by done.
  destruct (Z.ltb_spec bits (2 ^ (w - 1))); cbn [negb].
  - rewrite (Z.shiftr_div_pow2 bits), (Z.div_small bits) by lia. unfold wrap_u. rewrite Z.mod_0_l by lia.
    rewrite Z.shiftr_0_l, Z.lxor_0_r. split; [|lia]. rewrite Z.lxor_comm, Z.lxor_lor.
    + rewrite <- (Z.mul_1_l (2 ^ (w - 1))), lor_add; lia.
    + rewrite Z.land_comm. apply Z.bits_inj'. intros n Hn. rewrite Z.land_spec, Z.pow2_bits_eqb, Z.bits_0 by lia.
      destruct (Z.eqb_spec (w - 1) n) as [<-|]; [|apply andb_false_r].
      rewrite <- (Z.mod_small bits (2 ^ (w - 1))) by lia. by rewrite Z.mod_pow2_bits_high by lia.
  - rewrite not_u_eq by (done || lia). rewrite (Z.shiftr_div_pow2 (bits - _)) by lia.
    assert ((bits - 2 ^ w) / 2 ^ (w - 1) = -1) as ->.
    { symmetry. apply (Z.div_unique_pos _ _ _ (bits - 2 ^ (w - 1))); lia. }
    assert (Z.shiftr (wrap_u w (-1)) 1 = Z.ones (w - 1)) as ->.
    { unfold wrap_u. rewrite <- (Z_mod_plus_full (-1) 1), Z.mod_small, Z.shiftr_div_pow2, Z.ones_equiv by lia.
      symmetry. apply (Z.div_unique_pos _ _ _ 1); lia. }
    rewrite <- (Z.lnot_involutive (bits - 2 ^ w)), <- Z.lnot_lxor_l, lxor_ones, Z.ones_equiv by (unfold in_u, Z.lnot; lia).
    unfold Z.lnot. lia.
Qed.

(** The comparison [c] is the order of the encodings [u] and [v], whatever follows them. *)
Definition preserved (c : option comparison) (u v : list Z) : Prop := c = Some (cmp u v) /\ separated u v.

Lemma length_flip (l : list Z) : length (flip_sign l) = length l.
Proof. by destruct l. Qed.

Lemma signed_preserved n l r :
  length l = n -> length r = n -> preserved (cmp_signed_fixed n l r) (encode_signed_int l) (encode_signed_int r).
Proof.
  intros El Er. unfold cmp_signed_fixed, encode_signed_int. rewrite (slice_full n l), (slice_full n r) by done.
  cbn [mbind option_bind]. rewrite cmp_app. split; [done|]. apply separated_length. rewrite !length_flip. lia.
Qed.

Lemma float_preserved n l r :
  (0 < n)%nat -> length l = n -> length r = n -> bytes_ok l -> bytes_ok r ->
  preserved (cmp_total n l r) (encode_float_bits n l) (encode_float_bits n r).
Proof.
  intros Hn El Er Hl Hr. unfold cmp_total, encode_float_bits, slice_to.
  rewrite El, Er, Nat.ltb_irrefl, !take_ge by lia. cbn [mbind option_bind].
  assert (Hkey : forall d, length d = n -> bytes_ok d -> in_u (8 * Z.of_nat n) (read_u d)).
  { intros d <- Hd. unfold in_u. rewrite <- pow256_pow2. by apply be_val_range. }
  destruct (float_bits_key (8 * Z.of_nat n) (read_u l)) as [-> Hkl]; [lia|by apply Hkey|].
  destruct (float_bits_key (8 * Z.of_nat n) (read_u r)) as [-> Hkr]; [lia|by apply Hkey|].
  pose proof (pow2_half (8 * Z.of_nat n) ltac:(lia)) as Hp. unfold in_s in Hkl, Hkr.
  split; [|apply separated_length; by rewrite !length_write_be].
  f_equal. unfold write_be. rewrite be_val_cmp by (auto with cass; by rewrite !length_be_bytes).
  rewrite !be_val_bytes, pow256_pow2, !Z.mod_small by lia. by rewrite Z.add_comm, (Z.add_comm (total_key _ (read_u r))), Z.add_compare_mono_l.
Qed.

Lemma string_preserved l r :
  bytes_ok l -> bytes_ok r -> preserved (Some (cmp l r)) (encode_byte_string l) (encode_byte_string r).
Proof.
  intros Hl. revert r. induction Hl as [|b l Hb Hl IH]; intros r Hr; destruct Hr as [|c r Hc Hr]; unfold in_u in *.
  - split; [done|by apply separated_length].
  - cbn [encode_byte_string]. destruct (Z.eqb_spec c 0) as [->|Hne]; cbn [app].
    + split; [done|]. by apply separated_cons, separated_ne.
    + split; [|by constructor]. rewrite cmp_cons, then_with_ne by done.
      f_equal. symmetry. apply Z.compare_lt_iff. lia.
  - cbn [encode_byte_string]. destruct (Z.eqb_spec b 0) as [->|Hne]; cbn [app].
    + split; [done|]. by apply separated_cons, separated_ne.
    + split; [|by constructor]. rewrite cmp_cons, then_with_ne by done.
      f_equal. symmetry. apply Z.compare_gt_iff. lia.
  - destruct (IH r Hr) as [[= E] Hs]. cbn [encode_byte_string]. destruct (decide (b = c)) as [->|Hne].
    + split; [|apply separated_cons, separated_app; [by apply separated_length|done]].
      by rewrite !cmp_cons, !then_with_refl, cmp_app, E.
    + split; [by rewrite !cmp_cons, !then_with_ne|by constructor].
Qed.

Lemma uuid_preserved l r :
  length l = 16%nat -> length r = 16%nat -> preserved (cmp_uuid l r) (encode_uuid l) (encode_uuid r).
Proof.
  intros El Er. unfold cmp_uuid, encode_uuid, uuid_version. rewrite El, Er. cbn [Nat.eqb negb].
  destruct (lookup_lt_is_Some_2 l 6) as [a Ha]; [lia|]. destruct (lookup_lt_is_Some_2 r 6) as [b Hb]; [lia|].
  rewrite Ha, Hb, (nth_lookup_Some _ _ _ _ Ha), (nth_lookup_Some _ _ _ _ Hb). cbn [mbind option_bind]. split.
  - rewrite cmp_cons. case_tests; bool_to_prop; subst.
    + by rewrite then_with_ne by done.
    + match goal with E : _ = _ |- _ => rewrite E end. by rewrite then_with_refl.
  - apply separated_length. cbn. lia.
Qed.

Lemma varint_preserved l r :
  (1 <= length l <= 127)%nat -> (1 <= length r <= 127)%nat ->
  preserved (Some (cmp_varint l r)) (encode_varint l) (encode_varint r).
Proof.
  intros Hl Hr. destruct l as [|a l], r as [|b r]; cbn [length] in Hl, Hr; [lia..|].
  unfold encode_varint, cmp_varint. set (u := a :: l) in *. set (v := b :: r) in *.
  assert (Z.of_nat (length u) = Z.of_nat (length l) + 1) as Eu by (cbn; lia).
  assert (Z.of_nat (length v) = Z.of_nat (length r) + 1) as Ev by (cbn; lia).
  rewrite !(wrap_u_id 8 (Z.of_nat _)) by (unfold in_u; lia).
  rewrite !(wrap_u_id 8 (128 - _)), !(wrap_u_id 8 (128 + _)) by (unfold in_u; lia).
  rewrite <- Nat2Z.inj_compare. clearbody u v.
  destruct (negb (Z.land a 128 =? 0)), (negb (Z.land b 128 =? 0)); cbn [andb negb]; split;
    try (f_equal; symmetry; rewrite cmp_cons, then_with_ne by lia);
    try (by apply Z.compare_lt_iff; lia); try (by apply Z.compare_gt_iff; lia);
    try (apply separated_ne; lia);
    try (destruct (decide (length u = length v)) as [E|E];
      [rewrite E; apply separated_cons, separated_length; done|apply separated_ne; lia]);
    rewrite cmp_cons; f_equal; f_equal; unfold cmp at 1, Z_ord.
  - rewrite <- Z.compare_antisym, (Z.compare_sub (Z.of_nat (length v))), (Z.compare_sub (128 - _)). f_equal. lia.
  - by rewrite Z.add_compare_mono_l.
Qed.

Section vector.
Context (inner : comparator) (encode : list Z -> list Z) (size : nat).
Hypothesis inner_preserved : forall l r,
  length l = size -> length r = size -> bytes_ok l -> bytes_ok r -> preserved (inner l r) (encode l) (encode r).

Lemma vector_preserved n idx l r :
  length l = ((idx + n) * size)%nat -> length r = ((idx + n) * size)%nat -> bytes_ok l -> bytes_ok r ->
  preserved (vector_loop inner size n idx l r) (encode_elements encode size n idx l) (encode_elements encode size n idx r).
Proof.
  intros El Er Hl Hr. revert idx El Er. induction n as [|n IH]; intros idx El Er; [by split; constructor|].
  cbn [vector_loop encode_elements].
  assert (Hchunk : forall d : list Z, length d = ((idx + S n) * size)%nat -> length (take size (drop (idx * size) d)) = size).
  { intros d Ed. rewrite length_take, length_drop. nia. }
  destruct (inner_preserved (take size (drop (idx * size) l)) (take size (drop (idx * size) r))) as [-> Hs];
    [auto; apply Forall_take, Forall_drop; done ..|].
  destruct (IH (S idx)) as [E Hs']; [rewrite <- Nat.add_succ_comm in El; lia|rewrite <- Nat.add_succ_comm in Er; lia|].
  split; [|by apply separated_app]. rewrite cmp_separated_app by done. cbn [mbind option_bind].
  by destruct (cmp (encode _) (encode _)).
Qed.
End vector.

(** * The types whose order the encoding preserves *)

Fixpoint order_preserving (cql_type : CqlType) : bool :=
  match cql_type with
  | TinyintT | SmallintT | IntT | BigintT | TimestampT | TimeT | CounterT | FloatT | DoubleT
  | AsciiT | VarcharT | BlobT | UuidT | BooleanT | VarintT | EmptyT => true
  | ReversedT inner => order_preserving inner
  | VectorT inner _ => order_preserving inner && bool_decide (is_Some (CqlType_fixed_size inner))
  | _ => false
  end.

(** The serialized values: of the size of their type where it has one, and
    varints whose length fits the prefix. *)
Fixpoint sized (cql_type : CqlType) (data : list Z) : bool :=
  match cql_type with
  | ReversedT inner => sized inner data
  | VarintT => (1 <=? length data)%nat && (length data <=? 127)%nat
  | _ => match CqlType_fixed_size cql_type with Some n => (length data =? n)%nat | None => true end
  end.
Definition value_ok (cql_type : CqlType) (data : list Z) : Prop := bytes_ok data /\ sized cql_type data = true.

Lemma sized_fixed t n data : CqlType_fixed_size t = Some n -> length data = n -> sized t data = true.
Proof. intros E Hn. destruct t; try done; unfold sized; rewrite E; by apply Nat.eqb_eq. Qed.

Lemma bytes_ok_app l r : bytes_ok l -> bytes_ok r -> bytes_ok (l ++ r).
Proof. apply Forall_app_2. Qed.
#[export] Hint Resolve bytes_ok_app : cass.

Lemma flip_bytes_ok l : bytes_ok l -> bytes_ok (flip_sign l).
Proof.
  destruct 1 as [|b l Hb Hl]; constructor; [|done]. rewrite flip_top by done. unfold in_u, top in *. case_tests; bool_to_prop; lia.
Qed.
Lemma byte_string_ok l : bytes_ok l -> bytes_ok (encode_byte_string l).
Proof.
  induction 1 as [|b l Hb Hl IH]; [repeat (constructor; [unfold in_u; lia|]); constructor|].
  constructor; [done|]. apply Forall_app_2; [|done]. case_match; constructor; [unfold in_u; lia|constructor].
Qed.
Lemma elements_bytes_ok encode size n idx l :
  (forall d, bytes_ok d -> bytes_ok (encode d)) -> bytes_ok l -> bytes_ok (encode_elements encode size n idx l).
Proof.
  intros He Hl. revert idx. induction n as [|n IH]; intros idx; [constructor|].
  apply Forall_app_2; [|apply IH]. apply He, Forall_take, Forall_drop, Hl.
Qed.
Lemma float_bytes_ok n l : bytes_ok l -> bytes_ok (encode_float_bits n l).
Proof. intros. unfold encode_float_bits. case_match; [done|apply be_bytes_ok]. Qed.
Lemma uuid_bytes_ok l : bytes_ok l -> bytes_ok (encode_uuid l).
Proof.
  intros Hl. unfold encode_uuid. case_match; [done|]. constructor; [|done]. unfold uuid_version.
  change 15 with (Z.ones 4). rewrite Z.land_ones by lia.
  pose proof (Z.mod_pos_bound (Z.shiftr (nth 6 l 0) 4) (2 ^ 4) ltac:(lia)). unfold in_u. lia.
Qed.
Lemma varint_bytes_ok l : bytes_ok l -> bytes_ok (encode_varint l).
Proof.
  destruct 1; [constructor; [unfold in_u; lia|constructor]|].
  constructor; [case_match; by apply wrap_u_range|by constructor].
Qed.
Lemma encode_bytes_ok t data : bytes_ok data -> bytes_ok (encode_byte_comparable t data).
Proof.
  revert data. induction t; intros data Hd; cbn [encode_byte_comparable];
    try (apply float_bytes_ok; done); auto using flip_bytes_ok, byte_string_ok, uuid_bytes_ok, varint_bytes_ok.
  - apply Forall_fmap, Forall_true. intros b. by apply wrap_u_range.
  - unfold encode_vector. repeat case_match; [done| |done]. by apply elements_bytes_ok.
Qed.

Lemma sized_length t n data : CqlType_fixed_size t = Some n -> sized t data = true -> length data = n.
Proof. intros E. destruct t; try done; unfold sized; rewrite E; by intros ?%Nat.eqb_eq. Qed.

Ltac size_of_type := eapply sized_length; [|eassumption]; reflexivity.

Lemma compare_with_preserved dynamic t l r :
  order_preserving t = true -> value_ok t l -> value_ok t r ->
  preserved (compare_with dynamic t l r) (encode_byte_comparable t l) (encode_byte_comparable t r).
Proof.
  revert l r. induction t; intros l r Hop [Hl Sl] [Hr Sr]; try done; cbn [compare_with encode_byte_comparable];
    try (apply string_preserved; done);
    try (apply signed_preserved; size_of_type);
    try (apply float_preserved; try done; try lia; size_of_type);
    try (apply uuid_preserved; size_of_type).
  - apply (sized_length _ 1) in Sl, Sr; try done. destruct l as [|a [|]], r as [|b [|]]; try done.
    split; [|by apply separated_length]. cbn [lookup list_lookup mbind option_bind]. rewrite cmp_cons.
    by destruct (cmp a b) eqn:E; cbn; unfold cmp, Z_ord in E; rewrite E.
  - cbn [sized] in Sl, Sr. bool_to_prop. apply varint_preserved; lia.
  - apply (sized_length _ 1) in Sl, Sr; try done. destruct l as [|a [|]], r as [|b [|]]; try done.
    split; [|by apply separated_length]. cbn [lookup list_lookup mbind option_bind encode_signed_int flip_sign].
    unfold bytes_ok in Hl, Hr. rewrite Forall_singleton in Hl, Hr. rewrite cmp_cons, !flip_top, !wrap_s_top by done. unfold cmp at 1, Z_ord.
    rewrite (Z.add_comm _ 128), (Z.add_comm (top b)), Z.add_compare_mono_l. by destruct (_ ?= _).
  - apply (sized_length _ 0) in Sl, Sr; try done. destruct l, r; try done. split; [done|constructor].
  - cbn [order_preserving] in Hop. destruct (IHt l r) as [-> Hs]; [done..|].
    destruct (separated_not _ _ Hs) as [Hs' E]; [by apply encode_bytes_ok..|]. split; [by rewrite E|done].
  - cbn [order_preserving] in Hop. apply andb_true_iff in Hop as [Hop [n Hn]%bool_decide_eq_true].
    assert (forall d, sized (VectorT t dimensions) d = true -> length d = (n * dimensions)%nat) as Hlen.
    { intros d. apply sized_length. cbn. by rewrite Hn. }
    unfold cmp_vector, encode_vector. rewrite Hn, !Hlen, Nat.eqb_refl by done. cbn [negb orb].
    apply vector_preserved; [|rewrite Hlen by done; lia..|done|done].
    intros u v Hu Hv Bu Bv. apply IHt; [done|split; [done|by eapply sized_fixed]..].
Qed.
Lemma encode_preserved t l r :
  order_preserving t = true -> value_ok t l -> value_ok t r ->
  preserved (compare_bytes t l r) (encode_byte_comparable t l) (encode_byte_comparable t r).
Proof. apply compare_with_preserved. Qed.

(** ** Sequences of components

    The order of the values of a multi-component key: by the first component that
    differs, the shorter key first. *)
Fixpoint compare_components (types : list CqlType) (left right : list (list Z)) : option comparison :=
  match types, left, right with
  | ty :: types', l :: left', r :: right' =>
      c ← compare_bytes ty l r;
      match c with Eq => compare_components types' left' right' | c => Some c end
  | _, _, _ => Some (Nat.compare (length left) (length right))
  end.

(** A non-empty key, whose components have the first types of the list. *)
Definition key_ok (types : list CqlType) (key : list (list Z)) : Prop :=
  key <> [] /\ Forall2 value_ok (take (length key) types) key.

(** What follows the first component. *)
Lemma encode_components_cons types t d ds :
  encode_typed_components (zip (t :: types) (d :: ds))
  = encode_byte_comparable t d
    ++ match zip types ds with [] => [TERMINATOR] | _ => SEPARATOR :: encode_typed_components (zip types ds) end.
Proof.
  unfold encode_typed_components, encode_components. cbn [zip zip_with fmap list_fmap].
  destruct (zip types ds) as [|x l]; cbn [fmap list_fmap separate]; [done|]. by rewrite <- app_assoc.
Qed.

(** C33. The encoding of a key orders keys as the comparator does: for keys of
    one or more components, of types whose order it preserves and of the size
    of their types, [compare_bytes] panics on no component and the unsigned
    order of the encoded keys is the order of the keys, component by component,
    a key before those it is a prefix of. *)
Theorem typed_components_order types left right :
  Forall (fun t => order_preserving t = true) types -> key_ok types left -> key_ok types right ->
  compare_components types left right
  = Some (cmp (encode_typed_components (zip types left)) (encode_typed_components (zip types right))).
Proof.
  intros Hop. revert left right. induction Hop as [|t types Ht Hop IH]; intros ls rs [Nl Hl] [Nr Hr].
  { rewrite take_nil in Hl. by apply Forall2_nil_inv_l in Hl. }
  destruct ls as [|l ls]; [done|]. destruct rs as [|r rs]; [done|]. cbn [length take] in Hl, Hr.
  apply Forall2_cons in Hl as [Hl Hls], Hr as [Hr Hrs].
  destruct (encode_preserved t l r) as [E Hs]; [done..|]. cbn [compare_components].
  rewrite E, !encode_components_cons, cmp_separated_app by done. cbn [mbind option_bind].
  destruct (cmp (encode_byte_comparable t l) _); [|done..]. cbn [then_with].
  destruct ls as [|l' ls], rs as [|r' rs].
  - by destruct types.
  - destruct types as [|t' types]; [by apply Forall2_nil_inv_l in Hrs|done].
  - destruct types as [|t' types]; [by apply Forall2_nil_inv_l in Hls|done].
  - destruct types as [|t' types]; [by apply Forall2_nil_inv_l in Hls|].
    rewrite (IH (l' :: ls) (r' :: rs)) by (by split). cbn [zip zip_with]. by rewrite cmp_cons, then_with_refl.
Qed.

(** Two rows of a table clustered by an integer and, descending, a text. *)
Lemma typed_components_order_witness :
  compare_components [IntT; ReversedT VarcharT] [[255; 255; 255; 255]; [97]] [[255; 255; 255; 255]; [97; 98]]
  = Some Gt.
Proof.
  rewrite typed_components_order; [vm_compute; reflexivity|..].
  - repeat (constructor; [reflexivity|]). constructor.
  - split; [discriminate|]. repeat (constructor; [split; [|reflexivity]; repeat (constructor; [unfold in_u; lia|]); constructor|]). constructor.
  - split; [discriminate|]. repeat (constructor; [split; [|reflexivity]; repeat (constructor; [unfold in_u; lia|]); constructor|]). constructor.
Defined.

(** * Dates

    The comparator reads a date as an unsigned integer, the encoder flips its
    sign bit. *)

Definition sign_bit (data : list Z) : bool := bool_decide (2 ^ 31 <= read_u data).

Lemma sign_bit_cons a l : bytes_ok (a :: l) -> length l = 3%nat -> sign_bit (a :: l) = bool_decide (128 <= a).
Proof.
  intros [Ha Hl]%Forall_cons E. unfold sign_bit, read_u. rewrite be_val_cons, E.
  pose proof (be_val_range l Hl) as H. rewrite E in H. apply bool_decide_ext. cbn in *. lia.
Qed.

(** The encoding of dates puts those from 1970 on, whose unsigned number has its
    top bit set, before the earlier ones: it agrees with the comparator on two dates exactly
    when both are on the same side, and inverts the order of any two that are not. *)
Theorem date_order_inverted (left right : list Z) :
  value_ok DateT left -> value_ok DateT right ->
  let order := cmp (encode_byte_comparable DateT left) (encode_byte_comparable DateT right) in
  compare_bytes DateT left right
  = Some (if Bool.eqb (sign_bit left) (sign_bit right) then order else CompOpp order).
Proof.
  intros [Hl El%(sized_length _ 4)] [Hr Er%(sized_length _ 4)]; [|done..].
  unfold compare_bytes. cbn [compare_fuel compare_with encode_byte_comparable]. rewrite (slice_full 4 left), (slice_full 4 right) by done.
  cbn [mbind option_bind]. unfold read_u. rewrite <- be_val_cmp by (done || lia).
  destruct left as [|a l]; [done|]. destruct right as [|b r]; [done|]. injection El as El. injection Er as Er.
  rewrite !sign_bit_cons by done. unfold encode_signed_int, flip_sign.
  apply Forall_cons in Hl as [Ha _], Hr as [Hb _]. rewrite !cmp_cons, !flip_top by done.
  unfold in_u, top in *. f_equal. change (@cmp Z Z_ord) with Z.compare. do 2 case_bool_decide; cbn [Bool.eqb]; z_tests;
    repeat match goal with |- context [Z.compare ?x ?y] => destruct (Z.compare_spec x y) end; try lia; done.
Qed.

(** 1 January 1970 and the day before. *)
Lemma date_order_inverted_witness :
  compare_bytes DateT [128; 0; 0; 0] [127; 255; 255; 255] = Some Gt
  /\ cmp (encode_byte_comparable DateT [128; 0; 0; 0]) (encode_byte_comparable DateT [127; 255; 255; 255]) = Lt.
Proof.
  split; [|vm_compute; reflexivity].
  rewrite date_order_inverted; [vm_compute; reflexivity|..];
    (split; [repeat (constructor; [unfold in_u; lia|]); constructor|reflexivity]).
Defined.

(** * Separators and successors of encoded keys *)

Lemma separator_cons x a b :
  cmp a b = Lt -> separator_between (x :: a) (x :: b) = x :: separator_between a b.
Proof.
  intros E. unfold separator_between. cbn [common_prefix]. rewrite cmp_cons, then_with_refl, E, Z.eqb_refl.
  cbn [is_ge length Nat.eqb nth take app]. rewrite cmp_cons, then_with_refl. by repeat case_match.
Qed.

Lemma separator_ne x y a b :
  x < y -> separator_between (x :: a) (y :: b) = [if (x <? 255) && (x + 1 <? y) then x + 1 else y].
Proof.
  intros Hlt. unfold separator_between. cbn [common_prefix length]. rewrite (proj2 (Z.eqb_neq x y)) by lia.
  assert (cmp x y = Lt) as E by (by apply Z.compare_lt_iff). rewrite cmp_cons, E. cbn [then_with is_ge Nat.eqb nth take app].
  case_match; [done|]. rewrite cmp_cons, (cmp_opp x y), E. cbn. by rewrite take_0.
Qed.

Lemma cmp_lt_cases (a b : list Z) :
  cmp a b = Lt <->
  match a, b with _, [] => False | [], _ => True | x :: a', y :: b' => x < y \/ x = y /\ cmp a' b' = Lt end.
Proof.
  destruct a as [|x a], b as [|y b]; [done..|]. rewrite cmp_cons, then_with_lt, cmp_eq.
  unfold cmp at 1, Z_ord. by rewrite Z.compare_lt_iff.
Qed.

Lemma is_le_cons x y (a b : list Z) :
  is_le (cmp (x :: a) (y :: b)) = true <-> x < y \/ x = y /\ is_le (cmp a b) = true.
Proof. rewrite cmp_cons. unfold cmp at 1, Z_ord. destruct (Z.compare_spec x y); cbn; naive_solver lia. Qed.

Lemma is_le_nil (b : list Z) : is_le (cmp [] b) = true.
Proof. by destruct b. Qed.

(** Between two keys one of which does not start with the other the separator is
    strictly after the first, not after the second, and as short as any key
    that is; when the second key extends the first the function returns the first,
    which separates them on no side. *)
Theorem separator_correct previous next :
  bytes_ok previous -> bytes_ok next -> cmp previous next = Lt ->
  let s := separator_between previous next in
  (previous `prefix_of` next -> s = previous) /\
  (~ previous `prefix_of` next ->
   cmp previous s = Lt /\ is_le (cmp s next) = true /\ bytes_ok s /\
   forall t, cmp previous t = Lt -> is_le (cmp t next) = true -> (length s <= length t)%nat).
Proof.
  intros Hp. revert next. induction Hp as [|x a Hx Ha IH]; intros next Hn Hlt.
  { split; [by destruct next|]. intros []. apply prefix_nil. }
  destruct Hn as [|y b Hy Hb]; [by apply cmp_lt_cases in Hlt|]. unfold in_u in Hx, Hy.
  apply cmp_lt_cases in Hlt as [Hlt|[-> Hlt]].
  - rewrite separator_ne by done. split; [intros ?%prefix_cons_inv_1; lia|]. intros _.
    set (z := if (x <? 255) && (x + 1 <? y) then x + 1 else y). assert (x < z <= y) as Hz by (subst z; case_match; bool_to_prop; lia).
    split_and!.
    + apply cmp_lt_cases. lia.
    + apply is_le_cons. destruct (decide (z = y)); [right; split; [done|apply is_le_nil]|lia].
    + constructor; [unfold in_u; lia|constructor].
    + intros [|? t] Ht; [by apply cmp_lt_cases in Ht|cbn; lia].
  - rewrite separator_cons by done. destruct (IH b Hb Hlt) as [IH1 IH2]. split.
    + intros Hpre%prefix_cons_inv_2. by rewrite IH1.
    + intros Hnot. destruct IH2 as (H1 & H2 & H3 & H4); [intros ?; by apply Hnot, prefix_cons|]. split_and!.
      * by apply cmp_lt_cases; right.
      * by apply is_le_cons; right.
      * by constructor.
      * intros [|z t] Ht; [by apply cmp_lt_cases in Ht|]. intros Hle%is_le_cons. apply cmp_lt_cases in Ht.
        assert (cmp a t = Lt /\ is_le (cmp t b) = true) as [? ?]
          by (destruct Ht as [?|[? ?]], Hle as [?|[? ?]]; lia || done). by apply le_n_S, H4.
Qed.

Lemma separator_correct_witness :
  cmp [97; 98; 99; 49] (separator_between [97; 98; 99; 49] [97; 98; 102; 57]) = Lt.
Proof.
  apply (separator_correct [97; 98; 99; 49] [97; 98; 102; 57]); [..|vm_compute; reflexivity|].
  - repeat (constructor; [unfold in_u; lia|]). constructor.
  - repeat (constructor; [unfold in_u; lia|]). constructor.
  - intros [k E]. discriminate E.
Defined.

Lemma successor_cons b key :
  successor (b :: key) = match successor key with Some s => Some (b :: s) | None => if b =? 255 then None else Some [b + 1] end.
Proof.
  unfold successor. cbn [rposition]. destruct (rposition _ key) as [i|]; [done|]. by destruct (b =? 255).
Qed.

(** A successor bounds every key that starts with the given one, and nothing
    shorter than its own prefix lies between. *)
Lemma successor_bound key s : bytes_ok key -> successor key = Some s -> bytes_ok s /\ forall suffix, cmp (key ++ suffix) s = Lt.
Proof.
  intros Hk. revert s. induction Hk as [|b key Hb Hk IH]; intros s; [done|]. rewrite successor_cons.
  destruct (successor key) as [s'|].
  - intros [= <-]. destruct (IH s' eq_refl) as [Hs IH']. split; [by constructor|].
    intros suffix. cbn [app]. by rewrite cmp_cons, then_with_refl.
  - destruct (Z.eqb_spec b 255); [done|]. intros [= <-]. unfold in_u in *. split.
    + constructor; [unfold in_u; lia|constructor].
    + intros suffix. cbn [app]. apply cmp_lt_cases. lia.
Qed.
Lemma successor_none key : bytes_ok key -> successor key = None <-> Forall (fun b => b = 255) key.
Proof.
  induction 1 as [|b key Hb Hk IH]; [by split|]. rewrite successor_cons, Forall_cons, <- IH.
  destruct (successor key); [naive_solver|]. destruct (Z.eqb_spec b 255); naive_solver.
Qed.
