(* ===== verification/Crc.v ===== *)
(** * Cyclic redundancy checks of internode frames

    crates/cassandra-messaging/src/crc.rs: [crc24] for headers, [crc32c] and its
    incremental form for payloads.  Both are linear over exclusive or.  The
    section on [crc32c] shows that it tells apart byte strings that differ in at
    most four consecutive bytes, and the one on [crc24] that it tells apart
    headers that differ in one byte. *)
From S2P Require Import Prelude.

Definition CRC24_POLY : Z := 8867936.
Definition CRC24_INIT : Z := 8867936.

(** One turn of the inner loop of [crc24], on u32. *)
Definition crc24_bit (crc : Z) : Z :=
  let crc := wrap_u 32 (Z.shiftl crc 1) in
  if Z.land crc 16777216 =? 0 then crc else Z.lxor crc CRC24_POLY.
Definition crc24_byte (crc byte : Z) : Z :=
  Nat.iter 8 crc24_bit (Z.lxor crc (Z.shiftl byte 16)).
Definition crc24 (data : list Z) : Z :=
  Z.land (foldl crc24_byte CRC24_INIT data) 16777215.

(** One turn of the inner loop of [crc32c]. *)
Definition crc32c_bit (crc : Z) : Z :=
  if Z.land crc 1 =? 0 then Z.shiftr crc 1 else Z.lxor (Z.shiftr crc 1) 2197175160.
Definition crc32c_byte (crc byte : Z) : Z := Nat.iter 8 crc32c_bit (Z.lxor crc byte).
Definition crc32c (data : list Z) : Z := Z.lxor (foldl crc32c_byte 4294967295 data) 4294967295.
Definition crc32c_update (crc : Z) (data : list Z) : Z :=
  Z.lxor (foldl crc32c_byte (Z.lxor crc 4294967295) data) 4294967295.

(** * Words under exclusive or *)

Lemma lxor_range w a b : 0 <= w -> in_u w a -> in_u w b -> in_u w (Z.lxor a b).
Proof.
  intros Hw Ha Hb. assert (E : Z.lxor a b = Z.lxor a b mod 2 ^ w).
  { apply Z.bits_inj'. intros i Hi. destruct (Z.ltb_spec i w) as [H|H].
    - by rewrite Z.mod_pow2_bits_low.
    - rewrite Z.mod_pow2_bits_high, Z.lxor_spec by lia.
      rewrite <- (Z.mod_small a (2 ^ w)), <- (Z.mod_small b (2 ^ w)) by done.
      by rewrite !Z.mod_pow2_bits_high by lia. }
  rewrite E. apply Z.mod_pos_bound. lia.
Qed.

Lemma lxor_cancel_r a b c : Z.lxor a c = Z.lxor b c -> a = b.
Proof.
  intros E. rewrite <- (Z.lxor_0_r a), <- (Z.lxor_0_r b), <- (Z.lxor_nilpotent c), <- !Z.lxor_assoc. by rewrite E.
Qed.

Lemma land_1_odd z : (Z.land z 1 =? 0) = negb (Z.odd z).
Proof.
  change 1 with (Z.ones 1). rewrite Z.land_ones, Zmod_odd by lia. by destruct (Z.odd z).
Qed.

Lemma odd_lxor a b : Z.odd (Z.lxor a b) = xorb (Z.odd a) (Z.odd b).
Proof. by rewrite <- !Z.bit0_odd, Z.lxor_spec. Qed.

(** Equalities of words built with exclusive or, bit by bit. *)
Ltac xor_bits :=
  let i := fresh "i" in let Hi := fresh "Hi" in
  apply Z.bits_inj'; intros i Hi; rewrite ?Z.lxor_spec;
  repeat match goal with |- context [Z.testbit ?x i] => destruct (Z.testbit x i) end; reflexivity.

(** * The payload check *)

Definition crc32c_bytes (crc : Z) (data : list Z) : Z := foldl crc32c_byte crc data.

Lemma crc32c_bit_linear a b : crc32c_bit (Z.lxor a b) = Z.lxor (crc32c_bit a) (crc32c_bit b).
Proof.
  unfold crc32c_bit. rewrite !land_1_odd, odd_lxor, Z.shiftr_lxor.
  destruct (Z.odd a), (Z.odd b); cbn [negb xorb]; xor_bits.
Qed.

Lemma crc32c_bit_range a : in_u 32 a -> in_u 32 (crc32c_bit a).
Proof.
  intros Ha. assert (in_u 32 (Z.shiftr a 1)).
  { unfold in_u in *. rewrite Z.shiftr_div_pow2 by lia. split; [apply Z.div_pos|apply Z.div_lt_upper_bound]; lia. }
  unfold crc32c_bit. case_match; [done|]. apply lxor_range; [lia|done|unfold in_u; lia].
Qed.

Lemma crc32c_bit_top a : in_u 32 a -> Z.testbit (crc32c_bit a) 31 = Z.odd a.
Proof.
  intros Ha. assert (Hs : Z.testbit (Z.shiftr a 1) 31 = false).
  { rewrite Z.shiftr_spec by lia. rewrite <- (Z.mod_small a (2 ^ 32)) by done. by apply Z.mod_pow2_bits_high. }
  unfold crc32c_bit. rewrite land_1_odd. destruct (Z.odd a); cbn [negb]; [|done].
  by rewrite Z.lxor_spec, Hs.
Qed.

(** The polynomial's top bit makes a turn reversible. *)
Lemma crc32c_bit_inj a b : in_u 32 a -> in_u 32 b -> crc32c_bit a = crc32c_bit b -> a = b.
Proof.
  intros Ha Hb E. assert (Hodd : Z.odd a = Z.odd b) by (rewrite <- !crc32c_bit_top by done; by rewrite E).
  assert (Hs : Z.shiftr a 1 = Z.shiftr b 1).
  { unfold crc32c_bit in E. rewrite !land_1_odd, Hodd in E. destruct (Z.odd b); cbn [negb] in E; [|done].
    by apply lxor_cancel_r in E. }
  rewrite !Z.shiftr_div_pow2 in Hs by lia. change (2 ^ 1) with 2 in Hs.
  rewrite (Z_div_mod_eq_full a 2), (Z_div_mod_eq_full b 2), Hs, !Zmod_odd, Hodd. done.
Qed.

Lemma crc32c_bit_double a : crc32c_bit (2 * a) = a.
Proof.
  unfold crc32c_bit. rewrite land_1_odd, Z.odd_mul. cbn [Z.odd andb negb]. rewrite Z.shiftr_div_pow2 by lia.
  change (2 ^ 1) with 2. rewrite Z.mul_comm. by apply Z.div_mul.
Qed.

Lemma foldl_step {A B} (f : A -> B -> A) a b l : foldl f a (b :: l) = foldl f (f a b) l.
Proof. done. Qed.

Section iterate.
Context (f : Z -> Z).
Lemma iter_range w n a : (forall x, in_u w x -> in_u w (f x)) -> in_u w a -> in_u w (Nat.iter n f a).
Proof. intros Hf Ha. induction n; simpl; auto. Qed.
Lemma iter_linear n a b :
  (forall x y, f (Z.lxor x y) = Z.lxor (f x) (f y)) ->
  Nat.iter n f (Z.lxor a b) = Z.lxor (Nat.iter n f a) (Nat.iter n f b).
Proof. intros Hf. induction n as [|n IH]; simpl; [done|]. by rewrite IH, Hf. Qed.
Lemma iter_inj w n a b :
  (forall x, in_u w x -> in_u w (f x)) -> (forall x y, in_u w x -> in_u w y -> f x = f y -> x = y) ->
  in_u w a -> in_u w b -> Nat.iter n f a = Nat.iter n f b -> a = b.
Proof.
  intros Hr Hf Ha Hb. induction n as [|n IH]; simpl; [done|]. intros E. apply IH, Hf, E; by apply iter_range.
Qed.
End iterate.

Lemma crc32c_byte_range crc b : in_u 32 crc -> is_u8 b -> in_u 32 (crc32c_byte crc b).
Proof.
  intros Hc Hb. apply iter_range; [apply crc32c_bit_range|]. apply lxor_range; [lia|done|].
  unfold in_u in *. lia.
Qed.

Lemma crc32c_bytes_range data crc : in_u 32 crc -> bytes_ok data -> in_u 32 (crc32c_bytes crc data).
Proof.
  intros Hc Hd. revert crc Hc. induction Hd as [|b data Hb _ IH]; intros crc Hc; [done|].
  by apply IH, crc32c_byte_range.
Qed.

(** A state is determined by the later one and the bytes in between. *)
Lemma crc32c_bytes_inj data a b :
  in_u 32 a -> in_u 32 b -> bytes_ok data -> crc32c_bytes a data = crc32c_bytes b data -> a = b.
Proof.
  intros Ha Hb Hd. revert a b Ha Hb. induction Hd as [|c data Hc _ IH]; intros a b Ha Hb E; [done|].
  apply IH in E; [|by apply crc32c_byte_range..]. assert (in_u 32 c) by (unfold in_u in *; lia).
  apply (iter_inj _ 32) in E; [by apply lxor_cancel_r in E|apply crc32c_bit_range|apply crc32c_bit_inj| |];
    by apply lxor_range.
Qed.

(** ** Bursts *)

Fixpoint le_val (l : list Z) : Z := match l with [] => 0 | b :: l => b + 256 * le_val l end.

Lemma le_val_range l : bytes_ok l -> 0 <= le_val l < 256 ^ Z.of_nat (length l).
Proof.
  induction 1 as [|b l Hb _ IH]; [done|]. cbn [le_val length]. rewrite pow256_S. unfold in_u in Hb. lia.
Qed.

Lemma le_val_inj l k : bytes_ok l -> bytes_ok k -> length l = length k -> le_val l = le_val k -> l = k.
Proof.
  intros Hl. revert k. induction Hl as [|b l Hb Hl IH]; intros [|c k] Hk Hlen E; try done.
  inversion Hk as [|? ? Hc Hk']; subst. cbn [le_val] in E. unfold in_u in *.
  f_equal; [lia|]. apply IH; [done|by injection Hlen|lia].
Qed.

Lemma iter_double n a : Nat.iter n crc32c_bit (2 ^ Z.of_nat n * a) = a.
Proof.
  revert a. induction n as [|n IH]; intros a; [simpl; lia|].
  rewrite Nat.iter_succ_r, Nat2Z.inj_succ, Z.pow_succ_r, <- Z.mul_assoc, crc32c_bit_double by lia. apply IH.
Qed.

Lemma lxor_add_low b w : is_u8 b -> 0 <= w -> Z.lxor b (256 * w) = b + 256 * w.
Proof.
  intros Hb Hw. symmetry. apply Z.add_nocarry_lxor. apply Z.bits_inj'. intros i Hi.
  rewrite Z.land_spec, Z.bits_0. destruct (Z.ltb_spec i 8).
  - replace (256 * w) with (w * 2 ^ 8) by lia. by rewrite (Z.mul_pow2_bits_low _ _ i), andb_false_r by lia.
  - rewrite <- (Z.mod_small b (2 ^ 8)) by done. by rewrite Z.mod_pow2_bits_high by lia.
Qed.

(** Up to four bytes act on the state as one word. *)
Lemma crc32c_bytes_word crc data :
  bytes_ok data -> crc32c_bytes crc data = Nat.iter (8 * length data) crc32c_bit (Z.lxor crc (le_val data)).
Proof.
  intros Hd. revert crc. induction Hd as [|b data Hb Hd IH]; intros crc; [simpl; by rewrite Z.lxor_0_r|].
  unfold crc32c_bytes in *. cbn [foldl length le_val]. rewrite IH. unfold crc32c_byte.
  rewrite <- (iter_double 8 (le_val data)) at 1. rewrite <- iter_linear by apply crc32c_bit_linear.
  rewrite <- Nat.iter_add. f_equal; [lia|]. change (2 ^ Z.of_nat 8) with 256.
  rewrite Z.lxor_assoc, lxor_add_low; [done|done|]. by apply le_val_range.
Qed.

(** Strings that differ in at most four consecutive bytes have different checks. *)
Lemma crc32c_burst p m m' q :
  bytes_ok p -> bytes_ok m -> bytes_ok m' -> bytes_ok q -> length m = length m' -> (length m <= 4)%nat ->
  m <> m' -> crc32c (p ++ m ++ q) <> crc32c (p ++ m' ++ q).
Proof.
  intros Hp Hm Hm' Hq Hlen H4 Hne E. unfold crc32c in E. apply lxor_cancel_r in E. apply Hne.
  rewrite !foldl_app in E. fold (crc32c_bytes 4294967295 p) in E.
  assert (Hs : in_u 32 (crc32c_bytes 4294967295 p)) by (apply crc32c_bytes_range; [unfold in_u; lia|done]).
  revert Hs E. generalize (crc32c_bytes 4294967295 p). intros s Hs E.
  apply crc32c_bytes_inj in E; [|by apply crc32c_bytes_range..|done].
  change (crc32c_bytes s m = crc32c_bytes s m') in E. rewrite !crc32c_bytes_word, Hlen in E by done.
  assert (Hw : forall l, bytes_ok l -> length l = length m -> in_u 32 (le_val l)).
  { intros l Hl El. pose proof (le_val_range l Hl) as Hr. unfold in_u. split; [lia|].
    eapply Z.lt_le_trans; [apply Hr|]. rewrite pow256_pow2. apply Z.pow_le_mono_r; lia. }
  apply (iter_inj _ 32) in E; [|apply crc32c_bit_range|apply crc32c_bit_inj|apply lxor_range; auto; lia..].
  rewrite !(Z.lxor_comm s) in E. apply lxor_cancel_r in E. by apply le_val_inj.
Qed.

Lemma crc32c_range data : bytes_ok data -> in_u 32 (crc32c data).
Proof.
  intros Hd. apply lxor_range; [lia| |unfold in_u; lia]. apply crc32c_bytes_range; [unfold in_u; lia|done].
Qed.

Lemma crc32c_update_app a b : crc32c_update (crc32c a) b = crc32c (a ++ b).
Proof.
  unfold crc32c_update, crc32c. by rewrite Z.lxor_assoc, Z.lxor_nilpotent, Z.lxor_0_r, foldl_app.
Qed.

(** * The header check *)

Lemma lxor_mod a b w : 0 <= w -> Z.lxor a b mod 2 ^ w = Z.lxor (a mod 2 ^ w) (b mod 2 ^ w).
Proof.
  intros Hw. apply Z.bits_inj'. intros i Hi. rewrite Z.lxor_spec. destruct (Z.ltb_spec i w).
  - by rewrite !Z.mod_pow2_bits_low, Z.lxor_spec by lia.
  - by rewrite !Z.mod_pow2_bits_high by lia.
Qed.

Lemma land_lxor a b m : Z.land (Z.lxor a b) m = Z.lxor (Z.land a m) (Z.land b m).
Proof.
  apply Z.bits_inj'. intros i Hi. rewrite !Z.lxor_spec, !Z.land_spec, Z.lxor_spec.
  by destruct (Z.testbit a i), (Z.testbit b i), (Z.testbit m i).
Qed.

Lemma land_bit c k : 0 <= k -> Z.land c (2 ^ k) = if Z.testbit c k then 2 ^ k else 0.
Proof.
  intros Hk. apply Z.bits_inj'. intros i Hi. rewrite Z.land_spec, Z.pow2_bits_eqb by done.
  destruct (Z.eqb_spec k i) as [->|Hne].
  - destruct (Z.testbit c i); [by rewrite Z.pow2_bits_true|by rewrite Z.bits_0].
  - rewrite andb_false_r. destruct (Z.testbit c k); [by rewrite Z.pow2_bits_false|by rewrite Z.bits_0].
Qed.

Lemma crc24_bit_alt c :
  crc24_bit c = let d := Z.shiftl c 1 mod 2 ^ 32 in if Z.testbit d 24 then Z.lxor d CRC24_POLY else d.
Proof.
  unfold crc24_bit, wrap_u. change 16777216 with (2 ^ 24). rewrite land_bit by lia. by destruct (Z.testbit _ 24).
Qed.

Lemma crc24_bit_linear a b : crc24_bit (Z.lxor a b) = Z.lxor (crc24_bit a) (crc24_bit b).
Proof.
  rewrite !crc24_bit_alt. cbv zeta. rewrite Z.shiftl_lxor, lxor_mod, Z.lxor_spec by lia.
  destruct (Z.testbit (Z.shiftl a 1 mod 2 ^ 32) 24), (Z.testbit (Z.shiftl b 1 mod 2 ^ 32) 24); cbn [xorb]; xor_bits.
Qed.

(** Two runs over the same bytes stay apart by what the difference becomes. *)
Lemma crc24_difference s t q :
  Z.lxor (foldl crc24_byte s q) (foldl crc24_byte t q) = Nat.iter (8 * length q) crc24_bit (Z.lxor s t).
Proof.
  revert s t. induction q as [|c q IH]; intros s t; [done|]. rewrite !foldl_step, IH. cbn [length]. unfold crc24_byte.
  rewrite <- iter_linear, <- Nat.iter_add by apply crc24_bit_linear. f_equal; [lia|]. xor_bits.
Qed.

Definition crc24_error (k : nat) (e : Z) : Z :=
  Z.land (Nat.iter (8 * k + 8) crc24_bit (Z.shiftl e 16)) 16777215.

Lemma crc24_errors :
  forallb (fun k => forallb (fun e => negb (crc24_error k (Z.of_nat e) =? 0)) (seq 1 255)) (seq 0 5) = true.
Proof. by vm_compute. Qed.

Lemma crc24_error_nonzero k e : (k <= 4)%nat -> is_u8 e -> e <> 0 -> crc24_error k e <> 0.
Proof.
  intros Hk He Hne. pose proof (proj1 (forallb_forall _ _) crc24_errors k) as Hall. cbv beta in Hall.
  specialize (Hall ltac:(apply in_seq; lia)).
  pose proof (proj1 (forallb_forall _ _) Hall (Z.to_nat e)) as Hz. cbv beta in Hz. clear Hall. unfold in_u in He.
  specialize (Hz ltac:(apply in_seq; lia)). rewrite Z2Nat.id in Hz by lia.
  apply negb_true_iff, Z.eqb_neq in Hz. exact Hz.
Qed.

Lemma crc24_change s b b' q :
  Z.lxor (foldl crc24_byte s (b :: q)) (foldl crc24_byte s (b' :: q))
  = Nat.iter (8 * length q + 8) crc24_bit (Z.shiftl (Z.lxor b b') 16).
Proof.
  rewrite !foldl_step, crc24_difference, Nat.iter_add. f_equal. unfold crc24_byte.
  rewrite <- iter_linear by apply crc24_bit_linear. f_equal. rewrite Z.shiftl_lxor. xor_bits.
Qed.

(** Headers of up to five bytes that differ in one byte have different checks. *)
Lemma crc24_single_byte p b b' q :
  is_u8 b -> is_u8 b' -> (length q <= 4)%nat -> b <> b' -> crc24 (p ++ b :: q) <> crc24 (p ++ b' :: q).
Proof.
  intros Hb Hb' Hq Hne E. apply (crc24_error_nonzero (length q) (Z.lxor b b')).
  - exact Hq.
  - apply lxor_range; [lia|exact Hb|exact Hb'].
  - intros Hz%Z.lxor_eq. exact (Hne Hz).
  - unfold crc24_error. rewrite <- (crc24_change (foldl crc24_byte CRC24_INIT p)), <- !foldl_app, land_lxor.
    unfold crc24 in E. rewrite E. apply Z.lxor_nilpotent.
Qed.

Lemma crc24_range data : in_u 24 (crc24 data).
Proof.
  unfold crc24. change 16777215 with (Z.ones 24). rewrite Z.land_ones by lia. apply Z.mod_pos_bound. lia.
Qed.

(** The polynomial is a multiple of 32, so each turn moves five low zero bits in. *)
Lemma crc24_bit_low c k : 0 <= k <= 4 -> c mod 2 ^ k = 0 -> crc24_bit c mod 2 ^ (k + 1) = 0.
Proof.
  intros Hk Hc. rewrite crc24_bit_alt. cbv zeta. set (d := Z.shiftl c 1 mod 2 ^ 32).
  assert (Hd : d mod 2 ^ (k + 1) = 0).
  { unfold d. rewrite Z.mod_mod_divide
      by (exists (2 ^ (32 - (k + 1))); rewrite <- Z.pow_add_r by lia; f_equal; lia).
    rewrite Z.shiftl_mul_pow2, Z.pow_add_r, Zmult_mod_distr_r, Hc by lia. done. }
  case_match; [|done]. rewrite lxor_mod, Hd by lia.
  assert (Hcases : k = 0 \/ k = 1 \/ k = 2 \/ k = 3 \/ k = 4) by lia.
  by destruct Hcases as [->|[->|[->|[->| ->]]]].
Qed.

(** So five of the 24 bits of a check of a non-empty header are always zero. *)
Lemma crc24_low_bits data b : crc24 (data ++ [b]) mod 32 = 0.
Proof.
  unfold crc24. rewrite foldl_app. cbn [foldl]. set (s := foldl crc24_byte CRC24_INIT data).
  unfold crc24_byte. set (c := Z.lxor s (Z.shiftl b 16)). change 16777215 with (Z.ones 24).
  rewrite Z.land_ones by lia. rewrite Z.mod_mod_divide by (by exists (2 ^ 19)).
  change 8%nat with (5 + 3)%nat. rewrite Nat.iter_add. set (d := Nat.iter 3 crc24_bit c). cbn [Nat.iter].
  assert (H0 : d mod 2 ^ 0 = 0) by apply Z.mod_1_r.
  do 5 (apply crc24_bit_low in H0; [|lia]). exact H0.
Qed.
