(* ===== verification/StreamCodec.v ===== *)
(** * Stream codecs

    The codec traits that the internode messages and frames implement, with what
    an encoder and a decoder promise to a connection, and the connection itself:
    a buffer to which the network appends bytes in chunks of any size, and from
    which the reader takes items whenever it likes.  The laws are stated once
    here and discharged by each codec; the lemma [reassembly] shows from the laws
    alone that every schedule of reads and polls delivers the items sent. *)
From S2P Require Import Prelude.

(** [Ok(None)], [Ok(Some(_))] and [Err(_)] of a decoder, and a panic. *)
Inductive DecodeResult (I E : Type) :=
| Pending
| Decoded (item : I)
| DecodeErr (error : E)
| DecodePanic.
Arguments Pending {I E}.
Arguments Decoded {I E}.
Arguments DecodeErr {I E}.
Arguments DecodePanic {I E}.

(** A decoder consumes bytes from the front of a buffer; an encoder appends to one. *)
Class Decoder (C I E : Type) := decode : C -> list Z -> DecodeResult I E * list Z.
Class Encoder (C I E : Type) := encode : C -> I -> list Z -> E + list Z.
#[global] Hint Mode Decoder ! - - : typeclass_instances.
#[global] Hint Mode Encoder ! - - : typeclass_instances.

(** [b] is the form of [i] on the wire: with it at the front of the buffer the
    decoder yields [i] and leaves the rest, and on less it waits. *)
Definition framed {C I E : Type} `{Dec : Decoder C I E} (c : C) (i : I) (b : list Z) : Prop :=
  (forall rest, decode c (b ++ rest) = (Decoded i, rest))
  /\ (forall p, p `prefix_of` b -> p <> b -> decode c p = (Pending, p)).

(** What a decoder gives back is [norm c i]: some fields do not travel. *)
Class CodecLaws (C I E : Type) `{Dec : Decoder C I E, Enc : Encoder C I E} (wf : I -> Prop) (norm : C -> I -> I) : Prop := {
  decode_nil (c : C) : decode c [] = (Pending, []);
  encode_framed (c : C) i dst out :
    wf i -> encode c i dst = inr out -> exists b, out = dst ++ b /\ framed c (norm c i) b
}.

Section connection.
Context {C I E : Type} `{Dec : Decoder C I E, Enc : Encoder C I E}.

(** The sender writes items one after the other. *)
Fixpoint encode_all (c : C) (items : list I) (dst : list Z) : E + list Z :=
  match items with
  | [] => inr dst
  | i :: items => match encode c i dst with inl e => inl e | inr dst => encode_all c items dst end
  end.

(** The receiver: bytes not yet consumed, items delivered, and whether the
    decoder has failed, which ends the connection. *)
Record Receiver := mkReceiver {
  rx_buffer : list Z;
  rx_items : list I;
  rx_failed : bool
}.

Inductive RxEvent :=
| RxRead (bytes : list Z)
| RxPoll.

Definition rx_step (c : C) (rx : Receiver) (ev : RxEvent) : Receiver :=
  match ev with
  | RxRead bytes => mkReceiver (rx_buffer rx ++ bytes) (rx_items rx) (rx_failed rx)
  | RxPoll =>
      if rx_failed rx then rx
      else match decode c (rx_buffer rx) with
           | (Pending, buf) => mkReceiver buf (rx_items rx) false
           | (Decoded i, buf) => mkReceiver buf (rx_items rx ++ [i]) false
           | (DecodeErr _, buf) | (DecodePanic, buf) => mkReceiver buf (rx_items rx) true
           end
  end.

Definition rx_run (c : C) (events : list RxEvent) : Receiver :=
  foldl (rx_step c) (mkReceiver [] [] false) events.

Definition rx_bytes (events : list RxEvent) : list Z :=
  mjoin ((fun ev => match ev with RxRead bytes => bytes | RxPoll => [] end) <$> events).

Lemma rx_bytes_snoc events ev :
  rx_bytes (events ++ [ev]) = rx_bytes events ++ match ev with RxRead bytes => bytes | RxPoll => [] end.
Proof. unfold rx_bytes. rewrite fmap_app, join_app. simpl. by rewrite app_nil_r. Qed.

Lemma rx_run_snoc c events ev : rx_run c (events ++ [ev]) = rx_step c (rx_run c events) ev.
Proof. unfold rx_run. by rewrite foldl_app. Qed.

(** ** Delivery *)

Context {wf : I -> Prop} {norm : C -> I -> I} `{!CodecLaws C I E wf norm}.

Lemma encode_all_frames (c : C) (items : list I) dst out :
  Forall wf items -> encode_all c items dst = inr out ->
  exists bs, out = dst ++ mjoin bs /\ Forall2 (framed c) (norm c <$> items) bs.
Proof.
  intros Hwf. revert dst. induction Hwf as [|i items Hi _ IH]; intros dst Henc; simpl in Henc.
  - injection Henc as <-. exists []. by rewrite app_nil_r.
  - destruct (encode c i dst) as [|dst'] eqn:Ei; [done|].
    destruct (encode_framed c i dst dst' Hi Ei) as (b & -> & Hb).
    destruct (IH _ Henc) as (bs & -> & Hbs). exists (b :: bs). simpl. rewrite <- app_assoc. auto.
Qed.

(** The invariant of a connection that has received [seen] of the stream: some
    frames are delivered, and the buffer is what came after them. *)
Definition rx_inv (c : C) (items : list I) (bs : list (list Z)) (seen : list Z) (rx : Receiver) : Prop :=
  rx_failed rx = false /\
  exists is1 is2 bs1 bs2, items = is1 ++ is2 /\ bs = bs1 ++ bs2 /\ length is1 = length bs1
    /\ rx_items rx = is1 /\ seen = mjoin bs1 ++ rx_buffer rx.

(** A poll with [b] next in the stream. *)
Lemma rx_poll_cases (c : C) (i : I) b rest buf :
  framed c i b -> buf `prefix_of` b ++ rest ->
  decode c buf = (Pending, buf) \/ exists buf', buf = b ++ buf' /\ decode c buf = (Decoded i, buf').
Proof.
  intros [Hwhole Hpart] Hpre. destruct (prefix_weak_total buf b (b ++ rest) Hpre) as [Hp|[buf' ->]];
    [by apply prefix_app_r| |eauto].
  destruct (decide (buf = b)) as [->|Hne]; [|by left; apply Hpart].
  right. exists []. rewrite app_nil_r. split; [done|]. rewrite <- (app_nil_r b) at 1. apply Hwhole.
Qed.

Lemma rx_inv_poll (c : C) (items : list I) bs seen rx :
  Forall2 (framed c) items bs -> seen `prefix_of` mjoin bs -> rx_inv c items bs seen rx ->
  rx_inv c items bs seen (rx_step c rx RxPoll).
Proof.
  intros Hfr Hseen (Hf & is1 & is2 & bs1 & bs2 & -> & -> & Hlen & Hit & ->). destruct rx as [buf its f]; simpl in *. subst f its.
  apply Forall2_app_inv in Hfr as [Hfr1 Hfr2]; [|done].
  rewrite join_app in Hseen. apply prefix_app_inv in Hseen.
  assert (Hcase : decode c buf = (Pending, buf)
    \/ exists i is2' b bs2' buf', is2 = i :: is2' /\ bs2 = b :: bs2' /\ buf = b ++ buf' /\ decode c buf = (Decoded i, buf')).
  { destruct Hfr2 as [|i b is2' bs2' Hb Hfr2]; simpl in Hseen.
    - left. destruct Hseen as [k Hk]. destruct buf; [apply decode_nil|done].
    - destruct (rx_poll_cases c i b _ buf Hb Hseen) as [?|(buf' & ? & ?)]; [by left|right; eauto 10]. }
  destruct Hcase as [->|(i & is2' & b & bs2' & buf' & -> & -> & -> & ->)]; (split; [done|]); simpl.
  - by exists is1, is2, bs1, bs2.
  - exists (is1 ++ [i]), is2', (bs1 ++ [b]), bs2'. rewrite !length_app, join_app, <- !app_assoc. simpl.
    split_and!; [done|done|lia|done|by rewrite app_nil_r].
Qed.

Lemma rx_inv_run (c : C) (items : list I) bs events :
  Forall2 (framed c) items bs -> rx_bytes events `prefix_of` mjoin bs ->
  rx_inv c items bs (rx_bytes events) (rx_run c events).
Proof.
  intros Hfr. induction events as [|ev events IH] using rev_ind; intros Hpre.
  - split; [done|]. by exists [], items, [], bs.
  - rewrite rx_bytes_snoc in *. rewrite rx_run_snoc.
    assert (Hpre' : rx_bytes events `prefix_of` mjoin bs) by (by eapply prefix_app_l).
    specialize (IH Hpre'). destruct ev as [bytes|].
    + destruct IH as (Hf & is1 & is2 & bs1 & bs2 & -> & -> & Hlen & Hit & Es). split; [done|].
      exists is1, is2, bs1, bs2. split_and!; [done..|]. simpl. by rewrite Es, app_assoc.
    + rewrite app_nil_r in *. by apply rx_inv_poll.
Qed.

(** With the whole stream received, each poll delivers an item. *)
Lemma rx_drain (c : C) (is2 : list I) bs2 its n :
  Forall2 (framed c) is2 bs2 -> (length is2 <= n)%nat ->
  foldl (rx_step c) (mkReceiver (mjoin bs2) its false) (replicate n RxPoll) = mkReceiver [] (its ++ is2) false.
Proof.
  intros Hfr. revert its n. induction Hfr as [|i b is2 bs2 Hb Hfr IH]; intros its n Hn.
  - rewrite app_nil_r. clear Hn. induction n as [|n IH]; [done|]. simpl. by rewrite decode_nil.
  - destruct n as [|n]; simpl in Hn; [lia|]. simpl. rewrite (proj1 Hb). rewrite IH by lia. by rewrite <- app_assoc.
Qed.

Lemma reassembly (c : C) (items : list I) out events :
  Forall wf items -> encode_all c items [] = inr out -> rx_bytes events `prefix_of` out ->
  rx_failed (rx_run c events) = false
  /\ rx_items (rx_run c events) `prefix_of` norm c <$> items
  /\ (rx_bytes events = out ->
      let rx := rx_run c (events ++ replicate (length items) RxPoll) in
      rx_items rx = norm c <$> items /\ rx_buffer rx = [] /\ rx_failed rx = false).
Proof.
  intros Hwf Henc Hpre. destruct (encode_all_frames c items [] out Hwf Henc) as (bs & -> & Hfr). simpl in *.
  destruct (rx_inv_run c _ bs events Hfr Hpre) as (Hf & is1 & is2 & bs1 & bs2 & Ei & Eb & Hlen & Hit & Es).
  split_and!; [done|rewrite Ei, Hit; by exists is2|].
  intros Eall. unfold rx_run in *. rewrite foldl_app. set (rx := foldl _ _ events) in *. clearbody rx.
  destruct rx as [buf its f]; simpl in *. subst f its. rewrite Eall, Eb, join_app in Es. apply app_inv_head in Es as <-.
  rewrite Ei, Eb in Hfr. apply Forall2_app_inv in Hfr as [_ Hfr2]; [|done].
  rewrite (rx_drain c is2 bs2); [by simpl; rewrite Ei|done|].
  rewrite <- (length_fmap (norm c) items), Ei, length_app. lia.
Qed.
End connection.
