(* ===== verification/Tombstone.v ===== *)
(** Timestamps, time-to-live and deletion markers
    (crates/cassandra-common/src: timestamp.rs, ttl.rs, tombstone.rs).

    A [DeletionTime] is a pair of an i64 timestamp and an i32 local deletion
    time.  The file shows that [supersedes] is the strict part of the derived
    order, that keeping the superseding marker is a join, and that the 12-byte
    wire form round trips. *)
From S2P Require Export Prelude OrdMap.

(** * Sentinels (timestamp.rs, ttl.rs) *)

Definition NO_TIMESTAMP : Z := i64_MIN.
Definition NO_TTL : Z := 0.
Definition NO_DELETION_TIME : Z := i32_MAX.
Definition MAX_TTL : Z := 20 * 365 * 24 * 60 * 60.

Definition Timestamp_is_set (t : Z) : bool := negb (t =? NO_TIMESTAMP).
Definition Timestamp_serialize (t : Z) : list Z := write_be 8 t.
Definition Timestamp_deserialize (buf : list Z) : Z := read_s buf.

Definition Ttl_is_set (s : Z) : bool := 0 <? s.
Definition Ttl_is_valid (s : Z) : bool := (0 <=? s) && (s <=? MAX_TTL).

Definition LocalDeletionTime_is_live (s : Z) : bool := s =? NO_DELETION_TIME.
Definition LocalDeletionTime_serialize (s : Z) : list Z := write_be 4 s.
Definition LocalDeletionTime_deserialize (buf : list Z) : Z := read_s buf.

(** * Deletion markers (tombstone.rs) *)

Record DeletionTime := mkDeletionTime {
  marked_for_delete_at : Z;
  local_deletion_time : Z;
}.

#[export] Instance DeletionTime_eq_dec : EqDecision DeletionTime.
Proof. solve_decision. Defined.

Definition DeletionTime_LIVE : DeletionTime := mkDeletionTime NO_TIMESTAMP NO_DELETION_TIME.
Definition DeletionTime_new (marked ldt : Z) : DeletionTime := mkDeletionTime marked ldt.

Definition DeletionTime_is_live (d : DeletionTime) : bool :=
  (marked_for_delete_at d =? NO_TIMESTAMP) && (local_deletion_time d =? NO_DELETION_TIME).

Definition DeletionTime_supersedes (self other : DeletionTime) : bool :=
  (marked_for_delete_at other <? marked_for_delete_at self)
  || ((marked_for_delete_at self =? marked_for_delete_at other)
      && (local_deletion_time other <? local_deletion_time self)).

Definition DeletionTime_is_purgeable (d : DeletionTime) (gc_before_seconds : Z) : bool :=
  negb (DeletionTime_is_live d) && (local_deletion_time d <? gc_before_seconds).

Definition DeletionTime_serialize (d : DeletionTime) : list Z :=
  write_be 8 (marked_for_delete_at d) ++ write_be 4 (local_deletion_time d).

Definition DeletionTime_deserialize (buf : list Z) : DeletionTime :=
  mkDeletionTime (read_s (take 8 buf)) (read_s (take 4 (drop 8 buf))).

(** [impl Ord for DeletionTime]. *)
#[export] Instance DeletionTime_cmp : RustOrd DeletionTime := fun a b =>
  then_with (cmp (marked_for_delete_at a) (marked_for_delete_at b))
            (cmp (local_deletion_time a) (local_deletion_time b)).

#[export] Instance DeletionTime_ord_laws : OrdLaws DeletionTime.
Proof.
  pose proof (ord_via_laws (fun d => (marked_for_delete_at d, local_deletion_time d))) as Hl.
  apply Hl. by intros [] [] ?; simplify_eq/=.
Qed.

Definition DeletionTime_ok (d : DeletionTime) : Prop :=
  is_i64 (marked_for_delete_at d) /\ is_i32 (local_deletion_time d).

(** [if other.supersedes(&self) { other } else { self }], the way every
    component of the source combines two markers. *)
Definition supersede (self other : DeletionTime) : DeletionTime :=
  if DeletionTime_supersedes other self then other else self.

(** * Range tombstones *)

Record RangeTombstone := mkRangeTombstone {
  rt_start : list Z;
  rt_end : list Z;
  rt_deletion : DeletionTime;
}.

#[export] Instance RangeTombstone_eq_dec : EqDecision RangeTombstone.
Proof. solve_decision. Defined.

Definition RangeTombstone_new (s e : list Z) (d : DeletionTime) : RangeTombstone :=
  mkRangeTombstone s e d.
Definition RangeTombstone_is_live (r : RangeTombstone) : bool := DeletionTime_is_live (rt_deletion r).
Definition RangeTombstone_covers (r : RangeTombstone) (clustering_key : list Z) : bool :=
  (clustering_key >=' rt_start r)%ord && (clustering_key <=' rt_end r)%ord.

(** * Facts *)

Lemma supersedes_lt a b : DeletionTime_supersedes a b = true <-> lt_of b a.
Proof.
  unfold DeletionTime_supersedes, lt_of, cmp, DeletionTime_cmp.
  rewrite then_with_lt, cmp_eq, orb_true_iff, andb_true_iff.
  unfold cmp, Z_ord. rewrite !Z.compare_lt_iff, !Z.ltb_lt, Z.eqb_eq. naive_solver lia.
Qed.

Lemma supersedes_false a b : DeletionTime_supersedes a b = false <-> le_of a b.
Proof. rewrite <- not_true_iff_false, supersedes_lt. apply not_lt_of. Qed.

Lemma is_live_spec d : DeletionTime_is_live d = true <-> d = DeletionTime_LIVE.
Proof.
  unfold DeletionTime_is_live. rewrite andb_true_iff, !Z.eqb_eq.
  destruct d; simpl; split; [intros [-> ->]; done | by intros [= -> ->]].
Qed.

Lemma supersede_spec a b c : le_of (supersede a b) c <-> le_of a c /\ le_of b c.
Proof.
  unfold supersede. destruct (DeletionTime_supersedes b a) eqn:E.
  - apply supersedes_lt, lt_of_le in E. split; [|by intros [? ?]].
    intros Hc. split; [by apply (le_of_trans a b)|done].
  - apply supersedes_false in E. split; [|by intros [? ?]].
    intros Hc. split; [done|by apply (le_of_trans b a)].
Qed.

Lemma supersede_ge_l a b : le_of a (supersede a b).
Proof. apply (supersede_spec a b (supersede a b)). apply le_of_refl. Qed.
Lemma supersede_ge_r a b : le_of b (supersede a b).
Proof. apply (supersede_spec a b (supersede a b)). apply le_of_refl. Qed.

(** Two markers with the same upper bounds are equal. *)
Lemma le_of_ext (a b : DeletionTime) : (forall c, le_of a c <-> le_of b c) -> a = b.
Proof. intros E. apply le_of_antisym; apply E, le_of_refl. Qed.

Lemma supersede_comm a b : supersede a b = supersede b a.
Proof. apply le_of_ext. intros c. rewrite !supersede_spec. tauto. Qed.
Lemma supersede_assoc a b c : supersede (supersede a b) c = supersede a (supersede b c).
Proof. apply le_of_ext. intros d. rewrite !supersede_spec. tauto. Qed.
Lemma supersede_idem a : supersede a a = a.
Proof. apply le_of_ext. intros d. rewrite !supersede_spec. tauto. Qed.

Lemma supersede_absorb a b : le_of b a -> supersede a b = a.
Proof.
  intros Hle. unfold supersede. apply supersedes_false in Hle. by rewrite Hle.
Qed.

(** LIVE is the least marker that fits its widths, and joining it changes
    nothing except the degenerate markers below it. *)
Lemma LIVE_least d :
  DeletionTime_ok d -> marked_for_delete_at d <> NO_TIMESTAMP -> le_of DeletionTime_LIVE d.
Proof.
  intros [[Hm _] _] Hne. apply lt_of_le. unfold lt_of, cmp, DeletionTime_cmp.
  rewrite then_with_lt. left. apply Z.compare_lt_iff. simpl. unfold NO_TIMESTAMP, i64_MIN in *.
  lia.
Qed.

Lemma length_DeletionTime_serialize d : length (DeletionTime_serialize d) = 12%nat.
Proof. unfold DeletionTime_serialize, write_be. by rewrite length_app, !length_be_bytes. Qed.

#[export] Hint Resolve supersede_ge_l supersede_ge_r : cass.

#[export] Instance supersede_semilattice : Semilattice (fun _ => True) supersede.
Proof. split; auto using supersede_assoc, supersede_comm, supersede_idem. Qed.

(** The 12-byte wire form of a deletion marker round trips, and every
    12-byte buffer of bytes decodes to a marker that encodes back to it. *)
Lemma DeletionTime_roundtrip (d : DeletionTime) (buf : list Z)
    (Hd : DeletionTime_ok d) (Hb : bytes_ok buf) (Hl : length buf = 12%nat) :
  DeletionTime_deserialize (DeletionTime_serialize d) = d
  /\ DeletionTime_serialize (DeletionTime_deserialize buf) = buf.
Proof.
  split.
  - destruct d as [m l], Hd as [Hm Hld]; simpl in *.
    unfold DeletionTime_deserialize, DeletionTime_serialize; simpl marked_for_delete_at.
    rewrite take_app_length', drop_app_length', take_ge
      by (unfold write_be; rewrite length_be_bytes; lia).
    f_equal; apply read_s_write; (lia || done).
  - unfold DeletionTime_serialize, DeletionTime_deserialize, marked_for_delete_at, local_deletion_time.
    rewrite !write_s_read
      by (lia || (rewrite length_take, ?length_drop; lia) || by repeat first [apply Forall_take|apply Forall_drop]).
    rewrite (take_ge (drop 8 buf)) by (rewrite length_drop; lia). apply take_drop.
Qed.
