(* ===== verification/Token.v ===== *)
(** Tokens and token ranges (crates/cassandra-common/src: murmur3.rs, token.rs).

    The Murmur3 hash is modelled at its widths and evaluated on the golden
    vectors of the source; its finaliser is shown to be a permutation of the
    64-bit words.  Ring ranges are shown to cut the ring. *)
From S2P Require Export Prelude.

(** * Murmur3 (murmur3.rs) *)

Definition C1 : Z := 0x87c37b91114253d5.
Definition C2 : Z := 0x4cf5ad432745937f.

Definition wrapping_mul (a b : Z) : Z := wrap_u 64 (a * b).
Definition wrapping_add (a b : Z) : Z := wrap_u 64 (a + b).
Definition rotate_left (a n : Z) : Z :=
  Z.lor (wrap_u 64 (Z.shiftl a n)) (Z.shiftr a (64 - n)).

(** [LittleEndian::read_u64(&data[offset..offset + 8])]. *)
Definition get_block (data : list Z) (offset : nat) : Z := be_val (rev (take 8 (drop offset data))).

Definition mix_k1 (k1 : Z) : Z := wrapping_mul (rotate_left (wrapping_mul k1 C1) 31) C2.
Definition mix_k2 (k2 : Z) : Z := wrapping_mul (rotate_left (wrapping_mul k2 C2) 33) C1.

Definition murmur3_block (data : list Z) (h : Z * Z) (i : nat) : Z * Z :=
  let '(h1, h2) := h in
  let offset := (i * 16)%nat in
  let k1 := get_block data offset in
  let k2 := get_block data (offset + 8)%nat in
  let h1 := Z.lxor h1 (mix_k1 k1) in
  let h1 := wrapping_add (rotate_left h1 27) h2 in
  let h1 := wrapping_add (wrapping_mul h1 5) 0x52dce729 in
  let h2 := Z.lxor h2 (mix_k2 k2) in
  let h2 := wrapping_add (rotate_left h2 31) h1 in
  let h2 := wrapping_add (wrapping_mul h2 5) 0x38495ab5 in
  (h1, h2).

(** The lines [k ^= (tail[i] as u64) << 8 * i], from the last byte to the
    first. *)
Fixpoint tail_word (shift : Z) (bytes : list Z) : Z :=
  match bytes with
  | [] => 0
  | b :: bytes' => Z.lxor (tail_word (shift + 8) bytes') (Z.shiftl b shift)
  end.

(** The arms of the match on [tail.len()]: [k2] from byte 8 on, [k1] from the
    first eight. *)
Definition murmur3_tail (tail : list Z) (h : Z * Z) : Z * Z :=
  let '(h1, h2) := h in
  (if (0 <? length tail)%nat then Z.lxor h1 (mix_k1 (tail_word 0 (take 8 tail))) else h1,
   if (8 <? length tail)%nat then Z.lxor h2 (mix_k2 (tail_word 0 (drop 8 tail))) else h2).

Definition fmix64 (k : Z) : Z :=
  let k := Z.lxor k (Z.shiftr k 33) in
  let k := wrapping_mul k 0xff51afd7ed558ccd in
  let k := Z.lxor k (Z.shiftr k 33) in
  let k := wrapping_mul k 0xc4ceb9fe1a85ec53 in
  Z.lxor k (Z.shiftr k 33).

Definition murmur3_128 (data : list Z) (seed : Z) : Z * Z :=
  let len := length data in
  let nblocks := (len / 16)%nat in
  let h := foldl (murmur3_block data) (seed, seed) (seq 0 nblocks) in
  let '(h1, h2) := murmur3_tail (drop (nblocks * 16) data) h in
  let h1 := Z.lxor h1 (wrap_u 64 (Z.of_nat len)) in
  let h2 := Z.lxor h2 (wrap_u 64 (Z.of_nat len)) in
  let h1 := wrapping_add h1 h2 in
  let h2 := wrapping_add h2 h1 in
  let h1 := fmix64 h1 in
  let h2 := fmix64 h2 in
  let h1 := wrapping_add h1 h2 in
  let h2 := wrapping_add h2 h1 in
  (wrap_s 64 h1, wrap_s 64 h2).

Definition murmur3_token (data : list Z) : Z := (murmur3_128 data 0).1.

(** * Tokens (token.rs) *)

Definition Token_MINIMUM : Z := i64_MIN.
Definition Token_MAXIMUM : Z := i64_MAX.
Definition Token_from_partition_key (key : list Z) : Z := murmur3_token key.
Definition Token_is_minimum (t : Z) : bool := t =? i64_MIN.
Definition Token_serialize (t : Z) : list Z := write_be 8 t.
Definition Token_deserialize (buf : list Z) : Z := read_s buf.

(** The division of [i128] truncates towards zero. *)
Definition Token_midpoint (left right : Z) : Z := wrap_s 64 (Z.quot (left + right) 2).

Record TokenRange := mkTokenRange { range_start : Z; range_end : Z }.
#[export] Instance TokenRange_eq_dec : EqDecision TokenRange.
Proof. solve_decision. Defined.

Definition TokenRange_FULL_RING : TokenRange := mkTokenRange Token_MINIMUM Token_MINIMUM.

Definition TokenRange_wraps_around (r : TokenRange) : bool :=
  (range_end r <=? range_start r) && negb (bool_decide (r = TokenRange_FULL_RING)).

Definition TokenRange_contains (r : TokenRange) (token : Z) : bool :=
  if TokenRange_wraps_around r then (range_start r <? token) || (token <=? range_end r)
  else if bool_decide (r = TokenRange_FULL_RING) then true
  else (range_start r <? token) && (token <=? range_end r).

(** The hash agrees with every golden token the source records. *)
Lemma murmur3_golden :
  murmur3_token <$> [[]; [0]; [0; 1; 2; 3]; Z.of_nat <$> seq 0 16; Z.of_nat <$> seq 0 17]
  = [0; 5048724184180415669; -2178171369485783280; 4920504430128807728; 6662781046685680142].
Proof. vm_compute. reflexivity. Qed.

(** * The finaliser is a permutation *)

Definition xorshift (k : Z) : Z := Z.lxor k (Z.shiftr k 33).

Lemma shiftr_u64_66 k : in_u 64 k -> Z.shiftr (Z.shiftr k 33) 33 = 0.
Proof.
  intros [H1 H2]. rewrite Z.shiftr_shiftr by lia. rewrite Z.shiftr_div_pow2 by lia.
  apply Z.div_small. split; [lia|]. eapply Z.lt_trans; [exact H2|]. done.
Qed.

Lemma xorshift_involutive k : in_u 64 k -> xorshift (xorshift k) = k.
Proof.
  intros Hk. unfold xorshift. rewrite Z.shiftr_lxor, shiftr_u64_66, Z.lxor_0_r by done.
  by rewrite Z.lxor_assoc, Z.lxor_nilpotent, Z.lxor_0_r.
Qed.

Lemma lxor_u64 a b : in_u 64 a -> in_u 64 b -> in_u 64 (Z.lxor a b).
Proof.
  intros [Ha1 Ha2] [Hb1 Hb2]. split; [by apply Z.lxor_nonneg|].
  destruct (decide (Z.lxor a b = 0)) as [->|Hne]; [done|].
  assert (0 <= Z.lxor a b) by (by apply Z.lxor_nonneg).
  apply Z.log2_lt_pow2; [lia|]. eapply Z.le_lt_trans; [by apply Z.log2_lxor|].
  assert (Hlog : forall z, 0 <= z < 2 ^ 64 -> Z.log2 z < 64).
  { intros z Hz. destruct (decide (z = 0)) as [->|]; [done|]. apply Z.log2_lt_pow2; lia. }
  apply Z.max_lub_lt; by apply Hlog.
Qed.

Lemma xorshift_u64 k : in_u 64 k -> in_u 64 (xorshift k).
Proof.
  intros Hk. apply lxor_u64; [done|]. destruct Hk. rewrite Z.shiftr_div_pow2 by lia.
  split; [apply Z.div_pos; lia|]. apply Z.div_lt_upper_bound; lia.
Qed.

Lemma wrapping_mul_u64 a b : in_u 64 (wrapping_mul a b).
Proof. by apply wrap_u_range. Qed.

(** Multiplying by an odd constant is undone by its inverse modulo 2^64. *)
Lemma wrapping_mul_inv a b k :
  wrapping_mul a b = 1 -> in_u 64 k -> wrapping_mul (wrapping_mul k a) b = k.
Proof.
  unfold wrapping_mul, wrap_u. intros E Hk.
  rewrite Z.mul_mod_idemp_l, <- Z.mul_assoc, <- Z.mul_mod_idemp_r, E, Z.mul_1_r by lia.
  by apply Z.mod_small.
Qed.

Definition fmix64_inv (k : Z) : Z :=
  xorshift (wrapping_mul (xorshift (wrapping_mul (xorshift k) 0x9cb4b2f8129337db))
    0x4f74430c22a54005).

Ltac inv_mul H := rewrite (wrapping_mul_inv _ _ _ H) by auto using xorshift_u64, wrapping_mul_u64.
Ltac inv_xor := rewrite xorshift_involutive by auto using xorshift_u64, wrapping_mul_u64.

Lemma mul1_inv : wrapping_mul 0xff51afd7ed558ccd 0x4f74430c22a54005 = 1.
Proof. vm_compute. reflexivity. Qed.
Lemma mul2_inv : wrapping_mul 0xc4ceb9fe1a85ec53 0x9cb4b2f8129337db = 1.
Proof. vm_compute. reflexivity. Qed.
Lemma mul1_inv' : wrapping_mul 0x4f74430c22a54005 0xff51afd7ed558ccd = 1.
Proof. vm_compute. reflexivity. Qed.
Lemma mul2_inv' : wrapping_mul 0x9cb4b2f8129337db 0xc4ceb9fe1a85ec53 = 1.
Proof. vm_compute. reflexivity. Qed.

Lemma fmix64_fold k : fmix64 k =
  xorshift (wrapping_mul (xorshift (wrapping_mul (xorshift k) 0xff51afd7ed558ccd)) 0xc4ceb9fe1a85ec53).
Proof. done. Qed.

Lemma fmix64_left k : in_u 64 k -> fmix64_inv (fmix64 k) = k.
Proof.
  intros Hk. rewrite fmix64_fold. unfold fmix64_inv.
  inv_xor. inv_mul mul2_inv. inv_xor. inv_mul mul1_inv. by inv_xor.
Qed.

Lemma fmix64_right k : in_u 64 k -> fmix64 (fmix64_inv k) = k.
Proof.
  intros Hk. rewrite fmix64_fold. unfold fmix64_inv.
  inv_xor. inv_mul mul1_inv'. inv_xor. inv_mul mul2_inv'. by inv_xor.
Qed.

(** [fmix64] is a permutation of the 64-bit words: it has a two-sided
    inverse, so finalising loses nothing of the hash state. *)
Theorem fmix64_permutation (k : Z) (Hk : in_u 64 k) :
  in_u 64 (fmix64 k) /\ fmix64_inv (fmix64 k) = k /\ fmix64 (fmix64_inv k) = k.
Proof.
  pose proof (xorshift_u64 k Hk). split; [apply xorshift_u64, wrapping_mul_u64|].
  split; [apply fmix64_left|apply fmix64_right]; done.
Qed.


(** * Ranges cut the ring *)

(** A pair of tokens cuts the ring: every token is in exactly one of
    [(s, e]] and [(e, s]] when the two differ, and [(s, s]] is the whole
    ring whether or not [s] is the minimum token. *)
Theorem token_range_cut (s e t : Z) :
  (s <> e -> TokenRange_contains (mkTokenRange s e) t = negb (TokenRange_contains (mkTokenRange e s) t))
  /\ TokenRange_contains (mkTokenRange s s) t = true.
Proof.
  unfold TokenRange_contains, TokenRange_wraps_around; simpl. split.
  - intros Hne. rewrite !bool_decide_eq_false_2 by (intros [= ]; congruence). simpl.
    z_tests.
  - destruct (bool_decide _); simpl; rewrite Z.leb_refl; simpl; [done|]. z_tests.
Qed.

