(* ===== verification/Bloom.v ===== *)
(** * The Bloom filter of a file

    crates/cassandra-storage/src/sstable/bloom.rs.  The sizes come out of
    floating-point logarithms, which are arguments of the model: [bits_of n] is
    the integer part of the size for [n] keys and [hashes_of bits n] the number
    of hash functions, both before they are brought into range.  Whatever they
    are, the bounds of the code make every probe fall into the bit vector, and
    no key that was added is denied, also after the filter went through its
    file. *)
From S2P Require Export Io Token.

Record BloomFilter := mkBloomFilter {
  bloom_bits : list Z;
  num_hash_functions : nat;
  bit_count : Z;
}.

(** ** Hashing *)

(** The two words of the 128-bit hash with seed zero. *)
Definition murmur3_hash128 (key : list Z) : Z * Z :=
  let chunks := (length key / 16)%nat in
  let h := foldl (murmur3_block key) (0, 0) (seq 0 chunks) in
  let '(h1, h2) := murmur3_tail (drop (chunks * 16) key) h in
  let h1 := Z.lxor h1 (wrap_u 64 (Z.of_nat (length key))) in
  let h2 := Z.lxor h2 (wrap_u 64 (Z.of_nat (length key))) in
  let h1 := wrapping_add h1 h2 in
  let h2 := wrapping_add h2 h1 in
  let h1 := fmix64 h1 in
  let h2 := fmix64 h2 in
  let h1 := wrapping_add h1 h2 in
  let h2 := wrapping_add h2 h1 in
  (wrap_s 64 h1, wrap_s 64 h2).

Definition get_bit_index (self : BloomFilter) (h1 h2 : Z) (i : nat) : Z :=
  let combined := wrap_s 64 (h1 + wrap_s 64 (Z.of_nat i * h2)) in
  let positive := Z.land (wrap_u 64 combined) 0x7FFFFFFFFFFFFFFF in
  positive mod bit_count self.

(** ** Adding and testing *)

Definition set_bit (bits : list Z) (bit : Z) : list Z :=
  let word := Z.to_nat (bit / 64) in
  let bit_in_word := bit mod 64 in
  if (word <? length bits)%nat
  then alter (fun w => Z.lor w (Z.shiftl 1 bit_in_word)) word bits
  else bits.

Definition test_bit (bits : list Z) (bit : Z) : bool :=
  match bits !! Z.to_nat (bit / 64) with
  | Some w => negb (Z.land w (Z.shiftl 1 (bit mod 64)) =? 0)
  | None => false
  end.

Definition BloomFilter_probes (self : BloomFilter) (key : list Z) : list Z :=
  let '(h1, h2) := murmur3_hash128 key in
  get_bit_index self h1 h2 <$> seq 0 (num_hash_functions self).

Definition BloomFilter_add (self : BloomFilter) (key : list Z) : BloomFilter :=
  mkBloomFilter (foldl set_bit (bloom_bits self) (BloomFilter_probes self key))
    (num_hash_functions self) (bit_count self).

Definition BloomFilter_might_contain (self : BloomFilter) (key : list Z) : bool :=
  forallb (test_bit (bloom_bits self)) (BloomFilter_probes self key).

(** ** Sizes *)

Section Sizing.
Context (bits_of : nat -> Z) (hashes_of : Z -> nat -> Z).

Definition optimal_num_bits (n : nat) : Z := Z.max (bits_of (Nat.max n 1)) 64.
Definition optimal_num_hashes (bits : Z) (n : nat) : nat :=
  Z.to_nat (Z.min (Z.max (hashes_of bits (Nat.max n 1)) 1) 30).

Definition div_ceil (a b : Z) : Z := (a + b - 1) / b.
Definition BloomFilter_new (num_elements : nat) : BloomFilter :=
  let bits := optimal_num_bits num_elements in
  mkBloomFilter (replicate (Z.to_nat (div_ceil bits 64)) 0) (optimal_num_hashes bits num_elements) bits.
End Sizing.

(** ** The file *)

Definition BloomFilter_serialize (self : BloomFilter) : list Z :=
  write_be 4 (Z.of_nat (num_hash_functions self)) ++ write_be 8 (bit_count self)
  ++ write_be 4 (wrap_u 32 (Z.of_nat (length (bloom_bits self))))
  ++ mjoin (write_be 8 <$> bloom_bits self).

Definition BloomFilter_deserialize : IoReader BloomFilter :=
  hashes ← io_u 4;
  bits ← io_u 8;
  word_count ← io_u 4;
  words ← io_repeat (Z.to_nat word_count) (io_u 8);
  mret (mkBloomFilter words (Z.to_nat hashes) bits).

(** * Every probe is in range *)

Definition bloom_wf (self : BloomFilter) : Prop :=
  64 <= bit_count self /\ bit_count self <= 64 * Z.of_nat (length (bloom_bits self))
  /\ (0 < num_hash_functions self <= 30)%nat /\ Forall is_u64 (bloom_bits self).

Lemma probe_range self key bit :
  bloom_wf self -> bit ∈ BloomFilter_probes self key -> 0 <= bit < bit_count self.
Proof.
  intros (Hb & _) Hin. unfold BloomFilter_probes in Hin. destruct (murmur3_hash128 key) as [h1 h2].
  apply list_elem_of_fmap in Hin as (i & -> & _). unfold get_bit_index. apply Z.mod_pos_bound. lia.
Qed.

Lemma probe_word self key bit :
  bloom_wf self -> bit ∈ BloomFilter_probes self key ->
  (Z.to_nat (bit / 64) < length (bloom_bits self))%nat.
Proof.
  intros Hwf Hin. pose proof (probe_range _ _ _ Hwf Hin) as Hr. destruct Hwf as (_ & Hl & _).
  apply Nat2Z.inj_lt. rewrite Z2Nat.id by (apply Z.div_pos; lia). apply Z.div_lt_upper_bound; lia.
Qed.

Lemma length_set_bit bits b : length (set_bit bits b) = length bits.
Proof. unfold set_bit. case_match; [apply length_alter|done]. Qed.

Lemma length_set_bits l bits : length (foldl set_bit bits l) = length bits.
Proof. revert bits. induction l as [|b l IH]; intros bits; [done|]. cbn [foldl]. by rewrite IH, length_set_bit. Qed.

Lemma bit_mask_u64 b : is_u64 (Z.shiftl 1 (b mod 64)).
Proof.
  pose proof (Z.mod_pos_bound b 64). rewrite Z.shiftl_mul_pow2 by lia. unfold in_u.
  pose proof (Z.pow_pos_nonneg 2 (b mod 64)). pose proof (Z.pow_lt_mono_r 2 (b mod 64) 64). lia.
Qed.

Lemma lor_u64 a b : is_u64 a -> is_u64 b -> is_u64 (Z.lor a b).
Proof.
  unfold in_u. intros Ha Hb. split; [apply Z.lor_nonneg; lia|].
  destruct (Z.eq_dec (Z.lor a b) 0) as [->|Hne]; [lia|].
  assert (0 <= Z.lor a b) by (apply Z.lor_nonneg; lia).
  apply Z.log2_lt_pow2; [lia|]. rewrite Z.log2_lor by lia. apply Z.max_lub_lt.
  - destruct (Z.eq_dec a 0) as [->|]; [by vm_compute|]. apply Z.log2_lt_pow2; lia.
  - destruct (Z.eq_dec b 0) as [->|]; [by vm_compute|]. apply Z.log2_lt_pow2; lia.
Qed.

Lemma set_bit_u64 bits b : Forall is_u64 bits -> Forall is_u64 (set_bit bits b).
Proof.
  intros Hb. unfold set_bit. case_match; [|done]. apply Forall_alter; [done|].
  intros w Hw ?. apply lor_u64; [done|apply bit_mask_u64].
Qed.

Lemma set_bits_u64 l bits : Forall is_u64 bits -> Forall is_u64 (foldl set_bit bits l).
Proof. revert bits. induction l as [|b l IH]; intros bits Hb; [done|]. by apply IH, set_bit_u64. Qed.

Lemma add_wf self key : bloom_wf self -> bloom_wf (BloomFilter_add self key).
Proof.
  intros (H1 & H2 & H3 & H4). unfold bloom_wf; simpl. rewrite length_set_bits. eauto using set_bits_u64.
Qed.

Lemma new_wf bits_of hashes_of n : bloom_wf (BloomFilter_new bits_of hashes_of n).
Proof.
  unfold bloom_wf, BloomFilter_new, optimal_num_hashes; simpl.
  set (b := optimal_num_bits bits_of n). assert (64 <= b) by (unfold b, optimal_num_bits; lia).
  rewrite length_replicate. split_and!; [done| |lia|lia|].
  - unfold div_ceil. rewrite Z2Nat.id by (apply Z.div_pos; lia).
    pose proof (Z.mul_succ_div_gt (b + 64 - 1) 64). lia.
  - apply Forall_replicate. unfold in_u. lia.
Qed.

(** * No key that was added is denied *)

Lemma land_bit_ne w b : 0 <= b -> (Z.land w (Z.shiftl 1 b) =? 0) = negb (Z.testbit w b).
Proof.
  intros Hb. rewrite Z.shiftl_1_l. destruct (Z.testbit w b) eqn:E; simpl.
  - apply Z.eqb_neq. intros H. apply (f_equal (fun z => Z.testbit z b)) in H.
    by rewrite Z.land_spec, Z.bits_0, E, Z.pow2_bits_true in H by done.
  - apply Z.eqb_eq. apply Z.bits_inj'. intros n Hn. rewrite Z.land_spec, Z.bits_0.
    destruct (decide (n = b)) as [->|]; [by rewrite E|]. rewrite Z.pow2_bits_false by done. by rewrite andb_false_r.
Qed.

Lemma test_bit_spec bits b :
  test_bit bits b = match bits !! Z.to_nat (b / 64) with Some w => Z.testbit w (b mod 64) | None => false end.
Proof.
  unfold test_bit. case_match; [|done]. rewrite land_bit_ne by (apply Z.mod_pos_bound; lia). apply negb_involutive.
Qed.

Lemma test_set_same bits b : (Z.to_nat (b / 64) < length bits)%nat -> test_bit (set_bit bits b) b = true.
Proof.
  intros Hl. rewrite test_bit_spec. unfold set_bit. rewrite (proj2 (Nat.ltb_lt _ _)) by done.
  rewrite list_lookup_alter_eq. destruct (lookup_lt_is_Some_2 _ _ Hl) as [w ->]; simpl.
  rewrite Z.lor_spec, Z.shiftl_1_l, Z.pow2_bits_true by (apply Z.mod_pos_bound; lia). apply orb_true_r.
Qed.

Lemma test_set_mono bits b c : test_bit bits c = true -> test_bit (set_bit bits b) c = true.
Proof.
  rewrite !test_bit_spec. unfold set_bit.
  destruct (Z.to_nat (b / 64) <? length bits)%nat; [|done].
  destruct (decide (Z.to_nat (b / 64) = Z.to_nat (c / 64))) as [Hw|Hw].
  - rewrite <- Hw, list_lookup_alter_eq. destruct (bits !! Z.to_nat (b / 64)); [|done]; simpl.
    intros Ht. by rewrite Z.lor_spec, Ht.
  - by rewrite list_lookup_alter_ne.
Qed.

Lemma test_sets l bits c :
  test_bit bits c = true \/ (c ∈ l /\ (Z.to_nat (c / 64) < length bits)%nat) -> test_bit (foldl set_bit bits l) c = true.
Proof.
  revert bits. induction l as [|b l IH]; intros bits Hc; cbn [foldl].
  - destruct Hc as [|[Hc _]]; [done|by apply not_elem_of_nil in Hc].
  - apply IH. rewrite length_set_bit. destruct Hc as [Hc|[[->|Hc]%elem_of_cons Hl]].
    + left. by apply test_set_mono.
    + left. by apply test_set_same.
    + by right.
Qed.

Lemma contains_add self key : bloom_wf self -> BloomFilter_might_contain (BloomFilter_add self key) key = true.
Proof.
  intros Hwf. apply forallb_forall. intros c Hc. apply list_elem_of_In in Hc. apply test_sets. right.
  change (c ∈ BloomFilter_probes self key) in Hc. split; [done|]. by eapply probe_word.
Qed.

Lemma contains_mono self k key :
  BloomFilter_might_contain self key = true -> BloomFilter_might_contain (BloomFilter_add self k) key = true.
Proof.
  unfold BloomFilter_might_contain. rewrite !forallb_forall. intros H c Hc. apply test_sets. left. by apply H.
Qed.

Lemma contains_adds l self key :
  bloom_wf self -> BloomFilter_might_contain self key = true \/ key ∈ l ->
  BloomFilter_might_contain (foldl BloomFilter_add self l) key = true.
Proof.
  revert self. induction l as [|k l IH]; intros self Hwf Hc; cbn [foldl].
  - destruct Hc as [|Hc]; [done|by apply not_elem_of_nil in Hc].
  - apply IH; [by apply add_wf|]. destruct Hc as [Hc|[->|Hc]%elem_of_cons]; [left|left|by right].
    + by apply contains_mono.
    + by apply contains_add.
Qed.

Lemma adds_wf l self : bloom_wf self -> bloom_wf (foldl BloomFilter_add self l).
Proof. revert self. induction l; intros self Hwf; [done|]. cbn [foldl]. eauto using add_wf. Qed.

Lemma adds_sizes l self :
  bit_count (foldl BloomFilter_add self l) = bit_count self
  /\ length (bloom_bits (foldl BloomFilter_add self l)) = length (bloom_bits self).
Proof.
  revert self. induction l as [|k l IH]; intros self; [done|]. cbn [foldl]. destruct (IH (BloomFilter_add self k)) as [-> ->].
  split; [done|]. apply length_set_bits.
Qed.

(** A filter whose sizes fit their fields is read back as it was. *)
Lemma parses_bloom self :
  bloom_wf self -> is_u64 (bit_count self) -> in_u 32 (Z.of_nat (length (bloom_bits self))) ->
  parses BloomFilter_deserialize self (BloomFilter_serialize self).
Proof.
  intros (H1 & H2 & H3 & H4) Hb Hl. unfold BloomFilter_deserialize, BloomFilter_serialize.
  rewrite wrap_u_id by done.
  eapply parses_bind; [apply parses_u; unfold in_u; simpl; lia|].
  eapply parses_bind; [by apply parses_u|]. eapply parses_bind; [by apply parses_u|].
  rewrite !Nat2Z.id. destruct self as [words hashes bits]; simpl in *.
  apply (parses_map _ (fun words => mkBloomFilter words hashes bits)), parses_repeat.
  apply (Forall_impl _ _ _ H4). intros w Hw. by apply parses_u.
Qed.

Lemma parses_filled bits_of hashes_of n ks :
  optimal_num_bits bits_of n < 2 ^ 37 ->
  let f := foldl BloomFilter_add (BloomFilter_new bits_of hashes_of n) ks in
  parses BloomFilter_deserialize f (BloomFilter_serialize f).
Proof.
  intros Hb f. destruct (adds_sizes ks (BloomFilter_new bits_of hashes_of n)) as [Ec El]. fold f in Ec, El.
  apply parses_bloom; [apply adds_wf, new_wf|..].
  - rewrite Ec. unfold in_u; simpl. unfold optimal_num_bits in *. lia.
  - rewrite El. simpl. rewrite length_replicate. unfold div_ceil, in_u, optimal_num_bits in *.
    rewrite Z2Nat.id by (apply Z.div_pos; lia). split; [apply Z.div_pos; lia|]. apply Z.div_lt_upper_bound; lia.
Qed.

(** C30.  Whatever the computed sizes, a filter filled with keys and read back
    from its file answers yes for each of them, and every probe of every key is
    a bit below [bit_count] in a word the vector has; so no word is skipped
    silently when a key is added.  The sizes must fit the fields of the file. *)
Theorem bloom_sound (bits_of : nat -> Z) (hashes_of : Z -> nat -> Z) (n : nat) (ks : list (list Z)) (rest : list Z)
    (Hb : optimal_num_bits bits_of n < 2 ^ 37) :
  exists f, BloomFilter_deserialize
      (BloomFilter_serialize (foldl BloomFilter_add (BloomFilter_new bits_of hashes_of n) ks) ++ rest) = inr (f, rest)
  /\ (forall k, k ∈ ks -> BloomFilter_might_contain f k = true)
  /\ (forall k bit, bit ∈ BloomFilter_probes f k ->
        0 <= bit < bit_count f /\ (Z.to_nat (bit / 64) < length (bloom_bits f))%nat).
Proof.
  set (f := foldl BloomFilter_add (BloomFilter_new bits_of hashes_of n) ks).
  pose proof (new_wf bits_of hashes_of n) as Hn. assert (Hf : bloom_wf f) by by apply adds_wf.
  exists f. split_and!.
  - by apply parses_filled.
  - intros k Hk. apply contains_adds; [done|]. by right.
  - intros k bit Hk. split; [by eapply probe_range|by eapply probe_word].
Qed.

Lemma bloom_sound_witness :
  exists g, BloomFilter_deserialize (BloomFilter_serialize
      (foldl BloomFilter_add (BloomFilter_new (fun n => Z.of_nat n * 10) (fun _ _ => 7) 20) [[1; 2]; [3]]) ++ [9])
      = inr (g, [9])
    /\ BloomFilter_might_contain g [3] = true.
Proof.
  destruct (bloom_sound (fun n => Z.of_nat n * 10) (fun _ _ => 7) 20 [[1; 2]; [3]] [9]
    ltac:(vm_compute; done)) as (g & Hg & Hk & _).
  exists g. split; [exact Hg|]. apply Hk, list_elem_of_further, list_elem_of_here.
Defined.

(** The filter is not the constant answer. *)
Lemma bloom_denies :
  BloomFilter_might_contain
    (foldl BloomFilter_add (BloomFilter_new (fun n => Z.of_nat n * 10) (fun _ _ => 7) 20) [[1; 2]; [3]]) [4] = false.
Proof. vm_compute. reflexivity. Qed.
