(* ===== verification/Merkle.v ===== *)
(** * Merkle trees

    crates/cassandra-repair/src: merkle.rs builds a hash tree over the
    partitions of a token range and compares two trees, validator.rs hashes the
    partitions of a replica.  The digest is a library function, a parameter
    here.  The theorems say that comparing the trees of two replicas
    finds the leaf ranges in which their partitions differ, and only those, as long
    as the digest has no collision among the strings hashed, and that this
    fails for ranges that wrap around. *)
From S2P Require Export Prelude OrdMap Token.

Definition DEFAULT_DEPTH : Z := 15.
Abbreviation TreeHash := (list Z) (only parsing).

Record MerkleLeaf := mkMerkleLeaf {
  leaf_start : Z;
  leaf_end : Z;
  leaf_hash : TreeHash;
  partition_count : Z
}.
Record MerkleTree := mkMerkleTree {
  tree_depth : Z;
  tree_start : Z;
  tree_end : Z;
  leaves : list MerkleLeaf;
  internal : list (list TreeHash);
  root_hash : TreeHash
}.

(** * merkle.rs *)

(** [1u64 << depth], the amount taken modulo 64 *)
Definition tree_leaf_count (depth : Z) : Z := Z.shiftl 1 (Z.land depth 63).
Definition total_width (start_raw end_raw : Z) : Z :=
  if start_raw <? end_raw then wrap_u 128 (wrap_s 64 (end_raw - start_raw))
  else wrap_u 128 (i64_MAX - start_raw + (end_raw - i64_MIN) + 1).
(** [start_raw.wrapping_add((i as i128 * leaf_width as i128) as i64)] *)
Definition leaf_bound (start_raw leaf_width i : Z) : Z :=
  wrap_s 64 (start_raw + wrap_s 64 (wrap_s 128 (i * wrap_s 128 leaf_width))).

(** [start <= end] or a range that wraps around *)
Definition in_leaf (leaf_start_raw leaf_end_raw tok_raw : Z) : bool :=
  if leaf_start_raw <=? leaf_end_raw then (leaf_start_raw <=? tok_raw) && (tok_raw <? leaf_end_raw)
  else (leaf_start_raw <=? tok_raw) || (tok_raw <? leaf_end_raw).

(** The partitions from the index on that fall in the leaf, up to the first that does not,
    and the rest. *)
Fixpoint take_leaf (leaf_start_raw leaf_end_raw : Z) (partition_hashes : list (Z * TreeHash))
    : list TreeHash * list (Z * TreeHash) :=
  match partition_hashes with
  | [] => ([], [])
  | (tok, hash) :: rest =>
      if in_leaf leaf_start_raw leaf_end_raw tok then
        let '(hashes, rest') := take_leaf leaf_start_raw leaf_end_raw rest in (hash :: hashes, rest')
      else ([], partition_hashes)
  end.

Definition zero_hash : TreeHash := repeat 0 16.

Section digest.
Context (md5 : list Z -> TreeHash).

(** The leaves from index [i] on, [n] of them. *)
Fixpoint build_leaves (start_raw end_raw leaf_width leaf_count : Z) (n : nat) (i : Z)
    (partition_hashes : list (Z * TreeHash)) : list MerkleLeaf :=
  match n with
  | O => []
  | S n =>
      let leaf_start_raw := leaf_bound start_raw leaf_width i in
      let leaf_end_raw :=
        if i =? leaf_count - 1 then end_raw else leaf_bound start_raw leaf_width (i + 1) in
      let '(hashes, rest) := take_leaf leaf_start_raw leaf_end_raw partition_hashes in
      mkMerkleLeaf leaf_start_raw leaf_end_raw (md5 (mjoin hashes)) (Z.of_nat (length hashes))
        :: build_leaves start_raw end_raw leaf_width leaf_count n (i + 1) rest
  end.

(** [chunks(2)] *)
Fixpoint parent_level (level : list TreeHash) : list TreeHash :=
  match level with
  | a :: b :: level => md5 (a ++ b) :: parent_level level
  | [a] => [md5 a]
  | [] => []
  end.

(** The levels below the last one, and the last one, of at most one hash.  A level
    is at least halved while it has two hashes, so its length is enough fuel. *)
Fixpoint build_levels (fuel : nat) (current_level : list TreeHash) : list (list TreeHash) * list TreeHash :=
  match fuel, current_level with
  | S fuel, _ :: _ :: _ =>
      let '(internal, last) := build_levels fuel (parent_level current_level) in
      (current_level :: internal, last)
  | _, _ => ([], current_level)
  end.

Definition MerkleTree_build (range_start range_end depth : Z) (partition_hashes : list (Z * TreeHash)) : MerkleTree :=
  let leaf_count := tree_leaf_count depth in
  let leaf_width := total_width range_start range_end / leaf_count in
  let leaves := build_leaves range_start range_end leaf_width leaf_count (Z.to_nat leaf_count) 0 partition_hashes in
  let '(internal, last) := build_levels (length leaves) (leaf_hash <$> leaves) in
  mkMerkleTree depth range_start range_end leaves internal
    (match last with [root] => root | _ => zero_hash end).

Definition hash_partition (partition_key data_hash : list Z) : TreeHash := md5 (partition_key ++ data_hash).

(** * validator.rs *)

Definition partition_input (partition_key data : list Z) : list Z :=
  write_be 4 (wrap_u 32 (Z.of_nat (length partition_key))) ++ partition_key ++ data.
Definition hash_partition_data (partition_key data : list Z) : TreeHash := md5 (partition_input partition_key data).

Definition token_in_range (tok : Z) (range : Z * Z) : bool :=
  let '(start, end_) := range in
  if start <=? end_ then (start <=? tok) && (tok <? end_) else (start <=? tok) || (tok <? end_).

Definition sort_by_token : list (Z * TreeHash) -> list (Z * TreeHash) := sort_by (fun p q => cmp p.1 q.1).

Definition validate (partitions : list (list Z * list Z)) (range : Z * Z) (depth : Z) : MerkleTree :=
  let hashes :=
    List.filter (fun p => token_in_range p.1 range)
      ((fun '(key, data) => (Token_from_partition_key key, hash_partition_data key data)) <$> partitions) in
  MerkleTree_build range.1 range.2 depth (sort_by_token hashes).

Definition validate_from_hashes (hashes : list (Z * TreeHash)) (range : Z * Z) (depth : Z) : MerkleTree :=
  MerkleTree_build range.1 range.2 depth
    (List.filter (fun p => token_in_range p.1 range) (sort_by_token hashes)).
End digest.

(** [None] is a failed assertion. *)
Definition MerkleTree_diff (self other : MerkleTree) : option (list (Z * Z)) :=
  if negb (tree_depth self =? tree_depth other) then None
  else if negb (length (leaves self) =? length (leaves other))%nat then None
  else if bool_decide (root_hash self = root_hash other) then Some []
  else
    Some (omap (fun '(local, remote) =>
            if bool_decide (leaf_hash local = leaf_hash remote) then None
            else Some (leaf_start local, leaf_end local))
          (zip (leaves self) (leaves other))).

Definition MerkleTree_leaf_count (self : MerkleTree) : nat := length (leaves self).
Definition MerkleTree_total_partitions (self : MerkleTree) : Z :=
  wrap_u 64 (foldr Z.add 0 (partition_count <$> leaves self)).

(** Ranges that wrap around are not compared: the validator sorts by token, so the
    partitions before the end of the range come first, and once the leaves
    have passed them those at its start are never hashed.  Two replicas that differ at token 200
    of the range from 100 round to -100 get no difference, whatever the digest. *)
Theorem wrapping_range_missed (md5 : list Z -> TreeHash) (h h1 h2 : TreeHash) :
  MerkleTree_diff (validate_from_hashes md5 [(200, h1); (-200, h)] (100, -100) 1)
                  (validate_from_hashes md5 [(200, h2); (-200, h)] (100, -100) 1) = Some []
  /\ token_in_range 200 (100, -100) = true
  /\ MerkleTree_total_partitions (validate_from_hashes md5 [(200, h1); (-200, h)] (100, -100) 1) = 1.
Proof.
  split; [|split; [done|vm_compute; reflexivity]].
  unfold MerkleTree_diff. rewrite bool_decide_true; [done|vm_compute; reflexivity].
Qed.

(** * What the leaves of a range that does not wrap hold *)

Definition part (a b : Z) (l : list (Z * TreeHash)) : list (Z * TreeHash) :=
  List.filter (fun p => (a <=? p.1) && (p.1 <? b)) l.

Abbreviation token_le := (fun p q : Z * TreeHash => le_of p.1 q.1).

(** The walk takes all the partitions of the leaf. *)
Lemma take_leaf_sorted a b l :
  a <= b -> StronglySorted token_le l -> (forall p, p ∈ l -> a <= p.1) ->
  take_leaf a b l = ((part a b l).*2, List.filter (fun p => b <=? p.1) l).
Proof.
  intros Hab. induction 1 as [|[t h] l Hs IH Hx]; intros Ha; [done|]. cbn [take_leaf]. unfold in_leaf.
  assert (a <= t) by (apply (Ha (t, h)); left). rewrite Forall_forall in Hx.
  rewrite (proj2 (Z.leb_le a b)), (proj2 (Z.leb_le a t)) by done. cbn [andb].
  destruct (Z.ltb_spec t b) as [Hlt|Hge].
  - rewrite IH by (intros; apply Ha; by right). unfold part. cbn [List.filter fst].
    rewrite (proj2 (Z.leb_le a t)), (proj2 (Z.ltb_lt t b)), (proj2 (Z.leb_gt b t)) by lia. done.
  - assert (forall p, p ∈ (t, h) :: l -> b <= p.1) as Hb.
    { intros p [->|Hp]%elem_of_cons; [done|]. pose proof (proj1 (le_of_Z t p.1) (Hx p Hp)). lia. }
    unfold part. rewrite (filter_none (fun p => (a <=? p.1) && (p.1 <? b))).
    + f_equal. symmetry. rewrite (filter_cong _ (fun _ => true)).
      * cbn [List.filter]. f_equal. clear. induction l; cbn; by f_equal.
      * intros p Hp%Hb. by apply Z.leb_le.
    + intros p Hp%Hb. rewrite (proj2 (Z.ltb_ge p.1 b)) by done. apply andb_false_r.
Qed.

Section leaves.
Context (md5 : list Z -> TreeHash) (s e w n : Z).
Hypothesis Hs : is_i64 s.
Hypothesis He : is_i64 e.
Hypothesis Hw : 0 <= w.
Hypothesis Hn : 0 < n.
Hypothesis Hwn : n * w <= e - s.

(** The lower bound of leaf [j]; the end of the range for the one past the last. *)
Definition bound (j : Z) : Z := if j =? n then e else s + j * w.
Definition leaf_string (l : list (Z * TreeHash)) (j : Z) : list Z := mjoin (part (bound j) (bound (j + 1)) l).*2.
Definition leaf_of (l : list (Z * TreeHash)) (j : Z) : MerkleLeaf :=
  mkMerkleLeaf (bound j) (bound (j + 1)) (md5 (leaf_string l j))
    (Z.of_nat (length (part (bound j) (bound (j + 1)) l))).

Lemma bound_mono i j : 0 <= i <= j -> j <= n -> bound i <= bound j.
Proof. unfold bound. intros. z_tests; nia. Qed.

Lemma leaf_bound_small j : 0 <= j < n -> leaf_bound s w j = s + j * w.
Proof.
  intros Hj. unfold leaf_bound, in_s in *. cbn in Hs, He.
  assert (0 <= j * w <= e - s) by nia. assert (w <= e - s) by nia.
  rewrite (wrap_s_id 128 w) by (unfold in_s; lia). rewrite (wrap_s_id 128 (j * w)) by (unfold in_s; lia).
  rewrite wrap_s_add_r, wrap_s_id; unfold in_s; lia.
Qed.

Lemma build_leaves_spec l k i :
  StronglySorted token_le l -> (forall p, p ∈ l -> bound i <= p.1) -> 0 <= i -> i + Z.of_nat k = n ->
  build_leaves md5 s e w n k i l = leaf_of l <$> seqZ i (Z.of_nat k).
Proof.
  revert i l. induction k as [|k IH]; intros i l Hl Hb Hi Hk; [done|].
  cbn [build_leaves]. rewrite seqZ_cons by lia. rewrite fmap_cons. rewrite !leaf_bound_small by lia.
  assert (s + i * w = bound i) as -> by (unfold bound; z_tests).
  assert ((if i =? n - 1 then e else leaf_bound s w (i + 1)) = bound (i + 1)) as ->.
  { unfold bound. z_tests. by rewrite leaf_bound_small by lia. }
  pose proof (bound_mono i (i + 1) ltac:(lia) ltac:(lia)).
  rewrite take_leaf_sorted by done. f_equal.
  { unfold leaf_of. by rewrite length_fmap. }
  replace (Z.pred (Z.of_nat (S k))) with (Z.of_nat k) by lia. rewrite <- Z.add_1_r.
  rewrite IH; [|by apply filter_sorted| |lia..].
  - apply list_fmap_ext. intros m j [Hj1 Hj2]%lookup_seqZ.
    assert (part (bound j) (bound (j + 1)) (List.filter (fun p => bound (i + 1) <=? p.1) l)
            = part (bound j) (bound (j + 1)) l) as E.
    { unfold part. rewrite filter_filter. apply filter_cong. intros p _.
      pose proof (bound_mono (i + 1) j ltac:(lia) ltac:(lia)).
      destruct (Z.leb_spec (bound j) p.1); [|by rewrite andb_false_r].
      by rewrite (proj2 (Z.leb_le (bound (i + 1)) p.1)) by lia. }
    unfold leaf_of, leaf_string. by rewrite !E.
  - intros p [_ Hp]%elem_of_filter_bool. by apply Z.leb_le.
Qed.
End leaves.

(** * Equal roots, equal leaves *)

(** The digest tells the strings of the list apart. *)
Definition collision_free (md5 : list Z -> TreeHash) (strings : list (list Z)) : Prop :=
  forall x y, x ∈ strings -> y ∈ strings -> md5 x = md5 y -> x = y.

Lemma collision_free_mono md5 l k : collision_free md5 k -> (forall x, x ∈ l -> x ∈ k) -> collision_free md5 l.
Proof. unfold collision_free. naive_solver. Qed.

(** The strings hashed for the parents of a level. *)
Fixpoint pair_strings (level : list TreeHash) : list (list Z) :=
  match level with
  | a :: b :: level => (a ++ b) :: pair_strings level
  | [a] => [a]
  | [] => []
  end.

Section levels.
Context (md5 : list Z -> TreeHash).
Hypothesis md5_length : forall x, length (md5 x) = 16%nat.

Abbreviation hashes_ok := (Forall (fun h : TreeHash => length h = 16%nat)).

Lemma two_step_ind (P : list TreeHash -> Prop) :
  P [] -> (forall a, P [a]) -> (forall a b l, P l -> P (a :: b :: l)) -> forall l, P l.
Proof.
  intros H0 H1 H2 l. enough (P l /\ forall a, P (a :: l)) by naive_solver. induction l as [|b l [IH1 IH2]]; auto.
Qed.

Lemma parent_level_hash level : parent_level md5 level = md5 <$> pair_strings level.
Proof. induction level as [|a|a b level IH] using two_step_ind; [done..|]. cbn [parent_level pair_strings]. by rewrite IH. Qed.

Lemma parent_level_ok level : hashes_ok (parent_level md5 level).
Proof. rewrite parent_level_hash. apply Forall_fmap, Forall_true. intros x. apply md5_length. Qed.

Lemma length_parent_level level : (length (parent_level md5 level) = Nat.div2 (S (length level)))%nat.
Proof. induction level as [|a|a b level IH] using two_step_ind; [done..|]. cbn [parent_level length]. by rewrite IH. Qed.

Lemma pair_strings_inj l k :
  hashes_ok l -> hashes_ok k -> length l = length k -> pair_strings l = pair_strings k -> l = k.
Proof.
  revert k. induction l as [|a|a b l IH] using two_step_ind; intros k Hl Hk E H.
  - by destruct k.
  - destruct k as [|c [|]]; by simplify_eq/=.
  - destruct k as [|c [|d k]]; try done. cbn in H. injection H as H1 H2. injection E as E.
    apply Forall_cons in Hl as [Ha [Hb Hl]%Forall_cons], Hk as [Hc [Hd Hk]%Forall_cons].
    apply app_inj_1 in H1 as [-> ->]; [|lia]. by rewrite (IH k).
Qed.

Lemma fmap_inj_on l k :
  collision_free md5 (l ++ k) -> md5 <$> l = md5 <$> k -> l = k.
Proof.
  revert k. induction l as [|x l IH]; intros [|y k] Hcf E; try done. injection E as E1 E2.
  f_equal; [apply Hcf; set_solver|]. apply IH; [|done]. eapply collision_free_mono; [done|]. set_solver.
Qed.

Lemma build_levels_root fuel level :
  (0 < length level <= fuel)%nat -> exists root, (build_levels md5 fuel level).2 = [root].
Proof.
  revert level. induction fuel as [|fuel IH]; intros level Hf; [lia|].
  destruct level as [|a [|b level]]; cbn [length] in Hf; [lia|by exists a|]. cbn [build_levels].
  destruct (IH (parent_level md5 (a :: b :: level))) as [root E].
  { rewrite length_parent_level. cbn [length]. pose proof (Nat.div2_decr (S (length level)) (length level) ltac:(lia)).
    assert (Nat.div2 (S (S (S (length level)))) = S (Nat.div2 (S (length level)))) as -> by done.
    revert H. generalize (Nat.div2 (S (length level))). lia. }
  exists root. by destruct (build_levels _ _ _).
Qed.

Lemma build_levels_inj fuel l k :
  hashes_ok l -> hashes_ok k -> length l = length k ->
  collision_free md5 (mjoin (pair_strings <$> (build_levels md5 fuel l).1) ++ mjoin (pair_strings <$> (build_levels md5 fuel k).1)) ->
  (build_levels md5 fuel l).2 = (build_levels md5 fuel k).2 -> l = k.
Proof.
  revert l k. induction fuel as [|fuel IH]; intros l k Hl Hk E Hcf H; [done|].
  destruct l as [|a [|b l]], k as [|c [|d k]]; try done. cbn [build_levels] in *.
  set (l' := a :: b :: l) in *. set (k' := c :: d :: k) in *.
  specialize (IH (parent_level md5 l') (parent_level md5 k') (parent_level_ok _) (parent_level_ok _)).
  destruct (build_levels md5 fuel (parent_level md5 l')) as [il rl].
  destruct (build_levels md5 fuel (parent_level md5 k')) as [ik rk]. cbn [fst snd] in *.
  rewrite !fmap_cons, !mjoin_cons in Hcf. apply pair_strings_inj; [done..|].
  apply fmap_inj_on; [eapply collision_free_mono; [done|]; set_solver|]. rewrite <- !parent_level_hash.
  apply IH; [by rewrite !length_parent_level, E| |done]. eapply collision_free_mono; [done|]. set_solver.
Qed.

Lemma mjoin_hashes_inj (l k : list TreeHash) : hashes_ok l -> hashes_ok k -> mjoin l = mjoin k -> l = k.
Proof.
  intros Hl. revert k. induction Hl as [|x l Hx Hl IH]; intros k Hk E; destruct Hk as [|y k Hy Hk]; [done|..].
  - apply (f_equal length) in E. rewrite mjoin_cons, length_app in E. cbn in E. lia.
  - apply (f_equal length) in E. rewrite mjoin_cons, length_app in E. cbn in E. lia.
  - rewrite !mjoin_cons in E. apply app_inj_1 in E as [-> E]; [|lia]. by rewrite (IH k).
Qed.
End levels.

(** * Comparing two trees *)

Section diff.
Context (md5 : list Z -> TreeHash).
Hypothesis md5_length : forall x, length (md5 x) = 16%nat.
Context (s e depth : Z).
Hypothesis Hs : is_i64 s.
Hypothesis He : is_i64 e.
Hypothesis Hse : 0 < e - s < 2 ^ 63.
Hypothesis Hdepth : 0 <= depth < 64.

Abbreviation n := (tree_leaf_count depth).
Abbreviation w := (total_width s e / tree_leaf_count depth).
Abbreviation bound := (bound s e w n).

(** The strings hashed while a tree is built. *)
Definition tree_strings (l : list (Z * TreeHash)) : list (list Z) :=
  (leaf_string s e w n l <$> seqZ 0 n) ++ mjoin (pair_strings <$> internal (MerkleTree_build md5 s e depth l)).

Lemma leaf_count_pos : 0 < n.
Proof.
  unfold tree_leaf_count. change 63 with (Z.ones 6). rewrite Z.land_ones, Z.mod_small, Z.shiftl_1_l by (cbn in *; lia). lia.
Qed.

Lemma width_ok : 0 <= w /\ n * w <= e - s.
Proof.
  pose proof leaf_count_pos. unfold total_width. rewrite (proj2 (Z.ltb_lt s e)) by lia.
  rewrite wrap_s_id, wrap_u_id by (unfold in_s, in_u; lia). split; [apply Z.div_pos; lia|apply Z.mul_div_le; lia].
Qed.

Definition list_ok (l : list (Z * TreeHash)) : Prop :=
  StronglySorted token_le l /\ Forall (fun p => s <= p.1 < e /\ length p.2 = 16%nat) l.

Lemma bound_ends : bound 0 = s /\ bound n = e.
Proof. pose proof leaf_count_pos. unfold Merkle.bound. z_tests. Qed.

Lemma build_leaves_all l :
  list_ok l -> leaves (MerkleTree_build md5 s e depth l) = leaf_of md5 s e w n l <$> seqZ 0 n.
Proof.
  intros [Hl Hin]. pose proof leaf_count_pos as Hn. destruct width_ok as [Hw Hwn]. unfold MerkleTree_build.
  destruct (build_levels _ _ _) as [i r]. cbn [leaves]. rewrite build_leaves_spec; try done; try lia.
  - by rewrite Z2Nat.id by lia.
  - rewrite (proj1 bound_ends). rewrite Forall_forall in Hin. intros p Hp. by apply Hin.
Qed.

Lemma part_hashes_ok a b l : list_ok l -> Forall (fun h => length h = 16%nat) (part a b l).*2.
Proof.
  intros [_ Hin]. apply Forall_fmap, Forall_forall. intros p [Hp _]%elem_of_filter_bool.
  rewrite Forall_forall in Hin. by apply Hin.
Qed.

Lemma leaf_string_eq l k j :
  list_ok l -> list_ok k -> collision_free md5 (tree_strings l ++ tree_strings k) -> 0 <= j < n ->
  md5 (leaf_string s e w n l j) = md5 (leaf_string s e w n k j)
  <-> (part (bound j) (bound (j + 1)) l).*2 = (part (bound j) (bound (j + 1)) k).*2.
Proof.
  intros Hl Hk Hcf Hj. split; [|unfold leaf_string; by intros ->]. intros E.
  apply mjoin_hashes_inj; [by apply part_hashes_ok..|]. apply Hcf; [| |done]; apply elem_of_app; [left|right];
    apply elem_of_app; left; apply list_elem_of_fmap; exists j; (split; [done|]); apply elem_of_seqZ; lia.
Qed.

Lemma root_eq l k :
  list_ok l -> list_ok k -> collision_free md5 (tree_strings l ++ tree_strings k) ->
  root_hash (MerkleTree_build md5 s e depth l) = root_hash (MerkleTree_build md5 s e depth k) ->
  leaf_hash <$> leaves (MerkleTree_build md5 s e depth l) = leaf_hash <$> leaves (MerkleTree_build md5 s e depth k).
Proof.
  intros Hl Hk Hcf. pose proof (build_leaves_all l Hl) as El. pose proof (build_leaves_all k Hk) as Ek.
  assert (Hcf' : collision_free md5 (mjoin (pair_strings <$> internal (MerkleTree_build md5 s e depth l))
      ++ mjoin (pair_strings <$> internal (MerkleTree_build md5 s e depth k)))).
  { eapply collision_free_mono; [done|]. unfold tree_strings. set_solver. }
  clear Hcf. revert El Ek Hcf'. unfold MerkleTree_build.
  set (ll := build_leaves _ _ _ _ _ _ _ l). set (lk := build_leaves _ _ _ _ _ _ _ k).
  destruct (build_levels md5 (length ll) (leaf_hash <$> ll)) as [il rl] eqn:Bl.
  destruct (build_levels md5 (length lk) (leaf_hash <$> lk)) as [ik rk] eqn:Bk. cbn [internal leaves root_hash].
  intros El Ek Hcf' Hroot. pose proof leaf_count_pos as Hn.
  assert (length ll = Z.to_nat n /\ length lk = Z.to_nat n) as [Ll Lk] by (rewrite El, Ek, !length_fmap, !length_seqZ; done).
  destruct (build_levels_root md5 (length ll) (leaf_hash <$> ll)) as [x Hx]; [rewrite length_fmap; lia|].
  destruct (build_levels_root md5 (length lk) (leaf_hash <$> lk)) as [y Hy]; [rewrite length_fmap; lia|].
  rewrite Bl in Hx. rewrite Bk in Hy. cbn [snd] in Hx, Hy. subst rl rk. subst x.
  apply (build_levels_inj md5 md5_length (length ll)).
  - rewrite El. apply Forall_fmap, Forall_fmap, Forall_true. intros j. apply md5_length.
  - rewrite Ek. apply Forall_fmap, Forall_fmap, Forall_true. intros j. apply md5_length.
  - rewrite !length_fmap. lia.
  - rewrite Bl. rewrite Ll, <- Lk, Bk. done.
  - rewrite Bl. rewrite Ll, <- Lk, Bk. done.
Qed.
(** The ranges of the leaves that hold different partitions. *)
Definition differing (l k : list (Z * TreeHash)) : list (Z * Z) :=
  omap (fun j => if bool_decide ((part (bound j) (bound (j + 1)) l).*2 = (part (bound j) (bound (j + 1)) k).*2) then None
                 else Some (bound j, bound (j + 1))) (seqZ 0 n).

Lemma tree_diff l k :
  list_ok l -> list_ok k -> collision_free md5 (tree_strings l ++ tree_strings k) ->
  MerkleTree_diff (MerkleTree_build md5 s e depth l) (MerkleTree_build md5 s e depth k) = Some (differing l k).
Proof.
  intros Hl Hk Hcf. unfold MerkleTree_diff. pose proof (root_eq l k Hl Hk Hcf) as Hroot.
  rewrite !build_leaves_all, !length_fmap, Nat.eqb_refl in * by done.
  assert (forall l, tree_depth (MerkleTree_build md5 s e depth l) = depth) as Hd.
  { intros l'. unfold MerkleTree_build. by destruct (build_levels _ _ _). }
  rewrite !Hd, Z.eqb_refl. cbn [negb].
  assert (forall j, j ∈ seqZ 0 n ->
    bool_decide (md5 (leaf_string s e w n l j) = md5 (leaf_string s e w n k j))
    = bool_decide ((part (bound j) (bound (j + 1)) l).*2 = (part (bound j) (bound (j + 1)) k).*2)) as Hj.
  { intros j Hj%elem_of_seqZ. apply bool_decide_ext, leaf_string_eq; (done || lia). }
  unfold differing. case_bool_decide as Er.
  - f_equal. specialize (Hroot Er). rewrite <- !list_fmap_compose in Hroot. revert Hj Hroot. generalize (seqZ 0 n) as js.
    induction js as [|j js IH]; intros Hj E; [done|]. injection E as E1 E2. cbn [omap list_omap].
    rewrite <- Hj, bool_decide_true by (done || left). apply IH; [|done]. intros i Hi. apply Hj. by right.
  - f_equal. revert Hj. clear Hroot. generalize (seqZ 0 n) as js.
    induction js as [|j js IH]; intros Hj; [done|]. cbn [fmap list_fmap zip zip_with omap list_omap leaf_of leaf_hash leaf_start leaf_end].
    rewrite <- Hj by left. case_bool_decide; [|f_equal]; apply IH; intros i Hi; apply Hj; by right.
Qed.

Lemma leaf_range j : 0 <= j < n -> s <= bound j /\ bound j <= bound (j + 1) /\ bound (j + 1) <= e.
Proof.
  intros Hj. destruct width_ok as [Hw Hwn]. destruct bound_ends as [H0 H1]. pose proof leaf_count_pos.
  assert (bound 0 <= bound j) by (apply bound_mono; lia).
  assert (bound j <= bound (j + 1)) by (apply bound_mono; lia).
  assert (bound (j + 1) <= bound n) by (apply bound_mono; lia). lia.
Qed.

(** Every token of the range is in one leaf. *)
Lemma leaf_of_token t : s <= t < e -> exists j, 0 <= j < n /\ bound j <= t < bound (j + 1).
Proof.
  intros Ht. pose proof leaf_count_pos as Hn. destruct bound_ends as [H0 H1].
  enough (forall i, 0 <= i -> i <= n -> t < bound i -> exists j, 0 <= j < n /\ bound j <= t < bound (j + 1)) as H.
  { apply (H n); lia. }
  refine (natlike_ind _ _ _).
  - lia.
  - intros i Hi IH Hi' Hti. destruct (Z.lt_ge_cases t (bound i)); [apply IH; lia|]. exists i. rewrite Z.add_1_r. lia.
Qed.
End diff.

(** * Comparing two replicas *)

Lemma range_tokens s e t : s <= e -> token_in_range t (s, e) = true <-> s <= t < e.
Proof. intros H. unfold token_in_range. rewrite (proj2 (Z.leb_le s e)) by lia. by rewrite andb_true_iff, Z.leb_le, Z.ltb_lt. Qed.

Section replicas.
Context (md5 : list Z -> TreeHash).

(** The entry of a partition, and the sorted entries of a replica in a range. *)
Definition entry (p : list Z * list Z) : Z * TreeHash := (Token_from_partition_key p.1, hash_partition_data md5 p.1 p.2).
Definition replica_entries (partitions : list (list Z * list Z)) (range : Z * Z) : list (Z * TreeHash) :=
  sort_by_token (List.filter (fun p => token_in_range p.1 range) (entry <$> partitions)).

(** All the strings hashed while a replica is validated. *)
Definition validate_strings (partitions : list (list Z * list Z)) (range : Z * Z) (depth : Z) : list (list Z) :=
  (uncurry partition_input <$> partitions) ++ tree_strings md5 range.1 range.2 depth (replica_entries partitions range).

Lemma validate_build partitions range depth :
  validate md5 partitions range depth = MerkleTree_build md5 range.1 range.2 depth (replica_entries partitions range).
Proof.
  unfold validate, replica_entries. do 3 f_equal. apply list_fmap_ext. by intros i [k d].
Qed.

Lemma elem_of_entries partitions range x :
  x ∈ replica_entries partitions range <-> exists p, p ∈ partitions /\ x = entry p /\ token_in_range x.1 range = true.
Proof.
  unfold replica_entries, sort_by_token. rewrite sort_by_perm, elem_of_filter_bool, list_elem_of_fmap. naive_solver.
Qed.

Lemma partition_input_inj p q :
  Z.of_nat (length p.1) < 2 ^ 32 -> Z.of_nat (length q.1) < 2 ^ 32 ->
  uncurry partition_input p = uncurry partition_input q -> p = q.
Proof.
  destruct p as [k d], q as [k' d']. unfold uncurry, partition_input. cbn [fst]. intros Hk Hk'. rewrite !wrap_u_id by (unfold in_u; lia).
  intros [E1 E2]%app_inj_1; [|by rewrite !length_write_be]. apply (f_equal read_u) in E1.
  rewrite !read_u_write in E1 by (unfold in_u; cbn; lia). apply app_inj_1 in E2 as [-> ->]; [done|lia].
Qed.

(** The replicas hold different data under the key. *)
Definition differ_at (a b : list (list Z * list Z)) (key : list Z) : Prop :=
  exists data, ~ ((key, data) ∈ a <-> (key, data) ∈ b).

Context (a b : list (list Z * list Z)) (s e depth : Z).
Hypothesis md5_length : forall x, length (md5 x) = 16%nat.
Hypothesis Hs : is_i64 s.
Hypothesis He : is_i64 e.
Hypothesis Hse : 0 < e - s < 2 ^ 63.
Hypothesis Hdepth : 0 <= depth < 64.
Hypothesis Hkeys : Forall (fun p => Z.of_nat (length p.1) < 2 ^ 32) (a ++ b).
Hypothesis Hcf : collision_free md5 (validate_strings a (s, e) depth ++ validate_strings b (s, e) depth).

Lemma entries_ok partitions : list_ok s e (replica_entries partitions (s, e)).
Proof.
  split; [apply sort_by_key_sorted|]. apply Forall_forall.
  intros x (p & _ & -> & Ht%range_tokens)%elem_of_entries; [|lia]. split; [done|apply md5_length].
Qed.

(** An entry of one replica in the leaf is an entry of the other with the same partition. *)
Lemma entry_inj p q : p ∈ a ++ b -> q ∈ a ++ b -> (entry p).2 = (entry q).2 -> p = q.
Proof.
  rewrite Forall_forall in Hkeys. intros Hp Hq E. apply partition_input_inj; [by apply Hkeys..|].
  apply Hcf; [..|by destruct p, q]; unfold validate_strings; [revert Hp|revert Hq];
    rewrite !elem_of_app, !list_elem_of_fmap; naive_solver.
Qed.

Lemma differing_spec r :
  r ∈ differing s e depth (replica_entries a (s, e)) (replica_entries b (s, e)) <->
  exists j, 0 <= j < tree_leaf_count depth
    /\ r = (bound s e (total_width s e / tree_leaf_count depth) (tree_leaf_count depth) j,
            bound s e (total_width s e / tree_leaf_count depth) (tree_leaf_count depth) (j + 1))
    /\ (part r.1 r.2 (replica_entries a (s, e))).*2 <> (part r.1 r.2 (replica_entries b (s, e))).*2.
Proof.
  unfold differing. rewrite list_elem_of_omap. split.
  - intros (j & Hj%elem_of_seqZ & E). case_bool_decide; simplify_eq. exists j. by split; [lia|].
  - intros (j & Hj & -> & Hne). exists j. rewrite bool_decide_false by done. split; [apply elem_of_seqZ; lia|done].
Qed.

(** The partitions of one replica that the other lacks, in a leaf with equal hashes: none. *)
Lemma equal_parts_elem x y lo hi p :
  (forall q, q ∈ x -> q ∈ a ++ b) -> (forall q, q ∈ y -> q ∈ a ++ b) ->
  (part lo hi (replica_entries x (s, e))).*2 = (part lo hi (replica_entries y (s, e))).*2 ->
  p ∈ x -> s <= (entry p).1 < e -> lo <= (entry p).1 < hi -> p ∈ y.
Proof.
  intros Hx Hy E Hp Ht Hl.
  assert ((entry p).2 ∈ (part lo hi (replica_entries x (s, e))).*2) as Hin.
  { apply list_elem_of_fmap. exists (entry p). split; [done|]. apply elem_of_filter_bool. split.
    - apply elem_of_entries. exists p. split_and!; [done..|]. apply range_tokens; lia.
    - by rewrite andb_true_iff, Z.leb_le, Z.ltb_lt. }
  rewrite E in Hin. apply list_elem_of_fmap in Hin as (z & Ez & [Hz _]%elem_of_filter_bool).
  apply elem_of_entries in Hz as (q & Hq & -> & _). rewrite (entry_inj p q); auto.
Qed.

Abbreviation tokens_distinct := (fun x : list (list Z * list Z) => NoDup (Token_from_partition_key <$> x.*1)).

Lemma part_keys_sorted x lo hi :
  tokens_distinct x -> keys_sorted (part lo hi (replica_entries x (s, e))) = true.
Proof.
  intros Hnd. apply sorted_le_strict; [apply filter_sorted, sort_by_key_sorted|].
  assert (forall f (l : list (Z * TreeHash)), NoDup l.*1 -> NoDup (List.filter f l).*1) as Hf.
  { intros f l. induction l as [|y l IH]; cbn; [done|]. intros [Hy Hl]%NoDup_cons. destruct (f y); [|by auto].
    cbn. apply NoDup_cons. split; [|by auto]. intros (z & Ez & [Hz _]%elem_of_filter_bool)%list_elem_of_fmap.
    apply Hy, list_elem_of_fmap. eauto. }
  apply Hf. unfold replica_entries, sort_by_token. rewrite sort_by_perm. apply Hf.
  cbn beta in Hnd. rewrite <- list_fmap_compose in Hnd. rewrite <- list_fmap_compose. exact Hnd.
Qed.

Lemma same_parts lo hi :
  tokens_distinct a -> tokens_distinct b -> s <= lo -> hi <= e ->
  (forall p, p ∈ a ++ b -> lo <= (entry p).1 < hi -> p ∈ a <-> p ∈ b) ->
  part lo hi (replica_entries a (s, e)) = part lo hi (replica_entries b (s, e)).
Proof.
  intros Ha Hb Hlo Hhi Hsame. apply sorted_ext; [by apply part_keys_sorted..|].
  intros x. unfold part. rewrite !elem_of_filter_bool, !elem_of_entries, andb_true_iff, Z.leb_le, Z.ltb_lt.
  split; intros ((p & Hp & -> & Ht) & Hx); (split; [|done]); exists p; (split; [|done]); apply Hsame; auto; set_solver.
Qed.

Lemma replicas_diff :
  MerkleTree_diff (validate md5 a (s, e) depth) (validate md5 b (s, e) depth)
  = Some (differing s e depth (replica_entries a (s, e)) (replica_entries b (s, e))).
Proof.
  rewrite !validate_build. apply tree_diff; try done; [apply entries_ok..|].
  eapply collision_free_mono; [done|]. unfold validate_strings. set_solver.
Qed.

Lemma differing_complete key :
  token_in_range (Token_from_partition_key key) (s, e) = true -> differ_at a b key ->
  exists r, r ∈ differing s e depth (replica_entries a (s, e)) (replica_entries b (s, e))
    /\ token_in_range (Token_from_partition_key key) r = true.
Proof.
  intros Ht%range_tokens [data Hdiff]; [|lia]. destruct (leaf_of_token s e depth Hse Hdepth _ Ht) as (j & Hj & Hb).
  eexists. split; [apply differing_spec; exists j; split_and!; [lia..|reflexivity|]|].
  - intros E. destruct Hdiff. split; intros Hp; (eapply equal_parts_elem; [..|exact Hp|exact Ht|exact Hb]);
      (done || set_solver).
  - apply range_tokens; lia.
Qed.
End replicas.

(** Partitions that are not the same on both replicas include one on one of them only. *)
Lemma exists_difference a b (f : Z -> bool) :
  ~ (forall p, p ∈ a ++ b -> f (Token_from_partition_key p.1) = true -> p ∈ a <-> p ∈ b) ->
  exists key, f (Token_from_partition_key key) = true /\ differ_at a b key.
Proof.
  intros H. destruct (decide (Forall (fun p => f (Token_from_partition_key p.1) = true -> (p ∈ a <-> p ∈ b)) (a ++ b)))
    as [Hall|Hex%not_Forall_Exists].
  - destruct H. by rewrite Forall_forall in Hall.
  - apply Exists_exists in Hex as ([key data] & _ & Hp). exists key. destruct (f (Token_from_partition_key key)) eqn:E.
    + split; [done|]. exists data. intros Hiff. by apply Hp.
    + destruct Hp. intros ?. cbn in *. congruence.
  - apply _.
Qed.

(** C22.  Comparing the trees of two replicas over a range of at most half the ring that does
    not wrap around finds their differences: a key of the range under which they hold
    different data is in a returned range, and, where no two keys of a replica
    share a token, every returned range has such a key.  The trees have fewer than 64
    levels, keys are shorter than 2^32, and the digest is assumed to have 16 bytes and
    no collision among the strings the two replicas hash. *)
Theorem merkle_diff_correct (md5 : list Z -> TreeHash) (a b : list (list Z * list Z)) (s e depth : Z) :
  (forall x, length (md5 x) = 16%nat) -> is_i64 s -> is_i64 e -> 0 < e - s < 2 ^ 63 -> 0 <= depth < 64 ->
  Forall (fun p => Z.of_nat (length p.1) < 2 ^ 32) (a ++ b) ->
  collision_free md5 (validate_strings md5 a (s, e) depth ++ validate_strings md5 b (s, e) depth) ->
  exists ranges,
    MerkleTree_diff (validate md5 a (s, e) depth) (validate md5 b (s, e) depth) = Some ranges
    /\ (forall key, token_in_range (Token_from_partition_key key) (s, e) = true -> differ_at a b key ->
         exists r, r ∈ ranges /\ token_in_range (Token_from_partition_key key) r = true)
    /\ (NoDup (Token_from_partition_key <$> a.*1) -> NoDup (Token_from_partition_key <$> b.*1) ->
         forall r, r ∈ ranges ->
         exists key, token_in_range (Token_from_partition_key key) r = true /\ differ_at a b key).
Proof.
  intros Hmd5 Hs He Hse Hd Hkeys Hcf.
  exists (differing s e depth (replica_entries md5 a (s, e)) (replica_entries md5 b (s, e))). split_and!.
  - by apply replicas_diff.
  - intros key. by apply differing_complete.
  - intros Ha Hb r (j & Hj & Er & Hne)%differing_spec.
    destruct (leaf_range s e depth Hse Hd j Hj) as (Hlo & Hmid & Hhi). subst r. cbn [fst snd] in *.
    apply (exists_difference a b (fun t => token_in_range t _)). intros Hsame. apply Hne. f_equal.
    apply (same_parts md5 a b s e depth); try done. intros p Hp Hin. apply Hsame; [done|]. by apply range_tokens.
Qed.

(** A digest for examples: a polynomial in the bytes, modulo 2^128. *)
Definition example_digest (data : list Z) : TreeHash :=
  be_bytes 16 (foldl (fun acc b => (acc * 1021 + b + 1) mod 2 ^ 128) 1 data).

Lemma collision_free_check md5 strings :
  forallb (fun x => forallb (fun y => implb (bool_decide (md5 x = md5 y)) (bool_decide (x = y))) strings) strings = true ->
  collision_free md5 strings.
Proof.
  intros H x y Hx%list_elem_of_In Hy%list_elem_of_In E. rewrite List.forallb_forall in H. specialize (H x Hx).
  cbn beta in H. rewrite List.forallb_forall in H. specialize (H y Hy). cbn beta in H.
  rewrite (bool_decide_true _ E) in H. cbn [implb] in H. by apply bool_decide_eq_true in H.
Qed.

Lemma merkle_diff_correct_witness :
  exists ranges,
    MerkleTree_diff (validate example_digest [([0], [10])] (0, i64_MAX) 2) (validate example_digest [([0], [11])] (0, i64_MAX) 2)
    = Some ranges
    /\ exists r, r ∈ ranges /\ token_in_range (Token_from_partition_key [0]) r = true.
Proof.
  destruct (merkle_diff_correct example_digest [([0], [10])] [([0], [11])] 0 i64_MAX 2) as (ranges & E & H & _).
  - intros x. apply length_be_bytes.
  - vm_compute. split; [discriminate|reflexivity].
  - vm_compute. split; [discriminate|reflexivity].
  - vm_compute. split; reflexivity.
  - lia.
  - repeat (constructor; [vm_compute; reflexivity|]). constructor.
  - apply collision_free_check. vm_compute. reflexivity.
  - exists ranges. split; [exact E|]. apply H; [vm_compute; reflexivity|].
    exists [10]. intros [Hab _]. destruct (list_elem_of_singleton ([0], [10]) ([0], [11])) as [Hc _].
    specialize (Hc (Hab (proj2 (list_elem_of_singleton _ _) eq_refl))). discriminate Hc.
Defined.
