(* ===== verification/Bounds.v ===== *)
(** Abstract bounds (crates/cassandra-common/src/bounds.rs), over any type with
    a lawful order.

    For bounds that do not wrap, [intersects] never misses a common point and
    [subtract] returns exactly the difference unless it produces a single
    point; both restrictions are shown to be needed. *)
From S2P Require Export Prelude.

Inductive AbstractBounds (T : Type) :=
| BRange (left right : T)
| BBounds (left right : T)
| BIncludingExcluding (left right : T)
| BExcluding (left right : T).
Arguments BRange {T}. Arguments BBounds {T}.
Arguments BIncludingExcluding {T}. Arguments BExcluding {T}.

Section Bounds.
Context {T : Type} `{OrdLaws T}.
Abbreviation bounds := (AbstractBounds T).

Definition AbstractBounds_left (self : bounds) : T :=
  match self with BRange l _ | BBounds l _ | BIncludingExcluding l _ | BExcluding l _ => l end.
Definition AbstractBounds_right (self : bounds) : T :=
  match self with BRange _ r | BBounds _ r | BIncludingExcluding _ r | BExcluding _ r => r end.
Definition AbstractBounds_includes_left (self : bounds) : bool :=
  match self with BBounds _ _ | BIncludingExcluding _ _ => true | _ => false end.
Definition AbstractBounds_includes_right (self : bounds) : bool :=
  match self with BRange _ _ | BBounds _ _ => true | _ => false end.

Abbreviation left := AbstractBounds_left.
Abbreviation right := AbstractBounds_right.
Abbreviation incl_left := AbstractBounds_includes_left.
Abbreviation incl_right := AbstractBounds_includes_right.

Definition AbstractBounds_contains (self : bounds) (point : T) : bool :=
  let left_ok := if incl_left self then (point >=' left self)%ord else (point >' left self)%ord in
  let right_ok := if incl_right self then (point <=' right self)%ord else (point <' right self)%ord in
  if (left self <' right self)%ord then left_ok && right_ok
  else if (left self =' right self)%ord
  then incl_left self || incl_right self || negb (point =' left self)%ord
  else left_ok || right_ok.

Definition AbstractBounds_intersects (self other : bounds) : bool :=
  if (left self <' right self)%ord && (left other <' right other)%ord then
    let self_before_other :=
      if incl_right self && incl_left other then (right self <' left other)%ord
      else (right self <=' left other)%ord in
    let other_before_self :=
      if incl_right other && incl_left self then (right other <' left self)%ord
      else (right other <=' left self)%ord in
    negb self_before_other && negb other_before_self
  else
    AbstractBounds_contains self (left other) || AbstractBounds_contains self (right other)
    || AbstractBounds_contains other (left self) || AbstractBounds_contains other (right self).

Definition AbstractBounds_unwrap (self : bounds) (min_val max_val : T) : list bounds :=
  if (left self <' right self)%ord then [self]
  else match self with
  | BRange l r => [BRange l max_val; BRange min_val r]
  | BBounds l r => [BBounds l max_val; BBounds min_val r]
  | BIncludingExcluding l r => [BIncludingExcluding l max_val; BIncludingExcluding min_val r]
  | BExcluding l r => [BExcluding l max_val; BExcluding min_val r]
  end.

(** The four-way choice of a variant by the inclusivity of its ends. *)
Definition bounds_of (incl_l incl_r : bool) (l r : T) : bounds :=
  if incl_l && incl_r then BBounds l r
  else if incl_l then BIncludingExcluding l r
  else if incl_r then BRange l r
  else BExcluding l r.

Definition subtract_left (self other : bounds) : list bounds :=
  if (left self <' left other)%ord
     || ((left self =' left other)%ord && incl_left self && negb (incl_left other))
  then [bounds_of (incl_left self) (negb (incl_left other)) (left self) (left other)]
  else [].

Definition subtract_right (self other : bounds) : list bounds :=
  if (right self >' right other)%ord
     || ((right self =' right other)%ord && incl_right self && negb (incl_right other))
  then [bounds_of (negb (incl_right other)) (incl_right self) (right other) (right self)]
  else [].

Definition AbstractBounds_subtract (self other : bounds) : list bounds :=
  if negb (AbstractBounds_intersects self other) then [self]
  else subtract_left self other ++ subtract_right self other.

(** * Facts *)

Definition non_wrapping (b : bounds) : Prop := lt_of (left b) (right b).

(** Membership of a non-wrapping bound, as propositions. *)
Definition above_left (b : bounds) (p : T) : Prop :=
  if incl_left b then le_of (left b) p else lt_of (left b) p.
Definition below_right (b : bounds) (p : T) : Prop :=
  if incl_right b then le_of p (right b) else lt_of p (right b).

Lemma contains_spec b p :
  non_wrapping b -> AbstractBounds_contains b p = true <-> above_left b p /\ below_right b p.
Proof.
  unfold non_wrapping, AbstractBounds_contains, above_left, below_right. intros Hlt.
  apply is_lt_spec in Hlt. rewrite Hlt, andb_true_iff.
  destruct (incl_left b), (incl_right b);
    by rewrite ?is_ge_spec, ?is_gt_spec, ?is_le_spec, ?is_lt_spec.
Qed.

Lemma intersects_common (a b : bounds) (p : T) :
  non_wrapping a -> non_wrapping b ->
  AbstractBounds_contains a p = true -> AbstractBounds_contains b p = true ->
  AbstractBounds_intersects a b = true.
Proof.
  intros Ha Hb Hpa Hpb.
  apply contains_spec in Hpa as [Ha1 Ha2], Hpb as [Hb1 Hb2]; [|done..].
  apply not_false_is_true. intros E. revert Ha Hb Ha1 Ha2 Hb1 Hb2 E.
  unfold AbstractBounds_intersects, above_left, below_right. intros Ha Hb.
  rewrite (proj2 (is_lt_spec _ _) Ha), (proj2 (is_lt_spec _ _) Hb). simpl.
  rewrite andb_false_iff, !negb_false_iff. unfold non_wrapping in *.
  destruct (incl_left a), (incl_right a), (incl_left b), (incl_right b); simpl; intros ? ? ? ? Hc;
    rewrite ?is_lt_spec, ?is_le_spec in Hc; ord_lia [left a; right a; left b; right b; p].
Qed.

(** A difference is degenerate when it leaves a single point, which the
    representation cannot express: [left == right] denotes the full range. *)
Definition degenerate (self other : bounds) : Prop :=
  (left self = left other /\ incl_left self = true /\ incl_left other = false)
  \/ (right self = right other /\ incl_right self = true /\ incl_right other = false).

Lemma bounds_of_ends il ir l r :
  left (bounds_of il ir l r) = l /\ right (bounds_of il ir l r) = r
  /\ incl_left (bounds_of il ir l r) = il /\ incl_right (bounds_of il ir l r) = ir.
Proof. by destruct il, ir. Qed.

Lemma contains_bounds_of il ir l r p :
  lt_of l r ->
  AbstractBounds_contains (bounds_of il ir l r) p = true <->
  (if il then le_of l p else lt_of l p) /\ (if ir then le_of p r else lt_of p r).
Proof.
  intros Hlt. destruct (bounds_of_ends il ir l r) as (E1 & E2 & E3 & E4).
  rewrite contains_spec by (unfold non_wrapping; by rewrite E1, E2).
  unfold above_left, below_right. by rewrite E1, E2, E3, E4.
Qed.
Lemma exists_app (l k : list bounds) (P : bounds -> Prop) :
  (exists x, x ∈ l ++ k /\ P x) <-> (exists x, x ∈ l /\ P x) \/ (exists x, x ∈ k /\ P x).
Proof. setoid_rewrite elem_of_app. naive_solver. Qed.

Lemma exists_if (c : bool) (x : bounds) (P : bounds -> Prop) :
  (exists y, y ∈ (if c then [x] else []) /\ P y) <-> c = true /\ P x.
Proof. destruct c; set_solver. Qed.

Lemma left_part_lt (a b : bounds) :
  ~ degenerate a b ->
  (left a <' left b)%ord || ((left a =' left b)%ord && incl_left a && negb (incl_left b)) = true ->
  lt_of (left a) (left b).
Proof.
  intros Hd [?%is_lt_spec|Hc]%orb_prop; [done|]. bool_to_prop.
  exfalso. apply Hd. left. rewrite <- is_eq_spec. auto.
Qed.

Lemma right_part_lt (a b : bounds) :
  ~ degenerate a b ->
  (right a >' right b)%ord || ((right a =' right b)%ord && incl_right a && negb (incl_right b)) = true ->
  lt_of (right b) (right a).
Proof.
  intros Hd [?%is_gt_spec|Hc]%orb_prop; [done|]. bool_to_prop.
  exfalso. apply Hd. right. rewrite <- is_eq_spec. auto.
Qed.

(** The points of the two remainders. *)
Lemma subtract_parts a b p :
  ~ degenerate a b ->
  (exists part, part ∈ subtract_left a b ++ subtract_right a b
     /\ AbstractBounds_contains part p = true) <->
  (lt_of (left a) (left b) /\ above_left a p /\ ~ above_left b p)
  \/ (lt_of (right b) (right a) /\ below_right a p /\ ~ below_right b p).
Proof.
  intros Hd. rewrite exists_app. unfold subtract_left, subtract_right. rewrite !exists_if.
  unfold above_left, below_right.
  assert (forall x y : T, lt_of x y -> is_lt (cmp x y) = true) as Hl by (intros; by apply is_lt_spec).
  assert (forall x y : T, lt_of y x -> is_gt (cmp x y) = true) as Hg by (intros; by apply is_gt_spec).
  f_equiv; split.
  - intros [Hc Hp]. pose proof (left_part_lt a b Hd Hc) as Hlt. apply contains_bounds_of in Hp; [|done].
    destruct (incl_left b); simpl in Hp; rewrite ?not_lt_of, ?not_le_of; tauto.
  - intros (Hlt & Hp1 & Hp2). rewrite (Hl _ _ Hlt). split; [done|]. apply contains_bounds_of; [done|].
    destruct (incl_left b); simpl; rewrite ?not_lt_of, ?not_le_of in Hp2; tauto.
  - intros [Hc Hp]. pose proof (right_part_lt a b Hd Hc) as Hlt. apply contains_bounds_of in Hp; [|done].
    destruct (incl_right b); simpl in Hp; rewrite ?not_lt_of, ?not_le_of; tauto.
  - intros (Hlt & Hp1 & Hp2). rewrite (Hg _ _ Hlt). split; [done|]. apply contains_bounds_of; [done|].
    destruct (incl_right b); simpl; rewrite ?not_lt_of, ?not_le_of in Hp2; tauto.
Qed.

Section Remainders.
Context (a b : bounds) (p : T).
Hypothesis Ha : non_wrapping a.
Hypothesis Hb : non_wrapping b.
Hypothesis Hi : AbstractBounds_intersects a b = true.
Hypothesis Hd : ~ degenerate a b.

Lemma intersects_ends :
  (if incl_right a && incl_left b then le_of (left b) (right a) else lt_of (left b) (right a))
  /\ (if incl_right b && incl_left a then le_of (left a) (right b) else lt_of (left a) (right b)).
Proof.
  revert Hi. unfold AbstractBounds_intersects.
  rewrite (proj2 (is_lt_spec _ _) Ha), (proj2 (is_lt_spec _ _) Hb). simpl.
  intros [H1 H2]%andb_prop. apply negb_true_iff in H1, H2.
  destruct (incl_right a && incl_left b), (incl_right b && incl_left a);
    rewrite ?is_lt_false, ?is_le_false in *; auto.
Qed.

Lemma remainder_left :
  (lt_of (left a) (left b) /\ above_left a p /\ ~ above_left b p) <->
  (above_left a p /\ below_right a p /\ ~ above_left b p).
Proof.
  destruct intersects_ends as [He _]. revert Ha He Hd.
  unfold non_wrapping, degenerate, above_left, below_right.
  rewrite (eq_rank [left a; right a; left b; right b; p] (left a) (left b)) by elem_tac.
  rewrite (eq_rank [left a; right a; left b; right b; p] (right a) (right b)) by elem_tac.
  destruct (incl_left a), (incl_right a), (incl_left b); simpl; intros;
    ord_lia [left a; right a; left b; right b; p].
Qed.

Lemma remainder_right :
  (lt_of (right b) (right a) /\ below_right a p /\ ~ below_right b p) <->
  (above_left a p /\ below_right a p /\ ~ below_right b p).
Proof.
  destruct intersects_ends as [_ He]. revert Ha He Hd.
  unfold non_wrapping, degenerate, above_left, below_right.
  rewrite (eq_rank [left a; right a; left b; right b; p] (left a) (left b)) by elem_tac.
  rewrite (eq_rank [left a; right a; left b; right b; p] (right a) (right b)) by elem_tac.
  destruct (incl_left a), (incl_right a), (incl_right b); simpl; intros;
    ord_lia [left a; right a; left b; right b; p].
Qed.
End Remainders.
(** For bounds that do not wrap, the points of [subtract] are exactly the
    points of the first bound that are not in the second, unless the
    difference is a single end point. *)
Theorem subtract_correct (a b : bounds) (p : T)
    (Ha : non_wrapping a) (Hb : non_wrapping b) (Hd : ~ degenerate a b) :
  (exists part, part ∈ AbstractBounds_subtract a b /\ AbstractBounds_contains part p = true) <->
  AbstractBounds_contains a p = true /\ AbstractBounds_contains b p = false.
Proof.
  unfold AbstractBounds_subtract. rewrite <- not_true_iff_false.
  destruct (AbstractBounds_intersects a b) eqn:E; simpl.
  - rewrite subtract_parts, remainder_left, remainder_right, !contains_spec by done.
    assert (above_left b p \/ ~ above_left b p) by
      (unfold above_left; destruct (incl_left b); ord_lia [left b; p]).
    tauto.
  - split; [intros (x & ->%list_elem_of_singleton & Hp)|intros [Hp _]; exists a; set_solver].
    split; [done|]. intros Hq. by rewrite (intersects_common a b p) in E.
Qed.

(** The single-point difference is lost: subtracting [(l, m)] from
    [[l, r]] returns a bound that contains every point. *)
Lemma subtract_degenerate_full (l m r p : T) (Hlm : lt_of l m) (Hmr : le_of m r) :
  exists part, part ∈ AbstractBounds_subtract (BBounds l r) (BExcluding l m)
    /\ AbstractBounds_contains part p = true.
Proof.
  exists (BBounds l l). unfold AbstractBounds_subtract, AbstractBounds_intersects,
    subtract_left, AbstractBounds_contains; simpl.
  rewrite (proj2 (is_lt_spec l m) Hlm), (proj2 (is_lt_spec l r)), (proj2 (is_le_false r l)),
    (proj2 (is_le_false m l)), cmp_refl by ord_lia [l; m; r]. simpl. split; [left|done].
Qed.
End Bounds.

Lemma subtract_correct_witness :
  (exists part, part ∈ AbstractBounds_subtract (BRange 0 10) (BRange 3 5)
    /\ AbstractBounds_contains part 7 = true) <->
  AbstractBounds_contains (BRange 0 10) 7 = true /\ AbstractBounds_contains (BRange 3 5) 7 = false.
Proof.
  apply subtract_correct; [reflexivity|reflexivity|].
  intros [(_ & H & _)|(_ & _ & H)]; discriminate H.
Defined.
