(* ===== verification/Memtable.v ===== *)
(** The memtable (crates/cassandra-storage/src/memtable: partition.rs, mod.rs,
    shard.rs).

    [PartitionData] holds the rows of one partition.  The trait
    [MemtableBackend] is a class of operations, and [BackendLaws] what a
    backend promises: it represents one ordered map from partition key to
    partition, which every operation changes at one key only.  The skip-list
    backend is shown to keep the promise, and the sharded backend is shown to
    keep it whenever its shards do. *)
From S2P Require Export Tombstone.

(** * Cells, rows and partitions (partition.rs) *)

Record Cell := mkCell {
  Cell_column : string;
  Cell_value : option (list Z);
  Cell_timestamp : Z;
  Cell_ttl : Z;
  Cell_local_deletion_time : option Z;
  Cell_is_tombstone : bool;
}.
#[export] Instance Cell_eq_dec : EqDecision Cell.
Proof. solve_decision. Defined.

Definition Cell_is_live_at (c : Cell) (now_seconds : Z) : bool :=
  if Cell_is_tombstone c then false
  else if 0 <? Cell_ttl c
  then match Cell_local_deletion_time c with
       | Some ldt => now_seconds <? ldt
       | None => true
       end
  else true.

Definition Cell_merge_with (self other : Cell) : Cell :=
  if Cell_timestamp self <? Cell_timestamp other then other
  else if (Cell_timestamp other =? Cell_timestamp self)
          && Cell_is_tombstone other && negb (Cell_is_tombstone self)
  then other
  else self.

Record Row := mkRow {
  Row_clustering_key : list Z;
  Row_cells : list Cell;
  Row_is_tombstone : bool;
  Row_local_deletion_time : option Z;
}.
#[export] Instance Row_eq_dec : EqDecision Row.
Proof. solve_decision. Defined.

(** The body of the loop over [other.cells]: replace the first cell of the same
    column, or push. *)
Fixpoint Row_merge_cell (cells : list Cell) (other_cell : Cell) : list Cell :=
  match cells with
  | [] => [other_cell]
  | c :: cells' =>
      if String.eqb (Cell_column c) (Cell_column other_cell)
      then Cell_merge_with c other_cell :: cells'
      else c :: Row_merge_cell cells' other_cell
  end.

Definition Row_merge_with (self other : Row) : Row :=
  let becomes_tombstone := Row_is_tombstone other && negb (Row_is_tombstone self) in
  mkRow (Row_clustering_key self)
    (foldl Row_merge_cell (Row_cells self) (Row_cells other))
    (if becomes_tombstone then true else Row_is_tombstone self)
    (if becomes_tombstone then Row_local_deletion_time other else Row_local_deletion_time self).

Record PartitionData := mkPartitionData {
  pd_rows : ordmap (list Z) Row;
  tombstone_timestamp : option Z;
  tombstone_local_deletion_time : option Z;
}.

Definition PartitionData_new : PartitionData := mkPartitionData ∅ None None.

Definition PartitionData_apply_row (self : PartitionData) (row : Row) : PartitionData :=
  mkPartitionData
    (upsert (fun existing => Row_merge_with existing row) row (Row_clustering_key row) (pd_rows self))
    (tombstone_timestamp self) (tombstone_local_deletion_time self).

Definition PartitionData_set_tombstone (self : PartitionData) (timestamp ldt : Z) : PartitionData :=
  let set := mkPartitionData (pd_rows self) (Some timestamp) (Some ldt) in
  match tombstone_timestamp self with
  | Some existing_ts => if timestamp <=? existing_ts then self else set
  | None => set
  end.

Definition PartitionData_row_is_live (self : PartitionData) (now_seconds : Z) (row : Row) : bool :=
  if Row_is_tombstone row then false
  else match tombstone_timestamp self, tombstone_local_deletion_time self with
       | Some pt_ts, Some pt_ldt =>
           if pt_ldt <=? now_seconds
           then existsb (fun c => pt_ts <? Cell_timestamp c) (Row_cells row)
           else true
       | _, _ => true
       end.

Definition PartitionData_live_rows (self : PartitionData) (now_seconds : Z) : list Row :=
  List.filter (PartitionData_row_is_live self now_seconds) (values (pd_rows self)).

Definition estimate_row_size (row : Row) : Z :=
  foldl (fun size cell =>
    size + Z.of_nat (String.length (Cell_column cell))
    + match Cell_value cell with Some v => Z.of_nat (length v) | None => 0 end + 24)
    (Z.of_nat (length (Row_clustering_key row)) + 32) (Row_cells row).

(** * The backend interface (mod.rs: trait MemtableBackend) *)

Abbreviation Key := (list Z).

Class MemtableBackend (S : Type) := {
  backend_apply : S -> Key -> Row -> S;
  backend_set_partition_tombstone : S -> Key -> Z -> Z -> S;
  backend_get_partition : S -> Key -> option PartitionData;
  backend_iter_partitions : S -> list (Key * PartitionData);
  backend_memory_usage : S -> Z;
  backend_partition_count : S -> nat;
}.

(** The abstract memtable: one ordered map of partitions. *)
Abbreviation Partitions := (ordmap Key PartitionData).

Definition spec_apply (m : Partitions) (k : Key) (row : Row) : Partitions :=
  upsert (fun p => PartitionData_apply_row p row)
    (PartitionData_apply_row PartitionData_new row) k m.
Definition spec_set_partition_tombstone (m : Partitions) (k : Key) (ts ldt : Z) : Partitions :=
  upsert (fun p => PartitionData_set_tombstone p ts ldt)
    (PartitionData_set_tombstone PartitionData_new ts ldt) k m.

(** What a backend promises.  [backend_wf] is its representation invariant. *)
Class BackendLaws (S : Type) `{MemtableBackend S} := {
  backend_wf : S -> Prop;
  backend_abs : S -> Partitions;
  apply_wf s k r : backend_wf s -> backend_wf (backend_apply s k r);
  tombstone_wf s k ts ldt : backend_wf s -> backend_wf (backend_set_partition_tombstone s k ts ldt);
  apply_abs s k r :
    backend_wf s -> backend_abs (backend_apply s k r) = spec_apply (backend_abs s) k r;
  tombstone_abs s k ts ldt :
    backend_wf s -> backend_abs (backend_set_partition_tombstone s k ts ldt)
                    = spec_set_partition_tombstone (backend_abs s) k ts ldt;
  get_abs s k : backend_wf s -> backend_get_partition s k = backend_abs s !! k;
  iter_abs s : backend_wf s -> backend_iter_partitions s = entries (backend_abs s);
  count_abs s : backend_wf s -> backend_partition_count s = size (backend_abs s);
}.
#[export] Hint Resolve apply_wf tombstone_wf : cass.

(** * The skip-list backend *)

Record SkipListMemtable := mkSkipListMemtable {
  sl_data : Partitions;
  approx_size : Z;
  op_count : Z;
}.

Definition SkipListMemtable_new : SkipListMemtable := mkSkipListMemtable ∅ 0 0.

Definition SkipListMemtable_apply (self : SkipListMemtable) (k : Key) (row : Row) : SkipListMemtable :=
  let row_size := estimate_row_size row in
  let partition := default PartitionData_new (sl_data self !! k) in
  mkSkipListMemtable (<[k := PartitionData_apply_row partition row]> (sl_data self))
    (wrap_u 64 (approx_size self + row_size)) (wrap_u 64 (op_count self + 1)).

Definition SkipListMemtable_set_partition_tombstone
    (self : SkipListMemtable) (k : Key) (ts ldt : Z) : SkipListMemtable :=
  let partition := default PartitionData_new (sl_data self !! k) in
  mkSkipListMemtable (<[k := PartitionData_set_tombstone partition ts ldt]> (sl_data self))
    (approx_size self) (wrap_u 64 (op_count self + 1)).

#[export] Instance SkipListMemtable_backend : MemtableBackend SkipListMemtable := {
  backend_apply := SkipListMemtable_apply;
  backend_set_partition_tombstone := SkipListMemtable_set_partition_tombstone;
  backend_get_partition s k := sl_data s !! k;
  backend_iter_partitions s := entries (sl_data s);
  backend_memory_usage := approx_size;
  backend_partition_count s := length (entries (sl_data s));
}.

(** * The sharded backend (shard.rs) *)

Record ShardBoundaries := mkShardBoundaries {
  shard_count : nat;
  boundaries : list Z;
}.

(** [ShardBoundaries::new]; [None] is the failing assertion. *)
Definition ShardBoundaries_new (n : nat) : option ShardBoundaries :=
  if (0 <? n)%nat then
    let range := i64_MAX - i64_MIN in
    Some (mkShardBoundaries n
      ((fun i => wrap_s 64 (i64_MIN + (range * Z.of_nat i) / Z.of_nat n)) <$> seq 1 (n - 1)))
  else None.

Fixpoint shard_scan (val : Z) (bs : list Z) (i : nat) : option nat :=
  match bs with
  | [] => None
  | b :: bs' => if val <=? b then Some i else shard_scan val bs' (S i)
  end.

Definition ShardBoundaries_shard_for_token (self : ShardBoundaries) (token : Z) : nat :=
  default (shard_count self - 1)%nat (shard_scan token (boundaries self) 0).

(** The token of a partition key is [Token::from_partition_key]; the placement
    argument holds for any token function. *)
Section Sharded.
Context {S : Type} `{MemtableBackend S} (token_of : Key -> Z).

Record ShardedMemtable := mkShardedMemtable {
  sh_shards : list S;
  sh_boundaries : ShardBoundaries;
}.

Definition ShardedMemtable_shard_index (self : ShardedMemtable) (k : Key) : nat :=
  ShardBoundaries_shard_for_token (sh_boundaries self) (token_of k).

(** Indexing [self.shards[idx]] panics out of range: [alter] leaves the list
    unchanged there, and [ShardedMemtable_new] rules it out. *)
Definition ShardedMemtable_apply (self : ShardedMemtable) (k : Key) (row : Row) : ShardedMemtable :=
  let idx := ShardedMemtable_shard_index self k in
  mkShardedMemtable (alter (fun s => backend_apply s k row) idx (sh_shards self))
    (sh_boundaries self).

Definition ShardedMemtable_set_partition_tombstone
    (self : ShardedMemtable) (k : Key) (ts ldt : Z) : ShardedMemtable :=
  let idx := ShardedMemtable_shard_index self k in
  mkShardedMemtable
    (alter (fun s => backend_set_partition_tombstone s k ts ldt) idx (sh_shards self))
    (sh_boundaries self).

Definition ShardedMemtable_get_partition (self : ShardedMemtable) (k : Key) : option PartitionData :=
  s ← sh_shards self !! ShardedMemtable_shard_index self k; backend_get_partition s k.

Definition ShardedMemtable_iter_partitions (self : ShardedMemtable) : list (Key * PartitionData) :=
  sort_by (fun p q => cmp p.1 q.1) (mjoin (backend_iter_partitions <$> sh_shards self)).

Definition ShardedMemtable_new (shards : list S) : option ShardedMemtable :=
  mkShardedMemtable shards <$> ShardBoundaries_new (length shards).

#[export] Instance ShardedMemtable_backend : MemtableBackend ShardedMemtable := {
  backend_apply := ShardedMemtable_apply;
  backend_set_partition_tombstone := ShardedMemtable_set_partition_tombstone;
  backend_get_partition := ShardedMemtable_get_partition;
  backend_iter_partitions := ShardedMemtable_iter_partitions;
  backend_memory_usage s := wrap_u 64 (foldr Z.add 0 (backend_memory_usage <$> sh_shards s));
  backend_partition_count s := sum_list (backend_partition_count <$> sh_shards s);
}.
End Sharded.
Arguments ShardedMemtable S : clear implicits.

(** * The skip list keeps the promise *)

Lemma insert_default_upsert (f : PartitionData -> PartitionData) (m : Partitions) k :
  <[k := f (default PartitionData_new (m !! k))]> m = upsert f (f PartitionData_new) k m.
Proof.
  apply map_eq. intros j. rewrite lookup_upsert, lookup_insert.
  repeat case_decide; simplify_eq; [|done]. by destruct (m !! j).
Qed.

#[export] Instance SkipListMemtable_laws : BackendLaws SkipListMemtable.
Proof.
  refine {| backend_wf _ := True; backend_abs := sl_data |}; try done.
  - intros s k r _. apply (insert_default_upsert (fun p => PartitionData_apply_row p r)).
  - intros s k ts ldt _. apply (insert_default_upsert (fun p => PartitionData_set_tombstone p ts ldt)).
Defined.

(** * Sharding keeps the promise *)

Lemma spec_apply_ne m k j r : k <> j -> spec_apply m k r !! j = m !! j.
Proof. apply lookup_upsert_ne. Qed.
Lemma spec_apply_here m n k r : m !! k = n !! k -> spec_apply m k r !! k = spec_apply n k r !! k.
Proof. intros E. unfold spec_apply. by rewrite !lookup_upsert_eq, E. Qed.
Lemma spec_tombstone_ne m k j ts ldt :
  k <> j -> spec_set_partition_tombstone m k ts ldt !! j = m !! j.
Proof. apply lookup_upsert_ne. Qed.
Lemma spec_tombstone_here m n k ts ldt :
  m !! k = n !! k ->
  spec_set_partition_tombstone m k ts ldt !! k = spec_set_partition_tombstone n k ts ldt !! k.
Proof. intros E. unfold spec_set_partition_tombstone. by rewrite !lookup_upsert_eq, E. Qed.

Lemma shard_scan_lt val bs i j : shard_scan val bs i = Some j -> (i <= j < i + length bs)%nat.
Proof.
  revert i. induction bs as [|b bs IH]; intros i; simpl; [done|].
  case_tests; [intros [= ->]; lia|]. intros ?%IH. lia.
Qed.

Definition boundaries_ok (b : ShardBoundaries) : Prop :=
  (length (boundaries b) < shard_count b)%nat.

Lemma shard_for_token_lt b t : boundaries_ok b -> (ShardBoundaries_shard_for_token b t < shard_count b)%nat.
Proof.
  unfold boundaries_ok, ShardBoundaries_shard_for_token. intros Hb.
  destruct (shard_scan t (boundaries b) 0) as [j|] eqn:E; simpl; [|lia].
  apply shard_scan_lt in E. lia.
Qed.

Lemma ShardBoundaries_new_ok n b :
  ShardBoundaries_new n = Some b -> shard_count b = n /\ boundaries_ok b.
Proof.
  unfold ShardBoundaries_new, boundaries_ok. case_tests; [|done]. intros [= <-]; simpl.
  rewrite length_fmap, length_seq. bool_to_prop. lia.
Qed.

Section ShardedLaws.
Context {S : Type} `{BackendLaws S} (token_of : Key -> Z).
Abbreviation index := (ShardedMemtable_shard_index token_of).

Record sharded_wf (self : ShardedMemtable S) : Prop := {
  sw_shards : forall i s, sh_shards self !! i = Some s -> backend_wf s;
  sw_bounds : boundaries_ok (sh_boundaries self);
  sw_length : length (sh_shards self) = shard_count (sh_boundaries self);
  sw_placed : forall i s k,
    sh_shards self !! i = Some s -> is_Some (backend_abs s !! k) -> i = index self k;
}.

Definition sharded_abs (self : ShardedMemtable S) : Partitions :=
  foldr (∪) ∅ (backend_abs <$> sh_shards self).

Lemma sharded_index_lt self k : sharded_wf self -> (index self k < length (sh_shards self))%nat.
Proof. intros [_ Hb Hl _]. rewrite Hl. by apply shard_for_token_lt. Qed.

Lemma sharded_index_Some self k :
  sharded_wf self -> exists s, sh_shards self !! index self k = Some s.
Proof. intros Hwf. by apply lookup_lt_is_Some_2, sharded_index_lt. Qed.

Lemma lookup_sharded_abs self k :
  sharded_wf self ->
  sharded_abs self !! k = (s ← sh_shards self !! index self k; backend_abs s !! k).
Proof.
  intros Hwf. unfold sharded_abs. rewrite (lookup_union_list _ k (index self k)).
  - rewrite list_lookup_fmap. by destruct (sh_shards self !! _).
  - intros j m Hj Hs. rewrite list_lookup_fmap in Hj. apply fmap_Some in Hj as (s & Hj & ->).
    by apply (sw_placed self Hwf j s k).
Qed.

(** Both mutations update one shard by a function that changes one key. *)
Section Update.
Context (f : S -> S) (k : Key) (upd : Partitions -> Partitions).
Hypothesis f_wf : forall s, backend_wf s -> backend_wf (f s).
Hypothesis f_abs : forall s, backend_wf s -> backend_abs (f s) = upd (backend_abs s).
Hypothesis upd_here : forall m n, m !! k = n !! k -> upd m !! k = upd n !! k.
Hypothesis upd_ne : forall m j, k <> j -> upd m !! j = m !! j.

Definition update_shard (self : ShardedMemtable S) : ShardedMemtable S :=
  mkShardedMemtable (alter f (index self k) (sh_shards self)) (sh_boundaries self).

Lemma update_shard_wf self : sharded_wf self -> sharded_wf (update_shard self).
Proof.
  intros Hwf. split; simpl.
  - intros i s Hi. apply list_lookup_alter_Some in Hi as [(_ & s' & Hs' & ->)|[_ Hi]].
    + by eapply f_wf, sw_shards.
    + by eapply sw_shards.
  - by apply sw_bounds.
  - rewrite length_alter. by apply sw_length.
  - intros i s j Hi Hs. apply list_lookup_alter_Some in Hi as [(<- & s' & Hs' & ->)|[_ Hi]].
    + rewrite f_abs in Hs by by eapply sw_shards.
      destruct (decide (k = j)) as [->|Hne]; [done|]. rewrite upd_ne in Hs by done.
      by apply (sw_placed self Hwf _ s').
    + by apply (sw_placed self Hwf _ s).
Qed.

Lemma update_shard_abs self :
  sharded_wf self -> sharded_abs (update_shard self) = upd (sharded_abs self).
Proof.
  intros Hwf. apply map_eq. intros j.
  rewrite lookup_sharded_abs by by apply update_shard_wf.
  change (index (update_shard self) j) with (index self j). simpl sh_shards.
  destruct (sharded_index_Some self k Hwf) as [s Hs].
  pose proof (sw_shards self Hwf _ _ Hs) as Hswf.
  destruct (decide (k = j)) as [<-|Hne].
  - rewrite list_lookup_alter_eq, Hs; simpl. rewrite f_abs by done. apply upd_here.
    by rewrite lookup_sharded_abs, Hs.
  - rewrite upd_ne, lookup_sharded_abs by done.
    destruct (decide (index self k = index self j)) as [E|Hi].
    + rewrite <- E, list_lookup_alter_eq, Hs; simpl. by rewrite f_abs, upd_ne by done.
    + by rewrite list_lookup_alter_ne.
Qed.
End Update.

Definition all_entries (self : ShardedMemtable S) : list (Key * PartitionData) :=
  mjoin (backend_iter_partitions <$> sh_shards self).

Lemma elem_of_all_entries self k v :
  sharded_wf self -> (k, v) ∈ all_entries self <-> sharded_abs self !! k = Some v.
Proof.
  intros Hwf. unfold all_entries. rewrite list_elem_of_mjoin, lookup_sharded_abs by done.
  rewrite bind_Some. setoid_rewrite list_lookup_fmap. split.
  - intros (i & l & (s & Hs & ->)%fmap_Some & Hin).
    rewrite iter_abs, <- ordmap_elem in Hin by by eapply sw_shards.
    pose proof (sw_placed self Hwf i s k Hs ltac:(eauto)) as <-. eauto.
  - intros (s & Hs & Hv). exists (index self k), (backend_iter_partitions s). rewrite Hs.
    split; [done|]. rewrite iter_abs by by eapply sw_shards. by apply ordmap_elem.
Qed.

Lemma all_entries_NoDup self : sharded_wf self -> NoDup (all_entries self).*1.
Proof.
  intros Hwf. unfold all_entries. rewrite fmap_mjoin, <- list_fmap_compose.
  assert (Hk : forall i l, (fmap fst ∘ backend_iter_partitions <$> sh_shards self) !! i = Some l ->
    exists s, sh_shards self !! i = Some s /\ l = keys (backend_abs s)).
  { intros i l Hl. rewrite list_lookup_fmap in Hl. apply fmap_Some in Hl as (s & Hs & ->).
    exists s. split; [done|]. simpl. by rewrite iter_abs by by eapply sw_shards. }
  apply NoDup_mjoin.
  - intros i l (s & _ & ->)%Hk. apply keys_NoDup.
  - intros i j l1 l2 x (s1 & H1 & ->)%Hk (s2 & H2 & ->)%Hk Hx1%elem_of_keys Hx2%elem_of_keys.
    by rewrite (sw_placed self Hwf i s1 x H1 Hx1), (sw_placed self Hwf j s2 x H2 Hx2).
Qed.

Lemma sharded_iter self :
  sharded_wf self -> ShardedMemtable_iter_partitions self = entries (sharded_abs self).
Proof.
  intros Hwf. apply sort_entries; [by apply all_entries_NoDup|].
  intros. by apply elem_of_all_entries.
Qed.

Lemma sharded_count self :
  sharded_wf self -> sum_list (backend_partition_count <$> sh_shards self) = size (sharded_abs self).
Proof.
  intros Hwf. rewrite size_entries, <- sharded_iter by done.
  unfold ShardedMemtable_iter_partitions. rewrite sort_by_perm, length_join. f_equal.
  rewrite <- list_fmap_compose. apply list_fmap_ext. intros i s Hs; simpl.
  pose proof (sw_shards self Hwf i s Hs). by rewrite count_abs, size_entries, iter_abs.
Qed.

Ltac shard_side := intros; solve
  [ by apply apply_wf | by apply apply_abs | by apply spec_apply_ne | by apply spec_apply_here
  | by apply tombstone_wf | by apply tombstone_abs | by apply spec_tombstone_ne
  | by apply spec_tombstone_here | done ].

Definition ShardedMemtable_laws :
  @BackendLaws (ShardedMemtable S) (ShardedMemtable_backend token_of).
Proof.
  refine {| backend_wf := sharded_wf; backend_abs := sharded_abs |}.
  - intros s k r.
    apply (update_shard_wf (fun x => backend_apply x k r) k (fun m => spec_apply m k r));
      shard_side.
  - intros s k ts ldt.
    apply (update_shard_wf (fun x => backend_set_partition_tombstone x k ts ldt) k
      (fun m => spec_set_partition_tombstone m k ts ldt));
      shard_side.
  - intros s k r.
    apply (update_shard_abs (fun x => backend_apply x k r) k (fun m => spec_apply m k r));
      shard_side.
  - intros s k ts ldt.
    apply (update_shard_abs (fun x => backend_set_partition_tombstone x k ts ldt) k
      (fun m => spec_set_partition_tombstone m k ts ldt));
      shard_side.
  - intros s k Hwf. rewrite lookup_sharded_abs by done. simpl.
    unfold ShardedMemtable_get_partition. destruct (sharded_index_Some s k Hwf) as [x Hx].
    rewrite Hx; simpl. apply get_abs. by eapply sw_shards.
  - intros s. apply sharded_iter.
  - intros s. apply sharded_count.
Defined.
End ShardedLaws.

(** * Runs of operations *)

Inductive MemOp :=
| OpApply (k : Key) (row : Row)
| OpTombstone (k : Key) (ts ldt : Z).

Definition run_op {S} `{MemtableBackend S} (s : S) (op : MemOp) : S :=
  match op with
  | OpApply k row => backend_apply s k row
  | OpTombstone k ts ldt => backend_set_partition_tombstone s k ts ldt
  end.
Definition run_ops {S} `{MemtableBackend S} (s : S) (ops : list MemOp) : S := foldl run_op s ops.

(** Two lawful backends that represent the same map cannot be told apart. *)
Lemma run_ops_sim {S T} `{BackendLaws S} `{BackendLaws T} (s : S) (t : T) ops :
  backend_wf s -> backend_wf t -> backend_abs s = backend_abs t ->
  backend_wf (run_ops s ops) /\ backend_wf (run_ops t ops)
  /\ backend_abs (run_ops s ops) = backend_abs (run_ops t ops).
Proof.
  revert s t. induction ops as [|[k r|k ts ldt] ops IH]; intros s t Hs Ht E; simpl; [done|..].
  - apply IH; [by apply apply_wf..|]. by rewrite !apply_abs, E by done.
  - apply IH; [by apply tombstone_wf..|]. by rewrite !tombstone_abs, E by done.
Qed.

Lemma observe_sim {S T} `{BackendLaws S} `{BackendLaws T} (s : S) (t : T) :
  backend_wf s -> backend_wf t -> backend_abs s = backend_abs t ->
  backend_iter_partitions s = backend_iter_partitions t
  /\ backend_partition_count s = backend_partition_count t
  /\ forall k, backend_get_partition s k = backend_get_partition t k.
Proof.
  intros Hs Ht E. split_and!.
  - by rewrite !iter_abs, E.
  - by rewrite !count_abs, E.
  - intros k. by rewrite !get_abs, E.
Qed.

Lemma sharded_empty {S} `{BackendLaws S} (token_of : Key -> Z) n b (e : S) :
  backend_wf e -> backend_abs e = ∅ -> ShardBoundaries_new n = Some b ->
  let sm := mkShardedMemtable (replicate n e) b in
  sharded_wf token_of sm /\ sharded_abs sm = ∅.
Proof.
  intros He Ha [Hc Hb]%ShardBoundaries_new_ok sm.
  assert (Hr : forall i s, sh_shards sm !! i = Some s -> s = e) by by intros i s [-> _]%lookup_replicate.
  split; [split; simpl|].
  - by intros i s ->%Hr.
  - done.
  - by rewrite length_replicate, Hc.
  - intros i s k ->%Hr. rewrite Ha. intros [x Hx]. by rewrite (lookup_empty (M:=ordmap Key)) in Hx.
  - unfold sharded_abs. simpl sh_shards. rewrite fmap_replicate, Ha. clear.
    induction n as [|n IH]; [done|]. change (∅ ∪ foldr (∪) ∅ (replicate n (∅ : Partitions)) = ∅).
    change (foldr (∪) ∅ (replicate n (∅ : Partitions)) = ∅) in IH. rewrite IH. apply map_union_empty.
Qed.
