(* ===== verification/Trie.v ===== *)
(** * Tries and the memtables built on them

    crates/cassandra-storage/src: tries/trie.rs, tries/in_memory.rs,
    tries/memtable_trie.rs, memtable/trie.rs.  A node has an optional content
    and children in the order of their bytes.  The trie of a memtable and the
    generic trie have the same nodes; they differ in how they count.

    Both memtables keep the promise of [MemtableBackend], so with the laws of
    sharding every backend that [create_backend] can make answers alike.  The
    cursor visits the entries in the order of the listing. *)
From S2P Require Export Memtable.

(** ** Nodes (in_memory.rs, memtable/trie.rs) *)

Inductive TrieNode (T : Type) : Type :=
| mkTrieNode (content : option T) (children : list (Z * TrieNode T)).
Arguments mkTrieNode {T} content children.

Section Node.
Context {T : Type}.
Implicit Types (t : TrieNode T) (key : list Z).

Definition node_content t : option T := match t with mkTrieNode content _ => content end.
Definition node_children t : list (Z * TrieNode T) := match t with mkTrieNode _ children => children end.
Definition TrieNode_new : TrieNode T := mkTrieNode None [].

Fixpoint trie_get (key : list Z) (t : TrieNode T) : option T :=
  match key with
  | [] => node_content t
  | byte :: key =>
      match lookup_list byte (node_children t) with
      | Some child => trie_get key child
      | None => None
      end
  end.

(** [apply], and [insert] and [set_tombstone] of the memtable's trie. *)
Fixpoint trie_apply (merge_fn : option T -> T) (key : list Z) (t : TrieNode T) : TrieNode T :=
  match key with
  | [] => mkTrieNode (Some (merge_fn (node_content t))) (node_children t)
  | byte :: key =>
      mkTrieNode (node_content t)
        (alter_list (fun o => Some (trie_apply merge_fn key (default TrieNode_new o))) byte (node_children t))
  end.

(** [iter_all], [collect_entries]: depth first, the key so far in [prefix]. *)
Fixpoint collect_entries (prefix : list Z) (t : TrieNode T) : list (list Z * T) :=
  match t with
  | mkTrieNode content children =>
      match content with Some c => [(prefix, c)] | None => [] end
      ++ (fix go l := match l with
                      | [] => []
                      | (byte, child) :: l => collect_entries (prefix ++ [byte]) child ++ go l
                      end) children
  end.

Fixpoint count_partitions (t : TrieNode T) : nat :=
  match t with
  | mkTrieNode content children =>
      ((match content with Some _ => 1 | None => 0 end)
       + (fix go l := match l with [] => 0 | (_, child) :: l => count_partitions child + go l end) children)%nat
  end.

(** ** The cursor *)

Record CursorFrame := mkCursorFrame {
  frame_node : TrieNode T;
  children_iter : list (Z * TrieNode T);
  frame_byte : option Z;
}.
Record Cursor := mkCursor {
  cursor_stack : list CursorFrame;
  cursor_started : bool;
}.
Definition Cursor_frame (byte : option Z) t : CursorFrame := mkCursorFrame t (node_children t) byte.
Definition Cursor_new (root : TrieNode T) : Cursor := mkCursor [Cursor_frame None root] false.

(** The first frame with a child left, from the top of the stack. *)
Fixpoint descend (stack : list CursorFrame) : list CursorFrame :=
  match stack with
  | [] => []
  | frame :: stack =>
      match children_iter frame with
      | (byte, child) :: rest =>
          Cursor_frame (Some byte) child :: mkCursorFrame (frame_node frame) rest (frame_byte frame) :: stack
      | [] => descend stack
      end
  end.
Definition Cursor_advance (self : Cursor) : bool * Cursor :=
  if negb (cursor_started self)
  then (match cursor_stack self with [] => false | _ => true end, mkCursor (cursor_stack self) true)
  else
    let stack := descend (cursor_stack self) in
    (match stack with [] => false | _ => true end, mkCursor stack true).
Definition Cursor_depth (self : Cursor) : nat := (length (cursor_stack self) - 1)%nat.
Definition Cursor_incoming_byte (self : Cursor) : option Z := frame ← head (cursor_stack self); frame_byte frame.
Definition Cursor_content (self : Cursor) : option T := frame ← head (cursor_stack self); node_content (frame_node frame).

(** A walk: the content found after each successful advance, with the bytes on
    the stack. *)
Definition stack_key (stack : list CursorFrame) : list Z := rev (omap frame_byte stack).
Fixpoint walk (fuel : nat) (self : Cursor) : list (list Z * option T) :=
  match fuel with
  | O => []
  | S fuel =>
      let '(more, self) := Cursor_advance self in
      if more then (stack_key (cursor_stack self), Cursor_content self) :: walk fuel self else []
  end.
End Node.
Arguments CursorFrame T : clear implicits.
Arguments Cursor T : clear implicits.

(** ** The generic trie (in_memory.rs) *)

Record InMemoryTrie (T : Type) := mkInMemoryTrie {
  trie_root : TrieNode T;
  entry_count : nat;
}.
Arguments mkInMemoryTrie {T} _ _.
Arguments trie_root {T} _.
Arguments entry_count {T} _.
Definition InMemoryTrie_new {T} : InMemoryTrie T := mkInMemoryTrie TrieNode_new 0.
Definition InMemoryTrie_get {T} (self : InMemoryTrie T) (key : list Z) : option T := trie_get key (trie_root self).
Definition InMemoryTrie_apply {T} (self : InMemoryTrie T) (key : list Z) (merge_fn : option T -> T) : InMemoryTrie T :=
  mkInMemoryTrie (trie_apply merge_fn key (trie_root self))
    (match trie_get key (trie_root self) with None => S (entry_count self) | Some _ => entry_count self end).
Definition InMemoryTrie_iter {T} (self : InMemoryTrie T) : list (list Z * T) := collect_entries [] (trie_root self).

(** ** Memtables (memtable/trie.rs, memtable_trie.rs) *)

Definition with_row (row : Row) (existing : option PartitionData) : PartitionData :=
  PartitionData_apply_row (default PartitionData_new existing) row.
Definition with_tombstone (ts ldt : Z) (existing : option PartitionData) : PartitionData :=
  PartitionData_set_tombstone (default PartitionData_new existing) ts ldt.

Record TrieMemtable := mkTrieMemtable {
  tm_root : TrieNode PartitionData;
  tm_approx_size : Z;
  tm_op_count : Z;
}.
Definition TrieMemtable_new : TrieMemtable := mkTrieMemtable TrieNode_new 0 0.
Definition TrieMemtable_apply (self : TrieMemtable) (k : Key) (row : Row) : TrieMemtable :=
  mkTrieMemtable (trie_apply (with_row row) k (tm_root self))
    (wrap_u 64 (tm_approx_size self + estimate_row_size row)) (wrap_u 64 (tm_op_count self + 1)).
Definition TrieMemtable_set_partition_tombstone (self : TrieMemtable) (k : Key) (ts ldt : Z) : TrieMemtable :=
  mkTrieMemtable (trie_apply (with_tombstone ts ldt) k (tm_root self)) (tm_approx_size self)
    (wrap_u 64 (tm_op_count self + 1)).
#[export] Instance TrieMemtable_backend : MemtableBackend TrieMemtable := {
  backend_apply := TrieMemtable_apply;
  backend_set_partition_tombstone := TrieMemtable_set_partition_tombstone;
  backend_get_partition s k := trie_get k (tm_root s);
  backend_iter_partitions s := collect_entries [] (tm_root s);
  backend_memory_usage := tm_approx_size;
  backend_partition_count s := count_partitions (tm_root s);
}.

Record MemtableTrie := mkMemtableTrie {
  mt_data : InMemoryTrie PartitionData;
  mt_approx_size : Z;
}.
Definition MemtableTrie_new : MemtableTrie := mkMemtableTrie InMemoryTrie_new 0.
Definition MemtableTrie_apply (self : MemtableTrie) (k : Key) (row : Row) : MemtableTrie :=
  mkMemtableTrie (InMemoryTrie_apply (mt_data self) k (with_row row))
    (wrap_u 64 (mt_approx_size self + estimate_row_size row)).
Definition MemtableTrie_set_partition_tombstone (self : MemtableTrie) (k : Key) (ts ldt : Z) : MemtableTrie :=
  mkMemtableTrie (InMemoryTrie_apply (mt_data self) k (with_tombstone ts ldt)) (mt_approx_size self).
#[export] Instance MemtableTrie_backend : MemtableBackend MemtableTrie := {
  backend_apply := MemtableTrie_apply;
  backend_set_partition_tombstone := MemtableTrie_set_partition_tombstone;
  backend_get_partition s k := InMemoryTrie_get (mt_data s) k;
  backend_iter_partitions s := InMemoryTrie_iter (mt_data s);
  backend_memory_usage := mt_approx_size;
  backend_partition_count s := entry_count (mt_data s);
}.

(** * Well-formed tries *)

Section NodeFacts.
Context {T : Type}.
Implicit Types (t : TrieNode T) (k p : list Z).

Lemma TrieNode_nested_ind (P : TrieNode T -> Prop) :
  (forall content children, Forall (fun e => P e.2) children -> P (mkTrieNode content children)) -> forall t, P t.
Proof.
  intros H. fix IH 1. intros [content children]. apply H.
  induction children as [|[byte child] children IHc]; constructor; [apply IH|apply IHc].
Qed.

Inductive trie_wf : TrieNode T -> Prop :=
| trie_wf_node content children :
    keys_sorted children = true -> Forall (fun e => trie_wf e.2) children -> trie_wf (mkTrieNode content children).

Lemma trie_wf_inv t :
  trie_wf t -> keys_sorted (node_children t) = true /\ Forall (fun e => trie_wf e.2) (node_children t).
Proof. by inversion 1. Qed.

Lemma new_trie_wf : trie_wf TrieNode_new.
Proof. by constructor. Qed.

Lemma child_wf t byte child : trie_wf t -> lookup_list byte (node_children t) = Some child -> trie_wf child.
Proof.
  intros [Hs Hc]%trie_wf_inv Hl. apply lookup_list_elem in Hl; [|done].
  by apply (proj1 (Forall_forall _ _) Hc (byte, child)).
Qed.

Lemma alter_children_wf (f : option (TrieNode T) -> option (TrieNode T)) byte (children : list (Z * TrieNode T)) :
  keys_sorted children = true -> Forall (fun e => trie_wf e.2) children ->
  (forall c, f (lookup_list byte children) = Some c -> trie_wf c) ->
  Forall (fun e => trie_wf e.2) (alter_list f byte children).
Proof.
  intros Hs Hc Hf. apply Forall_forall. intros [b c] Hin.
  assert (Hsa : keys_sorted (alter_list f byte children) = true) by by apply keys_sorted_alter.
  apply (lookup_list_elem b c) in Hin; [|done]. destruct (decide (byte = b)) as [<-|Hne].
  - rewrite lookup_alter_eq in Hin by done. by apply Hf.
  - rewrite lookup_alter_ne in Hin by done. apply lookup_list_elem in Hin; [|done].
    by apply (proj1 (Forall_forall _ _) Hc (b, c)).
Qed.

Lemma trie_apply_wf f k t : trie_wf t -> trie_wf (trie_apply f k t).
Proof.
  revert t. induction k as [|byte k IH]; intros t Ht; pose proof (trie_wf_inv t Ht) as [Hs Hc]; cbn [trie_apply].
  - by constructor.
  - constructor; [by apply keys_sorted_alter|]. apply alter_children_wf; [done..|]. intros c [= <-]. apply IH.
    destruct (lookup_list byte (node_children t)) as [c|] eqn:E; [by eapply child_wf|apply new_trie_wf].
Qed.

Lemma get_new k : trie_get k (TrieNode_new : TrieNode T) = None.
Proof. by destruct k. Qed.

Lemma get_apply_eq f k t : trie_wf t -> trie_get k (trie_apply f k t) = Some (f (trie_get k t)).
Proof.
  revert t. induction k as [|byte k IH]; intros t Ht; [done|]. cbn [trie_apply trie_get node_children].
  rewrite lookup_alter_eq by by apply trie_wf_inv.
  destruct (lookup_list byte (node_children t)) as [c|] eqn:E; cbn [default from_option id].
  - rewrite IH; [done|by eapply child_wf].
  - rewrite IH by apply new_trie_wf. by rewrite get_new.
Qed.

Lemma get_apply_ne f k j t : trie_wf t -> k <> j -> trie_get j (trie_apply f k t) = trie_get j t.
Proof.
  revert j t. induction k as [|byte k IH]; intros [|b j] t Ht Hne; try done. cbn [trie_apply trie_get node_children].
  destruct (decide (byte = b)) as [<-|Hb].
  - rewrite lookup_alter_eq by by apply trie_wf_inv.
    destruct (lookup_list byte (node_children t)) as [c|] eqn:E; cbn [default from_option id].
    + apply IH; [by eapply child_wf|]. congruence.
    + rewrite IH; [apply get_new|apply new_trie_wf|]. congruence.
  - rewrite lookup_alter_ne; [done|done|by apply trie_wf_inv].
Qed.

(** * The listing *)

Definition opt_entry p (o : option T) : list (list Z * T) := match o with Some c => [(p, c)] | None => [] end.
Lemma collect_unfold p content children :
  collect_entries p (mkTrieNode content children)
  = opt_entry p content ++ mjoin ((fun e => collect_entries (p ++ [e.1]) e.2) <$> children).
Proof.
  cbn [collect_entries]. f_equal. induction children as [|[b c] children IH]; [done|].
  rewrite fmap_cons, mjoin_cons, <- IH. done.
Qed.

Lemma elem_of_children p (children : list (Z * TrieNode T)) x :
  x ∈ mjoin ((fun e => collect_entries (p ++ [e.1]) e.2) <$> children)
  <-> exists e, e ∈ children /\ x ∈ collect_entries (p ++ [e.1]) e.2.
Proof.
  rewrite list_elem_of_mjoin. setoid_rewrite list_elem_of_lookup. split.
  - intros (i & l & Hi & j & Hj). rewrite list_lookup_fmap in Hi. destruct (children !! i) as [e|] eqn:E; [|done].
    simpl in Hi. injection Hi as <-. eauto.
  - intros (e & [i Hi] & Hx). exists i, (collect_entries (p ++ [e.1]) e.2). by rewrite list_lookup_fmap, Hi.
Qed.

Lemma elem_of_collect p t k v :
  trie_wf t -> (k, v) ∈ collect_entries p t <-> exists j, k = p ++ j /\ trie_get j t = Some v.
Proof.
  revert p k. induction t as [content children IH] using TrieNode_nested_ind. intros p k Ht.
  pose proof (trie_wf_inv _ Ht) as [Hs Hc]; simpl in Hs, Hc. rewrite collect_unfold, elem_of_app. split.
  - intros [Hin|Hin].
    + destruct content as [c|]; simpl in Hin; [|by apply not_elem_of_nil in Hin].
      apply list_elem_of_singleton in Hin. simplify_eq. exists []. by rewrite app_nil_r.
    + apply elem_of_children in Hin as ([b c] & Hbc & Hin).
      apply (proj1 (Forall_forall _ _) IH (b, c) Hbc) in Hin as (j & -> & Hj);
        [|by apply (proj1 (Forall_forall _ _) Hc (b, c))].
      exists (b :: j). rewrite <- app_assoc. split; [done|]. cbn [trie_get node_children].
      apply lookup_list_elem in Hbc; [|done]. by rewrite Hbc.
  - intros ([|b j] & -> & Hj); cbn [trie_get] in Hj; simpl in Hj.
    + left. rewrite Hj, app_nil_r. by apply list_elem_of_singleton.
    + right. destruct (lookup_list b children) as [c|] eqn:E; [|done]. apply lookup_list_elem in E; [|done].
      apply elem_of_children. exists (b, c). split; [done|].
      apply (proj1 (Forall_forall _ _) IH (b, c) E); [by apply (proj1 (Forall_forall _ _) Hc (b, c))|].
      exists j. by rewrite <- app_assoc.
Qed.

Definition key_lt (e f : list Z * T) : Prop := lt_of e.1 f.1.
Lemma sorted_keys (l : list (list Z * T)) : StronglySorted key_lt l -> keys_sorted l = true.
Proof.
  induction 1 as [|e l _ IH He]; [done|]. apply keys_sorted_cons. split; [|done].
  intros q Hq. by apply (proj1 (Forall_forall _ _) He).
Qed.

Lemma collect_sorted p t : trie_wf t -> StronglySorted key_lt (collect_entries p t).
Proof.
  revert p. induction t as [content children IH] using TrieNode_nested_ind. intros p Ht.
  pose proof (trie_wf_inv _ Ht) as [Hs Hc]; simpl in Hs, Hc. rewrite collect_unfold.
  assert (Hch : forall l, keys_sorted l = true -> Forall (fun e => trie_wf e.2) l ->
    Forall (fun e => forall p, trie_wf e.2 -> StronglySorted key_lt (collect_entries p e.2)) l ->
    StronglySorted key_lt (mjoin ((fun e => collect_entries (p ++ [e.1]) e.2) <$> l))).
  { clear. induction l as [|[b c] l IHl]; [constructor|]. intros [Hb Hs]%keys_sorted_cons [Hc Hl]%Forall_cons [Hic Hil]%Forall_cons.
    rewrite fmap_cons, mjoin_cons. apply StronglySorted_app. split_and!; [|by apply Hic|by apply IHl].
    intros [k1 v1] [k2 v2] H1 H2. apply elem_of_collect in H1 as (j1 & -> & _); [|done].
    apply elem_of_children in H2 as ([b' c'] & Hin & H2).
    apply elem_of_collect in H2 as (j2 & -> & _); [|by apply (proj1 (Forall_forall _ _) Hl (b', c'))].
    unfold key_lt, lt_of; simpl. rewrite <- !app_assoc, cmp_app. pose proof (Hb _ Hin) as Hlt.
    unfold lt_of in Hlt. unfold cmp, list_ord; simpl. simpl in Hlt. by rewrite Hlt. }
  destruct content as [c|]; simpl; [|by apply Hch].
  constructor; [by apply Hch|]. apply Forall_forall. intros [k v] Hin.
  apply elem_of_children in Hin as ([b' c'] & Hin & H2).
  apply elem_of_collect in H2 as (j2 & -> & _); [|by apply (proj1 (Forall_forall _ _) Hc (b', c'))].
  unfold key_lt, lt_of; simpl. rewrite <- app_assoc. rewrite <- (app_nil_r p) at 1. by rewrite cmp_app.
Qed.

Lemma count_partitions_length p t : count_partitions t = length (collect_entries p t).
Proof.
  revert p. induction t as [content children IH] using TrieNode_nested_ind. intros p. rewrite collect_unfold, length_app.
  cbn [count_partitions]. f_equal; [by destruct content|].
  induction IH as [|[b c] children Hc _ IHc]; [done|]. rewrite fmap_cons, mjoin_cons, length_app, <- IHc. f_equal. apply Hc.
Qed.

(** ** The map a trie holds *)

Definition trie_abs t : ordmap (list Z) T := insert_all ∅ (collect_entries [] t).

Lemma collect_keys_sorted p t : trie_wf t -> keys_sorted (collect_entries p t) = true.
Proof. intros. by apply sorted_keys, collect_sorted. Qed.

Lemma entries_trie_abs t : trie_wf t -> entries (trie_abs t) = collect_entries [] t.
Proof.
  intros Ht. pose proof (collect_keys_sorted [] t Ht) as Hs. exact (f_equal entries (insert_all_entries (mk _ Hs))).
Qed.

Lemma lookup_trie_abs t k : trie_wf t -> trie_abs t !! k = trie_get k t.
Proof.
  intros Ht. apply option_eq. intros v. rewrite ordmap_elem, entries_trie_abs, elem_of_collect by done. simpl. split.
  - by intros (j & -> & Hj).
  - intros Hv. by exists k.
Qed.

Lemma trie_abs_apply (f : T -> T) d k t :
  trie_wf t -> trie_abs (trie_apply (fun o => f (default d o)) k t) = upsert f (f d) k (trie_abs t).
Proof.
  intros Ht. apply map_eq. intros j. rewrite lookup_upsert, !lookup_trie_abs by eauto using trie_apply_wf.
  destruct (decide (k = j)) as [<-|Hne]; [|by apply get_apply_ne].
  rewrite get_apply_eq by done. by destruct (trie_get k t).
Qed.

(** ** What the cursor visits *)

Fixpoint node_count t : nat :=
  match t with
  | mkTrieNode _ children => S ((fix go l := match l with [] => 0 | (_, child) :: l => node_count child + go l end) children)%nat
  end.
Definition frame_left (frame : CursorFrame T) : nat := sum_list ((fun e => node_count e.2) <$> children_iter frame).
Definition stack_left (stack : list (CursorFrame T)) : nat := sum_list (frame_left <$> stack).

Fixpoint pending (stack : list (CursorFrame T)) : list (list Z * T) :=
  match stack with
  | [] => []
  | frame :: below =>
      mjoin ((fun e => collect_entries (stack_key stack ++ [e.1]) e.2) <$> children_iter frame) ++ pending below
  end.

Lemma stack_key_cons frame (stack : list (CursorFrame T)) :
  stack_key (frame :: stack) = stack_key stack ++ match frame_byte frame with Some b => [b] | None => [] end.
Proof. unfold stack_key. simpl. destruct (frame_byte frame); simpl; [done|by rewrite app_nil_r]. Qed.

Lemma frame_new_left byte t : node_count t = S (frame_left (Cursor_frame byte t)).
Proof.
  destruct t as [content children]. unfold frame_left, Cursor_frame. cbn [node_count children_iter node_children]. f_equal.
  induction children as [|[b c] children IH]; [done|]. simpl. by rewrite IH.
Qed.

Lemma descend_spec (stack : list (CursorFrame T)) :
  match descend stack with
  | [] => pending stack = []
  | frame :: below =>
      pending stack = opt_entry (stack_key (frame :: below)) (node_content (frame_node frame)) ++ pending (frame :: below)
      /\ stack_left stack = S (stack_left (frame :: below))
  end.
Proof.
  induction stack as [|[t l o] stack IH]; [done|]. cbn [descend children_iter]. destruct l as [|[b c] l].
  - destruct (descend stack); [exact IH|]. exact IH.
  - split.
    + destruct c as [content children]. cbn [pending children_iter Cursor_frame frame_node node_content node_children].
      rewrite fmap_cons, mjoin_cons, !stack_key_cons. cbn [fst snd frame_byte Cursor_frame].
      by rewrite collect_unfold, <- !app_assoc.
    + unfold stack_left. simpl. pose proof (frame_new_left (Some b) c).
      assert (Hc : forall l', frame_left (mkCursorFrame t ((b, c) :: l') o) = (node_count c + frame_left (mkCursorFrame t l' o))%nat) by done.
      rewrite Hc. lia.
Qed.

Definition seen (visit : list Z * option T) : option (list Z * T) := c ← visit.2; Some (visit.1, c).
Lemma omap_seen k o l : omap seen ((k, o) :: l) = opt_entry k o ++ omap seen l.
Proof. by destruct o. Qed.

Lemma walk_pending fuel (stack : list (CursorFrame T)) :
  (stack_left stack < fuel)%nat -> omap seen (walk fuel (mkCursor stack true)) = pending stack.
Proof.
  revert stack. induction fuel as [|fuel IH]; intros stack Hf; [lia|]. cbn [walk Cursor_advance cursor_started negb cursor_stack].
  pose proof (descend_spec stack) as Hd. destruct (descend stack) as [|frame below]; [by rewrite Hd|].
  destruct Hd as [-> Hl]. rewrite omap_seen, IH by lia. done.
Qed.

(** The contents a cursor meets, with the bytes that lead to them, are the
    listing in its order; [node_count] + 1 advances are enough. *)
Lemma cursor_walk t fuel :
  (node_count t < fuel)%nat -> omap seen (walk fuel (Cursor_new t)) = collect_entries [] t.
Proof.
  intros Hf. destruct fuel as [|fuel]; [lia|]. cbn [walk Cursor_advance Cursor_new cursor_started negb cursor_stack].
  rewrite omap_seen, walk_pending.
  - destruct t as [content children]. rewrite collect_unfold. cbn [pending]. by rewrite app_nil_r.
  - rewrite (frame_new_left None) in Hf. unfold stack_left; simpl. lia.
Qed.
End NodeFacts.

(** * The laws of the trie memtables *)

#[export] Instance TrieMemtable_laws : BackendLaws TrieMemtable.
Proof.
  refine {| backend_wf s := trie_wf (tm_root s); backend_abs s := trie_abs (tm_root s) |}; intros s *; simpl.
  - apply trie_apply_wf.
  - apply trie_apply_wf.
  - apply (trie_abs_apply (fun p => PartitionData_apply_row p _)).
  - apply (trie_abs_apply (fun p => PartitionData_set_tombstone p _ _)).
  - intros. by rewrite lookup_trie_abs.
  - intros. by rewrite entries_trie_abs.
  - intros. by rewrite size_entries, entries_trie_abs, (count_partitions_length []).
Defined.

Definition counted {T} (s : InMemoryTrie T) : Prop :=
  trie_wf (trie_root s) /\ entry_count s = size (trie_abs (trie_root s)).
Lemma upsert_size {T} (f : T -> T) d (k : list Z) (m : ordmap (list Z) T) :
  size (upsert f d k m) = match m !! k with None => S (size m) | Some _ => size m end.
Proof.
  assert (upsert f d k m = <[k := match m !! k with Some x => f x | None => d end]> m) as ->.
  { apply map_eq. intros j. rewrite lookup_upsert. destruct (decide (k = j)) as [<-|Hne].
    - by rewrite lookup_insert_eq.
    - by rewrite lookup_insert_ne. }
  by rewrite map_size_insert; destruct (m !! k).
Qed.
Lemma counted_apply {T} (f : T -> T) d k (s : InMemoryTrie T) :
  counted s -> counted (InMemoryTrie_apply s k (fun o => f (default d o))).
Proof.
  intros [Hwf Hc]. split; simpl; [by apply trie_apply_wf|].
  rewrite trie_abs_apply, upsert_size, lookup_trie_abs, Hc by done. done.
Qed.

#[export] Instance MemtableTrie_laws : BackendLaws MemtableTrie.
Proof.
  refine {| backend_wf s := counted (mt_data s); backend_abs s := trie_abs (trie_root (mt_data s)) |}; intros s *; simpl.
  - apply (counted_apply (fun p => PartitionData_apply_row p _)).
  - apply (counted_apply (fun p => PartitionData_set_tombstone p _ _)).
  - intros [Hwf _]. by apply (trie_abs_apply (fun p => PartitionData_apply_row p _)).
  - intros [Hwf _]. by apply (trie_abs_apply (fun p => PartitionData_set_tombstone p _ _)).
  - intros [Hwf _]. by rewrite lookup_trie_abs.
  - intros [Hwf _]. by rewrite entries_trie_abs.
  - by intros [_ Hc].
Defined.
