(* ===== verification/PartitionView.v ===== *)
(** * What a stored partition says

    The specification of the storage engine's data: the view of a partition is
    the map from clustering key to deletion mark and newest cell of each column,
    with its newest partition deletion.  Applying a row, setting a deletion and
    merging two partitions (memtable/partition.rs, the loops of engine.rs and
    compaction/mod.rs) are the join of views, on histories in which no two
    different cells of a column have the same timestamp and kind. *)
From S2P Require Export Memtable.

(** ** Rows *)

Definition row_wf (r : Row) : Prop := NoDup (Cell_column <$> Row_cells r).
Definition cell_entry (c : Cell) : string * Cell := (Cell_column c, c).
Definition cells_view (l : list Cell) : ordmap string Cell := insert_all ∅ (cell_entry <$> l).
Definition RowView : Type := bool * ordmap string Cell.
Definition row_view (r : Row) : RowView := (Row_is_tombstone r, cells_view (Row_cells r)).
Definition row_join : RowView -> RowView -> RowView := pair_merge orb (merge_loop Cell_merge_with).

Lemma Cell_merge_column c d : Cell_column c = Cell_column d -> Cell_column (Cell_merge_with c d) = Cell_column c.
Proof. intros E. unfold Cell_merge_with. by repeat case_match. Qed.

Lemma cells_columns l : (cell_entry <$> l).*1 = Cell_column <$> l.
Proof. by rewrite <- list_fmap_compose. Qed.

Lemma lookup_cells_view l col :
  NoDup (Cell_column <$> l) -> cells_view l !! col = List.find (fun c => String.eqb (Cell_column c) col) l.
Proof.
  intros Hnd. unfold cells_view. destruct (List.find _ l) as [c|] eqn:E.
  - apply List.find_some in E as [Hin Hc%String.eqb_eq]. apply lookup_insert_all_in; [by rewrite cells_columns|].
    apply list_elem_of_fmap. exists c. split; [unfold cell_entry; by rewrite Hc|by apply list_elem_of_In].
  - rewrite lookup_insert_all_out; [apply lookup_empty|]. rewrite cells_columns. intros (c & -> & Hc)%list_elem_of_fmap.
    apply list_elem_of_In in Hc. apply (List.find_none _ _ E) in Hc. by rewrite String.eqb_refl in Hc.
Qed.

Lemma merge_cell_columns l c :
  Cell_column <$> Row_merge_cell l c = (Cell_column <$> l) ++ (if bool_decide (Cell_column c ∈ Cell_column <$> l) then [] else [Cell_column c]).
Proof.
  induction l as [|d l IH]; [by rewrite bool_decide_eq_false_2 by set_solver|]. cbn [Row_merge_cell].
  destruct (String.eqb_spec (Cell_column d) (Cell_column c)) as [E|Hne].
  - rewrite fmap_cons, Cell_merge_column, bool_decide_eq_true_2 by (done || set_solver). by rewrite app_nil_r.
  - rewrite !fmap_cons, IH. simpl. do 2 f_equal. repeat case_bool_decide; set_solver.
Qed.
Lemma merge_cell_wf l c : NoDup (Cell_column <$> l) -> NoDup (Cell_column <$> Row_merge_cell l c).
Proof.
  intros Hnd. rewrite merge_cell_columns. case_bool_decide as H; [by rewrite app_nil_r|].
  apply NoDup_app. split_and!; [done|set_solver|apply NoDup_singleton].
Qed.
Lemma find_merge_cell l c col :
  List.find (fun d => String.eqb (Cell_column d) col) (Row_merge_cell l c)
  = let o := List.find (fun d => String.eqb (Cell_column d) col) l in
    if String.eqb (Cell_column c) col then merge_opt Cell_merge_with o (Some c) else o.
Proof.
  induction l as [|d l IH]; [simpl; by destruct (String.eqb _ _)|]. cbn [Row_merge_cell].
  destruct (String.eqb_spec (Cell_column d) (Cell_column c)) as [E|Hne].
  - cbn [List.find]. rewrite Cell_merge_column, E by done. by destruct (String.eqb (Cell_column c) col).
  - cbn [List.find]. destruct (String.eqb_spec (Cell_column d) col) as [<-|Hd].
    + by rewrite (proj2 (String.eqb_neq (Cell_column c) (Cell_column d))) by congruence.
    + exact IH.
Qed.

Lemma merge_cells_wf l k : NoDup (Cell_column <$> l) -> NoDup (Cell_column <$> foldl Row_merge_cell l k).
Proof. revert l. induction k as [|c k IH]; intros l Hnd; [done|]. by apply IH, merge_cell_wf. Qed.

Lemma merge_cells_view l k :
  NoDup (Cell_column <$> l) -> NoDup (Cell_column <$> k) ->
  cells_view (foldl Row_merge_cell l k) = merge_loop Cell_merge_with (cells_view l) (cells_view k).
Proof.
  intros Hl Hk. apply map_eq. intros col. rewrite lookup_merge_loop, !lookup_cells_view by eauto using merge_cells_wf.
  clear Hl. revert l. induction k as [|c k IH]; intros l; simpl.
  - by destruct (List.find _ l).
  - apply NoDup_cons in Hk as [Hc Hk]. rewrite IH, find_merge_cell by done. cbv zeta.
    destruct (String.eqb_spec (Cell_column c) col) as [<-|Hne]; [|done].
    assert (List.find (fun d => String.eqb (Cell_column d) (Cell_column c)) k = None) as ->.
    { destruct (List.find _ k) as [d|] eqn:E; [|done]. apply List.find_some in E as [Hd E%String.eqb_eq]. exfalso. apply Hc.
      rewrite <- E. apply list_elem_of_fmap_2. by apply list_elem_of_In. }
    by destruct (List.find _ l).
Qed.

Lemma row_merge_view r s :
  row_wf r -> row_wf s -> row_wf (Row_merge_with r s) /\ row_view (Row_merge_with r s) = row_join (row_view r) (row_view s).
Proof.
  intros Hr Hs. split; [by apply merge_cells_wf|]. unfold row_view, row_join, pair_merge; simpl. f_equal.
  - by destruct (Row_is_tombstone r), (Row_is_tombstone s).
  - by apply merge_cells_view.
Qed.

(** ** Partitions *)

Definition pd_tomb (p : PartitionData) : option (Z * Z) :=
  match tombstone_timestamp p, tombstone_local_deletion_time p with Some ts, Some ldt => Some (ts, ldt) | _, _ => None end.
Definition tomb_join (a b : Z * Z) : Z * Z := if b.1 <=? a.1 then a else b.
Definition PView : Type := ordmap (list Z) RowView * option (Z * Z).
Definition pview (p : PartitionData) : PView := (row_view <$> pd_rows p, pd_tomb p).
Definition pview_join : PView -> PView -> PView := pair_merge (merge_loop row_join) (merge_opt tomb_join).

Record p_wf (p : PartitionData) : Prop := {
  pw_rows : map_all (fun ck r => Row_clustering_key r = ck /\ row_wf r) (pd_rows p);
  pw_tomb : is_Some (tombstone_timestamp p) <-> is_Some (tombstone_local_deletion_time p);
}.

Lemma partition_new_wf : p_wf PartitionData_new.
Proof. split; [|done]. intros k v Hk. simpl in Hk. by rewrite lookup_empty in Hk. Qed.

Lemma apply_row_view p r :
  p_wf p -> row_wf r ->
  p_wf (PartitionData_apply_row p r)
  /\ pview (PartitionData_apply_row p r) = pview_join (pview p) ({[Row_clustering_key r := row_view r]}, None).
Proof.
  intros [Hr Ht] Hw. split; [split; [|done]|].
  - intros ck r' . simpl. rewrite lookup_upsert. case_decide as E; [|apply Hr].
    destruct (pd_rows p !! Row_clustering_key r) as [x|] eqn:Ex; subst ck; rewrite Ex; intros [= <-]; [|done].
    destruct (Hr _ _ Ex) as [Hk Hx]. split; [done|]. by apply row_merge_view.
  - unfold pview, pview_join, pair_merge. cbn [fst snd pd_rows PartitionData_apply_row].
    f_equal; [|unfold pd_tomb; simpl; by destruct (tombstone_timestamp p), (tombstone_local_deletion_time p)].
    apply map_eq. intros ck. rewrite lookup_merge_loop, !lookup_fmap, lookup_upsert.
    destruct (decide (Row_clustering_key r = ck)) as [<-|Hne].
    + rewrite lookup_singleton_eq. destruct (pd_rows p !! Row_clustering_key r) as [x|] eqn:Ex; simpl; [|done].
      destruct (Hr _ _ Ex) as [Hk Hx]. by rewrite (proj2 (row_merge_view x r Hx Hw)).
    + rewrite lookup_singleton_ne by done. by destruct (pd_rows p !! ck).
Qed.

Lemma set_tombstone_view p ts ldt :
  p_wf p ->
  p_wf (PartitionData_set_tombstone p ts ldt)
  /\ pview (PartitionData_set_tombstone p ts ldt) = pview_join (pview p) (∅, Some (ts, ldt)).
Proof.
  intros [Hr Ht]. unfold PartitionData_set_tombstone, pview, pview_join, pair_merge, pd_tomb.
  assert (He : forall m : ordmap (list Z) RowView, merge_loop row_join m ∅ = m).
  { intros m. apply map_eq. intros k. rewrite lookup_merge_loop, lookup_empty. by destruct (m !! k). }
  destruct (tombstone_timestamp p) as [t|] eqn:Et, (tombstone_local_deletion_time p) as [l|] eqn:El; cbn [fst snd merge_opt].
  - unfold tomb_join. cbn [fst]. destruct (Z.leb_spec ts t); cbn [pd_rows]; rewrite ?He.
    + split; [by split; rewrite ?Et, ?El|]. by rewrite Et, El.
    + split; [by split|done].
  - exfalso. destruct Ht as [Ht _]. by destruct Ht.
  - exfalso. destruct Ht as [_ Ht]. by destruct Ht.
  - cbn [pd_rows tombstone_timestamp tombstone_local_deletion_time]. rewrite He. split; [by split|done].
Qed.

(** ** Merging partitions *)

(** [for (_ck, row) in other.rows { self.apply_row(row) }]. *)
Definition absorb_rows (self other : PartitionData) : PartitionData :=
  foldl PartitionData_apply_row self (values (pd_rows other)).
(** [if let (Some(ts), Some(ldt)) = .. { self.set_tombstone(ts, ldt) }]. *)
Definition absorb_tombstone (self other : PartitionData) : PartitionData :=
  match tombstone_timestamp other, tombstone_local_deletion_time other with
  | Some ts, Some ldt => PartitionData_set_tombstone self ts ldt
  | _, _ => self
  end.

Lemma merge_loop_empty {K A} `{OrdLaws K} `{!EqDecision K} (f : A -> A -> A) (m : ordmap K A) : merge_loop f m ∅ = m.
Proof. done. Qed.
Lemma pview_join_empty v : pview_join v (∅, None) = v.
Proof. destruct v as [m o]. unfold pview_join, pair_merge. cbn [fst snd]. rewrite merge_loop_empty. by destruct o. Qed.

Lemma absorb_rows_view p q :
  p_wf p -> p_wf q -> p_wf (absorb_rows p q) /\ pview (absorb_rows p q) = pview_join (pview p) (row_view <$> pd_rows q, None).
Proof.
  intros Hp [Hq _]. unfold absorb_rows, values.
  assert (H : forall l p, p_wf p -> (forall e, e ∈ l -> Row_clustering_key e.2 = e.1 /\ row_wf e.2) ->
    p_wf (foldl PartitionData_apply_row p l.*2)
    /\ pview (foldl PartitionData_apply_row p l.*2)
       = (foldl (fun acc e => upsert (fun x => row_join x e.2) e.2 e.1 acc) (pview p).1 (prod_map id row_view <$> l), (pview p).2)).
  { clear. induction l as [|[k r] l IH]; intros p Hp Hl; [by destruct (pview p) eqn:E; simpl; rewrite E|].
    destruct (Hl (k, r) ltac:(left)) as [Hk Hr]. simpl in Hk, Hr. subst k.
    destruct (apply_row_view p r Hp Hr) as [Hp' Hv]. rewrite !fmap_cons. cbn [foldl snd].
    destruct (IH _ Hp') as [H1 H2]; [intros e He; apply Hl; by right|]. split; [done|]. rewrite H2, Hv.
    unfold pview_join, pair_merge. cbn [fst snd]. f_equal. by destruct (pview p).2. }
  destruct (H (entries (pd_rows q)) p Hp) as [H1 H2]; [intros [k r] Hin; by apply Hq, ordmap_elem|].
  split; [done|]. rewrite H2. unfold pview_join, pair_merge. cbn [fst snd]. f_equal. by destruct (pview p).2.
Qed.

Lemma absorb_tombstone_view p q :
  p_wf p -> p_wf (absorb_tombstone p q) /\ pview (absorb_tombstone p q) = pview_join (pview p) (∅, pd_tomb q).
Proof.
  intros Hp. unfold absorb_tombstone, pd_tomb at 1.
  destruct (tombstone_timestamp q), (tombstone_local_deletion_time q); [by apply set_tombstone_view|..];
    by rewrite pview_join_empty.
Qed.

Lemma join_parts v (m : ordmap (list Z) RowView) o :
  pview_join (pview_join v (m, None)) (∅, o) = pview_join v (m, o)
  /\ pview_join (pview_join v (∅, o)) (m, None) = pview_join v (m, o).
Proof.
  unfold pview_join, pair_merge. cbn [fst snd]. rewrite !merge_loop_empty.
  by destruct v as [m' [|]], o.
Qed.

(** Either order of the two loops is the join. *)
Lemma absorb_view p q :
  p_wf p -> p_wf q ->
  let r := absorb_tombstone (absorb_rows p q) q in p_wf r /\ pview r = pview_join (pview p) (pview q).
Proof.
  intros Hp Hq r. destruct (absorb_rows_view p q Hp Hq) as [H1 H2]. destruct (absorb_tombstone_view _ q H1) as [H3 H4].
  split; [done|]. unfold r. rewrite H4, H2. apply join_parts.
Qed.
Lemma absorb_view' p q :
  p_wf p -> p_wf q ->
  let r := absorb_rows (absorb_tombstone p q) q in p_wf r /\ pview r = pview_join (pview p) (pview q).
Proof.
  intros Hp Hq r. destruct (absorb_tombstone_view p q Hp) as [H1 H2]. destruct (absorb_rows_view _ q H1 Hq) as [H3 H4].
  split; [done|]. unfold r. rewrite H4, H2. apply join_parts.
Qed.

(** ** Histories without conflicts *)

(** The cells ever written to a partition and row, and the partition deletions:
    timestamp and kind tell those of a column apart, and the timestamp those of a
    partition. *)
Record History := mkHistory {
  hist_cell : list Z -> list Z -> Cell -> Prop;
  hist_tomb : list Z -> Z * Z -> Prop;
}.
Record hist_ok (W : History) : Prop := {
  ho_cell pk ck c d : hist_cell W pk ck c -> hist_cell W pk ck d -> Cell_column c = Cell_column d ->
    Cell_timestamp c = Cell_timestamp d -> Cell_is_tombstone c = Cell_is_tombstone d -> c = d;
  ho_tomb pk a b : hist_tomb W pk a -> hist_tomb W pk b -> a.1 = b.1 -> a = b;
}.

(** The view of a set of partitions. *)
Abbreviation DbView := (ordmap (list Z) PView).

Section Views.
Context (W : History) (HW : hist_ok W).

Definition cell_in (pk ck : list Z) (column : string) (c : Cell) : Prop := Cell_column c = column /\ hist_cell W pk ck c.
Definition row_in (pk ck : list Z) (v : RowView) : Prop := True /\ map_all (cell_in pk ck) v.2.
Definition pview_in (pk : list Z) (v : PView) : Prop :=
  map_all (row_in pk) v.1 /\ forall a, v.2 = Some a -> hist_tomb W pk a.

Definition stored_rank (c : Cell) : Z * Z := (Cell_timestamp c, if Cell_is_tombstone c then 1 else 0).
Lemma stored_cell_semilattice pk ck column : Semilattice (cell_in pk ck column) Cell_merge_with.
Proof.
  apply (semilattice_of_rank _ stored_rank).
  - intros c d [<- Hc] [Hcol Hd] [= Ht Hk]. eapply ho_cell; try done. by destruct (Cell_is_tombstone c), (Cell_is_tombstone d).
  - intros c d _ _. unfold Cell_merge_with, stored_rank. rewrite !le_of_pair.
    destruct (Cell_is_tombstone c), (Cell_is_tombstone d); simpl; repeat case_match; bool_to_prop; simpl in *; try discriminate;
      (left; split; [done|lia]) || (right; split; [done|lia]).
Qed.
Lemma tomb_semilattice pk : Semilattice (hist_tomb W pk) tomb_join.
Proof.
  apply (semilattice_of_rank _ fst).
  - intros a b Ha Hb E. by eapply ho_tomb.
  - intros a b _ _. unfold tomb_join. destruct (Z.leb_spec b.1 a.1); [left|right]; (split; [done|]); apply le_of_Z; lia.
Qed.
Lemma orb_semilattice : Semilattice (fun _ : bool => True) orb.
Proof. split; try done. - by intros [] [] []. - by intros [] []. - by intros []. Qed.

Lemma pview_semilattice pk : Semilattice (pview_in pk) pview_join.
Proof.
  apply (prod_semilattice (map_all (row_in pk)) (fun o => forall a, o = Some a -> hist_tomb W pk a)).
  - apply merge_loop_semilattice. intros ck. apply (prod_semilattice (fun _ => True)); [apply orb_semilattice|].
    apply merge_loop_semilattice. intros column. apply stored_cell_semilattice.
  - apply merge_opt_semilattice, tomb_semilattice.
Qed.

(** ** Databases *)

Definition db_in : DbView -> Prop := map_all pview_in.
Definition db_join : DbView -> DbView -> DbView := merge_loop pview_join.
Lemma db_semilattice : Semilattice db_in db_join.
Proof. apply merge_loop_semilattice, pview_semilattice. Qed.
End Views.
