(* ===== verification/Compaction.v ===== *)
(** * Compaction

    crates/cassandra-storage/src/compaction/mod.rs: merging the partitions of
    several tables of sorted partitions, purging what is past the grace period
    and cutting the output into files of bounded size. *)
From S2P Require Export PartitionView.

Abbreviation PartitionVec := (list (list Z * PartitionData)).

(** ** Merging *)

Definition merge_source_entry (merged : Partitions) (e : list Z * PartitionData) : Partitions :=
  let entry := default PartitionData_new (merged !! e.1) in
  <[e.1 := absorb_rows (absorb_tombstone entry e.2) e.2]> merged.
Definition merge_tables (sources : list PartitionVec) : Partitions := foldl (foldl merge_source_entry) ∅ sources.

(** [true] when the cell is retained. *)
Definition gc_cell (gc_cutoff now_seconds : Z) (cell : Cell) : bool :=
  let expired_ttl :=
    (0 <? Cell_ttl cell)
    && match Cell_local_deletion_time cell with Some ldt => (ldt <=? now_seconds) && (ldt <=? gc_cutoff) | None => false end in
  match Cell_is_tombstone cell, Cell_local_deletion_time cell with
  | true, Some ldt => gc_cutoff <? ldt
  | _, _ => negb expired_ttl
  end.
(** [None] when the row is dropped. *)
Definition gc_row (gc_cutoff now_seconds : Z) (row : Row) : option Row :=
  let expired := Row_is_tombstone row
                 && match Row_local_deletion_time row with Some ldt => ldt <=? gc_cutoff | None => false end in
  if expired then None
  else
    let cells := List.filter (gc_cell gc_cutoff now_seconds) (Row_cells row) in
    if match cells with [] => Row_is_tombstone row | _ => true end
    then Some (mkRow (Row_clustering_key row) cells (Row_is_tombstone row) (Row_local_deletion_time row))
    else None.
Definition gc_partition (gc_cutoff now_seconds : Z) (p : PartitionData) : option PartitionData :=
  let expired := match tombstone_local_deletion_time p with Some ldt => ldt <=? gc_cutoff | None => false end in
  let ts := if expired then None else tombstone_timestamp p in
  let ldt := if expired then None else tombstone_local_deletion_time p in
  let purged_rows := omap (gc_row gc_cutoff now_seconds) (pd_rows p) in
  if match entries purged_rows, ts with [], None => false | _, _ => true end
  then Some (mkPartitionData purged_rows ts ldt) else None.

Definition merge_partitions (sources : list PartitionVec) (gc_grace_seconds now_seconds : Z) : PartitionVec :=
  let gc_cutoff := wrap_s 32 (now_seconds - gc_grace_seconds) in
  entries (omap (gc_partition gc_cutoff now_seconds) (merge_tables sources)).

(** ** Output *)

Definition estimate_cell_size (cell : Cell) : Z :=
  Z.of_nat (String.length (Cell_column cell)) + 16
  + match Cell_value cell with Some value => Z.of_nat (length value) + 4 | None => 0 end
  + match Cell_local_deletion_time cell with Some _ => 4 | None => 0 end.
Definition estimate_compaction_row_size (row : Row) : Z :=
  Z.of_nat (length (Row_clustering_key row)) + 10
  + foldl (fun size cell => size + estimate_cell_size cell) 0 (Row_cells row)
  + match Row_local_deletion_time row with Some _ => 4 | None => 0 end.
Definition estimate_compaction_output_size (key : list Z) (data : PartitionData) : Z :=
  foldl (fun size row => size + estimate_compaction_row_size row) (Z.of_nat (length key) + 4) (values (pd_rows data)) + 1.

(** The loop over the partitions, with the batch being filled and its size. *)
Fixpoint split_batches (max_size : Z) (partitions current : PartitionVec) (current_size : Z) : list PartitionVec :=
  match partitions with
  | [] => match current with [] => [] | _ => [current] end
  | (key, data) :: partitions =>
      let partition_size := estimate_compaction_output_size key data in
      if match current with [] => false | _ => max_size <? current_size + partition_size end
      then current :: split_batches max_size partitions [(key, data)] partition_size
      else split_batches max_size partitions (current ++ [(key, data)]) (current_size + partition_size)
  end.
Definition split_compaction_output (partitions : PartitionVec) (max_sstable_size : option Z) : list PartitionVec :=
  match max_sstable_size with
  | Some max_size =>
      if 0 <? max_size then split_batches max_size partitions [] 0
      else match partitions with [] => [] | _ => [partitions] end
  | None => match partitions with [] => [] | _ => [partitions] end
  end.

Definition anticompact_partitions (partitions : PartitionVec) (in_range : list Z -> bool) : PartitionVec * PartitionVec :=
  (List.filter (fun e => in_range e.1) partitions, List.filter (fun e => negb (in_range e.1)) partitions).

(** * Merging is the join of views *)

Definition db_of (m : Partitions) : DbView := pview <$> m.
Definition db_wf (m : Partitions) : Prop := map_all (fun _ => p_wf) m.

Lemma pview_new_join v : pview_join (pview PartitionData_new) v = v.
Proof.
  destruct v as [m o]. unfold pview_join, pair_merge, pview. cbn [fst snd]. f_equal.
  apply map_eq. intros k. rewrite lookup_merge_loop, lookup_fmap. cbn [pd_rows PartitionData_new].
  rewrite lookup_empty. by destruct (m !! k).
Qed.

Lemma merge_entry_view m e :
  db_wf m -> p_wf e.2 ->
  db_wf (merge_source_entry m e)
  /\ db_of (merge_source_entry m e) = upsert (fun x => pview_join x (pview e.2)) (pview e.2) e.1 (db_of m).
Proof.
  intros Hm He. unfold merge_source_entry. set (entry := default PartitionData_new (m !! e.1)).
  assert (Hent : p_wf entry). { unfold entry. destruct (m !! e.1) eqn:E; [by eapply Hm|apply partition_new_wf]. }
  destruct (absorb_view' entry e.2 Hent He) as [Hw Hv]. split.
  - intros k p. rewrite lookup_insert. case_decide; [by intros [= <-]|apply Hm].
  - unfold db_of. rewrite fmap_insert, Hv. apply map_eq. intros k. rewrite lookup_insert, lookup_upsert, lookup_fmap.
    case_decide as Hk; [|done]. subst k. f_equal. unfold entry. destruct (m !! e.1); simpl; [done|apply pview_new_join].
Qed.

Lemma merge_source_view m s :
  db_wf m -> db_wf s -> db_wf (foldl merge_source_entry m (entries s))
  /\ db_of (foldl merge_source_entry m (entries s)) = db_join (db_of m) (db_of s).
Proof.
  intros Hm Hs.
  assert (H : forall l m, db_wf m -> (forall e, e ∈ l -> p_wf e.2) -> db_wf (foldl merge_source_entry m l)
    /\ db_of (foldl merge_source_entry m l)
       = foldl (fun acc e => upsert (fun x => pview_join x e.2) e.2 e.1 acc) (db_of m) (prod_map id pview <$> l)).
  { clear. induction l as [|e l IH]; intros m Hm Hl; [done|]. destruct (merge_entry_view m e Hm (Hl e ltac:(left))) as [H1 H2].
    rewrite fmap_cons. cbn [foldl]. destruct (IH _ H1) as [H3 H4]; [intros e' He'; apply Hl; by right|].
    split; [done|]. by rewrite H4, H2. }
  apply H; [done|]. intros [k p] Hin. by apply (Hs k), ordmap_elem.
Qed.

Lemma merge_tables_view ss :
  Forall db_wf ss -> db_wf (merge_tables (entries <$> ss)) /\ db_of (merge_tables (entries <$> ss)) = foldl db_join ∅ (db_of <$> ss).
Proof.
  unfold merge_tables. assert (Hempty : db_wf ∅) by (intros k p Hk; by rewrite lookup_empty in Hk).
  intros Hss. assert ((∅ : DbView) = db_of ∅) as -> by (symmetry; apply fmap_empty). revert Hempty. generalize (∅ : Partitions). induction Hss as [|s ss Hs _ IH]; intros m Hm; [done|].
  rewrite !fmap_cons. cbn [foldl]. destruct (merge_source_view m s Hm Hs) as [H1 H2]. rewrite <- H2. by apply IH.
Qed.

(** ** Nothing to purge *)

(** Everything a purge would leave alone: deletions within the grace period,
    cells that are not long expired, rows that have a cell or are deletions. *)
Section Fresh.
Context (gc_cutoff now_seconds : Z).

Definition ldt_fresh (o : option Z) : Prop := forall ldt, o = Some ldt -> gc_cutoff < ldt.
Record fresh_row (r : Row) : Prop := {
  fr_tomb : Row_is_tombstone r = true -> ldt_fresh (Row_local_deletion_time r);
  fr_cells : Forall (fun c => gc_cell gc_cutoff now_seconds c = true) (Row_cells r);
  fr_some : Row_cells r <> [] \/ Row_is_tombstone r = true;
}.
Record fresh_p (p : PartitionData) : Prop := {
  fp_rows : map_all (fun _ => fresh_row) (pd_rows p);
  fp_tomb : ldt_fresh (tombstone_local_deletion_time p);
  fp_some : pview p <> (∅, None);
}.

Lemma fresh_gc_row r : fresh_row r -> gc_row gc_cutoff now_seconds r = Some r.
Proof.
  intros [Ht Hc Hs]. unfold gc_row. rewrite (filter_all _ (Row_cells r) Hc).
  destruct r as [ck cells tomb ldt]; cbn [Row_is_tombstone Row_local_deletion_time Row_cells Row_clustering_key] in *.
  assert (tomb && match ldt with Some l => l <=? gc_cutoff | None => false end = false) as ->.
  { destruct tomb; [|done]. destruct ldt as [l|]; [|done]. specialize (Ht eq_refl l eq_refl). simpl. lia. }
  destruct cells; [|done]. destruct Hs as [Hs|Hs]; [done|]. by rewrite Hs.
Qed.
Lemma fresh_gc_partition p : fresh_p p -> gc_partition gc_cutoff now_seconds p = Some p.
Proof.
  intros [Hr Ht Hs]. unfold gc_partition. destruct p as [rows ts ldt]; cbn [pd_rows tombstone_timestamp tombstone_local_deletion_time] in *.
  assert (match ldt with Some l => l <=? gc_cutoff | None => false end = false) as ->.
  { destruct ldt as [l|]; [|done]. specialize (Ht l eq_refl). lia. }
  assert (omap (gc_row gc_cutoff now_seconds) rows = rows) as ->.
  { apply map_eq. intros k. rewrite lookup_omap. destruct (rows !! k) as [r|] eqn:E; [|done]. simpl. eapply fresh_gc_row, Hr, E. }
  destruct (entries rows) eqn:E; [|done]. destruct ts; [done|]. destruct Hs.
  unfold pview, pd_tomb. simpl. f_equal. assert (rows = ∅) as -> by by apply ordmap_eq. apply fmap_empty.
Qed.

Lemma fresh_merge_cells l k :
  Forall (fun c => gc_cell gc_cutoff now_seconds c = true) l -> Forall (fun c => gc_cell gc_cutoff now_seconds c = true) k ->
  Forall (fun c => gc_cell gc_cutoff now_seconds c = true) (foldl Row_merge_cell l k).
Proof.
  intros Hl Hk. revert l Hl. induction Hk as [|c k Hc _ IH]; intros l Hl; [done|]. apply IH. clear IH.
  induction Hl as [|d l Hd Hl IH]; [by repeat constructor|]. cbn [Row_merge_cell].
  destruct (String.eqb _ _); constructor; try done. unfold Cell_merge_with. by repeat case_match.
Qed.
Lemma merge_cells_nonempty l k : l <> [] \/ k <> [] -> foldl Row_merge_cell l k <> [].
Proof.
  revert l. induction k as [|c k IH]; intros l Hor; [naive_solver|]. apply IH. left.
  destruct l as [|d l]; [done|]. cbn [Row_merge_cell]. by destruct (String.eqb _ _).
Qed.
Lemma fresh_row_merge r s : fresh_row r -> fresh_row s -> fresh_row (Row_merge_with r s).
Proof.
  intros [Hr1 Hr2 Hr3] [Hs1 Hs2 Hs3]. split; simpl.
  - destruct (Row_is_tombstone r) eqn:Er, (Row_is_tombstone s) eqn:Es; simpl; intros; by auto.
  - by apply fresh_merge_cells.
  - destruct (Row_is_tombstone r) eqn:Er, (Row_is_tombstone s) eqn:Es; simpl; [by auto..|]. left. apply merge_cells_nonempty. naive_solver.
Qed.

(** Freshness up to the partition having something in it. *)
Definition fresh_rows (p : PartitionData) : Prop :=
  map_all (fun _ => fresh_row) (pd_rows p) /\ ldt_fresh (tombstone_local_deletion_time p).
Lemma fresh_apply_row p r : fresh_rows p -> fresh_row r -> fresh_rows (PartitionData_apply_row p r).
Proof.
  intros [Hp Ht] Hr. split; [|done]. intros ck r'. cbn [pd_rows PartitionData_apply_row]. rewrite lookup_upsert. case_decide as E; [|apply Hp].
  subst ck. destruct (pd_rows p !! _) as [x|] eqn:Ex; intros [= <-]; [|done]. apply fresh_row_merge; [by eapply Hp|done].
Qed.
Lemma fresh_absorb p q : fresh_rows p -> fresh_rows q -> fresh_rows (absorb_rows (absorb_tombstone p q) q).
Proof.
  intros Hp [Hq Htq]. assert (Hp' : fresh_rows (absorb_tombstone p q)).
  { unfold absorb_tombstone. destruct (tombstone_timestamp q) as [ts|]; [|done].
    destruct (tombstone_local_deletion_time q) as [l|]; [|done]. unfold PartitionData_set_tombstone.
    assert (Hset : fresh_rows (mkPartitionData (pd_rows p) (Some ts) (Some l))) by (split; [apply Hp|]; intros l' [= <-]; by apply Htq).
    destruct (tombstone_timestamp p) as [t|]; [|done]. by destruct (ts <=? t). }
  unfold absorb_rows. assert (Hv : Forall fresh_row (values (pd_rows q))).
  { apply Forall_forall. intros r [k Hk]%elem_of_values. by eapply Hq. }
  revert Hp'. generalize (absorb_tombstone p q). induction Hv as [|r l Hr _ IH]; intros p' Hp'; [done|].
  by apply IH, fresh_apply_row.
Qed.
End Fresh.

Lemma join_occupied v w : w <> (∅, None) -> pview_join v w <> (∅, None).
Proof.
  destruct v as [m o], w as [m' o']. unfold pview_join, pair_merge. cbn [fst snd]. intros Hw [= E1 E2].
  destruct Hw. f_equal; [|by destruct o, o'].
  apply map_eq. intros k. apply (f_equal (.!! k)) in E1. rewrite lookup_merge_loop, !lookup_empty in *.
  by destruct (m !! k), (m' !! k).
Qed.

Definition db_fresh (gc_cutoff now_seconds : Z) (m : Partitions) : Prop := map_all (fun _ => fresh_p gc_cutoff now_seconds) m.

Lemma merge_entry_fresh cutoff now m e :
  db_wf m -> p_wf e.2 -> db_fresh cutoff now m -> fresh_p cutoff now e.2 -> db_fresh cutoff now (merge_source_entry m e).
Proof.
  intros Hw Hwe Hm [Hr Ht Hs] k p. unfold merge_source_entry. rewrite lookup_insert. case_decide; [|apply Hm].
  set (entry := default PartitionData_new (m !! e.1)). intros [= <-].
  assert (Hent : p_wf entry /\ fresh_rows cutoff now entry).
  { unfold entry. destruct (m !! e.1) as [q|] eqn:E; simpl; [split; [by eapply Hw|split; by eapply Hm]|].
    split; [apply partition_new_wf|split; [|done]]. intros ck r Hk. cbn [pd_rows PartitionData_new] in Hk. by rewrite lookup_empty in Hk. }
  destruct Hent as [He Hf]. destruct (fresh_absorb cutoff now entry e.2 Hf) as [H1 H2]; [done|].
  split; [done..|]. rewrite (proj2 (absorb_view' entry e.2 He Hwe)). by apply join_occupied.
Qed.
Lemma merge_tables_fresh cutoff now ss :
  Forall db_wf ss -> Forall (db_fresh cutoff now) ss -> db_fresh cutoff now (merge_tables (entries <$> ss)).
Proof.
  unfold merge_tables. assert (Hempty : forall D, map_all D (∅ : Partitions)) by (intros D k p Hk; by rewrite lookup_empty in Hk).
  generalize (Hempty (fun _ => p_wf)) (Hempty (fun _ => fresh_p cutoff now)). clear Hempty. generalize (∅ : Partitions).
  induction ss as [|s ss IH]; intros m Hwm Hfm Hw Hf; [done|]. apply Forall_cons in Hw as [Hs Hw], Hf as [Hfs Hf].
  rewrite fmap_cons. cbn [foldl]. apply IH; try done; [by apply merge_source_view|].
  assert (Hl : forall e, e ∈ entries s -> p_wf e.2 /\ fresh_p cutoff now e.2).
  { intros [k p] Hin%ordmap_elem. split; [by eapply Hs|by eapply Hfs]. }
  clear Hs Hfs. revert m Hwm Hfm. induction (entries s) as [|e l IHl]; intros m Hwm Hfm; [done|].
  destruct (Hl e ltac:(left)) as [H1 H2]. cbn [foldl]. apply IHl; [intros e' He'; apply Hl; by right|by apply merge_entry_view|by apply merge_entry_fresh].
Qed.

Lemma merge_partitions_fresh ss grace now :
  Forall db_wf ss -> Forall (db_fresh (wrap_s 32 (now - grace)) now) ss ->
  merge_partitions (entries <$> ss) grace now = entries (merge_tables (entries <$> ss)).
Proof.
  intros Hw Hf. unfold merge_partitions. f_equal. apply map_eq. intros k. rewrite lookup_omap.
  destruct (_ !! k) as [p|] eqn:E; [|done]. simpl. eapply fresh_gc_partition, (merge_tables_fresh _ _ _ Hw Hf), E.
Qed.

(** C15.  Compaction of well-formed tables with nothing to purge
    loses nothing and invents nothing: its output is one sorted table, without
    duplicate partitions, whose view is the join of the views of the inputs.
    Nothing to purge means that every deletion, of a partition, row or cell, is
    within the grace period, that no cell expired before it, that every row has a
    cell or is deleted, and that no partition is empty ([db_fresh]). *)
Theorem compaction_transparent (ss : list Partitions) (gc_grace_seconds now_seconds : Z) :
  Forall db_wf ss ->
  Forall (db_fresh (wrap_s 32 (now_seconds - gc_grace_seconds)) now_seconds) ss ->
  exists out : Partitions,
    merge_partitions (entries <$> ss) gc_grace_seconds now_seconds = entries out
    /\ db_wf out /\ db_of out = foldl db_join ∅ (db_of <$> ss).
Proof.
  intros Hw Hf. exists (merge_tables (entries <$> ss)). split; [by apply merge_partitions_fresh|by apply merge_tables_view].
Qed.

(** ** Purging and live data *)

(** What a reader sees of a partition: the live cells of the live rows. *)
Definition live_cells (now_seconds : Z) (row : Row) : list Cell := List.filter (fun c => Cell_is_live_at c now_seconds) (Row_cells row).
Definition live_data (now_seconds : Z) (p : PartitionData) : list (list Z * list Cell) :=
  List.filter (fun e => match e.2 with [] => false | _ => true end)
    ((fun row => (Row_clustering_key row, live_cells now_seconds row)) <$> PartitionData_live_rows p now_seconds).

Lemma gc_cell_live cutoff now c : cutoff <= now -> Cell_is_live_at c now = true -> gc_cell cutoff now c = true.
Proof.
  intros Hle. unfold Cell_is_live_at, gc_cell. destruct (Cell_is_tombstone c); [done|].
  destruct (0 <? Cell_ttl c), (Cell_local_deletion_time c); simpl; intros; z_tests; done || lia.
Qed.
Lemma gc_cells_live cutoff now l :
  cutoff <= now ->
  List.filter (fun c => Cell_is_live_at c now) (List.filter (gc_cell cutoff now) l) = List.filter (fun c => Cell_is_live_at c now) l.
Proof.
  intros Hle. induction l as [|c l IH]; simpl; [done|].
  destruct (Cell_is_live_at c now) eqn:E; [rewrite (gc_cell_live cutoff now c) by done|destruct (gc_cell _ _ _)]; simpl; rewrite ?E, IH; done.
Qed.
Lemma values_omap {A B} (f : A -> option B) (m : ordmap (list Z) A) : values (omap f m) = omap f (values m).
Proof.
  unfold values. change (entries (omap f m)) with (omap (omap_entry f) (entries m)).
  induction (entries m) as [|[k v] l IH]; [done|]. simpl. unfold omap_entry at 1. simpl.
  destruct (f v); simpl; [f_equal|]; exact IH.
Qed.

Definition seen (now_seconds : Z) (rows : list Row) : list (list Z * list Cell) :=
  List.filter (fun e => match e.2 with [] => false | _ => true end)
    ((fun row => (Row_clustering_key row, live_cells now_seconds row)) <$> List.filter (fun r => negb (Row_is_tombstone r)) rows).
Lemma seen_cons now r l : seen now (r :: l) = seen now [r] ++ seen now l.
Proof. unfold seen. simpl. destruct (Row_is_tombstone r); [done|]. simpl. by destruct (live_cells now r). Qed.
Lemma seen_gc_row cutoff now r : cutoff <= now -> seen now (option_list (gc_row cutoff now r)) = seen now [r].
Proof.
  intros Hle. unfold gc_row. destruct (Row_is_tombstone r) eqn:Et.
  - unfold seen. simpl. rewrite Et. by repeat case_match; simplify_option_eq.
  - assert (Hl : live_cells now r = List.filter (fun c => Cell_is_live_at c now) (List.filter (gc_cell cutoff now) (Row_cells r)))
      by (symmetry; by apply gc_cells_live).
    unfold seen. simpl. rewrite Et. simpl. rewrite Hl. by destruct (List.filter (gc_cell cutoff now) (Row_cells r)).
Qed.
Lemma seen_gc_rows cutoff now l : cutoff <= now -> seen now (omap (gc_row cutoff now) l) = seen now l.
Proof.
  intros Hle. induction l as [|r l IH]; [done|]. rewrite (seen_cons now r l), <- (seen_gc_row cutoff now r Hle), <- IH.
  simpl. destruct (gc_row cutoff now r) as [r'|]; [apply seen_cons|done].
Qed.
Lemma live_data_seen now p :
  tombstone_timestamp p = None -> live_data now p = seen now (values (pd_rows p)).
Proof.
  intros E. unfold live_data, seen, PartitionData_live_rows. do 2 f_equal. apply List.filter_ext. intros r.
  unfold PartitionData_row_is_live. rewrite E. by destruct (Row_is_tombstone r).
Qed.

(** Purging a partition that has no partition deletion never changes what a
    reader sees; when the partition deletion itself is past the grace period it
    is forgotten and the rows it covered are kept, so the reader sees the
    partition as though it had never been deleted. *)
Theorem purge_live_data (p : PartitionData) (gc_grace_seconds now_seconds : Z) :
  let gc_cutoff := wrap_s 32 (now_seconds - gc_grace_seconds) in
  in_s 32 now_seconds -> 0 <= gc_grace_seconds -> in_s 32 (now_seconds - gc_grace_seconds) ->
  p_wf p -> (forall ldt, tombstone_local_deletion_time p = Some ldt -> ldt <= gc_cutoff) ->
  default [] (live_data now_seconds <$> gc_partition gc_cutoff now_seconds p)
  = live_data now_seconds (mkPartitionData (pd_rows p) None None).
Proof.
  intros cutoff Hnow Hg Hin Hw Ht. rewrite live_data_seen by done. cbn [pd_rows].
  assert (Hle : cutoff <= now_seconds) by (unfold cutoff; rewrite wrap_s_id by done; lia).
  rewrite <- (seen_gc_rows cutoff now_seconds _ Hle), <- values_omap. unfold gc_partition. fold cutoff.
  assert (Hts : (if match tombstone_local_deletion_time p with Some ldt => ldt <=? cutoff | None => false end
                 then None else tombstone_timestamp p) = None).
  { destruct (tombstone_local_deletion_time p) as [ldt|] eqn:El.
    - specialize (Ht ldt eq_refl). by destruct (Z.leb_spec ldt cutoff); [|lia].
    - destruct (tombstone_timestamp p) eqn:E; [|done]. destruct (pw_tomb p Hw) as [Hs _]. rewrite E, El in Hs. by destruct Hs. }
  rewrite Hts. unfold values. destruct (entries (omap _ _)) as [|e l] eqn:Ee; simpl; [done|].
  rewrite live_data_seen by done. unfold values. cbn [pd_rows]. by rewrite Ee.
Qed.

(** ** Cutting the output *)

Definition batch_size (b : PartitionVec) : Z := foldl (fun n e => n + estimate_compaction_output_size e.1 e.2) 0 b.
Lemma batch_size_snoc b e : batch_size (b ++ [e]) = batch_size b + estimate_compaction_output_size e.1 e.2.
Proof. unfold batch_size. by rewrite foldl_app. Qed.

(** A batch is within the limit or a single partition, and the next batch
    starts with a partition that did not fit. *)
Inductive batches (max_size : Z) : list PartitionVec -> Prop :=
  | batches_nil : batches max_size []
  | batches_last b : b <> [] -> batch_size b <= max_size \/ length b = 1%nat -> batches max_size [b]
  | batches_cons b e b' bs :
      b <> [] -> batch_size b <= max_size \/ length b = 1%nat ->
      max_size < batch_size b + estimate_compaction_output_size e.1 e.2 ->
      batches max_size ((e :: b') :: bs) -> batches max_size (b :: (e :: b') :: bs).

Lemma split_batches_head max_size l b n :
  b <> [] -> exists b' bs, split_batches max_size l b n = (b ++ b') :: bs.
Proof.
  revert b n. induction l as [|[k d] l IH]; intros b n Hb; simpl.
  - exists [], []. destruct b; [done|]. by rewrite app_nil_r.
  - destruct b as [|e b]; [done|]. case_match; [exists []; rewrite app_nil_r; by eexists|].
    destruct (IH ((e :: b) ++ [(k, d)]) (n + estimate_compaction_output_size k d)) as (b' & bs & ->); [done|].
    exists ((k, d) :: b'), bs. by rewrite <- app_assoc.
Qed.
Lemma split_batches_ok max_size l b :
  0 < max_size -> b = [] \/ batch_size b <= max_size \/ length b = 1%nat ->
  mjoin (split_batches max_size l b (batch_size b)) = b ++ l /\ batches max_size (split_batches max_size l b (batch_size b)).
Proof.
  intros Hmax. revert b. induction l as [|[k d] l IH]; intros b Hb.
  - destruct b as [|e b]; [split; [done|constructor]|]. split; [done|]. apply batches_last; [done|naive_solver].
  - pose proof (batch_size_snoc b (k, d)) as Hsz. cbn [fst snd] in Hsz. cbn [split_batches]. rewrite <- Hsz. case_match eqn:E.
    + assert (Hone : estimate_compaction_output_size k d = batch_size [(k, d)]) by done. rewrite Hone.
      destruct (IH [(k, d)]) as [H1 H2]; [by right; right|].
      destruct (split_batches_head max_size l [(k, d)] (batch_size [(k, d)])) as (b' & bs & Hs); [done|]. rewrite Hs in *.
      destruct b as [|e b]; [done|]. split; [by apply (f_equal (app (e :: b))) in H1|].
      apply batches_cons; [done|naive_solver| |done]. cbn [fst snd]. lia.
    + destruct (IH (b ++ [(k, d)])) as [H1 H2]; [|by rewrite H1, <- app_assoc].
      right. destruct b; [by right|left; lia].
Qed.

Lemma split_output_join l o : mjoin (split_compaction_output l o) = l.
Proof.
  assert (Hone : mjoin (match l with [] => [] | _ => [l] end) = l) by (destruct l; [done|apply app_nil_r]).
  destruct o as [max_size|]; [|exact Hone]. unfold split_compaction_output. destruct (Z.ltb_spec 0 max_size); [|exact Hone].
  by apply (split_batches_ok max_size l []); [|left].
Qed.

(** C29. A size limit cuts the output of a compaction into batches that hold the
    partitions in order, none twice and none lost.  No batch is empty, a batch
    over the limit is a single partition, and a new batch begins only when the
    next partition would not have fitted. *)
Theorem compaction_output_bounded (partitions : PartitionVec) (max_size : Z) :
  0 < max_size ->
  mjoin (split_compaction_output partitions (Some max_size)) = partitions
  /\ batches max_size (split_compaction_output partitions (Some max_size)).
Proof.
  intros Hmax. unfold split_compaction_output. destruct (Z.ltb_spec 0 max_size); [|lia].
  by apply (split_batches_ok max_size partitions []); [|left].
Qed.

(** ** Samples *)

Module CompactionSample.
Definition cell (value timestamp : Z) : Cell := mkCell "v" (Some [value]) timestamp 0 None false.
Definition row (ck value timestamp : Z) : Row := mkRow [ck] [cell value timestamp] false None.
Definition table (pk ck value timestamp : Z) : Partitions := {[[pk] := PartitionData_apply_row PartitionData_new (row ck value timestamp)]}.
Definition deleted : PartitionData :=
  PartitionData_set_tombstone (PartitionData_apply_row PartitionData_new (row 1 7 10)) 20 100.

Lemma row_wf_sample ck value timestamp : row_wf (row ck value timestamp).
Proof. apply NoDup_singleton. Qed.
Lemma table_wf pk ck value timestamp : db_wf (table pk ck value timestamp).
Proof.
  intros k p Hk. unfold table in Hk. apply lookup_singleton_Some in Hk as [_ <-]. apply apply_row_view; [apply partition_new_wf|apply row_wf_sample].
Qed.
Lemma table_fresh cutoff now pk ck value timestamp : db_fresh cutoff now (table pk ck value timestamp).
Proof.
  intros k p Hk. unfold table in Hk. apply lookup_singleton_Some in Hk as [_ <-]. split; [|done|].
  - intros ck' r Hr. cbn [pd_rows PartitionData_apply_row PartitionData_new] in Hr.
    rewrite lookup_upsert, !lookup_empty in Hr. case_decide; [|done]. apply (inj Some) in Hr as <-. split; [done|by repeat constructor|by left].
  - intros [=].
Qed.
Lemma deleted_wf : p_wf deleted.
Proof. apply set_tombstone_view, apply_row_view; [apply partition_new_wf|apply row_wf_sample]. Qed.
End CompactionSample.

(** Two versions of a cell in two tables, and a third partition: one table. *)
Lemma compaction_transparent_witness :
  let ss := [CompactionSample.table 1 1 7 10; CompactionSample.table 1 1 8 20; CompactionSample.table 2 1 9 5] in
  exists out, merge_partitions (entries <$> ss) 100 1000 = entries out /\ size out = 2%nat
    /\ db_of out = foldl db_join ∅ (db_of <$> ss).
Proof.
  intros ss. destruct (compaction_transparent ss 100 1000) as (out & H1 & _ & H2).
  - repeat apply List.Forall_cons; [apply CompactionSample.table_wf..|apply List.Forall_nil].
  - repeat apply List.Forall_cons; [apply CompactionSample.table_fresh..|apply List.Forall_nil].
  - exists out. split; [done|]. split; [|done]. rewrite size_entries, <- H1. vm_compute. reflexivity.
Defined.

(** The partition was deleted after its only write; a compaction past the grace
    period brings the write back. *)
Lemma purge_live_data_witness :
  live_data 1000 CompactionSample.deleted = []
  /\ default [] (live_data 1000 <$> gc_partition (wrap_s 32 (1000 - 100)) 1000 CompactionSample.deleted)
     = [([1], [CompactionSample.cell 7 10])].
Proof.
  split; [vm_compute; reflexivity|]. rewrite (purge_live_data CompactionSample.deleted 100 1000).
  - vm_compute. reflexivity.
  - unfold in_s. lia.
  - lia.
  - unfold in_s. lia.
  - apply CompactionSample.deleted_wf.
  - intros ldt H. apply (inj Some) in H as <-. vm_compute. discriminate.
Defined.

Lemma compaction_output_bounded_witness :
  let ps := mjoin [entries (CompactionSample.table 1 1 7 10); entries (CompactionSample.table 2 1 7 10); entries (CompactionSample.table 3 1 7 10)] in
  let bs := split_compaction_output ps (Some 80) in
  length <$> bs = [2%nat; 1%nat] /\ mjoin bs = ps /\ batches 80 bs.
Proof.
  intros ps bs. split; [vm_compute; reflexivity|]. apply (compaction_output_bounded ps 80). lia.
Defined.
