(* ===== verification/Strategy.v ===== *)
(** * Choosing what to compact

    crates/cassandra-storage/src/compaction: the trait CompactionStrategy of
    mod.rs with its size-tiered implementation, the leveled strategy of lcs.rs
    and the time-window strategy of twcs.rs.  Ratios of sizes and level scores
    are floating-point numbers in the source: the test of a size against a
    bucket, the score and the comparison of scores are parameters.  The laws of
    the interface, that no table is chosen twice and every table chosen exists,
    are what the engine needs of a strategy. *)
From S2P Require Export Compaction.

Record CompactionMetadata := mkCompactionMetadata {
  cmd_id : Z;
  cmd_data_size : Z;
  cmd_partition_count : Z;
  cmd_min_timestamp : Z;
  cmd_max_timestamp : Z;
}.
Definition is_fully_expired (sst : CompactionMetadata) (gc_grace_seconds now_seconds : Z) : bool :=
  let gc_grace_micros := wrap_s 64 (gc_grace_seconds * 1000000) in
  wrap_s 64 (cmd_max_timestamp sst + gc_grace_micros) <? wrap_s 64 (now_seconds * 1000000).
Definition find_fully_expired (sstables : list CompactionMetadata) (gc_grace_seconds now_seconds : Z) : list Z :=
  cmd_id <$> List.filter (fun sst => is_fully_expired sst gc_grace_seconds now_seconds) sstables.

(** * The interface *)

Class CompactionStrategy (S : Type) := pick_compaction : S -> list CompactionMetadata -> list (list Z).
Definition picks_from (sstables : list CompactionMetadata) (groups : list (list Z)) : Prop :=
  mjoin groups ⊆+ cmd_id <$> sstables /\ Forall (fun g => g <> []) groups.
(** The strategies of which the law holds with their settings, such as
    thresholds that are not zero. *)
Class StrategyLaws (S : Type) `{CompactionStrategy S} (ok : S -> Prop) :=
  strategy_picks self sstables : ok self -> picks_from sstables (pick_compaction self sstables).

(** * Size-tiered (mod.rs) *)

Record SizeTieredCompactionStrategy := mkSizeTiered {
  stcs_min_threshold : nat;
  stcs_max_threshold : nat;
  (** [ratio >= bucket_low && ratio <= bucket_high] of a size to the average of
      those in the bucket. *)
  stcs_in_bucket : list Z -> Z -> bool;
}.

(** The first bucket whose average size the table is near to, or a new one. *)
Fixpoint place (in_bucket : list Z -> Z -> bool) (sst : CompactionMetadata) (buckets : list (list CompactionMetadata)) :
    list (list CompactionMetadata) :=
  match buckets with
  | [] => [[sst]]
  | bucket :: buckets =>
      if in_bucket (cmd_data_size <$> bucket) (cmd_data_size sst) then (bucket ++ [sst]) :: buckets
      else bucket :: place in_bucket sst buckets
  end.
Definition SizeTiered_pick_compaction (self : SizeTieredCompactionStrategy) (sstables : list CompactionMetadata) : list (list Z) :=
  if (length sstables <? stcs_min_threshold self)%nat then []
  else
    let sorted := sort_by (fun a b => cmp (cmd_data_size a) (cmd_data_size b)) sstables in
    let buckets := foldl (fun buckets sst => place (stcs_in_bucket self) sst buckets) [] sorted in
    (fun b => cmd_id <$> take (stcs_max_threshold self) b) <$> List.filter (fun b => (stcs_min_threshold self <=? length b)%nat) buckets.
#[export] Instance SizeTiered_strategy : CompactionStrategy SizeTieredCompactionStrategy := SizeTiered_pick_compaction.

(** * Grouping *)

(** [for x in l { groups.entry(f(x)).or_default().push(x) }]. *)
Definition group_by {A} (f : A -> Z) (l : list A) : ordmap Z (list A) :=
  foldl (fun groups x => upsert (fun g => g ++ [x]) [x] (f x) groups) ∅ l.

(** * Leveled (lcs.rs) *)

Record LeveledCompactionStrategy (Score : Type) := mkLeveled {
  sstable_size_in_mb : Z;
  fanout_size : Z;
  l0_threshold : nat;
  lcs_max_threshold : nat;
  (** [actual_bytes as f64 / max as f64], zero, one, and the order. *)
  score_ratio : Z -> Z -> Score;
  score_zero : Score;
  score_one : Score;
  score_gt : Score -> Score -> bool;
}.
Arguments sstable_size_in_mb {_}.
Arguments fanout_size {_}.
Arguments l0_threshold {_}.
Arguments lcs_max_threshold {_}.
Arguments score_ratio {_}.
Arguments score_zero {_}.
Arguments score_one {_}.
Arguments score_gt {_}.

Record LeveledSSTable := mkLeveledSSTable {
  ls_metadata : CompactionMetadata;
  ls_level : Z;
  min_key_hash : Z;
  max_key_hash : Z;
}.
Definition ls_id (s : LeveledSSTable) : Z := cmd_id (ls_metadata s).

Definition min_hash (l : list LeveledSSTable) : Z :=
  match min_key_hash <$> l with [] => 0 | x :: xs => foldl Z.min x xs end.
Definition max_hash (l : list LeveledSSTable) : Z :=
  match max_key_hash <$> l with [] => u64_MAX | x :: xs => foldl Z.max x xs end.
Definition overlaps_hash (lo hi : Z) (s : LeveledSSTable) : bool := (lo <=? max_key_hash s) && (min_key_hash s <=? hi).
(** [min_by_key]: the first of the least. *)
Definition oldest_of (l : list LeveledSSTable) : option LeveledSSTable :=
  match l with [] => None | x :: xs => Some (foldl (fun m s => if ls_id s <? ls_id m then s else m) x xs) end.

Section Leveled.
Context {Score : Type} (self : LeveledCompactionStrategy Score).

Definition max_bytes_for_level (level : Z) : Z :=
  let target := wrap_u 64 (wrap_u 64 (sstable_size_in_mb self * 1024) * 1024) in
  if level =? 0 then wrap_u 64 (target * Z.of_nat (l0_threshold self))
  else wrap_u 64 (target * wrap_u 64 (fanout_size self ^ level)).
Definition level_score (level actual_bytes : Z) : Score :=
  let max := max_bytes_for_level level in
  if max =? 0 then score_zero self else score_ratio self actual_bytes max.

Definition best_level_step (best : option Z * Score) (e : Z * list LeveledSSTable) : option Z * Score :=
  if e.1 =? 0 then best
  else
    let total := foldl (fun n s => wrap_u 64 (n + cmd_data_size (ls_metadata s))) 0 e.2 in
    let score := level_score e.1 total in
    if score_gt self score best.2 then (Some e.1, score) else best.
Definition best_level (levels : ordmap Z (list LeveledSSTable)) : option Z :=
  (foldl best_level_step (None, score_one self) (entries levels)).1.

Definition pick_l0 (levels : ordmap Z (list LeveledSSTable)) : option (list Z) :=
  l0 ← levels !! 0;
  if (l0_threshold self <=? length l0)%nat
  then Some ((ls_id <$> take (lcs_max_threshold self) l0)
             ++ match levels !! 1 with
                | Some l1 => ls_id <$> List.filter (overlaps_hash (min_hash l0) (max_hash l0)) l1
                | None => []
                end)
  else None.
Definition pick_level (levels : ordmap Z (list LeveledSSTable)) : option (list Z) :=
  level ← best_level levels;
  ssts ← levels !! level;
  oldest ← oldest_of ssts;
  Some (ls_id oldest
        :: match levels !! (level + 1) with
           | Some next_ssts => ls_id <$> List.filter (overlaps_hash (min_key_hash oldest) (max_key_hash oldest)) next_ssts
           | None => []
           end).
Definition pick_leveled_compaction (sstables : list LeveledSSTable) : list (list Z) :=
  let levels := group_by ls_level sstables in
  match pick_l0 levels with
  | Some group => [group]
  | None => match pick_level levels with Some group => [group] | None => [] end
  end.
End Leveled.

Definition Leveled_pick_compaction {Score} (self : LeveledCompactionStrategy Score) (sstables : list CompactionMetadata) : list (list Z) :=
  if (length sstables <? l0_threshold self)%nat then [] else [cmd_id <$> take (lcs_max_threshold self) sstables].
#[export] Instance Leveled_strategy {Score} : CompactionStrategy (LeveledCompactionStrategy Score) := Leveled_pick_compaction.

(** * Time windows (twcs.rs) *)

Inductive TimeUnit := Minutes | Hours | Days.
Definition TimeUnit_as_micros (self : TimeUnit) : Z :=
  match self with Minutes => 60 * 1000000 | Hours => 3600 * 1000000 | Days => 86400 * 1000000 end.

Record TimeWindowCompactionStrategy := mkTimeWindow {
  tw_time_unit : TimeUnit;
  tw_window_size : Z;
  tw_stcs : SizeTieredCompactionStrategy;
  (** The clock, in microseconds. *)
  tw_now : Z;
}.
Definition window_for (self : TimeWindowCompactionStrategy) (timestamp_micros : Z) : Z :=
  let window_micros := wrap_s 64 (TimeUnit_as_micros (tw_time_unit self) * tw_window_size self) in
  if window_micros =? 0 then 0 else wrap_s 64 (Z.quot timestamp_micros window_micros).
Definition current_window (self : TimeWindowCompactionStrategy) : Z := window_for self (tw_now self).
Definition group_by_window (self : TimeWindowCompactionStrategy) (sstables : list CompactionMetadata) : ordmap Z (list CompactionMetadata) :=
  group_by (fun sst => window_for self (cmd_max_timestamp sst)) sstables.
Definition pick_window (self : TimeWindowCompactionStrategy) (e : Z * list CompactionMetadata) : list (list Z) :=
  if (e.1 =? current_window self) && (length e.2 <? stcs_min_threshold (tw_stcs self) * 2)%nat then []
  else pick_compaction (tw_stcs self) e.2.
Definition TimeWindow_pick_compaction (self : TimeWindowCompactionStrategy) (sstables : list CompactionMetadata) : list (list Z) :=
  mjoin (pick_window self <$> entries (group_by_window self sstables)).
#[export] Instance TimeWindow_strategy : CompactionStrategy TimeWindowCompactionStrategy := TimeWindow_pick_compaction.

(** * Groups *)

Lemma group_by_snoc {A} (f : A -> Z) l x : group_by f (l ++ [x]) = upsert (fun g => g ++ [x]) [x] (f x) (group_by f l).
Proof. unfold group_by. by rewrite foldl_app. Qed.
Lemma group_by_lookup {A} (f : A -> Z) l k : default [] (group_by f l !! k) = List.filter (fun x => f x =? k) l.
Proof.
  induction l as [|x l IH] using rev_ind; [done|]. rewrite group_by_snoc, List.filter_app, <- IH, lookup_upsert. simpl.
  destruct (Z.eqb_spec (f x) k) as [<-|Hne]; [rewrite decide_True by done|rewrite decide_False, app_nil_r by done; done].
  by destruct (group_by f l !! f x).
Qed.
Lemma upsert_push_perm {A} k (x : A) (m : ordmap Z (list A)) :
  mjoin (values (upsert (fun g => g ++ [x]) [x] k m)) ≡ₚ x :: mjoin (values m).
Proof.
  assert (He : upsert (fun g => g ++ [x]) [x] k m = <[k := default [] (m !! k) ++ [x]]> (delete k m)).
  { apply map_eq. intros j. rewrite lookup_upsert, lookup_insert. case_decide as Hj; [subst j; by destruct (m !! k)|].
    by rewrite lookup_delete_ne. }
  rewrite He. unfold values. rewrite entries_insert by apply lookup_delete_eq. simpl.
  assert (Hm : mjoin (entries m).*2 ≡ₚ default [] (m !! k) ++ mjoin (entries (delete k m)).*2).
  { destruct (m !! k) as [g|] eqn:E; [|by rewrite delete_id].
    change (default [] (Some g) ++ mjoin (entries (delete k m)).*2) with (mjoin ((k, g) :: entries (delete k m)).*2).
    by rewrite (entries_delete m k g E) at 1. }
  rewrite Hm, <- app_assoc. simpl. symmetry. apply Permutation_middle.
Qed.
Lemma group_by_perm {A} (f : A -> Z) l : mjoin (values (group_by f l)) ≡ₚ l.
Proof.
  induction l as [|x l IH] using rev_ind; [done|]. rewrite group_by_snoc, upsert_push_perm, IH. apply Permutation_cons_append.
Qed.

(** * Size-tiered and time-window picks *)

Lemma place_perm in_bucket sst buckets : mjoin (place in_bucket sst buckets) ≡ₚ sst :: mjoin buckets.
Proof.
  induction buckets as [|b bs IH]; simpl; [done|]. case_match; simpl.
  - rewrite <- app_assoc. simpl. symmetry. apply Permutation_middle.
  - rewrite IH. symmetry. apply Permutation_middle.
Qed.
Lemma places_perm in_bucket l buckets : mjoin (foldl (fun bs sst => place in_bucket sst bs) buckets l) ≡ₚ l ++ mjoin buckets.
Proof.
  revert buckets. induction l as [|sst l IH]; intros buckets; simpl; [done|]. rewrite IH, place_perm. symmetry. apply Permutation_middle.
Qed.
Lemma join_take_filter {A} n (P : list A -> bool) (bs : list (list A)) : mjoin (take n <$> List.filter P bs) ⊆+ mjoin bs.
Proof.
  induction bs as [|b bs IH]; simpl; [done|]. destruct (P b); simpl.
  - apply submseteq_app; [|done]. apply sublist_submseteq, sublist_take.
  - by apply submseteq_inserts_l.
Qed.

#[export] Instance SizeTiered_laws :
  StrategyLaws SizeTieredCompactionStrategy (fun s => (0 < stcs_min_threshold s)%nat /\ (0 < stcs_max_threshold s)%nat).
Proof.
  intros self sstables [Hmin Hmax]. unfold pick_compaction, SizeTiered_strategy, SizeTiered_pick_compaction.
  case_match; [split; [apply submseteq_nil_l|constructor]|]. split.
  - set (bs := foldl _ _ _).
    assert (Hj : forall l : list (list CompactionMetadata), mjoin ((fun b => cmd_id <$> take (stcs_max_threshold self) b) <$> l)
      = cmd_id <$> mjoin (take (stcs_max_threshold self) <$> l)).
    { induction l as [|b l IH]; simpl; [done|]. rewrite fmap_app. f_equal. exact IH. }
    rewrite Hj. apply fmap_submseteq. etrans; [apply join_take_filter|]. unfold bs. rewrite places_perm, app_nil_r, sort_by_perm. done.
  - apply Forall_fmap, Forall_forall. intros b [_ Hb]%elem_of_filter_bool. bool_to_prop. simpl.
    destruct b; simpl in *; [lia|]. by destruct (stcs_max_threshold self); [lia|].
Qed.
#[export] Instance Leveled_laws {Score} :
  StrategyLaws (LeveledCompactionStrategy Score) (fun s => (0 < l0_threshold s)%nat /\ (0 < lcs_max_threshold s)%nat).
Proof.
  intros self sstables [Hmin Hmax]. unfold pick_compaction, Leveled_strategy, Leveled_pick_compaction.
  case_match; [split; [apply submseteq_nil_l|constructor]|]. bool_to_prop. split.
  - simpl. rewrite app_nil_r. apply fmap_submseteq, sublist_submseteq, sublist_take.
  - repeat constructor. destruct sstables; simpl in *; [lia|]. by destruct (lcs_max_threshold self); [lia|].
Qed.
#[export] Instance TimeWindow_laws :
  StrategyLaws TimeWindowCompactionStrategy
    (fun s => (0 < stcs_min_threshold (tw_stcs s))%nat /\ (0 < stcs_max_threshold (tw_stcs s))%nat).
Proof.
  intros self sstables Hok. unfold pick_compaction, TimeWindow_strategy, TimeWindow_pick_compaction.
  assert (Hone : forall e, picks_from e.2 (pick_window self e)).
  { intros e. unfold pick_window. case_match; [split; [apply submseteq_nil_l|constructor]|]. by apply strategy_picks. }
  assert (Hall : forall l, picks_from (mjoin l.*2) (mjoin (pick_window self <$> l))).
  { induction l as [|e l [IH1 IH2]]; [by split|]. destruct (Hone e) as [H1 H2]. split; [|by apply Forall_app].
    change (mjoin (mjoin (pick_window self <$> e :: l))) with (mjoin (pick_window self e ++ mjoin (pick_window self <$> l))).
    rewrite join_app. change (mjoin (e :: l).*2) with (e.2 ++ mjoin l.*2). rewrite fmap_app. by apply submseteq_app. }
  destruct (Hall (entries (group_by_window self sstables))) as [H1 H2]. split; [|done].
  rewrite H1. apply fmap_submseteq, Permutation_submseteq, (group_by_perm _ sstables).
Qed.

(** * Leveled picks *)

Lemma min_hash_le l s : s ∈ l -> min_hash l <= min_key_hash s.
Proof.
  unfold min_hash. intros Hs. assert (Hin : min_key_hash s ∈ min_key_hash <$> l) by by apply list_elem_of_fmap_2.
  destruct (min_key_hash <$> l) as [|x xs]; [by apply not_elem_of_nil in Hin|]. clear Hs.
  assert (H : forall xs x, foldl Z.min x xs <= x /\ forall y, y ∈ xs -> foldl Z.min x xs <= y).
  { clear. induction xs as [|z xs IH]; intros x; simpl; [split; [lia|by intros y ?%not_elem_of_nil]|].
    destruct (IH (Z.min x z)) as [H1 H2]. split; [lia|]. intros y [->|Hy]%elem_of_cons; [lia|by apply H2]. }
  destruct (H xs x) as [H1 H2]. apply elem_of_cons in Hin as [->|Hin]; [done|by apply H2].
Qed.
Lemma max_hash_ge l s : s ∈ l -> max_key_hash s <= max_hash l.
Proof.
  unfold max_hash. intros Hs. assert (Hin : max_key_hash s ∈ max_key_hash <$> l) by by apply list_elem_of_fmap_2.
  destruct (max_key_hash <$> l) as [|x xs]; [by apply not_elem_of_nil in Hin|]. clear Hs.
  assert (H : forall xs x, x <= foldl Z.max x xs /\ forall y, y ∈ xs -> y <= foldl Z.max x xs).
  { clear. induction xs as [|z xs IH]; intros x; simpl; [split; [lia|by intros y ?%not_elem_of_nil]|].
    destruct (IH (Z.max x z)) as [H1 H2]. split; [lia|]. intros y [->|Hy]%elem_of_cons; [lia|by apply H2]. }
  destruct (H xs x) as [H1 H2]. apply elem_of_cons in Hin as [->|Hin]; [done|by apply H2].
Qed.
Lemma oldest_elem l s : oldest_of l = Some s -> s ∈ l.
Proof.
  destruct l as [|x xs]; [done|]. intros [= <-]. revert x. induction xs as [|y xs IH]; intros x; simpl; [by left|].
  case_match; [right; apply IH|]. specialize (IH x). apply elem_of_cons in IH as [->|]; [left|by right; right].
Qed.
Lemma group_elem l k g s : group_by ls_level l !! k = Some g -> s ∈ g <-> s ∈ l /\ ls_level s = k.
Proof.
  intros E. pose proof (group_by_lookup ls_level l k) as H. rewrite E in H. simpl in H. subst g.
  rewrite elem_of_filter_bool. by rewrite Z.eqb_eq.
Qed.
(** The tables of one level that are moved, and those of the next they meet. *)
Record leveled_pick (sstables : list LeveledSSTable) (level : Z) (src next : list LeveledSSTable) : Prop := {
  lp_some : src <> [];
  lp_src s : s ∈ src -> ls_level s = level;
  lp_next s : s ∈ next -> ls_level s = level + 1;
  lp_once : src ++ next ⊆+ sstables;
  lp_closed s t : s ∈ src -> t ∈ sstables -> ls_level t = level + 1 ->
    min_key_hash s <= max_key_hash t -> min_key_hash t <= max_key_hash s -> t ∈ next;
}.

Lemma leveled_pick_intro sstables level g src lo hi :
  group_by ls_level sstables !! level = Some g -> src ≠ [] -> src ⊆+ g ->
  (forall s, s ∈ src -> lo <= min_key_hash s /\ max_key_hash s <= hi) ->
  leveled_pick sstables level src
    (default [] (List.filter (overlaps_hash lo hi) <$> group_by ls_level sstables !! (level + 1))).
Proof.
  intros Hg Hne Hsrc Hb. set (next := default [] _).
  assert (Hnext : next = List.filter (overlaps_hash lo hi) (List.filter (fun s => ls_level s =? level + 1) sstables)).
  { unfold next. rewrite <- group_by_lookup. by destruct (group_by ls_level sstables !! (level + 1)). }
  pose proof (group_by_lookup ls_level sstables level) as Hgl. rewrite Hg in Hgl. simpl in Hgl.
  split; [done| | | |].
  - intros s Hs. eapply group_elem; [exact Hg|]. by eapply elem_of_submseteq.
  - intros s. rewrite Hnext, !elem_of_filter_bool. intros [[_ Hs] _]. lia.
  - etrans; [apply submseteq_app; [exact Hsrc|reflexivity]|]. rewrite Hgl, Hnext, filter_filter.
    apply filter_disjoint. intros x. simpl. lia.
  - intros s t Hs Ht Hl H1 H2. rewrite Hnext, !elem_of_filter_bool. destruct (Hb s Hs).
    unfold overlaps_hash. split; [split; [done|lia]|lia].
Qed.
Lemma group_some {A} (f : A -> Z) l k g : group_by f l !! k = Some g -> g <> [].
Proof.
  revert g. induction l as [|x l IH] using rev_ind; intros g; [discriminate|]. rewrite group_by_snoc, lookup_upsert. case_decide; [|apply IH].
  intros [= <-] Hg. by case_match; [apply app_nil in Hg as [_ ?]|].
Qed.

(** C34. What the leveled strategy compacts: some tables of one level together
    with every table of the next level whose key range meets one of theirs, none
    of them twice.  So the output never overlaps a table of the next level that
    was left out. *)
Theorem leveled_group_closed {Score} (self : LeveledCompactionStrategy Score) (sstables : list LeveledSSTable) (group : list Z) :
  (0 < lcs_max_threshold self)%nat -> group ∈ pick_leveled_compaction self sstables ->
  exists level src next, group = ls_id <$> src ++ next /\ leveled_pick sstables level src next.
Proof.
  intros Hmax. unfold pick_leveled_compaction. set (levels := group_by ls_level sstables).
  destruct (pick_l0 self levels) as [g|] eqn:E0; [|destruct (pick_level self levels) as [g|] eqn:E1; [|by intros ?%not_elem_of_nil]];
    intros ->%list_elem_of_singleton.
  - unfold pick_l0 in E0. apply bind_Some in E0 as (l0 & Hl0 & E0). case_match; [|done]. apply (inj Some) in E0 as <-.
    eexists 0, (take (lcs_max_threshold self) l0), _. split; [|eapply (leveled_pick_intro _ 0 l0 _ (min_hash l0) (max_hash l0) Hl0)].
    + rewrite fmap_app. f_equal. unfold levels. change (0 + 1) with 1. by destruct (group_by ls_level sstables !! 1).
    + apply group_some in Hl0. destruct l0, (lcs_max_threshold self); simpl; done || lia.
    + apply sublist_submseteq, sublist_take.
    + intros s Hs. assert (s ∈ l0) by (eapply elem_of_submseteq; [exact Hs|apply sublist_submseteq, sublist_take]).
      split; [by apply min_hash_le|by apply max_hash_ge].
  - unfold pick_level in E1. apply bind_Some in E1 as (level & _ & E1). apply bind_Some in E1 as (ssts & Hl & E1).
    apply bind_Some in E1 as (oldest & Ho & E1). apply (inj Some) in E1 as <-. apply oldest_elem in Ho.
    eexists level, [oldest], _. split; [|eapply (leveled_pick_intro _ level ssts _ (min_key_hash oldest) (max_key_hash oldest) Hl)].
    + simpl. f_equal. unfold levels. by destruct (group_by ls_level sstables !! (level + 1)).
    + done.
    + by apply singleton_submseteq_l.
    + by intros s ->%list_elem_of_singleton.
Qed.

(** C35. The strategies that choose by size, by level or by time window never
    choose a table twice, choose only tables there are, and never an empty
    group, whatever the sizes and timestamps: so the groups of one round can be
    compacted independently. *)
Theorem strategies_pick_disjoint (stcs : SizeTieredCompactionStrategy) (time_unit : TimeUnit) (window_size now : Z)
    {Score} (lcs : LeveledCompactionStrategy Score) (sstables : list CompactionMetadata) :
  (0 < stcs_min_threshold stcs)%nat -> (0 < stcs_max_threshold stcs)%nat ->
  (0 < l0_threshold lcs)%nat -> (0 < lcs_max_threshold lcs)%nat -> NoDup (cmd_id <$> sstables) ->
  Forall (fun groups => NoDup (mjoin groups) /\ picks_from sstables groups)
    [SizeTiered_pick_compaction stcs sstables;
     TimeWindow_pick_compaction (mkTimeWindow time_unit window_size stcs now) sstables;
     Leveled_pick_compaction lcs sstables].
Proof.
  intros H1 H2 H3 H4 Hnd.
  assert (Hnd' : forall groups, picks_from sstables groups -> NoDup (mjoin groups) /\ picks_from sstables groups).
  { intros groups Hp. split; [|done]. destruct (submseteq_Permutation _ _ (proj1 Hp)) as [rest Hr].
    rewrite Hr in Hnd. by apply NoDup_app in Hnd as [? _]. }
  repeat apply List.Forall_cons; [..|apply List.Forall_nil]; apply Hnd'.
  - by apply (strategy_picks stcs sstables).
  - by apply (strategy_picks (mkTimeWindow time_unit window_size stcs now)).
  - exact (Leveled_laws lcs sstables (conj H3 H4)).
Qed.

(** ** Samples *)

Module StrategySample.
Definition meta (id data_size max_timestamp : Z) : CompactionMetadata := mkCompactionMetadata id data_size 10 0 max_timestamp.
Definition tables : list CompactionMetadata := [meta 1 100 5; meta 2 900 5; meta 3 110 7; meta 4 95 8].
(** Sizes within half and one and a half times the average. *)
Definition in_bucket (sizes : list Z) (size : Z) : bool :=
  let total := foldl Z.add 0 sizes in
  (total <=? 2 * size * Z.of_nat (length sizes)) && (2 * size * Z.of_nat (length sizes) <=? 3 * total).
Definition stcs : SizeTieredCompactionStrategy := mkSizeTiered 2 32 in_bucket.
Definition lcs : LeveledCompactionStrategy (Z * Z) :=
  mkLeveled (Z * Z) 160 10 2 32 (fun a m => (a, m)) (0, 1) (1, 1) (fun x y => y.1 * x.2 <? x.1 * y.2).
Definition leveled : list LeveledSSTable :=
  [mkLeveledSSTable (meta 1 100 5) 0 0 50; mkLeveledSSTable (meta 2 100 5) 0 20 90; mkLeveledSSTable (meta 3 100 5) 1 0 30;
   mkLeveledSSTable (meta 4 100 5) 1 95 200].
End StrategySample.

Lemma leveled_group_closed_witness :
  let self := StrategySample.lcs in let sstables := StrategySample.leveled in
  pick_leveled_compaction self sstables = [[1; 2; 3]]
  /\ exists level src next, [1; 2; 3] = ls_id <$> src ++ next /\ leveled_pick sstables level src next.
Proof.
  intros self sstables. assert (E : pick_leveled_compaction self sstables = [[1; 2; 3]]) by (vm_compute; reflexivity).
  split; [exact E|]. apply (leveled_group_closed self sstables [1; 2; 3]); [cbv; lia|]. rewrite E. left.
Defined.

Lemma strategies_pick_disjoint_witness :
  let groups := SizeTiered_pick_compaction StrategySample.stcs StrategySample.tables in
  groups = [[4; 1; 3]] /\ NoDup (mjoin groups) /\ picks_from StrategySample.tables groups.
Proof.
  intros groups. split; [vm_compute; reflexivity|].
  refine (List.Forall_inv (strategies_pick_disjoint StrategySample.stcs Days 1 0 StrategySample.lcs StrategySample.tables _ _ _ _ _)).
  1-4: (cbv; lia). apply (bool_decide_unpack _). vm_compute. exact I.
Defined.
