(* ===== verification/RowCache.v ===== *)
(** * The row cache

    crates/cassandra-storage/src/cache/row_cache.rs: whole partitions by table
    hash and key.  The least-recently-used map under it is the crate [lru]; the
    class [LruCache] states what its documentation says of the operations used,
    and which entry [push] evicts is left open. *)
From S2P Require Export Memtable.

Abbreviation RowCacheKey := (Z * list Z)%type.

(** ** The crate's map *)

Class LruCache (L : Type) := {
  lru_new : nat -> L;
  lru_get : L -> RowCacheKey -> option PartitionData * L;
  (** The entry that left the map: the evicted one, or the old value of the key. *)
  lru_push : L -> RowCacheKey -> PartitionData -> option (RowCacheKey * PartitionData) * L;
  lru_pop : L -> RowCacheKey -> L;
  lru_iter : L -> list (RowCacheKey * PartitionData);
}.
Class LruLaws (L : Type) `{LruCache L} := {
  lru_contents : L -> gmap RowCacheKey PartitionData;
  lru_new_contents n : lru_contents (lru_new n) = ∅;
  lru_get_result c k : (lru_get c k).1 = lru_contents c !! k;
  lru_get_contents c k : lru_contents (lru_get c k).2 = lru_contents c;
  lru_push_contents c k v : lru_contents (lru_push c k v).2 ⊆ <[k := v]> (lru_contents c);
  lru_pop_contents c k : lru_contents (lru_pop c k) = delete k (lru_contents c);
  lru_iter_contents c k : is_Some (lru_contents c !! k) -> k ∈ (lru_iter c).*1;
}.

(** ** The cache *)

Section RowCache.
Context {L : Type} `{LruCache L}.

Record RowCache := mkRowCache {
  rc_cache : L;
  rc_hits : Z;
  rc_misses : Z;
  rc_evictions : Z;
  rc_enabled : bool;
}.
Definition RowCache_new (max_entries : nat) : RowCache :=
  mkRowCache (lru_new (max_entries `max` 1)) 0 0 0 (0 <? max_entries)%nat.
Definition RowCache_get (self : RowCache) (table_hash : Z) (partition_key : list Z) : option PartitionData * RowCache :=
  let miss c := mkRowCache c (rc_hits self) (wrap_u 64 (rc_misses self + 1)) (rc_evictions self) (rc_enabled self) in
  if rc_enabled self then
    match lru_get (rc_cache self) (table_hash, partition_key) with
    | (Some data, c) => (Some data, mkRowCache c (wrap_u 64 (rc_hits self + 1)) (rc_misses self) (rc_evictions self) true)
    | (None, c) => (None, miss c)
    end
  else (None, miss (rc_cache self)).
Definition RowCache_put (self : RowCache) (table_hash : Z) (partition_key : list Z) (data : PartitionData) : RowCache :=
  if rc_enabled self then
    let '(evicted, c) := lru_push (rc_cache self) (table_hash, partition_key) data in
    mkRowCache c (rc_hits self) (rc_misses self)
      (match evicted with Some _ => wrap_u 64 (rc_evictions self + 1) | None => rc_evictions self end) true
  else self.
Definition set_cache (self : RowCache) (c : L) : RowCache :=
  mkRowCache c (rc_hits self) (rc_misses self) (rc_evictions self) (rc_enabled self).
Definition RowCache_invalidate_partition (self : RowCache) (table_hash : Z) (partition_key : list Z) : RowCache :=
  if rc_enabled self then set_cache self (lru_pop (rc_cache self) (table_hash, partition_key)) else self.
Definition RowCache_invalidate_table (self : RowCache) (table_hash : Z) : RowCache :=
  if rc_enabled self then
    let keys_to_remove := (List.filter (fun e => e.1.1 =? table_hash) (lru_iter (rc_cache self))).*1 in
    set_cache self (foldl lru_pop (rc_cache self) keys_to_remove)
  else self.

(** ** What it may return *)

Context `{!LruLaws L}.

Definition cached (self : RowCache) (table_hash : Z) (partition_key : list Z) : option PartitionData :=
  if rc_enabled self then lru_contents (rc_cache self) !! (table_hash, partition_key) else None.

Lemma cached_new n th k : cached (RowCache_new n) th k = None.
Proof. unfold cached. simpl. case_match; [|done]. by rewrite lru_new_contents, lookup_empty. Qed.
Lemma cached_get self th k :
  (RowCache_get self th k).1 = cached self th k
  /\ forall th' k', cached (RowCache_get self th k).2 th' k' = cached self th' k'.
Proof.
  unfold RowCache_get, cached. destruct (rc_enabled self) eqn:E; [|done].
  rewrite <- lru_get_result. pose proof (lru_get_contents (rc_cache self) (th, k)) as Hc.
  destruct (lru_get (rc_cache self) (th, k)) as [[d|] c]; simpl in *; rewrite ?E, Hc; done.
Qed.
Lemma cached_put self th k d th' k' p :
  cached (RowCache_put self th k d) th' k' = Some p -> cached self th' k' = Some p \/ (th', k', p) = (th, k, d).
Proof.
  unfold RowCache_put. destruct (rc_enabled self) eqn:E; [|by left].
  pose proof (lru_push_contents (rc_cache self) (th, k) d) as Hc. destruct (lru_push _ _ _) as [o c]. simpl in Hc.
  unfold cached. simpl. rewrite E. intros Hl. rewrite map_subseteq_spec in Hc. apply Hc in Hl.
  rewrite lookup_insert_Some in Hl. destruct Hl as [[[= <- <-] <-]|[_ Hl]]; [by right|by left].
Qed.
Lemma cached_invalidate self th k th' k' p :
  cached (RowCache_invalidate_partition self th k) th' k' = Some p -> cached self th' k' = Some p /\ (th', k') <> (th, k).
Proof.
  unfold RowCache_invalidate_partition, cached. destruct (rc_enabled self) eqn:E; simpl; rewrite ?E; [|done].
  rewrite lru_pop_contents, lookup_delete_Some. intros [Hne Hl]. by split.
Qed.
(** After a truncation no entry of the table is left, and no other is lost. *)
Lemma cached_invalidate_table self th th' k :
  cached (RowCache_invalidate_table self th) th' k = if th' =? th then None else cached self th' k.
Proof.
  unfold RowCache_invalidate_table, cached. destruct (rc_enabled self) eqn:E; simpl; rewrite ?E; [|by case_match].
  assert (Hf : forall l c, lru_contents (foldl lru_pop c l) !! (th', k)
                           = if decide ((th', k) ∈ l) then None else lru_contents c !! (th', k)).
  { induction l as [|x l IH]; intros c; [done|]. cbn [foldl].
    rewrite IH, lru_pop_contents.
    destruct (decide (x = (th', k))) as [->|Hne].
    - rewrite lookup_delete_eq. repeat case_decide; set_solver.
    - rewrite lookup_delete_ne by done. repeat case_decide; set_solver. }
  rewrite Hf. destruct (Z.eqb_spec th' th) as [->|Hne]; case_decide as Hin; try done.
  - destruct (lru_contents (rc_cache self) !! (th, k)) eqn:El; [|done]. destruct Hin.
    assert (Hk : (th, k) ∈ (lru_iter (rc_cache self)).*1) by (apply lru_iter_contents; by eexists).
    apply list_elem_of_fmap in Hk as ([k0 v] & Hk & Hk'). simpl in Hk. subst k0. apply list_elem_of_fmap. exists ((th, k), v).
    split; [done|]. apply elem_of_filter_bool. split; [done|]. simpl. lia.
  - apply list_elem_of_fmap in Hin as ([k0 v] & Hk & [_ Hk']%elem_of_filter_bool). simpl in *. subst k0. simpl in Hk'. lia.
Qed.
End RowCache.
Arguments RowCache : clear implicits.

(** A map of bounded size is one: it refuses nothing and evicts everything else
    when it is full. *)
Module SimpleLru.
Record t := mk { cap : nat; held : gmap RowCacheKey PartitionData }.
#[export] Instance ops : LruCache t := {
  lru_new n := mk n ∅;
  lru_get c k := (held c !! k, c);
  lru_push c k v :=
    if decide (is_Some (held c !! k) \/ (size (held c) < cap c)%nat)
    then ((fun old => (k, old)) <$> held c !! k, mk (cap c) (<[k := v]> (held c)))
    else (head (map_to_list (held c)), mk (cap c) {[k := v]});
  lru_pop c k := mk (cap c) (delete k (held c));
  lru_iter c := map_to_list (held c);
}.
#[export] Instance laws : LruLaws t.
Proof.
  refine {| lru_contents := held |}; try done.
  - intros c k v. simpl. case_decide; simpl; [done|]. apply map_subseteq_spec. intros k' v' Hl.
    apply lookup_singleton_Some in Hl as [<- <-]. by rewrite lookup_insert_eq.
  - intros c k [v Hv]. apply list_elem_of_fmap. exists (k, v). split; [done|]. by apply elem_of_map_to_list.
Defined.
End SimpleLru.
