(* ===== verification/MemtableManager.v ===== *)
(** * The memtables of a node

    crates/cassandra-storage/src/memtable/mod.rs.  [create_backend] makes the
    backend the configuration names; a [Memtable] is a backend with its
    identifier and the commit log segments it covers; the manager keeps the
    active memtable of each column family and those being flushed.

    A memtable is shared: [get_or_create] and [switch_memtable] hand out the
    object that stays in the manager.  The manager here holds the identifiers
    of the memtables and a heap maps an identifier to the object, so that a
    write through a handle is seen by every holder of it. *)
From S2P Require Export Token Trie.

(** ** Backends by type *)

Inductive MemtableType := SkipList | TrieType | ShardedTrie.

(** [Box<dyn MemtableBackend>]: one of the types [create_backend] makes. *)
Inductive Backend :=
| SkipListBackend (s : SkipListMemtable)
| TrieBackend (s : TrieMemtable)
| ShardedTrieBackend (s : ShardedMemtable MemtableTrie).

#[export] Instance sharded_trie_backend : MemtableBackend (ShardedMemtable MemtableTrie) :=
  ShardedMemtable_backend Token_from_partition_key.

(** A method call through the box. *)
Definition Backend_map (f : forall S, MemtableBackend S -> S -> S) (self : Backend) : Backend :=
  match self with
  | SkipListBackend s => SkipListBackend (f _ _ s)
  | TrieBackend s => TrieBackend (f _ _ s)
  | ShardedTrieBackend s => ShardedTrieBackend (f _ _ s)
  end.
Definition Backend_read {A} (f : forall S, MemtableBackend S -> S -> A) (self : Backend) : A :=
  match self with
  | SkipListBackend s => f _ _ s
  | TrieBackend s => f _ _ s
  | ShardedTrieBackend s => f _ _ s
  end.
#[export] Instance Backend_backend : MemtableBackend Backend := {
  backend_apply self k row := Backend_map (fun S _ s => backend_apply s k row) self;
  backend_set_partition_tombstone self k ts ldt :=
    Backend_map (fun S _ s => backend_set_partition_tombstone s k ts ldt) self;
  backend_get_partition self k := Backend_read (fun S _ s => backend_get_partition s k) self;
  backend_iter_partitions := Backend_read (fun S _ s => backend_iter_partitions s);
  backend_memory_usage := Backend_read (fun S _ s => backend_memory_usage s);
  backend_partition_count := Backend_read (fun S _ s => backend_partition_count s);
}.

(** Four shards: the assertion of [ShardBoundaries::new] holds. *)
Definition sharded_trie_new : ShardedMemtable MemtableTrie :=
  is_Some_proj (mx:=ShardedMemtable_new (replicate 4 MemtableTrie_new)) (mk_is_Some _ _ eq_refl).
Definition create_backend (memtable_type : MemtableType) : Backend :=
  match memtable_type with
  | SkipList => SkipListBackend SkipListMemtable_new
  | TrieType => TrieBackend TrieMemtable_new
  | ShardedTrie => ShardedTrieBackend sharded_trie_new
  end.

(** ** A memtable *)

Record Memtable := mkMemtable {
  mt_id : Z;
  mt_backend : Backend;
  commitlog_lower_bound : Z;
  commitlog_upper_bound : Z;
}.
Definition Memtable_with_type (id commitlog_segment_id : Z) (memtable_type : MemtableType) : Memtable :=
  mkMemtable id (create_backend memtable_type) commitlog_segment_id commitlog_segment_id.
Definition Memtable_apply (self : Memtable) (k : Key) (row : Row) : Memtable :=
  mkMemtable (mt_id self) (backend_apply (mt_backend self) k row) (commitlog_lower_bound self) (commitlog_upper_bound self).
Definition Memtable_set_partition_tombstone (self : Memtable) (k : Key) (ts ldt : Z) : Memtable :=
  mkMemtable (mt_id self) (backend_set_partition_tombstone (mt_backend self) k ts ldt)
    (commitlog_lower_bound self) (commitlog_upper_bound self).
Definition Memtable_update_commitlog_upper_bound (self : Memtable) (segment_id : Z) : Memtable :=
  mkMemtable (mt_id self) (mt_backend self) (commitlog_lower_bound self) (commitlog_upper_bound self `max` segment_id).
Definition Memtable_get_partition (self : Memtable) (k : Key) : option PartitionData :=
  backend_get_partition (mt_backend self) k.
Definition Memtable_iter_partitions (self : Memtable) : list (Key * PartitionData) :=
  backend_iter_partitions (mt_backend self).
Definition Memtable_memory_usage (self : Memtable) : Z := backend_memory_usage (mt_backend self).

(** ** The manager *)

Record MemtableManager := mkMemtableManager {
  mm_active : ordmap string Z;
  mm_flushing : list (string * Z);
  mm_next_id : Z;
  mm_flush_threshold : Z;
  mm_memtable_type : MemtableType;
  mm_heap : gmap Z Memtable;
}.
Definition MemtableManager_with_type (flush_threshold : Z) (memtable_type : MemtableType) : MemtableManager :=
  mkMemtableManager ∅ [] 1 flush_threshold memtable_type ∅.

(** A new object: its identifier, and the manager with the counter moved on. *)
Definition MemtableManager_alloc (self : MemtableManager) (commitlog_segment_id : Z) : Z * MemtableManager :=
  let id := mm_next_id self in
  (id, mkMemtableManager (mm_active self) (mm_flushing self) (wrap_u 64 (id + 1)) (mm_flush_threshold self)
         (mm_memtable_type self)
         (<[id := Memtable_with_type id commitlog_segment_id (mm_memtable_type self)]> (mm_heap self))).
Definition MemtableManager_set_active (self : MemtableManager) (cf_name : string) (id : Z) : MemtableManager :=
  mkMemtableManager (<[cf_name := id]> (mm_active self)) (mm_flushing self) (mm_next_id self) (mm_flush_threshold self)
    (mm_memtable_type self) (mm_heap self).
Definition MemtableManager_set_flushing (self : MemtableManager) (flushing : list (string * Z)) : MemtableManager :=
  mkMemtableManager (mm_active self) flushing (mm_next_id self) (mm_flush_threshold self)
    (mm_memtable_type self) (mm_heap self).
(** A write through a handle. *)
Definition MemtableManager_update (self : MemtableManager) (id : Z) (f : Memtable -> Memtable) : MemtableManager :=
  mkMemtableManager (mm_active self) (mm_flushing self) (mm_next_id self) (mm_flush_threshold self)
    (mm_memtable_type self) (alter f id (mm_heap self)).

Definition MemtableManager_get_or_create (self : MemtableManager) (cf_name : string) (commitlog_segment_id : Z) :
    Z * MemtableManager :=
  match mm_active self !! cf_name with
  | Some id => (id, self)
  | None =>
      let '(id, self) := MemtableManager_alloc self commitlog_segment_id in
      (id, MemtableManager_set_active self cf_name id)
  end.

Definition MemtableManager_active_memtables (self : MemtableManager) : list Memtable :=
  omap (fun id => mm_heap self !! id) (values (mm_active self)).
Definition MemtableManager_total_memory_usage (self : MemtableManager) : Z :=
  wrap_u 64 (foldr Z.add 0 (Memtable_memory_usage <$> MemtableManager_active_memtables self)).
Definition MemtableManager_should_flush (self : MemtableManager) : bool :=
  mm_flush_threshold self <=? MemtableManager_total_memory_usage self.

Definition MemtableManager_switch_memtable (self : MemtableManager) (cf_name : string) (commitlog_segment_id : Z) :
    option Z * MemtableManager :=
  let old := mm_active self !! cf_name in
  let '(new_id, self) := MemtableManager_alloc self commitlog_segment_id in
  let self := MemtableManager_set_active self cf_name new_id in
  (old, match old with
        | Some old_id => MemtableManager_set_flushing self (mm_flushing self ++ [(cf_name, old_id)])
        | None => self
        end).

Definition MemtableManager_flush_complete (self : MemtableManager) (memtable_id : Z) : MemtableManager :=
  MemtableManager_set_flushing self (List.filter (fun e => negb (e.2 =? memtable_id)) (mm_flushing self)).

(** [Iterator::min]. *)
Definition min_of (l : list Z) : option Z :=
  match l with [] => None | x :: l => Some (foldl Z.min x l) end.
Definition MemtableManager_lowest_commitlog_bound (self : MemtableManager) : option Z :=
  let active_min := min_of (commitlog_lower_bound <$> MemtableManager_active_memtables self) in
  let flushing_min := min_of (commitlog_lower_bound <$> omap (fun e => mm_heap self !! e.2) (mm_flushing self)) in
  match active_min, flushing_min with
  | Some a, Some b => Some (a `min` b)
  | Some a, None => Some a
  | None, Some b => Some b
  | None, None => None
  end.

Definition MemtableManager_active_cf_names (self : MemtableManager) : list string := keys (mm_active self).
Definition MemtableManager_active_partitions (self : MemtableManager) (cf_name : string) : list (Key * PartitionData) :=
  match mm_active self !! cf_name ≫= (fun id => mm_heap self !! id) with
  | Some mt => Memtable_iter_partitions mt
  | None => []
  end.
Definition MemtableManager_flushing_count_by_cf (self : MemtableManager) : gmap string Z :=
  foldl (fun counts e => <[e.1 := wrap_u 64 (default 0 (counts !! e.1) + 1)]> counts) ∅ (mm_flushing self).

(** ** Every backend keeps the promise *)

#[export] Instance sharded_trie_laws : BackendLaws (ShardedMemtable MemtableTrie) :=
  ShardedMemtable_laws Token_from_partition_key.

Definition Backend_law_wf (self : Backend) : Prop :=
  match self with
  | SkipListBackend s => backend_wf s
  | TrieBackend s => backend_wf s
  | ShardedTrieBackend s => backend_wf s
  end.
Definition Backend_law_abs (self : Backend) : Partitions :=
  match self with
  | SkipListBackend s => backend_abs s
  | TrieBackend s => backend_abs s
  | ShardedTrieBackend s => backend_abs s
  end.
#[export] Instance Backend_laws : BackendLaws Backend.
Proof.
  refine {| backend_wf := Backend_law_wf; backend_abs := Backend_law_abs |}; intros [s|s|s] *.
  all: first [apply (apply_wf s) | apply (tombstone_wf s) | apply (apply_abs s) | apply (tombstone_abs s)
             | apply (get_abs s) | apply (iter_abs s) | apply (count_abs s)].
Defined.

Lemma new_trie_abs {T} : trie_abs (TrieNode_new : TrieNode T) = ∅.
Proof. done. Qed.

Lemma create_backend_wf memtable_type : backend_wf (create_backend memtable_type) /\ backend_abs (create_backend memtable_type) = ∅.
Proof.
  destruct memtable_type; simpl.
  - done.
  - split; [apply new_trie_wf|done].
  - destruct (ShardBoundaries_new 4) as [b|] eqn:E; [|done].
    assert (sharded_trie_new = mkShardedMemtable (replicate 4 MemtableTrie_new) b) as ->
      by (injection E as <-; reflexivity).
    apply sharded_empty; [|done|done]. split; [apply new_trie_wf|done].
Qed.

(** C9. The configured memtable type is invisible: the skip list, the trie and
    the four-way sharded trie, given any sequence of writes and partition
    deletions, list the same partitions in key order, count them alike and
    answer [get_partition] alike. *)
Theorem memtable_backends_agree (t u : MemtableType) (ops : list MemOp) :
  let s := run_ops (create_backend t) ops in
  let s' := run_ops (create_backend u) ops in
  backend_iter_partitions s = backend_iter_partitions s'
  /\ backend_partition_count s = backend_partition_count s'
  /\ forall k, backend_get_partition s k = backend_get_partition s' k.
Proof.
  destruct (create_backend_wf t) as [Hw Ha], (create_backend_wf u) as [Hw' Ha'].
  destruct (run_ops_sim (create_backend t) (create_backend u) ops Hw Hw' ltac:(congruence)) as (H1 & H2 & H3).
  exact (observe_sim _ _ H1 H2 H3).
Qed.
