(* ===== verification/CommitLog.v ===== *)
(** * The commit log

    crates/cassandra-storage/src/commitlog: segment.rs, mod.rs, encrypted.rs,
    and the sidecar of cdc.rs that [append] writes.

    Files are inodes that directories name: recycling renames a file and a
    mirrored segment has two names.  An inode has the bytes a reader sees and
    the length of the prefix that [sync_all] made durable; what a [BufWriter]
    still holds is in its segment.  A crash leaves of each file its durable
    prefix with any bytes after it.

    LZ4, the checksum, the JSON form of a mutation and the encryptor are
    parameters. *)
From S2P Require Export Memtable Io Types.

(** ** Mutations (mod.rs) *)

Record CellMutation := mkCellMutation {
  cm_column : string;
  cm_value : option (list Z);
  cm_timestamp : Z;
  cm_ttl : Z;
  cm_local_deletion_time : option Z;
  cm_is_tombstone : bool;
}.
Record MutationRow := mkMutationRow {
  mr_clustering_key : list Z;
  mr_cells : list CellMutation;
  mr_is_tombstone : bool;
  mr_local_deletion_time : option Z;
}.
Record TombstoneMarker := mkTombstoneMarker {
  tombstone_ts : Z;
  tombstone_ldt : Z;
}.
Record RangeTombstoneMarker := mkRangeTombstoneMarker {
  rt_start : list Z;
  rt_end : list Z;
  rt_timestamp : Z;
  rt_local_deletion_time : Z;
}.
Record Mutation := mkMutation {
  mu_keyspace : string;
  mu_table : string;
  mu_partition_key : list Z;
  mu_rows : list MutationRow;
  mu_timestamp : Z;
  mu_cdc_enabled : bool;
  mu_static_cells : list CellMutation;
  mu_partition_tombstone : option TombstoneMarker;
  mu_range_tombstones : list RangeTombstoneMarker;
}.
#[export] Instance CellMutation_eq_dec : EqDecision CellMutation.
Proof. solve_decision. Defined.
#[export] Instance MutationRow_eq_dec : EqDecision MutationRow.
Proof. solve_decision. Defined.
#[export] Instance TombstoneMarker_eq_dec : EqDecision TombstoneMarker.
Proof. solve_decision. Defined.
#[export] Instance RangeTombstoneMarker_eq_dec : EqDecision RangeTombstoneMarker.
Proof. solve_decision. Defined.
#[export] Instance Mutation_eq_dec : EqDecision Mutation.
Proof. solve_decision. Defined.

(** ** Configuration and errors *)

Inductive CommitLogError :=
| IoFailed
| CrcMismatch (segment_id offset expected actual : Z)
| CorruptHeader (path : string)
| Serialization
| CdcSpaceLimitExceeded (used limit : Z).

Inductive SyncPolicy := Batch | Periodic (interval_ms : Z).
#[export] Instance SyncPolicy_eq_dec : EqDecision SyncPolicy.
Proof. solve_decision. Defined.
Inductive CorruptionPolicy := StopOnCorrupt | SkipAndContinue.

(** [dyn CommitLogEncryptor] (encrypted.rs); [None] is an error. *)
Record CommitLogEncryptor := mkCommitLogEncryptor {
  encrypt_segment : list Z -> option (list Z);
  decrypt_segment : list Z -> option (list Z);
  is_enabled : bool;
}.
(** [dyn EncryptedSegmentWriter] and its two implementations. *)
Record EncryptedSegmentWriter := mkEncryptedSegmentWriter {
  is_encrypted : bool;
  encode_block : list Z -> option (list Z);
  decode_block : list Z -> option (list Z);
}.
Definition PlainSegmentWriter : EncryptedSegmentWriter := mkEncryptedSegmentWriter false Some Some.
Definition EncryptingSegmentWriter (e : CommitLogEncryptor) : EncryptedSegmentWriter :=
  mkEncryptedSegmentWriter (is_enabled e) (encrypt_segment e) (decrypt_segment e).

Record CdcConfig := mkCdcConfig {
  cdc_on : bool;
  size_limit : Z;
}.
(** The archive and restore commands run a shell and are left out. *)
Record ArchivingConfig := mkArchivingConfig {
  archive_directory : bool;
  restore_on_replay : bool;
}.
Record CommitLogConfig := mkCommitLogConfig {
  max_segment_size : Z;
  sync_policy : SyncPolicy;
  compression_enabled : bool;
  corruption_policy : CorruptionPolicy;
  archiving : ArchivingConfig;
  cdc : CdcConfig;
  recycle_pool_size : nat;
  encryptor : option CommitLogEncryptor;
}.

(** ** Files *)

Record File := mkFile {
  f_data : list Z;
  f_synced : nat;
}.
Record Fs := mkFs {
  fs_inodes : gmap Z File;
  fs_next : Z;
  fs_log : ordmap string Z;
  fs_cdc : ordmap string Z;
  fs_archive : ordmap string (list Z);
}.
Definition fs_set_inode (i : Z) (f : File) (fs : Fs) : Fs :=
  mkFs (<[i := f]> (fs_inodes fs)) (fs_next fs) (fs_log fs) (fs_cdc fs) (fs_archive fs).
Definition fs_set_log (d : ordmap string Z) (fs : Fs) : Fs :=
  mkFs (fs_inodes fs) (fs_next fs) d (fs_cdc fs) (fs_archive fs).
Definition fs_set_cdc (d : ordmap string Z) (fs : Fs) : Fs :=
  mkFs (fs_inodes fs) (fs_next fs) (fs_log fs) d (fs_archive fs).
Definition fs_set_archive (d : ordmap string (list Z)) (fs : Fs) : Fs :=
  mkFs (fs_inodes fs) (fs_next fs) (fs_log fs) (fs_cdc fs) d.
(** A new, empty file. *)
Definition fs_alloc (fs : Fs) : Z * Fs :=
  (fs_next fs, mkFs (<[fs_next fs := mkFile [] 0]> (fs_inodes fs)) (fs_next fs + 1) (fs_log fs) (fs_cdc fs) (fs_archive fs)).
(** [create(true).write(true).truncate(true).open(name)] in a directory. *)
Definition fs_open_truncate (get : Fs -> ordmap string Z) (set : ordmap string Z -> Fs -> Fs) (name : string) (fs : Fs) :
    Z * Fs :=
  match get fs !! name with
  | Some i => (i, fs_set_inode i (mkFile [] 0) fs)
  | None => let '(i, fs) := fs_alloc fs in (i, set (<[name := i]> (get fs)) fs)
  end.
Definition fs_append (i : Z) (data : list Z) (fs : Fs) : Fs :=
  match fs_inodes fs !! i with
  | Some f => fs_set_inode i (mkFile (f_data f ++ data) (f_synced f)) fs
  | None => fs
  end.
Definition fs_sync (i : Z) (fs : Fs) : Fs :=
  match fs_inodes fs !! i with
  | Some f => fs_set_inode i (mkFile (f_data f) (length (f_data f))) fs
  | None => fs
  end.

(** [BufWriter::write_all], with the default capacity. *)
Definition BUFFER_CAPACITY : nat := Z.to_nat 8192.
Definition buf_write (i : Z) (data : list Z) (st : list Z * Fs) : list Z * Fs :=
  let '(buf, fs) := st in
  let '(buf, fs) := if (BUFFER_CAPACITY - length buf <? length data)%nat then ([], fs_append i buf fs) else (buf, fs) in
  if (BUFFER_CAPACITY <=? length data)%nat then (buf, fs_append i data fs) else (buf ++ data, fs).
Definition buf_flush (i : Z) (st : list Z * Fs) : list Z * Fs := ([], fs_append i st.1 st.2).

(** ** Segments (segment.rs) *)

Definition SEGMENT_MAGIC : list Z := string_bytes "CLSG".
Definition VERSION_1 : Z := 1.
Definition VERSION_2 : Z := 2.
Definition HEADER_SIZE : Z := 16.
Definition ENTRY_FLAG_COMPRESSED : Z := 1.
Definition ENTRY_FLAG_ENCRYPTED : Z := 2.

Record SegmentFlags := mkSegmentFlags {
  sf_compression : bool;
  sf_encryption : bool;
}.
Definition SegmentFlags_to_byte (self : SegmentFlags) : Z :=
  let b := 0 in
  let b := if sf_compression self then Z.lor b 1 else b in
  if sf_encryption self then Z.lor b 2 else b.
Definition SegmentFlags_from_byte (b : Z) : SegmentFlags :=
  mkSegmentFlags (negb (Z.land b 1 =? 0)) (negb (Z.land b 2 =? 0)).

(** [seg_writer] is the open file and the bytes still buffered. *)
Record Segment := mkSegment {
  seg_id : Z;
  seg_path : string;
  seg_writer : option (Z * list Z);
  seg_size : Z;
  seg_flags : SegmentFlags;
  seg_version : Z;
}.

Definition segment_filename (id : Z) : string :=
  String.string_of_list_ascii (lit "CommitLog-" ++ show (Z.to_nat id) ++ lit ".log").
Definition strip_suffix_str (p s : str) : option str := @rev _ <$> strip_prefix (rev p) (rev s).
Definition parse_segment_filename (name : string) : option Z :=
  rest ← strip_prefix (lit "CommitLog-") (String.list_ascii_of_string name);
  digits ← strip_suffix_str (lit ".log") rest;
  parse_u64 digits.
(** [starts_with] and [ends_with]: on a short name the two may overlap. *)
Definition is_segment_name (name : string) : bool :=
  let s := String.list_ascii_of_string name in
  match strip_prefix (lit "CommitLog-") s with Some _ => true | None => false end
  && match strip_suffix_str (lit ".log") s with Some _ => true | None => false end.

Definition segment_header (id : Z) (flags : SegmentFlags) : list Z :=
  SEGMENT_MAGIC ++ [VERSION_2] ++ write_be 8 id ++ [SegmentFlags_to_byte flags] ++ [0; 0].
Definition write_header (i id : Z) (flags : SegmentFlags) (st : list Z * Fs) : list Z * Fs :=
  buf_flush i (buf_write i [0; 0] (buf_write i [SegmentFlags_to_byte flags]
    (buf_write i (write_be 8 id) (buf_write i [VERSION_2] (buf_write i SEGMENT_MAGIC st))))).

Definition Segment_create_with_flags (id : Z) (flags : SegmentFlags) (fs : Fs) : Segment * Fs :=
  let path := segment_filename id in
  let '(i, fs) := fs_open_truncate fs_log fs_set_log path fs in
  let '(buf, fs) := write_header i id flags ([], fs) in
  (mkSegment id path (Some (i, buf)) HEADER_SIZE flags VERSION_2, fs).

(** [recycle]: the file is truncated and renamed; [None] when it cannot be opened. *)
Definition Segment_recycle (path : string) (new_id : Z) (flags : SegmentFlags) (fs : Fs) : option (Segment * Fs) :=
  i ← fs_log fs !! path;
  let fs := fs_set_inode i (mkFile [] 0) fs in
  let '(buf, fs) := write_header i new_id flags ([], fs) in
  let new_path := segment_filename new_id in
  let fs := if String.eqb path new_path then fs
            else fs_set_log (<[new_path := i]> (delete path (fs_log fs))) fs in
  Some (mkSegment new_id new_path (Some (i, buf)) HEADER_SIZE flags VERSION_2, fs).

(** [open_for_read]; an end of the file within the header is an I/O error. *)
Definition read_header : IoReader (option (Z * Z * SegmentFlags)) :=
  magic ← io_exact 4;
  if bool_decide (magic = SEGMENT_MAGIC) then
    version ← io_u 1;
    if negb (version =? VERSION_1) && negb (version =? VERSION_2) then mret None
    else
      id ← io_u 8;
      if VERSION_2 <=? version then
        fb ← io_u 1; _ ← io_exact 2; mret (Some (version, id, SegmentFlags_from_byte fb))
      else
        _ ← io_exact 3; mret (Some (version, id, mkSegmentFlags false false))
  else mret None.
Definition Segment_open_for_read (path : string) (content : list Z) : CommitLogError + Segment :=
  match read_header content with
  | inl _ => inl IoFailed
  | inr (None, _) => inl (CorruptHeader path)
  | inr (Some (version, id, flags), _) => inr (mkSegment id path None (Z.of_nat (length content)) flags version)
  end.

Section Codecs.
Context (compress_prepend_size : list Z -> list Z) (decompress_size_prepended : list Z -> option (list Z))
  (crc32 : list Z -> Z).

(** The payload as it is stored, and the flags of its entry. *)
Definition compress_payload (flags : SegmentFlags) (payload : list Z) : list Z * Z :=
  if sf_compression flags && (64 <? length payload)%nat then
    let compressed := compress_prepend_size payload in
    if (length compressed <? length payload)%nat then (compressed, ENTRY_FLAG_COMPRESSED) else (payload, 0)
  else (payload, 0).
Definition encode_payload (flags : SegmentFlags) (codec : EncryptedSegmentWriter) (payload : list Z) :
    option (list Z * Z) :=
  let '(actual_payload, entry_flags) := compress_payload flags payload in
  if is_encrypted codec then
    actual_payload ← encode_block codec actual_payload;
    Some (actual_payload, Z.lor entry_flags ENTRY_FLAG_ENCRYPTED)
  else Some (actual_payload, entry_flags).

Definition Segment_append_entry_with_codec (self : Segment) (payload : list Z) (codec : EncryptedSegmentWriter)
    (fs : Fs) : (CommitLogError + Z) * (Segment * Fs) :=
  match seg_writer self with
  | None => (inl IoFailed, (self, fs))
  | Some (i, buf) =>
      let offset := seg_size self in
      match encode_payload (seg_flags self) codec payload with
      | None => (inl Serialization, (self, fs))
      | Some (actual_payload, entry_flags) =>
          let crc := crc32 actual_payload in
          let st := buf_write i (write_be 4 (wrap_u 32 (Z.of_nat (length actual_payload)))) (buf, fs) in
          let st := buf_write i [entry_flags] st in
          let st := buf_write i (write_be 4 crc) st in
          let '(buf, fs) := buf_write i actual_payload st in
          let size := wrap_u 64 (seg_size self + (4 + 1 + 4 + Z.of_nat (length actual_payload))) in
          (inr offset, (mkSegment (seg_id self) (seg_path self) (Some (i, buf)) size (seg_flags self) (seg_version self), fs))
      end
  end.

Definition Segment_sync (self : Segment) (fs : Fs) : Segment * Fs :=
  match seg_writer self with
  | None => (self, fs)
  | Some (i, buf) =>
      let '(buf, fs) := buf_flush i (buf, fs) in
      (mkSegment (seg_id self) (seg_path self) (Some (i, buf)) (seg_size self) (seg_flags self) (seg_version self),
       fs_sync i fs)
  end.

(** The loop of [read_entries_with_codec_up_to] from position [entry_start];
    every turn takes at least the four bytes of a length, so the number of bytes
    left bounds the turns. *)
Fixpoint read_entries (fuel : nat) (self : Segment) (policy : CorruptionPolicy) (codec : EncryptedSegmentWriter)
    (max_offset entry_start : Z) (input : list Z) : list (CommitLogError + list Z) :=
  match fuel with
  | O => []
  | S fuel =>
      match io_u 4 input with
      | inl _ => []
      | inr (len, input) =>
          let overhead := if VERSION_2 <=? seg_version self then 9 else 8 in
          if max_offset <? entry_start + overhead + len then []
          else
            match (if VERSION_2 <=? seg_version self
                   then flags ← io_u 1; crc ← io_u 4; raw ← io_exact (Z.to_nat len); mret (flags, crc, raw)
                   else crc ← io_u 4; raw ← io_exact (Z.to_nat len); mret (0, crc, raw)) input with
            | inl _ => [inl IoFailed]
            | inr (entry_flags, stored_crc, raw_payload, input) =>
                let position := entry_start + overhead + len in
                let next := read_entries fuel self policy codec max_offset position input in
                let failed e := inl e :: match policy with StopOnCorrupt => [] | SkipAndContinue => next end in
                if negb (stored_crc =? crc32 raw_payload)
                then failed (CrcMismatch (seg_id self) (position - len - 8) stored_crc (crc32 raw_payload))
                else
                  match (if negb (Z.land entry_flags ENTRY_FLAG_ENCRYPTED =? 0)
                         then decode_block codec raw_payload else Some raw_payload) with
                  | None => failed Serialization
                  | Some decoded_payload =>
                      match (if negb (Z.land entry_flags ENTRY_FLAG_COMPRESSED =? 0)
                             then decompress_size_prepended decoded_payload else Some decoded_payload) with
                      | None => failed Serialization
                      | Some payload => inr payload :: next
                      end
                  end
            end
      end
  end.
(** Seeking past the end of a short file leaves nothing to read. *)
Definition read_entries_with_codec_up_to (self : Segment) (policy : CorruptionPolicy) (codec : EncryptedSegmentWriter)
    (max_offset : Z) (content : list Z) : list (CommitLogError + list Z) :=
  let input := drop (Z.to_nat HEADER_SIZE) content in
  read_entries (S (length input)) self policy codec max_offset HEADER_SIZE input.
Definition read_entries_with_codec (self : Segment) (policy : CorruptionPolicy) (codec : EncryptedSegmentWriter)
    (content : list Z) : list (CommitLogError + list Z) :=
  read_entries_with_codec_up_to self policy codec (seg_size self) content.
End Codecs.

(** ** The log (mod.rs) *)

Definition TruncationPoints : Type := gmap string (Z * Z).
Definition TruncationPoints_mark_flushed (self : TruncationPoints) (cf_name : string) (segment_id offset : Z) :
    TruncationPoints :=
  let entry := default (0, 0) (self !! cf_name) in
  <[cf_name := if (entry.1 <? segment_id) || ((segment_id =? entry.1) && (entry.2 <? offset))
               then (segment_id, offset) else entry]> self.
Definition TruncationPoints_is_flushed (self : TruncationPoints) (cf_name : string) (segment_id offset : Z) : bool :=
  match self !! cf_name with
  | Some (seg, off) => (segment_id <? seg) || ((seg =? segment_id) && (offset <=? off))
  | None => false
  end.

Record CommitLogMetrics := mkCommitLogMetrics {
  bytes_written : Z;
  entries_written : Z;
  segments_rotated : Z;
  segments_recycled : Z;
  replay_mutations : Z;
  replay_corrupt_entries : Z;
  cdc_entries_written : Z;
}.

Record CommitLog := mkCommitLog {
  cl_fs : Fs;
  current_segment : Segment;
  next_segment_id : Z;
  truncation_points : TruncationPoints;
  recycle_pool : list string;
  cdc_current_segment_mirrored : bool;
  cl_metrics : CommitLogMetrics;
}.

Definition set_fs (fs : Fs) (s : CommitLog) : CommitLog :=
  mkCommitLog fs (current_segment s) (next_segment_id s) (truncation_points s) (recycle_pool s)
    (cdc_current_segment_mirrored s) (cl_metrics s).
Definition set_segment (st : Segment * Fs) (s : CommitLog) : CommitLog :=
  mkCommitLog st.2 st.1 (next_segment_id s) (truncation_points s) (recycle_pool s)
    (cdc_current_segment_mirrored s) (cl_metrics s).
Definition set_mirrored (b : bool) (s : CommitLog) : CommitLog :=
  mkCommitLog (cl_fs s) (current_segment s) (next_segment_id s) (truncation_points s) (recycle_pool s) b (cl_metrics s).
Definition set_pool (pool : list string) (s : CommitLog) : CommitLog :=
  mkCommitLog (cl_fs s) (current_segment s) (next_segment_id s) (truncation_points s) pool
    (cdc_current_segment_mirrored s) (cl_metrics s).
Definition set_next_id (id : Z) (s : CommitLog) : CommitLog :=
  mkCommitLog (cl_fs s) (current_segment s) id (truncation_points s) (recycle_pool s)
    (cdc_current_segment_mirrored s) (cl_metrics s).
Definition set_truncation (t : TruncationPoints) (s : CommitLog) : CommitLog :=
  mkCommitLog (cl_fs s) (current_segment s) (next_segment_id s) t (recycle_pool s)
    (cdc_current_segment_mirrored s) (cl_metrics s).
Definition set_metrics (m : CommitLogMetrics) (s : CommitLog) : CommitLog :=
  mkCommitLog (cl_fs s) (current_segment s) (next_segment_id s) (truncation_points s) (recycle_pool s)
    (cdc_current_segment_mirrored s) m.

(** Methods that can fail: what was done before the error stays done. *)
Definition LogM (A : Type) : Type := CommitLog -> (CommitLogError + A) * CommitLog.
#[export] Instance LogM_ret : MRet LogM := fun A a s => (inr a, s).
#[export] Instance LogM_bind : MBind LogM := fun A B f m s =>
  match m s with (inl e, s) => (inl e, s) | (inr a, s) => f a s end.
Definition log_get : LogM CommitLog := fun s => (inr s, s).
Definition log_modify (f : CommitLog -> CommitLog) : LogM unit := fun s => (inr (), f s).
Definition log_fail {A} (e : CommitLogError) : LogM A := fun s => (inl e, s).
Definition log_when (b : bool) (m : LogM unit) : LogM unit := if b then m else mret ().

(** [writeln!] of the sidecar (cdc.rs). *)
Definition newline : Ascii.ascii := Ascii.ascii_of_nat 10.
Definition cdc_index_text (durable_offset : Z) (completed : bool) : str :=
  show (Z.to_nat durable_offset) ++ [newline] ++ if completed then lit "COMPLETED" ++ [newline] else [].
Definition cdc_index_name (name : string) : string := String.append name "_cdc.idx".
Definition write_cdc_index (name : string) (durable_offset : Z) (completed : bool) (fs : Fs) : Fs :=
  let '(i, fs) := fs_open_truncate fs_cdc fs_set_cdc (cdc_index_name name) fs in
  fs_sync i (fs_append i (byte_of <$> cdc_index_text durable_offset completed) fs).

Definition list_segment_files (dir : ordmap string Z) : list (string * Z) :=
  List.filter (fun e => is_segment_name e.1) (entries dir).
Definition file_len (fs : Fs) (i : Z) : Z :=
  match fs_inodes fs !! i with Some f => Z.of_nat (length (f_data f)) | None => 0 end.
Definition dir_size (fs : Fs) (dir : ordmap string Z) : Z := foldr Z.add 0 (file_len fs <$> values dir).
Definition file_content (fs : Fs) (i : Z) : list Z := from_option f_data [] (fs_inodes fs !! i).

(** [fs::copy] of the archived segments that the directory does not have. *)
Definition restore_archived_segments (archiving : ArchivingConfig) (fs : Fs) : Fs :=
  if restore_on_replay archiving && archive_directory archiving then
    foldl (fun fs e =>
      if is_segment_name e.1 then
        match fs_log fs !! e.1 with
        | Some _ => fs
        | None => let '(i, fs) := fs_open_truncate fs_log fs_set_log e.1 fs in fs_append i e.2 fs
        end
      else fs) fs (entries (fs_archive fs))
  else fs.

Record ReplayResult := mkReplayResult {
  rr_mutations : list Mutation;
  rr_replayed_segments : Z;
  rr_corrupt_entries : Z;
}.

Section Log.
Context (compress_prepend_size : list Z -> list Z) (decompress_size_prepended : list Z -> option (list Z))
  (crc32 : list Z -> Z) (to_vec : Mutation -> option (list Z)) (from_slice : list Z -> option Mutation)
  (config : CommitLogConfig).

Definition CommitLog_encryption_enabled : bool :=
  match encryptor config with Some e => is_enabled e | None => false end.
Definition log_flags : SegmentFlags := mkSegmentFlags (compression_enabled config) CommitLog_encryption_enabled.
(** The codec chosen by [append_payload] and [read_segment_payloads]. *)
Definition log_codec : EncryptedSegmentWriter :=
  match encryptor config with
  | Some e => if is_enabled e then EncryptingSegmentWriter e else PlainSegmentWriter
  | None => PlainSegmentWriter
  end.

Definition CommitLog_projected_entry_size (payload : list Z) (segment_flags : SegmentFlags) : LogM Z :=
  let actual_payload := (compress_payload compress_prepend_size segment_flags payload).1 in
  let size p := wrap_u 64 (4 + 1 + 4 + Z.of_nat (length p)) in
  match encryptor config with
  | Some e =>
      if is_enabled e then
        match encode_block (EncryptingSegmentWriter e) actual_payload with
        | Some p => mret (size p)
        | None => log_fail Serialization
        end
      else mret (size actual_payload)
  | None => mret (size actual_payload)
  end.

Definition CommitLog_ensure_cdc_space_budget (current : Segment) (projected_entry_size : Z) (already_mirrored : bool) :
    LogM unit :=
  self ← log_get;
  let used := dir_size (cl_fs self) (fs_cdc (cl_fs self)) in
  let projected := if already_mirrored then used + projected_entry_size
                   else used + seg_size current + projected_entry_size in
  if size_limit (cdc config) <? projected then log_fail (CdcSpaceLimitExceeded used (size_limit (cdc config)))
  else mret ().

Definition CommitLog_update_cdc_sidecar (segment : Segment) (completed : bool) : LogM unit :=
  self ← log_get;
  let fs := cl_fs self in
  let name := seg_path segment in
  _ ← match fs_cdc fs !! name with
      | Some _ => mret ()
      | None =>
          match fs_log fs !! name with
          | Some i => log_modify (set_fs (fs_set_cdc (<[name := i]> (fs_cdc fs)) fs))
          | None => log_fail IoFailed
          end
      end;
  log_modify (fun self => set_fs (write_cdc_index name (seg_size segment) completed (cl_fs self)) self).

Definition CommitLog_archive_segment (segment : Segment) : LogM unit :=
  log_modify (fun self =>
    let fs := cl_fs self in
    if archive_directory (archiving config) then
      match fs_log fs !! seg_path segment with
      | Some i => set_fs (fs_set_archive (<[seg_path segment := file_content fs i]> (fs_archive fs)) fs) self
      | None => self
      end
    else self).

Definition count_recycled (m : CommitLogMetrics) : CommitLogMetrics :=
  mkCommitLogMetrics (bytes_written m) (entries_written m) (segments_rotated m) (wrap_u 64 (segments_recycled m + 1))
    (replay_mutations m) (replay_corrupt_entries m) (cdc_entries_written m).
Definition count_rotated (m : CommitLogMetrics) : CommitLogMetrics :=
  mkCommitLogMetrics (bytes_written m) (entries_written m) (wrap_u 64 (segments_rotated m + 1)) (segments_recycled m)
    (replay_mutations m) (replay_corrupt_entries m) (cdc_entries_written m).
Definition count_append (len : Z) (tracked : bool) (m : CommitLogMetrics) : CommitLogMetrics :=
  mkCommitLogMetrics (wrap_u 64 (bytes_written m + len)) (wrap_u 64 (entries_written m + 1)) (segments_rotated m)
    (segments_recycled m) (replay_mutations m) (replay_corrupt_entries m)
    (if tracked then wrap_u 64 (cdc_entries_written m + 1) else cdc_entries_written m).

(** The pool is a stack; a file that cannot be recycled is removed. *)
Definition CommitLog_create_or_recycle_segment (new_id : Z) : LogM Segment := fun self =>
  let create (self : CommitLog) : (CommitLogError + Segment) * CommitLog :=
    let '(seg, fs) := Segment_create_with_flags new_id log_flags (cl_fs self) in (inr seg, set_fs fs self) in
  match last (recycle_pool self) with
  | Some path =>
      let self := set_pool (removelast (recycle_pool self)) self in
      match Segment_recycle path new_id log_flags (cl_fs self) with
      | Some (seg, fs) => (inr seg, set_metrics (count_recycled (cl_metrics self)) (set_fs fs self))
      | None => create (set_fs (fs_set_log (delete path (fs_log (cl_fs self))) (cl_fs self)) self)
      end
  | None => create self
  end.

Definition CommitLog_sync_segment : LogM unit :=
  log_modify (fun self => set_segment (Segment_sync (current_segment self) (cl_fs self)) self).

Definition CommitLog_rotate : LogM unit :=
  _ ← CommitLog_sync_segment;
  self ← log_get;
  _ ← log_when (cdc_current_segment_mirrored self) (CommitLog_update_cdc_sidecar (current_segment self) true);
  _ ← CommitLog_archive_segment (current_segment self);
  self ← log_get;
  let new_id := next_segment_id self in
  _ ← log_modify (set_next_id (wrap_u 64 (new_id + 1)));
  new_seg ← CommitLog_create_or_recycle_segment new_id;
  log_modify (fun self =>
    set_metrics (count_rotated (cl_metrics self)) (set_mirrored false (set_segment (new_seg, cl_fs self) self))).

Definition CommitLog_append_payload (payload : list Z) : LogM Z := fun self =>
  let '(r, st) := Segment_append_entry_with_codec compress_prepend_size crc32 (current_segment self) payload log_codec
                    (cl_fs self) in
  (r, set_segment st self).

Definition CommitLog_append (mutation : Mutation) : LogM (Z * Z) :=
  match to_vec mutation with
  | None => log_fail Serialization
  | Some payload =>
      let len := Z.of_nat (length payload) in
      let should_track_cdc := mu_cdc_enabled mutation && cdc_on (cdc config) in
      self ← log_get;
      _ ← log_when (max_segment_size config <? seg_size (current_segment self) + len + 12) CommitLog_rotate;
      self ← log_get;
      _ ← log_when should_track_cdc
            (projected_entry_size ← CommitLog_projected_entry_size payload (seg_flags (current_segment self));
             CommitLog_ensure_cdc_space_budget (current_segment self) projected_entry_size
               (cdc_current_segment_mirrored self));
      offset ← CommitLog_append_payload payload;
      self ← log_get;
      let seg_id := seg_id (current_segment self) in
      _ ← log_when (bool_decide (sync_policy config = Batch)) CommitLog_sync_segment;
      self ← log_get;
      _ ← log_when should_track_cdc
            (_ ← CommitLog_update_cdc_sidecar (current_segment self) false; log_modify (set_mirrored true));
      _ ← log_modify (fun self => set_metrics (count_append len should_track_cdc (cl_metrics self)) self);
      mret (seg_id, offset)
  end.

Definition CommitLog_sync : LogM unit :=
  _ ← CommitLog_sync_segment;
  self ← log_get;
  log_when (cdc_on (cdc config) && cdc_current_segment_mirrored self)
    (CommitLog_update_cdc_sidecar (current_segment self) false).

Definition CommitLog_mark_cf_flushed (cf_name : string) (segment_id offset : Z) (self : CommitLog) : CommitLog :=
  set_truncation (TruncationPoints_mark_flushed (truncation_points self) cf_name segment_id offset) self.

Definition CommitLog_try_recycle_segment (path : string) (self : CommitLog) : bool * CommitLog :=
  if (length (recycle_pool self) <? recycle_pool_size config)%nat
  then (true, set_pool (recycle_pool self ++ [path]) self) else (false, self).
Definition CommitLog_discard_file (up_to_segment_id : Z) (self : CommitLog) (e : string * Z) : CommitLog :=
  match parse_segment_filename e.1 with
  | Some id =>
      if (id <=? up_to_segment_id) && negb (id =? seg_id (current_segment self)) then
        let '(recycled, self) := CommitLog_try_recycle_segment e.1 self in
        if recycled then self else set_fs (fs_set_log (delete e.1 (fs_log (cl_fs self))) (cl_fs self)) self
      else self
  | None => self
  end.
Definition CommitLog_discard_completed_segments (up_to_segment_id : Z) (self : CommitLog) : CommitLog :=
  foldl (CommitLog_discard_file up_to_segment_id) self (list_segment_files (fs_log (cl_fs self))).

(** [open]: a fresh segment above every identifier found. *)
Definition CommitLog_open (fs : Fs) : CommitLog :=
  let fs := restore_archived_segments (archiving config) fs in
  let max_id := foldl (fun m name => match parse_segment_filename name with Some id => m `max` id | None => m end) 0
                  (keys (fs_log fs)) in
  let next_id := wrap_u 64 (max_id + 1) in
  let '(segment, fs) := Segment_create_with_flags next_id log_flags fs in
  mkCommitLog fs segment (wrap_u 64 (next_id + 1)) ∅ [] false (mkCommitLogMetrics 0 0 0 0 0 0 0).

(** The entries of one segment: mutations found and entries lost. *)
Fixpoint replay_entries (policy : CorruptionPolicy) (l : list (CommitLogError + list Z)) : list Mutation * Z :=
  match l with
  | [] => ([], 0)
  | inr payload :: l =>
      let '(ms, corrupt) := replay_entries policy l in
      match from_slice payload with Some m => (m :: ms, corrupt) | None => (ms, corrupt + 1) end
  | inl _ :: l =>
      match policy with
      | StopOnCorrupt => ([], 1)
      | SkipAndContinue => let '(ms, corrupt) := replay_entries policy l in (ms, corrupt + 1)
      end
  end.
Definition replay_segment (policy : CorruptionPolicy) (result : ReplayResult) (path : string) (content : list Z) :
    ReplayResult :=
  match Segment_open_for_read path content with
  | inl _ => result
  | inr seg =>
      let '(ms, corrupt) :=
        replay_entries policy (read_entries_with_codec decompress_size_prepended crc32 seg policy log_codec content) in
      mkReplayResult (rr_mutations result ++ ms) (rr_replayed_segments result + 1) (rr_corrupt_entries result + corrupt)
  end.
(** The listing is sorted by name, as a directory here is. *)
Definition replay_fs (policy : CorruptionPolicy) (fs : Fs) : ReplayResult :=
  foldl (fun result e => replay_segment policy result e.1 (file_content fs e.2)) (mkReplayResult [] 0 0)
    (list_segment_files (fs_log fs)).
Definition CommitLog_replay_with_policy (policy : CorruptionPolicy) (self : CommitLog) : ReplayResult * CommitLog :=
  let fs := restore_archived_segments (archiving config) (cl_fs self) in
  let result := replay_fs policy fs in
  let m := cl_metrics self in
  (result, set_metrics (mkCommitLogMetrics (bytes_written m) (entries_written m) (segments_rotated m) (segments_recycled m)
             (Z.of_nat (length (rr_mutations result))) (rr_corrupt_entries result) (cdc_entries_written m)) (set_fs fs self)).
End Log.

(** * Names *)

Lemma strip_prefix_app (p s : str) : strip_prefix p (p ++ s) = Some s.
Proof. induction p as [|c p IH]; [done|]. simpl. by rewrite decide_True. Qed.
Lemma strip_suffix_app (p s : str) : strip_suffix_str p (s ++ p) = Some s.
Proof. unfold strip_suffix_str. rewrite rev_app_distr, strip_prefix_app. simpl. by rewrite rev_involutive. Qed.

Lemma parse_filename id : is_u64 id -> parse_segment_filename (segment_filename id) = Some id.
Proof.
  intros Hid. unfold parse_segment_filename, segment_filename.
  rewrite String.list_ascii_of_string_of_list_ascii, strip_prefix_app. cbn [mbind option_bind].
  rewrite strip_suffix_app. cbn [mbind option_bind]. unfold parse_u64. unfold in_u in Hid.
  rewrite parse_unsigned_show; unfold u64_MAX; [f_equal|]; lia.
Qed.
Lemma filename_inj id id' : is_u64 id -> is_u64 id' -> segment_filename id = segment_filename id' -> id = id'.
Proof. intros H H' E. apply (f_equal parse_segment_filename) in E. rewrite !parse_filename in E by done. congruence. Qed.
Lemma filename_is_segment id : is_segment_name (segment_filename id) = true.
Proof.
  unfold is_segment_name, segment_filename. rewrite String.list_ascii_of_string_of_list_ascii, strip_prefix_app.
  by rewrite app_assoc, strip_suffix_app.
Qed.
Lemma filename_not_index id name : segment_filename id <> cdc_index_name name.
Proof.
  intros E. apply (f_equal (fun s => hd newline (rev (String.list_ascii_of_string s)))) in E. revert E.
  unfold segment_filename, cdc_index_name. rewrite String.list_ascii_of_string_of_list_ascii, app_assoc, rev_app_distr.
  assert (Ha : forall s t, String.list_ascii_of_string (String.append s t)
    = String.list_ascii_of_string s ++ String.list_ascii_of_string t)
    by (intros s t; induction s as [|c s IH]; [done|]; simpl; by rewrite IH).
  rewrite Ha, (rev_app_distr (String.list_ascii_of_string name)). done.
Qed.

(** * Files under writes *)

Lemma fs_append_nil i fs : fs_append i [] fs = fs.
Proof.
  unfold fs_append. destruct fs as [inodes n l c a]; simpl. destruct (inodes !! i) as [[d s]|] eqn:E; [|done].
  unfold fs_set_inode; simpl. rewrite app_nil_r, insert_id; [done|exact E].
Qed.
Lemma fs_append_app i x y fs : fs_append i y (fs_append i x fs) = fs_append i (x ++ y) fs.
Proof.
  unfold fs_append at 2 3. destruct (fs_inodes fs !! i) as [f|] eqn:E.
  - unfold fs_append, fs_set_inode; simpl. rewrite lookup_insert_eq; simpl. rewrite insert_insert_eq, app_assoc. done.
  - unfold fs_append. by rewrite E.
Qed.

(** Whatever the buffer does, what reached the file and what it still holds are
    the bytes written so far. *)
Lemma buf_write_spec i data buf fs :
  exists x buf', buf_write i data (buf, fs) = (buf', fs_append i x fs) /\ x ++ buf' = buf ++ data.
Proof.
  unfold buf_write. destruct (Nat.ltb_spec (BUFFER_CAPACITY - length buf) (length data)) as [Hf|Hf],
    (Nat.leb_spec BUFFER_CAPACITY (length data)) as [Hd|Hd].
  - exists (buf ++ data), []. by rewrite fs_append_app, app_nil_r.
  - exists buf, data. done.
  - exists data, buf. split; [done|].
    assert (length buf = 0%nat) as ->%nil_length_inv by (unfold BUFFER_CAPACITY in *; lia). by rewrite app_nil_r.
  - exists [], (buf ++ data). by rewrite fs_append_nil.
Qed.

Ltac buf_step x b E :=
  match goal with
  | |- context [buf_write ?i ?d (?b0, ?fs0)] =>
      let H := fresh in destruct (buf_write_spec i d b0 fs0) as (x & b & H & E); rewrite H; clear H; cbn [fst snd]
  end.

Lemma write_header_spec i id flags fs :
  write_header i id flags ([], fs) = ([], fs_append i (segment_header id flags) fs).
Proof.
  unfold write_header.
  buf_step x1 b1 E1. buf_step x2 b2 E2. buf_step x3 b3 E3. buf_step x4 b4 E4. buf_step x5 b5 E5.
  unfold buf_flush; cbn [fst snd]. rewrite !fs_append_app. do 2 f_equal.
  by rewrite E5, (app_assoc x4), E4, <- app_assoc, (app_assoc x3), E3, <- app_assoc, (app_assoc x2), E2,
    <- app_assoc, (app_assoc x1), E1.
Qed.

(** * Reading what was appended *)

(** What the log relies on outside: decompression and decryption invert, a
    checksum has 32 bits, and a mutation is read back from its JSON form. *)
Class LogLaws (compress_prepend_size : list Z -> list Z) (decompress_size_prepended : list Z -> option (list Z))
    (crc32 : list Z -> Z) (to_vec : Mutation -> option (list Z)) (from_slice : list Z -> option Mutation)
    (config : CommitLogConfig) : Prop := {
  lz4_inv p : decompress_size_prepended (compress_prepend_size p) = Some p;
  crc32_range p : in_u 32 (crc32 p);
  json_inv m p : to_vec m = Some p -> from_slice p = Some m;
  cipher_inv e p c : encryptor config = Some e -> encrypt_segment e p = Some c -> decrypt_segment e c = Some p;
}.

Section Reading.
Context (compress_prepend_size : list Z -> list Z) (decompress_size_prepended : list Z -> option (list Z))
  (crc32 : list Z -> Z) (to_vec : Mutation -> option (list Z)) (from_slice : list Z -> option Mutation)
  (config : CommitLogConfig)
  `{!LogLaws compress_prepend_size decompress_size_prepended crc32 to_vec from_slice config}.
Abbreviation codec := (log_codec config).
Abbreviation flags := (log_flags config).
Abbreviation encode := (encode_payload compress_prepend_size flags codec).
Abbreviation read := (read_entries decompress_size_prepended crc32).

Definition entry_bytes (p : list Z * Z) : list Z :=
  write_be 4 (wrap_u 32 (Z.of_nat (length p.1))) ++ [p.2] ++ write_be 4 (crc32 p.1) ++ p.1.

Lemma log_codec_inv p c : encode_block codec p = Some c -> decode_block codec c = Some p.
Proof.
  unfold log_codec. destruct (encryptor config) as [e|] eqn:E; [|by intros [= <-]].
  destruct (is_enabled e); [by apply cipher_inv|by intros [= <-]].
Qed.

Lemma encode_decode payload p fl :
  encode payload = Some (p, fl) ->
  in_u 8 fl /\
  exists q, (if negb (Z.land fl ENTRY_FLAG_ENCRYPTED =? 0) then decode_block codec p else Some p) = Some q /\
    (if negb (Z.land fl ENTRY_FLAG_COMPRESSED =? 0) then decompress_size_prepended q else Some q) = Some payload.
Proof.
  unfold encode_payload, compress_payload.
  assert (Hc : forall q c, (c = 0 /\ q = payload) \/ (c = ENTRY_FLAG_COMPRESSED /\ q = compress_prepend_size payload) ->
    (if is_encrypted codec then q' ← encode_block codec q; Some (q', Z.lor c ENTRY_FLAG_ENCRYPTED) else Some (q, c))
    = Some (p, fl) ->
    in_u 8 fl /\
    exists q, (if negb (Z.land fl ENTRY_FLAG_ENCRYPTED =? 0) then decode_block codec p else Some p) = Some q /\
      (if negb (Z.land fl ENTRY_FLAG_COMPRESSED =? 0) then decompress_size_prepended q else Some q) = Some payload).
  { intros q c Hq. destruct (is_encrypted codec).
    - destruct (encode_block codec q) as [q'|] eqn:E; [|done]. cbn [mbind option_bind]. intros [= <- <-].
      apply log_codec_inv in E. destruct Hq as [[-> ->]|[-> ->]]; (split; [by unfold in_u|]); eexists; (split; [exact E|]);
        [done|apply lz4_inv].
    - intros [= <- <-]. destruct Hq as [[-> ->]|[-> ->]]; (split; [by unfold in_u|]); eexists; (split; [done|]);
        [done|apply lz4_inv]. }
  destruct (_ && _); [destruct (_ <? _)%nat|]; apply Hc; auto.
Qed.

Lemma read_one fuel seg policy max start payload p rest :
  seg_version seg = VERSION_2 -> encode payload = Some p -> in_u 32 (Z.of_nat (length p.1)) ->
  start + 9 + Z.of_nat (length p.1) <= max ->
  read (S fuel) seg policy codec max start (entry_bytes p ++ rest)
  = inr payload :: read fuel seg policy codec max (start + 9 + Z.of_nat (length p.1)) rest.
Proof.
  intros Hv Hp Hl Hmax. destruct p as [p fl]; cbn [fst snd] in *. destruct (encode_decode _ _ _ Hp) as (Hfl & q & Hq & Hpay).
  assert (H4 : io_u 4 (entry_bytes (p, fl) ++ rest)
    = inr (Z.of_nat (length p), ([fl] ++ write_be 4 (crc32 p) ++ p) ++ rest)).
  { unfold entry_bytes. cbn [fst snd]. rewrite wrap_u_id by done. rewrite <- app_assoc. by apply (parses_u 4). }
  revert H4. generalize (entry_bytes (p, fl) ++ rest). intros input H4. cbn [read_entries].
  rewrite H4.
  rewrite Hv. change (VERSION_2 <=? VERSION_2) with true. cbv iota.
  rewrite (proj2 (Z.ltb_ge _ _)) by lia.
  assert (Hpr : parses (flags ← io_u 1; crc ← io_u 4; raw ← io_exact (Z.to_nat (Z.of_nat (length p))); mret (flags, crc, raw))
    (fl, crc32 p, p) ([fl] ++ write_be 4 (crc32 p) ++ p)).
  { eapply parses_bind; [by apply parses_byte|]. eapply parses_bind; [apply parses_u, crc32_range|].
    apply (parses_map _ (pair (fl, crc32 p))), parses_exact. lia. }
  rewrite Hpr. cbv zeta. rewrite Z.eqb_refl. cbn [negb]. rewrite Hq, Hpay. done.
Qed.

Lemma length_entry p : length (entry_bytes p) = (9 + length p.1)%nat.
Proof. unfold entry_bytes. rewrite !length_app, !length_write_be. simpl. lia. Qed.

Lemma read_many seg policy max payloads ps rest fuel start :
  seg_version seg = VERSION_2 -> Forall2 (fun payload p => encode payload = Some p /\ in_u 32 (Z.of_nat (length p.1))) payloads ps ->
  start + Z.of_nat (length (mjoin (entry_bytes <$> ps))) <= max ->
  (length (mjoin (entry_bytes <$> ps)) <= fuel)%nat ->
  exists fuel', (fuel <= fuel' + length (mjoin (entry_bytes <$> ps)))%nat /\
  read fuel seg policy codec max start (mjoin (entry_bytes <$> ps) ++ rest)
  = (inr <$> payloads) ++ read fuel' seg policy codec max (start + Z.of_nat (length (mjoin (entry_bytes <$> ps)))) rest.
Proof.
  intros Hv Hps. revert fuel start. induction Hps as [|payload p payloads ps [Hp Hl] _ IH]; intros fuel start Hmax Hf.
  - exists fuel. simpl. rewrite Z.add_0_r. split; [lia|done].
  - rewrite fmap_cons, mjoin_cons in Hmax, Hf |- *. rewrite length_app, length_entry in Hmax, Hf.
    destruct fuel as [|fuel]; [lia|]. rewrite <- app_assoc, (read_one _ _ _ _ _ payload) by (done || lia).
    destruct (IH fuel (start + 9 + Z.of_nat (length p.1))) as (fuel' & Hf' & ->); [lia|lia|].
    exists fuel'. rewrite length_app, length_entry. split; [lia|]. rewrite fmap_cons. simpl. do 3 f_equal. lia.
Qed.

(** ** One segment *)

Definition logged (m : Mutation) (p : list Z * Z) : Prop :=
  exists payload, to_vec m = Some payload /\ encode payload = Some p /\ in_u 32 (Z.of_nat (length p.1)).
Definition segment_bytes (id : Z) (ps : list (list Z * Z)) : list Z :=
  segment_header id flags ++ mjoin (entry_bytes <$> ps).

Lemma length_header id fl : length (segment_header id fl) = 16%nat.
Proof. done. Qed.
Lemma flags_byte fl : SegmentFlags_from_byte (SegmentFlags_to_byte fl) = fl /\ in_u 8 (SegmentFlags_to_byte fl).
Proof. destruct fl as [[] []]; by split. Qed.

Lemma open_header path id fl rest :
  is_u64 id ->
  Segment_open_for_read path (segment_header id fl ++ rest)
  = inr (mkSegment id path None (Z.of_nat (length (segment_header id fl ++ rest))) fl VERSION_2).
Proof.
  intros Hid. unfold Segment_open_for_read. generalize (length (segment_header id fl ++ rest)). intros n.
  assert (Hp : parses read_header (Some (VERSION_2, id, fl)) (segment_header id fl)); [|by rewrite Hp].
  unfold read_header, segment_header. destruct (flags_byte fl) as [Hf Hb].
  eapply parses_bind; [by apply parses_exact|]. rewrite bool_decide_eq_true_2 by done.
  eapply parses_bind; [by apply parses_byte|]. cbv beta.
  change (negb (VERSION_2 =? VERSION_1) && negb (VERSION_2 =? VERSION_2)) with false. cbv iota.
  eapply parses_bind; [by apply parses_u|]. change (VERSION_2 <=? VERSION_2) with true. cbv iota.
  eapply parses_bind; [by apply parses_byte|]. rewrite <- (app_nil_r [0; 0]).
  eapply parses_bind; [by apply parses_exact|]. rewrite Hf. apply parses_ret.
Qed.

Lemma replay_entries_good policy (ms : list Mutation) payloads l :
  Forall2 (fun m payload => to_vec m = Some payload) ms payloads ->
  replay_entries from_slice policy ((inr <$> payloads) ++ l)
  = let '(ms', c) := replay_entries from_slice policy l in (ms ++ ms', c).
Proof.
  induction 1 as [|m payload ms payloads Hm _ IH]; [simpl; by destruct (replay_entries from_slice policy l)|].
  rewrite fmap_cons. cbn [app replay_entries]. rewrite IH. destruct (replay_entries from_slice policy l) as [ms' c].
  by rewrite (json_inv m payload) by done.
Qed.

Lemma logged_payloads ms ps :
  Forall2 logged ms ps ->
  exists payloads, Forall2 (fun m payload => to_vec m = Some payload) ms payloads /\
    Forall2 (fun payload p => encode payload = Some p /\ in_u 32 (Z.of_nat (length p.1))) payloads ps.
Proof.
  induction 1 as [|m p ms ps (payload & Hm & Hp) _ (payloads & H1 & H2)]; [by exists []|].
  exists (payload :: payloads). by split; constructor.
Qed.

Lemma replay_segment_bytes policy result path id ms ps tail :
  is_u64 id -> Forall2 logged ms ps ->
  exists extra lost,
    replay_segment decompress_size_prepended crc32 from_slice config policy result path (segment_bytes id ps ++ tail)
    = mkReplayResult (rr_mutations result ++ ms ++ extra) (rr_replayed_segments result + 1) (rr_corrupt_entries result + lost)
    /\ (tail = [] -> extra = [] /\ lost = 0).
Proof.
  intros Hid (payloads & Hm & Hp)%logged_payloads. unfold replay_segment, segment_bytes. rewrite <- app_assoc.
  rewrite open_header by done. unfold read_entries_with_codec, read_entries_with_codec_up_to. cbn [seg_size].
  rewrite drop_app_length' by done. rewrite (length_app (segment_header id flags)), length_header.
  set (seg := mkSegment _ _ _ _ _ _).
  destruct (read_many seg policy (Z.of_nat (16 + length (mjoin (entry_bytes <$> ps) ++ tail))) payloads ps tail
    (S (length (mjoin (entry_bytes <$> ps) ++ tail))) HEADER_SIZE) as (fuel' & Hf & ->); [done|done|..].
  1,2: rewrite length_app; unfold HEADER_SIZE; lia.
  rewrite (replay_entries_good policy ms) by done.
  destruct (replay_entries from_slice policy (read fuel' _ _ _ _ _ tail)) as [extra lost] eqn:E.
  exists extra, lost. split; [done|]. intros ->. by destruct fuel'; injection E as <- <-.
Qed.
End Reading.
