(* ===== verification/LogRecovery.v ===== *)
(** * Recovery from the commit log

    What the commit log of [CommitLog] keeps: an invariant relates its files to
    the mutations each segment was given, every operation preserves it and only
    adds to what is kept, and a replay after any number of crashes returns what
    was durable. *)
From S2P Require Export CommitLog.

#[local] Arguments segment_filename : simpl never.
#[local] Arguments cdc_index_name : simpl never.
#[local] Arguments segment_header : simpl never.
#[local] Arguments parse_segment_filename : simpl never.

(** * What the log keeps *)

Record fs_wf (fs : Fs) : Prop := {
  fw_log : forall n i, fs_log fs !! n = Some i -> is_Some (fs_inodes fs !! i);
  fw_cdc : forall n i, fs_cdc fs !! n = Some i -> is_Some (fs_inodes fs !! i);
  fw_next : forall i, is_Some (fs_inodes fs !! i) -> i < fs_next fs;
  fw_inj : forall n n' i, fs_log fs !! n = Some i -> fs_log fs !! n' = Some i -> n = n';
  fw_index : forall n n' i, fs_cdc fs !! cdc_index_name n = Some i -> fs_log fs !! n' <> Some i;
}.

Lemma inodes_append i x fs j :
  fs_inodes (fs_append i x fs) !! j
  = if decide (i = j) then (fun f => mkFile (f_data f ++ x) (f_synced f)) <$> fs_inodes fs !! j else fs_inodes fs !! j.
Proof.
  unfold fs_append. destruct (fs_inodes fs !! i) as [f|] eqn:E; simpl.
  - destruct (decide (i = j)) as [<-|Hne]; [by rewrite lookup_insert_eq, E|by rewrite lookup_insert_ne].
  - destruct (decide (i = j)) as [<-|Hne]; [by rewrite E|done].
Qed.
Lemma inodes_sync i fs j :
  fs_inodes (fs_sync i fs) !! j
  = if decide (i = j) then (fun f => mkFile (f_data f) (length (f_data f))) <$> fs_inodes fs !! j else fs_inodes fs !! j.
Proof.
  unfold fs_sync. destruct (fs_inodes fs !! i) as [f|] eqn:E; simpl.
  - destruct (decide (i = j)) as [<-|Hne]; [by rewrite lookup_insert_eq, E|by rewrite lookup_insert_ne].
  - destruct (decide (i = j)) as [<-|Hne]; [by rewrite E|done].
Qed.

(** The directories are those of [fs], and so are the files that exist. *)
Definition same_dirs (fs fs' : Fs) : Prop :=
  fs_log fs' = fs_log fs /\ fs_cdc fs' = fs_cdc fs /\ fs_next fs' = fs_next fs /\ fs_archive fs' = fs_archive fs
  /\ forall i, is_Some (fs_inodes fs' !! i) <-> is_Some (fs_inodes fs !! i).
Lemma same_dirs_wf fs fs' : same_dirs fs fs' -> fs_wf fs -> fs_wf fs'.
Proof.
  intros (Hl & Hc & Hn & _ & Hi) [H1 H2 H3 H4 H5]. split; rewrite ?Hl, ?Hc, ?Hn; try done.
  - intros n i H. by apply Hi, (H1 n).
  - intros n i H. by apply Hi, (H2 n).
  - intros i H. by apply H3, Hi.
Qed.
Lemma same_dirs_refl fs : same_dirs fs fs.
Proof. by repeat split. Qed.
Lemma same_dirs_trans fs1 fs2 fs3 : same_dirs fs1 fs2 -> same_dirs fs2 fs3 -> same_dirs fs1 fs3.
Proof. intros (H1 & H2 & H3 & H4 & H5) (H6 & H7 & H8 & H9 & H10). split_and!; [congruence..|]. intros i. by rewrite H10, H5. Qed.
Lemma same_dirs_append i x fs : same_dirs fs (fs_append i x fs).
Proof.
  split_and!; try by unfold fs_append; destruct (_ !! _).
  intros j. rewrite inodes_append. destruct (decide (i = j)) as [<-|]; [|done]. by rewrite fmap_is_Some.
Qed.
Lemma archive_append i x fs : fs_archive (fs_append i x fs) = fs_archive fs.
Proof. apply (same_dirs_append i x fs). Qed.
Lemma same_dirs_sync i fs : same_dirs fs (fs_sync i fs).
Proof.
  split_and!; try by unfold fs_sync; destruct (_ !! _).
  intros j. rewrite inodes_sync. destruct (decide (i = j)) as [<-|]; [|done]. by rewrite fmap_is_Some.
Qed.
Lemma same_dirs_truncate i fs f : is_Some (fs_inodes fs !! i) -> same_dirs fs (fs_set_inode i f fs).
Proof.
  intros Hi. split_and!; try done. intros j. simpl. destruct (decide (i = j)) as [<-|Hne].
  - by rewrite lookup_insert_eq.
  - by rewrite lookup_insert_ne.
Qed.

(** A new name for a new file. *)
Lemma alloc_log_wf name fs :
  fs_wf fs -> fs_log fs !! name = None -> fs_wf (fs_set_log (<[name := fs_next fs]> (fs_log fs)) (fs_alloc fs).2).
Proof.
  intros [H1 H2 H3 H4 H5] Hn. unfold fs_alloc; simpl.
  assert (Hne : forall n i, fs_log fs !! n = Some i -> i <> fs_next fs).
  { intros n i Hi ->. pose proof (H3 _ (H1 _ _ Hi)). lia. }
  assert (Hnc : forall n i, fs_cdc fs !! n = Some i -> i <> fs_next fs).
  { intros n i Hi ->. pose proof (H3 _ (H2 _ _ Hi)). lia. }
  split; simpl.
  - intros n i. rewrite lookup_insert. case_decide; simplify_eq; [by intros [= <-]; rewrite lookup_insert_eq|].
    intros Hi. rewrite lookup_insert_ne by (symmetry; by eapply Hne). by eapply H1.
  - intros n i Hi. rewrite lookup_insert_ne by (symmetry; by eapply Hnc). by eapply H2.
  - intros i. rewrite lookup_insert. case_decide; [lia|]. intros Hi. apply H3 in Hi. lia.
  - intros n n' i. rewrite !lookup_insert. repeat case_decide; simplify_eq; try done.
    + intros [= <-] Hi. by apply Hne in Hi.
    + intros Hi [= <-]. by apply Hne in Hi.
    + apply H4.
  - intros n n' i Hi. rewrite lookup_insert. case_decide; [intros [= <-]; by apply Hnc in Hi|by eapply H5].
Qed.
Lemma alloc_index_wf name fs :
  fs_wf fs -> fs_cdc fs !! cdc_index_name name = None ->
  fs_wf (fs_set_cdc (<[cdc_index_name name := fs_next fs]> (fs_cdc fs)) (fs_alloc fs).2).
Proof.
  intros [H1 H2 H3 H4 H5] Hn. unfold fs_alloc; simpl.
  assert (Hne : forall n i, fs_log fs !! n = Some i -> i <> fs_next fs).
  { intros n i Hi ->. pose proof (H3 _ (H1 _ _ Hi)). lia. }
  split; simpl.
  - intros n i Hi. rewrite lookup_insert_ne by (symmetry; by eapply Hne). by eapply H1.
  - intros n i. rewrite lookup_insert. case_decide; simplify_eq; [by intros [= <-]; rewrite lookup_insert_eq|].
    intros Hi. destruct (decide (fs_next fs = i)) as [<-|]; [by rewrite lookup_insert_eq|].
    rewrite lookup_insert_ne by done. by eapply H2.
  - intros i. rewrite lookup_insert. case_decide; [lia|]. intros Hi. apply H3 in Hi. lia.
  - done.
  - intros n n' i. rewrite lookup_insert. case_decide; [intros [= <-] Hi; by apply Hne in Hi|apply H5].
Qed.

Section Keeping.
Context (compress_prepend_size : list Z -> list Z) (decompress_size_prepended : list Z -> option (list Z))
  (crc32 : list Z -> Z) (to_vec : Mutation -> option (list Z)) (from_slice : list Z -> option Mutation)
  (config : CommitLogConfig)
  `{!LogLaws compress_prepend_size decompress_size_prepended crc32 to_vec from_slice config}.
Abbreviation logged := (logged compress_prepend_size to_vec config).
Abbreviation file_bytes := (segment_bytes crc32 config).

(** A segment file with the mutations [ms] safe and [us] after them. *)
Definition stored (id : Z) (ms : list Mutation) (data : list Z) : Prop :=
  exists ps, Forall2 logged ms ps /\ data = file_bytes id ps.
Definition durable (id : Z) (ms : list Mutation) (f : File) : Prop :=
  ms = [] \/ exists data, stored id ms data /\ data `prefix_of` take (f_synced f) (f_data f).
Definition seg_at (fs : Fs) (id i : Z) (buf : list Z) (ms us : list Mutation) : Prop :=
  fs_log fs !! segment_filename id = Some i /\
  exists f, fs_inodes fs !! i = Some f /\ stored id (ms ++ us) (f_data f ++ buf) /\ durable id ms f
    /\ (f_synced f <= length (f_data f))%nat.
(** An older segment: its safe mutations, whatever follows them. *)
Definition kept_at (fs : Fs) (id i : Z) (ms : list Mutation) : Prop :=
  fs_log fs !! segment_filename id = Some i /\
  exists f, fs_inodes fs !! i = Some f /\ durable id ms f /\ (f_synced f <= length (f_data f))%nat.

(** The mutations of each segment that was not discarded, and how many ids are left. *)
Abbreviation Kept := (gmap Z (list Mutation * list Mutation)).
Definition restoring : bool := restore_on_replay (archiving config) && archive_directory (archiving config).
Definition cur_id (self : CommitLog) : Z := seg_id (current_segment self).
Record log_inv (room : Z) (self : CommitLog) (G : Kept) : Prop := {
  li_fs : fs_wf (cl_fs self);
  li_ids : forall id, is_Some (G !! id) -> 0 <= id < next_segment_id self;
  li_room : next_segment_id self + room < 2 ^ 64;
  li_cur : is_Some (G !! cur_id self);
  li_seg : exists size, exists i buf, current_segment self
    = mkSegment (cur_id self) (segment_filename (cur_id self)) (Some (i, buf)) size (log_flags config) VERSION_2
    /\ forall ms us, G !! cur_id self = Some (ms, us) -> seg_at (cl_fs self) (cur_id self) i buf ms us;
  li_rest : forall id ms us, id <> cur_id self -> G !! id = Some (ms, us) -> exists i, kept_at (cl_fs self) id i ms;
  li_pool : forall path, path ∈ recycle_pool self ->
    (exists id, parse_segment_filename path = Some id /\ id < next_segment_id self)
    /\ forall id, is_Some (G !! id) -> path <> segment_filename id;
  li_dir : forall name i id, fs_log (cl_fs self) !! name = Some i -> parse_segment_filename name = Some id ->
    id < next_segment_id self;
  li_archive : restoring = true -> forall name id, is_Some (fs_archive (cl_fs self) !! name) ->
    parse_segment_filename name = Some id -> id < next_segment_id self;
  li_size : 0 <= seg_size (current_segment self);
}.

Lemma li_u64 room self G id : 0 <= room -> log_inv room self G -> is_Some (G !! id) -> is_u64 id.
Proof. intros Hr Hi Hid. pose proof (li_ids _ _ _ Hi id Hid). pose proof (li_room _ _ _ Hi). unfold in_u. lia. Qed.

Lemma seg_at_kept fs id i buf ms us : seg_at fs id i buf ms us -> kept_at fs id i ms.
Proof. intros (Hl & f & Hf & _ & H). split; eauto. Qed.
Lemma kept_at_frame fs fs' id i ms :
  kept_at fs id i ms -> fs_log fs' !! segment_filename id = Some i -> fs_inodes fs' !! i = fs_inodes fs !! i ->
  kept_at fs' id i ms.
Proof. intros (Hl & f & Hf & H) Hl' Hi. split; [done|]. exists f. by rewrite Hi. Qed.
Lemma seg_at_frame fs fs' id i buf ms us :
  seg_at fs id i buf ms us -> fs_log fs' !! segment_filename id = Some i -> fs_inodes fs' !! i = fs_inodes fs !! i ->
  seg_at fs' id i buf ms us.
Proof. intros (Hl & f & Hf & H) Hl' Hi. split; [done|]. exists f. by rewrite Hi. Qed.

(** A change of one file leaves the segments of the others. *)
Lemma kept_at_other fs fs' id i j ms :
  kept_at fs id i ms -> i <> j -> fs_log fs' = fs_log fs ->
  (forall k, j <> k -> fs_inodes fs' !! k = fs_inodes fs !! k) -> kept_at fs' id i ms.
Proof. intros H Hne Hl Hk. apply (kept_at_frame fs); [done| |by apply Hk]. rewrite Hl. apply H. Qed.

(** Segments of different identifiers are in different files. *)
Lemma kept_at_inode fs id id' i ms :
  fs_wf fs -> is_u64 id -> is_u64 id' -> id <> id' -> kept_at fs id i ms -> fs_log fs !! segment_filename id' <> Some i.
Proof.
  intros Hwf Hu Hu' Hne [Hl _] Hl'. apply Hne, filename_inj; [done..|]. by eapply fw_inj.
Qed.

Definition commit (self : CommitLog) (G : Kept) : Kept := alter (fun e => (e.1 ++ e.2, [])) (cur_id self) G.
#[local] Arguments commit : simpl never.

Lemma seg_at_sync fs id i buf ms us :
  seg_at fs id i buf ms us -> seg_at (fs_sync i (fs_append i buf fs)) id i [] (ms ++ us) [].
Proof.
  intros (Hl & f & Hf & Hs & Hd & Hlen). split.
  { by rewrite (proj1 (same_dirs_sync _ _)), (proj1 (same_dirs_append _ _ _)). }
  exists (mkFile (f_data f ++ buf) (length (f_data f ++ buf))). split_and!.
  - rewrite inodes_sync, decide_True, inodes_append, decide_True, Hf by done. done.
  - cbn [f_data]. rewrite !app_nil_r. done.
  - right. exists (f_data f ++ buf). split; [done|]. cbn [f_data f_synced]. by rewrite take_ge.
  - done.
Qed.

Lemma sync_dirs fs i x : same_dirs fs (fs_sync i (fs_append i x fs)).
Proof. eapply same_dirs_trans; [apply same_dirs_append|apply same_dirs_sync]. Qed.
Lemma sync_other fs i x k : i <> k -> fs_inodes (fs_sync i (fs_append i x fs)) !! k = fs_inodes fs !! k.
Proof. intros Hne. by rewrite inodes_sync, decide_False, inodes_append, decide_False. Qed.

Lemma commit_Some self G id ms us :
  commit self G !! id = Some (ms, us) ->
  exists ms' us', G !! id = Some (ms', us')
    /\ (id = cur_id self /\ ms = ms' ++ us' /\ us = [] \/ id <> cur_id self /\ ms = ms' /\ us = us').
Proof.
  unfold commit. rewrite lookup_alter. case_decide as Hd; [|by eauto 10].
  subst id. destruct (G !! cur_id self) as [[ms' us']|] eqn:E; [|done]. intros [= <- <-]. eauto 10.
Qed.
Lemma commit_is_Some self G id : is_Some (commit self G !! id) <-> is_Some (G !! id).
Proof. unfold commit. rewrite lookup_alter. case_decide; subst; [by rewrite fmap_is_Some|done]. Qed.

(** The parts of a log, its current segment taken apart. *)
Ltac open_inv self H :=
  destruct H as [Hfs Hids Hr Hcur (size & i & buf & Hseg & Hat) Hrest Hpool Hdir Harch Hsize];
  destruct self as [fs [id ? ? ? ? ?] next trunc pool mir met];
  unfold cur_id in *; cbn in *; injection Hseg as -> -> -> -> ->.

Lemma sync_segment_inv room self G :
  0 <= room -> log_inv room self G ->
  exists self', CommitLog_sync_segment self = (inr (), self') /\ log_inv room self' (commit self G)
    /\ cur_id self' = cur_id self /\ next_segment_id self' = next_segment_id self
    /\ (exists i, seg_writer (current_segment self') = Some (i, []))
    /\ seg_size (current_segment self') = seg_size (current_segment self).
Proof.
  intros Hroom Hi. pose proof (fun id => li_u64 _ _ _ id Hroom Hi) as Hu.
  open_inv self Hi. unfold CommitLog_sync_segment, log_modify, Segment_sync; cbn. eexists. split; [done|].
  split; [|by split_and!; eauto]. destruct Hcur as [[ms0 us0] E0]. pose proof (Hat ms0 us0 E0) as Hat0. split; cbn.
  - eapply same_dirs_wf; [apply sync_dirs|done].
  - intros id'. rewrite commit_is_Some. apply Hids.
  - done.
  - apply commit_is_Some. by exists (ms0, us0).
  - exists size, i, []. split; [done|]. intros ms us (ms' & us' & E & [(_ & -> & ->)|[Hne _]])%commit_Some; [|done].
    cbn in E. rewrite E0 in E. injection E as <- <-. by apply seg_at_sync.
  - intros id' ms us Hne (ms' & us' & E & [(-> & _ & _)|(_ & -> & ->)])%commit_Some; [done|].
    destruct (Hrest id' _ _ Hne E) as [j Hj]. exists j.
    apply (kept_at_other fs _ _ _ i); [done| |apply sync_dirs|apply sync_other].
    intros ->. apply (kept_at_inode _ _ id _ _ Hfs (Hu id' ltac:(eauto)) (Hu id ltac:(eauto)) Hne Hj), Hat0.
  - intros path Hp. destruct (Hpool path Hp) as [H1 H2]. split; [done|]. intros id'. rewrite commit_is_Some. apply H2.
  - rewrite (proj1 (sync_dirs _ _ _)). exact Hdir.
  - destruct (sync_dirs fs i buf) as (_ & _ & _ & -> & _). exact Harch.
  - done.
Qed.

(** Work outside the log directory and its files. *)
Definition log_untouched (fs fs' : Fs) : Prop :=
  fs_wf fs' /\ fs_log fs' = fs_log fs
  /\ (forall n i, fs_log fs !! n = Some i -> fs_inodes fs' !! i = fs_inodes fs !! i)
  /\ forall n, is_Some (fs_archive fs' !! n) -> is_Some (fs_archive fs !! n) \/ is_Some (fs_log fs !! n).

Lemma untouched_trans fs1 fs2 fs3 : log_untouched fs1 fs2 -> log_untouched fs2 fs3 -> log_untouched fs1 fs3.
Proof.
  intros (_ & H2 & H3 & H4) (H5 & H6 & H7 & H8). split_and!; [done|congruence| |].
  - intros n i Hi. rewrite (H7 n), (H3 n); [done|done|]. by rewrite H2.
  - intros n [H|H]%H8; [by apply H4|]. right. by rewrite <- H2.
Qed.
Lemma untouched_refl fs : fs_wf fs -> log_untouched fs fs.
Proof. intros H. split_and!; auto. Qed.

Lemma untouched_inv room self G fs' :
  log_inv room self G -> log_untouched (cl_fs self) fs' -> log_inv room (set_fs fs' self) G.
Proof.
  intros Hi (Hw & Hl & Hn & Ha). open_inv self Hi. split; cbn; try done.
  - exists size, i, buf. split; [done|]. intros ms us E. pose proof (Hat ms us E) as Hs.
    apply (seg_at_frame fs); [done|rewrite Hl; apply Hs|eapply Hn, Hs].
  - intros id' ms us Hne E. destruct (Hrest id' ms us Hne E) as [j Hj]. exists j.
    apply (kept_at_frame fs); [done|rewrite Hl; apply Hj|eapply Hn, Hj].
  - by rewrite Hl.
  - intros Hrs name id' [H|[j Hj]]%Ha; [by apply Harch|by eapply Hdir].
Qed.

Lemma index_untouched name off completed fs : fs_wf fs -> log_untouched fs (write_cdc_index name off completed fs).
Proof.
  intros Hwf. unfold write_cdc_index, fs_open_truncate. destruct (fs_cdc fs !! cdc_index_name name) as [j|] eqn:E.
  - assert (Hd : same_dirs fs (fs_sync j (fs_append j (byte_of <$> cdc_index_text off completed) (fs_set_inode j (mkFile [] 0) fs)))).
    { eapply same_dirs_trans; [|apply sync_dirs]. apply same_dirs_truncate. by eapply fw_cdc. }
    split_and!; [by eapply same_dirs_wf|apply Hd| |destruct Hd as (_ & _ & _ & -> & _); auto]. intros n i Hi.
    assert (j <> i) by by intros ->; eapply fw_index.
    rewrite sync_other by done. simpl. by rewrite lookup_insert_ne.
  - pose proof (alloc_index_wf name fs Hwf E) as Ha. unfold fs_alloc in *; simpl in *.
    match goal with |- log_untouched _ (fs_sync _ (fs_append _ ?x ?f)) => pose proof (sync_dirs f (fs_next fs) x) as Hd end.
    split_and!; [by eapply same_dirs_wf|apply Hd| |destruct Hd as (_ & _ & _ & -> & _); auto]. intros n i Hi.
    assert (fs_next fs <> i) by (intros <-; pose proof (fw_next _ Hwf _ (fw_log _ Hwf _ _ Hi)); lia).
    rewrite sync_other by done. simpl. by rewrite lookup_insert_ne.
Qed.

Lemma link_untouched id i fs :
  fs_wf fs -> fs_log fs !! segment_filename id = Some i ->
  log_untouched fs (fs_set_cdc (<[segment_filename id := i]> (fs_cdc fs)) fs).
Proof.
  intros [H1 H2 H3 H4 H5] Hl. split_and!; try done; [|auto]. split; try done; simpl.
  - intros n j. rewrite lookup_insert. case_decide; [intros [= <-]; by eapply H1|by apply H2].
  - intros n n' j. rewrite lookup_insert_ne by apply filename_not_index. apply H5.
Qed.

(** The same log after a side effect: only its files outside the log changed. *)
Definition beside (self self' : CommitLog) : Prop := exists fs, self' = set_fs fs self /\ log_untouched (cl_fs self) fs.
Lemma beside_inv room self self' G : beside self self' -> log_inv room self G -> log_inv room self' G.
Proof. intros (fs & -> & Hu) Hi. by apply untouched_inv. Qed.

Lemma sidecar_beside room self G completed :
  log_inv room self G -> beside self (CommitLog_update_cdc_sidecar (current_segment self) completed self).2.
Proof.
  intros Hi. pose proof (li_fs _ _ _ Hi) as Hwf. destruct (li_seg _ _ _ Hi) as (size & i & buf & Hseg & _).
  unfold CommitLog_update_cdc_sidecar, mbind, LogM_bind, log_get.
  assert (Hpath : seg_path (current_segment self) = segment_filename (cur_id self)) by by rewrite Hseg.
  rewrite Hpath. destruct (fs_cdc (cl_fs self) !! _) as [j|].
  - simpl. eexists. split; [done|]. by apply index_untouched.
  - destruct (fs_log (cl_fs self) !! _) as [j|] eqn:E; simpl.
    + eexists. split; [done|]. pose proof (link_untouched _ _ _ Hwf E) as Hu.
      eapply untouched_trans; [exact Hu|]. simpl. apply index_untouched, Hu.
    + exists (cl_fs self). split; [by destruct self|]. by apply untouched_refl.
Qed.

Lemma beside_refl self : fs_wf (cl_fs self) -> beside self self.
Proof. intros Hw. exists (cl_fs self). split; [by destruct self|by apply untouched_refl]. Qed.

Lemma archive_beside self segment : fs_wf (cl_fs self) -> beside self (CommitLog_archive_segment config segment self).2.
Proof.
  intros Hwf. unfold CommitLog_archive_segment, log_modify; simpl. destruct (archive_directory _); [|by apply beside_refl].
  destruct (fs_log (cl_fs self) !! _) as [j|] eqn:E; [|by apply beside_refl]. eexists. split; [done|]. split_and!; [|done|done|].
  - by destruct Hwf.
  - intros n. cbn [fs_archive fs_set_archive fs_log]. rewrite lookup_insert. case_decide; subst; [right; by eexists|auto].
Qed.

(** ** New segments *)

(** [seg] is a new empty segment; of the other names only [gone] may be changed. *)
Definition fresh_segment (id : Z) (gone : string -> Prop) (fs : Fs) (seg : Segment) (fs' : Fs) : Prop :=
  fs_wf fs' /\
  (exists i, seg = mkSegment id (segment_filename id) (Some (i, [])) HEADER_SIZE (log_flags config) VERSION_2
     /\ seg_at fs' id i [] [] [])
  /\ (forall n j, n <> segment_filename id -> ~ gone n -> fs_log fs !! n = Some j ->
        fs_log fs' !! n = Some j /\ fs_inodes fs' !! j = fs_inodes fs !! j)
  /\ (forall n, n <> segment_filename id -> is_Some (fs_log fs' !! n) -> is_Some (fs_log fs !! n))
  /\ fs_archive fs' = fs_archive fs.

Lemma seg_at_header fs id i :
  fs_log fs !! segment_filename id = Some i ->
  fs_inodes fs !! i = Some (mkFile [] 0) ->
  seg_at (fs_append i (segment_header id (log_flags config)) fs) id i [] [] [].
Proof.
  intros Hl Hi. split; [by rewrite (proj1 (same_dirs_append _ _ _))|]. eexists.
  rewrite inodes_append, decide_True, Hi by done. split; [done|]. cbn [f_data f_synced]. split_and!.
  - exists []. split; [constructor|]. unfold segment_bytes. by rewrite !app_nil_r.
  - by left.
  - lia.
Qed.

Lemma create_fresh id gone fs :
  fs_wf fs ->
  fresh_segment id gone fs (Segment_create_with_flags id (log_flags config) fs).1
    (Segment_create_with_flags id (log_flags config) fs).2.
Proof.
  intros Hwf. unfold Segment_create_with_flags, fs_open_truncate.
  destruct (fs_log fs !! segment_filename id) as [i|] eqn:E.
  - rewrite write_header_spec. cbn [fst snd].
    assert (Hd : same_dirs fs (fs_set_inode i (mkFile [] 0) fs)) by (apply same_dirs_truncate; by eapply fw_log).
    split; [|split_and!].
    + eapply same_dirs_wf; [|exact Hwf]. eapply same_dirs_trans; [exact Hd|apply same_dirs_append].
    + exists i. split; [done|]. apply seg_at_header; [done|]. simpl. by rewrite lookup_insert_eq.
    + intros n j Hn _ Hj. rewrite (proj1 (same_dirs_append _ _ _)). split; [done|].
      assert (i <> j) by (intros ->; apply Hn; by eapply fw_inj).
      rewrite inodes_append, decide_False by done. simpl. by rewrite lookup_insert_ne.
    + intros n Hn. by rewrite (proj1 (same_dirs_append _ _ _)).
    + by rewrite archive_append.
  - pose proof (alloc_log_wf _ _ Hwf E) as Ha. unfold fs_alloc in *. cbn [fst snd] in *.
    rewrite write_header_spec. cbn [fst snd].
    split; [|split_and!].
    + eapply same_dirs_wf; [apply same_dirs_append|exact Ha].
    + exists (fs_next fs). split; [done|]. apply seg_at_header; cbn [fs_log fs_set_log fs_inodes]; by rewrite lookup_insert_eq.
    + intros n j Hn _ Hj. rewrite (proj1 (same_dirs_append _ _ _)). simpl. rewrite lookup_insert_ne by done. split; [done|].
      assert (fs_next fs <> j) by (intros <-; pose proof (fw_next _ Hwf _ (fw_log _ Hwf _ _ Hj)); lia).
      rewrite inodes_append, decide_False by done. simpl. by rewrite lookup_insert_ne.
    + intros n Hn. rewrite (proj1 (same_dirs_append _ _ _)). cbn [fs_log fs_set_log]. by rewrite lookup_insert_ne.
    + by rewrite archive_append.
Qed.

Lemma delete_wf path fs : fs_wf fs -> fs_wf (fs_set_log (delete path (fs_log fs)) fs).
Proof.
  intros [H1 H2 H3 H4 H5]. split; simpl; try done.
  - intros n i [_ Hi]%lookup_delete_Some. by eapply H1.
  - intros n n' i [_ Hi]%lookup_delete_Some [_ Hi']%lookup_delete_Some. by eapply H4.
  - intros n n' i Hc [_ Hi]%lookup_delete_Some. by eapply H5.
Qed.

Lemma rename_wf path name i fs :
  fs_wf fs -> fs_log fs !! path = Some i -> fs_wf (fs_set_log (<[name := i]> (delete path (fs_log fs))) fs).
Proof.
  intros [H1 H2 H3 H4 H5] Hp. split; simpl; try done.
  - intros n j. rewrite lookup_insert. case_decide; [intros [= <-]; by eapply H1|].
    intros [_ Hj]%lookup_delete_Some. by eapply H1.
  - intros n n' j. rewrite !lookup_insert. repeat case_decide; simplify_eq; try done.
    + intros [= <-] [Hne Hj]%lookup_delete_Some. by destruct Hne; apply (H4 _ _ i).
    + intros [Hne Hj]%lookup_delete_Some [= <-]. by destruct Hne; apply (H4 _ _ i).
    + intros [_ Hj]%lookup_delete_Some [_ Hj']%lookup_delete_Some. by eapply H4.
  - intros n n' j Hc. rewrite lookup_insert. case_decide; [intros [= <-]; by eapply H5|].
    intros [_ Hj]%lookup_delete_Some. by eapply H5.
Qed.

Lemma recycle_fresh path id fs seg fs' :
  fs_wf fs -> Segment_recycle path id (log_flags config) fs = Some (seg, fs') ->
  fresh_segment id (eq path) fs seg fs'.
Proof.
  intros Hwf. unfold Segment_recycle. destruct (fs_log fs !! path) as [i|] eqn:E; [|done]. cbn [mbind option_bind].
  rewrite write_header_spec. set (fs1 := fs_append _ _ _). intros H. apply (inj Some), pair_equal_spec in H as [<- <-].
  assert (Hd : same_dirs fs fs1).
  { eapply same_dirs_trans; [|apply same_dirs_append]. apply same_dirs_truncate. by eapply fw_log. }
  pose proof (same_dirs_wf _ _ Hd Hwf) as Hwf1.
  assert (Hl1 : fs_log fs1 = fs_log fs) by apply Hd.
  assert (Hi1 : fs_inodes fs1 !! i = Some (mkFile (segment_header id (log_flags config)) 0)).
  { unfold fs1. rewrite inodes_append, decide_True by done. simpl. by rewrite lookup_insert_eq. }
  assert (Hj1 : forall j, i <> j -> fs_inodes fs1 !! j = fs_inodes fs !! j).
  { intros j Hj. unfold fs1. rewrite inodes_append, decide_False by done. simpl. by rewrite lookup_insert_ne. }
  assert (Hs : forall fs2, fs_log fs2 !! segment_filename id = Some i -> fs_inodes fs2 = fs_inodes fs1 -> seg_at fs2 id i [] [] []).
  { intros fs2 Hl2 Hi2. split; [done|]. eexists. rewrite Hi2, Hi1. split; [done|]. cbn [f_data f_synced]. split_and!.
    - exists []. split; [constructor|]. unfold segment_bytes. by rewrite !app_nil_r.
    - by left.
    - lia. }
  destruct (String.eqb_spec path (segment_filename id)) as [->|Hne].
  - split; [done|split_and!]; [exists i; split; [done|apply Hs; [by rewrite Hl1|done]]| |by rewrite Hl1|by unfold fs1; rewrite archive_append].
    intros n j Hn Hg Hj. rewrite Hl1. split; [done|]. apply Hj1. intros ->. apply Hn. by apply (fw_inj fs Hwf n (segment_filename id) j).
  - split; [apply rename_wf; [done|by rewrite Hl1]|split_and!].
    + exists i. split; [done|]. apply Hs; [cbn [fs_log fs_set_log]; by rewrite lookup_insert_eq|done].
    + intros n j Hn Hg Hj. cbn [fs_log fs_set_log fs_inodes]. rewrite lookup_insert_ne by done. rewrite lookup_delete_ne, Hl1 by done.
      split; [done|]. apply Hj1. intros ->. apply Hg. by apply (fw_inj fs Hwf path n j).
    + intros n Hn. cbn [fs_log fs_set_log]. rewrite lookup_insert_ne, Hl1 by done.
      intros [j [_ Hj]%lookup_delete_Some]. by exists j.
    + unfold fs1. cbn [fs_archive fs_set_log]. by rewrite archive_append.
Qed.

Lemma install_inv room self G gone seg fs' self' :
  1 <= room -> log_inv room self G -> (exists i, seg_writer (current_segment self) = Some (i, [])) ->
  fresh_segment (next_segment_id self) gone (cl_fs self) seg fs' ->
  (forall id, is_Some (G !! id) -> ~ gone (segment_filename id)) ->
  current_segment self' = seg -> cl_fs self' = fs' -> next_segment_id self' = next_segment_id self + 1 ->
  (forall path, path ∈ recycle_pool self' -> path ∈ recycle_pool self) ->
  log_inv (room - 1) self' (<[next_segment_id self := ([], [])]> G) /\ cur_id self' = next_segment_id self.
Proof.
  intros Hroom Hi Hb (Hwf & (i' & -> & Hnew) & Hkeep & Hfrom & Harc) Hgone Hseg' <- Hn' Hp'.
  pose proof (fun id => li_u64 room _ _ id ltac:(lia) Hi) as Hu. open_inv self Hi. destruct Hb as [? [= <- ->]].
  assert (Hc' : cur_id self' = next) by (unfold cur_id; by rewrite Hseg'). split; [|done].
  assert (Hnext : is_u64 next) by (pose proof (Hids id Hcur); unfold in_u; lia).
  assert (Hold : forall id0 ms us, G !! id0 = Some (ms, us) -> exists j, kept_at (cl_fs self') id0 j ms).
  { intros id0 ms us E. assert (exists j, kept_at fs id0 j ms) as [j Hj].
    { destruct (decide (id0 = id)) as [->|Hne]; [exists i; by eapply seg_at_kept, Hat|by eapply Hrest]. }
    pose proof (Hids id0 ltac:(eauto)). exists j.
    destruct (Hkeep (segment_filename id0) j) as [Hl Hf]; [|by apply Hgone; eauto|apply Hj|by eapply kept_at_frame].
    intros E'. apply filename_inj in E'; [lia|by apply Hu; eauto|done]. }
  split; rewrite ?Hc', ?Hn'.
  - done.
  - intros id0. rewrite lookup_insert. case_decide; [pose proof (Hids id Hcur); lia|]. intros Hid0%Hids. lia.
  - lia.
  - by rewrite lookup_insert_eq.
  - exists HEADER_SIZE, i', []. split; [done|]. intros ms us. rewrite lookup_insert_eq. by intros [= <- <-].
  - intros id0 ms us Hne. rewrite lookup_insert_ne by done. apply Hold.
  - intros path Hp. destruct (Hpool path (Hp' path Hp)) as [(n & Hpn & Hn) H2]. split; [exists n; split; [done|lia]|].
    intros id0. rewrite lookup_insert. case_decide as Hd; [|apply H2]. subst. intros _ ->.
    rewrite parse_filename in Hpn by done. injection Hpn as <-. lia.
  - intros name j id0 Hl Hpn. destruct (decide (name = segment_filename next)) as [->|Hne].
    + rewrite parse_filename in Hpn by done. injection Hpn as <-. lia.
    + destruct (Hfrom name Hne ltac:(eauto)) as [j' Hj']. pose proof (Hdir name j' id0 Hj' Hpn). lia.
  - intros Hrs name id0. rewrite Harc. intros Hn Hpn. pose proof (Harch Hrs name id0 Hn Hpn). lia.
  - by rewrite Hseg'.
Qed.

Lemma create_or_recycle_inv room self G :
  1 <= room -> log_inv room self G -> (exists i, seg_writer (current_segment self) = Some (i, [])) ->
  exists seg s1,
    CommitLog_create_or_recycle_segment config (next_segment_id self)
      (set_next_id (wrap_u 64 (next_segment_id self + 1)) self) = (inr seg, s1)
    /\ forall m b, let s2 := set_metrics m (set_mirrored b (set_segment (seg, cl_fs s1) s1)) in
         log_inv (room - 1) s2 (<[next_segment_id self := ([], [])]> G) /\ cur_id s2 = next_segment_id self.
Proof.
  intros Hroom Hi Hb. pose proof (li_fs _ _ _ Hi) as Hwf. pose proof (li_room _ _ _ Hi) as Hr.
  assert (Hnn : 0 <= next_segment_id self) by (pose proof (li_ids _ _ _ Hi _ (li_cur _ _ _ Hi)); lia).
  rewrite wrap_u_id by (unfold in_u; lia). unfold CommitLog_create_or_recycle_segment. cbn [recycle_pool set_next_id].
  destruct (last (recycle_pool self)) as [path|] eqn:El; cbn [set_pool cl_fs set_next_id recycle_pool].
  - assert (Hg : forall id, is_Some (G !! id) -> path <> segment_filename id).
    { apply (li_pool _ _ _ Hi). by apply last_Some_elem_of. }
    assert (Hsub : forall p, p ∈ removelast (recycle_pool self) -> p ∈ recycle_pool self).
    { intros p Hp. destruct (decide (recycle_pool self = [])) as [E|Hne]; [by rewrite E in El|].
      rewrite (app_removelast_last EmptyString Hne). set_solver. }
    destruct (Segment_recycle _ _ _ _) as [[seg fs']|] eqn:Er.
    + eexists _, _. split; [done|]. intros m b.
      apply (install_inv _ _ _ (eq path) seg fs'); try done. by apply recycle_fresh.
    + pose proof (create_fresh (next_segment_id self) (eq path) _ (delete_wf path _ Hwf)) as Hf.
      cbn [cl_fs set_fs]. destruct (Segment_create_with_flags _ _ _) as [seg fs']. cbn [fst snd] in Hf.
      eexists _, _. split; [done|]. intros m b. apply (install_inv _ _ _ (eq path) seg fs'); try done.
      destruct Hf as (H1 & H2 & H3 & H4 & H5). split_and!; [done|done| | |done].
      * intros n j Hn Hp Hj. apply H3; [done|done|]. cbn [fs_log fs_set_log]. by rewrite lookup_delete_ne.
      * intros n Hn Hs. destruct (H4 n Hn Hs) as [j Hj]. cbn [fs_log fs_set_log] in Hj.
        apply lookup_delete_Some in Hj as [_ Hj]. by exists j.
  - pose proof (create_fresh (next_segment_id self) (fun _ => False) _ Hwf) as Hf.
    destruct (Segment_create_with_flags _ _ _) as [seg fs']. cbn [fst snd] in Hf. eexists _, _. split; [done|].
    intros m b. apply (install_inv _ _ _ (fun _ => False) seg fs'); try done. naive_solver.
Qed.

Lemma beside_trans s1 s2 s3 : beside s1 s2 -> beside s2 s3 -> beside s1 s3.
Proof.
  intros (fs & -> & H1) (fs' & -> & H2). exists fs'. split; [by destruct s1|]. by eapply untouched_trans.
Qed.
Lemma beside_parts s1 s2 :
  beside s1 s2 -> current_segment s2 = current_segment s1 /\ next_segment_id s2 = next_segment_id s1.
Proof. by intros (fs & -> & _). Qed.

Lemma when_sidecar_beside room self G b completed :
  log_inv room self G ->
  exists r self', log_when b (CommitLog_update_cdc_sidecar (current_segment self) completed) self = (r, self')
    /\ beside self self'.
Proof.
  intros Hi. destruct b; simpl.
  - destruct (CommitLog_update_cdc_sidecar _ _ _) as [r self'] eqn:E. exists r, self'. split; [done|].
    pose proof (sidecar_beside _ _ _ completed Hi) as Hb. by rewrite E in Hb.
  - eexists _, self. split; [done|]. apply beside_refl, (li_fs _ _ _ Hi).
Qed.

Lemma rotate_inv room self G :
  1 <= room -> log_inv room self G ->
  exists r self', CommitLog_rotate config self = (r, self')
    /\ match r with
       | inl _ => log_inv room self' (commit self G) /\ cur_id self' = cur_id self
       | inr _ => log_inv (room - 1) self' (<[next_segment_id self := ([], [])]> (commit self G))
                  /\ cur_id self' = next_segment_id self
       end.
Proof.
  intros Hroom Hi. destruct (sync_segment_inv room _ _ ltac:(lia) Hi) as (s1 & E1 & Hi1 & Hc1 & Hn1 & Hb1 & _).
  unfold CommitLog_rotate. unfold mbind at 1, LogM_bind at 1. rewrite E1. unfold mbind at 1, LogM_bind at 1, log_get at 1.
  destruct (when_sidecar_beside _ _ _ (cdc_current_segment_mirrored s1) true Hi1) as (r & s2 & E2 & Hb2).
  unfold mbind at 1, LogM_bind at 1. rewrite E2. pose proof (beside_inv _ _ _ _ Hb2 Hi1) as Hi2.
  destruct (beside_parts _ _ Hb2) as [Hs2 Hn2].
  destruct r as [e|[]]; [eexists _, _; split; [done|]; split; [done|unfold cur_id in *; congruence]|].
  pose proof (archive_beside s2 (current_segment s1) (li_fs _ _ _ Hi2)) as Hb3.
  unfold mbind at 1, LogM_bind at 1. destruct (CommitLog_archive_segment config _ s2) as [r3 s3] eqn:E3.
  assert (r3 = inr ()) as -> by by injection E3 as <- <-. cbn [snd] in Hb3.
  pose proof (beside_inv _ _ _ _ Hb3 Hi2) as Hi3. destruct (beside_parts _ _ Hb3) as [Hs3 Hn3].
  unfold mbind, LogM_bind, log_get, log_modify.
  assert (Hn : next_segment_id s3 = next_segment_id self) by congruence. rewrite Hn.
  destruct (create_or_recycle_inv room s3 _ Hroom Hi3) as (seg & s4 & E4 & Hi4); [by rewrite Hs3, Hs2|].
  rewrite Hn in E4, Hi4. rewrite E4. eexists _, _. split; [done|]. apply (Hi4 _ false).
Qed.

(** ** One more entry *)

Definition add (self : CommitLog) (m : Mutation) (G : Kept) : Kept := alter (fun e => (e.1, e.2 ++ [m])) (cur_id self) G.
#[local] Arguments add : simpl never.

Lemma stored_snoc id ms m data p :
  stored id ms data -> logged m p -> stored id (ms ++ [m]) (data ++ entry_bytes crc32 p).
Proof.
  intros (ps & Hps & ->) Hp. exists (ps ++ [p]). split; [by apply Forall2_app; [|constructor]|].
  unfold segment_bytes. rewrite <- app_assoc, fmap_app, join_app. simpl. by rewrite app_nil_r.
Qed.

Lemma durable_append id ms f x : (f_synced f <= length (f_data f))%nat -> durable id ms f -> durable id ms (mkFile (f_data f ++ x) (f_synced f)).
Proof.
  intros Hl [->|(data & Hs & Hp)]; [by left|right]. exists data. split; [done|]. cbn [f_data f_synced]. by rewrite take_app_le.
Qed.

Lemma append_entry_spec seg i buf payload p fs :
  seg_writer seg = Some (i, buf) -> seg_flags seg = log_flags config ->
  encode_payload compress_prepend_size (log_flags config) (log_codec config) payload = Some p ->
  exists x buf', x ++ buf' = buf ++ entry_bytes crc32 p /\
    Segment_append_entry_with_codec compress_prepend_size crc32 seg payload (log_codec config) fs
    = (inr (seg_size seg),
       (mkSegment (seg_id seg) (seg_path seg) (Some (i, buf'))
          (wrap_u 64 (seg_size seg + (4 + 1 + 4 + Z.of_nat (length p.1)))) (seg_flags seg) (seg_version seg),
        fs_append i x fs)).
Proof.
  intros Hw Hf Hp. unfold Segment_append_entry_with_codec. rewrite Hw, Hf, Hp. destruct p as [p fl]. cbn [fst].
  buf_step x1 b1 E1. buf_step x2 b2 E2. buf_step x3 b3 E3. buf_step x4 b4 E4. rewrite !fs_append_app.
  exists (x1 ++ x2 ++ x3 ++ x4), b4. split; [|done].
  rewrite <- !app_assoc, E4, (app_assoc x3), E3, <- app_assoc, (app_assoc x2), E2, <- app_assoc, (app_assoc x1), E1.
  unfold entry_bytes. by rewrite <- !app_assoc.
Qed.

Lemma append_payload_inv room self G m payload :
  0 <= room -> log_inv room self G -> to_vec m = Some payload ->
  (forall p, encode_payload compress_prepend_size (log_flags config) (log_codec config) payload = Some p ->
    in_u 32 (Z.of_nat (length p.1))) ->
  exists r self', CommitLog_append_payload compress_prepend_size crc32 config payload self = (r, self')
    /\ cur_id self' = cur_id self
    /\ match r with
       | inl _ => log_inv room self' G
       | inr _ => log_inv room self' (add self m G)
       end.
Proof.
  intros Hroom Hi Hm Hfit. pose proof (fun id => li_u64 room _ _ id Hroom Hi) as Hu.
  unfold CommitLog_append_payload. destruct (encode_payload _ _ _ payload) as [p|] eqn:Ep.
  2:{ destruct (li_seg _ _ _ Hi) as (size & i & buf & Hseg & _). unfold Segment_append_entry_with_codec.
      assert (Hw : seg_writer (current_segment self) = Some (i, buf)) by by rewrite Hseg.
      assert (Hf : seg_flags (current_segment self) = log_flags config) by by rewrite Hseg.
      rewrite Hw, Hf, Ep. eexists _, _. split; [done|]. by destruct self. }
  assert (Hlog : logged m p) by (exists payload; auto). open_inv self Hi.
  destruct (append_entry_spec (mkSegment id (segment_filename id) (Some (i, buf)) size (log_flags config) VERSION_2)
    i buf payload p fs) as (x & buf' & Hx & ->); [done..|].
  eexists _, _. split; [done|]. split; [done|]. destruct Hcur as [[ms0 us0] E0]. pose proof (Hat _ _ E0) as Hat0.
  assert (Hsome : forall id', is_Some (add (mkCommitLog fs (mkSegment id (segment_filename id) (Some (i, buf)) size
    (log_flags config) VERSION_2) next trunc pool mir met) m G !! id') <-> is_Some (G !! id')).
  { intros id'. unfold add. rewrite lookup_alter. case_decide; subst; [by rewrite fmap_is_Some|done]. }
  split; cbn.
  - eapply same_dirs_wf; [apply same_dirs_append|done].
  - intros id' Hid'. apply Hids, Hsome, Hid'.
  - done.
  - apply Hsome. eauto.
  - eexists _, i, buf'. split; [done|]. intros ms us. unfold add. cbn. rewrite lookup_alter_eq, E0. intros [= <- <-].
    destruct Hat0 as (Hl & f & Hf & Hs & Hd & Hlen). split; [by rewrite (proj1 (same_dirs_append _ _ _))|].
    exists (mkFile (f_data f ++ x) (f_synced f)). split_and!.
    + by rewrite inodes_append, decide_True, Hf.
    + cbn [f_data]. rewrite <- app_assoc, Hx, !app_assoc. by apply stored_snoc.
    + by apply durable_append.
    + cbn [f_data f_synced]. rewrite length_app. lia.
  - intros id' ms us Hne. unfold add. cbn. rewrite lookup_alter_ne by done. intros E.
    destruct (Hrest id' _ _ Hne E) as [j Hj]. exists j.
    apply (kept_at_other fs _ _ _ i); [done| |apply same_dirs_append|intros k Hk; by rewrite inodes_append, decide_False].
    intros ->. apply (kept_at_inode _ _ id _ _ Hfs (Hu id' ltac:(eauto)) (Hu id ltac:(eauto)) Hne Hj), Hat0.
  - intros path Hp. destruct (Hpool path Hp) as [H1 H2]. split; [done|]. intros id' Hid'. apply H2, Hsome, Hid'.
  - rewrite (proj1 (same_dirs_append _ _ _)). exact Hdir.
  - destruct (same_dirs_append i x fs) as (_ & _ & _ & -> & _). exact Harch.
  - apply wrap_u_range. lia.
Qed.

(** ** What a step can only add to *)

(** The mutations of a segment that survive a crash, and all it was given. *)
Definition safe (G : Kept) (t : Z) : list Mutation := from_option fst [] (G !! t).
Definition held (self : CommitLog) (G : Kept) (t : Z) : list Mutation :=
  match G !! t with
  | Some (ms, us) => if decide (t = cur_id self) then ms ++ us else ms
  | None => []
  end.
Definition grow (self : CommitLog) (G : Kept) (self' : CommitLog) (G' : Kept) : Prop :=
  cur_id self <= cur_id self' /\ forall t, safe G t `prefix_of` safe G' t /\ held self G t `prefix_of` held self' G' t.

Lemma safe_held self G t : safe G t `prefix_of` held self G t.
Proof.
  unfold safe, held. destruct (G !! t) as [[ms us]|]; [|done]. simpl. destruct (decide _); [by exists us|done].
Qed.
Lemma grow_trans s1 G1 s2 G2 s3 G3 : grow s1 G1 s2 G2 -> grow s2 G2 s3 G3 -> grow s1 G1 s3 G3.
Proof. intros [Hc1 H1] [Hc2 H2]. split; [lia|]. intros t. destruct (H1 t), (H2 t). split; by etrans. Qed.
Lemma grow_refl self self' G : cur_id self' = cur_id self -> grow self G self' G.
Proof. intros E. split; [lia|]. intros t. unfold held. by rewrite E. Qed.

Lemma commit_held self self' G t :
  cur_id self' = cur_id self -> safe (commit self G) t = held self G t /\ held self' (commit self G) t = held self G t.
Proof.
  intros E. unfold safe, held, commit. rewrite lookup_alter, E. destruct (decide (cur_id self = t)) as [<-|Hne].
  - destruct (G !! cur_id self) as [[ms us]|]; [|done]. simpl. rewrite !decide_True by done. by rewrite app_nil_r.
  - destruct (G !! t) as [[ms us]|]; [|done]. simpl. by rewrite !decide_False by done.
Qed.
Lemma grow_commit self self' G : cur_id self' = cur_id self -> grow self G self' (commit self G).
Proof. intros E. split; [lia|]. intros t. destruct (commit_held self self' G t E) as [-> ->]. split; [apply safe_held|done]. Qed.

Lemma grow_rotate self self' G id :
  (forall t, is_Some (G !! t) -> t < id) -> is_Some (G !! cur_id self) -> cur_id self' = id ->
  grow self G self' (<[id := ([], [])]> (commit self G)).
Proof.
  intros Hid Hcur Hc. split; [apply Hid in Hcur; lia|]. intros t. destruct (decide (t = id)) as [->|Hne].
  - assert (G !! id = None) as E by (apply eq_None_not_Some; intros H; apply Hid in H; lia).
    unfold safe, held. rewrite E. split; apply prefix_nil.
  - destruct (commit_held self self G t eq_refl) as [Hs _].
    assert (safe (<[id := ([], [])]> (commit self G)) t = held self G t
      /\ held self' (<[id := ([], [])]> (commit self G)) t = held self G t) as [-> ->]; [|split; [apply safe_held|done]].
    unfold safe in Hs |- *. rewrite lookup_insert_ne by done. split; [done|]. rewrite <- Hs. unfold held.
    rewrite lookup_insert_ne by done. destruct (commit self G !! t) as [[ms us]|]; [|done]. by rewrite decide_False by congruence.
Qed.

Lemma add_held self self' G m :
  is_Some (G !! cur_id self) -> cur_id self' = cur_id self ->
  grow self G self' (add self m G)
  /\ held self' (add self m G) (cur_id self') = held self G (cur_id self) ++ [m].
Proof.
  intros [[ms us] E] Hc. unfold grow, safe, held, add. rewrite Hc. split.
  - split; [done|]. intros t. rewrite lookup_alter. destruct (decide (cur_id self = t)) as [<-|Hne]; [|done].
    rewrite E. simpl. rewrite decide_True by done. split; [done|]. rewrite decide_True, app_assoc by done. by apply prefix_app_r.
  - rewrite lookup_alter_eq, E. simpl. rewrite !decide_True by done. by rewrite app_assoc.
Qed.

(** ** Whole operations *)

Definition fits (m : Mutation) : Prop := forall payload p,
  to_vec m = Some payload -> encode_payload compress_prepend_size (log_flags config) (log_codec config) payload = Some p ->
  in_u 32 (Z.of_nat (length p.1)).

Lemma log_inv_weaken room room' self G : room' <= room -> log_inv room self G -> log_inv room' self G.
Proof. intros Hr [H1 H2 H3 H4 H5 H6 H7 H8 H9 H10]. split; try done. lia. Qed.

Lemma set_outside room self G b m :
  log_inv room self G -> log_inv room (set_metrics m (set_mirrored b self)) G.
Proof. by intros [H1 H2 H3 H4 H5 H6 H7 H8 H9 H10]. Qed.

(** Everything an append does before it writes. *)
Lemma when_rotate_inv room self G b :
  1 <= room -> log_inv room self G ->
  exists r self' G', log_when b (CommitLog_rotate config) self = (r, self')
    /\ log_inv (room - 1) self' G' /\ grow self G self' G'.
Proof.
  intros Hroom Hi. destruct b; simpl.
  - destruct (rotate_inv _ _ _ Hroom Hi) as (r & self' & E & Hr). rewrite E. destruct r as [e|[]], Hr as [Hi' Hc].
    + eexists _, _, _. split; [done|]. split; [eapply log_inv_weaken; [|done]; lia|by apply grow_commit].
    + eexists _, _, _. split; [done|]. split; [done|]. apply grow_rotate; [apply (li_ids _ _ _ Hi)|apply (li_cur _ _ _ Hi)|done].
  - eexists _, _, _. split; [done|]. split; [eapply log_inv_weaken; [|done]; lia|by apply grow_refl].
Qed.

Lemma when_sync_inv room self G b :
  0 <= room -> log_inv room self G ->
  exists self' G', log_when b CommitLog_sync_segment self = (inr (), self')
    /\ log_inv room self' G' /\ grow self G self' G' /\ cur_id self' = cur_id self
    /\ (b = true -> forall t, safe G' t = held self' G' t).
Proof.
  intros Hroom Hi. destruct b; simpl.
  - destruct (sync_segment_inv _ _ _ Hroom Hi) as (s1 & E1 & Hi1 & Hc1 & _). rewrite E1.
    exists s1, (commit self G). split; [done|]. split; [done|]. split; [by apply grow_commit|]. split; [done|].
    intros _ t. by destruct (commit_held self s1 G t Hc1) as [-> ->].
  - exists self, G. split; [done|]. split; [done|]. split; [by apply grow_refl|done].
Qed.

Lemma prefix_sublist {A} (l k : list A) : l `prefix_of` k -> l `sublist_of` k.
Proof. intros [x ->]. by apply sublist_inserts_r. Qed.

Lemma bind_run {A B} (m : LogM A) (f : A -> LogM B) s r s' :
  m s = (r, s') -> (m ≫= f) s = match r with inl e => (inl e, s') | inr a => f a s' end.
Proof. intros E. unfold mbind, LogM_bind. rewrite E. by destruct r. Qed.
Lemma bind_get {B} (f : CommitLog -> LogM B) s : (log_get ≫= f) s = f s s.
Proof. done. Qed.

(** Checking the CDC budget changes nothing. *)
Lemma budget_run self b payload :
  exists r, log_when b
    (projected ← CommitLog_projected_entry_size compress_prepend_size config payload (seg_flags (current_segment self));
     CommitLog_ensure_cdc_space_budget config (current_segment self) projected (cdc_current_segment_mirrored self)) self
    = (r, self).
Proof.
  destruct b; simpl; [|by eexists].
  assert (Hp : exists r, CommitLog_projected_entry_size compress_prepend_size config payload (seg_flags (current_segment self)) self = (r, self)).
  { unfold CommitLog_projected_entry_size. destruct (encryptor config) as [e|]; [|by eexists].
    destruct (is_enabled e); [|by eexists]. destruct (encode_block _ _); by eexists. }
  destruct Hp as [r Hp]. rewrite (bind_run _ _ _ _ _ Hp). destruct r as [e|projected]; [by eexists|].
  unfold CommitLog_ensure_cdc_space_budget. rewrite bind_get. destruct (_ <? _); by eexists.
Qed.

Lemma when_mirror_inv room self G b :
  log_inv room self G ->
  exists r self', log_when b (_ ← CommitLog_update_cdc_sidecar (current_segment self) false; log_modify (set_mirrored true)) self
    = (r, self') /\ log_inv room self' G /\ cur_id self' = cur_id self.
Proof.
  intros Hi. destruct b; simpl; [|by eexists _, _].
  destruct (when_sidecar_beside _ _ _ true false Hi) as (r & s1 & E & Hb). simpl in E. rewrite (bind_run _ _ _ _ _ E).
  pose proof (beside_inv _ _ _ _ Hb Hi) as Hi1. destruct (beside_parts _ _ Hb) as [Hc _].
  destruct r as [e|[]]; (eexists _, _; split; [done|]); (split; [|unfold cur_id; simpl; by rewrite Hc]); [done|].
  by destruct Hi1 as [H1 H2 H3 H4 H5 H6 H7 H8 H9 H10].
Qed.

(** An append loses nothing, and when it succeeds the mutation is the last one of
    the segment it names. *)
Lemma append_inv room self G m :
  1 <= room -> log_inv room self G -> fits m ->
  exists r self' G', CommitLog_append compress_prepend_size crc32 to_vec config m self = (r, self')
    /\ log_inv (room - 1) self' G' /\ grow self G self' G'
    /\ forall t off, r = inr (t, off) ->
         t = cur_id self' /\ held self G t ++ [m] `sublist_of` held self' G' t
         /\ (sync_policy config = Batch -> forall u, safe G' u = held self' G' u).
Proof.
  intros Hroom Hi Hfit. unfold CommitLog_append. destruct (to_vec m) as [payload|] eqn:Em.
  2:{ exists (inl Serialization), self, G. split; [done|]. split; [eapply log_inv_weaken; [|done]; lia|].
      split; [by apply grow_refl|done]. }
  rewrite bind_get. destruct (when_rotate_inv room self G (max_segment_size config
    <? seg_size (current_segment self) + Z.of_nat (length payload) + 12) Hroom Hi) as (r1 & s1 & G1 & E1 & Hi1 & Hg1).
  rewrite (bind_run _ _ _ _ _ E1). destruct r1 as [e|[]]; [by exists (inl e), s1, G1|].
  rewrite bind_get. destruct (budget_run s1 (mu_cdc_enabled m && cdc_on (cdc config)) payload) as [r2 E2].
  rewrite (bind_run _ _ _ _ _ E2). destruct r2 as [e|[]]; [by exists (inl e), s1, G1|].
  destruct (append_payload_inv (room - 1) s1 G1 m payload ltac:(lia) Hi1 Em ltac:(eauto)) as (r3 & s3 & E3 & Hc3 & Hi3).
  rewrite (bind_run _ _ _ _ _ E3). destruct r3 as [e|off].
  { exists (inl e), s3, G1. split; [done|]. split; [done|]. split; [|done]. eapply grow_trans; [exact Hg1|by apply grow_refl]. }
  destruct (add_held s1 s3 G1 m (li_cur _ _ _ Hi1) Hc3) as [Hg3 Hh3]. rewrite bind_get. cbv zeta.
  destruct (when_sync_inv (room - 1) s3 _ (bool_decide (sync_policy config = Batch)) ltac:(lia) Hi3)
    as (s4 & G4 & E4 & Hi4 & Hg4 & Hc4 & Hs4).
  rewrite (bind_run _ _ _ _ _ E4), bind_get.
  destruct (when_mirror_inv _ s4 G4 (mu_cdc_enabled m && cdc_on (cdc config)) Hi4) as (r5 & s5 & E5 & Hi5 & Hc5).
  rewrite (bind_run _ _ _ _ _ E5).
  assert (Hg : grow self G s5 G4).
  { eapply grow_trans; [exact Hg1|]. eapply grow_trans; [exact Hg3|]. eapply grow_trans; [exact Hg4|by apply grow_refl]. }
  destruct r5 as [e|[]]; [by exists (inl e), s5, G4|].
  eexists _, _, G4. split; [done|]. split; [by apply (set_outside _ s5 G4 (cdc_current_segment_mirrored s5))|].
  split; [exact Hg|]. intros t off' [= <- <-]. split; [unfold cur_id in *; simpl; congruence|].
  assert (Hh5 : forall u, held (set_metrics (count_append (Z.of_nat (length payload))
    (mu_cdc_enabled m && cdc_on (cdc config)) (cl_metrics s5)) s5) G4 u = held s4 G4 u).
  { intros u. unfold held, cur_id in *. simpl. by rewrite Hc5. }
  split.
  - rewrite Hh5. change (seg_id (current_segment s3)) with (cur_id s3).
    etrans; [|apply prefix_sublist, Hg4]. rewrite Hh3, Hc3. apply sublist_app; [apply prefix_sublist, Hg1|done].
  - intros Hb u. rewrite Hh5. apply Hs4. by apply bool_decide_eq_true.
Qed.

Lemma sync_inv room self G :
  0 <= room -> log_inv room self G ->
  exists r self', CommitLog_sync config self = (r, self') /\ log_inv room self' (commit self G) /\ cur_id self' = cur_id self.
Proof.
  intros Hroom Hi. destruct (sync_segment_inv _ _ _ Hroom Hi) as (s1 & E1 & Hi1 & Hc1 & _).
  unfold CommitLog_sync. rewrite (bind_run _ _ _ _ _ E1), bind_get.
  destruct (when_sidecar_beside _ _ _ (cdc_on (cdc config) && cdc_current_segment_mirrored s1) false Hi1) as (r & s2 & E2 & Hb).
  exists r, s2. split; [done|]. split; [by eapply beside_inv|]. unfold cur_id in *. by rewrite (proj1 (beside_parts _ _ Hb)).
Qed.

Lemma log_inv_sub room self G G' :
  G' ⊆ G -> is_Some (G' !! cur_id self) -> log_inv room self G -> log_inv room self G'.
Proof.
  intros Hsub Hc [H1 H2 H3 H4 (size & i & buf & Hs & Hat) H6 H7 H8 H9 H10].
  assert (Hl : forall id x, G' !! id = Some x -> G !! id = Some x) by (intros; by eapply lookup_weaken).
  split; try done.
  - intros id [x Hx]. apply H2. eauto.
  - exists size, i, buf. split; [done|]. intros ms us E. by apply Hat, Hl.
  - intros id ms us Hne E. by eapply H6; [|apply Hl].
  - intros path Hp. destruct (H7 path Hp) as [Hn Hne]. split; [done|]. intros id [x Hx]. apply Hne. eauto.
Qed.

Definition undiscarded (n : Z) (self : CommitLog) (G : Kept) : Kept :=
  filter (fun e => n < e.1 \/ e.1 = cur_id self) G.

Lemma discard_file_inv room n self G e :
  0 <= room -> log_inv room self G -> (forall t, is_Some (G !! t) -> n < t \/ t = cur_id self) ->
  (forall t, parse_segment_filename e.1 = Some t -> t < next_segment_id self) ->
  log_inv room (CommitLog_discard_file config n self e) G
  /\ current_segment (CommitLog_discard_file config n self e) = current_segment self
  /\ next_segment_id (CommitLog_discard_file config n self e) = next_segment_id self.
Proof.
  intros Hroom Hi Hkeep Hp. pose proof (fun id => li_u64 room _ _ id Hroom Hi) as Hu. unfold CommitLog_discard_file.
  destruct (parse_segment_filename e.1) as [t|] eqn:Et; [|done].
  destruct ((t <=? n) && negb (t =? _)) eqn:Ed; [|done].
  apply andb_true_iff in Ed as [Ht%Z.leb_le Hc%negb_true_iff%Z.eqb_neq].
  assert (Hname : forall id, is_Some (G !! id) -> e.1 <> segment_filename id).
  { intros id Hid E. rewrite E, parse_filename in Et by by apply Hu. injection Et as ->.
    destruct (Hkeep t Hid) as [|Hcur]; [lia|]. unfold cur_id in Hcur. done. }
  unfold CommitLog_try_recycle_segment. destruct (_ <? _)%nat; (split; [|done]).
  - destruct Hi as [H1 H2 H3 H4 H5 H6 H7 H8 H9 H10]. split; try done. intros path. simpl.
    rewrite elem_of_app, list_elem_of_singleton. intros [Hpool| ->]; [by apply H7|]. split; [exists t; auto|done].
  - destruct Hi as [H1 H2 H3 H4 (size & i & buf & Hs & Hat) H6 H7 H8 H9 H10].
    assert (Hl : forall id i, is_Some (G !! id) -> fs_log (cl_fs self) !! segment_filename id = Some i ->
      fs_log (fs_set_log (delete e.1 (fs_log (cl_fs self))) (cl_fs self)) !! segment_filename id = Some i).
    { intros id i' Hid Hl. cbn [fs_log fs_set_log]. by rewrite lookup_delete_ne by by apply Hname. }
    split; try done.
    + by apply delete_wf.
    + exists size, i, buf. split; [done|]. intros ms us E. pose proof (Hat ms us E) as Hsa.
      apply (seg_at_frame (cl_fs self)); [done|apply Hl; [by eexists|apply Hsa]|done].
    + intros id ms us Hne E. destruct (H6 id ms us Hne E) as [j Hj]. exists j.
      apply (kept_at_frame (cl_fs self)); [done|apply Hl; [by eexists|apply Hj]|done].
    + intros name j id Hj. cbn [cl_fs set_fs fs_log fs_set_log] in Hj. apply lookup_delete_Some in Hj as [_ Hj]. by eapply H8.
Qed.

Lemma discard_files_inv room n self G l :
  0 <= room -> log_inv room self G -> (forall t, is_Some (G !! t) -> n < t \/ t = cur_id self) ->
  (forall e t, e ∈ l -> parse_segment_filename e.1 = Some t -> t < next_segment_id self) ->
  log_inv room (foldl (CommitLog_discard_file config n) self l) G
  /\ cur_id (foldl (CommitLog_discard_file config n) self l) = cur_id self.
Proof.
  intros Hroom. revert self. induction l as [|e l IH]; intros self Hi Hk Hp; [done|]. simpl.
  destruct (discard_file_inv room n self G e Hroom Hi Hk) as (Hi' & Hc & Hn); [intros t; apply Hp; left|].
  assert (Hcur : cur_id (CommitLog_discard_file config n self e) = cur_id self) by (unfold cur_id; by rewrite Hc).
  destruct (IH _ Hi') as [H1 H2]; [by rewrite Hcur| |by rewrite Hcur in H2].
  intros e' t He'. rewrite Hn. apply Hp. by right.
Qed.

Lemma discard_inv room n self G :
  0 <= room -> log_inv room self G ->
  log_inv room (CommitLog_discard_completed_segments config n self) (undiscarded n self G)
  /\ cur_id (CommitLog_discard_completed_segments config n self) = cur_id self.
Proof.
  intros Hroom Hi. unfold CommitLog_discard_completed_segments.
  assert (Hl : forall e t, e ∈ list_segment_files (fs_log (cl_fs self)) -> parse_segment_filename e.1 = Some t ->
    t < next_segment_id self).
  { intros [name i] t [_ He]%list_elem_of_In%filter_In%and_comm Hp. apply (li_dir _ _ _ Hi name i); [|done].
    apply ordmap_elem. by apply list_elem_of_In. }
  assert (Hk : forall t, is_Some (undiscarded n self G !! t) -> n < t \/ t = cur_id self).
  { intros t [x [_ Hx]%map_lookup_filter_Some]. done. }
  assert (Hi' : log_inv room self (undiscarded n self G)).
  { apply (log_inv_sub _ _ G); [apply map_filter_subseteq| |done]. destruct (li_cur _ _ _ Hi) as [x Hx]. exists x.
    apply map_lookup_filter_Some. split; [done|]. by right. }
  by apply discard_files_inv.
Qed.

(** ** Restarting *)

Definition kept (fs : Fs) (G : Kept) : Prop :=
  forall id ms us, G !! id = Some (ms, us) -> is_u64 id /\ exists i, kept_at fs id i ms.
(** The identifiers in use, archived ones included where they can come back. *)
Definition ids_below (B : Z) (fs : Fs) : Prop :=
  forall name id, parse_segment_filename name = Some id ->
    is_Some (fs_log fs !! name) \/ (restoring = true /\ is_Some (fs_archive fs !! name)) -> id < B.

Lemma log_inv_kept room self G : 0 <= room -> log_inv room self G -> kept (cl_fs self) G.
Proof.
  intros Hroom Hi id ms us E. split; [eapply li_u64; eauto|]. destruct (decide (id = cur_id self)) as [->|Hne].
  - destruct (li_seg _ _ _ Hi) as (size & i & buf & _ & Hat). exists i. by eapply seg_at_kept, Hat.
  - by eapply li_rest.
Qed.
Lemma log_inv_below room self G : log_inv room self G -> ids_below (next_segment_id self) (cl_fs self).
Proof. intros Hi name id Hp [[i Hl]|[Hr Ha]]; [by eapply li_dir|by eapply li_archive]. Qed.

(** Files that were not there come from the archive; those that were stay. *)
Definition extends (fs fs' : Fs) : Prop :=
  fs_wf fs' /\ fs_archive fs' = fs_archive fs
  /\ (forall n i, fs_log fs !! n = Some i -> fs_log fs' !! n = Some i /\ fs_inodes fs' !! i = fs_inodes fs !! i).
Lemma extends_trans fs1 fs2 fs3 : extends fs1 fs2 -> extends fs2 fs3 -> extends fs1 fs3.
Proof.
  intros (H1 & H2 & H3) (H4 & H5 & H6). split_and!; [done|congruence|]. intros n i Hl.
  destruct (H3 n i Hl) as [Hl2 Hi2], (H6 n i) as [Hl3 Hi3]; [done|]. split; [done|congruence].
Qed.
Lemma extends_refl fs : fs_wf fs -> extends fs fs.
Proof. intros H. by split. Qed.
Lemma extends_kept fs fs' G : extends fs fs' -> kept fs G -> kept fs' G.
Proof.
  intros (_ & _ & He) Hk id ms us E. destruct (Hk id ms us E) as [Hu [i Hi]]. split; [done|]. exists i.
  destruct (He _ _ (proj1 Hi)) as [Hl Hf]. by eapply kept_at_frame.
Qed.

Definition restore_file (fs : Fs) (e : string * list Z) : Fs :=
  if is_segment_name e.1 then
    match fs_log fs !! e.1 with
    | Some _ => fs
    | None => let '(i, fs) := fs_open_truncate fs_log fs_set_log e.1 fs in fs_append i e.2 fs
    end
  else fs.
Lemma restore_file_spec fs e :
  fs_wf fs -> extends fs (restore_file fs e)
  /\ (forall n, is_Some (fs_log (restore_file fs e) !! n) -> is_Some (fs_log fs !! n) \/ n = e.1)
  /\ (is_segment_name e.1 = true -> is_Some (fs_log (restore_file fs e) !! e.1)).
Proof.
  intros Hwf. unfold restore_file. destruct (is_segment_name e.1); [|by split_and!; auto using extends_refl].
  destruct (fs_log fs !! e.1) as [i|] eqn:E; [by split_and!; eauto using extends_refl|]. unfold fs_open_truncate. rewrite E.
  pose proof (alloc_log_wf _ _ Hwf E) as Ha. unfold fs_alloc in *. cbn [fst snd] in *. unfold extends.
  split_and!.
  - eapply same_dirs_wf; [apply same_dirs_append|exact Ha].
  - by rewrite archive_append.
  - intros n j Hj. rewrite (proj1 (same_dirs_append _ _ _)). cbn [fs_log fs_set_log].
    rewrite lookup_insert_ne by (intros <-; congruence). split; [done|].
    assert (fs_next fs <> j) by (intros <-; pose proof (fw_next _ Hwf _ (fw_log _ Hwf _ _ Hj)); lia).
    rewrite inodes_append, decide_False by done. cbn [fs_inodes fs_set_log]. by rewrite lookup_insert_ne.
  - intros n. rewrite (proj1 (same_dirs_append _ _ _)). cbn [fs_log fs_set_log]. rewrite lookup_insert.
    case_decide; subst; auto.
  - intros _. rewrite (proj1 (same_dirs_append _ _ _)). cbn [fs_log fs_set_log]. by rewrite lookup_insert_eq.
Qed.

Lemma restore_files_spec l fs :
  fs_wf fs -> extends fs (foldl restore_file fs l)
  /\ (forall n, is_Some (fs_log (foldl restore_file fs l) !! n) -> is_Some (fs_log fs !! n) \/ n ∈ l.*1)
  /\ (forall n, n ∈ l.*1 -> is_segment_name n = true -> is_Some (fs_log (foldl restore_file fs l) !! n)).
Proof.
  revert fs. induction l as [|e l IH]; intros fs Hwf.
  - split_and!; [by apply extends_refl|by auto|]. intros n Hn. by apply not_elem_of_nil in Hn.
  - destruct (restore_file_spec fs e Hwf) as (H1 & H2 & H3). simpl foldl.
    destruct (IH (restore_file fs e) (proj1 H1)) as (H4 & H5 & H6). split_and!.
    + by apply (extends_trans _ _ _ H1 H4).
    + intros n [Hn|Hn]%H5; [|right; by right]. apply H2 in Hn as [Hn| ->]; [by left|right; left].
    + intros n Hn Hs. apply elem_of_cons in Hn as [->|Hn]; [|by apply H6]. destruct (H3 Hs) as [i Hi].
      exists i. by apply H4.
Qed.

Lemma restore_spec fs :
  fs_wf fs -> extends fs (restore_archived_segments (archiving config) fs)
  /\ (forall n, is_Some (fs_log (restore_archived_segments (archiving config) fs) !! n) ->
       is_Some (fs_log fs !! n) \/ restoring = true /\ is_Some (fs_archive fs !! n))
  /\ (restoring = true -> forall n, is_Some (fs_archive fs !! n) -> is_segment_name n = true ->
       is_Some (fs_log (restore_archived_segments (archiving config) fs) !! n)).
Proof.
  intros Hwf. unfold restore_archived_segments, restoring. destruct (_ && _); [|by split_and!; auto using extends_refl].
  destruct (restore_files_spec (entries (fs_archive fs)) fs Hwf) as (H1 & H2 & H3). split_and!; [exact H1|..].
  - intros n [Hn|Hn]%H2; [by left|right]. split; [done|]. by apply elem_of_keys.
  - intros _ n Hn. apply H3. by apply elem_of_keys.
Qed.

Lemma parse_is_segment name id : parse_segment_filename name = Some id -> is_segment_name name = true.
Proof.
  unfold parse_segment_filename, is_segment_name. destruct (strip_prefix _ _) as [rest|] eqn:E; [|done].
  cbn [mbind option_bind]. apply strip_prefix_Some in E. rewrite E. unfold strip_suffix_str.
  destruct (strip_prefix _ (rev rest)) as [r|] eqn:E'; [|done]. intros _. apply strip_prefix_Some in E'.
  by rewrite rev_app_distr, E', <- app_assoc, strip_prefix_app.
Qed.

Definition max_segment_id (names : list string) : Z :=
  foldl (fun m name => match parse_segment_filename name with Some id => m `max` id | None => m end) 0 names.
Lemma max_segment_id_spec names :
  0 <= max_segment_id names /\ (forall name id, name ∈ names -> parse_segment_filename name = Some id -> id <= max_segment_id names)
  /\ forall B, 0 < B -> (forall name id, name ∈ names -> parse_segment_filename name = Some id -> id < B) -> max_segment_id names < B.
Proof.
  unfold max_segment_id. induction names as [|n names IH] using rev_ind; simpl.
  - split_and!; [done|intros name id Hn; by apply not_elem_of_nil in Hn|auto].
  - rewrite foldl_snoc. destruct IH as (H1 & H2 & H3). split_and!.
    + destruct (parse_segment_filename n); lia.
    + intros name id [Hn| ->%list_elem_of_singleton]%elem_of_app Hp.
      * specialize (H2 _ _ Hn Hp). destruct (parse_segment_filename n); lia.
      * rewrite Hp. lia.
    + intros B HB Hall. assert (foldl (fun m name => match parse_segment_filename name with Some id => m `max` id | None => m end)
        0 names < B) by (apply H3; [done|]; intros; eapply Hall; [apply elem_of_app; left|]; done).
      destruct (parse_segment_filename n) as [id|] eqn:E; [|done].
      assert (id < B) by (eapply Hall; [apply elem_of_app; right; by apply list_elem_of_singleton|done]). lia.
Qed.

Lemma open_log_inv room B fs G :
  0 <= room -> 0 < B -> B + 1 + room < 2 ^ 64 -> fs_wf fs -> kept fs G -> ids_below B fs ->
  let self := CommitLog_open config fs in
  log_inv room self (<[cur_id self := ([], [])]> G) /\ G !! cur_id self = None /\ next_segment_id self <= B + 1.
Proof.
  intros Hroom HB Hmax Hwf Hk Hb. destruct (restore_spec fs Hwf) as (He & Hfrom & Hin).
  pose proof (extends_kept _ _ _ He Hk) as Hk'. unfold CommitLog_open.
  set (fs' := restore_archived_segments (archiving config) fs) in *.
  change (foldl _ 0 (keys (fs_log fs'))) with (max_segment_id (keys (fs_log fs'))).
  destruct (max_segment_id_spec (keys (fs_log fs'))) as (Hm0 & Hm1 & Hm2). set (mx := max_segment_id _) in *.
  assert (HmB : mx < B).
  { apply Hm2; [done|]. intros name id Hn%elem_of_keys Hp. eapply Hb; [exact Hp|]. by apply Hfrom. }
  rewrite !wrap_u_id by (rewrite ?wrap_u_id; unfold in_u; lia).
  destruct (create_fresh (mx + 1) (fun _ => False) fs' (proj1 He)) as (Hwf2 & (i & Hseg & Hat) & Hkeep & Hold & Harc).
  destruct (Segment_create_with_flags _ _ fs') as [seg fs2]. cbn [fst snd] in *. subst seg. unfold cur_id. cbn [current_segment seg_id next_segment_id].
  assert (Hid : forall id, is_Some (G !! id) -> is_u64 id /\ id <= mx).
  { intros id [[ms us] E]. destruct (Hk' id ms us E) as [Hu [j [Hl _]]]. split; [done|].
    eapply Hm1; [apply elem_of_keys; eauto|by apply parse_filename]. }
  assert (Hu1 : is_u64 (mx + 1)) by (unfold in_u; lia).
  assert (Hnames : forall name id, is_Some (fs_log fs2 !! name) -> parse_segment_filename name = Some id -> id < mx + 1 + 1).
  { intros name id Hn Hp. destruct (decide (name = segment_filename (mx + 1))) as [->|Hne].
    - rewrite parse_filename in Hp by done. injection Hp as <-. lia.
    - specialize (Hm1 name id). rewrite elem_of_keys in Hm1. specialize (Hm1 (Hold name Hne Hn) Hp). lia. }
  split_and!; [|apply eq_None_not_Some; intros Hs; apply Hid in Hs as [_ Hs]; lia|lia].
  split; unfold cur_id; cbn [cl_fs current_segment seg_id next_segment_id recycle_pool].
  - done.
  - intros id. rewrite lookup_insert. case_decide; [lia|]. intros [Hu Hle]%Hid. unfold in_u in Hu. lia.
  - lia.
  - by rewrite lookup_insert_eq.
  - eexists _, i, []. split; [done|]. intros ms us. rewrite lookup_insert_eq. intros [= <- <-]. exact Hat.
  - intros id ms us Hne. rewrite lookup_insert_ne by done. intros E. destruct (Hk' id ms us E) as [Hu [j Hj]]. exists j.
    destruct (Hkeep (segment_filename id) j) as [Hl Hf]; [|by intros []|apply Hj|by eapply kept_at_frame].
    intros E'. apply filename_inj in E'; [|done|done]. by apply Hne.
  - intros path Hp. by apply not_elem_of_nil in Hp.
  - intros name j id Hl. by apply Hnames; eexists.
  - intros Hr name id Hn Hp. rewrite Harc in Hn. destruct He as (_ & He2 & _). rewrite He2 in Hn.
    pose proof (Hin Hr name Hn (parse_is_segment _ _ Hp)) as Hl.
    specialize (Hm1 name id). rewrite elem_of_keys in Hm1. specialize (Hm1 Hl Hp). lia.
  - done.
Qed.

(** ** Crashes *)

(** Of each file the durable prefix is left, with any bytes after it. *)
Definition crash_fs (tails : gmap Z (list Z)) (fs : Fs) : Fs :=
  mkFs (map_imap (fun i f => Some (mkFile (take (f_synced f) (f_data f) ++ default [] (tails !! i)) (f_synced f))) (fs_inodes fs))
    (fs_next fs) (fs_log fs) (fs_cdc fs) (fs_archive fs).

Lemma crash_inode tails fs i :
  fs_inodes (crash_fs tails fs) !! i
  = (fun f => mkFile (take (f_synced f) (f_data f) ++ default [] (tails !! i)) (f_synced f)) <$> fs_inodes fs !! i.
Proof. unfold crash_fs; cbn [fs_inodes]. rewrite map_lookup_imap. by destruct (fs_inodes fs !! i). Qed.
Lemma crash_wf tails fs : fs_wf fs -> fs_wf (crash_fs tails fs).
Proof.
  apply same_dirs_wf. split_and!; try done. intros i. by rewrite crash_inode, fmap_is_Some.
Qed.
Lemma crash_kept tails fs G : kept fs G -> kept (crash_fs tails fs) G.
Proof.
  intros Hk id ms us E. destruct (Hk id ms us E) as [Hu (i & Hl & f & Hf & Hd & Hlen)]. split; [done|]. exists i. split; [done|].
  eexists. rewrite crash_inode, Hf. split; [done|]. cbn [f_data f_synced]. split.
  - destruct Hd as [->|(data & Hs & Hp)]; [by left|right]. exists data. split; [done|].
    unfold durable; cbn [f_data f_synced]. rewrite take_app_length'; [done|]. rewrite length_take. lia.
  - rewrite length_app, length_take. lia.
Qed.

(** ** Replay *)

Abbreviation replay_one := (replay_segment decompress_size_prepended crc32 from_slice config).
Definition segment_mutations (policy : CorruptionPolicy) (path : string) (content : list Z) : list Mutation :=
  rr_mutations (replay_one policy (mkReplayResult [] 0 0) path content).
Lemma replay_one_app policy r path content :
  rr_mutations (replay_one policy r path content) = rr_mutations r ++ segment_mutations policy path content.
Proof.
  unfold segment_mutations, replay_segment. destruct (Segment_open_for_read path content) as [e|seg]; simpl; [by rewrite app_nil_r|].
  by destruct (replay_entries _ _ _).
Qed.
Lemma replay_fs_mutations policy fs :
  rr_mutations (replay_fs decompress_size_prepended crc32 from_slice config policy fs)
  = mjoin ((fun e => segment_mutations policy e.1 (file_content fs e.2)) <$> list_segment_files (fs_log fs)).
Proof.
  unfold replay_fs. rewrite <- (app_nil_l (mjoin _)). change (@nil Mutation) with (rr_mutations (mkReplayResult [] 0 0)) at 2.
  generalize (mkReplayResult [] 0 0). induction (list_segment_files (fs_log fs)) as [|e l IH]; intros r; simpl; [by rewrite app_nil_r|].
  by rewrite IH, replay_one_app, <- app_assoc.
Qed.

Lemma kept_segment policy fs G id i :
  kept fs G -> fs_log fs !! segment_filename id = Some i ->
  safe G id `sublist_of` segment_mutations policy (segment_filename id) (file_content fs i).
Proof.
  intros Hk Hl. unfold safe. destruct (G !! id) as [[ms us]|] eqn:E; [|by apply sublist_nil_l]. simpl.
  destruct (Hk id ms us E) as [Hu (i' & Hl' & f & Hf & [->|(data & (ps & Hps & ->) & Hp)] & _)]; [apply sublist_nil_l|].
  rewrite Hl in Hl'. injection Hl' as <-. unfold file_content. rewrite Hf. cbn [from_option]. destruct Hp as [tail Htail].
  destruct (replay_segment_bytes compress_prepend_size decompress_size_prepended crc32 to_vec from_slice config policy
    (mkReplayResult [] 0 0) (segment_filename id) id ms ps (tail ++ drop (f_synced f) (f_data f)) Hu Hps) as (extra & lost & E' & _).
  unfold segment_mutations. rewrite <- (take_drop (f_synced f) (f_data f)), Htail, <- app_assoc, E'. simpl.
  by apply sublist_inserts_r.
Qed.

(** The segments of a listing, by the names the log gives them. *)
Definition named_segment (e : string * Z) : option Z :=
  id ← parse_segment_filename e.1; if String.eqb (segment_filename id) e.1 then Some id else None.
Lemma named_segment_Some e id : named_segment e = Some id -> segment_filename id = e.1.
Proof. unfold named_segment. intros (id' & _ & H)%bind_Some. destruct (String.eqb_spec (segment_filename id') e.1); by simplify_eq. Qed.
Lemma named_segments_names l : segment_filename <$> omap named_segment l `sublist_of` l.*1.
Proof.
  induction l as [|e l IH]; [constructor|]. simpl. destruct (named_segment e) as [id|] eqn:E; [|by constructor].
  rewrite fmap_cons, (named_segment_Some _ _ E). by constructor.
Qed.
Lemma strongly_sorted_sublist {A} (R : relation A) l k : l `sublist_of` k -> StronglySorted R k -> StronglySorted R l.
Proof.
  induction 1 as [|x l k Hs IH|x l k Hs IH]; intros Hk; [done|..]; apply StronglySorted_inv in Hk as [Hk Hx]; [|by apply IH].
  constructor; [by apply IH|]. rewrite List.Forall_forall in *. intros y Hy. apply Hx. apply list_elem_of_In. apply list_elem_of_In in Hy.
  by eapply elem_of_sublist.
Qed.

(** What is kept comes back in the order of the file names. *)
Lemma kept_replayed policy fs G (order := omap named_segment (list_segment_files (fs_log fs))) :
  kept fs G ->
  StronglySorted lt_of (segment_filename <$> order) /\ (forall id, is_Some (G !! id) -> id ∈ order)
  /\ mjoin (safe G <$> order) `sublist_of` rr_mutations (replay_fs decompress_size_prepended crc32 from_slice config policy fs).
Proof.
  intros Hk. unfold order. split; [|split].
  - eapply strongly_sorted_sublist; [apply named_segments_names|]. eapply strongly_sorted_sublist; [|apply (keys_strongly_sorted (fs_log fs))].
    unfold list_segment_files, keys. induction (entries (fs_log fs)) as [|e l IH]; simpl; [constructor|]. destruct (is_segment_name e.1); by constructor.
  - intros id [[ms us] E]. destruct (Hk id ms us E) as [Hu (i & Hl & _)]. apply list_elem_of_omap. exists (segment_filename id, i). split.
    + apply list_elem_of_In, filter_In. split; [by apply list_elem_of_In, ordmap_elem|apply filename_is_segment].
    + unfold named_segment. cbn [fst]. rewrite parse_filename by done. cbn [mbind option_bind]. by rewrite String.eqb_refl.
  - rewrite replay_fs_mutations. assert (Forall (fun e => fs_log fs !! e.1 = Some e.2) (list_segment_files (fs_log fs))) as Hall.
    { apply Forall_forall. intros [n i] [Hin _]%list_elem_of_In%filter_In. by apply ordmap_elem, list_elem_of_In. }
    induction Hall as [|e l He _ IH]; [constructor|]. cbn [omap list_omap]. rewrite fmap_cons, mjoin_cons.
    destruct (named_segment e) as [id|] eqn:E; [|by apply sublist_inserts_l]. rewrite fmap_cons, mjoin_cons. apply sublist_app; [|done].
    apply named_segment_Some in E. rewrite <- E in He |- *. by apply kept_segment.
Qed.

(** ** Runs with crashes *)

Inductive LogOp :=
| LAppend (m : Mutation)
| LSync
| LDiscard (up_to_segment_id : Z)
| LCrash (tails : gmap Z (list Z)).

(** What a caller may count on: each mutation with the segment [append] named,
    durable or not yet.  An append that names another segment, a sync and the
    batch policy make what came before durable; a crash loses the rest. *)
Record Ledger := mkLedger {
  led_durable : list (Z * Mutation);
  led_volatile : list (Z * Mutation);
}.
Definition of_segment (t : Z) (l : list (Z * Mutation)) : list Mutation := snd <$> List.filter (fun e => e.1 =? t) l.
Definition ledger_append (m : Mutation) (t : Z) (L : Ledger) : Ledger :=
  let D := led_durable L ++ List.filter (fun e => negb (e.1 =? t)) (led_volatile L) in
  let V := List.filter (fun e => e.1 =? t) (led_volatile L) ++ [(t, m)] in
  match sync_policy config with Batch => mkLedger (D ++ V) [] | Periodic _ => mkLedger D V end.
Definition log_step (st : CommitLog * Ledger) (op : LogOp) : CommitLog * Ledger :=
  let '(self, L) := st in
  match op with
  | LAppend m =>
      match CommitLog_append compress_prepend_size crc32 to_vec config m self with
      | (inr (t, _), self) => (self, ledger_append m t L)
      | (inl _, self) => (self, L)
      end
  | LSync =>
      match CommitLog_sync config self with
      | (inr _, self) => (self, mkLedger (led_durable L ++ led_volatile L) [])
      | (inl _, self) => (self, L)
      end
  | LDiscard n =>
      (CommitLog_discard_completed_segments config n self,
       mkLedger (List.filter (fun e => n <? e.1) (led_durable L)) (List.filter (fun e => n <? e.1) (led_volatile L)))
  | LCrash tails => (CommitLog_open config (crash_fs tails (cl_fs self)), mkLedger (led_durable L) [])
  end.
Definition op_fits (op : LogOp) : Prop := match op with LAppend m => fits m | _ => True end.

Definition ledger_ok (self : CommitLog) (G : Kept) (L : Ledger) : Prop := forall t,
  of_segment t (led_durable L) `sublist_of` safe G t
  /\ of_segment t (led_durable L) ++ of_segment t (led_volatile L) `sublist_of` held self G t.

Lemma of_segment_app t l k : of_segment t (l ++ k) = of_segment t l ++ of_segment t k.
Proof. unfold of_segment. by rewrite List.filter_app, fmap_app. Qed.
Lemma of_segment_cons t s m l : of_segment t ((s, m) :: l) = if s =? t then m :: of_segment t l else of_segment t l.
Proof. unfold of_segment. cbn [List.filter fst]. by destruct (s =? t). Qed.
Lemma of_segment_filter t (b : Z -> bool) l :
  of_segment t (List.filter (fun e => b e.1) l) = if b t then of_segment t l else [].
Proof.
  induction l as [|[s m] l IH]; [by destruct (b t)|]. cbn [List.filter fst]. rewrite (of_segment_cons t s m l).
  destruct (Z.eqb_spec s t) as [->|Hne].
  - destruct (b t) eqn:Eb; [|done]. by rewrite of_segment_cons, Z.eqb_refl, IH.
  - destruct (b s) eqn:Eb; [|done]. by rewrite of_segment_cons, (proj2 (Z.eqb_neq s t)), IH.
Qed.

Lemma held_other self G t : t <> cur_id self -> held self G t = safe G t.
Proof. intros Hne. unfold held, safe. destruct (G !! t) as [[ms us]|]; [|done]. by rewrite decide_False. Qed.

Lemma ledger_grow self G self' G' L : grow self G self' G' -> ledger_ok self G L -> ledger_ok self' G' L.
Proof. intros [_ Hg] HL t. destruct (Hg t), (HL t). split; (etrans; [done|by apply prefix_sublist]). Qed.

Lemma ledger_append_ok self G self' G' m t L :
  ledger_ok self G L -> grow self G self' G' -> t = cur_id self' -> held self G t ++ [m] `sublist_of` held self' G' t ->
  (sync_policy config = Batch -> forall u, safe G' u = held self' G' u) -> ledger_ok self' G' (ledger_append m t L).
Proof.
  intros HL Hg Ht Hm Hb.
  assert (H : forall u, of_segment u (led_durable L ++ List.filter (fun e => negb (e.1 =? t)) (led_volatile L)) `sublist_of` safe G' u
    /\ of_segment u (led_durable L ++ List.filter (fun e => negb (e.1 =? t)) (led_volatile L))
       ++ of_segment u (List.filter (fun e => e.1 =? t) (led_volatile L) ++ [(t, m)]) `sublist_of` held self' G' u).
  { intros u. destruct (HL u) as [H1 H2], (proj2 Hg u) as [H3 H4].
    rewrite !of_segment_app, (of_segment_filter u (fun x => negb (x =? t))), (of_segment_filter u (fun x => x =? t)).
    rewrite of_segment_cons, (Z.eqb_sym t u). change (of_segment u []) with (@nil Mutation).
    destruct (Z.eqb_spec u t) as [->|Hne]; cbn [negb].
    - rewrite app_nil_r, app_assoc. split; [etrans; [exact H1|by apply prefix_sublist]|].
      etrans; [|exact Hm]. by apply sublist_app.
    - rewrite !app_nil_r. rewrite (held_other self' G' u) in H4 |- * by congruence.
      split; (etrans; [exact H2|by apply prefix_sublist]). }
  intros u. unfold ledger_append. destruct (sync_policy config); cbn [led_durable led_volatile]; [|apply H].
  rewrite of_segment_app, Hb, app_nil_r by done. split; apply H.
Qed.

Lemma undiscarded_held n self self' G t :
  cur_id self' = cur_id self -> n < t -> safe (undiscarded n self G) t = safe G t /\ held self' (undiscarded n self G) t = held self G t.
Proof.
  intros Hc Ht. assert (undiscarded n self G !! t = G !! t) as E.
  { unfold undiscarded. rewrite map_lookup_filter. destruct (G !! t) as [x|]; [|done]. simpl.
    case_guard as Hg; [done|]. destruct Hg. by left. }
  unfold safe, held. by rewrite E, Hc.
Qed.

(** One step: the invariant, and what the ledger promises is kept. *)
Lemma log_step_inv room self G L op :
  1 <= room -> log_inv room self G -> ledger_ok self G L -> op_fits op ->
  exists G', log_inv (room - 1) (log_step (self, L) op).1 G' /\ ledger_ok (log_step (self, L) op).1 G' (log_step (self, L) op).2.
Proof.
  intros Hroom Hi HL Hfit. destruct op as [m| |n|tails]; simpl.
  - destruct (append_inv room self G m Hroom Hi Hfit) as (r & self' & G' & -> & Hi' & Hg & Hr). exists G'.
    destruct r as [e|[t off]]; simpl; (split; [done|]); [by eapply ledger_grow|].
    destruct (Hr t off eq_refl) as (Ht & Hm & Hb). by eapply ledger_append_ok.
  - destruct (sync_inv room self G ltac:(lia) Hi) as (r & self' & -> & Hi' & Hc). exists (commit self G).
    assert (Hi'' : log_inv (room - 1) self' (commit self G)) by (eapply log_inv_weaken; [|done]; lia).
    destruct r as [e|[]]; simpl; (split; [done|]); [eapply ledger_grow; [|done]; by apply grow_commit|].
    intros t. cbn [led_durable led_volatile]. destruct (commit_held self self' G t Hc) as [-> ->].
    rewrite of_segment_app, app_nil_r. split; apply HL.
  - destruct (discard_inv room n self G ltac:(lia) Hi) as [Hi' Hc]. exists (undiscarded n self G).
    split; [eapply log_inv_weaken; [|done]; lia|]. intros t. cbn [led_durable led_volatile].
    rewrite !(of_segment_filter t (fun x => n <? x)). destruct (Z.ltb_spec n t) as [Ht|Ht]; [|split; apply sublist_nil_l].
    destruct (undiscarded_held n self _ G t Hc Ht) as [-> ->]. apply HL.
  - destruct (open_log_inv (room - 1) (next_segment_id self) (crash_fs tails (cl_fs self)) G) as (Hi' & Hnew & _).
    + lia.
    + pose proof (li_ids _ _ _ Hi _ (li_cur _ _ _ Hi)). lia.
    + pose proof (li_room _ _ _ Hi). lia.
    + apply crash_wf, (li_fs _ _ _ Hi).
    + eapply crash_kept, log_inv_kept; [|done]. lia.
    + exact (log_inv_below _ _ _ Hi).
    + eexists. split; [exact Hi'|]. intros t. cbn [led_durable led_volatile]. rewrite app_nil_r.
      assert (Hs : of_segment t (led_durable L) `sublist_of` safe (<[cur_id (CommitLog_open config
        (crash_fs tails (cl_fs self))) := ([], [])]> G) t).
      { destruct (HL t) as [Hs _]. unfold safe in *. rewrite lookup_insert. case_decide as E; [|done].
        subst t. by rewrite Hnew in Hs. }
      split; [done|]. etrans; [exact Hs|apply prefix_sublist, safe_held].
Qed.

Lemma log_run_inv room self G L ops :
  Z.of_nat (length ops) <= room -> log_inv room self G -> ledger_ok self G L -> Forall op_fits ops ->
  exists G', log_inv (room - Z.of_nat (length ops)) (foldl log_step (self, L) ops).1 G'
    /\ ledger_ok (foldl log_step (self, L) ops).1 G' (foldl log_step (self, L) ops).2.
Proof.
  intros Hroom Hi HL Hf. revert room self G L Hroom Hi HL. induction Hf as [|op ops Hop _ IH]; intros room self G L Hroom Hi HL.
  - exists G. simpl. by rewrite Z.sub_0_r.
  - simpl length in Hroom. destruct (log_step_inv room self G L op) as (G1 & Hi1 & HL1); [lia|assumption|assumption|assumption|].
    cbn [foldl]. destruct (log_step (self, L) op) as [self1 L1]. cbn [fst snd] in *.
    destruct (IH (room - 1) self1 G1 L1) as (G2 & Hi2 & HL2); [lia|done..|]. exists G2. split; [|exact HL2].
    eapply log_inv_weaken; [|done]. simpl length. lia.
Qed.

(** ** The size of segments *)

Lemma create_or_recycle_size new_id self r self' :
  CommitLog_create_or_recycle_segment config new_id self = (r, self') ->
  exists seg, r = inr seg /\ seg_size seg = HEADER_SIZE.
Proof.
  assert (Hc : forall s, exists seg fs, Segment_create_with_flags new_id (log_flags config) s = (seg, fs) /\ seg_size seg = HEADER_SIZE).
  { intros s. unfold Segment_create_with_flags. destruct (fs_open_truncate _ _ _ _) as [i fs]. rewrite write_header_spec. by eexists _, _. }
  unfold CommitLog_create_or_recycle_segment. destruct (last _) as [path|].
  - destruct (Segment_recycle _ _ _ _) as [[seg fs']|] eqn:E.
    + intros [= <- <-]. exists seg. split; [done|]. revert E. unfold Segment_recycle.
      destruct (fs_log _ !! path); [|done]. cbn [mbind option_bind]. rewrite write_header_spec. by intros [= <- _].
    + destruct (Hc (cl_fs (set_fs (fs_set_log (delete path (fs_log (cl_fs (set_pool (removelast (recycle_pool self)) self))))
        (cl_fs (set_pool (removelast (recycle_pool self)) self))) (set_pool (removelast (recycle_pool self)) self)))) as (seg & fs & -> & Hs).
      intros [= <- <-]. by exists seg.
  - destruct (Hc (cl_fs self)) as (seg & fs & -> & Hs). intros [= <- <-]. by exists seg.
Qed.
Lemma rotate_size self self' : CommitLog_rotate config self = (inr (), self') -> seg_size (current_segment self') = HEADER_SIZE.
Proof.
  unfold CommitLog_rotate, mbind, LogM_bind, log_get, log_modify. destruct (CommitLog_sync_segment self) as [[|] s1]; [done|].
  destruct (log_when _ _ s1) as [[|] s2]; [done|]. destruct (CommitLog_archive_segment config _ s2) as [[|] s3]; [done|].
  destruct (CommitLog_create_or_recycle_segment _ _ _) as [r s4] eqn:E.
  destruct (create_or_recycle_size _ _ _ _ E) as (seg & -> & Hs). by intros [= <-].
Qed.
Lemma sidecar_size segment completed self :
  seg_size (current_segment (CommitLog_update_cdc_sidecar segment completed self).2) = seg_size (current_segment self).
Proof.
  unfold CommitLog_update_cdc_sidecar, mbind, LogM_bind, log_get, log_modify.
  destruct (fs_cdc _ !! _); [done|]. by destruct (fs_log _ !! _).
Qed.
Lemma sync_size b self : seg_size (current_segment (log_when b CommitLog_sync_segment self).2) = seg_size (current_segment self).
Proof.
  destruct b; [|done]. simpl. unfold Segment_sync. by destruct (seg_writer _) as [[i buf]|].
Qed.

Lemma append_size room self G m payload p t off self' :
  1 <= room -> log_inv room self G -> fits m -> max_segment_size config < 2 ^ 63 ->
  to_vec m = Some payload -> encode_payload compress_prepend_size (log_flags config) (log_codec config) payload = Some p ->
  CommitLog_append compress_prepend_size crc32 to_vec config m self = (inr (t, off), self') ->
  seg_size (current_segment self') = wrap_u 64 (off + (9 + Z.of_nat (length p.1)))
  /\ 0 <= off /\ (off = HEADER_SIZE \/ off + Z.of_nat (length payload) + 12 <= max_segment_size config).
Proof.
  intros Hroom Hi Hfit Hmax Hm Hp. unfold CommitLog_append. rewrite Hm, bind_get.
  set (b := max_segment_size config <? _). destruct (when_rotate_inv room self G b Hroom Hi) as (r1 & s1 & G1 & E1 & Hi1 & _).
  assert (Hs1 : r1 = inr () -> seg_size (current_segment s1) = HEADER_SIZE
    \/ seg_size (current_segment s1) + Z.of_nat (length payload) + 12 <= max_segment_size config).
  { intros ->. destruct b eqn:Eb; simpl in E1; [left; by eapply rotate_size|right]. injection E1 as <-.
    by apply Z.ltb_ge in Eb. }
  rewrite (bind_run _ _ _ _ _ E1). destruct r1 as [e|[]]; [done|]. specialize (Hs1 eq_refl). rewrite bind_get.
  destruct (budget_run s1 (mu_cdc_enabled m && cdc_on (cdc config)) payload) as [r2 E2].
  rewrite (bind_run _ _ _ _ _ E2). destruct r2 as [e|[]]; [done|].
  destruct (li_seg _ _ _ Hi1) as (size & i & buf & Hseg & _).
  destruct (append_entry_spec (current_segment s1) i buf payload p (cl_fs s1)) as (x & buf' & _ & E3); [by rewrite Hseg..|done|].
  unfold CommitLog_append_payload at 1. unfold mbind at 1, LogM_bind at 1. rewrite E3, bind_get. cbv zeta.
  set (s3 := set_segment _ s1).
  destruct (log_when (bool_decide (sync_policy config = Batch)) CommitLog_sync_segment s3) as [r4 s4] eqn:E4.
  pose proof (sync_size (bool_decide (sync_policy config = Batch)) s3) as Hs4. rewrite E4 in Hs4. cbn [snd] in Hs4.
  rewrite (bind_run _ _ _ _ _ E4). destruct r4 as [e|[]]; [done|]. rewrite bind_get.
  assert (Hs5 : forall r5 s5, log_when (mu_cdc_enabled m && cdc_on (cdc config))
    (_ ← CommitLog_update_cdc_sidecar (current_segment s4) false; log_modify (set_mirrored true)) s4 = (r5, s5) ->
    seg_size (current_segment s5) = seg_size (current_segment s4)).
  { intros r5 s5. destruct (_ && _); simpl; [|by intros [= <- <-]]. unfold mbind, LogM_bind.
    pose proof (sidecar_size (current_segment s4) false s4) as Hz.
    destruct (CommitLog_update_cdc_sidecar _ _ s4) as [[e|[]] s']; cbn [snd] in Hz; intros [= <- <-]; done. }
  destruct (log_when (mu_cdc_enabled m && cdc_on (cdc config)) _ s4) as [r5 s5] eqn:E5. specialize (Hs5 _ _ eq_refl).
  rewrite (bind_run _ _ _ _ _ E5). destruct r5 as [e|[]]; [done|]. intros H. injection H as _ <- <-.
  cbn [current_segment set_metrics]. rewrite Hs5, Hs4. split; [done|]. split; [apply (li_size _ _ _ Hi1)|done].
Qed.

(** ** What a user of the log needs of the rest *)

Abbreviation replay := (CommitLog_replay_with_policy decompress_size_prepended crc32 from_slice config).
Lemma mark_flushed_inv room self G cf t off : log_inv room self G -> log_inv room (CommitLog_mark_cf_flushed cf t off self) G.
Proof. by intros [H1 H2 H3 H4 H5 H6 H7 H8 H9 H10]. Qed.
Lemma replay_inv room self G policy :
  log_inv room self G -> log_inv room (replay policy self).2 G /\ cur_id (replay policy self).2 = cur_id self.
Proof.
  intros [H1 H2 H3 H4 (size & i & buf & Hs & Hat) H6 H7 H8 H9 H10]. split; [|done].
  destruct (restore_spec _ H1) as ((Hwf & Harc & Hext) & Hfrom & _). unfold CommitLog_replay_with_policy.
  split; cbn [snd cl_fs set_metrics set_fs next_segment_id recycle_pool current_segment]; try done.
  - exists size, i, buf. split; [done|]. intros ms us E. pose proof (Hat ms us E) as Hsa. destruct (Hext _ _ (proj1 Hsa)) as [Hl Hi].
    by apply (seg_at_frame (cl_fs self)).
  - intros id ms us Hne E. destruct (H6 id ms us Hne E) as [j Hj]. exists j. destruct (Hext _ _ (proj1 Hj)) as [Hl Hi].
    by apply (kept_at_frame (cl_fs self)).
  - intros name j id Hl Hp. destruct (Hfrom name (ex_intro _ j Hl)) as [[j' Hj]|[Hr Ha]]; [by eapply H8|by eapply H9].
  - intros Hr name id Hn Hp. rewrite Harc in Hn. by eapply H9.
Qed.
Lemma replay_returns room self G L policy t m :
  0 <= room -> log_inv room self G -> ledger_ok self G L -> (t, m) ∈ led_durable L -> m ∈ rr_mutations (replay policy self).1.
Proof.
  intros Hroom Hi HL Hin. assert (Hm : m ∈ of_segment t (led_durable L)).
  { apply list_elem_of_fmap. exists (t, m). split; [done|]. apply elem_of_filter_bool. split; [done|]. simpl. lia. }
  destruct (kept_replayed policy (restore_archived_segments (archiving config) (cl_fs self)) G) as (_ & Hkept & Hsub);
    [eapply extends_kept; [apply restore_spec, (li_fs _ _ _ Hi)|by eapply log_inv_kept]|].
  eapply elem_of_sublist; [|exact Hsub]. apply list_elem_of_join. exists (safe G t).
  assert (Hs : m ∈ safe G t) by (eapply elem_of_sublist; [exact Hm|apply HL]).
  split; [done|]. apply list_elem_of_fmap. exists t. split; [done|]. apply Hkept.
  unfold safe in Hs. destruct (G !! t); [done|by apply not_elem_of_nil in Hs].
Qed.
End Keeping.

(** C5. Nothing durable is lost: for any run of appends, syncs, discards and
    crashes from a restart on any directory, a replay with either policy returns the
    mutations that were appended, became durable (by a sync, the batch policy, or an
    append that went to another segment) and were not discarded - whatever bytes the
    crashes left after the synced ones, with or without compression, encryption,
    mirroring of segments, recycling of files and archiving.  Those of one segment
    come in the order in which they were appended; the segments come in the order of
    their file names as strings, which is not that of their numbers.

    Compression and encryption invert, the checksum has 32 bits and JSON reads back
    what it wrote ([LogLaws]); the identifiers do not run out of 64 bits; and every
    entry fits a 32-bit length. *)
Theorem commitlog_recovers compress_prepend_size decompress_size_prepended crc32 to_vec from_slice config
    (HL : LogLaws compress_prepend_size decompress_size_prepended crc32 to_vec from_slice config)
    (fs : Fs) (B : Z) (ops : list LogOp) (policy : CorruptionPolicy)
    (Hfs : fs_wf fs) (HB : 0 < B) (Hids : ids_below config B fs) (Hroom : B + 1 + Z.of_nat (length ops) < 2 ^ 64)
    (Hfits : Forall (op_fits compress_prepend_size to_vec config) ops) :
  let '(self, L) := foldl (log_step compress_prepend_size crc32 to_vec config)
                      (CommitLog_open config fs, mkLedger [] []) ops in
  exists order, StronglySorted lt_of (segment_filename <$> order)
    /\ (forall t m, (t, m) ∈ led_durable L -> t ∈ order)
    /\ mjoin ((fun t => of_segment t (led_durable L)) <$> order)
       `sublist_of` rr_mutations (CommitLog_replay_with_policy decompress_size_prepended crc32 from_slice config policy self).1.
Proof.
  destruct (open_log_inv compress_prepend_size crc32 to_vec config (Z.of_nat (length ops)) B fs ∅ ltac:(lia) HB Hroom Hfs)
    as (Hi & _ & _); [intros id ms us E; by rewrite lookup_empty in E|done|].
  destruct (log_run_inv compress_prepend_size decompress_size_prepended crc32 to_vec from_slice config _ _ _ (mkLedger [] []) ops
    (Z.le_refl _) Hi) as (G & Hi' & HG); [|done|].
  { intros u. split; apply sublist_nil_l. }
  destruct (foldl _ _ ops) as [self L]. cbn [fst snd] in *.
  destruct (kept_replayed compress_prepend_size decompress_size_prepended crc32 to_vec from_slice config policy
    (restore_archived_segments (archiving config) (cl_fs self)) G) as (Hs & Hin & Hsub).
  { eapply extends_kept; [apply restore_spec, (li_fs _ _ _ _ _ _ _ Hi')|]. eapply log_inv_kept; [|exact Hi']. lia. }
  eexists. split; [exact Hs|]. split.
  - intros t m Hm. apply Hin. assert (Hs' : m ∈ safe G t); [|unfold safe in Hs'; destruct (G !! t); [done|by apply not_elem_of_nil in Hs']].
    eapply elem_of_sublist; [|apply HG]. apply list_elem_of_fmap. exists (t, m). split; [done|]. apply elem_of_filter_bool. split; [done|]. simpl. lia.
  - etrans; [|exact Hsub]. clear -HG. generalize (omap named_segment (list_segment_files (fs_log (restore_archived_segments (archiving config) (cl_fs self))))).
    intros order. induction order as [|t order IH]; [constructor|]. rewrite !fmap_cons, !mjoin_cons. apply sublist_app; [apply HG|done].
Qed.

(** C31. A segment with several entries keeps to [max_segment_size] up to encoding:
    in any run, an append that succeeds at an offset leaves the segment at the
    size that the offset, the nine bytes of the entry header and the encoded
    payload make, and unless the offset is that of the first entry this exceeds the
    maximum at most by what encoding adds to the payload beyond three bytes, since
    the test for rotation looks at the payload before it is encoded.

    [LogLaws] hold, the identifiers do not run out of 64 bits, every entry fits a
    32-bit length, and the maximum is below [2 ^ 63]. *)
Theorem segment_size_bounded compress_prepend_size decompress_size_prepended crc32 to_vec from_slice config
    (HL : LogLaws compress_prepend_size decompress_size_prepended crc32 to_vec from_slice config)
    (fs : Fs) (B : Z) (ops : list LogOp) (m : Mutation) (payload : list Z) (p : list Z * Z) (t off : Z) (self' : CommitLog)
    (Hfs : fs_wf fs) (HB : 0 < B) (Hids : ids_below config B fs) (Hroom : B + 2 + Z.of_nat (length ops) < 2 ^ 64)
    (Hfits : Forall (op_fits compress_prepend_size to_vec config) (ops ++ [LAppend m]))
    (Hmax : max_segment_size config < 2 ^ 63) (Hm : to_vec m = Some payload)
    (Hp : encode_payload compress_prepend_size (log_flags config) (log_codec config) payload = Some p)
    (Happ : CommitLog_append compress_prepend_size crc32 to_vec config m
              (foldl (log_step compress_prepend_size crc32 to_vec config)
                 (CommitLog_open config fs, mkLedger [] []) ops).1 = (inr (t, off), self')) :
  seg_size (current_segment self') = off + 9 + Z.of_nat (length p.1)
  /\ (off = HEADER_SIZE
      \/ seg_size (current_segment self') <= max_segment_size config + (Z.of_nat (length p.1) - Z.of_nat (length payload) - 3)).
Proof.
  apply Forall_app in Hfits as [Hf1 Hf2%List.Forall_inv].
  destruct (open_log_inv compress_prepend_size crc32 to_vec config (Z.of_nat (length ops) + 1) B fs ∅ ltac:(lia) HB ltac:(lia) Hfs)
    as (Hi & _ & _); [intros id ms us E; by rewrite lookup_empty in E|done|].
  destruct (log_run_inv compress_prepend_size decompress_size_prepended crc32 to_vec from_slice config
    (Z.of_nat (length ops) + 1) _ _ (mkLedger [] []) ops ltac:(lia) Hi) as (G & Hi' & _); [intros u; split; apply sublist_nil_l|done|].
  replace (Z.of_nat (length ops) + 1 - Z.of_nat (length ops)) with 1 in Hi' by lia.
  eapply append_size in Happ as (Hs & Hoff & Ho); [|done|done|exact Hi'|exact Hf2|exact Hmax|exact Hm|exact Hp].
  assert (Hlen : in_u 32 (Z.of_nat (length p.1))) by by eapply Hf2.
  unfold in_u in Hlen. rewrite Hs, wrap_u_id by (unfold in_u, HEADER_SIZE in *; lia).
  split; [lia|]. destruct Ho as [Ho|Ho]; [by left|right; lia].
Qed.

(** ** An instance *)

Module Sample.
Definition row : MutationRow := mkMutationRow [1] [mkCellMutation "v" (Some [7]) 5 0 None false] false None.
Definition m0 : Mutation := mkMutation "ks" "t" [42] [row] 5 true [] None [].
Definition xor : CommitLogEncryptor :=
  mkCommitLogEncryptor (fun p => Some ((fun b => Z.lxor b 90) <$> p)) (fun p => Some ((fun b => Z.lxor b 90) <$> p)) true.
Definition config : CommitLogConfig :=
  mkCommitLogConfig 60 (Periodic 10000) true StopOnCorrupt (mkArchivingConfig true true) (mkCdcConfig true 10000) 1 (Some xor).
(** The JSON form of one mutation. *)
Definition to_vec (m : Mutation) : option (list Z) := if bool_decide (m = m0) then Some [123; 125] else None.
Definition from_slice (p : list Z) : option Mutation := if bool_decide (p = [123; 125]) then Some m0 else None.
Definition compress (p : list Z) : list Z := 1 :: p.
Definition decompress (p : list Z) : option (list Z) := Some (tail p).
Definition crc32 (p : list Z) : Z := foldl Z.add 0 p mod 2 ^ 32.

Lemma laws : LogLaws compress decompress crc32 to_vec from_slice config.
Proof.
  split.
  - done.
  - intros p. unfold crc32, in_u. apply Z.mod_pos_bound. lia.
  - intros m p. unfold to_vec. destruct (bool_decide_reflect (m = m0)) as [->|]; [|done]. by intros [= <-].
  - intros e p c [= <-] [= <-]. cbn [decrypt_segment xor]. f_equal. rewrite <- list_fmap_compose. symmetry.
    rewrite <- (list_fmap_id p) at 1. apply list_fmap_ext. intros i x _. simpl.
    by rewrite Z.lxor_assoc, Z.lxor_nilpotent, Z.lxor_0_r.
Qed.

Definition empty_fs : Fs := mkFs ∅ 0 ∅ ∅ ∅.
Definition ops : list LogOp :=
  [LAppend m0; LAppend m0; LAppend m0; LAppend m0; LAppend m0; LSync; LAppend m0; LCrash {[0 := [9; 9]; 2 := [3]]};
   LAppend m0; LDiscard 1; LAppend m0; LAppend m0; LAppend m0].
Lemma empty_wf : fs_wf empty_fs.
Proof.
  split; cbn.
  - intros n i Hi. by rewrite lookup_empty in Hi.
  - intros n i Hi. by rewrite lookup_empty in Hi.
  - intros i [f Hf]. by rewrite lookup_empty in Hf.
  - intros n n' i Hi. by rewrite lookup_empty in Hi.
  - intros n n' i Hi. by rewrite lookup_empty in Hi.
Qed.
Lemma empty_below : ids_below config 1 empty_fs.
Proof.
  intros name id _ [[i Hi]|[_ [i Hi]]]; unfold empty_fs in Hi; cbn [fs_log fs_archive] in Hi; by rewrite lookup_empty in Hi.
Qed.
Lemma m0_fits : op_fits compress to_vec config (LAppend m0).
Proof.
  intros payload p. unfold to_vec. rewrite bool_decide_eq_true_2 by done. intros [= <-] [= <-]. by unfold in_u.
Qed.
Lemma ops_fit : Forall (op_fits compress to_vec config) ops.
Proof.
  pose proof m0_fits. unfold ops. repeat (apply List.Forall_cons; [done|]). apply List.Forall_nil.
Qed.
Lemma more_ops_fit : Forall (op_fits compress to_vec config) (ops ++ [LAppend m0]).
Proof. apply Forall_app. split; [exact ops_fit|]. apply List.Forall_cons; [exact m0_fits|apply List.Forall_nil]. Qed.
End Sample.

(** The log rotates and is mirrored, restarts after a crash that leaves stray
    bytes and loses a mutation, discards its first segment and recycles the file;
    the two durable mutations of the second segment come back. *)
Lemma commitlog_recovers_witness :
  let r := foldl (log_step Sample.compress Sample.crc32 Sample.to_vec Sample.config)
             (CommitLog_open Sample.config Sample.empty_fs, mkLedger [] []) Sample.ops in
  of_segment 2 (led_durable r.2) = [Sample.m0; Sample.m0]
  /\ exists order, StronglySorted lt_of (segment_filename <$> order)
    /\ (forall t m, (t, m) ∈ led_durable r.2 -> t ∈ order)
    /\ mjoin ((fun t => of_segment t (led_durable r.2)) <$> order) `sublist_of` rr_mutations
       (CommitLog_replay_with_policy Sample.decompress Sample.crc32 Sample.from_slice Sample.config StopOnCorrupt r.1).1.
Proof.
  intros r. split; [vm_compute; reflexivity|].
  pose proof (commitlog_recovers _ _ _ _ _ _ Sample.laws Sample.empty_fs 1 Sample.ops StopOnCorrupt) as H.
  change (foldl _ _ Sample.ops) with r in H. destruct r as [self L]. apply H.
  - exact Sample.empty_wf.
  - done.
  - exact Sample.empty_below.
  - done.
  - exact Sample.ops_fit.
Defined.

Lemma segment_size_bounded_witness :
  exists self', CommitLog_append Sample.compress Sample.crc32 Sample.to_vec Sample.config Sample.m0
    (foldl (log_step Sample.compress Sample.crc32 Sample.to_vec Sample.config)
       (CommitLog_open Sample.config Sample.empty_fs, mkLedger [] []) Sample.ops).1 = (inr (4, 27), self')
  /\ seg_size (current_segment self') = 38 /\ seg_size (current_segment self') <= max_segment_size Sample.config.
Proof.
  set (s := (foldl _ _ Sample.ops).1).
  assert (E0 : (CommitLog_append Sample.compress Sample.crc32 Sample.to_vec Sample.config Sample.m0 s).1 = inr (4, 27))
    by (vm_compute; reflexivity).
  destruct (CommitLog_append _ _ _ _ _ s) as [r self'] eqn:E. cbn [fst] in E0. subst r. exists self'. split; [reflexivity|].
  destruct (segment_size_bounded _ _ _ _ _ _ Sample.laws Sample.empty_fs 1 Sample.ops Sample.m0 [123; 125]
    ([33; 39], 2) 4 27 self' Sample.empty_wf eq_refl Sample.empty_below eq_refl
    Sample.more_ops_fit eq_refl eq_refl eq_refl E) as [Hs Hb].
  rewrite Hs in Hb |- *. split; [reflexivity|]. destruct Hb as [Hb|Hb]; [discriminate Hb|]. vm_compute. discriminate.
Defined.

(** A segment that was discarded into the pool of files to recycle keeps its name
    and its entries until it is reused: a restart in between replays them. *)
Example pooled_segment_replayed :
  let ops := [LAppend Sample.m0; LAppend Sample.m0; LAppend Sample.m0; LAppend Sample.m0; LSync; LDiscard 1; LCrash ∅] in
  let r := foldl (log_step Sample.compress Sample.crc32 Sample.to_vec Sample.config)
             (CommitLog_open Sample.config Sample.empty_fs, mkLedger [] []) ops in
  led_durable r.2 = [(2, Sample.m0)]
  /\ rr_mutations (CommitLog_replay_with_policy Sample.decompress Sample.crc32 Sample.from_slice Sample.config StopOnCorrupt r.1).1
     = [Sample.m0; Sample.m0; Sample.m0; Sample.m0].
Proof. by vm_compute. Qed.

(** A recycled file is truncated under its second name too: what a consumer of
    [cdc_raw] finds as segment 1 is the new, empty segment 4. *)
Example recycled_mirror_truncated :
  let fs := cl_fs (foldl (log_step Sample.compress Sample.crc32 Sample.to_vec Sample.config)
    (CommitLog_open Sample.config Sample.empty_fs, mkLedger [] []) Sample.ops).1 in
  (i ← fs_cdc fs !! "CommitLog-1.log"%string;
   match Segment_open_for_read "CommitLog-1.log" (file_content fs i) with
   | inr seg => Some (seg_id seg, seg_size seg)
   | inl _ => None
   end) = Some (4, 16).
Proof. by vm_compute. Qed.

(** The names of segments do not sort as their numbers: replay reads segment 10
    before segment 9. *)
Example segment_names_order : cmp (segment_filename 10) (segment_filename 9) = Lt.
Proof. by vm_compute. Qed.
