(* ===== verification/Rows.v ===== *)
(** The rich row model (crates/cassandra-storage/src/rows: cell.rs, liveness.rs,
    complex_column.rs, encoding_stats.rs, unfiltered.rs).

    A row is a primary-key liveness marker, a row deletion and a map of simple
    and complex columns.  The file shows that replicas which merge the same
    writes in any order and multiplicity hold the same row, where a write is
    identified by its cell, timestamp and kind; that dropping the identification
    breaks it; and that [live_data_after] computes exactly the visible cells. *)
From S2P Require Export Memtable.

(** * Cells (cell.rs) *)

Abbreviation CellPath := (list Z).

Record CellData := mkCellData {
  cd_column : string;
  cd_value : option (list Z);
  cd_timestamp : Z;
  cd_ttl : Z;
  cd_local_deletion_time : Z;
  cd_path : option CellPath;
}.
#[export] Instance CellData_eq_dec : EqDecision CellData.
Proof. solve_decision. Defined.

Definition CellData_is_tombstone (c : CellData) : bool :=
  match cd_value c with None => true | Some _ => false end
  && negb (cd_local_deletion_time c =? i32_MAX).

Definition CellData_is_expiring (c : CellData) : bool := negb (cd_ttl c =? NO_TTL).

Definition CellData_is_live (c : CellData) (now_in_seconds : Z) : bool :=
  if CellData_is_tombstone c then false
  else if CellData_is_expiring c then now_in_seconds <? cd_local_deletion_time c
  else true.

Definition CellData_deletion_time (c : CellData) : DeletionTime :=
  if CellData_is_tombstone c
  then DeletionTime_new (cd_timestamp c) (cd_local_deletion_time c)
  else DeletionTime_LIVE.

Definition CellData_merge_with (self other : CellData) : CellData :=
  if cd_timestamp self <? cd_timestamp other then other
  else if (cd_timestamp other =? cd_timestamp self)
          && CellData_is_tombstone other && negb (CellData_is_tombstone self)
  then other
  else self.

(** [impl From<&Cell> for CellData] and back. *)
Definition CellData_from (cell : Cell) : CellData :=
  mkCellData (Cell_column cell) (Cell_value cell) (Cell_timestamp cell) (Cell_ttl cell)
    (default i32_MAX (Cell_local_deletion_time cell)) None.

Definition Cell_from (cell : CellData) : Cell :=
  mkCell (cd_column cell) (cd_value cell) (cd_timestamp cell) (cd_ttl cell)
    (if cd_local_deletion_time cell =? i32_MAX then None else Some (cd_local_deletion_time cell))
    (CellData_is_tombstone cell).

(** * Primary-key liveness (liveness.rs) *)

Record LivenessInfo := mkLivenessInfo {
  li_timestamp : Z;
  li_ttl : Z;
  li_local_deletion_time : Z;
}.
#[export] Instance LivenessInfo_eq_dec : EqDecision LivenessInfo.
Proof. solve_decision. Defined.

Definition LivenessInfo_EMPTY : LivenessInfo := mkLivenessInfo NO_TIMESTAMP NO_TTL NO_DELETION_TIME.
Definition LivenessInfo_create (timestamp : Z) : LivenessInfo :=
  mkLivenessInfo timestamp NO_TTL NO_DELETION_TIME.
Definition LivenessInfo_expiring (timestamp ttl ldt : Z) : LivenessInfo :=
  mkLivenessInfo timestamp ttl ldt.
Definition LivenessInfo_is_empty (l : LivenessInfo) : bool := li_timestamp l =? NO_TIMESTAMP.
Definition LivenessInfo_is_expiring (l : LivenessInfo) : bool := negb (li_ttl l =? NO_TTL).
Definition LivenessInfo_is_expired (l : LivenessInfo) (now_in_seconds : Z) : bool :=
  LivenessInfo_is_expiring l && (li_local_deletion_time l <=? now_in_seconds).
Definition LivenessInfo_is_live (l : LivenessInfo) (now_in_seconds : Z) : bool :=
  negb (LivenessInfo_is_empty l) && negb (LivenessInfo_is_expired l now_in_seconds).

Definition LivenessInfo_supersedes (self other : LivenessInfo) : bool :=
  if negb (li_timestamp self =? li_timestamp other) then li_timestamp other <? li_timestamp self
  else if negb (eqb (LivenessInfo_is_expiring self) (LivenessInfo_is_expiring other))
  then negb (LivenessInfo_is_expiring self)
  else if negb (li_ttl self =? li_ttl other) then li_ttl other <? li_ttl self
  else li_local_deletion_time other <? li_local_deletion_time self.

Definition LivenessInfo_merge (a b : LivenessInfo) : LivenessInfo :=
  if LivenessInfo_is_empty a then b
  else if LivenessInfo_is_empty b then a
  else if LivenessInfo_supersedes a b then a else b.

(** * Complex columns (complex_column.rs) *)

Record ComplexColumnData := mkComplexColumnData {
  ccd_column : string;
  complex_deletion : DeletionTime;
  ccd_cells : ordmap CellPath CellData;
}.

Definition ComplexColumnData_new (column : string) : ComplexColumnData :=
  mkComplexColumnData column DeletionTime_LIVE ∅.
Definition ComplexColumnData_with_deletion (column : string) (d : DeletionTime) : ComplexColumnData :=
  mkComplexColumnData column d ∅.

(** [None] is the panic of [expect] on a cell without a path. *)
Definition ComplexColumnData_add_cell (self : ComplexColumnData) (cell : CellData)
    : option ComplexColumnData :=
  path ← cd_path cell;
  Some (mkComplexColumnData (ccd_column self) (complex_deletion self)
    (upsert (fun existing => CellData_merge_with existing cell) cell path (ccd_cells self))).

Definition ComplexColumnData_cell_survives (self : ComplexColumnData) (now_in_seconds : Z)
    (enclosing_deletion : DeletionTime) (cell : CellData) : bool :=
  if negb (CellData_is_live cell now_in_seconds) then false
  else if negb (DeletionTime_is_live (complex_deletion self))
          && (cd_timestamp cell <=? marked_for_delete_at (complex_deletion self)) then false
  else if negb (DeletionTime_is_live enclosing_deletion)
          && (cd_timestamp cell <=? marked_for_delete_at enclosing_deletion) then false
  else true.

Definition ComplexColumnData_live_cells_after (self : ComplexColumnData) (now_in_seconds : Z)
    (enclosing_deletion : DeletionTime) : list CellData :=
  List.filter (ComplexColumnData_cell_survives self now_in_seconds enclosing_deletion)
    (values (ccd_cells self)).

Definition ComplexColumnData_live_cells (self : ComplexColumnData) (now_in_seconds : Z) : list CellData :=
  ComplexColumnData_live_cells_after self now_in_seconds DeletionTime_LIVE.

Definition is_nil {A} (l : list A) : bool := match l with [] => true | _ => false end.

Definition ComplexColumnData_is_empty_at (self : ComplexColumnData) (now_in_seconds : Z) : bool :=
  is_nil (ComplexColumnData_live_cells self now_in_seconds).
Definition ComplexColumnData_is_empty_after (self : ComplexColumnData) (now_in_seconds : Z)
    (enclosing_deletion : DeletionTime) : bool :=
  is_nil (ComplexColumnData_live_cells_after self now_in_seconds enclosing_deletion).

Definition ComplexColumnData_retain_live_cells_after (self : ComplexColumnData) (now_in_seconds : Z)
    (enclosing_deletion : DeletionTime) : ComplexColumnData :=
  mkComplexColumnData (ccd_column self) (complex_deletion self)
    (omap (fun cell =>
      if CellData_is_live cell now_in_seconds
         && (DeletionTime_is_live (complex_deletion self)
             || (marked_for_delete_at (complex_deletion self) <? cd_timestamp cell))
         && (DeletionTime_is_live enclosing_deletion
             || (marked_for_delete_at enclosing_deletion <? cd_timestamp cell))
      then Some cell else None) (ccd_cells self)).

Definition ComplexColumnData_merge_with (self other : ComplexColumnData) : ComplexColumnData :=
  mkComplexColumnData (ccd_column self)
    (if DeletionTime_supersedes (complex_deletion other) (complex_deletion self)
     then complex_deletion other else complex_deletion self)
    (merge_loop CellData_merge_with (ccd_cells self) (ccd_cells other)).

#[global] Arguments ComplexColumnData_retain_live_cells_after : simpl never.

(** * Rows (unfiltered.rs) *)

Inductive ColumnData :=
| Simple (cell : CellData)
| Complex (ccd : ComplexColumnData).

Record RowData := mkRowData {
  rd_clustering_key : list Z;
  liveness_info : LivenessInfo;
  rd_deletion : DeletionTime;
  rd_columns : ordmap string ColumnData;
  is_static : bool;
}.

Definition RowData_new (clustering_key : list Z) : RowData :=
  mkRowData clustering_key LivenessInfo_EMPTY DeletionTime_LIVE ∅ false.
Definition RowData_new_static : RowData :=
  mkRowData [] LivenessInfo_EMPTY DeletionTime_LIVE ∅ true.

Definition row_timestamp_survives (timestamp : Z) (deletion : DeletionTime) : bool :=
  DeletionTime_is_live deletion || (marked_for_delete_at deletion <? timestamp).

Definition ColumnData_has_live (now_in_seconds : Z) (active_deletion : DeletionTime) (cd : ColumnData) : bool :=
  match cd with
  | Simple cell =>
      CellData_is_live cell now_in_seconds && row_timestamp_survives (cd_timestamp cell) active_deletion
  | Complex ccd => negb (ComplexColumnData_is_empty_after ccd now_in_seconds active_deletion)
  end.

Definition RowData_has_live_data_after (self : RowData) (now_in_seconds : Z)
    (enclosing_deletion : DeletionTime) : bool :=
  let active_deletion :=
    if DeletionTime_supersedes enclosing_deletion (rd_deletion self)
    then enclosing_deletion else rd_deletion self in
  if LivenessInfo_is_live (liveness_info self) now_in_seconds
     && row_timestamp_survives (li_timestamp (liveness_info self)) active_deletion
  then true
  else existsb (ColumnData_has_live now_in_seconds active_deletion) (values (rd_columns self)).

Definition RowData_has_live_data (self : RowData) (now_in_seconds : Z) : bool :=
  RowData_has_live_data_after self now_in_seconds DeletionTime_LIVE.

Definition RowData_is_shadowed_by (self : RowData) (now_in_seconds : Z) (deletion : DeletionTime) : bool :=
  negb (RowData_has_live_data_after self now_in_seconds deletion).

Definition RowData_apply_deletion (self : RowData) (deletion : DeletionTime) : RowData :=
  mkRowData (rd_clustering_key self) (liveness_info self)
    (if DeletionTime_supersedes deletion (rd_deletion self) then deletion else rd_deletion self)
    (rd_columns self) (is_static self).

(** The closure of [row.columns.retain] in [live_data_after]. *)
Definition ColumnData_retain_live (now_in_seconds : Z) (active_deletion : DeletionTime)
    (column : ColumnData) : option ColumnData :=
  match column with
  | Simple cell =>
      if CellData_is_live cell now_in_seconds
         && row_timestamp_survives (cd_timestamp cell) active_deletion
      then Some column else None
  | Complex complex =>
      let complex := ComplexColumnData_retain_live_cells_after complex now_in_seconds active_deletion in
      if is_nil (entries (ccd_cells complex)) then None else Some (Complex complex)
  end.

Definition RowData_live_data_after (self : RowData) (now_in_seconds : Z)
    (enclosing_deletion : DeletionTime) : option RowData :=
  let active_deletion :=
    if DeletionTime_supersedes enclosing_deletion (rd_deletion self)
    then enclosing_deletion else rd_deletion self in
  let row := mkRowData (rd_clustering_key self)
    (if negb (row_timestamp_survives (li_timestamp (liveness_info self)) active_deletion)
     then LivenessInfo_EMPTY else liveness_info self)
    (rd_deletion self)
    (omap (ColumnData_retain_live now_in_seconds active_deletion) (rd_columns self))
    (is_static self) in
  if RowData_has_live_data_after row now_in_seconds active_deletion then Some row else None.

(** The [and_modify] closures of [add_cell], [add_complex_column] and
    [merge_with]: a column of the other kind is left as it is. *)
Definition ColumnData_merge (existing col_data : ColumnData) : ColumnData :=
  match col_data, existing with
  | Simple cell, Simple existing_cell => Simple (CellData_merge_with existing_cell cell)
  | Complex ccd, Complex existing_ccd => Complex (ComplexColumnData_merge_with existing_ccd ccd)
  | _, _ => existing
  end.

Definition RowData_with_columns (self : RowData) (columns : ordmap string ColumnData) : RowData :=
  mkRowData (rd_clustering_key self) (liveness_info self) (rd_deletion self) columns (is_static self).

Definition RowData_add_cell (self : RowData) (cell : CellData) : RowData :=
  RowData_with_columns self
    (upsert (fun existing => ColumnData_merge existing (Simple cell)) (Simple cell)
      (cd_column cell) (rd_columns self)).

Definition RowData_add_complex_column (self : RowData) (ccd : ComplexColumnData) : RowData :=
  RowData_with_columns self
    (upsert (fun existing => ColumnData_merge existing (Complex ccd)) (Complex ccd)
      (ccd_column ccd) (rd_columns self)).

Definition RowData_merge_with (self other : RowData) : RowData :=
  mkRowData (rd_clustering_key self)
    (LivenessInfo_merge (liveness_info self) (liveness_info other))
    (if DeletionTime_supersedes (rd_deletion other) (rd_deletion self)
     then rd_deletion other else rd_deletion self)
    (merge_loop ColumnData_merge (rd_columns self) (rd_columns other))
    (is_static self).

(** [impl From<&Row> for RowData]. *)
Definition max_timestamp (cells : list Cell) : option Z :=
  match cells with
  | [] => None
  | c :: cells' => Some (foldl (fun m c => Z.max m (Cell_timestamp c)) (Cell_timestamp c) cells')
  end.

Definition RowData_from (row : Row) : RowData :=
  let data := RowData_new (Row_clustering_key row) in
  let data :=
    if Row_is_tombstone row then
      let ldt := default i32_MAX (Row_local_deletion_time row) in
      let max_ts := default 0 (max_timestamp (Row_cells row)) in
      mkRowData (rd_clustering_key data) (liveness_info data) (DeletionTime_new max_ts ldt)
        (rd_columns data) (is_static data)
    else data in
  foldl (fun data cell => RowData_add_cell data (CellData_from cell)) data (Row_cells row).

(** ** Markers and the unfiltered stream's items *)

Inductive ClusteringBoundKind := InclusiveStart | ExclusiveStart | InclusiveEnd | ExclusiveEnd.
#[export] Instance ClusteringBoundKind_eq_dec : EqDecision ClusteringBoundKind.
Proof. solve_decision. Defined.

Definition ClusteringBoundKind_is_start (k : ClusteringBoundKind) : bool :=
  match k with InclusiveStart | ExclusiveStart => true | _ => false end.
Definition ClusteringBoundKind_is_end (k : ClusteringBoundKind) : bool :=
  negb (ClusteringBoundKind_is_start k).
Definition ClusteringBoundKind_is_inclusive (k : ClusteringBoundKind) : bool :=
  match k with InclusiveStart | InclusiveEnd => true | _ => false end.

Record ClusteringBound := mkClusteringBound {
  cb_kind : ClusteringBoundKind;
  cb_values : list Z;
}.
#[export] Instance ClusteringBound_eq_dec : EqDecision ClusteringBound.
Proof. solve_decision. Defined.

Inductive RangeTombstoneMarker :=
| Open (bound : ClusteringBound) (deletion : DeletionTime)
| Close (bound : ClusteringBound) (deletion : DeletionTime)
| Boundary (bound : ClusteringBound) (close_deletion open_deletion : DeletionTime).
#[export] Instance RangeTombstoneMarker_eq_dec : EqDecision RangeTombstoneMarker.
Proof. solve_decision. Defined.

Definition RangeTombstoneMarker_clustering_bound (m : RangeTombstoneMarker) : ClusteringBound :=
  match m with Open b _ | Close b _ | Boundary b _ _ => b end.
Definition RangeTombstoneMarker_is_open (m : RangeTombstoneMarker) : bool :=
  match m with Open _ _ | Boundary _ _ _ => true | Close _ _ => false end.
Definition RangeTombstoneMarker_is_close (m : RangeTombstoneMarker) : bool :=
  match m with Close _ _ | Boundary _ _ _ => true | Open _ _ => false end.

Inductive Unfiltered :=
| URow (row : RowData)
| UMarker (marker : RangeTombstoneMarker).

Definition Unfiltered_clustering_key (u : Unfiltered) : list Z :=
  match u with
  | URow row => rd_clustering_key row
  | UMarker marker => cb_values (RangeTombstoneMarker_clustering_bound marker)
  end.
Definition Unfiltered_is_row (u : Unfiltered) : bool :=
  match u with URow _ => true | UMarker _ => false end.
Definition Unfiltered_is_marker (u : Unfiltered) : bool :=
  match u with UMarker _ => true | URow _ => false end.

(** * Encoding statistics (encoding_stats.rs) *)

Record EncodingStats := mkEncodingStats {
  min_timestamp : Z;
  min_local_deletion_time : Z;
  min_ttl : Z;
}.
#[export] Instance EncodingStats_eq_dec : EqDecision EncodingStats.
Proof. solve_decision. Defined.

Definition EncodingStats_NONE : EncodingStats := mkEncodingStats NO_TIMESTAMP NO_DELETION_TIME NO_TTL.

Definition EncodingStats_update_timestamp (s : EncodingStats) (timestamp : Z) : EncodingStats :=
  if negb (timestamp =? NO_TIMESTAMP)
     && ((min_timestamp s =? NO_TIMESTAMP) || (timestamp <? min_timestamp s))
  then mkEncodingStats timestamp (min_local_deletion_time s) (min_ttl s) else s.

Definition EncodingStats_update_local_deletion_time (s : EncodingStats) (ldt : Z) : EncodingStats :=
  if negb (ldt =? NO_DELETION_TIME)
     && ((min_local_deletion_time s =? NO_DELETION_TIME) || (ldt <? min_local_deletion_time s))
  then mkEncodingStats (min_timestamp s) ldt (min_ttl s) else s.

Definition EncodingStats_update_ttl (s : EncodingStats) (ttl : Z) : EncodingStats :=
  if negb (ttl =? NO_TTL) && ((min_ttl s =? NO_TTL) || (ttl <? min_ttl s))
  then mkEncodingStats (min_timestamp s) (min_local_deletion_time s) ttl else s.

Definition EncodingStats_merge_with (self other : EncodingStats) : EncodingStats :=
  let self := EncodingStats_update_timestamp self (min_timestamp other) in
  let self := EncodingStats_update_local_deletion_time self (min_local_deletion_time other) in
  EncodingStats_update_ttl self (min_ttl other).

(** * Merging is a join *)

(** The order a cell merge maximises: the timestamp, then being a tombstone. *)
Definition cell_rank (c : CellData) : Z * Z :=
  (cd_timestamp c, if CellData_is_tombstone c then 1 else 0).

Lemma CellData_merge_max x y :
  (CellData_merge_with x y = x /\ le_of (cell_rank y) (cell_rank x))
  \/ (CellData_merge_with x y = y /\ le_of (cell_rank x) (cell_rank y)).
Proof.
  unfold CellData_merge_with, cell_rank. rewrite !le_of_pair.
  destruct (CellData_is_tombstone x), (CellData_is_tombstone y);
    repeat case_match; bool_to_prop; simpl in *; try discriminate;
    (left; split; [done|lia]) || (right; split; [done|lia]).
Qed.

Definition liveness_rank (l : LivenessInfo) : Z * (Z * (Z * Z)) :=
  (li_timestamp l, (if LivenessInfo_is_expiring l then 0 else 1, (li_ttl l, li_local_deletion_time l))).

(** The widths of the fields, and that only [EMPTY] has no timestamp. *)
Definition LivenessInfo_ok (l : LivenessInfo) : Prop :=
  NO_TIMESTAMP <= li_timestamp l /\ (li_timestamp l = NO_TIMESTAMP -> l = LivenessInfo_EMPTY).

Lemma liveness_rank_inj x y : liveness_rank x = liveness_rank y -> x = y.
Proof. destruct x, y. unfold liveness_rank. simpl. congruence. Qed.

Lemma LivenessInfo_supersedes_lt x y :
  LivenessInfo_supersedes x y = true <-> lt_of (liveness_rank y) (liveness_rank x).
Proof.
  unfold LivenessInfo_supersedes, liveness_rank, lt_of. rewrite !cmp_pair.
  unfold cmp, Z_ord, then_with.
  destruct (Z.eqb_spec (li_timestamp x) (li_timestamp y)) as [->|Hne]; simpl.
  - rewrite Z.compare_refl. destruct (LivenessInfo_is_expiring x), (LivenessInfo_is_expiring y);
      simpl; try done;
      destruct (Z.eqb_spec (li_ttl x) (li_ttl y)) as [->|Hne]; simpl;
      rewrite ?Z.compare_refl, Z.ltb_lt, <- Z.compare_lt_iff; try done;
      destruct (Z.compare_spec (li_ttl y) (li_ttl x)); try done; congruence.
  - rewrite Z.ltb_lt, <- Z.compare_lt_iff.
    destruct (Z.compare_spec (li_timestamp y) (li_timestamp x)); try done; congruence.
Qed.

Lemma liveness_rank_EMPTY l : LivenessInfo_ok l -> le_of (liveness_rank LivenessInfo_EMPTY) (liveness_rank l).
Proof.
  intros [Hl He]. destruct (decide (li_timestamp l = NO_TIMESTAMP)) as [E|Hne].
  - rewrite (He E). apply le_of_refl.
  - apply lt_of_le. unfold lt_of, liveness_rank. rewrite cmp_pair. simpl li_timestamp.
    unfold cmp at 1, Z_ord. by replace (NO_TIMESTAMP ?= li_timestamp l) with Lt
      by (symmetry; apply Z.compare_lt_iff; lia).
Qed.

Lemma LivenessInfo_merge_max x y :
  LivenessInfo_ok x -> LivenessInfo_ok y ->
  (LivenessInfo_merge x y = x /\ le_of (liveness_rank y) (liveness_rank x))
  \/ (LivenessInfo_merge x y = y /\ le_of (liveness_rank x) (liveness_rank y)).
Proof.
  intros Hx Hy. unfold LivenessInfo_merge, LivenessInfo_is_empty.
  destruct (Z.eqb_spec (li_timestamp x) NO_TIMESTAMP) as [E|].
  { right. split; [done|]. rewrite (proj2 Hx E). by apply liveness_rank_EMPTY. }
  destruct (Z.eqb_spec (li_timestamp y) NO_TIMESTAMP) as [E|].
  { left. split; [done|]. rewrite (proj2 Hy E). by apply liveness_rank_EMPTY. }
  destruct (LivenessInfo_supersedes x y) eqn:E; [left|right]; (split; [done|]).
  - by apply lt_of_le, LivenessInfo_supersedes_lt.
  - apply not_lt_of. by rewrite <- LivenessInfo_supersedes_lt, E.
Qed.

#[export] Instance LivenessInfo_semilattice : Semilattice LivenessInfo_ok LivenessInfo_merge.
Proof.
  apply (semilattice_of_rank _ liveness_rank).
  - intros x y _ _. apply liveness_rank_inj.
  - apply LivenessInfo_merge_max.
Qed.

(** ** Rows over a history of writes

    [W] is the set of cells ever written.  The one assumption is that a write
    is identified by its place, timestamp and kind; [schema] says which columns
    are complex. *)
Section History.
Context (W : CellData -> Prop) (schema : string -> bool).

Definition history_ok : Prop := forall a b, W a -> W b ->
  cd_column a = cd_column b -> cd_path a = cd_path b ->
  cd_timestamp a = cd_timestamp b -> CellData_is_tombstone a = CellData_is_tombstone b -> a = b.

Definition cell_at (column : string) (path : option CellPath) (c : CellData) : Prop :=
  W c /\ cd_column c = column /\ cd_path c = path.

Definition complex_at (column : string) (ccd : ComplexColumnData) : Prop :=
  ccd_column ccd = column /\ map_all (fun p => cell_at column (Some p)) (ccd_cells ccd).

Definition column_at (column : string) (cd : ColumnData) : Prop :=
  match cd with
  | Simple c => schema column = false /\ cell_at column None c
  | Complex ccd => schema column = true /\ complex_at column ccd
  end.

(** A version of the row with key [ck] made of writes of the history. *)
Record row_at (ck : list Z) (static : bool) (r : RowData) : Prop := {
  ra_key : rd_clustering_key r = ck;
  ra_static : is_static r = static;
  ra_live : LivenessInfo_ok (liveness_info r);
  ra_columns : map_all column_at (rd_columns r);
}.

Hypothesis HW : history_ok.

#[local] Instance cell_semilattice column path : Semilattice (cell_at column path) CellData_merge_with.
Proof.
  apply (semilattice_of_rank _ cell_rank).
  - intros x y (Hx & Hcx & Hpx) (Hy & Hcy & Hpy) [= Ht E]. apply HW; try congruence.
    by destruct (CellData_is_tombstone x), (CellData_is_tombstone y).
  - intros x y _ _. apply CellData_merge_max.
Qed.

Lemma cells_semilattice column :
  Semilattice (map_all (fun p => cell_at column (Some p))) (merge_loop CellData_merge_with).
Proof. apply merge_loop_semilattice. intros p. apply _. Qed.

#[local] Instance complex_semilattice column :
  Semilattice (complex_at column) ComplexColumnData_merge_with.
Proof.
  pose proof (cells_semilattice column) as Hsl. unfold complex_at. split.
  - intros x y [Hx Hx'] [Hy Hy']. split; [done|]. by apply sl_closed.
  - intros x y z [Hx Hx'] [Hy Hy'] [Hz Hz']. unfold ComplexColumnData_merge_with; simpl. f_equal.
    + apply supersede_assoc.
    + by apply sl_assoc.
  - intros x y [Hx Hx'] [Hy Hy']. unfold ComplexColumnData_merge_with. f_equal.
    + congruence.
    + apply supersede_comm.
    + by apply sl_comm.
  - intros [n d m] [Hx Hx']. unfold ComplexColumnData_merge_with; simpl in *. f_equal.
    + apply (supersede_idem d).
    + by apply sl_idem.
Qed.

#[local] Instance column_semilattice column : Semilattice (column_at column) ColumnData_merge.
Proof.
  split.
  - intros [x|x] [y|y] [? Hx] [? Hy]; try congruence; split; try done;
      by apply (sl_closed (D:=_ column) x y) || by apply (sl_closed (D:=cell_at column None)).
  - intros [x|x] [y|y] [z|z] [? Hx] [? Hy] [? Hz]; try congruence; simpl; f_equal.
    + by apply (sl_assoc (D:=cell_at column None)).
    + by apply (sl_assoc (D:=complex_at column)).
  - intros [x|x] [y|y] [? Hx] [? Hy]; try congruence; simpl; f_equal.
    + by apply (sl_comm (D:=cell_at column None)).
    + by apply (sl_comm (D:=complex_at column)).
  - intros [x|x] [? Hx]; simpl; f_equal.
    + by apply (sl_idem (D:=cell_at column None)).
    + by apply (sl_idem (D:=complex_at column)).
Qed.

Lemma columns_semilattice : Semilattice (map_all column_at) (merge_loop ColumnData_merge).
Proof. apply merge_loop_semilattice. apply _. Qed.

Lemma RowData_semilattice ck static : Semilattice (row_at ck static) RowData_merge_with.
Proof.
  pose proof columns_semilattice as Hsl. split.
  - intros x y [] []. split; simpl; [done..|by apply (sl_closed (D:=LivenessInfo_ok))|by apply sl_closed].
  - intros x y z [] [] []. unfold RowData_merge_with; simpl. f_equal.
    + by apply (sl_assoc (D:=LivenessInfo_ok)).
    + apply supersede_assoc.
    + by apply sl_assoc.
  - intros x y [] []. unfold RowData_merge_with. f_equal; try congruence.
    + by apply (sl_comm (D:=LivenessInfo_ok)).
    + apply supersede_comm.
    + by apply sl_comm.
  - intros [k l d m s] [E1 E2 Hl Hm]. unfold RowData_merge_with; simpl in *. f_equal.
    + by apply (sl_idem (D:=LivenessInfo_ok)).
    + apply (supersede_idem d).
    + by apply sl_idem.
Qed.
End History.

(** C1. Convergence of replicas.  Over a history in which a write is identified
    by its place, timestamp and kind, two replicas that started from versions
    of a row and merged the same set of versions, in any order and any
    multiplicity, hold the same row. *)
Theorem row_merge_converges (W : CellData -> Prop) (schema : string -> bool) (ck : list Z) (static : bool)
    (x y : RowData) (xs ys : list RowData)
    (HW : history_ok W)
    (Hx : Forall (row_at W schema ck static) (x :: xs))
    (Hy : Forall (row_at W schema ck static) (y :: ys))
    (Hsame : forall r, r ∈ x :: xs <-> r ∈ y :: ys) :
  foldl RowData_merge_with x xs = foldl RowData_merge_with y ys.
Proof.
  pose proof (RowData_semilattice W schema HW ck static) as Hsl.
  inversion Hx; subst. inversion Hy; subst.
  by apply (merge_converges (row_at W schema ck static)).
Qed.

Definition example_write (ts : Z) (v : Z) : CellData := mkCellData "v" (Some [v]) ts 0 i32_MAX None.
Definition example_version (ts v : Z) : RowData :=
  RowData_add_cell (RowData_new [1]) (example_write ts v).

Lemma example_version_at (W : CellData -> Prop) ts v :
  W (example_write ts v) -> row_at W (fun _ => false) [1] false (example_version ts v).
Proof.
  intros Hw. split; [done|done|split; [done|by intros]|].
  intros k c Hk. unfold example_version, RowData_add_cell, RowData_with_columns in Hk.
  simpl rd_columns in Hk. rewrite lookup_upsert in Hk. case_decide; subst; simpl in Hk.
  - injection Hk as <-. by repeat split.
  - by rewrite (lookup_empty (M:=ordmap string)) in Hk.
Qed.

Lemma row_merge_converges_witness :
  let a := example_version 5 10 in let b := example_version 7 20 in
  foldl RowData_merge_with a [b; a] = foldl RowData_merge_with b [b; a; a].
Proof.
  apply (row_merge_converges (fun c => c = example_write 5 10 \/ c = example_write 7 20)
    (fun _ => false) [1] false).
  - intros c d [->| ->] [->| ->]; done.
  - repeat (apply Forall_cons_2; [apply example_version_at; auto|]); apply Forall_nil_2.
  - repeat (apply Forall_cons_2; [apply example_version_at; auto|]); apply Forall_nil_2.
  - set_solver.
Defined.

(** When two versions of a cell commute: exactly when they are the same
    cell or differ in timestamp or in being a tombstone.  So two different
    live values with one timestamp leave replicas that receive them in
    opposite orders with different values. *)
Theorem cell_merge_comm_iff (a b : CellData) :
  CellData_merge_with a b = CellData_merge_with b a <->
  a = b \/ cd_timestamp a <> cd_timestamp b
  \/ CellData_is_tombstone a <> CellData_is_tombstone b.
Proof.
  unfold CellData_merge_with.
  destruct (Z.ltb_spec (cd_timestamp a) (cd_timestamp b)), (Z.ltb_spec (cd_timestamp b) (cd_timestamp a)),
    (Z.eqb_spec (cd_timestamp b) (cd_timestamp a)), (Z.eqb_spec (cd_timestamp a) (cd_timestamp b)),
    (CellData_is_tombstone a), (CellData_is_tombstone b); simpl; try lia; intuition congruence.
Qed.

(** * Reading the live data *)

(** The cell a row holds at a column and, for complex columns, a path. *)
Definition row_cell (r : RowData) (column : string) (path : option CellPath) : option CellData :=
  match rd_columns r !! column, path with
  | Some (Simple c), None => Some c
  | Some (Complex ccd), Some p => ccd_cells ccd !! p
  | _, _ => None
  end.

Definition column_deletion (r : RowData) (column : string) : DeletionTime :=
  match rd_columns r !! column with
  | Some (Complex ccd) => complex_deletion ccd
  | _ => DeletionTime_LIVE
  end.

Definition shadows (d : DeletionTime) (timestamp : Z) : Prop :=
  d <> DeletionTime_LIVE /\ timestamp <= marked_for_delete_at d.

(** What a reader at [now] under an enclosing deletion must see. *)
Definition visible (r : RowData) (now : Z) (enclosing : DeletionTime) (column : string) (c : CellData) : Prop :=
  CellData_is_live c now = true
  /\ ~ shadows (supersede (rd_deletion r) enclosing) (cd_timestamp c)
  /\ ~ shadows (column_deletion r column) (cd_timestamp c).

Lemma survives_spec ts d : row_timestamp_survives ts d = true <-> ~ shadows d ts.
Proof.
  unfold row_timestamp_survives, shadows. rewrite orb_true_iff, is_live_spec, Z.ltb_lt.
  destruct (decide (d = DeletionTime_LIVE)); [naive_solver|]. split; [intros [?|?] [_ ?]; [done|lia]|].
  intros Hn. right. destruct (decide (marked_for_delete_at d < ts)); [done|]. exfalso. apply Hn. split; [done|lia].
Qed.

Lemma is_nil_spec {A} (l : list A) : is_nil l = true <-> l = [].
Proof. by destruct l. Qed.

(** Both tests of complex_column.rs are the survival tests of unfiltered.rs. *)
Definition complex_survives (ccd : ComplexColumnData) (now : Z) (act : DeletionTime) (c : CellData) : bool :=
  CellData_is_live c now && row_timestamp_survives (cd_timestamp c) (complex_deletion ccd)
  && row_timestamp_survives (cd_timestamp c) act.

Lemma cell_survives_eq ccd now act c :
  ComplexColumnData_cell_survives ccd now act c = complex_survives ccd now act c.
Proof.
  unfold ComplexColumnData_cell_survives, complex_survives, row_timestamp_survives.
  rewrite !Z.leb_antisym. destruct (CellData_is_live c now), (DeletionTime_is_live (complex_deletion ccd)),
    (DeletionTime_is_live act), (marked_for_delete_at (complex_deletion ccd) <? cd_timestamp c),
    (marked_for_delete_at act <? cd_timestamp c); done.
Qed.

Lemma lookup_retain ccd now act p :
  ccd_cells (ComplexColumnData_retain_live_cells_after ccd now act) !! p
  = (c ← ccd_cells ccd !! p; if complex_survives ccd now act c then Some c else None).
Proof. unfold ComplexColumnData_retain_live_cells_after; simpl. by rewrite lookup_omap. Qed.

Lemma entries_nil {A} (m : ordmap CellPath A) : entries m = [] <-> forall p, m !! p = None.
Proof.
  split.
  - intros E p. destruct (m !! p) as [v|] eqn:Ev; [|done]. apply ordmap_elem in Ev. rewrite E in Ev.
    by apply not_elem_of_nil in Ev.
  - intros Hn. destruct (entries m) as [|[p v] l] eqn:E; [done|].
    assert (m !! p = Some v) as Hv by (apply ordmap_elem; rewrite E; left). by rewrite Hn in Hv.
Qed.

Lemma complex_live_iff ccd now act :
  ComplexColumnData_is_empty_after ccd now act = false <->
  exists p c, ccd_cells ccd !! p = Some c /\ complex_survives ccd now act c = true.
Proof.
  rewrite <- not_true_iff_false. unfold ComplexColumnData_is_empty_after.
  rewrite is_nil_spec. unfold ComplexColumnData_live_cells_after. split.
  - intros Hn. destruct (List.filter _ _) as [|c l] eqn:E; [done|].
    assert (In c (c :: l)) as Hin by by left. rewrite <- E in Hin.
    apply filter_In in Hin as [Hv Hs]. rewrite cell_survives_eq in Hs.
    apply list_elem_of_In, elem_of_values in Hv as [p Hp]. eauto.
  - intros (p & c & Hp & Hs) E. assert (In c []) as []. rewrite <- E. apply filter_In.
    rewrite cell_survives_eq. split; [|done]. apply list_elem_of_In, elem_of_values. eauto.
Qed.

Lemma retain_nil_iff ccd now act :
  is_nil (entries (ccd_cells (ComplexColumnData_retain_live_cells_after ccd now act))) = false <->
  exists p c, ccd_cells ccd !! p = Some c /\ complex_survives ccd now act c = true.
Proof.
  rewrite <- not_true_iff_false, is_nil_spec, entries_nil. split.
  - intros Hn. destruct (decide (ComplexColumnData_is_empty_after ccd now act = false)) as [E|E].
    + by apply complex_live_iff in E.
    + exfalso. apply Hn. intros p. rewrite lookup_retain.
      destruct (ccd_cells ccd !! p) as [c|] eqn:Ep; simpl; [|done].
      destruct (complex_survives ccd now act c) eqn:Es; [|done]. exfalso. apply E, complex_live_iff. eauto.
  - intros (p & c & Hp & Hs) Hn. specialize (Hn p). rewrite lookup_retain, Hp in Hn; simpl in Hn.
    by rewrite Hs in Hn.
Qed.

Lemma existsb_values {A} (f : A -> bool) (m : ordmap string A) :
  existsb f (values m) = true <-> exists k v, m !! k = Some v /\ f v = true.
Proof.
  rewrite existsb_exists. setoid_rewrite <- list_elem_of_In. setoid_rewrite elem_of_values.
  naive_solver.
Qed.

Lemma complex_survives_retain ccd now act c :
  complex_survives (ComplexColumnData_retain_live_cells_after ccd now act) now act c
  = complex_survives ccd now act c.
Proof. done. Qed.

Lemma retain_idem ccd now act :
  ComplexColumnData_retain_live_cells_after
    (ComplexColumnData_retain_live_cells_after ccd now act) now act
  = ComplexColumnData_retain_live_cells_after ccd now act.
Proof.
  unfold ComplexColumnData_retain_live_cells_after at 1 3. f_equal. apply map_eq. intros p.
  change (omap _ _ !! p) with
    (ccd_cells (ComplexColumnData_retain_live_cells_after
      (ComplexColumnData_retain_live_cells_after ccd now act) now act) !! p) at 1.
  change (omap _ (ccd_cells ccd) !! p) with
    (ccd_cells (ComplexColumnData_retain_live_cells_after ccd now act) !! p).
  rewrite !lookup_retain. destruct (ccd_cells ccd !! p) as [c|]; simpl; [|done].
  destruct (complex_survives ccd now act c) eqn:E; simpl; [|done].
  by rewrite complex_survives_retain, E.
Qed.

(** A column survives the retention iff it has live data, and then still has. *)
Lemma retain_live_Some now act cd :
  is_Some (ColumnData_retain_live now act cd) <-> ColumnData_has_live now act cd = true.
Proof.
  destruct cd as [c|ccd]; simpl.
  - destruct (_ && _); [split; eauto|]. split; [by intros [? ?]|done].
  - rewrite negb_true_iff, complex_live_iff, <- retain_nil_iff.
    destruct (is_nil _); split; intros; eauto; [by destruct H|done].
Qed.

Lemma retain_live_idem now act cd cd' :
  ColumnData_retain_live now act cd = Some cd' -> ColumnData_retain_live now act cd' = Some cd'.
Proof.
  destruct cd as [c|ccd]; unfold ColumnData_retain_live.
  - destruct (_ && _) eqn:E; [|done]. intros [= <-]. by rewrite E.
  - destruct (is_nil _) eqn:E; [done|]. intros [= <-]. by rewrite retain_idem, E.
Qed.

Lemma retain_live_has_live now act cd cd' :
  ColumnData_retain_live now act cd = Some cd' -> ColumnData_has_live now act cd' = true.
Proof. intros E%retain_live_idem. apply retain_live_Some. eauto. Qed.

Section LiveData.
Context (r : RowData) (now : Z) (enclosing : DeletionTime).
Abbreviation act := (supersede (rd_deletion r) enclosing).

(** The row [live_data_after] builds before its final test. *)
Definition live_row : RowData :=
  mkRowData (rd_clustering_key r)
    (if negb (row_timestamp_survives (li_timestamp (liveness_info r)) act)
     then LivenessInfo_EMPTY else liveness_info r)
    (rd_deletion r) (omap (ColumnData_retain_live now act) (rd_columns r)) (is_static r).

Definition live_pk (l : LivenessInfo) (d : DeletionTime) : bool :=
  LivenessInfo_is_live l now && row_timestamp_survives (li_timestamp l) d.

Lemma act_absorb : supersede (rd_deletion r) act = act.
Proof. by rewrite <- supersede_assoc, supersede_idem. Qed.

Lemma live_row_pk : live_pk (liveness_info live_row) act = live_pk (liveness_info r) act.
Proof.
  unfold live_row, live_pk; simpl. destruct (row_timestamp_survives _ act) eqn:E; simpl.
  - by rewrite E.
  - by rewrite andb_false_r.
Qed.

Lemma live_row_columns :
  existsb (ColumnData_has_live now act) (values (rd_columns live_row))
  = existsb (ColumnData_has_live now act) (values (rd_columns r)).
Proof.
  apply eq_true_iff_eq. rewrite !existsb_values. simpl. setoid_rewrite lookup_omap. split.
  - intros (k & v & (cd & Hk & Hv)%bind_Some & _). exists k, cd. split; [done|].
    apply retain_live_Some. eauto.
  - intros (k & v & Hk & Hl). apply retain_live_Some in Hl as [v' Hv']. exists k, v'.
    rewrite Hk. split; [done|]. by eapply retain_live_has_live.
Qed.

Lemma has_live_row : RowData_has_live_data_after live_row now act = RowData_has_live_data_after r now enclosing.
Proof.
  unfold RowData_has_live_data_after. change (rd_deletion live_row) with (rd_deletion r).
  fold (supersede (rd_deletion r) act) (supersede (rd_deletion r) enclosing). rewrite act_absorb.
  fold (live_pk (liveness_info live_row) act) (live_pk (liveness_info r) act).
  by rewrite live_row_pk, live_row_columns.
Qed.

Lemma live_data_after_eq :
  RowData_live_data_after r now enclosing
  = if RowData_has_live_data_after r now enclosing then Some live_row else None.
Proof. rewrite <- has_live_row. done. Qed.

Lemma live_row_cell column path c :
  row_cell live_row column path = Some c <->
  row_cell r column path = Some c /\ visible r now enclosing column c.
Proof.
  unfold row_cell, visible, column_deletion; simpl. rewrite lookup_omap.
  destruct (rd_columns r !! column) as [[c'|ccd]|] eqn:Ec; simpl; [| |naive_solver].
  - rewrite <- !survives_spec.
    destruct (CellData_is_live c' now) eqn:E1, (row_timestamp_survives (cd_timestamp c') act) eqn:E2;
      destruct path; simpl; (split; [intros; simplify_eq; by rewrite ?E1, ?E2|]);
      intros (? & ? & ? & _); simplify_eq; congruence.
  - destruct path as [p|]; [|by destruct (is_nil _); (split; [|intros [? _]])].
    rewrite <- !survives_spec. transitivity
      (ccd_cells (ComplexColumnData_retain_live_cells_after ccd now act) !! p = Some c).
    + destruct (is_nil _) eqn:En; [|done]. apply is_nil_spec in En.
      pose proof (proj1 (entries_nil
        (ccd_cells (ComplexColumnData_retain_live_cells_after ccd now act))) En p) as Hn.
      by rewrite Hn.
    + rewrite lookup_retain, bind_Some. unfold complex_survives. split.
      * intros (c' & Hp & Hs). case_match eqn:E; simplify_eq. bool_to_prop. auto.
      * intros (Hp & E1 & E2 & E3). exists c. by rewrite E1, E2, E3.
Qed.

Lemma live_row_idem : RowData_live_data_after live_row now enclosing
  = if RowData_has_live_data_after r now enclosing then Some live_row else None.
Proof.
  unfold RowData_live_data_after. change (rd_deletion live_row) with (rd_deletion r).
  fold (supersede (rd_deletion r) enclosing). cbv zeta.
  match goal with |- (if RowData_has_live_data_after ?x _ _ then _ else _) = _ =>
    assert (x = live_row) as -> end; [|by rewrite has_live_row].
  unfold live_row at 5. f_equal.
  - simpl. destruct (row_timestamp_survives (li_timestamp (liveness_info r)) act) eqn:E; simpl.
    + by rewrite E.
    + by destruct (negb _).
  - change (rd_columns live_row) with (omap (ColumnData_retain_live now act) (rd_columns r)).
    apply map_eq. intros k. rewrite !lookup_omap.
    destruct (rd_columns r !! k) as [cd|]; simpl; [|done].
    destruct (ColumnData_retain_live now act cd) as [cd'|] eqn:E; simpl; [|done].
    by apply retain_live_idem in E.
Qed.
End LiveData.

(** Reading a row.  [live_data_after] returns a row exactly when
    [has_live_data_after] says so; the row it returns holds, at every column
    and path, exactly the cells of the original that are live at [now] and not
    shadowed by the row's, the column's or the enclosing deletion; and reading
    the result again changes nothing. *)
Theorem live_data_after_correct (r : RowData) (now : Z) (enclosing : DeletionTime) :
  (RowData_has_live_data_after r now enclosing = false ->
     RowData_live_data_after r now enclosing = None)
  /\ (RowData_has_live_data_after r now enclosing = true ->
     exists r', RowData_live_data_after r now enclosing = Some r'
       /\ (forall column path c, row_cell r' column path = Some c <->
             row_cell r column path = Some c /\ visible r now enclosing column c)
       /\ RowData_live_data_after r' now enclosing = Some r').
Proof.
  rewrite live_data_after_eq. split; intros E; rewrite E; [done|].
  exists (live_row r now enclosing). split_and!; [done|apply live_row_cell|].
  by rewrite live_row_idem, E.
Qed.

Lemma live_data_after_correct_witness :
  let r := RowData_add_cell (example_version 5 10) (mkCellData "w" (Some [3]) 9 0 i32_MAX None) in
  let d := mkDeletionTime 7 100 in
  RowData_has_live_data_after r 50 d = true
  /\ exists r', RowData_live_data_after r 50 d = Some r'
     /\ forall column path c, row_cell r' column path = Some c <->
          row_cell r column path = Some c /\ visible r 50 d column c.
Proof.
  intros r d. assert (H : RowData_has_live_data_after r 50 d = true) by reflexivity.
  split; [exact H|].
  destruct (proj2 (live_data_after_correct r 50 d) H) as (r' & H1 & H2 & _).
  exists r'. split; [exact H1|exact H2].
Defined.

(** * Encoding statistics are lower bounds *)

(** The update of one minimum, with [none] for "nothing seen". *)
Definition update_min (none m x : Z) : Z :=
  if negb (x =? none) && ((m =? none) || (x <? m)) then x else m.

Lemma EncodingStats_merge_fields a b :
  EncodingStats_merge_with a b =
  mkEncodingStats (update_min NO_TIMESTAMP (min_timestamp a) (min_timestamp b))
    (update_min NO_DELETION_TIME (min_local_deletion_time a) (min_local_deletion_time b))
    (update_min NO_TTL (min_ttl a) (min_ttl b)).
Proof.
  destruct a as [t d l], b as [t' d' l'].
  unfold EncodingStats_merge_with, EncodingStats_update_timestamp,
    EncodingStats_update_local_deletion_time, EncodingStats_update_ttl, update_min.
  cbn [min_timestamp min_local_deletion_time min_ttl].
  repeat match goal with |- context [if ?c then mkEncodingStats _ _ _ else _] =>
    lazymatch c with context [if _ then mkEncodingStats _ _ _ else _] => fail | _ => destruct c end;
    cbn [min_timestamp min_local_deletion_time min_ttl] in * end; done.
Qed.

Lemma update_min_assoc n a b c : update_min n (update_min n a b) c = update_min n a (update_min n b c).
Proof. unfold update_min. z_tests. Qed.
Lemma update_min_none n a : update_min n n a = a.
Proof. unfold update_min. z_tests. Qed.
Lemma update_min_le n a b c :
  update_min n a b = c -> (b <> n -> c <> n /\ c <= b) /\ (a <> n -> c <> n /\ c <= a).
Proof. intros <-. unfold update_min. z_tests. Qed.

Lemma update_min_trans n m x o :
  x <> n /\ x <= o -> update_min n m x <> n /\ update_min n m x <= o.
Proof. unfold update_min. intros [? ?]. z_tests. Qed.

(** [collect]: the statistics of a sequence of (timestamp, local deletion time,
    TTL) observations, each fed to the three update methods. *)
Definition collect (l : list EncodingStats) : EncodingStats :=
  foldl EncodingStats_merge_with EncodingStats_NONE l.

Lemma EncodingStats_merge_assoc a b c :
  EncodingStats_merge_with (EncodingStats_merge_with a b) c
  = EncodingStats_merge_with a (EncodingStats_merge_with b c).
Proof. rewrite !EncodingStats_merge_fields; simpl. by rewrite !update_min_assoc. Qed.

Lemma EncodingStats_merge_NONE a : EncodingStats_merge_with EncodingStats_NONE a = a.
Proof. rewrite EncodingStats_merge_fields; simpl. rewrite !update_min_none. by destruct a. Qed.

Lemma foldl_stats x l : foldl EncodingStats_merge_with x l = EncodingStats_merge_with x (collect l).
Proof.
  revert x. induction l as [|y l IH]; intros x.
  - rewrite EncodingStats_merge_fields. unfold collect, update_min; simpl. by destruct x.
  - unfold collect; simpl. rewrite IH, (IH (EncodingStats_merge_with _ y)).
    by rewrite EncodingStats_merge_NONE, EncodingStats_merge_assoc.
Qed.

Lemma collect_le l o :
  o ∈ l ->
  (min_timestamp o <> NO_TIMESTAMP -> min_timestamp (collect l) <> NO_TIMESTAMP
     /\ min_timestamp (collect l) <= min_timestamp o)
  /\ (min_local_deletion_time o <> NO_DELETION_TIME ->
     min_local_deletion_time (collect l) <> NO_DELETION_TIME
     /\ min_local_deletion_time (collect l) <= min_local_deletion_time o)
  /\ (min_ttl o <> NO_TTL -> min_ttl (collect l) <> NO_TTL /\ min_ttl (collect l) <= min_ttl o).
Proof.
  induction 1 as [o l|o y l _ IH].
  - unfold collect; simpl. rewrite foldl_stats, EncodingStats_merge_NONE, EncodingStats_merge_fields; simpl.
    split_and!; by eapply update_min_le.
  - unfold collect; simpl. rewrite foldl_stats, EncodingStats_merge_NONE, EncodingStats_merge_fields; simpl.
    destruct IH as (I1 & I2 & I3).
    split_and!; intros Hn; apply update_min_trans; auto.
Qed.

(** Delta encoding never sees a negative delta: the statistics collected
    over any split of the observations into two parts and merged are those of
    the whole, and are below every timestamp, local deletion time and TTL
    observed that is not its "unset" sentinel. *)
Lemma encoding_stats_lower_bound (l k : list EncodingStats) (o : EncodingStats) (Ho : o ∈ l ++ k) :
  let s := EncodingStats_merge_with (collect l) (collect k) in
  s = collect (l ++ k)
  /\ (min_timestamp o <> NO_TIMESTAMP -> min_timestamp s <= min_timestamp o)
  /\ (min_local_deletion_time o <> NO_DELETION_TIME -> min_local_deletion_time s <= min_local_deletion_time o)
  /\ (min_ttl o <> NO_TTL -> min_ttl s <= min_ttl o).
Proof.
  assert (EncodingStats_merge_with (collect l) (collect k) = collect (l ++ k)) as E.
  { unfold collect at 3. by rewrite foldl_app, (foldl_stats (foldl _ _ _)). }
  cbv zeta. rewrite E. destruct (collect_le _ _ Ho) as (H1 & H2 & H3). naive_solver.
Qed.
