(* ===== verification/Partition.v ===== *)
(** Partitions on the write path (crates/cassandra-storage/src: rows/deletion.rs,
    partitions/decorated_key.rs, partitions/partition_update.rs,
    partitions/filtered_partition.rs).

    [active_deletion_for] is shown to be the join of the partition deletion and
    of every covering range tombstone, whatever the order they arrived in; a
    partition update keeps its rows under their own keys; and what an update
    says of any clustering key depends only on the set of updates merged. *)
From S2P Require Export Token Rows.

(** * Deletion info (deletion.rs) *)

Record MutableDeletionInfo := mkMutableDeletionInfo {
  partition_deletion : DeletionTime;
  range_tombstones : list RangeTombstone;
}.

Definition MutableDeletionInfo_live : MutableDeletionInfo :=
  mkMutableDeletionInfo DeletionTime_LIVE [].
Definition MutableDeletionInfo_with_partition_deletion (d : DeletionTime) : MutableDeletionInfo :=
  mkMutableDeletionInfo d [].

Definition MutableDeletionInfo_is_live (self : MutableDeletionInfo) : bool :=
  DeletionTime_is_live (partition_deletion self) && is_nil (range_tombstones self).

Definition MutableDeletionInfo_add_range_tombstone (self : MutableDeletionInfo) (rt : RangeTombstone)
    : MutableDeletionInfo :=
  mkMutableDeletionInfo (partition_deletion self)
    (sort_by (fun a b => cmp (rt_start a) (rt_start b)) (range_tombstones self ++ [rt])).

Definition MutableDeletionInfo_set_partition_deletion (self : MutableDeletionInfo) (d : DeletionTime)
    : MutableDeletionInfo :=
  if DeletionTime_supersedes d (partition_deletion self)
  then mkMutableDeletionInfo d (range_tombstones self) else self.

Definition MutableDeletionInfo_merge (self other : MutableDeletionInfo) : MutableDeletionInfo :=
  foldl MutableDeletionInfo_add_range_tombstone
    (MutableDeletionInfo_set_partition_deletion self (partition_deletion other))
    (range_tombstones other).

Definition MutableDeletionInfo_range_tombstone_covering (self : MutableDeletionInfo) (ck : list Z)
    : option RangeTombstone :=
  max_by (fun a b => cmp (rt_deletion a) (rt_deletion b))
    (List.filter (fun rt => RangeTombstone_covers rt ck) (range_tombstones self)).

Definition MutableDeletionInfo_active_deletion_for (self : MutableDeletionInfo) (ck : list Z) : DeletionTime :=
  let deletion := partition_deletion self in
  match MutableDeletionInfo_range_tombstone_covering self ck with
  | Some rt => if DeletionTime_supersedes (rt_deletion rt) deletion then rt_deletion rt else deletion
  | None => deletion
  end.

(** * Decorated keys (decorated_key.rs) *)

Record DecoratedKey := mkDecoratedKey { dk_key : list Z; dk_token : Z }.
#[export] Instance DecoratedKey_eq_dec : EqDecision DecoratedKey.
Proof. solve_decision. Defined.

Definition DecoratedKey_new (key : list Z) : DecoratedKey :=
  mkDecoratedKey key (Token_from_partition_key key).
Definition DecoratedKey_with_token (key : list Z) (token : Z) : DecoratedKey := mkDecoratedKey key token.

#[export] Instance DecoratedKey_cmp : RustOrd DecoratedKey := fun a b =>
  then_with (cmp (dk_token a) (dk_token b)) (cmp (dk_key a) (dk_key b)).

#[export] Instance DecoratedKey_ord_laws : OrdLaws DecoratedKey.
Proof.
  pose proof (ord_via_laws (fun d => (dk_token d, dk_key d))) as Hl.
  apply Hl. by intros [] [] ?; simplify_eq/=.
Qed.

(** * Partition updates (partition_update.rs) *)

Record PartitionUpdate := mkPartitionUpdate {
  pu_key : DecoratedKey;
  deletion_info : MutableDeletionInfo;
  pu_rows : ordmap (list Z) RowData;
  static_row : option RowData;
}.

Definition PartitionUpdate_new (key : DecoratedKey) : PartitionUpdate :=
  mkPartitionUpdate key MutableDeletionInfo_live ∅ None.

Definition PartitionUpdate_add_row (self : PartitionUpdate) (row : RowData) : PartitionUpdate :=
  if is_static row then
    mkPartitionUpdate (pu_key self) (deletion_info self) (pu_rows self)
      (match static_row self with
       | Some existing => Some (RowData_merge_with existing row)
       | None => Some row
       end)
  else
    mkPartitionUpdate (pu_key self) (deletion_info self)
      (upsert (fun existing => RowData_merge_with existing row) row (rd_clustering_key row) (pu_rows self))
      (static_row self).

Definition PartitionUpdate_with_deletion (self : PartitionUpdate) (d : MutableDeletionInfo) : PartitionUpdate :=
  mkPartitionUpdate (pu_key self) d (pu_rows self) (static_row self).

Definition PartitionUpdate_add_range_tombstone (self : PartitionUpdate) (rt : RangeTombstone) : PartitionUpdate :=
  PartitionUpdate_with_deletion self (MutableDeletionInfo_add_range_tombstone (deletion_info self) rt).
Definition PartitionUpdate_set_partition_deletion (self : PartitionUpdate) (d : DeletionTime) : PartitionUpdate :=
  PartitionUpdate_with_deletion self (MutableDeletionInfo_set_partition_deletion (deletion_info self) d).

Definition PartitionUpdate_merge (self other : PartitionUpdate) : PartitionUpdate :=
  let self := PartitionUpdate_with_deletion self
    (MutableDeletionInfo_merge (deletion_info self) (deletion_info other)) in
  let self := foldl PartitionUpdate_add_row self (values (pu_rows other)) in
  match static_row other with
  | Some sr => PartitionUpdate_add_row self sr
  | None => self
  end.

Definition PartitionUpdate_row_count (self : PartitionUpdate) : nat := length (entries (pu_rows self)).
Definition PartitionUpdate_is_empty (self : PartitionUpdate) : bool :=
  is_nil (entries (pu_rows self))
  && match static_row self with None => true | Some _ => false end
  && MutableDeletionInfo_is_live (deletion_info self).

Definition PartitionUpdate_live_rows (self : PartitionUpdate) (now_in_seconds : Z) : list RowData :=
  List.filter (fun row =>
    RowData_has_live_data_after row now_in_seconds
      (MutableDeletionInfo_active_deletion_for (deletion_info self) (rd_clustering_key row)))
    (values (pu_rows self)).

Definition PartitionUpdate_live_static_row (self : PartitionUpdate) (now_in_seconds : Z) : option RowData :=
  row ← static_row self;
  if RowData_has_live_data_after row now_in_seconds (partition_deletion (deletion_info self))
  then Some row else None.

Definition PartitionUpdate_from_partition_data (partition_key : list Z) (pd : PartitionData) : PartitionUpdate :=
  let pu := PartitionUpdate_new (DecoratedKey_new partition_key) in
  let pu := match tombstone_timestamp pd, tombstone_local_deletion_time pd with
            | Some ts, Some ldt => PartitionUpdate_set_partition_deletion pu (DeletionTime_new ts ldt)
            | _, _ => pu
            end in
  foldl (fun pu row => PartitionUpdate_add_row pu (RowData_from row)) pu (values (pd_rows pd)).

(** The cells of one column, and the row built in [From<&PartitionUpdate>]. *)
Definition ColumnData_cells (cd : ColumnData) : list Cell :=
  match cd with
  | Simple cell => [Cell_from cell]
  | Complex ccd => Cell_from <$> values (ccd_cells ccd)
  end.

Definition Row_from (ck : list Z) (row_data : RowData) : Row :=
  mkRow ck (mjoin (ColumnData_cells <$> values (rd_columns row_data)))
    (negb (DeletionTime_is_live (rd_deletion row_data)))
    (if DeletionTime_is_live (rd_deletion row_data) then None
     else Some (local_deletion_time (rd_deletion row_data))).

Definition PartitionData_from (pu : PartitionUpdate) : PartitionData :=
  let pd := PartitionData_new in
  let d := partition_deletion (deletion_info pu) in
  let pd := if negb (DeletionTime_is_live d)
            then PartitionData_set_tombstone pd (marked_for_delete_at d) (local_deletion_time d)
            else pd in
  foldl (fun pd e => PartitionData_apply_row pd (Row_from e.1 e.2)) pd (entries (pu_rows pu)).

(** * The active deletion is a join *)

Lemma active_spec self ck c :
  le_of (MutableDeletionInfo_active_deletion_for self ck) c <->
  le_of (partition_deletion self) c
  /\ forall rt, rt ∈ range_tombstones self -> RangeTombstone_covers rt ck = true -> le_of (rt_deletion rt) c.
Proof.
  unfold MutableDeletionInfo_active_deletion_for, MutableDeletionInfo_range_tombstone_covering.
  set (l := List.filter _ _).
  assert (Hl : forall rt, rt ∈ l <-> rt ∈ range_tombstones self /\ RangeTombstone_covers rt ck = true).
  { intros rt. unfold l. rewrite !list_elem_of_In. apply filter_In. }
  destruct (max_by _ l) as [m|] eqn:Em.
  - apply (max_by_Some rt_deletion) in Em as [Hin Hmax].
    fold (supersede (partition_deletion self) (rt_deletion m)). rewrite supersede_spec. split.
    + intros [Hp Hm]. split; [done|]. intros rt Hrt Hc. apply (le_of_trans _ (rt_deletion m)); [|done].
      apply Hmax, Hl. auto.
    + intros [Hp Hrt]. split; [done|]. apply Hl in Hin as [? ?]. auto.
  - apply (max_by_None rt_deletion) in Em. split; [|by intros [? _]].
    intros Hp. split; [done|]. intros rt Hrt Hc. assert (rt ∈ l) as Hin by (by apply Hl).
    rewrite Em in Hin. by apply not_elem_of_nil in Hin.
Qed.

Lemma add_range_tombstone_elem self rt x :
  x ∈ range_tombstones (MutableDeletionInfo_add_range_tombstone self rt) <->
  x ∈ range_tombstones self \/ x = rt.
Proof. simpl. rewrite sort_by_perm. set_solver. Qed.

Lemma set_partition_deletion_eq self d :
  MutableDeletionInfo_set_partition_deletion self d
  = mkMutableDeletionInfo (supersede (partition_deletion self) d) (range_tombstones self).
Proof.
  unfold MutableDeletionInfo_set_partition_deletion, supersede. destruct self; simpl. by case_match.
Qed.

Lemma foldl_add_range_tombstone l self :
  partition_deletion (foldl MutableDeletionInfo_add_range_tombstone self l) = partition_deletion self
  /\ forall x, x ∈ range_tombstones (foldl MutableDeletionInfo_add_range_tombstone self l) <->
       x ∈ range_tombstones self \/ x ∈ l.
Proof.
  revert self. induction l as [|rt l IH]; intros self; [set_solver|]. simpl foldl.
  destruct (IH (MutableDeletionInfo_add_range_tombstone self rt)) as [E H]. split; [done|].
  intros x. rewrite H, add_range_tombstone_elem. set_solver.
Qed.

Lemma merge_partition_deletion a b :
  partition_deletion (MutableDeletionInfo_merge a b) = supersede (partition_deletion a) (partition_deletion b).
Proof.
  unfold MutableDeletionInfo_merge. rewrite (proj1 (foldl_add_range_tombstone _ _)).
  by rewrite set_partition_deletion_eq.
Qed.

Lemma merge_range_tombstones a b x :
  x ∈ range_tombstones (MutableDeletionInfo_merge a b) <-> x ∈ range_tombstones a \/ x ∈ range_tombstones b.
Proof.
  unfold MutableDeletionInfo_merge. rewrite (proj2 (foldl_add_range_tombstone _ _)).
  by rewrite set_partition_deletion_eq.
Qed.

Lemma merge_active a b ck :
  MutableDeletionInfo_active_deletion_for (MutableDeletionInfo_merge a b) ck
  = supersede (MutableDeletionInfo_active_deletion_for a ck) (MutableDeletionInfo_active_deletion_for b ck).
Proof.
  apply le_of_ext. intros c. rewrite supersede_spec, !active_spec, merge_partition_deletion, supersede_spec.
  setoid_rewrite merge_range_tombstones. naive_solver.
Qed.

(** The range tombstones stay sorted by start. *)
Definition tombstones_sorted (self : MutableDeletionInfo) : Prop :=
  StronglySorted (fun a b => le_of (rt_start a) (rt_start b)) (range_tombstones self).

Lemma add_range_tombstone_sorted self rt :
  tombstones_sorted (MutableDeletionInfo_add_range_tombstone self rt).
Proof.
  apply Sorted_StronglySorted.
  - intros x y z. apply le_of_trans.
  - apply sort_by_sorted; intros x y; [|by intros ?%is_gt_false].
    intros ?%is_gt_spec. by apply lt_of_le.
Qed.

(** * Partition updates *)

(** Rows live under their own key and are not static; the static row is. *)
Record update_wf (pu : PartitionUpdate) : Prop := {
  uw_rows : forall ck r, pu_rows pu !! ck = Some r -> rd_clustering_key r = ck /\ is_static r = false;
  uw_static : forall r, static_row pu = Some r -> is_static r = true;
}.

Lemma foldl_add_row (l : list (list Z * RowData)) self :
  (forall ck r, (ck, r) ∈ l -> rd_clustering_key r = ck /\ is_static r = false) ->
  foldl PartitionUpdate_add_row self (l.*2)
  = mkPartitionUpdate (pu_key self) (deletion_info self)
      (foldl (fun acc p => upsert (fun x => RowData_merge_with x p.2) p.2 p.1 acc) (pu_rows self) l)
      (static_row self).
Proof.
  revert self. induction l as [|[ck r] l IH]; intros self Hl; [by destruct self|].
  destruct (Hl ck r) as [Hck Hst]; [left|]. simpl.
  rewrite IH by (intros; apply Hl; by right). unfold PartitionUpdate_add_row. by rewrite Hst, Hck.
Qed.

Lemma PartitionUpdate_merge_eq a b :
  update_wf b ->
  PartitionUpdate_merge a b =
  mkPartitionUpdate (pu_key a) (MutableDeletionInfo_merge (deletion_info a) (deletion_info b))
    (merge_loop RowData_merge_with (pu_rows a) (pu_rows b))
    (merge_opt RowData_merge_with (static_row a) (static_row b)).
Proof.
  intros [Hr Hs]. unfold PartitionUpdate_merge, values.
  rewrite foldl_add_row by (intros ck r Hin; apply Hr; by apply ordmap_elem).
  destruct (static_row b) as [sr|] eqn:E.
  - unfold PartitionUpdate_add_row. rewrite (Hs sr eq_refl). simpl. by destruct (static_row a).
  - simpl. by destruct (static_row a).
Qed.

Lemma merge_update_wf a b : update_wf a -> update_wf b -> update_wf (PartitionUpdate_merge a b).
Proof.
  intros [Ha Hsa] Hb. rewrite PartitionUpdate_merge_eq by done. destruct Hb as [Hb Hsb]. split; simpl.
  - intros ck r. rewrite lookup_merge_loop. specialize (Ha ck). specialize (Hb ck).
    destruct (pu_rows a !! ck), (pu_rows b !! ck); simpl; intros [= <-]; auto. simpl. auto.
  - intros r. destruct (static_row a), (static_row b); simpl; intros [= <-]; auto. simpl. auto.
Qed.

(** What a reader can see of an update at a clustering key. *)
Definition update_view (ck : list Z) (pu : PartitionUpdate) :
    (ordmap (list Z) RowData * option RowData) * (DeletionTime * DeletionTime) :=
  ((pu_rows pu, static_row pu),
   (partition_deletion (deletion_info pu), MutableDeletionInfo_active_deletion_for (deletion_info pu) ck)).

Definition view_merge :=
  pair_merge (pair_merge (merge_loop (K:=list Z) RowData_merge_with) (merge_opt RowData_merge_with))
    (pair_merge supersede supersede).

Lemma update_view_merge ck a b :
  update_wf b -> update_view ck (PartitionUpdate_merge a b) = view_merge (update_view ck a) (update_view ck b).
Proof.
  intros Hb. rewrite PartitionUpdate_merge_eq by done. unfold update_view, view_merge, pair_merge; simpl.
  by rewrite merge_active, merge_partition_deletion.
Qed.

(** An update made of versions of rows of a history (see [row_at]). *)
Record update_at (W : CellData -> Prop) (schema : string -> bool) (pu : PartitionUpdate) : Prop := {
  ua_rows : forall ck r, pu_rows pu !! ck = Some r -> row_at W schema ck false r;
  ua_static : forall r, static_row pu = Some r -> row_at W schema [] true r;
}.

Lemma update_at_wf W schema pu : update_at W schema pu -> update_wf pu.
Proof.
  intros [Hr Hs]. split.
  - intros ck r Hck. by destruct (Hr ck r Hck).
  - intros r Hst. by destruct (Hs r Hst).
Qed.

Section Converge.
Context (W : CellData -> Prop) (schema : string -> bool) (HW : history_ok W).

Definition view_ok (v : (ordmap (list Z) RowData * option RowData) * (DeletionTime * DeletionTime)) : Prop :=
  (map_all (fun ck => row_at W schema ck false) v.1.1 /\ (forall r, v.1.2 = Some r -> row_at W schema [] true r))
  /\ (True /\ True).

Lemma view_semilattice : Semilattice view_ok view_merge.
Proof.
  pose proof (RowData_semilattice W schema HW) as Hrow.
  apply (prod_semilattice
    (fun v => map_all (fun ck => row_at W schema ck false) v.1 /\ (forall r, v.2 = Some r -> row_at W schema [] true r))
    (fun v => True /\ True)).
  - apply (prod_semilattice _ (fun o => forall r, o = Some r -> row_at W schema [] true r)).
    + apply merge_loop_semilattice. intros ck. apply Hrow.
    + apply merge_opt_semilattice, Hrow.
  - apply (prod_semilattice (fun _ => True) (fun _ => True)); apply supersede_semilattice.
Qed.

Lemma update_view_ok ck pu : update_at W schema pu -> view_ok (update_view ck pu).
Proof. intros [Hr Hs]. split; [split; [exact Hr|exact Hs]|done]. Qed.

Lemma update_at_merge a b :
  update_at W schema a -> update_at W schema b -> update_at W schema (PartitionUpdate_merge a b).
Proof.
  intros Ha Hb. pose proof (update_at_wf _ _ _ Hb) as Hwf.
  pose proof (sl_closed (Semilattice:=view_semilattice) (update_view [] a) (update_view [] b)
    (update_view_ok [] a Ha) (update_view_ok [] b Hb)) as Hc.
  rewrite <- update_view_merge in Hc by done. destruct Hc as [[H1 H2] _]. split; auto.
Qed.

Lemma update_views_converge ck x l y k :
  Forall (update_at W schema) (x :: l) -> Forall (update_at W schema) (y :: k) ->
  (forall z, z ∈ x :: l <-> z ∈ y :: k) ->
  update_view ck (foldl PartitionUpdate_merge x l) = update_view ck (foldl PartitionUpdate_merge y k).
Proof.
  intros [Hx Hl]%Forall_cons [Hy Hk]%Forall_cons Hsame.
  apply (view_converges (update_at W schema) PartitionUpdate_merge view_ok view_merge); auto.
  - apply view_semilattice.
  - intros a b Ha Hb. split; [by apply update_at_merge|].
    apply update_view_merge. by eapply update_at_wf.
  - apply update_view_ok.
Qed.
End Converge.

(** The active deletion of a clustering key is the join of the partition
    deletion and of all range tombstones covering it: merging two deletion
    infos gives, at every key, the superseding one of the two active deletions. *)
Theorem active_deletion_merge (a b : MutableDeletionInfo) (ck : list Z) :
  MutableDeletionInfo_active_deletion_for (MutableDeletionInfo_merge a b) ck
  = supersede (MutableDeletionInfo_active_deletion_for a ck) (MutableDeletionInfo_active_deletion_for b ck)
  /\ (forall rt, rt ∈ range_tombstones a -> RangeTombstone_covers rt ck = true ->
        DeletionTime_supersedes (rt_deletion rt) (MutableDeletionInfo_active_deletion_for a ck) = false)
  /\ (MutableDeletionInfo_active_deletion_for a ck = partition_deletion a
      \/ exists rt, rt ∈ range_tombstones a /\ RangeTombstone_covers rt ck = true
           /\ MutableDeletionInfo_active_deletion_for a ck = rt_deletion rt).
Proof.
  split_and!.
  - apply merge_active.
  - intros rt Hrt Hc. apply supersedes_false.
    by apply (active_spec a ck (MutableDeletionInfo_active_deletion_for a ck)); [apply le_of_refl|..].
  - unfold MutableDeletionInfo_active_deletion_for, MutableDeletionInfo_range_tombstone_covering.
    destruct (max_by _ _) as [m|] eqn:Em; [|by left].
    apply (max_by_Some rt_deletion) in Em as [Hin _].
    apply list_elem_of_In, filter_In in Hin as [Hin Hc]. rewrite <- list_elem_of_In in Hin.
    destruct (DeletionTime_supersedes _ _); [right|by left]. by exists m.
Qed.

(** C7.  Convergence of partitions.  Over a history in which a write of a cell is
    identified by its column, path, timestamp and kind ([history_ok]: no two
    different live cells, and no two different deletions of a cell, have one
    timestamp), two replicas that merge the same set of partition updates made of
    rows of this history, in any order and multiplicity, have the
    same rows, the same static row, the same active deletion at every
    clustering key, and so return the same live rows at any time. *)
Theorem partition_update_converges (W : CellData -> Prop) (schema : string -> bool)
    (x y : PartitionUpdate) (l k : list PartitionUpdate)
    (HW : history_ok W)
    (Hx : Forall (update_at W schema) (x :: l)) (Hy : Forall (update_at W schema) (y :: k))
    (Hsame : forall z, z ∈ x :: l <-> z ∈ y :: k) :
  let p := foldl PartitionUpdate_merge x l in
  let q := foldl PartitionUpdate_merge y k in
  pu_rows p = pu_rows q /\ static_row p = static_row q
  /\ (forall ck, MutableDeletionInfo_active_deletion_for (deletion_info p) ck
                 = MutableDeletionInfo_active_deletion_for (deletion_info q) ck)
  /\ (forall now, PartitionUpdate_live_rows p now = PartitionUpdate_live_rows q now
                  /\ PartitionUpdate_live_static_row p now = PartitionUpdate_live_static_row q now).
Proof.
  intros p q.
  assert (Hv : forall ck, update_view ck p = update_view ck q)
    by (intros; by apply (update_views_converge W schema HW)).
  pose proof (Hv []) as [= Hr Hs Hp _].
  assert (Ha : forall ck, MutableDeletionInfo_active_deletion_for (deletion_info p) ck
    = MutableDeletionInfo_active_deletion_for (deletion_info q) ck)
    by (intros ck; by pose proof (Hv ck) as [= _ _ _ ?]).
  split_and!; [done..|]. intros now. unfold PartitionUpdate_live_rows, PartitionUpdate_live_static_row.
  rewrite Hr, Hs, Hp. split; [|done]. apply List.filter_ext. intros r. by rewrite Ha.
Qed.

Definition example_update (ts v : Z) : PartitionUpdate :=
  PartitionUpdate_add_range_tombstone
    (PartitionUpdate_add_row (PartitionUpdate_new (mkDecoratedKey [9] 0)) (example_version ts v))
    (mkRangeTombstone [0] [5] (mkDeletionTime ts 1)).

Lemma example_update_at (W : CellData -> Prop) ts v :
  W (example_write ts v) -> update_at W (fun _ => false) (example_update ts v).
Proof.
  intros Hw. split; [|done]. intros ck r Hck.
  change (pu_rows (example_update ts v)) with
    (upsert (fun e => RowData_merge_with e (example_version ts v)) (example_version ts v) [1] ∅) in Hck.
  rewrite lookup_upsert in Hck. case_decide; subst; simpl in Hck.
  - injection Hck as <-. by apply example_version_at.
  - by rewrite (lookup_empty (M:=ordmap (list Z))) in Hck.
Qed.

Lemma partition_update_converges_witness :
  let a := example_update 5 10 in let b := example_update 7 20 in
  PartitionUpdate_live_rows (foldl PartitionUpdate_merge a [b]) 0
  = PartitionUpdate_live_rows (foldl PartitionUpdate_merge b [a; b]) 0.
Proof.
  intros a b.
  destruct (partition_update_converges (fun c => c = example_write 5 10 \/ c = example_write 7 20)
    (fun _ => false) a b [b] [a; b]) as (_ & _ & _ & H).
  - intros c d [->| ->] [->| ->]; done.
  - repeat (apply Forall_cons_2; [apply example_update_at; auto|]); apply Forall_nil_2.
  - repeat (apply Forall_cons_2; [apply example_update_at; auto|]); apply Forall_nil_2.
  - set_solver.
  - apply H.
Defined.
