(* ===== verification/Iterators.v ===== *)
(** Row and partition iterators and their merges
    (crates/cassandra-storage/src/partitions: iterators.rs,
    filtered_partition.rs).

    The traits are classes of operations with a ghost [remaining] list that
    [next] consumes.  The merged row iterator is shown to yield a sorted stream
    with one merged row per clustering key and every marker; the merged
    partition iterator to yield the partitions of all sources grouped by key,
    in strictly increasing key order. *)
From S2P Require Export Partition.

(** * The row-iterator trait *)

Class UnfilteredRowIterator (I : Type) := {
  ri_partition_key : I -> list Z;
  ri_partition_deletion : I -> DeletionTime;
  ri_static_row : I -> option RowData;
  ri_is_reversed : I -> bool;
  ri_next : I -> option (Unfiltered * I);
}.

(** What an implementation promises: it has finitely many items to give, [next]
    gives the first and changes nothing else. *)
Class RowIteratorLaws (I : Type) `{UnfilteredRowIterator I} := {
  ri_remaining : I -> list Unfiltered;
  ri_next_remaining it :
    match ri_next it with
    | None => ri_remaining it = []
    | Some (u, it') => ri_remaining it = u :: ri_remaining it'
    end;
}.

(** [while let Some(item) = source.next()], collecting the items. *)
Fixpoint drain {I} `{UnfilteredRowIterator I} (fuel : nat) (it : I) : list Unfiltered :=
  match fuel with
  | O => []
  | S fuel => match ri_next it with
              | Some (u, it') => u :: drain fuel it'
              | None => []
              end
  end.

Lemma drain_remaining {I} `{RowIteratorLaws I} fuel it :
  (length (ri_remaining it) <= fuel)%nat -> drain fuel it = ri_remaining it.
Proof.
  revert it. induction fuel as [|fuel IH]; intros it Hf; simpl.
  - by destruct (ri_remaining it); [|simpl in Hf; lia].
  - pose proof (ri_next_remaining it) as Hn. destruct (ri_next it) as [[u it']|]; [|done].
    rewrite Hn in *. simpl in Hf. rewrite IH by lia. done.
Qed.

(** ** In-memory iterators *)

Record InMemoryRowIterator := mkInMemoryRowIterator {
  im_partition_key : list Z;
  im_partition_deletion : DeletionTime;
  im_items : list Unfiltered;
  im_pos : nat;
  im_reversed : bool;
}.

Definition InMemoryRowIterator_from_partition_data (partition_key : list Z) (pd : PartitionData)
    : InMemoryRowIterator :=
  mkInMemoryRowIterator partition_key
    (match tombstone_timestamp pd, tombstone_local_deletion_time pd with
     | Some ts, Some ldt => DeletionTime_new ts ldt
     | _, _ => DeletionTime_LIVE
     end)
    ((fun row => URow (RowData_from row)) <$> values (pd_rows pd)) 0 false.

Definition InMemoryRowIterator_new (partition_key : list Z) (d : DeletionTime) (items : list Unfiltered)
    (reversed : bool) : InMemoryRowIterator :=
  mkInMemoryRowIterator partition_key d items 0 reversed.

Definition InMemoryRowIterator_set_reversed (self : InMemoryRowIterator) (reversed : bool) : InMemoryRowIterator :=
  mkInMemoryRowIterator (im_partition_key self) (im_partition_deletion self)
    (if reversed then rev (im_items self) else im_items self) (im_pos self) reversed.

Definition InMemoryRowIterator_next (self : InMemoryRowIterator) : option (Unfiltered * InMemoryRowIterator) :=
  if (im_pos self <? length (im_items self))%nat then
    item ← im_items self !! im_pos self;
    Some (item, mkInMemoryRowIterator (im_partition_key self) (im_partition_deletion self)
                  (im_items self) (S (im_pos self)) (im_reversed self))
  else None.

#[export] Instance InMemoryRowIterator_iter : UnfilteredRowIterator InMemoryRowIterator := {
  ri_partition_key := im_partition_key;
  ri_partition_deletion := im_partition_deletion;
  ri_static_row _ := None;
  ri_is_reversed := im_reversed;
  ri_next := InMemoryRowIterator_next;
}.

(** ** The merged row iterator *)

Inductive IteratorMergeError :=
| PartitionKeyMismatch (expected actual : list Z)
| ReversedMismatch (expected actual : bool).

Record MergedRowIterator := mkMergedRowIterator {
  mi_partition_key : list Z;
  mi_partition_deletion : DeletionTime;
  mi_static_row : option RowData;
  mi_items : list Unfiltered;
  mi_pos : nat;
  mi_reversed : bool;
}.

Definition MergedRowIterator_next (self : MergedRowIterator) : option (Unfiltered * MergedRowIterator) :=
  if (mi_pos self <? length (mi_items self))%nat then
    item ← mi_items self !! mi_pos self;
    Some (item, mkMergedRowIterator (mi_partition_key self) (mi_partition_deletion self)
                  (mi_static_row self) (mi_items self) (S (mi_pos self)) (mi_reversed self))
  else None.

#[export] Instance MergedRowIterator_iter : UnfilteredRowIterator MergedRowIterator := {
  ri_partition_key := mi_partition_key;
  ri_partition_deletion := mi_partition_deletion;
  ri_static_row := mi_static_row;
  ri_is_reversed := mi_reversed;
  ri_next := MergedRowIterator_next;
}.

(** [Box<dyn UnfilteredRowIterator>]. *)
Inductive DynRowIterator :=
| DynInMemory (it : InMemoryRowIterator)
| DynMerged (it : MergedRowIterator).

#[export] Instance DynRowIterator_iter : UnfilteredRowIterator DynRowIterator := {
  ri_partition_key d := match d with DynInMemory i => im_partition_key i | DynMerged m => mi_partition_key m end;
  ri_partition_deletion d :=
    match d with DynInMemory i => im_partition_deletion i | DynMerged m => mi_partition_deletion m end;
  ri_static_row d := match d with DynInMemory i => None | DynMerged m => mi_static_row m end;
  ri_is_reversed d := match d with DynInMemory i => im_reversed i | DynMerged m => mi_reversed m end;
  ri_next d := match d with
    | DynInMemory i => prod_map id DynInMemory <$> ri_next i
    | DynMerged m => prod_map id DynMerged <$> ri_next m
    end;
}.

Definition unfiltered_rank (item : Unfiltered) : Z :=
  match item with
  | URow _ => 1
  | UMarker marker =>
      match cb_kind (RangeTombstoneMarker_clustering_bound marker) with
      | InclusiveStart | ExclusiveEnd => 0
      | ExclusiveStart | InclusiveEnd => 2
      end
  end.

Definition compare_unfiltered (left right : Unfiltered) : comparison :=
  then_with (cmp (Unfiltered_clustering_key left) (Unfiltered_clustering_key right))
            (cmp (unfiltered_rank left) (unfiltered_rank right)).

(** The locals of [MergedRowIterator::new] that its loop updates. *)
Record merge_acc := mkMergeAcc {
  acc_deletion : DeletionTime;
  acc_static : option RowData;
  acc_rows : ordmap (list Z) RowData;
  acc_markers : list RangeTombstoneMarker;
}.

Definition merge_item (acc : merge_acc) (item : Unfiltered) : merge_acc :=
  match item with
  | URow row =>
      mkMergeAcc (acc_deletion acc) (acc_static acc)
        (upsert (fun existing => RowData_merge_with existing row) row (rd_clustering_key row) (acc_rows acc))
        (acc_markers acc)
  | UMarker marker =>
      mkMergeAcc (acc_deletion acc) (acc_static acc) (acc_rows acc) (acc_markers acc ++ [marker])
  end.

Section MergeSources.
Context {I : Type} `{RowIteratorLaws I}.

Definition merge_source (acc : merge_acc) (source : I) : merge_acc :=
  let source_deletion := ri_partition_deletion source in
  let deletion := if DeletionTime_supersedes source_deletion (acc_deletion acc)
                  then source_deletion else acc_deletion acc in
  let static := match ri_static_row source with
                | Some source_static =>
                    match acc_static acc with
                    | Some existing => Some (RowData_merge_with existing source_static)
                    | None => Some source_static
                    end
                | None => acc_static acc
                end in
  foldl merge_item (mkMergeAcc deletion static (acc_rows acc) (acc_markers acc))
    (drain (length (ri_remaining source)) source).

Fixpoint merge_sources (partition_key : list Z) (reversed : bool) (acc : merge_acc) (sources : list I)
    : IteratorMergeError + merge_acc :=
  match sources with
  | [] => inr acc
  | source :: sources' =>
      if negb (bool_decide (ri_partition_key source = partition_key))
      then inl (PartitionKeyMismatch partition_key (ri_partition_key source))
      else if negb (eqb (ri_is_reversed source) reversed)
      then inl (ReversedMismatch reversed (ri_is_reversed source))
      else merge_sources partition_key reversed (merge_source acc source) sources'
  end.

Definition merged_items (reversed : bool) (acc : merge_acc) : list Unfiltered :=
  let items := sort_by compare_unfiltered
    ((URow <$> values (acc_rows acc)) ++ (UMarker <$> acc_markers acc)) in
  if reversed then rev items else items.

Definition MergedRowIterator_new (sources : list I) : IteratorMergeError + MergedRowIterator :=
  let partition_key := default [] (ri_partition_key <$> head sources) in
  let reversed := default false (ri_is_reversed <$> head sources) in
  match merge_sources partition_key reversed (mkMergeAcc DeletionTime_LIVE None ∅ []) sources with
  | inl e => inl e
  | inr acc =>
      inr (mkMergedRowIterator partition_key (acc_deletion acc) (acc_static acc)
             (merged_items reversed acc) 0 reversed)
  end.
End MergeSources.

(** * The implementations keep the promise *)

#[export] Instance InMemoryRowIterator_laws : RowIteratorLaws InMemoryRowIterator.
Proof.
  refine {| ri_remaining it := drop (im_pos it) (im_items it) |}. intros it. simpl.
  unfold InMemoryRowIterator_next. destruct (Nat.ltb_spec (im_pos it) (length (im_items it))).
  - destruct (lookup_lt_is_Some_2 (im_items it) (im_pos it)) as [u Hu]; [done|].
    rewrite Hu. simpl. by apply drop_S.
  - by apply drop_ge.
Defined.

#[export] Instance MergedRowIterator_laws : RowIteratorLaws MergedRowIterator.
Proof.
  refine {| ri_remaining it := drop (mi_pos it) (mi_items it) |}. intros it. simpl.
  unfold MergedRowIterator_next. destruct (Nat.ltb_spec (mi_pos it) (length (mi_items it))).
  - destruct (lookup_lt_is_Some_2 (mi_items it) (mi_pos it)) as [u Hu]; [done|].
    rewrite Hu. simpl. by apply drop_S.
  - by apply drop_ge.
Defined.

#[export] Instance DynRowIterator_laws : RowIteratorLaws DynRowIterator.
Proof.
  refine {| ri_remaining d := match d with
    | DynInMemory i => ri_remaining i | DynMerged m => ri_remaining m end |}.
  intros [i|m].
  - pose proof (ri_next_remaining i) as Hn. cbn [ri_next DynRowIterator_iter].
    destruct (ri_next i) as [[u i']|]; exact Hn.
  - pose proof (ri_next_remaining m) as Hn. cbn [ri_next DynRowIterator_iter].
    destruct (ri_next m) as [[u m']|]; exact Hn.
Defined.

(** * The merged rows *)

Definition rows_at (ck : list Z) (l : list Unfiltered) : list RowData :=
  omap (fun u => match u with
    | URow r => if bool_decide (rd_clustering_key r = ck) then Some r else None
    | UMarker _ => None
    end) l.

Definition markers_of (l : list Unfiltered) : list RangeTombstoneMarker :=
  omap (fun u => match u with UMarker m => Some m | URow _ => None end) l.

Definition merge_row_opt (o : option RowData) (r : RowData) : option RowData :=
  Some (match o with Some x => RowData_merge_with x r | None => r end).

(** The row the versions [rs] of one row merge to. *)
Definition merge_rows (rs : list RowData) : option RowData := foldl merge_row_opt None rs.

Lemma foldl_merge_item l acc :
  let acc' := foldl merge_item acc l in
  acc_deletion acc' = acc_deletion acc /\ acc_static acc' = acc_static acc
  /\ acc_markers acc' = acc_markers acc ++ markers_of l
  /\ forall ck, acc_rows acc' !! ck = foldl merge_row_opt (acc_rows acc !! ck) (rows_at ck l).
Proof.
  revert acc. induction l as [|[r|m] l IH]; intros acc; simpl.
  - by rewrite app_nil_r.
  - destruct (IH (merge_item acc (URow r))) as (H1 & H2 & H3 & H4). split_and!; [done..|].
    intros ck. rewrite H4. simpl. rewrite lookup_upsert.
    destruct (decide (rd_clustering_key r = ck)) as [<-|Hne].
    + rewrite bool_decide_eq_true_2 by done. simpl. by destruct (acc_rows acc !! _).
    + by rewrite bool_decide_eq_false_2.
  - destruct (IH (merge_item acc (UMarker m))) as (H1 & H2 & H3 & H4). split_and!; [done..| |done].
    etransitivity; [exact H3|]. simpl. by rewrite <- (assoc_L app).
Qed.

(** Every row of the accumulator is under its own key. *)
Definition acc_keyed (acc : merge_acc) : Prop :=
  forall ck r, acc_rows acc !! ck = Some r -> rd_clustering_key r = ck.

Lemma merge_item_keyed acc u : acc_keyed acc -> acc_keyed (merge_item acc u).
Proof.
  intros Hk. destruct u as [r|m]; [|done]. intros ck x. simpl. rewrite lookup_upsert.
  case_decide as E; [subst|by apply Hk]. specialize (Hk (rd_clustering_key r)).
  destruct (acc_rows acc !! _); simpl; intros [= <-]; auto. simpl. by apply Hk.
Qed.

Lemma foldl_merge_item_keyed l acc : acc_keyed acc -> acc_keyed (foldl merge_item acc l).
Proof. revert acc. induction l; intros; simpl; auto using merge_item_keyed. Qed.

Section MergeCorrect.
Context {I : Type} `{RowIteratorLaws I}.

Abbreviation all_items sources := (mjoin (ri_remaining <$> sources)).

Lemma rows_at_app ck l k : rows_at ck (l ++ k) = rows_at ck l ++ rows_at ck k.
Proof. apply omap_app. Qed.
Lemma markers_of_app l k : markers_of (l ++ k) = markers_of l ++ markers_of k.
Proof. apply omap_app. Qed.

Lemma merge_source_spec acc (source : I) :
  let acc' := merge_source acc source in
  acc_deletion acc' = supersede (acc_deletion acc) (ri_partition_deletion source)
  /\ acc_static acc' = merge_opt RowData_merge_with (acc_static acc) (ri_static_row source)
  /\ acc_markers acc' = acc_markers acc ++ markers_of (ri_remaining source)
  /\ (forall ck, acc_rows acc' !! ck = foldl merge_row_opt (acc_rows acc !! ck) (rows_at ck (ri_remaining source)))
  /\ (acc_keyed acc -> acc_keyed acc').
Proof.
  unfold merge_source. rewrite drain_remaining by done. cbv zeta.
  match goal with |- context [foldl merge_item ?a ?l] =>
    destruct (foldl_merge_item l a) as (H1 & H2 & H3 & H4);
    pose proof (foldl_merge_item_keyed l a) as H5 end.
  simpl in *. split_and!; [done|rewrite H2|done|done|auto].
  by destruct (ri_static_row source), (acc_static acc).
Qed.

(** The sources agree with the key and the direction. *)
Definition sources_agree (pk : list Z) (reversed : bool) (sources : list I) : Prop :=
  Forall (fun s => ri_partition_key s = pk /\ ri_is_reversed s = reversed) sources.

Lemma merge_sources_ok pk reversed acc sources acc' :
  merge_sources pk reversed acc sources = inr acc' ->
  sources_agree pk reversed sources
  /\ acc_deletion acc' = foldl supersede (acc_deletion acc) (ri_partition_deletion <$> sources)
  /\ acc_static acc' = foldl (merge_opt RowData_merge_with) (acc_static acc) (ri_static_row <$> sources)
  /\ acc_markers acc' = acc_markers acc ++ markers_of (all_items sources)
  /\ (forall ck, acc_rows acc' !! ck = foldl merge_row_opt (acc_rows acc !! ck) (rows_at ck (all_items sources)))
  /\ (acc_keyed acc -> acc_keyed acc').
Proof.
  revert acc. induction sources as [|s sources IH]; intros acc; simpl.
  - intros [= <-]. rewrite app_nil_r. split_and!; try done. constructor.
  - destruct (bool_decide_reflect (ri_partition_key s = pk)) as [Hk|]; [|done]; simpl.
    destruct (eqb (ri_is_reversed s) reversed) eqn:Er; [|done]; simpl. apply eqb_prop in Er.
    intros E. destruct (merge_source_spec acc s) as (S1 & S2 & S3 & S4 & S5).
    apply IH in E as (R0 & R1 & R2 & R3 & R4 & R5). split_and!.
    + by constructor.
    + by rewrite R1, S1.
    + by rewrite R2, S2.
    + by rewrite R3, S3, markers_of_app, (assoc_L app).
    + intros ck. by rewrite R4, S4, rows_at_app, foldl_app.
    + auto.
Qed.

Lemma merge_sources_total pk reversed acc sources :
  sources_agree pk reversed sources -> exists acc', merge_sources pk reversed acc sources = inr acc'.
Proof.
  intros Ha. revert acc. induction Ha as [|s sources [Hk Hr] _ IH]; intros acc; simpl; [eauto|].
  rewrite bool_decide_eq_true_2, Hr, eqb_reflx by done. simpl. apply IH.
Qed.

(** The order of the stream: the clustering key, then the rank. *)
Definition stream_key (u : Unfiltered) : list Z * Z := (Unfiltered_clustering_key u, unfiltered_rank u).
Definition stream_le (a b : Unfiltered) : Prop := le_of (stream_key a) (stream_key b).

Lemma sorted_items l : StronglySorted stream_le (sort_by compare_unfiltered l).
Proof.
  apply Sorted_StronglySorted; [intros x y z; apply (le_of_trans (stream_key x) (stream_key y))|].
  assert (Hc : forall x y, compare_unfiltered x y = cmp (stream_key x) (stream_key y))
    by (intros; unfold stream_key; by rewrite cmp_pair).
  apply sort_by_sorted; intros x y; rewrite Hc; [intros ?%is_gt_spec; by apply lt_of_le|].
  by intros ?%is_gt_false.
Qed.

Lemma merged_items_perm reversed acc :
  merged_items reversed acc ≡ₚ (URow <$> values (acc_rows acc)) ++ (UMarker <$> acc_markers acc).
Proof.
  unfold merged_items. destruct reversed; [rewrite <- Permutation_rev|]; apply sort_by_perm.
Qed.

Lemma markers_of_fmap ms : markers_of (UMarker <$> ms) = ms.
Proof. induction ms as [|m ms IH]; [done|]. change (m :: markers_of (UMarker <$> ms) = m :: ms). by rewrite IH. Qed.
Lemma markers_of_rows rs : markers_of (URow <$> rs) = [].
Proof. induction rs as [|r rs IH]; [done|]. exact IH. Qed.

Lemma markers_of_perm l k : l ≡ₚ k -> markers_of l ≡ₚ markers_of k.
Proof. apply omap_Permutation. Qed.

Lemma merged_items_row reversed acc r :
  acc_keyed acc ->
  URow r ∈ merged_items reversed acc <-> acc_rows acc !! rd_clustering_key r = Some r.
Proof.
  intros Hk. rewrite merged_items_perm, elem_of_app, !list_elem_of_fmap. setoid_rewrite elem_of_values. split.
  - intros [(r' & [= <-] & ck & Hck)|(m & ? & _)]; [|done]. by rewrite (Hk ck r Hck).
  - intros Hr. left. eauto.
Qed.
End MergeCorrect.

(** C21. Merging the row streams of a partition.  The merge succeeds exactly
    when all sources have the key and the direction of the first.  Then the
    merged stream is sorted (reversed when the sources are); holds one row for
    each clustering key of the sources, the merge of its versions in source
    order, and no other row; holds every marker once for each occurrence; and
    its partition deletion and static row are the merges of the sources'. *)
Theorem merged_row_iterator_correct {I} `{RowIteratorLaws I} (sources : list I) :
  let pk := default [] (ri_partition_key <$> head sources) in
  let reversed := default false (ri_is_reversed <$> head sources) in
  let all := mjoin (ri_remaining <$> sources) in
  ((exists mi, MergedRowIterator_new sources = inr mi) <-> sources_agree pk reversed sources)
  /\ forall mi, MergedRowIterator_new sources = inr mi ->
     StronglySorted stream_le (if reversed then rev (ri_remaining mi) else ri_remaining mi)
     /\ (forall r, URow r ∈ ri_remaining mi <-> merge_rows (rows_at (rd_clustering_key r) all) = Some r)
     /\ markers_of (ri_remaining mi) ≡ₚ markers_of all
     /\ ri_partition_deletion mi = foldl supersede DeletionTime_LIVE (ri_partition_deletion <$> sources)
     /\ ri_static_row mi = foldl (merge_opt RowData_merge_with) None (ri_static_row <$> sources).
Proof.
  intros pk reversed all. unfold MergedRowIterator_new. fold pk reversed. split.
  - split; [intros [mi E]|intros Ha].
    + destruct (merge_sources _ _ _ _) eqn:Em; [done|]. by apply merge_sources_ok in Em as [? _].
    + destruct (merge_sources_total pk reversed (mkMergeAcc DeletionTime_LIVE None ∅ []) sources Ha)
        as [acc ->]. eauto.
  - intros mi. destruct (merge_sources _ _ _ _) as [|acc] eqn:Em; [done|]. intros [= <-].
    apply merge_sources_ok in Em as (_ & E1 & E2 & E3 & E4 & E5).
    assert (acc_keyed acc) as Hk by (apply E5; intros ck r; simpl; by rewrite (lookup_empty (M:=ordmap (list Z)))).
    change (ri_remaining _) with (merged_items reversed acc). split_and!; [..|done|done].
    + unfold merged_items. destruct reversed; [rewrite rev_involutive|]; apply sorted_items.
    + intros r. rewrite merged_items_row, E4 by done. simpl. by rewrite (lookup_empty (M:=ordmap (list Z))).
    + rewrite (markers_of_perm _ _ (merged_items_perm reversed acc)), markers_of_app, markers_of_rows,
        markers_of_fmap, E3. done.
Qed.

(** * Materialised partitions (filtered_partition.rs) *)

Record FilteredPartition := mkFilteredPartition {
  fp_partition_key : list Z;
  fp_partition_deletion : DeletionTime;
  fp_static_row : option RowData;
  fp_items : list Unfiltered;
}.

Definition FilteredPartition_create {I} `{RowIteratorLaws I} (iter : I) : FilteredPartition :=
  mkFilteredPartition (ri_partition_key iter) (ri_partition_deletion iter) (ri_static_row iter)
    (drain (length (ri_remaining iter)) iter).
Definition FilteredPartition_row_count (self : FilteredPartition) : nat :=
  length (List.filter Unfiltered_is_row (fp_items self)).
Definition FilteredPartition_is_empty (self : FilteredPartition) : bool :=
  is_nil (fp_items self) && match fp_static_row self with None => true | Some _ => false end.
Definition FilteredPartition_rows (self : FilteredPartition) : list RowData :=
  omap (fun item => match item with URow row => Some row | _ => None end) (fp_items self).
