(* ===== verification/PartitionMerge.v ===== *)
(** Merging partition iterators
    (crates/cassandra-storage/src/partitions/iterators.rs, from
    [PartitionHeapEntry] on).

    The heap of the merged iterator always holds the first pending partition of
    each source.  From this the file shows that the iterator returns each
    partition key of the sources once, in strictly increasing order, with the
    partitions of that key merged in source order. *)
From S2P Require Export Iterators.

#[global] Arguments ri_partition_key : simpl never.
#[global] Arguments ri_is_reversed : simpl never.

(** * Merging partition iterators *)

Class UnfilteredPartitionIterator (P : Type) := {
  pi_next : P -> option (DynRowIterator * P);
}.

Class PartitionIteratorLaws (P : Type) `{UnfilteredPartitionIterator P} := {
  pi_remaining : P -> list DynRowIterator;
  pi_next_remaining p :
    match pi_next p with
    | None => pi_remaining p = []
    | Some (d, p') => pi_remaining p = d :: pi_remaining p'
    end;
}.

Record InMemoryPartitionIterator := mkInMemoryPartitionIterator { imp_partitions : list DynRowIterator }.

Definition InMemoryPartitionIterator_new (ps : list DynRowIterator) : InMemoryPartitionIterator :=
  mkInMemoryPartitionIterator ps.
Definition InMemoryPartitionIterator_from_partition_data (ps : list (list Z * PartitionData))
    : InMemoryPartitionIterator :=
  InMemoryPartitionIterator_new
    ((fun e => DynInMemory (InMemoryRowIterator_from_partition_data e.1 e.2)) <$> ps).

(** [pop_front]. *)
Definition InMemoryPartitionIterator_next_partition (self : InMemoryPartitionIterator)
    : option (DynRowIterator * InMemoryPartitionIterator) :=
  match imp_partitions self with
  | [] => None
  | d :: ps => Some (d, mkInMemoryPartitionIterator ps)
  end.

#[export] Instance InMemoryPartitionIterator_iter : UnfilteredPartitionIterator InMemoryPartitionIterator := {
  pi_next := InMemoryPartitionIterator_next_partition;
}.
#[export] Instance InMemoryPartitionIterator_laws : PartitionIteratorLaws InMemoryPartitionIterator.
Proof. refine {| pi_remaining := imp_partitions |}. by intros [[|d ps]]. Defined.

Record PartitionHeapEntry := mkPartitionHeapEntry {
  he_key : list Z;
  he_source_idx : nat;
  he_partition : DynRowIterator;
}.

(** The reversed order of the entries: the greatest entry of the heap has the
    smallest key, and the smallest source among equal keys. *)
Definition PartitionHeapEntry_cmp (self other : PartitionHeapEntry) : comparison :=
  then_with (cmp (he_key other) (he_key self))
            (cmp (Z.of_nat (he_source_idx other)) (Z.of_nat (he_source_idx self))).

(** [BinaryHeap] as the list of its entries: [pop] removes a greatest one.
    Entries never compare equal, since a source has at most one in the heap. *)
Fixpoint heap_pop (heap : list PartitionHeapEntry) : option (PartitionHeapEntry * list PartitionHeapEntry) :=
  match heap with
  | [] => None
  | e :: heap' =>
      match heap_pop heap' with
      | None => Some (e, [])
      | Some (m, rest) =>
          if is_lt (PartitionHeapEntry_cmp e m) then Some (m, e :: rest) else Some (e, heap')
      end
  end.

Section MergedPartitions.
Context {P : Type} `{PartitionIteratorLaws P}.

Record MergedPartitionIterator := mkMergedPartitionIterator {
  mp_sources : list P;
  mp_heap : list PartitionHeapEntry;
}.

(** Pull the next partition of source [idx] into the heap. *)
Definition pull (self : MergedPartitionIterator) (idx : nat) : MergedPartitionIterator :=
  match mp_sources self !! idx with
  | Some source =>
      match pi_next source with
      | Some (next, source') =>
          mkMergedPartitionIterator (<[idx := source']> (mp_sources self))
            (mkPartitionHeapEntry (ri_partition_key next) idx next :: mp_heap self)
      | None => self
      end
  | None => self
  end.

Definition MergedPartitionIterator_new (sources : list P) : MergedPartitionIterator :=
  foldl pull (mkMergedPartitionIterator sources []) (seq 0 (length sources)).

(** The [while] loop: pop the entries whose key is [current_key]. *)
Fixpoint pop_same (fuel : nat) (current_key : list Z) (self : MergedPartitionIterator)
    (partitions : list DynRowIterator) : list DynRowIterator * MergedPartitionIterator :=
  match fuel with
  | O => (partitions, self)
  | S fuel =>
      match heap_pop (mp_heap self) with
      | Some (entry, rest) =>
          if bool_decide (he_key entry = current_key) then
            pop_same fuel current_key
              (pull (mkMergedPartitionIterator (mp_sources self) rest) (he_source_idx entry))
              (partitions ++ [he_partition entry])
          else (partitions, self)
      | None => (partitions, self)
      end
  end.

(** An iterator over one partition, or the merge of several; [None] is the
    panic of [expect] on a merge error. *)
Definition combine (partitions : list DynRowIterator) : option DynRowIterator :=
  match partitions with
  | [d] => Some d
  | _ => match MergedRowIterator_new partitions with
         | inr mi => Some (DynMerged mi)
         | inl _ => None
         end
  end.

(** The number of partitions left, which bounds the loop. *)
Definition pending_count (self : MergedPartitionIterator) : nat :=
  (length (mp_heap self) + sum_list_with (fun p => length (pi_remaining p)) (mp_sources self))%nat.

(** [next_partition] up to the combination of the group it pops. *)
Definition next_group (self : MergedPartitionIterator)
    : option (list DynRowIterator * MergedPartitionIterator) :=
  '(first, rest) ← heap_pop (mp_heap self);
  Some (pop_same (pending_count self) (he_key first)
    (pull (mkMergedPartitionIterator (mp_sources self) rest) (he_source_idx first))
    [he_partition first]).

(** [None] is the end of the iteration, [Some None] the panic. *)
Definition MergedPartitionIterator_next_partition (self : MergedPartitionIterator)
    : option (option (DynRowIterator * MergedPartitionIterator)) :=
  '(partitions, self') ← next_group self;
  Some (d ← combine partitions; Some (d, self')).
End MergedPartitions.
Arguments MergedPartitionIterator P : clear implicits.

(** * The heap holds the heads of the pending partitions *)

Definition entry_key (e : PartitionHeapEntry) : list Z * Z := (he_key e, Z.of_nat (he_source_idx e)).

Lemma PartitionHeapEntry_cmp_key a b : PartitionHeapEntry_cmp a b = cmp (entry_key b) (entry_key a).
Proof. unfold entry_key. by rewrite cmp_pair. Qed.

Lemma heap_pop_None h : heap_pop h = None -> h = [].
Proof. destruct h as [|e h]; simpl; [done|]. by destruct (heap_pop h) as [[? ?]|]; [case_match|]. Qed.

Lemma heap_pop_Some h m rest :
  heap_pop h = Some (m, rest) ->
  h ≡ₚ m :: rest /\ forall e, e ∈ h -> le_of (entry_key m) (entry_key e).
Proof.
  revert m rest. induction h as [|e h IH]; intros m rest; simpl; [done|].
  destruct (heap_pop h) as [[m' rest']|] eqn:E.
  - destruct (IH m' rest' eq_refl) as [Hp Hm]. destruct (is_lt _) eqn:Hlt; intros [= <- <-];
      rewrite PartitionHeapEntry_cmp_key in Hlt.
    + apply is_lt_spec, lt_of_le in Hlt. split; [rewrite Hp; apply Permutation_swap|]. set_solver.
    + apply is_lt_false in Hlt. split; [done|]. intros x [->|Hx]%elem_of_cons; [apply le_of_refl|].
      by apply (le_of_trans _ (entry_key m')); [|apply Hm].
  - intros [= <- <-]. apply heap_pop_None in E as ->. split; [done|].
    intros x ->%list_elem_of_singleton. apply le_of_refl.
Qed.

Abbreviation key := (ri_partition_key (I:=DynRowIterator)).

Definition entry_of (i : nat) (l : list DynRowIterator) : list PartitionHeapEntry :=
  match l with [] => [] | d :: _ => [mkPartitionHeapEntry (key d) i d] end.

Fixpoint heads (i : nat) (ps : list (list DynRowIterator)) : list PartitionHeapEntry :=
  match ps with
  | [] => []
  | l :: ps' => entry_of i l ++ heads (S i) ps'
  end.

Lemma heads_app i ps qs : heads i (ps ++ qs) = heads i ps ++ heads (i + length ps) qs.
Proof.
  revert i. induction ps as [|l ps IH]; intros i; simpl; [by rewrite Nat.add_0_r|].
  rewrite IH, <- (assoc_L app). by replace (S i + length ps)%nat with (i + S (length ps))%nat by lia.
Qed.

Lemma elem_of_heads i ps e :
  e ∈ heads i ps <-> exists j d r, ps !! j = Some (d :: r) /\ e = mkPartitionHeapEntry (key d) (i + j) d.
Proof.
  revert i. induction ps as [|l ps IH]; intros i; simpl.
  - split; [by intros ?%not_elem_of_nil|by intros (? & ? & ? & ? & _)].
  - rewrite elem_of_app, IH. split.
    + intros [He|(j & d & r & Hj & ->)].
      * destruct l as [|d r]; [by apply not_elem_of_nil in He|]. apply list_elem_of_singleton in He as ->.
        exists 0%nat, d, r. by rewrite Nat.add_0_r.
      * exists (S j), d, r. by rewrite Nat.add_succ_r.
    + intros ([|j] & d & r & Hj & ->); simpl in Hj.
      * injection Hj as ->. left. simpl. rewrite Nat.add_0_r. left.
      * right. exists j, d, r. by rewrite Nat.add_succ_r.
Qed.

Lemma heads_insert ps j x l :
  ps !! j = Some x ->
  heads 0 (<[j := l]> ps) ≡ₚ entry_of j l ++ heads 0 (<[j := []]> ps).
Proof.
  intros Hj. pose proof (lookup_lt_Some _ _ _ Hj) as Hlt.
  rewrite !insert_take_drop by done. rewrite !heads_app; simpl.
  rewrite length_take, Nat.min_l by lia. rewrite !(assoc_L app). f_equiv. apply Permutation_app_comm.
Qed.

Section Inv.
Context {P : Type} `{PartitionIteratorLaws P}.

(** [ps] lists the partitions each source has yet to contribute. *)
Record pending (self : MergedPartitionIterator P) (ps : list (list DynRowIterator)) : Prop := {
  pn_heap : mp_heap self ≡ₚ heads 0 ps;
  pn_sources : pi_remaining <$> mp_sources self = tail <$> ps;
}.

Lemma pull_pending srcs h ps j d r :
  pi_remaining <$> srcs = tail <$> ps -> h ≡ₚ heads 0 (<[j := []]> ps) -> ps !! j = Some (d :: r) ->
  pending (pull (mkMergedPartitionIterator srcs h) j) (<[j := r]> ps).
Proof.
  intros Hs Hh Hj.
  assert (exists s, srcs !! j = Some s /\ pi_remaining s = r) as (s & Hsj & Hr).
  { assert ((pi_remaining <$> srcs) !! j = Some r) as Hl by (by rewrite Hs, list_lookup_fmap, Hj).
    rewrite list_lookup_fmap in Hl. by apply fmap_Some in Hl as (s & ? & ->); eauto. }
  unfold pull; simpl. rewrite Hsj. pose proof (pi_next_remaining s) as Hn.
  destruct (pi_next s) as [[d' s']|]; rewrite Hr in Hn; clear Hr; subst r; split; simpl.
  - rewrite (heads_insert ps j _ _ Hj), Hh. done.
  - rewrite !list_fmap_insert, Hs. done.
  - rewrite (heads_insert ps j _ _ Hj), Hh. done.
  - rewrite list_fmap_insert, Hs. rewrite list_insert_id; [done|]. by rewrite list_lookup_fmap, Hj.
Qed.

Lemma pop_pending self ps e rest :
  pending self ps -> heap_pop (mp_heap self) = Some (e, rest) ->
  exists j d r, ps !! j = Some (d :: r) /\ e = mkPartitionHeapEntry (key d) j d
    /\ (forall j' d' r', ps !! j' = Some (d' :: r') -> le_of (key d, Z.of_nat j) (key d', Z.of_nat j'))
    /\ pending (pull (mkMergedPartitionIterator (mp_sources self) rest) j) (<[j := r]> ps).
Proof.
  intros [Hh Hs] [Hp Hm]%heap_pop_Some.
  assert (e ∈ heads 0 ps) as He by (rewrite <- Hh, Hp; left).
  apply elem_of_heads in He as (j & d & r & Hj & ->). exists j, d, r. split_and!; [done|done|..].
  - intros j' d' r' Hj'. apply (Hm (mkPartitionHeapEntry (key d') j' d')). rewrite Hh.
    apply elem_of_heads. eauto.
  - apply (pull_pending _ _ _ _ d); [done| |done].
    apply (Permutation_cons_inv (a:=mkPartitionHeapEntry (key d) j d)).
    rewrite <- Hp, Hh. rewrite <- (list_insert_id ps j (d :: r)) at 1 by done.
    by rewrite (heads_insert ps j _ _ Hj).
Qed.

Lemma pop_None self ps l : pending self ps -> heap_pop (mp_heap self) = None -> l ∈ ps -> l = [].
Proof.
  intros [Hh _] E%heap_pop_None [j Hj]%list_elem_of_lookup. destruct l as [|d r]; [done|].
  assert (mkPartitionHeapEntry (key d) j d ∈ heads 0 ps) as Hin by (apply elem_of_heads; eauto).
  rewrite <- Hh, E in Hin. by apply not_elem_of_nil in Hin.
Qed.
End Inv.

(** * Groups of partitions with one key *)

Definition head_at (k : list Z) (l : list DynRowIterator) : option DynRowIterator :=
  match l with
  | d :: _ => if bool_decide (key d = k) then Some d else None
  | [] => None
  end.
Definition group (k : list Z) (ps : list (list DynRowIterator)) : list DynRowIterator := omap (head_at k) ps.

Definition advance1 (k : list Z) (l : list DynRowIterator) : list DynRowIterator :=
  match l with
  | d :: r => if bool_decide (key d = k) then r else l
  | [] => []
  end.
Definition advance (k : list Z) (ps : list (list DynRowIterator)) : list (list DynRowIterator) :=
  advance1 k <$> ps.

(** Each source is sorted by key, without repeats. *)
Definition strict (l : list DynRowIterator) : Prop :=
  StronglySorted (fun a b => lt_of (key a) (key b)) l.

(** No pending partition has a key below [k]. *)
Definition heads_ge (k : list Z) (ps : list (list DynRowIterator)) : Prop :=
  forall j d r, ps !! j = Some (d :: r) -> le_of k (key d).

Lemma group_cons k l ps :
  group k (l :: ps) = match head_at k l with Some d => d :: group k ps | None => group k ps end.
Proof. done. Qed.
Lemma group_app k ps qs : group k (ps ++ qs) = group k ps ++ group k qs.
Proof. apply omap_app. Qed.
Lemma advance_cons k l ps : advance k (l :: ps) = advance1 k l :: advance k ps.
Proof. done. Qed.
Lemma advance_app k ps qs : advance k (ps ++ qs) = advance k ps ++ advance k qs.
Proof. apply fmap_app. Qed.

Lemma group_nil k ps : (forall l, l ∈ ps -> head_at k l = None) -> group k ps = [] /\ advance k ps = ps.
Proof.
  induction ps as [|l ps IH]; intros Hn; [done|].
  destruct IH as [IH1 IH2]; [intros; apply Hn; by right|].
  assert (head_at k l = None) as Hl by (apply Hn; left).
  rewrite group_cons, advance_cons, Hl, IH1, IH2. split; [done|]. f_equal.
  destruct l as [|d r]; [done|]. simpl in *. by case_bool_decide.
Qed.

Lemma head_at_tail k d r : strict (d :: r) -> key d = k -> head_at k r = None.
Proof.
  intros Hs Hk. destruct r as [|d' r]; [done|]. simpl. apply StronglySorted_inv in Hs as [_ Hf].
  inversion Hf as [|? ? Hlt _]; subst. rewrite bool_decide_eq_false_2; [done|].
  intros E. rewrite E in Hlt. by apply lt_of_irrefl in Hlt.
Qed.

(** Consuming the first source with key [k] takes the first of the group. *)
Lemma group_step k ps j d r :
  ps !! j = Some (d :: r) -> key d = k -> strict (d :: r) ->
  (forall j' l, (j' < j)%nat -> ps !! j' = Some l -> head_at k l = None) ->
  group k ps = d :: group k (<[j := r]> ps) /\ advance k (<[j := r]> ps) = advance k ps.
Proof.
  intros Hj Hk Hs Hmin. pose proof (lookup_lt_Some _ _ _ Hj) as Hlt.
  assert (Hpre : group k (take j ps) = []).
  { apply group_nil. intros l [i Hi]%list_elem_of_lookup. apply lookup_take_Some in Hi as [Hi ?]. by eapply Hmin. }
  assert (Hps : ps = take j ps ++ (d :: r) :: drop (S j) ps) by (symmetry; by apply take_drop_middle).
  rewrite insert_take_drop by done. split.
  - rewrite Hps at 1. rewrite !group_app, !group_cons, Hpre, (head_at_tail k d r) by done. simpl.
    by rewrite bool_decide_eq_true_2.
  - rewrite Hps at 3. rewrite !advance_app, !advance_cons. f_equal. f_equal. simpl.
    rewrite bool_decide_eq_true_2 by done.
    pose proof (head_at_tail k d r Hs Hk) as Ht. destruct r as [|d' r]; [done|]. simpl in *. by case_bool_decide.
Qed.

Lemma strict_insert ps j d r :
  Forall strict ps -> ps !! j = Some (d :: r) -> Forall strict (<[j := r]> ps) /\ strict (d :: r).
Proof.
  intros Hf Hj. pose proof (Forall_lookup_1 _ _ _ _ Hf Hj) as Hs. split; [|done].
  apply Forall_insert; [done|]. by apply StronglySorted_inv in Hs as [? _].
Qed.

Lemma heads_ge_insert k ps j d r :
  heads_ge k ps -> ps !! j = Some (d :: r) -> strict (d :: r) -> heads_ge k (<[j := r]> ps).
Proof.
  intros Hg Hj Hs i d' r' Hi. apply list_lookup_insert_Some in Hi as [(<- & -> & _)|[_ Hi]]; [|by eapply Hg].
  apply StronglySorted_inv in Hs as [_ Hf]. inversion Hf as [|? ? Hlt _]; subst.
  apply (le_of_trans _ (key d)); [by eapply Hg|by apply lt_of_le].
Qed.

Lemma lex_min k i j d' : le_of (k, Z.of_nat i) (key d', Z.of_nat j) -> (j < i)%nat -> key d' <> k.
Proof.
  intros Hle Hlt E. rewrite E in Hle. apply not_lt_of in Hle. apply Hle. unfold lt_of. rewrite cmp_pair, cmp_refl. simpl.
  apply Z.compare_lt_iff. lia.
Qed.

Lemma lex_fst (k k' : list Z) (i j : Z) : le_of (k, i) (k', j) -> le_of k k'.
Proof.
  intros Hle. apply not_lt_of. intros Hlt. apply not_lt_of in Hle. apply Hle. unfold lt_of in *.
  by rewrite cmp_pair, Hlt.
Qed.

Section Groups.
Context {P : Type} `{PartitionIteratorLaws P}.

Lemma pop_same_spec fuel k (self : MergedPartitionIterator P) ps acc :
  pending self ps -> Forall strict ps -> heads_ge k ps -> (length (group k ps) <= fuel)%nat ->
  exists self', pop_same fuel k self acc = (acc ++ group k ps, self') /\ pending self' (advance k ps).
Proof.
  revert self ps acc. induction fuel as [|fuel IH]; intros self ps acc Hp Hs Hg Hf; simpl.
  - assert (group k ps = []) as E by (destruct (group k ps); [done|simpl in Hf; lia]).
    assert (advance k ps = ps) as ->; [|rewrite E, app_nil_r; eauto].
    apply group_nil. intros l Hl. unfold group in E. destruct (head_at k l) as [d|] eqn:Ed; [|done].
    assert (d ∈ omap (head_at k) ps) as Hd by (apply list_elem_of_omap; eauto).
    rewrite E in Hd. by apply not_elem_of_nil in Hd.
  - destruct (heap_pop (mp_heap self)) as [[e rest]|] eqn:Eh.
    + destruct (pop_pending _ _ _ _ Hp Eh) as (j & d & r & Hj & -> & Hmin & Hp'). simpl.
      destruct (strict_insert _ _ _ _ Hs Hj) as [Hs' Hsd].
      case_bool_decide as Ek.
      * destruct (group_step k ps j d r Hj Ek Hsd) as [Eg Ea].
        { intros j' [|d' r'] Hlt Hj'; [done|]. simpl. rewrite bool_decide_eq_false_2; [done|].
          rewrite <- Ek. eapply lex_min; [by eapply Hmin|done]. }
        destruct (IH _ _ (acc ++ [d]) Hp' Hs' (heads_ge_insert _ _ _ _ _ Hg Hj Hsd)) as (self' & E & Hq).
        { rewrite Eg in Hf. simpl in Hf. lia. }
        exists self'. rewrite E, Eg, <- (assoc_L app). simpl. by rewrite <- Ea.
      * destruct (group_nil k ps) as [-> ->]; [|rewrite app_nil_r; eauto].
        intros [|d' r'] [j' Hj']%list_elem_of_lookup; [done|]. simpl. rewrite bool_decide_eq_false_2; [done|].
        intros E. apply Ek, le_of_antisym; [|by eapply Hg]. rewrite <- E. eapply lex_fst, Hmin, Hj'.
    + destruct (group_nil k ps) as [-> ->]; [|rewrite app_nil_r; eauto].
      intros l Hl. by rewrite (pop_None _ _ _ Hp Eh Hl).
Qed.

Lemma length_group_heads k i ps : (length (group k ps) <= length (heads i ps))%nat.
Proof.
  revert i. induction ps as [|[|d r] ps IH]; intros i; [done|apply IH|].
  specialize (IH (S i)). rewrite group_cons. simpl. case_bool_decide; simpl; lia.
Qed.

(** One call of [next_partition]: the group of the least pending key. *)
Lemma next_group_spec (self : MergedPartitionIterator P) ps :
  pending self ps -> Forall strict ps ->
  (next_group self = None /\ forall l, l ∈ ps -> l = [])
  \/ exists k self', next_group self = Some (group k ps, self') /\ pending self' (advance k ps)
       /\ heads_ge k ps /\ group k ps <> [].
Proof.
  intros Hp Hs. unfold next_group. destruct (heap_pop (mp_heap self)) as [[e rest]|] eqn:Eh.
  - right. destruct (pop_pending _ _ _ _ Hp Eh) as (j & d & r & Hj & -> & Hmin & Hp').
    destruct (strict_insert _ _ _ _ Hs Hj) as [Hs' Hsd]. exists (key d).
    assert (heads_ge (key d) ps) as Hg by (intros j' d' r' Hj'; eapply lex_fst, Hmin, Hj').
    destruct (group_step (key d) ps j d r Hj eq_refl Hsd) as [Eg Ea].
    { intros j' [|d' r'] Hlt Hj'; [done|]. simpl. rewrite bool_decide_eq_false_2; [done|].
      eapply lex_min; [by eapply Hmin|done]. }
    destruct (pop_same_spec (pending_count self) (key d) _ _ [d] Hp' Hs'
      (heads_ge_insert _ _ _ _ _ Hg Hj Hsd)) as (self' & E & Hq).
    { pose proof (length_group_heads (key d) 0 ps) as Hlen. rewrite Eg in Hlen. simpl in Hlen.
      unfold pending_count. rewrite (pn_heap _ _ Hp). lia. }
    exists self'. simpl. rewrite E, Eg, <- Ea. done.
  - left. split; [done|]. intros l Hl. by eapply pop_None.
Qed.
End Groups.

(** * The whole iteration *)

(** The partition a sorted source has for key [k]. *)
Definition part_at (k : list Z) (l : list DynRowIterator) : option DynRowIterator :=
  List.find (fun d => bool_decide (key d = k)) l.

Section PerSource.
Context (k : list Z) (l : list DynRowIterator).
Lemma advance1_elem d : d ∈ l <-> d ∈ advance1 k l \/ head_at k l = Some d.
Proof.
  destruct l as [|d0 r]; simpl; [naive_solver|]. case_bool_decide; set_solver.
Qed.

Lemma part_at_advance k' : k' <> k -> part_at k' (advance1 k l) = part_at k' l.
Proof.
  intros Hne. destruct l as [|d0 r]; simpl; [done|]. case_bool_decide as E; [|done].
  unfold part_at; simpl. by rewrite bool_decide_eq_false_2 by congruence.
Qed.

Lemma advance1_strict : strict l -> strict (advance1 k l).
Proof.
  intros Hs. destruct l as [|d0 r]; simpl; [done|]. case_bool_decide; [|done]. by apply StronglySorted_inv in Hs as [? _].
Qed.

Hypothesis Hs : strict l.
Hypothesis Hge : forall d r, l = d :: r -> le_of k (key d).

Lemma source_ge d : d ∈ l -> le_of k (key d).
Proof.
  destruct l as [|d0 r]; [by intros ?%not_elem_of_nil|]. specialize (Hge d0 r eq_refl).
  intros [->|Hd]%elem_of_cons; [done|]. apply StronglySorted_inv in Hs as [_ Hf].
  apply (le_of_trans _ (key d0)); [done|]. apply lt_of_le. rewrite Forall_forall in Hf. by apply Hf.
Qed.

Lemma advance1_gt d : d ∈ advance1 k l -> lt_of k (key d).
Proof.
  destruct l as [|d0 r] eqn:El; [by intros ?%not_elem_of_nil|]. simpl.
  pose proof Hs as [_ Hf]%StronglySorted_inv. specialize (Hge d0 r eq_refl). case_bool_decide as E.
  - intros Hd. rewrite <- E. rewrite Forall_forall in Hf. by apply Hf.
  - assert (lt_of k (key d0)) as Hlt by (apply le_of_lt_eq in Hge as [?|?]; [done|congruence]).
    intros [->|Hd]%elem_of_cons; [done|]. apply (lt_of_trans _ (key d0)); [done|].
    rewrite Forall_forall in Hf. by apply Hf.
Qed.

End PerSource.

Lemma part_at_head k l :
  strict l -> (forall d r, l = d :: r -> le_of k (key d)) -> part_at k l = head_at k l.
Proof.
  intros Hs Hge. unfold part_at. destruct (List.find _ l) as [x|] eqn:Ef.
  - apply find_some in Ef as [Hx%list_elem_of_In Ex%bool_decide_eq_true].
    destruct (proj1 (advance1_elem k l x) Hx) as [Hx'|Hx']; [|done].
    pose proof (advance1_gt k l Hs Hge x Hx') as Hlt. rewrite Ex in Hlt. by apply lt_of_irrefl in Hlt.
  - destruct l as [|d r]; [done|]. simpl in *. by case_bool_decide.
Qed.

Lemma omap_part_advance k k' ps : k' <> k -> omap (part_at k') (advance k ps) = omap (part_at k') ps.
Proof.
  intros Hne. unfold advance. induction ps as [|l ps IH]; [done|]. cbn.
  rewrite part_at_advance by done. by destruct (part_at k' l); [f_equal|]; apply IH.
Qed.

Definition total (ps : list (list DynRowIterator)) : nat := sum_list_with length ps.

Lemma total_advance k ps : (total (advance k ps) + length (group k ps) = total ps)%nat.
Proof.
  unfold total. induction ps as [|l ps IH]; [done|]. rewrite group_cons, advance_cons.
  destruct l as [|d r]; simpl; [lia|]. case_bool_decide; simpl; lia.
Qed.

(** A group has one key, so combining it fails only on mixed directions. *)
Lemma combine_group k b ps :
  Forall (Forall (fun d => ri_is_reversed d = b)) ps -> group k ps <> [] ->
  exists out, combine (group k ps) = Some out /\ key out = k.
Proof.
  intros Hb Hne.
  assert (Ha : forall d, d ∈ group k ps -> key d = k /\ ri_is_reversed d = b).
  { intros d (l & Hl & Hd)%list_elem_of_omap. destruct l as [|d0 r]; [done|]. simpl in Hd.
    case_bool_decide; simplify_eq. split; [done|]. rewrite Forall_forall in Hb. specialize (Hb _ Hl).
    by inversion Hb. }
  destruct (group k ps) as [|d gs] eqn:Eg; [done|]. destruct (Ha d) as [Hk Hr]; [left|].
  destruct gs as [|d' gs]; [by exists d|]. unfold combine, MergedRowIterator_new; simpl head; simpl default.
  destruct (merge_sources_total (key d) (ri_is_reversed d)
    (mkMergeAcc DeletionTime_LIVE None ∅ []) (d :: d' :: gs)) as [acc ->].
  - apply Forall_forall. intros x Hx. rewrite Hk, Hr. by apply Ha.
  - eexists. split; [done|]. exact Hk.
Qed.

Section Drain.
Context {P : Type} `{PartitionIteratorLaws P}.

(** Calling [next_partition] until it ends; [None] if a call panics. *)
Fixpoint drain_partitions (fuel : nat) (self : MergedPartitionIterator P) : option (list DynRowIterator) :=
  match fuel with
  | O => Some []
  | S fuel =>
      match MergedPartitionIterator_next_partition self with
      | None => Some []
      | Some None => None
      | Some (Some (d, self')) => cons d <$> drain_partitions fuel self'
      end
  end.

(** The outcome of a complete iteration over the pending partitions [ps]. *)
Definition iterates (ps : list (list DynRowIterator)) (outs : list DynRowIterator) : Prop :=
  exists ks, StronglySorted lt_of ks
    /\ (forall k, k ∈ ks <-> exists l d, l ∈ ps /\ d ∈ l /\ key d = k)
    /\ Forall2 (fun k out => combine (omap (part_at k) ps) = Some out /\ key out = k) ks outs.

Lemma heads_ge_source k ps l : heads_ge k ps -> l ∈ ps -> forall d r, l = d :: r -> le_of k (key d).
Proof. intros Hg [j Hj]%list_elem_of_lookup d r ->. by eapply Hg. Qed.

Lemma iterates_step k ps out outs :
  Forall strict ps -> heads_ge k ps -> group k ps <> [] ->
  combine (group k ps) = Some out -> key out = k ->
  iterates (advance k ps) outs -> iterates ps (out :: outs).
Proof.
  intros Hs Hg Hne Hc Hk (ks & Hsort & Hks & Hout). rewrite Forall_forall in Hs.
  assert (Hgt : Forall (lt_of k) ks).
  { apply Forall_forall. intros k' (l' & d & (l & -> & Hl)%list_elem_of_fmap & Hd & <-)%Hks.
    apply (advance1_gt k l); eauto using heads_ge_source. }
  exists (k :: ks). split_and!; [by constructor|..].
  - intros k'. rewrite elem_of_cons, Hks. split.
    + intros [->|(l' & d & (l & -> & Hl)%list_elem_of_fmap & Hd & <-)].
      * destruct (group k ps) as [|d gs] eqn:Eg; [done|].
        assert (d ∈ group k ps) as Hd by (rewrite Eg; left).
        apply list_elem_of_omap in Hd as ([|d0 r] & Hl & Hd); [done|]. simpl in Hd.
        case_bool_decide; simplify_eq. eexists _, _. split_and!; [exact Hl|left|done].
      * exists l, d. split_and!; [done| |done]. apply (advance1_elem k l). by left.
    + intros (l & d & Hl & Hd & <-). apply (advance1_elem k l) in Hd as [Hd|Hd].
      * right. exists (advance1 k l), d. split_and!; [|done..]. by apply list_elem_of_fmap_2.
      * left. destruct l as [|d0 r]; [done|]. simpl in Hd. by case_bool_decide; simplify_eq.
  - constructor.
    + split; [|done]. rewrite <- Hc. f_equal. apply omap_cong.
      intros l Hl. apply part_at_head; eauto using heads_ge_source.
    + apply (Forall2_weaken (lt_of k) _ _ _ _ Hout Hgt). intros k' out' Hlt [Hc' Hk'].
      rewrite omap_part_advance in Hc'; [done|]. intros ->. by apply lt_of_irrefl in Hlt.
Qed.

Lemma drain_iterates b fuel (self : MergedPartitionIterator P) ps :
  pending self ps -> Forall strict ps -> Forall (Forall (fun d => ri_is_reversed d = b)) ps ->
  (total ps < fuel)%nat ->
  exists outs, drain_partitions fuel self = Some outs /\ iterates ps outs.
Proof.
  revert self ps. induction fuel as [|fuel IH]; intros self ps Hp Hs Hb Hf; [lia|]. simpl.
  unfold MergedPartitionIterator_next_partition.
  destruct (next_group_spec self ps Hp Hs) as [[-> Hnil]|(k & self' & -> & Hp' & Hg & Hne)]; simpl.
  - exists []. split; [done|]. exists []. split_and!; [constructor| |constructor].
    intros k. split; [by intros ?%not_elem_of_nil|]. intros (l & d & Hl & Hd & _).
    rewrite (Hnil l Hl) in Hd. by apply not_elem_of_nil in Hd.
  - destruct (combine_group k b ps Hb Hne) as (out & Hc & Hk). rewrite Hc. simpl.
    destruct (IH self' (advance k ps) Hp') as (outs & -> & Hit).
    + apply Forall_fmap. eapply Forall_impl; [exact Hs|]. intros l Hl. by apply advance1_strict.
    + apply Forall_fmap. eapply Forall_impl; [exact Hb|]. intros l Hl. apply Forall_forall. intros d Hd.
      rewrite Forall_forall in Hl. apply Hl. apply (advance1_elem k l). by left.
    + pose proof (total_advance k ps). destruct (group k ps); [done|]. simpl in *. lia.
    + exists (out :: outs). split; [done|]. by apply (iterates_step k).
Qed.

(** [new] pulls the first partition of each source in turn. *)
Lemma new_pulls (sources : list P) n :
  (n <= length sources)%nat ->
  let ps := pi_remaining <$> sources in
  let self := foldl pull (mkMergedPartitionIterator sources []) (seq 0 n) in
  mp_heap self ≡ₚ heads 0 (take n ps)
  /\ pi_remaining <$> mp_sources self = (tail <$> take n ps) ++ drop n ps.
Proof.
  induction n as [|n IH]; intros Hn; [done|]. cbv zeta in *. rewrite seq_S, foldl_app. simpl foldl.
  destruct IH as [Hh Hs]; [lia|]. set (self := foldl pull _ (seq 0 n)) in *.
  destruct (lookup_lt_is_Some_2 sources n) as [s Hsn]; [lia|].
  assert (Hps : (pi_remaining <$> sources) !! n = Some (pi_remaining s)) by (by rewrite list_lookup_fmap, Hsn).
  assert (Hlen : length (tail <$> take n (pi_remaining <$> sources)) = n)
    by (rewrite length_fmap, length_take, length_fmap; lia).
  assert (exists s', mp_sources self !! n = Some s' /\ pi_remaining s' = pi_remaining s) as (s' & Hs' & Er).
  { assert ((pi_remaining <$> mp_sources self) !! n = Some (pi_remaining s)) as Hl.
    { rewrite Hs, lookup_app_r, Hlen, lookup_drop by lia. by rewrite Nat.sub_diag, Nat.add_0_r. }
    rewrite list_lookup_fmap in Hl. apply fmap_Some in Hl as (s' & ? & ?). eauto. }
  rewrite (take_S_r _ _ _ Hps), (drop_S _ _ _ Hps) in *. rewrite heads_app, length_take, length_fmap.
  rewrite Nat.min_l by lia. simpl. rewrite app_nil_r, fmap_app, <- (assoc_L app). simpl.
  unfold pull. rewrite Hs'. pose proof (pi_next_remaining s') as Hnx. rewrite Er in Hnx.
  destruct (pi_next s') as [[d s'']|]; rewrite Hnx in *; simpl.
  - rewrite Hh. split; [apply Permutation_cons_append|].
    rewrite list_fmap_insert, Hs. rewrite <- Hlen at 1. by rewrite insert_app_r_alt, Nat.sub_diag.
  - rewrite app_nil_r. done.
Qed.

Lemma new_pending (sources : list P) : pending (MergedPartitionIterator_new sources) (pi_remaining <$> sources).
Proof.
  destruct (new_pulls sources (length sources)) as [Hh Hs]; [done|].
  rewrite take_ge, ?drop_ge, ?app_nil_r in * by (rewrite length_fmap; lia). by split.
Qed.
End Drain.

(** C12. Merging sorted partition iterators.  When each source is sorted by key
    and all partitions have one direction, iterating the merged iterator never
    panics, ends, and returns each partition key of the sources exactly once,
    in strictly increasing order; the partition returned for a key combines the
    partitions the sources have for it, in source order. *)
Theorem merged_partition_iterator_correct {P} `{PartitionIteratorLaws P} (sources : list P) (reversed : bool)
    (Hs : Forall (fun s => strict (pi_remaining s)) sources)
    (Hb : Forall (fun s => Forall (fun d => ri_is_reversed d = reversed) (pi_remaining s)) sources) :
  let ps := pi_remaining <$> sources in
  exists ks outs,
    drain_partitions (S (total ps)) (MergedPartitionIterator_new sources) = Some outs
    /\ StronglySorted lt_of ks
    /\ (forall k, k ∈ ks <-> exists s d, s ∈ sources /\ d ∈ pi_remaining s /\ key d = k)
    /\ Forall2 (fun k out => combine (omap (part_at k) ps) = Some out /\ key out = k) ks outs.
Proof.
  intros ps.
  destruct (drain_iterates reversed (S (total ps)) _ ps (new_pending sources)) as (outs & E & ks & H1 & H2 & H3).
  - by apply Forall_fmap.
  - by apply Forall_fmap.
  - lia.
  - exists ks, outs. split_and!; [done..| |done]. intros k. rewrite H2. unfold ps.
    setoid_rewrite list_elem_of_fmap. naive_solver.
Qed.

Definition example_partition (k : Z) (items : list Unfiltered) : DynRowIterator :=
  DynInMemory (InMemoryRowIterator_new [k] DeletionTime_LIVE items false).

Lemma merged_partition_iterator_correct_witness :
  let a := mkInMemoryPartitionIterator [example_partition 1 []; example_partition 3 []] in
  let b := mkInMemoryPartitionIterator [example_partition 1 [URow (RowData_new [7])]] in
  exists ks outs,
    drain_partitions 4 (MergedPartitionIterator_new [a; b]) = Some outs
    /\ StronglySorted lt_of ks
    /\ Forall2 (fun k out => key out = k) ks outs.
Proof.
  intros a b.
  destruct (merged_partition_iterator_correct [a; b] false) as (ks & outs & E & H1 & _ & H2).
  - repeat constructor.
  - repeat constructor.
  - exists ks, outs. split; [exact E|]. split; [exact H1|].
    eapply Forall2_impl; [exact H2|]. intros k out [_ Hk]. exact Hk.
Defined.
