(* ===== verification/SSTable.v ===== *)
(** * Files of sorted partitions

    crates/cassandra-storage/src/sstable: format.rs, tombstone_serializer.rs,
    metadata.rs, writer.rs, reader.rs, in the classic format.  A file set is the
    record of the bytes of its components.  The writer counts its offsets as the
    code does; the readers are monadic functions of the bytes.

    The main result is that what was written is what is read: lookups through
    filter, index and data file answer as the list of partitions does, and the
    scan of the data file returns the list. *)
From S2P Require Export Io Bloom Iterators.
From S2P Require Import Types.

(** ** Format (format.rs) *)

Inductive SSTableFormat := FormatBig | FormatBti.
Record SSTableDescriptor := mkSSTableDescriptor {
  sd_keyspace : string;
  sd_table : string;
  sd_generation : Z;
  sd_format : SSTableFormat;
}.
Inductive Component := CData | CIndex | CFilter | CSummary | CStatistics | CToc | CPartitions | CRows | CDigest
  | CCompressionInfo.
Definition Component_extension (c : Component) : str :=
  lit match c with
      | CData => "Data.db" | CIndex => "Index.db" | CFilter => "Filter.db" | CSummary => "Summary.db"
      | CStatistics => "Statistics.db" | CToc => "TOC.txt" | CPartitions => "Partitions.db" | CRows => "Rows.db"
      | CDigest => "Digest.crc32" | CCompressionInfo => "CompressionInfo.db"
      end.
Definition SSTableDescriptor_expected_components (d : SSTableDescriptor) : list Component :=
  match sd_format d with
  | FormatBig => [CData; CIndex; CFilter; CSummary; CStatistics; CToc]
  | FormatBti => [CData; CPartitions; CFilter; CStatistics; CToc]
  end.
Definition SSTableDescriptor_file_prefix (d : SSTableDescriptor) : str :=
  lit (sd_keyspace d) ++ lit "-" ++ lit (sd_table d) ++ lit "-"
  ++ lit match sd_format d with FormatBig => "big" | FormatBti => "bti" end
  ++ lit "-" ++ show (Z.to_nat (sd_generation d)).
Definition SSTableDescriptor_component_name (d : SSTableDescriptor) (c : Component) : str :=
  SSTableDescriptor_file_prefix d ++ lit "-" ++ Component_extension c.

Definition DATA_MAGIC : list Z := string_bytes "SSDT".
Definition DATA_VERSION : Z := 1.
Definition INDEX_MAGIC : list Z := string_bytes "SSIX".
Definition FILTER_MAGIC : list Z := string_bytes "SSFL".
Definition METADATA_MAGIC : list Z := string_bytes "SSMT".
Definition END_OF_PARTITION : Z := 0.
Definition ROW_MARKER : Z := 1.
Definition PARTITION_DELETION_MARKER : Z := 3.
Definition RANGE_TOMBSTONE_BOUND_MARKER : Z := 4.

(** ** Deletions and markers (tombstone_serializer.rs) *)

Definition write_deletion_time (d : DeletionTime) : list Z :=
  write_be 8 (marked_for_delete_at d) ++ write_be 4 (local_deletion_time d).
Definition read_deletion_time : IoReader DeletionTime :=
  ts ← io_s 8; ldt ← io_s 4; mret (DeletionTime_new ts ldt).

(** The bytes written and their number. *)
Definition write_partition_deletion (d : DeletionTime) : list Z * Z :=
  (PARTITION_DELETION_MARKER :: write_deletion_time d, 1 + 8 + 4).
Definition read_partition_deletion : IoReader DeletionTime := read_deletion_time.

Definition encode_bound_kind (k : ClusteringBoundKind) : Z :=
  match k with InclusiveStart => 0 | ExclusiveStart => 1 | InclusiveEnd => 2 | ExclusiveEnd => 3 end.
Definition decode_bound_kind (kind : Z) : IoReader ClusteringBoundKind :=
  match kind with
  | 0 => mret InclusiveStart | 1 => mret ExclusiveStart | 2 => mret InclusiveEnd | 3 => mret ExclusiveEnd
  | _ => io_fail BadData
  end.

Definition write_range_tombstone_marker (marker : RangeTombstoneMarker) : list Z * Z :=
  let bound := RangeTombstoneMarker_clustering_bound marker in
  let head kind := RANGE_TOMBSTONE_BOUND_MARKER :: kind :: encode_bound_kind (cb_kind bound)
                   :: put_bytes (cb_values bound) in
  let size := 1 + 2 + (4 + Z.of_nat (length (cb_values bound))) in
  match marker with
  | Open _ d => (head 0 ++ write_deletion_time d, size + 12)
  | Close _ d => (head 1 ++ write_deletion_time d, size + 12)
  | Boundary _ c o => (head 2 ++ write_deletion_time c ++ write_deletion_time o, size + 12 + 12)
  end.
Definition read_range_tombstone_marker : IoReader RangeTombstoneMarker :=
  marker_kind ← io_u 1;
  b ← io_u 1;
  bound_kind ← decode_bound_kind b;
  values ← io_bytes;
  deletion ← read_deletion_time;
  let bound := mkClusteringBound bound_kind values in
  match marker_kind with
  | 0 => mret (Open bound deletion)
  | 1 => mret (Close bound deletion)
  | 2 => open_deletion ← read_deletion_time; mret (Boundary bound deletion open_deletion)
  | _ => io_fail BadData
  end.

(** ** Rows and cells (writer.rs) *)

Record SSTableStats := mkSSTableStats {
  st_partition_count : Z;
  st_row_count : Z;
  st_cell_count : Z;
  st_min_timestamp : Z;
  st_max_timestamp : Z;
  st_data_size : Z;
  st_index_size : Z;
}.
Definition SSTableStats_initial : SSTableStats := mkSSTableStats 0 0 0 i64_MAX i64_MIN 0 0.

Definition flag (b : bool) (mask : Z) : Z := if b then mask else 0.
Definition opt_i32 (o : option Z) : list Z := match o with Some z => write_be 4 z | None => [] end.
Definition opt_bytes (o : option (list Z)) : list Z := match o with Some l => put_bytes l | None => [] end.

Definition cell_flags (cell : Cell) : Z :=
  Z.lor (Z.lor (flag (Cell_is_tombstone cell) 1) (flag (bool_decide (is_Some (Cell_value cell))) 2))
    (flag (bool_decide (is_Some (Cell_local_deletion_time cell))) 4).
Definition cell_bytes (cell : Cell) : list Z :=
  let name := string_bytes (Cell_column cell) in
  write_be 2 (wrap_u 16 (Z.of_nat (length name))) ++ name
  ++ write_be 8 (Cell_timestamp cell) ++ write_be 4 (Cell_ttl cell) ++ [cell_flags cell]
  ++ opt_i32 (Cell_local_deletion_time cell) ++ opt_bytes (Cell_value cell).
Definition write_cell (cell : Cell) (stats : SSTableStats) : list Z * Z * SSTableStats :=
  let name_len := Z.of_nat (length (string_bytes (Cell_column cell))) in
  let written := 2 + name_len + 8 + 4 + 1
    + match Cell_local_deletion_time cell with Some _ => 4 | None => 0 end
    + match Cell_value cell with Some val => 4 + Z.of_nat (length val) | None => 0 end in
  (cell_bytes cell, written,
   mkSSTableStats (st_partition_count stats) (st_row_count stats) (wrap_u 64 (st_cell_count stats + 1))
     (Z.min (st_min_timestamp stats) (Cell_timestamp cell)) (Z.max (st_max_timestamp stats) (Cell_timestamp cell))
     (st_data_size stats) (st_index_size stats)).

(** Running writers one after the other. *)
Definition then_write (acc : list Z * Z * SSTableStats) (w : SSTableStats -> list Z * Z * SSTableStats)
    : list Z * Z * SSTableStats :=
  let '(bytes, written, stats) := acc in
  let '(more, n, stats) := w stats in
  (bytes ++ more, written + n, stats).

Definition row_flags (row : Row) : Z :=
  Z.lor (flag (Row_is_tombstone row) 1) (flag (bool_decide (is_Some (Row_local_deletion_time row))) 2).
Definition write_row (ck : list Z) (row : Row) (stats : SSTableStats) : list Z * Z * SSTableStats :=
  let bytes := ROW_MARKER :: put_bytes ck ++ [row_flags row] ++ opt_i32 (Row_local_deletion_time row)
    ++ write_be 4 (wrap_u 32 (Z.of_nat (length (Row_cells row)))) in
  let written := 1 + (4 + Z.of_nat (length ck)) + 1
    + match Row_local_deletion_time row with Some _ => 4 | None => 0 end + 4 in
  let '(bytes, written, stats) :=
    foldl (fun acc cell => then_write acc (write_cell cell)) (bytes, written, stats) (Row_cells row) in
  (bytes, written,
   mkSSTableStats (st_partition_count stats) (wrap_u 64 (st_row_count stats + 1)) (st_cell_count stats)
     (st_min_timestamp stats) (st_max_timestamp stats) (st_data_size stats) (st_index_size stats)).

Definition row_data_to_row (row_data : RowData) : Row :=
  let cells := mjoin ((fun column =>
    match column with
    | Simple cell => [Cell_from cell]
    | Complex complex => Cell_from <$> values (ccd_cells complex)
    end) <$> values (rd_columns row_data)) in
  mkRow (rd_clustering_key row_data) cells (negb (DeletionTime_is_live (rd_deletion row_data)))
    (if DeletionTime_is_live (rd_deletion row_data) then None
     else Some (local_deletion_time (rd_deletion row_data))).

(** What is between the key and the end marker of a partition. *)
Definition write_partition_body (p : PartitionData) (stats : SSTableStats) : list Z * Z * SSTableStats :=
  let start :=
    match tombstone_timestamp p, tombstone_local_deletion_time p with
    | Some ts, Some ldt => (write_partition_deletion (DeletionTime_new ts ldt), stats)
    | _, _ => ([], 0, stats)
    end in
  foldl (fun acc e => then_write acc (write_row e.1 e.2)) start (entries (pd_rows p)).

Definition write_item (item : Unfiltered) (stats : SSTableStats) : list Z * Z * SSTableStats :=
  match item with
  | URow row_data => let row := row_data_to_row row_data in write_row (Row_clustering_key row) row stats
  | UMarker marker => (write_range_tombstone_marker marker, stats)
  end.
Definition write_filtered_body (p : FilteredPartition) (stats : SSTableStats) : list Z * Z * SSTableStats :=
  let start :=
    if negb (DeletionTime_is_live (fp_partition_deletion p))
    then (write_partition_deletion (fp_partition_deletion p), stats) else ([], 0, stats) in
  let start :=
    match fp_static_row p with
    | Some static_row => then_write start (write_item (URow static_row))
    | None => start
    end in
  foldl (fun acc item => then_write acc (write_item item)) start (fp_items p).

(** ** Statistics.db (metadata.rs) *)

Record SSTableMetadata := mkSSTableMetadata {
  md_stats : SSTableStats;
  min_partition_key : list Z;
  max_partition_key : list Z;
}.
Definition METADATA_VERSION : Z := 1.
Definition FIELD_COUNT : Z := 9.

Definition MetadataSerializer_serialize (meta : SSTableMetadata) : list Z :=
  let s := md_stats meta in
  METADATA_MAGIC ++ [METADATA_VERSION] ++ write_be 2 FIELD_COUNT
  ++ write_be 8 (st_partition_count s) ++ write_be 8 (st_row_count s) ++ write_be 8 (st_cell_count s)
  ++ write_be 8 (st_min_timestamp s) ++ write_be 8 (st_max_timestamp s)
  ++ write_be 8 (st_data_size s) ++ write_be 8 (st_index_size s)
  ++ put_bytes (min_partition_key meta) ++ put_bytes (max_partition_key meta).

(** Errors are one value, [BadData]; the reader of files drops them. *)
Definition read_metadata : IoReader SSTableMetadata :=
  magic ← io_exact 4;
  if negb (bool_decide (magic = METADATA_MAGIC)) then io_fail BadData
  else
    version ← io_u 1;
    if negb (version =? METADATA_VERSION) then io_fail BadData
    else
      field_count ← io_u 2;
      if negb (field_count =? FIELD_COUNT) then io_fail BadData
      else
        partition_count ← io_u 8; row_count ← io_u 8; cell_count ← io_u 8;
        min_ts ← io_s 8; max_ts ← io_s 8; data_size ← io_u 8; index_size ← io_u 8;
        min_pk ← io_bytes; max_pk ← io_bytes;
        mret (mkSSTableMetadata
          (mkSSTableStats partition_count row_count cell_count min_ts max_ts data_size index_size) min_pk max_pk).
Definition MetadataSerializer_deserialize (data : list Z) : IoError + SSTableMetadata :=
  match read_metadata data with
  | inl e => inl e
  | inr (meta, []) => inr meta
  | inr (_, _ :: _) => inl BadData
  end.

(** ** Writing (writer.rs) *)

Record IndexEntry := mkIndexEntry { ie_partition_key : list Z; ie_data_offset : Z }.
Record SSTableFiles := mkSSTableFiles {
  data_db : list Z;
  index_db : list Z;
  filter_db : list Z;
  summary_db : list Z;
  statistics_db : list Z;
  toc_txt : list str;
}.
Record WriteState := mkWriteState {
  ws_data : list Z;
  ws_offset : Z;
  ws_bloom : BloomFilter;
  ws_index : list IndexEntry;
  ws_summary : list IndexEntry;
  ws_stats : SSTableStats;
}.

Definition index_entry_bytes (e : IndexEntry) : list Z :=
  put_bytes (ie_partition_key e) ++ write_be 8 (ie_data_offset e).

(** Both [write] and [write_filtered_partitions] are this function, at the
    writer of the body of their partitions.  [crc32] is the third-party check
    sum of everything written to the data file. *)
Section Writer.
Context (bits_of : nat -> Z) (hashes_of : Z -> nat -> Z) (crc32 : list Z -> Z).
Context {P : Type} (write_body : P -> SSTableStats -> list Z * Z * SSTableStats).

Definition write_partition (st : WriteState) (i : nat) (pk : list Z) (partition : P) : WriteState :=
  let partition_offset := ws_offset st in
  let entry := mkIndexEntry pk partition_offset in
  let stats := ws_stats st in
  let stats := mkSSTableStats (wrap_u 64 (st_partition_count stats + 1)) (st_row_count stats) (st_cell_count stats)
    (st_min_timestamp stats) (st_max_timestamp stats) (st_data_size stats) (st_index_size stats) in
  let '(body, written, stats) := write_body partition stats in
  mkWriteState (ws_data st ++ put_bytes pk ++ body ++ [END_OF_PARTITION])
    (ws_offset st + (4 + Z.of_nat (length pk)) + written + 1)
    (BloomFilter_add (ws_bloom st) pk)
    (ws_index st ++ [entry])
    (if (i mod 128 =? 0)%nat then ws_summary st ++ [entry] else ws_summary st)
    stats.
Fixpoint write_partitions (st : WriteState) (i : nat) (partitions : list (list Z * P)) : WriteState :=
  match partitions with
  | [] => st
  | (pk, partition) :: partitions => write_partitions (write_partition st i pk partition) (S i) partitions
  end.

Definition least_key (ks : list (list Z)) : list Z :=
  match ks with [] => [] | k :: ks => foldl (fun m k => if is_lt (cmp k m) then k else m) k ks end.
Definition greatest_key (ks : list (list Z)) : list Z :=
  match ks with [] => [] | k :: ks => foldl (fun m k => if is_lt (cmp k m) then m else k) k ks end.

Definition SSTableWriter_write (descriptor : SSTableDescriptor) (partitions : list (list Z * P))
    : SSTableFiles * SSTableStats :=
  let bloom := BloomFilter_new bits_of hashes_of (Nat.max (length partitions) 1) in
  let st := write_partitions
    (mkWriteState (DATA_MAGIC ++ [DATA_VERSION]) 5 bloom [] [] SSTableStats_initial) 0 partitions in
  let crc := crc32 (ws_data st) in
  let data := ws_data st ++ write_be 4 crc in
  let index := INDEX_MAGIC ++ mjoin (index_entry_bytes <$> ws_index st) in
  let idx_size := foldl (fun size e => size + 4 + Z.of_nat (length (ie_partition_key e)) + 8) 4 (ws_index st) in
  let stats := ws_stats st in
  let stats := mkSSTableStats (st_partition_count stats) (st_row_count stats) (st_cell_count stats)
    (st_min_timestamp stats) (st_max_timestamp stats) (ws_offset st + 4) idx_size in
  (mkSSTableFiles data index
     (FILTER_MAGIC ++ BloomFilter_serialize (ws_bloom st))
     (write_be 4 (wrap_u 32 (Z.of_nat (length (ws_summary st)))) ++ mjoin (index_entry_bytes <$> ws_summary st))
     (MetadataSerializer_serialize
        (mkSSTableMetadata stats (least_key partitions.*1) (greatest_key partitions.*1)))
     (SSTableDescriptor_component_name descriptor <$> SSTableDescriptor_expected_components descriptor),
   stats).
End Writer.

(** ** Reading (reader.rs) *)

Definition read_cell : IoReader Cell :=
  name_len ← io_u 2;
  name_buf ← io_exact (Z.to_nat name_len);
  column ← io_string name_buf;
  timestamp ← io_s 8;
  ttl ← io_s 4;
  flags ← io_u 1;
  let has_ldt := negb (Z.land flags 4 =? 0) in
  let has_value := negb (Z.land flags 2 =? 0) in
  ldt ← (if has_ldt then z ← io_s 4; mret (Some z) else mret None);
  value ← (if has_value then v ← io_bytes; mret (Some v) else mret None);
  mret (mkCell column value timestamp ttl ldt (negb (Z.land flags 1 =? 0))).

Definition read_row : IoReader Row :=
  ck ← io_bytes;
  flags ← io_u 1;
  let has_ldt := negb (Z.land flags 2 =? 0) in
  ldt ← (if has_ldt then z ← io_s 4; mret (Some z) else mret None);
  cell_count ← io_u 4;
  cells ← io_repeat (Z.to_nat cell_count) read_cell;
  mret (mkRow ck cells (negb (Z.land flags 1 =? 0)) ldt).

(** The items of a partition, up to its end marker.  The loops of the reader
    only differ in what they do with an item; a turn takes at least the byte of
    the marker, so the length of the input is enough fuel. *)
Inductive BodyItem :=
| BRow (row : Row)
| BDeletion (deletion : DeletionTime)
| BMarker (marker : RangeTombstoneMarker).

Definition read_item : IoReader (option BodyItem) :=
  marker ← io_u 1;
  if marker =? END_OF_PARTITION then mret None
  else if marker =? PARTITION_DELETION_MARKER then d ← read_partition_deletion; mret (Some (BDeletion d))
  else if marker =? RANGE_TOMBSTONE_BOUND_MARKER then m ← read_range_tombstone_marker; mret (Some (BMarker m))
  else if negb (marker =? ROW_MARKER) then io_fail BadData
  else row ← read_row; mret (Some (BRow row)).
Fixpoint read_items (fuel : nat) : IoReader (list BodyItem) :=
  match fuel with
  | O => io_fail Eof
  | S fuel =>
      item ← read_item;
      match item with
      | None => mret []
      | Some item => items ← read_items fuel; mret (item :: items)
      end
  end.
Definition read_body : IoReader (list BodyItem) := fun input => read_items (length input) input.

Definition PartitionData_take_item (partition : PartitionData) (item : BodyItem) : PartitionData :=
  match item with
  | BRow row => PartitionData_apply_row partition row
  | BDeletion d => PartitionData_set_tombstone partition (marked_for_delete_at d) (local_deletion_time d)
  | BMarker _ => partition
  end.
Definition read_partition_body : IoReader PartitionData :=
  items ← read_body; mret (foldl PartitionData_take_item PartitionData_new items).

Definition FilteredPartition_take_item (p : FilteredPartition) (item : BodyItem) : FilteredPartition :=
  match item with
  | BRow row =>
      let row_data := RowData_from row in
      if is_nil (rd_clustering_key row_data)
      then mkFilteredPartition (fp_partition_key p) (fp_partition_deletion p)
             (Some (mkRowData (rd_clustering_key row_data) (liveness_info row_data) (rd_deletion row_data)
                      (rd_columns row_data) true)) (fp_items p)
      else mkFilteredPartition (fp_partition_key p) (fp_partition_deletion p) (fp_static_row p)
             (fp_items p ++ [URow row_data])
  | BDeletion d => mkFilteredPartition (fp_partition_key p) d (fp_static_row p) (fp_items p)
  | BMarker m => mkFilteredPartition (fp_partition_key p) (fp_partition_deletion p) (fp_static_row p)
                   (fp_items p ++ [UMarker m])
  end.
Definition read_filtered_partition_body (pk : list Z) : IoReader FilteredPartition :=
  items ← read_body;
  mret (foldl FilteredPartition_take_item (mkFilteredPartition pk DeletionTime_LIVE None []) items).

(** *** Opening *)

Record SSTableReader := mkSSTableReader {
  sr_descriptor : SSTableDescriptor;
  sr_bloom : BloomFilter;
  sr_index : list IndexEntry;
  sr_stats : option SSTableStats;
}.

Definition load_bloom_filter (file : list Z) : IoError + BloomFilter :=
  match (magic ← io_exact 4;
         if bool_decide (magic = FILTER_MAGIC) then BloomFilter_deserialize else io_fail BadData) file with
  | inl e => inl e
  | inr (bloom, _) => inr bloom
  end.

(** The loop ends at an end of file inside a length; elsewhere it is an error. *)
Fixpoint load_entries (fuel : nat) (input : list Z) : IoError + list IndexEntry :=
  match fuel with
  | O => inl Eof
  | S fuel =>
      match io_u 4 input with
      | inl _ => inr []
      | inr (pk_len, input) =>
          match (pk ← io_exact (Z.to_nat pk_len); offset ← io_u 8; mret (mkIndexEntry pk offset)) input with
          | inl e => inl e
          | inr (e, input) =>
              match load_entries fuel input with inl e => inl e | inr es => inr (e :: es) end
          end
      end
  end.
Definition load_index (file : list Z) : IoError + list IndexEntry :=
  match (magic ← io_exact 4;
         if bool_decide (magic = INDEX_MAGIC) then mret () else io_fail BadData) file with
  | inl e => inl e
  | inr (_, input) => load_entries (S (length input)) input
  end.

(** Files of the first version hold JSON, read by a library; [json_stats] is
    its result. *)
Definition load_stats (json_stats : list Z -> option SSTableStats) (file : list Z) : option SSTableStats :=
  if (4 <=? length file)%nat && bool_decide (take 4 file = METADATA_MAGIC)
  then match MetadataSerializer_deserialize file with inl _ => None | inr meta => Some (md_stats meta) end
  else json_stats file.

Definition SSTableReader_open (json_stats : list Z -> option SSTableStats)
    (descriptor : SSTableDescriptor) (files : SSTableFiles) : IoError + SSTableReader :=
  match load_bloom_filter (filter_db files) with
  | inl e => inl e
  | inr bloom =>
      match load_index (index_db files) with
      | inl e => inl e
      | inr index => inr (mkSSTableReader descriptor bloom index (load_stats json_stats (statistics_db files)))
      end
  end.

Definition SSTableReader_might_contain_key (self : SSTableReader) (key : list Z) : bool :=
  BloomFilter_might_contain (sr_bloom self) key.

(** [slice::binary_search_by]: halve the candidates, then test the one left. *)
Fixpoint search_base {A} (f : A -> comparison) (l : list A) (fuel base size : nat) : nat :=
  match fuel with
  | O => base
  | S fuel =>
      if (size <=? 1)%nat then base
      else
        let half := (size / 2)%nat in
        let mid := (base + half)%nat in
        let base := match l !! mid with
                    | Some x => if is_gt (f x) then base else mid
                    | None => base
                    end in
        search_base f l fuel base (size - half)
  end.
Definition binary_search_by {A} (f : A -> comparison) (l : list A) : option nat :=
  let base := search_base f l (length l) 0 (length l) in
  match l !! base with
  | Some x => if is_eq (f x) then Some base else None
  | None => None
  end.

Definition index_offset (self : SSTableReader) (key : list Z) : option Z :=
  pos ← binary_search_by (fun e => cmp (ie_partition_key e) key) (sr_index self);
  ie_data_offset <$> sr_index self !! pos.

(** [data] is the content of the data file and [cached] what the shared key
    cache holds for the key; the second result is the offset to put into the
    cache. *)
Definition SSTableReader_get_partition (self : SSTableReader) (data : list Z) (cached : option Z) (key : list Z)
    : IoError + option PartitionData * option Z :=
  if negb (SSTableReader_might_contain_key self key) then inr (None, None)
  else match (match cached with Some off => Some off | None => index_offset self key end) with
  | None => inr (None, None)
  | Some offset =>
      match io_bytes (drop (Z.to_nat offset) data) with
      | inl e => inl e
      | inr (pk, input) =>
          if negb (bool_decide (pk = key)) then inr (None, None)
          else match read_partition_body input with
          | inl e => inl e
          | inr (partition, _) =>
              inr (Some partition, match cached with None => Some offset | Some _ => None end)
          end
      end
  end.

Definition SSTableReader_get_filtered_partition (self : SSTableReader) (data : list Z) (key : list Z)
    : IoError + option FilteredPartition :=
  if negb (SSTableReader_might_contain_key self key) then inr None
  else match index_offset self key with
  | None => inr None
  | Some offset =>
      match io_bytes (drop (Z.to_nat offset) data) with
      | inl e => inl e
      | inr (pk, input) =>
          if negb (bool_decide (pk = key)) then inr None
          else match read_filtered_partition_body pk input with
          | inl e => inl e
          | inr (partition, _) => inr (Some partition)
          end
      end
  end.

(** The scan from byte 5 on: it stops four bytes before the end, at a length
    that cannot be read, and at a length of zero. *)
Section Scan.
Context {P : Type} (body : list Z -> IoReader P).
Fixpoint scan (fuel : nat) (file_size : nat) (input : list Z) : IoError + list (list Z * P) :=
  match fuel with
  | O => inl Eof
  | S fuel =>
      let pos := (file_size - length input)%nat in
      if (file_size <=? pos + 4)%nat then inr []
      else match io_u 4 input with
      | inl _ => inr []
      | inr (pk_len, input) =>
          if pk_len =? 0 then inr []
          else match (pk ← io_exact (Z.to_nat pk_len); p ← body pk; mret (pk, p)) input with
          | inl e => inl e
          | inr (entry, input) =>
              match scan fuel file_size input with inl e => inl e | inr l => inr (entry :: l) end
          end
      end
  end.
End Scan.
Definition SSTableReader_iter_partitions (data : list Z) : IoError + list (list Z * PartitionData) :=
  scan (fun _ => read_partition_body) (S (length data)) (length data) (drop 5 data).
Definition SSTableReader_iter_filtered_partitions (data : list Z) : IoError + list FilteredPartition :=
  match scan read_filtered_partition_body (S (length data)) (length data) (drop 5 data) with
  | inl e => inl e
  | inr l => inr l.*2
  end.

(** * What the writers write *)

Ltac lengths :=
  repeat first [rewrite length_app | rewrite length_write_be | rewrite length_put_bytes | progress simpl]; lia.

(** The count returned is the number of bytes. *)
Definition wrote (r : list Z * Z * SSTableStats) (bs : list Z) : Prop := r.1 = (bs, Z.of_nat (length bs)).

Lemma wrote_then acc bs w more : wrote acc bs -> (forall s, wrote (w s) more) -> wrote (then_write acc w) (bs ++ more).
Proof.
  unfold wrote, then_write. destruct acc as [[b n] s]; simpl. intros [= -> ->] Hw. specialize (Hw s).
  destruct (w s) as [[b' n'] s']; simpl in *. simplify_eq. f_equal. rewrite length_app. lia.
Qed.

Lemma wrote_fold {A} (w : A -> SSTableStats -> list Z * Z * SSTableStats) (b : A -> list Z) l acc bs :
  (forall x s, wrote (w x s) (b x)) -> wrote acc bs ->
  wrote (foldl (fun acc x => then_write acc (w x)) acc l) (bs ++ mjoin (b <$> l)).
Proof.
  intros Hw. revert acc bs. induction l as [|x l IH]; intros acc bs Hacc; cbn [foldl].
  - simpl. by rewrite app_nil_r.
  - rewrite fmap_cons, mjoin_cons, app_assoc. apply IH, wrote_then; [done|]. intros s. apply Hw.
Qed.

Lemma wrote_cell cell s : wrote (write_cell cell s) (cell_bytes cell).
Proof.
  unfold wrote, write_cell, cell_bytes, opt_i32, opt_bytes; simpl. f_equal.
  destruct (Cell_local_deletion_time cell), (Cell_value cell); lengths.
Qed.

Definition row_bytes (ck : list Z) (row : Row) : list Z :=
  put_bytes ck ++ [row_flags row] ++ opt_i32 (Row_local_deletion_time row)
  ++ write_be 4 (wrap_u 32 (Z.of_nat (length (Row_cells row)))) ++ mjoin (cell_bytes <$> Row_cells row).

Lemma wrote_row ck row s : wrote (write_row ck row s) (ROW_MARKER :: row_bytes ck row).
Proof.
  unfold write_row. set (h := ROW_MARKER :: _). set (n := 1 + _ + _ + _ + _).
  assert (H0 : wrote (h, n, s) h).
  { unfold wrote, h, n, opt_i32; simpl. f_equal. destruct (Row_local_deletion_time row); lengths. }
  pose proof (wrote_fold write_cell cell_bytes (Row_cells row) _ _ wrote_cell H0) as H1.
  assert (E : h ++ mjoin (cell_bytes <$> Row_cells row) = ROW_MARKER :: row_bytes ck row).
  { unfold h, row_bytes. simpl. rewrite <- !app_assoc. simpl. by rewrite <- !app_assoc. }
  rewrite E in H1. destruct (foldl _ _ _) as [[b m] s']. exact H1.
Qed.

Definition deletion_bytes (d : DeletionTime) : list Z := PARTITION_DELETION_MARKER :: write_deletion_time d.

Lemma wrote_deletion d s : wrote (write_partition_deletion d, s) (deletion_bytes d).
Proof. done. Qed.

Definition item_bytes (item : BodyItem) : list Z :=
  match item with
  | BRow row => ROW_MARKER :: row_bytes (Row_clustering_key row) row
  | BDeletion d => deletion_bytes d
  | BMarker m => (write_range_tombstone_marker m).1
  end.

(** The items in a partition: its deletion, if it has both times, and its rows. *)
Definition deletion_item (p : PartitionData) : list BodyItem :=
  match tombstone_timestamp p, tombstone_local_deletion_time p with
  | Some ts, Some ldt => [BDeletion (DeletionTime_new ts ldt)]
  | _, _ => []
  end.
Definition partition_items (p : PartitionData) : list BodyItem := deletion_item p ++ (BRow <$> values (pd_rows p)).

(** Rows are kept under their clustering keys. *)
Definition rows_keyed (p : PartitionData) : Prop :=
  Forall (fun e => Row_clustering_key e.2 = e.1) (entries (pd_rows p)).

Lemma wrote_body p s : rows_keyed p -> wrote (write_partition_body p s) (mjoin (item_bytes <$> partition_items p)).
Proof.
  intros Hk. unfold write_partition_body, partition_items.
  assert (E : item_bytes <$> deletion_item p ++ (BRow <$> values (pd_rows p))
    = (item_bytes <$> deletion_item p) ++ ((fun e : list Z * Row => ROW_MARKER :: row_bytes e.1 e.2) <$> entries (pd_rows p))).
  { rewrite fmap_app. f_equal. unfold values. rewrite <- !list_fmap_compose. apply list_fmap_ext.
    intros i [ck row] Hi. simpl. pose proof (proj1 (Forall_lookup _ _) Hk i _ Hi) as Hr. simpl in Hr. by rewrite Hr. }
  rewrite E, join_app. apply (wrote_fold (fun e : list Z * Row => write_row e.1 e.2)).
  - intros e s'. apply wrote_row.
  - unfold deletion_item. destruct (tombstone_timestamp p), (tombstone_local_deletion_time p); done.
Qed.

(** * Reading items *)

Definition cell_ok (c : Cell) : Prop :=
  utf8 (string_bytes (Cell_column c)) = true /\ in_u 16 (Z.of_nat (length (string_bytes (Cell_column c))))
  /\ is_i64 (Cell_timestamp c) /\ is_i32 (Cell_ttl c)
  /\ (forall ldt, Cell_local_deletion_time c = Some ldt -> is_i32 ldt)
  /\ (forall v, Cell_value c = Some v -> in_u 32 (Z.of_nat (length v))).
Definition row_ok (r : Row) : Prop :=
  in_u 32 (Z.of_nat (length (Row_clustering_key r))) /\ in_u 32 (Z.of_nat (length (Row_cells r)))
  /\ (forall ldt, Row_local_deletion_time r = Some ldt -> is_i32 ldt) /\ Forall cell_ok (Row_cells r).
Definition deletion_ok (d : DeletionTime) : Prop := is_i64 (marked_for_delete_at d) /\ is_i32 (local_deletion_time d).
Definition marker_ok (m : RangeTombstoneMarker) : Prop :=
  in_u 32 (Z.of_nat (length (cb_values (RangeTombstoneMarker_clustering_bound m))))
  /\ match m with Open _ d | Close _ d => deletion_ok d | Boundary _ c o => deletion_ok c /\ deletion_ok o end.
Definition item_ok (item : BodyItem) : Prop :=
  match item with BRow row => row_ok row | BDeletion d => deletion_ok d | BMarker m => marker_ok m end.

Lemma parses_deletion d : deletion_ok d -> parses read_deletion_time d (write_deletion_time d).
Proof.
  intros [H1 H2]. unfold read_deletion_time, write_deletion_time. eapply parses_bind; [apply parses_s; [lia|done]|].
  destruct d as [t l]. apply (parses_map _ (DeletionTime_new t)), parses_s; [lia|done].
Qed.

Lemma parses_opt_i32 o :
  (forall z, o = Some z -> is_i32 z) ->
  parses (if bool_decide (is_Some o) then z ← io_s 4; mret (Some z) else mret None) o (opt_i32 o).
Proof.
  intros Ho. destruct o as [z|]; simpl; [|apply parses_ret].
  apply (parses_map _ Some), parses_s; [lia|by apply Ho].
Qed.

Lemma parses_opt_bytes o :
  (forall l, o = Some l -> in_u 32 (Z.of_nat (length l))) ->
  parses (if bool_decide (is_Some o) then v ← io_bytes; mret (Some v) else mret None) o (opt_bytes o).
Proof. intros Ho. destruct o as [l|]; simpl; [|apply parses_ret]. apply (parses_map _ Some), parses_bytes. by apply Ho. Qed.

Lemma cell_flags_spec c :
  in_u 8 (cell_flags c) /\ negb (Z.land (cell_flags c) 1 =? 0) = Cell_is_tombstone c
  /\ negb (Z.land (cell_flags c) 2 =? 0) = bool_decide (is_Some (Cell_value c))
  /\ negb (Z.land (cell_flags c) 4 =? 0) = bool_decide (is_Some (Cell_local_deletion_time c)).
Proof.
  unfold cell_flags, flag. destruct (Cell_is_tombstone c), (bool_decide (is_Some (Cell_value c))),
    (bool_decide (is_Some (Cell_local_deletion_time c))); (split; [by split|by split_and!]).
Qed.

Lemma row_flags_spec r :
  in_u 8 (row_flags r) /\ negb (Z.land (row_flags r) 1 =? 0) = Row_is_tombstone r
  /\ negb (Z.land (row_flags r) 2 =? 0) = bool_decide (is_Some (Row_local_deletion_time r)).
Proof.
  unfold row_flags, flag. destruct (Row_is_tombstone r), (bool_decide (is_Some (Row_local_deletion_time r)));
    (split; [by split|by split_and!]).
Qed.

Lemma parses_cell c : cell_ok c -> parses read_cell c (cell_bytes c).
Proof.
  intros (Hu & Hn & Ht & Httl & Hldt & Hv). unfold read_cell, cell_bytes. rewrite wrap_u_id by done.
  destruct (cell_flags_spec c) as (Hf & F1 & F2 & F4).
  eapply parses_bind; [by apply parses_u|]. rewrite Nat2Z.id. eapply parses_bind; [by apply parses_exact|].
  eapply parses_bind_0; [by apply parses_string|].
  eapply parses_bind; [apply parses_s; [lia|done]|]. eapply parses_bind; [apply parses_s; [lia|done]|].
  eapply parses_bind; [by apply parses_byte|]. cbv zeta. rewrite F1, F2, F4.
  eapply parses_bind; [by apply parses_opt_i32|].
  destruct c as [col v t ttl ldt tomb]. apply (parses_map _ (fun v => mkCell col v t ttl ldt tomb)).
  by apply parses_opt_bytes.
Qed.

Lemma parses_row r : row_ok r -> parses read_row r (row_bytes (Row_clustering_key r) r).
Proof.
  intros (Hk & Hn & Hldt & Hc). unfold read_row, row_bytes. rewrite wrap_u_id by done.
  destruct (row_flags_spec r) as (Hf & F1 & F2).
  eapply parses_bind; [by apply parses_bytes|]. eapply parses_bind; [by apply parses_byte|]. cbv zeta. rewrite F1, F2.
  eapply parses_bind; [by apply parses_opt_i32|]. eapply parses_bind; [by apply parses_u|]. rewrite Nat2Z.id.
  destruct r as [ck cells tomb ldt]. apply (parses_map _ (fun cells => mkRow ck cells tomb ldt)), parses_repeat.
  eapply Forall_impl; [exact Hc|]. apply parses_cell.
Qed.

Lemma parses_marker m :
  marker_ok m -> parses read_range_tombstone_marker m (tail (write_range_tombstone_marker m).1).
Proof.
  intros [Hb Hd]. unfold read_range_tombstone_marker. destruct m as [[k v] d|[k v] d|[k v] c o]; simpl in Hb.
  all: cbn [write_range_tombstone_marker RangeTombstoneMarker_clustering_bound cb_kind cb_values fst tail app].
  all: match goal with |- parses _ _ (?a :: ?b :: ?c ++ ?e) => change (a :: b :: c ++ e) with ([a] ++ [b] ++ c ++ e) end.
  all: eapply parses_bind; [apply parses_byte; unfold in_u; lia|].
  all: eapply parses_bind; [apply parses_byte; destruct k; unfold in_u; simpl; lia|].
  all: eapply (parses_bind_0 _ _ k); [by destruct k|].
  all: eapply parses_bind; [by apply parses_bytes|]; cbv zeta iota.
  1,2: rewrite <- (app_nil_r (write_deletion_time d)); eapply parses_bind; [by apply parses_deletion|apply parses_ret].
  destruct Hd as [Hc Ho]. eapply parses_bind; [by apply parses_deletion|].
  by apply (parses_map _ (Boundary _ c)), parses_deletion.
Qed.

Lemma parses_item item : item_ok item -> parses read_item (Some item) (item_bytes item).
Proof.
  intros Hok. unfold read_item. destruct item as [r|d|m]; simpl in *.
  - change (ROW_MARKER :: ?l) with ([ROW_MARKER] ++ l). eapply parses_bind; [by apply parses_byte|].
    by apply (parses_map _ (fun r => Some (BRow r))), parses_row.
  - unfold deletion_bytes. change (PARTITION_DELETION_MARKER :: ?l) with ([PARTITION_DELETION_MARKER] ++ l).
    eapply parses_bind; [by apply parses_byte|]. by apply (parses_map _ (fun d => Some (BDeletion d))), parses_deletion.
  - replace ((write_range_tombstone_marker m).1)
      with ([RANGE_TOMBSTONE_BOUND_MARKER] ++ tail (write_range_tombstone_marker m).1) by by destruct m.
    eapply parses_bind; [by apply parses_byte|]. by apply (parses_map _ (fun m => Some (BMarker m))), parses_marker.
Qed.

Lemma read_items_spec items fuel rest :
  Forall item_ok items -> (length items < fuel)%nat ->
  read_items fuel (mjoin (item_bytes <$> items) ++ [END_OF_PARTITION] ++ rest) = inr (items, rest).
Proof.
  intros Hok. revert fuel. induction Hok as [|item items Hi _ IH]; intros [|fuel] Hf; try (simpl in Hf; lia).
  - done.
  - cbn [read_items]. rewrite fmap_cons, mjoin_cons, <- app_assoc. unfold mbind at 1, IoReader_bind.
    rewrite (parses_item item Hi). unfold mbind, IoReader_bind. rewrite IH by (simpl in Hf; lia). done.
Qed.

Lemma item_bytes_pos item : (0 < length (item_bytes item))%nat.
Proof. destruct item as [| |[]]; simpl; lia. Qed.
Lemma items_bytes_length items : (length items <= length (mjoin (item_bytes <$> items)))%nat.
Proof.
  induction items as [|i items IH]; [done|]. rewrite fmap_cons, mjoin_cons, length_app.
  pose proof (item_bytes_pos i). simpl. lia.
Qed.

Lemma parses_body items :
  Forall item_ok items -> parses read_body items (mjoin (item_bytes <$> items) ++ [END_OF_PARTITION]).
Proof.
  intros Hok rest. unfold read_body. rewrite <- app_assoc. apply read_items_spec; [done|].
  pose proof (items_bytes_length items). rewrite !length_app; simpl. lia.
Qed.

(** * Rebuilding a partition *)

Lemma upsert_absent {A} (f : A -> A) d k (m : ordmap (list Z) A) : m !! k = None -> upsert f d k m = <[k := d]> m.
Proof.
  intros Hk. apply map_eq. intros j. rewrite lookup_upsert, lookup_insert.
  destruct (decide (k = j)) as [<-|]; [|done]. by rewrite Hk.
Qed.

Lemma take_rows (es : list (list Z * Row)) p :
  Forall (fun e => Row_clustering_key e.2 = e.1) es -> NoDup es.*1 ->
  (forall k, k ∈ es.*1 -> pd_rows p !! k = None) ->
  foldl PartitionData_take_item p (BRow <$> es.*2)
  = mkPartitionData (insert_all (pd_rows p) es) (tombstone_timestamp p) (tombstone_local_deletion_time p).
Proof.
  intros Hk. revert p. induction Hk as [|[k r] es Hr _ IH]; intros p Hnd Hout; [by destruct p|].
  simpl in Hr. rewrite !fmap_cons in *. apply NoDup_cons in Hnd as [Hnin Hnd]. cbn [foldl].
  change (PartitionData_take_item p (BRow (k, r).2)) with (PartitionData_apply_row p r).
  unfold PartitionData_apply_row. rewrite Hr, upsert_absent by (apply Hout; left).
  rewrite IH; [done|done|]. intros j Hj. simpl. rewrite lookup_insert_ne; [apply Hout; by right|].
  intros <-. by apply Hnin.
Qed.

(** The invariant of [set_tombstone]: both times or none. *)
Definition tombstone_paired (p : PartitionData) : Prop :=
  is_Some (tombstone_timestamp p) <-> is_Some (tombstone_local_deletion_time p).

Lemma rebuild_partition p :
  rows_keyed p -> tombstone_paired p -> foldl PartitionData_take_item PartitionData_new (partition_items p) = p.
Proof.
  intros Hk Ht. unfold partition_items, values. rewrite foldl_app, take_rows.
  - destruct p as [rows [ts|] [ldt|]]; unfold deletion_item; simpl in *; rewrite insert_all_entries; try done.
    + by destruct (proj1 Ht ltac:(eauto)).
    + by destruct (proj2 Ht ltac:(eauto)).
  - done.
  - apply keys_NoDup.
  - intros k _. unfold deletion_item.
    destruct (tombstone_timestamp p), (tombstone_local_deletion_time p); apply (lookup_empty (M:=ordmap (list Z))).
Qed.

Record partition_ok (p : PartitionData) : Prop := {
  po_keyed : rows_keyed p;
  po_paired : tombstone_paired p;
  po_items : Forall item_ok (partition_items p);
}.

Lemma parses_partition p :
  partition_ok p ->
  parses read_partition_body p (mjoin (item_bytes <$> partition_items p) ++ [END_OF_PARTITION]).
Proof.
  intros [Hk Ht Hi]. rewrite <- (rebuild_partition p Hk Ht) at 1.
  by apply (parses_map _ (foldl PartitionData_take_item PartitionData_new)), parses_body.
Qed.

(** * The loop of the writer *)

Section WriterLoop.
Context {P : Type} (write_body : P -> SSTableStats -> list Z * Z * SSTableStats).
Context (ok : P -> Prop) (bb : P -> list Z).
Hypothesis body_wrote : forall p s, ok p -> wrote (write_body p s) (bb p).

Definition part_bytes (e : list Z * P) : list Z := put_bytes e.1 ++ bb e.2 ++ [END_OF_PARTITION].
Fixpoint index_from (off : Z) (l : list (list Z * P)) : list IndexEntry :=
  match l with
  | [] => []
  | e :: l => mkIndexEntry e.1 off :: index_from (off + Z.of_nat (length (part_bytes e))) l
  end.

Lemma write_partition_spec st i pk p :
  ok p ->
  let st' := write_partition write_body st i pk p in
  ws_data st' = ws_data st ++ part_bytes (pk, p)
  /\ ws_offset st' = ws_offset st + Z.of_nat (length (part_bytes (pk, p)))
  /\ ws_bloom st' = BloomFilter_add (ws_bloom st) pk
  /\ ws_index st' = ws_index st ++ [mkIndexEntry pk (ws_offset st)].
Proof.
  intros Hp. unfold write_partition. set (s := mkSSTableStats _ _ _ _ _ _ _). clearbody s.
  pose proof (body_wrote p s Hp) as Hw. unfold wrote in Hw. destruct (write_body p s) as [[b n] s']. simpl in Hw.
  simplify_eq. cbv zeta; simpl. unfold part_bytes; simpl. split_and!; try done. lengths.
Qed.

Lemma write_partitions_spec l st i :
  Forall (fun e => ok e.2) l ->
  let st' := write_partitions write_body st i l in
  ws_data st' = ws_data st ++ mjoin (part_bytes <$> l)
  /\ ws_offset st' = ws_offset st + Z.of_nat (length (mjoin (part_bytes <$> l)))
  /\ ws_bloom st' = foldl BloomFilter_add (ws_bloom st) l.*1
  /\ ws_index st' = ws_index st ++ index_from (ws_offset st) l.
Proof.
  intros Hok. revert st i. induction Hok as [|[pk p] l Hp _ IH]; intros st i; cbn [write_partitions].
  - simpl. rewrite !app_nil_r. split_and!; [done|lia|done..].
  - destruct (write_partition_spec st i pk p Hp) as (E1 & E2 & E3 & E4).
    destruct (IH (write_partition write_body st i pk p) (S i)) as (F1 & F2 & F3 & F4).
    cbv zeta. rewrite F1, F2, F3, F4, E1, E2, E3, E4, !fmap_cons, mjoin_cons. cbn [index_from foldl].
    rewrite <- !app_assoc, length_app. split_and!; try done. lia.
Qed.

Lemma index_from_keys off l : ie_partition_key <$> index_from off l = l.*1.
Proof. revert off. induction l as [|e l IH]; intros off; [done|]. cbn [index_from]. by rewrite !fmap_cons, IH. Qed.

(** The offset of an entry is where the bytes of its partition are. *)
Lemma index_from_lookup off l i e :
  l !! i = Some e ->
  index_from off l !! i = Some (mkIndexEntry e.1 (off + Z.of_nat (length (mjoin (part_bytes <$> take i l))))).
Proof.
  revert off i. induction l as [|a l IH]; intros off [|i] Hi; [done..| |].
  - injection Hi as ->. simpl. by rewrite Z.add_0_r.
  - cbn [index_from take]. etransitivity; [exact (IH _ _ Hi)|]. do 2 f_equal.
    rewrite fmap_cons, mjoin_cons, length_app. lia.
Qed.

Lemma data_split (pre : list Z) l i e post :
  l !! i = Some e ->
  pre ++ mjoin (part_bytes <$> l) ++ post
  = (pre ++ mjoin (part_bytes <$> take i l)) ++ part_bytes e ++ (mjoin (part_bytes <$> drop (S i) l) ++ post).
Proof.
  intros Hi. rewrite <- (take_drop_middle l i e Hi) at 1. rewrite fmap_app, join_app, fmap_cons, mjoin_cons.
  by rewrite <- !app_assoc.
Qed.
End WriterLoop.

(** * The index *)

Lemma index_entry_ok e rest :
  in_u 32 (Z.of_nat (length (ie_partition_key e))) -> is_u64 (ie_data_offset e) ->
  exists input, io_u 4 (index_entry_bytes e ++ rest) = inr (Z.of_nat (length (ie_partition_key e)), input)
    /\ (pk ← io_exact (Z.to_nat (Z.of_nat (length (ie_partition_key e)))); offset ← io_u 8; mret (mkIndexEntry pk offset)) input
       = inr (e, rest).
Proof.
  intros Hk Ho. unfold index_entry_bytes, put_bytes. rewrite wrap_u_id, <- !app_assoc by done. eexists. split.
  - by apply parses_u.
  - rewrite Nat2Z.id, app_assoc.
    refine (parses_bind _ _ (ie_partition_key e) e _ _ (parses_exact _ _ eq_refl) _ rest).
    destruct e as [k o]. by apply (parses_map _ (mkIndexEntry k)), parses_u.
Qed.

Lemma load_entries_spec es fuel :
  Forall (fun e => in_u 32 (Z.of_nat (length (ie_partition_key e))) /\ is_u64 (ie_data_offset e)) es ->
  (length es < fuel)%nat -> load_entries fuel (mjoin (index_entry_bytes <$> es)) = inr es.
Proof.
  intros Hok. revert fuel. induction Hok as [|e es [Hk Ho] _ IH]; intros [|fuel] Hf; try (simpl in Hf; lia); [done|].
  rewrite fmap_cons, mjoin_cons. cbn [load_entries].
  destruct (index_entry_ok e (mjoin (index_entry_bytes <$> es)) Hk Ho) as (input & -> & E). rewrite E, IH; [done|].
  simpl in Hf. lia.
Qed.

Lemma index_bytes_length es : (length es <= length (mjoin (index_entry_bytes <$> es)))%nat.
Proof.
  induction es as [|e es IH]; [done|]. rewrite fmap_cons, mjoin_cons. unfold index_entry_bytes at 1. lengths.
Qed.

Lemma load_index_spec es :
  Forall (fun e => in_u 32 (Z.of_nat (length (ie_partition_key e))) /\ is_u64 (ie_data_offset e)) es ->
  load_index (INDEX_MAGIC ++ mjoin (index_entry_bytes <$> es)) = inr es.
Proof.
  intros Hok. unfold load_index. unfold mbind, IoReader_bind. rewrite (parses_exact 4 INDEX_MAGIC eq_refl).
  rewrite bool_decide_eq_true_2 by done. unfold mret, IoReader_ret. apply load_entries_spec; [done|].
  pose proof (index_bytes_length es). lia.
Qed.

(** ** Binary search *)

Section Search.
Context {A : Type} (f : A -> comparison) (l : list A) (i : nat) (x : A).
Hypothesis Hx : l !! i = Some x.
Hypothesis below : forall j y, l !! j = Some y -> (j < i)%nat -> f y = Lt.
Hypothesis above_i : forall j y, l !! j = Some y -> (i < j)%nat -> f y = Gt.

Lemma search_base_spec fuel base size :
  (base <= i < base + size)%nat -> (base + size <= length l)%nat -> (size <= fuel)%nat ->
  f x = Eq -> search_base f l fuel base size = i.
Proof.
  intros Hi Hl Hf Hfx. revert base size Hi Hl Hf. induction fuel as [|fuel IH]; intros base size Hi Hl Hf; [lia|].
  cbn [search_base]. destruct (Nat.leb_spec size 1) as [|Hs]; [lia|].
  set (half := (size / 2)%nat).
  assert (Hh : (0 < half /\ 2 * half <= size)%nat).
  { unfold half. pose proof (Nat.div_mod size 2 ltac:(lia)). pose proof (Nat.mod_upper_bound size 2 ltac:(lia)). lia. }
  destruct (lookup_lt_is_Some_2 l (base + half) ltac:(lia)) as [y Hy]. rewrite Hy.
  destruct (lt_eq_lt_dec (base + half) i) as [[Hlt|Heq]|Hgt].
  - rewrite (below _ _ Hy Hlt). cbn [is_gt]. apply IH; lia.
  - rewrite Heq, Hx in Hy. simplify_eq. rewrite Hfx. cbn [is_gt]. apply IH; lia.
  - rewrite (above_i _ _ Hy Hgt). cbn [is_gt]. apply IH; lia.
Qed.

Lemma binary_search_found : f x = Eq -> binary_search_by f l = Some i.
Proof.
  intros Hfx. pose proof (lookup_lt_Some _ _ _ Hx). unfold binary_search_by.
  rewrite search_base_spec by (done || lia). by rewrite Hx, Hfx.
Qed.
End Search.

Lemma binary_search_sound {A} (f : A -> comparison) l i : binary_search_by f l = Some i -> exists x, l !! i = Some x /\ f x = Eq.
Proof.
  unfold binary_search_by. destruct (l !! _) as [x|] eqn:E; [|done]. destruct (f x) eqn:Ef; intros [= <-]. eauto.
Qed.

(** * Statistics *)

Definition counters_ok (s : SSTableStats) : Prop :=
  is_u64 (st_partition_count s) /\ is_u64 (st_row_count s) /\ is_u64 (st_cell_count s)
  /\ is_i64 (st_min_timestamp s) /\ is_i64 (st_max_timestamp s).

Lemma counters_cell cell s : cell_ok cell -> counters_ok s -> counters_ok (write_cell cell s).2.
Proof.
  intros (_ & _ & Ht & _) (H1 & H2 & H3 & H4 & H5). unfold counters_ok; simpl.
  pose proof (wrap_u_range 64 (st_cell_count s + 1) ltac:(lia)). unfold in_s in *. split_and!; try done; lia.
Qed.

Lemma counters_fold {A} (ok : A -> Prop) (w : A -> SSTableStats -> list Z * Z * SSTableStats) l acc :
  (forall x s, ok x -> counters_ok s -> counters_ok (w x s).2) -> Forall ok l -> counters_ok acc.2 ->
  counters_ok (foldl (fun acc x => then_write acc (w x)) acc l).2.
Proof.
  intros Hw Hl. revert acc. induction Hl as [|x l Hx _ IH]; intros acc Hacc; [done|]. cbn [foldl]. apply IH.
  destruct acc as [[b n] s]; simpl in *. specialize (Hw x s Hx Hacc). by destruct (w x s) as [[? ?] ?].
Qed.

Lemma counters_row ck row s : row_ok row -> counters_ok s -> counters_ok (write_row ck row s).2.
Proof.
  intros (_ & _ & _ & Hc) Hs. unfold write_row. set (start := (_, _, s)).
  pose proof (counters_fold cell_ok write_cell (Row_cells row) start counters_cell Hc Hs) as Hf.
  destruct (foldl _ _ _) as [[b n] s']. simpl in Hf |- *. destruct Hf as (H1 & H2 & H3 & H4 & H5).
  unfold counters_ok; simpl. pose proof (wrap_u_range 64 (st_row_count s' + 1) ltac:(lia)). done.
Qed.

Lemma rows_ok p : partition_ok p -> Forall (fun e => row_ok e.2) (entries (pd_rows p)).
Proof.
  intros [_ _ Hi]. unfold partition_items in Hi. apply Forall_app in Hi as [_ Hi]. unfold values in Hi.
  rewrite !Forall_fmap in Hi. exact Hi.
Qed.

Lemma counters_body p s : partition_ok p -> counters_ok s -> counters_ok (write_partition_body p s).2.
Proof.
  intros Hp Hs. unfold write_partition_body.
  apply (counters_fold (fun e : list Z * Row => row_ok e.2) (fun e => write_row e.1 e.2)).
  - intros [ck row] s' Hr. by apply counters_row.
  - by apply rows_ok.
  - by destruct (tombstone_timestamp p), (tombstone_local_deletion_time p).
Qed.

Lemma counters_partitions l st i :
  Forall (fun e => partition_ok e.2) l -> counters_ok (ws_stats st) ->
  counters_ok (ws_stats (write_partitions write_partition_body st i l)).
Proof.
  intros Hok. revert st i. induction Hok as [|[pk p] l Hp _ IH]; intros st i Hs; [done|].
  cbn [write_partitions]. apply IH. unfold write_partition. set (s := mkSSTableStats _ _ _ _ _ _ _).
  assert (Hs' : counters_ok s).
  { destruct Hs as (H1 & H2 & H3 & H4 & H5). unfold counters_ok, s; simpl.
    pose proof (wrap_u_range 64 (st_partition_count (ws_stats st) + 1) ltac:(lia)). done. }
  pose proof (counters_body p s Hp Hs') as Hb. by destruct (write_partition_body p s) as [[? ?] ?].
Qed.

Definition stats_ok (s : SSTableStats) : Prop := counters_ok s /\ is_u64 (st_data_size s) /\ is_u64 (st_index_size s).

Lemma parses_metadata meta :
  stats_ok (md_stats meta) -> in_u 32 (Z.of_nat (length (min_partition_key meta))) ->
  in_u 32 (Z.of_nat (length (max_partition_key meta))) ->
  parses read_metadata meta (MetadataSerializer_serialize meta).
Proof.
  intros ((H1 & H2 & H3 & H4 & H5) & H6 & H7) Hmin Hmax. unfold read_metadata, MetadataSerializer_serialize.
  eapply parses_bind; [by apply parses_exact|]. rewrite bool_decide_eq_true_2 by done. cbn [negb].
  eapply parses_bind; [by apply parses_byte|]. rewrite Z.eqb_refl. cbn [negb].
  eapply parses_bind; [by apply parses_u|]. rewrite Z.eqb_refl. cbn [negb].
  do 3 (eapply parses_bind; [by apply parses_u|]). do 2 (eapply parses_bind; [apply parses_s; [lia|done]|]).
  do 2 (eapply parses_bind; [by apply parses_u|]). eapply parses_bind; [by apply parses_bytes|].
  destruct meta as [[a b c d e f g] kmin kmax]; simpl in *.
  apply (parses_map _ (mkSSTableMetadata (mkSSTableStats a b c d e f g) kmin)). by apply parses_bytes.
Qed.

Lemma load_stats_spec json meta :
  stats_ok (md_stats meta) -> in_u 32 (Z.of_nat (length (min_partition_key meta))) ->
  in_u 32 (Z.of_nat (length (max_partition_key meta))) ->
  load_stats json (MetadataSerializer_serialize meta) = Some (md_stats meta).
Proof.
  intros Hs Hmin Hmax. unfold load_stats, MetadataSerializer_deserialize.
  pose proof (parses_metadata meta Hs Hmin Hmax []) as E. rewrite app_nil_r in E. rewrite E.
  rewrite bool_decide_eq_true_2 by done.
  rewrite (proj2 (Nat.leb_le _ _)); [done|]. unfold MetadataSerializer_serialize.
  rewrite length_app. change (length METADATA_MAGIC) with 4%nat. lia.
Qed.

Lemma foldl_choice {A} (P : A -> Prop) (f : A -> A -> A) l x :
  (forall a b, f a b = a \/ f a b = b) -> P x -> Forall P l -> P (foldl f x l).
Proof.
  intros Hf Hx Hl. revert x Hx. induction Hl as [|a l Ha _ IH]; intros x Hx; [done|]. cbn [foldl]. apply IH.
  by destruct (Hf x a) as [->| ->].
Qed.
Lemma least_key_ok (P : list Z -> Prop) ks : P [] -> Forall P ks -> P (least_key ks).
Proof.
  intros H0 Hks. destruct Hks as [|k ks Hk Hks]; [done|]. apply (foldl_choice P); [|done..]. intros. case_match; eauto.
Qed.
Lemma greatest_key_ok (P : list Z -> Prop) ks : P [] -> Forall P ks -> P (greatest_key ks).
Proof.
  intros H0 Hks. destruct Hks as [|k ks Hk Hks]; [done|]. apply (foldl_choice P); [|done..]. intros. case_match; eauto.
Qed.

(** * What was written is what is read *)

Abbreviation body_of := (fun p => mjoin (item_bytes <$> partition_items p)).

Section Roundtrip.
Context (bits_of : nat -> Z) (hashes_of : Z -> nat -> Z) (crc32 : list Z -> Z).
Context (json_stats : list Z -> option SSTableStats) (descriptor : SSTableDescriptor).

Definition write_sstable (l : list (list Z * PartitionData)) : SSTableFiles * SSTableStats :=
  SSTableWriter_write bits_of hashes_of crc32 write_partition_body descriptor l.

(** What a list of partitions must satisfy to be written: sorted keys, fields
    that fit their widths, and files below the limits of their offsets. *)
Record sstable_input (l : list (list Z * PartitionData)) : Prop := {
  si_sorted : keys_sorted l = true;
  si_parts : Forall (fun e => partition_ok e.2) l;
  si_keys : Forall (fun e => in_u 32 (Z.of_nat (length e.1))) l;
  si_data : Z.of_nat (length (data_db (write_sstable l).1)) < 2 ^ 64;
  si_index : Z.of_nat (length (index_db (write_sstable l).1)) < 2 ^ 64;
  si_bloom : optimal_num_bits bits_of (Nat.max (length l) 1) < 2 ^ 37;
}.

Context (l : list (list Z * PartitionData)) (Hl : sstable_input l).

Definition written_reader : SSTableReader :=
  mkSSTableReader descriptor
    (foldl BloomFilter_add (BloomFilter_new bits_of hashes_of (Nat.max (length l) 1)) l.*1)
    (index_from body_of 5 l) (Some (write_sstable l).2).

Definition final_state : WriteState :=
  write_partitions write_partition_body (mkWriteState (DATA_MAGIC ++ [DATA_VERSION]) 5
    (BloomFilter_new bits_of hashes_of (Nat.max (length l) 1)) [] [] SSTableStats_initial) 0 l.

Lemma final_state_spec :
  ws_data final_state = (DATA_MAGIC ++ [DATA_VERSION]) ++ mjoin (part_bytes body_of <$> l)
  /\ ws_offset final_state = 5 + Z.of_nat (length (mjoin (part_bytes body_of <$> l)))
  /\ ws_bloom final_state = sr_bloom written_reader
  /\ ws_index final_state = index_from body_of 5 l.
Proof.
  exact (write_partitions_spec write_partition_body partition_ok body_of
    (fun p s Hp => wrote_body p s (po_keyed p Hp)) l
    (mkWriteState (DATA_MAGIC ++ [DATA_VERSION]) 5 (BloomFilter_new bits_of hashes_of (Nat.max (length l) 1)) [] []
      SSTableStats_initial) 0 (si_parts l Hl)).
Qed.

Lemma write_sstable_files :
  data_db (write_sstable l).1 = (DATA_MAGIC ++ [DATA_VERSION]) ++ mjoin (part_bytes body_of <$> l)
      ++ write_be 4 (crc32 ((DATA_MAGIC ++ [DATA_VERSION]) ++ mjoin (part_bytes body_of <$> l)))
  /\ index_db (write_sstable l).1 = INDEX_MAGIC ++ mjoin (index_entry_bytes <$> index_from body_of 5 l)
  /\ filter_db (write_sstable l).1 = FILTER_MAGIC ++ BloomFilter_serialize (sr_bloom written_reader)
  /\ st_data_size (write_sstable l).2 = Z.of_nat (length (data_db (write_sstable l).1)).
Proof.
  destruct final_state_spec as (E1 & E2 & E3 & E4).
  unfold write_sstable, SSTableWriter_write. fold final_state. cbn [fst snd data_db index_db filter_db st_data_size].
  rewrite E1, E2, E3, E4, <- !app_assoc.
  split_and!; [done..|]. rewrite !length_app, length_write_be. change (length DATA_MAGIC) with 4%nat. simpl. lia.
Qed.

Lemma index_entries_ok :
  Forall (fun e => in_u 32 (Z.of_nat (length (ie_partition_key e))) /\ is_u64 (ie_data_offset e)) (index_from body_of 5 l).
Proof.
  destruct write_sstable_files as (Ed & _). pose proof (si_data l Hl) as Hd. rewrite Ed in Hd.
  apply Forall_lookup. intros i e Hi.
  assert (Hlt : (i < length l)%nat).
  { apply lookup_lt_Some in Hi. by rewrite <- (length_fmap ie_partition_key), index_from_keys, length_fmap in Hi. }
  destruct (lookup_lt_is_Some_2 l i Hlt) as [p Hp]. rewrite (index_from_lookup _ _ _ _ _ Hp) in Hi. injection Hi as <-.
  cbn [ie_partition_key ie_data_offset]. split; [by apply (proj1 (Forall_lookup _ _) (si_keys l Hl) i)|].
  rewrite (data_split body_of _ l i p _ Hp), !length_app in Hd. change (length DATA_MAGIC) with 4%nat in Hd.
  unfold in_u. simpl in Hd. lia.
Qed.

Lemma idx_size_spec es acc :
  foldl (fun size e => size + 4 + Z.of_nat (length (ie_partition_key e)) + 8) acc es
  = acc + Z.of_nat (length (mjoin (index_entry_bytes <$> es))).
Proof.
  revert acc. induction es as [|e es IH]; intros acc; [simpl; lia|]. cbn [foldl].
  rewrite IH, fmap_cons, mjoin_cons. unfold index_entry_bytes at 2. lengths.
Qed.

Lemma written_stats_ok : stats_ok (write_sstable l).2.
Proof.
  destruct write_sstable_files as (_ & Ei & _ & Es). pose proof (si_data l Hl). pose proof (si_index l Hl) as Hi.
  split; [|split].
  - unfold write_sstable, SSTableWriter_write. fold final_state. cbv zeta. cbn [snd].
    assert (Hc : counters_ok (ws_stats final_state)).
    { apply counters_partitions; [apply (si_parts l Hl)|]. unfold counters_ok. split_and!; split; by vm_compute. }
    exact Hc.
  - rewrite Es. unfold in_u. lia.
  - change (st_index_size (write_sstable l).2)
      with (foldl (fun size e => size + 4 + Z.of_nat (length (ie_partition_key e)) + 8) 4 (ws_index final_state)).
    destruct final_state_spec as (_ & _ & _ & ->). rewrite idx_size_spec.
    rewrite Ei, length_app in Hi. change (length INDEX_MAGIC) with 4%nat in Hi. unfold in_u. lia.
Qed.

Lemma open_written : SSTableReader_open json_stats descriptor (write_sstable l).1 = inr written_reader.
Proof.
  destruct write_sstable_files as (_ & Ei & Ef & _). unfold SSTableReader_open. rewrite Ei, Ef, load_index_spec by apply index_entries_ok.
  unfold load_bloom_filter. unfold mbind at 1, IoReader_bind. rewrite (parses_exact 4 FILTER_MAGIC eq_refl).
  rewrite bool_decide_eq_true_2 by done.
  pose proof (parses_filled bits_of hashes_of _ l.*1 (si_bloom l Hl) []) as Ep. cbv zeta in Ep. rewrite app_nil_r in Ep.
  unfold written_reader in Ep |- *; cbn [sr_bloom]. rewrite Ep.
  do 2 f_equal.
  change (statistics_db (write_sstable l).1)
    with (MetadataSerializer_serialize (mkSSTableMetadata (write_sstable l).2 (least_key l.*1) (greatest_key l.*1))).
  assert (Hk : Forall (fun k => in_u 32 (Z.of_nat (length k))) l.*1) by (rewrite Forall_fmap; apply (si_keys l Hl)).
  apply load_stats_spec; [apply written_stats_ok|..]; cbn [min_partition_key max_partition_key].
  - by apply (least_key_ok (fun k => in_u 32 (Z.of_nat (length k)))).
  - by apply (greatest_key_ok (fun k => in_u 32 (Z.of_nat (length k)))).
Qed.

Lemma key_order i j e e' : l !! i = Some e -> l !! j = Some e' -> (i < j)%nat -> lt_of e.1 e'.1.
Proof.
  intros Hi Hj. apply (strongly_sorted_lookup lt_of l.*1 i j).
  - apply (keys_strongly_sorted (mk l (si_sorted l Hl))).
  - by rewrite list_lookup_fmap, Hi.
  - by rewrite list_lookup_fmap, Hj.
Qed.

Lemma index_from_inv i e :
  index_from body_of 5 l !! i = Some e -> exists p, l !! i = Some p /\ ie_partition_key e = p.1.
Proof.
  intros Hi. pose proof (f_equal (fun l => l !! i) (index_from_keys body_of 5 l)) as E; simpl in E.
  rewrite !list_lookup_fmap, Hi in E; simpl in E. destruct (l !! i) as [p|]; [|done]. simplify_eq/=. eauto.
Qed.

Lemma index_offset_found i e :
  l !! i = Some e ->
  index_offset written_reader e.1 = Some (5 + Z.of_nat (length (mjoin (part_bytes body_of <$> take i l)))).
Proof.
  intros Hi. unfold index_offset. pose proof (index_from_lookup body_of 5 l i e Hi) as Hx.
  cbn [sr_index written_reader].
  rewrite (binary_search_found _ _ i _ Hx).
  - simpl. by rewrite Hx.
  - intros j y (p & Hp & ->)%index_from_inv Hj. by apply (key_order j i).
  - intros j y (p & Hp & ->)%index_from_inv Hj. apply cmp_gt_lt. by apply (key_order i j).
  - apply cmp_refl.
Qed.

Lemma index_offset_absent k : k ∉ l.*1 -> index_offset written_reader k = None.
Proof.
  intros Hk. unfold index_offset. destruct (binary_search_by _ _) as [i|] eqn:E; [|done].
  apply binary_search_sound in E as (x & Hx & He). exfalso. apply Hk.
  apply index_from_inv in Hx as (p & Hp & Ek). rewrite Ek in He. apply cmp_eq in He as <-.
  apply list_elem_of_fmap. exists p. split; [done|]. by eapply list_elem_of_lookup_2.
Qed.

Abbreviation data := (data_db (write_sstable l).1).

(** The bytes at the offset of a partition are its key and its body. *)
Lemma read_at i e :
  l !! i = Some e ->
  exists input rest, io_bytes (drop (Z.to_nat (5 + Z.of_nat (length (mjoin (part_bytes body_of <$> take i l))))) data)
    = inr (e.1, input) /\ read_partition_body input = inr (e.2, rest).
Proof.
  intros Hi. destruct write_sstable_files as (-> & _). rewrite (data_split body_of _ l i e _ Hi).
  set (pre := (DATA_MAGIC ++ [DATA_VERSION]) ++ mjoin (part_bytes body_of <$> take i l)).
  replace (Z.to_nat _) with (length pre).
  2:{ unfold pre. rewrite length_app. change (length (DATA_MAGIC ++ [DATA_VERSION])) with 5%nat. lia. }
  unfold part_bytes at 1. rewrite <- !app_assoc. eexists _, _. split.
  - apply parses_at, parses_bytes. by apply (proj1 (Forall_lookup _ _) (si_keys l Hl) i).
  - rewrite app_assoc. apply parses_partition. by apply (proj1 (Forall_lookup _ _) (si_parts l Hl) i).
Qed.

Lemma might_contain_written k : k ∈ l.*1 -> SSTableReader_might_contain_key written_reader k = true.
Proof. intros Hk. apply contains_adds; [apply new_wf|]. by right. Qed.

Lemma get_written k cached :
  cached = None \/ cached = index_offset written_reader k ->
  exists put, SSTableReader_get_partition written_reader data cached k = inr (lookup_list k l, put)
    /\ (put = None \/ put = index_offset written_reader k).
Proof.
  intros Hc. unfold SSTableReader_get_partition.
  destruct (decide (k ∈ l.*1)) as [Hk|Hk].
  - rewrite might_contain_written by done. cbn [negb].
    apply list_elem_of_fmap in Hk as (e & -> & (i & Hi)%list_elem_of_lookup_1).
    assert (El : lookup_list e.1 l = Some e.2).
    { apply lookup_list_elem; [apply (si_sorted l Hl)|]. destruct e. by eapply list_elem_of_lookup_2. }
    rewrite (index_offset_found i e Hi) in Hc |- *. destruct (read_at i e Hi) as (input & rest & E1 & E2).
    destruct Hc as [-> | ->]; rewrite E1, bool_decide_eq_true_2, E2, El by done; cbn [negb]; eauto.
  - assert (El : lookup_list k l = None).
    { destruct (lookup_list k l) as [p|] eqn:E; [|done]. exfalso. apply Hk.
      apply lookup_list_elem in E; [|apply (si_sorted l Hl)]. apply list_elem_of_fmap. by exists (k, p). }
    rewrite (index_offset_absent k Hk) in Hc |- *. rewrite El.
    destruct (negb _); [eauto|]. destruct Hc as [-> | ->]; eauto.
Qed.

(** ** The scan *)

Lemma scan_spec n (m : list (list Z * PartitionData)) fuel crc :
  Forall (fun e => partition_ok e.2) m -> Forall (fun e => in_u 32 (Z.of_nat (length e.1))) m ->
  Forall (fun e => e.1 <> []) m -> length crc = 4%nat -> (length m < fuel)%nat ->
  (length (mjoin (part_bytes body_of <$> m) ++ crc) <= n)%nat ->
  scan (fun _ => read_partition_body) fuel n (mjoin (part_bytes body_of <$> m) ++ crc) = inr m.
Proof.
  intros Hok Hkeys Hne Hcrc. revert fuel. induction m as [|[k p] m IH]; intros [|fuel] Hf Hn; try (simpl in Hf; lia).
  - cbn [scan]. rewrite (proj2 (Nat.leb_le _ _)); [done|]. simpl in *. lia.
  - apply Forall_cons in Hok as [Hp Hok], Hkeys as [Hk Hkeys], Hne as [Hk0 Hne]. simpl in Hk, Hk0, Hp.
    rewrite fmap_cons, mjoin_cons in Hn |- *.
    change (part_bytes body_of (k, p)) with (put_bytes k ++ body_of p ++ [END_OF_PARTITION]) in Hn |- *.
    cbn [scan]. rewrite (proj2 (Nat.leb_gt _ _)).
    2:{ rewrite !length_app, length_put_bytes in Hn |- *. destruct k; [done|]. simpl in *. lia. }
    unfold put_bytes at 1. rewrite <- !app_assoc.
    rewrite wrap_u_id, (parses_u 4 (Z.of_nat (length k)) Hk) by done.
    rewrite (proj2 (Z.eqb_neq _ _)) by (destruct k; [done|simpl; lia]). rewrite Nat2Z.id.
    unfold mbind at 1, IoReader_bind at 1. rewrite (parses_exact _ k eq_refl). unfold mbind, IoReader_bind.
    rewrite (app_assoc (mjoin _) [END_OF_PARTITION]), (parses_partition p Hp). unfold mret, IoReader_ret.
    rewrite IH; try done; [simpl in Hf; lia|]. rewrite !length_app in Hn. rewrite length_app. lia.
Qed.

Lemma iter_written : Forall (fun e => e.1 <> []) l -> SSTableReader_iter_partitions data = inr l.
Proof.
  intros Hne. unfold SSTableReader_iter_partitions. destruct write_sstable_files as (E & _). rewrite E.
  rewrite (drop_field_0 5) by done. apply scan_spec; try done.
  - apply (si_parts l Hl).
  - apply (si_keys l Hl).
  - rewrite !length_app. assert (length l <= length (mjoin (part_bytes body_of <$> l)))%nat; [|lia].
    generalize l. intros m. induction m as [|e m IH]; [done|]. rewrite fmap_cons, mjoin_cons. unfold part_bytes at 1. lengths.
  - rewrite !length_app. lia.
Qed.

(** What a scan of sorted partitions returns: an empty key, which sorts first, is
    taken for the end of the file. *)
Definition scanned (m : list (list Z * PartitionData)) : list (list Z * PartitionData) := match m with ([], _) :: _ => [] | _ => m end.
Lemma empty_key_first (m : list (list Z * PartitionData)) :
  keys_sorted m = true -> Forall (fun e => e.1 <> []) m \/ exists p m', m = ([], p) :: m'.
Proof.
  destruct m as [|[[|b k] p] m]; intros Hs; [by left; constructor|right; eauto|]. left. apply keys_sorted_cons in Hs as [Hab _].
  constructor; [done|]. apply Forall_forall. intros e He Ee. specialize (Hab e He). rewrite Ee in Hab. done.
Qed.
Lemma scan_empty_key fuel n p rest : scan (fun _ => read_partition_body) (S fuel) n (part_bytes body_of ([], p) ++ rest) = inr [].
Proof.
  cbn [scan]. case_match; [done|]. unfold part_bytes, put_bytes. rewrite <- !app_assoc. change (wrap_u 32 (Z.of_nat (length _))) with 0.
  by rewrite (parses_u 4 0) by by vm_compute.
Qed.
Lemma iter_scanned : SSTableReader_iter_partitions data = inr (scanned l).
Proof.
  destruct (empty_key_first l (si_sorted l Hl)) as [Hne|(p & m & E)].
  - rewrite (iter_written Hne). destruct Hne as [|[[|b k] q] m Hk Hne]; done.
  - unfold SSTableReader_iter_partitions. destruct write_sstable_files as (-> & _). rewrite (drop_field_0 5) by done. rewrite E.
    rewrite fmap_cons, mjoin_cons, <- !app_assoc. apply scan_empty_key.
Qed.
End Roundtrip.

(** C14.  A list of partitions with sorted keys, written and opened again, is the
    list that is read: a lookup, through the filter, the index or a cached
    offset, returns the partition of the key or nothing, whatever the key; the
    scan used by compaction returns the list, or nothing when the list has the
    empty key; and the statistics read are those collected, with the size of the
    data file.  The keys are distinct and sorted, partitions and their keys fit the
    widths of the format ([partition_ok]), files are shorter than 2^64 bytes and
    the filter has fewer than 2^37 bits. *)
Theorem sstable_roundtrip (bits_of : nat -> Z) (hashes_of : Z -> nat -> Z) (crc32 : list Z -> Z)
    (json : list Z -> option SSTableStats) (d : SSTableDescriptor) (l : list (list Z * PartitionData))
    (Hl : sstable_input bits_of hashes_of crc32 d l) :
  let '(files, stats) := SSTableWriter_write bits_of hashes_of crc32 write_partition_body d l in
  exists r, SSTableReader_open json d files = inr r /\ sr_stats r = Some stats
  /\ st_data_size stats = Z.of_nat (length (data_db files))
  /\ (forall k cached, cached = None \/ cached = index_offset r k ->
        exists put, SSTableReader_get_partition r (data_db files) cached k = inr (lookup_list k l, put)
          /\ (put = None \/ put = index_offset r k))
  /\ SSTableReader_iter_partitions (data_db files) = inr (scanned l).
Proof.
  rewrite (surjective_pairing (SSTableWriter_write _ _ _ _ _ _)).
  change (SSTableWriter_write _ _ _ _ _ _) with (write_sstable bits_of hashes_of crc32 d l).
  exists (written_reader bits_of hashes_of crc32 d l). split_and!.
  - by apply open_written.
  - done.
  - by apply write_sstable_files.
  - intros k cached. by apply get_written.
  - by apply iter_scanned.
Qed.

(** Two partitions, one with a deletion, one with an expiring cell. *)
Definition sample_partitions : list (list Z * PartitionData) :=
  [([1], PartitionData_set_tombstone PartitionData_new 5 9);
   ([2; 7], PartitionData_apply_row PartitionData_new
      (mkRow [4] [mkCell "a" (Some [8; 8]) 10 60 (Some 99) false; mkCell "b" None 11 0 None true] false (Some 3)))].

Definition sample_descriptor : SSTableDescriptor := mkSSTableDescriptor "k" "t" 1 FormatBig.
Abbreviation sample_write :=
  (SSTableWriter_write (fun n => Z.of_nat n * 10) (fun _ _ => 7) (fun _ => 0) write_partition_body sample_descriptor).

(** Closed range conditions. *)
Ltac in_range := split; by vm_compute.
Ltac opt_range := intros ? E; first [discriminate E | injection E as <-; in_range].
Ltac cell_range := unfold cell_ok; split_and!; [by vm_compute|in_range..|opt_range|opt_range].

Lemma sample_parts_ok : Forall (fun e => partition_ok e.2) sample_partitions.
Proof.
  constructor; [|constructor; [|constructor]].
  - split; [constructor| |].
    + split; intros _; by eexists.
    + constructor; [|constructor]. split; in_range.
  - split; [constructor; [done|constructor]| |].
    + split; intros [? [=]].
    + constructor; [|constructor]. unfold item_ok, row_ok. split_and!; [in_range..|opt_range|].
      constructor; [|constructor; [|constructor]]; cell_range.
Qed.

Lemma sample_input :
  sstable_input (fun n => Z.of_nat n * 10) (fun _ _ => 7) (fun _ => 0) sample_descriptor sample_partitions.
Proof.
  split; [done|apply sample_parts_ok|..].
  - constructor; [|constructor; [|constructor]]; in_range.
  - by vm_compute.
  - by vm_compute.
  - by vm_compute.
Qed.

Lemma sstable_roundtrip_witness :
  exists r, SSTableReader_open (fun _ => None) sample_descriptor (sample_write sample_partitions).1 = inr r
    /\ exists put, SSTableReader_get_partition r (data_db (sample_write sample_partitions).1) None [2; 7]
      = inr (lookup_list [2; 7] sample_partitions, put)
    /\ SSTableReader_iter_partitions (data_db (sample_write sample_partitions).1) = inr sample_partitions.
Proof.
  pose proof (sstable_roundtrip _ _ _ (fun _ => None) _ _ sample_input) as H.
  rewrite (surjective_pairing (SSTableWriter_write _ _ _ _ _ _)) in H.
  destruct H as (r & Ho & _ & _ & Hg & Hi). exists r. split; [exact Ho|].
  destruct (Hg [2; 7] None (or_introl eq_refl)) as (put & Hp & _). exists put. split; [exact Hp|exact Hi].
Defined.

(** A file that has the empty key, which sorts first, scans as empty: its other
    partitions are found by lookups but not by a scan. *)
Lemma empty_key_hides_file :
  let l := ([], PartitionData_set_tombstone PartitionData_new 1 1) :: sample_partitions in
  let files := (sample_write l).1 in
  SSTableReader_iter_partitions (data_db files) = inr []
  /\ match SSTableReader_open (fun _ => None) sample_descriptor files with
     | inr r => match SSTableReader_get_partition r (data_db files) None [1] with
                | inr (Some _, _) => True | _ => False
                end
     | inl _ => False
     end.
Proof. vm_compute. done. Qed.
