(* ===== verification/Engine.v ===== *)
(** * The storage engine

    crates/cassandra-storage/src/engine.rs: the write path (commit log, then
    memtable, then perhaps a flush), the read path (memtable, row cache, files of
    sorted partitions), flushing, compaction, truncation and recovery.  The
    formats of the files ([SSTableHandle]: Big or BTI) are an interface,
    [SSTables], whose laws the Big format is shown to satisfy in [BigTables].

    Left out of the state: statistics, secondary indexes, materialized views,
    snapshots and backups.  The directory of data files is the list of the tables
    in it. *)
From Stdlib Require Import Ascii.
From S2P Require Export MemtableManager Strategy RowCache LogRecovery SSTable.

(** * Tables on disk *)

(** [sst_write] writes the components, and opens them. *)
Class SSTables (H : Type) := {
  sst_keyspace : H -> string;
  sst_table : H -> string;
  sst_generation : H -> Z;
  sst_stats : H -> option SSTableStats;
  sst_might_contain_key : H -> list Z -> bool;
  sst_get_partition : H -> list Z -> IoError + option PartitionData;
  sst_iter_partitions : H -> IoError + PartitionVec;
  sst_write : string -> string -> Z -> PartitionVec -> IoError + H;
}.
Definition sst_belongs_to {H} `{SSTables H} (keyspace table : string) (h : H) : bool :=
  String.eqb (sst_keyspace h) keyspace && String.eqb (sst_table h) table.

(** [format!("{}.{}", keyspace, table)] and [cf_name.splitn(2, '.')]. *)
Definition cf_name_of (keyspace table : string) : string := (keyspace ++ "." ++ table)%string.
Fixpoint split_dot (s : string) : option (string * string) :=
  match s with
  | EmptyString => None
  | String c s => if Ascii.eqb c "."%char then Some (EmptyString, s) else (fun p => (String c p.1, p.2)) <$> split_dot s
  end.
Definition cf_parts (cf_name : string) : string * string := default (cf_name, "unknown"%string) (split_dot cf_name).
Definition sst_cf_name {H} `{SSTables H} (h : H) : string := cf_name_of (sst_keyspace h) (sst_table h).

(** * Mutations as updates of a partition *)

Definition cell_of (c : CellMutation) : Cell :=
  mkCell (cm_column c) (cm_value c) (cm_timestamp c) (cm_ttl c) (cm_local_deletion_time c) (cm_is_tombstone c).
Definition row_of (mrow : MutationRow) : Row :=
  mkRow (mr_clustering_key mrow) (cell_of <$> mr_cells mrow) (mr_is_tombstone mrow) (mr_local_deletion_time mrow).
Definition static_row_of (cells : list CellMutation) : Row := mkRow [] (cell_of <$> cells) false None.
Definition range_row_of (rt : CommitLog.RangeTombstoneMarker) : Row :=
  mkRow (CommitLog.rt_start rt) [] true (Some (CommitLog.rt_local_deletion_time rt)).

(** The calls of [memtable.apply] and [memtable.set_partition_tombstone]. *)
Inductive Update := URow (row : Row) | UTombstone (timestamp ldt : Z).
Definition mutation_updates (m : Mutation) : list Update :=
  (URow ∘ row_of <$> mu_rows m)
  ++ match mu_static_cells m with [] => [] | cells => [URow (static_row_of cells)] end
  ++ match mu_partition_tombstone m with Some pt => [UTombstone (tombstone_ts pt) (tombstone_ldt pt)] | None => [] end
  ++ (URow ∘ range_row_of <$> mu_range_tombstones m).
(** What a replay applies of a mutation. *)
Definition replayed_updates (m : Mutation) : list Update := URow ∘ row_of <$> mu_rows m.
Definition Memtable_update (pk : list Z) (mt : Memtable) (u : Update) : Memtable :=
  match u with
  | URow row => Memtable_apply mt pk row
  | UTombstone ts ldt => Memtable_set_partition_tombstone mt pk ts ldt
  end.
Definition mutation_cf (m : Mutation) : string := cf_name_of (mu_keyspace m) (mu_table m).

(** * The engine *)

Inductive EngineError := LogFailed (e : CommitLogError) | TableFailed (e : IoError).

Record EngineConfig := mkEngineConfig {
  ec_commitlog : CommitLogConfig;
  ec_memtable_flush_threshold : Z;
  ec_memtable_type : MemtableType;
  ec_gc_grace_seconds : Z;
  (** [compaction_output_max_size_bytes()]. *)
  ec_output_max_size : option Z;
}.

Section Engine.
Context (compress_prepend_size : list Z -> list Z) (decompress_size_prepended : list Z -> option (list Z))
  (crc32 : list Z -> Z) (to_vec : Mutation -> option (list Z)) (from_slice : list Z -> option Mutation).
Context {H : Type} `{SSTables H} {L : Type} `{LruCache L}.
Context (table_hash : string -> string -> Z) (config : EngineConfig).

Record Engine := mkEngine {
  eng_log : CommitLog;
  eng_memtables : MemtableManager;
  eng_sstables : list H;
  eng_next_generation : Z;
  eng_row_cache : option (RowCache L);
  (** The tables in the data directory. *)
  eng_disk : list H;
}.
Definition set_log (log : CommitLog) (self : Engine) : Engine :=
  mkEngine log (eng_memtables self) (eng_sstables self) (eng_next_generation self) (eng_row_cache self) (eng_disk self).
Definition set_memtables (mm : MemtableManager) (self : Engine) : Engine :=
  mkEngine (eng_log self) mm (eng_sstables self) (eng_next_generation self) (eng_row_cache self) (eng_disk self).
Definition set_sstables (hs : list H) (self : Engine) : Engine :=
  mkEngine (eng_log self) (eng_memtables self) hs (eng_next_generation self) (eng_row_cache self) (eng_disk self).
Definition set_row_cache (c : option (RowCache L)) (self : Engine) : Engine :=
  mkEngine (eng_log self) (eng_memtables self) (eng_sstables self) (eng_next_generation self) c (eng_disk self).
(** A table is written under the next generation. *)
Definition write_table (keyspace table : string) (partitions : PartitionVec) (self : Engine) : (EngineError + H) * Engine :=
  let generation := eng_next_generation self in
  let self := mkEngine (eng_log self) (eng_memtables self) (eng_sstables self) (wrap_u 64 (generation + 1)) (eng_row_cache self)
                (eng_disk self) in
  match sst_write keyspace table generation partitions with
  | inl e => (inl (TableFailed e), self)
  | inr h => (inr h, mkEngine (eng_log self) (eng_memtables self) (eng_sstables self) (eng_next_generation self)
                       (eng_row_cache self) (eng_disk self ++ [h]))
  end.

(** ** Flushing *)

(** Up to the switch: the memtable to write. *)
Definition flush_begin (cf_name : string) (self : Engine) : option Z * Engine :=
  let '(old, mm) := MemtableManager_switch_memtable (eng_memtables self) cf_name (seg_id (current_segment (eng_log self))) in
  (old, set_memtables mm self).
Definition discard_flushed (self : Engine) : Engine :=
  match MemtableManager_lowest_commitlog_bound (eng_memtables self) with
  | Some lowest =>
      if 1 <? lowest
      then set_log (CommitLog_discard_completed_segments (ec_commitlog config) (lowest - 1) (eng_log self)) self
      else self
  | None => self
  end.
(** The rest of a flush, for the memtable the switch returned. *)
Definition flush_end (cf_name : string) (id : Z) (self : Engine) : (EngineError + unit) * Engine :=
  match mm_heap (eng_memtables self) !! id with
  | None => (inr (), self)
  | Some old_memtable =>
      let complete self := set_memtables (MemtableManager_flush_complete (eng_memtables self) id) self in
      match Memtable_iter_partitions old_memtable with
      | [] => (inr (), complete self)
      | partitions =>
          let '(ks, tbl) := cf_parts cf_name in
          match write_table ks tbl partitions self with
          | (inl e, self) => (inl e, self)
          | (inr h, self) =>
              let self := complete (set_sstables (eng_sstables self ++ [h]) self) in
              let upper := commitlog_upper_bound old_memtable in
              let self := set_log (CommitLog_mark_cf_flushed cf_name upper 0 (eng_log self)) self in
              (inr (), discard_flushed self)
          end
      end
  end.
Definition flush_cf (cf_name : string) (self : Engine) : (EngineError + unit) * Engine :=
  match flush_begin cf_name self with
  | (None, self) => (inr (), self)
  | (Some id, self) => flush_end cf_name id self
  end.
(** The loop of [flush_all], which stops at the first error. *)
Fixpoint flush_each (cf_names : list string) (self : Engine) : (EngineError + unit) * Engine :=
  match cf_names with
  | [] => (inr (), self)
  | cf_name :: cf_names =>
      match flush_cf cf_name self with
      | (inl e, self) => (inl e, self)
      | (inr _, self) => flush_each cf_names self
      end
  end.
Definition flush_all (self : Engine) : (EngineError + unit) * Engine :=
  flush_each (MemtableManager_active_cf_names (eng_memtables self)) self.

(** ** Writing *)

Definition invalidate (keyspace table : string) (pk : list Z) (self : Engine) : Engine :=
  set_row_cache ((fun c => RowCache_invalidate_partition c (table_hash keyspace table) pk) <$> eng_row_cache self) self.
(** Steps 1 to 4: log, memtable, cache. *)
Definition insert_mutation (m : Mutation) (self : Engine) : (EngineError + unit) * Engine :=
  match CommitLog_append compress_prepend_size crc32 to_vec (ec_commitlog config) m (eng_log self) with
  | (inl e, log) => (inl (LogFailed e), set_log log self)
  | (inr (seg_id, _), log) =>
      let self := set_log log self in
      let '(id, mm) := MemtableManager_get_or_create (eng_memtables self) (mutation_cf m) seg_id in
      let mm := MemtableManager_update mm id (fun mt => Memtable_update_commitlog_upper_bound mt seg_id) in
      let mm := MemtableManager_update mm id (fun mt => foldl (Memtable_update (mu_partition_key m)) mt (mutation_updates m)) in
      (inr (), invalidate (mu_keyspace m) (mu_table m) (mu_partition_key m) (set_memtables mm self))
  end.
Definition apply_mutation (m : Mutation) (self : Engine) : (EngineError + unit) * Engine :=
  match insert_mutation m self with
  | (inl e, self) => (inl e, self)
  | (inr _, self) =>
      if MemtableManager_should_flush (eng_memtables self) then flush_cf (mutation_cf m) self else (inr (), self)
  end.

(** ** Reading *)

Definition read_step (pk : list Z) (result : option PartitionData) (sst : H) : option PartitionData :=
  if sst_might_contain_key sst pk then
    match sst_get_partition sst pk with
    | inr (Some sst_partition) =>
        match result with
        | Some existing => Some (absorb_tombstone (absorb_rows existing sst_partition) sst_partition)
        | None => Some sst_partition
        end
    | _ => result
    end
  else result.
Definition read_sstables (keyspace table : string) (pk : list Z) (result : option PartitionData) (self : Engine) : option PartitionData :=
  foldl (read_step pk) result (List.filter (sst_belongs_to keyspace table) (rev (eng_sstables self))).
Definition read_partition (keyspace table : string) (pk : list Z) (self : Engine) : option PartitionData * Engine :=
  let '(id, mm) := MemtableManager_get_or_create (eng_memtables self) (cf_name_of keyspace table) 0 in
  let self := set_memtables mm self in
  let result := mm_heap mm !! id ≫= (fun mt => Memtable_get_partition mt pk) in
  let '(hit, self) :=
    match result, eng_row_cache self with
    | None, Some cache =>
        let '(hit, cache) := RowCache_get cache (table_hash keyspace table) pk in (hit, set_row_cache (Some cache) self)
    | _, _ => (None, self)
    end in
  match hit with
  | Some cached => (Some cached, self)
  | None =>
      let result := read_sstables keyspace table pk result self in
      (result,
       match result, eng_row_cache self with
       | Some data, Some cache => set_row_cache (Some (RowCache_put cache (table_hash keyspace table) pk data)) self
       | _, _ => self
       end)
  end.

Definition scan_keys (keyspace table : string) (self : Engine) : list (list Z) :=
  (MemtableManager_active_partitions (eng_memtables self) (cf_name_of keyspace table)).*1
  ++ mjoin ((fun h => match sst_iter_partitions h with inr l => l.*1 | inl _ => [] end)
            <$> List.filter (sst_belongs_to keyspace table) (eng_sstables self)).
(** The loop over the keys of the [BTreeSet]. *)
Fixpoint read_each (keyspace table : string) (ks : list (list Z)) (self : Engine) : PartitionVec * Engine :=
  match ks with
  | [] => ([], self)
  | key :: ks =>
      let '(partition, self) := read_partition keyspace table key self in
      let '(rest, self) := read_each keyspace table ks self in
      (match partition with Some p => (key, p) :: rest | None => rest end, self)
  end.
Definition scan_all_partitions (keyspace table : string) (self : Engine) : PartitionVec * Engine :=
  let ks := insert_all (∅ : ordmap (list Z) unit) ((fun k => (k, ())) <$> scan_keys keyspace table self) in
  read_each keyspace table (keys ks) self.

(** ** Compaction *)

Definition metadata_of (h : H) : CompactionMetadata :=
  let stat f := match sst_stats h with Some s => f s | None => 0 end in
  mkCompactionMetadata (sst_generation h) (stat st_data_size) (stat st_partition_count) (stat st_min_timestamp) (stat st_max_timestamp).
Definition in_group (group_ids : list Z) (h : H) : bool := existsb (Z.eqb (sst_generation h)) group_ids.

(** [?] on each of the reads. *)
Fixpoint read_sources (hs : list H) : IoError + list PartitionVec :=
  match hs with
  | [] => inr []
  | h :: hs =>
      match sst_iter_partitions h with
      | inl e => inl e
      | inr partitions => match read_sources hs with inl e => inl e | inr rest => inr (partitions :: rest) end
      end
  end.
Fixpoint write_batches (keyspace table : string) (batches : list PartitionVec) (self : Engine) : (EngineError + list H) * Engine :=
  match batches with
  | [] => (inr [], self)
  | batch :: batches =>
      match write_table keyspace table batch self with
      | (inl e, self) => (inl e, self)
      | (inr h, self) =>
          match write_batches keyspace table batches self with
          | (inl e, self) => (inl e, self)
          | (inr hs, self) => (inr (h :: hs), self)
          end
      end
  end.
Definition compact_group (now_seconds : Z) (group_ids : list Z) (self : Engine) : (EngineError + unit) * Engine :=
  let group := List.filter (in_group group_ids) (eng_sstables self) in
  let retain self := set_sstables (List.filter (fun h => negb (in_group group_ids h)) (eng_sstables self)) self in
  match group, read_sources group with
  | [], _ => (inr (), self)
  | _, inl e => (inl (TableFailed e), self)
  | first :: _, inr sources =>
      match merge_partitions sources (ec_gc_grace_seconds config) now_seconds with
      | [] => (inr (), retain self)
      | merged =>
          let output_batches := split_compaction_output merged (ec_output_max_size config) in
          match write_batches (sst_keyspace first) (sst_table first) output_batches self with
          | (inl e, self) => (inl e, self)
          | (inr new_handles, self) =>
              let self := retain self in (inr (), set_sstables (eng_sstables self ++ new_handles) self)
          end
      end
  end.
(** The loops of [maybe_compact]; the clock is read once for each group. *)
Fixpoint compact_groups (clock : list Z -> Z) (groups : list (list Z)) (self : Engine) : (EngineError + unit) * Engine :=
  match groups with
  | [] => (inr (), self)
  | group_ids :: groups =>
      match compact_group (clock group_ids) group_ids self with
      | (inl e, self) => (inl e, self)
      | (inr _, self) => compact_groups clock groups self
      end
  end.
Definition cf_metadata (cf_name : string) (self : Engine) : list CompactionMetadata :=
  metadata_of <$> List.filter (fun h => String.eqb (sst_cf_name h) cf_name) (eng_sstables self).
Fixpoint compact_tables {S} `{CompactionStrategy S} (strategy : S) (clock : list Z -> Z) (tables : list (list CompactionMetadata))
    (self : Engine) : (EngineError + bool) * Engine :=
  match tables with
  | [] => (inr false, self)
  | metadata :: tables =>
      let groups := pick_compaction strategy metadata in
      match compact_groups clock groups self with
      | (inl e, self) => (inl e, self)
      | (inr _, self) =>
          match compact_tables strategy clock tables self with
          | (inr rest, self) => (inr (match groups with [] => rest | _ => true end), self)
          | r => r
          end
      end
  end.
(** [by_cf] is a [HashMap]: [order] is the order in which it gives the tables. *)
Definition maybe_compact {S} `{CompactionStrategy S} (strategy : S) (clock : list Z -> Z) (order : list string) (self : Engine) :
    (EngineError + bool) * Engine :=
  compact_tables strategy clock ((fun cf_name => cf_metadata cf_name self) <$> order) self.

(** ** Truncation *)

Definition truncate_table (keyspace table : string) (self : Engine) : Engine :=
  let '(old, mm) := MemtableManager_switch_memtable (eng_memtables self) (cf_name_of keyspace table)
                      (seg_id (current_segment (eng_log self))) in
  let mm := match old with Some id => MemtableManager_flush_complete mm id | None => mm end in
  let other h := negb (sst_belongs_to keyspace table h) in
  let removed h := sst_belongs_to keyspace table h && existsb (fun h' => sst_generation h' =? sst_generation h) (eng_sstables self) in
  mkEngine (eng_log self) mm (List.filter other (eng_sstables self)) (eng_next_generation self)
    ((fun c => RowCache_invalidate_table c (table_hash keyspace table)) <$> eng_row_cache self)
    (List.filter (fun h => negb (removed h)) (eng_disk self)).

(** ** Opening and recovery *)

Definition load_existing_sstables (disk : list H) : list H * Z :=
  (sort_by (fun a b => cmp (sst_generation a) (sst_generation b)) disk, foldl (fun g h => g `max` sst_generation h) 0 disk).
Definition engine_open (fs : Fs) (disk : list H) : Engine :=
  let '(handles, max_gen) := load_existing_sstables disk in
  mkEngine (CommitLog_open (ec_commitlog config) fs)
    (MemtableManager_with_type (ec_memtable_flush_threshold config) (ec_memtable_type config))
    handles (wrap_u 64 (max_gen + 1)) None disk.
Definition replay_mutation (mm : MemtableManager) (m : Mutation) : MemtableManager :=
  let '(id, mm) := MemtableManager_get_or_create mm (mutation_cf m) 0 in
  MemtableManager_update mm id (fun mt => foldl (Memtable_update (mu_partition_key m)) mt (replayed_updates m)).
Definition replay_commitlog (policy : CorruptionPolicy) (self : Engine) : Engine :=
  let '(result, log) := CommitLog_replay_with_policy decompress_size_prepended crc32 from_slice (ec_commitlog config) policy
                          (eng_log self) in
  set_memtables (foldl replay_mutation (eng_memtables self) (rr_mutations result)) (set_log log self).
End Engine.
Arguments Engine : clear implicits.
