(* ===== verification/EngineViews.v ===== *)
(** * What the parts of the engine hold

    The views of [PartitionView] for the parts of the engine of [Engine]: updates,
    memtables and the manager, tables on disk and the read path.  Every theorem of
    [EngineCorrect] is about joins of these views. *)
From S2P Require Export Engine.

(** * Joins of databases *)

Definition db_sup (l : list DbView) : DbView := foldl db_join ∅ l.
Abbreviation db_below := (below db_join).

Lemma db_join_empty_l v : db_join ∅ v = v.
Proof. apply map_eq. intros k. unfold db_join. rewrite lookup_merge_loop, lookup_empty. by destruct (v !! k). Qed.
Lemma db_join_empty_r v : db_join v ∅ = v.
Proof. done. Qed.
Lemma db_below_lookup v w : db_below v w <-> forall k, merge_opt pview_join (v !! k) (w !! k) = w !! k.
Proof.
  split.
  - intros E j. unfold below, db_join in E. by rewrite <- lookup_merge_loop, E.
  - intros E. apply map_eq. intros j. unfold db_join. by rewrite lookup_merge_loop.
Qed.

Section Sup.
Context (W : History) (HW : hist_ok W).
Abbreviation dom := (db_in W).

Lemma dom_empty : dom ∅.
Proof. intros k v E. by rewrite lookup_empty in E. Qed.
Lemma dom_join v w : dom v -> dom w -> dom (db_join v w).
Proof. apply (@sl_closed _ dom db_join (db_semilattice W HW)). Qed.
Lemma dom_sup l : Forall dom l -> dom (db_sup l).
Proof. intros Hl. apply (foldl_closed dom db_join (Semilattice0 := db_semilattice W HW)); [apply dom_empty|done]. Qed.
Lemma db_below_empty v : db_below ∅ v.
Proof. apply db_join_empty_l. Qed.
Lemma db_refl v : dom v -> db_below v v.
Proof. apply (below_refl dom db_join (Semilattice0 := db_semilattice W HW)). Qed.
Lemma db_trans x y z : dom x -> dom y -> dom z -> db_below x y -> db_below y z -> db_below x z.
Proof. apply (below_trans dom db_join (Semilattice0 := db_semilattice W HW)). Qed.
Lemma db_antisym x y : dom x -> dom y -> db_below x y -> db_below y x -> x = y.
Proof. apply (below_antisym dom db_join (Semilattice0 := db_semilattice W HW)). Qed.
Lemma db_join_below x y z : dom x -> dom y -> dom z -> db_below (db_join x y) z <-> db_below x z /\ db_below y z.
Proof. apply (below_join dom db_join (Semilattice0 := db_semilattice W HW)). Qed.
Lemma db_sup_upper l v : Forall dom l -> v ∈ l -> db_below v (db_sup l).
Proof.
  intros Hl Hv. apply (foldl_absorbs dom db_join (Semilattice0 := db_semilattice W HW)); [apply dom_empty|done|by right].
Qed.
Lemma db_sup_below l w : Forall dom l -> dom w -> db_below (db_sup l) w <-> forall v, v ∈ l -> db_below v w.
Proof.
  intros Hl Hw. split.
  - intros Hle v Hv. assert (dom v) by by eapply Forall_forall.
    eapply db_trans; [done| |done| |exact Hle]; [by apply dom_sup|by apply db_sup_upper].
  - intros Hle. apply (foldl_least dom db_join (Semilattice0 := db_semilattice W HW)); [apply dom_empty|done..|].
    intros v [->|Hv]%elem_of_cons; [apply db_below_empty|by apply Hle].
Qed.
(** A join is decided by what is below it. *)
Lemma db_sup_eq l v : Forall dom l -> dom v -> (forall x, x ∈ l -> db_below x v) -> db_below v (db_sup l) -> db_sup l = v.
Proof.
  intros Hl Hv H1 H2. apply db_antisym; [by apply dom_sup|done| |done]. by apply db_sup_below.
Qed.
Lemma db_sup_ext l k :
  Forall dom l -> Forall dom k -> (forall x, x ∈ l -> x = ∅ \/ x ∈ k) -> (forall x, x ∈ k -> x = ∅ \/ x ∈ l) -> db_sup l = db_sup k.
Proof.
  intros Hl Hk H1 H2. apply db_sup_eq; [done|by apply dom_sup| |].
  - intros x [->|Hx]%H1; [apply db_below_empty|by apply db_sup_upper].
  - apply db_sup_below; [done|by apply dom_sup|]. intros x [->|Hx]%H2; [apply db_below_empty|by apply db_sup_upper].
Qed.
Lemma db_sup_app l k : Forall dom l -> Forall dom k -> db_sup (l ++ k) = db_join (db_sup l) (db_sup k).
Proof.
  intros Hl Hk. assert (Hlk : Forall dom (l ++ k)) by by apply Forall_app. pose proof (dom_sup l Hl). pose proof (dom_sup k Hk).
  apply db_sup_eq; [done|by apply dom_join| |].
  - intros x Hx. assert (dom x) by by eapply Forall_forall. pose proof (dom_join _ _ H H0).
    pose proof (proj1 (db_join_below _ _ _ H H0 H2) (db_refl _ H2)) as [Hb1 Hb2].
    apply elem_of_app in Hx as [Hx|Hx]; [eapply db_trans; [done| |done| |exact Hb1]|eapply db_trans; [done| |done| |exact Hb2]];
      try done; by apply db_sup_upper.
  - apply db_join_below; [done..|by apply dom_sup|].
    split; (apply db_sup_below; [done|by apply dom_sup|]); intros x Hx; apply db_sup_upper; try done; apply elem_of_app; auto.
Qed.
Lemma db_sup_fold v l : dom v -> Forall dom l -> foldl db_join v l = db_join v (db_sup l).
Proof.
  intros Hv Hl. pose proof (db_sup_app [v] l) as E. unfold db_sup in E. cbn [app foldl] in E. rewrite db_join_empty_l in E.
  apply E; [|done]. by apply List.Forall_cons.
Qed.
End Sup.

(** * Updates and memtables *)

Definition update_view (pk : list Z) (u : Update) : DbView :=
  {[pk := match u with
          | URow row => ({[Row_clustering_key row := row_view row]}, None)
          | UTombstone timestamp ldt => (∅, Some (timestamp, ldt))
          end]}.
Definition updates_view (pk : list Z) (us : list Update) : DbView := db_sup (update_view pk <$> us).
Definition update_wf (u : Update) : Prop := match u with URow row => row_wf row | UTombstone _ _ => True end.

Lemma upsert_view (f : PartitionData -> PartitionData) (v : PView) pk (m : Partitions) :
  (forall p, p_wf p -> p_wf (f p) /\ pview (f p) = pview_join (pview p) v) -> db_wf m ->
  db_wf (upsert f (f PartitionData_new) pk m) /\ db_of (upsert f (f PartitionData_new) pk m) = db_join (db_of m) {[pk := v]}.
Proof.
  intros Hf Hm. split.
  - intros k p. rewrite lookup_upsert. case_decide as E; [|apply Hm]. subst k.
    destruct (m !! pk) as [q|] eqn:Eq; intros [= <-]; apply Hf; [by eapply Hm|apply partition_new_wf].
  - apply map_eq. intros k. unfold db_of, db_join. rewrite lookup_merge_loop, !lookup_fmap, lookup_upsert.
    case_decide as E; [subst k; rewrite lookup_singleton_eq|rewrite lookup_singleton_ne by done; by destruct (m !! k)].
    destruct (m !! pk) as [q|] eqn:Eq; simpl; f_equal.
    + apply Hf. by eapply Hm.
    + rewrite (proj2 (Hf _ partition_new_wf)). apply pview_new_join.
Qed.

Definition mt_view (mt : Memtable) : DbView := db_of (backend_abs (mt_backend mt)).
Record mt_good (W : History) (mt : Memtable) : Prop := {
  mg_wf : backend_wf (mt_backend mt);
  mg_db : db_wf (backend_abs (mt_backend mt));
  mg_in : db_in W (mt_view mt);
}.

Section Memtables.
Context (W : History) (HW : hist_ok W).

Lemma update_step mt pk u :
  mt_good W mt -> update_wf u -> db_in W (update_view pk u) ->
  mt_good W (Memtable_update pk mt u) /\ mt_view (Memtable_update pk mt u) = db_join (mt_view mt) (update_view pk u).
Proof.
  intros [Hw Hd Hi] Hu Hin.
  assert (H : backend_wf (mt_backend (Memtable_update pk mt u)) /\ db_wf (backend_abs (mt_backend (Memtable_update pk mt u)))
    /\ mt_view (Memtable_update pk mt u) = db_join (mt_view mt) (update_view pk u)).
  { destruct u as [row|ts ldt]; cbn [Memtable_update Memtable_apply Memtable_set_partition_tombstone mt_backend].
    - split; [by apply apply_wf|]. unfold mt_view. cbn [mt_backend Memtable_apply]. rewrite apply_abs by done.
      apply upsert_view; [|done]. intros p Hp. by apply apply_row_view.
    - split; [by apply tombstone_wf|]. unfold mt_view. cbn [mt_backend Memtable_set_partition_tombstone].
      rewrite tombstone_abs by done. apply upsert_view; [|done]. intros p Hp. by apply set_tombstone_view. }
  destruct H as (H1 & H2 & H3). split; [|done]. split; [done..|]. rewrite H3. by apply dom_join.
Qed.
Lemma updates_step mt pk us :
  mt_good W mt -> Forall update_wf us -> Forall (fun u => db_in W (update_view pk u)) us ->
  mt_good W (foldl (Memtable_update pk) mt us)
  /\ mt_view (foldl (Memtable_update pk) mt us) = db_join (mt_view mt) (updates_view pk us).
Proof.
  intros Hg Hw Hi. unfold updates_view. rewrite <- (db_sup_fold W HW); [|apply Hg|by apply Forall_fmap].
  revert mt Hg. induction Hw as [|u us Hu Hus IH]; intros mt Hg; [done|]. apply Forall_cons in Hi as [Hiu Hi].
  destruct (update_step mt pk u Hg Hu Hiu) as [H1 H2]. rewrite fmap_cons. cbn [foldl]. rewrite <- H2. by apply IH.
Qed.
Lemma update_at pk us w : pk <> w -> updates_view pk us !! w = None.
Proof.
  intros Hne. unfold updates_view, db_sup. assert (He : (∅ : DbView) !! w = None) by done. revert He. generalize (∅ : DbView).
  induction us as [|u us IH]; intros v Hv; [done|]. rewrite fmap_cons. cbn [foldl]. apply IH. unfold db_join.
  rewrite lookup_merge_loop, Hv. unfold update_view. by rewrite lookup_singleton_ne.
Qed.
Lemma new_memtable_good id t ty : mt_good W (Memtable_with_type id t ty) /\ mt_view (Memtable_with_type id t ty) = ∅.
Proof.
  destruct (create_backend_wf ty) as [Hw Ha].
  assert (Hv : mt_view (Memtable_with_type id t ty) = ∅).
  { unfold mt_view. cbn [mt_backend Memtable_with_type]. rewrite Ha. apply fmap_empty. }
  split; [|done]. split; [done| |rewrite Hv; apply dom_empty].
  cbn [mt_backend Memtable_with_type]. rewrite Ha. intros k p E. by rewrite lookup_empty in E.
Qed.
End Memtables.

(** * The manager *)

Definition refs (mm : MemtableManager) (cf : string) (id : Z) : Prop := mm_active mm !! cf = Some id \/ (cf, id) ∈ mm_flushing mm.
Definition mt_at (mm : MemtableManager) (cf : string) (id : Z) (mt : Memtable) : Prop := refs mm cf id /\ mm_heap mm !! id = Some mt.

(** Every memtable named is there and of one table, and none is both active and
    being flushed; [room] is how many more can be named. *)
Record mm_inv (room : Z) (P : string -> Memtable -> Prop) (mm : MemtableManager) : Prop := {
  mi_ref cf id : refs mm cf id -> exists mt, mm_heap mm !! id = Some mt /\ P cf mt /\ id < mm_next_id mm;
  mi_one cf cf' id : refs mm cf id -> refs mm cf' id -> cf = cf';
  mi_apart cf id : mm_active mm !! cf = Some id -> (cf, id) ∉ mm_flushing mm;
  mi_room : 0 <= mm_next_id mm /\ mm_next_id mm + room < 2 ^ 64;
}.

Section Manager.
Context (P : string -> Memtable -> Prop).

Lemma mm_inv_weaken room room' Q mm :
  room' <= room -> (forall cf mt, P cf mt -> Q cf mt) -> mm_inv room P mm -> mm_inv room' Q mm.
Proof.
  intros Hr HPQ [H1 H2 H3 H4]. split; [|done..|lia]. intros cf id Hid. destruct (H1 cf id Hid) as (mt & ? & ? & ?). eauto.
Qed.
Lemma mm_inv_new room threshold ty : 1 + room < 2 ^ 64 -> mm_inv room P (MemtableManager_with_type threshold ty).
Proof.
  intros Hr. split; unfold refs; simpl.
  - intros cf id [E|E]; [by rewrite lookup_empty in E|by apply not_elem_of_nil in E].
  - intros cf cf' id [E|E]; [by rewrite lookup_empty in E|by apply not_elem_of_nil in E].
  - intros cf id E. by rewrite lookup_empty in E.
  - lia.
Qed.

(** A new memtable becomes the active one of [cf], and the old one, if any, is
    queued ([queue]) or there was none. *)
Lemma install_active room mm cf t queue :
  1 <= room -> mm_inv room P mm -> P cf (Memtable_with_type (mm_next_id mm) t (mm_memtable_type mm)) ->
  (forall id, mm_active mm !! cf = Some id -> queue = [(cf, id)]) -> (mm_active mm !! cf = None -> queue = []) ->
  let mm' := MemtableManager_set_flushing
    (MemtableManager_set_active (MemtableManager_alloc mm t).2 cf (mm_next_id mm)) (mm_flushing mm ++ queue) in
  mm_inv (room - 1) P mm'
  /\ forall cf' id' mt', mt_at mm' cf' id' mt'
     <-> mt_at mm cf' id' mt' \/ (cf' = cf /\ id' = mm_next_id mm /\ mt' = Memtable_with_type (mm_next_id mm) t (mm_memtable_type mm)).
Proof.
  intros Hr [H1 H2 H3 H4] HP Hq1 Hq2 mm'. set (new := mm_next_id mm) in *.
  assert (Hlt : forall cf' id, refs mm cf' id -> id < new) by (intros cf' id Hid; by destruct (H1 cf' id Hid) as (? & _ & _ & ?)).
  assert (Hq : forall cf' id, (cf', id) ∈ queue <-> cf' = cf /\ mm_active mm !! cf = Some id).
  { intros cf' id. destruct (mm_active mm !! cf) as [old|] eqn:Eo.
    - rewrite (Hq1 old eq_refl), list_elem_of_singleton, (inj_iff Some). split; [by intros [= -> ->]|by intros [-> ->]].
    - rewrite (Hq2 eq_refl). split; [by intros ?%not_elem_of_nil|by intros [_ ?]]. }
  assert (Hrefs : forall cf' id, refs mm' cf' id <-> refs mm cf' id \/ (cf' = cf /\ id = new)).
  { intros cf' id. unfold refs, mm'. cbn [mm_active mm_flushing MemtableManager_set_flushing MemtableManager_set_active
      MemtableManager_alloc snd]. rewrite elem_of_app, lookup_insert, Hq. case_decide as E.
    - subst cf'. rewrite (inj_iff Some). clear. intuition congruence.
    - clear - E. intuition congruence. }
  assert (Hheap : mm_heap mm' = <[new := Memtable_with_type new t (mm_memtable_type mm)]> (mm_heap mm)) by done.
  assert (Hat : forall cf' id' mt', mt_at mm' cf' id' mt' <-> mt_at mm cf' id' mt'
    \/ (cf' = cf /\ id' = new /\ mt' = Memtable_with_type new t (mm_memtable_type mm))).
  { intros cf' id' mt'. unfold mt_at. rewrite Hrefs, Hheap, lookup_insert. case_decide as E.
    - subst id'. rewrite (inj_iff Some). split.
      + intros [[Hid|[-> _]] <-]; [apply Hlt in Hid; lia|by right].
      + intros [[Hid _]|(-> & _ & ->)]; [apply Hlt in Hid; lia|by auto].
    - split; [intros [[Hid|[_ ->]] Hh]; [by left|done]|]. intros [[Hid Hh]|(_ & -> & _)]; [by auto|done]. }
  split; [|done]. split.
  - intros cf' id [Hid|[-> ->]]%Hrefs; rewrite Hheap; simpl; rewrite wrap_u_id by (unfold in_u; lia).
    + destruct (H1 cf' id Hid) as (mt & Hmt & HPm & Hid'). exists mt. rewrite lookup_insert_ne by lia. split_and!; [done..|lia].
    + eexists. rewrite lookup_insert_eq. split_and!; [done..|lia].
  - intros cf1 cf2 id [Hid1|[-> ->]]%Hrefs [Hid2|[E1 E2]]%Hrefs.
    + by eapply H2.
    + apply Hlt in Hid1. lia.
    + apply Hlt in Hid2. lia.
    + done.
  - intros cf' id. unfold mm'. cbn [mm_active mm_flushing MemtableManager_set_flushing MemtableManager_set_active
      MemtableManager_alloc snd]. rewrite lookup_insert, elem_of_app, Hq. case_decide as E.
    + intros [= <-] [Hf|[_ Hf]]; [pose proof (Hlt cf' new (or_intror Hf)); lia|pose proof (Hlt cf new (or_introl Hf)); lia].
    + intros Ha [Hf|[-> _]]; [by eapply H3|done].
  - unfold mm'. simpl. rewrite wrap_u_id by (unfold in_u; lia). lia.
Qed.

Lemma get_or_create_spec room mm cf t :
  1 <= room -> mm_inv room P mm -> P cf (Memtable_with_type (mm_next_id mm) t (mm_memtable_type mm)) ->
  let '(id, mm') := MemtableManager_get_or_create mm cf t in
  mm_inv (room - 1) P mm' /\ mm_active mm' !! cf = Some id /\ mm_flushing mm' = mm_flushing mm
  /\ forall cf' id' mt', mt_at mm' cf' id' mt'
     <-> mt_at mm cf' id' mt'
         \/ (mm_active mm !! cf = None /\ cf' = cf /\ id' = id
             /\ mt' = Memtable_with_type (mm_next_id mm) t (mm_memtable_type mm)).
Proof.
  intros Hr Hi HP. unfold MemtableManager_get_or_create. destruct (mm_active mm !! cf) as [id|] eqn:Ea.
  - split; [eapply mm_inv_weaken; [|done..]; lia|]. split_and!; [done..|]. clear. intuition congruence.
  - cbn [MemtableManager_alloc]. destruct (install_active room mm cf t [] Hr Hi HP) as [Hi' Hat]; [by rewrite Ea|done|].
    rewrite app_nil_r in Hi', Hat. split; [done|]. split; [apply lookup_insert_eq|]. split; [done|].
    intros cf' id' mt'. etrans; [apply Hat|]. clear. intuition.
Qed.
Lemma switch_spec room mm cf t :
  1 <= room -> mm_inv room P mm -> P cf (Memtable_with_type (mm_next_id mm) t (mm_memtable_type mm)) ->
  let '(old, mm') := MemtableManager_switch_memtable mm cf t in
  mm_inv (room - 1) P mm' /\ old = mm_active mm !! cf
  /\ mm_flushing mm' = mm_flushing mm ++ (match old with Some id => [(cf, id)] | None => [] end)
  /\ forall cf' id' mt', mt_at mm' cf' id' mt'
     <-> mt_at mm cf' id' mt' \/ (cf' = cf /\ id' = mm_next_id mm /\ mt' = Memtable_with_type (mm_next_id mm) t (mm_memtable_type mm)).
Proof.
  intros Hr Hi HP. unfold MemtableManager_switch_memtable. cbn [MemtableManager_alloc].
  destruct (install_active room mm cf t (match mm_active mm !! cf with Some id => [(cf, id)] | None => [] end) Hr Hi HP) as [Hi' Hat].
  - by intros id ->.
  - by intros ->.
  - destruct (mm_active mm !! cf) as [id|]; [|rewrite app_nil_r in Hi', Hat]; (split; [done|]); (split; [done|]); (split; [|done]);
      simpl; by rewrite ?app_nil_r.
Qed.
(** A write to the active memtable. *)
Lemma update_spec room mm cf id mt f :
  mm_inv room P mm -> mm_active mm !! cf = Some id -> mm_heap mm !! id = Some mt -> P cf (f mt) ->
  let mm' := MemtableManager_update mm id f in
  mm_inv room P mm' /\ mm_active mm' = mm_active mm /\ mm_flushing mm' = mm_flushing mm
  /\ forall cf' id' mt', mt_at mm' cf' id' mt'
     <-> (id' <> id /\ mt_at mm cf' id' mt') \/ (cf' = cf /\ id' = id /\ mt' = f mt).
Proof.
  intros [H1 H2 H3 H4] Ha Hh HP mm'.
  assert (Hrefs : forall cf' id', refs mm' cf' id' <-> refs mm cf' id') by done.
  assert (Hheap : forall id', mm_heap mm' !! id' = if decide (id = id') then Some (f mt) else mm_heap mm !! id').
  { intros id'. unfold mm'. cbn [mm_heap MemtableManager_update]. rewrite lookup_alter. case_decide; [|done]. subst id'. by rewrite Hh. }
  split.
  - split; [|done..]. intros cf' id' Hid. rewrite Hheap. destruct (H1 cf' id' Hid) as (mt' & Hm & HPm & Hlt).
    case_decide as E; [|by eauto]. subst id'. assert (cf = cf') as <- by (eapply H2; [by left|exact Hid]). by eauto.
  - split_and!; [done..|]. intros cf' id' mt'. unfold mt_at. rewrite Hrefs, Hheap. case_decide as E.
    + subst id'. rewrite (inj_iff Some). split.
      * intros [Hid <-]. right. split; [symmetry; eapply H2; [by left|exact Hid]|done].
      * intros [[? _]|(-> & _ & ->)]; [done|]. split; [by left|done].
    + split; [intros [Hid Hm]; left; by auto|]. intros [[_ [Hid Hm]]|(_ & -> & _)]; done.
Qed.
Lemma flush_complete_spec room mm cf id :
  mm_inv room P mm -> (cf, id) ∈ mm_flushing mm ->
  let mm' := MemtableManager_flush_complete mm id in
  mm_inv room P mm' /\ mm_active mm' = mm_active mm
  /\ forall cf' id' mt', mt_at mm' cf' id' mt' <-> mt_at mm cf' id' mt' /\ id' <> id.
Proof.
  intros [H1 H2 H3 H4] Hf mm'.
  assert (Hrefs : forall cf' id', refs mm' cf' id' <-> refs mm cf' id' /\ id' <> id).
  { intros cf' id'. unfold refs, mm'. cbn [mm_active mm_flushing MemtableManager_flush_complete MemtableManager_set_flushing].
    rewrite elem_of_filter_bool. cbn [snd]. rewrite negb_true_iff, Z.eqb_neq. split; [|naive_solver].
    intros [Ha|[Hin Hne]]; [|by auto]. split; [by left|]. intros ->.
    assert (cf' = cf) as -> by (eapply H2; [by left|by right]). by eapply H3. }
  split; [split|].
  - intros cf' id' [Hid _]%Hrefs. exact (H1 cf' id' Hid).
  - intros cf1 cf2 id' [Hi1 _]%Hrefs [Hi2 _]%Hrefs. by eapply H2.
  - intros cf' id' Ha. unfold mm'. cbn [mm_flushing MemtableManager_flush_complete MemtableManager_set_flushing].
    rewrite elem_of_filter_bool. intros [Hin _]. by eapply H3.
  - done.
  - split; [done|]. intros cf' id' mt'. unfold mt_at. rewrite Hrefs. change (mm_heap mm') with (mm_heap mm). clear. intuition.
Qed.
Lemma lowest_bound room mm lowest cf id mt :
  mm_inv room P mm -> MemtableManager_lowest_commitlog_bound mm = Some lowest -> mt_at mm cf id mt -> lowest <= commitlog_lower_bound mt.
Proof.
  assert (Hmin : forall l x z, x ∈ l -> min_of l = Some z -> z <= x).
  { intros [|y l] x z Hx; [by apply not_elem_of_nil in Hx|]. simpl. intros [= <-].
    assert (H : forall l y, foldl Z.min y l <= y /\ forall x, x ∈ l -> foldl Z.min y l <= x).
    { clear. induction l as [|w l IH]; intros y; simpl; [split; [lia|by intros x ?%not_elem_of_nil]|].
      destruct (IH (y `min` w)) as [H1 H2]. split; [lia|]. intros x [->|Hx]%elem_of_cons; [lia|by apply H2]. }
    destruct (H l y) as [H1 H2]. apply elem_of_cons in Hx as [->|Hx]; [done|by apply H2]. }
  assert (Hsome : forall l x, x ∈ l -> exists z, min_of l = Some z).
  { intros [|y l] x Hx; [by apply not_elem_of_nil in Hx|by eexists]. }
  intros Hi Hl [Hid Hm]. unfold MemtableManager_lowest_commitlog_bound in Hl.
  set (la := commitlog_lower_bound <$> MemtableManager_active_memtables mm) in Hl.
  set (lf := commitlog_lower_bound <$> omap _ (mm_flushing mm)) in Hl.
  assert (Hin : commitlog_lower_bound mt ∈ la \/ commitlog_lower_bound mt ∈ lf).
  { destruct Hid as [Ha|Hf]; [left|right]; apply list_elem_of_fmap_2.
    - unfold MemtableManager_active_memtables. apply list_elem_of_omap. exists id. split; [|done]. apply elem_of_values. by exists cf.
    - apply list_elem_of_omap. by exists (cf, id). }
  destruct Hin as [Hin|Hin]; destruct (Hsome _ _ Hin) as [z Hz]; rewrite Hz in Hl; pose proof (Hmin _ _ _ Hin Hz).
  - destruct (min_of lf); injection Hl as <-; lia.
  - destruct (min_of la); injection Hl as <-; lia.
Qed.
End Manager.

(** * Names *)

Definition dotless (s : string) : Prop := split_dot s = None.
Lemma split_cf_name ks tbl : dotless ks -> split_dot (cf_name_of ks tbl) = Some (ks, tbl).
Proof.
  unfold dotless, cf_name_of. induction ks as [|c ks IH]; [done|].
  change (String c ks +:+ "." +:+ tbl) with (String c (ks +:+ "." +:+ tbl)). cbn [split_dot].
  destruct (Ascii.eqb c _); [done|]. intros Hd. destruct (split_dot ks) eqn:E; [done|]. by rewrite IH.
Qed.
Lemma cf_parts_of ks tbl : dotless ks -> cf_parts (cf_name_of ks tbl) = (ks, tbl).
Proof. intros Hd. unfold cf_parts. by rewrite split_cf_name. Qed.
Lemma cf_name_inj ks tbl ks' tbl' : dotless ks -> dotless ks' -> cf_name_of ks tbl = cf_name_of ks' tbl' -> ks = ks' /\ tbl = tbl'.
Proof. intros H1 H2 E. apply (f_equal cf_parts) in E. rewrite !cf_parts_of in E by done. by injection E. Qed.

(** * Tables *)

Section Tables.
Context {H : Type} `{SSTables H} (W : string -> History) (HW : forall cf, hist_ok (W cf)).

Record sst_holds (h : H) (l : PartitionVec) : Prop := {
  sh_get k : sst_get_partition h k = inr (lookup_list k l);
  sh_might k : k ∈ l.*1 -> sst_might_contain_key h k = true;
  sh_iter : sst_iter_partitions h = inr l;
}.
Definition h_view (h : H) : DbView := match sst_iter_partitions h with inr l => db_of (insert_all ∅ l) | inl _ => ∅ end.
Lemma h_view_of h s : sst_holds h (entries s) -> h_view h = db_of s.
Proof. intros [_ _ Hi]. unfold h_view. by rewrite Hi, insert_all_entries. Qed.

Record handle_good (h : H) (s : Partitions) : Prop := {
  hg_holds : sst_holds h (entries s);
  hg_db : db_wf s;
  hg_in : db_in (W (sst_cf_name h)) (db_of s);
  hg_name : dotless (sst_keyspace h);
}.
Definition good (h : H) : Prop := exists s, handle_good h s.
Lemma good_in h : good h -> db_in (W (sst_cf_name h)) (h_view h).
Proof. intros [s [Hh _ Hi _]]. by rewrite (h_view_of h s Hh). Qed.
Lemma belongs_cf ks tbl h : dotless ks -> good h -> sst_belongs_to ks tbl h = true <-> sst_cf_name h = cf_name_of ks tbl.
Proof.
  intros Hd [s [_ _ _ Hn]]. unfold sst_belongs_to, sst_cf_name. rewrite andb_true_iff, !String.eqb_eq. split; [by intros [-> ->]|].
  intros E. by apply cf_name_inj.
Qed.

(** ** Reading *)

Lemma read_step_view pk o h :
  good h -> (forall p, o = Some p -> p_wf p) ->
  (forall p, read_step pk o h = Some p -> p_wf p)
  /\ pview <$> read_step pk o h = merge_opt pview_join (pview <$> o) (h_view h !! pk).
Proof.
  intros [s [Hh Hd _ _]] Ho. rewrite (h_view_of h s Hh). unfold read_step, db_of. rewrite lookup_fmap.
  assert (Hs : s !! pk = lookup_list pk (entries s)) by done.
  destruct (sst_might_contain_key h pk) eqn:Em.
  - rewrite (sh_get _ _ Hh pk), <- Hs. destruct (s !! pk) as [p|] eqn:Ep; simpl; [|split; [done|by destruct o]].
    assert (Hp : p_wf p) by by eapply Hd. destruct o as [q|]; simpl; [|split; [by intros p' [= <-]|done]].
    destruct (absorb_view q p (Ho q eq_refl) Hp) as [H1 H2]. split; [by intros p' [= <-]|by rewrite H2].
  - split; [done|]. destruct (s !! pk) as [p|] eqn:Ep; [|by destruct o]. exfalso.
    rewrite (sh_might _ _ Hh pk) in Em; [done|]. apply list_elem_of_fmap. exists (pk, p). split; [done|]. by apply ordmap_elem.
Qed.
Lemma read_fold_view pk hs o v :
  Forall good hs -> (forall p, o = Some p -> p_wf p) -> pview <$> o = v !! pk ->
  (forall p, foldl (read_step pk) o hs = Some p -> p_wf p)
  /\ pview <$> foldl (read_step pk) o hs = foldl db_join v (h_view <$> hs) !! pk.
Proof.
  intros Hhs. revert o v. induction Hhs as [|h hs Hh _ IH]; intros o v Ho Hv; [done|].
  destruct (read_step_view pk o h Hh Ho) as [H1 H2]. rewrite fmap_cons. cbn [foldl]. apply IH; [done|].
  rewrite H2, Hv. unfold db_join. by rewrite lookup_merge_loop.
Qed.

(** ** Batches *)

Lemma keys_sorted_app {A} (l k : list (list Z * A)) : keys_sorted (l ++ k) = true -> keys_sorted l = true /\ keys_sorted k = true.
Proof.
  induction l as [|e l IH]; [done|]. rewrite <- app_comm_cons, !keys_sorted_cons. intros [Ha Hs].
  destruct (IH Hs) as [H1 H2]. split; [|done]. split; [|done]. intros q Hq. apply Ha, elem_of_app. by left.
Qed.
Lemma batches_split (bs : list PartitionVec) (out : Partitions) :
  mjoin bs = entries out -> exists ss : list Partitions, bs = entries <$> ss /\ forall k p, out !! k = Some p <-> exists s, s ∈ ss /\ s !! k = Some p.
Proof.
  intros Hj. assert (Hs : Forall (fun b => keys_sorted b = true) bs).
  { pose proof (sorted_of out) as Hso. rewrite <- Hj in Hso. clear Hj. induction bs as [|b bs IH]; [constructor|].
    apply keys_sorted_app in Hso as [H1 H2]. constructor; [done|by apply IH]. }
  assert (Hss : exists ss : list Partitions, bs = entries <$> ss).
  { clear Hj. induction Hs as [|b bs Hb _ (ss & ->)]; [by exists []|]. by exists (mk b Hb :: ss). }
  destruct Hss as [ss ->]. exists ss. split; [done|]. intros k p. rewrite ordmap_elem, <- Hj. clear. split.
  - induction ss as [|s ss IH]; [by intros ?%not_elem_of_nil|]. rewrite fmap_cons, mjoin_cons, elem_of_app.
    intros [Hin|Hin]; [exists s; split; [left|by apply ordmap_elem]|]. destruct (IH Hin) as (s' & ? & ?). exists s'. split; [by right|done].
  - intros (s & Hin & Hl). apply ordmap_elem in Hl. induction Hin as [ss|s' ss Hin IH]; rewrite fmap_cons, mjoin_cons, elem_of_app; auto.
Qed.
Lemma batches_view W0 (HW0 : hist_ok W0) (ss : list Partitions) (out : Partitions) :
  db_in W0 (db_of out) -> (forall k p, out !! k = Some p <-> exists s, s ∈ ss /\ s !! k = Some p) ->
  Forall (fun s => db_in W0 (db_of s)) ss /\ db_sup (db_of <$> ss) = db_of out.
Proof.
  intros Hin Hout.
  assert (Hss : Forall (fun s => db_in W0 (db_of s)) ss).
  { apply Forall_forall. intros s Hs k v. unfold db_of. rewrite lookup_fmap. destruct (s !! k) as [p|] eqn:E; [|done].
    intros [= <-]. apply Hin. unfold db_of. rewrite lookup_fmap, (proj2 (Hout k p)); [done|by exists s]. }
  split; [done|]. apply (db_sup_eq W0 HW0); [by apply Forall_fmap|done| |].
  - intros v (s & -> & Hs)%list_elem_of_fmap. apply db_below_lookup. intros k. unfold db_of. rewrite !lookup_fmap.
    destruct (s !! k) as [p|] eqn:E; simpl; [|by destruct (out !! k)].
    assert (Ho : out !! k = Some p) by (apply Hout; by exists s). rewrite Ho. simpl. f_equal.
    apply (sl_idem (Semilattice := pview_semilattice W0 HW0 k)). apply Hin. unfold db_of. by rewrite lookup_fmap, Ho.
  - apply db_below_lookup. intros k. destruct (db_of out !! k) as [v|] eqn:E; [|by destruct (db_sup _ !! k)].
    unfold db_of in E. rewrite lookup_fmap in E. destruct (out !! k) as [p|] eqn:Ep; [|done]. apply (inj Some) in E as <-.
    apply Hout in Ep as (s & Hs & Hl).
    assert (Hb : db_below (db_of s) (db_sup (db_of <$> ss))).
    { apply (db_sup_upper W0 HW0); [by apply Forall_fmap|]. by apply list_elem_of_fmap_2. }
    rewrite db_below_lookup in Hb. specialize (Hb k). unfold db_of in Hb at 1. by rewrite lookup_fmap, Hl in Hb.
Qed.
End Tables.

(** ** Writing tables *)

Class SSTablesLaws (H : Type) `{SSTables H} (fits : PartitionVec -> Prop) :=
  sst_write_ok keyspace table generation l : fits l -> exists h : H, sst_write keyspace table generation l = inr h
    /\ sst_keyspace h = keyspace /\ sst_table h = table /\ sst_generation h = generation /\ sst_holds h l.

Section Writing.
Context {H : Type} `{SSTables H} {L : Type} (fits : PartitionVec -> Prop) `{!SSTablesLaws H fits}.
Context (W : string -> History) (HW : forall cf, hist_ok (W cf)).
Abbreviation Engine := (Engine H L).

(** New tables, at the end of the directory. *)
Definition with_new (hs : list H) (self : Engine) : Engine :=
  mkEngine (eng_log self) (eng_memtables self) (eng_sstables self) (eng_next_generation self + Z.of_nat (length hs))
    (eng_row_cache self) (eng_disk self ++ hs).
Definition gens (first : Z) (n : nat) : list Z := (fun i => first + Z.of_nat i) <$> seq 0 n.
Lemma gens_cons first n : gens first (S n) = first :: gens (first + 1) n.
Proof.
  unfold gens. rewrite <- cons_seq, fmap_cons. f_equal; [lia|]. rewrite <- fmap_S_seq, <- list_fmap_compose.
  apply list_fmap_ext. intros i x _. simpl. lia.
Qed.

Lemma write_table_spec ks tbl l (self : Engine) :
  fits l -> 0 <= eng_next_generation self -> eng_next_generation self + 1 < 2 ^ 64 ->
  exists h, write_table ks tbl l self = (inr h, with_new [h] self)
    /\ sst_keyspace h = ks /\ sst_table h = tbl /\ sst_generation h = eng_next_generation self /\ sst_holds h l.
Proof.
  intros Hf Hpos Hg. destruct (sst_write_ok ks tbl (eng_next_generation self) l Hf) as (h & E & Hh). exists h. split; [|done].
  unfold write_table. rewrite E, wrap_u_id by (unfold in_u; lia). done.
Qed.
Lemma write_batches_spec ks tbl bs (self : Engine) :
  Forall fits bs -> 0 <= eng_next_generation self -> eng_next_generation self + Z.of_nat (length bs) < 2 ^ 64 ->
  exists hs, write_batches ks tbl bs self = (inr hs, with_new hs self)
    /\ sst_generation <$> hs = gens (eng_next_generation self) (length bs)
    /\ Forall2 (fun b h => sst_keyspace h = ks /\ sst_table h = tbl /\ sst_holds h b) bs hs.
Proof.
  intros Hf. revert self. induction Hf as [|b bs Hb _ IH]; intros self Hpos Hg.
  - exists []. split; [|by split]. unfold with_new. rewrite app_nil_r, Z.add_0_r. by destruct self.
  - cbn [length] in Hg. destruct (write_table_spec ks tbl b self Hb Hpos ltac:(lia)) as (h & E & Hk & Ht & Hgen & Hh).
    destruct (IH (with_new [h] self)) as (hs & E' & Hgs & Hall); [simpl; lia..|].
    exists (h :: hs). cbn [write_batches]. rewrite E, E'. split_and!.
    + unfold with_new. cbn [eng_log eng_memtables eng_sstables eng_next_generation eng_row_cache eng_disk length].
      rewrite <- app_assoc. do 2 f_equal. lia.
    + rewrite fmap_cons, Hgs, Hgen. cbn [length]. rewrite gens_cons. done.
    + by constructor.
Qed.

(** ** Compaction of a group *)

Context (config : EngineConfig).
Abbreviation group_of ids self := (List.filter (in_group ids) (eng_sstables self)).
Definition compaction_writes (now : Z) (ids : list Z) (self : Engine) : list PartitionVec :=
  match read_sources (group_of ids self) with
  | inr sources => split_compaction_output (merge_partitions sources (ec_gc_grace_seconds config) now) (ec_output_max_size config)
  | inl _ => []
  end.
Definition group_fresh (now : Z) (ids : list Z) (self : Engine) : Prop :=
  forall h s, h ∈ group_of ids self -> sst_holds h (entries s) ->
    db_fresh (wrap_s 32 (now - ec_gc_grace_seconds config)) now s.

Lemma sources_read hs :
  Forall (good W) hs -> exists ss, read_sources hs = inr (entries <$> ss) /\ Forall2 (handle_good W) hs ss.
Proof.
  induction 1 as [|h hs [s Hs] _ (ss & E & Hss)]; [by exists []|]. exists (s :: ss). split; [|by constructor].
  cbn [read_sources]. by rewrite (sh_iter _ _ (hg_holds _ _ _ Hs)), E.
Qed.

(** The tables of the group are replaced by tables that hold the same. *)
Lemma compact_group_spec now ids (self : Engine) ks tbl :
  Forall (good W) (eng_sstables self) -> dotless ks ->
  (forall h, h ∈ group_of ids self -> sst_keyspace h = ks /\ sst_table h = tbl) -> group_fresh now ids self ->
  Forall fits (compaction_writes now ids self) -> 0 <= eng_next_generation self ->
  eng_next_generation self + Z.of_nat (length (compaction_writes now ids self)) < 2 ^ 64 ->
  exists new, compact_group config now ids self
      = (inr (), set_sstables (List.filter (fun h => negb (in_group ids h)) (eng_sstables self) ++ new) (with_new new self))
    /\ Forall (good W) new /\ (forall h, h ∈ new -> sst_keyspace h = ks /\ sst_table h = tbl)
    /\ sst_generation <$> new = gens (eng_next_generation self) (length new)
    /\ eng_next_generation self + Z.of_nat (length new) < 2 ^ 64 /\ db_sup (h_view <$> new) = db_sup (h_view <$> group_of ids self).
Proof.
  intros Hgood Hdot Hnames Hfresh Hfits Hpos Hgen.
  assert (Hnil : forall e : Engine, with_new [] e = e)
    by (intros []; unfold with_new; simpl; by rewrite app_nil_r, Z.add_0_r).
  assert (Hg : Forall (good W) (group_of ids self)).
  { apply Forall_forall. intros h [Hh _]%elem_of_filter_bool. by eapply Forall_forall. }
  destruct (sources_read _ Hg) as (ss & Esrc & Hss). unfold compaction_writes in Hfits, Hgen. rewrite Esrc in Hfits, Hgen.
  set (cf := cf_name_of ks tbl).
  assert (Hdb : Forall db_wf ss /\ Forall (db_fresh (wrap_s 32 (now - ec_gc_grace_seconds config)) now) ss
    /\ Forall (fun s => db_in (W cf) (db_of s)) ss).
  { assert (Hall : Forall (fun s => db_wf s /\ db_fresh (wrap_s 32 (now - ec_gc_grace_seconds config)) now s /\ db_in (W cf) (db_of s)) ss).
    { eapply Forall2_Forall_r; [exact Hss|]. apply Forall_forall. intros h Hh s [Hho Hd Hi _].
      split; [done|]. split; [by eapply Hfresh|]. destruct (Hnames h Hh) as [E1 E2]. unfold sst_cf_name in Hi. by rewrite E1, E2 in Hi. }
    split_and!; (eapply Forall_impl; [exact Hall|]); simpl; tauto. }
  destruct Hdb as (Hwf & Hfr & Hin).
  set (out := merge_tables (entries <$> ss)).
  rewrite (merge_partitions_fresh ss _ now Hwf Hfr) in Hfits, Hgen. fold out in Hfits, Hgen.
  destruct (merge_tables_view ss Hwf) as [Hout Hview]. fold out in Hout, Hview.
  assert (Hsup : db_of out = db_sup (h_view <$> group_of ids self)).
  { rewrite Hview. unfold db_sup. f_equal. clear - Hss. induction Hss as [|h s hs ss Hs _ IH]; [done|].
    rewrite !fmap_cons, IH. f_equal. symmetry. apply h_view_of, Hs. }
  assert (Hino : db_in (W cf) (db_of out)).
  { rewrite Hview. apply (dom_sup (W cf) (HW cf)). by apply Forall_fmap. }
  unfold compact_group. destruct (group_of ids self) as [|first group] eqn:Egrp.
  { exists []. rewrite Hnil. split_and!; [|apply List.Forall_nil|by intros h ?%not_elem_of_nil|done|simpl; lia|done].
    unfold set_sstables. rewrite app_nil_r, filter_all; [by destruct self|].
    apply Forall_forall. intros h Hh. apply negb_true_iff. destruct (in_group ids h) eqn:E; [|done].
    assert (Hf : h ∈ group_of ids self) by by apply elem_of_filter_bool. rewrite Egrp in Hf. by apply not_elem_of_nil in Hf. }
  rewrite Esrc, (merge_partitions_fresh ss _ now Hwf Hfr). fold out. destruct (Hnames first ltac:(left)) as [-> ->].
  destruct (batches_split _ out (split_output_join (entries out) (ec_output_max_size config))) as (bs & Ebs & Hbs).
  destruct (batches_view (W cf) (HW cf) bs out Hino Hbs) as [Hbin Hbview].
  destruct (write_batches_spec ks tbl _ self Hfits Hpos Hgen) as (new & Ew & Hgens & Hall).
  rewrite Ebs in Hall, Hgens. rewrite length_fmap in Hgens. rewrite Forall2_fmap_l in Hall.
  assert (Hlen : length new = length bs) by (symmetry; by eapply Forall2_length).
  exists new. split_and!.
  - destruct (entries out) as [|e l] eqn:Eo; [|by rewrite Ew].
    assert (bs = []) as ->.
    { apply (f_equal length) in Ebs. rewrite length_fmap in Ebs. destruct bs; [done|]. exfalso.
      destruct (ec_output_max_size config) as [z|]; simpl in Ebs; [case_match|]; done. }
    destruct new; [|done]. rewrite Hnil, app_nil_r. done.
  - eapply Forall2_Forall_r; [exact Hall|]. eapply Forall_impl; [|intros s Hs; exact Hs].
    apply Forall_forall. intros s Hs h (Hk & Ht & Hh). exists s. split; [done| | |by rewrite Hk].
    + intros k p Hl. apply (Hout k). apply Hbs. by exists s.
    + unfold sst_cf_name. rewrite Hk, Ht. by eapply (proj1 (Forall_forall _ _) Hbin).
  - intros h Hh. apply list_elem_of_lookup_1 in Hh as [i Hi]. destruct (Forall2_lookup_r _ _ _ _ _ Hall Hi) as (s & _ & Hk & Ht & _). done.
  - by rewrite Hgens, Hlen.
  - rewrite Hlen. rewrite Ebs, length_fmap in Hgen. done.
  - rewrite <- Hsup, <- Hbview. f_equal. clear - Hall. induction Hall as [|s h bs new (_ & _ & Hh) _ IH]; [done|].
    rewrite !fmap_cons, IH. f_equal. by apply h_view_of.
Qed.
End Writing.
