(* ===== verification/BigTables.v ===== *)
(** * Tables in the Big format

    The engine of [Engine] is proved against the interface [SSTables]; here the
    writer and the reader of [SSTable] (crates/cassandra-storage/src/sstable)
    implement it, and its laws follow from what is read back of a file.  The
    shared key cache is any set of keys whose offsets it holds. *)
From S2P Require Export EngineViews.

Section Big.
Context (bits_of : nat -> Z) (hashes_of : Z -> nat -> Z) (crc32 : list Z -> Z).
Context (json_stats : list Z -> option SSTableStats) (in_key_cache : list Z -> bool).

Record BigHandle := mkBigHandle { bh_reader : SSTableReader; bh_data : list Z }.

Definition big_get_partition (h : BigHandle) (key : list Z) : IoError + option PartitionData :=
  let cached := if in_key_cache key then index_offset (bh_reader h) key else None in
  match SSTableReader_get_partition (bh_reader h) (bh_data h) cached key with
  | inl e => inl e
  | inr (partition, _) => inr partition
  end.
(** The writer of a flush or of a compaction, and the reader opened on its files. *)
Definition big_write (keyspace table : string) (generation : Z) (partitions : PartitionVec) : IoError + BigHandle :=
  let descriptor := mkSSTableDescriptor keyspace table generation FormatBig in
  let '(files, _) := SSTableWriter_write bits_of hashes_of crc32 write_partition_body descriptor partitions in
  match SSTableReader_open json_stats descriptor files with
  | inl e => inl e
  | inr reader => inr (mkBigHandle reader (data_db files))
  end.
#[export] Instance big_tables : SSTables BigHandle := {|
  sst_keyspace h := sd_keyspace (sr_descriptor (bh_reader h));
  sst_table h := sd_table (sr_descriptor (bh_reader h));
  sst_generation h := sd_generation (sr_descriptor (bh_reader h));
  sst_stats h := sr_stats (bh_reader h);
  sst_might_contain_key h := SSTableReader_might_contain_key (bh_reader h);
  sst_get_partition := big_get_partition;
  sst_iter_partitions h := SSTableReader_iter_partitions (bh_data h);
  sst_write := big_write;
|}.

(** Lists that a table can hold and a scan can read back. *)
Definition big_fits (l : PartitionVec) : Prop :=
  Forall (fun e => e.1 <> []) l /\ forall descriptor, sstable_input bits_of hashes_of crc32 descriptor l.

#[export] Instance big_laws : SSTablesLaws BigHandle big_fits.
Proof.
  intros ks tbl generation l [Hne Hin]. set (d := mkSSTableDescriptor ks tbl generation FormatBig). specialize (Hin d).
  set (r := written_reader bits_of hashes_of crc32 d l). set (files := (write_sstable bits_of hashes_of crc32 d l).1).
  exists (mkBigHandle r (data_db files)). split; [|split_and!; try done].
  - cbn [sst_write big_tables]. unfold big_write. fold d. rewrite (surjective_pairing (SSTableWriter_write _ _ _ _ _ _)).
    change (SSTableWriter_write _ _ _ _ _ _) with (write_sstable bits_of hashes_of crc32 d l). by rewrite open_written.
  - split; cbn [sst_get_partition sst_might_contain_key sst_iter_partitions big_tables bh_reader bh_data].
    + intros k. unfold big_get_partition. cbn [bh_reader bh_data].
      destruct (get_written bits_of hashes_of crc32 d l Hin k (if in_key_cache k then index_offset r k else None)) as (put & E & _);
        [destruct (in_key_cache k); auto|]. fold r in E. unfold files. by rewrite E.
    + intros k Hk. by apply might_contain_written.
    + by apply iter_written.
Qed.

(** The conditions are decidable, and do not depend on the name of the table. *)
#[local] Instance on_some_dec {A} (o : option A) (P : A -> Prop) `{forall x, Decision (P x)} : Decision (forall x, o = Some x -> P x).
Proof.
  refine (match o with Some x => cast_if (decide (P x)) | None => left _ end); abstract naive_solver.
Defined.
#[local] Instance in_u_dec w z : Decision (in_u w z) := and_dec _ _.
#[local] Instance in_s_dec w z : Decision (in_s w z) := and_dec _ _.
#[local] Instance cell_ok_dec c : Decision (cell_ok c).
Proof. unfold cell_ok. apply _. Defined.
#[local] Instance row_ok_dec r : Decision (row_ok r).
Proof. unfold row_ok. apply _. Defined.
#[local] Instance deletion_ok_dec d : Decision (deletion_ok d).
Proof. unfold deletion_ok. apply _. Defined.
#[local] Instance item_ok_dec i : Decision (item_ok i).
Proof. destruct i as [r|d|[b d|b d|b c o]]; unfold item_ok, marker_ok; apply _. Defined.
#[local] Instance partition_ok_dec p : Decision (partition_ok p).
Proof.
  refine (cast_if (decide (rows_keyed p /\ (is_Some (tombstone_timestamp p) -> is_Some (tombstone_local_deletion_time p))
    /\ (is_Some (tombstone_local_deletion_time p) -> is_Some (tombstone_timestamp p)) /\ Forall item_ok (partition_items p)))).
  - abstract (destruct_and?; by split; [|split|]).
  - abstract (intros [H1 [H2 H3] H4]; auto).
Defined.

Definition big_check (l : PartitionVec) : bool :=
  let files := (write_sstable bits_of hashes_of crc32 (mkSSTableDescriptor "" "" 0 FormatBig) l).1 in
  bool_decide (Forall (fun e => e.1 <> []) l) && keys_sorted l && bool_decide (Forall (fun e => partition_ok e.2) l)
  && bool_decide (Forall (fun e => in_u 32 (Z.of_nat (length e.1))) l) && (Z.of_nat (length (data_db files)) <? 2 ^ 64)
  && (Z.of_nat (length (index_db files)) <? 2 ^ 64) && (optimal_num_bits bits_of (Nat.max (length l) 1) <? 2 ^ 37).
Lemma big_checked l : big_check l = true -> big_fits l.
Proof.
  unfold big_check. rewrite !andb_true_iff, !bool_decide_eq_true, !Z.ltb_lt. intros ((((((H1 & H2) & H3) & H4) & H5) & H6) & H7).
  split; [done|]. by intros d.
Qed.
End Big.
