(* ===== verification/EngineCorrect.v ===== *)
(** * The engine keeps what was written

    Runs of the engine of [Engine]: writes, syncs, reads, flushes in two steps,
    compactions and crashes.  An invariant relates the memtables, the tables, the
    commit log and the row cache to the mutations that were acknowledged; every
    step preserves it. *)
From S2P Require Export EngineViews.

#[local] Arguments mutation_updates : simpl never.
#[local] Arguments CommitLog_append : simpl never.
#[local] Arguments CommitLog_discard_completed_segments : simpl never.
#[local] Arguments cf_name_of : simpl never.

Definition mutation_view (m : Mutation) : DbView := updates_view (mu_partition_key m) (mutation_updates m).
(** A mutation the recovery can apply in full. *)
Definition rows_only (m : Mutation) : Prop :=
  mu_static_cells m = [] /\ mu_partition_tombstone m = None /\ mu_range_tombstones m = [].

(** The engine as one map that is never flushed. *)
Definition spec_update (pk : list Z) (db : Partitions) (u : Update) : Partitions :=
  match u with
  | URow row => spec_apply db pk row
  | UTombstone ts ldt => spec_set_partition_tombstone db pk ts ldt
  end.
Definition spec_mutation (db : Partitions) (m : Mutation) : Partitions := foldl (spec_update (mu_partition_key m)) db (mutation_updates m).
Definition of_table (cf : string) (ms : list Mutation) : list Mutation := List.filter (fun m => String.eqb (mutation_cf m) cf) ms.
Definition reference (ms : list Mutation) (cf : string) : Partitions := foldl spec_mutation ∅ (of_table cf ms).

Inductive EngineOp :=
| EWrite (m : Mutation)
| ESync
| ERead (keyspace table : string) (pk : list Z)
| EFlushBegin (cf_name : string)
| EFlushEnd (cf_name : string) (id : Z)
| EFlush (cf_name : string)
| ECompact (clock : list Z -> Z) (order : list string)
| ECrash (tails : gmap Z (list Z)) (policy : CorruptionPolicy) (cache : option nat).
Definition crash_free (ops : list EngineOp) : Prop := Forall (fun op => match op with ECrash _ _ _ => False | _ => True end) ops.

(** The cells and deletions of the mutations of a table. *)
Definition updated_row (m : Mutation) (row : Row) : Prop := URow row ∈ mutation_updates m.
Definition history (ms : list Mutation) (cf : string) : History := {|
  hist_cell pk ck c := exists m row, m ∈ ms /\ mutation_cf m = cf /\ mu_partition_key m = pk
    /\ updated_row m row /\ Row_clustering_key row = ck /\ c ∈ Row_cells row;
  hist_tomb pk t := exists m, m ∈ ms /\ mutation_cf m = cf /\ mu_partition_key m = pk /\ UTombstone t.1 t.2 ∈ mutation_updates m;
|}.
Definition mutation_wf (m : Mutation) : Prop := dotless (mu_keyspace m) /\ Forall update_wf (mutation_updates m).

Lemma update_in_history ms m u :
  m ∈ ms -> u ∈ mutation_updates m -> update_wf u -> db_in (history ms (mutation_cf m)) (update_view (mu_partition_key m) u).
Proof.
  intros Hm Hu Hw k v Hv. unfold update_view in Hv. apply lookup_singleton_Some in Hv as [<- <-]. destruct u as [row|ts ldt]; split.
  - intros ck r Hr. cbn [fst] in Hr. apply lookup_singleton_Some in Hr as [<- <-]. split; [done|]. intros col c Hc.
    unfold row_view in Hc. cbn [snd] in Hc. rewrite lookup_cells_view in Hc by done.
    apply List.find_some in Hc as [Hc E%String.eqb_eq]. split; [done|]. exists m, row. rewrite <- list_elem_of_In in Hc. done.
  - done.
  - intros ck r Hr. cbn [fst] in Hr. by rewrite lookup_empty in Hr.
  - intros a Ha. apply (inj Some) in Ha as <-. by exists m.
Qed.

(** * The parts of an engine *)

Section Parts.
Context {H : Type} `{SSTables H} {L : Type} (W : string -> History) (HW : forall cf, hist_ok (W cf)).
Context (tables : list (string * string)).
Abbreviation Engine := (Engine H L).
#[local] Hint Resolve HW : core.

Definition known (cf : string) : Prop := exists ks tbl, (ks, tbl) ∈ tables /\ cf = cf_name_of ks tbl.
Definition mt_ok (cur : Z) (cf : string) (mt : Memtable) : Prop :=
  known cf /\ mt_good (W cf) mt /\ 0 <= commitlog_lower_bound mt <= cur.

Definition mems (mm : MemtableManager) (cf : string) : list Memtable :=
  option_list (mm_active mm !! cf ≫= (fun id => mm_heap mm !! id))
  ++ omap (fun e => if String.eqb e.1 cf then mm_heap mm !! e.2 else None) (mm_flushing mm).
Definition tables_of (self : Engine) (cf : string) : list H := List.filter (fun h => String.eqb (sst_cf_name h) cf) (eng_sstables self).
Definition tview (self : Engine) (cf : string) : DbView := db_sup (h_view <$> tables_of self cf).
(** All an engine holds of a table. *)
Definition total (self : Engine) (cf : string) : DbView :=
  db_sup ((mt_view <$> mems (eng_memtables self) cf) ++ (h_view <$> tables_of self cf)).

Lemma elem_of_mems mm cf mt : mt ∈ mems mm cf <-> exists id, mt_at mm cf id mt.
Proof.
  unfold mems, mt_at, refs. rewrite elem_of_app, list_elem_of_omap. split.
  - intros [Ha|([cf' id] & Hf & Hm)].
    + destruct (mm_active mm !! cf) as [id|] eqn:Ea; [|by apply not_elem_of_nil in Ha]. simpl in Ha.
      destruct (mm_heap mm !! id) eqn:Em; [|by apply not_elem_of_nil in Ha]. apply list_elem_of_singleton in Ha as ->. eauto.
    + cbn [fst snd] in Hm. destruct (String.eqb_spec cf' cf) as [->|]; [|done]. eauto.
  - intros (id & [Ha|Hf] & Hm); [left; rewrite Ha; simpl; rewrite Hm; left|right].
    exists (cf, id). split; [done|]. cbn [fst snd]. by rewrite String.eqb_refl.
Qed.

Record parts_ok (room cur : Z) (self : Engine) : Prop := {
  pk_mm : mm_inv room (mt_ok cur) (eng_memtables self);
  pk_good : Forall (good W) (eng_sstables self);
}.
Section Facts.
Context (room cur : Z) (self : Engine) (Hok : parts_ok room cur self).

Lemma at_ok cf id mt : mt_at (eng_memtables self) cf id mt -> mt_ok cur cf mt.
Proof. intros [Hr Hm]. destruct (mi_ref _ _ _ (pk_mm _ _ _ Hok) cf id Hr) as (mt' & Hm' & HP & _). by simplify_eq. Qed.
Lemma table_ok cf h : h ∈ tables_of self cf -> good W h /\ sst_cf_name h = cf.
Proof.
  intros [Hh E%String.eqb_eq]%elem_of_filter_bool. split; [|done]. by apply (proj1 (Forall_forall _ _) (pk_good _ _ _ Hok)).
Qed.
Lemma tables_dom cf : Forall (db_in (W cf)) (h_view <$> tables_of self cf).
Proof. apply Forall_fmap, Forall_forall. intros h Hh. destruct (table_ok cf h Hh) as [Hg <-]. by apply good_in. Qed.
Lemma mems_dom cf : Forall (db_in (W cf)) (mt_view <$> mems (eng_memtables self) cf).
Proof. apply Forall_fmap, Forall_forall. intros mt [id Hm]%elem_of_mems. by destruct (at_ok cf id mt Hm) as (_ & [_ _ ?] & _). Qed.
Lemma parts_dom cf : Forall (db_in (W cf)) ((mt_view <$> mems (eng_memtables self) cf) ++ (h_view <$> tables_of self cf)).
Proof. apply Forall_app. split; [apply mems_dom|apply tables_dom]. Qed.
Lemma total_dom cf : db_in (W cf) (total self cf).
Proof. apply (dom_sup (W cf)); [done|apply parts_dom]. Qed.
Lemma tview_dom cf : db_in (W cf) (tview self cf).
Proof. apply (dom_sup (W cf)); [done|apply tables_dom]. Qed.
Lemma mem_total cf id mt : mt_at (eng_memtables self) cf id mt -> db_below (mt_view mt) (total self cf).
Proof.
  intros Hm. apply (db_sup_upper (W cf)); [done|apply parts_dom|]. apply elem_of_app. left. apply list_elem_of_fmap_2, elem_of_mems. by exists id.
Qed.
Lemma table_total cf h : h ∈ tables_of self cf -> db_below (h_view h) (total self cf).
Proof. intros Hh. apply (db_sup_upper (W cf)); [done|apply parts_dom|]. apply elem_of_app. right. by apply list_elem_of_fmap_2. Qed.
Lemma table_tview cf h : h ∈ tables_of self cf -> db_below (h_view h) (tview self cf).
Proof. intros Hh. apply (db_sup_upper (W cf)); [done|apply tables_dom|by apply list_elem_of_fmap_2]. Qed.
Lemma tview_below cf w : db_in (W cf) w -> (forall h, h ∈ tables_of self cf -> db_below (h_view h) w) -> db_below (tview self cf) w.
Proof.
  intros Hw Hh. apply (db_sup_below (W cf)); [done|apply tables_dom|done|]. intros v (h & -> & Hin)%list_elem_of_fmap. by apply Hh.
Qed.
Lemma tview_total cf : db_below (tview self cf) (total self cf).
Proof. apply tview_below; [apply total_dom|apply table_total]. Qed.
Lemma total_below cf w :
  db_in (W cf) w -> (forall id mt, mt_at (eng_memtables self) cf id mt -> db_below (mt_view mt) w) ->
  db_below (tview self cf) w -> db_below (total self cf) w.
Proof.
  intros Hw Hm Ht. apply (db_sup_below (W cf)); [done|apply parts_dom|done|].
  intros v [(mt & -> & [id Hin]%elem_of_mems)%list_elem_of_fmap|(h & -> & Hin)%list_elem_of_fmap]%elem_of_app; [by eapply Hm|].
  eapply (db_trans (W cf)); [done| |apply tview_dom|done|by apply table_tview|done].
  destruct (table_ok cf h Hin) as [Hg <-]. by apply good_in.
Qed.
Lemma mt_dom cf id mt : mt_at (eng_memtables self) cf id mt -> db_in (W cf) (mt_view mt).
Proof. intros Hm. by destruct (at_ok cf id mt Hm) as (_ & [_ _ ?] & _). Qed.
End Facts.
End Parts.

(** * Runs *)

Record Ghost := mkGhost {
  (** The mutations that can be counted on, as in [Ledger]; those of discarded
      segments stay. *)
  gh_ledger : Ledger;
  (** Every mutation the log ever took. *)
  gh_all : list Mutation;
}.
Definition led_all (E : Ledger) : list (Z * Mutation) := led_durable E ++ led_volatile E.

Section Correct.
Context (compress_prepend_size : list Z -> list Z) (decompress_size_prepended : list Z -> option (list Z))
  (crc32 : list Z -> Z) (to_vec : Mutation -> option (list Z)) (from_slice : list Z -> option Mutation).
Context (config : EngineConfig).
Abbreviation lconfig := (ec_commitlog config).
Context (HLL : LogLaws compress_prepend_size decompress_size_prepended crc32 to_vec from_slice lconfig).
Context {H : Type} `{Isst : SSTables H} (tfits : PartitionVec -> Prop) `{Isstl : !SSTablesLaws H tfits}.
Context {L : Type} `{Ilru : LruCache L} `{Ilrul : !LruLaws L}.
Context {S : Type} `{Istr : CompactionStrategy S} (sok : S -> Prop) `{Istrl : !StrategyLaws S sok} (strategy : S) (Hstrategy : sok strategy).
Context (table_hash : string -> string -> Z) (tables : list (string * string)).
Context (Htables : forall ks tbl, (ks, tbl) ∈ tables -> dotless ks).
Context (Hhash : forall ks tbl ks' tbl', (ks, tbl) ∈ tables -> (ks', tbl') ∈ tables ->
  table_hash ks tbl = table_hash ks' tbl' -> ks = ks' /\ tbl = tbl').
Context (W : string -> History) (HW : forall cf, hist_ok (W cf)).
#[local] Hint Resolve HW : core.
Abbreviation Engine := (Engine H L).
Abbreviation log_invariant := (log_inv compress_prepend_size crc32 to_vec lconfig).
Abbreviation log_fits := (fits compress_prepend_size to_vec lconfig).
Abbreviation known := (known tables).
Abbreviation mt_ok := (mt_ok W tables).
Abbreviation parts_ok := (parts_ok W tables).

Record mut_ok (m : Mutation) : Prop := {
  mo_known : (mu_keyspace m, mu_table m) ∈ tables;
  mo_wf : Forall update_wf (mutation_updates m);
  mo_in : Forall (fun u => db_in (W (mutation_cf m)) (update_view (mu_partition_key m) u)) (mutation_updates m);
}.
Lemma mutation_dom m : mut_ok m -> db_in (W (mutation_cf m)) (mutation_view m).
Proof. intros Hm. apply (dom_sup (W (mutation_cf m))); [done|]. apply Forall_fmap, Hm. Qed.

Definition written (ms : list Mutation) (cf : string) : DbView := db_sup (mutation_view <$> of_table cf ms).
Lemma of_table_dom ms cf : Forall mut_ok ms -> Forall (db_in (W cf)) (mutation_view <$> of_table cf ms).
Proof.
  intros Hms. apply Forall_fmap, Forall_forall. intros m [Hm <-%String.eqb_eq]%elem_of_filter_bool.
  apply mutation_dom. by apply (proj1 (Forall_forall _ _) Hms).
Qed.
Lemma written_dom ms cf : Forall mut_ok ms -> db_in (W cf) (written ms cf).
Proof. intros Hms. apply (dom_sup (W cf)); [done|by apply of_table_dom]. Qed.
Lemma written_upper ms m : Forall mut_ok ms -> m ∈ ms -> db_below (mutation_view m) (written ms (mutation_cf m)).
Proof.
  intros Hms Hm. apply (db_sup_upper (W (mutation_cf m))); [done|by apply of_table_dom|].
  apply list_elem_of_fmap_2, elem_of_filter_bool. by rewrite String.eqb_refl.
Qed.

Definition in_tables (self : Engine) (m : Mutation) : Prop := db_below (mutation_view m) (tview self (mutation_cf m)).
Definition in_memtable (self : Engine) (t : Z) (m : Mutation) : Prop :=
  exists id mt, mt_at (eng_memtables self) (mutation_cf m) id mt /\ commitlog_lower_bound mt <= t /\ db_below (mutation_view m) (mt_view mt).

Definition led_rel (self : Engine) (E F : Ledger) : Prop :=
  (forall e, e ∈ led_durable E -> e ∈ led_durable F \/ in_tables self e.2)
  /\ (forall e, e ∈ led_volatile E -> e ∈ led_volatile F \/ in_tables self e.2).
(** The generations of the tables tell them apart. *)
Record tabs_ok (self : Engine) : Prop := {
  tk_disk : Forall (good W) (eng_disk self);
  tk_nodup : NoDup (sst_generation <$> eng_disk self);
  tk_gen h : h ∈ eng_disk self -> 0 <= sst_generation h < eng_next_generation self;
  tk_live : eng_sstables self ⊆+ eng_disk self;
  tk_known h : h ∈ eng_disk self -> known (sst_cf_name h);
  tk_next : 0 <= eng_next_generation self < 2 ^ 64;
}.
Definition cache_ok (self : Engine) : Prop := forall c ks tbl pk p,
  eng_row_cache self = Some c -> (ks, tbl) ∈ tables -> cached c (table_hash ks tbl) pk = Some p ->
  p_wf p /\ total self (cf_name_of ks tbl) !! pk = Some (pview p).

Record eng_inv (room : Z) (self : Engine) (g : Ghost) : Prop := {
  ei_log : exists G F, log_invariant room (eng_log self) G /\ ledger_ok (eng_log self) G F /\ led_rel self (gh_ledger g) F;
  ei_parts : parts_ok room (cur_id (eng_log self)) self;
  ei_tabs : tabs_ok self;
  ei_cache : cache_ok self;
  ei_held t m : (t, m) ∈ led_all (gh_ledger g) -> 0 <= t /\ m ∈ gh_all g /\ (in_memtable self t m \/ in_tables self m);
  ei_upper cf : db_below (total self cf) (written (gh_all g) cf);
  ei_all : Forall mut_ok (gh_all g);
  ei_disk h : h ∈ eng_disk self -> db_below (h_view h) (written (gh_all g) (sst_cf_name h));
}.

(** ** Changes that only make room in the manager *)

Lemma total_same (self self' : Engine) room cur room' cur' cf :
  parts_ok room cur self -> parts_ok room' cur' self' ->
  (forall id mt, mt_at (eng_memtables self) cf id mt -> db_below (mt_view mt) (total self' cf)) ->
  db_below (tview self cf) (total self' cf) ->
  (forall id mt, mt_at (eng_memtables self') cf id mt -> db_below (mt_view mt) (total self cf)) ->
  db_below (tview self' cf) (total self cf) -> total self' cf = total self cf.
Proof.
  intros Hok Hok' H1 H2 H3 H4. apply (db_antisym (W cf)); [done|by eapply total_dom|by eapply total_dom| |].
  - eapply total_below; try done. by eapply total_dom.
  - eapply total_below; try done. by eapply total_dom.
Qed.
Lemma cache_same (self self' : Engine) :
  eng_row_cache self' = eng_row_cache self -> (forall cf, total self' cf = total self cf) -> cache_ok self -> cache_ok self'.
Proof. intros Hc Ht Hi c ks tbl pk p. rewrite Hc, Ht. apply Hi. Qed.
Lemma led_rel_mono (self self' : Engine) E F :
  (forall m, m ∈ (led_all E).*2 -> in_tables self m -> in_tables self' m) -> led_rel self E F -> led_rel self' E F.
Proof.
  intros Hm [H1 H2]. split; intros e He; [destruct (H1 e He)|destruct (H2 e He)]; auto; right; apply Hm; try done;
    apply list_elem_of_fmap_2, elem_of_app; auto.
Qed.

Lemma add_empty room room' self g mm' :
  eng_inv room self g -> room' <= room -> mm_inv room' (mt_ok (cur_id (eng_log self))) mm' ->
  (forall cf id mt, mt_at (eng_memtables self) cf id mt -> mt_at mm' cf id mt) ->
  (forall cf id mt, mt_at mm' cf id mt -> mt_at (eng_memtables self) cf id mt \/ mt_view mt = ∅) ->
  eng_inv room' (set_memtables mm' self) g.
Proof.
  intros [(G & F & Hl & HL & Hrel) Hp Ht Hc Hh Hu Ha Hdk] Hr Hmm Hin Hout.
  assert (Hp' : parts_ok room' (cur_id (eng_log self)) (set_memtables mm' self)) by (split; [done|apply Hp]).
  assert (Htot : forall cf, total (set_memtables mm' self) cf = total self cf).
  { intros cf. eapply total_same; [exact Hp|exact Hp'|..].
    - intros id mt Hm. eapply mem_total; [done|exact Hp'|by apply Hin].
    - by eapply (tview_total W HW _ _ _ _ Hp' cf).
    - intros id mt [Hm| ->]%Hout; [by eapply mem_total|apply db_below_empty].
    - by eapply (tview_total W HW _ _ _ _ Hp cf). }
  split; try done.
  - exists G, F. split; [by eapply log_inv_weaken|done].
  - by destruct Ht.
  - by apply (cache_same self).
  - intros t m Htm. destruct (Hh t m Htm) as (H1 & H2 & [(id & mt & Hm & Hm')|Hm]); (split; [done|]); (split; [done|]); [left|by right].
    exists id, mt. split; [by apply Hin|done].
  - intros cf. by rewrite Htot.
Qed.

(** ** Writes *)

Abbreviation led_append := (ledger_append lconfig).
Lemma led_append_elem m t E e : e ∈ led_all (led_append m t E) -> e ∈ led_all E \/ e = (t, m).
Proof.
  unfold led_all, ledger_append. destruct (sync_policy lconfig); cbn [led_durable led_volatile];
    rewrite !elem_of_app, !elem_of_filter_bool, ?list_elem_of_singleton; intros; destruct_or?; destruct_and?; auto.
  by apply not_elem_of_nil in H0.
Qed.
Lemma led_append_rel (self : Engine) m t E F : led_rel self E F -> led_rel self (led_append m t E) (led_append m t F).
Proof.
  intros [Hd Hv].
  assert (HD : forall e, e ∈ led_durable E ++ List.filter (fun e => negb (e.1 =? t)) (led_volatile E) ->
    e ∈ led_durable F ++ List.filter (fun e => negb (e.1 =? t)) (led_volatile F) \/ in_tables self e.2).
  { intros e. rewrite !elem_of_app, !elem_of_filter_bool. intros [He|[He Hb]]; [destruct (Hd e He)|destruct (Hv e He)]; auto. }
  assert (HV : forall e, e ∈ List.filter (fun e => e.1 =? t) (led_volatile E) ++ [(t, m)] ->
    e ∈ List.filter (fun e => e.1 =? t) (led_volatile F) ++ [(t, m)] \/ in_tables self e.2).
  { intros e. rewrite !elem_of_app, !elem_of_filter_bool. intros [[He Hb]|He]; [destruct (Hv e He)|]; auto. }
  unfold ledger_append. destruct (sync_policy lconfig); split; cbn [led_durable led_volatile]; auto.
  intros e. rewrite (elem_of_app _ _ e), (elem_of_app (led_durable F ++ _) _ e). intros [He|He]; [destruct (HD e He)|destruct (HV e He)]; auto.
Qed.
Lemma written_mono ms ms' cf :
  Forall mut_ok ms -> Forall mut_ok ms' -> (forall m, m ∈ ms -> m ∈ ms') -> db_below (written ms cf) (written ms' cf).
Proof.
  intros H1 H2 Hsub. apply (db_sup_below (W cf)); [done|by apply of_table_dom|by apply written_dom|].
  intros v (m & -> & [Hm <-%String.eqb_eq]%elem_of_filter_bool)%list_elem_of_fmap. apply written_upper; auto.
Qed.

(** One memtable takes the mutation, whether it was there or is new. *)
Record took (self self' : Engine) (m : Mutation) (us : list Update) (id : Z) (mt mt' : Memtable) : Prop := {
  tk_sst : eng_sstables self' = eng_sstables self;
  tk_mt : mt_at (eng_memtables self') (mutation_cf m) id mt';
  tk_old : mt_at (eng_memtables self) (mutation_cf m) id mt \/ mt_view mt = ∅;
  tk_view : mt_view mt' = db_join (mt_view mt) (updates_view (mu_partition_key m) us);
  tk_lower : commitlog_lower_bound mt' = commitlog_lower_bound mt;
  tk_at cf' id' x : mt_at (eng_memtables self') cf' id' x ->
    (cf', id', x) = (mutation_cf m, id, mt') \/ mt_at (eng_memtables self) cf' id' x \/ mt_view x = ∅;
  tk_keep cf' id' x : mt_at (eng_memtables self) cf' id' x -> (cf', id', x) = (mutation_cf m, id, mt) \/ mt_at (eng_memtables self') cf' id' x;
}.
Section Took.
Context (room cur room' cur' : Z) (self self' : Engine) (m : Mutation) (us : list Update) (id : Z) (mt mt' : Memtable).
Context (Hok : parts_ok room cur self) (Hok' : parts_ok room' cur' self') (Ht : took self self' m us id mt mt').
Abbreviation uview := (updates_view (mu_partition_key m) us).
Context (Hu : db_in (W (mutation_cf m)) uview).

Lemma took_tview cf : tview self' cf = tview self cf.
Proof. unfold tview, tables_of. by rewrite (tk_sst _ _ _ _ _ _ _ Ht). Qed.
Lemma took_mt_dom : db_in (W (mutation_cf m)) (mt_view mt).
Proof. destruct (tk_old _ _ _ _ _ _ _ Ht) as [Hm| ->]; [eapply mt_dom; [exact Hok|exact Hm]|apply dom_empty]. Qed.
Lemma took_parts : db_below (mt_view mt) (mt_view mt') /\ db_below uview (mt_view mt').
Proof.
  rewrite (tk_view _ _ _ _ _ _ _ Ht). pose proof took_mt_dom as Hd.
  apply (db_join_below (W (mutation_cf m))); [done..|by apply dom_join|]. apply (db_refl (W (mutation_cf m))); [done|by apply dom_join].
Qed.
Lemma took_total_other cf : cf <> mutation_cf m -> total self' cf = total self cf.
Proof.
  intros Hne. eapply total_same; [exact Hok|exact Hok'|..].
  - intros id' x Hx. destruct (tk_keep _ _ _ _ _ _ _ Ht cf id' x Hx) as [[= -> _ _]|Hx']; [done|]. eapply mem_total; [done|exact Hok'|exact Hx'].
  - rewrite <- took_tview. eapply tview_total; [done|exact Hok'].
  - intros id' x Hx. destruct (tk_at _ _ _ _ _ _ _ Ht cf id' x Hx) as [[= -> _ _]|[Hx'| ->]]; [done|eapply mem_total; [done|exact Hok|exact Hx']|apply db_below_empty].
  - rewrite took_tview. eapply tview_total; [done|exact Hok].
Qed.
Lemma took_total : total self' (mutation_cf m) = db_join (total self (mutation_cf m)) uview.
Proof.
  set (cf := mutation_cf m). assert (Hd : db_in (W cf) (total self cf)) by (eapply total_dom; [done|exact Hok]).
  assert (Hd' : db_in (W cf) (total self' cf)) by (eapply total_dom; [done|exact Hok']).
  assert (Hj : db_in (W cf) (db_join (total self cf) uview)) by by apply dom_join.
  destruct (proj1 (db_join_below (W cf) (HW cf) _ _ _ Hd Hu Hj) (db_refl (W cf) (HW cf) _ Hj)) as [Hb1 Hb2].
  pose proof took_mt_dom as Hmd. destruct took_parts as [Hp1 Hp2].
  assert (Hmt' : db_in (W cf) (mt_view mt')) by (eapply mt_dom; [exact Hok'|exact (tk_mt _ _ _ _ _ _ _ Ht)]).
  assert (Hin' : db_below (mt_view mt') (total self' cf)) by (eapply mem_total; [done|exact Hok'|exact (tk_mt _ _ _ _ _ _ _ Ht)]).
  apply (db_antisym (W cf)); [done..| |].
  - eapply total_below; [done|exact Hok'|done| |].
    + intros id' x Hx. destruct (tk_at _ _ _ _ _ _ _ Ht cf id' x Hx) as [[= _ ->]|[Hx'| ->]]; [|..|apply db_below_empty].
      * rewrite (tk_view _ _ _ _ _ _ _ Ht). apply (db_join_below (W cf)); [done..|]. split; [|done].
        destruct (tk_old _ _ _ _ _ _ _ Ht) as [Hm| ->]; [|apply db_below_empty].
        eapply (db_trans (W cf)); [done|done|exact Hd|done| |exact Hb1]. eapply mem_total; [done|exact Hok|exact Hm].
      * eapply (db_trans (W cf)); [done|eapply mt_dom; [exact Hok|exact Hx']|exact Hd|done| |exact Hb1].
        eapply mem_total; [done|exact Hok|exact Hx'].
    + rewrite took_tview. eapply (db_trans (W cf)); [done|eapply tview_dom; [done|exact Hok]|exact Hd|done| |exact Hb1].
      eapply tview_total; [done|exact Hok].
  - apply (db_join_below (W cf)); [done..|]. split; [|by eapply (db_trans (W cf) (HW cf) _ (mt_view mt'))].
    eapply total_below; [done|exact Hok|done| |rewrite <- took_tview; eapply tview_total; [done|exact Hok']].
    intros id' x Hx. destruct (tk_keep _ _ _ _ _ _ _ Ht cf id' x Hx) as [[= _ ->]|Hx']; [by eapply (db_trans (W cf) (HW cf) _ (mt_view mt'))|].
    eapply mem_total; [done|exact Hok'|exact Hx'].
Qed.
Lemma took_held t m' : in_memtable self t m' -> mut_ok m' -> in_memtable self' t m'.
Proof.
  intros (i & x & Hx & Hl & Hv) Hm'. destruct (tk_keep _ _ _ _ _ _ _ Ht _ _ _ Hx) as [[= E -> ->]|Hx'].
  - exists id, mt'. rewrite E. split; [exact (tk_mt _ _ _ _ _ _ _ Ht)|]. rewrite (tk_lower _ _ _ _ _ _ _ Ht). split; [done|].
    rewrite E in Hx. pose proof (mutation_dom m' Hm') as Hd. rewrite E in Hd.
    eapply (db_trans (W (mutation_cf m))); [done|done|exact took_mt_dom| |exact Hv|apply took_parts].
    eapply mt_dom; [exact Hok'|exact (tk_mt _ _ _ _ _ _ _ Ht)].
  - by exists i, x.
Qed.
End Took.

Lemma take_ok room cur (self : Engine) m us t (f : Memtable -> Memtable) :
  1 <= room -> mm_inv room (mt_ok cur) (eng_memtables self) -> 0 <= t <= cur -> known (mutation_cf m) -> Forall update_wf us ->
  Forall (fun u => db_in (W (mutation_cf m)) (update_view (mu_partition_key m) u)) us ->
  (forall mt, mt_backend (f mt) = mt_backend mt /\ commitlog_lower_bound (f mt) = commitlog_lower_bound mt) ->
  let '(id, mm1) := MemtableManager_get_or_create (eng_memtables self) (mutation_cf m) t in
  let mm2 := MemtableManager_update mm1 id (fun mt => foldl (Memtable_update (mu_partition_key m)) (f mt) us) in
  mm_inv (room - 1) (mt_ok cur) mm2 /\ mm_flushing mm2 = mm_flushing (eng_memtables self)
  /\ exists mt mt', forall self' : Engine, eng_memtables self' = mm2 -> eng_sstables self' = eng_sstables self -> took self self' m us id mt mt'.
Proof.
  intros Hroom Hi Ht Hk Hw Hin Hf. set (cf := mutation_cf m) in *. set (mm := eng_memtables self) in *.
  set (new := Memtable_with_type (mm_next_id mm) t (mm_memtable_type mm)).
  destruct (new_memtable_good (W cf) (mm_next_id mm) t (mm_memtable_type mm)) as [Hng Hnv].
  pose proof (get_or_create_spec (mt_ok cur) room mm cf t Hroom Hi) as Hgc.
  destruct (MemtableManager_get_or_create mm cf t) as [id mm1]. destruct Hgc as (Hi1 & Ha1 & Hf1 & Hat1); [done|].
  destruct (mi_ref _ _ _ Hi1 cf id (or_introl Ha1)) as (mt & Hmt & (_ & Hg & Hlo) & _).
  assert (Hfg : mt_good (W cf) (f mt) /\ mt_view (f mt) = mt_view mt).
  { destruct (Hf mt) as [Hb _], Hg as [G1 G2 G3]. split; [split|]; unfold mt_view in *; rewrite ?Hb; done. }
  destruct Hfg as [Hfg Hfv]. destruct (updates_step (W cf) (HW cf) (f mt) (mu_partition_key m) us Hfg Hw Hin) as [Hg' Hv'].
  set (mt' := foldl (Memtable_update (mu_partition_key m)) (f mt) us) in *.
  assert (Hl' : commitlog_lower_bound mt' = commitlog_lower_bound mt).
  { destruct (Hf mt) as [_ <-]. unfold mt'. clear. generalize (f mt). induction us as [|u us IH]; intros x; [done|].
    cbn [foldl]. rewrite IH. by destruct u. }
  assert (HPmt : mt_ok cur cf mt') by (split; [done|]; split; [done|]; by rewrite Hl').
  destruct (update_spec (mt_ok cur) (room - 1) mm1 cf id mt (fun x => foldl (Memtable_update (mu_partition_key m)) (f x) us)
    Hi1 Ha1 Hmt HPmt) as (Hi2 & Ha2 & Hf2 & Hat2). cbv zeta. fold mt' in Hat2.
  split; [done|]. split; [congruence|]. exists mt, mt'. intros self' Hmm Hss. split; rewrite ?Hmm; try done.
  - apply Hat2. by right.
  - destruct (proj1 (Hat1 cf id mt) (conj (or_introl Ha1) Hmt)) as [Ho|(_ & _ & _ & ->)]; [by left|by right].
  - by rewrite Hv', Hfv.
  - intros cf' id' x [[_ Hx]|(-> & -> & ->)]%Hat2; [right|by left]. apply Hat1 in Hx as [Hx|(_ & _ & _ & ->)]; [by left|by right].
  - intros cf' id' x Hx. destruct (decide (id' = id)) as [->|Hne].
    + left. assert (Hx1 : mt_at mm1 cf' id x) by (apply Hat1; by left). destruct Hx1 as [Hr Hx1].
      rewrite (mi_one _ _ _ Hi1 cf' cf id Hr (or_introl Ha1)). by simplify_eq.
    + right. apply Hat2. left. split; [done|]. apply Hat1. by left.
Qed.

Definition ghost_append (m : Mutation) (self : Engine) (g : Ghost) : Ghost :=
  match CommitLog_append compress_prepend_size crc32 to_vec lconfig m (eng_log self) with
  | (inr (t, _), _) => mkGhost (led_append m t (gh_ledger g)) (gh_all g ++ [m])
  | _ => g
  end.
Abbreviation insert := (insert_mutation compress_prepend_size crc32 to_vec table_hash config).

Lemma invalidate_cache (self self' : Engine) m :
  (mu_keyspace m, mu_table m) ∈ tables ->
  eng_row_cache self' = (fun c => RowCache_invalidate_partition c (table_hash (mu_keyspace m) (mu_table m)) (mu_partition_key m))
                        <$> eng_row_cache self ->
  (forall cf pk, cf <> mutation_cf m \/ pk <> mu_partition_key m -> total self' cf !! pk = total self cf !! pk) ->
  cache_ok self -> cache_ok self'.
Proof.
  intros Hm Hc Htot Hi c' ks tbl pk p Ec' Hk Hp. rewrite Hc in Ec'. destruct (eng_row_cache self) as [c|] eqn:Ec; [|done].
  apply (inj Some) in Ec' as <-. apply cached_invalidate in Hp as [Hp Hne]. destruct (Hi c ks tbl pk p Ec Hk Hp) as [Hw Hv].
  split; [done|]. rewrite Htot; [done|]. destruct (decide (cf_name_of ks tbl = mutation_cf m)) as [E|]; [right|by left].
  apply cf_name_inj in E as [-> ->]; [|by eapply Htables..]. by intros ->.
Qed.
Lemma known_of m : mut_ok m -> known (mutation_cf m).
Proof. intros Hm. exists (mu_keyspace m), (mu_table m). split; [apply Hm|done]. Qed.

(** Nothing but the log changes. *)
Lemma set_log_inv room room' self g g' log' G' F' :
  eng_inv room self g -> room' <= room -> log_invariant room' log' G' -> cur_id (eng_log self) <= cur_id log' ->
  ledger_ok log' G' F' -> led_rel self (gh_ledger g') F' -> gh_all g' = gh_all g ->
  (forall e, e ∈ led_all (gh_ledger g') -> e ∈ led_all (gh_ledger g)) -> eng_inv room' (set_log log' self) g'.
Proof.
  intros [_ [Hmm Hgood] Ht Hc Hh Hu Ha Hdk] Hr Hl Hcur HL Hrel Hall Hsub. split; rewrite ?Hall; try done.
  - by exists G', F'.
  - split; [|done]. eapply mm_inv_weaken; [exact Hr| |exact Hmm]. intros cf mt (Hk & Hg & Hlo). split; [done|]. split; [done|].
    cbn [eng_log set_log]. lia.
  - by destruct Ht.
  - intros t m Htm. by apply Hh, Hsub.
Qed.

Lemma eng_inv_weaken room room' self g : room' <= room -> eng_inv room self g -> eng_inv room' self g.
Proof.
  intros Hr He. destruct (ei_log _ _ _ He) as (G & F & Hl & HL & Hrel). assert (self = set_log (eng_log self) self) as -> by by destruct self.
  eapply set_log_inv; [exact He|exact Hr|eapply log_inv_weaken; [exact Hr|exact Hl]|done..].
Qed.

Lemma took_inv room room' self self' g g' m us id mt mt' G' F' :
  eng_inv room self g -> mut_ok m -> took self self' m us id mt mt' -> db_in (W (mutation_cf m)) (updates_view (mu_partition_key m) us) ->
  parts_ok room' (cur_id (eng_log self')) self' -> log_invariant room' (eng_log self') G' -> ledger_ok (eng_log self') G' F' ->
  led_rel self (gh_ledger g') F' -> cache_ok self' -> tabs_ok self' -> eng_disk self' = eng_disk self -> Forall mut_ok (gh_all g') ->
  (forall x, x ∈ gh_all g \/ x = m -> x ∈ gh_all g') -> db_below (updates_view (mu_partition_key m) us) (mutation_view m) ->
  (forall t x, (t, x) ∈ led_all (gh_ledger g') -> 0 <= t /\ x ∈ gh_all g' /\ (in_memtable self' t x \/ in_tables self' x)) ->
  eng_inv room' self' g'.
Proof.
  intros [_ Hp Htd _ _ Hu Ha Hdk] Hm Ht Hin Hp' Hl HL Hrel Hc Htabs Hdisk Ha' Hsub Hle Hh. split; try done.
  - exists G', F'. split; [done|]. split; [done|]. eapply led_rel_mono; [|exact Hrel]. intros x _. unfold in_tables.
    by rewrite (took_tview _ _ _ _ _ _ _ Ht).
  - intros cf. pose proof (written_dom _ cf Ha') as Hwd.
    assert (Hold : db_below (total self cf) (written (gh_all g') cf)).
    { eapply (db_trans (W cf) (HW cf) _ (written (gh_all g) cf));
        [eapply total_dom; [done|exact Hp]|by apply written_dom|done|apply Hu|]. apply written_mono; auto. }
    destruct (decide (cf = mutation_cf m)) as [->|Hne].
    + rewrite (took_total _ _ _ _ _ _ _ _ _ _ _ Hp Hp' Ht Hin).
      apply (db_join_below (W (mutation_cf m))); [done|eapply total_dom; [done|exact Hp]|done..|]. split; [done|].
      eapply (db_trans (W (mutation_cf m)) (HW _) _ (mutation_view m)); [done|by apply mutation_dom|done|exact Hle|]. apply written_upper; auto.
    + by rewrite (took_total_other _ _ _ _ _ _ _ _ _ _ _ Hp Hp' Ht).
  - intros h. rewrite Hdisk. intros Hh'. eapply (db_trans (W (sst_cf_name h)) (HW _) _ (written (gh_all g) (sst_cf_name h)));
      [|by apply written_dom..|by apply Hdk|apply written_mono; auto].
    apply good_in. by apply (proj1 (Forall_forall _ _) (tk_disk _ Htd)).
Qed.

Lemma insert_inv room self g m :
  1 <= room -> eng_inv room self g -> mut_ok m -> log_fits m -> eng_inv (room - 1) (insert m self).2 (ghost_append m self g).
Proof.
  intros Hroom He Hm Hfit. destruct (ei_log _ _ _ He) as (G & F & Hl & HL & Hrel). unfold ghost_append, insert_mutation.
  destruct (append_inv compress_prepend_size decompress_size_prepended crc32 to_vec from_slice lconfig room (eng_log self) G m Hroom Hl Hfit) as (r & log' & G' & -> & Hl' & Hg & Hr).
  destruct r as [e|[t off]].
  { cbn [snd]. eapply set_log_inv; [exact He|lia|exact Hl'|apply Hg|by eapply ledger_grow|done..]. }
  destruct (Hr t off eq_refl) as (Htc & Hmid & Hb).
  assert (Hcur : 0 <= cur_id log') by (apply (li_ids _ _ _ _ _ _ _ Hl'), (li_cur _ _ _ _ _ _ _ Hl')).
  assert (Hmm : mm_inv room (mt_ok (cur_id log')) (eng_memtables self)).
  { eapply mm_inv_weaken; [reflexivity| |exact (pk_mm _ _ _ _ _ (ei_parts _ _ _ He))]. intros cf mt (? & ? & ?).
    split; [done|]. split; [done|]. pose proof (proj1 Hg). lia. }
  cbn [eng_memtables set_log].
  pose proof (take_ok room (cur_id log') self m (mutation_updates m) t (fun mt => Memtable_update_commitlog_upper_bound mt t) Hroom Hmm
    ltac:(lia) (known_of m Hm) (mo_wf m Hm) (mo_in m Hm) ltac:(done)) as Htake.
  destruct (MemtableManager_get_or_create (eng_memtables self) (mutation_cf m) t) as [id mm1].
  destruct Htake as (Hmm2 & _ & mt & mt' & Htook).
  assert (Hupd : MemtableManager_update (MemtableManager_update mm1 id (fun mt => Memtable_update_commitlog_upper_bound mt t)) id
      (fun mt => foldl (Memtable_update (mu_partition_key m)) mt (mutation_updates m))
    = MemtableManager_update mm1 id (fun mt => foldl (Memtable_update (mu_partition_key m)) (Memtable_update_commitlog_upper_bound mt t)
        (mutation_updates m))).
  { unfold MemtableManager_update. simpl. f_equal. apply map_eq. intros j. rewrite !lookup_alter. by repeat case_decide; subst; destruct (mm_heap mm1 !! _). }
  rewrite Hupd. cbn [snd]. set (self' := invalidate _ _ _ _ _). specialize (Htook self' eq_refl eq_refl).
  pose proof (ei_parts _ _ _ He) as Hp.
  assert (Hp' : parts_ok (room - 1) (cur_id (eng_log self')) self') by (split; [exact Hmm2|apply Hp]).
  pose proof (mutation_dom m Hm) as Hin.
  eapply (took_inv room (room - 1) self self'); [exact He|exact Hm|exact Htook|exact Hin|exact Hp'|exact Hl'| | | | |done| | |by apply (db_refl (W (mutation_cf m)))|].
  - eapply ledger_append_ok; [exact HL|exact Hg|exact Htc|exact Hmid|exact Hb].
  - by apply led_append_rel.
  - eapply (invalidate_cache self); [apply Hm|done| |apply He]. intros cf pk Hor. destruct (decide (cf = mutation_cf m)) as [->|Hne].
    + rewrite (took_total _ _ _ _ _ _ _ _ _ _ _ Hp Hp' Htook Hin). unfold db_join. rewrite lookup_merge_loop, update_at by naive_solver.
      by destruct (total self (mutation_cf m) !! pk).
    + by rewrite (took_total_other _ _ _ _ _ _ _ _ _ _ _ Hp Hp' Htook).
  - by destruct (ei_tabs _ _ _ He).
  - cbn [gh_all]. apply Forall_app. split; [apply He|]. by apply List.Forall_cons.
  - cbn [gh_all]. intros x [Hx| ->]; apply elem_of_app; [by left|right; left].
  - cbn [gh_all gh_ledger]. intros t' x [Hx|[= -> ->]]%led_append_elem.
    + destruct (ei_held _ _ _ He t' x Hx) as (H1 & H2 & H3). split; [done|]. split; [apply elem_of_app; by left|].
      destruct H3 as [H3|H3]; [left|right].
      * eapply took_held; [exact Hp|exact Hp'|exact Htook|exact Hin|exact H3|]. by apply (proj1 (Forall_forall _ _) (ei_all _ _ _ He)).
      * unfold in_tables. by rewrite (took_tview _ _ _ _ _ _ _ Htook).
    + split; [lia|]. split; [apply elem_of_app; right; left|]. left. exists id, mt'. pose proof (tk_mt _ _ _ _ _ _ _ Htook) as Hmt'.
      split; [done|]. destruct (at_ok _ _ _ _ _ Hp' _ _ _ Hmt') as (_ & _ & Hlo). split; [cbn [eng_log self'] in Hlo; subst t; apply Hlo|].
      apply (took_parts room (cur_id (eng_log self)) self self' m (mutation_updates m) id mt mt' Hp Htook Hin).
Qed.

(** ** Flushes *)

Lemma flush_begin_inv room self g cf :
  1 <= room -> eng_inv room self g -> known cf ->
  eng_inv (room - 1) (flush_begin cf self).2 g /\ (flush_begin cf self).1 = mm_active (eng_memtables self) !! cf
  /\ (forall id, mm_active (eng_memtables self) !! cf = Some id -> (cf, id) ∈ mm_flushing (eng_memtables (flush_begin cf self).2)
       /\ mm_heap (eng_memtables (flush_begin cf self).2) !! id = mm_heap (eng_memtables self) !! id)
  /\ eng_next_generation (flush_begin cf self).2 = eng_next_generation self.
Proof.
  intros Hroom He Hk. unfold flush_begin. destruct (ei_log _ _ _ He) as (G & F & Hl & _).
  assert (Hcur : 0 <= cur_id (eng_log self)) by (apply (li_ids _ _ _ _ _ _ _ Hl), (li_cur _ _ _ _ _ _ _ Hl)).
  pose proof (ei_parts _ _ _ He) as Hp.
  set (mm := eng_memtables self). set (t := seg_id (current_segment (eng_log self))).
  destruct (new_memtable_good (W cf) (mm_next_id mm) t (mm_memtable_type mm)) as [Hng Hnv].
  pose proof (switch_spec (mt_ok (cur_id (eng_log self))) room mm cf t Hroom (pk_mm _ _ _ _ _ Hp)) as Hs.
  assert (Hheap : mm_heap (MemtableManager_switch_memtable mm cf t).2
    = <[mm_next_id mm := Memtable_with_type (mm_next_id mm) t (mm_memtable_type mm)]> (mm_heap mm)).
  { unfold MemtableManager_switch_memtable. simpl. by destruct (mm_active mm !! cf). }
  destruct (MemtableManager_switch_memtable mm cf t) as [old mm']. cbn [fst snd] in *.
  destruct Hs as (Hi' & -> & Hf & Hat); [split; [done|]; split; [done|]; done|]. split; [|split; [done|]].
  - eapply add_empty; [exact He|lia|exact Hi'| |].
    + intros cf' id mt Hm. apply Hat. by left.
    + intros cf' id mt [Hm|(_ & _ & ->)]%Hat; [by left|by right].
  - split; [|done]. intros id Ha. cbn [eng_memtables set_memtables]. split; [rewrite Hf; fold mm in Ha; rewrite Ha; apply elem_of_app; right; left|].
    rewrite Hheap.
    destruct (mi_ref _ _ _ (pk_mm _ _ _ _ _ Hp) cf id (or_introl Ha)) as (_ & _ & _ & Hlt). rewrite lookup_insert_ne; [done|]. fold mm in Hlt. lia.
Qed.

(** A memtable whose content is in the tables is let go. *)
Lemma drop_flushed room self g cf id mt :
  eng_inv room self g -> (cf, id) ∈ mm_flushing (eng_memtables self) -> mm_heap (eng_memtables self) !! id = Some mt ->
  db_below (mt_view mt) (tview self cf) ->
  eng_inv room (set_memtables (MemtableManager_flush_complete (eng_memtables self) id) self) g.
Proof.
  intros [Hlog Hp Ht Hc Hh Hu Ha Hdk] Hf Hm Hv. set (self' := set_memtables _ self).
  destruct (flush_complete_spec (mt_ok (cur_id (eng_log self))) room (eng_memtables self) cf id (pk_mm _ _ _ _ _ Hp) Hf) as (Hi' & _ & Hat).
  assert (Hp' : parts_ok room (cur_id (eng_log self)) self') by (split; [exact Hi'|apply Hp]).
  assert (Hid : forall cf' x, mt_at (eng_memtables self) cf' id x -> cf' = cf /\ x = mt).
  { intros cf' x [Hr Hx]. split; [|by simplify_eq]. eapply mi_one; [apply Hp|exact Hr|by right]. }
  assert (Htot : forall cf', total self' cf' = total self cf').
  { intros cf'. eapply total_same; [exact Hp|exact Hp'|..].
    - intros id' x Hx. destruct (decide (id' = id)) as [->|Hne].
      + destruct (Hid cf' x Hx) as [-> ->]. eapply (db_trans (W cf) (HW cf) _ (tview self' cf));
          [eapply mt_dom; [exact Hp|exact Hx]|eapply tview_dom; [done|exact Hp']|eapply total_dom; [done|exact Hp']|exact Hv|].
        eapply tview_total; [done|exact Hp'].
      + eapply mem_total; [done|exact Hp'|]. by apply Hat.
    - eapply (tview_total W HW _ _ _ _ Hp').
    - intros id' x [Hx _]%Hat. eapply mem_total; [done|exact Hp|exact Hx].
    - eapply (tview_total W HW _ _ _ _ Hp). }
  split; try done.
  - by destruct Ht.
  - by apply (cache_same self).
  - intros t m Htm. destruct (Hh t m Htm) as (H1 & H2 & H3). split; [done|]. split; [done|]. destruct H3 as [(id' & x & Hx & Hl & Hb)|H3]; [|by right].
    destruct (decide (id' = id)) as [->|Hne]; [right|left; exists id', x; split; [by apply Hat|done]].
    destruct (Hid _ x Hx) as [E ->]. unfold in_tables. rewrite E in *.
    assert (Hmo : mut_ok m) by by apply (proj1 (Forall_forall _ _) Ha). pose proof (mutation_dom m Hmo) as Hd. rewrite E in Hd.
    eapply (db_trans (W cf) (HW cf) _ (mt_view mt)); [done|eapply mt_dom; [exact Hp|exact Hx]|eapply tview_dom; [done|exact Hp']|done..].
  - intros cf'. by rewrite Htot.
Qed.

(** A table that holds nothing new joins the others. *)
Lemma tables_of_app (self : Engine) hs cf :
  tables_of (set_sstables (eng_sstables self ++ hs) (with_new hs self)) cf
  = tables_of self cf ++ List.filter (fun h => String.eqb (sst_cf_name h) cf) hs.
Proof. unfold tables_of. cbn [eng_sstables set_sstables]. by rewrite List.filter_app. Qed.
Lemma add_table room self g h :
  eng_inv room self g -> good W h -> known (sst_cf_name h) -> sst_generation h = eng_next_generation self ->
  eng_next_generation self + 1 < 2 ^ 64 -> db_below (h_view h) (total self (sst_cf_name h)) ->
  let self' := set_sstables (eng_sstables self ++ [h]) (with_new [h] self) in
  eng_inv room self' g /\ db_below (h_view h) (tview self' (sst_cf_name h)).
Proof.
  intros [(G & F & Hl & HL & Hrel) Hp Ht Hc Hh Hu Ha Hdk] Hg Hk Hgen Hmax Hv self'.
  assert (Hp' : parts_ok room (cur_id (eng_log self')) self').
  { split; [apply Hp|]. cbn [eng_sstables self' set_sstables]. apply Forall_app. split; [apply Hp|by apply List.Forall_cons]. }
  assert (Hin : forall h' cf, h' ∈ tables_of self' cf <-> h' ∈ tables_of self cf \/ (h' = h /\ cf = sst_cf_name h)).
  { intros h' cf. unfold self'. rewrite tables_of_app, elem_of_app, (elem_of_filter_bool _ [h]), list_elem_of_singleton, String.eqb_eq.
    split; (intros [|[-> E]]; [by left|right]); by subst. }
  assert (Htv : forall cf, db_below (tview self cf) (tview self' cf)).
  { intros cf. eapply tview_below; [done|exact Hp|eapply tview_dom; [done|exact Hp']|]. intros h' Hh'.
    eapply table_tview; [done|exact Hp'|]. apply Hin. by left. }
  assert (Htot : forall cf, total self' cf = total self cf).
  { intros cf. eapply total_same; [exact Hp|exact Hp'|..].
    - intros id mt Hm. eapply (mem_total W HW _ _ _ _ Hp'). exact Hm.
    - eapply (db_trans (W cf) (HW cf) _ (tview self' cf)); [eapply tview_dom; [done|exact Hp]|eapply tview_dom; [done|exact Hp']|
        eapply total_dom; [done|exact Hp']|apply Htv|eapply tview_total; [done|exact Hp']].
    - intros id mt Hm. eapply (mem_total W HW _ _ _ _ Hp). exact Hm.
    - eapply tview_below; [done|exact Hp'|eapply total_dom; [done|exact Hp]|]. intros h' [Hh'|[-> ->]]%Hin; [|done].
      eapply table_total; [done|exact Hp|done]. }
  assert (Hmono : forall m, m ∈ gh_all g -> in_tables self m -> in_tables self' m).
  { intros m Hm Hi. assert (Hmo : mut_ok m) by by apply (proj1 (Forall_forall _ _) Ha).
    eapply (db_trans (W (mutation_cf m)) (HW _) _ (tview self (mutation_cf m)));
      [by apply mutation_dom|eapply tview_dom; [done|exact Hp]|eapply tview_dom; [done|exact Hp']|exact Hi|apply Htv]. }
  split; [split; try done|].
  - exists G, F. split; [done|]. split; [done|]. eapply led_rel_mono; [|exact Hrel]. intros m ([t x] & -> & Hx)%list_elem_of_fmap. simpl.
    apply Hmono. by eapply Hh.
  - destruct Ht as [T1 T2 T3 T4 T5 T6]. split; cbn [eng_disk eng_sstables eng_next_generation self' set_sstables with_new length].
    + apply Forall_app. split; [done|by apply List.Forall_cons].
    + rewrite fmap_app. apply NoDup_app. split; [done|]. split; [|apply NoDup_singleton]. intros x (h' & -> & Hh')%list_elem_of_fmap.
      simpl. intros Hx%list_elem_of_singleton. specialize (T3 h' Hh'). lia.
    + intros h' [Hh'| ->%list_elem_of_singleton]%elem_of_app; [specialize (T3 h' Hh')|]; lia.
    + by apply submseteq_skips_r.
    + intros h' [Hh'| ->%list_elem_of_singleton]%elem_of_app; auto.
    + lia.
  - by apply (cache_same self).
  - intros t m Htm. destruct (Hh t m Htm) as (H1 & H2 & [H3|H3]); (split; [done|]); (split; [done|]); [by left|right; by apply Hmono].
  - intros cf. by rewrite Htot.
  - intros h' [Hh'| ->%list_elem_of_singleton]%elem_of_app; [by apply Hdk|].
    eapply (db_trans (W (sst_cf_name h)) (HW _) _ (total self (sst_cf_name h)));
      [by apply good_in|eapply total_dom; [done|exact Hp]|by apply written_dom|done|apply Hu].
  - eapply table_tview; [done|exact Hp'|]. apply Hin. by right.
Qed.

Lemma discard_flushed_inv room self g :
  1 <= room -> eng_inv room self g -> eng_inv (room - 1) (discard_flushed config self) g.
Proof.
  intros Hroom He. assert (Hw : eng_inv (room - 1) self g) by (eapply eng_inv_weaken; [|exact He]; lia).
  unfold discard_flushed. destruct (MemtableManager_lowest_commitlog_bound _) as [lowest|] eqn:El; [|done].
  destruct (Z.ltb_spec 1 lowest); [|done]. destruct (ei_log _ _ _ He) as (G & F & Hl & HL & Hrel).
  destruct (log_step_inv compress_prepend_size decompress_size_prepended crc32 to_vec from_slice lconfig room (eng_log self) G F
    (LDiscard (lowest - 1)) Hroom Hl HL I) as (G' & Hl' & HL').
  destruct (discard_inv compress_prepend_size crc32 to_vec lconfig room (lowest - 1) (eng_log self) G ltac:(lia) Hl) as [_ Hcur].
  cbn [log_step fst snd] in Hl', HL'.
  eapply set_log_inv; [exact He|lia|exact Hl'|lia|exact HL'| |done|done].
  assert (Hgone : forall t m, (t, m) ∈ led_all (gh_ledger g) -> t <= lowest - 1 -> in_tables self m).
  { intros t m Htm Hle. destruct (ei_held _ _ _ He t m Htm) as (_ & _ & [(id & mt & Hm & Hlo & _)|Ht]); [|done].
    pose proof (lowest_bound _ _ _ _ _ _ _ (pk_mm _ _ _ _ _ (ei_parts _ _ _ He)) El Hm). lia. }
  destruct Hrel as [Hd Hv]. split; intros [t m] He'; cbn [led_durable led_volatile snd]; rewrite elem_of_filter_bool; cbn [fst];
    (destruct (Z.ltb_spec (lowest - 1) t); [|right; apply (Hgone t m); [apply elem_of_app; auto|lia]]).
  - destruct (Hd _ He'); auto.
  - destruct (Hv _ He'); auto.
Qed.

(** What is written of a memtable can be written. *)
Definition memtable_fits (self : Engine) (id : Z) : Prop := forall mt,
  mm_heap (eng_memtables self) !! id = Some mt -> Memtable_iter_partitions mt <> [] ->
  tfits (Memtable_iter_partitions mt) /\ eng_next_generation self + 1 < 2 ^ 64.

Lemma flush_end_inv room self g cf id :
  1 <= room -> eng_inv room self g -> (cf, id) ∈ mm_flushing (eng_memtables self) -> memtable_fits self id ->
  eng_inv (room - 1) (flush_end config cf id self).2 g.
Proof.
  intros Hroom He Hf Hfit. pose proof (ei_parts _ _ _ He) as Hp.
  assert (Hw : forall self', eng_inv room self' g -> eng_inv (room - 1) self' g).
  { intros self'. apply eng_inv_weaken. lia. }
  destruct (mi_ref _ _ _ (pk_mm _ _ _ _ _ Hp) cf id (or_intror Hf)) as (mt & Hm & (Hk & [Hwf Hdb Hin] & _) & _).
  unfold flush_end. rewrite Hm. specialize (Hfit mt Hm).
  assert (Hit : Memtable_iter_partitions mt = entries (backend_abs (mt_backend mt))) by by apply iter_abs.
  destruct (Memtable_iter_partitions mt) as [|e l] eqn:El.
  - apply Hw. eapply drop_flushed; [exact He|exact Hf|exact Hm|].
    assert (mt_view mt = ∅) as ->; [|apply db_below_empty]. unfold mt_view.
    assert (backend_abs (mt_backend mt) = ∅) as -> by by apply ordmap_eq. apply fmap_empty.
  - destruct Hk as (ks & tbl & Hkt & Hcf). rewrite Hcf at 1. rewrite cf_parts_of by by eapply Htables.
    destruct Hfit as [Hfit Hgen]; [done|].
    destruct (write_table_spec tfits ks tbl (e :: l) self Hfit (proj1 (tk_next _ (ei_tabs _ _ _ He))) Hgen) as (h & -> & Hks & Htbl & Hg & Hh).
    assert (Hcfh : sst_cf_name h = cf) by (unfold sst_cf_name; by rewrite Hks, Htbl).
    assert (Hgood : handle_good W h (backend_abs (mt_backend mt))).
    { split; [by rewrite <- Hit|done|by rewrite Hcfh|]. rewrite Hks. by eapply Htables. }
    assert (Hvh : h_view h = mt_view mt) by (apply h_view_of; by rewrite <- Hit).
    destruct (add_table room self g h He) as [He1 Htv].
    + by exists (backend_abs (mt_backend mt)).
    + rewrite Hcfh. by exists ks, tbl.
    + done.
    + done.
    + rewrite Hvh, Hcfh. eapply mem_total; [done|exact Hp|]. split; [by right|exact Hm].
    + rewrite Hvh, Hcfh in Htv. pose proof (drop_flushed _ _ _ cf id mt He1 Hf Hm Htv) as He2.
      apply discard_flushed_inv; [lia|]. destruct (ei_log _ _ _ He2) as (G & F & Hl & HL & Hrel).
      eapply set_log_inv; [exact He2|lia|by apply mark_flushed_inv|done|exact HL|exact Hrel|done|done].
Qed.

Definition flush_fits (self : Engine) (cf : string) : Prop := forall id, mm_active (eng_memtables self) !! cf = Some id -> memtable_fits self id.
Lemma flush_cf_inv room self g cf :
  2 <= room -> eng_inv room self g -> known cf -> flush_fits self cf -> eng_inv (room - 2) (flush_cf config cf self).2 g.
Proof.
  intros Hroom He Hk Hfit. destruct (flush_begin_inv room self g cf ltac:(lia) He Hk) as (He1 & Hold & Hfl & Hgen). unfold flush_cf.
  destruct (flush_begin cf self) as [old self1]. cbn [fst snd] in *. subst old. replace (room - 2) with (room - 1 - 1) by lia.
  destruct (mm_active (eng_memtables self) !! cf) as [id|] eqn:Ea; cbn [snd].
  - destruct (Hfl id eq_refl) as [Hin Hheap]. apply flush_end_inv; [lia|done|done|]. intros mt Hm Hne. rewrite Hgen.
    apply (Hfit id Ea); [by rewrite <- Hheap|done].
  - eapply eng_inv_weaken; [|exact He1]. lia.
Qed.
Abbreviation apply_m := (apply_mutation compress_prepend_size crc32 to_vec table_hash config).
Lemma apply_inv room self g m :
  3 <= room -> eng_inv room self g -> mut_ok m -> log_fits m -> flush_fits (insert m self).2 (mutation_cf m) ->
  eng_inv (room - 3) (apply_m m self).2 (ghost_append m self g).
Proof.
  intros Hroom He Hm Hlf Hfit. pose proof (insert_inv room self g m ltac:(lia) He Hm Hlf) as He1.
  assert (Hw : eng_inv (room - 3) (insert m self).2 (ghost_append m self g)) by (eapply eng_inv_weaken; [|exact He1]; lia).
  unfold apply_mutation. destruct (insert m self) as [[e|[]] self1]; cbn [snd] in *; [done|].
  destruct (MemtableManager_should_flush _); [|done]. replace (room - 3) with (room - 1 - 2) by lia.
  apply flush_cf_inv; [lia|done|by apply known_of|done].
Qed.

(** ** Reads *)

Lemma set_cache_inv room self g c : eng_inv room self g -> cache_ok (set_row_cache c self) -> eng_inv room (set_row_cache c self) g.
Proof. intros [Hlog Hp Ht Hc Hh Hu Ha Hdk] Hc'. split; try done; [by destruct Hp|by destruct Ht]. Qed.

(** No memtable of the table is being flushed. *)
Definition settled (self : Engine) (cf : string) : Prop := forall id, (cf, id) ∉ mm_flushing (eng_memtables self).

Lemma read_tables_view room cur self ks tbl pk id mt :
  parts_ok room cur self -> (ks, tbl) ∈ tables -> mm_active (eng_memtables self) !! cf_name_of ks tbl = Some id ->
  mt_at (eng_memtables self) (cf_name_of ks tbl) id mt -> settled self (cf_name_of ks tbl) ->
  pview <$> read_sstables ks tbl pk (Memtable_get_partition mt pk) self = total self (cf_name_of ks tbl) !! pk
  /\ forall p, read_sstables ks tbl pk (Memtable_get_partition mt pk) self = Some p -> p_wf p.
Proof.
  intros Hp Hk Ha Hm Hs. set (cf := cf_name_of ks tbl) in *.
  destruct (at_ok _ _ _ _ _ Hp cf id mt Hm) as (_ & [Hwf Hdb Hin] & _).
  assert (Hget : Memtable_get_partition mt pk = backend_abs (mt_backend mt) !! pk) by by apply get_abs.
  set (hs := List.filter (sst_belongs_to ks tbl) (rev (eng_sstables self))).
  assert (Hhs : forall h, h ∈ hs <-> h ∈ tables_of self cf).
  { intros h. unfold hs, tables_of. rewrite !elem_of_filter_bool, String.eqb_eq.
    assert (Hrev : h ∈ rev (eng_sstables self) <-> h ∈ eng_sstables self) by (rewrite !list_elem_of_In; symmetry; apply in_rev).
    rewrite Hrev.
    split; intros [Hh Hb]; (split; [done|]); eapply belongs_cf; eauto; by apply (proj1 (Forall_forall _ _) (pk_good _ _ _ _ _ Hp)). }
  destruct (read_fold_view W pk hs (Memtable_get_partition mt pk) (mt_view mt)) as [Hpw Hv].
  - apply Forall_forall. intros h Hh%Hhs. by eapply table_ok.
  - intros p. rewrite Hget. apply Hdb.
  - rewrite Hget. unfold mt_view, db_of. by rewrite lookup_fmap.
  - split; [|done]. unfold read_sstables. fold hs. rewrite Hv. f_equal.
    assert (Hd : Forall (db_in (W cf)) (h_view <$> hs)).
    { apply Forall_fmap, Forall_forall. intros h Hh%Hhs. destruct (table_ok _ _ _ _ _ Hp cf h Hh) as [Hg <-]. by apply good_in. }
    rewrite (db_sup_fold (W cf) (HW cf)) by done.
    assert (Hcons : db_join (mt_view mt) (db_sup (h_view <$> hs)) = db_sup (mt_view mt :: (h_view <$> hs))).
    { unfold db_sup at 2. cbn [foldl]. rewrite db_join_empty_l. by rewrite (db_sup_fold (W cf) (HW cf)). }
    rewrite Hcons. apply (db_sup_ext (W cf)); [done|by apply List.Forall_cons|eapply parts_dom; exact Hp|..].
    + intros v [->|(h & -> & Hh%Hhs)%list_elem_of_fmap]%elem_of_cons; right; apply elem_of_app; [left|right].
      * apply list_elem_of_fmap_2, elem_of_mems. by exists id.
      * by apply list_elem_of_fmap_2.
    + intros v [(x & -> & (id' & Hr & Hx)%elem_of_mems)%list_elem_of_fmap|(h & -> & Hh%Hhs)%list_elem_of_fmap]%elem_of_app; right.
      * destruct Hr as [Ha'|Hf]; [|by destruct (Hs id')]. destruct Hm as [_ Hm]. simplify_eq. left.
      * right. by apply list_elem_of_fmap_2.
Qed.

Abbreviation read_p := (read_partition table_hash).
Lemma read_inv room self g ks tbl pk :
  1 <= room -> eng_inv room self g -> (ks, tbl) ∈ tables ->
  eng_row_cache self = None \/ settled self (cf_name_of ks tbl) ->
  eng_inv (room - 1) (read_p ks tbl pk self).2 g
  /\ (settled self (cf_name_of ks tbl) -> pview <$> (read_p ks tbl pk self).1 = total self (cf_name_of ks tbl) !! pk).
Proof.
  intros Hroom He Hk Hq. set (cf := cf_name_of ks tbl) in *. unfold read_partition. fold cf. pose proof (ei_parts _ _ _ He) as Hp.
  assert (Hcur : 0 <= cur_id (eng_log self)).
  { destruct (ei_log _ _ _ He) as (G & F & Hl & _). apply (li_ids _ _ _ _ _ _ _ Hl), (li_cur _ _ _ _ _ _ _ Hl). }
  set (mm := eng_memtables self) in *.
  destruct (new_memtable_good (W cf) (mm_next_id mm) 0 (mm_memtable_type mm)) as [Hng Hnv].
  pose proof (get_or_create_spec (mt_ok (cur_id (eng_log self))) room mm cf 0 Hroom (pk_mm _ _ _ _ _ Hp)) as Hgc.
  destruct (MemtableManager_get_or_create mm cf 0) as [id mm1].
  destruct Hgc as (Hi1 & Ha1 & Hf1 & Hat1); [split; [by exists ks, tbl|]; done|].
  assert (He1 : eng_inv (room - 1) (set_memtables mm1 self) g).
  { eapply add_empty; [exact He|lia|exact Hi1| |].
    - intros cf' id' x Hx. apply Hat1. by left.
    - intros cf' id' x [Hx|(_ & _ & _ & ->)]%Hat1; [by left|by right]. }
  set (self1 := set_memtables mm1 self) in *.
  assert (Htot : total self1 cf = total self cf).
  { eapply total_same; [exact Hp|apply He1|..].
    - intros id' x Hx. eapply mem_total; [done|apply He1|]. apply Hat1. by left.
    - eapply (tview_total W HW _ _ _ _ (ei_parts _ _ _ He1)).
    - intros id' x [Hx|(_ & _ & _ & ->)]%Hat1; [eapply mem_total; [done|exact Hp|exact Hx]|rewrite Hnv; apply db_below_empty].
    - eapply (tview_total W HW _ _ _ _ Hp). }
  destruct (mi_ref _ _ _ Hi1 cf id (or_introl Ha1)) as (mt & Hm & _ & _). rewrite Hm. cbn [mbind option_bind].
  assert (Hs1 : settled self cf -> settled self1 cf) by (intros Hs id'; unfold self1; cbn [eng_memtables set_memtables]; rewrite Hf1; apply Hs).
  assert (Hmt : mt_at (eng_memtables self1) cf id mt) by (split; [by left|done]).
  pose proof (fun Hs => read_tables_view (room - 1) _ self1 ks tbl pk id mt (ei_parts _ _ _ He1) Hk Ha1 Hmt (Hs1 Hs)) as Hread.
  set (result := read_sstables ks tbl pk (Memtable_get_partition mt pk)) in *.
  assert (Hput : forall c c', eng_row_cache self1 = Some c -> (forall th k, cached c' th k = cached c th k) ->
    cache_ok (set_row_cache (Some c') self1) /\ forall p, result self1 = Some p ->
    cache_ok (set_row_cache (Some (RowCache_put c' (table_hash ks tbl) pk p)) self1)).
  { intros c c' Ec Hcc. split.
    - intros c0 ks' tbl' pk' p' [= <-] Hk'. rewrite Hcc. by apply (ei_cache _ _ _ He1 c).
    - intros p Er c0 ks' tbl' pk' p' [= <-] Hk' [Hp'|E]%cached_put; [rewrite Hcc in Hp'; by apply (ei_cache _ _ _ He1 c)|].
      injection E as Hth <- <-. apply Hhash in Hth as [-> ->]; [|done..].
      destruct Hq as [Hq|Hq]; [cbn in Ec; congruence|]. destruct (Hread Hq) as [Hv Hpw]. rewrite Er in Hv. split; [by apply Hpw|done]. }
  assert (Hend : forall oc, eng_inv (room - 1) (set_row_cache oc self1) g ->
    (forall c', oc = Some c' -> forall p, result self1 = Some p ->
       cache_ok (set_row_cache (Some (RowCache_put c' (table_hash ks tbl) pk p)) self1)) ->
    eng_inv (room - 1) (match result self1, oc with
      | Some data, Some cache => set_row_cache (Some (RowCache_put cache (table_hash ks tbl) pk data)) (set_row_cache oc self1)
      | _, _ => set_row_cache oc self1
      end) g).
  { intros oc Hoc Hp'. destruct (result self1) as [p|] eqn:Er, oc as [c'|]; try done.
    apply (set_cache_inv _ self1); [done|]. by apply Hp'. }
  assert (Hsame : forall e : Engine, e = set_row_cache (eng_row_cache e) e) by by intros [].
  destruct (eng_row_cache self1) as [c|] eqn:Ec.
  - destruct (cached_get c (table_hash ks tbl) pk) as [Hg1 Hg2]. destruct (Hput c c eq_refl ltac:(done)) as [_ Hput0].
    destruct (Memtable_get_partition mt pk) as [q|] eqn:Eq.
    + rewrite Ec. fold result. cbn [fst snd]. split; [|intros Hs; rewrite <- Htot; by apply Hread].
      specialize (Hend (Some c)). rewrite <- Ec, <- Hsame, Ec in Hend. apply Hend; [done|]. by intros c' [= <-].
    + destruct (RowCache_get c (table_hash ks tbl) pk) as [hit c']. cbn [fst snd] in Hg1, Hg2. subst hit.
      destruct (Hput c c' eq_refl Hg2) as [Hc' Hput'].
      assert (He2 : eng_inv (room - 1) (set_row_cache (Some c') self1) g) by by apply set_cache_inv.
      destruct (cached c (table_hash ks tbl) pk) as [p|] eqn:Eh; cbn [fst snd].
      * split; [done|]. intros _. rewrite <- Htot. symmetry. by apply (ei_cache _ _ _ He1 c).
      * split; [|intros Hs; rewrite <- Htot; by apply Hread]. apply Hend; [done|]. by intros c0 [= <-].
  - assert (Hn : eng_row_cache self1 = None) by done. destruct (Memtable_get_partition mt pk) as [q|] eqn:Eq; rewrite ?Ec; cbn [fst snd];
      (split; [|intros Hs; rewrite <- Htot; by apply Hread]); specialize (Hend None); rewrite <- Ec, <- Hsame, Ec in Hend; by apply Hend.
Qed.

(** ** Compaction *)

Definition group_ok (now : Z) (ids : list Z) (self : Engine) : Prop :=
  group_fresh config now ids self /\ Forall tfits (compaction_writes config now ids self)
  /\ eng_next_generation self + Z.of_nat (length (compaction_writes config now ids self)) < 2 ^ 64.

Lemma gens_spec first n x : x ∈ gens first n <-> first <= x < first + Z.of_nat n.
Proof.
  unfold gens. rewrite list_elem_of_fmap. split.
  - intros (i & -> & Hi%elem_of_seq). lia.
  - intros Hx. exists (Z.to_nat (x - first)). split; [lia|]. apply elem_of_seq. lia.
Qed.
Lemma gens_nodup first n : NoDup (gens first n).
Proof. apply NoDup_fmap_2; [intros i j; lia|apply NoDup_seq]. Qed.
Lemma live_good self h : tabs_ok self -> h ∈ eng_sstables self -> h ∈ eng_disk self.
Proof. intros Ht Hh. eapply elem_of_submseteq; [exact Hh|apply Ht]. Qed.
Lemma live_same_gen self h h' :
  tabs_ok self -> h ∈ eng_disk self -> h' ∈ eng_disk self -> sst_generation h = sst_generation h' -> h = h'.
Proof.
  intros Ht Hh Hh' E. apply list_elem_of_lookup in Hh as [i Hi], Hh' as [j Hj].
  assert (i = j) as <-; [|by simplify_eq]. eapply NoDup_lookup; [exact (tk_nodup _ Ht)|rewrite list_lookup_fmap, Hi; done|].
  rewrite list_lookup_fmap, Hj. simpl. by rewrite E.
Qed.

Section Group.
Context (room : Z) (self self' : Engine) (g : Ghost) (ids : list Z) (ks tbl : string) (new : list H).
Context (He : eng_inv room self g) (Hk : (ks, tbl) ∈ tables).
Context (Hnames : forall h, h ∈ List.filter (in_group ids) (eng_sstables self) -> sst_keyspace h = ks /\ sst_table h = tbl).
Context (Hself' : self' = set_sstables (List.filter (fun h => negb (in_group ids h)) (eng_sstables self) ++ new) (with_new new self)).
Context (Hnew : Forall (good W) new) (Hnn : forall h, h ∈ new -> sst_keyspace h = ks /\ sst_table h = tbl).
Context (Hgens : sst_generation <$> new = gens (eng_next_generation self) (length new)).
Context (Hmax : eng_next_generation self + Z.of_nat (length new) < 2 ^ 64).
Context (Hsup : db_sup (h_view <$> new) = db_sup (h_view <$> List.filter (in_group ids) (eng_sstables self))).
Abbreviation cf0 := (cf_name_of ks tbl).

Lemma group_parts : parts_ok room (cur_id (eng_log self')) self'.
Proof.
  subst self'. split; [apply He|]. cbn [eng_sstables set_sstables]. apply Forall_app. split; [|done].
  apply Forall_forall. intros h [Hh _]%elem_of_filter_bool. by apply (proj1 (Forall_forall _ _) (pk_good _ _ _ _ _ (ei_parts _ _ _ He))).
Qed.
Lemma regroup_elem h cf : h ∈ tables_of self' cf <-> (h ∈ tables_of self cf /\ in_group ids h = false) \/ (h ∈ new /\ cf = cf0).
Proof.
  subst self'. unfold tables_of. cbn [eng_sstables set_sstables]. rewrite List.filter_app, elem_of_app, !elem_of_filter_bool, !String.eqb_eq, negb_true_iff.
  split.
  - intros [[[H1 H2] H3]|[H1 H2]]; [by left|right]. split; [done|]. destruct (Hnn h H1) as [E1 E2]. unfold sst_cf_name in H2. by rewrite E1, E2 in H2.
  - intros [[[H1 H2] H3]|[H1 ->]]; [by left|right]. split; [done|]. destruct (Hnn h H1) as [E1 E2]. unfold sst_cf_name. by rewrite E1, E2.
Qed.
Lemma group_views :
  Forall (db_in (W cf0)) (h_view <$> new) /\ Forall (db_in (W cf0)) (h_view <$> List.filter (in_group ids) (eng_sstables self)).
Proof.
  split; apply Forall_fmap, Forall_forall; intros h Hh; simpl.
  - destruct (Hnn h Hh) as [E1 E2]. unfold cf0. rewrite <- E1, <- E2. apply (good_in W). by apply (proj1 (Forall_forall _ _) Hnew).
  - destruct (Hnames h Hh) as [E1 E2]. unfold cf0. rewrite <- E1, <- E2. apply (good_in W).
    apply elem_of_filter_bool in Hh as [Hh _]. by apply (proj1 (Forall_forall _ _) (pk_good _ _ _ _ _ (ei_parts _ _ _ He))).
Qed.
Lemma group_tview cf : tview self' cf = tview self cf.
Proof.
  pose proof (ei_parts _ _ _ He) as Hp. pose proof group_parts as Hp'. destruct group_views as [Hv1 Hv2].
  assert (Hd : db_in (W cf) (tview self cf)) by (eapply tview_dom; [done|exact Hp]).
  assert (Hd' : db_in (W cf) (tview self' cf)) by (eapply tview_dom; [done|exact Hp']).
  apply (db_antisym (W cf)); [done..| |].
  - eapply tview_below; [done|exact Hp'|done|]. intros h [[Hh _]|[Hh ->]]%regroup_elem; [eapply table_tview; [done|exact Hp|done]|].
    apply (proj1 (db_sup_below (W cf0) (HW _) (h_view <$> new) _ Hv1 Hd)); [|by apply list_elem_of_fmap_2].
    rewrite Hsup. apply (db_sup_below (W cf0)); [done..|]. intros v (h' & -> & Hh')%list_elem_of_fmap.
    eapply table_tview; [done|exact Hp|]. destruct (Hnames h' Hh') as [E1 E2]. apply elem_of_filter_bool in Hh' as [Hh' _].
    apply elem_of_filter_bool. split; [done|]. apply String.eqb_eq. unfold sst_cf_name. by rewrite E1, E2.
  - eapply tview_below; [done|exact Hp|done|]. intros h Hh. destruct (in_group ids h) eqn:Eg.
    + assert (Hgrp : h ∈ List.filter (in_group ids) (eng_sstables self)).
      { apply elem_of_filter_bool in Hh as [Hh _]. by apply elem_of_filter_bool. }
      destruct (Hnames h Hgrp) as [E1 E2]. apply elem_of_filter_bool in Hh as [_ Hcf%String.eqb_eq]. unfold sst_cf_name in Hcf.
      rewrite E1, E2 in Hcf. subst cf.
      apply (proj1 (db_sup_below (W cf0) (HW _) _ _ Hv2 Hd')); [|by apply list_elem_of_fmap_2].
      rewrite <- Hsup. apply (db_sup_below (W cf0)); [done..|]. intros v (h' & -> & Hh')%list_elem_of_fmap.
      eapply table_tview; [done|exact Hp'|]. apply regroup_elem. by right.
    + eapply table_tview; [done|exact Hp'|]. apply regroup_elem. by left.
Qed.
Lemma group_inv : eng_inv room self' g.
Proof.
  pose proof (ei_parts _ _ _ He) as Hp. pose proof group_parts as Hp'.
  assert (Htot : forall cf, total self' cf = total self cf).
  { assert (Hm : eng_memtables self' = eng_memtables self) by by rewrite Hself'.
    intros cf. eapply total_same; [exact Hp|exact Hp'|..]; rewrite ?Hm, ?group_tview.
    - intros id mt Hmt. eapply (mem_total W HW _ _ _ _ Hp'). rewrite Hm. exact Hmt.
    - rewrite <- group_tview. eapply (tview_total W HW _ _ _ _ Hp').
    - intros id mt Hmt. eapply (mem_total W HW _ _ _ _ Hp). exact Hmt.
    - eapply (tview_total W HW _ _ _ _ Hp). }
  destruct He as [(G & F & Hl & HL & Hrel) _ Ht Hc Hh Hu Ha Hdk].
  assert (Hti : forall m, in_tables self m <-> in_tables self' m) by (intros m; unfold in_tables; by rewrite group_tview).
  split; try done.
  - exists G, F. split; [by rewrite Hself'|]. split; [by rewrite Hself'|]. eapply led_rel_mono; [|exact Hrel]. intros m _. apply Hti.
  - destruct Ht as [T1 T2 T3 T4 T5 T6]. rewrite Hself'. split; cbn [eng_disk eng_sstables eng_next_generation set_sstables with_new].
    + by apply Forall_app.
    + rewrite fmap_app, Hgens. apply NoDup_app. split; [done|]. split; [|apply gens_nodup].
      intros x (h & -> & Hx)%list_elem_of_fmap Hx'%gens_spec. specialize (T3 h Hx). lia.
    + intros h [Hx|Hx]%elem_of_app; [specialize (T3 h Hx); lia|].
      assert (Hg : sst_generation h ∈ sst_generation <$> new) by by apply list_elem_of_fmap_2.
      rewrite Hgens in Hg. apply gens_spec in Hg. lia.
    + apply submseteq_skips_r. etrans; [|exact T4]. apply sublist_submseteq. clear. induction (eng_sstables self) as [|h l IH]; simpl; [done|].
      case_match; [by apply sublist_skip|by apply sublist_cons].
    + intros h [Hx|Hx]%elem_of_app; [by apply T5|]. exists ks, tbl. split; [done|]. destruct (Hnn h Hx) as [E1 E2]. unfold sst_cf_name. by rewrite E1, E2.
    + lia.
  - apply (cache_same self); [by rewrite Hself'|done|done].
  - intros t m Htm. destruct (Hh t m Htm) as (H1 & H2 & H3). split; [done|]. split; [done|].
    destruct H3 as [H3|H3]; [left; rewrite Hself'; exact H3|right; by apply Hti].
  - intros cf. by rewrite Htot.
  - intros h. rewrite Hself'. cbn [eng_disk set_sstables with_new]. intros [Hx|Hx]%elem_of_app; [by apply Hdk|].
    assert (Hcf : sst_cf_name h = cf0) by (destruct (Hnn h Hx) as [E1 E2]; unfold sst_cf_name; by rewrite E1, E2). rewrite Hcf.
    eapply (db_trans (W cf0) (HW _) _ (total self' cf0)); [|eapply total_dom; [done|exact Hp']|by apply written_dom| |by rewrite Htot].
    + rewrite <- Hcf. apply good_in. by apply (proj1 (Forall_forall _ _) Hnew).
    + eapply table_total; [done|exact Hp'|]. apply regroup_elem. by right.
Qed.
End Group.

(** Since a snapshot, tables were only removed, or written with new generations. *)
Definition since (self self' : Engine) : Prop :=
  eng_next_generation self <= eng_next_generation self'
  /\ forall h, h ∈ eng_sstables self' -> h ∈ eng_sstables self \/ eng_next_generation self <= sst_generation h.
Lemma since_refl self : since self self.
Proof. by split; auto. Qed.
Lemma since_trans s1 s2 s3 : since s1 s2 -> since s2 s3 -> since s1 s3.
Proof. intros [N1 H1] [N2 H2]. split; [lia|]. intros h [Hh|Hh]%H2; [by apply H1|right; lia]. Qed.

Lemma compact_group_inv room self g now ids ks tbl :
  eng_inv room self g -> (ks, tbl) ∈ tables -> group_ok now ids self ->
  (forall h, h ∈ eng_sstables self -> in_group ids h = true -> sst_keyspace h = ks /\ sst_table h = tbl) ->
  exists self', compact_group config now ids self = (inr (), self') /\ eng_inv room self' g /\ since self self'.
Proof.
  intros He Hk (Hfr & Hfit & Hgen) Hn.
  assert (Hn' : forall h, h ∈ List.filter (in_group ids) (eng_sstables self) -> sst_keyspace h = ks /\ sst_table h = tbl)
    by (intros h [Hh Hg]%elem_of_filter_bool; by apply Hn).
  destruct (compact_group_spec tfits W HW config now ids self ks tbl) as (new & -> & Hgood & Hnn & Hgens & Hmax & Hsup).
  - apply (pk_good _ _ _ _ _ (ei_parts _ _ _ He)).
  - by eapply Htables.
  - exact Hn'.
  - exact Hfr.
  - exact Hfit.
  - apply (tk_next _ (ei_tabs _ _ _ He)).
  - exact Hgen.
  - eexists. split; [done|]. split; [by eapply (group_inv room self _ g ids ks tbl new)|].
    split; cbn [eng_next_generation eng_sstables set_sstables with_new]; [lia|].
    intros h [[Hh _]%elem_of_filter_bool|Hh]%elem_of_app; [by left|right].
    assert (Hx : sst_generation h ∈ sst_generation <$> new) by by apply list_elem_of_fmap_2. rewrite Hgens in Hx. apply gens_spec in Hx. lia.
Qed.

Fixpoint groups_ok (clock : list Z -> Z) (groups : list (list Z)) (self : Engine) : Prop :=
  match groups with
  | [] => True
  | ids :: groups => group_ok (clock ids) ids self /\ groups_ok clock groups (compact_group config (clock ids) ids self).2
  end.
Fixpoint compactions_ok (clock : list Z -> Z) (snapshot : list (list CompactionMetadata)) (self : Engine) : Prop :=
  match snapshot with
  | [] => True
  | metadata :: snapshot =>
      let groups := pick_compaction strategy metadata in
      groups_ok clock groups self /\ compactions_ok clock snapshot (compact_groups config clock groups self).2
  end.

Lemma compact_groups_inv room self0 g clock ks tbl groups self :
  tabs_ok self0 -> (ks, tbl) ∈ tables -> (forall i, i ∈ mjoin groups -> i ∈ cmd_id <$> cf_metadata (cf_name_of ks tbl) self0) ->
  eng_inv room self g -> since self0 self -> groups_ok clock groups self ->
  exists self', compact_groups config clock groups self = (inr (), self') /\ eng_inv room self' g /\ since self0 self'.
Proof.
  intros Ht Hk. revert self. induction groups as [|ids groups IH]; intros self Hids He Hs Hok; [by exists self|].
  destruct Hok as [Hg Hok]. destruct (compact_group_inv room self g (clock ids) ids ks tbl He Hk Hg) as (self1 & E & He1 & Hs1).
  - intros h Hh [i [Hi Eq%Z.eqb_eq]]%existsb_exists. apply list_elem_of_In in Hi.
    assert (Hm : sst_generation h ∈ cmd_id <$> cf_metadata (cf_name_of ks tbl) self0).
    { rewrite Eq. apply Hids. rewrite mjoin_cons. apply elem_of_app. by left. }
    unfold cf_metadata in Hm. rewrite <- list_fmap_compose in Hm. apply list_elem_of_fmap in Hm as (h0 & E0 & Hh0). cbn in E0.
    apply elem_of_filter_bool in Hh0 as [Hh0 Hcf%String.eqb_eq].
    destruct (proj2 Hs h Hh) as [Hold|Hnew].
    + assert (h = h0) as -> by (eapply live_same_gen; [exact Ht|by apply live_good|by apply live_good|done]).
      destruct (proj1 (Forall_forall _ _) (tk_disk _ Ht) h0 (live_good _ _ Ht Hh0)) as [s0 [_ _ _ Hd]].
      apply cf_name_inj in Hcf; [done..|by eapply Htables].
    + pose proof (tk_gen _ Ht h0 (live_good _ _ Ht Hh0)). lia.
  - cbn [compact_groups]. rewrite E in Hok |- *. apply IH; [|done|by eapply since_trans|done].
    intros i Hi. apply Hids. rewrite mjoin_cons. apply elem_of_app. by right.
Qed.

Lemma compact_tables_inv room self0 g clock order self :
  tabs_ok self0 -> Forall known order -> eng_inv room self g -> since self0 self ->
  compactions_ok clock ((fun cf => cf_metadata cf self0) <$> order) self ->
  eng_inv room (compact_tables config strategy clock ((fun cf => cf_metadata cf self0) <$> order) self).2 g.
Proof.
  intros Ht Ho. revert self. induction Ho as [|cf order Hcf _ IH]; intros self He Hs Hok; [done|].
  rewrite fmap_cons in Hok |- *. destruct Hok as [Hg Hok]. cbn [compact_tables]. destruct Hcf as (ks & tbl & Hk & ->).
  destruct (strategy_picks strategy (cf_metadata (cf_name_of ks tbl) self0) Hstrategy) as [Hsub _].
  destruct (compact_groups_inv room self0 g clock ks tbl (pick_compaction strategy (cf_metadata (cf_name_of ks tbl) self0)) self)
    as (self1 & E & He1 & Hs1); [done|done| |done..|].
  { intros i Hi. by eapply elem_of_submseteq. }
  rewrite E in Hok |- *. cbn [snd] in Hok. specialize (IH self1 He1 Hs1 Hok).
  by destruct (compact_tables _ _ _ _ self1) as [[e|rest] self2].
Qed.
Abbreviation compact := (maybe_compact config strategy).
Lemma compact_inv room self g clock order :
  eng_inv room self g -> Forall known order -> compactions_ok clock ((fun cf => cf_metadata cf self) <$> order) self ->
  eng_inv room (compact clock order self).2 g.
Proof. intros He Ho Hok. apply compact_tables_inv; [apply He|done|done|apply since_refl|done]. Qed.

(** ** Crashes *)

Lemma rows_only_updates m : rows_only m -> mutation_updates m = replayed_updates m.
Proof. intros (H1 & H2 & H3). unfold mutation_updates, replayed_updates. rewrite H1, H2, H3. by rewrite !app_nil_r. Qed.

(** The loop of the replay: what it applies is held, and nothing else. *)
Lemma replay_fold room self g_all ms :
  parts_ok (room + Z.of_nat (length ms)) 0 self -> 0 <= room -> Forall mut_ok g_all ->
  (forall m, m ∈ ms -> m ∈ g_all /\ rows_only m) -> (forall cf, db_below (total self cf) (written g_all cf)) ->
  let self' := set_memtables (foldl replay_mutation (eng_memtables self) ms) self in
  parts_ok room 0 self' /\ (forall cf, db_below (total self' cf) (written g_all cf))
  /\ (forall m, m ∈ ms -> in_memtable self' 0 m) /\ (forall m, m ∈ g_all -> in_memtable self 0 m -> in_memtable self' 0 m).
Proof.
  intros Hp Hroom Ha. revert self Hp. induction ms as [|m ms IH]; intros self Hp Hms Hu.
  - cbn [foldl length] in *. rewrite Z.add_0_r in Hp. assert (set_memtables (eng_memtables self) self = self) as -> by by destruct self.
    split; [done|]. split; [done|]. split; [by intros m ?%not_elem_of_nil|done].
  - destruct (Hms m ltac:(left)) as [Hm Hr]. assert (Hmo : mut_ok m) by by apply (proj1 (Forall_forall _ _) Ha).
    pose proof (rows_only_updates m Hr) as Eu. cbn [foldl length] in *.
    assert (Hpm : mm_inv (room + Z.of_nat (length ms) + 1) (mt_ok 0) (eng_memtables self)) by (eapply mm_inv_weaken; [| |exact (pk_mm _ _ _ _ _ Hp)]; [lia|done]).
    pose proof (take_ok (room + Z.of_nat (length ms) + 1) 0 self m (mutation_updates m) 0 id ltac:(lia) Hpm ltac:(lia) (known_of m Hmo) (mo_wf m Hmo) (mo_in m Hmo) ltac:(done))
      as Htake. rewrite Eu in Htake.
    assert (Hstep : exists mm1, replay_mutation (eng_memtables self) m = mm1 /\ mm_inv (room + Z.of_nat (length ms)) (mt_ok 0) mm1
      /\ exists i mt mt', forall self' : Engine, eng_memtables self' = mm1 -> eng_sstables self' = eng_sstables self ->
           took self self' m (replayed_updates m) i mt mt').
    { unfold replay_mutation. destruct (MemtableManager_get_or_create _ _ _) as [i mm1]. destruct Htake as (Hi & _ & mt & mt' & Ht).
      eexists. split; [done|]. split; [eapply mm_inv_weaken; [| |exact Hi]; [lia|done]|]. by exists i, mt, mt'. }
    destruct Hstep as (mm1 & -> & Hi1 & i & mt & mt' & Htook). set (self1 := set_memtables mm1 self).
    specialize (Htook self1 eq_refl eq_refl).
    assert (Hp1 : parts_ok (room + Z.of_nat (length ms)) 0 self1) by (split; [exact Hi1|apply Hp]).
    pose proof (mutation_dom m Hmo) as Hin. unfold mutation_view in Hin. rewrite Eu in Hin.
    destruct (IH self1 Hp1) as (H1 & H2 & H3 & H4).
    + intros x Hx. apply Hms. by right.
    + intros cf. destruct (decide (cf = mutation_cf m)) as [->|Hne].
      * rewrite (took_total _ _ _ _ _ _ _ _ _ _ _ Hp Hp1 Htook Hin).
        apply (db_join_below (W (mutation_cf m))); [done|eapply total_dom; [done|exact Hp]|done|by apply written_dom|]. split; [done|].
        pose proof (written_upper g_all m Ha Hm) as Hw. unfold mutation_view in Hw. by rewrite Eu in Hw.
      * by rewrite (took_total_other _ _ _ _ _ _ _ _ _ _ _ Hp Hp1 Htook).
    + split; [done|]. split; [done|].
      assert (Hheld : forall x, x ∈ g_all -> in_memtable self 0 x -> in_memtable self1 0 x).
      { intros x Hx Hin'. eapply took_held; [exact Hp|exact Hp1|exact Htook|exact Hin|exact Hin'|]. by apply (proj1 (Forall_forall _ _) Ha). }
      split; [|by auto]. intros x [->|Hx]%elem_of_cons; [|by apply H3]. apply H4; [done|].
      exists i, mt'. pose proof (tk_mt _ _ _ _ _ _ _ Htook) as Hmt. split; [done|].
      assert (Hlow : commitlog_lower_bound mt' <= 0).
      { by destruct (at_ok _ _ _ _ _ Hp1 _ _ _ Hmt) as (_ & _ & [_ ?]). }
      split; [done|]. unfold mutation_view. rewrite Eu. apply (took_parts _ _ self self1 m _ i mt mt' Hp Htook Hin).
Qed.

Abbreviation replay_log := (CommitLog_replay_with_policy decompress_size_prepended crc32 from_slice lconfig).
Definition reopened (tails : gmap Z (list Z)) (self : Engine) : Engine :=
  engine_open config (crash_fs tails (cl_fs (eng_log self))) (eng_disk self).
Definition recovered (tails : gmap Z (list Z)) (policy : CorruptionPolicy) (self : Engine) : list Mutation :=
  rr_mutations (replay_log policy (eng_log (reopened tails self))).1.
Definition restart (tails : gmap Z (list Z)) (policy : CorruptionPolicy) (cache : option nat) (self : Engine) : Engine :=
  set_row_cache (RowCache_new <$> cache) (replay_commitlog decompress_size_prepended crc32 from_slice config policy (reopened tails self)).
(** What the replay has read counts from then on as taken. *)
Definition ghost_crash (ms : list Mutation) (g : Ghost) : Ghost := mkGhost (mkLedger (led_durable (gh_ledger g)) []) (gh_all g ++ ms).

(** What a replay reads, stray bytes included, are well-formed mutations of the
    tables that consist of rows. *)
Record crash_ok (tails : gmap Z (list Z)) (policy : CorruptionPolicy) (self : Engine) : Prop := {
  co_known m : m ∈ recovered tails policy self -> (mu_keyspace m, mu_table m) ∈ tables /\ Forall update_wf (mutation_updates m);
  co_rows m : m ∈ recovered tails policy self -> rows_only m;
  co_size : Z.of_nat (length (recovered tails policy self)) < 2 ^ 62;
}.

Lemma max_generation (hs : list H) (n : Z) :
  (forall h, h ∈ hs -> 0 <= sst_generation h < n) ->
  let mx := foldl (fun g h => g `max` sst_generation h) 0 hs in
  0 <= mx /\ (forall h, h ∈ hs -> sst_generation h <= mx) /\ (mx = 0 \/ mx < n).
Proof.
  intros Hn mx. assert (Hf : forall hs g, 0 <= g -> (forall h, h ∈ hs -> 0 <= sst_generation h < n) ->
    let mx := foldl (fun g h => g `max` sst_generation h) g hs in g <= mx /\ (forall h, h ∈ hs -> sst_generation h <= mx) /\ (mx = g \/ mx < n)).
  { clear. induction hs as [|h hs IH]; intros g Hg Hn; cbv zeta; cbn [foldl]; [split; [lia|]; split; [by intros h ?%not_elem_of_nil|by left]|].
    pose proof (Hn h ltac:(left)). destruct (IH (g `max` sst_generation h)) as (H1 & H2 & H3); [lia|intros; apply Hn; by right|].
    cbv zeta in *. split; [lia|]. split; [|lia]. intros h' [->|Hh']%elem_of_cons; [lia|by apply H2]. }
  apply Hf; [lia|done].
Qed.
Lemma reopened_ok room self g tails :
  1 <= room -> eng_inv room self g -> room < 2 ^ 63 ->
  let self0 := reopened tails self in
  (exists G F, log_invariant (room - 1) (eng_log self0) G /\ ledger_ok (eng_log self0) G F
     /\ led_rel self (mkLedger (led_durable (gh_ledger g)) []) F)
  /\ tabs_ok self0 /\ (forall r, 0 <= r -> r + 1 < 2 ^ 64 -> parts_ok r 0 self0)
  /\ (forall cf, db_below (tview self cf) (tview self0 cf)) /\ (forall cf, db_below (total self0 cf) (written (gh_all g) cf)).
Proof.
  intros Hroom He Hmax self0. destruct (ei_log _ _ _ He) as (G & F & Hl & HL & Hrel). pose proof (ei_tabs _ _ _ He) as Ht.
  destruct (log_step_inv compress_prepend_size decompress_size_prepended crc32 to_vec from_slice lconfig room (eng_log self) G F
    (LCrash tails) Hroom Hl HL I) as (G' & Hl' & HL'). cbn [log_step fst snd] in Hl', HL'.
  assert (Hsort : eng_sstables self0 ≡ₚ eng_disk self) by apply sort_by_perm.
  assert (Hdisk : eng_disk self0 = eng_disk self) by done.
  assert (Hp0 : forall r, 0 <= r -> r + 1 < 2 ^ 64 -> parts_ok r 0 self0).
  { intros r Hr Hr'. split; [apply mm_inv_new; lia|]. rewrite Hsort. apply Ht. }
  assert (Hlive : forall h cf, h ∈ tables_of self cf -> h ∈ tables_of self0 cf).
  { intros h cf [Hh Hcf]%elem_of_filter_bool. apply elem_of_filter_bool. split; [|done]. rewrite Hsort. by apply live_good. }
  pose proof (Hp0 0 ltac:(lia) ltac:(lia)) as Hp00. pose proof (ei_parts _ _ _ He) as Hp. split_and!.
  - exists G', (mkLedger (led_durable F) []). split; [exact Hl'|]. split; [exact HL'|]. destruct Hrel as [Hd Hv]. split; [done|].
    intros e He'. by apply not_elem_of_nil in He'.
  - destruct Ht as [T1 T2 T3 T4 T5 T6]. destruct (max_generation (eng_disk self) _ T3) as (M1 & M2 & M3).
    assert (Hnext : eng_next_generation self0 = foldl (fun g h => g `max` sst_generation h) 0 (eng_disk self) + 1).
    { unfold self0, reopened, engine_open. cbn [eng_next_generation load_existing_sstables]. apply wrap_u_id. unfold in_u. lia. }
    split; rewrite ?Hdisk, ?Hnext; try done.
    + intros h Hh. specialize (T3 h Hh). specialize (M2 h Hh). lia.
    + rewrite Hsort. done.
    + lia.
  - exact Hp0.
  - intros cf. eapply tview_below; [done|exact Hp|eapply tview_dom; [done|exact Hp00]|]. intros h Hh. eapply table_tview; [done|exact Hp00|by apply Hlive].
  - intros cf. pose proof (written_dom (gh_all g) cf (ei_all _ _ _ He)) as Hwd. eapply total_below; [done|exact Hp00|done| |].
    + intros id mt [[Ha|Hf] _]; [by cbn in Ha; rewrite lookup_empty in Ha|by apply not_elem_of_nil in Hf].
    + eapply tview_below; [done|exact Hp00|done|]. intros h [Hh <-%String.eqb_eq]%elem_of_filter_bool. rewrite Hsort in Hh.
      by apply (ei_disk _ _ _ He).
Qed.
Lemma restart_inv room self g tails policy cache :
  1 <= room -> room < 2 ^ 62 -> eng_inv room self g -> crash_ok tails policy self ->
  Forall mut_ok (recovered tails policy self) ->
  eng_inv (room - 1) (restart tails policy cache self) (ghost_crash (recovered tails policy self) g).
Proof.
  intros Hroom Hmax He [_ Hrows Hsize] Hmuts. unfold restart, replay_commitlog.
  destruct (reopened_ok room self g tails Hroom He ltac:(lia)) as ((G & F & Hl & HL & Hrel) & Ht & Hp & Htv & Hu). set (self0 := reopened tails self) in *.
  destruct (replay_inv compress_prepend_size decompress_size_prepended crc32 to_vec from_slice lconfig _ _ _ policy Hl) as [Hl' Hcur].
  pose proof (fun t m => replay_returns compress_prepend_size decompress_size_prepended crc32 to_vec from_slice lconfig (room - 1) (eng_log self0) G F
    policy t m ltac:(lia) Hl HL) as Hret. unfold recovered in *. fold self0 in Hrows, Hsize, Hmuts |- *.
  destruct (replay_log policy (eng_log self0)) as [result log]. cbn [fst snd] in *. set (ms := rr_mutations result) in *.
  assert (Hall : Forall mut_ok (gh_all g ++ ms)) by (apply Forall_app; split; [apply He|done]).
  assert (Hmono : forall cf, db_below (written (gh_all g) cf) (written (gh_all g ++ ms) cf))
    by (intros cf; apply written_mono; [apply He|done|]; intros m Hm; apply elem_of_app; by left).
  assert (Hwd : forall cf, db_in (W cf) (written (gh_all g) cf) /\ db_in (W cf) (written (gh_all g ++ ms) cf))
    by (intros cf; split; apply written_dom; [apply He|done]).
  destruct (replay_fold (room - 1) self0 (gh_all g ++ ms) ms) as (Hp1 & Hu1 & Hin & _).
  - apply Hp; lia.
  - lia.
  - done.
  - intros m Hm. split; [apply elem_of_app; by right|by apply Hrows].
  - intros cf. eapply (db_trans (W cf) (HW cf) _ (written (gh_all g) cf)); [eapply total_dom; [done|apply (Hp 0); lia]|apply Hwd|apply Hwd|apply Hu|apply Hmono].
  - cbn [eng_memtables set_log]. set (self1 := set_memtables (foldl replay_mutation (eng_memtables self0) ms) self0) in *.
    set (self' := set_row_cache _ _).
    assert (Hcur0 : 0 <= cur_id log) by (rewrite Hcur; apply (li_ids _ _ _ _ _ _ _ Hl), (li_cur _ _ _ _ _ _ _ Hl)).
    assert (Hit : forall m, m ∈ gh_all g -> in_tables self m -> in_tables self' m).
    { intros m Hm Hb. assert (Hmo : mut_ok m) by by apply (proj1 (Forall_forall _ _) (ei_all _ _ _ He)).
      eapply (db_trans (W (mutation_cf m)) (HW _) _ (tview self (mutation_cf m))); [by apply mutation_dom|eapply tview_dom; [done|apply He]|
        eapply (tview_dom W HW _ _ _ _ Hp1)|exact Hb|apply Htv]. }
    split.
    + exists G, F. split; [exact Hl'|].
      assert (Hld : ledger_ok log G F) by (intros t; unfold held; rewrite Hcur; apply HL). split; [exact Hld|].
      eapply led_rel_mono; [|exact Hrel]. intros m ([t x] & -> & Hx)%list_elem_of_fmap Hb. apply Hit; [|done]. simpl.
      unfold led_all in Hx. cbn [led_durable led_volatile] in Hx. rewrite app_nil_r in Hx. eapply (ei_held _ _ _ He t). apply elem_of_app. by left.
    + split; [|apply Hp1]. eapply mm_inv_weaken; [reflexivity| |exact (pk_mm _ _ _ _ _ Hp1)]. intros cf mt (? & ? & ?). split; [done|]. split; [done|].
      cbn [eng_log self' set_row_cache set_memtables set_log]. lia.
    + by destruct Ht.
    + intros c ks tbl pk p Ec _ Hcached. cbn in Ec. destruct cache as [n|]; [|done]. apply (inj Some) in Ec as <-. by rewrite cached_new in Hcached.
    + intros t m Htm. unfold led_all in Htm. cbn [ghost_crash gh_ledger led_durable led_volatile] in Htm. rewrite app_nil_r in Htm.
      destruct (ei_held _ _ _ He t m) as (H1 & H2 & _); [apply elem_of_app; by left|]. split; [done|]. split; [apply elem_of_app; by left|].
      destruct (proj1 Hrel (t, m) Htm) as [Hd|Hb]; [left|right; by apply Hit].
      destruct (Hin m (Hret t m Hd)) as (id & mt & Hm & Hlo & Hv). exists id, mt. split; [exact Hm|]. split; [lia|exact Hv].
    + exact Hu1.
    + done.
    + intros h Hh. eapply (db_trans (W (sst_cf_name h)) (HW _) _ (written (gh_all g) (sst_cf_name h)));
        [|apply Hwd|apply Hwd|by apply (ei_disk _ _ _ He)|apply Hmono].
      apply good_in. by apply (proj1 (Forall_forall _ _) (tk_disk _ (ei_tabs _ _ _ He))).
Qed.

(** ** Steps *)

Definition engine_step (st : Engine * Ghost) (op : EngineOp) : Engine * Ghost :=
  let '(self, g) := st in
  match op with
  | EWrite m => ((apply_m m self).2, ghost_append m self g)
  | ESync =>
      match CommitLog_sync lconfig (eng_log self) with
      | (inr _, log) => (set_log log self, mkGhost (mkLedger (led_all (gh_ledger g)) []) (gh_all g))
      | (inl _, log) => (set_log log self, g)
      end
  | ERead ks tbl pk => ((read_p ks tbl pk self).2, g)
  | EFlushBegin cf => ((flush_begin cf self).2, g)
  | EFlushEnd cf id => ((flush_end config cf id self).2, g)
  | EFlush cf => ((flush_cf config cf self).2, g)
  | ECompact clock order => ((compact clock order self).2, g)
  | ECrash tails policy cache => (restart tails policy cache self, ghost_crash (recovered tails policy self) g)
  end.
(** When a step is one the engine is made for. *)
Definition op_ok (st : Engine * Ghost) (op : EngineOp) : Prop :=
  let '(self, g) := st in
  match op with
  | EWrite m => (mu_keyspace m, mu_table m) ∈ tables /\ Forall update_wf (mutation_updates m) /\ log_fits m
                /\ flush_fits (insert m self).2 (mutation_cf m)
  | ESync => True
  | ERead ks tbl pk => (ks, tbl) ∈ tables /\ (eng_row_cache self = None \/ settled self (cf_name_of ks tbl))
  | EFlushBegin cf => known cf
  | EFlushEnd cf id => (cf, id) ∈ mm_flushing (eng_memtables self) /\ memtable_fits self id
  | EFlush cf => known cf /\ flush_fits self cf
  | ECompact clock order => Forall known order /\ compactions_ok clock ((fun cf => cf_metadata cf self) <$> order) self
  | ECrash tails policy cache => crash_ok tails policy self
  end.
(** The mutations a run meets: those it is to write and those its replays read. *)
Definition op_mutations (st : Engine * Ghost) (op : EngineOp) : list Mutation :=
  match op with EWrite m => [m] | ECrash tails policy _ => recovered tails policy st.1 | _ => [] end.
Fixpoint mutations_met (st : Engine * Ghost) (ops : list EngineOp) : list Mutation :=
  match ops with [] => [] | op :: ops => op_mutations st op ++ mutations_met (engine_step st op) ops end.
Fixpoint ops_ok (st : Engine * Ghost) (ops : list EngineOp) : Prop :=
  match ops with [] => True | op :: ops => op_ok st op /\ ops_ok (engine_step st op) ops end.

Lemma sync_step_inv room self g : 1 <= room -> eng_inv room self g -> eng_inv (room - 1) (engine_step (self, g) ESync).1 (engine_step (self, g) ESync).2.
Proof.
  intros Hroom He. destruct (ei_log _ _ _ He) as (G & F & Hl & HL & [Hd Hv]). cbn [engine_step].
  destruct (log_step_inv compress_prepend_size decompress_size_prepended crc32 to_vec from_slice lconfig room (eng_log self) G F LSync Hroom Hl HL I)
    as (G' & Hl' & HL'). cbn [log_step] in Hl', HL'.
  destruct (sync_inv compress_prepend_size crc32 to_vec lconfig room (eng_log self) G ltac:(lia) Hl) as (r & log & E & _ & Hcur).
  rewrite E in Hl', HL' |- *. destruct r as [e|[]]; cbn [fst snd] in *.
  - eapply set_log_inv; [exact He|lia|exact Hl'|lia|exact HL'|done|done|done].
  - eapply set_log_inv; [exact He|lia|exact Hl'|lia|exact HL'| |done|].
    + split; cbn [led_durable led_volatile gh_ledger]; [|by intros e ?%not_elem_of_nil].
      intros e [He'|He']%elem_of_app; [destruct (Hd e He')|destruct (Hv e He')]; auto; left; apply elem_of_app; auto.
    + intros e. unfold led_all. cbn [led_durable led_volatile gh_ledger]. by rewrite app_nil_r.
Qed.
Lemma step_inv room self g op :
  3 <= room -> room < 2 ^ 62 -> eng_inv room self g -> op_ok (self, g) op ->
  Forall mut_ok (op_mutations (self, g) op) ->
  eng_inv (room - 3) (engine_step (self, g) op).1 (engine_step (self, g) op).2.
Proof.
  intros Hroom Hmax He Hok Hmo. destruct op as [m| |ks tbl pk|cf|cf id|cf|clock order|tails policy cache]; cbn [engine_step op_ok op_mutations fst snd] in *.
  - destruct Hok as (_ & _ & Hlf & Hff). apply Forall_cons in Hmo as [Hmo _]. apply apply_inv; auto.
  - eapply eng_inv_weaken; [|apply (sync_step_inv room self g); [lia|done]]. lia.
  - destruct Hok as [Hk Hq]. eapply eng_inv_weaken; [|apply (read_inv room self g ks tbl pk); [lia|done..]]. lia.
  - eapply eng_inv_weaken; [|apply (flush_begin_inv room self g cf); [lia|done..]]. lia.
  - destruct Hok as [Hf Hfit]. eapply eng_inv_weaken; [|apply (flush_end_inv room self g cf id); [lia|done..]]. lia.
  - destruct Hok as [Hk Hfit]. eapply eng_inv_weaken; [|apply (flush_cf_inv room self g cf); [lia|done..]]. lia.
  - destruct Hok as [Hk Hfit]. eapply eng_inv_weaken; [|apply (compact_inv room self g clock order); done]. lia.
  - eapply eng_inv_weaken; [|apply (restart_inv room self g tails policy cache); [lia|done..]]. lia.
Qed.
Abbreviation run := (foldl engine_step).
Lemma run_inv room self g ops :
  3 * Z.of_nat (length ops) <= room -> room < 2 ^ 62 -> eng_inv room self g -> ops_ok (self, g) ops -> Forall mut_ok (mutations_met (self, g) ops) ->
  eng_inv (room - 3 * Z.of_nat (length ops)) (run (self, g) ops).1 (run (self, g) ops).2.
Proof.
  revert room self g. induction ops as [|op ops IH]; intros room self g Hroom Hmax He Hok Hm; [eapply eng_inv_weaken; [|exact He]; simpl; lia|].
  destruct Hok as [Hop Hok]. cbn [length foldl] in *.
  cbn [mutations_met] in Hm. apply Forall_app in Hm as [Hmo Hms]. pose proof (step_inv room self g op ltac:(lia) Hmax He Hop Hmo) as He1.
  destruct (engine_step (self, g) op) as [self1 g1]. cbn [fst snd] in He1.
  eapply eng_inv_weaken; [|apply (IH (room - 3) self1 g1); [lia|lia|done..]]. lia.
Qed.

(** ** Where runs begin, and what they come to *)

Definition started (fs : Fs) (cache : option nat) : Engine := set_row_cache (RowCache_new <$> cache) (engine_open config fs []).
Definition no_ghost : Ghost := mkGhost (mkLedger [] []) [].

Lemma started_inv room B fs cache :
  0 <= room -> 0 < B -> B + 1 + room < 2 ^ 64 -> fs_wf fs -> ids_below lconfig B fs -> eng_inv room (started fs cache) no_ghost.
Proof.
  intros Hroom HB Hmax Hfs Hids.
  destruct (open_log_inv compress_prepend_size crc32 to_vec lconfig room B fs ∅ Hroom HB Hmax Hfs) as (Hl & _);
    [intros id ms us E; by rewrite lookup_empty in E|done|].
  assert (Hcur : 0 <= cur_id (CommitLog_open lconfig fs)) by (apply (li_ids _ _ _ _ _ _ _ Hl), (li_cur _ _ _ _ _ _ _ Hl)).
  split; try done.
  - eexists _, (mkLedger [] []). split; [exact Hl|]. split; [intros t; split; apply sublist_nil_l|].
    split; intros e Hx; by apply not_elem_of_nil in Hx.
  - split; [apply mm_inv_new; lia|done].
  - split; cbn; try done; try (by constructor); try (by intros h ?%not_elem_of_nil).
  - intros c ks tbl pk p Ec _ Hc. cbn in Ec. destruct cache as [n|]; [|done]. apply (inj Some) in Ec as <-. by rewrite cached_new in Hc.
  - intros t m Htm. by apply not_elem_of_nil in Htm.
  - intros h Hx. by apply not_elem_of_nil in Hx.
Qed.

(** What is counted on can be read. *)
Lemma held_total room self g t m :
  eng_inv room self g -> (t, m) ∈ led_all (gh_ledger g) -> db_below (mutation_view m) (total self (mutation_cf m)).
Proof.
  intros He Htm. destruct (ei_held _ _ _ He t m Htm) as (_ & Hm & Hin).
  assert (Hmo : mut_ok m) by by apply (proj1 (Forall_forall _ _) (ei_all _ _ _ He)). pose proof (ei_parts _ _ _ He) as Hp.
  assert (Hd : db_in (W (mutation_cf m)) (total self (mutation_cf m))) by (eapply total_dom; [done|exact Hp]).
  destruct Hin as [(id & mt & Hmt & _ & Hv)|Ht].
  - eapply (db_trans (W (mutation_cf m)) (HW _) _ (mt_view mt)); [by apply mutation_dom|eapply mt_dom; [exact Hp|exact Hmt]|done|done|].
    eapply mem_total; [done|exact Hp|exact Hmt].
  - eapply (db_trans (W (mutation_cf m)) (HW _) _ (tview self (mutation_cf m))); [by apply mutation_dom|eapply tview_dom; [done|exact Hp]|done|done|].
    eapply tview_total; [done|exact Hp].
Qed.
Lemma all_held room self g cf :
  eng_inv room self g -> (forall m, m ∈ gh_all g -> m ∈ (led_all (gh_ledger g)).*2) -> total self cf = written (gh_all g) cf.
Proof.
  intros He Hall. pose proof (ei_all _ _ _ He) as Ha.
  assert (Hd : db_in (W cf) (total self cf)) by (eapply total_dom; [done|apply He]).
  apply (db_antisym (W cf)); [done|done|by apply written_dom|apply He|].
  apply (db_sup_below (W cf)); [done|by apply of_table_dom|done|].
  intros v (m & -> & [Hm <-%String.eqb_eq]%elem_of_filter_bool)%list_elem_of_fmap.
  apply Hall, list_elem_of_fmap in Hm as ([t x] & -> & Hx). by eapply held_total.
Qed.

Lemma spec_update_view pk db u :
  db_wf db -> update_wf u -> db_wf (spec_update pk db u) /\ db_of (spec_update pk db u) = db_join (db_of db) (update_view pk u).
Proof.
  intros Hd Hu. destruct u as [row|ts ldt]; (apply upsert_view; [|done]); intros p Hp; [by apply apply_row_view|by apply set_tombstone_view].
Qed.
Lemma spec_mutation_view db m :
  db_wf db -> db_in (W (mutation_cf m)) (db_of db) -> mut_ok m ->
  db_wf (spec_mutation db m) /\ db_of (spec_mutation db m) = db_join (db_of db) (mutation_view m).
Proof.
  intros Hd Hi [_ Hw Hin]. unfold mutation_view, updates_view. rewrite <- (db_sup_fold (W (mutation_cf m))); [|done|done|by apply Forall_fmap].
  unfold spec_mutation. clear Hi Hin. revert db Hd. induction Hw as [|u us Hu Hus IH]; intros db Hd; [done|].
  destruct (spec_update_view (mu_partition_key m) db u Hd Hu) as [H1 H2]. rewrite fmap_cons. cbn [foldl]. rewrite <- H2. by apply IH.
Qed.
Lemma reference_view ms cf : Forall mut_ok ms -> db_of (reference ms cf) = written ms cf.
Proof.
  intros Hms. unfold reference, written, db_sup.
  assert (H0 : db_wf (∅ : Partitions) /\ db_of (∅ : Partitions) = ∅).
  { split; [intros k p E; by rewrite lookup_empty in E|apply fmap_empty]. }
  destruct H0 as [Hw E0]. rewrite <- E0. assert (Hd : db_in (W cf) (db_of (∅ : Partitions))) by (rewrite E0; apply dom_empty).
  clear E0. revert Hw Hd. generalize (∅ : Partitions). unfold of_table. induction Hms as [|m ms Hm _ IH]; intros db Hw Hd; [done|].
  cbn [List.filter]. destruct (String.eqb_spec (mutation_cf m) cf) as [<-|]; [|by apply IH].
  rewrite fmap_cons. cbn [foldl]. destruct (spec_mutation_view db m Hw Hd Hm) as [H1 H2]. rewrite <- H2. apply IH; [done|].
  rewrite H2. apply (dom_join (W _)); [done|done|by apply mutation_dom].
Qed.

Lemma step_keeps_all st op :
  (match op with ECrash _ _ _ => False | _ => True end) ->
  (forall m, m ∈ gh_all st.2 -> m ∈ (led_all (gh_ledger st.2)).*2) ->
  forall m, m ∈ gh_all (engine_step st op).2 -> m ∈ (led_all (gh_ledger (engine_step st op).2)).*2.
Proof using Type.
  destruct st as [self g]. cbn [snd]. intros Hop Hall. destruct op; try done.
  - cbn [engine_step snd]. unfold ghost_append. destruct (CommitLog_append _ _ _ _ _ _) as [[e|[t off]] log]; [done|].
    cbn [gh_all gh_ledger]. intros x Hx.
    assert (Hin : forall e, e ∈ led_all (gh_ledger g) \/ e = (t, m) -> e ∈ led_all (led_append m t (gh_ledger g))).
    { intros e. clear. unfold led_all, ledger_append. destruct (sync_policy lconfig); cbn [led_durable led_volatile];
        rewrite !elem_of_app, !elem_of_filter_bool, ?list_elem_of_singleton, ?negb_true_iff; destruct (e.1 =? t); naive_solver. }
    apply elem_of_app in Hx as [Hx|Hx].
    + apply Hall, list_elem_of_fmap in Hx as (e & -> & He). apply list_elem_of_fmap_2, Hin. by left.
    + apply list_elem_of_singleton in Hx as ->. apply list_elem_of_fmap. exists (t, m). split; [done|]. apply Hin. by right.
  - cbn [engine_step snd]. destruct (CommitLog_sync _ _) as [[e|[]] log]; [done|]. cbn [snd gh_ledger gh_all]. unfold led_all at 1.
    cbn [led_durable led_volatile]. by rewrite app_nil_r.
Qed.
Lemma run_keeps_all ops st :
  crash_free ops -> (forall m, m ∈ gh_all st.2 -> m ∈ (led_all (gh_ledger st.2)).*2) ->
  forall m, m ∈ gh_all (run st ops).2 -> m ∈ (led_all (gh_ledger (run st ops).2)).*2.
Proof.
  intros Hc. revert st. induction Hc as [|op ops Hop _ IH]; intros st Hst; [done|]. cbn [foldl]. apply IH. by apply step_keeps_all.
Qed.
End Correct.
