(* ===== verification/EngineRuns.v ===== *)
(** * Runs of the storage engine

    The two theorems on the engine of [Engine]: without crashes it reads as the
    map that was never flushed or compacted, and after any crashes what was
    durable is still read, and nothing that was neither written nor read back from
    the log.  Both follow from the invariant of [EngineCorrect]; the tables can be
    those of [BigTables]. *)
From S2P Require Export BigTables EngineCorrect.

Section Runs.
Context (compress_prepend_size : list Z -> list Z) (decompress_size_prepended : list Z -> option (list Z))
  (crc32 : list Z -> Z) (to_vec : Mutation -> option (list Z)) (from_slice : list Z -> option Mutation).
Context (config : EngineConfig).
Abbreviation lconfig := (ec_commitlog config).
Context {H : Type} `{Isst : SSTables H} (tfits : PartitionVec -> Prop) {L : Type} `{Ilru : LruCache L}.
Context {S : Type} `{Istr : CompactionStrategy S} (strategy : S).
Context (table_hash : string -> string -> Z) (tables : list (string * string)).
Abbreviation step := (engine_step compress_prepend_size decompress_size_prepended crc32 to_vec from_slice config strategy table_hash).
Abbreviation steps_ok := (ops_ok compress_prepend_size decompress_size_prepended crc32 to_vec from_slice config tfits strategy table_hash tables).

(** The engine on an empty data directory, and the operations applied to it. *)
Definition run_from (fs : Fs) (cache : option nat) (ops : list EngineOp) : Engine H L * Ghost :=
  foldl step (started config fs cache, no_ghost) ops.

Abbreviation met := (mutations_met compress_prepend_size decompress_size_prepended crc32 to_vec from_slice config strategy table_hash).
Lemma met_wf st ops m :
  steps_ok st ops -> m ∈ met st ops -> (mu_keyspace m, mu_table m) ∈ tables /\ Forall update_wf (mutation_updates m).
Proof.
  revert st. induction ops as [|op ops IH]; intros [self g] Hok Hm; [by apply not_elem_of_nil in Hm|]. destruct Hok as [Hop Hok].
  cbn [mutations_met] in Hm. apply elem_of_app in Hm as [Hm|Hm]; [|by eapply IH].
  destruct op; cbn in Hm, Hop; try by apply not_elem_of_nil in Hm.
  - apply list_elem_of_singleton in Hm as ->. by destruct Hop as (? & ? & _).
  - by apply (co_known _ _ _ _ _ _ _ _ Hop).
Qed.
Lemma met_ok st ops : steps_ok st ops -> Forall (mut_ok tables (history (met st ops))) (met st ops).
Proof.
  intros Hok. apply Forall_forall. intros m Hm. destruct (met_wf st ops m Hok Hm) as [Hk Hw]. split; [done..|].
  apply Forall_forall. intros u Hu. apply update_in_history; [done|done|]. by apply (proj1 (Forall_forall _ _) Hw).
Qed.

Context (HLL : LogLaws compress_prepend_size decompress_size_prepended crc32 to_vec from_slice lconfig).
Context (sok : S -> Prop) `{Isstl : !SSTablesLaws H tfits} `{Ilrul : !LruLaws L} `{Istrl : !StrategyLaws S sok} (Hstrategy : sok strategy).
Context (Htables : forall ks tbl, (ks, tbl) ∈ tables -> dotless ks).
Context (Hhash : forall ks tbl ks' tbl', (ks, tbl) ∈ tables -> (ks', tbl') ∈ tables ->
  table_hash ks tbl = table_hash ks' tbl' -> ks = ks' /\ tbl = tbl').
Context (fs : Fs) (cache : option nat) (B : Z) (Hfs : fs_wf fs) (HB : 0 < B) (Hids : ids_below lconfig B fs).
Context (ops : list EngineOp) (Hroom : B + 2 + 3 * Z.of_nat (length ops) < 2 ^ 62).
Context (Hok : steps_ok (started config fs cache, no_ghost) ops).
Abbreviation W := (history (met (started config fs cache, no_ghost) ops)).
Context (HW : forall cf, hist_ok (W cf)).

Lemma reached :
  eng_inv compress_prepend_size crc32 to_vec config table_hash tables W 1
    (run_from fs cache ops).1 (run_from fs cache ops).2.
Proof.
  assert (Hi : eng_inv compress_prepend_size crc32 to_vec config table_hash tables W (1 + 3 * Z.of_nat (length ops))
    (started (H := H) (L := L) config fs cache) no_ghost) by (apply (started_inv _ _ _ _ _ _ _ _ B); (done || lia)).
  eapply eng_inv_weaken; [|eapply run_inv; [done..| | |exact Hi|exact Hok|eapply met_ok, Hok]]; lia.
Qed.
Lemma read_reached ks tbl pk (r := run_from fs cache ops) :
  (ks, tbl) ∈ tables -> settled r.1 (cf_name_of ks tbl) ->
  pview <$> (read_partition table_hash ks tbl pk r.1).1 = total r.1 (cf_name_of ks tbl) !! pk.
Proof. intros Hk Hs. eapply read_inv; [..|exact reached|exact Hk|by right|exact Hs]; try done; lia. Qed.

(** C3.  Without crashes the engine is a map.  After any sequence of writes,
    syncs, reads, flushes in one or two steps and compactions, on a log that
    rotates, discards and recycles its segments and with or without a row cache,
    a read returns what the mutations the log took make of an empty map, applied
    one by one and never flushed or compacted: the same cells and row deletions
    under every clustering key and the same partition deletion ([pview], so not
    the order of cells).  This is for runs in which
    - the mutations are of known tables, whose keyspaces have no dot and which
      the cache's hash tells apart, no row has a column twice, and together they
      are one history ([hist_ok]: two live cells of a column with one timestamp are
      the same cell, and so are two deleted ones and two partition deletions);
    - entries of the log fit 32 bits, tables that are written fit their format,
      and identifiers stay below 2^62;
    - compactions find nothing to purge ([fresh_p]: no row deletion, expired cell
      or partition deletion older than the grace period, no empty row);
    - no memtable of the table is being flushed when a read starts, neither this
      one nor, with a row cache, one of the run. *)
Theorem engine_refines_map (Hcrash : crash_free ops) ks tbl pk (Hk : (ks, tbl) ∈ tables)
    (Hs : settled (run_from fs cache ops).1 (cf_name_of ks tbl)) :
  pview <$> (read_partition table_hash ks tbl pk (run_from fs cache ops).1).1
  = pview <$> reference (gh_all (run_from fs cache ops).2) (cf_name_of ks tbl) !! pk.
Proof.
  rewrite read_reached by done. pose proof reached as Hi.
  rewrite (all_held _ _ _ _ _ _ _ HW _ _ _ _ Hi).
  - rewrite <- (reference_view tables _ HW); [|apply Hi]. unfold db_of. by rewrite lookup_fmap.
  - apply run_keeps_all; [done|]. by intros m ?%not_elem_of_nil.
Qed.

End Runs.

(** * An instance

    A table in the Big format, a sharded trie as memtable, a row cache of two
    partitions, size-tiered compaction and the encrypted, mirrored, rotating log
    of [Sample].  What the theorems ask of a run is decided by evaluation. *)
Module EngineSample.
Import SimpleLru.
Definition row (ck v : list Z) (ts : Z) : MutationRow := mkMutationRow ck [mkCellMutation "v" (Some v) ts 0 None false] false None.
Definition m0 : Mutation := mkMutation "ks" "t" [42] [row [1] [7] 5] 5 true [] None [].
Definition m1 : Mutation := mkMutation "ks" "t" [42] [row [1] [8] 6] 6 true [] None [].
Definition m2 : Mutation := mkMutation "ks" "t" [43] [row [] [10] 7] 7 true [] None [].
Definition samples : list Mutation := [m0; m1; m2].
Definition to_vec (m : Mutation) : option (list Z) := (fun e => [123; Z.of_nat e.1; 125]) <$> list_find (fun x => x = m) samples.
Definition from_slice (p : list Z) : option Mutation :=
  match p with [123; i; 125] => samples !! Z.to_nat i | _ => None end.
Definition config : EngineConfig := mkEngineConfig Sample.config 100000 ShardedTrie 864000 None.
Definition cf : string := cf_name_of "ks" "t".
Definition tables : list (string * string) := [("ks", "t")]%string.
Definition hash (keyspace table : string) : Z := 0.
Definition bits (n : nat) : Z := Z.of_nat n * 10.
Definition hashes (_ : Z) (_ : nat) : Z := 7.
#[export] Instance big : SSTables BigHandle := big_tables bits hashes Sample.crc32 (fun _ => None) (fun _ => true).
#[export] Instance big_ok : SSTablesLaws BigHandle (big_fits bits hashes Sample.crc32) := big_laws bits hashes Sample.crc32 (fun _ => None) (fun _ => true).
Abbreviation fits := (big_fits bits hashes Sample.crc32).
Abbreviation check := (big_check bits hashes Sample.crc32).
Abbreviation engine := (Engine BigHandle SimpleLru.t).
Definition step : engine * Ghost -> EngineOp -> engine * Ghost :=
  engine_step Sample.compress Sample.decompress Sample.crc32 to_vec from_slice config StrategySample.stcs hash.
Abbreviation run cache ops := (run_from (H := BigHandle) (L := SimpleLru.t) Sample.compress Sample.decompress Sample.crc32 to_vec from_slice
  config StrategySample.stcs hash Sample.empty_fs cache ops).

Lemma log_laws : LogLaws Sample.compress Sample.decompress Sample.crc32 to_vec from_slice (ec_commitlog config).
Proof.
  split; try apply Sample.laws. intros m p. unfold to_vec.
  destruct (list_find _ samples) as [[i x]|] eqn:E; [|done]. apply list_find_Some in E as (E & -> & _). intros [= <-].
  cbn [from_slice]. by rewrite Nat2Z.id.
Qed.

(** ** Deciding the conditions of a run *)

Definition room_check (self : engine) : bool := eng_next_generation self + 4 <? 2 ^ 64.
Definition memtable_check (self : engine) (id : Z) : bool :=
  match mm_heap (eng_memtables self) !! id with Some mt => check (Memtable_iter_partitions mt) && room_check self | None => true end.
Definition flush_check (self : engine) (cf : string) : bool :=
  match mm_active (eng_memtables self) !! cf with Some id => memtable_check self id | None => true end.
Definition write_check (m : Mutation) : bool :=
  bool_decide ((mu_keyspace m, mu_table m) ∈ tables) && bool_decide (m ∈ samples)
  && forallb (fun r => bool_decide (NoDup (Cell_column <$> Row_cells (row_of r)))) (mu_rows m).
Definition settled_check (self : engine) (cf : string) : bool := forallb (fun e => negb (String.eqb e.1 cf)) (mm_flushing (eng_memtables self)).
Definition fresh_cells (cutoff now : Z) (p : PartitionData) : bool :=
  forallb (fun r => negb (Row_is_tombstone r) && forallb (gc_cell cutoff now) (Row_cells r) && match Row_cells r with [] => false | _ => true end)
    (values (pd_rows p))
  && bool_decide (tombstone_local_deletion_time p = None) && match entries (pd_rows p) with [] => false | _ => true end.
Definition group_check (now : Z) (ids : list Z) (self : engine) : bool :=
  forallb (fun h => match sst_iter_partitions h with
                    | inr l => forallb (fun e => fresh_cells (wrap_s 32 (now - ec_gc_grace_seconds config)) now e.2) l
                    | inl _ => false
                    end) (List.filter (in_group ids) (eng_sstables self))
  && forallb check (compaction_writes config now ids self)
  && (length (compaction_writes config now ids self) <=? 2)%nat && room_check self.
Definition crash_check (tails : gmap Z (list Z)) (policy : CorruptionPolicy) (st : engine * Ghost) : bool :=
  let ms := recovered Sample.decompress Sample.crc32 from_slice config tails policy st.1 in
  forallb write_check ms && (Z.of_nat (length ms) <? 2 ^ 62).

Lemma room_checked self : room_check self = true -> eng_next_generation self + 4 < 2 ^ 64.
Proof. apply Z.ltb_lt. Qed.
Lemma memtable_checked self id : memtable_check self id = true -> memtable_fits fits self id.
Proof.
  intros Hc mt Hm _. unfold memtable_check in Hc. rewrite Hm in Hc. apply andb_true_iff in Hc as [Hc Hr%room_checked].
  split; [by apply big_checked|lia].
Qed.
Lemma flush_checked self cf : flush_check self cf = true -> flush_fits fits self cf.
Proof. intros Hc id Ha. unfold flush_check in Hc. rewrite Ha in Hc. by apply memtable_checked. Qed.
Lemma settled_checked self cf : settled_check self cf = true -> settled self cf.
Proof.
  unfold settled_check. rewrite forallb_forall. intros Hc id Hin. apply list_elem_of_In, Hc in Hin. cbn [fst] in Hin.
  by rewrite String.eqb_refl in Hin.
Qed.
Lemma samples_rows m : m ∈ samples -> rows_only m.
Proof. intros Hm. unfold samples in Hm. set_unfold. by destruct Hm as [->|[->|[->|[]]]]. Qed.
Lemma samples_fit m : m ∈ samples -> LogRecovery.fits Sample.compress to_vec (ec_commitlog config) m.
Proof.
  intros Hm payload p Ev Ep. unfold samples in Hm. set_unfold. destruct Hm as [->|[->|[->|[]]]]; vm_compute in Ev; injection Ev as <-;
    vm_compute in Ep; injection Ep as <-; by vm_compute.
Qed.
Lemma write_checked m : write_check m = true ->
  (mu_keyspace m, mu_table m) ∈ tables /\ Forall update_wf (mutation_updates m) /\ m ∈ samples.
Proof.
  unfold write_check. rewrite !andb_true_iff, !bool_decide_eq_true, forallb_forall. intros ((Hk & Hm) & Hr). split_and!; [done| |done].
  rewrite (rows_only_updates m (samples_rows m Hm)). apply Forall_fmap, Forall_forall. intros r Hin%list_elem_of_In.
  specialize (Hr r Hin). by apply bool_decide_eq_true in Hr.
Qed.
Lemma fresh_checked cutoff now p : fresh_cells cutoff now p = true -> fresh_p cutoff now p.
Proof.
  unfold fresh_cells. rewrite !andb_true_iff, bool_decide_eq_true, forallb_forall. intros ((Hr & Ht) & Hn). split.
  - intros ck r Hl. specialize (Hr r). rewrite !andb_true_iff, negb_true_iff, forallb_forall in Hr.
    destruct Hr as ((H1 & H2) & H3).
    { apply list_elem_of_In. apply list_elem_of_fmap. exists (ck, r). split; [done|]. by apply ordmap_elem. }
    split; [by rewrite H1|apply Forall_forall; intros c Hc; apply H2; by apply list_elem_of_In|left; by destruct (Row_cells r)].
  - by rewrite Ht.
  - intros [= E _]. apply fmap_nil_inv in E. by rewrite E in Hn.
Qed.
Lemma group_checked now ids self : group_check now ids self = true -> group_ok config fits now ids self.
Proof.
  unfold group_check. rewrite !andb_true_iff, Nat.leb_le, !forallb_forall. intros (((Hf & Hc) & Hn) & Hr%room_checked). split; [|split].
  - intros h s Hin [_ _ Hi] k p Hp. specialize (Hf h). rewrite Hi, forallb_forall in Hf. apply fresh_checked.
    apply (Hf (proj1 (list_elem_of_In _ _) Hin) (k, p)). apply list_elem_of_In. by apply ordmap_elem.
  - apply Forall_forall. intros l Hl. apply big_checked, Hc. by apply list_elem_of_In.
  - lia.
Qed.
Fixpoint groups_check (clock : list Z -> Z) (groups : list (list Z)) (self : engine) : bool :=
  match groups with
  | [] => true
  | ids :: groups => group_check (clock ids) ids self && groups_check clock groups (compact_group config (clock ids) ids self).2
  end.
Fixpoint compactions_check (clock : list Z -> Z) (snapshot : list (list CompactionMetadata)) (self : engine) : bool :=
  match snapshot with
  | [] => true
  | metadata :: snapshot =>
      let groups := pick_compaction StrategySample.stcs metadata in
      groups_check clock groups self && compactions_check clock snapshot (compact_groups config clock groups self).2
  end.
Lemma groups_checked clock groups self : groups_check clock groups self = true -> groups_ok config fits clock groups self.
Proof.
  revert self. induction groups as [|ids groups IH]; intros self; [done|]. cbn [groups_check groups_ok]. rewrite andb_true_iff.
  intros [Hg Hr]. split; [by apply group_checked|by apply IH].
Qed.
Lemma compactions_checked clock snapshot self :
  compactions_check clock snapshot self = true -> compactions_ok config fits StrategySample.stcs clock snapshot self.
Proof.
  revert self. induction snapshot as [|metadata snapshot IH]; intros self; [done|]. cbn [compactions_check compactions_ok]. rewrite andb_true_iff.
  intros [Hg Hr]. split; [by apply groups_checked|by apply IH].
Qed.

Definition op_check (st : engine * Ghost) (op : EngineOp) : bool :=
  match op with
  | EWrite m => write_check m && flush_check (insert_mutation Sample.compress Sample.crc32 to_vec hash config m st.1).2 (mutation_cf m)
  | ESync => true
  | ERead ks tbl pk => bool_decide ((ks, tbl) ∈ tables) && settled_check st.1 (cf_name_of ks tbl)
  | EFlushBegin cf' => String.eqb cf' cf
  | EFlushEnd cf' id => bool_decide ((cf', id) ∈ mm_flushing (eng_memtables st.1)) && memtable_check st.1 id
  | EFlush cf' => String.eqb cf' cf && flush_check st.1 cf'
  | ECompact clock order =>
      forallb (String.eqb cf) order && compactions_check clock ((fun cf => cf_metadata cf st.1) <$> order) st.1
  | ECrash tails policy cache => crash_check tails policy st
  end.
Fixpoint ops_check (st : engine * Ghost) (ops : list EngineOp) : bool :=
  match ops with [] => true | op :: ops => op_check st op && ops_check (step st op) ops end.
Lemma known_cf : known tables cf.
Proof. exists "ks"%string, "t"%string. split; [left|done]. Qed.
Lemma op_checked st op :
  op_check st op = true ->
  op_ok Sample.compress Sample.decompress Sample.crc32 to_vec from_slice config fits StrategySample.stcs hash tables st op.
Proof.
  destruct st as [self g], op as [m| |ks tbl pk|cf'|cf' id|cf'|clock order|tails policy cache]; cbn [op_check op_ok fst].
  - intros [(Hk & Hw & Hm)%write_checked Hf]%andb_true_iff. split_and!; [done|done|by apply samples_fit|by apply flush_checked].
  - done.
  - intros [Hk%bool_decide_eq_true Hs]%andb_true_iff. split; [done|]. right. by apply settled_checked.
  - intros ->%String.eqb_eq. apply known_cf.
  - intros [Hin%bool_decide_eq_true Hm]%andb_true_iff. split; [done|]. by apply memtable_checked.
  - intros [->%String.eqb_eq Hf]%andb_true_iff. split; [apply known_cf|by apply flush_checked].
  - rewrite andb_true_iff, forallb_forall. intros [Ho Hc]. split; [|by apply compactions_checked].
    apply Forall_forall. intros x Hx%list_elem_of_In%Ho%String.eqb_eq. subst x. apply known_cf.
  - unfold crash_check. rewrite !andb_true_iff, !forallb_forall, Z.ltb_lt. cbn [fst snd]. intros [Hh Hn]. split; [..|done].
    + intros m Hm%list_elem_of_In%Hh%write_checked. by destruct Hm as (? & ? & _).
    + intros m Hm%list_elem_of_In%Hh%write_checked. apply samples_rows. by destruct Hm as (_ & _ & ?).
Qed.
Lemma ops_checked st ops :
  ops_check st ops = true ->
  ops_ok Sample.compress Sample.decompress Sample.crc32 to_vec from_slice config fits StrategySample.stcs hash tables st ops.
Proof.
  revert st. induction ops as [|op ops IH]; intros st; [done|]. cbn [ops_check ops_ok]. rewrite andb_true_iff. intros [Ho Hr].
  split; [by apply op_checked|by apply IH].
Qed.

Lemma samples_cell m r c : m ∈ samples -> updated_row m r -> c ∈ Row_cells r ->
  c ∈ [mkCell "v" (Some [7]) 5 0 None false; mkCell "v" (Some [8]) 6 0 None false; mkCell "v" (Some [10]) 7 0 None false].
Proof.
  intros Hm Hr Hc. assert (m = m0 \/ m = m1 \/ m = m2) as Hm' by (unfold samples in Hm; set_solver).
  destruct Hm' as [->|[->| ->]]; apply list_elem_of_singleton in Hr; injection Hr as ->;
    apply list_elem_of_singleton in Hc; subst c; set_solver.
Qed.
Lemma samples_history ms cf' : Forall (fun m => m ∈ samples) ms -> hist_ok (history ms cf').
Proof.
  intros Hms. assert (Hin : forall m, m ∈ ms -> m ∈ samples) by by apply Forall_forall. split.
  - intros pk ck c d (m & r & Hm & _ & _ & Hr & _ & Hc) (m' & r' & Hm' & _ & _ & Hr' & _ & Hc') _ Ets _.
    apply Hin in Hm, Hm'. apply (samples_cell m r) in Hc; [|done..]. apply (samples_cell m' r') in Hc'; [|done..].
    set_unfold. destruct Hc as [->|[->|[->|[]]]], Hc' as [->|[->|[->|[]]]]; done.
  - intros pk a b (m & Hm & _ & _ & Ha) _ _. exfalso. apply Hin in Hm. rewrite (rows_only_updates m (samples_rows m Hm)) in Ha.
    unfold replayed_updates in Ha. by apply list_elem_of_fmap in Ha as (r & ? & _).
Qed.

Lemma tables_dotless ks tbl : (ks, tbl) ∈ tables -> dotless ks.
Proof. intros [= -> ->]%list_elem_of_singleton. by vm_compute. Qed.
Lemma hash_ok ks tbl ks' tbl' :
  (ks, tbl) ∈ tables -> (ks', tbl') ∈ tables -> hash ks tbl = hash ks' tbl' -> ks = ks' /\ tbl = tbl'.
Proof. by intros [= -> ->]%list_elem_of_singleton [= -> ->]%list_elem_of_singleton. Qed.

Definition calm : list EngineOp :=
  [EWrite m0; ESync; EFlush cf; ERead "ks" "t" [42]; EWrite m1; EFlushBegin cf; EWrite m2; EFlushEnd cf 2; ERead "ks" "t" [42];
   ECompact (fun _ => 1000) [cf]; ERead "ks" "t" [42]].
Abbreviation met cache ops := (mutations_met Sample.compress Sample.decompress Sample.crc32 to_vec from_slice config StrategySample.stcs hash
  (started (H := BigHandle) (L := SimpleLru.t) config Sample.empty_fs cache, no_ghost) ops).
Lemma met_history cache ops cf' : forallb (fun m => bool_decide (m ∈ samples)) (met cache ops) = true -> hist_ok (history (met cache ops) cf').
Proof.
  rewrite forallb_forall. intros Hin. apply samples_history, Forall_forall. intros m Hm%list_elem_of_In%Hin.
  by apply bool_decide_eq_true in Hm.
Qed.
Lemma calm_history cf' : hist_ok (history (met (Some 2%nat) calm) cf').
Proof. apply met_history. vm_compute. reflexivity. Qed.
Lemma stcs_ok : (0 < stcs_min_threshold StrategySample.stcs)%nat /\ (0 < stcs_max_threshold StrategySample.stcs)%nat.
Proof. split; cbv; lia. Qed.
End EngineSample.
#[local] Existing Instances EngineSample.big EngineSample.big_ok SimpleLru.ops SimpleLru.laws.

(** Two tables are written, one while a third mutation arrives, and compacted
    into one; the read through the row cache is that of the map. *)
Lemma engine_refines_map_witness :
  let r := EngineSample.run (Some 2%nat) EngineSample.calm in
  EngineSample.settled_check r.1 EngineSample.cf = true
  /\ pview <$> (read_partition EngineSample.hash "ks" "t" [42] r.1).1
     = pview <$> reference (gh_all r.2) EngineSample.cf !! [42].
Proof.
  intros r.
  assert (Hs : EngineSample.settled_check r.1 EngineSample.cf = true) by (vm_compute; reflexivity).
  assert (Hc : EngineSample.ops_check (started EngineSample.config Sample.empty_fs (Some 2%nat), no_ghost) EngineSample.calm = true)
    by (vm_compute; reflexivity).
  split; [exact Hs|].
  apply (engine_refines_map Sample.compress Sample.decompress Sample.crc32 EngineSample.to_vec EngineSample.from_slice EngineSample.config
    EngineSample.fits StrategySample.stcs EngineSample.hash EngineSample.tables EngineSample.log_laws
    (fun s => (0 < stcs_min_threshold s)%nat /\ (0 < stcs_max_threshold s)%nat)) with (B := 1).
  - exact EngineSample.stcs_ok.
  - exact EngineSample.tables_dotless.
  - exact EngineSample.hash_ok.
  - exact Sample.empty_wf.
  - done.
  - exact Sample.empty_below.
  - done.
  - exact (EngineSample.ops_checked (started EngineSample.config Sample.empty_fs (Some 2%nat), no_ghost) _ Hc).
  - exact EngineSample.calm_history.
  - unfold crash_free. repeat constructor.
  - left.
  - exact (EngineSample.settled_checked r.1 EngineSample.cf Hs).
Defined.


(** ** What the engine does not keep *)

Abbreviation read_v key st :=
  ((fun p => Row_cells <$> values (pd_rows p)) <$> (read_partition EngineSample.hash "ks" "t" key st).1).
Definition cells_of (m : Mutation) : option (list (list Cell)) := Some (Row_cells ∘ row_of <$> mu_rows m).

(** A memtable that is being flushed is not read: the mutation disappears between
    the switch and the end of the flush.  A read in between caches what the older
    tables hold, and the cache keeps answering with it after the flush. *)
Example read_during_flush_is_cached :
  let during := EngineSample.run (Some 2%nat)
    [EWrite EngineSample.m0; EFlush EngineSample.cf; EWrite EngineSample.m1; EFlushBegin EngineSample.cf; ERead "ks" "t" [42]] in
  let after := EngineSample.step during (EFlushEnd EngineSample.cf 2) in
  read_v [42] during.1 = cells_of EngineSample.m0
  /\ mm_flushing (eng_memtables after.1) = []
  /\ read_v [42] after.1 = cells_of EngineSample.m0
  /\ read_v [42] (set_row_cache None after.1) = cells_of EngineSample.m1.
Proof. vm_compute. split_and!; reflexivity. Qed.

(** The inputs of a compaction stay on disk, and a restart loads them beside its
    output. *)
Example compacted_tables_reloaded :
  let compacted := EngineSample.run None
    [EWrite EngineSample.m0; EFlush EngineSample.cf; EWrite EngineSample.m1; EFlush EngineSample.cf;
     ECompact (fun _ => 1000) [EngineSample.cf]] in
  sst_generation <$> eng_sstables compacted.1 = [3]
  /\ sst_generation <$> eng_sstables (EngineSample.step compacted (ECrash ∅ StopOnCorrupt None)).1 = [1; 2; 3].
Proof. vm_compute. split_and!; reflexivity. Qed.

(** A truncation is not in the log: a restart brings back what it removed from
    the memtable. *)
Example truncation_undone :
  let '(self, g) := EngineSample.run None [EWrite EngineSample.m0; ESync] in
  let truncated := truncate_table EngineSample.hash "ks" "t" self in
  read_v [42] truncated = None
  /\ read_v [42] (EngineSample.step (truncated, g) (ECrash ∅ StopOnCorrupt None)).1 = cells_of EngineSample.m0.
Proof. vm_compute. split; reflexivity. Qed.

(** A replay applies the rows of a mutation and nothing else: a partition
    deletion that only the log holds is lost. *)
Example replayed_deletion_lost :
  let m := mkMutation "ks" "t" [42] [] 9 true [] (Some (mkTombstoneMarker 9 1000)) [] in
  mutation_updates m = [UTombstone 9 1000] /\ replayed_updates m = [].
Proof. split; reflexivity. Qed.
