(* ===== verification/Counter.v ===== *)
(** Distributed counters (crates/cassandra-storage/src/counter.rs).

    A counter is a map from node to shard.  The file shows that the merge is a
    join, that local updates and cleanup keep the total, that the binary form
    round trips, and that merging a cleaned-up counter with a copy that was not
    cleaned up counts the remote shards twice. *)
From S2P Require Export OrdMap.

Definition SHARD_SIZE : nat := 32.
Definition HEADER_SIZE : nat := 2.

Record CounterShard := mkCounterShard { cs_node_id : Z; cs_clock : Z; cs_count : Z }.
#[export] Instance CounterShard_eq_dec : EqDecision CounterShard.
Proof. solve_decision. Defined.

(** A UUID is its 128-bit value. *)
Record CounterContext := mkCounterContext { shards : ordmap Z CounterShard }.

Definition CounterContext_new : CounterContext := mkCounterContext ∅.

Definition CounterContext_from_shards (l : list CounterShard) : CounterContext :=
  foldl (fun ctx s => mkCounterContext (<[cs_node_id s := s]> (shards ctx))) CounterContext_new l.

(** [i64] sums wrap in the release profile. *)
Definition sum_i64 (l : list Z) : Z := foldl (fun acc x => wrap_s 64 (acc + x)) 0 l.

Definition CounterContext_total (self : CounterContext) : Z := sum_i64 (cs_count <$> values (shards self)).

Definition CounterContext_apply_local (self : CounterContext) (node_id delta : Z) : CounterContext :=
  let shard := default (mkCounterShard node_id 0 0) (shards self !! node_id) in
  mkCounterContext
    (<[node_id := mkCounterShard (cs_node_id shard) (wrap_s 64 (cs_clock shard + 1))
                    (wrap_s 64 (cs_count shard + delta))]> (shards self)).

(** The choice between two shards of one node. *)
Definition merge_shard (local other : CounterShard) : CounterShard :=
  if cs_clock local <? cs_clock other then other
  else if (cs_clock other =? cs_clock local) && (cs_count local <? cs_count other) then other
  else local.

Definition CounterContext_merge (self other : CounterContext) : CounterContext :=
  mkCounterContext (merge_loop merge_shard (shards self) (shards other)).

Definition CounterContext_shards (self : CounterContext) : list CounterShard := values (shards self).
Definition CounterContext_shard_count (self : CounterContext) : nat := length (entries (shards self)).
Definition CounterContext_has_remote_shards (self : CounterContext) (local_node : Z) : bool :=
  existsb (fun id => negb (id =? local_node)) (keys (shards self)).
Definition CounterContext_has_local_shard (self : CounterContext) (node_id : Z) : bool :=
  bool_decide (is_Some (shards self !! node_id)).

Definition remote_shards (self : CounterContext) (local_node : Z) : list CounterShard :=
  snd <$> List.filter (fun e => negb (e.1 =? local_node)) (entries (shards self)).

Definition remote_max_clock (self : CounterContext) (local_node : Z) : Z :=
  match cs_clock <$> remote_shards self local_node with
  | [] => 0
  | c :: cs => foldl Z.max c cs
  end.

Definition CounterContext_cleanup (self : CounterContext) (local_node : Z) : CounterContext :=
  let remote_sum := sum_i64 (cs_count <$> remote_shards self local_node) in
  let max_clock := remote_max_clock self local_node in
  let kept : ordmap Z CounterShard :=
    match shards self !! local_node with Some s => {[ local_node := s ]} | None => ∅ end in
  if negb (remote_sum =? 0) || negb (bool_decide (is_Some (kept !! local_node))) then
    let local_shard := default (mkCounterShard local_node 0 0) (kept !! local_node) in
    mkCounterContext
      (<[local_node := mkCounterShard (cs_node_id local_shard)
           (wrap_s 64 (Z.max (cs_clock local_shard) max_clock + 1))
           (wrap_s 64 (cs_count local_shard + remote_sum))]> kept)
  else mkCounterContext kept.

(** [as_u64_pair] and [from_u64_pair] split the 128 bits in two halves. *)
Definition shard_bytes (s : CounterShard) : list Z :=
  write_be 8 (cs_node_id s / 2 ^ 64) ++ write_be 8 (cs_node_id s mod 2 ^ 64)
  ++ write_be 8 (cs_clock s) ++ write_be 8 (cs_count s).

Definition CounterContext_serialize (self : CounterContext) : list Z :=
  write_be 2 0 ++ mjoin (shard_bytes <$> values (shards self)).

Definition read_shard (data : list Z) : CounterShard :=
  mkCounterShard (read_u (take 8 data) * 2 ^ 64 + read_u (take 8 (drop 8 data)))
    (read_s (take 8 (drop 16 data))) (read_s (take 8 (drop 24 data))).

Fixpoint read_shards (n : nat) (data : list Z) (m : ordmap Z CounterShard) : ordmap Z CounterShard :=
  match n with
  | O => m
  | S n =>
      let s := read_shard data in
      read_shards n (drop SHARD_SIZE data) (<[cs_node_id s := s]> m)
  end.

(** [None] is [CounterError::InvalidFormat]. *)
Definition CounterContext_deserialize (data : list Z) : option CounterContext :=
  if (length data <? HEADER_SIZE)%nat then None
  else
    let remaining := (length data - HEADER_SIZE)%nat in
    if negb (remaining mod SHARD_SIZE =? 0)%nat then None
    else Some (mkCounterContext (read_shards (remaining / SHARD_SIZE) (drop HEADER_SIZE data) ∅)).

(** * Sums *)

Definition zsum (l : list Z) : Z := foldr Z.add 0 l.

Lemma zsum_perm l k : l ≡ₚ k -> zsum l = zsum k.
Proof. induction 1; simpl; lia. Qed.

Lemma sum_i64_acc l acc : foldl (fun acc x => wrap_s 64 (acc + x)) (wrap_s 64 acc) l = wrap_s 64 (acc + zsum l).
Proof.
  revert acc. induction l as [|x l IH]; intros acc; simpl; [by rewrite Z.add_0_r|].
  rewrite wrap_s_add_l by lia. rewrite IH. f_equal. lia.
Qed.

Lemma sum_i64_wrap l : sum_i64 l = wrap_s 64 (zsum l).
Proof. apply (sum_i64_acc l 0). Qed.

Definition msum (m : ordmap Z CounterShard) : Z := zsum ((fun e => cs_count e.2) <$> entries m).

Lemma total_msum c : CounterContext_total c = wrap_s 64 (msum (shards c)).
Proof.
  unfold CounterContext_total, values. rewrite sum_i64_wrap, <- list_fmap_compose. done.
Qed.

Lemma msum_delete m k v : m !! k = Some v -> msum m = cs_count v + msum (delete k m).
Proof.
  intros E. unfold msum. by rewrite (zsum_perm _ ((fun e => cs_count e.2) <$> (k, v) :: entries (delete k m)))
    by (apply fmap_Permutation, entries_delete, E).
Qed.

Lemma msum_insert m k v : msum (<[k := v]> m) = cs_count v + msum (delete k m).
Proof.
  rewrite (msum_delete _ k v) by apply lookup_insert_eq. by rewrite delete_insert_eq.
Qed.

Lemma msum_lookup m k : msum m = default 0 (cs_count <$> m !! k) + msum (delete k m).
Proof.
  destruct (m !! k) as [v|] eqn:E; simpl; [by apply msum_delete|]. by rewrite delete_id.
Qed.

Lemma msum_empty : msum ∅ = 0.
Proof. done. Qed.

Lemma filter_perm {A} (f : A -> bool) l k : l ≡ₚ k -> List.filter f l ≡ₚ List.filter f k.
Proof. induction 1; simpl; repeat case_match; eauto using Permutation. Qed.

Lemma remote_entries m k :
  List.filter (fun e : Z * CounterShard => negb (e.1 =? k)) (entries m) ≡ₚ entries (delete k m).
Proof.
  assert (Hd : List.filter (fun e : Z * CounterShard => negb (e.1 =? k)) (entries (delete k m)) = entries (delete k m)).
  { apply filter_all, Forall_forall. intros [k' v] Hin. apply ordmap_elem in Hin. simpl.
    destruct (Z.eqb_spec k' k) as [->|]; [|done]. by rewrite lookup_delete_eq in Hin. }
  destruct (m !! k) as [v|] eqn:E.
  - rewrite (filter_perm _ _ _ (entries_delete m k v E)). cbn [List.filter fst]. rewrite Z.eqb_refl. cbn [negb].
    by rewrite Hd.
  - by rewrite delete_id in * by done; rewrite Hd.
Qed.

Lemma remote_sum_msum c k :
  zsum (cs_count <$> remote_shards c k) = msum (delete k (shards c)).
Proof.
  unfold remote_shards, msum. rewrite <- list_fmap_compose.
  apply zsum_perm, fmap_Permutation, remote_entries.
Qed.

(** * Merging is a join *)

Definition shard_at (k : Z) (s : CounterShard) : Prop := cs_node_id s = k.
(** Each shard is stored under its node. *)
Definition counter_wf (c : CounterContext) : Prop := map_all shard_at (shards c).

#[local] Instance merge_shard_semilattice k : Semilattice (shard_at k) merge_shard.
Proof.
  apply (semilattice_of_rank _ (fun s => (cs_clock s, cs_count s))).
  - intros [n1 c1 v1] [n2 c2 v2] Hx Hy [= -> ->]. unfold shard_at in *. simpl in *. congruence.
  - intros x y _ _. unfold merge_shard. unfold le_of. rewrite !cmp_pair. unfold cmp, Z_ord.
    destruct (Z.ltb_spec (cs_clock x) (cs_clock y)), (Z.eqb_spec (cs_clock y) (cs_clock x)),
      (Z.ltb_spec (cs_count x) (cs_count y)); simpl; try lia;
    destruct (Z.compare_spec (cs_clock x) (cs_clock y)), (Z.compare_spec (cs_clock y) (cs_clock x)),
      (Z.compare_spec (cs_count x) (cs_count y)), (Z.compare_spec (cs_count y) (cs_count x)); simpl; try lia;
    (left; split; [done|discriminate]) || (right; split; [done|discriminate]).
Qed.

#[export] Instance CounterContext_semilattice : Semilattice counter_wf CounterContext_merge.
Proof.
  pose proof (merge_loop_semilattice shard_at merge_shard _) as Hm. unfold counter_wf, CounterContext_merge. split.
  - intros x y Hx Hy. by apply sl_closed.
  - intros x y z Hx Hy Hz. simpl. f_equal. by apply sl_assoc.
  - intros x y Hx Hy. f_equal. by apply sl_comm.
  - intros [m] Hx. f_equal. by apply sl_idem.
Qed.

Lemma apply_local_wf c n d : counter_wf c -> counter_wf (CounterContext_apply_local c n d).
Proof.
  intros Hc k s. simpl. rewrite lookup_insert. case_decide as E; [subst|by apply Hc]. intros [= <-].
  unfold shard_at; simpl. destruct (shards c !! k) as [s|] eqn:Es; simpl; [by apply Hc|done].
Qed.

Lemma apply_local_total c n d :
  CounterContext_total (CounterContext_apply_local c n d) = wrap_s 64 (CounterContext_total c + d).
Proof.
  rewrite !total_msum, wrap_s_add_l by lia. simpl. rewrite msum_insert. simpl.
  rewrite wrap_s_add_l by lia. f_equal. rewrite (msum_lookup (shards c) n).
  destruct (shards c !! n); simpl; lia.
Qed.

(** The shard [cleanup] leaves for the local node. *)
Lemma cleanup_shards c n :
  exists s, shards (CounterContext_cleanup c n) = {[ n := s ]}
    /\ wrap_s 64 (cs_count s) = wrap_s 64 (default 0 (cs_count <$> shards c !! n) + msum (delete n (shards c)))
    /\ (shards c !! n = Some s
        \/ cs_clock s = wrap_s 64 (Z.max (default 0 (cs_clock <$> shards c !! n)) (remote_max_clock c n) + 1)).
Proof.
  unfold CounterContext_cleanup. rewrite sum_i64_wrap, remote_sum_msum.
  destruct (shards c !! n) as [s|] eqn:Es; simpl.
  - rewrite lookup_singleton_eq. simpl. rewrite orb_false_r.
    destruct (Z.eqb_spec (wrap_s 64 (msum (delete n (shards c)))) 0) as [E|E]; simpl.
    + exists s. split_and!; [done| |by left]. rewrite <- wrap_s_add_r, E by lia. by rewrite Z.add_0_r.
    + eexists. rewrite insert_singleton_eq. split_and!; [done| |by right]. simpl.
      rewrite wrap_s_add_r by lia. apply wrap_s_id; [lia|]. apply wrap_s_range. lia.
  - rewrite orb_true_r. eexists. split_and!; [done| |by right]. simpl.
    rewrite wrap_s_add_r by lia. apply wrap_s_id; [lia|]. apply wrap_s_range. lia.
Qed.

Lemma foldl_max_bound (l : list Z) (c b : Z) :
  0 <= c < b -> (forall x, x ∈ l -> 0 <= x < b) -> 0 <= foldl Z.max c l < b.
Proof.
  revert c. induction l as [|x l IH]; intros c Hc Hl; simpl; [done|].
  assert (0 <= x < b) by (apply Hl; left). apply IH; [lia|]. intros; apply Hl; by right.
Qed.

Lemma remote_max_bound c n :
  (forall k s, shards c !! k = Some s -> 0 <= cs_clock s < i64_MAX) -> 0 <= remote_max_clock c n < i64_MAX.
Proof.
  intros Hc. unfold remote_max_clock.
  assert (Hr : forall x, x ∈ cs_clock <$> remote_shards c n -> 0 <= x < i64_MAX).
  { intros x (s & -> & ((k, s') & -> & Hin)%list_elem_of_fmap)%list_elem_of_fmap.
    apply list_elem_of_In, filter_In in Hin as [Hin _]. apply list_elem_of_In, ordmap_elem in Hin.
    by apply (Hc k). }
  destruct (cs_clock <$> remote_shards c n) as [|x xs]; [done|].
  apply foldl_max_bound; [apply Hr; left|]. intros; apply Hr; by right.
Qed.

(** C39. Counter updates.  On counters whose shards are stored under their own
    node: merging the same set of counters in any order and multiplicity gives
    the same counter; a local update adds its delta to the total; and cleanup
    keeps the total, all in 64-bit wrapping arithmetic. *)
Theorem counter_correct (x y : CounterContext) (l k : list CounterContext) (node delta : Z)
    (Hx : Forall counter_wf (x :: l)) (Hy : Forall counter_wf (y :: k))
    (Hsame : forall z, z ∈ x :: l <-> z ∈ y :: k) :
  foldl CounterContext_merge x l = foldl CounterContext_merge y k
  /\ CounterContext_total (CounterContext_apply_local x node delta) = wrap_s 64 (CounterContext_total x + delta)
  /\ CounterContext_total (CounterContext_cleanup x node) = CounterContext_total x.
Proof.
  apply Forall_cons in Hx as [Hx Hl], Hy as [Hy Hk]. split_and!.
  - apply (merge_converges counter_wf CounterContext_merge); assumption.
  - apply apply_local_total.
  - destruct (cleanup_shards x node) as (s & E & Hs & _). rewrite !total_msum, E.
    rewrite (msum_delete _ node s) by apply lookup_singleton_eq.
    rewrite delete_singleton_eq, msum_empty, Z.add_0_r, Hs. by rewrite <- msum_lookup.
Qed.

Lemma counter_correct_witness :
  let a := CounterContext_from_shards [mkCounterShard 1 4 10; mkCounterShard 2 1 5] in
  let b := CounterContext_from_shards [mkCounterShard 2 3 7] in
  foldl CounterContext_merge a [b] = foldl CounterContext_merge b [a; b].
Proof.
  intros a b. apply (counter_correct a b [b] [a; b] 0 0); [..|set_solver].
  - repeat (apply Forall_cons_2; [intros k s Hk%ordmap_elem; simpl in Hk;
      repeat (apply elem_of_cons in Hk as [[= -> ->]|Hk]; [reflexivity|]);
      by apply not_elem_of_nil in Hk|]). apply Forall_nil_2.
  - repeat (apply Forall_cons_2; [intros k s Hk%ordmap_elem; simpl in Hk;
      repeat (apply elem_of_cons in Hk as [[= -> ->]|Hk]; [reflexivity|]);
      by apply not_elem_of_nil in Hk|]). apply Forall_nil_2.
Defined.

(** Cleanup does not commute with merging: merging a cleaned-up counter
    with a copy that still has its remote shards counts their sum twice. *)
Theorem cleanup_then_merge_double_counts (c : CounterContext) (node : Z)
    (Hclock : forall k s, shards c !! k = Some s -> 0 <= cs_clock s < i64_MAX) :
  CounterContext_total (CounterContext_merge (CounterContext_cleanup c node) c)
  = wrap_s 64 (CounterContext_total c + sum_i64 (cs_count <$> remote_shards c node)).
Proof.
  destruct (cleanup_shards c node) as (s & E & Hs & Hc).
  assert (Hm : shards (CounterContext_merge (CounterContext_cleanup c node) c) = <[node := s]> (shards c)).
  { apply map_eq. intros k. simpl. rewrite lookup_merge_loop, E, lookup_insert, lookup_singleton.
    case_decide as Ek; [subst k|by destruct (shards c !! k)]. simpl.
    destruct (shards c !! node) as [s0|] eqn:E0; simpl; [|done]. f_equal. unfold merge_shard.
    destruct Hc as [Hc|Hc]; [simplify_eq; by rewrite !Z.ltb_irrefl, andb_false_r|].
    pose proof (Hclock node s0 E0). pose proof (remote_max_bound c node Hclock).
    assert (cs_clock s0 < cs_clock s)
      by (rewrite Hc; simpl; rewrite wrap_s_id; unfold in_s, i64_MAX in *; lia).
    destruct (Z.ltb_spec (cs_clock s) (cs_clock s0)), (Z.eqb_spec (cs_clock s0) (cs_clock s)); try lia. done. }
  rewrite !total_msum, Hm, msum_insert, sum_i64_wrap, remote_sum_msum.
  rewrite wrap_s_add_l, wrap_s_add_r by lia. rewrite <- wrap_s_add_l, Hs, wrap_s_add_l by lia.
  f_equal. rewrite (msum_lookup (shards c) node). lia.
Qed.

Lemma cleanup_then_merge_double_counts_witness :
  let a := CounterContext_from_shards [mkCounterShard 1 4 10; mkCounterShard 2 1 5] in
  CounterContext_total a = 15
  /\ CounterContext_total (CounterContext_merge (CounterContext_cleanup a 1) a) = 20.
Proof.
  intros a. split; [reflexivity|]. rewrite cleanup_then_merge_double_counts; [reflexivity|].
  intros k s Hk%ordmap_elem. simpl in Hk.
  repeat (apply elem_of_cons in Hk as [[= -> ->]|Hk]; [split; [discriminate|reflexivity]|]).
  by apply not_elem_of_nil in Hk.
Defined.

(** * The binary form *)

(** The widths of the source's fields. *)
Definition shard_ok (s : CounterShard) : Prop :=
  in_u 128 (cs_node_id s) /\ is_i64 (cs_clock s) /\ is_i64 (cs_count s).

Lemma length_shard_bytes s : length (shard_bytes s) = SHARD_SIZE.
Proof. unfold shard_bytes. by rewrite !length_app, !length_write_be. Qed.

Lemma take_write_be w z l : take w (write_be w z ++ l) = write_be w z.
Proof. apply take_app_length', eq_sym, length_write_be. Qed.
Lemma drop_write_be w z l : drop w (write_be w z ++ l) = l.
Proof. apply drop_app_length', eq_sym, length_write_be. Qed.

Lemma read_shard_bytes s l : shard_ok s -> read_shard (shard_bytes s ++ l) = s.
Proof.
  intros (Hn & Hc & Hv). unfold read_shard, shard_bytes. rewrite <- !(assoc_L app).
  change 24%nat with (8 + (8 + 8))%nat. change 16%nat with (8 + 8)%nat.
  rewrite <- !drop_drop, !drop_write_be, !take_write_be.
  rewrite !read_s_write by (lia || done).
  assert (0 < 2 ^ 64) by lia. unfold in_u in Hn. change (2 ^ 128) with (2 ^ 64 * 2 ^ 64) in Hn.
  rewrite !read_u_write.
  - destruct s as [n k v]; simpl in *. f_equal. rewrite Z.mul_comm, <- Z.div_mod by lia. done.
  - split; [apply Z.mod_pos_bound|apply Z.mod_pos_bound]; lia.
  - split; [apply Z.div_pos; lia|apply Z.div_lt_upper_bound; lia].
Qed.

Lemma read_shards_bytes l m tail :
  Forall shard_ok l ->
  read_shards (length l) (mjoin (shard_bytes <$> l) ++ tail) m
  = foldl (fun m s => <[cs_node_id s := s]> m) m l.
Proof.
  intros Hl. revert m. induction Hl as [|s l Hs _ IH]; intros m; [done|].
  cbn [length read_shards fmap list_fmap mjoin list_join]. rewrite <- (assoc_L app), read_shard_bytes by done.
  rewrite drop_app_length' by (symmetry; apply length_shard_bytes). apply IH.
Qed.

Lemma length_shards l : length (mjoin (shard_bytes <$> l)) = (length l * SHARD_SIZE)%nat.
Proof.
  induction l as [|s l IH]; [done|].
  change (mjoin (shard_bytes <$> s :: l)) with (shard_bytes s ++ mjoin (shard_bytes <$> l)).
  rewrite length_app, length_shard_bytes, IH. done.
Qed.

Lemma foldl_shards_entries (m0 m : ordmap Z CounterShard) (l : list (Z * CounterShard)) :
  (forall k s, (k, s) ∈ l -> cs_node_id s = k) ->
  foldl (fun m s => <[cs_node_id s := s]> m) m0 l.*2 = insert_all m0 l.
Proof.
  revert m0. induction l as [|[k s] l IH]; intros m0 Hl; [done|]. cbn.
  rewrite (Hl k s) by left. apply IH. intros. apply Hl. by right.
Qed.

(** The binary form of a counter round trips: every counter whose shards
    are under their own node and fit their widths is read back from its
    serialisation. *)
Theorem counter_roundtrip (c : CounterContext)
    (Hwf : counter_wf c) (Hok : map_all (fun _ => shard_ok) (shards c)) :
  CounterContext_deserialize (CounterContext_serialize c) = Some c.
Proof.
  unfold CounterContext_deserialize, CounterContext_serialize.
  rewrite length_app, length_write_be, length_shards. change HEADER_SIZE with 2%nat.
  destruct (Nat.ltb_spec (2 + length (values (shards c)) * SHARD_SIZE) 2); [lia|].
  rewrite Nat.add_comm, Nat.add_sub, Nat.Div0.mod_mul, Nat.div_mul by done. simpl negb.
  change 2%nat with (length (write_be 2 0)) at 1. rewrite drop_app_length.
  rewrite <- (app_nil_r (mjoin _)), read_shards_bytes.
  - f_equal. destruct c as [m]; simpl in *. f_equal. unfold values.
    rewrite (foldl_shards_entries ∅ m); [apply insert_all_entries|].
    intros k s Hin. apply Hwf. by apply ordmap_elem.
  - apply Forall_forall. intros s [k Hk]%elem_of_values. by apply (Hok k).
Qed.

