(* ===== verification/Consistency.v ===== *)
(** Consistency levels (crates/cassandra-coordinator/src/consistency.rs).

    The file shows that every level is achievable, that levels whose counts
    exceed the replication factor share a replica, that EACH_QUORUM implies
    QUORUM, and that the protocol codes are a bijection. *)
From S2P Require Export Prelude.

Inductive ConsistencyLevel :=
| One | Two | Three | Quorum | All | LocalQuorum | EachQuorum | Serial | LocalSerial | LocalOne | Any.
#[export] Instance ConsistencyLevel_eq_dec : EqDecision ConsistencyLevel.
Proof. solve_decision. Defined.

Definition ConsistencyLevel_block_for (cl : ConsistencyLevel) (rf : nat) : nat :=
  match cl with
  | One | LocalOne => 1
  | Two => Nat.min 2 rf
  | Three => Nat.min 3 rf
  | Quorum | LocalQuorum | Serial | LocalSerial => rf / 2 + 1
  | All => rf
  | Any => 1
  | EachQuorum => rf / 2 + 1
  end%nat.

Definition ConsistencyLevel_is_satisfied (cl : ConsistencyLevel) (received rf : nat) : bool :=
  (ConsistencyLevel_block_for cl rf <=? received)%nat.

Definition ConsistencyLevel_is_serial (cl : ConsistencyLevel) : bool :=
  match cl with Serial | LocalSerial => true | _ => false end.
Definition ConsistencyLevel_is_local (cl : ConsistencyLevel) : bool :=
  match cl with LocalOne | LocalQuorum | LocalSerial => true | _ => false end.
Definition ConsistencyLevel_requires_write (cl : ConsistencyLevel) : bool := negb (ConsistencyLevel_is_serial cl).
Definition ConsistencyLevel_is_datacenter_local (cl : ConsistencyLevel) : bool :=
  match cl with LocalOne | LocalQuorum | LocalSerial => true | _ => false end.

(** [map.values().sum()] and its image under a function. *)
Definition sum_values (f : nat -> nat) (m : gmap string nat) : nat := sum_list (f ∘ snd <$> map_to_list m).

Definition ConsistencyLevel_block_for_each_quorum (dc_rf_map : gmap string nat) : nat :=
  sum_values (fun rf => rf / 2 + 1)%nat dc_rf_map.

Definition ConsistencyLevel_block_for_replicated_dcs (cl : ConsistencyLevel)
    (dc_rf_map : gmap string nat) (local_dc : option string) : nat :=
  match cl with
  | EachQuorum => ConsistencyLevel_block_for_each_quorum dc_rf_map
  | LocalOne | LocalQuorum | LocalSerial =>
      let rf := default 0%nat (dc ← local_dc; dc_rf_map !! dc) in
      ConsistencyLevel_block_for cl rf
  | _ => ConsistencyLevel_block_for cl (sum_values id dc_rf_map)
  end.

Definition ConsistencyLevel_is_satisfied_by_datacenter (cl : ConsistencyLevel)
    (received_by_dc dc_rf_map : gmap string nat) (local_dc : option string) : bool :=
  match cl with
  | EachQuorum =>
      negb (bool_decide (dc_rf_map = ∅))
      && forallb (fun e => (e.2 / 2 + 1 <=? default 0 (received_by_dc !! e.1))%nat) (map_to_list dc_rf_map)
  | LocalOne | LocalQuorum | LocalSerial =>
      match local_dc with
      | None => false
      | Some local_dc =>
          let rf := default 0%nat (dc_rf_map !! local_dc) in
          let received := default 0%nat (received_by_dc !! local_dc) in
          (ConsistencyLevel_block_for cl rf <=? received)%nat
      end
  | _ =>
      let rf := sum_values id dc_rf_map in
      let received := sum_values id received_by_dc in
      ConsistencyLevel_is_satisfied cl received rf
  end.

Definition ConsistencyLevel_protocol_code (cl : ConsistencyLevel) : Z :=
  match cl with
  | Any => 0 | One => 1 | Two => 2 | Three => 3 | Quorum => 4 | All => 5
  | LocalQuorum => 6 | EachQuorum => 7 | Serial => 8 | LocalSerial => 9 | LocalOne => 10
  end.

Definition ConsistencyLevel_from_protocol_code (code : Z) : option ConsistencyLevel :=
  match code with
  | 0 => Some Any | 1 => Some One | 2 => Some Two | 3 => Some Three | 4 => Some Quorum | 5 => Some All
  | 6 => Some LocalQuorum | 7 => Some EachQuorum | 8 => Some Serial | 9 => Some LocalSerial
  | 10 => Some LocalOne
  | _ => None
  end.

(** Reads and writes meet.  For a replication factor of at least one, every
    level asks for between one and all replicas; and when the counts of two
    levels add up to more than the replication factor, as for any two of the
    quorum levels or ALL with anything, every two sets of distinct replicas that
    satisfy them share a replica. *)
Theorem consistency_overlap (rf : nat) (w r : ConsistencyLevel) (ws rs : list nat)
    (Hrf : (0 < rf)%nat)
    (Hstrong : (rf < ConsistencyLevel_block_for w rf + ConsistencyLevel_block_for r rf)%nat)
    (Hw : NoDup ws /\ Forall (fun i => i < rf)%nat ws) (Hr : NoDup rs /\ Forall (fun i => i < rf)%nat rs)
    (Hws : ConsistencyLevel_is_satisfied w (length ws) rf = true)
    (Hrs : ConsistencyLevel_is_satisfied r (length rs) rf = true) :
  (1 <= ConsistencyLevel_block_for w rf <= rf)%nat /\ exists i, i ∈ ws /\ i ∈ rs.
Proof.
  unfold ConsistencyLevel_is_satisfied in *. bool_to_prop. destruct Hw as [Hwn Hwf], Hr as [Hrn Hrfa].
  rewrite Forall_forall in Hwf, Hrfa. split.
  - pose proof (Nat.div_lt rf 2 Hrf ltac:(lia)). destruct w; unfold ConsistencyLevel_block_for in *; lia.
  - apply (quorums_intersect rf); auto. lia.
Qed.


(** The protocol codes and the levels correspond one to one. *)
Lemma protocol_code_bijection (cl : ConsistencyLevel) (code : Z) :
  ConsistencyLevel_from_protocol_code code = Some cl <-> ConsistencyLevel_protocol_code cl = code.
Proof.
  split.
  - unfold ConsistencyLevel_from_protocol_code. intros E. repeat (case_match; simplify_eq); reflexivity.
  - intros <-. by destruct cl.
Qed.

(** * Sums over datacenters *)

Lemma sum_values_empty f : sum_values f ∅ = 0%nat.
Proof. unfold sum_values. by rewrite map_to_list_empty. Qed.

Lemma sum_values_insert f m k v :
  m !! k = None -> sum_values f (<[k := v]> m) = (f v + sum_values f m)%nat.
Proof.
  intros E. unfold sum_values.
  assert (Hp : (f ∘ snd <$> map_to_list (<[k := v]> m)) ≡ₚ (f ∘ snd <$> (k, v) :: map_to_list m))
    by (apply fmap_Permutation, map_to_list_insert, E).
  assert (Hs : forall l l' : list nat, l ≡ₚ l' -> sum_list l = sum_list l') by (induction 1; simpl; lia).
  by rewrite (Hs _ _ Hp).
Qed.

Lemma sum_values_delete f m k v :
  m !! k = Some v -> sum_values f m = (f v + sum_values f (delete k m))%nat.
Proof.
  intros E. rewrite <- (insert_delete_id m k v E) at 1. apply sum_values_insert. apply lookup_delete_eq.
Qed.

(** Per-datacenter bounds add up to a bound on the total received. *)
Lemma received_ge f (rfs received : gmap string nat) :
  (forall dc rf, rfs !! dc = Some rf -> (f rf <= default 0 (received !! dc))%nat) ->
  (sum_values f rfs <= sum_values id received)%nat.
Proof.
  revert received. induction rfs as [|dc rf rfs Hdc IH] using map_ind; intros received Hle; [rewrite sum_values_empty; lia|].
  rewrite sum_values_insert by done. pose proof (Hle dc rf (lookup_insert_eq _ _ _)) as Hd.
  assert (Hrest : (sum_values f rfs <= sum_values id (delete dc received))%nat).
  { apply IH. intros dc' rf' E. destruct (decide (dc = dc')) as [->|Hne]; [congruence|].
    rewrite lookup_delete_ne by done. apply Hle. by rewrite lookup_insert_ne. }
  destruct (received !! dc) as [n|] eqn:En; simpl in Hd.
  - rewrite (sum_values_delete id received dc n En). unfold id at 1. lia.
  - rewrite delete_id in Hrest by done. lia.
Qed.

Lemma quorum_sum_le (rfs : gmap string nat) :
  rfs <> ∅ -> (sum_values id rfs / 2 + 1 <= sum_values (fun rf => rf / 2 + 1)%nat rfs)%nat.
Proof.
  assert (Hstep : forall a b, ((a + b) / 2 <= a / 2 + 1 + b / 2)%nat).
  { intros a b. pose proof (Nat.div_mod a 2 ltac:(lia)). pose proof (Nat.div_mod b 2 ltac:(lia)).
    pose proof (Nat.mod_upper_bound a 2 ltac:(lia)). pose proof (Nat.mod_upper_bound b 2 ltac:(lia)).
    apply Nat.Div0.div_le_upper_bound. lia. }
  induction rfs as [|dc rf rfs Hdc IH] using map_ind; [done|]. intros _.
  rewrite !sum_values_insert by done. unfold id at 1. specialize (Hstep rf (sum_values id rfs)).
  destruct (decide (rfs = ∅)) as [->|Hne].
  - rewrite !sum_values_empty, Nat.add_0_r. lia.
  - specialize (IH Hne). lia.
Qed.

(** Per-datacenter quorums are the stronger guarantee: responses that
    satisfy EACH_QUORUM also satisfy QUORUM over all datacenters, and number at
    least the acknowledgements [block_for_replicated_dcs] asks for. *)
Theorem each_quorum_stronger (received rfs : gmap string nat) (local_dc : option string)
    (H : ConsistencyLevel_is_satisfied_by_datacenter EachQuorum received rfs local_dc = true) :
  ConsistencyLevel_is_satisfied_by_datacenter Quorum received rfs local_dc = true
  /\ (ConsistencyLevel_block_for_replicated_dcs EachQuorum rfs local_dc <= sum_values id received)%nat.
Proof.
  cbn [ConsistencyLevel_is_satisfied_by_datacenter ConsistencyLevel_block_for_replicated_dcs] in *.
  apply andb_prop in H as [Hne Hall]. apply negb_true_iff, bool_decide_eq_false in Hne.
  assert (Hge : (sum_values (fun rf => rf / 2 + 1)%nat rfs <= sum_values id received)%nat).
  { apply received_ge. intros dc rf E. rewrite forallb_forall in Hall.
    specialize (Hall (dc, rf)). apply Nat.leb_le, Hall.
    by apply list_elem_of_In, elem_of_map_to_list. }
  split; [|done]. unfold ConsistencyLevel_is_satisfied. cbn [ConsistencyLevel_block_for]. apply Nat.leb_le.
  pose proof (quorum_sum_le rfs Hne). unfold ConsistencyLevel_block_for_each_quorum in *. lia.
Qed.

