(* ===== verification/ReadData.v ===== *)
(** * Read responses

    crates/cassandra-coordinator/src/read/response.rs: digests, the responses of a
    replica and the count of tombstones; verb_handlers/read_handler.rs: how a replica
    answers_for, and the bytes of a partition, which storage_proxy.rs reads back.

    A digest is a 64-bit hash; the hash is a parameter that takes what the code feeds
    to the hasher, item by item.  The texts of warnings and errors are left out. *)
From S2P Require Export PartitionView Io.

(** ** Digests *)

(** What is fed to the hasher, with the type whose [Hash] is used. *)
Inductive HashItem :=
| HashOptInt (v : option Z)
| HashBytes (v : list Z)
| HashOptBytes (v : option (list Z))
| HashString (v : string)
| HashInt (v : Z)
| HashBool (v : bool).
#[export] Instance HashItem_eq_dec : EqDecision HashItem.
Proof. solve_decision. Defined.

Definition Digest : Type := Z.
Definition Digest_empty : Digest := 0.

Definition cell_items (c : Cell) : list HashItem :=
  [HashString (Cell_column c); HashOptBytes (Cell_value c); HashInt (Cell_timestamp c); HashInt (Cell_ttl c);
   HashBool (Cell_is_tombstone c)].
Definition row_items (p : list Z * Row) : list HashItem :=
  let '(ck, row) := p in
  [HashBytes ck; HashBool (Row_is_tombstone row); HashOptInt (Row_local_deletion_time row)]
  ++ mjoin (cell_items <$> Row_cells row).
Definition digest_items (data : PartitionData) : list HashItem :=
  [HashOptInt (tombstone_timestamp data); HashOptInt (tombstone_local_deletion_time data)]
  ++ mjoin (row_items <$> entries (pd_rows data)).

(** ** Tombstone counts *)

Record TombstoneThresholds := mkTombstoneThresholds { warn_threshold : Z; fail_threshold : Z }.
Definition TombstoneThresholds_default : TombstoneThresholds := mkTombstoneThresholds 1000 100000.

(** A warning is the count and the threshold its text has. *)
Record TombstoneTracker := mkTombstoneTracker {
  tt_count : Z;
  tt_thresholds : TombstoneThresholds;
  tt_warning_issued : bool;
  tt_warnings : list (Z * Z);
}.
Definition TombstoneTracker_new (thresholds : TombstoneThresholds) : TombstoneTracker :=
  mkTombstoneTracker 0 thresholds false [].
Definition TombstoneTracker_check_thresholds (t : TombstoneTracker) : TombstoneTracker :=
  if negb (tt_warning_issued t) && (warn_threshold (tt_thresholds t) <=? tt_count t)
  then mkTombstoneTracker (tt_count t) (tt_thresholds t) true
         (tt_warnings t ++ [(tt_count t, warn_threshold (tt_thresholds t))])
  else t.
(** [track_partition_tombstone], [track_row_tombstone] and [track_cell_tombstone]. *)
Definition TombstoneTracker_track (t : TombstoneTracker) : TombstoneTracker :=
  TombstoneTracker_check_thresholds
    (mkTombstoneTracker (wrap_u 32 (tt_count t + 1)) (tt_thresholds t) (tt_warning_issued t) (tt_warnings t)).
Definition TombstoneTracker_is_failure (t : TombstoneTracker) : bool :=
  fail_threshold (tt_thresholds t) <=? tt_count t.

(** ** Responses *)

Record PartitionResult := mkPartitionResult {
  pr_partition_key : list Z;
  pr_data : option PartitionData;
  pr_live_row_count : nat;
  pr_was_truncated : bool;
}.
Record DataResponse := mkDataResponse {
  dr_partitions : list PartitionResult;
  dr_tombstones_read : Z;
  dr_is_short_read : bool;
}.
Definition DataResponse_empty : DataResponse := mkDataResponse [] 0 false.

(** One cell of the inner loop of [from_partition_data]. *)
Definition live_cell_step (now_seconds : Z) (acc : list Cell * TombstoneTracker) (cell : Cell) :
    list Cell * TombstoneTracker :=
  let '(live_cells, tracker) := acc in
  if Cell_is_tombstone cell then (live_cells, TombstoneTracker_track tracker)
  else if negb (Cell_is_live_at cell now_seconds) then (live_cells, TombstoneTracker_track tracker)
  else (live_cells ++ [cell], tracker).
(** One row of the outer loop. *)
Definition live_row_step (now_seconds : Z) (tombstone : option Z) (acc : PartitionData * nat * TombstoneTracker)
    (p : list Z * Row) : PartitionData * nat * TombstoneTracker :=
  let '(live_data, live_count, tracker) := acc in
  let '(ck, row) := p in
  if Row_is_tombstone row then (live_data, live_count, TombstoneTracker_track tracker)
  else if match tombstone with
          | Some pt_ts => negb (existsb (fun c => pt_ts <? Cell_timestamp c) (Row_cells row))
          | None => false
          end
  then (live_data, live_count, TombstoneTracker_track tracker)
  else
    let '(live_cells, tracker) := foldl (live_cell_step now_seconds) ([], tracker) (Row_cells row) in
    match live_cells with
    | [] => (live_data, live_count, tracker)
    | _ => (PartitionData_apply_row live_data (mkRow ck live_cells false None), S live_count, tracker)
    end.
Definition PartitionResult_from_partition_data (partition_key : list Z) (data : PartitionData) (now_seconds : Z)
    (tracker : TombstoneTracker) : PartitionResult * TombstoneTracker :=
  let '(live_data, tracker) :=
    match tombstone_timestamp data, tombstone_local_deletion_time data with
    | Some ts, Some ldt => (PartitionData_set_tombstone PartitionData_new ts ldt, TombstoneTracker_track tracker)
    | _, _ => (PartitionData_new, tracker)
    end in
  let '(live_data, live_count, tracker) :=
    foldl (live_row_step now_seconds (tombstone_timestamp data)) (live_data, O, tracker) (entries (pd_rows data)) in
  (mkPartitionResult partition_key
     (if (0 <? live_count)%nat || bool_decide (is_Some (tombstone_timestamp live_data)) then Some live_data else None)
     live_count false, tracker).
Definition DataResponse_from_partition (partition_key : list Z) (data : PartitionData) (now_seconds : Z) : DataResponse :=
  let '(partition, tracker) :=
    PartitionResult_from_partition_data partition_key data now_seconds (TombstoneTracker_new TombstoneThresholds_default) in
  mkDataResponse [partition] (tt_count tracker) false.
Definition DataResponse_row_count (r : DataResponse) : nat := sum_list (pr_live_row_count <$> dr_partitions r).

(** ** The bytes of a partition *)

Definition write_opt_i64 (v : option Z) : list Z := match v with Some v => 1 :: write_be 8 v | None => [0] end.
Definition write_opt_i32 (v : option Z) : list Z := match v with Some v => 1 :: write_be 4 v | None => [0] end.
Definition write_u32 (v : nat) : list Z := write_be 4 (wrap_u 32 (Z.of_nat v)).
Definition write_bytes (v : list Z) : list Z := write_u32 (length v) ++ v.
Definition bool_byte (b : bool) : Z := if b then 1 else 0.

Definition encode_cell (c : Cell) : list Z :=
  write_bytes (string_bytes (Cell_column c))
  ++ match Cell_value c with Some value => 1 :: write_bytes value | None => [0] end
  ++ write_be 8 (Cell_timestamp c) ++ write_be 4 (Cell_ttl c) ++ write_opt_i32 (Cell_local_deletion_time c)
  ++ [bool_byte (Cell_is_tombstone c)].
Definition encode_row (p : list Z * Row) : list Z :=
  let '(ck, row) := p in
  write_bytes ck ++ [bool_byte (Row_is_tombstone row)] ++ write_opt_i32 (Row_local_deletion_time row)
  ++ write_u32 (length (Row_cells row)) ++ mjoin (encode_cell <$> Row_cells row).
Definition encode_partition_data (data : PartitionData) : list Z :=
  write_opt_i64 (tombstone_timestamp data) ++ write_opt_i32 (tombstone_local_deletion_time data)
  ++ write_u32 (length (entries (pd_rows data))) ++ mjoin (encode_row <$> entries (pd_rows data)).

Definition read_bool : IoReader bool :=
  b ← io_u 1;
  if b =? 0 then mret false else if b =? 1 then mret true else io_fail BadData.
Definition read_opt {A} (m : IoReader A) : IoReader (option A) :=
  read_bool ≫= fun present : bool => if present then v ← m; mret (Some v) else mret None.
Definition read_opt_i64 : IoReader (option Z) := read_opt (io_s 8).
Definition read_opt_i32 : IoReader (option Z) := read_opt (io_s 4).
Definition decode_cell : IoReader Cell :=
  column ← io_bytes;
  column ← io_string column;
  value ← read_opt io_bytes;
  timestamp ← io_s 8;
  ttl ← io_s 4;
  cell_local_deletion_time ← read_opt_i32;
  cell_is_tombstone ← read_bool;
  mret (mkCell column value timestamp ttl cell_local_deletion_time cell_is_tombstone).
Definition decode_row : IoReader (list Z * Row) :=
  clustering_key ← io_bytes;
  is_tombstone ← read_bool;
  local_deletion_time ← read_opt_i32;
  cell_count ← io_u 4;
  cells ← io_repeat (Z.to_nat cell_count) decode_cell;
  mret (clustering_key, mkRow clustering_key cells is_tombstone local_deletion_time).
Definition read_partition_bytes : IoReader PartitionData :=
  tombstone_timestamp ← read_opt_i64;
  tombstone_local_deletion_time ← read_opt_i32;
  row_count ← io_u 4;
  rows ← io_repeat (Z.to_nat row_count) decode_row;
  mret (mkPartitionData (insert_all ∅ rows) tombstone_timestamp tombstone_local_deletion_time).
(** Every error is [ReadError::Internal]. *)
Definition decode_partition_data (bytes : list Z) : option PartitionData :=
  match read_partition_bytes bytes with inr (data, []) => Some data | _ => None end.

(** ** What a replica answers_for *)

Record WirePartitionResult := mkWirePartitionResult {
  wp_partition_key : list Z;
  wp_data : list Z;
  wp_live_row_count : nat;
  wp_was_truncated : bool;
}.
Record ReadDataResponsePayload := mkReadDataResponsePayload {
  rp_partitions : list WirePartitionResult;
  rp_digest : Digest;
  rp_tombstones_read : Z;
  rp_is_short_read : bool;
}.

Definition apply_bounds_to_partition (data : PartitionData) (start_after : option (list Z)) (row_limit : option nat) :
    PartitionData * bool :=
  let bounded := absorb_tombstone PartitionData_new data in
  let rows := List.filter (fun p : list Z * Row =>
      match start_after with Some start => (p.1 >' start)%ord | None => true end) (entries (pd_rows data)) in
  let '(rows, is_short_read) :=
    match row_limit with
    | Some limit => if (limit <? length rows)%nat then (take limit rows, true) else (rows, false)
    | None => (rows, false)
    end in
  (foldl (fun b p => PartitionData_apply_row b p.2) bounded rows, is_short_read).

Section Replica.
Context (hash : list HashItem -> Digest).

Definition Digest_from_partition (data : PartitionData) : Digest := hash (digest_items data).

(** The items [DataResponse::digest] takes from a partition. *)
Definition response_items (p : PartitionResult) : list HashItem :=
  HashBytes (pr_partition_key p)
  :: match pr_data p with
     | Some data =>
         HashOptInt (tombstone_timestamp data)
         :: mjoin ((fun '(ck, row) => HashBytes ck :: mjoin ((fun cell =>
              [HashString (Cell_column cell); HashOptBytes (Cell_value cell); HashInt (Cell_timestamp cell)])
              <$> Row_cells row)) <$> entries (pd_rows data))
     | None => []
     end.
Definition DataResponse_digest (r : DataResponse) : Digest := hash (mjoin (response_items <$> dr_partitions r)).

(** [read_data_response], for what [StorageEngine::read_partition] returned. *)
Definition read_data_response (now_seconds : Z) (stored : option PartitionData) (partition_key : list Z)
    (start_after : option (list Z)) (row_limit : option nat) : ReadDataResponsePayload :=
  match stored with
  | None => mkReadDataResponsePayload [] Digest_empty 0 false
  | Some data =>
      let '(bounded_data, is_short_read) := apply_bounds_to_partition data start_after row_limit in
      let response := DataResponse_from_partition partition_key bounded_data now_seconds in
      mkReadDataResponsePayload
        ((fun partition => mkWirePartitionResult (pr_partition_key partition)
            (match pr_data partition with Some d => encode_partition_data d | None => [] end)
            (pr_live_row_count partition) (pr_was_truncated partition)) <$> dr_partitions response)
        (Digest_from_partition bounded_data) (dr_tombstones_read response) is_short_read
  end.
Definition read_digest_response (stored : option PartitionData) : Digest :=
  match stored with Some data => Digest_from_partition data | None => Digest_empty end.
End Replica.

(** * Properties *)

(** ** Bytes *)

Definition cell_fits (c : Cell) : Prop :=
  utf8 (string_bytes (Cell_column c)) = true /\ in_u 32 (Z.of_nat (length (string_bytes (Cell_column c))))
  /\ (forall v, Cell_value c = Some v -> in_u 32 (Z.of_nat (length v)))
  /\ in_s 64 (Cell_timestamp c) /\ in_s 32 (Cell_ttl c)
  /\ (forall t, Cell_local_deletion_time c = Some t -> in_s 32 t).
Definition row_fits (ck : list Z) (r : Row) : Prop :=
  Row_clustering_key r = ck /\ in_u 32 (Z.of_nat (length ck)) /\ in_u 32 (Z.of_nat (length (Row_cells r)))
  /\ Forall cell_fits (Row_cells r) /\ (forall t, Row_local_deletion_time r = Some t -> in_s 32 t).
Definition data_fits (p : PartitionData) : Prop :=
  map_all row_fits (pd_rows p) /\ in_u 32 (Z.of_nat (length (entries (pd_rows p))))
  /\ (forall t, tombstone_timestamp p = Some t -> in_s 64 t)
  /\ (forall t, tombstone_local_deletion_time p = Some t -> in_s 32 t).

Lemma parses_bool b : parses read_bool b [bool_byte b].
Proof. intros rest. by destruct b. Qed.

Lemma parses_opt {A} (m : IoReader A) (write : A -> list Z) v :
  (forall x, v = Some x -> parses m x (write x)) ->
  parses (read_opt m) v (match v with Some x => 1 :: write x | None => [0] end).
Proof.
  intros Hv. destruct v as [x|].
  - change (1 :: write x) with ([bool_byte true] ++ write x). eapply parses_bind; [apply parses_bool|].
    by apply (parses_map _ Some), Hv.
  - change [0] with ([bool_byte false] ++ []). eapply parses_bind; [apply parses_bool|apply parses_ret].
Qed.

Lemma write_bytes_put v : write_bytes v = put_bytes v.
Proof. done. Qed.

Lemma parses_wire_opt_i32 v : (forall t, v = Some t -> in_s 32 t) -> parses read_opt_i32 v (write_opt_i32 v).
Proof. intros Hv. apply (parses_opt _ (write_be 4)). intros t Ht. apply parses_s; [lia|by apply Hv]. Qed.

Lemma parses_wire_cell c : cell_fits c -> parses decode_cell c (encode_cell c).
Proof.
  intros (Hu & Hl & Hv & Ht & Httl & Hd). destruct c as [column value timestamp ttl ldt dead]; unfold encode_cell;
    cbn [Cell_column Cell_value Cell_timestamp Cell_ttl Cell_local_deletion_time Cell_is_tombstone] in *.
  eapply parses_bind; [by apply parses_bytes|]. eapply parses_bind_0; [by apply parses_string|].
  eapply parses_bind; [apply (parses_opt _ write_bytes); intros v Ev; by apply parses_bytes, Hv|].
  eapply parses_bind; [apply parses_s; [lia|done]|]. eapply parses_bind; [apply parses_s; [lia|done]|].
  eapply parses_bind; [by apply parses_wire_opt_i32|].
  apply (parses_map _ (mkCell column value timestamp ttl ldt)), parses_bool.
Qed.

Lemma parses_wire_row ck r : row_fits ck r -> parses decode_row (ck, r) (encode_row (ck, r)).
Proof.
  intros (Ek & Hk & Hn & Hc & Hd). destruct r as [key cells dead ldt].
  cbn [Row_clustering_key Row_cells Row_is_tombstone Row_local_deletion_time encode_row] in *. subst key.
  eapply parses_bind; [by apply parses_bytes|]. eapply parses_bind; [apply parses_bool|].
  eapply parses_bind; [by apply parses_wire_opt_i32|]. unfold write_u32. rewrite wrap_u_id by done.
  eapply parses_bind; [by apply parses_u|]. rewrite Nat2Z.id.
  apply (parses_map _ (fun cells => (ck, mkRow ck cells dead ldt))), parses_repeat.
  eapply Forall_impl; [exact Hc|]. apply parses_wire_cell.
Qed.

Lemma partition_data_roundtrip p : data_fits p -> decode_partition_data (encode_partition_data p) = Some p.
Proof.
  intros (Hr & Hn & Ht & Hl). assert (parses read_partition_bytes p (encode_partition_data p)) as Hp.
  { unfold encode_partition_data, write_u32. rewrite wrap_u_id by done.
    eapply parses_bind; [apply (parses_opt _ (write_be 8)); intros t Et; apply parses_s; [lia|by apply Ht]|].
    eapply parses_bind; [by apply parses_wire_opt_i32|]. eapply parses_bind; [by apply parses_u|]. rewrite Nat2Z.id.
    destruct p as [rows ts ldt]. cbn [pd_rows tombstone_timestamp tombstone_local_deletion_time] in *.
    pose proof (parses_map (io_repeat (length (entries rows)) decode_row)
      (fun l => mkPartitionData (insert_all ∅ l) ts ldt) (entries rows) (mjoin (encode_row <$> entries rows))) as Hm.
    cbv beta in Hm. rewrite insert_all_entries in Hm. apply Hm, parses_repeat.
    apply Forall_forall. intros [ck r] Hin. by apply parses_wire_row, Hr, ordmap_elem. }
  unfold decode_partition_data. rewrite <- (app_nil_r (encode_partition_data p)). by rewrite Hp.
Qed.

(** ** Live data *)

(** The cells, the row and the partition that [from_partition_data] keeps. *)
Definition kept_cells (now : Z) (l : list Cell) : list Cell := List.filter (fun c => Cell_is_live_at c now) l.
Definition kept_row (now : Z) (tombstone : option Z) (r : Row) : option Row :=
  if Row_is_tombstone r then None
  else if match tombstone with
          | Some pt_ts => negb (existsb (fun c => pt_ts <? Cell_timestamp c) (Row_cells r))
          | None => false
          end then None
  else match kept_cells now (Row_cells r) with
       | [] => None
       | cells => Some (mkRow (Row_clustering_key r) cells false None)
       end.
Definition kept_part (now : Z) (p : PartitionData) : PartitionData :=
  mkPartitionData (omap (kept_row now (tombstone_timestamp p)) (pd_rows p))
    (tombstone_timestamp p) (tombstone_local_deletion_time p).
Definition says_nothing (p : PartitionData) : bool :=
  bool_decide (entries (pd_rows p) = []) && bool_decide (tombstone_timestamp p = None).

Lemma kept_cells_loop now l acc tracker :
  exists tracker', foldl (live_cell_step now) (acc, tracker) l = (acc ++ kept_cells now l, tracker').
Proof.
  revert acc tracker. induction l as [|c l IH]; intros acc tracker; simpl; [rewrite app_nil_r; eauto|].
  unfold Cell_is_live_at at 2. destruct (Cell_is_tombstone c) eqn:E; [apply IH|].
  destruct (Cell_is_live_at c now) eqn:El; unfold Cell_is_live_at in El; rewrite E in El; rewrite El; simpl.
  - destruct (IH (acc ++ [c]) tracker) as [t ->]. exists t. by rewrite <- app_assoc.
  - apply IH.
Qed.

Lemma kept_rows_loop now tombstone l acc n tracker :
  (forall p, p ∈ l -> Row_clustering_key p.2 = p.1) ->
  exists tracker', foldl (live_row_step now tombstone) (acc, n, tracker) l
    = (foldl PartitionData_apply_row acc (omap (kept_row now tombstone) l.*2),
       (n + length (omap (kept_row now tombstone) l.*2))%nat, tracker').
Proof.
  revert acc n tracker. induction l as [|[ck r] l IH]; intros acc n tracker Hl; [simpl; rewrite Nat.add_0_r; eauto|].
  assert (Row_clustering_key r = ck) as Hk by (apply (Hl (ck, r)); left).
  assert (forall p, p ∈ l -> Row_clustering_key p.2 = p.1) as Hl' by (intros p Hp; apply Hl; by right).
  rewrite fmap_cons. cbn [foldl live_row_step snd]. change (omap (kept_row now tombstone) (r :: l.*2)) with
    (match kept_row now tombstone r with Some y => y :: omap (kept_row now tombstone) l.*2 | None => omap (kept_row now tombstone) l.*2 end).
  destruct (kept_row now tombstone r) as [y|] eqn:E; unfold kept_row in E;
    (destruct (Row_is_tombstone r); [simplify_eq; try (by apply IH)|]);
    match goal with |- context [if ?b then _ else _] => destruct b end; simplify_eq; try (by apply IH);
    destruct (kept_cells_loop now (Row_cells r) [] tracker) as [t ->]; simpl app;
    destruct (kept_cells now (Row_cells r)) as [|c cells]; simplify_eq; try (by apply IH).
  destruct (IH (PartitionData_apply_row acc (mkRow (Row_clustering_key r) (c :: cells) false None)) (S n) t Hl') as [t' ->].
  exists t'. cbn [foldl length]. by rewrite Nat.add_succ_r.
Qed.

Lemma absorb_fresh l d :
  NoDup l.*1 -> (forall p, p ∈ l -> Row_clustering_key p.2 = p.1 /\ pd_rows d !! p.1 = None) ->
  foldl PartitionData_apply_row d l.*2
  = mkPartitionData (insert_all (pd_rows d) l) (tombstone_timestamp d) (tombstone_local_deletion_time d).
Proof.
  revert d. induction l as [|[ck r] l IH]; intros d Hnd Hl; [by destruct d|].
  rewrite fmap_cons in Hnd. apply NoDup_cons in Hnd as [Hck Hnd].
  destruct (Hl (ck, r)) as [Hk Hn]; [left|]. simpl in Hk, Hn. cbn [fmap list_fmap foldl snd fst insert_all].
  assert (PartitionData_apply_row d r = mkPartitionData (<[ck := r]> (pd_rows d)) (tombstone_timestamp d) (tombstone_local_deletion_time d)) as ->.
  { unfold PartitionData_apply_row. f_equal. rewrite Hk. apply map_eq. intros k. rewrite lookup_upsert.
    case_decide; subst; rewrite ?Hn, ?lookup_insert_eq, ?lookup_insert_ne; done. }
  rewrite IH; [done|done|]. intros p Hp. destruct (Hl p) as [H1 H2]; [by right|]. split; [done|]. simpl.
  rewrite lookup_insert_ne; [done|]. intros ->. apply Hck, list_elem_of_fmap. by exists p.
Qed.

Lemma omap_entries (now : Z) tombstone (m : ordmap (list Z) Row) :
  omap (kept_row now tombstone) (entries m).*2 = (entries (omap (kept_row now tombstone) m)).*2.
Proof.
  change (entries (omap (kept_row now tombstone) m)) with (omap (omap_entry (kept_row now tombstone)) (entries m)).
  induction (entries m) as [|[ck r] l IH]; [done|]. cbn. unfold omap_entry at 1. cbn.
  destruct (kept_row now tombstone r); cbn; [f_equal|]; apply IH.
Qed.

Lemma kept_row_key now tombstone r r' : kept_row now tombstone r = Some r' -> Row_clustering_key r' = Row_clustering_key r.
Proof. unfold kept_row. repeat case_match; try done; by intros [= <-]. Qed.

(** A replica's answer has exactly the live data. *)
Lemma from_partition_data_spec key p now tracker :
  p_wf p -> exists tracker',
  PartitionResult_from_partition_data key p now tracker
  = (mkPartitionResult key (if says_nothing (kept_part now p) then None else Some (kept_part now p))
       (length (entries (pd_rows (kept_part now p)))) false, tracker').
Proof.
  intros [Hr Ht]. unfold PartitionResult_from_partition_data.
  set (start := match tombstone_timestamp p, tombstone_local_deletion_time p with Some ts, Some ldt => _ | _, _ => _ end).
  destruct start as [d t] eqn:Es. unfold start in Es.
  assert (d = mkPartitionData ∅ (tombstone_timestamp p) (tombstone_local_deletion_time p)) as ->.
  { destruct (tombstone_timestamp p) as [ts|] eqn:E1, (tombstone_local_deletion_time p) as [ldt|] eqn:E2; simplify_eq; try done.
    all: exfalso; destruct Ht as [Ha Hb]; first [by destruct Ha | by destruct Hb]. }
  destruct (kept_rows_loop now (tombstone_timestamp p) (entries (pd_rows p))
    (mkPartitionData ∅ (tombstone_timestamp p) (tombstone_local_deletion_time p)) 0 t) as [t' ->].
  { intros [ck r] Hin. by apply (Hr ck r), ordmap_elem. }
  exists t'. rewrite omap_entries. set (m := omap (kept_row now (tombstone_timestamp p)) (pd_rows p)).
  rewrite absorb_fresh; [|apply keys_NoDup|].
  - cbn [pd_rows tombstone_timestamp tombstone_local_deletion_time]. rewrite insert_all_entries, length_fmap, Nat.add_0_l.
    f_equal. f_equal. unfold says_nothing, kept_part. cbn [pd_rows tombstone_timestamp]. fold m.
    destruct (entries m) as [|e l], (tombstone_timestamp p); simpl; done.
  - intros [ck r] Hin. apply ordmap_elem in Hin. unfold m in Hin. rewrite lookup_omap in Hin.
    split; [|cbn [pd_rows]; apply lookup_empty].
    destruct (pd_rows p !! ck) as [r0|] eqn:E; simpl in Hin; [|done]. simpl.
    rewrite (kept_row_key _ _ _ _ Hin). by apply (Hr ck r0).
Qed.

(** ** What a digest covers *)

(** Cells and rows that are hashed alike: all but the deletion times of cells. *)
Definition cell_same (c d : Cell) : Prop := cell_items c = cell_items d.
Definition row_same (p q : list Z * Row) : Prop :=
  p.1 = q.1 /\ Row_is_tombstone p.2 = Row_is_tombstone q.2 /\ Row_local_deletion_time p.2 = Row_local_deletion_time q.2
  /\ Forall2 cell_same (Row_cells p.2) (Row_cells q.2).
Definition row_boundary (l : list HashItem) : Prop := match l with HashString _ :: _ => False | _ => True end.

Lemma cell_items_split cs ds rest rest' :
  row_boundary rest -> row_boundary rest' ->
  mjoin (cell_items <$> cs) ++ rest = mjoin (cell_items <$> ds) ++ rest' -> Forall2 cell_same cs ds /\ rest = rest'.
Proof.
  intros Hr Hr'. revert ds. induction cs as [|c cs IH]; intros [|d ds]; rewrite ?fmap_cons; cbn [fmap list_fmap mjoin list_join].
  - done.
  - intros E. exfalso. simpl in E. subst rest. done.
  - intros E. exfalso. simpl in E. subst rest'. done.
  - unfold cell_items at 1 3. cbn. intros [= E1 E2 E3 E4 E5 E]. destruct (IH ds E) as [H1 H2].
    split; [|done]. constructor; [|done]. unfold cell_same, cell_items. congruence.
Qed.

Lemma row_items_boundary l : row_boundary (mjoin (row_items <$> l)).
Proof. by destruct l as [|[ck r] l]. Qed.

Lemma row_items_inj l k : mjoin (row_items <$> l) = mjoin (row_items <$> k) -> Forall2 row_same l k.
Proof.
  revert k. induction l as [|[ck r] l IH]; intros [|[ck' r'] k]; try done. rewrite !fmap_cons. cbn [mjoin list_join].
  unfold row_items at 1 3. cbn [app]. intros [= -> E1 E2 E]. apply cell_items_split in E as [H1 H2]; try apply row_items_boundary.
  constructor; [done|by apply IH].
Qed.

Lemma digest_items_inj p q :
  digest_items p = digest_items q ->
  tombstone_timestamp p = tombstone_timestamp q /\ tombstone_local_deletion_time p = tombstone_local_deletion_time q
  /\ Forall2 row_same (entries (pd_rows p)) (entries (pd_rows q)).
Proof. unfold digest_items. cbn [app]. intros [= E1 E2 E]. split_and!; [done..|by apply row_items_inj]. Qed.
