(* ===== verification/Node.v ===== *)
(** Node identity and state (crates/cassandra-cluster-metadata/src/node.rs). *)
From S2P Require Export Prelude Token.

(** The standard library's [SocketAddr]. *)
Inductive SocketAddr :=
| V4 (ip port : Z)
| V6 (ip port flowinfo scope_id : Z).
#[export] Instance SocketAddr_eq_dec : EqDecision SocketAddr.
Proof. solve_decision. Defined.
#[export] Program Instance SocketAddr_countable : Countable SocketAddr :=
  inj_countable'
    (fun a => match a with V4 i p => inl (i, p) | V6 i p f s => inr (i, p, f, s) end)
    (fun s => match s with inl (i, p) => V4 i p | inr (i, p, f, s) => V6 i p f s end) _.
Next Obligation. by intros []. Qed.

(** The tuple structs [NodeId(Uuid)] and [Endpoint(SocketAddr)]. *)
Definition NodeId : Type := Z.
Definition Endpoint : Type := SocketAddr.
#[export] Instance Endpoint_eq_dec : EqDecision Endpoint := SocketAddr_eq_dec.
#[export] Instance Endpoint_countable : Countable Endpoint := SocketAddr_countable.

Inductive NodeState := Joining | Normal | Leaving | Moving | Dead | Left | Replacing.
#[export] Instance NodeState_eq_dec : EqDecision NodeState.
Proof. solve_decision. Defined.

Definition NodeState_is_live (s : NodeState) : bool := match s with Normal => true | _ => false end.
Definition NodeState_owns_tokens (s : NodeState) : bool :=
  match s with Normal | Leaving | Moving => true | _ => false end.
Definition NodeState_is_removed (s : NodeState) : bool := match s with Left => true | _ => false end.
Definition NodeState_is_transitioning (s : NodeState) : bool :=
  match s with Joining | Leaving | Moving | Replacing => true | _ => false end.

Record NodeInfo := {
  host_id : NodeId;
  endpoint : Endpoint;
  datacenter : string;
  rack : string;
  tokens : list Z;
  state : NodeState;
  load_bytes : Z;
  schema_version : option Z;
}.

Definition NodeInfo_new (host_id : NodeId) (endpoint : Endpoint) (datacenter rack : string)
    (tokens : list Z) : NodeInfo :=
  {| host_id := host_id; endpoint := endpoint; datacenter := datacenter; rack := rack; tokens := tokens;
     state := Normal; load_bytes := 0; schema_version := None |}.

(** Addresses for concrete examples: 127.0.0.n:7000. *)
Definition example_endpoint (n : Z) : Endpoint := V4 (127 * 2 ^ 24 + n) 7000.
