(* ===== verification/ReadResolve.v ===== *)
(** * Resolving the responses of replicas

    crates/cassandra-coordinator/src/read/resolver.rs: the comparison of digests and
    the merge of full responses with the repairs it calls for; repair.rs and
    verb_handlers/read_repair_handler.rs: staging repairs, their payload, and how the
    replica applies one.

    The merge is shown to be the join of the views of the responses. *)
From S2P Require Export ReadData EngineViews Node.

(** ** Resolvers (resolver.rs) *)

Record DigestResolver := mkDigestResolver {
  dg_data_response : option DataResponse;
  dg_data_digest : option Digest;
  dg_digest_responses : list Digest;
  dg_required : nat;
}.
Record DigestMismatch := mkDigestMismatch {
  dm_mismatched_count : nat;
  dm_data_digest : Digest;
  dm_mismatched_digests : list (nat * Digest);
}.
Definition DigestResolver_new (required : nat) : DigestResolver := mkDigestResolver None None [] required.
Definition DigestResolver_add_digest_response (r : DigestResolver) (digest : Digest) : DigestResolver :=
  mkDigestResolver (dg_data_response r) (dg_data_digest r) (dg_digest_responses r ++ [digest]) (dg_required r).
Definition DigestResolver_has_enough_responses (r : DigestResolver) : bool :=
  (dg_required r <=? (if dg_data_response r then 1 else 0) + length (dg_digest_responses r))%nat.
Definition DigestResolver_resolve (r : DigestResolver) : DigestMismatch + DataResponse :=
  match dg_data_response r with
  | None => inl (mkDigestMismatch 0 Digest_empty [])
  | Some data_response =>
      let data_digest := default Digest_empty (dg_data_digest r) in
      let mismatched := List.filter (fun p => negb (p.2 =? data_digest)) (imap pair (dg_digest_responses r)) in
      match mismatched with
      | [] => inr data_response
      | _ => inl (mkDigestMismatch (length mismatched) data_digest mismatched)
      end
  end.

Record RepairMutation := mkRepairMutation {
  rm_replica_index : nat;
  rm_partition_key : list Z;
  rm_merged_data : PartitionData;
}.
Record ResolvedData := mkResolvedData {
  rd_data : DataResponse;
  rd_repair_mutations : list RepairMutation;
  rd_tombstone_tracker : TombstoneTracker;
}.

Definition merge_partition_data (versions : list (option PartitionData)) : PartitionData :=
  foldl (fun merged version => absorb_rows (absorb_tombstone merged version) version)
    PartitionData_new (omap id versions).

(** The keys of all responses, in the order of their first appearance. *)
Definition response_keys (responses : list DataResponse) : list (list Z) :=
  foldl (fun keys p => if bool_decide (pr_partition_key p ∈ keys) then keys else keys ++ [pr_partition_key p])
    [] (mjoin (dr_partitions <$> responses)).
Definition version_in (pk : list Z) (resp : DataResponse) : option PartitionData :=
  List.find (fun p => bool_decide (pr_partition_key p = pk)) (dr_partitions resp) ≫= pr_data.

Section Resolver.
Context (hash : list HashItem -> Digest).

Definition DigestResolver_add_data_response (r : DigestResolver) (response : DataResponse) : DigestResolver :=
  mkDigestResolver (Some response) (Some (DataResponse_digest hash response)) (dg_digest_responses r) (dg_required r).

Definition version_digest (version : option PartitionData) : Digest :=
  match version with Some v => Digest_from_partition hash v | None => Digest_empty end.

(** One key of the loop of [resolve]. *)
Definition resolve_key (now_seconds : Z) (responses : list DataResponse)
    (acc : list PartitionResult * list RepairMutation * TombstoneTracker) (pk : list Z) :
    list PartitionResult * list RepairMutation * TombstoneTracker :=
  let '(merged_partitions, repairs, tracker) := acc in
  let partition_versions := version_in pk <$> responses in
  let merged := merge_partition_data partition_versions in
  let repairs := foldl (fun repairs p =>
      if negb (version_digest p.2 =? Digest_from_partition hash merged)
      then repairs ++ [mkRepairMutation p.1 pk merged] else repairs) repairs (imap pair partition_versions) in
  let '(result, tracker) := PartitionResult_from_partition_data pk merged now_seconds tracker in
  (if (0 <? pr_live_row_count result)%nat || bool_decide (is_Some (pr_data result))
   then merged_partitions ++ [result] else merged_partitions, repairs, tracker).

Definition DataResolver_resolve (thresholds : TombstoneThresholds) (responses : list DataResponse) (now_seconds : Z) :
    ResolvedData :=
  match responses with
  | [] => mkResolvedData DataResponse_empty [] (TombstoneTracker_new thresholds)
  | [data] => mkResolvedData data [] (TombstoneTracker_new thresholds)
  | _ =>
      let '(merged_partitions, repairs, tracker) :=
        foldl (resolve_key now_seconds responses) ([], [], TombstoneTracker_new thresholds) (response_keys responses) in
      mkResolvedData (mkDataResponse merged_partitions (tt_count tracker) false) repairs tracker
  end.
End Resolver.

(** ** Read repair (repair.rs) *)

Inductive ReadRepairStrategy := Blocking | NoReadRepair.
#[export] Instance ReadRepairStrategy_eq_dec : EqDecision ReadRepairStrategy.
Proof. solve_decision. Defined.

Record ReadRepairMutation := mkReadRepairMutation {
  rr_target : Endpoint;
  rr_keyspace : string;
  rr_table : string;
  rr_partition_key : list Z;
  rr_data : PartitionData;
}.
(** The chances, which no code reads, are left out. *)
Record ReadRepairHandler := mkReadRepairHandler { rh_strategy : ReadRepairStrategy; rh_pending : list ReadRepairMutation }.
Definition ReadRepairHandler_new (strategy : ReadRepairStrategy) : ReadRepairHandler := mkReadRepairHandler strategy [].
Definition ReadRepairHandler_stage_repair (h : ReadRepairHandler) (target : Endpoint) (keyspace table : string)
    (partition_key : list Z) (data : PartitionData) : ReadRepairHandler :=
  if bool_decide (rh_strategy h = NoReadRepair) then h
  else mkReadRepairHandler (rh_strategy h)
         (rh_pending h ++ [mkReadRepairMutation target keyspace table partition_key data]).

Record ReadRepairExecutionResult := mkReadRepairExecutionResult {
  re_attempted : nat;
  re_acknowledged : nat;
  re_failed : nat;
  re_failed_targets : list Endpoint;
}.

Record AsyncReadRepairScheduler := mkAsyncReadRepairScheduler {
  as_strategy : ReadRepairStrategy;
  as_pending : list ReadRepairMutation;
}.
Definition AsyncReadRepairScheduler_enqueue (s : AsyncReadRepairScheduler) (repair : ReadRepairMutation) :
    AsyncReadRepairScheduler :=
  if bool_decide (as_strategy s = NoReadRepair) then s
  else mkAsyncReadRepairScheduler (as_strategy s) (as_pending s ++ [repair]).
Definition AsyncReadRepairScheduler_enqueue_from_handler (s : AsyncReadRepairScheduler) (h : ReadRepairHandler) :
    nat * AsyncReadRepairScheduler * ReadRepairHandler :=
  if bool_decide (as_strategy s = NoReadRepair) then (O, s, mkReadRepairHandler (rh_strategy h) [])
  else (length (rh_pending h), mkAsyncReadRepairScheduler (as_strategy s) (as_pending s ++ rh_pending h),
        mkReadRepairHandler (rh_strategy h) []).

(** The payload of a repair: rows and cells with value and timestamp. *)
Definition repair_cell_bytes (cell : Cell) : list Z :=
  write_bytes (string_bytes (Cell_column cell))
  ++ match Cell_value cell with Some val => write_bytes val | None => write_u32 0 end
  ++ write_be 8 (Cell_timestamp cell).
Definition repair_row_bytes (p : list Z * Row) : list Z :=
  write_bytes p.1 ++ write_u32 (length (Row_cells p.2)) ++ mjoin (repair_cell_bytes <$> Row_cells p.2).
Definition serialize_repair_payload (repair : ReadRepairMutation) : list Z :=
  write_bytes (string_bytes (rr_keyspace repair)) ++ write_bytes (string_bytes (rr_table repair))
  ++ write_bytes (rr_partition_key repair)
  ++ write_u32 (length (entries (pd_rows (rr_data repair))))
  ++ mjoin (repair_row_bytes <$> entries (pd_rows (rr_data repair))).

(** ** Sending repairs *)

(** Whether the message with this number to the target with this payload is acknowledged. *)
Section Dispatch.
Context (answered : nat -> Endpoint -> list Z -> bool).

(** One repair of the loop. *)
Definition execute_repair (acc : nat * ReadRepairExecutionResult * list ReadRepairMutation) (repair : ReadRepairMutation) :
    nat * ReadRepairExecutionResult * list ReadRepairMutation :=
  let '(id, result, still_pending) := acc in
  if answered id (rr_target repair) (serialize_repair_payload repair) then
    (S id, mkReadRepairExecutionResult (re_attempted result) (S (re_acknowledged result)) (re_failed result)
       (re_failed_targets result), still_pending)
  else
    (S id, mkReadRepairExecutionResult (re_attempted result) (re_acknowledged result) (S (re_failed result))
       (re_failed_targets result ++ [rr_target repair]), still_pending ++ [repair]).
(** [next_id] is the next message number, [None] without a messaging service; the
    result is [None] where the code is [unreachable!]. *)
Definition ReadRepairHandler_execute_repairs (next_id : option nat) (h : ReadRepairHandler) :
    option (ReadRepairExecutionResult * ReadRepairHandler) :=
  let count := length (rh_pending h) in
  if (count =? 0)%nat then Some (mkReadRepairExecutionResult 0 0 0 [], h)
  else match next_id with
       | None => Some (mkReadRepairExecutionResult count count 0 [], mkReadRepairHandler (rh_strategy h) [])
       | Some id =>
           if bool_decide (rh_strategy h = NoReadRepair) then None
           else
             let '(_, result, still_pending) :=
               foldl execute_repair (id, mkReadRepairExecutionResult count 0 0 [], []) (rh_pending h) in
             Some (result, mkReadRepairHandler (rh_strategy h) still_pending)
       end.

(** The scheduler's queue; nothing is queued while it drains. *)
Definition AsyncReadRepairScheduler_drain_once (next_id : option nat) (s : AsyncReadRepairScheduler) :
    option (ReadRepairExecutionResult * AsyncReadRepairScheduler) :=
  match as_pending s with
  | [] => Some (mkReadRepairExecutionResult 0 0 0 [], s)
  | repairs =>
      '(result, h) ← ReadRepairHandler_execute_repairs next_id (mkReadRepairHandler (as_strategy s) repairs);
      Some (result, mkAsyncReadRepairScheduler (as_strategy s) (rh_pending h))
  end.
End Dispatch.

(** ** The replica's side (read_repair_handler.rs) *)

Definition read_repair_cell : IoReader CellMutation :=
  column ← io_bytes;
  column ← io_string column;
  value ← io_bytes;
  timestamp ← io_s 8;
  let empty := bool_decide (value = []) in
  mret (mkCellMutation column (if empty then None else Some value) timestamp 0 None empty).
Definition read_repair_row : IoReader MutationRow :=
  clustering_key ← io_bytes;
  cell_count ← io_u 4;
  cells ← io_repeat (Z.to_nat cell_count) read_repair_cell;
  mret (mkMutationRow clustering_key cells false None).
Definition read_staged_repair : IoReader Mutation :=
  keyspace ← io_bytes;
  keyspace ← io_string keyspace;
  table ← io_bytes;
  table ← io_string table;
  partition_key ← io_bytes;
  row_count ← io_u 4;
  rows ← io_repeat (Z.to_nat row_count) read_repair_row;
  let mutation_timestamp := foldl Z.max 0 (cm_timestamp <$> mjoin (mr_cells <$> rows)) in
  mret (mkMutation keyspace table partition_key rows mutation_timestamp false [] None []).
(** The binary form, converted by [to_storage_mutation]; [None] is the error. *)
Definition decode_staged_repair_payload (payload : list Z) : option Mutation :=
  match read_staged_repair payload with inr (m, []) => Some m | _ => None end.

(** What the replica does with a payload: [from_json] is [serde_json::from_slice], tried
    first, and [apply_mutation] the engine's.  The answer is whether it succeeded. *)
Section VerbHandler.
Context {E Err : Type} (from_json : list Z -> option Mutation) (apply_mutation : Mutation -> E -> (Err + unit) * E).

Definition decode_read_repair_request (payload : list Z) : option Mutation :=
  match from_json payload with Some m => Some m | None => decode_staged_repair_payload payload end.
Definition ReadRepairVerbHandler_handle_with_storage (payload : list Z) (storage : E) : bool * E :=
  match decode_read_repair_request payload with
  | None => (false, storage)
  | Some mutation =>
      let '(result, storage) := apply_mutation mutation storage in
      (match result with inl _ => false | inr _ => true end, storage)
  end.
End VerbHandler.

(** ** Resolution by the coordinator (mod.rs) *)

Record CoordinatedRead := mkCoordinatedRead {
  cr_keyspace : string;
  cr_table : string;
  cr_partition_key : list Z;
  cr_start_after : option (list Z);
  cr_row_limit : option nat;
}.
Record ResolvedReadResponses := mkResolvedReadResponses {
  rs_data : DataResponse;
  rs_digest_mismatch_resolved : bool;
  rs_read_repair : ReadRepairHandler;
  rs_warnings : list (Z * Z);
  rs_tombstones_read : Z;
}.

Section Coordinator.
Context (hash : list HashItem -> Digest) (read_repair_strategy : ReadRepairStrategy) (tombstone_thresholds : TombstoneThresholds).

(** The loop that stages the repairs whose index has a replica. *)
Definition stage_repairs (read : CoordinatedRead) (replicas : list Endpoint) (repairs : list RepairMutation) : ReadRepairHandler :=
  foldl (fun h repair =>
      match replicas !! rm_replica_index repair with
      | Some target => ReadRepairHandler_stage_repair h target (cr_keyspace read) (cr_table read)
                         (rm_partition_key repair) (rm_merged_data repair)
      | None => h
      end) (ReadRepairHandler_new read_repair_strategy) repairs.

(** The error is the count of [ReadError::DigestMismatch]. *)
Definition resolve_replica_responses (read : CoordinatedRead) (contacted_replicas : list Endpoint) (data_response : DataResponse)
    (digest_responses : list Digest) (full_responses_on_mismatch : list DataResponse) (now_seconds : Z) :
    nat + ResolvedReadResponses :=
  let required := S (length digest_responses) in
  let digest_resolver := DigestResolver_add_data_response hash (DigestResolver_new required) data_response in
  let digest_resolver := foldl DigestResolver_add_digest_response digest_resolver digest_responses in
  match DigestResolver_resolve digest_resolver with
  | inr data => inr (mkResolvedReadResponses data false (ReadRepairHandler_new read_repair_strategy) [] 0)
  | inl mismatch =>
      match full_responses_on_mismatch with
      | [] => inl (dm_mismatched_count mismatch)
      | full_responses =>
          let resolved := DataResolver_resolve hash tombstone_thresholds full_responses now_seconds in
          let read_repair := stage_repairs read contacted_replicas (rd_repair_mutations resolved) in
          inr (mkResolvedReadResponses (rd_data resolved) true read_repair
                 (tt_warnings (rd_tombstone_tracker resolved)) (tt_count (rd_tombstone_tracker resolved)))
      end
  end.

(** [None] is the error for counts that differ; with equal counts every index has its
    replica, and the code's indexing does not panic. *)
Definition stage_read_repair_from_responses (read : CoordinatedRead) (replicas : list Endpoint) (responses : list DataResponse)
    (now : Z) : option ReadRepairHandler :=
  if negb (length responses =? length replicas)%nat then None
  else
    let resolved := DataResolver_resolve hash tombstone_thresholds responses now in
    Some (stage_repairs read replicas (rd_repair_mutations resolved)).
(** The handler is emptied into the scheduler. *)
Definition read_repair_from_responses (read : CoordinatedRead) (replicas : list Endpoint) (responses : list DataResponse)
    (now : Z) (scheduler : AsyncReadRepairScheduler) : option AsyncReadRepairScheduler :=
  handler ← stage_read_repair_from_responses read replicas responses now;
  let '(_, scheduler, _) := AsyncReadRepairScheduler_enqueue_from_handler scheduler handler in
  Some scheduler.
End Coordinator.


(** * Properties *)

(** ** Merging *)

Definition pview_sup (l : list PartitionData) : PView := foldl pview_join (∅, None) (pview <$> l).

Lemma merge_partition_data_view versions :
  Forall p_wf (omap id versions) ->
  p_wf (merge_partition_data versions) /\ pview (merge_partition_data versions) = pview_sup (omap id versions).
Proof.
  unfold merge_partition_data, pview_sup. assert (pview PartitionData_new = (∅, None)) as <- by (unfold pview; f_equal; apply fmap_empty).
  generalize partition_new_wf. generalize PartitionData_new. induction (omap id versions) as [|p l IH]; intros d Hd Hl; [done|].
  apply Forall_cons in Hl as [Hp Hl]. destruct (absorb_view' d p Hd Hp) as [H1 H2]. rewrite fmap_cons. cbn [foldl]. rewrite <- H2. by apply IH.
Qed.

(** A response about one partition at most. *)
Definition answers_for (pk : list Z) (resp : DataResponse) : Prop :=
  dr_partitions resp = [] \/ exists p, dr_partitions resp = [p] /\ pr_partition_key p = pk.

Lemma response_keys_one pk l :
  Forall (answers_for pk) l -> response_keys l = if decide (Forall (fun r => dr_partitions r = []) l) then [] else [pk].
Proof.
  intros Hl. unfold response_keys. assert (Hp : Forall (fun p => pr_partition_key p = pk) (mjoin (dr_partitions <$> l))).
  { induction Hl as [|r l Hr _ IH]; [constructor|]. simpl. destruct Hr as [->|(p & -> & Hp)]; [exact IH|by constructor]. }
  assert (He : mjoin (dr_partitions <$> l) = [] <-> Forall (fun r => dr_partitions r = []) l).
  { clear. induction l as [|r l IH]; [done|]. simpl. rewrite app_nil, IH, Forall_cons. done. }
  assert (Hk : forall ps, Forall (fun p => pr_partition_key p = pk) ps ->
    foldl (fun keys p => if bool_decide (pr_partition_key p ∈ keys) then keys else keys ++ [pr_partition_key p]) [pk] ps = [pk]).
  { clear. induction 1 as [|p ps Hp _ IH]; [done|]. cbn [foldl]. rewrite Hp, bool_decide_eq_true_2 by left. exact IH. }
  revert He Hp. destruct (mjoin (dr_partitions <$> l)) as [|p ps]; intros He Hp; destruct (decide _) as [Hd|Hd].
  - done.
  - exfalso. by apply Hd, He.
  - by apply He in Hd.
  - apply Forall_cons in Hp as [Hp1 Hp]. cbn [foldl]. rewrite Hp1, bool_decide_eq_false_2 by apply not_elem_of_nil. by apply Hk.
Qed.

Lemma version_in_one pk r : answers_for pk r -> version_in pk r = head (dr_partitions r) ≫= pr_data.
Proof.
  unfold version_in. intros [->|(p & -> & Hp)]; [done|]. simpl. by rewrite bool_decide_eq_true_2.
Qed.

Lemma fold_stale {A} (f : A -> bool) (g : A -> RepairMutation) l acc :
  foldl (fun acc x => if f x then acc ++ [g x] else acc) acc l = acc ++ (g <$> List.filter f l).
Proof.
  revert acc. induction l as [|x l IH]; intros acc; simpl; [by rewrite app_nil_r|].
  rewrite IH. destruct (f x); [|done]. by rewrite <- app_assoc.
Qed.

Section Resolving.
Context (hash : list HashItem -> Digest).

Definition stale_repairs (pk : list Z) (versions : list (option PartitionData)) : list RepairMutation :=
  let merged := merge_partition_data versions in
  (fun p => mkRepairMutation p.1 pk merged)
  <$> List.filter (fun p : nat * option PartitionData => negb (version_digest hash p.2 =? Digest_from_partition hash merged))
        (imap pair versions).

Lemma stale_repairs_elem pk versions rm :
  rm ∈ stale_repairs pk versions <->
  exists i v, versions !! i = Some v /\ rm = mkRepairMutation i pk (merge_partition_data versions)
    /\ version_digest hash v <> Digest_from_partition hash (merge_partition_data versions).
Proof.
  unfold stale_repairs. cbv zeta. rewrite list_elem_of_fmap. split.
  - intros ([i v] & -> & Hin%list_elem_of_In%List.filter_In). destruct Hin as [Hin Hd]. exists i, v.
    apply list_elem_of_In, elem_of_lookup_imap in Hin as (j & w & [= -> ->] & Hw). simpl in *. bool_to_prop. done.
  - intros (i & v & Hv & -> & Hd). exists (i, v). split; [done|]. apply list_elem_of_In, List.filter_In.
    split; [|simpl; by apply negb_true_iff, Z.eqb_neq]. apply list_elem_of_In, elem_of_lookup_imap. eauto.
Qed.

(** With several responses about one partition, the answer is the live data of
    their merge, and the replicas that differ from it are repaired. *)
Lemma resolve_one thresholds responses pk now :
  (2 <= length responses)%nat -> Forall (answers_for pk) responses -> ~ Forall (fun r => dr_partitions r = []) responses ->
  let versions := (fun r => head (dr_partitions r) ≫= pr_data) <$> responses in
  Forall p_wf (omap id versions) ->
  let live := kept_part now (merge_partition_data versions) in
  exists tracker, DataResolver_resolve hash thresholds responses now
  = mkResolvedData (mkDataResponse (if says_nothing live then [] else [mkPartitionResult pk (Some live) (length (entries (pd_rows live))) false])
      (tt_count tracker) false) (stale_repairs pk versions) tracker.
Proof.
  intros Hlen Hans Hsome versions Hwf live. unfold DataResolver_resolve.
  rewrite (response_keys_one pk) by done. rewrite decide_False by done. cbn [foldl]. unfold resolve_key.
  assert (version_in pk <$> responses = versions) as ->.
  { apply list_fmap_ext. intros i r Hr. apply version_in_one. by eapply Forall_lookup_1 in Hans. }
  destruct (merge_partition_data_view versions Hwf) as [Hm _].
  destruct (from_partition_data_spec pk (merge_partition_data versions) now (TombstoneTracker_new thresholds) Hm) as [tracker ->].
  exists tracker. fold live. destruct responses as [|r1 [|r2 rest]]; simpl in Hlen; [lia|lia|]. cbn [pr_live_row_count pr_data].
  f_equal; [f_equal|].
  - destruct (says_nothing live) eqn:E; [|rewrite orb_comm; by simpl].
    apply andb_true_iff in E as [E _]. apply bool_decide_eq_true in E. by rewrite E.
  - apply (fold_stale (fun p : nat * option PartitionData => negb (version_digest hash p.2 =? _)) (fun p => mkRepairMutation p.1 pk _) _ []).
Qed.
End Resolving.
