(* ===== verification/ReadRepair.v ===== *)
(** * Read repair

    What a repair carries to a replica, and that the repairs of one read bring the
    contacted replicas together when the data has no deletions, no expiry and no
    empty values; with them, a repair loses data, as the samples show.

    crates/cassandra-coordinator/src/read/repair.rs, read/mod.rs and
    verb_handlers/read_repair_handler.rs, modelled in ReadResolve. *)
From S2P Require Export ReadResolve.

(** ** The payload *)

(** What the replica makes of a cell: an empty value is a deletion, and the time to
    live is gone. *)
Definition staged_cell (c : Cell) : CellMutation :=
  match Cell_value c with
  | Some (b :: v) => mkCellMutation (Cell_column c) (Some (b :: v)) (Cell_timestamp c) 0 None false
  | _ => mkCellMutation (Cell_column c) None (Cell_timestamp c) 0 None true
  end.
Definition staged_row (p : list Z * Row) : MutationRow := mkMutationRow p.1 (staged_cell <$> Row_cells p.2) false None.
Definition staged_mutation (r : ReadRepairMutation) : Mutation :=
  let rows := staged_row <$> entries (pd_rows (rr_data r)) in
  mkMutation (rr_keyspace r) (rr_table r) (rr_partition_key r) rows
    (foldl Z.max 0 (cm_timestamp <$> mjoin (mr_cells <$> rows))) false [] None [].

Definition name_fits (s : string) : Prop := utf8 (string_bytes s) = true /\ Z.of_nat (length (string_bytes s)) < 2 ^ 24.
Record repair_fits (r : ReadRepairMutation) : Prop := {
  rf_keyspace : name_fits (rr_keyspace r);
  rf_table : name_fits (rr_table r);
  rf_key : in_u 32 (Z.of_nat (length (rr_partition_key r)));
  rf_data : data_fits (rr_data r);
}.

Lemma parses_repeat_map {A B} (m : IoReader B) (g : A -> B) (f : A -> list Z) l :
  Forall (fun a => parses m (g a) (f a)) l -> parses (io_repeat (length l) m) (g <$> l) (mjoin (f <$> l)).
Proof.
  induction 1 as [|a l Ha _ IH]; [apply parses_ret|]. rewrite !fmap_cons. cbn [length io_repeat mjoin list_join].
  eapply parses_bind; [exact Ha|]. by apply (parses_map _ (cons (g a))).
Qed.

Lemma parses_name {B} (f : string -> IoReader B) s w b :
  utf8 (string_bytes s) = true -> in_u 32 (Z.of_nat (length (string_bytes s))) -> parses (f s) w b ->
  parses (x ← io_bytes; y ← io_string x; f y) w (write_bytes (string_bytes s) ++ b).
Proof.
  intros Hu Hl Hf. eapply parses_bind; [by apply parses_bytes|]. eapply parses_bind_0; [by apply parses_string|done].
Qed.

Lemma parses_repair_cell c : cell_fits c -> parses read_repair_cell (staged_cell c) (repair_cell_bytes c).
Proof.
  intros (Hu & Hl & Hv & Ht & _). unfold read_repair_cell, repair_cell_bytes. apply parses_name; [done..|].
  assert (match Cell_value c with Some val => write_bytes val | None => write_u32 0 end
    = put_bytes (default [] (Cell_value c))) as -> by (by destruct (Cell_value c)).
  eapply parses_bind.
  - apply parses_bytes. destruct (Cell_value c) eqn:E; [by apply Hv|done].
  - pose proof (parses_map (io_s 8) (fun t => let empty := bool_decide (default [] (Cell_value c) = []) in
      mkCellMutation (Cell_column c) (if empty then None else Some (default [] (Cell_value c))) t 0 None empty)
      (Cell_timestamp c) (write_be 8 (Cell_timestamp c))) as Hm.
    assert (staged_cell c = let empty := bool_decide (default [] (Cell_value c) = []) in
      mkCellMutation (Cell_column c) (if empty then None else Some (default [] (Cell_value c))) (Cell_timestamp c) 0 None empty) as ->
      by (unfold staged_cell; by destruct (Cell_value c) as [[|b v]|]).
    apply Hm, parses_s; [lia|done].
Qed.

Lemma parses_repair_row ck r : row_fits ck r -> parses read_repair_row (staged_row (ck, r)) (repair_row_bytes (ck, r)).
Proof.
  intros (Ek & Hk & Hn & Hc & Hd). unfold read_repair_row, repair_row_bytes, write_u32. cbn [fst snd]. rewrite wrap_u_id by done.
  eapply parses_bind; [by apply parses_bytes|]. eapply parses_bind; [by apply parses_u|]. rewrite Nat2Z.id.
  apply (parses_map _ (fun cells => mkMutationRow ck cells false None)), parses_repeat_map.
  eapply Forall_impl; [exact Hc|]. apply parses_repair_cell.
Qed.

Lemma repair_payload_decodes r : repair_fits r -> decode_staged_repair_payload (serialize_repair_payload r) = Some (staged_mutation r).
Proof.
  intros [[Hku Hk] [Htu Ht] Hp (Hr & Hn & _)]. assert (parses read_staged_repair (staged_mutation r) (serialize_repair_payload r)) as Hpr.
  { unfold read_staged_repair, serialize_repair_payload, write_u32. rewrite (wrap_u_id 32 _ Hn).
    apply parses_name; [done|unfold in_u; lia|]. apply parses_name; [done|unfold in_u; lia|].
    eapply parses_bind; [by apply parses_bytes|]. eapply parses_bind; [by apply parses_u|]. rewrite Nat2Z.id.
    apply (parses_map _ (fun rows => mkMutation (rr_keyspace r) (rr_table r) (rr_partition_key r) rows
      (foldl Z.max 0 (cm_timestamp <$> mjoin (mr_cells <$> rows))) false [] None [])), parses_repeat_map.
    apply Forall_forall. intros [ck row] Hin. by apply parses_repair_row, Hr, ordmap_elem. }
  unfold decode_staged_repair_payload. rewrite <- (app_nil_r (serialize_repair_payload r)). by rewrite Hpr.
Qed.

(** The payload is never read as JSON, which does not start with a zero byte. *)
Lemma repair_payload_head r : name_fits (rr_keyspace r) -> exists l, serialize_repair_payload r = 0 :: l.
Proof.
  intros [_ Hk]. unfold serialize_repair_payload, write_bytes at 1, write_u32. rewrite wrap_u_id by (unfold in_u; lia).
  assert (forall n, 0 <= n < 2 ^ 24 -> exists l, write_be 4 n = 0 :: l) as Hz.
  { intros n Hn. eexists. unfold write_be. cbn [be_bytes]. f_equal. change (256 ^ Z.of_nat 3) with (2 ^ 24).
    by rewrite Z.div_small. }
  destruct (Hz (Z.of_nat (length (string_bytes (rr_keyspace r))))) as [l ->]; [lia|]. by eexists.
Qed.

(** ** Plain data *)

Definition plain_cell (c : Cell) : Prop :=
  Cell_is_tombstone c = false /\ Cell_ttl c = 0 /\ Cell_local_deletion_time c = None /\ exists b v, Cell_value c = Some (b :: v).
Definition plain_row (r : Row) : Prop :=
  Row_is_tombstone r = false /\ Row_local_deletion_time r = None /\ Row_cells r <> [] /\ Forall plain_cell (Row_cells r).
Record plain_data (p : PartitionData) : Prop := {
  pl_rows : map_all (fun _ => plain_row) (pd_rows p);
  pl_tomb : tombstone_timestamp p = None /\ tombstone_local_deletion_time p = None;
}.

Lemma plain_staged ck r : plain_row r -> Row_clustering_key r = ck -> row_of (staged_row (ck, r)) = r.
Proof.
  intros (Ht & Hl & _ & Hc) <-. destruct r as [key cells dead ldt]. simpl in *. subst. unfold row_of, staged_row. simpl. f_equal.
  induction Hc as [|c cells (H1 & H2 & H3 & b & v & H4) _ IH]; [done|]. rewrite !fmap_cons. f_equal; [|exact IH].
  destruct c. simpl in *. subst. done.
Qed.

Lemma plain_live now c : plain_cell c -> Cell_is_live_at c now = true.
Proof. intros (H1 & H2 & _). unfold Cell_is_live_at. by rewrite H1, H2. Qed.

Lemma plain_kept_part now p : p_wf p -> plain_data p -> kept_part now p = p.
Proof.
  intros [Hw _] [Hr [H1 H2]]. destruct p as [rows ts ldt]. simpl in *. subst. unfold kept_part. cbn [pd_rows tombstone_timestamp tombstone_local_deletion_time]. f_equal.
  apply map_eq. intros ck. rewrite lookup_omap. destruct (rows !! ck) as [r|] eqn:E; [|done]. cbn [mbind option_bind].
  destruct (Hr ck r E) as (Ht & Hl & Hne & Hc). destruct (Hw ck r E) as [Hk _]. unfold kept_row. rewrite Ht.
  assert (kept_cells now (Row_cells r) = Row_cells r) as ->.
  { unfold kept_cells. clear -Hc. induction Hc as [|c l Hc _ IH]; [done|]. simpl. by rewrite plain_live, IH. }
  destruct r as [key [|c cells] dead ld]; [done|]. simpl in *. by subst.
Qed.

Lemma plain_merge_cells l k : Forall plain_cell l -> Forall plain_cell k -> Forall plain_cell (foldl Row_merge_cell l k).
Proof.
  intros Hl Hk. revert l Hl. induction Hk as [|c k Hc _ IH]; intros l Hl; [done|]. apply IH. clear IH.
  induction Hl as [|d l Hd Hl IH]; [by apply Forall_singleton|]. cbn [Row_merge_cell]. destruct (String.eqb _ _); constructor; try done.
  unfold Cell_merge_with. by repeat case_match.
Qed.
Lemma merged_cells_nonempty l k : l <> [] -> foldl Row_merge_cell l k <> [].
Proof.
  revert l. induction k as [|c k IH]; intros l Hl; [done|]. apply IH. destruct l as [|d l]; [done|]. simpl.
  by destruct (String.eqb _ _).
Qed.
Lemma plain_apply_row p r : plain_data p -> plain_row r -> plain_data (PartitionData_apply_row p r).
Proof.
  intros [Hr Ht] Hp. split; [|done]. intros ck r'. cbn [PartitionData_apply_row pd_rows]. rewrite lookup_upsert.
  case_decide; [|apply Hr]. subst ck. destruct (pd_rows p !! Row_clustering_key r) as [x|] eqn:E; intros [= <-]; [|done].
  destruct (Hr _ _ E) as (H1 & H2 & H3 & H4), Hp as (H5 & H6 & H7 & H8). unfold plain_row. cbn [Row_merge_with Row_is_tombstone Row_local_deletion_time Row_cells].
  rewrite H1, H2, H5. split_and!; [done..|by apply merged_cells_nonempty|by apply plain_merge_cells].
Qed.
Lemma plain_merge versions : Forall plain_data (omap id versions) -> plain_data (merge_partition_data versions).
Proof.
  unfold merge_partition_data. assert (plain_data PartitionData_new) as Hn.
  { split; [|done]. intros ck r. simpl. by rewrite lookup_empty. }
  revert Hn. generalize PartitionData_new. induction (omap id versions) as [|p l IH]; intros d Hd Hl; [done|].
  apply Forall_cons in Hl as [[Hr [Ht1 Ht2]] Hl]. apply IH; [|done]. unfold absorb_tombstone, absorb_rows. rewrite Ht1.
  assert (Forall plain_row (values (pd_rows p))) as Hv.
  { apply Forall_forall. intros r Hin. apply list_elem_of_fmap in Hin as ([ck r'] & -> & Hin). by apply (Hr ck), ordmap_elem. }
  clear -Hd Hv. revert d Hd. induction Hv as [|r k Hp _ IH]; intros d Hd; [done|]. by apply IH, plain_apply_row.
Qed.

Lemma plain_cell_same c d : plain_cell c -> plain_cell d -> cell_same c d -> c = d.
Proof. intros (_ & _ & H1 & _) (_ & _ & H2 & _). destruct c, d. simpl in *. subst. unfold cell_same, cell_items. simpl. by intros [= -> -> -> -> ->]. Qed.

(** Plain data with the same digest input is the same. *)
Lemma plain_items_inj p q : p_wf p -> p_wf q -> plain_data p -> plain_data q -> digest_items p = digest_items q -> p = q.
Proof.
  intros [Hwp _] [Hwq _] [Hp [Hp1 Hp2]] [Hq [Hq1 Hq2]] (_ & _ & HF)%digest_items_inj. destruct p as [rows ts ldt], q as [rows' ts' ldt'].
  simpl in *. subst. f_equal. rewrite <- (insert_all_entries rows), <- (insert_all_entries rows'). f_equal.
  assert (forall e, e ∈ entries rows -> Row_clustering_key e.2 = e.1 /\ plain_row e.2) as H1.
  { intros [ck r] He%ordmap_elem. split; [by apply (Hwp ck)|by apply (Hp ck)]. }
  assert (forall e, e ∈ entries rows' -> Row_clustering_key e.2 = e.1 /\ plain_row e.2) as H2.
  { intros [ck r] He%ordmap_elem. split; [by apply (Hwq ck)|by apply (Hq ck)]. }
  clear -HF H1 H2. induction HF as [|[ck r] [ck' r'] l k (E1 & E2 & E3 & Hc) _ IH]; [done|].
  destruct (H1 (ck, r)) as [K1 P1]; [left|]. destruct (H2 (ck', r')) as [K2 P2]; [left|]. simpl in *. subst ck'.
  f_equal; [|apply IH; intros; [apply H1|apply H2]; by right]. f_equal. destruct r as [k1 c1 d1 l1], r' as [k2 c2 d2 l2].
  destruct P1 as (_ & _ & _ & P1), P2 as (_ & _ & _ & P2). simpl in *. subst. f_equal. clear -Hc P1 P2.
  induction Hc as [|c d l k Hcd _ IH]; [done|]. apply Forall_cons in P1 as [? P1], P2 as [? P2]. f_equal; [by apply plain_cell_same|by apply IH].
Qed.

(** ** Convergence *)

(** What applying a mutation does to the partition. *)
Definition partition_update (p : PartitionData) (u : Update) : PartitionData :=
  match u with
  | URow row => PartitionData_apply_row p row
  | UTombstone ts ldt => PartitionData_set_tombstone p ts ldt
  end.
Definition partition_apply (m : Mutation) (p : PartitionData) : (Empty_set + unit) * PartitionData :=
  (inr tt, foldl partition_update p (mutation_updates m)).

(** Among these contents, equal digests mean equal input of the hash. *)
Definition digests_tell (hash : list HashItem -> Digest) (l : list (option PartitionData)) : Prop :=
  forall a b, a ∈ l -> b ∈ l -> version_digest hash a = version_digest hash b -> digest_items <$> a = digest_items <$> b.

Definition digests_tellb (hash : list HashItem -> Digest) (l : list (option PartitionData)) : bool :=
  forallb (fun a => forallb (fun b =>
    negb (version_digest hash a =? version_digest hash b) || bool_decide (digest_items <$> a = digest_items <$> b)) l) l.
Lemma digests_tellb_ok hash l : digests_tellb hash l = true -> digests_tell hash l.
Proof.
  intros H a b Ha%list_elem_of_In Hb%list_elem_of_In E. unfold digests_tellb in H. rewrite forallb_forall in H.
  specialize (H a Ha). rewrite forallb_forall in H. specialize (H b Hb). rewrite E, Z.eqb_refl in H. by apply bool_decide_eq_true in H.
Qed.

Lemma fold_rows p rs : foldl partition_update p (URow <$> rs) = foldl PartitionData_apply_row p rs.
Proof. revert p. induction rs as [|r rs IH]; intros p; [done|apply IH]. Qed.

Lemma staged_rows p : p_wf p -> plain_data p -> row_of <$> (staged_row <$> entries (pd_rows p)) = values (pd_rows p).
Proof.
  intros [Hw _] [Hp _]. unfold values. rewrite <- list_fmap_compose. apply list_fmap_ext. intros i [ck r] Hi.
  apply list_elem_of_lookup_2, ordmap_elem in Hi. apply plain_staged; [by apply (Hp ck)|by apply (Hw ck)].
Qed.

Section Convergence.
Context (from_json : list Z -> option Mutation) (Hjson : forall l, from_json (0 :: l) = None).
Context (W : History) (HW : hist_ok W) (pk : list Z).

(** A replica receives a repair. *)
Definition deliver_repair (contents : Endpoint -> PartitionData) (r : ReadRepairMutation) : Endpoint -> PartitionData :=
  fun e =>
    if decide (e = rr_target r)
    then (ReadRepairVerbHandler_handle_with_storage from_json partition_apply (serialize_repair_payload r) (contents e)).2
    else contents e.

Lemma deliver_repair_plain r p :
  repair_fits r -> p_wf p -> p_wf (rr_data r) -> plain_data (rr_data r) ->
  let p' := (ReadRepairVerbHandler_handle_with_storage from_json partition_apply (serialize_repair_payload r) p).2 in
  p_wf p' /\ pview p' = pview_join (pview p) (pview (rr_data r)).
Proof.
  intros Hf Hp Hm Hpl p'. assert (p' = absorb_rows p (rr_data r)) as ->.
  { unfold p', ReadRepairVerbHandler_handle_with_storage, decode_read_repair_request.
    destruct (repair_payload_head r (rf_keyspace _ Hf)) as [l El]. rewrite El at 1. rewrite Hjson, repair_payload_decodes by done.
    cbn [partition_apply snd]. unfold mutation_updates, staged_mutation.
    cbn [mu_rows mu_static_cells mu_partition_tombstone mu_range_tombstones fmap list_fmap app]. rewrite app_nil_r.
    rewrite list_fmap_compose, staged_rows by done. apply fold_rows. }
  destruct (absorb_rows_view p (rr_data r) Hp Hm) as [H1 H2]. split; [done|]. rewrite H2. f_equal.
  unfold pview, pd_tomb. by destruct Hpl as [_ [-> _]].
Qed.

Lemma empty_in : pview_in W pk (∅, None).
Proof. split; [|done]. intros k v. cbn [fst]. by rewrite lookup_empty. Qed.
Lemma sup_in l : Forall (fun p => pview_in W pk (pview p)) l -> pview_in W pk (pview_sup l).
Proof. intros Hl. apply (foldl_closed _ _ (Semilattice0 := pview_semilattice W HW pk)); [apply empty_in|by apply Forall_fmap]. Qed.
Lemma sup_absorbs l p :
  Forall (fun p => pview_in W pk (pview p)) l -> p ∈ l -> pview_join (pview p) (pview_sup l) = pview_sup l.
Proof.
  intros Hl Hp. apply (foldl_absorbs (pview_in W pk) _ (Semilattice0 := pview_semilattice W HW pk)); [apply empty_in|by apply Forall_fmap|].
  right. by apply list_elem_of_fmap_2.
Qed.

(** Deliveries of one partition bring every target to it. *)
Lemma deliver_repair_all merged pending contents e :
  p_wf merged -> plain_data merged -> pview_in W pk (pview merged) ->
  Forall (fun r => repair_fits r /\ rr_data r = merged) pending ->
  p_wf (contents e) -> pview_join (pview (contents e)) (pview merged) = pview merged ->
  let after := foldl deliver_repair contents pending e in
  (e ∉ rr_target <$> pending -> after = contents e) /\ (e ∈ rr_target <$> pending -> pview after = pview merged).
Proof.
  intros Hm Hpl Hin Hf. revert contents. induction Hf as [|r pending [Hr <-] _ IH]; intros contents Hw Hb; [set_solver|].
  rewrite fmap_cons. cbn [foldl]. cbv zeta. destruct (decide (e = rr_target r)) as [->|Hne].
  - assert (deliver_repair contents r (rr_target r) = _) as Ed by (unfold deliver_repair; by rewrite decide_True).
    destruct (deliver_repair_plain r (contents (rr_target r)) Hr Hw Hm Hpl) as [H1 H2]. rewrite <- Ed in H1, H2. rewrite Hb in H2.
    split; [set_solver|]. intros _. destruct (IH (deliver_repair contents r) H1) as [I1 I2].
    { rewrite H2. by apply (sl_idem (D := pview_in W pk) (Semilattice := pview_semilattice W HW pk)). }
    destruct (decide (rr_target r ∈ rr_target <$> pending)); [by apply I2|]. by rewrite I1.
  - assert (deliver_repair contents r e = contents e) as Ed by (unfold deliver_repair; by rewrite decide_False).
    destruct (IH (deliver_repair contents r)) as [I1 I2]; rewrite ?Ed; [done..|]. rewrite Ed in I1. set_solver.
Qed.

Lemma stage_repairs_pending read replicas repairs :
  rh_pending (stage_repairs Blocking read replicas repairs)
  = omap (fun rm => (fun target => mkReadRepairMutation target (cr_keyspace read) (cr_table read) (rm_partition_key rm) (rm_merged_data rm))
                    <$> replicas !! rm_replica_index rm) repairs.
Proof.
  unfold stage_repairs.
  assert (H : forall l h, rh_strategy h = Blocking -> rh_pending (foldl (fun h repair =>
      match replicas !! rm_replica_index repair with
      | Some target => ReadRepairHandler_stage_repair h target (cr_keyspace read) (cr_table read) (rm_partition_key repair) (rm_merged_data repair)
      | None => h
      end) h l) = rh_pending h ++ omap (fun rm => (fun target => mkReadRepairMutation target (cr_keyspace read) (cr_table read)
        (rm_partition_key rm) (rm_merged_data rm)) <$> replicas !! rm_replica_index rm) l).
  { induction l as [|rm l IH]; intros h Hs; [by rewrite app_nil_r|]. cbn [foldl omap list_omap].
    destruct (replicas !! rm_replica_index rm) as [t|]; cbn [fmap option_fmap option_map]; [|by apply IH].
    unfold ReadRepairHandler_stage_repair. rewrite bool_decide_eq_false_2 by (by rewrite Hs). rewrite IH by done.
    cbn [rh_pending]. by rewrite <- app_assoc. }
  by rewrite H.
Qed.

(** What the contacted replicas answer, when nothing they hold is deleted. *)
Definition versions_of (contents : Endpoint -> PartitionData) (contacted : list Endpoint) : list (option PartitionData) :=
  (fun e => if says_nothing (contents e) then None else Some (contents e)) <$> contacted.

Lemma says_nothing_view p : tombstone_local_deletion_time p = None -> says_nothing p = true -> pview p = (∅, None).
Proof.
  intros Hl Hs. apply andb_true_iff in Hs as [He Ht]. apply bool_decide_eq_true in He, Ht. unfold pview, pd_tomb. rewrite Ht. f_equal.
  rewrite <- (insert_all_entries (pd_rows p)), He. apply fmap_empty.
Qed.
Lemma versions_sup contents contacted :
  Forall (fun e => plain_data (contents e)) contacted -> pview_sup (omap id (versions_of contents contacted)) = pview_sup (contents <$> contacted).
Proof.
  unfold pview_sup. generalize ((∅, None) : PView). unfold versions_of. induction contacted as [|e l IH]; intros v Hl; [done|].
  apply Forall_cons in Hl as [[_ [_ He]] Hl]. rewrite !fmap_cons. destruct (says_nothing (contents e)) eqn:E; cbn; [|by apply IH].
  rewrite says_nothing_view, pview_join_empty by done. by apply IH.
Qed.

Lemma from_partition_answer p now :
  p_wf p -> plain_data p ->
  exists n, dr_partitions (DataResponse_from_partition pk p now) = [mkPartitionResult pk (if says_nothing p then None else Some p) n false].
Proof.
  intros Hw Hp. unfold DataResponse_from_partition.
  destruct (from_partition_data_spec pk p now (TombstoneTracker_new TombstoneThresholds_default) Hw) as [t ->].
  rewrite plain_kept_part by done. by eexists.
Qed.
Lemma responses_versions contents contacted now :
  Forall (fun e => p_wf (contents e) /\ plain_data (contents e)) contacted ->
  let responses := (fun e => DataResponse_from_partition pk (contents e) now) <$> contacted in
  Forall (answers_for pk) responses /\ Forall (fun r => dr_partitions r <> []) responses
  /\ (fun r => head (dr_partitions r) ≫= pr_data) <$> responses = versions_of contents contacted.
Proof.
  intros Hl. unfold versions_of. induction Hl as [|e l [Hw Hp] _ IH]; [done|]. destruct IH as (H1 & H2 & H3).
  destruct (from_partition_answer (contents e) now Hw Hp) as [n En]. cbv zeta. rewrite !fmap_cons, En. split_and!.
  - constructor; [|done]. right. by eexists.
  - constructor; [by rewrite En|done].
  - by rewrite <- H3.
Qed.
Lemma versions_all (P : PartitionData -> Prop) contents contacted :
  Forall (fun e => P (contents e)) contacted -> Forall P (omap id (versions_of contents contacted)).
Proof.
  unfold versions_of. induction 1 as [|e l He _ IH]; [constructor|]. rewrite fmap_cons. by destruct (says_nothing (contents e)); [|constructor].
Qed.
Lemma version_lookup contents contacted i e :
  contacted !! i = Some e -> versions_of contents contacted !! i = Some (if says_nothing (contents e) then None else Some (contents e)).
Proof. intros Hi. unfold versions_of. by rewrite list_lookup_fmap, Hi. Qed.
(** The data of the theorem below, and its merge. *)
Definition repairable (contents : Endpoint -> PartitionData) (contacted : list Endpoint) : Prop :=
  Forall (fun e => p_wf (contents e) /\ plain_data (contents e) /\ pview_in W pk (pview (contents e))) contacted.

Lemma repairable_all contents contacted :
  repairable contents contacted ->
  Forall p_wf (omap id (versions_of contents contacted)) /\ Forall (fun e => plain_data (contents e)) contacted
  /\ Forall (fun p => pview_in W pk (pview p)) (contents <$> contacted).
Proof.
  intros H. split_and!; [apply versions_all| |apply Forall_fmap]; (eapply Forall_impl; [exact H|]); simpl; tauto.
Qed.
Lemma repairable_merged contents contacted :
  repairable contents contacted ->
  let merged := merge_partition_data (versions_of contents contacted) in
  p_wf merged /\ plain_data merged /\ pview merged = pview_sup (contents <$> contacted) /\ pview_in W pk (pview merged).
Proof.
  intros (H1 & H2 & H3)%repairable_all merged. destruct (merge_partition_data_view _ H1) as [Hw Hv]. fold merged in Hw, Hv.
  rewrite versions_sup in Hv by done. split_and!; [done|by apply plain_merge, versions_all|done|]. rewrite Hv. by apply sup_in.
Qed.

Lemma repairs_staged hash thresholds contents contacted now :
  (2 <= length contacted)%nat -> repairable contents contacted ->
  rd_repair_mutations (DataResolver_resolve hash thresholds ((fun e => DataResponse_from_partition pk (contents e) now) <$> contacted) now)
  = stale_repairs hash pk (versions_of contents contacted).
Proof.
  intros Hlen Hd. destruct (responses_versions contents contacted now) as (Ha & Hne & Hv).
  { eapply Forall_impl; [exact Hd|]; simpl; tauto. }
  destruct (resolve_one hash thresholds ((fun e => DataResponse_from_partition pk (contents e) now) <$> contacted) pk now) as [tracker ->];
    [by rewrite length_fmap|done| |rewrite Hv; by apply repairable_all|cbn [rd_repair_mutations]; by rewrite Hv].
  intros Hall. destruct contacted as [|e l]; [simpl in Hlen; lia|]. rewrite fmap_cons in Hall, Hne.
  apply Forall_cons in Hall as [H1 _], Hne as [H2 _]. done.
Qed.
End Convergence.

(** C11.  Read repair makes the contacted replicas agree.  Let at least two contacted
    replicas hold well-formed data
    without deletions, expiry, empty rows or empty values, taken from one history of
    writes ([hist_ok]: two cells of a column with one timestamp are the same cell),
    and let the digests tell their contents and the merge apart.  Then the repairs
    that the coordinator stages from the full responses, sent as bytes and applied by
    the replicas that receive them, leave every contacted replica with the join of
    what all of them held, whether it was repaired or found up to date.  Names, key
    and data fit the wire format, and a JSON decoder rejects a text that begins with
    a zero byte, as the payload of a repair does. *)
Theorem read_repair_converges (from_json : list Z -> option Mutation) (hash : list HashItem -> Digest) (W : History)
    (thresholds : TombstoneThresholds) (read : CoordinatedRead) (contents : Endpoint -> PartitionData)
    (contacted : list Endpoint) (now : Z)
    (Hjson : forall l, from_json (0 :: l) = None) (HW : hist_ok W) (Hlen : (2 <= length contacted)%nat)
    (Hdata : repairable W (cr_partition_key read) contents contacted)
    (Htell : let versions := versions_of contents contacted in digests_tell hash (Some (merge_partition_data versions) :: versions))
    (Hfits : name_fits (cr_keyspace read) /\ name_fits (cr_table read) /\ in_u 32 (Z.of_nat (length (cr_partition_key read)))
             /\ data_fits (merge_partition_data (versions_of contents contacted))) :
  exists h, stage_read_repair_from_responses hash Blocking thresholds read contacted
      ((fun e => DataResponse_from_partition (cr_partition_key read) (contents e) now) <$> contacted) now = Some h
    /\ forall e, e ∈ contacted ->
       pview (foldl (deliver_repair from_json) contents (rh_pending h) e) = pview_sup (contents <$> contacted).
Proof.
  destruct Hfits as (Hk & Ht & Hpk & Hfit). destruct (repairable_merged W HW _ _ _ Hdata) as (Hmw & Hmp & Hmv & Hmi).
  unfold stage_read_repair_from_responses. rewrite length_fmap, Nat.eqb_refl, (repairs_staged W) by done. cbn [negb].
  eexists; split; [done|]. intros e He. rewrite stage_repairs_pending.
  set (pending := omap _ _). rewrite <- Hmv.
  assert (Forall (fun r => repair_fits r /\ rr_data r = merge_partition_data (versions_of contents contacted)) pending) as Hpend.
  { apply Forall_forall. intros r Hr. apply list_elem_of_omap in Hr as (rm & (i & v & _ & -> & _)%stale_repairs_elem & Hr).
    cbn [rm_replica_index rm_partition_key rm_merged_data] in Hr. destruct (contacted !! i); [|done]. by simplify_eq/=. }
  destruct (proj1 (Forall_forall _ _) Hdata e He) as (Hew & Hep & Hei).
  destruct (deliver_repair_all from_json Hjson W HW (cr_partition_key read) (merge_partition_data (versions_of contents contacted)) pending contents e)
    as [Hout Hins]; [done..| |].
  { rewrite Hmv. apply (sup_absorbs W HW (cr_partition_key read)); [by apply repairable_all|by apply list_elem_of_fmap_2]. }
  destruct (decide (e ∈ rr_target <$> pending)) as [Hp|Hp]; [by apply Hins|]. rewrite Hout by done. f_equal.
  apply list_elem_of_lookup in He as [i Hi]. pose proof (version_lookup contents _ _ _ Hi) as Hvi.
  destruct (decide (version_digest hash (if says_nothing (contents e) then None else Some (contents e))
    = Digest_from_partition hash (merge_partition_data (versions_of contents contacted)))) as [Ed|Ed].
  - apply (Htell _ (Some _)) in Ed; [|right; by eapply list_elem_of_lookup_2|left].
    destruct (says_nothing (contents e)); [done|]. apply (inj Some) in Ed. by apply plain_items_inj.
  - exfalso. apply Hp, list_elem_of_fmap. eexists (mkReadRepairMutation e _ _ _ _). split; [done|].
    apply list_elem_of_omap. eexists. split; [apply stale_repairs_elem; exists i; eauto|]. simpl. by rewrite Hi.
Qed.

(** ** Samples *)
Module RepairSample.
(** A hash that adds the timestamps and times to live. *)
Definition toy_hash (l : list HashItem) : Digest := foldl (fun n i => match i with HashInt v => n + v | _ => n end) 0 l.
Definition no_json (payload : list Z) : option Mutation := None.
Definition cell (value : list Z) (ts : Z) : Cell := mkCell "a" (Some value) ts 0 None false.
Definition holding (c : Cell) : PartitionData := PartitionData_apply_row PartitionData_new (mkRow [1] [c] false None).
Definition written : History := mkHistory (fun _ _ c => c = cell [7] 1 \/ c = cell [8] 2) (fun _ _ => False).
Definition read : CoordinatedRead := mkCoordinatedRead "ks" "t" [9] None None.
Definition contacted : list Endpoint := example_endpoint <$> [1; 2; 3].
(** An old and a new version, and nothing. *)
Definition contents (e : Endpoint) : PartitionData :=
  if decide (e = example_endpoint 1) then holding (cell [7] 1)
  else if decide (e = example_endpoint 2) then holding (cell [8] 2) else PartitionData_new.

Lemma written_ok : hist_ok written.
Proof. split; [|done]. intros pk ck c d [-> | ->] [-> | ->]; done. Qed.

Lemma holding_ok c : plain_cell c -> (c = cell [7] 1 \/ c = cell [8] 2) ->
  p_wf (holding c) /\ plain_data (holding c) /\ pview_in written [9] (pview (holding c)).
Proof.
  intros Hp Hc. destruct (apply_row_view PartitionData_new (mkRow [1] [c] false None)) as [Hw Hv];
    [apply partition_new_wf|apply NoDup_singleton|]. split_and!; [done| |].
  - apply plain_apply_row; [split; [|done]; intros ck r; simpl; by rewrite lookup_empty|]. split_and!; try done. by apply Forall_singleton.
  - split; [|done]. intros ck v. unfold holding, pview. cbn [fst PartitionData_apply_row pd_rows]. rewrite lookup_fmap, lookup_upsert.
    cbn [Row_clustering_key PartitionData_new pd_rows]. rewrite !lookup_empty. case_decide; [|done]. intros [= <-]. split; [done|]. intros col d. cbn [row_view snd Row_cells].
    rewrite lookup_cells_view by apply NoDup_singleton. simpl. destruct (String.eqb_spec (Cell_column c) col); [|done]. by intros [= <-].
Qed.
Lemma nothing_ok : p_wf PartitionData_new /\ plain_data PartitionData_new /\ pview_in written [9] (pview PartitionData_new).
Proof.
  split_and!; [apply partition_new_wf|split; [|done]; intros ck r; simpl; by rewrite lookup_empty|].
  split; [|done]. intros ck v. unfold pview. cbn [fst PartitionData_new pd_rows]. by rewrite lookup_fmap, lookup_empty.
Qed.
Lemma contents_repairable : repairable written [9] contents contacted.
Proof.
  assert (forall v ts, v <> [] -> plain_cell (cell v ts)) as Hp by (intros [|b v] ts Hv; [done|]; split_and!; eauto).
  repeat apply List.Forall_cons; [..|apply List.Forall_nil].
  - apply holding_ok; [by apply Hp|by left].
  - apply holding_ok; [by apply Hp|by right].
  - apply nothing_ok.
Qed.

Lemma merged_fits : data_fits (merge_partition_data (versions_of contents contacted)).
Proof.
  set (merged := merge_partition_data _).
  assert (entries (pd_rows merged) = [([1], mkRow [1] [cell [8] 2] false None)]) as E by (vm_compute; reflexivity).
  assert (tombstone_timestamp merged = None /\ tombstone_local_deletion_time merged = None) as [E1 E2] by (vm_compute; done).
  assert (cell_fits (cell [8] 2)) as Hc.
  { split_and!; [reflexivity|unfold in_u; simpl; lia|intros v [= <-]; unfold in_u; simpl; lia|unfold in_s; simpl; lia..|discriminate]. }
  split_and!; [|rewrite E; unfold in_u; simpl; lia|rewrite E1; discriminate|rewrite E2; discriminate].
  intros ck r Hr%ordmap_elem. rewrite E in Hr. apply list_elem_of_singleton in Hr as [= -> ->].
  split_and!; [reflexivity|unfold in_u; simpl; lia..|by apply Forall_singleton|discriminate].
Qed.

(** The data, the digests and the sizes are as the theorem asks. *)
Lemma read_repair_converges_witness :
  exists h, stage_read_repair_from_responses toy_hash Blocking TombstoneThresholds_default read contacted
      ((fun e => DataResponse_from_partition (cr_partition_key read) (contents e) 100) <$> contacted) 100 = Some h
    /\ forall e, e ∈ contacted ->
       pview (foldl (deliver_repair no_json) contents (rh_pending h) e) = pview_sup (contents <$> contacted).
Proof.
  refine (read_repair_converges no_json toy_hash written TombstoneThresholds_default read contents contacted 100
    (fun _ => eq_refl) written_ok _ contents_repairable _ _).
  - simpl. lia.
  - apply digests_tellb_ok. vm_compute. reflexivity.
  - split_and!; [split; [reflexivity|simpl; lia]..|unfold in_u; simpl; lia|apply merged_fits].
Defined.


(** The rows of the second of two replicas, of which only the first has the cell,
    after the repairs of a read. *)
Definition rows_after_repair (c : Cell) : list Row :=
  let contents e := if decide (e = example_endpoint 1) then holding c else PartitionData_new in
  let replicas := example_endpoint <$> [1; 2] in
  match stage_read_repair_from_responses toy_hash Blocking TombstoneThresholds_default read replicas
      ((fun e => DataResponse_from_partition (cr_partition_key read) (contents e) 100) <$> replicas) 100 with
  | Some h => values (pd_rows (foldl (deliver_repair no_json) contents (rh_pending h) (example_endpoint 2)))
  | None => []
  end.

(** An empty value arrives as a deletion. *)
Example read_repair_deletes_empty_value :
  rows_after_repair (cell [] 1) = [mkRow [1] [mkCell "a" None 1 0 None true] false None].
Proof. vm_compute. reflexivity. Qed.

(** A value that expires arrives as one that does not. *)
Example read_repair_drops_ttl :
  rows_after_repair (mkCell "a" (Some [7]) 1 10 (Some 105) false) = [mkRow [1] [cell [7] 1] false None].
Proof. vm_compute. reflexivity. Qed.

End RepairSample.

(** ** Accounts of a dispatch *)

(** Every repair is counted once, and those that fail are kept, in order. *)
Lemma execute_repairs_accounts answered id h result h' :
  ReadRepairHandler_execute_repairs answered (Some id) h = Some (result, h') ->
  (re_acknowledged result + re_failed result = length (rh_pending h))%nat /\ re_attempted result = length (rh_pending h)
  /\ re_failed_targets result = rr_target <$> rh_pending h' /\ rh_pending h' `sublist_of` rh_pending h
  /\ re_failed result = length (rh_pending h').
Proof.
  unfold ReadRepairHandler_execute_repairs. destruct (Nat.eqb_spec (length (rh_pending h)) 0) as [E|_].
  - intros [= <- <-]. apply length_zero_iff_nil in E. rewrite E. by split_and!.
  - destruct (bool_decide _); [done|].
    assert (forall l id r k, let '(_, r', k') := foldl (execute_repair answered) (id, r, k) l in exists m,
      m `sublist_of` l /\ k' = k ++ m /\ re_attempted r' = re_attempted r /\ re_failed r' = (re_failed r + length m)%nat
      /\ re_failed_targets r' = re_failed_targets r ++ (rr_target <$> m)
      /\ (re_acknowledged r' + length m = re_acknowledged r + length l)%nat) as H.
    { induction l as [|x l IH]; intros i r k; [exists []; rewrite !app_nil_r; split_and!; [constructor|done|done|simpl; lia..|done|simpl; lia]|].
      cbn [foldl]. unfold execute_repair at 2. destruct (answered i _ _).
      - specialize (IH (S i) (mkReadRepairExecutionResult (re_attempted r) (S (re_acknowledged r)) (re_failed r) (re_failed_targets r)) k).
        destruct (foldl _ _ l) as [[i' r'] k']. destruct IH as (m & H1 & H2 & H3 & H4 & H5 & H6). exists m. simpl in *.
        split_and!; [by constructor|done..|lia].
      - specialize (IH (S i) (mkReadRepairExecutionResult (re_attempted r) (re_acknowledged r) (S (re_failed r)) (re_failed_targets r ++ [rr_target x])) (k ++ [x])).
        destruct (foldl _ _ l) as [[i' r'] k']. destruct IH as (m & H1 & H2 & H3 & H4 & H5 & H6). exists (x :: m). simpl in *.
        split_and!; [by constructor|by rewrite H2, <- app_assoc|done|lia|by rewrite H5, <- app_assoc|lia]. }
    specialize (H (rh_pending h) id (mkReadRepairExecutionResult (length (rh_pending h)) 0 0 []) []).
    destruct (foldl _ _ _) as [[i r] k]. destruct H as (m & H1 & H2 & H3 & H4 & H5 & H6). simpl in *. intros [= <- <-]. simpl. subst k.
    split_and!; [lia|done|done|done|done].
Qed.
