(* ===== verification/Gossip.v ===== *)
(** * Gossip: endpoint states and their reconciliation

    crates/cassandra-cluster-metadata/src/gossip/mod.rs and the message types of
    messages.rs: what a node knows of every endpoint, the three messages of an
    exchange (SYN, ACK, ACK2) and the operations of [Gossiper].  A [String] is
    the list of its [char]s.  The failure detector computes with [f64]; it is an
    interface here.  [update_timestamp], which no code reads, is left out, and the
    clock that an operation reads is an argument.

    The lemmas compare what is known before and after: [known_le] orders endpoint
    states by generation, then by heartbeat and by the version of every value, and
    no message makes a node go back in it. *)
From S2P Require Export OrdMap Node.

Definition Text : Type := list Z.
Definition text (s : string) : Text := string_bytes s.

Inductive ApplicationState :=
| Status | Datacenter | Rack | Load | Tokens | SchemaVersion | HostId | RpcAddress | ReleaseVersion
| RemovalCoordinator | InternalIp | X11Padding | Severity | RpcReady | InternalAddressAndPort
| StatusWithPort | NativeAddressAndPort | NetVersion | IndexStatus | SstableVersions | DiskUsage
| PaddingX1 | PaddingX2 | PaddingX3 | PaddingX4 | PaddingX5 | PaddingX6 | PaddingX7 | PaddingX8
| PaddingX9 | PaddingX10 | TcmEpoch.
#[export] Instance ApplicationState_eq_dec : EqDecision ApplicationState.
Proof. solve_decision. Defined.

(** The derived [Ord]: declaration order. *)
Definition ApplicationState_index (s : ApplicationState) : Z :=
  match s with
  | Status => 0 | Datacenter => 1 | Rack => 2 | Load => 3 | Tokens => 4 | SchemaVersion => 5 | HostId => 6
  | RpcAddress => 7 | ReleaseVersion => 8 | RemovalCoordinator => 9 | InternalIp => 10 | X11Padding => 11
  | Severity => 12 | RpcReady => 13 | InternalAddressAndPort => 14 | StatusWithPort => 15
  | NativeAddressAndPort => 16 | NetVersion => 17 | IndexStatus => 18 | SstableVersions => 19
  | DiskUsage => 20 | PaddingX1 => 21 | PaddingX2 => 22 | PaddingX3 => 23 | PaddingX4 => 24
  | PaddingX5 => 25 | PaddingX6 => 26 | PaddingX7 => 27 | PaddingX8 => 28 | PaddingX9 => 29
  | PaddingX10 => 30 | TcmEpoch => 31
  end.
#[export] Instance ApplicationState_index_inj : Inj (=) (=) ApplicationState_index.
Proof. by intros [] []. Qed.
#[export] Instance ApplicationState_ord : RustOrd ApplicationState := ord_via ApplicationState_index.
#[export] Instance ApplicationState_ord_laws : OrdLaws ApplicationState.
Proof. apply ord_via_laws, _. Qed.

Record VersionedValue := mkVersionedValue { vv_version : Z; vv_value : Text }.
#[export] Instance VersionedValue_eq_dec : EqDecision VersionedValue.
Proof. solve_decision. Defined.

Record HeartbeatState := mkHeartbeatState { generation : Z; hb_version : Z }.
#[export] Instance HeartbeatState_eq_dec : EqDecision HeartbeatState.
Proof. solve_decision. Defined.

Definition HeartbeatState_new (generation : Z) : HeartbeatState := mkHeartbeatState generation 0.
Definition HeartbeatState_increment (h : HeartbeatState) : HeartbeatState :=
  mkHeartbeatState (generation h) (wrap_s 64 (hb_version h + 1)).

Abbreviation AppStates := (ordmap ApplicationState VersionedValue).
Record EndpointState := mkEndpointState { heartbeat : HeartbeatState; application_states : AppStates }.

Definition EndpointState_new (generation : Z) : EndpointState := mkEndpointState (HeartbeatState_new generation) ∅.
Definition EndpointState_set_state (s : EndpointState) (key : ApplicationState) (value : VersionedValue) :
    EndpointState :=
  mkEndpointState (heartbeat s) (<[key := value]> (application_states s)).
Definition EndpointState_get_state (s : EndpointState) (key : ApplicationState) : option VersionedValue :=
  application_states s !! key.
Definition EndpointState_max_version (s : EndpointState) : Z :=
  let app_max := default 0 (max_by Z.compare (vv_version <$> values (application_states s))) in
  Z.max (hb_version (heartbeat s)) app_max.

Record GossipDigest := mkGossipDigest { digest_endpoint : Endpoint; digest_generation : Z; digest_max_version : Z }.
Record GossipDigestSyn := mkGossipDigestSyn { cluster_id : Text; digests : list GossipDigest }.
Record GossipDigestAck := mkGossipDigestAck {
  stale_digests : list GossipDigest;
  updated_states : gmap Endpoint EndpointState;
}.
Record GossipDigestAck2 := mkGossipDigestAck2 { updated_states2 : gmap Endpoint EndpointState }.

(** What [Gossiper] calls of [FailureDetector] (failure_detector.rs). *)
Class FailureDetector (D : Type) := {
  fd_new : D;
  fd_report : Z -> D -> Endpoint -> D;
  fd_is_alive : Z -> D -> Endpoint -> bool;
}.

(** Instants are milliseconds. *)
Definition QUARANTINE_DELAY : Z := 60 * 1000.

Record Gossiper (D : Type) := mkGossiper {
  local_endpoint : Endpoint;
  endpoint_states : gmap Endpoint EndpointState;
  seeds : list Endpoint;
  failure_detector : D;
  live_endpoints : list Endpoint;
  dead_endpoints : list Endpoint;
  version_counter : Z;
  quarantined : gmap Endpoint Z;
  is_running : bool;
  cluster_name : Text;
}.
Arguments mkGossiper {D}.
Arguments local_endpoint {D}.
Arguments endpoint_states {D}.
Arguments seeds {D}.
Arguments failure_detector {D}.
Arguments live_endpoints {D}.
Arguments dead_endpoints {D}.
Arguments version_counter {D}.
Arguments quarantined {D}.
Arguments is_running {D}.
Arguments cluster_name {D}.

Section Gossiper.
Context {D : Type} `{FailureDetector D}.
Implicit Types g : Gossiper D.

Definition set_endpoint_states g s : Gossiper D :=
  mkGossiper (local_endpoint g) s (seeds g) (failure_detector g) (live_endpoints g) (dead_endpoints g)
    (version_counter g) (quarantined g) (is_running g) (cluster_name g).
Definition set_failure_detector g d : Gossiper D :=
  mkGossiper (local_endpoint g) (endpoint_states g) (seeds g) d (live_endpoints g) (dead_endpoints g)
    (version_counter g) (quarantined g) (is_running g) (cluster_name g).
Definition set_liveness g live dead : Gossiper D :=
  mkGossiper (local_endpoint g) (endpoint_states g) (seeds g) (failure_detector g) live dead
    (version_counter g) (quarantined g) (is_running g) (cluster_name g).
Definition set_version_counter g v : Gossiper D :=
  mkGossiper (local_endpoint g) (endpoint_states g) (seeds g) (failure_detector g) (live_endpoints g)
    (dead_endpoints g) v (quarantined g) (is_running g) (cluster_name g).
Definition set_quarantined g q : Gossiper D :=
  mkGossiper (local_endpoint g) (endpoint_states g) (seeds g) (failure_detector g) (live_endpoints g)
    (dead_endpoints g) (version_counter g) q (is_running g) (cluster_name g).
Definition set_running g r : Gossiper D :=
  mkGossiper (local_endpoint g) (endpoint_states g) (seeds g) (failure_detector g) (live_endpoints g)
    (dead_endpoints g) (version_counter g) (quarantined g) r (cluster_name g).

Definition Gossiper_with_cluster_name (local : Endpoint) (seeds : list Endpoint) (generation : Z) (name : Text) :
    Gossiper D :=
  mkGossiper local {[local := EndpointState_new generation]} seeds fd_new [] [] 0 ∅ true name.
Definition Gossiper_new (local : Endpoint) (seeds : list Endpoint) (generation : Z) : Gossiper D :=
  Gossiper_with_cluster_name local seeds generation (text "cassandra-rust").

(** One step, from taking the version to storing the value under the lock: two
    threads that publish one key at once are not modelled. *)
Definition Gossiper_set_local_state g (key : ApplicationState) (value : Text) : Gossiper D :=
  let version := wrap_s 64 (version_counter g + 1) in
  let g := set_version_counter g version in
  match endpoint_states g !! local_endpoint g with
  | Some local =>
      let local := EndpointState_set_state local key (mkVersionedValue version value) in
      set_endpoint_states g (<[local_endpoint g :=
        mkEndpointState (HeartbeatState_increment (heartbeat local)) (application_states local)]> (endpoint_states g))
  | None => g
  end.

Definition Gossiper_increment_heartbeat g : Gossiper D :=
  match endpoint_states g !! local_endpoint g with
  | Some local =>
      set_endpoint_states g (<[local_endpoint g :=
        mkEndpointState (HeartbeatState_increment (heartbeat local)) (application_states local)]> (endpoint_states g))
  | None => g
  end.

Definition Gossiper_update_remote_state g (ep : Endpoint) (key : ApplicationState) (value : VersionedValue) :
    Gossiper D :=
  let state := default (EndpointState_new 1) (endpoint_states g !! ep) in
  let g := set_endpoint_states g (<[ep := EndpointState_set_state state key value]> (endpoint_states g)) in
  if bool_decide (ep ∈ live_endpoints g) then g else set_liveness g (live_endpoints g ++ [ep]) (dead_endpoints g).

Definition Gossiper_is_quarantined (now : Z) g (ep : Endpoint) : bool :=
  match quarantined g !! ep with Some expiry => now <? expiry | None => false end.

(** The order in which a [HashMap] is iterated is not specified; the operations
    below go through [map_to_list], and what is proved of them does not depend on
    its order. *)
Definition Gossiper_make_gossip_digest_syn g : GossipDigestSyn :=
  mkGossipDigestSyn (cluster_name g)
    ((fun '(ep, state) => mkGossipDigest ep (generation (heartbeat state)) (EndpointState_max_version state))
       <$> map_to_list (endpoint_states g)).

Definition Gossiper_extract_delta (state : EndpointState) (since : Z) : EndpointState :=
  mkEndpointState (heartbeat state)
    (foldl (fun delta '(key, val) => if since <? vv_version val then <[key := val]> delta else delta)
       ∅ (entries (application_states state))).

(** One turn of the loop over the digests of a SYN. *)
Definition Gossiper_handle_digest (now : Z) g (acc : GossipDigestAck) (digest : GossipDigest) : GossipDigestAck :=
  let ep := digest_endpoint digest in
  if Gossiper_is_quarantined now g ep then acc
  else match endpoint_states g !! ep with
  | Some local_state =>
      let local_max := EndpointState_max_version local_state in
      if digest_max_version digest <? local_max then
        mkGossipDigestAck (stale_digests acc)
          (<[ep := Gossiper_extract_delta local_state (digest_max_version digest)]> (updated_states acc))
      else if local_max <? digest_max_version digest then
        mkGossipDigestAck (stale_digests acc ++ [mkGossipDigest ep (digest_generation digest) local_max])
          (updated_states acc)
      else acc
  | None =>
      mkGossipDigestAck (stale_digests acc ++ [mkGossipDigest ep (digest_generation digest) 0]) (updated_states acc)
  end.

Definition Gossiper_handle_syn (now : Z) g (syn : GossipDigestSyn) : GossipDigestAck :=
  let acc := foldl (Gossiper_handle_digest now g) (mkGossipDigestAck [] ∅) (digests syn) in
  mkGossipDigestAck (stale_digests acc)
    (foldl (fun updated '(ep, state) =>
       if negb (existsb (fun d => bool_decide (digest_endpoint d = ep)) (digests syn))
          && negb (Gossiper_is_quarantined now g ep)
       then <[ep := Gossiper_extract_delta state 0]> updated else updated)
     (updated_states acc) (map_to_list (endpoint_states g))).

(** The values of a state of the same generation, key by key, and the heartbeat. *)
Definition Gossiper_merge_state (local remote_state : EndpointState) : EndpointState :=
  let local := foldl (fun local '(key, remote_val) =>
      match application_states local !! key with
      | Some local_val =>
          if vv_version remote_val <=? vv_version local_val then local
          else EndpointState_set_state local key remote_val
      | None => EndpointState_set_state local key remote_val
      end) local (entries (application_states remote_state)) in
  if hb_version (heartbeat local) <? hb_version (heartbeat remote_state) then
    mkEndpointState (mkHeartbeatState (generation (heartbeat local)) (hb_version (heartbeat remote_state)))
      (application_states local)
  else local.

(** What is known of an endpoint once a remote state of it is received. *)
Definition Gossiper_receive_state (known : option EndpointState) (remote_state : EndpointState) : EndpointState :=
  match known with
  | Some local =>
      if generation (heartbeat local) <? generation (heartbeat remote_state) then remote_state
      else if generation (heartbeat remote_state) =? generation (heartbeat local)
      then Gossiper_merge_state local remote_state
      else local
  | None => remote_state
  end.

(** One turn of the loop of [apply_remote_states]. *)
Definition Gossiper_apply_remote_state (now : Z) g (ep : Endpoint) (remote_state : EndpointState) : Gossiper D :=
  if bool_decide (ep = local_endpoint g) then g
  else if Gossiper_is_quarantined now g ep then g
  else
    let new_state := Gossiper_receive_state (endpoint_states g !! ep) remote_state in
    let g := set_endpoint_states g (<[ep := new_state]> (endpoint_states g)) in
    set_failure_detector g (fd_report now (failure_detector g) ep).
Definition Gossiper_apply_remote_states (now : Z) g (remote_states : gmap Endpoint EndpointState) : Gossiper D :=
  foldl (fun g '(ep, remote_state) => Gossiper_apply_remote_state now g ep remote_state)
    g (map_to_list remote_states).

Definition Gossiper_handle_ack (now : Z) g (ack : GossipDigestAck) : Gossiper D * GossipDigestAck2 :=
  let g := Gossiper_apply_remote_states now g (updated_states ack) in
  (g, mkGossipDigestAck2
    (foldl (fun updated digest =>
       match endpoint_states g !! digest_endpoint digest with
       | Some local_state =>
           <[digest_endpoint digest := Gossiper_extract_delta local_state (digest_max_version digest)]> updated
       | None => updated
       end) ∅ (stale_digests ack))).
Definition Gossiper_handle_ack2 (now : Z) g (ack2 : GossipDigestAck2) : Gossiper D :=
  Gossiper_apply_remote_states now g (updated_states2 ack2).

(** [candidates.choose]: the index that the random generator draws is an argument. *)
Definition Gossiper_gossip_candidates g : list Endpoint :=
  foldl (fun candidates seed =>
      if bool_decide (seed <> local_endpoint g) && negb (bool_decide (seed ∈ candidates))
      then candidates ++ [seed] else candidates) (live_endpoints g) (seeds g).
Definition Gossiper_pick_gossip_target (choice : nat) g : option Endpoint :=
  match Gossiper_gossip_candidates g with
  | [] => List.find (fun s => bool_decide (s <> local_endpoint g)) (seeds g)
  | c :: cs => (c :: cs) !! (choice mod length (c :: cs))%nat
  end.

Definition Gossiper_assess_endpoint_health (now : Z) g : Gossiper D :=
  let '(live, dead) := foldl (fun '(live, dead) '(ep, _) =>
      if bool_decide (ep = local_endpoint g) then (live, dead)
      else if Gossiper_is_quarantined now g ep then (live, dead)
      else if fd_is_alive now (failure_detector g) ep then (live ++ [ep], dead) else (live, dead ++ [ep]))
    ([], []) (map_to_list (endpoint_states g)) in
  set_liveness g live dead.

Definition Gossiper_shutdown g : Gossiper D :=
  set_running (Gossiper_set_local_state g Status (text "LEFT")) false.

Definition Gossiper_quarantine (now : Z) g (ep : Endpoint) : Gossiper D :=
  set_quarantined g (<[ep := now + QUARANTINE_DELAY]> (quarantined g)).
Definition Gossiper_cleanup_quarantine (now : Z) g : Gossiper D :=
  set_quarantined g (filter (fun p : Endpoint * Z => now < p.2) (quarantined g)).
Definition Gossiper_convict g (ep : Endpoint) : Gossiper D :=
  set_liveness g (filter (fun e => e <> ep) (live_endpoints g))
    (if bool_decide (ep ∈ dead_endpoints g) then dead_endpoints g else dead_endpoints g ++ [ep]).
Definition Gossiper_reintegrate g (ep : Endpoint) : Gossiper D :=
  set_quarantined
    (set_liveness g
      (if bool_decide (ep ∈ live_endpoints g) then live_endpoints g else live_endpoints g ++ [ep])
      (filter (fun e => e <> ep) (dead_endpoints g)))
    (delete ep (quarantined g)).

(** The schema version that [states] holds for an endpoint. *)
Definition schema_version_of g (ep : Endpoint) : option Text :=
  state ← endpoint_states g !! ep; vv_value <$> EndpointState_get_state state SchemaVersion.
Definition Gossiper_assess_schema_agreement g : bool :=
  let schema_versions : gset Text :=
    foldl (fun set ep => match schema_version_of g ep with Some sv => {[sv]} ∪ set | None => set end)
      ∅ (local_endpoint g :: live_endpoints g) in
  (size schema_versions <=? 1)%nat.
Definition Gossiper_schema_version_map g : gmap Text (list Endpoint) :=
  foldl (fun map '(ep, state) =>
      match EndpointState_get_state state SchemaVersion with
      | Some sv => <[vv_value sv := default [] (map !! vv_value sv) ++ [ep]]> map
      | None => map
      end) ∅ (map_to_list (endpoint_states g)).

Definition Gossiper_do_shadow_round g : list Endpoint :=
  let discovered := foldl (fun discovered digest =>
      if bool_decide (digest_endpoint digest <> local_endpoint g)
      then discovered ++ [digest_endpoint digest] else discovered)
    [] (digests (Gossiper_make_gossip_digest_syn g)) in
  foldl (fun discovered seed =>
      if bool_decide (seed <> local_endpoint g) && negb (bool_decide (seed ∈ discovered))
      then discovered ++ [seed] else discovered) discovered (seeds g).

Definition Gossiper_handle_generation_change (now : Z) g (ep : Endpoint) (new_generation : Z)
    (initial_states : AppStates) : Gossiper D :=
  if bool_decide (ep = local_endpoint g) then g
  else
    let new_state := foldl (fun s '(key, val) => EndpointState_set_state s key val)
      (EndpointState_new new_generation) (entries initial_states) in
    let g := set_endpoint_states g (<[ep := new_state]> (endpoint_states g)) in
    let g := set_quarantined g (delete ep (quarantined g)) in
    let g := set_failure_detector g (fd_report now (failure_detector g) ep) in
    Gossiper_reintegrate g ep.

Definition Gossiper_gossip_to_unreachable_member (choice : nat) g : option Endpoint :=
  match dead_endpoints g with
  | [] => None
  | c :: cs => (c :: cs) !! (choice mod length (c :: cs))%nat
  end.

End Gossiper.

(** * What an operation does to a state *)

Section States.
Implicit Types s r : EndpointState.

Lemma max_version_ge s key v :
  application_states s !! key = Some v -> vv_version v <= EndpointState_max_version s.
Proof.
  intros Hk. unfold EndpointState_max_version.
  assert (vv_version v ∈ vv_version <$> values (application_states s)) as Hin.
  { apply list_elem_of_fmap. exists v. split; [done|]. apply elem_of_values. by exists key. }
  destruct (max_by Z.compare _) as [m|] eqn:Hm.
  - apply (max_by_Some (fun x : Z => x)) in Hm as [_ Hm]. specialize (Hm _ Hin). apply (proj1 (le_of_Z _ _)) in Hm. change (default 0 (Some m)) with m. lia.
  - apply (max_by_None (fun x : Z => x)) in Hm. rewrite Hm in Hin. by apply not_elem_of_nil in Hin.
Qed.

Lemma max_version_hb s : hb_version (heartbeat s) <= EndpointState_max_version s.
Proof. unfold EndpointState_max_version. lia. Qed.

Lemma max_version_bound s b :
  0 <= b -> hb_version (heartbeat s) <= b ->
  (forall key v, application_states s !! key = Some v -> vv_version v <= b) -> EndpointState_max_version s <= b.
Proof.
  intros Hb Hh Hv. unfold EndpointState_max_version. destruct (max_by Z.compare _) as [m|] eqn:Hm; simpl; [|lia].
  apply (max_by_Some (fun x : Z => x)) in Hm as [Hin _].
  apply list_elem_of_fmap in Hin as (v & -> & Hv'). apply elem_of_values in Hv' as [key Hkey].
  specialize (Hv _ _ Hkey). lia.
Qed.

Lemma lookup_delta s since key :
  application_states (Gossiper_extract_delta s since) !! key
  = v ← application_states s !! key; if since <? vv_version v then Some v else None.
Proof.
  simpl. rewrite (ordmap_loop (fun _ => True) (fun (m : AppStates) k => m !! k) _
    (fun _ o v => if since <? vv_version v then Some v else o)); [by rewrite lookup_empty; case_match|done| |done].
  intros d [k' v'] k _. simpl. case_decide; case_match; simplify_map_eq; done.
Qed.

(** The value that stays when two states of a generation are merged. *)
Definition newer_value (o p : option VersionedValue) : option VersionedValue :=
  match o, p with
  | Some v, Some w => if vv_version w <=? vv_version v then Some v else Some w
  | Some v, None => Some v
  | None, p => p
  end.

Lemma merge_state_spec s r :
  heartbeat (Gossiper_merge_state s r)
    = mkHeartbeatState (generation (heartbeat s)) (Z.max (hb_version (heartbeat s)) (hb_version (heartbeat r)))
  /\ forall key, application_states (Gossiper_merge_state s r) !! key
       = newer_value (application_states s !! key) (application_states r !! key).
Proof.
  unfold Gossiper_merge_state. set (step := fun (local : EndpointState) '(key, remote_val) => _).
  set (l := foldl step s _).
  assert (forall d p k, heartbeat d = heartbeat s ->
    application_states (step d p) !! k
    = if decide (p.1 = k) then newer_value (application_states d !! k) (Some p.2) else application_states d !! k) as Hl.
  { intros d [k' v'] k _. simpl. unfold newer_value. case_decide as Hk; [rewrite <- Hk|];
      destruct (application_states d !! k') eqn:E; rewrite ?E; try case_match; simplify_map_eq; done. }
  assert (forall d p, heartbeat d = heartbeat s -> heartbeat (step d p) = heartbeat s) as Hh.
  { intros d [k v]. simpl. by repeat case_match. }
  assert (heartbeat l = heartbeat s) as El by by apply (keyed_loop_keeps step (fun d => heartbeat d = heartbeat s)).
  assert (forall key, application_states l !! key
    = newer_value (application_states s !! key) (application_states r !! key)) as Ha.
  { intros key. etransitivity; [eapply (ordmap_loop (fun d => heartbeat d = heartbeat s)
      (fun d k => application_states d !! k) step (fun _ o v => newer_value o (Some v))); done|].
    destruct (application_states r !! key); [done|]. by destruct (_ !! key). }
  destruct (Z.ltb_spec (hb_version (heartbeat l)) (hb_version (heartbeat r))); simpl; (split; [|done]); rewrite ?El in *.
  - f_equal. lia.
  - rewrite Z.max_l by lia. by destruct (heartbeat s).
Qed.
End States.

(** * The order on what is known *)

(** A later generation, or the same one with a heartbeat and values that are at
    least as recent. *)
Definition known_le (s s' : EndpointState) : Prop :=
  generation (heartbeat s) < generation (heartbeat s')
  \/ generation (heartbeat s) = generation (heartbeat s')
     /\ hb_version (heartbeat s) <= hb_version (heartbeat s')
     /\ forall key v, application_states s !! key = Some v ->
          exists v', application_states s' !! key = Some v' /\ (v = v' \/ vv_version v < vv_version v').

#[export] Instance known_le_preorder : PreOrder known_le.
Proof.
  split.
  - intros s. right. split_and!; [done|lia|]. intros key v Hv. exists v. auto.
  - intros s1 s2 s3 [H1|(E1 & H1 & K1)] [H2|(E2 & H2 & K2)]; [left; lia..|]. right. split_and!; [lia|lia|].
    intros key v Hv. destruct (K1 key v Hv) as (v2 & Hv2 & Hle). destruct (K2 key v2 Hv2) as (v3 & Hv3 & Hle').
    exists v3. split; [done|]. destruct Hle as [->|]; [done|]. destruct Hle' as [<-|]; [auto|]. right. lia.
Qed.

Definition known_opt_le (o p : option EndpointState) : Prop :=
  forall s, o = Some s -> exists s', p = Some s' /\ known_le s s'.

#[export] Instance known_opt_le_preorder : PreOrder known_opt_le.
Proof.
  split.
  - intros o s ->. by exists s.
  - intros o p q H1 H2 s Hs. destruct (H1 s Hs) as (s' & Hs' & Hle). destruct (H2 s' Hs') as (s'' & -> & Hle').
    exists s''. split; [done|]. by etransitivity.
Qed.

Lemma delta_le s since : known_le (Gossiper_extract_delta s since) s.
Proof.
  right. split_and!; [done|simpl; lia|]. intros key v. rewrite lookup_delta.
  destruct (application_states s !! key) as [w|] eqn:E; simpl; [|done]. case_match; [|done]. intros [= ->]. eauto.
Qed.

Lemma newer_value_cases o p v :
  newer_value o p = Some v -> o = Some v \/ p = Some v.
Proof. destruct o, p; simpl; try case_match; naive_solver. Qed.

Lemma receive_above known r : known_opt_le known (Some (Gossiper_receive_state known r)).
Proof.
  intros s ->. eexists. split; [done|]. simpl. destruct (Z.ltb_spec (generation (heartbeat s)) (generation (heartbeat r))).
  { by left. }
  destruct (Z.eqb_spec (generation (heartbeat r)) (generation (heartbeat s))) as [E|]; [|done].
  destruct (merge_state_spec s r) as [Hh Ha]. right. rewrite Hh. simpl. split_and!; [done|lia|].
  intros key v Hv. rewrite Ha, Hv. simpl. destruct (application_states r !! key) as [w|]; [|eauto].
  destruct (Z.leb_spec (vv_version w) (vv_version v)); [eauto|]. exists w. split; [done|]. by right.
Qed.

(** An upper bound of what is known and of what is received stays one. *)
Lemma receive_bound known r s :
  (forall l, known = Some l -> known_le l s) -> known_le r s -> known_le (Gossiper_receive_state known r) s.
Proof.
  intros Hk Hr. destruct known as [l|]; [|done]. specialize (Hk l eq_refl). simpl.
  case_match; [done|]. destruct (Z.eqb_spec (generation (heartbeat r)) (generation (heartbeat l))) as [E|]; [|done].
  destruct (merge_state_spec l r) as [Hh Ha].
  destruct Hk as [Hk|(El & Hle & Kl)]; [left; rewrite Hh; simpl; lia|].
  destruct Hr as [Hr|(Er & Hre & Kr)]; [lia|]. right. rewrite Hh. simpl. split_and!; [done|lia|].
  intros key v Hv. rewrite Ha in Hv. apply newer_value_cases in Hv as [Hv|Hv]; eauto.
Qed.

(** What is known afterwards was known or was received, and of that generation. *)
Lemma receive_values known r key v :
  let s := Gossiper_receive_state known r in
  application_states s !! key = Some v ->
  (exists l, known = Some l /\ generation (heartbeat l) = generation (heartbeat s) /\ application_states l !! key = Some v)
  \/ generation (heartbeat r) = generation (heartbeat s) /\ application_states r !! key = Some v.
Proof.
  destruct known as [l|]; simpl; [|auto]. case_match; [auto|].
  destruct (Z.eqb_spec (generation (heartbeat r)) (generation (heartbeat l))) as [E|]; [|eauto].
  destruct (merge_state_spec l r) as [Hh Ha]. rewrite Hh, Ha. simpl. intros [Hv|Hv]%newer_value_cases; eauto.
Qed.

(** * What an operation does to a node *)

Section Nodes.
Context {D : Type} `{FailureDetector D}.
Implicit Types g : Gossiper D.

(** The fields that reconciliation does not touch. *)
Definition same_node g g' : Prop :=
  local_endpoint g' = local_endpoint g /\ quarantined g' = quarantined g
  /\ version_counter g' = version_counter g /\ cluster_name g' = cluster_name g.

Lemma apply_remote_state_same now g ep r : same_node g (Gossiper_apply_remote_state now g ep r).
Proof. unfold Gossiper_apply_remote_state. by repeat case_match. Qed.

Lemma apply_remote_states_same now g R : same_node g (Gossiper_apply_remote_states now g R).
Proof.
  apply (keyed_loop_keeps _ (same_node g)); [|done]. intros g' [ep r] (E1 & E2 & E3 & E4).
  destruct (apply_remote_state_same now g' ep r) as (F1 & F2 & F3 & F4). split_and!; congruence.
Qed.

(** The endpoints whose remote states a node leaves out: itself and quarantined ones. *)
Definition ignores (now : Z) g (ep : Endpoint) : bool :=
  bool_decide (ep = local_endpoint g) || Gossiper_is_quarantined now g ep.

Lemma lookup_apply_remote_states now g R ep :
  endpoint_states (Gossiper_apply_remote_states now g R) !! ep
  = match R !! ep with
    | Some r =>
        if ignores now g ep then endpoint_states g !! ep
        else Some (Gossiper_receive_state (endpoint_states g !! ep) r)
    | None => endpoint_states g !! ep
    end.
Proof.
  apply (gmap_loop (same_node g) (fun g k => endpoint_states g !! k) _
    (fun k o r => if ignores now g k then o else Some (Gossiper_receive_state o r))).
  - intros g' [ep' r] (E1 & E2 & E3 & E4).
    destruct (apply_remote_state_same now g' ep' r) as (F1 & F2 & F3 & F4). split_and!; congruence.
  - intros g' [ep' r] k (E1 & E2 & E3 & E4). simpl. unfold Gossiper_apply_remote_state, ignores, Gossiper_is_quarantined.
    rewrite E1, E2. case_decide as Ek; [subst k|].
    + destruct (bool_decide (ep' = _)); [done|]. simpl. case_match; simpl; [case_match|]; by simplify_map_eq.
    + destruct (bool_decide (ep' = _)); [done|]. repeat case_match; by simplify_map_eq.
  - done.
Qed.

Lemma apply_remote_states_above now g R ep :
  known_opt_le (endpoint_states g !! ep) (endpoint_states (Gossiper_apply_remote_states now g R) !! ep).
Proof. rewrite lookup_apply_remote_states. repeat case_match; first [done|apply receive_above]. Qed.

(** ** The answer to a SYN *)

(** What an ACK carries of an endpoint, given the digest the SYN has of it. *)
Definition reply_state (now : Z) g (ep : Endpoint) (digest : option GossipDigest) : option EndpointState :=
  if Gossiper_is_quarantined now g ep then None
  else s ← endpoint_states g !! ep;
       match digest with
       | Some d =>
           if digest_max_version d <? EndpointState_max_version s
           then Some (Gossiper_extract_delta s (digest_max_version d)) else None
       | None => Some (Gossiper_extract_delta s 0)
       end.

(** What the ACK asks for of it. *)
Definition reply_digest (now : Z) g (d : GossipDigest) : option GossipDigest :=
  let ep := digest_endpoint d in
  if Gossiper_is_quarantined now g ep then None
  else match endpoint_states g !! ep with
  | Some s =>
      if EndpointState_max_version s <? digest_max_version d
      then Some (mkGossipDigest ep (digest_generation d) (EndpointState_max_version s)) else None
  | None => Some (mkGossipDigest ep (digest_generation d) 0)
  end.

Lemma handle_digest_spec now g acc d :
  stale_digests (Gossiper_handle_digest now g acc d) = stale_digests acc ++ option_list (reply_digest now g d)
  /\ updated_states (Gossiper_handle_digest now g acc d)
     = match reply_state now g (digest_endpoint d) (Some d) with
       | Some r => <[digest_endpoint d := r]> (updated_states acc)
       | None => updated_states acc
       end.
Proof.
  unfold Gossiper_handle_digest, reply_state, reply_digest. case_match; simpl; [by rewrite app_nil_r|].
  case_match; simpl; [|done]. repeat (case_match; simpl); rewrite ?app_nil_r; try done. bool_to_prop; lia.
Qed.

Lemma handle_syn_stale now g syn :
  stale_digests (Gossiper_handle_syn now g syn) = omap (reply_digest now g) (digests syn).
Proof.
  unfold Gossiper_handle_syn. simpl.
  enough (forall acc l, stale_digests (foldl (Gossiper_handle_digest now g) acc l)
    = stale_digests acc ++ omap (reply_digest now g) l) as E by apply E.
  intros acc l. revert acc. induction l as [|d l IH]; intros acc; simpl; [by rewrite app_nil_r|].
  rewrite IH, (proj1 (handle_digest_spec now g acc d)), <- app_assoc. by destruct (reply_digest now g d).
Qed.

Definition digest_of (syn : GossipDigestSyn) (ep : Endpoint) : option GossipDigest :=
  List.find (fun d => bool_decide (digest_endpoint d = ep)) (digests syn).

Lemma handle_digests_updated now g l acc ep :
  NoDup (digest_endpoint <$> l) ->
  updated_states (foldl (Gossiper_handle_digest now g) acc l) !! ep
  = match List.find (fun d => bool_decide (digest_endpoint d = ep)) l with
    | Some d => match reply_state now g ep (Some d) with Some r => Some r | None => updated_states acc !! ep end
    | None => updated_states acc !! ep
    end.
Proof.
  revert acc. induction l as [|d l IH]; intros acc Hnd; [done|]. simpl in *. apply NoDup_cons in Hnd as [Hd Hnd].
  rewrite IH by done. rewrite (proj2 (handle_digest_spec now g acc d)).
  case_bool_decide as E.
  - subst ep. destruct (List.find _ l) as [d'|] eqn:F.
    + apply List.find_some in F as [F1%list_elem_of_In F2%bool_decide_eq_true]. destruct Hd. apply list_elem_of_fmap. eauto.
    + case_match; by simplify_map_eq.
  - destruct (List.find _ l); repeat case_match; by simplify_map_eq.
Qed.

Lemma existsb_find (l : list GossipDigest) ep :
  existsb (fun d => bool_decide (digest_endpoint d = ep)) l
  = bool_decide (is_Some (List.find (fun d => bool_decide (digest_endpoint d = ep)) l)).
Proof. induction l as [|d l IH]; simpl; [done|]. destruct (bool_decide (digest_endpoint d = ep)); [done|apply IH]. Qed.

Lemma handle_syn_updated now g syn ep :
  NoDup (digest_endpoint <$> digests syn) ->
  updated_states (Gossiper_handle_syn now g syn) !! ep = reply_state now g ep (digest_of syn ep).
Proof.
  intros Hnd. unfold Gossiper_handle_syn. simpl.
  rewrite (gmap_loop (fun _ => True) (fun (m : gmap Endpoint EndpointState) k => m !! k) _
    (fun k o s => if negb (existsb (fun d => bool_decide (digest_endpoint d = k)) (digests syn))
                     && negb (Gossiper_is_quarantined now g k)
                  then Some (Gossiper_extract_delta s 0) else o)); [|done| |done].
  - rewrite existsb_find, handle_digests_updated by done. fold (digest_of syn ep). unfold reply_state.
    simpl. rewrite lookup_empty. destruct (digest_of syn ep) as [d|]; simpl.
    + by destruct (Gossiper_is_quarantined now g ep), (endpoint_states g !! ep); simpl; try case_match.
    + by destruct (endpoint_states g !! ep), (Gossiper_is_quarantined now g ep).
  - intros m [ep' s] k _. simpl. case_decide; subst; case_match; by simplify_map_eq.
Qed.

(** Whatever the digests, an ACK carries deltas of what the node knows. *)
Lemma handle_syn_deltas now g syn ep r :
  updated_states (Gossiper_handle_syn now g syn) !! ep = Some r ->
  exists s since, endpoint_states g !! ep = Some s /\ r = Gossiper_extract_delta s since.
Proof.
  set (P := fun m : gmap Endpoint EndpointState => forall ep r, m !! ep = Some r ->
    exists s since, endpoint_states g !! ep = Some s /\ r = Gossiper_extract_delta s since).
  enough (P (updated_states (Gossiper_handle_syn now g syn))) by auto.
  assert (forall l acc, P (updated_states acc) -> P (updated_states (foldl (Gossiper_handle_digest now g) acc l))) as Hd.
  { induction l as [|d l IH]; intros acc Hacc; [done|]. simpl. apply IH. rewrite (proj2 (handle_digest_spec now g acc d)).
    destruct (reply_state _ _ _ _) as [r'|] eqn:E; [|done]. unfold reply_state in E.
    case_match; [done|]. intros ep' r''. rewrite lookup_insert_Some. intros [[<- ->]|[_ ?]]; [|by apply Hacc].
    destruct (endpoint_states g !! digest_endpoint d) as [s|]; simpl in E; [|done]. case_match; simplify_eq. eauto. }
  unfold Gossiper_handle_syn. simpl.
  assert (Forall (fun '(ep, s) => endpoint_states g !! ep = Some s) (map_to_list (endpoint_states g))) as Hl.
  { apply Forall_forall. intros [ep' s]. apply elem_of_map_to_list. }
  specialize (Hd (digests syn) (mkGossipDigestAck [] ∅) ltac:(by intros ??; simplify_map_eq)).
  revert Hd. generalize (updated_states (foldl (Gossiper_handle_digest now g) (mkGossipDigestAck [] ∅) (digests syn))).
  induction Hl as [|[ep' s] l Hs _ IH]; intros m Hm; [done|]. simpl. apply IH. case_match; [|done].
  intros ep'' r'. rewrite lookup_insert_Some. intros [[<- <-]|[_ ?]]; [eauto|by apply Hm].
Qed.

(** And so does an ACK2. *)
Lemma handle_ack_deltas now g ack ep r :
  let '(g', ack2) := Gossiper_handle_ack now g ack in
  updated_states2 ack2 !! ep = Some r ->
  exists s since, endpoint_states g' !! ep = Some s /\ r = Gossiper_extract_delta s since.
Proof.
  simpl. set (g' := Gossiper_apply_remote_states now g (updated_states ack)).
  enough (forall l (m : gmap Endpoint EndpointState),
    (forall ep r, m !! ep = Some r -> exists s since, endpoint_states g' !! ep = Some s /\ r = Gossiper_extract_delta s since) ->
    foldl (fun updated digest => match endpoint_states g' !! digest_endpoint digest with
       | Some local_state =>
           <[digest_endpoint digest := Gossiper_extract_delta local_state (digest_max_version digest)]> updated
       | None => updated end) m l !! ep = Some r ->
    exists s since, endpoint_states g' !! ep = Some s /\ r = Gossiper_extract_delta s since) as E.
  { apply E. intros ??. by rewrite lookup_empty. }
  induction l as [|d l IH]; intros m Hm; [apply Hm|]. simpl. apply IH. case_match eqn:E; [|done].
  intros ep' r'. rewrite lookup_insert_Some. intros [[<- <-]|[_ ?]]; eauto.
Qed.

Lemma handle_ack_updated now g ack ep :
  NoDup (digest_endpoint <$> stale_digests ack) ->
  let '(g', ack2) := Gossiper_handle_ack now g ack in
  updated_states2 ack2 !! ep
  = d ← List.find (fun d => bool_decide (digest_endpoint d = ep)) (stale_digests ack);
    s ← endpoint_states g' !! ep; Some (Gossiper_extract_delta s (digest_max_version d)).
Proof.
  intros Hnd. simpl. set (g' := Gossiper_apply_remote_states now g (updated_states ack)).
  set (step := fun (updated : gmap Endpoint EndpointState) digest => _).
  assert (forall l m, NoDup (digest_endpoint <$> l) -> foldl step m l !! ep =
    match d ← List.find (fun d => bool_decide (digest_endpoint d = ep)) l;
          s ← endpoint_states g' !! ep; Some (Gossiper_extract_delta s (digest_max_version d)) with
    | Some r => Some r | None => m !! ep end) as E.
  { clear Hnd. induction l as [|d l IH]; intros m Hnd; [done|]. simpl in *. apply NoDup_cons in Hnd as [Hd Hnd].
    rewrite IH by done. unfold step at 1. case_bool_decide as E; simpl.
    - subst ep. destruct (List.find _ l) as [d'|] eqn:F.
      + apply List.find_some in F as [F1%list_elem_of_In F2%bool_decide_eq_true]. destruct Hd. apply list_elem_of_fmap. eauto.
      + simpl. destruct (endpoint_states g' !! digest_endpoint d); simpl; by simplify_map_eq.
    - destruct (endpoint_states g' !! digest_endpoint d); simpl; by simplify_map_eq. }
  rewrite E by done. rewrite lookup_empty. by case_match.
Qed.

(** ** Exchanges *)

Lemma syn_digests_NoDup g : NoDup (digest_endpoint <$> digests (Gossiper_make_gossip_digest_syn g)).
Proof.
  simpl. rewrite <- list_fmap_compose.
  replace (_ <$> _) with (map_to_list (endpoint_states g)).*1; [apply NoDup_fst_map_to_list|].
  apply list_fmap_ext. by intros _ [ep s] _.
Qed.

Lemma syn_digest_of g ep :
  digest_of (Gossiper_make_gossip_digest_syn g) ep
  = s ← endpoint_states g !! ep; Some (mkGossipDigest ep (generation (heartbeat s)) (EndpointState_max_version s)).
Proof.
  pose proof (syn_digests_NoDup g) as Hnd. unfold digest_of. destruct (List.find _ _) as [d|] eqn:F.
  - apply List.find_some in F as [F1%list_elem_of_In F2%bool_decide_eq_true].
    apply list_elem_of_fmap in F1 as ([ep' s] & -> & Hs%elem_of_map_to_list). simpl in F2. subst ep'. by rewrite Hs.
  - destruct (endpoint_states g !! ep) as [s|] eqn:Hs; [|done]. exfalso.
    eapply List.find_none in F; [|apply list_elem_of_In, list_elem_of_fmap; exists (ep, s); split; [done|by apply elem_of_map_to_list]].
    simpl in F. by rewrite bool_decide_true in F.
Qed.

End Nodes.
