(* ===== verification/GossipExchange.v ===== *)
(** * Gossip: one exchange between two nodes

    A round of gossip/task.rs between a node and its target with the handlers of
    handlers.rs in between: SYN, ACK, ACK2.  What both nodes know afterwards is
    computed endpoint by endpoint.  The exchange brings both to the newer state of
    every endpoint when the older one is a prefix of it, and it never delivers a
    value whose version is not above what the peer has seen of the endpoint, which
    is what becomes of a value set after enough heartbeats. *)
From S2P Require Export Gossip.

Section Exchange.
Context {D : Type} `{FailureDetector D}.
Implicit Types a b g : Gossiper D.

Definition gossip_exchange (now : Z) a b : Gossiper D * Gossiper D :=
  let ack := Gossiper_handle_syn now b (Gossiper_make_gossip_digest_syn a) in
  let '(a, ack2) := Gossiper_handle_ack now a ack in
  (a, Gossiper_handle_ack2 now b ack2).

(** What a node knows of an endpoint once it has been sent a state of it. *)
Definition told (now : Z) g (ep : Endpoint) (r : EndpointState) : option EndpointState :=
  if ignores now g ep then endpoint_states g !! ep
  else Some (Gossiper_receive_state (endpoint_states g !! ep) r).

Definition exchange_of (now : Z) a b (ep : Endpoint) : option EndpointState * option EndpointState :=
  let oa := endpoint_states a !! ep in
  let ob := endpoint_states b !! ep in
  if Gossiper_is_quarantined now b ep then (oa, ob)
  else match oa, ob with
  | Some sa, Some sb =>
      if EndpointState_max_version sa <? EndpointState_max_version sb
      then (told now a ep (Gossiper_extract_delta sb (EndpointState_max_version sa)), ob)
      else if EndpointState_max_version sb <? EndpointState_max_version sa
      then (oa, told now b ep (Gossiper_extract_delta sa (EndpointState_max_version sb)))
      else (oa, ob)
  | Some sa, None => (oa, told now b ep (Gossiper_extract_delta sa 0))
  | None, Some sb => (told now a ep (Gossiper_extract_delta sb 0), ob)
  | None, None => (None, None)
  end.

Lemma omap_find_digest now b (l : list GossipDigest) ep :
  NoDup (digest_endpoint <$> l) ->
  List.find (fun d => bool_decide (digest_endpoint d = ep)) (omap (reply_digest now b) l)
  = d ← List.find (fun d => bool_decide (digest_endpoint d = ep)) l; reply_digest now b d.
Proof.
  assert (forall d d', reply_digest now b d = Some d' -> digest_endpoint d' = digest_endpoint d) as Hep.
  { intros d d'. unfold reply_digest. repeat case_match; by intros [= <-]. }
  induction l as [|d l IH]; intros Hnd; [done|]. simpl in *. apply NoDup_cons in Hnd as [Hd Hnd].
  specialize (IH Hnd). destruct (reply_digest now b d) as [d'|] eqn:E; simpl; rewrite ?(Hep _ _ E);
    case_bool_decide as Hk; simpl; try done.
  etransitivity; [exact IH|]. rewrite E. destruct (List.find _ l) as [d2|] eqn:F; simpl; [|done].
  apply List.find_some in F as [F1%list_elem_of_In F2%bool_decide_eq_true].
  destruct Hd. apply list_elem_of_fmap. exists d2. split; [congruence|done].
Qed.

Lemma omap_digests_NoDup now b (l : list GossipDigest) :
  NoDup (digest_endpoint <$> l) -> NoDup (digest_endpoint <$> omap (reply_digest now b) l).
Proof.
  assert (forall d d', reply_digest now b d = Some d' -> digest_endpoint d' = digest_endpoint d) as Hep.
  { intros d d'. unfold reply_digest. repeat case_match; by intros [= <-]. }
  induction l as [|d l IH]; intros Hnd; [done|]. simpl in *. apply NoDup_cons in Hnd as [Hd Hnd].
  destruct (reply_digest now b d) as [d'|] eqn:E; simpl; [|auto]. apply NoDup_cons. split; [|auto].
  rewrite (Hep _ _ E). intros (d1 & E1 & (d2 & Hin & E2)%list_elem_of_omap)%list_elem_of_fmap.
  apply Hd, list_elem_of_fmap. exists d2. by rewrite E1, (Hep _ _ E2).
Qed.

Lemma exchange_lookup now a b ep :
  let '(a', b') := gossip_exchange now a b in
  (endpoint_states a' !! ep, endpoint_states b' !! ep) = exchange_of now a b ep.
Proof.
  unfold gossip_exchange. set (ack := Gossiper_handle_syn now b _).
  assert (NoDup (digest_endpoint <$> stale_digests ack)) as Hnd.
  { unfold ack. rewrite handle_syn_stale. apply omap_digests_NoDup, syn_digests_NoDup. }
  pose proof (handle_ack_updated now a ack ep Hnd) as H2.
  assert (updated_states ack !! ep = reply_state now b ep (digest_of (Gossiper_make_gossip_digest_syn a) ep)) as H1.
  { apply handle_syn_updated, syn_digests_NoDup. }
  unfold ack in H2 at 2. rewrite handle_syn_stale, omap_find_digest in H2 by apply syn_digests_NoDup.
  fold (digest_of (Gossiper_make_gossip_digest_syn a) ep) in H2. rewrite syn_digest_of in H1, H2.
  destruct (Gossiper_handle_ack now a ack) as [a' ack2] eqn:Eack. cbv beta iota in H2.
  assert (a' = Gossiper_apply_remote_states now a (updated_states ack)) as Ea by (unfold Gossiper_handle_ack in Eack; congruence).
  unfold Gossiper_handle_ack2. rewrite lookup_apply_remote_states, H2. rewrite Ea, lookup_apply_remote_states, H1.
  clear. unfold exchange_of, told, reply_state, reply_digest.
  destruct (endpoint_states a !! ep) as [sa|] eqn:Oa, (endpoint_states b !! ep) as [sb|] eqn:Ob; simpl; rewrite ?Ob;
    destruct (Gossiper_is_quarantined now b ep); simpl; try done.
  destruct (Z.ltb_spec (EndpointState_max_version sa) (EndpointState_max_version sb)),
    (Z.ltb_spec (EndpointState_max_version sb) (EndpointState_max_version sa)); simpl; done || lia.
Qed.
Lemma exchange_locals now a b :
  let '(a', b') := gossip_exchange now a b in
  local_endpoint a' = local_endpoint a /\ local_endpoint b' = local_endpoint b.
Proof. split; apply apply_remote_states_same. Qed.

(** ** Reconciliation *)

(** What is known of an endpoint is behind [s]: nothing, or a state of the same
    generation that has every value of [s] up to the version it has seen. *)
Definition behind (known : option EndpointState) (s : EndpointState) : Prop :=
  match known with
  | None => forall key v, application_states s !! key = Some v -> 0 < vv_version v
  | Some old =>
      generation (heartbeat old) = generation (heartbeat s)
      /\ hb_version (heartbeat old) <= hb_version (heartbeat s)
      /\ EndpointState_max_version old < EndpointState_max_version s
      /\ (forall key v, application_states s !! key = Some v -> vv_version v <= EndpointState_max_version old ->
            application_states old !! key = Some v)
      /\ (forall key, is_Some (application_states old !! key) -> is_Some (application_states s !! key))
  end.

Definition seen (known : option EndpointState) : Z :=
  match known with Some old => EndpointState_max_version old | None => 0 end.

Lemma delta_all s since :
  (forall key v, application_states s !! key = Some v -> since < vv_version v) -> Gossiper_extract_delta s since = s.
Proof.
  intros Hv. destruct s as [h m]. unfold Gossiper_extract_delta. simpl. f_equal. apply map_eq. intros key.
  pose proof (lookup_delta (mkEndpointState h m) since key) as E. simpl in E. rewrite E.
  destruct (m !! key) as [v|] eqn:Ev; [|done]. simpl. by rewrite (proj2 (Z.ltb_lt _ _)) by (eapply Hv; exact Ev).
Qed.

Lemma behind_receive known s :
  behind known s -> Gossiper_receive_state known (Gossiper_extract_delta s (seen known)) = s.
Proof.
  destruct known as [old|]; simpl; [|apply delta_all].
  intros (Eg & Eh & Hm & Hv & Hd). rewrite Eg, Z.ltb_irrefl, Z.eqb_refl.
  destruct (merge_state_spec old (Gossiper_extract_delta s (EndpointState_max_version old))) as [Hh Ha].
  destruct (Gossiper_merge_state _ _) as [h m], s as [hs ms]; simpl in *. f_equal.
  - rewrite Hh, Eg, Z.max_r by lia. by destruct hs.
  - apply map_eq. intros key. rewrite Ha.
    pose proof (lookup_delta (mkEndpointState hs ms) (EndpointState_max_version old) key) as E. simpl in E. rewrite E.
    destruct (ms !! key) as [v|] eqn:Ev; simpl.
    + destruct (Z.ltb_spec (EndpointState_max_version old) (vv_version v)); [|by rewrite (Hv _ _ Ev)].
      destruct (application_states old !! key) as [w|] eqn:Ew; [|done]. simpl.
      pose proof (max_version_ge _ _ _ Ew). by rewrite (proj2 (Z.leb_gt _ _)) by lia.
    + destruct (application_states old !! key) as [w|] eqn:Ew; [|done].
      destruct (Hd key) as [? ?]; [by rewrite Ew|]. congruence.
Qed.

Lemma behind_le known s : behind known s -> known_opt_le known (Some s).
Proof.
  intros Hb. pose proof (receive_above known (Gossiper_extract_delta s (seen known))) as Ha.
  by rewrite (behind_receive known s Hb) in Ha.
Qed.

Lemma told_behind now g ep s :
  ignores now g ep = false -> behind (endpoint_states g !! ep) s ->
  told now g ep (Gossiper_extract_delta s (seen (endpoint_states g !! ep))) = Some s.
Proof. intros Hi Hb. unfold told. by rewrite Hi, behind_receive. Qed.

Lemma exchange_behind now a b ep s :
  Gossiper_is_quarantined now a ep = false -> Gossiper_is_quarantined now b ep = false ->
  (endpoint_states a !! ep = Some s /\ behind (endpoint_states b !! ep) s /\ ep <> local_endpoint b)
  \/ (endpoint_states b !! ep = Some s /\ behind (endpoint_states a !! ep) s /\ ep <> local_endpoint a) ->
  exchange_of now a b ep = (Some s, Some s).
Proof.
  intros Qa Qb Hcase. unfold exchange_of. rewrite Qb.
  assert (forall g, Gossiper_is_quarantined now g ep = false -> behind (endpoint_states g !! ep) s -> ep <> local_endpoint g ->
    told now g ep (Gossiper_extract_delta s (seen (endpoint_states g !! ep))) = Some s) as T.
  { intros g Q Hb Hl. apply told_behind; [|done]. unfold ignores. by rewrite bool_decide_false, Q. }
  destruct Hcase as [(Hs & Hb & Hl)|(Hs & Hb & Hl)]; rewrite Hs.
  - specialize (T b Qb Hb Hl). destruct (endpoint_states b !! ep) as [sb|]; simpl in T; [|by rewrite T].
    destruct Hb as (_ & _ & Hm & _). rewrite (proj2 (Z.ltb_ge _ _)) by lia.
    rewrite (proj2 (Z.ltb_lt _ _)) by lia. by rewrite T.
  - specialize (T a Qa Hb Hl). destruct (endpoint_states a !! ep) as [sa|]; simpl in T; [|by rewrite T].
    destruct Hb as (_ & _ & Hm & _). rewrite (proj2 (Z.ltb_lt _ _)) by lia. by rewrite T.
Qed.

(** C25.  An exchange reconciles: when the two nodes agree on an endpoint, or one of
    them is behind the other on it and neither quarantines it, then after SYN,
    ACK and ACK2 both hold the same state of the endpoint, and it is the newer one.
    A node is behind ([behind]) when the endpoint is not the node itself and either it
    knows nothing of the endpoint, whose values then have positive versions, or it
    has a state of the same generation, with no newer heartbeat, a lower greatest
    version, every value up to that version, and no key the newer state lacks. *)
Theorem exchange_reconciles now a b ep :
  Gossiper_is_quarantined now a ep = false -> Gossiper_is_quarantined now b ep = false ->
  endpoint_states a !! ep = endpoint_states b !! ep
  \/ (exists s, endpoint_states a !! ep = Some s /\ behind (endpoint_states b !! ep) s /\ ep <> local_endpoint b)
  \/ (exists s, endpoint_states b !! ep = Some s /\ behind (endpoint_states a !! ep) s /\ ep <> local_endpoint a) ->
  let '(a', b') := gossip_exchange now a b in
  endpoint_states a' !! ep = endpoint_states b' !! ep
  /\ (endpoint_states a' !! ep = endpoint_states a !! ep \/ endpoint_states a' !! ep = endpoint_states b !! ep)
  /\ known_opt_le (endpoint_states a !! ep) (endpoint_states a' !! ep)
  /\ known_opt_le (endpoint_states b !! ep) (endpoint_states b' !! ep).
Proof.
  intros Qa Qb Hcase. pose proof (exchange_lookup now a b ep) as E.
  destruct (gossip_exchange now a b) as [a' b']. destruct Hcase as [Heq|Hcase].
  - unfold exchange_of in E. rewrite Qb, Heq in E. rewrite Heq.
    destruct (endpoint_states b !! ep) as [s|]; rewrite ?Z.ltb_irrefl in E; injection E as -> ->; split_and!; auto; reflexivity.
  - assert (exists s, exchange_of now a b ep = (Some s, Some s)
      /\ (endpoint_states a !! ep = Some s /\ known_opt_le (endpoint_states b !! ep) (Some s)
          \/ endpoint_states b !! ep = Some s /\ known_opt_le (endpoint_states a !! ep) (Some s))) as (s & Es & Hs).
    { destruct Hcase as [(s & Hs)|(s & Hs)]; exists s; (split; [apply exchange_behind; auto|]);
        destruct Hs as (Hs & Hb%behind_le & _); auto. }
    rewrite Es in E. injection E as -> ->. destruct Hs as [[-> Hs]|[-> Hs]]; split_and!; auto; reflexivity.
Qed.

(** ** Values that are never sent *)

(** What can happen between a node and its peer: the node's heartbeats and
    publications, and exchanges started by either. *)
Inductive peer_op :=
| PeerHeartbeat
| PeerSet (key : ApplicationState) (value : Text)
| PeerExchange (now : Z)
| PeerExchangeBack (now : Z).

Definition peer_step (p : Gossiper D * Gossiper D) (op : peer_op) : Gossiper D * Gossiper D :=
  let '(a, b) := p in
  match op with
  | PeerHeartbeat => (Gossiper_increment_heartbeat a, b)
  | PeerSet key value => (Gossiper_set_local_state a key value, b)
  | PeerExchange now => gossip_exchange now a b
  | PeerExchangeBack now => let '(b, a) := gossip_exchange now b a in (a, b)
  end.

(** The peer has seen a version of the node that is not below the value's. *)
Definition passed_over (ep : Endpoint) (key : ApplicationState) (v : VersionedValue) (w : option VersionedValue)
    (p : Gossiper D * Gossiper D) : Prop :=
  let '(a, b) := p in
  local_endpoint a = ep
  /\ exists sa sb, endpoint_states a !! ep = Some sa /\ endpoint_states b !! ep = Some sb
     /\ generation (heartbeat sa) = generation (heartbeat sb) /\ 0 <= hb_version (heartbeat sb)
     /\ application_states sa !! key = Some v /\ application_states sb !! key = w
     /\ vv_version v <= EndpointState_max_version sb.

Lemma known_le_max s s' :
  known_le s s' -> generation (heartbeat s) = generation (heartbeat s') -> 0 <= hb_version (heartbeat s) ->
  EndpointState_max_version s <= EndpointState_max_version s'.
Proof.
  intros [|(_ & Hh & Hv)] Hg Hp; [lia|]. pose proof (max_version_hb s') as Hs.
  apply max_version_bound; [lia|lia|]. intros key v Ev. destruct (Hv key v Ev) as (v' & Ev' & Hle).
  apply max_version_ge in Ev'. destruct Hle as [->|]; lia.
Qed.

(** A delta of the node's state since what the peer has seen leaves the value out. *)
Lemma passed_over_receive key v sa sb :
  generation (heartbeat sa) = generation (heartbeat sb) -> 0 <= hb_version (heartbeat sb) ->
  application_states sa !! key = Some v -> vv_version v <= EndpointState_max_version sb ->
  let sb' := Gossiper_receive_state (Some sb) (Gossiper_extract_delta sa (EndpointState_max_version sb)) in
  generation (heartbeat sb') = generation (heartbeat sb) /\ 0 <= hb_version (heartbeat sb')
  /\ application_states sb' !! key = application_states sb !! key
  /\ EndpointState_max_version sb <= EndpointState_max_version sb'.
Proof.
  intros Hg Hp Ha Hv sb'. destruct (receive_above (Some sb) (Gossiper_extract_delta sa (EndpointState_max_version sb)) sb eq_refl)
    as (s' & [= <-] & Hle). fold sb' in Hle.
  destruct (merge_state_spec sb (Gossiper_extract_delta sa (EndpointState_max_version sb))) as [Hh Hk].
  assert (sb' = Gossiper_merge_state sb (Gossiper_extract_delta sa (EndpointState_max_version sb))) as E.
  { unfold sb'. simpl. by rewrite Hg, Z.ltb_irrefl, Z.eqb_refl. }
  assert (generation (heartbeat sb') = generation (heartbeat sb)) as Eg by by rewrite E, Hh.
  split_and!; [done|rewrite E, Hh; simpl; lia| |by apply known_le_max].
  rewrite E, Hk, lookup_delta, Ha. simpl. rewrite (proj2 (Z.ltb_ge _ _)) by lia. by destruct (application_states sb !! key).
Qed.

Lemma peer_step_passed_over ep key v w p op :
  passed_over ep key v w p -> (forall value, op <> PeerSet key value) -> passed_over ep key v w (peer_step p op).
Proof.
  destruct p as [a b]. intros (Hl & sa & sb & Ha & Hb & Hg & Hp & Hv & Hw & Hm) Hop.
  assert (forall now, ignores now a ep = true) as Hi.
  { intros now. unfold ignores. by rewrite bool_decide_true. }
  destruct op as [|key' value|now|now]; cbn [peer_step].
  - unfold Gossiper_increment_heartbeat. rewrite Hl, Ha. split; [done|]. simpl. eexists _, sb.
    rewrite lookup_insert_eq. split_and!; done.
  - unfold Gossiper_set_local_state. simpl. rewrite Hl, Ha. split; [done|]. simpl. eexists _, sb.
    rewrite lookup_insert_eq. split_and!; [done..| |done|done]. simpl. rewrite lookup_insert_ne; [done|].
    intros ->. by apply (Hop value).
  - pose proof (exchange_lookup now a b ep) as E. pose proof (exchange_locals now a b) as L.
    destruct (gossip_exchange now a b) as [a' b']. unfold exchange_of, told in E. rewrite Hi, Ha, Hb in E.
    destruct L as [L1 L2]. split; [congruence|]. destruct (passed_over_receive key v sa sb) as (R1 & R2 & R3 & R4); try done.
    revert E R1 R2 R3 R4. generalize (Gossiper_receive_state (Some sb) (Gossiper_extract_delta sa (EndpointState_max_version sb))).
    intros sb' E R1 R2 R3 R4.
    repeat case_match; injection E as -> ->; eexists sa, _; (split_and!; [done|done|..]); first [done|lia|congruence].
  - pose proof (exchange_lookup now b a ep) as E. pose proof (exchange_locals now b a) as L.
    destruct (gossip_exchange now b a) as [b' a']. unfold exchange_of, told in E. rewrite Hi, Ha, Hb in E.
    destruct L as [L1 L2]. split; [congruence|]. destruct (passed_over_receive key v sa sb) as (R1 & R2 & R3 & R4); try done.
    revert E R1 R2 R3 R4. generalize (Gossiper_receive_state (Some sb) (Gossiper_extract_delta sa (EndpointState_max_version sb))).
    intros sb' E R1 R2 R3 R4.
    repeat case_match; injection E as -> ->; eexists sa, _; (split_and!; [done|done|..]); first [done|lia|congruence].
Qed.

(** A value that the peer has passed over is never delivered: once the peer has
    seen a version of the node at or above the value's (the heartbeat counts as one,
    and it is numbered apart from the values), no sequence of heartbeats, publications
    of other keys and exchanges in either direction gives the peer the value; it keeps
    what it had for the key. *)
Theorem late_state_never_delivered key v a b sa sb ops :
  endpoint_states a !! local_endpoint a = Some sa -> endpoint_states b !! local_endpoint a = Some sb ->
  generation (heartbeat sa) = generation (heartbeat sb) -> 0 <= hb_version (heartbeat sb) ->
  EndpointState_get_state sa key = Some v -> vv_version v <= EndpointState_max_version sb ->
  Forall (fun op => forall value, op <> PeerSet key value) ops ->
  let '(a', b') := foldl peer_step (a, b) ops in
  exists sa' sb', endpoint_states a' !! local_endpoint a = Some sa' /\ EndpointState_get_state sa' key = Some v
    /\ endpoint_states b' !! local_endpoint a = Some sb'
    /\ EndpointState_get_state sb' key = EndpointState_get_state sb key.
Proof.
  intros Ha Hb Hg Hp Hv Hm Hops.
  assert (passed_over (local_endpoint a) key v (EndpointState_get_state sb key) (a, b)) as Hinv.
  { split; [done|]. exists sa, sb. done. }
  revert Hinv. generalize (EndpointState_get_state sb key), (local_endpoint a), (a, b). clear - Hops.
  intros w ep p. revert p. induction Hops as [|op ops Hop _ IH]; intros [a b] Hinv.
  - destruct Hinv as (_ & sa & sb & Ha & Hb & _ & _ & Hv & Hw & _). simpl. eauto 10.
  - simpl. apply IH. by apply (peer_step_passed_over _ _ _ _ (a, b)).
Qed.

End Exchange.

(** * Samples *)
Module GossipSample.
#[export] Instance always_alive : FailureDetector unit :=
  {| fd_new := tt; fd_report := fun _ d _ => d; fd_is_alive := fun _ _ _ => true |}.

Abbreviation e1 := (example_endpoint 1).
Abbreviation e2 := (example_endpoint 2).
Abbreviation node1 := (Gossiper_new (D := unit) e1 [e2] 100).
Abbreviation node2 := (Gossiper_new (D := unit) e2 [e1] 200).

(** Node 1 has published its status, node 2 has heard of it, and node 1 has
    published its rack since. *)
Abbreviation met := (gossip_exchange 0 (Gossiper_set_local_state node1 Status (text "NORMAL")) node2).
Abbreviation ahead := (Gossiper_set_local_state met.1 Rack (text "r1")).

Abbreviation status_only := ({[Status := mkVersionedValue 1 (text "NORMAL")]} : AppStates).
Abbreviation rack_too := (<[Rack := mkVersionedValue 2 (text "r1")]> status_only).

(** Node 1 has sent three heartbeats before it publishes its status. *)
Abbreviation beating := (Nat.iter 3 Gossiper_increment_heartbeat node1).
Abbreviation late := (peer_step (gossip_exchange 0 beating node2) (PeerSet Status (text "NORMAL"))).

Definition status_at (g : Gossiper unit) (ep : Endpoint) : option VersionedValue :=
  s ← endpoint_states g !! ep; EndpointState_get_state s Status.

Lemma exchange_reconciles_witness :
  let '(a', b') := gossip_exchange 0 ahead met.2 in
  endpoint_states a' !! e1 = endpoint_states b' !! e1
  /\ (endpoint_states a' !! e1 = endpoint_states ahead !! e1 \/ endpoint_states a' !! e1 = endpoint_states met.2 !! e1)
  /\ known_opt_le (endpoint_states ahead !! e1) (endpoint_states a' !! e1)
  /\ known_opt_le (endpoint_states met.2 !! e1) (endpoint_states b' !! e1).
Proof.
  refine (exchange_reconciles 0 ahead met.2 e1 _ _ _); [vm_compute; reflexivity..|].
  right. left. exists (mkEndpointState (mkHeartbeatState 100 2) rack_too).
  assert (endpoint_states met.2 !! e1 = Some (mkEndpointState (mkHeartbeatState 100 1) status_only)) as ->
    by (vm_compute; reflexivity).
  split; [vm_compute; reflexivity|]. split; [|by vm_compute]. cbn [behind heartbeat application_states].
  split_and!; [reflexivity|by vm_compute..| |]; intros []; vm_compute; try intros ? [= <-]; naive_solver.
Defined.

Lemma late_state_never_delivered_witness :
  let '(a', b') := foldl peer_step (late.1, late.2) [PeerExchange 1; PeerHeartbeat; PeerExchangeBack 2] in
  exists sa' sb', endpoint_states a' !! local_endpoint late.1 = Some sa'
    /\ EndpointState_get_state sa' Status = Some (mkVersionedValue 1 (text "NORMAL"))
    /\ endpoint_states b' !! local_endpoint late.1 = Some sb'
    /\ EndpointState_get_state sb' Status = EndpointState_get_state (mkEndpointState (mkHeartbeatState 100 3) ∅) Status.
Proof.
  refine (late_state_never_delivered Status (mkVersionedValue 1 (text "NORMAL")) late.1 late.2
    (mkEndpointState (mkHeartbeatState 100 4) {[Status := mkVersionedValue 1 (text "NORMAL")]})
    (mkEndpointState (mkHeartbeatState 100 3) ∅) [PeerExchange 1; PeerHeartbeat; PeerExchangeBack 2] _ _ _ _ _ _ _);
    [vm_compute; reflexivity| vm_compute; reflexivity | reflexivity | by vm_compute | reflexivity | by vm_compute |].
  repeat (apply List.Forall_cons; [done|]). apply List.Forall_nil.
Defined.

(** A node that restarts is not noticed while its versions are below those of its
    former generation, and what it published by then is not delivered afterwards. *)
Abbreviation old1 := (Nat.iter 5 Gossiper_increment_heartbeat (Gossiper_set_local_state node1 Status (text "NORMAL"))).
Abbreviation peer := (gossip_exchange 0 old1 node2).2.
Abbreviation new1 := (Gossiper_set_local_state (Gossiper_new (D := unit) e1 [e2] 101) Status (text "BOOT")).

Example restart_unnoticed :
  let '(a, b) := gossip_exchange 1 new1 peer in
  status_at b e1 = Some (mkVersionedValue 1 (text "NORMAL"))
  /\ let '(a, b) := gossip_exchange 2 (Nat.iter 9 Gossiper_increment_heartbeat a) b in
     (generation ∘ heartbeat <$> endpoint_states b !! e1) = Some 101 /\ status_at b e1 = None
     /\ status_at a e1 = Some (mkVersionedValue 1 (text "BOOT")).
Proof. vm_compute. done. Qed.
End GossipSample.
