(* ===== verification/GossipNet.v ===== *)
(** * Gossip: a cluster under any schedule

    Every node's gossiper with the messages in flight.  A message stays in flight
    once sent, so it is delivered any number of times, in any order, or never; nodes
    publish, send heartbeats, restart with a new generation and change their
    liveness lists at any time.  Over every such run a node knows of an endpoint
    only what the endpoint published, never more than the endpoint itself, two nodes
    that hold the same version hold the same value, and what a node knows never goes
    back. *)
From S2P Require Export GossipExchange.

Section Cluster.
Context {D : Type} `{FailureDetector D}.

Inductive GossipMessage :=
| MSyn (from : Endpoint) (syn : GossipDigestSyn)
| MAck (from : Endpoint) (ack : GossipDigestAck)
| MAck2 (ack2 : GossipDigestAck2).

(** A call of [set_local_state]: the endpoint, its generation, the key and the value. *)
Record Publication := mkPublication {
  pub_endpoint : Endpoint; pub_generation : Z; pub_key : ApplicationState; pub_value : VersionedValue }.

(** [history] records the publications; no operation reads it. *)
Record Cluster := mkCluster {
  nodes : gmap Endpoint (Gossiper D);
  in_flight : list (Endpoint * GossipMessage);
  history : list Publication;
}.
Implicit Types c : Cluster.

Inductive NetEvent :=
| EvPublish (ep : Endpoint) (key : ApplicationState) (value : Text)
| EvShutdown (ep : Endpoint)
| EvHeartbeat (ep : Endpoint)
| EvSyn (ep target : Endpoint)
| EvDeliver (i : nat) (now : Z)
| EvRestart (ep : Endpoint) (seeds : list Endpoint) (generation : Z)
| EvHealth (ep : Endpoint) (now : Z)
| EvQuarantine (ep other : Endpoint) (now : Z)
| EvCleanup (ep : Endpoint) (now : Z)
| EvConvict (ep other : Endpoint)
| EvReintegrate (ep other : Endpoint).

Definition set_node c (ep : Endpoint) (g : Gossiper D) : Cluster :=
  mkCluster (<[ep := g]> (nodes c)) (in_flight c) (history c).
Definition send c (dest : Endpoint) (m : GossipMessage) : Cluster :=
  mkCluster (nodes c) (in_flight c ++ [(dest, m)]) (history c).
Definition publish c (ep : Endpoint) (g : Gossiper D) (key : ApplicationState) : Cluster :=
  match endpoint_states g !! ep with
  | Some s =>
      match application_states s !! key with
      | Some v => mkCluster (nodes c) (in_flight c) (mkPublication ep (generation (heartbeat s)) key v :: history c)
      | None => c
      end
  | None => c
  end.

(** The handlers of handlers.rs, on decoded messages. *)
Definition deliver c (now : Z) (dest : Endpoint) (g : Gossiper D) (m : GossipMessage) : Cluster :=
  match m with
  | MSyn from syn =>
      if bool_decide (cluster_id syn = cluster_name g) then send c from (MAck dest (Gossiper_handle_syn now g syn)) else c
  | MAck from ack =>
      let '(g, ack2) := Gossiper_handle_ack now g ack in send (set_node c dest g) from (MAck2 ack2)
  | MAck2 ack2 => set_node c dest (Gossiper_handle_ack2 now g ack2)
  end.

Definition own_generation (g : Gossiper D) : Z :=
  match endpoint_states g !! local_endpoint g with Some s => generation (heartbeat s) | None => 0 end.

Definition node_event (e : NetEvent) : option Endpoint :=
  match e with
  | EvPublish ep _ _ | EvShutdown ep | EvHeartbeat ep | EvSyn ep _ | EvRestart ep _ _ | EvHealth ep _
  | EvQuarantine ep _ _ | EvCleanup ep _ | EvConvict ep _ | EvReintegrate ep _ => Some ep
  | EvDeliver _ _ => None
  end.

(** What an event does to the cluster, at the node [g] of the event. *)
Definition node_step c (ep : Endpoint) (g : Gossiper D) (e : NetEvent) : Cluster :=
  match e with
  | EvPublish _ key value =>
      let g := Gossiper_set_local_state g key value in publish (set_node c ep g) ep g key
  | EvShutdown _ => let g := Gossiper_shutdown g in publish (set_node c ep g) ep g Status
  | EvHeartbeat _ => set_node c ep (Gossiper_increment_heartbeat g)
  | EvSyn _ target => send c target (MSyn ep (Gossiper_make_gossip_digest_syn g))
  | EvRestart _ seeds generation =>
      (* the generation is taken from the clock at startup and is above the former one *)
      if own_generation g <? generation
      then set_node c ep (Gossiper_with_cluster_name ep seeds generation (cluster_name g)) else c
  | EvHealth _ now => set_node c ep (Gossiper_assess_endpoint_health now g)
  | EvQuarantine _ other now => set_node c ep (Gossiper_quarantine now g other)
  | EvCleanup _ now => set_node c ep (Gossiper_cleanup_quarantine now g)
  | EvConvict _ other => set_node c ep (Gossiper_convict g other)
  | EvReintegrate _ other => set_node c ep (Gossiper_reintegrate g other)
  | EvDeliver _ _ => c
  end.

Definition net_step c (e : NetEvent) : Cluster :=
  match e with
  | EvDeliver i now =>
      match in_flight c !! i with
      | Some (dest, m) => match nodes c !! dest with Some g => deliver c now dest g m | None => c end
      | None => c
      end
  | _ =>
      match node_event e with
      | Some ep => match nodes c !! ep with Some g => node_step c ep g e | None => c end
      | None => c
      end
  end.
Definition net_run c (es : list NetEvent) : Cluster := foldl net_step c es.

(** Every node freshly started, with its seeds and generation. *)
Definition Cluster_start (name : Text) (config : gmap Endpoint (list Endpoint * Z)) : Cluster :=
  mkCluster (map_imap (fun ep '(seeds, generation) => Some (Gossiper_with_cluster_name ep seeds generation name)) config)
    [] [].

(** ** The invariant *)

(** What an endpoint knows of itself. *)
Definition own_state c (ep : Endpoint) (s : EndpointState) : Prop :=
  exists g, nodes c !! ep = Some g /\ endpoint_states g !! ep = Some s.

(** A state of an endpoint that the endpoint really had, or a part of one. *)
Definition authentic c (ep : Endpoint) (r : EndpointState) : Prop :=
  (exists s, own_state c ep s /\ known_le r s)
  /\ forall key v, application_states r !! key = Some v ->
       mkPublication ep (generation (heartbeat r)) key v ∈ history c.

Definition states_of (m : GossipMessage) : gmap Endpoint EndpointState :=
  match m with MSyn _ _ => ∅ | MAck _ ack => updated_states ack | MAck2 ack2 => updated_states2 ack2 end.

Record node_inv (n : Z) c (ep : Endpoint) (g : Gossiper D) : Prop := {
  ni_local : local_endpoint g = ep;
  ni_counter : 0 <= version_counter g <= n;
  ni_own : exists s, endpoint_states g !! ep = Some s /\ 0 <= hb_version (heartbeat s) <= n
    /\ forall key v, application_states s !! key = Some v -> vv_version v <= version_counter g;
  ni_known : forall ep' s, endpoint_states g !! ep' = Some s -> authentic c ep' s;
}.

Record cluster_inv (n : Z) c : Prop := {
  ci_nodes : forall ep g, nodes c !! ep = Some g -> node_inv n c ep g;
  ci_flight : forall dest m ep r, (dest, m) ∈ in_flight c -> states_of m !! ep = Some r -> authentic c ep r;
  ci_history : forall p, p ∈ history c -> exists g s,
    nodes c !! pub_endpoint p = Some g /\ endpoint_states g !! pub_endpoint p = Some s
    /\ pub_generation p <= generation (heartbeat s)
    /\ (pub_generation p = generation (heartbeat s) -> vv_version (pub_value p) <= version_counter g);
  ci_unique : forall p q, p ∈ history c -> q ∈ history c ->
    pub_endpoint p = pub_endpoint q -> pub_generation p = pub_generation q ->
    vv_version (pub_value p) = vv_version (pub_value q) -> p = q;
}.
(** ** Authentic states *)

Lemma own_state_fun c ep s s' : own_state c ep s -> own_state c ep s' -> s = s'.
Proof. intros (g & Hg & Hs) (g' & Hg' & Hs'). congruence. Qed.

(** A cluster in which every endpoint knows at least as much of itself, with a longer history. *)
Definition extends c c' : Prop :=
  (forall ep s, own_state c ep s -> exists s', own_state c' ep s' /\ known_le s s')
  /\ forall p, p ∈ history c -> p ∈ history c'.

Lemma authentic_extends c c' ep r : extends c c' -> authentic c ep r -> authentic c' ep r.
Proof.
  intros [Ho Hh] [(s & Hs & Hle) Hp]. split; [|eauto]. destruct (Ho ep s Hs) as (s' & Hs' & Hle').
  exists s'. split; [done|]. by etransitivity.
Qed.

Lemma authentic_delta c ep s since : authentic c ep s -> authentic c ep (Gossiper_extract_delta s since).
Proof.
  intros [(o & Ho & Hle) Hp]. split.
  - exists o. split; [done|]. etransitivity; [apply delta_le|done].
  - intros key v. rewrite lookup_delta. destruct (application_states s !! key) as [w|] eqn:E; simpl; [|done].
    case_match; [|done]. intros [= <-]. by apply Hp.
Qed.

Lemma authentic_receive c ep known r :
  (forall s, known = Some s -> authentic c ep s) -> authentic c ep r ->
  authentic c ep (Gossiper_receive_state known r).
Proof.
  intros Hk [(o & Ho & Hle) Hp]. split.
  - exists o. split; [done|]. apply receive_bound; [|done]. intros l ->. destruct (Hk l eq_refl) as [(o' & Ho' & Hle') _].
    by rewrite (own_state_fun _ _ _ _ Ho Ho').
  - intros key v [(l & -> & <- & Hv)|[<- Hv]]%receive_values; [|by apply Hp]. by apply (Hk l eq_refl).
Qed.

(** ** Steps *)

(** A node changes, and publishes at most one value, under a version it had not reached. *)
Record node_change (n : Z) c (ep : Endpoint) (g g' : Gossiper D) (new : option Publication) : Prop := {
  nc_local : local_endpoint g' = ep;
  nc_counter : 0 <= version_counter g' <= n;
  nc_own : exists s s', endpoint_states g !! ep = Some s /\ endpoint_states g' !! ep = Some s'
    /\ known_le s s' /\ 0 <= hb_version (heartbeat s') <= n
    /\ (forall key v, application_states s' !! key = Some v -> vv_version v <= version_counter g')
    /\ (generation (heartbeat s) = generation (heartbeat s') -> version_counter g <= version_counter g')
    /\ (forall p, new = Some p -> pub_endpoint p = ep /\ pub_generation p = generation (heartbeat s')
          /\ generation (heartbeat s) = generation (heartbeat s')
          /\ vv_version (pub_value p) = version_counter g' /\ version_counter g < version_counter g');
  nc_known : forall c', extends c c' -> (forall s, endpoint_states g' !! ep = Some s -> own_state c' ep s) ->
    (forall p, new = Some p -> p ∈ history c') ->
    forall ep' s, endpoint_states g' !! ep' = Some s -> authentic c' ep' s;
}.

Definition change_node c (ep : Endpoint) (g' : Gossiper D) (new : option Publication) : Cluster :=
  mkCluster (<[ep := g']> (nodes c)) (in_flight c) (option_list new ++ history c).

Lemma own_state_insert c ep g' fl h ep' s :
  own_state (mkCluster (<[ep := g']> (nodes c)) fl h) ep' s
  <-> (ep' = ep /\ endpoint_states g' !! ep = Some s) \/ (ep' <> ep /\ own_state c ep' s).
Proof.
  unfold own_state. simpl. destruct (decide (ep' = ep)) as [->|Hne].
  - rewrite lookup_insert_eq. naive_solver.
  - rewrite lookup_insert_ne by done. naive_solver.
Qed.

Lemma change_extends n c ep g g' new :
  nodes c !! ep = Some g -> node_change n c ep g g' new -> extends c (change_node c ep g' new).
Proof.
  intros Hg [_ _ (s & s' & Hs & Hs' & Hle & _) _]. split.
  - intros ep' o Ho. destruct (decide (ep' = ep)) as [->|Hne].
    + assert (o = s) as -> by (apply (own_state_fun c ep); [done|by exists g]).
      exists s'. split; [|done]. apply own_state_insert. by left.
    + exists o. split; [|done]. apply own_state_insert. by right.
  - intros p Hp. simpl. apply elem_of_app. by right.
Qed.

Lemma node_inv_le n n' c c' ep g : n <= n' -> extends c c' -> node_inv n c ep g -> node_inv n' c' ep g.
Proof.
  intros Hn Hx [Hl Hc (s & Hs & Hh & Hv) Hk]. split; [done|lia| |].
  - exists s. split_and!; [done|lia..|done].
  - intros ep' s' Hs'. eapply authentic_extends; [done|]. by apply Hk.
Qed.

Lemma change_inv n n' c ep g g' new :
  cluster_inv n c -> nodes c !! ep = Some g -> n <= n' -> node_change n' c ep g g' new ->
  cluster_inv n' (change_node c ep g' new).
Proof.
  intros [Hn Hf Hh Hu] Hg Hle Hc. pose proof (change_extends _ _ _ _ _ _ Hg Hc) as Hx.
  destruct Hc as [Cl Cc (s & s' & Hs & Hs' & Hk & Hb & Hv & Hcnt & Hnew) Ck].
  assert (forall p, p ∈ history c -> pub_endpoint p = ep -> pub_generation p <= generation (heartbeat s)
    /\ (pub_generation p = generation (heartbeat s) -> vv_version (pub_value p) <= version_counter g)) as Hold.
  { intros p Hp He. destruct (Hh p Hp) as (g0 & s0 & H1 & H2 & H3 & H4). rewrite He in *. simplify_eq. auto. }
  assert (generation (heartbeat s) <= generation (heartbeat s')) as Hgen by (destruct Hk as [?|[? _]]; lia).
  split.
  - intros ep' g0. simpl. rewrite lookup_insert_Some. intros [[<- <-]|[Hne H0]].
    + split; [done|lia| |].
      * exists s'. split_and!; [done|lia..|done].
      * apply Ck; [done| |].
        -- intros s0 Hs0. apply own_state_insert. by left.
        -- intros p ->. simpl. apply elem_of_cons. by left.
    + by eapply node_inv_le; [| |apply Hn].
  - intros dest m ep' r Hin Hr. eapply authentic_extends; [done|]. eapply Hf; [exact Hin|exact Hr].
  - intros p [Hp|Hp]%elem_of_app.
    + destruct new as [q|]; [|by apply not_elem_of_nil in Hp]. apply list_elem_of_singleton in Hp as ->.
      destruct (Hnew q eq_refl) as (E1 & E2 & E3 & E4 & E5). exists g', s'. simpl. rewrite E1, lookup_insert_eq.
      split_and!; [done..|lia|lia].
    + simpl. destruct (decide (pub_endpoint p = ep)) as [E|Hne].
      * destruct (Hold p Hp E) as [O1 O2]. exists g', s'. rewrite E, lookup_insert_eq. split_and!; [done..|lia|].
        intros Eg. transitivity (version_counter g); [apply O2; lia|apply Hcnt; lia].
      * rewrite lookup_insert_ne by done. by apply Hh.
  - assert (forall p q, p ∈ option_list new -> q ∈ history c -> pub_endpoint p = pub_endpoint q ->
      pub_generation p = pub_generation q -> vv_version (pub_value p) = vv_version (pub_value q) -> False) as Hfresh.
    { intros p q Hp Hq E1 E2 E3. destruct new as [p'|]; [|by apply not_elem_of_nil in Hp].
      apply list_elem_of_singleton in Hp as ->. destruct (Hnew p' eq_refl) as (F1 & F2 & F3 & F4 & F5).
      destruct (Hold q Hq) as [_ O]; [congruence|]. specialize (O ltac:(congruence)). lia. }
    intros p q [Hp|Hp]%elem_of_app [Hq|Hq]%elem_of_app E1 E2 E3.
    + destruct new; [|by apply not_elem_of_nil in Hp]. apply list_elem_of_singleton in Hp, Hq. congruence.
    + by destruct (Hfresh p q Hp Hq).
    + by destruct (Hfresh q p Hq Hp).
    + by apply Hu.
Qed.

Lemma inv_le n n' c : n <= n' -> cluster_inv n c -> cluster_inv n' c.
Proof.
  intros Hle [Hn Hf Hh Hu]. split; try done. intros ep g Hg. eapply node_inv_le; [done| |by apply Hn].
  split; [|done]. intros ep' s Hs. by exists s.
Qed.

Lemma send_inv n c dest m :
  cluster_inv n c -> (forall ep r, states_of m !! ep = Some r -> authentic c ep r) -> cluster_inv n (send c dest m).
Proof.
  intros [Hn Hf Hh Hu] Hm.
  assert (extends c (send c dest m)) as Hx by (split; [intros ep' s Hs; by exists s|done]).
  split; try done.
  - intros ep g Hg. eapply node_inv_le; [done|exact Hx|by apply Hn].
  - intros d m' ep r [Hin|Hin]%elem_of_app Hr; (eapply authentic_extends; [exact Hx|]).
    + eapply Hf; [exact Hin|exact Hr].
    + apply list_elem_of_singleton in Hin. simplify_eq. by apply Hm.
Qed.

(** ** The operations *)

(** Operations on the liveness and quarantine lists. *)
Lemma quiet_change n c ep g g' :
  node_inv n c ep g -> local_endpoint g' = local_endpoint g -> version_counter g' = version_counter g ->
  endpoint_states g' = endpoint_states g -> node_change n c ep g g' None.
Proof.
  intros [Hl Hc (s & Hs & Hh & Hv) Hk] El Ec Es. split; rewrite ?El, ?Ec; [done|lia| |].
  - exists s, s. rewrite Es. split_and!; try done; lia.
  - intros c' Hx _ _ ep' s'. rewrite Es. intros Hs'. eapply authentic_extends; [done|]. by apply Hk.
Qed.

Lemma apply_change n c now ep g R :
  node_inv n c ep g -> (forall ep' r, R !! ep' = Some r -> authentic c ep' r) ->
  node_change n c ep g (Gossiper_apply_remote_states now g R) None.
Proof.
  intros [Hl Hc (s & Hs & Hh & Hv) Hk] HR.
  destruct (apply_remote_states_same now g R) as (El & _ & Ec & _).
  assert (endpoint_states (Gossiper_apply_remote_states now g R) !! ep = Some s) as Es.
  { rewrite lookup_apply_remote_states, Hs. case_match; [|done]. unfold ignores. by rewrite bool_decide_true. }
  split; rewrite ?El, ?Ec; [done|lia| |].
  - exists s, s. split_and!; try done; lia.
  - intros c' Hx _ _ ep' s'. rewrite lookup_apply_remote_states.
    assert (forall s, endpoint_states g !! ep' = Some s -> authentic c' ep' s) as Hk'.
    { intros s0 Hs0. eapply authentic_extends; [done|]. by apply Hk. }
    destruct (R !! ep') as [r|] eqn:Er; [|by apply Hk']. case_match; [by apply Hk'|]. intros [= <-].
    apply authentic_receive; [done|]. eapply authentic_extends; [done|]. by apply HR.
Qed.

(** A node's own state moves on within its generation. *)
Lemma own_change n n' c ep g g' s s' new :
  node_inv n c ep g -> n <= n' -> local_endpoint g' = ep -> endpoint_states g !! ep = Some s ->
  endpoint_states g' = <[ep := s']> (endpoint_states g) ->
  known_le s s' -> generation (heartbeat s) = generation (heartbeat s') -> 0 <= hb_version (heartbeat s') <= n' ->
  version_counter g <= version_counter g' <= n' ->
  (forall key v, application_states s' !! key = Some v ->
     application_states s !! key = Some v
     \/ (version_counter g < version_counter g' /\ version_counter g' = vv_version v)
        /\ new = Some (mkPublication ep (generation (heartbeat s')) key v)) ->
  (forall p, new = Some p -> (version_counter g < version_counter g' /\ version_counter g' = vv_version (pub_value p))
     /\ pub_endpoint p = ep /\ pub_generation p = generation (heartbeat s')) ->
  node_change n' c ep g g' new.
Proof.
  intros [Hl Hc (s0 & Hs0 & Hh & Hv) Hk] Hn El Hs Es Hle Eg Hh' Hc' Hval Hnew.
  assert (s0 = s) as -> by congruence. split; [done|lia| |].
  - exists s, s'. rewrite Es, lookup_insert_eq. split_and!; try done; try lia.
    + intros key v [Ev|[? _]]%Hval; [apply Hv in Ev; lia|lia].
    + intros p Hp. destruct (Hnew p Hp) as ([? ?] & ? & ?). split_and!; congruence || lia.
  - intros c' Hx Ho Hp ep' r. rewrite Es, lookup_insert_Some. intros [[<- <-]|[_ Hr]].
    + split; [exists s'; split; [apply Ho; by rewrite Es, lookup_insert_eq|done]|].
      intros key v [Ev|[_ Ev]]%Hval; [|by apply Hp]. rewrite <- Eg.
      apply (authentic_extends _ _ _ _ Hx (Hk _ _ Hs)). done.
    + eapply authentic_extends; [done|]. by apply Hk.
Qed.

Lemma heartbeat_change n c ep g :
  node_inv n c ep g -> n + 1 < 2 ^ 63 -> node_change (n + 1) c ep g (Gossiper_increment_heartbeat g) None.
Proof.
  intros Hi Hn. pose proof Hi as [Hl Hc (s & Hs & Hh & Hv) _]. unfold Gossiper_increment_heartbeat.
  rewrite Hl, Hs.
  assert (wrap_s 64 (hb_version (heartbeat s) + 1) = hb_version (heartbeat s) + 1) as Ew.
  { apply wrap_s_id; [lia|]. unfold in_s. lia. }
  eapply (own_change n (n + 1) c ep g _ s); [done|lia|done|done|done| |done| | | |]; simpl; try lia; auto.
  - right. split_and!; [done|simpl; lia|]. simpl. eauto.
  - done.
Qed.

Lemma publish_change n c ep g key value :
  node_inv n c ep g -> n + 1 < 2 ^ 63 ->
  exists s v, endpoint_states (Gossiper_set_local_state g key value) !! ep = Some s
    /\ application_states s !! key = Some v
    /\ node_change (n + 1) c ep g (Gossiper_set_local_state g key value)
         (Some (mkPublication ep (generation (heartbeat s)) key v)).
Proof.
  intros Hi Hn. pose proof Hi as [Hl Hc (s & Hs & Hh & Hv) _]. unfold Gossiper_set_local_state. simpl.
  rewrite Hl, Hs. simpl.
  assert (wrap_s 64 (hb_version (heartbeat s) + 1) = hb_version (heartbeat s) + 1) as Ew.
  { apply wrap_s_id; [lia|]. unfold in_s. lia. }
  assert (wrap_s 64 (version_counter g + 1) = version_counter g + 1) as Ec.
  { apply wrap_s_id; [lia|]. unfold in_s. lia. }
  eexists _, _. split; [by rewrite lookup_insert_eq|]. split; [simpl; by rewrite lookup_insert_eq|].
  eapply (own_change n (n + 1) c ep g _ s); [done|lia|done|done|done| |done| | | |]; simpl; rewrite ?Ec; try lia.
  - right. split_and!; [done|simpl; lia|]. intros k v Ek. simpl. destruct (decide (k = key)) as [->|Hne].
    + rewrite lookup_insert_eq. eexists. split; [done|]. right. apply Hv in Ek. simpl. lia.
    + rewrite lookup_insert_ne by done. eauto.
  - intros k v [[<- <-]|[Hne Ek]]%lookup_insert_Some; [right|by left]. simpl. split; [lia|done].
  - intros p [= <-]. simpl. split_and!; done || lia.
Qed.

Lemma restart_change n c ep g seeds generation name :
  node_inv n c ep g -> 0 <= n -> own_generation g < generation ->
  node_change n c ep g (Gossiper_with_cluster_name ep seeds generation name) None.
Proof.
  intros [Hl Hc (s & Hs & Hh & Hv) Hk] Hn Hg. unfold own_generation in Hg. rewrite Hl, Hs in Hg.
  split; simpl; [done|lia| |].
  - exists s, (EndpointState_new generation). rewrite lookup_singleton_eq. split_and!; try done; simpl; try lia.
    by left.
  - intros c' Hx Ho _ ep' r [<- <-]%lookup_singleton_Some. split; [|done].
    exists (EndpointState_new generation). split; [|done]. apply Ho. by rewrite lookup_singleton_eq.
Qed.

Lemma change_same n c ep g g1 g2 new :
  node_change n c ep g g1 new -> local_endpoint g2 = local_endpoint g1 -> version_counter g2 = version_counter g1 ->
  endpoint_states g2 = endpoint_states g1 -> node_change n c ep g g2 new.
Proof. intros [Hl Hc Ho Hk] El Ec Es. split; rewrite ?El, ?Ec, ?Es; done. Qed.

Lemma publish_inv n c ep g g' key value :
  cluster_inv n c -> nodes c !! ep = Some g -> n + 1 < 2 ^ 63 ->
  local_endpoint g' = local_endpoint (Gossiper_set_local_state g key value) ->
  version_counter g' = version_counter (Gossiper_set_local_state g key value) ->
  endpoint_states g' = endpoint_states (Gossiper_set_local_state g key value) ->
  cluster_inv (n + 1) (publish (set_node c ep g') ep g' key).
Proof.
  intros Hi Hg Hn El Ec Es. destruct (publish_change n c ep g key value) as (s & v & Hs & Hv & Hc); [by apply Hi|done|].
  unfold publish. rewrite Es, Hs, Hv. 
  eapply (change_inv n (n + 1) c ep g g' (Some (mkPublication ep (generation (heartbeat s)) key v)));
    [done|done|lia|]. by eapply change_same.
Qed.

Lemma node_step_inv n c ep g e :
  cluster_inv n c -> nodes c !! ep = Some g -> 0 <= n -> n + 1 < 2 ^ 63 -> cluster_inv (n + 1) (node_step c ep g e).
Proof.
  intros Hi Hg Hp Hn. pose proof (ci_nodes _ _ Hi _ _ Hg) as Hni.
  assert (forall g', local_endpoint g' = local_endpoint g -> version_counter g' = version_counter g ->
    endpoint_states g' = endpoint_states g -> cluster_inv (n + 1) (set_node c ep g')) as Hq.
  { intros g' E1 E2 E3. apply (inv_le n); [lia|].
    eapply (change_inv n n c ep g g' None); [done|done|lia|]. by apply quiet_change. }
  destruct e; simpl.
  - by eapply publish_inv.
  - by eapply (publish_inv n c ep g _ Status (text "LEFT")).
  - eapply (change_inv n (n + 1) c ep g _ None); [done|done|lia|]. by apply heartbeat_change.
  - apply (inv_le n); [lia|]. by apply send_inv.
  - apply (inv_le n); [lia|done].
  - case_match eqn:Hgen; [apply Z.ltb_lt in Hgen|apply (inv_le n); [lia|done]].
    apply (inv_le n); [lia|]. eapply (change_inv n n c ep g _ None); [done|done|lia|]. by apply restart_change.
  - apply Hq; unfold Gossiper_assess_endpoint_health; by case_match.
  - by apply Hq.
  - by apply Hq.
  - by apply Hq.
  - by apply Hq.
Qed.

Lemma deliver_inv n c now dest g m :
  cluster_inv n c -> nodes c !! dest = Some g -> (forall ep r, states_of m !! ep = Some r -> authentic c ep r) ->
  cluster_inv n (deliver c now dest g m).
Proof.
  intros Hi Hg Hm. pose proof (ci_nodes _ _ Hi _ _ Hg) as Hni. destruct m as [from syn|from ack|ack2]; simpl in *.
  - case_bool_decide; [|done]. apply send_inv; [done|]. simpl. intros ep r (s & since & Hs & ->)%handle_syn_deltas.
    apply authentic_delta. by apply Hni.
  - pose proof (handle_ack_deltas now g ack) as Hd. simpl in Hd.
    set (g' := Gossiper_apply_remote_states now g (updated_states ack)) in *.
    assert (cluster_inv n (set_node c dest g')) as Hi'.
    { eapply (change_inv n n c dest g g' None); [done|done|lia|]. by apply apply_change. }
    apply send_inv; [done|]. simpl. intros ep r (s & since & Hs & ->)%Hd.
    apply authentic_delta. eapply ci_nodes; [exact Hi'| |exact Hs]. simpl. by rewrite lookup_insert_eq.
  - eapply (change_inv n n c dest g _ None); [done|done|lia|]. by apply apply_change.
Qed.

Lemma net_step_inv n c e : cluster_inv n c -> 0 <= n -> n + 1 < 2 ^ 63 -> cluster_inv (n + 1) (net_step c e).
Proof.
  intros Hi Hp Hn. assert (cluster_inv (n + 1) c) as Hi' by (apply (inv_le n); [lia|done]).
  assert (forall ep, cluster_inv (n + 1) match nodes c !! ep with Some g => node_step c ep g e | None => c end) as Hnode.
  { intros ep. destruct (nodes c !! ep) eqn:Hg; [|done]. by apply node_step_inv. }
  destruct e as [| | | |i now| | | | | |]; try apply Hnode. simpl.
  destruct (in_flight c !! i) as [[dest m]|] eqn:Hm; [|done]. destruct (nodes c !! dest) as [g|] eqn:Hg; [|done].
  apply (inv_le n); [lia|]. apply deliver_inv; [done..|]. intros ep r Hr.
  eapply ci_flight; [exact Hi|eapply list_elem_of_lookup_2; exact Hm|exact Hr].
Qed.

Lemma net_run_inv n c es :
  cluster_inv n c -> 0 <= n -> n + Z.of_nat (length es) < 2 ^ 63 ->
  cluster_inv (n + Z.of_nat (length es)) (net_run c es).
Proof.
  revert n c. induction es as [|e es IH]; intros n c Hi Hp Hn; simpl in *.
  - by rewrite Z.add_0_r.
  - replace (n + Z.of_nat (S (length es))) with (n + 1 + Z.of_nat (length es)) by lia.
    apply IH; [|lia..]. apply net_step_inv; [done|lia..].
Qed.

Lemma start_inv name config : cluster_inv 0 (Cluster_start name config).
Proof.
  split; [|by intros ???? ?%elem_of_nil|by intros ? ?%elem_of_nil|by intros ?? ?%elem_of_nil].
  intros ep g. simpl. rewrite map_lookup_imap, bind_Some. intros ([seeds gen] & Hc & [= <-]).
  split; simpl; [done|lia| |].
  - exists (EndpointState_new gen). rewrite lookup_singleton_eq. done.
  - intros ep' s [<- <-]%lookup_singleton_Some. split; [|done]. exists (EndpointState_new gen). split; [|done].
    eexists. simpl. rewrite map_lookup_imap, Hc. simpl. split; [done|]. simpl. apply lookup_singleton_eq.
Qed.

(** ** What a node knows does not go back *)

Definition grows (g g' : Gossiper D) : Prop :=
  forall ep, known_opt_le (endpoint_states g !! ep) (endpoint_states g' !! ep).

#[local] Instance grows_preorder : PreOrder grows.
Proof. split; [intros g ep; reflexivity|]. intros g1 g2 g3 H1 H2 ep. etransitivity; [apply H1|apply H2]. Qed.

Lemma grows_same g g' : endpoint_states g' = endpoint_states g -> grows g g'.
Proof. intros E ep. by rewrite E. Qed.

Lemma grows_own g g' ep s s' :
  endpoint_states g !! ep = Some s -> endpoint_states g' = <[ep := s']> (endpoint_states g) -> known_le s s' -> grows g g'.
Proof.
  intros Hs Es Hle ep'. rewrite Es. destruct (decide (ep = ep')) as [<-|Hne].
  - rewrite Hs, lookup_insert_eq. intros ? [= <-]. eauto.
  - by rewrite lookup_insert_ne.
Qed.

Lemma heartbeat_grows n c ep g : node_inv n c ep g -> n + 1 < 2 ^ 63 -> grows g (Gossiper_increment_heartbeat g).
Proof.
  intros [Hl _ (s & Hs & Hh & _) _] Hn. unfold Gossiper_increment_heartbeat. rewrite Hl, Hs.
  eapply grows_own; [exact Hs|done|]. right. simpl. rewrite wrap_s_id by (unfold in_s; lia). split_and!; [done|lia|eauto].
Qed.

Lemma publish_grows n c ep g key value :
  node_inv n c ep g -> n + 1 < 2 ^ 63 -> grows g (Gossiper_set_local_state g key value).
Proof.
  intros Hi Hn. destruct (publish_change n c ep g key value Hi Hn) as (_ & _ & _ & _ & [_ _ (s & s' & Hs & Hs' & Hle & _) _]).
  pose proof (ni_local _ _ _ _ Hi) as Hl. revert Hs'. unfold Gossiper_set_local_state. simpl. rewrite Hl, Hs. simpl.
  rewrite lookup_insert_eq. intros [= <-]. by eapply grows_own.
Qed.

Lemma net_step_grows n c e node g :
  cluster_inv n c -> n + 1 < 2 ^ 63 -> nodes c !! node = Some g -> (forall seeds gen, e <> EvRestart node seeds gen) ->
  exists g', nodes (net_step c e) !! node = Some g' /\ grows g g'.
Proof.
  intros Hi Hn Hg He.
  assert (forall ep g0 g', nodes c !! ep = Some g0 -> (ep = node -> grows g0 g') ->
    exists g'', <[ep := g']> (nodes c) !! node = Some g'' /\ grows g g'') as Hset.
  { intros ep g0 g' Hg0 Hgr. destruct (decide (ep = node)) as [->|Hne].
    - rewrite lookup_insert_eq. exists g'. split; [done|]. simplify_eq. auto.
    - rewrite lookup_insert_ne by done. by exists g. }
  assert (forall ep, node_event e = Some ep ->
    exists g', nodes match nodes c !! ep with Some g => node_step c ep g e | None => c end !! node = Some g' /\ grows g g') as Hnode.
  { intros ep Hep. destruct (nodes c !! ep) as [g0|] eqn:Hg0; [|by exists g].
    pose proof (ci_nodes _ _ Hi _ _ Hg0) as Hni.
    destruct e; simpl in Hep |- *; simplify_eq; unfold publish; try case_match; repeat case_match; try (by exists g);
      eapply Hset; try exact Hg0; intros E; subst;
      first [by eapply publish_grows | by eapply heartbeat_grows | by apply grows_same
            | by edestruct He | unfold Gossiper_assess_endpoint_health; case_match; by apply grows_same]. }
  destruct e as [| | | |i now| | | | | |]; try by apply Hnode. simpl.
  destruct (in_flight c !! i) as [[dest m]|]; [|by exists g]. destruct (nodes c !! dest) as [g0|] eqn:Hg0; [|by exists g].
  destruct m; simpl; [case_bool_decide; by exists g|..]; eapply Hset; try exact Hg0; intros _ ep;
    apply apply_remote_states_above.
Qed.

(** C6. Gossip is authentic under every schedule: in a cluster of freshly started
    nodes, after any sequence of publications, heartbeats, restarts and deliveries
    (with messages lost, repeated and reordered), what a node knows of an endpoint is
    at most what the endpoint knows of itself, every value in it was published by the
    endpoint in that generation, and two nodes that hold the same version of a key of
    the same generation hold the same value. *)
Theorem gossip_authentic name config es :
  Z.of_nat (length es) < 2 ^ 63 ->
  let c := net_run (Cluster_start name config) es in
  forall node g ep s, nodes c !! node = Some g -> endpoint_states g !! ep = Some s ->
  (exists owner own, nodes c !! ep = Some owner /\ endpoint_states owner !! ep = Some own /\ known_le s own)
  /\ (forall key v, EndpointState_get_state s key = Some v ->
        mkPublication ep (generation (heartbeat s)) key v ∈ history c)
  /\ (forall node' g' s' key v v', nodes c !! node' = Some g' -> endpoint_states g' !! ep = Some s' ->
        generation (heartbeat s') = generation (heartbeat s) ->
        EndpointState_get_state s key = Some v -> EndpointState_get_state s' key = Some v' ->
        vv_version v = vv_version v' -> v = v').
Proof.
  intros Hn c node g ep s Hg Hs.
  assert (cluster_inv (0 + Z.of_nat (length es)) c) as [Hi _ _ Hu] by (apply net_run_inv; [apply start_inv|lia..]).
  destruct (ni_known _ _ _ _ (Hi _ _ Hg) _ _ Hs) as [(own & (owner & Ho & Hown) & Hle) Hp].
  split_and!; [by exists owner, own|done|].
  intros node' g' s' key v v' Hg' Hs' Eg Hv Hv' Ev.
  destruct (ni_known _ _ _ _ (Hi _ _ Hg') _ _ Hs') as [_ Hp'].
  pose proof (Hu _ _ (Hp _ _ Hv) (Hp' _ _ Hv')) as E. simpl in E.
  specialize (E eq_refl (eq_sym Eg) Ev). congruence.
Qed.

Lemma net_run_grows n c es node g :
  cluster_inv n c -> 0 <= n -> n + Z.of_nat (length es) < 2 ^ 63 -> nodes c !! node = Some g ->
  Forall (fun e => forall seeds gen, e <> EvRestart node seeds gen) es ->
  exists g', nodes (net_run c es) !! node = Some g' /\ grows g g'.
Proof.
  intros Hi Hp Hn Hg He. revert n c g Hi Hp Hn Hg. induction He as [|e es He _ IH]; intros n c g Hi Hp Hn Hg; simpl in *.
  - by exists g.
  - destruct (net_step_grows n c e node g) as (g1 & Hg1 & Hgr); [done|lia|done|done|].
    destruct (IH (n + 1) (net_step c e) g1) as (g2 & Hg2 & Hgr2); [apply net_step_inv; [done|lia..]|lia|lia|done|].
    exists g2. split; [done|]. by etransitivity.
Qed.

(** C17. What a node knows never goes back: through any continuation of any run in
    which the node itself does not restart, it keeps every endpoint it knows of, at
    the same or a later generation, and within a generation with a heartbeat and
    versions of every value that are no older. *)
Theorem gossip_monotone name config es es' node g :
  Z.of_nat (length (es ++ es')) < 2 ^ 63 ->
  nodes (net_run (Cluster_start name config) es) !! node = Some g ->
  Forall (fun e => forall seeds gen, e <> EvRestart node seeds gen) es' ->
  exists g', nodes (net_run (Cluster_start name config) (es ++ es')) !! node = Some g'
    /\ forall ep s, endpoint_states g !! ep = Some s ->
         exists s', endpoint_states g' !! ep = Some s' /\ known_le s s'.
Proof.
  rewrite length_app. intros Hn Hg He. unfold net_run at 1. rewrite foldl_app.
  fold (net_run (Cluster_start name config) es).
  destruct (net_run_grows (0 + Z.of_nat (length es)) (net_run (Cluster_start name config) es) es' node g)
    as (g' & Hg' & Hgr); [apply net_run_inv; [apply start_inv|lia..]|lia|lia|done|done|].
  exists g'. split; [done|]. intros ep s Hs. by apply Hgr.
Qed.

End Cluster.

(** * Samples *)
Module NetSample.
Import GossipSample.

Abbreviation e3 := (example_endpoint 3).
Abbreviation sample_config :=
  ({[e1 := ([e2], 100); e2 := ([e1], 200); e3 := ([e1], 300)]} : gmap Endpoint (list Endpoint * Z)).
(** Node 1 publishes and tells node 2; node 1 restarts; the same messages arrive again. *)
Abbreviation sample_events :=
  [EvPublish e1 Status (text "NORMAL"); EvSyn e1 e2; EvDeliver 0 10; EvDeliver 1 10; EvDeliver 2 10; EvHeartbeat e1;
   EvSyn e3 e2; EvDeliver 3 11; EvDeliver 4 11].
Abbreviation sample_later := [EvRestart e1 [e2] 101; EvDeliver 2 12; EvQuarantine e3 e1 12; EvDeliver 4 13].
Abbreviation sample_cluster := (net_run (D := unit) (Cluster_start (text "c") sample_config) sample_events).

Definition holds (c : Cluster (D := unit)) (node ep : Endpoint) : option EndpointState :=
  g ← nodes c !! node; endpoint_states g !! ep.
Definition version_held (c : Cluster (D := unit)) (node ep : Endpoint) (key : ApplicationState) : option (Z * Z) :=
  s ← holds c node ep; v ← EndpointState_get_state s key; Some (generation (heartbeat s), vv_version v).

(** Node 3 has learned node 1's status from node 2. *)
Example sample_spreads :
  version_held sample_cluster e3 e1 Status = Some (100, 1)
  /\ version_held (net_run sample_cluster sample_later) e3 e1 Status = Some (100, 1)
  /\ version_held (net_run sample_cluster sample_later) e1 e1 Status = None.
Proof. vm_compute. done. Qed.

Lemma holds_lookup c node ep :
  bool_decide (is_Some (holds c node ep)) = true ->
  exists g s, nodes c !! node = Some g /\ endpoint_states g !! ep = Some s.
Proof. intros (s & (g & Hg & Hs)%bind_Some)%bool_decide_eq_true. eauto. Qed.

Lemma gossip_authentic_witness :
  exists g s owner own, nodes sample_cluster !! e3 = Some g /\ endpoint_states g !! e1 = Some s
    /\ nodes sample_cluster !! e1 = Some owner /\ endpoint_states owner !! e1 = Some own /\ known_le s own.
Proof.
  assert (bool_decide (is_Some (holds sample_cluster e3 e1)) = true) as (g & s & Hg & Hs)%holds_lookup
    by (vm_compute; reflexivity).
  assert (Z.of_nat (length sample_events) < 2 ^ 63) as Hn by (vm_compute; reflexivity).
  destruct (gossip_authentic (text "c") sample_config sample_events Hn e3 g e1 s Hg Hs) as [(owner & own & H) _].
  exists g, s, owner, own. tauto.
Defined.

Lemma gossip_monotone_witness :
  exists g g' s s', nodes sample_cluster !! e3 = Some g
    /\ nodes (net_run (Cluster_start (text "c") sample_config) (sample_events ++ sample_later)) !! e3 = Some g'
    /\ endpoint_states g !! e1 = Some s /\ endpoint_states g' !! e1 = Some s' /\ known_le s s'.
Proof.
  assert (bool_decide (is_Some (holds sample_cluster e3 e1)) = true) as (g & s & Hg & Hs)%holds_lookup
    by (vm_compute; reflexivity).
  assert (Z.of_nat (length (sample_events ++ sample_later)) < 2 ^ 63) as Hn by (vm_compute; reflexivity).
  assert (Forall (fun e => forall seeds gen, e <> EvRestart e3 seeds gen) sample_later) as Hl
    by (repeat (apply List.Forall_cons; [done|]); apply List.Forall_nil).
  destruct (gossip_monotone (text "c") sample_config sample_events sample_later e3 g Hn Hg Hl) as (g' & Hg' & Hgr).
  destruct (Hgr e1 s Hs) as (s' & Hs' & Hle). exists g, g', s, s'. tauto.
Defined.
End NetSample.
