(* ===== verification/GossipWire.v ===== *)
(** * Gossip: the messages on the wire

    crates/cassandra-cluster-metadata/src/gossip/messages.rs, the Java codec of the
    three gossip messages with its modified UTF-8 over UTF-16 units, the handlers of
    handlers.rs, and the exchange that task.rs runs over bytes.  A writer returns the
    bytes it appends, or the error that makes the caller drop them.  The format of
    the texts of errors is left out. *)
From S2P Require Export GossipExchange.
From S2P Require Import Io.

Inductive GossipInvalid :=
| TrailingBytes (count : Z)
| UnsupportedEndpointSize (size : Z)
| NotJavaInt (value : Z)
| NegativeCount (count : Z)
| CountExceedsPayload (count : Z)
| UtfTooLong (bytes : Z)
| TruncatedUtf
| BadContinuation
| BadLeadByte (first : Z)
| BadUtf16.
Inductive GossipWireError :=
| UnexpectedEof
| InvalidData (reason : GossipInvalid)
| UnsupportedApplicationState (ordinal : Z).

Definition WireResult (A : Type) : Type := GossipWireError + A.
#[export] Instance WireResult_ret : MRet WireResult := fun A a => inr a.
#[export] Instance WireResult_bind : MBind WireResult := fun A B f m =>
  match m with inl e => inl e | inr a => f a end.

(** A reader takes a prefix of its input or fails with an error. *)
Definition WireReader (A : Type) : Type := list Z -> WireResult (A * list Z).
#[export] Instance WireReader_ret : MRet WireReader := fun A a input => inr (a, input).
#[export] Instance WireReader_bind : MBind WireReader := fun A B f m input =>
  match m input with inl e => inl e | inr (a, input) => f a input end.
Definition wire_lift {A} (r : WireResult A) : WireReader A := fun input =>
  match r with inl e => inl e | inr a => inr (a, input) end.

(** * Fields *)

Definition read_exact (len : nat) : WireReader (list Z) := fun input =>
  if (length input <? len)%nat then inl UnexpectedEof else inr (take len input, drop len input).
Definition read_i32 : WireReader Z := bytes ← read_exact 4; mret (read_s bytes).
Definition read_u16 : WireReader Z := bytes ← read_exact 2; mret (read_u bytes).
Definition read_u8 : WireReader Z := bytes ← read_exact 1; mret (read_u bytes).
Definition write_i32 (value : Z) : list Z := write_be 4 value.
Definition write_u16 (value : Z) : list Z := write_be 2 value.

Definition checked_i32 (value : Z) : WireResult Z :=
  if (i32_MIN <=? value) && (value <=? i32_MAX) then inr value else inl (InvalidData (NotJavaInt value)).

Definition ensure_consumed (input : list Z) : WireResult unit :=
  match input with [] => inr tt | _ => inl (InvalidData (TrailingBytes (Z.of_nat (length input)))) end.

Definition read_count (min_entry_bytes : Z) : WireReader nat :=
  count ← read_i32;
  if count <? 0 then wire_lift (inl (InvalidData (NegativeCount count)))
  else fun input =>
    if (0 <? min_entry_bytes) && (Z.of_nat (length input) / min_entry_bytes <? count)
    then inl (InvalidData (CountExceedsPayload count)) else inr (Z.to_nat count, input).

(** ** Strings *)

(** [str::encode_utf16] and [String::from_utf16]. *)
Definition char_units (c : Z) : list Z :=
  if c <? 0x10000 then [c]
  else let c := c - 0x10000 in [0xd800 + Z.shiftr c 10; 0xdc00 + Z.land c 0x3ff].
Definition encode_utf16 (s : Text) : list Z := mjoin (char_units <$> s).
Fixpoint from_utf16 (units : list Z) : option Text :=
  match units with
  | [] => Some []
  | u :: units =>
      if (u <? 0xd800) || (0xdfff <? u) then cons u <$> from_utf16 units
      else if 0xdc00 <=? u then None
      else match units with
      | u2 :: units =>
          if (0xdc00 <=? u2) && (u2 <=? 0xdfff)
          then cons (Z.lor (Z.shiftl (Z.land u 0x3ff) 10) (Z.land u2 0x3ff) + 0x10000) <$> from_utf16 units
          else None
      | [] => None
      end
  end.

Definition unit_bytes (unit : Z) : list Z :=
  if (1 <=? unit) && (unit <=? 0x7f) then [unit]
  else if (0 <=? unit) && (unit <=? 0x7ff) then
    [Z.lor 0xc0 (Z.land (Z.shiftr unit 6) 0x1f); Z.lor 0x80 (Z.land unit 0x3f)]
  else [Z.lor 0xe0 (Z.land (Z.shiftr unit 12) 0x0f); Z.lor 0x80 (Z.land (Z.shiftr unit 6) 0x3f);
        Z.lor 0x80 (Z.land unit 0x3f)].
Definition write_java_utf (value : Text) : WireResult (list Z) :=
  let bytes := mjoin (unit_bytes <$> encode_utf16 value) in
  if 65535 <? Z.of_nat (length bytes) then inl (InvalidData (UtfTooLong (Z.of_nat (length bytes))))
  else inr (write_u16 (Z.of_nat (length bytes)) ++ bytes).

Definition continues (b : Z) : bool := Z.land b 0xc0 =? 0x80.
(** The loop over the bytes of a string. *)
Fixpoint read_units (bytes : list Z) : WireResult (list Z) :=
  match bytes with
  | [] => inr []
  | first :: rest =>
      let lead := Z.shiftr first 4 in
      if (0 <=? lead) && (lead <=? 7) then units ← read_units rest; inr (first :: units)
      else if (lead =? 0xc) || (lead =? 0xd) then
        match rest with
        | second :: rest =>
            if negb (continues second) then inl (InvalidData BadContinuation)
            else units ← read_units rest;
                 inr (Z.lor (Z.shiftl (Z.land first 0x1f) 6) (Z.land second 0x3f) :: units)
        | [] => inl (InvalidData TruncatedUtf)
        end
      else if lead =? 0xe then
        match rest with
        | second :: third :: rest =>
            if negb (continues second) || negb (continues third) then inl (InvalidData BadContinuation)
            else units ← read_units rest;
                 inr (Z.lor (Z.lor (Z.shiftl (Z.land first 0x0f) 12) (Z.shiftl (Z.land second 0x3f) 6))
                        (Z.land third 0x3f) :: units)
        | _ => inl (InvalidData TruncatedUtf)
        end
      else inl (InvalidData (BadLeadByte first))
  end.
Definition read_java_utf : WireReader Text :=
  len ← read_u16;
  bytes ← read_exact (Z.to_nat len);
  units ← wire_lift (read_units bytes);
  wire_lift (match from_utf16 units with Some s => inr s | None => inl (InvalidData BadUtf16) end).

(** ** Endpoints *)

Definition write_endpoint (ep : Endpoint) : list Z :=
  match ep with
  | V4 ip port => [6] ++ write_be 4 ip ++ write_u16 port
  | V6 ip port _ _ => [18] ++ write_be 16 ip ++ write_u16 port
  end.
Definition read_endpoint : WireReader Endpoint :=
  size ← read_u8;
  if size =? 6 then
    bytes ← read_exact 4; port ← read_u16; mret (V4 (read_u bytes) port : Endpoint)
  else if size =? 18 then
    bytes ← read_exact 16; port ← read_u16; mret (V6 (read_u bytes) port 0 0 : Endpoint)
  else wire_lift (inl (InvalidData (UnsupportedEndpointSize size))).

(** ** Application states *)

Definition java_application_state_ordinal (s : ApplicationState) : WireResult Z :=
  match s with
  | Status => inr 0 | Load => inr 1 | SchemaVersion => inr 2 | Datacenter => inr 3 | Rack => inr 4
  | ReleaseVersion => inr 5 | RemovalCoordinator => inr 6 | InternalIp => inr 7 | RpcAddress => inr 8
  | X11Padding => inr 9 | Severity => inr 10 | NetVersion => inr 11 | HostId => inr 12 | Tokens => inr 13
  | RpcReady => inr 14 | InternalAddressAndPort => inr 15 | NativeAddressAndPort => inr 16
  | StatusWithPort => inr 17 | SstableVersions => inr 18 | DiskUsage => inr 19 | IndexStatus => inr 20
  | PaddingX1 => inr 21 | PaddingX2 => inr 22 | PaddingX3 => inr 23 | PaddingX4 => inr 24
  | PaddingX5 => inr 25 | PaddingX6 => inr 26 | PaddingX7 => inr 27 | PaddingX8 => inr 28
  | PaddingX9 => inr 29 | PaddingX10 => inr 30
  | TcmEpoch => inl (UnsupportedApplicationState (-1))
  end.
Definition application_state_from_java_ordinal (ordinal : Z) : WireResult ApplicationState :=
  match ordinal with
  | 0 => inr Status | 1 => inr Load | 2 => inr SchemaVersion | 3 => inr Datacenter | 4 => inr Rack
  | 5 => inr ReleaseVersion | 6 => inr RemovalCoordinator | 7 => inr InternalIp | 8 => inr RpcAddress
  | 9 => inr X11Padding | 10 => inr Severity | 11 => inr NetVersion | 12 => inr HostId | 13 => inr Tokens
  | 14 => inr RpcReady | 15 => inr InternalAddressAndPort | 16 => inr NativeAddressAndPort
  | 17 => inr StatusWithPort | 18 => inr SstableVersions | 19 => inr DiskUsage | 20 => inr IndexStatus
  | 21 => inr PaddingX1 | 22 => inr PaddingX2 | 23 => inr PaddingX3 | 24 => inr PaddingX4
  | 25 => inr PaddingX5 | 26 => inr PaddingX6 | 27 => inr PaddingX7 | 28 => inr PaddingX8
  | 29 => inr PaddingX9 | 30 => inr PaddingX10
  | other => inl (UnsupportedApplicationState other)
  end.

(** * Messages *)

(** [SocketAddr]'s order: V4 before V6, then field by field. *)
Definition addr_key (a : SocketAddr) : Z * (Z * (Z * (Z * Z))) :=
  match a with V4 ip port => (4, (ip, (port, (0, 0)))) | V6 ip port flow scope => (6, (ip, (port, (flow, scope)))) end.

(** A loop that writes the elements of a list one after the other. *)
Fixpoint write_all {A} (write : A -> WireResult (list Z)) (l : list A) : WireResult (list Z) :=
  match l with
  | [] => inr []
  | a :: l => bytes ← write a; rest ← write_all write l; inr (bytes ++ rest)
  end.
Fixpoint read_all {A} (count : nat) (read : WireReader A) : WireReader (list A) :=
  match count with
  | O => mret []
  | S count => a ← read; l ← read_all count read; mret (a :: l)
  end.

Definition write_digest (digest : GossipDigest) : WireResult (list Z) :=
  gen ← checked_i32 (digest_generation digest);
  max ← checked_i32 (digest_max_version digest);
  inr (write_endpoint (digest_endpoint digest) ++ write_i32 gen ++ write_i32 max).
Definition read_digest : WireReader GossipDigest :=
  endpoint ← read_endpoint;
  gen ← read_i32;
  max ← read_i32;
  mret (mkGossipDigest endpoint gen max).

Definition MIN_IPV4_ENDPOINT_BYTES : Z := 1 + 4 + 2.
Definition MIN_DIGEST_BYTES : Z := MIN_IPV4_ENDPOINT_BYTES + 4 + 4.
Definition MIN_ENDPOINT_STATE_BYTES : Z := 4 + 4 + 4.
Definition MIN_STATE_MAP_ENTRY_BYTES : Z := MIN_IPV4_ENDPOINT_BYTES + MIN_ENDPOINT_STATE_BYTES.
Definition MIN_APPLICATION_STATE_BYTES : Z := 4 + 2 + 4.

Definition write_digest_list (digests : list GossipDigest) : WireResult (list Z) :=
  count ← checked_i32 (Z.of_nat (length digests));
  bytes ← write_all write_digest digests;
  inr (write_i32 count ++ bytes).
Definition read_digest_list : WireReader (list GossipDigest) :=
  count ← read_count MIN_DIGEST_BYTES; read_all count read_digest.

Definition write_app_state (p : ApplicationState * VersionedValue) : WireResult (list Z) :=
  ordinal ← java_application_state_ordinal p.1;
  value ← write_java_utf (vv_value p.2);
  version ← checked_i32 (vv_version p.2);
  inr (write_i32 ordinal ++ value ++ write_i32 version).
Definition read_app_state : WireReader (ApplicationState * VersionedValue) :=
  ordinal ← read_i32;
  key ← wire_lift (application_state_from_java_ordinal ordinal);
  value ← read_java_utf;
  version ← read_i32;
  mret (key, mkVersionedValue version value).
Definition ordinal_key (p : ApplicationState * VersionedValue) : Z :=
  match java_application_state_ordinal p.1 with inr o => o | inl _ => i32_MAX end.

Definition write_endpoint_state (state : EndpointState) : WireResult (list Z) :=
  gen ← checked_i32 (generation (heartbeat state));
  version ← checked_i32 (hb_version (heartbeat state));
  count ← checked_i32 (Z.of_nat (length (entries (application_states state))));
  bytes ← write_all write_app_state
    (sort_by (fun p q => cmp (ordinal_key p) (ordinal_key q)) (entries (application_states state)));
  inr (write_i32 gen ++ write_i32 version ++ write_i32 count ++ bytes).
Definition read_endpoint_state : WireReader EndpointState :=
  gen ← read_i32;
  version ← read_i32;
  count ← read_count MIN_APPLICATION_STATE_BYTES;
  l ← read_all count read_app_state;
  mret (mkEndpointState (mkHeartbeatState gen version) (insert_all ∅ l)).

Definition write_state_entry (p : Endpoint * EndpointState) : WireResult (list Z) :=
  bytes ← write_endpoint_state p.2; inr (write_endpoint p.1 ++ bytes).
Definition read_state_entry : WireReader (Endpoint * EndpointState) :=
  endpoint ← read_endpoint; state ← read_endpoint_state; mret (endpoint, state).
Definition write_state_map (states : gmap Endpoint EndpointState) : WireResult (list Z) :=
  count ← checked_i32 (Z.of_nat (size states));
  bytes ← write_all write_state_entry
    (sort_by (fun p q => cmp (addr_key p.1) (addr_key q.1)) (map_to_list states));
  inr (write_i32 count ++ bytes).
Definition read_state_map : WireReader (gmap Endpoint EndpointState) :=
  count ← read_count MIN_STATE_MAP_ENTRY_BYTES;
  l ← read_all count read_state_entry;
  mret (foldl (fun states p => <[p.1 := p.2]> states) ∅ l).

Definition DEFAULT_PARTITIONER : Text := text "org.apache.cassandra.dht.Murmur3Partitioner".

(** A reader over a whole payload. *)
Definition read_payload {A} (read : WireReader A) (input : list Z) : WireResult A :=
  match read input with
  | inl e => inl e
  | inr (a, cursor) => match ensure_consumed cursor with inl e => inl e | inr _ => inr a end
  end.

Definition encode_digest (digest : GossipDigest) : WireResult (list Z) := write_digest digest.
Definition decode_digest : list Z -> WireResult GossipDigest := read_payload read_digest.
Definition encode_syn (syn : GossipDigestSyn) : WireResult (list Z) :=
  cluster ← write_java_utf (cluster_id syn);
  partitioner ← write_java_utf DEFAULT_PARTITIONER;
  bytes ← write_digest_list (digests syn);
  inr (cluster ++ partitioner ++ bytes).
Definition decode_syn : list Z -> WireResult GossipDigestSyn :=
  read_payload (
    cluster_id ← read_java_utf;
    _ ← read_java_utf;
    digests ← read_digest_list;
    mret (mkGossipDigestSyn cluster_id digests)).
Definition encode_ack (ack : GossipDigestAck) : WireResult (list Z) :=
  stale ← write_digest_list (stale_digests ack);
  updated ← write_state_map (updated_states ack);
  inr (stale ++ updated).
Definition decode_ack : list Z -> WireResult GossipDigestAck :=
  read_payload (
    stale ← read_digest_list;
    updated ← read_state_map;
    mret (mkGossipDigestAck stale updated)).
Definition encode_ack2 (ack2 : GossipDigestAck2) : WireResult (list Z) := write_state_map (updated_states2 ack2).
Definition decode_ack2 : list Z -> WireResult GossipDigestAck2 :=
  read_payload (updated ← read_state_map; mret (mkGossipDigestAck2 updated)).

(** * Handlers *)

(** The message a handler returns; [request_id] is the id of the request. *)
Inductive FailureText :=
| BadSynPayload (e : GossipWireError)
| ClusterNameMismatch (expected received : Text)
| BadAckPayload (e : GossipWireError)
| BadAck2Payload (e : GossipWireError).
Inductive GossipReply :=
| ResponseAck (request_id : Z) (payload : list Z)
| ResponseAck2 (request_id : Z) (payload : list Z)
| Failure (request_id : Z) (text : FailureText)
| NoReply.

Section Handlers.
Context {D : Type} `{FailureDetector D}.
Implicit Types g : Gossiper D.

Definition syn_handler (now : Z) g (request_id : Z) (payload : list Z) : GossipReply :=
  match decode_syn payload with
  | inl e => Failure request_id (BadSynPayload e)
  | inr syn =>
      if bool_decide (cluster_id syn <> cluster_name g)
      then Failure request_id (ClusterNameMismatch (cluster_name g) (cluster_id syn))
      else match encode_ack (Gossiper_handle_syn now g syn) with
      | inr payload => ResponseAck request_id payload
      | inl e => Failure request_id (BadAckPayload e)
      end
  end.
Definition ack_handler (now : Z) g (request_id : Z) (payload : list Z) : Gossiper D * GossipReply :=
  match decode_ack payload with
  | inl e => (g, Failure request_id (BadAckPayload e))
  | inr ack =>
      let '(g, ack2) := Gossiper_handle_ack now g ack in
      (g, match encode_ack2 ack2 with
          | inr payload => ResponseAck2 request_id payload
          | inl e => Failure request_id (BadAck2Payload e)
          end)
  end.
Definition ack2_handler (now : Z) g (payload : list Z) : Gossiper D * GossipReply :=
  match decode_ack2 payload with
  | inl e => (g, NoReply)
  | inr ack2 => (Gossiper_handle_ack2 now g ack2, NoReply)
  end.

(** The exchange of [do_one_round] with a target that answers: the payload of a
    failure is decoded as an ACK as well, [failure_payload] being its text. *)
Definition exchange_round (now : Z) (failure_payload : FailureText -> list Z) (a b : Gossiper D) (msg_id : Z) :
    Gossiper D * Gossiper D :=
  match encode_syn (Gossiper_make_gossip_digest_syn a) with
  | inl _ => (a, b)
  | inr syn_payload =>
      let ack_payload := match syn_handler now b msg_id syn_payload with
                         | ResponseAck _ payload | ResponseAck2 _ payload => payload
                         | Failure _ text => failure_payload text
                         | NoReply => []
                         end in
      match decode_ack ack_payload with
      | inl _ => (a, b)
      | inr ack =>
          let '(a, ack2) := Gossiper_handle_ack now a ack in
          match encode_ack2 ack2 with
          | inr payload => (a, (ack2_handler now b payload).1)
          | inl _ => (a, b)
          end
      end
  end.
End Handlers.

(** * Strings *)

(** The scalar values that a [char] ranges over. *)
Definition is_char (c : Z) : Prop := 0 <= c < 0xd800 \/ 0xe000 <= c < 0x110000.
Definition text_ok (s : Text) : Prop := Forall is_char s.

Lemma land_0f x : Z.land x 0x0f = x mod 16.
Proof. apply (Z.land_ones x 4). lia. Qed.
Lemma land_1f x : Z.land x 0x1f = x mod 32.
Proof. apply (Z.land_ones x 5). lia. Qed.
Lemma land_3f x : Z.land x 0x3f = x mod 64.
Proof. apply (Z.land_ones x 6). lia. Qed.
Lemma land_3ff x : Z.land x 0x3ff = x mod 1024.
Proof. apply (Z.land_ones x 10). lia. Qed.
Ltac div_lia := Z.to_euclidean_division_equations; lia.

Lemma char_units_decode c rest :
  is_char c -> from_utf16 (char_units c ++ rest) = cons c <$> from_utf16 rest.
Proof.
  intros Hc. unfold char_units. destruct (Z.ltb_spec c 0x10000) as [Hlt|Hge]; simpl.
  - assert ((c <? 0xd800) || (0xdfff <? c) = true) as ->; [|done].
    unfold is_char in Hc. apply orb_true_iff. rewrite !Z.ltb_lt. lia.
  - assert (0 <= c - 0x10000 < 0x100000) as Hd by (unfold is_char in *; lia). revert Hd.
    assert (c - 0x10000 + 0x10000 = c) as Ec by lia. revert Ec. generalize (c - 0x10000). intros d <- Hd.
    rewrite !land_3ff, Z.shiftr_div_pow2 by lia. change (2 ^ 10) with 1024.
    assert (0 <= d / 1024 < 1024) as Hh by div_lia. assert (0 <= d mod 1024 < 1024) as Hl by div_lia.
    rewrite (proj2 (orb_false_iff _ _)) by (rewrite !Z.ltb_ge; lia).
    rewrite (proj2 (Z.leb_gt _ _)) by lia.
    rewrite (proj2 (andb_true_iff _ _)) by (rewrite !Z.leb_le; lia).
    rewrite Z.shiftl_mul_pow2 by lia. rewrite lor_add by div_lia. change (2 ^ 10) with 1024.
    do 2 f_equal. div_lia.
Qed.

Lemma utf16_roundtrip s : text_ok s -> from_utf16 (encode_utf16 s) = Some s.
Proof.
  induction 1 as [|c s Hc _ IH]; [done|]. unfold encode_utf16 in *. rewrite fmap_cons, mjoin_cons.
  rewrite char_units_decode, IH by done. done.
Qed.

Lemma continues_3f x : continues (Z.lor 0x80 (Z.land x 0x3f)) = true.
Proof.
  unfold continues. rewrite Z.land_lor_distr_l, <- Z.land_assoc. by rewrite Z.land_0_r.
Qed.

Lemma unit_decode u rest :
  0 <= u < 65536 -> read_units (unit_bytes u ++ rest) = units ← read_units rest; inr (u :: units).
Proof.
  intros Hu. unfold unit_bytes.
  destruct ((1 <=? u) && (u <=? 0x7f)) eqn:E1; bool_to_prop.
  { simpl. rewrite Z.shiftr_div_pow2 by lia. by rewrite (proj2 (andb_true_iff _ _)) by (rewrite !Z.leb_le; div_lia). }
  destruct ((0 <=? u) && (u <=? 0x7ff)) eqn:E2; bool_to_prop; cbn [app read_units]; rewrite !continues_3f; cbn [negb orb];
    rewrite !Z.shiftr_div_pow2, !Z.shiftl_mul_pow2, ?land_0f, ?land_1f, !land_3f by lia.
  - replace (Z.lor 0xc0 _) with (192 + (u / 2 ^ 6) mod 32) by (symmetry; apply (lor_add 6 3); div_lia).
    replace (Z.lor 0x80 _) with (128 + u mod 64) by (symmetry; apply (lor_add 6 2); div_lia).
    rewrite (proj2 (andb_false_iff _ _)) by (right; rewrite Z.leb_gt; div_lia).
    rewrite (proj2 (orb_true_iff _ _)) by (rewrite !Z.eqb_eq; div_lia).
    rewrite lor_add by div_lia. destruct (read_units rest); simpl; [done|]. do 2 f_equal. div_lia.
  - replace (Z.lor 0xe0 _) with (224 + (u / 2 ^ 12) mod 16) by (symmetry; apply (lor_add 5 7); div_lia).
    replace (Z.lor 0x80 ((u / 2 ^ 6) mod 64)) with (128 + (u / 2 ^ 6) mod 64) by (symmetry; apply (lor_add 6 2); div_lia).
    replace (Z.lor 0x80 (u mod 64)) with (128 + u mod 64) by (symmetry; apply (lor_add 6 2); div_lia).
    rewrite (proj2 (andb_false_iff _ _)) by (right; rewrite Z.leb_gt; div_lia).
    rewrite (proj2 (orb_false_iff _ _)) by (rewrite !Z.eqb_neq; div_lia).
    rewrite (proj2 (Z.eqb_eq _ _)) by div_lia.
    rewrite <- Z.lor_assoc, (lor_add 6), (lor_add 12) by div_lia.
    destruct (read_units rest); simpl; [done|]. do 2 f_equal. div_lia.
Qed.

Lemma units_decode units :
  Forall (fun u => 0 <= u < 65536) units -> read_units (mjoin (unit_bytes <$> units)) = inr units.
Proof.
  induction 1 as [|u units Hu _ IH]; [done|]. rewrite fmap_cons, mjoin_cons, unit_decode, IH by done. done.
Qed.

Lemma encode_utf16_range s : text_ok s -> Forall (fun u => 0 <= u < 65536) (encode_utf16 s).
Proof.
  induction 1 as [|c s Hc _ IH]; [done|]. unfold encode_utf16 in *. rewrite fmap_cons, mjoin_cons.
  apply Forall_app. split; [|done]. unfold char_units. unfold is_char in Hc.
  destruct (Z.ltb_spec c 0x10000); [repeat constructor; lia|].
  rewrite land_3ff, Z.shiftr_div_pow2 by lia. repeat constructor; div_lia.
Qed.

(** * Reading what was written *)

Definition takes {A} (m : WireReader A) (v : A) (b : list Z) : Prop := forall rest, m (b ++ rest) = inr (v, rest).

Lemma takes_ret {A} (v : A) : takes (mret v) v [].
Proof. done. Qed.
Lemma takes_bind {A B} (m : WireReader A) (f : A -> WireReader B) v w b c :
  takes m v b -> takes (f v) w c -> takes (m ≫= f) w (b ++ c).
Proof. intros Hm Hf rest. unfold mbind, WireReader_bind. rewrite <- app_assoc, Hm. apply Hf. Qed.
Lemma takes_last {A B} (m : WireReader A) (f : A -> WireReader B) v w b :
  takes m v b -> takes (f v) w [] -> takes (m ≫= f) w b.
Proof. intros Hm Hf. rewrite <- (app_nil_r b). by eapply takes_bind. Qed.
Lemma takes_map {A B} (m : WireReader A) (f : A -> B) v b : takes m v b -> takes (a ← m; mret (f a)) (f v) b.
Proof. intros Hm. eapply takes_last; [exact Hm|apply takes_ret]. Qed.
Lemma takes_lift {A B} (r : WireResult A) (f : A -> WireReader B) v w b :
  r = inr v -> takes (f v) w b -> takes (wire_lift r ≫= f) w b.
Proof. intros -> Hf rest. apply Hf. Qed.

Lemma takes_exact n b : length b = n -> takes (read_exact n) b b.
Proof.
  intros Hlen rest. unfold read_exact. rewrite length_app, (proj2 (Nat.ltb_ge _ _)) by lia.
  by rewrite take_field, drop_field_0.
Qed.
Lemma takes_i32 v : in_s 32 v -> takes read_i32 v (write_i32 v).
Proof.
  intros Hv. rewrite <- (read_s_write 4 v) at 1 by (done || lia). apply (takes_map _ read_s), takes_exact, length_write_be.
Qed.
Lemma takes_u n v : in_u (8 * Z.of_nat n) v -> takes (bytes ← read_exact n; mret (read_u bytes)) v (write_be n v).
Proof.
  intros Hv. rewrite <- (read_u_write n v Hv) at 1. apply (takes_map _ read_u), takes_exact, length_write_be.
Qed.

Lemma checked_i32_inv v w : checked_i32 v = inr w -> v = w /\ in_s 32 v.
Proof.
  unfold checked_i32, i32_MIN, i32_MAX, in_s. case_match eqn:E; [|done]. intros [= <-]. bool_to_prop. lia.
Qed.

Lemma takes_utf s b : text_ok s -> write_java_utf s = inr b -> takes read_java_utf s b /\ (2 <= length b)%nat.
Proof.
  intros Hs. unfold write_java_utf. set (bytes := mjoin (unit_bytes <$> encode_utf16 s)).
  destruct (Z.ltb_spec 65535 (Z.of_nat (length bytes))); [done|]. intros E.
  apply (inj inr) in E as <-. split; [|rewrite length_app; unfold write_u16; rewrite length_write_be; lia].
  eapply takes_bind; [apply (takes_u 2); unfold in_u; lia|].
  eapply takes_last; [apply takes_exact; lia|].
  eapply takes_lift; [by apply units_decode, encode_utf16_range|]. intros rest. by rewrite utf16_roundtrip.
Qed.

(** Endpoints with a plain address: a V6 address has neither a flow label nor a scope. *)
Definition endpoint_ok (ep : Endpoint) : Prop :=
  match ep with
  | V4 ip port => in_u 32 ip /\ in_u 16 port
  | V6 ip port flow scope => in_u 128 ip /\ in_u 16 port /\ flow = 0 /\ scope = 0
  end.

Lemma takes_endpoint ep : endpoint_ok ep -> takes read_endpoint ep (write_endpoint ep) /\ (7 <= length (write_endpoint ep))%nat.
Proof.
  intros Hep. split; [|destruct ep; unfold write_endpoint, write_u16; rewrite !length_app, !length_write_be; simpl; lia].
  assert (forall z, in_u 8 z -> takes read_u8 z [z]) as H8.
  { intros z Hz. replace [z] with (write_be 1 z); [by apply (takes_u 1)|].
    unfold write_be. simpl. unfold in_u in Hz. by rewrite Z.div_1_r, Z.mod_small by lia. }
  destruct ep as [ip port|ip port flow scope]; cbn [endpoint_ok write_endpoint] in *.
  - destruct Hep as [Hip Hport]. eapply takes_bind; [by apply H8|]. cbn [Z.eqb Pos.eqb].
    rewrite <- (read_u_write 4 ip) at 1 by done. eapply takes_bind; [apply takes_exact, length_write_be|].
    apply (takes_map _ (fun p => V4 (read_u (write_be 4 ip)) p : Endpoint)). by apply (takes_u 2).
  - destruct Hep as (Hip & Hport & -> & ->). eapply takes_bind; [by apply H8|]. cbn [Z.eqb Pos.eqb].
    rewrite <- (read_u_write 16 ip) at 1 by done. eapply takes_bind; [apply takes_exact, length_write_be|].
    apply (takes_map _ (fun p => V6 (read_u (write_be 16 ip)) p 0 0 : Endpoint)). by apply (takes_u 2).
Qed.

(** ** Lists with their counts *)

Lemma write_all_inv {A} (write : A -> WireResult (list Z)) l b :
  write_all write l = inr b -> exists bs, Forall2 (fun a b => write a = inr b) l bs /\ b = mjoin bs.
Proof.
  revert b. induction l as [|a l IH]; intros b; simpl; [intros [= <-]; exists []; split; [constructor|done]|].
  destruct (write a) as [e|x] eqn:Ha; [done|]. simpl. destruct (write_all write l) as [e|y]; [done|]. simpl.
  intros [= <-]. destruct (IH y eq_refl) as (bs & Hbs & ->). exists (x :: bs). split; [by constructor|done].
Qed.

Lemma takes_counted {A} (read : WireReader A) (write : A -> WireResult (list Z)) (min : Z) l b :
  0 < min -> in_s 32 (Z.of_nat (length l)) ->
  Forall (fun a => forall b, write a = inr b -> takes read a b /\ min <= Z.of_nat (length b)) l ->
  write_all write l = inr b ->
  takes (count ← read_count min; read_all count read) l (write_i32 (Z.of_nat (length l)) ++ b).
Proof.
  intros Hmin Hlen Hl (bs & Hbs & ->)%write_all_inv.
  assert (takes (read_all (length l) read) l (mjoin bs) /\ Z.of_nat (length l) * min <= Z.of_nat (length (mjoin bs)))
    as [Ht Hsize].
  { clear Hlen. induction Hbs as [|a x l bs Ha _ IH]; [by split; [apply takes_ret|simpl; lia]|].
    apply Forall_cons in Hl as [Hr Hl]. destruct (Hr x Ha) as [Hx Hxl]. destruct (IH Hl) as [Ht Hs].
    rewrite mjoin_cons, length_app. split; [|simpl; lia]. simpl.
    eapply takes_bind; [exact Hx|]. by apply (takes_map _ (cons a)). }
  intros rest. unfold read_count, mbind, WireReader_bind. rewrite <- app_assoc, takes_i32 by done.
  rewrite (proj2 (Z.ltb_ge _ _)) by lia. rewrite (proj2 (andb_false_iff _ _)).
  - rewrite Nat2Z.id. apply Ht.
  - right. rewrite Z.ltb_ge. apply Z.div_le_lower_bound; [lia|]. rewrite length_app. lia.
Qed.

(** ** Messages *)

Ltac wire_inv :=
  repeat lazymatch goal with
  | H : mbind _ ?m = inr _ |- _ =>
      let E := fresh "E" in destruct m eqn:E; [discriminate H|]; cbn [mbind WireResult_bind] in H
  | H : checked_i32 _ = inr _ |- _ => apply checked_i32_inv in H as [<- H]
  | H : inr _ = inr _ |- _ => apply (inj inr) in H as <-
  end.

Lemma takes_digest d b :
  endpoint_ok (digest_endpoint d) -> write_digest d = inr b ->
  takes read_digest d b /\ MIN_DIGEST_BYTES <= Z.of_nat (length b).
Proof.
  intros He Hw. unfold write_digest in Hw. wire_inv. destruct (takes_endpoint _ He) as [Ht Hl]. split.
  - destruct d as [ep gen max]. eapply takes_bind; [exact Ht|]. eapply takes_bind; [by apply takes_i32|].
    by apply (takes_map _ (mkGossipDigest ep gen)), takes_i32.
  - unfold write_i32. rewrite !length_app, !length_write_be. unfold MIN_DIGEST_BYTES, MIN_IPV4_ENDPOINT_BYTES. lia.
Qed.

Lemma takes_digest_list l b :
  Forall (fun d => endpoint_ok (digest_endpoint d)) l -> write_digest_list l = inr b -> takes read_digest_list l b.
Proof.
  intros Hl Hw. unfold write_digest_list in Hw. wire_inv.
  eapply (takes_counted read_digest write_digest); [done|done| |done].
  eapply Forall_impl; [exact Hl|]. intros d Hd b. by apply takes_digest.
Qed.

Lemma ordinal_roundtrip s o : java_application_state_ordinal s = inr o -> application_state_from_java_ordinal o = inr s /\ in_s 32 o.
Proof. destruct s; intros [= <-]; done. Qed.

Lemma takes_app_state p b :
  text_ok (vv_value p.2) -> write_app_state p = inr b ->
  takes read_app_state p b /\ MIN_APPLICATION_STATE_BYTES <= Z.of_nat (length b).
Proof.
  intros Hs Hw. unfold write_app_state in Hw. wire_inv. destruct p as [key [version value]]; cbn [fst snd vv_value vv_version] in *.
  destruct (ordinal_roundtrip _ _ E) as [Ho Hr]. destruct (takes_utf _ _ Hs E0) as [Ht Hl]. split.
  - eapply takes_bind; [by apply takes_i32|]. eapply takes_lift; [done|]. eapply takes_bind; [exact Ht|].
    by apply (takes_map _ (fun v => (key, mkVersionedValue v value))), takes_i32.
  - unfold write_i32. rewrite !length_app, !length_write_be. unfold MIN_APPLICATION_STATE_BYTES. lia.
Qed.

Definition state_ok (s : EndpointState) : Prop :=
  forall key v, application_states s !! key = Some v -> text_ok (vv_value v).

(** The order in which the entries are written does not matter. *)
Lemma insert_all_permuted (m : AppStates) l : l ≡ₚ entries m -> insert_all ∅ l = m.
Proof.
  intros Hp. assert (NoDup l.*1) as Hnd by (rewrite Hp; apply keys_NoDup). apply map_eq. intros k.
  destruct (m !! k) as [v|] eqn:E.
  - apply lookup_insert_all_in; [done|]. rewrite Hp. by apply ordmap_elem.
  - rewrite lookup_insert_all_out; [apply lookup_empty|]. rewrite Hp.
    change ((entries m).*1) with (keys m). rewrite elem_of_keys, E. by intros [? ?].
Qed.

Lemma takes_endpoint_state s b :
  state_ok s -> write_endpoint_state s = inr b ->
  takes read_endpoint_state s b /\ MIN_ENDPOINT_STATE_BYTES <= Z.of_nat (length b).
Proof.
  intros Hs Hw. unfold write_endpoint_state in Hw. wire_inv.
  set (sorted := sort_by _ (entries (application_states s))) in *.
  assert (sorted ≡ₚ entries (application_states s)) as Hp by apply sort_by_perm.
  assert (length (entries (application_states s)) = length sorted) as El by by rewrite Hp.
  rewrite El in *. split.
  - assert (takes (count ← read_count MIN_APPLICATION_STATE_BYTES; read_all count read_app_state) sorted
      (write_i32 (Z.of_nat (length sorted)) ++ l)) as Ht.
    { eapply (takes_counted read_app_state write_app_state); [done|done| |done].
      apply Forall_forall. intros [k v] Hin b. apply takes_app_state. simpl. apply (Hs k).
      apply ordmap_elem. by rewrite <- Hp. }
    destruct s as [[gen version] states]; cbn [heartbeat generation hb_version application_states] in *.
    eapply takes_bind; [by apply takes_i32|]. eapply takes_bind; [by apply takes_i32|].
    intros rest. specialize (Ht rest). unfold mbind, WireReader_bind in Ht |- *.
    destruct (read_count MIN_APPLICATION_STATE_BYTES _) as [|[count input]]; [done|]. rewrite Ht.
    unfold mret, WireReader_ret. by rewrite (insert_all_permuted states).
  - unfold write_i32. rewrite !length_app, !length_write_be. unfold MIN_ENDPOINT_STATE_BYTES. lia.
Qed.

Lemma foldl_insert_permuted (m : gmap Endpoint EndpointState) l :
  l ≡ₚ map_to_list m -> foldl (fun states p => <[p.1 := p.2]> states) ∅ l = m.
Proof.
  intros Hp. assert (NoDup l.*1) as Hnd by (rewrite Hp; apply NoDup_fst_map_to_list). apply map_eq. intros k.
  rewrite (keyed_loop_find (fun (m : gmap Endpoint EndpointState) k => m !! k) _ (fun _ _ v => Some v) (fun _ => True)
    ltac:(done)) with (find := fun k => m !! k).
  - rewrite lookup_empty. by destruct (m !! k).
  - intros s p k' _. case_decide; simplify_map_eq; done.
  - intros k' a. rewrite Hp. apply elem_of_map_to_list.
  - done.
  - done.
Qed.

Definition states_ok (m : gmap Endpoint EndpointState) : Prop :=
  forall ep s, m !! ep = Some s -> endpoint_ok ep /\ state_ok s.

Lemma takes_state_map m b : states_ok m -> write_state_map m = inr b -> takes read_state_map m b.
Proof.
  intros Hm Hw. unfold write_state_map in Hw. wire_inv.
  set (sorted := sort_by _ (map_to_list m)) in *.
  assert (sorted ≡ₚ map_to_list m) as Hp by apply sort_by_perm.
  assert (size m = length sorted) as El by by rewrite Hp, length_map_to_list.
  rewrite El in *.
  assert (takes (count ← read_count MIN_STATE_MAP_ENTRY_BYTES; read_all count read_state_entry) sorted
    (write_i32 (Z.of_nat (length sorted)) ++ l)) as Ht.
  { eapply (takes_counted read_state_entry write_state_entry); [done|done| |done].
    apply Forall_forall. intros [ep s] Hin b Hb. rewrite Hp in Hin. apply elem_of_map_to_list, Hm in Hin as [Hep Hs].
    unfold write_state_entry in Hb. wire_inv. cbn [fst snd] in *. destruct (takes_endpoint _ Hep) as [T1 L1].
    destruct (takes_endpoint_state _ _ Hs E1) as [T2 L2]. split.
    - eapply takes_bind; [exact T1|]. by apply (takes_map _ (pair ep)).
    - rewrite length_app. unfold MIN_STATE_MAP_ENTRY_BYTES, MIN_IPV4_ENDPOINT_BYTES. lia. }
  intros rest. specialize (Ht rest). unfold read_state_map, mbind, WireReader_bind in Ht |- *.
  destruct (read_count MIN_STATE_MAP_ENTRY_BYTES _) as [|[count input]]; [done|]. rewrite Ht.
  unfold mret, WireReader_ret. by rewrite (foldl_insert_permuted m).
Qed.

(** ** What can be written *)

Definition utf_length (s : Text) : Z := Z.of_nat (length (mjoin (unit_bytes <$> encode_utf16 s))).

(** The values fit Java's types, and none is of a kind Java does not have. *)
Definition state_fits (s : EndpointState) : Prop :=
  in_s 32 (generation (heartbeat s)) /\ in_s 32 (hb_version (heartbeat s))
  /\ forall key v, application_states s !! key = Some v ->
       key <> TcmEpoch /\ in_s 32 (vv_version v) /\ text_ok (vv_value v) /\ utf_length (vv_value v) <= 65535.
Definition states_fit (m : gmap Endpoint EndpointState) : Prop :=
  forall ep s, m !! ep = Some s -> endpoint_ok ep /\ state_fits s.

Lemma states_fit_ok m : states_fit m -> states_ok m.
Proof. intros Hm ep s Hs. destruct (Hm ep s Hs) as (He & _ & _ & Hv). split; [done|]. intros key v Hk. by apply (Hv key). Qed.

Lemma checked_i32_ok v : in_s 32 v -> checked_i32 v = inr v.
Proof.
  unfold in_s, checked_i32, i32_MIN, i32_MAX. simpl. intros Hv.
  by rewrite (proj2 (andb_true_iff _ _)) by (rewrite !Z.leb_le; lia).
Qed.

Lemma write_all_ok {A} (write : A -> WireResult (list Z)) l :
  Forall (fun a => exists b, write a = inr b) l -> exists b, write_all write l = inr b.
Proof. induction 1 as [|a l [b Hb] _ [c Hc]]; [by eexists|]. simpl. rewrite Hb. simpl. rewrite Hc. by eexists. Qed.

Lemma write_utf_ok s : utf_length s <= 65535 -> exists b, write_java_utf s = inr b.
Proof.
  intros Hs. unfold write_java_utf, utf_length in *. rewrite (proj2 (Z.ltb_ge _ _)) by lia. by eexists.
Qed.

Lemma write_digests_ok l :
  Z.of_nat (length l) < 2 ^ 31 -> Forall (fun d => in_s 32 (digest_generation d) /\ in_s 32 (digest_max_version d)) l ->
  exists b, write_digest_list l = inr b.
Proof.
  intros Hlen Hl. unfold write_digest_list. rewrite checked_i32_ok by (unfold in_s; lia). cbn [mbind WireResult_bind].
  destruct (write_all_ok write_digest l) as [b ->]; [|by eexists].
  eapply Forall_impl; [exact Hl|]. intros d [Hg Hm]. unfold write_digest. rewrite !checked_i32_ok by done. by eexists.
Qed.

Lemma app_states_count (m : AppStates) : (length (entries m) <= 32)%nat.
Proof.
  assert (length (keys m) <= length (seqZ 0 32))%nat as Hl; [|by unfold keys in Hl; rewrite length_fmap in Hl].
  rewrite <- (length_fmap ApplicationState_index). apply submseteq_length, NoDup_submseteq.
  - apply NoDup_fmap_2; [apply _|apply keys_NoDup].
  - intros z ([] & -> & _)%list_elem_of_fmap; by apply elem_of_seqZ.
Qed.

Lemma write_endpoint_state_ok s : state_fits s -> exists b, write_endpoint_state s = inr b.
Proof.
  intros (Hg & Hh & Hv). unfold write_endpoint_state. pose proof (app_states_count (application_states s)).
  rewrite !checked_i32_ok by (done || unfold in_s; lia). cbn [mbind WireResult_bind].
  match goal with |- context [write_all write_app_state ?l] => destruct (write_all_ok write_app_state l) as [b ->]; [|by eexists] end.
  apply Forall_forall. intros [key v]. rewrite sort_by_perm. intros Hin. apply ordmap_elem, Hv in Hin as (Hk & Hr & _ & Hu).
  unfold write_app_state. cbn [fst snd]. destruct (write_utf_ok _ Hu) as [b ->].
  destruct (java_application_state_ordinal key) eqn:E; [by destruct key|]. cbn [mbind WireResult_bind].
  rewrite checked_i32_ok by done. by eexists.
Qed.

Lemma write_state_map_ok m : states_fit m -> Z.of_nat (size m) < 2 ^ 31 -> exists b, write_state_map m = inr b.
Proof.
  intros Hm Hs. unfold write_state_map. rewrite checked_i32_ok by (unfold in_s; lia). cbn [mbind WireResult_bind].
  match goal with |- context [write_all write_state_entry ?l] => destruct (write_all_ok write_state_entry l) as [b ->]; [|by eexists] end.
  apply Forall_forall. intros [ep s]. rewrite sort_by_perm. intros Hin. apply elem_of_map_to_list, Hm in Hin as [_ Hf].
  unfold write_state_entry. cbn [fst snd]. destruct (write_endpoint_state_ok s Hf) as [b ->]. by eexists.
Qed.

Lemma delta_fits s since : state_fits s -> state_fits (Gossiper_extract_delta s since).
Proof.
  intros (Hg & Hh & Hv). split_and!; [done|done|]. intros key v. rewrite lookup_delta.
  destruct (application_states s !! key) as [w|] eqn:E; simpl; [|done]. case_match; [|done]. intros [= <-]. by apply Hv.
Qed.

Lemma receive_fits known r :
  (forall s, known = Some s -> state_fits s) -> state_fits r -> state_fits (Gossiper_receive_state known r).
Proof.
  intros Hk Hr. destruct known as [l|]; [|done]. specialize (Hk l eq_refl). simpl. repeat case_match; try done.
  destruct (merge_state_spec l r) as [Hh Ha]. destruct Hk as (K1 & K2 & K3), Hr as (R1 & R2 & R3).
  split_and!; rewrite ?Hh; simpl; [done|unfold in_s in *; lia|].
  intros key v. rewrite Ha. intros [Hv|Hv]%newer_value_cases; eauto.
Qed.

Lemma max_version_fits s : state_fits s -> in_s 32 (EndpointState_max_version s).
Proof.
  intros (_ & Hh & Hv). pose proof (max_version_hb s). unfold in_s in *. split; [lia|].
  enough (EndpointState_max_version s <= 2 ^ (32 - 1) - 1) by lia.
  apply max_version_bound; [lia|lia|]. intros key v Hk. destruct (Hv key v Hk) as (_ & ? & _). lia.
Qed.

Lemma read_payload_takes {A} (m : WireReader A) v b : takes m v b -> read_payload m b = inr v.
Proof. intros Hm. unfold read_payload. rewrite <- (app_nil_r b), Hm. done. Qed.

Definition digests_ok (l : list GossipDigest) : Prop := Forall (fun d => endpoint_ok (digest_endpoint d)) l.

Lemma syn_roundtrip syn b :
  text_ok (cluster_id syn) -> digests_ok (digests syn) -> encode_syn syn = inr b -> decode_syn b = inr syn.
Proof.
  intros Hc Hd Hw. apply read_payload_takes. unfold encode_syn in Hw. wire_inv. destruct syn as [cluster digests].
  eapply takes_bind; [by eapply takes_utf|]. eapply takes_bind; [eapply takes_utf; [|exact E0]|].
  - unfold DEFAULT_PARTITIONER, text_ok. eapply Forall_impl; [apply string_bytes_ok|]. unfold in_u, is_char. simpl. lia.
  - by apply (takes_map _ (mkGossipDigestSyn cluster)), takes_digest_list.
Qed.

Lemma ack_roundtrip ack b :
  digests_ok (stale_digests ack) -> states_ok (updated_states ack) -> encode_ack ack = inr b -> decode_ack b = inr ack.
Proof.
  intros Hd Hs Hw. apply read_payload_takes. unfold encode_ack in Hw. wire_inv. destruct ack as [stale updated].
  eapply takes_bind; [by apply takes_digest_list|]. by apply (takes_map _ (mkGossipDigestAck stale)), takes_state_map.
Qed.

Lemma ack2_roundtrip ack2 b : states_ok (updated_states2 ack2) -> encode_ack2 ack2 = inr b -> decode_ack2 b = inr ack2.
Proof.
  intros Hs Hw. apply read_payload_takes. destruct ack2 as [updated].
  by apply (takes_map _ mkGossipDigestAck2), takes_state_map.
Qed.

(** ** The exchange over bytes *)

Section Wire.
Context {D : Type} `{FailureDetector D}.
Implicit Types a b g : Gossiper D.

Definition node_fits g : Prop :=
  states_fit (endpoint_states g) /\ Z.of_nat (size (endpoint_states g)) < 2 ^ 31.

Lemma subdomain_size (m m' : gmap Endpoint EndpointState) :
  (forall ep s, m !! ep = Some s -> is_Some (m' !! ep)) -> (size m <= size m')%nat.
Proof.
  intros Hd. rewrite <- !size_dom. apply subseteq_size. intros ep. rewrite !elem_of_dom. intros [s Hs]. by eapply Hd.
Qed.

Lemma length_omap_le {A B} (f : A -> option B) l : (length (omap f l) <= length l)%nat.
Proof. induction l as [|x l IH]; simpl; [done|]. destruct (f x); simpl; unfold omap in *; lia. Qed.

Lemma apply_fits now g R : states_fit (endpoint_states g) -> states_fit R ->
  states_fit (endpoint_states (Gossiper_apply_remote_states now g R)).
Proof.
  intros Hg HR ep s. rewrite lookup_apply_remote_states. destruct (R !! ep) as [r|] eqn:Er; [|apply Hg].
  case_match; [apply Hg|]. intros [= <-]. destruct (HR ep r Er) as [He Hr]. split; [done|].
  apply receive_fits; [|done]. intros s Hs. by apply (Hg ep).
Qed.

Lemma make_syn_fits a :
  node_fits a -> let syn := Gossiper_make_gossip_digest_syn a in
  digests_ok (digests syn) /\ Z.of_nat (length (digests syn)) < 2 ^ 31
  /\ Forall (fun d => in_s 32 (digest_generation d) /\ in_s 32 (digest_max_version d)) (digests syn)
  /\ forall d, d ∈ digests syn -> is_Some (endpoint_states a !! digest_endpoint d).
Proof.
  intros [Ha Hs]. simpl. rewrite length_fmap, length_map_to_list.
  assert (forall d, d ∈ digests (Gossiper_make_gossip_digest_syn a) -> exists s,
    endpoint_states a !! digest_endpoint d = Some s /\ digest_generation d = generation (heartbeat s)
    /\ digest_max_version d = EndpointState_max_version s) as Hd.
  { intros d ([ep s] & -> & Hin%elem_of_map_to_list)%list_elem_of_fmap. by exists s. }
  split_and!; [|done| |].
  - apply Forall_forall. intros d (s & E & _)%Hd. by apply (Ha _ s).
  - apply Forall_forall. intros d (s & E & -> & ->)%Hd. apply Ha in E as [_ Hf].
    split; [by apply Hf|by apply max_version_fits].
  - intros d (s & E & _)%Hd. by eexists.
Qed.

Lemma handle_syn_fits now b syn :
  node_fits b -> digests_ok (digests syn) -> Z.of_nat (length (digests syn)) < 2 ^ 31 ->
  Forall (fun d => in_s 32 (digest_generation d) /\ in_s 32 (digest_max_version d)) (digests syn) ->
  let ack := Gossiper_handle_syn now b syn in
  digests_ok (stale_digests ack) /\ states_fit (updated_states ack) /\ exists bytes, encode_ack ack = inr bytes.
Proof.
  intros [Hb Hs] Hok Hlen Hd. simpl. set (ack := Gossiper_handle_syn now b syn).
  assert (stale_digests ack = omap (reply_digest now b) (digests syn)) as Est by apply handle_syn_stale.
  assert (states_fit (updated_states ack)) as Hf.
  { intros ep r (s & since & Es & ->)%handle_syn_deltas. destruct (Hb ep s Es). split; [done|]. by apply delta_fits. }
  assert (Z.of_nat (size (updated_states ack)) < 2 ^ 31) as Hsz.
  { enough (size (updated_states ack) <= size (endpoint_states b))%nat by lia. apply subdomain_size.
    intros ep r (s & since & Es & _)%handle_syn_deltas. by eexists. }
  assert (forall d', d' ∈ stale_digests ack -> exists d, d ∈ digests syn /\ digest_endpoint d' = digest_endpoint d
    /\ digest_generation d' = digest_generation d /\ in_s 32 (digest_max_version d')) as Hst.
  { intros d'. rewrite Est. intros (d & Hin & E)%list_elem_of_omap. exists d. unfold reply_digest in E.
    repeat case_match; simplify_eq; simpl; split_and!; try done. apply max_version_fits. by eapply Hb. }
  rewrite Forall_forall in Hd. unfold digests_ok in Hok. rewrite Forall_forall in Hok.
  split_and!; [|done|].
  - apply Forall_forall. intros d' (d & Hin & -> & _)%Hst. by apply Hok.
  - unfold encode_ack. destruct (write_digests_ok (stale_digests ack)) as [b1 ->].
    + rewrite Est. pose proof (length_omap_le (reply_digest now b) (digests syn)). lia.
    + apply Forall_forall. intros d' (d & Hin & _ & -> & Hm)%Hst. split; [by apply Hd|done].
    + cbn [mbind WireResult_bind]. destruct (write_state_map_ok (updated_states ack) Hf Hsz) as [b2 ->]. by eexists.
Qed.

Lemma handle_ack_fits now a ack :
  states_fit (endpoint_states a) -> states_fit (updated_states ack) -> Z.of_nat (length (stale_digests ack)) < 2 ^ 31 ->
  NoDup (digest_endpoint <$> stale_digests ack) ->
  let '(a', ack2) := Gossiper_handle_ack now a ack in
  states_fit (updated_states2 ack2) /\ exists bytes, encode_ack2 ack2 = inr bytes.
Proof.
  intros Ha Hu Hlen Hnd. pose proof (handle_ack_deltas now a ack) as Hd.
  pose proof (fun ep => handle_ack_updated now a ack ep Hnd) as Hl.
  assert (endpoint_states (Gossiper_handle_ack now a ack).1
    = endpoint_states (Gossiper_apply_remote_states now a (updated_states ack))) as Ea by done.
  destruct (Gossiper_handle_ack now a ack) as [a' ack2]. cbn [fst] in Ea.
  assert (states_fit (updated_states2 ack2)) as Hf.
  { intros ep r (s & since & Es & ->)%Hd. rewrite Ea in Es. apply apply_fits in Es as [He Hs]; [|done..].
    split; [done|]. by apply delta_fits. }
  split; [done|]. apply write_state_map_ok; [done|].
  enough (size (updated_states2 ack2) <= length (stale_digests ack))%nat by lia.
  rewrite <- size_dom, <- (length_fmap digest_endpoint (stale_digests ack)), <- (size_list_to_set (C := gset Endpoint)) by done.
  apply subseteq_size. intros ep [r Hr]%elem_of_dom. rewrite Hl in Hr. apply bind_Some in Hr as (d & F & _).
  apply List.find_some in F as [F1%list_elem_of_In F2%bool_decide_eq_true].
  apply elem_of_list_to_set, list_elem_of_fmap. by exists d.
Qed.

(** C16. A gossip round over bytes is the exchange of the states: between two nodes of
    the same cluster whose states fit the wire (generations and versions within Java's
    int, values of at most 65535 bytes, no state of a kind Java does not have), the
    round of the gossip task, which encodes, sends and decodes SYN, ACK and ACK2
    through the handlers, leaves both nodes exactly as handing the messages over. *)
Theorem exchange_round_refines now failure_payload msg_id a b :
  node_fits a -> node_fits b -> cluster_name a = cluster_name b ->
  text_ok (cluster_name a) -> utf_length (cluster_name a) <= 65535 ->
  exchange_round now failure_payload a b msg_id = gossip_exchange now a b.
Proof.
  intros Ha Hb Hname Htext Hutf. unfold exchange_round, gossip_exchange. set (syn := Gossiper_make_gossip_digest_syn a).
  destruct (make_syn_fits a Ha) as (Hok & Hlen & Hd & _). fold syn in Hok, Hlen, Hd.
  destruct (handle_syn_fits now b syn Hb Hok Hlen Hd) as (Hst & Hup & b2 & Eack).
  assert (exists bytes, encode_syn syn = inr bytes) as [b1 Esyn].
  { unfold encode_syn. destruct (write_utf_ok (cluster_id syn) Hutf) as [x ->].
    destruct (write_utf_ok DEFAULT_PARTITIONER) as [y ->]; [by vm_compute|].
    destruct (write_digests_ok (digests syn) Hlen Hd) as [z ->]. by eexists. }
  set (ack := Gossiper_handle_syn now b syn) in *. rewrite Esyn. unfold syn_handler.
  rewrite (syn_roundtrip syn b1) by done. rewrite bool_decide_false by (rewrite <- Hname; auto). fold ack. rewrite Eack.
  rewrite (ack_roundtrip ack b2) by (done || by apply states_fit_ok).
  assert (stale_digests ack = omap (reply_digest now b) (digests syn)) as Est by apply handle_syn_stale.
  pose proof (handle_ack_fits now a ack) as Hack2. destruct (Gossiper_handle_ack now a ack) as [a' ack2].
  destruct Hack2 as (Hf & b3 & E3); [apply Ha|done| |rewrite Est; apply omap_digests_NoDup, syn_digests_NoDup|].
  { rewrite Est. pose proof (length_omap_le (reply_digest now b) (digests syn)). lia. }
  rewrite E3. unfold ack2_handler. by rewrite (ack2_roundtrip ack2 b3) by (done || by apply states_fit_ok).
Qed.

(** ** States that Java does not have *)

Lemma write_all_fails {A} (write : A -> WireResult (list Z)) l x :
  x ∈ l -> (exists e, write x = inl e) -> exists e, write_all write l = inl e.
Proof.
  intros Hin [e He]. induction l as [|y l IH]; [by apply not_elem_of_nil in Hin|]. simpl.
  destruct (write y) as [e'|c] eqn:Ey; [by eexists|]. apply elem_of_cons in Hin as [->|Hin]; [congruence|].
  simpl. destruct (IH Hin) as [e' ->]. by eexists.
Qed.

Lemma tcm_epoch_fails s v :
  application_states s !! TcmEpoch = Some v -> exists e, write_endpoint_state s = inl e.
Proof.
  intros Hv. unfold write_endpoint_state.
  destruct (checked_i32 (generation (heartbeat s))); [eexists; reflexivity|].
  destruct (checked_i32 (hb_version (heartbeat s))); [eexists; reflexivity|].
  destruct (checked_i32 (Z.of_nat _)); [eexists; reflexivity|]. cbn [mbind WireResult_bind].
  match goal with |- context [write_all write_app_state ?l] =>
    destruct (write_all_fails write_app_state l (TcmEpoch, v)) as [e ->]; [| |eexists; reflexivity] end.
  - rewrite sort_by_perm. by apply ordmap_elem.
  - by eexists.
Qed.

Lemma state_map_fails m ep s :
  m !! ep = Some s -> (exists e, write_endpoint_state s = inl e) -> exists e, write_state_map m = inl e.
Proof.
  intros Hs [e He]. unfold write_state_map. destruct (checked_i32 _); [eexists; reflexivity|]. cbn [mbind WireResult_bind].
  match goal with |- context [write_all write_state_entry ?l] =>
    destruct (write_all_fails write_state_entry l (ep, s)) as [e' ->]; [| |eexists; reflexivity] end.
  - rewrite sort_by_perm. by apply elem_of_map_to_list.
  - exists e. unfold write_state_entry. cbn [fst snd]. by rewrite He.
Qed.

(** An epoch cannot be gossiped: a node that knows a metadata epoch ([TcmEpoch],
    which the metadata service publishes through gossip) which the sender of a SYN has
    not seen answers the SYN with a failure, so that none of what it knows reaches the
    sender. *)
Theorem tcm_epoch_blocks_ack now g request_id payload syn ep s v :
  decode_syn payload = inr syn -> cluster_id syn = cluster_name g ->
  NoDup (digest_endpoint <$> digests syn) -> Gossiper_is_quarantined now g ep = false ->
  endpoint_states g !! ep = Some s -> EndpointState_get_state s TcmEpoch = Some v ->
  (match digest_of syn ep with Some d => digest_max_version d | None => 0 end) < vv_version v ->
  exists e, syn_handler now g request_id payload = Failure request_id (BadAckPayload e).
Proof.
  intros Hd Hc Hnd Hq Hs Hv Hseen. unfold syn_handler. rewrite Hd, bool_decide_false by auto.
  set (since := match digest_of syn ep with Some d => _ | None => _ end) in *.
  assert (updated_states (Gossiper_handle_syn now g syn) !! ep = Some (Gossiper_extract_delta s since)) as Hu.
  { rewrite handle_syn_updated by done. unfold reply_state. rewrite Hq, Hs. simpl. unfold since in *.
    destruct (digest_of syn ep) as [d|]; [|done]. pose proof (max_version_ge _ _ _ Hv).
    by rewrite (proj2 (Z.ltb_lt _ _)) by lia. }
  unfold encode_ack. destruct (write_digest_list _) as [e|x]; cbn [mbind WireResult_bind]; [by eexists|].
  destruct (state_map_fails _ _ _ Hu) as [e ->]; [|by eexists].
  eapply (tcm_epoch_fails _ v). rewrite lookup_delta. unfold EndpointState_get_state in Hv. rewrite Hv. simpl.
  by rewrite (proj2 (Z.ltb_lt _ _)) by lia.
Qed.


End Wire.

(** * Samples *)
Module WireSample.
Import GossipSample.

(** A name with a character outside the basic plane goes through a surrogate pair. *)
Example surrogate_utf :
  write_java_utf [0x1f600; 0; 0xe9] = inr [0; 10; 0xed; 0xa0; 0xbd; 0xed; 0xb8; 0x80; 0xc0; 0x80; 0xc3; 0xa9]
  /\ read_java_utf [0; 10; 0xed; 0xa0; 0xbd; 0xed; 0xb8; 0x80; 0xc0; 0x80; 0xc3; 0xa9]
     = inr ([0x1f600; 0; 0xe9], []).
Proof. vm_compute. done. Qed.

Abbreviation wire1 := (Gossiper_set_local_state node1 Status (text "NORMAL")).

Lemma wire_nodes_fit : node_fits wire1 /\ node_fits node2.
Proof.
  split; (split; [|by vm_compute]); intros ep s.
  - unfold Gossiper_set_local_state.
    cbn [endpoint_states local_endpoint set_version_counter Gossiper_new Gossiper_with_cluster_name].
    rewrite lookup_singleton_eq. cbn [endpoint_states set_endpoint_states set_version_counter local_endpoint].
    rewrite insert_singleton_eq. intros [<- <-]%lookup_singleton_Some. split; [done|].
    split_and!; [done|done|]. cbn [application_states EndpointState_set_state EndpointState_new].
    intros key v [<- <-]%lookup_singleton_Some. split_and!; [done|done| |by vm_compute].
    repeat (apply List.Forall_cons; [unfold is_char; cbn; lia|]). apply List.Forall_nil.
  - cbn [endpoint_states Gossiper_new Gossiper_with_cluster_name].
    intros [<- <-]%lookup_singleton_Some. split; [done|]. split_and!; [done|done|]. intros key v. cbn [application_states EndpointState_new]. by rewrite lookup_empty.
Qed.

Lemma exchange_round_refines_witness :
  exchange_round 0 (fun _ => []) wire1 node2 7 = gossip_exchange 0 wire1 node2.
Proof.
  refine (exchange_round_refines 0 (fun _ => []) 7 wire1 node2 (proj1 wire_nodes_fit) (proj2 wire_nodes_fit) eq_refl _ _);
    [|by vm_compute].
  repeat (apply List.Forall_cons; [unfold is_char; cbn; lia|]). apply List.Forall_nil.
Defined.

Abbreviation epoch_node := (Gossiper_set_local_state node2 TcmEpoch (text "3")).
Abbreviation syn_bytes :=
  [0; 14; 99; 97; 115; 115; 97; 110; 100; 114; 97; 45; 114; 117; 115; 116; 0; 0; 0; 0; 0; 0].

Lemma tcm_epoch_blocks_ack_witness :
  exists e, syn_handler 0 epoch_node 7 syn_bytes = Failure 7 (BadAckPayload e).
Proof.
  refine (tcm_epoch_blocks_ack 0 epoch_node 7 syn_bytes (mkGossipDigestSyn (text "cassandra-rust") []) e2
    (mkEndpointState (mkHeartbeatState 200 1) {[TcmEpoch := mkVersionedValue 1 (text "3")]}) (mkVersionedValue 1 (text "3"))
    _ _ _ _ _ _ _); [vm_compute; reflexivity|reflexivity|constructor|vm_compute; reflexivity|vm_compute; reflexivity|reflexivity|done].
Defined.
End WireSample.
