(* ===== verification/Repair.v ===== *)
(** * Repair jobs

    crates/cassandra-repair/src/job.rs: the trees of all replicas of a table
    are compared pairwise, and every pair that differs streams the differing ranges
    both ways.  The theorem composes this with the trees of
    Merkle: the plan joins exactly the replicas that differ, and once the streams
    have delivered what it asks for, all replicas hold the same data in the
    repaired range.  The streams themselves are not modelled: what they owe is the
    contract [delivered]. *)
From S2P Require Export Prelude OrdMap Token Merkle Node.

Record DiffResult := mkDiffResult {
  endpoint_a : Endpoint;
  endpoint_b : Endpoint;
  mismatched_ranges : list (Z * Z)
}.
Record SyncTaskDescriptor := mkSyncTaskDescriptor {
  task_source : Endpoint;
  task_target : Endpoint;
  task_ranges : list (Z * Z);
  task_keyspace : string;
  task_table : string
}.
Record RepairJobResult := mkRepairJobResult {
  trees_received : nat;
  job_diffs : list DiffResult;
  sync_tasks : list SyncTaskDescriptor
}.

(** The inner loop: one endpoint against those after it.  The trees are in the
    order in which the map lists its keys; [None] is a failed assertion of [diff]. *)
Fixpoint diffs_with (a : Endpoint) (tree_a : MerkleTree) (later : list (Endpoint * MerkleTree)) : option (list DiffResult) :=
  match later with
  | [] => Some []
  | (b, tree_b) :: later =>
      mismatched ← MerkleTree_diff tree_a tree_b;
      diffs ← diffs_with a tree_a later;
      Some (match mismatched with [] => diffs | _ => mkDiffResult a b mismatched :: diffs end)
  end.
Fixpoint compute_diffs (trees : list (Endpoint * MerkleTree)) : option (list DiffResult) :=
  match trees with
  | [] => Some []
  | (a, tree_a) :: trees =>
      diffs ← diffs_with a tree_a trees;
      diffs' ← compute_diffs trees;
      Some (diffs ++ diffs')
  end.

Definition create_sync_plan (diffs : list DiffResult) (keyspace table : string) : list SyncTaskDescriptor :=
  mjoin ((fun diff =>
    match mismatched_ranges diff with
    | [] => []
    | ranges =>
        [mkSyncTaskDescriptor (endpoint_a diff) (endpoint_b diff) ranges keyspace table;
         mkSyncTaskDescriptor (endpoint_b diff) (endpoint_a diff) ranges keyspace table]
    end) <$> diffs).

Definition run_repair_job (trees : list (Endpoint * MerkleTree)) (keyspace table : string) : option RepairJobResult :=
  diffs ← compute_diffs trees;
  Some (mkRepairJobResult (length trees) diffs (create_sync_plan diffs keyspace table)).

(** * The pairs that are compared *)

Lemma elem_of_diffs_with a tree_a later diffs d :
  diffs_with a tree_a later = Some diffs ->
  d ∈ diffs <-> exists b tree_b ranges, (b, tree_b) ∈ later /\ MerkleTree_diff tree_a tree_b = Some ranges
    /\ ranges <> [] /\ d = mkDiffResult a b ranges.
Proof.
  revert diffs. induction later as [|[b tree_b] later IH]; intros diffs E; cbn in E.
  - simplify_eq. split; [by intros ?%not_elem_of_nil|]. intros (b & t & r & ?%not_elem_of_nil & _). done.
  - apply bind_Some in E as (m & Em & E). apply bind_Some in E as (ds & Eds & [= <-]). specialize (IH ds Eds).
    destruct m as [|r m].
    + rewrite IH. split; [intros (b' & t & rs & H1 & H2); exists b', t, rs; split; [by right|done]|].
      intros (b' & t & rs & [H|H]%elem_of_cons & H2 & H3 & H4); [simplify_eq|]. by exists b', t, rs.
    + rewrite elem_of_cons, IH. split.
      * intros [->|(b' & t & rs & H1 & H2)]; [exists b, tree_b, (r :: m)|exists b', t, rs].
        -- split_and!; [by left|done..].
        -- split; [by right|done].
      * intros (b' & t & rs & [H|H]%elem_of_cons & H2 & H3 & H4); [left; by simplify_eq|right; by exists b', t, rs].
Qed.

Lemma compute_diffs_some trees :
  (forall x y, x ∈ trees -> y ∈ trees -> is_Some (MerkleTree_diff x.2 y.2)) -> exists diffs, compute_diffs trees = Some diffs.
Proof.
  induction trees as [|[a ta] trees IH]; intros H; [by exists []|].
  destruct IH as [diffs' E']; [intros x y Hx Hy; apply H; by right|].
  assert (exists diffs, diffs_with a ta trees = Some diffs) as [diffs E].
  { assert (forall y, y ∈ trees -> is_Some (MerkleTree_diff ta y.2)) as H' by (intros y Hy; apply (H (a, ta)); [left|by right]).
    clear H E'. induction trees as [|[b tb] trees IHt]; [by exists []|]. destruct IHt as [ds E]; [intros y Hy; apply H'; by right|].
    destruct (H' (b, tb)) as [m Em]; [left|]. cbn in *. rewrite Em, E. by eexists. }
  exists (diffs ++ diffs'). cbn. by rewrite E, E'.
Qed.

Lemma compute_diffs_pair trees diffs i j x y ranges :
  compute_diffs trees = Some diffs -> trees !! i = Some x -> trees !! j = Some y -> (i < j)%nat ->
  MerkleTree_diff x.2 y.2 = Some ranges -> ranges <> [] -> mkDiffResult x.1 y.1 ranges ∈ diffs.
Proof.
  revert i j diffs. induction trees as [|[a ta] trees IH]; intros i j diffs E Hi Hj Hij Hd Hne; [done|].
  cbn in E. apply bind_Some in E as (d1 & E1 & E). apply bind_Some in E as (d2 & E2 & [= <-]). apply elem_of_app.
  destruct j as [|j]; [lia|]. destruct i as [|i].
  - left. injection Hi as <-. eapply elem_of_diffs_with; [done|]. exists y.1, y.2, ranges. split_and!; try done.
    destruct y. by eapply list_elem_of_lookup_2.
  - right. eapply (IH i j); [done..|lia|done|done].
Qed.

Lemma compute_diffs_elem trees diffs d :
  compute_diffs trees = Some diffs -> d ∈ diffs ->
  exists x y, x ∈ trees /\ y ∈ trees /\ MerkleTree_diff x.2 y.2 = Some (mismatched_ranges d)
    /\ endpoint_a d = x.1 /\ endpoint_b d = y.1.
Proof.
  revert diffs. induction trees as [|[a ta] trees IH]; intros diffs E Hd; cbn in E.
  - simplify_eq. by apply not_elem_of_nil in Hd.
  - apply bind_Some in E as (d1 & E1 & E). apply bind_Some in E as (d2 & E2 & [= <-]).
    apply elem_of_app in Hd as [Hd|Hd].
    + apply (elem_of_diffs_with _ _ _ _ _ E1) in Hd as (b & tb & r & Hb & Hr & _ & ->).
      exists (a, ta), (b, tb). split_and!; [left|by right|done..].
    + destruct (IH d2 E2 Hd) as (x & y & Hx & Hy & ?). exists x, y. split_and!; [by right..|naive_solver|naive_solver|naive_solver].
Qed.

Lemma elem_of_sync_plan diffs keyspace table t :
  t ∈ create_sync_plan diffs keyspace table <->
  exists d, d ∈ diffs /\ mismatched_ranges d <> [] /\
    (t = mkSyncTaskDescriptor (endpoint_a d) (endpoint_b d) (mismatched_ranges d) keyspace table
     \/ t = mkSyncTaskDescriptor (endpoint_b d) (endpoint_a d) (mismatched_ranges d) keyspace table).
Proof.
  unfold create_sync_plan. rewrite list_elem_of_join. split.
  - intros (l & Ht & (d & -> & Hd)%list_elem_of_fmap). exists d. destruct (mismatched_ranges d); [by apply not_elem_of_nil in Ht|]. set_solver.
  - intros (d & Hd & Hne & Ht). eexists. split; [|apply list_elem_of_fmap; by exists d]. destruct (mismatched_ranges d); [done|]. set_solver.
Qed.

(** * What the streams owe *)

Section streaming.
Context {D : Type} (join : D -> D -> D) `{!Semilattice (fun _ : D => True) join}.

Abbreviation contents := (Endpoint -> list Z -> option D).

Definition task_covers (t : SyncTaskDescriptor) (key : list Z) : bool :=
  existsb (token_in_range (Token_from_partition_key key)) (task_ranges t).
Definition opt_below (x y : option D) : Prop := merge_opt join x y = y.

Lemma opt_assoc x y z : merge_opt join (merge_opt join x y) z = merge_opt join x (merge_opt join y z).
Proof. apply (merge_opt_assoc join (fun _ => True)); auto. intros. by apply (sl_assoc (D := fun _ => True)). Qed.
Lemma opt_comm x y : merge_opt join x y = merge_opt join y x.
Proof. apply merge_opt_comm. intros. by apply (sl_comm (D := fun _ => True)). Qed.
Lemma opt_idem x : merge_opt join x x = x.
Proof. apply merge_opt_idem. intros. by apply (sl_idem (D := fun _ => True)). Qed.

Lemma opt_below_refl x : opt_below x x.
Proof. apply opt_idem. Qed.
Lemma opt_below_trans x y z : opt_below x y -> opt_below y z -> opt_below x z.
Proof. unfold opt_below. intros Hxy Hyz. by rewrite <- Hyz, <- opt_assoc, Hxy. Qed.
Lemma opt_below_antisym x y : opt_below x y -> opt_below y x -> x = y.
Proof. unfold opt_below. intros Hxy Hyx. by rewrite <- Hyx, opt_comm. Qed.
Lemma opt_below_l x y : opt_below x (merge_opt join x y).
Proof. unfold opt_below. by rewrite <- opt_assoc, opt_idem. Qed.
Lemma opt_below_r x y : opt_below y (merge_opt join x y).
Proof. rewrite opt_comm. apply opt_below_l. Qed.
Lemma opt_below_merge x y z : opt_below x z -> opt_below y z -> opt_below (merge_opt join x y) z.
Proof. unfold opt_below. intros Hx Hy. by rewrite opt_assoc, Hy. Qed.

(** What the replicas hold together under a key. *)
Definition merged (c : contents) (endpoints : list Endpoint) (key : list Z) : option D :=
  foldr (fun endpoint acc => merge_opt join (c endpoint key) acc) None endpoints.

Lemma opt_below_merged c endpoints key x : x ∈ endpoints -> opt_below (c x key) (merged c endpoints key).
Proof.
  induction endpoints as [|y endpoints IH]; [by intros ?%not_elem_of_nil|]. intros [->|Hx]%elem_of_cons; [apply opt_below_l|].
  eapply opt_below_trans; [by apply IH|apply opt_below_r].
Qed.
Lemma merged_below c endpoints key y :
  (forall x, x ∈ endpoints -> opt_below (c x key) y) -> opt_below (merged c endpoints key) y.
Proof.
  induction endpoints as [|x endpoints IH]; intros H; [done|]. apply opt_below_merge; [apply H; left|].
  apply IH. intros z Hz. apply H. by right.
Qed.

(** [c'] is what the replicas hold once the tasks have run on [c], one after the
    other or at once: nothing is lost, what a source held in the ranges of a task
    has reached its target, what arrived was held by some replica, and keys
    outside of the ranges are left alone. *)
Record delivered (tasks : list SyncTaskDescriptor) (endpoints : list Endpoint) (c c' : contents) : Prop := {
  dl_keeps x key : opt_below (c x key) (c' x key);
  dl_sends t key : t ∈ tasks -> task_covers t key = true -> opt_below (c (task_source t) key) (c' (task_target t) key);
  dl_only x key : x ∈ endpoints -> opt_below (c' x key) (merged c endpoints key);
  dl_outside x key : (forall t, t ∈ tasks -> task_covers t key = false) -> c' x key = c x key;
}.

(** Tasks that join every two replicas that differ under the key make them all equal. *)
Lemma delivered_converges tasks (endpoints : list Endpoint) c c' key :
  delivered tasks endpoints c c' ->
  (forall x y, x ∈ endpoints -> y ∈ endpoints -> c x key = c y key \/
    exists t, t ∈ tasks /\ task_source t = x /\ task_target t = y /\ task_covers t key = true) ->
  forall y, y ∈ endpoints -> c' y key = merged c endpoints key.
Proof.
  intros Hdl Hpairs y Hy. apply opt_below_antisym; [by apply (dl_only _ _ _ _ Hdl)|].
  apply merged_below. intros x Hx. destruct (Hpairs x y Hx Hy) as [->|(t & Ht & <- & <- & Hcov)].
  - apply (dl_keeps _ _ _ _ Hdl).
  - by apply (dl_sends _ _ _ _ Hdl).
Qed.

(** Tasks that run one after the other, each merging what its source then holds
    into its target, keep the contract. *)
Definition merge_task (c : contents) (t : SyncTaskDescriptor) : contents := fun endpoint key =>
  if bool_decide (endpoint = task_target t) && task_covers t key then merge_opt join (c endpoint key) (c (task_source t) key)
  else c endpoint key.
Abbreviation merge_tasks := (foldl merge_task).

Lemma merge_task_grows c t x key : opt_below (c x key) (merge_task c t x key).
Proof. unfold merge_task. case_match; [apply opt_below_l|apply opt_below_refl]. Qed.
Lemma merge_tasks_grow c tasks x key : opt_below (c x key) (merge_tasks c tasks x key).
Proof.
  revert c. induction tasks as [|t tasks IH]; intros c; [apply opt_below_refl|]. cbn.
  eapply opt_below_trans; [apply merge_task_grows|apply IH].
Qed.
Lemma merge_tasks_send c tasks t key :
  t ∈ tasks -> task_covers t key = true -> opt_below (c (task_source t) key) (merge_tasks c tasks (task_target t) key).
Proof.
  revert c. induction tasks as [|t' tasks IH]; intros c; [by intros ?%not_elem_of_nil|].
  intros [->|Ht]%elem_of_cons Hcov; cbn.
  - eapply opt_below_trans; [|apply merge_tasks_grow]. unfold merge_task. rewrite bool_decide_true, Hcov by done. apply opt_below_r.
  - eapply opt_below_trans; [apply (merge_task_grows c t')|]. by apply IH.
Qed.
Lemma merge_tasks_bounded c tasks (endpoints : list Endpoint) key y :
  (forall t, t ∈ tasks -> task_source t ∈ endpoints) -> (forall x, x ∈ endpoints -> opt_below (c x key) y) ->
  forall x, x ∈ endpoints -> opt_below (merge_tasks c tasks x key) y.
Proof.
  revert c. induction tasks as [|t tasks IH]; intros c Hsrc Hc; [done|]. cbn. apply IH.
  - intros t' Ht'. apply Hsrc. by right.
  - intros x Hx. unfold merge_task. case_match; [|by apply Hc]. apply opt_below_merge; apply Hc; [done|]. apply Hsrc. left.
Qed.
Lemma merge_tasks_outside c tasks x key :
  (forall t, t ∈ tasks -> task_covers t key = false) -> merge_tasks c tasks x key = c x key.
Proof.
  revert c. induction tasks as [|t tasks IH]; intros c Hout; [done|]. cbn. rewrite IH by (intros t' Ht'; apply Hout; by right).
  unfold merge_task. by rewrite (Hout t), andb_false_r by left.
Qed.
Lemma merge_tasks_delivered c tasks (endpoints : list Endpoint) :
  (forall t, t ∈ tasks -> task_source t ∈ endpoints) -> delivered tasks endpoints c (merge_tasks c tasks).
Proof.
  intros Hsrc. split; [intros; apply merge_tasks_grow|intros; by apply merge_tasks_send| |by apply merge_tasks_outside].
  intros x key Hx. eapply merge_tasks_bounded; [exact Hsrc| |done]. intros z Hz. by apply opt_below_merged.
Qed.
End streaming.

(** * A job *)

Section job.
Context {D : Type} (join : D -> D -> D) `{!Semilattice (fun _ : D => True) join}.
Context (serialize : D -> list Z) `{!Inj (=) (=) serialize} (md5 : list Z -> TreeHash).

Abbreviation store := (gmap (list Z) D).

(** The partitions a replica hands to the validator, and the trees it answers with. *)
Definition store_partitions (st : store) : list (list Z * list Z) :=
  (fun '(key, data) => (key, serialize data)) <$> map_to_list st.
Definition replica_trees (stores : list (Endpoint * store)) (range : Z * Z) (depth : Z) : list (Endpoint * MerkleTree) :=
  (fun '(endpoint, st) => (endpoint, validate md5 (store_partitions st) range depth)) <$> stores.
Definition contents_of (stores : list (Endpoint * store)) (endpoint : Endpoint) (key : list Z) : option D :=
  st ← (list_to_map stores : gmap Endpoint store) !! endpoint; st !! key.

Lemma elem_of_store_partitions st key data :
  (key, data) ∈ store_partitions st <-> exists d, st !! key = Some d /\ data = serialize d.
Proof.
  unfold store_partitions. rewrite list_elem_of_fmap. split.
  - intros ([k d] & [= -> ->] & H%elem_of_map_to_list). eauto.
  - intros (d & Hd & ->). exists (key, d). split; [done|]. by apply elem_of_map_to_list.
Qed.

(** Stores either agree on a key or differ in the sense of the validator. *)
Lemma stores_differ st st' key : st !! key = st' !! key \/ differ_at (store_partitions st) (store_partitions st') key.
Proof.
  destruct (decide (serialize <$> st !! key = serialize <$> st' !! key)) as [E|E].
  - left. by apply (inj (fmap serialize)) in E.
  - right. destruct (st !! key) as [d|] eqn:H; [exists (serialize d)|].
    + rewrite !elem_of_store_partitions. intros [(d' & Hd' & Es) _]; [by eauto|]. apply E. rewrite Hd'. cbn. by rewrite Es.
    + destruct (st' !! key) as [d|] eqn:H'; [|done]. exists (serialize d).
      rewrite !elem_of_store_partitions. intros [_ (d' & Hd' & _)]; [by eauto|]. congruence.
Qed.

Lemma differ_at_sym a b key : differ_at a b key -> differ_at b a key.
Proof. intros [data H]. exists data. tauto. Qed.

Context (stores : list (Endpoint * store)) (s e depth : Z).
Hypothesis md5_length : forall x, length (md5 x) = 16%nat.
Hypothesis Hs : is_i64 s.
Hypothesis He : is_i64 e.
Hypothesis Hse : 0 < e - s < 2 ^ 63.
Hypothesis Hdepth : 0 <= depth < 64.
Hypothesis Hnd : NoDup stores.*1.
Hypothesis Hkeys : forall x key d, x ∈ stores -> x.2 !! key = Some d -> Z.of_nat (length key) < 2 ^ 32.
Hypothesis Hcf : collision_free md5 (mjoin ((fun x => validate_strings md5 (store_partitions x.2) (s, e) depth) <$> stores)).

Abbreviation entries_of := (fun st : store => replica_entries md5 (store_partitions st) (s, e)).

Lemma pair_ok x y : x ∈ stores -> y ∈ stores ->
  Forall (fun p => Z.of_nat (length p.1) < 2 ^ 32) (store_partitions x.2 ++ store_partitions y.2)
  /\ collision_free md5 (validate_strings md5 (store_partitions x.2) (s, e) depth
                         ++ validate_strings md5 (store_partitions y.2) (s, e) depth).
Proof.
  intros Hx Hy. split.
  - apply Forall_forall. intros [key data] [(d & Hd & _)%elem_of_store_partitions|(d & Hd & _)%elem_of_store_partitions]%elem_of_app; eauto.
  - eapply collision_free_mono; [done|]. intros z [Hz|Hz]%elem_of_app; apply list_elem_of_join; eexists;
      (split; [exact Hz|]); apply list_elem_of_fmap; eauto.
Qed.

Lemma trees_diff x y : x ∈ stores -> y ∈ stores ->
  MerkleTree_diff (validate md5 (store_partitions x.2) (s, e) depth) (validate md5 (store_partitions y.2) (s, e) depth)
  = Some (differing s e depth (entries_of x.2) (entries_of y.2)).
Proof. intros Hx Hy. destruct (pair_ok x y Hx Hy). by apply replicas_diff. Qed.

Lemma contents_elem endpoint st key : (endpoint, st) ∈ stores -> contents_of stores endpoint key = st !! key.
Proof. intros H. unfold contents_of. by rewrite (elem_of_list_to_map_1 _ _ _ Hnd H). Qed.

Abbreviation trees := (replica_trees stores (s, e) depth).
Abbreviation covers := (fun ranges key => existsb (token_in_range (Token_from_partition_key key)) ranges).

(** The earlier of two replicas that differ under a key gets a difference with the later one that covers it. *)
Lemma ordered_pair_diff diffs i j x y key :
  compute_diffs trees = Some diffs -> stores !! i = Some x -> stores !! j = Some y -> (i < j)%nat ->
  token_in_range (Token_from_partition_key key) (s, e) = true ->
  differ_at (store_partitions x.2) (store_partitions y.2) key ->
  exists d, d ∈ diffs /\ endpoint_a d = x.1 /\ endpoint_b d = y.1 /\ mismatched_ranges d <> []
    /\ covers (mismatched_ranges d) key = true.
Proof.
  intros Hd Hi Hj Hij Ht Hdiff. pose proof (list_elem_of_lookup_2 _ _ _ Hi) as Hx. pose proof (list_elem_of_lookup_2 _ _ _ Hj) as Hy.
  destruct (pair_ok x y Hx Hy) as [Hk Hc].
  destruct (differing_complete md5 _ _ s e depth md5_length Hs He Hse Hdepth Hk Hc key Ht Hdiff) as (r & Hr & Htr).
  assert (differing s e depth (entries_of x.2) (entries_of y.2) <> []) as Hne.
  { intros E. rewrite E in Hr. by apply not_elem_of_nil in Hr. }
  exists (mkDiffResult x.1 y.1 (differing s e depth (entries_of x.2) (entries_of y.2))). split_and!; try done.
  - apply (compute_diffs_pair trees diffs i j (x.1, validate md5 (store_partitions x.2) (s, e) depth)
      (y.1, validate md5 (store_partitions y.2) (s, e) depth)); try done.
    + unfold replica_trees. rewrite list_lookup_fmap, Hi. by destruct x.
    + unfold replica_trees. rewrite list_lookup_fmap, Hj. by destruct y.
    + by apply trees_diff.
  - apply existsb_exists. exists r. split; [by apply list_elem_of_In|done].
Qed.

Lemma pair_task diffs keyspace table x y key :
  compute_diffs trees = Some diffs -> x ∈ stores -> y ∈ stores ->
  token_in_range (Token_from_partition_key key) (s, e) = true ->
  x.2 !! key = y.2 !! key \/
  exists t, t ∈ create_sync_plan diffs keyspace table /\ task_source t = x.1 /\ task_target t = y.1 /\ task_covers t key = true.
Proof.
  intros Hd [i Hi]%list_elem_of_lookup_1 [j Hj]%list_elem_of_lookup_1 Ht.
  destruct (stores_differ x.2 y.2 key) as [?|Hdiff]; [by left|]. destruct (lt_eq_lt_dec i j) as [[Hij| ->]|Hij].
  - right. destruct (ordered_pair_diff diffs i j x y key) as (d & Hin & Ea & Eb & Hne & Hcov); [done..|].
    eexists. split; [apply elem_of_sync_plan; exists d; by split_and!; [..|left]|]. by cbn.
  - left. by simplify_eq.
  - right. destruct (ordered_pair_diff diffs j i y x key) as (d & Hin & Ea & Eb & Hne & Hcov); [done..|by apply differ_at_sym|].
    eexists. split; [apply elem_of_sync_plan; exists d; by split_and!; [..|right]|]. by cbn.
Qed.

Lemma trees_endpoints : trees.*1 = stores.*1.
Proof. unfold replica_trees. rewrite <- list_fmap_compose. apply list_fmap_ext. by intros i []. Qed.

Lemma elem_of_trees x : x ∈ trees -> exists st, (x.1, st) ∈ stores /\ x.2 = validate md5 (store_partitions st) (s, e) depth.
Proof. unfold replica_trees. intros ([ep st] & -> & H)%list_elem_of_fmap. by exists st. Qed.

(** A task streams between replicas, in ranges of the repaired one. *)
Lemma plan_task diffs keyspace table t :
  compute_diffs trees = Some diffs -> t ∈ create_sync_plan diffs keyspace table ->
  task_source t ∈ stores.*1 /\ task_target t ∈ stores.*1 /\
  forall key, task_covers t key = true -> token_in_range (Token_from_partition_key key) (s, e) = true.
Proof.
  intros Hd (d & Hin & _ & Ht)%elem_of_sync_plan.
  destruct (compute_diffs_elem _ _ _ Hd Hin) as (x & y & Hx & Hy & Hdiff & Ea & Eb).
  destruct (elem_of_trees x Hx) as (sx & Hsx & Ex), (elem_of_trees y Hy) as (sy & Hsy & Ey).
  rewrite Ex, Ey in Hdiff. pose proof (trees_diff (x.1, sx) (y.1, sy) Hsx Hsy) as Htd. cbn [snd] in Htd. rewrite Htd in Hdiff.
  injection Hdiff as Hr.
  assert (x.1 ∈ stores.*1 /\ y.1 ∈ stores.*1) as [Hx1 Hy1] by (split; apply list_elem_of_fmap; [by exists (x.1, sx)|by exists (y.1, sy)]).
  split_and!.
  - destruct Ht as [-> | ->]; cbn; congruence.
  - destruct Ht as [-> | ->]; cbn; congruence.
  - intros key Hcov. assert (covers (mismatched_ranges d) key = true) as (r & Hrin%list_elem_of_In & Htr)%existsb_exists
      by (by destruct Ht as [-> | ->]).
    rewrite <- Hr in Hrin. apply differing_spec in Hrin as (j & Hj & -> & _).
    destruct (leaf_range s e depth Hse Hdepth j Hj) as (? & ? & ?). apply range_tokens in Htr; [|done]. apply range_tokens; lia.
Qed.

Lemma job_runs keyspace table : exists result, run_repair_job trees keyspace table = Some result
  /\ compute_diffs trees = Some (job_diffs result) /\ sync_tasks result = create_sync_plan (job_diffs result) keyspace table.
Proof.
  destruct (compute_diffs_some trees) as [diffs E].
  - intros x y (sx & Hsx & ->)%elem_of_trees (sy & Hsy & ->)%elem_of_trees. eexists. apply (trees_diff (x.1, sx) (y.1, sy)); done.
  - eexists. unfold run_repair_job. rewrite E. by cbn.
Qed.
End job.

(** C13. A repair job makes the replicas of a range agree.  Their trees are compared
    without a failed assertion; every task of the plan is between two replicas and
    covers keys of the range only; for every two replicas that differ under a key
    of the range there is a task from one to the other that covers it.  So once
    streams have delivered what the tasks ask for ([delivered]), every replica
    holds under every key of the range what all of them held together, and under
    other keys what it held before.  This is for a range that does not wrap around
    and is at most half the ring, trees of fewer than 64 levels, distinct
    endpoints, keys shorter than 2^32, a merge that is associative, commutative
    and idempotent, a serialization that determines the data, and a digest of 16
    bytes without a collision among the strings hashed. *)
Theorem repair_converges {D : Type} (join : D -> D -> D) `{!Semilattice (fun _ : D => True) join}
    (serialize : D -> list Z) (md5 : list Z -> TreeHash) (stores : list (Endpoint * gmap (list Z) D))
    (s e depth : Z) (keyspace table : string) :
  Inj (=) (=) serialize -> (forall x, length (md5 x) = 16%nat) ->
  is_i64 s -> is_i64 e -> 0 < e - s < 2 ^ 63 -> 0 <= depth < 64 -> NoDup stores.*1 ->
  (forall x key d, x ∈ stores -> x.2 !! key = Some d -> Z.of_nat (length key) < 2 ^ 32) ->
  collision_free md5 (mjoin ((fun x => validate_strings md5 (store_partitions serialize x.2) (s, e) depth) <$> stores)) ->
  exists result,
    run_repair_job (replica_trees serialize md5 stores (s, e) depth) keyspace table = Some result
    /\ (forall t, t ∈ sync_tasks result -> task_source t ∈ stores.*1 /\ task_target t ∈ stores.*1 /\
         forall key, task_covers t key = true -> token_in_range (Token_from_partition_key key) (s, e) = true)
    /\ (forall x y key, x ∈ stores -> y ∈ stores -> token_in_range (Token_from_partition_key key) (s, e) = true ->
         x.2 !! key <> y.2 !! key ->
         exists t, t ∈ sync_tasks result /\ task_source t = x.1 /\ task_target t = y.1 /\ task_covers t key = true)
    /\ (forall c' endpoint key, delivered join (sync_tasks result) stores.*1 (contents_of stores) c' -> endpoint ∈ stores.*1 ->
         c' endpoint key = if token_in_range (Token_from_partition_key key) (s, e) then merged join (contents_of stores) stores.*1 key
                           else contents_of stores endpoint key).
Proof.
  intros Hinj Hmd5 Hs He Hse Hd Hnd Hkeys Hcf.
  destruct (job_runs serialize md5 stores s e depth ltac:(done) ltac:(done) ltac:(done) ltac:(done) ltac:(done)
    ltac:(done) ltac:(done) keyspace table) as (result & Hrun & Hdiffs & Htasks).
  exists result. split; [done|]. rewrite Htasks.
  assert (Hplan : forall t, t ∈ create_sync_plan (job_diffs result) keyspace table ->
    task_source t ∈ stores.*1 /\ task_target t ∈ stores.*1 /\
    forall key, task_covers t key = true -> token_in_range (Token_from_partition_key key) (s, e) = true)
    by (intros t Hin; eapply plan_task; [..|exact Hdiffs|exact Hin]; done).
  split; [done|]. split.
  - intros x y key Hx Hy Ht Hne.
    destruct (pair_task serialize md5 stores s e depth Hmd5 Hs He Hse Hd Hkeys Hcf (job_diffs result) keyspace table x y key) as [?|?]; done.
  - intros c' endpoint key Hdl Hep. destruct (token_in_range (Token_from_partition_key key) (s, e)) eqn:Ht.
    + eapply delivered_converges; [exact _|exact Hdl| |done].
      intros x y (x' & -> & Hx)%list_elem_of_fmap (y' & -> & Hy)%list_elem_of_fmap.
      rewrite (contents_elem stores Hnd x'.1 x'.2), (contents_elem stores Hnd y'.1 y'.2) by (by destruct x', y').
      eapply pair_task; [..|exact Hdiffs|exact Hx|exact Hy|exact Ht]; done.
    + apply (dl_outside _ _ _ _ _ Hdl). intros t Hin. destruct (task_covers t key) eqn:Hc; [|done].
      rewrite <- Ht. symmetry. by apply (Hplan t Hin).
Qed.

#[export] Instance max_semilattice : Semilattice (fun _ : Z => True) Z.max.
Proof. split; intros; try done; lia. Qed.

Definition example_stores : list (Endpoint * gmap (list Z) Z) :=
  [(example_endpoint 1, {[ [0] := 10 ]}); (example_endpoint 2, {[ [0] := 11 ]}); (example_endpoint 3, ∅)].

(** Three replicas, one without the key, and tasks that run in the order of the
    plan. *)
Lemma repair_converges_witness :
  exists result,
    run_repair_job (replica_trees (fun z => [z]) example_digest example_stores (0, i64_MAX) 1) "ks" "t" = Some result
    /\ length (sync_tasks result) = 6%nat
    /\ foldl (merge_task Z.max) (contents_of example_stores) (sync_tasks result) (example_endpoint 3) [0] = Some 11.
Proof.
  destruct (repair_converges Z.max (fun z => [z]) example_digest example_stores 0 i64_MAX 1 "ks" "t") as (result & E & Hplan & _ & H).
  - intros x y Exy. injection Exy. auto.
  - intros x. apply length_be_bytes.
  - vm_compute. split; [discriminate|reflexivity].
  - vm_compute. split; [discriminate|reflexivity].
  - vm_compute. split; reflexivity.
  - lia.
  - apply (bool_decide_eq_true_1 (NoDup example_stores.*1)). vm_compute. reflexivity.
  - assert (Hk : forall x key d, x ∈ example_stores -> x.2 !! key = Some d -> key = [0]).
    { intros x key d Hx Hd. unfold example_stores in Hx. rewrite !elem_of_cons in Hx.
      destruct Hx as [-> |[-> |[-> |Hx]]]; cbn [snd] in Hd; [apply lookup_singleton_Some in Hd; naive_solver..
        |by rewrite lookup_empty in Hd|by apply not_elem_of_nil in Hx]. }
    intros x key d Hx Hd. rewrite (Hk x key d Hx Hd). vm_compute. reflexivity.
  - apply collision_free_check. vm_compute. reflexivity.
  - exists result. split; [exact E|]. split.
    + vm_compute in E. injection E as <-. reflexivity.
    + rewrite (H (foldl (merge_task Z.max) (contents_of example_stores) (sync_tasks result)) (example_endpoint 3) [0]).
      * vm_compute. reflexivity.
      * apply (merge_tasks_delivered Z.max). intros t Ht. exact (proj1 (Hplan t Ht)).
      * apply (bool_decide_eq_true_1 (example_endpoint 3 ∈ example_stores.*1)). vm_compute. reflexivity.
Defined.
