(* ===== verification/Message.v ===== *)
(** * Internode messages

    crates/cassandra-messaging/src/verb.rs, frame.rs, forwarding.rs and
    connection_type.rs: verbs, the message header and its length-prefixed codec,
    version negotiation, forwarding metadata and the choice of a channel.
    [MessageCodec] discharges the laws of [StreamCodec]. *)
From S2P Require Export Prelude Node StreamCodec.

(** * verb.rs *)

Inductive Verb :=
| Mutation | MutationResponse | ReadData | ReadDataResponse | ReadDigest | ReadDigestResponse
| GossipDigestSyn | GossipDigestAck | GossipDigestAck2 | Hint | HintResponse | BatchStore
| BatchStoreResponse | BatchRemove | ReadRepair | ReadRepairResponse | SchemaPush | SchemaPull
| SchemaResponse | Ping | Pong | GossipShutdown | StreamInit | StreamInitResponse | StreamData
| StreamDataResponse | StreamComplete | StreamCompleteResponse | RepairRequest | RepairResponse
| MerkleTreeRequest | MerkleTreeResponse | AntiCompactionRequest | AntiCompactionResponse | TopologyChange
| TopologyChangeResponse | BootstrapRequest | BootstrapResponse | TcmCommit | TcmCommitResponse | TcmFetch
| TcmFetchResponse | TcmNotify | RequestFailure.
#[export] Instance Verb_eq_dec : EqDecision Verb.
Proof. solve_decision. Defined.

Definition Verb_id (self : Verb) : Z :=
  match self with
  | Mutation => 0 | MutationResponse => 1 | ReadData => 2 | ReadDataResponse => 3 | ReadDigest => 4
  | ReadDigestResponse => 5 | GossipDigestSyn => 6 | GossipDigestAck => 7 | GossipDigestAck2 => 8 | Hint => 9
  | HintResponse => 10 | BatchStore => 11 | BatchStoreResponse => 12 | BatchRemove => 13 | ReadRepair => 14
  | ReadRepairResponse => 15 | SchemaPush => 16 | SchemaPull => 17 | SchemaResponse => 18 | Ping => 19
  | Pong => 20 | GossipShutdown => 21 | StreamInit => 100 | StreamInitResponse => 101 | StreamData => 102
  | StreamDataResponse => 103 | StreamComplete => 104 | StreamCompleteResponse => 105 | RepairRequest => 110
  | RepairResponse => 111 | MerkleTreeRequest => 112 | MerkleTreeResponse => 113
  | AntiCompactionRequest => 114 | AntiCompactionResponse => 115 | TopologyChange => 120
  | TopologyChangeResponse => 121 | BootstrapRequest => 122 | BootstrapResponse => 123 | TcmCommit => 200
  | TcmCommitResponse => 201 | TcmFetch => 202 | TcmFetchResponse => 203 | TcmNotify => 204
  | RequestFailure => 99
  end.

Definition Verb_from_id (id : Z) : option Verb :=
  match id with
  | 0 => Some Mutation | 1 => Some MutationResponse | 2 => Some ReadData | 3 => Some ReadDataResponse
  | 4 => Some ReadDigest | 5 => Some ReadDigestResponse | 6 => Some GossipDigestSyn
  | 7 => Some GossipDigestAck | 8 => Some GossipDigestAck2 | 9 => Some Hint | 10 => Some HintResponse
  | 11 => Some BatchStore | 12 => Some BatchStoreResponse | 13 => Some BatchRemove | 14 => Some ReadRepair
  | 15 => Some ReadRepairResponse | 16 => Some SchemaPush | 17 => Some SchemaPull | 18 => Some SchemaResponse
  | 19 => Some Ping | 20 => Some Pong | 21 => Some GossipShutdown | 99 => Some RequestFailure
  | 100 => Some StreamInit | 101 => Some StreamInitResponse | 102 => Some StreamData
  | 103 => Some StreamDataResponse | 104 => Some StreamComplete | 105 => Some StreamCompleteResponse
  | 110 => Some RepairRequest | 111 => Some RepairResponse | 112 => Some MerkleTreeRequest
  | 113 => Some MerkleTreeResponse | 114 => Some AntiCompactionRequest | 115 => Some AntiCompactionResponse
  | 120 => Some TopologyChange | 121 => Some TopologyChangeResponse | 122 => Some BootstrapRequest
  | 123 => Some BootstrapResponse | 200 => Some TcmCommit | 201 => Some TcmCommitResponse
  | 202 => Some TcmFetch | 203 => Some TcmFetchResponse | 204 => Some TcmNotify
  | _ => None
  end.

Definition Verb_is_request (self : Verb) : bool :=
  match self with
  | Mutation | ReadData | ReadDigest | GossipDigestSyn | GossipDigestAck | Hint | BatchStore | BatchRemove
  | ReadRepair | SchemaPush | SchemaPull | Ping | StreamInit | StreamData | StreamComplete | RepairRequest
  | MerkleTreeRequest | AntiCompactionRequest | TopologyChange | BootstrapRequest | TcmCommit | TcmFetch
  | TcmNotify => true
  | _ => false
  end.

Definition Verb_response_verb (self : Verb) : option Verb :=
  match self with
  | Mutation => Some MutationResponse | ReadData => Some ReadDataResponse
  | ReadDigest => Some ReadDigestResponse | GossipDigestSyn => Some GossipDigestAck
  | GossipDigestAck => Some GossipDigestAck2 | Hint => Some HintResponse
  | BatchStore => Some BatchStoreResponse | ReadRepair => Some ReadRepairResponse | Ping => Some Pong
  | SchemaPull => Some SchemaResponse | StreamInit => Some StreamInitResponse
  | StreamData => Some StreamDataResponse | StreamComplete => Some StreamCompleteResponse
  | RepairRequest => Some RepairResponse | MerkleTreeRequest => Some MerkleTreeResponse
  | AntiCompactionRequest => Some AntiCompactionResponse | TopologyChange => Some TopologyChangeResponse
  | BootstrapRequest => Some BootstrapResponse | TcmCommit => Some TcmCommitResponse
  | TcmFetch => Some TcmFetchResponse
  | _ => None
  end.

(** * forwarding.rs *)

Record ForwardingHop := mkForwardingHop {
  hop_from : SocketAddr;
  hop_message_id : Z
}.
Record ForwardingInfo := mkForwardingInfo { hops : list ForwardingHop }.

Definition ForwardingInfo_single (from : SocketAddr) (message_id : Z) : ForwardingInfo :=
  mkForwardingInfo [mkForwardingHop from message_id].
Definition ForwardingInfo_add_hop (self : ForwardingInfo) (from : SocketAddr) (message_id : Z) : ForwardingInfo :=
  mkForwardingInfo (hops self ++ [mkForwardingHop from message_id]).
Definition ForwardingInfo_origin (self : ForwardingInfo) : option ForwardingHop := head (hops self).
Definition ForwardingInfo_last_forwarder (self : ForwardingInfo) : option ForwardingHop := last (hops self).
Definition ForwardingInfo_hop_count (self : ForwardingInfo) : nat := length (hops self).

(** The family byte, the address and the port; flow label and scope do not travel. *)
Definition addr_bytes (addr : SocketAddr) : list Z :=
  match addr with
  | V4 ip port => 4 :: write_be 4 ip ++ write_be 2 port
  | V6 ip port _ _ => 6 :: write_be 16 ip ++ write_be 2 port
  end.

Definition ForwardingInfo_to_bytes (self : ForwardingInfo) : list Z :=
  write_be 2 (wrap_u 16 (Z.of_nat (length (hops self))))
  ++ mjoin ((fun hop => addr_bytes (hop_from hop) ++ write_be 8 (hop_message_id hop)) <$> hops self).

(** The body of the loop, on the data from the current offset. *)
Definition read_addr (data : list Z) : option (SocketAddr * list Z) :=
  match data with
  | [] => None
  | ip_version :: data =>
      if ip_version =? 4 then
        if (length data <? 6)%nat then None
        else Some (V4 (read_u (take 4 data)) (read_u (take 2 (drop 4 data))), drop 6 data)
      else if ip_version =? 6 then
        if (length data <? 18)%nat then None
        else Some (V6 (read_u (take 16 data)) (read_u (take 2 (drop 16 data))) 0 0, drop 18 data)
      else None
  end.
Definition read_hop (data : list Z) : option (ForwardingHop * list Z) :=
  '(addr, data) ← read_addr data;
  if (length data <? 8)%nat then None
  else Some (mkForwardingHop addr (read_u (take 8 data)), drop 8 data).
Fixpoint read_hops (hop_count : nat) (data : list Z) : option (list ForwardingHop) :=
  match hop_count with
  | O => Some []
  | S n => '(hop, data) ← read_hop data; hops ← read_hops n data; Some (hop :: hops)
  end.
Definition ForwardingInfo_from_bytes (data : list Z) : option ForwardingInfo :=
  if (length data <? 2)%nat then None
  else mkForwardingInfo <$> read_hops (Z.to_nat (read_u (take 2 data))) (drop 2 data).

(** * frame.rs *)

Definition HEADER_SIZE : Z := 28.
Definition MAX_PAYLOAD_SIZE : Z := 64 * 1024 * 1024.

Definition RESPONSE : Z := 1.
Definition FAILURE : Z := 2.
Definition COMPRESSED : Z := 4.
Definition TRACING : Z := 8.
Definition FORWARDING : Z := 16.
Definition CROSS_DC : Z := 32.

Definition CURRENT_MESSAGING_VERSION : Z := 14.
Definition MIN_MESSAGING_VERSION : Z := 12.

Record VersionNegotiation := mkVersionNegotiation {
  vn_version : Z;
  vn_min_version : Z
}.
Definition VersionNegotiation_current : VersionNegotiation :=
  mkVersionNegotiation CURRENT_MESSAGING_VERSION MIN_MESSAGING_VERSION.
Definition VersionNegotiation_negotiate (self remote : VersionNegotiation) : option Z :=
  let agreed := Z.min (vn_version self) (vn_version remote) in
  if (vn_min_version self <=? agreed) && (vn_min_version remote <=? agreed) then Some agreed else None.
Definition VersionNegotiation_to_bytes (self : VersionNegotiation) : list Z :=
  write_be 4 (vn_version self) ++ write_be 4 (vn_min_version self).
Definition VersionNegotiation_from_bytes (data : list Z) : option VersionNegotiation :=
  if (length data <? 8)%nat then None
  else Some (mkVersionNegotiation (read_s (take 4 data)) (read_s (take 4 (drop 4 data)))).

Record MessageHeader := mkMessageHeader {
  verb : Verb;
  message_id : Z;
  msg_flags : Z;
  creation_timestamp : Z;
  payload_size : Z
}.
Record Message := mkMessage {
  header : MessageHeader;
  payload : list Z;
  forwarding : option ForwardingInfo;
  expires_at_nanos : option Z
}.

(** [now] is the wall clock in milliseconds since the epoch. *)
Definition Message_request (now : Z) (v : Verb) (id : Z) (body : list Z) : Message :=
  mkMessage (mkMessageHeader v id 0 now (wrap_u 32 (Z.of_nat (length body)))) body None None.
Definition Message_response (now request_id : Z) (v : Verb) (body : list Z) : Message :=
  mkMessage (mkMessageHeader v request_id RESPONSE now (wrap_u 32 (Z.of_nat (length body)))) body None None.
Definition Message_failure (now request_id : Z) (body : list Z) : Message :=
  mkMessage (mkMessageHeader RequestFailure request_id (Z.lor RESPONSE FAILURE) now
    (wrap_u 32 (Z.of_nat (length body)))) body None None.
Definition has_flag (m : Message) (flag : Z) : bool := negb (Z.land (msg_flags (header m)) flag =? 0).
Definition Message_is_response (m : Message) : bool := has_flag m RESPONSE.
Definition Message_is_failure (m : Message) : bool := has_flag m FAILURE.

Definition with_flag (m : Message) (flag : Z) : Message :=
  mkMessage (mkMessageHeader (verb (header m)) (message_id (header m)) (Z.lor (msg_flags (header m)) flag)
    (creation_timestamp (header m)) (payload_size (header m))) (payload m) (forwarding m) (expires_at_nanos m).
Definition Message_with_forwarding_info (m : Message) (info : ForwardingInfo) : Message :=
  let m := with_flag m FORWARDING in mkMessage (header m) (payload m) (Some info) (expires_at_nanos m).
Definition Message_is_expired (now_nanos : Z) (m : Message) : bool :=
  match expires_at_nanos m with Some expires_at => expires_at <? now_nanos | None => false end.

(** The texts of the [InvalidData] errors, as values. *)
Inductive MessageError :=
| MessageTooLarge (total_len : Z)
| UnknownVerbId (verb_id : Z)
| PayloadTooLarge.

Inductive MessageCodec := mkMessageCodec.

(** The getters of the buffer panic when it has fewer bytes than they take, and
    [split_to] when the subtraction has wrapped around. *)
#[export] Instance MessageCodec_decode : Decoder MessageCodec Message MessageError := fun _ src =>
  if (length src <? 4)%nat then (Pending, src)
  else
    let total_len := read_u (take 4 src) in
    if MAX_PAYLOAD_SIZE + HEADER_SIZE <? total_len then (DecodeErr (MessageTooLarge total_len), src)
    else if Z.of_nat (length src) <? 4 + total_len then (Pending, src)
    else
      let src := drop 4 src in
      if (length src <? 24)%nat then (DecodePanic, src)
      else
        let verb_id := read_s (take 4 src) in
        let message_id := read_u (take 8 (drop 4 src)) in
        let msg_flags := read_u (take 4 (drop 12 src)) in
        let creation_timestamp := read_s (take 8 (drop 16 src)) in
        let src := drop 24 src in
        match Verb_from_id verb_id with
        | None => (DecodeErr (UnknownVerbId verb_id), src)
        | Some v =>
            if total_len <? HEADER_SIZE - 4 then (DecodePanic, src)
            else
              let size := Z.to_nat (total_len - (HEADER_SIZE - 4)) in
              (Decoded (mkMessage (mkMessageHeader v message_id msg_flags creation_timestamp
                 (wrap_u 32 (total_len - (HEADER_SIZE - 4)))) (take size src) None None), drop size src)
        end.

#[export] Instance MessageCodec_encode : Encoder MessageCodec Message MessageError := fun _ msg dst =>
  let header_fields_size := HEADER_SIZE - 4 in
  let total_len := header_fields_size + Z.of_nat (length (payload msg)) in
  if MAX_PAYLOAD_SIZE <? Z.of_nat (length (payload msg)) then inl PayloadTooLarge
  else inr (dst ++ write_be 4 (wrap_u 32 total_len)
    ++ write_be 4 (Verb_id (verb (header msg))) ++ write_be 8 (message_id (header msg))
    ++ write_be 4 (msg_flags (header msg)) ++ write_be 8 (creation_timestamp (header msg))
    ++ payload msg).

(** * connection_type.rs *)

Definition LARGE_THRESHOLD : Z := 64 * 1024.
Inductive ConnectionType := Urgent | Small | Large.
Definition is_urgent (v : Verb) : bool :=
  match v with
  | Ping | Pong | GossipDigestSyn | GossipDigestAck | GossipDigestAck2 | GossipShutdown => true
  | _ => false
  end.
Definition ConnectionType_classify (v : Verb) (size : Z) : ConnectionType :=
  if is_urgent v then Urgent else if LARGE_THRESHOLD <=? size then Large else Small.

(** * Verbs *)

Lemma Verb_from_id_id v : Verb_from_id (Verb_id v) = Some v.
Proof. by destruct v. Qed.

Lemma Verb_id_range v : 0 <= Verb_id v < 256.
Proof. by destruct v. Qed.

(** The verbs with a response verb are the requests, three of which have none. *)
Lemma response_verb_requests v :
  (is_Some (Verb_response_verb v) -> Verb_is_request v = true)
  /\ (Verb_is_request v = true -> Verb_response_verb v = None -> v ∈ [BatchRemove; SchemaPush; TcmNotify]).
Proof. destruct v; (split; [by intros [? ?]|]); intros [=] [=]; set_solver. Qed.

(** * The message codec *)

(** What a decoder gives back: forwarding metadata and expiry stay on the sender. *)
Definition wire_message (m : Message) : Message :=
  mkMessage (mkMessageHeader (verb (header m)) (message_id (header m)) (msg_flags (header m))
    (creation_timestamp (header m)) (Z.of_nat (length (payload m)))) (payload m) None None.

Definition message_ok (m : Message) : Prop :=
  is_u64 (message_id (header m)) /\ in_u 32 (msg_flags (header m)) /\ is_i64 (creation_timestamp (header m)).

Definition message_bytes (m : Message) : list Z :=
  write_be 4 (24 + Z.of_nat (length (payload m))) ++ write_be 4 (Verb_id (verb (header m)))
  ++ write_be 8 (message_id (header m)) ++ write_be 4 (msg_flags (header m))
  ++ write_be 8 (creation_timestamp (header m)) ++ payload m.

Lemma length_message_bytes m : Z.of_nat (length (message_bytes m)) = 28 + Z.of_nat (length (payload m)).
Proof. unfold message_bytes. rewrite !length_app, !length_write_be. lia. Qed.

Lemma message_encode (c : MessageCodec) m dst out :
  encode c m dst = inr out ->
  out = dst ++ message_bytes m /\ Z.of_nat (length (payload m)) <= MAX_PAYLOAD_SIZE.
Proof.
  unfold encode, MessageCodec_encode, MAX_PAYLOAD_SIZE, HEADER_SIZE, message_bytes.
  destruct (Z.ltb_spec (64 * 1024 * 1024) (Z.of_nat (length (payload m)))); [done|].
  intros [= <-]. rewrite wrap_u_id by (unfold in_u; lia). done.
Qed.

Lemma message_length_field m :
  Z.of_nat (length (payload m)) <= MAX_PAYLOAD_SIZE ->
  read_u (take 4 (message_bytes m)) = 24 + Z.of_nat (length (payload m)).
Proof.
  unfold MAX_PAYLOAD_SIZE. intros Hlen. unfold message_bytes.
  rewrite take_field by apply length_write_be. apply read_u_write. unfold in_u. simpl. lia.
Qed.

Lemma message_decode_prefix (c : MessageCodec) m p :
  Z.of_nat (length (payload m)) <= MAX_PAYLOAD_SIZE -> p `prefix_of` message_bytes m -> p <> message_bytes m ->
  decode c p = (Pending, p).
Proof.
  intros Hlen Hpre Hne. pose proof (prefix_shorter _ _ Hpre Hne). pose proof (length_message_bytes m).
  unfold decode, MessageCodec_decode. destruct (Nat.ltb_spec (length p) 4); [done|].
  assert (Hl : read_u (take 4 p) = 24 + Z.of_nat (length (payload m))).
  { rewrite (prefix_take 4 p (message_bytes m)) by (done || lia). by apply message_length_field. }
  rewrite Hl. unfold MAX_PAYLOAD_SIZE, HEADER_SIZE in *.
  rewrite (proj2 (Z.ltb_ge _ _)), (proj2 (Z.ltb_lt _ _)) by lia. done.
Qed.

Lemma message_decode_whole (c : MessageCodec) m rest :
  message_ok m -> Z.of_nat (length (payload m)) <= MAX_PAYLOAD_SIZE ->
  decode c (message_bytes m ++ rest) = (Decoded (wire_message m), rest).
Proof.
  intros (Hid & Hfl & Hts) Hlen. pose proof (length_message_bytes m) as Hmb.
  unfold decode, MessageCodec_decode. rewrite length_app.
  rewrite (proj2 (Nat.ltb_ge _ _)) by lia.
  rewrite take_app_le by lia.
  rewrite message_length_field by done. unfold MAX_PAYLOAD_SIZE, HEADER_SIZE in *.
  rewrite (proj2 (Z.ltb_ge _ _)), (proj2 (Z.ltb_ge (Z.of_nat _) _)) by lia. cbv zeta.
  unfold message_bytes. rewrite <- !app_assoc, drop_field_0 by apply length_write_be.
  rewrite !length_app, !length_write_be, (proj2 (Nat.ltb_ge _ _)) by lia.
  fields.
  pose proof (Verb_id_range (verb (header m))).
  rewrite !read_s_write, !read_u_write by (done || lia || (unfold in_s; simpl; lia)).
  rewrite Verb_from_id_id, (proj2 (Z.ltb_ge _ _)) by lia.
  replace (24 + Z.of_nat (length (payload m)) - (28 - 4)) with (Z.of_nat (length (payload m))) by lia.
  rewrite Nat2Z.id, take_app_length, drop_app_length, wrap_u_id by (unfold in_u; lia). done.
Qed.

#[export] Instance MessageCodec_laws :
  CodecLaws MessageCodec Message MessageError message_ok (fun _ => wire_message).
Proof.
  constructor; [done|]. intros c m dst out Hok Henc. destruct (message_encode c m dst out Henc) as [-> Hlen].
  exists (message_bytes m). split; [done|]. split.
  - intros rest. by apply message_decode_whole.
  - intros p. by apply message_decode_prefix.
Qed.

(** C18.  Messages written one after the other to a connection are delivered by
    the decoder in order and without error, however the network cuts the byte
    stream and whenever the reader polls: at any moment the delivered messages
    are a prefix of those sent, and once all bytes have arrived one poll per
    message delivers the rest and leaves the buffer empty. *)
Theorem message_stream_reassembly c items out events
    (Hok : Forall message_ok items) (Hsent : encode_all c items [] = inr out)
    (Hread : rx_bytes events `prefix_of` out) :
  rx_failed (rx_run (C := MessageCodec) c events) = false
  /\ rx_items (rx_run c events) `prefix_of` wire_message <$> items
  /\ (rx_bytes events = out ->
      let rx := rx_run c (events ++ replicate (length items) RxPoll) in
      rx_items rx = wire_message <$> items /\ rx_buffer rx = [] /\ rx_failed rx = false).
Proof. exact (reassembly c items out events Hok Hsent Hread). Qed.

Definition sample_messages : list Message :=
  [Message_request 1700000000000 Mutation 7 [1; 2; 3]; Message_failure 1700000000001 7 []].

(** Two messages, cut inside the first header and inside the second length field. *)
Lemma message_stream_reassembly_witness :
  match encode_all mkMessageCodec sample_messages [] with
  | inr out =>
      let events := [RxRead (take 10 out); RxPoll; RxRead (take 23 (drop 10 out)); RxPoll; RxRead (drop 33 out)] in
      rx_items (rx_run mkMessageCodec events) `prefix_of` wire_message <$> sample_messages
      /\ rx_items (rx_run mkMessageCodec (events ++ replicate 2 RxPoll)) = wire_message <$> sample_messages
  | inl _ => False
  end.
Proof.
  set (out := encode_all _ _ _). vm_compute in out.
  pose proof (fun events bytes H1 H2 H3 =>
    message_stream_reassembly mkMessageCodec sample_messages bytes events H1 H2 H3) as T.
  assert (Hok : Forall message_ok sample_messages) by (repeat constructor; vm_compute; congruence).
  subst out. cbv iota. intros events.
  destruct (T events _ Hok eq_refl ltac:(exists []; vm_compute; reflexivity)) as (_ & Hpre & Hall).
  split; [exact Hpre|]. exact (proj1 (Hall ltac:(vm_compute; reflexivity))).
Defined.

(** * Malformed lengths *)

(** A length field below the size of the header fields, with fewer than those
    fields behind it, panics instead of giving an error. *)
Lemma short_length_panics (c : MessageCodec) n body :
  0 <= n < 24 -> (Z.to_nat n <= length body)%nat -> (length body < 24)%nat ->
  decode c (write_be 4 n ++ body) = (DecodePanic, body).
Proof.
  intros Hn Hb Hs. unfold decode, MessageCodec_decode. rewrite length_app, length_write_be.
  rewrite take_field, drop_field_0 by apply length_write_be. rewrite read_u_write by (unfold in_u; simpl; lia).
  unfold MAX_PAYLOAD_SIZE, HEADER_SIZE. rewrite (proj2 (Nat.ltb_ge _ _)) by lia.
  rewrite (proj2 (Z.ltb_ge _ _)), (proj2 (Z.ltb_ge _ _)), (proj2 (Nat.ltb_lt _ _)) by lia. done.
Qed.

(** * Records of the handshake and of forwarded requests *)

Lemma VersionNegotiation_roundtrip vn rest :
  is_i32 (vn_version vn) -> is_i32 (vn_min_version vn) ->
  VersionNegotiation_from_bytes (VersionNegotiation_to_bytes vn ++ rest) = Some vn.
Proof.
  intros Hv Hm. unfold VersionNegotiation_from_bytes, VersionNegotiation_to_bytes.
  rewrite !length_app, !length_write_be. simpl (_ <? 8)%nat. cbv iota. rewrite <- app_assoc. fields.
  rewrite !read_s_write by (done || lia). by destruct vn.
Qed.

(** The agreed version is the greatest one both sides speak. *)
Lemma negotiate_greatest a b v :
  VersionNegotiation_negotiate a b = Some v <->
  (vn_min_version a <= v <= vn_version a /\ vn_min_version b <= v <= vn_version b
   /\ forall w, vn_min_version a <= w <= vn_version a -> vn_min_version b <= w <= vn_version b -> w <= v).
Proof.
  unfold VersionNegotiation_negotiate. set (m := Z.min (vn_version a) (vn_version b)).
  destruct (Z.leb_spec (vn_min_version a) m), (Z.leb_spec (vn_min_version b) m); simpl.
  all: split; [intros [=]; subst; split_and!; lia|intros (Ha & Hb & Hmax)].
  all: try (exfalso; lia). f_equal. pose proof (Hmax m). lia.
Qed.

Definition addr_ok (addr : SocketAddr) : Prop :=
  match addr with
  | V4 ip port => in_u 32 ip /\ in_u 16 port
  | V6 ip port _ _ => in_u 128 ip /\ in_u 16 port
  end.
Definition wire_addr (addr : SocketAddr) : SocketAddr :=
  match addr with V4 ip port => V4 ip port | V6 ip port _ _ => V6 ip port 0 0 end.

Lemma read_addr_bytes addr rest : addr_ok addr -> read_addr (addr_bytes addr ++ rest) = Some (wire_addr addr, rest).
Proof.
  destruct addr as [ip port|ip port fl sc]; intros [Hip Hport]; cbn [addr_bytes app read_addr].
  - change (4 =? 4) with true. cbv iota. rewrite !length_app, !length_write_be. simpl (_ <? 6)%nat. cbv iota.
    rewrite <- app_assoc. fields. by rewrite !read_u_write.
  - change (6 =? 4) with false. change (6 =? 6) with true. cbv iota.
    rewrite !length_app, !length_write_be. simpl (_ <? 18)%nat. cbv iota.
    rewrite <- app_assoc. fields. by rewrite !read_u_write.
Qed.

Definition hop_ok (hop : ForwardingHop) : Prop := addr_ok (hop_from hop) /\ is_u64 (hop_message_id hop).
Definition wire_hop (hop : ForwardingHop) : ForwardingHop :=
  mkForwardingHop (wire_addr (hop_from hop)) (hop_message_id hop).

Lemma read_hops_bytes hs :
  Forall hop_ok hs ->
  read_hops (length hs) (mjoin ((fun hop => addr_bytes (hop_from hop) ++ write_be 8 (hop_message_id hop)) <$> hs))
  = Some (wire_hop <$> hs).
Proof.
  induction 1 as [|h hs [Ha Hid] _ IH]; [done|]. rewrite fmap_cons, mjoin_cons. cbn [length read_hops].
  unfold read_hop. rewrite <- !app_assoc, read_addr_bytes by done. cbn [mbind option_bind].
  rewrite length_app, length_write_be, (proj2 (Nat.ltb_ge _ _)) by lia. cbn [mbind option_bind]. fields.
  rewrite read_u_write by done. rewrite IH. done.
Qed.

Lemma ForwardingInfo_roundtrip info :
  Forall hop_ok (hops info) -> in_u 16 (Z.of_nat (length (hops info))) ->
  ForwardingInfo_from_bytes (ForwardingInfo_to_bytes info) = Some (mkForwardingInfo (wire_hop <$> hops info)).
Proof.
  intros Hok Hlen. unfold ForwardingInfo_from_bytes, ForwardingInfo_to_bytes.
  rewrite length_app, length_write_be. simpl (_ <? 2)%nat. cbv iota. fields.
  rewrite wrap_u_id, read_u_write, Nat2Z.id, read_hops_bytes by (done || lia). done.
Qed.
