(* ===== verification/FrameCodec.v ===== *)
(** * Internode frames

    crates/cassandra-messaging/src/frame_codec.rs: frames protected by the two
    checks of [Crc], frames compressed with LZ4 and protected, and plain
    length-prefixed frames.  The compression library is a parameter of the
    section.  [FrameCodec] discharges the laws of [StreamCodec], and a protected
    frame with one byte changed on the way is always refused. *)
From S2P Require Export Prelude StreamCodec.
From S2P Require Import Crc.

Definition MAX_FRAME_PAYLOAD : Z := 131071.

Inductive FrameMode := FrameCrc | FrameLz4 | FrameUnprotected.

Record Frame := mkFrame {
  self_contained : bool;
  frame_payload : list Z
}.

Record FrameCodec := mkFrameCodec { frame_mode : FrameMode }.
Definition FrameCodec_new (mode : FrameMode) : FrameCodec := mkFrameCodec mode.

(** The texts of the [InvalidData] errors, as values. *)
Inductive FrameError :=
| FramePayloadTooLarge (len : Z)
| CrcHeaderMismatch
| CrcPayloadTooLarge
| CrcPayloadMismatch
| Lz4FrameTooLarge
| Lz4HeaderMismatch
| Lz4PayloadMismatch
| Lz4DecompressionFailed
| UnprotectedPayloadTooLarge.

(** Three bytes, lowest first, and the little-endian u32 of the trailer. *)
Definition u24_bytes (v : Z) : list Z :=
  [Z.land v 255; Z.land (Z.shiftr v 8) 255; Z.land (Z.shiftr v 16) 255].
Definition read_u24 (l : list Z) : Z :=
  Z.lor (Z.lor (nth 0 l 0) (Z.shiftl (nth 1 l 0) 8)) (Z.shiftl (nth 2 l 0) 16).
Definition put_u32_le (v : Z) : list Z := rev (write_be 4 v).
Definition get_u32_le (l : list Z) : Z := read_u (rev l).

Definition encode_crc (frame : Frame) (dst : list Z) : FrameError + list Z :=
  let len := wrap_u 32 (Z.of_nat (length (frame_payload frame))) in
  let flags := if self_contained frame then 1 else 0 in
  let length_and_flags := Z.lor len (Z.shiftl flags 17) in
  let header_bytes := u24_bytes length_and_flags in
  let hdr_crc := crc24 header_bytes in
  inr (dst ++ header_bytes ++ u24_bytes hdr_crc ++ frame_payload frame
       ++ put_u32_le (crc32c (frame_payload frame))).

Definition decode_crc (src : list Z) : DecodeResult Frame FrameError * list Z :=
  if (length src <? 6)%nat then (Pending, src)
  else
    let header_bytes := take 3 src in
    let stored_crc := read_u24 (take 3 (drop 3 src)) in
    let computed_crc := crc24 header_bytes in
    if negb (stored_crc =? computed_crc) then (DecodeErr CrcHeaderMismatch, src)
    else
      let length_and_flags := read_u24 header_bytes in
      let payload_len := Z.land length_and_flags 131071 in
      let self_contained := negb (Z.land (Z.shiftr length_and_flags 17) 1 =? 0) in
      if MAX_FRAME_PAYLOAD <? payload_len then (DecodeErr CrcPayloadTooLarge, src)
      else
        let total := 6 + payload_len + 4 in
        if Z.of_nat (length src) <? total then (Pending, src)
        else
          let src := drop 6 src in
          let payload := take (Z.to_nat payload_len) src in
          let src := drop (Z.to_nat payload_len) src in
          let stored_crc32 := get_u32_le (take 4 src) in
          let src := drop 4 src in
          let computed_crc32 := crc32c payload in
          if negb (stored_crc32 =? computed_crc32) then (DecodeErr CrcPayloadMismatch, src)
          else (Decoded (mkFrame self_contained payload), src).

Definition encode_unprotected (frame : Frame) (dst : list Z) : FrameError + list Z :=
  inr (dst ++ write_be 4 (wrap_u 32 (Z.of_nat (length (frame_payload frame)))) ++ frame_payload frame).

Definition decode_unprotected (src : list Z) : DecodeResult Frame FrameError * list Z :=
  if (length src <? 4)%nat then (Pending, src)
  else
    let len := read_u (take 4 src) in
    if MAX_FRAME_PAYLOAD <? len then (DecodeErr UnprotectedPayloadTooLarge, src)
    else if Z.of_nat (length src) <? 4 + len then (Pending, src)
    else
      let src := drop 4 src in
      (Decoded (mkFrame true (take (Z.to_nat len) src)), drop (Z.to_nat len) src).

Section lz4.
(** [lz4_flex]: compression with the length prepended, and its inverse. *)
Context (compress_prepend_size : list Z -> list Z).
Context (decompress_size_prepended : list Z -> option (list Z)).

Definition encode_lz4 (frame : Frame) (dst : list Z) : FrameError + list Z :=
  let uncompressed_len := Z.of_nat (length (frame_payload frame)) in
  let compressed := compress_prepend_size (frame_payload frame) in
  let compressed_len := Z.of_nat (length compressed) in
  if (65535 <? compressed_len) || (65535 <? uncompressed_len) then inl Lz4FrameTooLarge
  else
    let header_data :=
      [Z.land compressed_len 255; Z.land (Z.shiftr compressed_len 8) 255;
       Z.land uncompressed_len 255; Z.land (Z.shiftr uncompressed_len 8) 255;
       if self_contained frame then 1 else 0] in
    let hdr_crc := crc24 header_data in
    inr (dst ++ header_data ++ u24_bytes hdr_crc ++ compressed ++ put_u32_le (crc32c compressed)).

Definition decode_lz4 (src : list Z) : DecodeResult Frame FrameError * list Z :=
  if (length src <? 8)%nat then (Pending, src)
  else
    let header_data := take 5 src in
    let stored_crc := read_u24 (take 3 (drop 5 src)) in
    let computed_crc := crc24 header_data in
    if negb (stored_crc =? computed_crc) then (DecodeErr Lz4HeaderMismatch, src)
    else
      let compressed_len := Z.lor (nth 0 header_data 0) (Z.shiftl (nth 1 header_data 0) 8) in
      let self_contained := negb (nth 4 header_data 0 =? 0) in
      let total := 8 + compressed_len + 4 in
      if Z.of_nat (length src) <? total then (Pending, src)
      else
        let src := drop 8 src in
        let compressed := take (Z.to_nat compressed_len) src in
        let src := drop (Z.to_nat compressed_len) src in
        let stored_crc32 := get_u32_le (take 4 src) in
        let src := drop 4 src in
        let computed_crc32 := crc32c compressed in
        if negb (stored_crc32 =? computed_crc32) then (DecodeErr Lz4PayloadMismatch, src)
        else match decompress_size_prepended compressed with
             | None => (DecodeErr Lz4DecompressionFailed, src)
             | Some payload => (Decoded (mkFrame self_contained payload), src)
             end.

#[local] Instance FrameCodec_decode : Decoder FrameCodec Frame FrameError := fun self src =>
  match frame_mode self with
  | FrameCrc => decode_crc src
  | FrameLz4 => decode_lz4 src
  | FrameUnprotected => decode_unprotected src
  end.

#[local] Instance FrameCodec_encode : Encoder FrameCodec Frame FrameError := fun self frame dst =>
  if MAX_FRAME_PAYLOAD <? Z.of_nat (length (frame_payload frame))
  then inl (FramePayloadTooLarge (Z.of_nat (length (frame_payload frame))))
  else match frame_mode self with
       | FrameCrc => encode_crc frame dst
       | FrameLz4 => encode_lz4 frame dst
       | FrameUnprotected => encode_unprotected frame dst
       end.
End lz4.

(** * Little-endian fields *)

Lemma lor_shift a b k : 0 <= k -> in_u k a -> Z.lor a (Z.shiftl b k) = a + 2 ^ k * b.
Proof. intros Hk Ha. rewrite Z.shiftl_mul_pow2, Z.lor_comm, lor_add by done. lia. Qed.

Lemma land_255 v : Z.land v 255 = v mod 256.
Proof. change 255 with (Z.ones 8). by rewrite Z.land_ones. Qed.

Lemma read_u24_val a b c : bytes_ok [a; b; c] -> read_u24 [a; b; c] = le_val [a; b; c].
Proof.
  intros Hok. assert (is_u8 a /\ is_u8 b /\ is_u8 c) as (Ha & Hb & Hc).
  { inversion Hok as [|? ? ? Hok1]; inversion Hok1 as [|? ? ? Hok2]; inversion Hok2. done. }
  unfold read_u24. cbn [nth le_val]. unfold in_u in *.
  rewrite (lor_shift a b 8), lor_shift by (unfold in_u; lia). lia.
Qed.

Lemma u24_bytes_ok v : bytes_ok (u24_bytes v).
Proof.
  unfold u24_bytes. rewrite !land_255. repeat constructor; apply Z.mod_pos_bound; lia.
Qed.

Lemma read_u24_bytes v : in_u 24 v -> read_u24 (u24_bytes v) = v.
Proof.
  intros Hv. unfold u24_bytes at 1. rewrite read_u24_val by apply u24_bytes_ok. cbn [le_val].
  rewrite !land_255, !Z.shiftr_div_pow2 by lia. unfold in_u in Hv. change (2 ^ 8) with 256.
  change (2 ^ 16) with (256 * 256). rewrite <- Z.div_div by lia.
  assert (Hs : v / 256 / 256 < 256) by (repeat (apply Z.div_lt_upper_bound; [lia|]); lia).
  assert (0 <= v / 256 / 256) by (repeat (apply Z.div_pos; [|lia]); lia).
  rewrite (Z.mod_small (v / 256 / 256)) by lia.
  pose proof (Z_div_mod_eq_full v 256). pose proof (Z_div_mod_eq_full (v / 256) 256). lia.
Qed.

(** The bytes of a check determine it. *)
Lemma read_u24_inj l k :
  bytes_ok l -> bytes_ok k -> length l = 3%nat -> length k = 3%nat -> read_u24 l = read_u24 k -> l = k.
Proof.
  destruct l as [|a [|b [|c [|]]]]; try done. destruct k as [|a' [|b' [|c' [|]]]]; try done.
  intros Hl Hk _ _ E. rewrite !read_u24_val in E by done. by apply le_val_inj.
Qed.

Lemma length_put_u32_le v : length (put_u32_le v) = 4%nat.
Proof. unfold put_u32_le. by rewrite length_rev, length_write_be. Qed.

Lemma get_put_u32_le v : in_u 32 v -> get_u32_le (put_u32_le v) = v.
Proof. intros Hv. unfold get_u32_le, put_u32_le. rewrite rev_involutive. by apply read_u_write. Qed.

Lemma get_u32_le_inj l k :
  bytes_ok l -> bytes_ok k -> length l = length k -> get_u32_le l = get_u32_le k -> l = k.
Proof.
  intros Hl Hk Hlen E. rewrite <- (rev_involutive l), <- (rev_involutive k). f_equal.
  apply be_val_inj; [by apply Forall_rev|by apply Forall_rev|by rewrite !length_rev|done].
Qed.

(** * Protected frames *)

(** Header with its check, body with its check. *)
Definition sealed (h body : list Z) : list Z :=
  h ++ u24_bytes (crc24 h) ++ body ++ put_u32_le (crc32c body).

Lemma length_sealed h body : length (sealed h body) = (length h + 7 + length body)%nat.
Proof. unfold sealed. rewrite !length_app, length_put_u32_le. simpl. lia. Qed.

Lemma bytes_insert l i y : bytes_ok l -> is_u8 y -> bytes_ok (<[i:=y]> l).
Proof. intros. by apply Forall_insert. Qed.

Lemma insert_changes (l : list Z) i x y : l !! i = Some x -> x <> y -> <[i:=y]> l <> l.
Proof.
  intros Hx Hne E. pose proof (lookup_lt_Some _ _ _ Hx) as Hi.
  rewrite <- E, list_lookup_insert_eq in Hx by done. by injection Hx.
Qed.

Lemma crc24_insert h i x y :
  bytes_ok h -> is_u8 y -> (length h <= 5)%nat -> h !! i = Some x -> x <> y -> crc24 (<[i:=y]> h) <> crc24 h.
Proof.
  intros Hh Hy H5 Hx Hne. assert (Hi : (i < length h)%nat) by (by apply lookup_lt_Some in Hx).
  rewrite insert_take_drop by done. rewrite <- (take_drop_middle h i x) at 3 by done.
  apply crc24_single_byte; [done| |rewrite length_drop; lia|done].
  by eapply (Forall_lookup_1 is_u8).
Qed.

Lemma crc32c_insert l i x y :
  bytes_ok l -> is_u8 y -> l !! i = Some x -> x <> y -> crc32c (<[i:=y]> l) <> crc32c l.
Proof.
  intros Hl Hy Hx Hne. assert (Hi : (i < length l)%nat) by (by apply lookup_lt_Some in Hx).
  rewrite insert_take_drop by done. rewrite <- (take_drop_middle l i x) at 3 by done.
  change (y :: ?q) with ([y] ++ q). apply (crc32c_burst _ [y] [x]); [by apply Forall_take| | | | |..].
  - by apply Forall_singleton.
  - apply Forall_singleton. by eapply (Forall_lookup_1 is_u8).
  - by apply Forall_drop.
  - done.
  - simpl. lia.
  - congruence.
Qed.

(** Where a changed byte of a protected frame shows. *)
Lemma sealed_corrupt h body i x y :
  bytes_ok h -> bytes_ok body -> (length h <= 5)%nat -> is_u8 y -> sealed h body !! i = Some x -> x <> y ->
  exists h' c b t, <[i:=y]> (sealed h body) = h' ++ c ++ b ++ t
    /\ length h' = length h /\ length c = 3%nat /\ length b = length body /\ length t = 4%nat
    /\ (read_u24 c <> crc24 h' \/ (h' = h /\ c = u24_bytes (crc24 h) /\ get_u32_le t <> crc32c b)).
Proof.
  intros Hh Hb H5 Hy Hx Hne. unfold sealed in *.
  pose proof (read_u24_bytes (crc24 h) (crc24_range h)) as Hc.
  pose proof (get_put_u32_le (crc32c body) (crc32c_range body Hb)) as Ht.
  pose proof (length_put_u32_le (crc32c body)) as Hlt.
  apply lookup_app_Some in Hx as [Hx|[Hlen Hx]].
  { rewrite insert_app_l by (by eapply lookup_lt_Some).
    eexists _, _, _, _. split_and!; [done|apply length_insert|done|done|done|left].
    rewrite Hc. by apply not_eq_sym, (crc24_insert h i x y). }
  rewrite insert_app_r_alt by done. set (j := (i - length h)%nat) in *.
  apply lookup_app_Some in Hx as [Hx|[Hlen2 Hx]].
  { rewrite insert_app_l by (by eapply lookup_lt_Some).
    eexists _, (<[j:=y]> (u24_bytes (crc24 h))), _, _. split_and!; [done|done|apply length_insert|done|done|left].
    intros E%(fun E => eq_trans E (eq_sym Hc)). apply read_u24_inj in E; [|apply bytes_insert, Hy; apply u24_bytes_ok|apply u24_bytes_ok| |done].
    - by apply (insert_changes _ _ _ _ Hx Hne).
    - by rewrite length_insert. }
  rewrite insert_app_r_alt by done. set (k := (j - length (u24_bytes (crc24 h)))%nat) in *.
  apply lookup_app_Some in Hx as [Hx|[Hlen3 Hx]].
  { rewrite insert_app_l by (by eapply lookup_lt_Some).
    eexists _, _, (<[k:=y]> body), _. split_and!; [done|done|done|apply length_insert|done|right].
    split_and!; [done|done|]. rewrite Ht. by apply not_eq_sym, (crc32c_insert body k x y). }
  rewrite insert_app_r_alt by done. set (n := (k - length body)%nat) in *.
  eexists _, _, _, (<[n:=y]> (put_u32_le (crc32c body))).
  split_and!; [done|done|done|done|by rewrite length_insert|right]. split_and!; [done|done|].
  intros E%(fun E => eq_trans E (eq_sym Ht)). apply get_u32_le_inj in E.
  - by apply (insert_changes _ _ _ _ Hx Hne).
  - apply bytes_insert, Hy. unfold put_u32_le. apply Forall_rev, be_bytes_ok.
  - unfold put_u32_le. apply Forall_rev, be_bytes_ok.
  - apply length_insert.
Qed.

(** ** Frames with checks *)

Lemma decode_crc_bad_header h c rest :
  length h = 3%nat -> length c = 3%nat -> read_u24 c <> crc24 h ->
  decode_crc (h ++ c ++ rest) = (DecodeErr CrcHeaderMismatch, h ++ c ++ rest).
Proof.
  intros Hh Hc Hne. unfold decode_crc. rewrite !length_app, (proj2 (Nat.ltb_ge _ _)) by lia.
  rewrite take_field, drop_field_0, take_field by done. by rewrite (proj2 (Z.eqb_neq _ _) Hne).
Qed.

Lemma crc_len_bound v : (MAX_FRAME_PAYLOAD <? Z.land v 131071) = false.
Proof.
  change 131071 with (Z.ones 17). rewrite Z.land_ones by lia. apply Z.ltb_ge. unfold MAX_FRAME_PAYLOAD.
  pose proof (Z.mod_pos_bound v (2 ^ 17)). lia.
Qed.

Lemma decode_crc_parts h b t rest :
  length h = 3%nat -> length t = 4%nat -> Z.land (read_u24 h) 131071 = Z.of_nat (length b) ->
  decode_crc (h ++ u24_bytes (crc24 h) ++ b ++ t ++ rest) =
  if negb (get_u32_le t =? crc32c b) then (DecodeErr CrcPayloadMismatch, rest)
  else (Decoded (mkFrame (negb (Z.land (Z.shiftr (read_u24 h) 17) 1 =? 0)) b), rest).
Proof.
  intros Hh Ht Hb. pose proof (read_u24_bytes (crc24 h) (crc24_range h)) as Hc. unfold decode_crc.
  set (c := u24_bytes (crc24 h)) in *. assert (Hlc : length c = 3%nat) by done. clearbody c.
  rewrite !length_app, (proj2 (Nat.ltb_ge _ _)) by lia.
  rewrite take_field, drop_field_0, take_field by done. rewrite Hc, Z.eqb_refl, crc_len_bound. cbn [negb].
  rewrite Hb, (proj2 (Z.ltb_ge _ _)), Nat2Z.id by lia.
  change 6%nat with (3 + (3 + 0))%nat. rewrite !drop_field, drop_0 by done.
  by rewrite take_field, drop_field_0, take_field, drop_field_0 by done.
Qed.

Lemma decode_crc_waits h b p :
  length h = 3%nat -> Z.land (read_u24 h) 131071 = Z.of_nat (length b) ->
  p `prefix_of` sealed h b -> p <> sealed h b -> decode_crc p = (Pending, p).
Proof.
  intros Hh Hb Hpre Hne. pose proof (prefix_shorter _ _ Hpre Hne) as Hlen. rewrite length_sealed in Hlen.
  unfold decode_crc. destruct (Nat.ltb_spec (length p) 6); [done|].
  rewrite (prefix_take 3 p (sealed h b)), (prefix_field 3 3 p (sealed h b)) by (done || lia).
  unfold sealed. rewrite drop_field_0, !take_field by done.
  rewrite read_u24_bytes, Z.eqb_refl by apply crc24_range. cbn [negb].
  by rewrite crc_len_bound, Hb, (proj2 (Z.ltb_lt _ _)) by lia.
Qed.

(** The header of a frame. *)
Definition crc_header (frame : Frame) : list Z :=
  u24_bytes (Z.lor (wrap_u 32 (Z.of_nat (length (frame_payload frame))))
    (Z.shiftl (if self_contained frame then 1 else 0) 17)).

Lemma crc_header_fields frame :
  Z.of_nat (length (frame_payload frame)) <= MAX_FRAME_PAYLOAD ->
  Z.land (read_u24 (crc_header frame)) 131071 = Z.of_nat (length (frame_payload frame))
  /\ negb (Z.land (Z.shiftr (read_u24 (crc_header frame)) 17) 1 =? 0) = self_contained frame.
Proof.
  unfold MAX_FRAME_PAYLOAD. intros Hlen. unfold crc_header. rewrite wrap_u_id by (unfold in_u; lia).
  set (n := Z.of_nat _) in *. assert (Hn : 0 <= n < 2 ^ 17) by lia. clearbody n.
  rewrite lor_shift by (done || lia). set (f := if self_contained frame then 1 else 0).
  assert (Hf : 0 <= f <= 1) by (unfold f; destruct (self_contained frame); lia).
  rewrite read_u24_bytes by (unfold in_u; lia). change 131071 with (Z.ones 17).
  rewrite Z.land_ones, Z.shiftr_div_pow2 by lia. rewrite (Z.mul_comm (2 ^ 17)), Z_mod_plus_full, Z_div_plus_full by lia.
  rewrite Z.mod_small, Z.div_small by done. split; [done|]. unfold f. by destruct (self_contained frame).
Qed.

Definition frame_ok (frame : Frame) : Prop := bytes_ok (frame_payload frame).

Lemma crc_framed frame :
  frame_ok frame -> Z.of_nat (length (frame_payload frame)) <= MAX_FRAME_PAYLOAD ->
  (forall rest, decode_crc (sealed (crc_header frame) (frame_payload frame) ++ rest) = (Decoded frame, rest))
  /\ (forall p, p `prefix_of` sealed (crc_header frame) (frame_payload frame) ->
      p <> sealed (crc_header frame) (frame_payload frame) -> decode_crc p = (Pending, p)).
Proof.
  intros Hok Hlen. destruct (crc_header_fields frame Hlen) as [Hl Hs]. split.
  - intros rest. unfold sealed. rewrite <- !app_assoc, decode_crc_parts by (done || apply length_put_u32_le).
    rewrite get_put_u32_le, Z.eqb_refl, Hs by (by apply crc32c_range). by destruct frame.
  - intros p. by apply decode_crc_waits.
Qed.

(** ** Frames without checks *)

Lemma unprotected_framed frame :
  Z.of_nat (length (frame_payload frame)) <= MAX_FRAME_PAYLOAD ->
  let b := write_be 4 (Z.of_nat (length (frame_payload frame))) ++ frame_payload frame in
  (forall rest, decode_unprotected (b ++ rest) = (Decoded (mkFrame true (frame_payload frame)), rest))
  /\ (forall p, p `prefix_of` b -> p <> b -> decode_unprotected p = (Pending, p)).
Proof.
  intros Hlen b. unfold MAX_FRAME_PAYLOAD in Hlen. assert (Hlb : length b = (4 + length (frame_payload frame))%nat).
  { unfold b. by rewrite length_app, length_write_be. }
  assert (Hf : read_u (take 4 b) = Z.of_nat (length (frame_payload frame))).
  { unfold b. rewrite take_field by apply length_write_be. apply read_u_write. unfold in_u. simpl. lia. }
  split.
  - intros rest. unfold decode_unprotected. rewrite take_app_le, Hf, length_app by lia. unfold MAX_FRAME_PAYLOAD.
    rewrite (proj2 (Nat.ltb_ge _ _)), (proj2 (Z.ltb_ge _ _)), (proj2 (Z.ltb_ge _ _)), Nat2Z.id by lia.
    unfold b. rewrite <- app_assoc, drop_field_0 by apply length_write_be. by rewrite take_field, drop_field_0 by done.
  - intros p Hpre Hne. pose proof (prefix_shorter _ _ Hpre Hne) as Hs. unfold decode_unprotected.
    destruct (Nat.ltb_spec (length p) 4); [done|]. rewrite (prefix_take 4 p b), Hf by (done || lia). unfold MAX_FRAME_PAYLOAD.
    by rewrite (proj2 (Z.ltb_ge _ _)), (proj2 (Z.ltb_lt _ _)) by lia.
Qed.

(** ** Compressed frames *)

Section lz4_laws.
Context (compress : list Z -> list Z) (decompress : list Z -> option (list Z)).
Hypothesis compress_bytes : forall l, bytes_ok l -> bytes_ok (compress l).
Hypothesis decompress_compress : forall l, decompress (compress l) = Some l.
#[local] Existing Instance FrameCodec_decode.
#[local] Existing Instance FrameCodec_encode.

Definition lz4_header (frame : Frame) : list Z :=
  let n := Z.of_nat (length (compress (frame_payload frame))) in
  let m := Z.of_nat (length (frame_payload frame)) in
  [Z.land n 255; Z.land (Z.shiftr n 8) 255; Z.land m 255; Z.land (Z.shiftr m 8) 255;
   if self_contained frame then 1 else 0].

Lemma lz4_header_ok frame : bytes_ok (lz4_header frame).
Proof.
  unfold lz4_header. rewrite !land_255.
  repeat constructor; try (apply Z.mod_pos_bound; lia); destruct (self_contained frame); lia.
Qed.

Lemma lz4_header_fields frame :
  Z.of_nat (length (compress (frame_payload frame))) <= 65535 ->
  Z.lor (nth 0 (lz4_header frame) 0) (Z.shiftl (nth 1 (lz4_header frame) 0) 8)
    = Z.of_nat (length (compress (frame_payload frame)))
  /\ negb (nth 4 (lz4_header frame) 0 =? 0) = self_contained frame.
Proof.
  intros Hlen. unfold lz4_header. cbn [nth]. split; [|by destruct (self_contained frame)].
  set (n := Z.of_nat _) in *. assert (0 <= n) by lia. clearbody n.
  rewrite !land_255, Z.shiftr_div_pow2, lor_shift by (try apply Z.mod_pos_bound; lia).
  change (2 ^ 8) with 256. rewrite (Z.mod_small (n / 256)).
  - pose proof (Z_div_mod_eq_full n 256). lia.
  - split; [apply Z.div_pos|apply Z.div_lt_upper_bound]; lia.
Qed.

Lemma decode_lz4_bad_header h c rest :
  length h = 5%nat -> length c = 3%nat -> read_u24 c <> crc24 h ->
  decode_lz4 decompress (h ++ c ++ rest) = (DecodeErr Lz4HeaderMismatch, h ++ c ++ rest).
Proof.
  intros Hh Hc Hne. unfold decode_lz4. rewrite !length_app, (proj2 (Nat.ltb_ge _ _)) by lia.
  rewrite take_field, drop_field_0, take_field by done. by rewrite (proj2 (Z.eqb_neq _ _) Hne).
Qed.

Lemma decode_lz4_parts h b t rest :
  length h = 5%nat -> length t = 4%nat ->
  Z.lor (nth 0 h 0) (Z.shiftl (nth 1 h 0) 8) = Z.of_nat (length b) ->
  decode_lz4 decompress (h ++ u24_bytes (crc24 h) ++ b ++ t ++ rest) =
  if negb (get_u32_le t =? crc32c b) then (DecodeErr Lz4PayloadMismatch, rest)
  else match decompress b with
       | None => (DecodeErr Lz4DecompressionFailed, rest)
       | Some payload => (Decoded (mkFrame (negb (nth 4 h 0 =? 0)) payload), rest)
       end.
Proof.
  intros Hh Ht Hb. pose proof (read_u24_bytes (crc24 h) (crc24_range h)) as Hc. unfold decode_lz4.
  set (c := u24_bytes (crc24 h)) in *. assert (Hlc : length c = 3%nat) by done. clearbody c.
  rewrite !length_app, (proj2 (Nat.ltb_ge _ _)) by lia.
  rewrite take_field, drop_field_0, take_field by done. rewrite Hc, Z.eqb_refl. cbn [negb].
  rewrite Hb, (proj2 (Z.ltb_ge _ _)), Nat2Z.id by lia.
  change 8%nat with (5 + (3 + 0))%nat. rewrite !drop_field, drop_0 by done.
  by rewrite take_field, drop_field_0, take_field, drop_field_0 by done.
Qed.

Lemma decode_lz4_waits h b p :
  length h = 5%nat -> Z.lor (nth 0 h 0) (Z.shiftl (nth 1 h 0) 8) = Z.of_nat (length b) ->
  p `prefix_of` sealed h b -> p <> sealed h b -> decode_lz4 decompress p = (Pending, p).
Proof.
  intros Hh Hb Hpre Hne. pose proof (prefix_shorter _ _ Hpre Hne) as Hlen. rewrite length_sealed in Hlen.
  unfold decode_lz4. destruct (Nat.ltb_spec (length p) 8); [done|].
  rewrite (prefix_take 5 p (sealed h b)), (prefix_field 5 3 p (sealed h b)) by (done || lia).
  unfold sealed. rewrite drop_field_0, !take_field by done.
  rewrite read_u24_bytes, Z.eqb_refl by apply crc24_range. cbn [negb].
  by rewrite Hb, (proj2 (Z.ltb_lt _ _)) by lia.
Qed.

(** ** All modes *)

Definition wire_frame (c : FrameCodec) (frame : Frame) : Frame :=
  match frame_mode c with
  | FrameUnprotected => mkFrame true (frame_payload frame)
  | _ => frame
  end.

(** The bytes of a frame in each mode. *)
Definition frame_bytes (c : FrameCodec) (frame : Frame) : list Z :=
  match frame_mode c with
  | FrameCrc => sealed (crc_header frame) (frame_payload frame)
  | FrameLz4 => sealed (lz4_header frame) (compress (frame_payload frame))
  | FrameUnprotected => write_be 4 (Z.of_nat (length (frame_payload frame))) ++ frame_payload frame
  end.

Lemma frame_encode c frame dst out :
  FrameCodec_encode compress c frame dst = inr out ->
  out = dst ++ frame_bytes c frame
  /\ Z.of_nat (length (frame_payload frame)) <= MAX_FRAME_PAYLOAD
  /\ (frame_mode c = FrameLz4 -> Z.of_nat (length (compress (frame_payload frame))) <= 65535).
Proof.
  unfold FrameCodec_encode, frame_bytes, MAX_FRAME_PAYLOAD.
  destruct (Z.ltb_spec 131071 (Z.of_nat (length (frame_payload frame)))); [done|].
  destruct (frame_mode c).
  - by intros [= <-].
  - unfold encode_lz4. destruct (Z.ltb_spec 65535 (Z.of_nat (length (compress (frame_payload frame))))); [done|].
    cbn [orb]. case_match; [done|]. by intros [= <-].
  - unfold encode_unprotected. rewrite wrap_u_id by (unfold in_u; lia). by intros [= <-].
Qed.

#[export] Instance FrameCodec_laws :
  CodecLaws (Dec := FrameCodec_decode decompress) (Enc := FrameCodec_encode compress)
    FrameCodec Frame FrameError frame_ok wire_frame.
Proof using compress_bytes decompress_compress.
  constructor; [by intros [[]]|]. intros c frame dst out Hok Henc.
  destruct (frame_encode c frame dst out Henc) as (-> & Hlen & Hlz). exists (frame_bytes c frame). split; [done|].
  unfold framed, decode, FrameCodec_decode, wire_frame, frame_bytes. destruct (frame_mode c).
  - by apply crc_framed.
  - destruct (lz4_header_fields frame (Hlz eq_refl)) as [Hl Hs]. split.
    + intros rest. unfold sealed. rewrite <- !app_assoc, decode_lz4_parts by (done || apply length_put_u32_le).
      rewrite get_put_u32_le, Z.eqb_refl, decompress_compress, Hs by (by apply crc32c_range, compress_bytes).
      by destruct frame.
    + intros p. by apply decode_lz4_waits.
  - by apply unprotected_framed.
Qed.
End lz4_laws.

(** * Delivery and integrity *)

(** Frames of each mode, written one after the other, are delivered in order
    and without error for every way the network cuts the stream and every
    schedule of polls, given that decompressing inverts compressing.  A frame
    without checks arrives marked as self-contained. *)
Theorem frame_stream_reassembly compress decompress c items out events
    (Hbytes : forall l, bytes_ok l -> bytes_ok (compress l))
    (Hlz4 : forall l, decompress (compress l) = Some l)
    (Hok : Forall frame_ok items)
    (Hsent : encode_all (Enc := FrameCodec_encode compress) c items [] = inr out)
    (Hread : rx_bytes events `prefix_of` out) :
  let run := rx_run (Dec := FrameCodec_decode decompress) c in
  rx_failed (run events) = false
  /\ rx_items (run events) `prefix_of` wire_frame c <$> items
  /\ (rx_bytes events = out ->
      let rx := run (events ++ replicate (length items) RxPoll) in
      rx_items rx = wire_frame c <$> items /\ rx_buffer rx = [] /\ rx_failed rx = false).
Proof.
  pose proof (FrameCodec_laws compress decompress Hbytes Hlz4) as Hlaws.
  exact (reassembly c items out events Hok Hsent Hread).
Qed.

Definition sample_frames : list Frame := [mkFrame false [1; 2; 3]; mkFrame true []].

(** Two frames with checks, cut inside the first header and inside the second. *)
Lemma frame_stream_reassembly_witness :
  match encode_all (Enc := FrameCodec_encode (fun l => l)) (FrameCodec_new FrameCrc) sample_frames [] with
  | inr out =>
      let events := [RxRead (take 4 out); RxPoll; RxRead (take 12 (drop 4 out)); RxPoll; RxRead (drop 16 out)] in
      rx_items (rx_run (Dec := FrameCodec_decode Some) (FrameCodec_new FrameCrc)
        (events ++ replicate 2 RxPoll)) = sample_frames
  | inl _ => False
  end.
Proof.
  set (out := encode_all _ _ _). vm_compute in out.
  assert (Hok : Forall frame_ok sample_frames) by (repeat constructor; vm_compute; congruence).
  pose proof (fun events bytes => frame_stream_reassembly (fun l => l) Some (FrameCodec_new FrameCrc)
    sample_frames bytes events (fun _ H => H) (fun _ => eq_refl) Hok) as T.
  subst out. cbv iota. intros events.
  destruct (T events _ eq_refl ltac:(exists []; vm_compute; reflexivity)) as (_ & _ & Hall).
  exact (proj1 (Hall ltac:(vm_compute; reflexivity))).
Defined.

(** C19.  One byte changed anywhere in a frame with checks, compressed or not, in
    the header, in either check or in the body, makes the decoder report an
    error: it never yields a frame and never waits for more bytes. *)
Theorem frame_corruption_detected compress decompress c frame out i x y rest
    (Hbytes : forall l, bytes_ok l -> bytes_ok (compress l))
    (Hok : frame_ok frame) (Hmode : frame_mode c <> FrameUnprotected)
    (Hsent : FrameCodec_encode compress c frame [] = inr out)
    (Hx : out !! i = Some x) (Hy : is_u8 y) (Hne : x <> y) :
  exists e buf, FrameCodec_decode decompress c (<[i:=y]> out ++ rest) = (DecodeErr e, buf).
Proof.
  destruct (frame_encode compress c frame [] out Hsent) as (-> & Hlen & Hlz).
  unfold FrameCodec_decode, frame_bytes in *. rewrite app_nil_l in *. destruct (frame_mode c); [| |done].
  - destruct (crc_header_fields frame Hlen) as [Hl _].
    destruct (sealed_corrupt (crc_header frame) (frame_payload frame) i x y) as
      (h & k & b & t & -> & Hlh & Hlk & Hlb & Hlt & [Hbad|(-> & -> & Hbad)]); [apply u24_bytes_ok|done|simpl; lia|done..| |];
      rewrite <- !app_assoc.
    + rewrite decode_crc_bad_header by done. eauto.
    + rewrite decode_crc_parts by (done || congruence). rewrite (proj2 (Z.eqb_neq _ _) Hbad). simpl. eauto.
  - destruct (lz4_header_fields compress frame (Hlz eq_refl)) as [Hl _].
    destruct (sealed_corrupt (lz4_header compress frame) (compress (frame_payload frame)) i x y) as
      (h & k & b & t & -> & Hlh & Hlk & Hlb & Hlt & [Hbad|(-> & -> & Hbad)]);
      [apply lz4_header_ok|by apply Hbytes|simpl; lia|done..| |]; rewrite <- !app_assoc.
    + rewrite decode_lz4_bad_header by done. eauto.
    + rewrite decode_lz4_parts by (done || congruence). rewrite (proj2 (Z.eqb_neq _ _) Hbad). simpl. eauto.
Qed.

(** The length byte of the header changed from 3 to 2. *)
Lemma frame_corruption_detected_witness :
  match FrameCodec_encode (fun l => l) (FrameCodec_new FrameCrc) (mkFrame true [1; 2; 3]) [] with
  | inr out => out !! 0%nat = Some 3
      /\ exists e buf, FrameCodec_decode Some (FrameCodec_new FrameCrc) (<[0%nat:=2]> out ++ []) = (DecodeErr e, buf)
  | inl _ => False
  end.
Proof.
  split; [reflexivity|].
  apply (frame_corruption_detected (fun l => l) Some (FrameCodec_new FrameCrc) (mkFrame true [1; 2; 3]) _ 0 3 2).
  - intros l H. exact H.
  - repeat constructor; vm_compute; congruence.
  - discriminate.
  - reflexivity.
  - reflexivity.
  - vm_compute. split; congruence.
  - discriminate.
Defined.
