(* ===== verification/JavaWire.v ===== *)
(** * The Java form of internode messages

    crates/cassandra-messaging/src/java_wire.rs: the third codec of
    variable-length integers, the readers of the other fields as a small monad
    over the bytes left, and the message codec built from them.

    The predicate [reads] says what a reader does with one written field, whole
    or cut short, and composes along the monad; the round trip of messages and
    the three-way agreement on integers follow from it. *)
From S2P Require Export Message.
From S2P Require Import Vint.

(** The texts of [InvalidData], as values. *)
Inductive JavaInvalid :=
| PayloadSizeExceeds (size : Z)
| InvalidLeadByte (first : Z)
| OutOfRange (field : string) (value : Z)
| TrailingBytes (count : Z).
Inductive JavaWireError :=
| UnexpectedEof
| InvalidData (reason : JavaInvalid)
| UnsupportedVerb (id : Z)
| UnsupportedRustVerb (v : Verb).

(** A reader takes a prefix of its input or fails with an error. *)
Definition JavaReader (A : Type) : Type := list Z -> JavaWireError + A * list Z.
#[export] Instance JavaReader_ret : MRet JavaReader := fun A a input => inr (a, input).
#[export] Instance JavaReader_bind : MBind JavaReader := fun A B f m input =>
  match m input with inl e => inl e | inr (a, input) => f a input end.
Definition lift {A} (r : JavaWireError + A) : JavaReader A := fun input =>
  match r with inl e => inl e | inr a => inr (a, input) end.

(** * Fields *)

Definition compute_unsigned_vint_size (value : Z) : nat :=
  let magnitude := leading_zeros (Z.lor value 1) in
  Z.to_nat (Z.shiftr (639 - magnitude * 9) 6).

(** The shift amount of a u8 is taken modulo eight. *)
Definition first_byte_value_mask (extra_bytes_to_read : nat) : Z :=
  Z.shiftr 255 (Z.of_nat extra_bytes_to_read mod 8).
Definition encode_extra_bytes_to_read (extra_bytes_to_read : nat) : Z :=
  not_u8 (first_byte_value_mask extra_bytes_to_read).

Definition write_unsigned_vint (value : Z) (out : list Z) : list Z :=
  let size := compute_unsigned_vint_size value in
  if (size =? 1)%nat then out ++ [wrap_u 8 value]
  else if (size <? 9)%nat then
    let shift := Z.of_nat ((8 - size) * 8) in
    let extra_bytes := (size - 1)%nat in
    let mask := Z.shiftl (encode_extra_bytes_to_read extra_bytes) 56 in
    let register := Z.lor (wrap_u 64 (Z.shiftl value shift)) mask in
    out ++ take size (write_be 8 register)
  else out ++ 255 :: write_be 8 value.

Definition read_exact (len : nat) : JavaReader (list Z) := fun input =>
  if (length input <? len)%nat then inl UnexpectedEof else inr (take len input, drop len input).
Definition read_u8 : JavaReader Z :=
  bytes ← read_exact 1;
  lift (match head bytes with Some b => inr b | None => inl UnexpectedEof end).
Definition read_i32 : JavaReader Z := bytes ← read_exact 4; mret (read_s bytes).
Definition write_i32 (out : list Z) (value : Z) : list Z := out ++ write_be 4 value.

(** The loop over the bytes that follow the first. *)
Fixpoint read_extra (extra : nat) (value : Z) : JavaReader Z :=
  match extra with
  | O => mret value
  | S extra => b ← read_u8; read_extra extra (push_byte value b)
  end.
Definition read_unsigned_vint : JavaReader Z :=
  first ← read_u8;
  if Z.land first 128 =? 0 then mret first
  else
    let extra := leading_ones first in
    if (8 <? extra)%nat then lift (inl (InvalidData (InvalidLeadByte first)))
    else read_extra extra (Z.land first (first_byte_value_mask extra)).

Definition checked_i32 (value : Z) (field : string) : JavaWireError + Z :=
  if value <=? i32_MAX then inr value else inl (InvalidData (OutOfRange field value)).
Definition checked_u32 (value : Z) (field : string) : JavaWireError + Z :=
  if value <=? u32_MAX then inr value else inl (InvalidData (OutOfRange field value)).
(** [usize] has 64 bits. *)
Definition checked_usize (value : Z) (field : string) : JavaWireError + Z :=
  if value <=? u64_MAX then inr value else inl (InvalidData (OutOfRange field value)).

Definition ensure_consumed (input : list Z) : JavaWireError + unit :=
  if (length input =? 0)%nat then inr () else inl (InvalidData (TrailingBytes (Z.of_nat (length input)))).

(** * Verbs *)

Definition java_verb_id (v : Verb) : JavaWireError + Z :=
  match v with
  | Mutation => inr 0 | MutationResponse => inr 60 | Hint => inr 1 | HintResponse => inr 61
  | ReadRepair => inr 2 | ReadRepairResponse => inr 62 | ReadData | ReadDigest => inr 3
  | ReadDataResponse | ReadDigestResponse => inr 63 | BatchStore => inr 5 | BatchStoreResponse => inr 65
  | BatchRemove => inr 6 | GossipDigestSyn => inr 14 | GossipDigestAck => inr 15 | GossipDigestAck2 => inr 16
  | SchemaPush => inr 18 | SchemaPull => inr 28 | SchemaResponse => inr 88 | GossipShutdown => inr 29
  | Ping => inr 31 | Pong => inr 91 | RequestFailure => inr 99
  | other => inl (UnsupportedRustVerb other)
  end.

Definition rust_verb_from_java_id (id : Z) : JavaWireError + Verb :=
  match id with
  | 0 => inr Mutation | 60 => inr MutationResponse | 1 => inr Hint | 61 => inr HintResponse
  | 2 => inr ReadRepair | 62 => inr ReadRepairResponse | 3 => inr ReadData | 63 => inr ReadDataResponse
  | 5 => inr BatchStore | 65 => inr BatchStoreResponse | 6 => inr BatchRemove | 14 => inr GossipDigestSyn
  | 15 => inr GossipDigestAck | 16 => inr GossipDigestAck2 | 18 => inr SchemaPush | 28 => inr SchemaPull
  | 88 => inr SchemaResponse | 29 => inr GossipShutdown | 31 => inr Ping | 91 => inr Pong
  | 99 => inr RequestFailure
  | other => inl (UnsupportedVerb other)
  end.

(** * Messages *)

Record JavaMessageHeader := mkJavaMessageHeader {
  jm_id : Z;
  jm_verb : Verb;
  created_at_millis_low : Z;
  expires_in_millis : Z;
  jm_flags : Z;
  params_count : Z;
  jm_payload_size : Z
}.
Record JavaMessageParam := mkJavaMessageParam {
  param_type : Z;
  param_value : list Z
}.
Record JavaMessage := mkJavaMessage {
  jm_header : JavaMessageHeader;
  jm_params : list JavaMessageParam;
  jm_payload : list Z
}.

Definition write_param (out : list Z) (param : JavaMessageParam) : list Z :=
  let out := write_unsigned_vint (param_type param) out in
  let out := write_unsigned_vint (wrap_u 64 (Z.of_nat (length (param_value param)))) out in
  out ++ param_value param.

Definition encode_raw_with_params (message : Message) (expires : Z) (params : list JavaMessageParam)
    : JavaWireError + list Z :=
  let len := Z.of_nat (length (payload message)) in
  if MAX_PAYLOAD_SIZE <? len then inl (InvalidData (PayloadSizeExceeds len))
  else
    let out := write_unsigned_vint (message_id (header message)) [] in
    let out := write_i32 out (wrap_s 32 (creation_timestamp (header message))) in
    let out := write_unsigned_vint expires out in
    match java_verb_id (verb (header message)) with
    | inl e => inl e
    | inr id =>
        let out := write_unsigned_vint id out in
        let out := write_unsigned_vint (msg_flags (header message)) out in
        let out := write_unsigned_vint (wrap_u 64 (Z.of_nat (length params))) out in
        let out := foldl write_param out params in
        let out := write_unsigned_vint (wrap_u 64 len) out in
        inr (out ++ payload message)
    end.
Definition encode_raw (message : Message) (expires : Z) : JavaWireError + list Z :=
  encode_raw_with_params message expires [].

Definition read_param : JavaReader JavaMessageParam :=
  ptype ← read_unsigned_vint;
  length ← read_unsigned_vint;
  length ← lift (checked_usize length "param length");
  value ← read_exact (Z.to_nat length);
  mret (mkJavaMessageParam ptype value).
Fixpoint read_params (count : nat) : JavaReader (list JavaMessageParam) :=
  match count with
  | O => mret []
  | S count => param ← read_param; params ← read_params count; mret (param :: params)
  end.

(** The reads of [decode_raw], up to the check that nothing is left. *)
Definition read_message : JavaReader JavaMessage :=
  id ← read_unsigned_vint;
  created ← read_i32;
  expires ← read_unsigned_vint;
  java_verb ← read_unsigned_vint;
  vid ← lift (checked_i32 java_verb "verb id");
  v ← lift (rust_verb_from_java_id vid);
  flags ← read_unsigned_vint;
  flags ← lift (checked_u32 flags "flags");
  count ← read_unsigned_vint;
  count ← lift (checked_u32 count "params count");
  params ← read_params (Z.to_nat count);
  size ← read_unsigned_vint;
  size ← lift (checked_u32 size "payload size");
  if MAX_PAYLOAD_SIZE <? size then lift (inl (InvalidData (PayloadSizeExceeds size)))
  else
    body ← read_exact (Z.to_nat size);
    mret (mkJavaMessage (mkJavaMessageHeader id v created expires flags count size) params body).
Definition decode_raw (input : list Z) : JavaWireError + JavaMessage :=
  match read_message input with
  | inl e => inl e
  | inr (m, cursor) => match ensure_consumed cursor with inl e => inl e | inr _ => inr m end
  end.

Definition to_message (decoded : JavaMessage) : Message :=
  mkMessage (mkMessageHeader (jm_verb (jm_header decoded)) (jm_id (jm_header decoded)) (jm_flags (jm_header decoded))
    (created_at_millis_low (jm_header decoded)) (jm_payload_size (jm_header decoded)))
    (jm_payload decoded) None None.

(** * Writing integers *)

Lemma mask_spec e : (e < 8)%nat -> first_byte_value_mask e = Z.shiftr 255 (Z.of_nat e).
Proof. intros He. unfold first_byte_value_mask. by rewrite Z.mod_small by lia. Qed.

Lemma prefix_java e : (e < 8)%nat -> encode_extra_bytes_to_read e = vint_prefix e.
Proof. intros He. extra_cases e. Qed.

Lemma java_size_spec v : is_u64 v -> compute_unsigned_vint_size v = vint_size v.
Proof.
  intros Hv. pose proof (log2_range v Hv) as HL. unfold compute_unsigned_vint_size, vint_size, leading_zeros.
  assert (Hpos : Z.lor v 1 <> 0) by (intros [_ ?]%Z.lor_eq_0_iff; done).
  rewrite (proj2 (Z.eqb_neq _ _) Hpos), log2_lor_1 by (unfold in_u in Hv; lia).
  set (L := Z.log2 (Z.max v 1)) in *. clearbody L. log_cases L.
Qed.

Lemma java_write_spec v out : is_u64 v -> write_unsigned_vint v out = out ++ vint_spec v.
Proof.
  intros Hv. unfold write_unsigned_vint. rewrite java_size_spec by done.
  destruct (Nat.eqb_spec (vint_size v) 1) as [E1|H1]; [by rewrite vint_spec_one|].
  pose proof (vint_size_range v). unfold vint_spec.
  destruct (Nat.ltb_spec (vint_size v) 9) as [Hlt|Hge].
  2:{ rewrite (proj2 (Nat.eqb_eq _ _)) by lia. done. }
  rewrite (proj2 (Nat.eqb_neq (vint_size v) 9)) by lia. f_equal.
  rewrite prefix_java by lia. set (s := vint_size v) in *.
  pose proof (vint_size_bound v Hv Hlt) as Hb. fold s in Hb.
  set (e := (s - 1)%nat). assert (Hs : s = S e) by lia.
  assert (Hv' : 0 <= v * 256 ^ Z.of_nat (8 - s) < 2 ^ (64 - Z.of_nat s)).
  { unfold in_u in Hv. split; [lia|]. rewrite pow256_pow2.
    replace (64 - Z.of_nat s) with (7 * Z.of_nat s + 8 * Z.of_nat (8 - s)) by lia.
    rewrite Z.pow_add_r by lia. apply Z.mul_lt_mono_pos_r; lia. }
  assert (Hreg : Z.lor (wrap_u 64 (Z.shiftl v (Z.of_nat ((8 - s) * 8)))) (Z.shiftl (vint_prefix e) 56)
                 = (vint_prefix e * 256 ^ Z.of_nat e + v) * 256 ^ Z.of_nat (8 - s)).
  { rewrite !Z.shiftl_mul_pow2 by lia.
    replace (Z.of_nat ((8 - s) * 8)) with (8 * Z.of_nat (8 - s)) by lia. rewrite <- pow256_pow2, wrap_u_id.
    2:{ pose proof (Z.pow_le_mono_r 2 (64 - Z.of_nat s) 64). unfold in_u. lia. }
    rewrite Z.lor_comm, prefix_mul by lia. rewrite <- Z.mul_assoc, <- Z.pow_add_r by lia.
    rewrite lor_add; [|lia|pose proof (Z.pow_le_mono_r 2 (64 - Z.of_nat s) (8 - Z.of_nat e + 56)); lia].
    rewrite Z.mul_add_distr_r, <- !Z.mul_assoc, !pow256_pow2, <- !Z.pow_add_r by lia. do 3 f_equal. lia. }
  rewrite Hreg. unfold write_be. replace 8%nat with (s + (8 - s))%nat at 1 by lia. rewrite take_be_bytes.
  rewrite Hs at 1. cbn [be_bytes]. pose proof (vint_high v Hv Hlt) as Hh. fold s e in Hh. simpl in Hh.
  f_equal; [|apply be_bytes_add].
  rewrite Z.div_add_l by lia. apply Z.mod_small.
  pose proof (prefix_range e ltac:(lia)). lia.
Qed.

(** * Reading what was written *)

(** [m] reads [b] as [v]: whatever follows [b] is left, and an input that ends
    inside [b] is reported as cut short. *)
Definition reads {A} (m : JavaReader A) (v : A) (b : list Z) : Prop :=
  (forall rest, m (b ++ rest) = inr (v, rest))
  /\ (forall p, p `prefix_of` b -> p <> b -> m p = inl UnexpectedEof).

Lemma reads_nil {A} (m : JavaReader A) v : (forall rest, m rest = inr (v, rest)) -> reads m v [].
Proof. intros Hm. split; [done|]. intros p Hp%prefix_nil_inv. done. Qed.

Lemma reads_bind {A B} (m : JavaReader A) (f : A -> JavaReader B) v w b c :
  reads m v b -> reads (f v) w c -> reads (m ≫= f) w (b ++ c).
Proof.
  intros [Hm1 Hm2] [Hf1 Hf2]. split.
  - intros rest. unfold mbind, JavaReader_bind. rewrite <- app_assoc, Hm1. apply Hf1.
  - intros p Hpre Hne. unfold mbind, JavaReader_bind.
    destruct (prefix_weak_total p b (b ++ c) Hpre) as [Hp|[q ->]]; [by apply prefix_app_r| |].
    + destruct (decide (p = b)) as [->|Hpb]; [|by rewrite Hm2].
      rewrite <- (app_nil_r b), Hm1. apply Hf2; [apply prefix_nil|]. intros <-. by rewrite app_nil_r in Hne.
    + rewrite Hm1. apply Hf2; [by apply prefix_app_inv in Hpre|]. by intros ->.
Qed.

Lemma reads_lift {A B} (r : JavaWireError + A) (f : A -> JavaReader B) v w b :
  r = inr v -> reads (f v) w b -> reads (lift r ≫= f) w b.
Proof. intros -> Hf. rewrite <- (app_nil_l b). eapply reads_bind; [|exact Hf]. by apply reads_nil. Qed.

Lemma reads_ret {A} (v : A) : reads (mret v) v [].
Proof. by apply reads_nil. Qed.

Lemma reads_map {A B} (m : JavaReader A) (f : A -> B) v b :
  reads m v b -> reads (a ← m; mret (f a)) (f v) b.
Proof. intros Hm. rewrite <- (app_nil_r b). eapply reads_bind; [exact Hm|apply reads_ret]. Qed.

Lemma reads_exact n b : length b = n -> reads (read_exact n) b b.
Proof.
  intros Hlen. unfold read_exact. split.
  - intros rest. rewrite length_app, (proj2 (Nat.ltb_ge _ _)) by lia. by rewrite take_field, drop_field_0.
  - intros p Hpre Hne. pose proof (prefix_shorter _ _ Hpre Hne). by rewrite (proj2 (Nat.ltb_lt _ _)) by lia.
Qed.

Lemma reads_u8 b : reads read_u8 b [b].
Proof.
  unfold read_u8. rewrite <- (app_nil_r [b]). eapply reads_bind; [by apply (reads_exact 1)|]. by apply reads_nil.
Qed.

Lemma reads_extra l acc : reads (read_extra (length l) acc) (foldl push_byte acc l) l.
Proof.
  revert acc. induction l as [|b l IH]; intros acc; [apply reads_ret|].
  cbn [length read_extra foldl]. change (b :: l) with ([b] ++ l). eapply reads_bind; [apply reads_u8|apply IH].
Qed.

(** The mask of a ninth byte keeps ones, which eight more shifts drop. *)
Lemma push_nine v : is_u64 v -> foldl push_byte 255 (be_bytes 8 v) = v.
Proof.
  intros Hv. rewrite foldl_push by (apply be_bytes_ok || (unfold in_u; lia)). rewrite length_be_bytes, be_8 by done.
  change (256 ^ Z.of_nat 8) with (2 ^ 64). rewrite Z.add_comm, Z_mod_plus_full. apply Z.mod_small, Hv.
Qed.

Lemma reads_vint v : is_u64 v -> reads read_unsigned_vint v (vint_spec v).
Proof.
  intros Hv. unfold read_unsigned_vint.
  destruct (vint_spec_split v Hv) as [[_ ->]|(e & h & He & Hh & _ & -> & Ev)].
  - change (255 :: be_bytes 8 v) with ([255] ++ be_bytes 8 v). eapply reads_bind; [apply reads_u8|].
    change (Z.land 255 128 =? 0) with false. cbv zeta iota. change (leading_ones 255) with 8%nat. cbn [Nat.ltb Nat.leb].
    change (Z.land 255 (first_byte_value_mask 8)) with 255. rewrite <- (push_nine v Hv) at 1.
    rewrite <- (length_be_bytes 8 v) at 1. apply reads_extra.
  - change (vint_prefix e + h :: be_bytes e v) with ([vint_prefix e + h] ++ be_bytes e v).
    eapply reads_bind; [apply reads_u8|].
    destruct (first_byte_read e h He Hh) as (H1 & _ & _ & _ & H5 & H6). cbv zeta. rewrite H6, H1.
    destruct (Nat.eqb_spec e 0) as [->|He0].
    + simpl in Ev. unfold be_val in Ev; simpl in Ev. unfold vint_prefix. rewrite <- Ev.
      replace (256 - 2 ^ (8 - Z.of_nat 0) + h) with (h * 1 + 0) by (simpl; lia). apply reads_ret.
    + rewrite (proj2 (Nat.ltb_ge 8 e)), mask_spec, H5 by lia.
      rewrite <- (foldl_read_spec v e h Hv) at 1 by (done || lia).
      rewrite <- (length_be_bytes e v) at 1. apply reads_extra.
Qed.

Lemma reads_i32 v : is_i32 v -> reads read_i32 v (write_be 4 v).
Proof.
  intros Hv. rewrite <- (read_s_write 4 v) at 1 by (done || lia). unfold read_i32.
  apply (reads_map _ read_s). apply reads_exact, length_write_be.
Qed.

(** * Messages *)

(** Digest reads travel as data reads. *)
Definition wire_verb (v : Verb) : Verb :=
  match v with ReadDigest => ReadData | ReadDigestResponse => ReadDataResponse | v => v end.

Lemma java_verb_roundtrip v id :
  java_verb_id v = inr id -> rust_verb_from_java_id id = inr (wire_verb v) /\ 0 <= id < 128.
Proof. destruct v; intros [= <-]; (split; [done|lia]). Qed.

Definition param_ok (param : JavaMessageParam) : Prop :=
  is_u64 (param_type param) /\ is_u64 (Z.of_nat (length (param_value param))).
Definition param_bytes (param : JavaMessageParam) : list Z :=
  vint_spec (param_type param) ++ vint_spec (Z.of_nat (length (param_value param))) ++ param_value param.

Definition java_bytes (m : Message) (expires id : Z) (params : list JavaMessageParam) : list Z :=
  vint_spec (message_id (header m)) ++ write_be 4 (wrap_s 32 (creation_timestamp (header m)))
  ++ vint_spec expires ++ vint_spec id ++ vint_spec (msg_flags (header m))
  ++ vint_spec (Z.of_nat (length params)) ++ mjoin (param_bytes <$> params)
  ++ vint_spec (Z.of_nat (length (payload m))) ++ payload m.

Lemma write_params params out :
  Forall param_ok params -> foldl write_param out params = out ++ mjoin (param_bytes <$> params).
Proof.
  intros Hok. revert out. induction Hok as [|p params [Ht Hl] _ IH]; intros out; [by rewrite app_nil_r|].
  cbn [foldl]. rewrite fmap_cons, mjoin_cons, IH. unfold write_param, param_bytes.
  rewrite wrap_u_id, !java_write_spec by done. by rewrite <- !app_assoc.
Qed.

Definition java_message_ok (m : Message) (expires : Z) (params : list JavaMessageParam) : Prop :=
  message_ok m /\ is_u64 expires /\ Forall param_ok params /\ in_u 32 (Z.of_nat (length params)).

Lemma java_encode_bytes m expires params out :
  java_message_ok m expires params -> encode_raw_with_params m expires params = inr out ->
  exists id, java_verb_id (verb (header m)) = inr id /\ out = java_bytes m expires id params
    /\ Z.of_nat (length (payload m)) <= MAX_PAYLOAD_SIZE.
Proof.
  intros ((Hid & Hfl & _) & Hex & Hps & Hn). unfold encode_raw_with_params.
  destruct (Z.ltb_spec MAX_PAYLOAD_SIZE (Z.of_nat (length (payload m)))) as [|Hlen]; [done|].
  destruct (java_verb_id (verb (header m))) as [|id] eqn:Ev; [done|]. intros [= <-].
  destruct (java_verb_roundtrip _ _ Ev) as [_ Hr]. exists id. split_and!; [done| |done].
  unfold MAX_PAYLOAD_SIZE, in_u in *. unfold write_i32. rewrite !wrap_u_id by (unfold in_u; lia).
  rewrite !java_write_spec, write_params by (done || (unfold in_u; lia)).
  rewrite app_nil_l, <- !app_assoc. done.
Qed.

Lemma reads_params params :
  Forall param_ok params -> reads (read_params (length params)) params (mjoin (param_bytes <$> params)).
Proof.
  induction 1 as [|p params [Ht Hl] _ IH]; [apply reads_ret|].
  rewrite fmap_cons, mjoin_cons. cbn [length read_params].
  eapply (reads_bind _ _ p); [|by apply (reads_map _ (cons p))]. unfold read_param, param_bytes.
  eapply reads_bind; [by apply reads_vint|]. eapply reads_bind; [by apply reads_vint|].
  eapply reads_lift.
  { unfold checked_usize, u64_MAX, in_u in *. rewrite (proj2 (Z.leb_le _ _)) by lia. done. }
  rewrite Nat2Z.id. destruct p as [t v]. apply (reads_map _ (mkJavaMessageParam t)). by apply reads_exact.
Qed.

Definition wire_java_message (m : Message) (expires : Z) (params : list JavaMessageParam) : JavaMessage :=
  mkJavaMessage
    (mkJavaMessageHeader (message_id (header m)) (wire_verb (verb (header m)))
      (wrap_s 32 (creation_timestamp (header m))) expires (msg_flags (header m))
      (Z.of_nat (length params)) (Z.of_nat (length (payload m)))) params (payload m).

Lemma reads_message m expires id params :
  java_message_ok m expires params -> java_verb_id (verb (header m)) = inr id ->
  Z.of_nat (length (payload m)) <= MAX_PAYLOAD_SIZE ->
  reads read_message (wire_java_message m expires params) (java_bytes m expires id params).
Proof.
  intros ((Hid & Hfl & _) & Hex & Hps & Hn) Hv Hlen. destruct (java_verb_roundtrip _ _ Hv) as [Hback Hr].
  unfold read_message, java_bytes, MAX_PAYLOAD_SIZE, in_u in *.
  eapply reads_bind; [by apply reads_vint|]. eapply reads_bind; [by apply reads_i32, (wrap_s_range 32)|].
  eapply reads_bind; [by apply reads_vint|]. eapply reads_bind; [apply reads_vint; unfold in_u; lia|].
  eapply reads_lift. { unfold checked_i32, i32_MAX. rewrite (proj2 (Z.leb_le _ _)) by lia. done. }
  eapply reads_lift; [exact Hback|].
  eapply reads_bind; [apply reads_vint; unfold in_u; lia|].
  eapply reads_lift. { unfold checked_u32, u32_MAX. rewrite (proj2 (Z.leb_le _ _)) by lia. done. }
  eapply reads_bind; [apply reads_vint; unfold in_u; lia|].
  eapply reads_lift. { unfold checked_u32, u32_MAX. rewrite (proj2 (Z.leb_le _ _)) by lia. done. }
  rewrite Nat2Z.id. eapply reads_bind; [by apply reads_params|].
  eapply reads_bind; [apply reads_vint; unfold in_u; lia|].
  eapply reads_lift. { unfold checked_u32, u32_MAX. rewrite (proj2 (Z.leb_le _ _)) by lia. done. }
  rewrite (proj2 (Z.ltb_ge _ _)), Nat2Z.id by lia.
  apply (reads_map _ (mkJavaMessage _ params)). by apply reads_exact.
Qed.

(** A message written in the Java layout is decoded to the same identifier,
    flags, expiry, parameters and payload, with the low 32 bits of its timestamp
    and with digest reads as data reads; cut short anywhere it is reported as
    ended too early, and with bytes after it as having trailing bytes. *)
Theorem java_message_roundtrip m expires params out
    (Hok : java_message_ok m expires params) (Henc : encode_raw_with_params m expires params = inr out) :
  decode_raw out = inr (wire_java_message m expires params)
  /\ (forall p, p `prefix_of` out -> p <> out -> decode_raw p = inl UnexpectedEof)
  /\ (forall b rest, decode_raw (out ++ b :: rest)
        = inl (InvalidData (TrailingBytes (Z.of_nat (S (length rest)))))).
Proof.
  destruct (java_encode_bytes m expires params out Hok Henc) as (id & Hv & -> & Hlen).
  destruct (reads_message m expires id params Hok Hv Hlen) as [Hwhole Hcut]. unfold decode_raw. split_and!.
  - rewrite <- (app_nil_r (java_bytes _ _ _ _)), Hwhole. done.
  - intros p Hpre Hne. by rewrite Hcut.
  - intros b rest. by rewrite Hwhole.
Qed.

Lemma java_message_roundtrip_witness :
  match encode_raw_with_params (Message_request 1700000000000 ReadDigest 300 [1; 2; 3]) 5000 [mkJavaMessageParam 4 [9]] with
  | inr out => decode_raw out = inr (wire_java_message (Message_request 1700000000000 ReadDigest 300 [1; 2; 3]) 5000 [mkJavaMessageParam 4 [9]])
      /\ decode_raw (take 6 out) = inl UnexpectedEof
  | inl _ => False
  end.
Proof.
  destruct (java_message_roundtrip (Message_request 1700000000000 ReadDigest 300 [1; 2; 3]) 5000 [mkJavaMessageParam 4 [9]]
    _ ltac:(repeat constructor; vm_compute; congruence) eq_refl) as (H1 & H2 & _).
  split; [exact H1|]. apply H2; [by eexists|vm_compute; discriminate].
Defined.

(** * Three codecs, one format *)

Lemma java_truncated v p :
  is_u64 v -> p `prefix_of` vint_spec v -> p <> vint_spec v -> read_unsigned_vint p = inl UnexpectedEof.
Proof. intros Hv. apply (proj2 (reads_vint v Hv)). Qed.

(**  The three variable-length codecs of the repository (values, SSTable
    files, internode messages) compute the same size for every u64, the length
    of the bytes they write, and write the same bytes: the reference format. *)
Theorem vint_codecs_agree v out (Hv : is_u64 v) :
  encode_uvint v = vint_spec v
  /\ Vint.write_unsigned_vint out v = Some (out ++ vint_spec v, length (vint_spec v))
  /\ write_unsigned_vint v out = out ++ vint_spec v
  /\ compute_uvint_size v = length (vint_spec v)
  /\ unsigned_vint_size v = length (vint_spec v)
  /\ compute_unsigned_vint_size v = length (vint_spec v).
Proof.
  rewrite encode_uvint_spec, write_unsigned_vint_spec, java_write_spec by done.
  rewrite compute_uvint_size_spec, unsigned_vint_size_spec, java_size_spec, vint_spec_length by done. done.
Qed.


(**  What a codec writes, signed or not, every reader gives back whatever
    follows it in the buffer or the stream, with the bytes it took; and a buffer
    or stream that ends inside the value is an error, never a wrong value. *)
Theorem vint_roundtrip v s rest p (Hv : is_u64 v) (Hs : is_i64 s)
    (Hp : p `prefix_of` encode_uvint v) (Hne : p <> encode_uvint v) :
  decode_uvint (encode_uvint v ++ rest) = Some (v, length (encode_uvint v))
  /\ decode_unsigned_vint (encode_uvint v ++ rest) = Some (v, length (encode_uvint v))
  /\ (out ← Vint.write_unsigned_vint [] v; Vint.read_unsigned_vint (out.1 ++ rest)) = Some (v, rest)
  /\ read_unsigned_vint (write_unsigned_vint v [] ++ rest) = inr (v, rest)
  /\ decode_vint (encode_vint s ++ rest) = Some (s, length (encode_vint s))
  /\ (out ← write_vint [] s; read_vint (out.1 ++ rest)) = Some (s, rest)
  /\ decode_uvint p = None /\ Vint.read_unsigned_vint p = None /\ read_unsigned_vint p = inl UnexpectedEof.
Proof.
  pose proof (zigzag_encode_range s Hs) as Hz. unfold decode_vint, encode_vint, read_vint, write_vint.
  rewrite encode_uvint_spec in Hp, Hne by done.
  rewrite !write_unsigned_vint_spec, !java_write_spec, !encode_uvint_spec by done. cbn [mbind option_bind fst app].
  rewrite !decode_uvint_spec, decode_unsigned_vint_spec, !read_unsigned_vint_spec, (proj1 (reads_vint v Hv)) by done.
  cbn [mbind option_bind]. rewrite zigzag_roundtrip by done.
  destruct (vint_truncated_rejected v p Hv Hp Hne) as (? & ?). pose proof (java_truncated v p Hv Hp Hne). by split_and!.
Qed.

