(* ===== verification/Handshake.v ===== *)
(** * Opening an internode connection

    crates/cassandra-messaging/src/handshake.rs: the initiator writes a magic
    number, flags, its address and a check; the acceptor verifies them, chooses a
    version and answers with it and another check.  The two sides are functions
    from the bytes they receive to the bytes they write and their result, and are
    composed below. *)
From S2P Require Export Message.
From S2P Require Import Vint Crc.

Definition PROTOCOL_MAGIC : Z := 3394612498.
Definition CONN_TYPE_MASK : Z := 3.
Definition COMPRESSION_LZ4 : Z := 4.
Definition FRAMING_CRC : Z := 8.
Definition VERSION_SHIFT : Z := 8.
Definition MIN_VERSION_SHIFT : Z := 16.

(** [Io] is the end of the peer's bytes. *)
Inductive HandshakeError :=
| Io
| BadMagic (got : Z)
| CrcMismatch
| VersionMismatch (min_local max_local min_remote max_remote : Z)
| InvalidData.

Record HandshakeResult := mkHandshakeResult {
  hs_version : Z;
  hs_connection_type : ConnectionType;
  hs_compression : bool;
  hs_crc_framing : bool
}.

#[local] Instance sum_bind E : MBind (sum E) := fun A B f m =>
  match m with inl e => inl e | inr a => f a end.
Definition recv (n : nat) (input : list Z) : HandshakeError + list Z * list Z :=
  match read_exact n input with Some r => inr r | None => inl Io end.

(** ** The initiator *)

Definition initiate_flags (connection_type : ConnectionType) (compression crc_framing : bool) : Z :=
  let conn_type_bits := match connection_type with Urgent => 0 | Small => 1 | Large => 2 end in
  let flags := Z.land conn_type_bits CONN_TYPE_MASK in
  let flags := if compression then Z.lor flags COMPRESSION_LZ4 else flags in
  let flags := if crc_framing then Z.lor flags FRAMING_CRC else flags in
  let flags := Z.lor flags (Z.shiftl CURRENT_MESSAGING_VERSION VERSION_SHIFT) in
  Z.lor flags (Z.shiftl MIN_MESSAGING_VERSION MIN_VERSION_SHIFT).

Definition encode_addr (addr : SocketAddr) : list Z :=
  match addr with
  | V4 ip port => 4 :: write_be 4 ip ++ write_be 2 port
  | V6 ip port _ _ => 6 :: write_be 16 ip ++ write_be 2 port
  end.

(** What is written before the check. *)
Definition initiate_payload (connection_type : ConnectionType) (compression crc_framing : bool)
    (sender_addr : SocketAddr) : list Z :=
  let addr_bytes := encode_addr sender_addr in
  write_be 4 PROTOCOL_MAGIC ++ write_be 4 (initiate_flags connection_type compression crc_framing)
  ++ write_be 2 (wrap_u 16 (Z.of_nat (length addr_bytes))) ++ addr_bytes.

(** The bytes written, and the result once [reply] has been received. *)
Definition perform_outbound_handshake (connection_type : ConnectionType) (compression crc_framing : bool)
    (sender_addr : SocketAddr) (reply : list Z) : list Z * (HandshakeError + HandshakeResult) :=
  let payload := initiate_payload connection_type compression crc_framing sender_addr in
  let crc := crc32c payload in
  (payload ++ write_be 4 crc,
   '(accept_buf, _) ← recv 12 reply;
   let accept_crc := crc32c (take 8 accept_buf) in
   let stored_crc := read_u (take 4 (drop 8 accept_buf)) in
   if negb (accept_crc =? stored_crc) then inl CrcMismatch
   else
     let max_version := read_s (take 4 accept_buf) in
     let use_version := read_s (take 4 (drop 4 accept_buf)) in
     if negb ((MIN_MESSAGING_VERSION <=? use_version) && (use_version <=? CURRENT_MESSAGING_VERSION))
     then inl (VersionMismatch MIN_MESSAGING_VERSION CURRENT_MESSAGING_VERSION use_version max_version)
     else inr (mkHandshakeResult use_version connection_type compression crc_framing)).

(** ** The acceptor *)

Definition decode_addr (data : list Z) : option SocketAddr :=
  match data with
  | [] => None
  | family :: rest =>
      if (family =? 4) && (7 <=? length data)%nat
      then Some (V4 (read_u (take 4 rest)) (read_u (take 2 (drop 4 rest))))
      else if (family =? 6) && (19 <=? length data)%nat
      then Some (V6 (read_u (take 16 rest)) (read_u (take 2 (drop 16 rest))) 0 0)
      else None
  end.

(** The flags of an initiator, once the check has been verified: what they ask
    for and the version to use. *)
Definition parse_flags (flags : Z) : HandshakeError + ConnectionType * bool * bool * Z * Z :=
  let conn_bits := Z.land flags CONN_TYPE_MASK in
  conn_type ← (if conn_bits =? 0 then inr Urgent else if conn_bits =? 1 then inr Small
               else if conn_bits =? 2 then inr Large else inl InvalidData);
  let compression := negb (Z.land flags COMPRESSION_LZ4 =? 0) in
  let crc_framing := negb (Z.land flags FRAMING_CRC =? 0) in
  let remote_max := Z.land (Z.shiftr flags VERSION_SHIFT) 255 in
  let remote_min := Z.land (Z.shiftr flags MIN_VERSION_SHIFT) 255 in
  inr (conn_type, compression, crc_framing, remote_max, remote_min).

Definition choose_version (remote_max remote_min : Z) : HandshakeError + Z :=
  let use_version := Z.min CURRENT_MESSAGING_VERSION remote_max in
  if (use_version <? MIN_MESSAGING_VERSION) || (use_version <? remote_min)
  then inl (VersionMismatch MIN_MESSAGING_VERSION CURRENT_MESSAGING_VERSION remote_min remote_max)
  else inr use_version.

Definition accept_message (use_version : Z) : list Z :=
  let accept := write_be 4 CURRENT_MESSAGING_VERSION ++ write_be 4 use_version in
  accept ++ write_be 4 (crc32c accept).

(** The result and the sender's address, the bytes written back, and the input
    left on the stream. *)
Definition accept_inbound_handshake (input : list Z)
    : HandshakeError + HandshakeResult * SocketAddr * list Z * list Z :=
  '(header, input) ← recv 8 input;
  let magic := read_u (take 4 header) in
  if negb (magic =? PROTOCOL_MAGIC) then inl (BadMagic magic)
  else
    let flags := read_u (take 4 (drop 4 header)) in
    '(addr_len_buf, input) ← recv 2 input;
    let addr_len := Z.to_nat (read_u addr_len_buf) in
    '(addr_bytes, input) ← recv addr_len input;
    '(crc_buf, input) ← recv 4 input;
    let stored_crc := read_u crc_buf in
    let check_data := header ++ addr_len_buf ++ addr_bytes in
    let computed_crc := crc32c check_data in
    if negb (stored_crc =? computed_crc) then inl CrcMismatch
    else
      '(conn_type, compression, crc_framing, remote_max, remote_min) ← parse_flags flags;
      sender_addr ← (match decode_addr addr_bytes with Some a => inr a | None => inl InvalidData end);
      use_version ← choose_version remote_max remote_min;
      inr (mkHandshakeResult use_version conn_type compression crc_framing, sender_addr,
           accept_message use_version, input).

(** * Agreement *)

Lemma recv_app n l rest : length l = n -> recv n (l ++ rest) = inr (l, rest).
Proof. intros Hl. unfold recv. by rewrite read_exact_app. Qed.

Lemma recv_field w z rest : recv w (write_be w z ++ rest) = inr (write_be w z, rest).
Proof. apply recv_app, length_write_be. Qed.

Lemma length_encode_addr addr : (length (encode_addr addr) <= 19)%nat.
Proof. destruct addr; cbn [encode_addr length]; rewrite length_app, !length_write_be; lia. Qed.

Lemma encode_addr_ok addr : bytes_ok (encode_addr addr).
Proof.
  destruct addr; (constructor; [split; lia|]); apply Forall_app; split; apply be_bytes_ok.
Qed.

Lemma decode_encode_addr addr : addr_ok addr -> decode_addr (encode_addr addr) = Some (wire_addr addr).
Proof.
  destruct addr as [ip port|ip port fl sc]; intros [Hip Hport]; unfold decode_addr, encode_addr; cbn [length];
    rewrite length_app, !length_write_be.
  - change ((4 =? 4) && (7 <=? S (4 + 2))%nat) with true. cbv iota. fields. rewrite <- (app_nil_r (write_be 2 port)).
    fields. by rewrite !read_u_write.
  - change ((6 =? 4) && (7 <=? S (16 + 2))%nat) with false. change ((6 =? 6) && (19 <=? S (16 + 2))%nat) with true.
    cbv iota. rewrite <- (app_nil_r (write_be 2 port)). fields. by rewrite !read_u_write.
Qed.

Lemma parse_initiate_flags ct compression crc_framing :
  parse_flags (initiate_flags ct compression crc_framing)
    = inr (ct, compression, crc_framing, CURRENT_MESSAGING_VERSION, MIN_MESSAGING_VERSION)
  /\ in_u 32 (initiate_flags ct compression crc_framing).
Proof. destruct ct, compression, crc_framing; (split; [reflexivity|vm_compute; split; congruence]). Qed.

Lemma initiate_payload_ok ct compression crc_framing addr :
  bytes_ok (initiate_payload ct compression crc_framing addr).
Proof. repeat (apply Forall_app; split); try apply be_bytes_ok. apply encode_addr_ok. Qed.

(** The acceptor on what an initiator writes. *)
Lemma accept_initiate ct compression crc_framing addr rest :
  addr_ok addr ->
  let payload := initiate_payload ct compression crc_framing addr in
  accept_inbound_handshake ((payload ++ write_be 4 (crc32c payload)) ++ rest)
  = inr (mkHandshakeResult CURRENT_MESSAGING_VERSION ct compression crc_framing, wire_addr addr,
         accept_message CURRENT_MESSAGING_VERSION, rest).
Proof.
  intros Haddr payload. pose proof (crc32c_range payload (initiate_payload_ok _ _ _ _)) as Hcrc.
  destruct (parse_initiate_flags ct compression crc_framing) as [Hparse Hflags].
  set (crc := crc32c payload) in *. pose proof (length_encode_addr addr) as Hla.
  unfold accept_inbound_handshake. unfold payload at 1, initiate_payload.
  rewrite <- !app_assoc, (app_assoc (write_be 4 PROTOCOL_MAGIC)).
  rewrite recv_app by (by rewrite length_app, !length_write_be). cbn [mbind sum_bind]. cbv zeta. fields.
  rewrite (read_u_write 4 PROTOCOL_MAGIC) by (vm_compute; split; congruence).
  rewrite Z.eqb_refl. cbn [negb]. rewrite recv_field. cbn [mbind sum_bind].
  rewrite wrap_u_id, read_u_write, Nat2Z.id by (unfold in_u; simpl; lia).
  rewrite recv_app by done. cbn [mbind sum_bind]. rewrite recv_field. cbn [mbind sum_bind].
  rewrite (read_u_write 4 crc) by done.
  rewrite <- app_assoc.
  replace (crc32c (write_be 4 PROTOCOL_MAGIC ++ _)) with crc
    by (unfold crc, payload, initiate_payload; by rewrite wrap_u_id by (unfold in_u; lia)).
  rewrite Z.eqb_refl. cbn [negb]. rewrite (take_ge (write_be _ _)) by (by rewrite length_write_be).
  rewrite read_u_write, Hparse by done. cbn [mbind sum_bind]. by rewrite decode_encode_addr.
Qed.

(** The initiator on an answer with a version it speaks. *)
Lemma outbound_accept ct compression crc_framing addr v rest :
  MIN_MESSAGING_VERSION <= v <= CURRENT_MESSAGING_VERSION ->
  (perform_outbound_handshake ct compression crc_framing addr (accept_message v ++ rest)).2
  = inr (mkHandshakeResult v ct compression crc_framing).
Proof.
  intros Hv. unfold MIN_MESSAGING_VERSION, CURRENT_MESSAGING_VERSION in Hv. unfold accept_message.
  set (accept := write_be 4 CURRENT_MESSAGING_VERSION ++ write_be 4 v).
  assert (Hok : bytes_ok accept) by (apply Forall_app; split; apply be_bytes_ok).
  pose proof (crc32c_range accept Hok) as Hcrc. assert (Hla : length accept = 8%nat) by done.
  unfold perform_outbound_handshake. cbn [snd].
  rewrite recv_app by (by rewrite length_app, length_write_be). cbn [mbind sum_bind]. cbv zeta.
  rewrite take_field, (drop_field_0 8), (take_ge (write_be _ _)) by (done || by rewrite length_write_be).
  rewrite read_u_write, Z.eqb_refl by done. cbn [negb]. unfold accept. rewrite <- app_assoc. fields.
  rewrite !read_s_write by (lia || (unfold in_s; simpl; lia)).
  unfold MIN_MESSAGING_VERSION, CURRENT_MESSAGING_VERSION.
  by rewrite !(proj2 (Z.leb_le _ _)) by lia.
Qed.

Lemma choose_version_negotiate remote_max remote_min v :
  choose_version remote_max remote_min = inr v ->
  VersionNegotiation_negotiate VersionNegotiation_current (mkVersionNegotiation remote_max remote_min) = Some v
  /\ MIN_MESSAGING_VERSION <= v <= CURRENT_MESSAGING_VERSION.
Proof.
  unfold choose_version, VersionNegotiation_negotiate, VersionNegotiation_current, MIN_MESSAGING_VERSION, CURRENT_MESSAGING_VERSION.
  cbn [vn_version vn_min_version]. set (m := Z.min 14 remote_max).
  destruct (Z.ltb_spec m 12), (Z.ltb_spec m remote_min); cbn [orb]; intros [= <-].
  rewrite !(proj2 (Z.leb_le _ _)) by lia. split; [done|lia].
Qed.

(** The versions in the flags of an initiator's message. *)
Definition offered_versions (input : list Z) : VersionNegotiation :=
  let flags := read_u (take 4 (drop 4 (take 8 input))) in
  mkVersionNegotiation (Z.land (Z.shiftr flags 8) 255) (Z.land (Z.shiftr flags 16) 255).

Lemma parse_flags_versions flags ct compression crc_framing mx mn :
  parse_flags flags = inr (ct, compression, crc_framing, mx, mn) ->
  mx = Z.land (Z.shiftr flags 8) 255 /\ mn = Z.land (Z.shiftr flags 16) 255.
Proof.
  unfold parse_flags, mbind, sum_bind. repeat (case_match; try done); intros E; by injection E as _ _ _ <- <-.
Qed.

(** What an accepted connection rests on. *)
Lemma accept_inv input r addr accept rest :
  accept_inbound_handshake input = inr (r, addr, accept, rest) ->
  let offered := offered_versions input in
  choose_version (vn_version offered) (vn_min_version offered) = inr (hs_version r)
  /\ accept = accept_message (hs_version r).
Proof.
  unfold accept_inbound_handshake, mbind, sum_bind. unfold recv at 1, read_exact at 1.
  repeat (case_match; try done). intros E. injection E as <- <- <- <-. simplify_eq.
  match goal with H : parse_flags _ = _ |- _ => apply parse_flags_versions in H as [-> ->] end. done.
Qed.

(** C36.  Two nodes that run the handshake agree: the acceptor of what an initiator
    wrote and the initiator that gets the acceptor's answer end with the same
    version, channel, compression and framing, the acceptor knows the initiator's
    address and port, and bytes that follow are left on the stream.  Whatever an
    acceptor was sent, a connection it accepts has the greatest version that both
    sides speak, and its answer makes an initiator of this version choose the same. *)
Theorem handshake_agreement ct compression crc_framing addr rest rest' (Haddr : addr_ok addr) :
  (exists r accept,
     accept_inbound_handshake ((perform_outbound_handshake ct compression crc_framing addr rest').1 ++ rest)
       = inr (r, wire_addr addr, accept, rest)
     /\ (perform_outbound_handshake ct compression crc_framing addr (accept ++ rest')).2 = inr r
     /\ r = mkHandshakeResult CURRENT_MESSAGING_VERSION ct compression crc_framing)
  /\ (forall input r addr' accept left, accept_inbound_handshake input = inr (r, addr', accept, left) ->
      (perform_outbound_handshake ct compression crc_framing addr (accept ++ rest')).2
        = inr (mkHandshakeResult (hs_version r) ct compression crc_framing)
      /\ VersionNegotiation_negotiate VersionNegotiation_current (offered_versions input) = Some (hs_version r)).
Proof.
  split.
  - eexists _, _. split_and!; [by apply accept_initiate|by apply outbound_accept|done].
  - intros input r addr' accept left E. destruct (accept_inv _ _ _ _ _ E) as (Hc & ->).
    destruct (choose_version_negotiate _ _ _ Hc) as [Hneg Hr]. split; [by apply outbound_accept|done].
Qed.

Lemma handshake_agreement_witness :
  exists r accept,
    accept_inbound_handshake ((perform_outbound_handshake Large true false (V6 1 7000 3 4) []).1 ++ [])
      = inr (r, V6 1 7000 0 0, accept, [])
    /\ (perform_outbound_handshake Large true false (V6 1 7000 3 4) (accept ++ [])).2 = inr r.
Proof.
  destruct (handshake_agreement Large true false (V6 1 7000 3 4) [] []) as [(r & accept & H1 & H2 & _) _].
  - vm_compute. repeat split; congruence.
  - exists r, accept. split; [exact H1|exact H2].
Defined.
