(* ===== verification/Limits.v ===== *)
(** * Byte limits of internode connections

    crates/cassandra-messaging/src/resource_limits.rs.  A limit is an atomic
    counter with a maximum; an allocation passes three of them in turn and gives
    a permit whose drop releases them.  Callers run concurrently: the model cuts
    [EndpointLimits::try_allocate] and the drop of a permit at their atomic
    operations (load, compare-and-exchange that may fail for no reason, and
    subtraction), and the theorems are about every interleaving of any number of
    callers. *)
From S2P Require Export Prelude.

Record Limit := mkLimit {
  lim_allocated : Z;
  lim_max_bytes : Z
}.
Definition Limit_new (max_bytes : Z) : Limit := mkLimit 0 max_bytes.

(** [fetch_sub] wraps around. *)
Definition Limit_release (self : Limit) (bytes : Z) : Limit :=
  mkLimit (wrap_u 64 (lim_allocated self - bytes)) (lim_max_bytes self).
Definition Limit_remaining (self : Limit) : Z := saturating_sub (lim_max_bytes self) (lim_allocated self).

(** The test after the load of [current]: is there no room? *)
Definition Limit_exceeds (self : Limit) (current bytes : Z) : bool :=
  lim_max_bytes self <? wrap_u 64 (current + bytes).
(** [compare_exchange_weak(current, current + bytes)]: the new limit on success. *)
Definition Limit_exchange (self : Limit) (current bytes : Z) (spurious : bool) : option Limit :=
  if spurious || negb (lim_allocated self =? current) then None
  else Some (mkLimit (wrap_u 64 (current + bytes)) (lim_max_bytes self)).

(** [try_allocate] without interference: one turn of the loop. *)
Definition Limit_try_allocate (self : Limit) (bytes : Z) : Limit * bool :=
  let current := lim_allocated self in
  if Limit_exceeds self current bytes then (self, false)
  else match Limit_exchange self current bytes false with
       | Some l => (l, true)
       | None => (self, false)
       end.

(** Limits are shared: an endpoint names three of them. *)
Abbreviation LimitId := nat.
Record EndpointLimits := mkEndpointLimits {
  el_connection : LimitId;
  el_endpoint : LimitId;
  el_global : LimitId
}.
Definition tier (self : EndpointLimits) (k : nat) : LimitId :=
  match k with 0%nat => el_connection self | 1%nat => el_endpoint self | _ => el_global self end.

(** Where a caller is.  [PcLoad k] and [PcCas k _] are in the loop of tier [k];
    [PcUndo k] gives tiers [k - 1] to 0 back after a failure at tier [k];
    [PcHeld] has the permit; [PcDrop k] is dropping it and has released the tiers
    below [k]. *)
Inductive Pc :=
| PcLoad (k : nat)
| PcCas (k : nat) (current : Z)
| PcUndo (k : nat)
| PcHeld
| PcDrop (k : nat)
| PcDone (granted : bool).

Record Caller := mkCaller {
  cl_limits : EndpointLimits;
  cl_bytes : Z;
  cl_pc : Pc
}.
Definition at_pc (c : Caller) (pc : Pc) : Caller := mkCaller (cl_limits c) (cl_bytes c) pc.

(** The next atomic operation of a caller on the shared limits. *)
Definition caller_step (limits : list Limit) (c : Caller) (spurious : bool) : list Limit * Caller :=
  let release k := alter (fun l => Limit_release l (cl_bytes c)) (tier (cl_limits c) k) limits in
  match cl_pc c with
  | PcLoad k =>
      match limits !! tier (cl_limits c) k with
      | None => (limits, c)
      | Some l =>
          let current := lim_allocated l in
          if Limit_exceeds l current (cl_bytes c)
          then (limits, at_pc c (match k with O => PcDone false | S _ => PcUndo k end))
          else (limits, at_pc c (PcCas k current))
      end
  | PcCas k current =>
      match limits !! tier (cl_limits c) k with
      | None => (limits, c)
      | Some l =>
          match Limit_exchange l current (cl_bytes c) spurious with
          | Some l' => (<[tier (cl_limits c) k := l']> limits, at_pc c (if (k =? 2)%nat then PcHeld else PcLoad (S k)))
          | None => (limits, at_pc c (PcLoad k))
          end
      end
  | PcUndo O => (limits, at_pc c (PcDone false))
  | PcUndo (S k) => (release k, at_pc c (match k with O => PcDone false | S _ => PcUndo k end))
  | PcHeld => (limits, c)
  | PcDrop k => (release k, at_pc c (if (k =? 2)%nat then PcDone true else PcDrop (S k)))
  | PcDone _ => (limits, c)
  end.

Record World := mkWorld {
  w_limits : list Limit;
  w_callers : list Caller
}.

(** A new call of [try_allocate], an operation of caller [i], or the drop of its
    permit. *)
Inductive Event :=
| Start (limits : EndpointLimits) (bytes : Z)
| Run (i : nat) (spurious : bool)
| DropPermit (i : nat).

Definition world_step (w : World) (ev : Event) : World :=
  match ev with
  | Start e bytes => mkWorld (w_limits w) (w_callers w ++ [mkCaller e bytes (PcLoad 0)])
  | Run i spurious =>
      match w_callers w !! i with
      | None => w
      | Some c => let '(limits, c') := caller_step (w_limits w) c spurious in
                  mkWorld limits (<[i := c']> (w_callers w))
      end
  | DropPermit i =>
      match w_callers w !! i with
      | Some c => match cl_pc c with
                  | PcHeld => mkWorld (w_limits w) (<[i := at_pc c (PcDrop 0)]> (w_callers w))
                  | _ => w
                  end
      | None => w
      end
  end.

Definition world_init (maxes : list Z) : World := mkWorld (Limit_new <$> maxes) [].
Definition world_run (maxes : list Z) (events : list Event) : World :=
  foldl world_step (world_init maxes) events.

(** * Accounting *)

(** The tiers whose bytes a caller has taken and not given back. *)
Definition held_tiers (pc : Pc) : list nat :=
  match pc with
  | PcLoad k | PcCas k _ | PcUndo k => seq 0 k
  | PcHeld => seq 0 3
  | PcDrop k => seq k (3 - k)
  | PcDone _ => []
  end.
Definition tier_bytes (e : EndpointLimits) (bytes : Z) (l : LimitId) (k : nat) : Z :=
  if decide (tier e k = l) then bytes else 0.
Definition held (c : Caller) (l : LimitId) : Z :=
  zsum_with (tier_bytes (cl_limits c) (cl_bytes c) l) (held_tiers (cl_pc c)).

Definition pc_ok (maxes : list Z) (c : Caller) : Prop :=
  match cl_pc c with
  | PcLoad k => (k < 3)%nat
  | PcCas k current => (k < 3)%nat /\ 0 <= current
      /\ forall mx, maxes !! tier (cl_limits c) k = Some mx -> current + cl_bytes c <= mx
  | PcUndo k => (0 < k < 3)%nat
  | PcDrop k => (k < 3)%nat
  | PcHeld | PcDone _ => True
  end.
(** The limits exist, and the request is small enough that no sum of it and a
    maximum overflows. *)
Definition request_ok (maxes : list Z) (e : EndpointLimits) (bytes : Z) : Prop :=
  (forall k, is_Some (maxes !! tier e k)) /\ 0 <= bytes /\ Forall (fun mx => mx + bytes < 2 ^ 64) maxes.
Definition caller_ok (maxes : list Z) (c : Caller) : Prop :=
  request_ok maxes (cl_limits c) (cl_bytes c) /\ pc_ok maxes c.

Definition limit_ok (l : Limit) : Prop := 0 <= lim_allocated l <= lim_max_bytes l.

Lemma held_nonneg c l : 0 <= cl_bytes c -> 0 <= held c l.
Proof.
  intros Hb. apply zsum_with_nonneg, Forall_forall. intros k _. unfold tier_bytes. case_decide; lia.
Qed.

(** What one operation does to the limits: every counter moves by the change of
    what the caller holds, within its bounds. *)
Definition step_spec (limits limits' : list Limit) (c c' : Caller) : Prop :=
  length limits' = length limits /\
  forall l lim', limits' !! l = Some lim' ->
    exists lim, limits !! l = Some lim /\ lim_max_bytes lim' = lim_max_bytes lim
      /\ lim_allocated lim' = lim_allocated lim - held c l + held c' l /\ limit_ok lim'.

Lemma step_spec_same limits c c' :
  Forall limit_ok limits -> (forall l, held c' l = held c l) -> step_spec limits limits c c'.
Proof.
  intros Hok Hh. split; [done|]. intros l lim Hl. exists lim. rewrite Hh. split_and!; [done|done|lia|].
  by eapply (Forall_lookup_1 limit_ok).
Qed.

(** An update of one limit by what the caller gains or loses there. *)
Lemma step_spec_update limits c c' i d new :
  Forall limit_ok limits ->
  (forall l, held c' l = held c l + if decide (i = l) then d else 0) ->
  (forall lim, limits !! i = Some lim ->
     new lim = mkLimit (lim_allocated lim + d) (lim_max_bytes lim) /\ limit_ok (new lim)) ->
  step_spec limits (alter new i limits) c c'.
Proof.
  intros Hok Hh Hnew. split; [apply length_alter|]. intros l lim' Hl. rewrite Hh.
  apply list_lookup_alter_Some in Hl as [(-> & lim & Hlim & ->)|[Hne Hlim]].
  - destruct (Hnew lim Hlim) as [E Hlok]. exists lim. rewrite decide_True by done. rewrite E in *. simpl.
    split_and!; [done|done|lia|done].
  - exists lim'. rewrite decide_False by done. split_and!; [done|done|lia|].
    by eapply (Forall_lookup_1 limit_ok).
Qed.

Lemma held_seq_S e bytes l k :
  zsum_with (tier_bytes e bytes l) (seq 0 (S k)) = zsum_with (tier_bytes e bytes l) (seq 0 k) + tier_bytes e bytes l k.
Proof. rewrite seq_S, zsum_with_app. simpl. lia. Qed.

Section caller.
Context (maxes : list Z) (limits : list Limit) (c : Caller) (spurious : bool).
Hypothesis Hmax : lim_max_bytes <$> limits = maxes.
Hypothesis Hok : Forall limit_ok limits.
Hypothesis Hc : caller_ok maxes c.
Hypothesis Hheld : forall l lim, limits !! l = Some lim -> held c l <= lim_allocated lim.

Lemma limit_facts l lim :
  limits !! l = Some lim ->
  maxes !! l = Some (lim_max_bytes lim) /\ limit_ok lim /\ 0 <= cl_bytes c /\ lim_max_bytes lim + cl_bytes c < 2 ^ 64.
Proof.
  intros Hl. assert (Hm : maxes !! l = Some (lim_max_bytes lim)) by (by rewrite <- Hmax, list_lookup_fmap, Hl).
  destruct Hc as [(_ & Hb & Hsmall) _]. split_and!; [done| |done|].
  - by eapply (Forall_lookup_1 limit_ok).
  - by apply (Forall_lookup_1 _ _ _ _ Hsmall Hm).
Qed.

(** Giving tier [k] back. *)
Lemma release_spec pc k :
  (forall l, held c l = held (at_pc c pc) l + tier_bytes (cl_limits c) (cl_bytes c) l k) ->
  step_spec limits (alter (fun l => Limit_release l (cl_bytes c)) (tier (cl_limits c) k) limits) c (at_pc c pc).
Proof.
  intros Hh. apply (step_spec_update _ _ _ _ (- cl_bytes c)); [done| |].
  { intros l. rewrite Hh. unfold tier_bytes. case_decide; lia. }
  intros lim Hl. destruct (limit_facts _ _ Hl) as (_ & Hlo & Hb & Hsm). unfold limit_ok in *.
  pose proof (Hheld _ _ Hl) as Hge. rewrite Hh in Hge. unfold tier_bytes in Hge. rewrite decide_True in Hge by done.
  pose proof (held_nonneg (at_pc c pc) (tier (cl_limits c) k) Hb).
  unfold Limit_release. rewrite wrap_u_id by (unfold in_u; lia). simpl. split; [f_equal|]; lia.
Qed.

Lemma load_ok k :
  cl_pc c = PcLoad k ->
  let '(limits', c') := caller_step limits c spurious in
  limits' = limits /\ caller_ok maxes c' /\ step_spec limits limits' c c'.
Proof.
  intros Hpc. destruct Hc as [Hreq Hpok]. unfold caller_step, pc_ok in *. rewrite Hpc in *.
  destruct (limits !! tier (cl_limits c) k) as [l|] eqn:El.
  2:{ split_and!; [done|split; [done|unfold pc_ok; by rewrite Hpc]|by apply step_spec_same]. }
  destruct (limit_facts _ _ El) as (Hmx & [Hl0 Hl1] & Hb & Hsm). cbv zeta. unfold Limit_exceeds.
  rewrite wrap_u_id by (unfold in_u; lia). destruct (Z.ltb_spec (lim_max_bytes l) (lim_allocated l + cl_bytes c)).
  - split_and!; [done|split; [done|]; unfold pc_ok; destruct k; cbn; [done|lia]|].
    apply step_spec_same; [done|]. intros i. unfold held. rewrite Hpc. by destruct k.
  - split_and!; [done|split; [done|]; simpl|].
    + split_and!; [done|done|]. intros mx Hm. cbn [at_pc cl_limits cl_bytes] in *. rewrite Hmx in Hm. injection Hm as <-. lia.
    + apply step_spec_same; [done|]. intros i. unfold held. by rewrite Hpc.
Qed.

Lemma cas_ok k current :
  cl_pc c = PcCas k current ->
  let '(limits', c') := caller_step limits c spurious in
  caller_ok maxes c' /\ step_spec limits limits' c c'.
Proof.
  intros Hpc. destruct Hc as [Hreq Hpok]. unfold caller_step, pc_ok in *. rewrite Hpc in *.
  destruct Hpok as (Hk & Hcur & Hroom).
  destruct (limits !! tier (cl_limits c) k) as [l|] eqn:El.
  2:{ split_and!; [split; [done|unfold pc_ok; by rewrite Hpc]|by apply step_spec_same]. }
  destruct (limit_facts _ _ El) as (Hmx & [Hl0 Hl1] & Hb & Hsm). specialize (Hroom _ Hmx). unfold Limit_exchange.
  destruct (spurious || negb (lim_allocated l =? current)) eqn:Ecas.
  { split_and!; [split; [done|done]|]. apply step_spec_same; [done|]. intros i. unfold held. by rewrite Hpc. }
  apply orb_false_iff in Ecas as [_ Eq%negb_false_iff%Z.eqb_eq].
  set (pc := if (k =? 2)%nat then PcHeld else PcLoad (S k)).
  assert (Hpc' : held_tiers pc = seq 0 (S k) /\ caller_ok maxes (at_pc c pc)).
  { unfold pc. destruct (Nat.eqb_spec k 2) as [->|]; (split; [done|split; [done|]]); unfold pc_ok; cbn; [done|lia]. }
  destruct Hpc' as [Hseq Hpok']. split_and!; [done|]. rewrite list_insert_alter.
  apply (step_spec_update _ _ _ _ (cl_bytes c)); [done| |].
  - intros i. unfold held, at_pc. simpl. by rewrite Hpc, Hseq, held_seq_S.
  - intros lim Hlim. rewrite El in Hlim. injection Hlim as <-. rewrite Eq, wrap_u_id by (unfold in_u; lia).
    split; [done|]. split; simpl; lia.
Qed.

Lemma caller_step_ok :
  let '(limits', c') := caller_step limits c spurious in
  caller_ok maxes c' /\ step_spec limits limits' c c'.
Proof.
  destruct (cl_pc c) as [k|k cur|[|k]| |k|g] eqn:Hpc.
  - pose proof (load_ok k Hpc) as H. by destruct (caller_step _ _ _) as [limits' c'], H as (-> & ?).
  - exact (cas_ok k cur Hpc).
  - destruct Hc as [_ Hpok]. unfold pc_ok in Hpok. rewrite Hpc in Hpok. lia.
  - unfold caller_step. rewrite Hpc. destruct Hc as [Hreq Hpok]. unfold pc_ok in Hpok. rewrite Hpc in Hpok. split.
    + split; [done|]. unfold pc_ok, at_pc. simpl. destruct k; [done|lia].
    + apply release_spec. intros l. unfold held. rewrite Hpc. cbn [held_tiers]. rewrite held_seq_S.
      by destruct k.
  - unfold caller_step. rewrite Hpc. split; [done|]. by apply step_spec_same.
  - unfold caller_step. rewrite Hpc. destruct Hc as [Hreq Hpok]. unfold pc_ok in Hpok. rewrite Hpc in Hpok. split.
    + split; [done|]. unfold pc_ok, at_pc. simpl. destruct (Nat.eqb_spec k 2); [done|lia].
    + apply release_spec. intros l. unfold held. rewrite Hpc. cbn [held_tiers at_pc cl_pc cl_limits cl_bytes].
      destruct k as [|[|[|k]]]; [simpl; lia..|lia].
  - unfold caller_step. rewrite Hpc. split; [done|]. by apply step_spec_same.
Qed.
End caller.

(** * Every interleaving *)

Definition total_held (callers : list Caller) (l : LimitId) : Z := zsum_with (fun c => held c l) callers.

Definition world_ok (maxes : list Z) (w : World) : Prop :=
  lim_max_bytes <$> w_limits w = maxes /\ Forall (caller_ok maxes) (w_callers w)
  /\ forall l lim, w_limits w !! l = Some lim ->
       lim_allocated lim = total_held (w_callers w) l /\ limit_ok lim.

Definition event_ok (maxes : list Z) (ev : Event) : Prop :=
  match ev with Start e bytes => request_ok maxes e bytes | _ => True end.

Lemma world_ok_limits maxes w : world_ok maxes w -> Forall limit_ok (w_limits w).
Proof. intros (_ & _ & H). apply Forall_lookup. intros l lim Hl. by apply (H l lim). Qed.

Lemma callers_held_nonneg maxes cs l : Forall (caller_ok maxes) cs -> Forall (fun c => 0 <= held c l) cs.
Proof. intros Hcs. eapply Forall_impl; [exact Hcs|]. intros c [(_ & Hb & _) _]. by apply held_nonneg. Qed.

(** An update of one caller that respects [step_spec]. *)
Lemma world_ok_update maxes w limits' i c c' :
  world_ok maxes w -> w_callers w !! i = Some c -> caller_ok maxes c' -> step_spec (w_limits w) limits' c c' ->
  world_ok maxes (mkWorld limits' (<[i:=c']> (w_callers w))).
Proof.
  intros (Hmax & Hcs & Hsum) Hi Hc' [Hlen Hspec]. split_and!; simpl.
  - rewrite <- Hmax. apply list_eq_same_length with (length limits'); rewrite ?length_fmap; [done..|].
    intros l x y _ (lim' & -> & Hl')%list_lookup_fmap_Some (lim & -> & Hl)%list_lookup_fmap_Some.
    destruct (Hspec _ _ Hl') as (lim2 & Hl2 & E & _). by rewrite Hl in Hl2; injection Hl2 as ->.
  - by apply Forall_insert.
  - intros l lim' Hl'. destruct (Hspec _ _ Hl') as (lim & Hl & _ & Ea & Hok). split; [|done].
    destruct (Hsum _ _ Hl) as [Es _]. unfold total_held in *. rewrite (zsum_with_insert _ _ _ c) by done. lia.
Qed.

Lemma world_step_ok maxes w ev : world_ok maxes w -> event_ok maxes ev -> world_ok maxes (world_step w ev).
Proof.
  intros Hw Hev. destruct ev as [e bytes|i spurious|i]; simpl.
  - destruct Hw as (Hmax & Hcs & Hsum). split_and!; [done| |].
    + apply Forall_app. split; [done|]. apply Forall_singleton. split; [done|]. simpl. unfold pc_ok. simpl. lia.
    + intros l lim Hl. destruct (Hsum l lim Hl) as [E Hok]. split; [|done]. simpl.
      unfold total_held in *. rewrite zsum_with_app. simpl. unfold held at 2. simpl. lia.
  - destruct (w_callers w !! i) as [c|] eqn:Hi; [|done].
    pose proof (world_ok_limits _ _ Hw) as Hlim. pose proof Hw as (Hmax & Hcs & Hsum).
    pose proof (Forall_lookup_1 _ _ _ _ Hcs Hi) as Hc.
    assert (Hheld : forall l lim, w_limits w !! l = Some lim -> held c l <= lim_allocated lim).
    { intros l lim Hl. destruct (Hsum l lim Hl) as [-> _].
      apply (zsum_with_elem (fun c => held c l) _ i c); [by eapply callers_held_nonneg|done]. }
    pose proof (caller_step_ok maxes (w_limits w) c spurious Hmax Hlim Hc Hheld) as Hstep.
    destruct (caller_step (w_limits w) c spurious) as [limits' c']. destruct Hstep as [Hc' Hspec].
    by eapply world_ok_update.
  - destruct (w_callers w !! i) as [c|] eqn:Hi; [|done]. destruct (cl_pc c) eqn:Hpc; try done.
    pose proof Hw as (_ & Hcs & _). pose proof (Forall_lookup_1 _ _ _ _ Hcs Hi) as [Hreq _].
    eapply world_ok_update; [done|done| |].
    + split; [done|]. unfold pc_ok. simpl. lia.
    + apply step_spec_same; [by eapply world_ok_limits|]. intros l. unfold held. by rewrite Hpc.
Qed.

Lemma world_run_ok maxes events :
  Forall (fun mx => 0 <= mx) maxes -> Forall (event_ok maxes) events -> world_ok maxes (world_run maxes events).
Proof.
  intros Hpos. unfold world_run. induction events as [|ev events IH] using rev_ind; intros Hev.
  - split_and!; simpl.
    + rewrite <- list_fmap_compose. apply list_fmap_id.
    + done.
    + intros l lim (mx & -> & Hm)%list_lookup_fmap_Some. split; [done|].
      pose proof (Forall_lookup_1 _ _ _ _ Hpos Hm). unfold limit_ok. simpl in *. lia.
  - apply Forall_app in Hev as [Hev Hlast]. rewrite foldl_app. apply world_step_ok; [by apply IH|].
    by inversion Hlast.
Qed.

(** ** Progress *)

(** How many operations a caller that runs alone still needs. *)
Definition remaining_ops (limits : list Limit) (c : Caller) : nat :=
  match cl_pc c with
  | PcLoad k => 7 - 2 * k
  | PcCas k current =>
      match limits !! tier (cl_limits c) k with
      | Some l => if lim_allocated l =? current then 6 - 2 * k else 8 - 2 * k
      | None => 0
      end
  | PcUndo k => k
  | PcDrop k => 3 - k
  | PcHeld | PcDone _ => 0
  end.

Lemma remaining_ops_bound maxes limits c : caller_ok maxes c -> (remaining_ops limits c <= 8)%nat.
Proof. intros [_ Hpok]. unfold remaining_ops, pc_ok in *. repeat case_match; lia. Qed.

Definition settled (c : Caller) : Prop :=
  match cl_pc c with PcHeld | PcDone _ => True | _ => False end.

#[export] Instance settled_dec c : Decision (settled c).
Proof. unfold settled. destruct (cl_pc c); apply _. Defined.

Lemma solo_step maxes limits c :
  lim_max_bytes <$> limits = maxes -> caller_ok maxes c -> ~ settled c ->
  (S (remaining_ops (caller_step limits c false).1 (caller_step limits c false).2) <= remaining_ops limits c)%nat.
Proof.
  intros Hmax [(Hex & _ & _) Hpok] Hns. unfold settled, caller_step, remaining_ops, pc_ok in *.
  assert (Hl : forall k, exists l, limits !! tier (cl_limits c) k = Some l).
  { intros k. destruct (Hex k) as [mx Hmx]. rewrite <- Hmax in Hmx. apply list_lookup_fmap_Some in Hmx as (l & _ & ?). eauto. }
  destruct (cl_pc c) as [k|k cur|[|k]| |k|g] eqn:Hpc; try done.
  - destruct (Hl k) as [l El]. rewrite El. cbv zeta.
    destruct (Limit_exceeds l (lim_allocated l) (cl_bytes c)); cbn; [destruct k; lia|].
    rewrite El, Z.eqb_refl. lia.
  - destruct (Hl k) as [l El]. rewrite El. unfold Limit_exchange. cbn [orb].
    destruct (Z.eqb_spec (lim_allocated l) cur); cbn; [|lia].
    destruct (Nat.eqb_spec k 2); cbn; lia.
  - lia.
  - cbn. destruct k; cbn; lia.
  - cbn. destruct (Nat.eqb_spec k 2); cbn; lia.
Qed.

Lemma world_run_app maxes events events' :
  world_run maxes (events ++ events') = foldl world_step (world_run maxes events) events'.
Proof. unfold world_run. by rewrite foldl_app. Qed.

Lemma caller_step_same limits c spurious :
  let r := caller_step limits c spurious in
  cl_limits r.2 = cl_limits c /\ cl_bytes r.2 = cl_bytes c /\ (settled c -> remaining_ops r.1 r.2 = 0%nat).
Proof.
  unfold caller_step, settled. destruct (cl_pc c) eqn:Hpc; try (split_and!; cbn; [done..|]; unfold remaining_ops; by rewrite Hpc);
    repeat case_match; split_and!; by cbn.
Qed.

(** Caller [i] running alone from a good world settles. *)
Lemma solo_run maxes n w i c :
  world_ok maxes w -> w_callers w !! i = Some c -> (remaining_ops (w_limits w) c <= n)%nat ->
  exists c', w_callers (foldl world_step w (replicate n (Run i false))) !! i = Some c' /\ settled c'
    /\ cl_limits c' = cl_limits c /\ cl_bytes c' = cl_bytes c.
Proof.
  revert w c. induction n as [|n IH]; intros w c Hw Hi Hn.
  - exists c. split_and!; [done| |done|done]. pose proof Hw as (Hmax & Hcs & _).
    pose proof (Forall_lookup_1 _ _ _ _ Hcs Hi) as Hc.
    destruct (decide (settled c)) as [|Hns]; [done|]. pose proof (solo_step _ _ _ Hmax Hc Hns). lia.
  - cbn [replicate foldl].
    assert (Hw' : world_ok maxes (world_step w (Run i false))) by (by apply world_step_ok).
    pose proof Hw as (Hmax & Hcs & _). pose proof (Forall_lookup_1 _ _ _ _ Hcs Hi) as Hc.
    cbn [world_step] in *. rewrite Hi in *.
    pose proof (solo_step _ _ _ Hmax Hc) as Hdec. 
    destruct (caller_step (w_limits w) c false) as [limits' c1] eqn:Est. cbn [fst snd] in Hdec.
    destruct (caller_step_same (w_limits w) c false) as (El & Eb & Hz). rewrite Est in El, Eb, Hz. cbn [fst snd] in *.
    destruct (IH _ c1 Hw') as (c' & ? & ? & ? & ?).
    + cbn. by rewrite list_lookup_insert_eq by (by eapply lookup_lt_Some).
    + cbn. destruct (decide (settled c)) as [Hs|Hns]; [by rewrite (Hz Hs); lia|]. specialize (Hdec Hns). lia.
    + exists c'. by rewrite <- El, <- Eb.
Qed.

(** C20.  In every interleaving of allocations and drops by any number of callers,
    whichever exchanges fail, each counter is the sum of what callers hold of it
    and stays between zero and its maximum; so counters are zero once every
    caller has been refused or has dropped its permit.  Requests name existing
    limits and are so small that no maximum and request together reach 2^64
    ([request_ok]): the sum of the check wraps around otherwise. *)
Theorem limits_never_exceeded maxes events l lim
    (Hmax : Forall (fun mx => 0 <= mx) maxes) (Hev : Forall (event_ok maxes) events)
    (Hl : w_limits (world_run maxes events) !! l = Some lim) :
  0 <= lim_allocated lim <= lim_max_bytes lim
  /\ lim_allocated lim = total_held (w_callers (world_run maxes events)) l
  /\ (Forall (fun c => exists granted, cl_pc c = PcDone granted) (w_callers (world_run maxes events)) ->
      lim_allocated lim = 0).
Proof.
  destruct (world_run_ok maxes events Hmax Hev) as (_ & _ & Hsum). destruct (Hsum l lim Hl) as [Es Hok].
  split_and!; [apply Hok..|done|]. intros Hdone. rewrite Es. apply zsum_with_zero.
  eapply Forall_impl; [exact Hdone|]. intros c [g Hg]. unfold held. by rewrite Hg.
Qed.

(** Three limits and a caller that takes 60 of 100 bytes while a second one is
    refused by the global limit. *)
Lemma limits_never_exceeded_witness :
  let e := mkEndpointLimits 0 1 2 in
  let events := Start e 60 :: Start e 50 :: replicate 6 (Run 0 false) ++ replicate 5 (Run 1 false) in
  exists lim, w_limits (world_run [200; 150; 100] events) !! 0%nat = Some lim
    /\ 0 <= lim_allocated lim <= lim_max_bytes lim /\ lim_allocated lim = 110.
Proof.
  intros e events. destruct (w_limits (world_run [200; 150; 100] events) !! 0%nat) as [lim|] eqn:Hl;
    [exists lim; split; [reflexivity|]|vm_compute in Hl; discriminate Hl].
  assert (He : forall bytes, 0 <= bytes <= 60 -> request_ok [200; 150; 100] e bytes).
  { intros bytes Hb. split_and!; [by intros [|[|k]]; eexists|lia|]. repeat (constructor; [lia|]). constructor. }
  destruct (limits_never_exceeded [200; 150; 100] events 0%nat lim) as (H1 & H2 & _).
  - repeat (constructor; [lia|]). constructor.
  - unfold events. cbn [replicate app]. repeat (constructor; [first [exact I|apply He; lia]|]). constructor.
  - exact Hl.
  - split; [exact H1|]. rewrite H2. vm_compute. reflexivity.
Defined.

(** A caller is never blocked by another: at any point of any interleaving,
    eight operations of its own without an exchange failing in between bring a
    call of [try_allocate] to a permit or a refusal, and a drop to its end. *)
Theorem limits_obstruction_free maxes events i c
    (Hmax : Forall (fun mx => 0 <= mx) maxes) (Hev : Forall (event_ok maxes) events)
    (Hi : w_callers (world_run maxes events) !! i = Some c) :
  exists c', w_callers (world_run maxes (events ++ replicate 8 (Run i false))) !! i = Some c'
    /\ (cl_pc c' = PcHeld \/ exists granted, cl_pc c' = PcDone granted)
    /\ cl_limits c' = cl_limits c /\ cl_bytes c' = cl_bytes c.
Proof.
  pose proof (world_run_ok maxes events Hmax Hev) as Hw. pose proof Hw as (_ & Hcs & _).
  pose proof (Forall_lookup_1 _ _ _ _ Hcs Hi) as Hc.
  destruct (solo_run maxes 8 _ i c Hw Hi (remaining_ops_bound _ _ _ Hc)) as (c' & Hc' & Hs & He & Hb).
  exists c'. rewrite world_run_app. split_and!; [done| |done|done]. unfold settled in Hs.
  destruct (cl_pc c'); try done; eauto.
Qed.

(** The second caller has read a counter that the first has changed since. *)
Lemma limits_obstruction_free_witness :
  let e := mkEndpointLimits 0 1 2 in
  let events := Start e 60 :: Start e 50 :: Run 1 false :: replicate 6 (Run 0 false) in
  exists c', w_callers (world_run [200; 150; 100] (events ++ replicate 8 (Run 1 false))) !! 1%nat = Some c'
    /\ (cl_pc c' = PcHeld \/ exists granted, cl_pc c' = PcDone granted).
Proof.
  intros e events.
  assert (He : forall bytes, 0 <= bytes <= 60 -> request_ok [200; 150; 100] e bytes).
  { intros bytes Hb. split_and!; [by intros [|[|k]]; eexists|lia|]. repeat (constructor; [lia|]). constructor. }
  destruct (limits_obstruction_free [200; 150; 100] events 1%nat (mkCaller e 50 (PcCas 0 0))) as (c' & H1 & H2 & _).
  - repeat (constructor; [lia|]). constructor.
  - unfold events. cbn [replicate app]. repeat (constructor; [first [exact I|apply He; lia]|]). constructor.
  - vm_compute. reflexivity.
  - exists c'. split; [exact H1|exact H2].
Defined.

(** * Overflow *)

(** The sum of the counter and a request near the top of the word wraps around,
    passes the test and lowers the counter. *)
Lemma limit_overflow_passes :
  Limit_try_allocate (mkLimit 10 100) (2 ^ 64 - 5) = (mkLimit 5 100, true).
Proof. vm_compute. reflexivity. Qed.
