(* ===== verification/WriteHandler.v ===== *)
(** Collecting replica acknowledgements of a write
    (crates/cassandra-coordinator/src/write_response_handler.rs).

    [await_completion] has the same body in both handlers, so it is modelled once
    against the interface [ResponseHandler]: a machine that runs beside the calls
    of the tasks that deliver replica answers.  Each delivery is several steps (the
    counter update, the test, [notify_waiters]), and so is the waiter's loop (the
    test, the call of [notified], the wait), so that runs interleave them as
    threads do. *)
From S2P Require Export Prelude Consistency Node.

Inductive WriteType := Simple | Batch | UnloggedBatch | Counter | View | Cas | BatchLog.

Inductive RequestFailureReason := Unknown | TooManyTombstones | Overloaded | IndexNotAvailable.
Definition RequestFailureReason_code (r : RequestFailureReason) : Z :=
  match r with Unknown => 0 | TooManyTombstones => 1 | Overloaded => 2 | IndexNotAvailable => 3 end.

Record WriteResult := {
  wr_acks_received : nat;
  wr_acks_required : nat;
  wr_contacted_replicas : list Endpoint;
  wr_hints_stored : nat;
}.

(** The variants of [WriteError] that the handlers build. *)
Inductive WriteError :=
| Timeout (cl : ConsistencyLevel) (write_type : WriteType) (required received block_for : nat)
| WriteFailure (cl : ConsistencyLevel) (write_type : WriteType) (required received block_for num_failures : nat)
    (failure_map : gmap Endpoint Z).

Abbreviation write_outcome := (WriteResult + WriteError)%type.

(** * The interface of the two handlers

    [on_response] and [on_failure] record an answer and leave the test that
    decides whether the call goes on to [notify_waiters]. *)

Class ResponseHandler (H : Type) := {
  contacted_of : H -> list Endpoint;
  on_response : H -> Endpoint -> H * (H -> bool);
  on_failure : H -> Endpoint -> RequestFailureReason -> H * (H -> bool);
  on_hint_stored : H -> H;
  cl_met : H -> bool;
  cl_impossible : H -> bool;
  make_result : H -> write_outcome;
  make_timeout_error : H -> write_outcome;
  make_failure_error : H -> write_outcome;
}.

(** Where [await_completion] is: before its first line, at the loop's test, about
    to call [notified], waiting, past the loop, or returned. *)
Inductive Waiter :=
| AwaitStart
| AwaitTest
| AwaitRegister
| AwaitParked
| AwaitEnd
| AwaitReturned (r : write_outcome).

Record Run (H : Type) := mkRun {
  run_handler : H;
  run_calls : list (H -> bool);
  run_notify : nat;
  run_waiter : Waiter;
  run_responded : list Endpoint;
}.
Arguments mkRun {H} _ _ _ _ _.
Arguments run_handler {H} _.
Arguments run_calls {H} _.
Arguments run_notify {H} _.
Arguments run_waiter {H} _.
Arguments run_responded {H} _.

Section Await.
Context {H : Type} `{ResponseHandler H}.

(** [notify_waiters] wakes the tasks that hold a [Notified] future and stores
    nothing for later ones. *)
Definition notify_waiters (w : Waiter) : Waiter :=
  match w with AwaitParked => AwaitTest | w => w end.

(** One step of [await_completion] that does not depend on the clock. *)
Definition await_step (h : H) (w : Waiter) : option Waiter :=
  match w with
  | AwaitStart => Some (if cl_met h then AwaitReturned (make_result h) else AwaitTest)
  | AwaitTest => Some (if cl_met h || cl_impossible h then AwaitEnd else AwaitRegister)
  | AwaitRegister => Some AwaitParked
  | AwaitParked => None
  | AwaitEnd => Some (AwaitReturned (if cl_met h then make_result h else make_failure_error h))
  | AwaitReturned _ => None
  end.

(** Where the clock can end the call: the zero-time test at the start and the
    [timeout] around the loop. *)
Definition await_expires (w : Waiter) : bool :=
  match w with AwaitStart | AwaitTest | AwaitRegister | AwaitParked => true | _ => false end.

(** A replica answers once, by an acknowledgement or a failure. *)
Inductive run_step : Run H -> Run H -> Prop :=
| StepResponse h cs n w rs e :
    e ∈ contacted_of h -> e ∉ rs ->
    run_step (mkRun h cs n w rs)
             (mkRun (on_response h e).1 ((on_response h e).2 :: cs) n w (e :: rs))
| StepFailure h cs n w rs e reason :
    e ∈ contacted_of h -> e ∉ rs ->
    run_step (mkRun h cs n w rs)
             (mkRun (on_failure h e reason).1 ((on_failure h e reason).2 :: cs) n w (e :: rs))
| StepHint h cs n w rs : run_step (mkRun h cs n w rs) (mkRun (on_hint_stored h) cs n w rs)
| StepTest h cs cs' c n w rs :
    run_step (mkRun h (cs ++ c :: cs') n w rs)
             (mkRun h (cs ++ cs') (if c h then S n else n) w rs)
| StepNotify h cs n w rs : run_step (mkRun h cs (S n) w rs) (mkRun h cs n (notify_waiters w) rs)
| StepAwait h cs n w w' rs :
    await_step h w = Some w' -> run_step (mkRun h cs n w rs) (mkRun h cs n w' rs)
| StepExpire h cs n w rs :
    await_expires w = true ->
    run_step (mkRun h cs n w rs) (mkRun h cs n (AwaitReturned (make_timeout_error h)) rs).

Definition run_start (h : H) : Run H := mkRun h [] 0 AwaitStart [].

End Await.

(** What makes the waiter's answer right: an invariant of the counters under
    answers that come once per replica, a level that once met stays met, and one
    that once out of reach stays so and falls [short] of what it requires. *)
Class ResponseHandlerLaws (H : Type) `{ResponseHandler H} := {
  handler_inv : H -> list Endpoint -> Prop;
  short : H -> Prop;
  response_inv h rs e : e ∈ contacted_of h -> e ∉ rs -> handler_inv h rs ->
    handler_inv (on_response h e).1 (e :: rs);
  failure_inv h rs e r : e ∈ contacted_of h -> e ∉ rs -> handler_inv h rs ->
    handler_inv (on_failure h e r).1 (e :: rs);
  hint_inv h rs : handler_inv h rs -> handler_inv (on_hint_stored h) rs;
  response_met h e : cl_met h = true -> cl_met (on_response h e).1 = true;
  failure_met h e r : cl_met h = true -> cl_met (on_failure h e r).1 = true;
  hint_met h : cl_met h = true -> cl_met (on_hint_stored h) = true;
  response_impossible h rs e : e ∈ contacted_of h -> e ∉ rs -> handler_inv h rs ->
    cl_impossible h = true -> cl_impossible (on_response h e).1 = true;
  failure_impossible h e r :
    cl_impossible h = true -> cl_impossible (on_failure h e r).1 = true;
  hint_impossible h : cl_impossible h = true -> cl_impossible (on_hint_stored h) = true;
  impossible_short h rs : handler_inv h rs -> cl_impossible h = true -> short h;
}.

Section AwaitSound.
Context {H : Type} `{ResponseHandlerLaws H}.

Definition run_inv (r : Run H) : Prop :=
  handler_inv (run_handler r) (run_responded r)
  /\ match run_waiter r with
     | AwaitEnd => cl_met (run_handler r) || cl_impossible (run_handler r) = true
     | AwaitReturned o =>
         (exists h rs, handler_inv h rs /\ cl_met h = true /\ o = make_result h /\ cl_met (run_handler r) = true)
         \/ (exists h, o = make_failure_error h /\ cl_impossible (run_handler r) = true)
         \/ (exists h, o = make_timeout_error h)
     | _ => True
     end.

(** A step changes neither side of the waiter's verdict. *)
Lemma run_inv_handler h h' cs cs' n n' w rs rs' :
  handler_inv h' rs' ->
  (cl_met h = true -> cl_met h' = true) ->
  (cl_impossible h = true -> cl_impossible h' = true) ->
  run_inv (mkRun h cs n w rs) -> run_inv (mkRun h' cs' n' w rs').
Proof.
  intros Hi Hm Himp [_ Hw]. split; [done|]. destruct w; simpl in *; auto.
  - apply orb_true_iff in Hw as [E|E]; apply orb_true_iff; auto.
  - destruct Hw as [(hh & rs0 & ? & ? & ? & ?)|[(hh & ? & ?)|?]]; eauto 10.
Qed.

Lemma run_inv_step r r' : run_step r r' -> run_inv r -> run_inv r'.
Proof.
  intros Hs Hr. destruct Hs as [h cs n w rs e Hc He|h cs n w rs e reason Hc He|h cs n w rs|h cs cs' c n w rs
                               |h cs n w rs|h cs n w w' rs Ew|h cs n w rs _]; pose proof (proj1 Hr) as Hi; simpl in Hi.
  - eapply (run_inv_handler h); [..|exact Hr]; eauto using response_inv, response_met, response_impossible.
  - eapply (run_inv_handler h); [..|exact Hr]; eauto using failure_inv, failure_met, failure_impossible.
  - eapply (run_inv_handler h); [..|exact Hr]; eauto using hint_inv, hint_met, hint_impossible.
  - eapply (run_inv_handler h); [..|exact Hr]; eauto.
  - destruct Hr as [_ Hw]. split; [done|]. by destruct w.
  - destruct Hr as [_ Hw]. split; [done|].
    destruct w; simpl in *; simplify_eq; simpl; auto;
      destruct (cl_met h) eqn:Em; destruct (cl_impossible h) eqn:Ei; simpl in *; rewrite ?Em, ?Ei; eauto 10.
  - split; [done|]. simpl. eauto.
Qed.

Lemma run_inv_reach r r' : rtc run_step r r' -> run_inv r -> run_inv r'.
Proof. induction 1; eauto using run_inv_step. Qed.

Lemma impossible_reach r r' :
  rtc run_step r r' -> run_inv r -> cl_impossible (run_handler r) = true ->
  short (run_handler r').
Proof.
  intros Hr Hi Himp. assert (run_inv r' /\ cl_impossible (run_handler r') = true) as [Hi' Himp'].
  { revert Hi Himp. induction Hr as [|r1 r2 r3 Hs _ IH]; [done|]. intros Hi Himp.
    apply IH; [by eapply run_inv_step|]. pose proof (proj1 Hi).
    destruct Hs; simpl in *; eauto using response_impossible, failure_impossible, hint_impossible. }
  eapply impossible_short; [apply Hi'|done].
Qed.

(** Every answer of [await_completion] is right: a result is built from a
    handler whose level is met, and after a failure error every handler falls short. *)
Lemma await_sound h r o :
  handler_inv h [] -> rtc run_step (run_start h) r -> run_waiter r = AwaitReturned o ->
  (exists h' rs, handler_inv h' rs /\ cl_met h' = true /\ o = make_result h' /\ cl_met (run_handler r) = true)
  \/ (exists h', o = make_failure_error h' /\ forall r', rtc run_step r r' -> short (run_handler r'))
  \/ (exists h', o = make_timeout_error h').
Proof.
  intros Hi Hr Ew. assert (Hinv : run_inv r) by (eapply run_inv_reach; [done|by split]).
  pose proof Hinv as [_ Hw]. rewrite Ew in Hw.
  destruct Hw as [?|[(h' & ? & ?)|?]]; eauto 10 using impossible_reach.
Qed.

End AwaitSound.

(** * The handler of one acknowledgement count

    The clock ([created_at], [timeout]) is the [StepExpire] step, and the
    notifier is the [run_notify] field of the run. *)

Record WriteResponseHandler := {
  wrh_cl : ConsistencyLevel;
  wrh_write_type : WriteType;
  wrh_required : nat;
  wrh_acks_received : nat;
  wrh_failures : gmap Endpoint RequestFailureReason;
  wrh_total_replicas : nat;
  wrh_contacted : list Endpoint;
  wrh_all_acked : nat;
  wrh_hints_stored : nat;
}.

Definition WriteResponseHandler_new (cl : ConsistencyLevel) (write_type : WriteType) (required : nat)
    (contacted : list Endpoint) : WriteResponseHandler :=
  {| wrh_cl := cl; wrh_write_type := write_type; wrh_required := required; wrh_acks_received := 0;
     wrh_failures := ∅; wrh_total_replicas := length contacted; wrh_contacted := contacted;
     wrh_all_acked := 0; wrh_hints_stored := 0 |}.

Definition WriteResponseHandler_is_cl_met (h : WriteResponseHandler) : bool :=
  let acks := wrh_acks_received h in
  if bool_decide (wrh_cl h = Any) then (0 <? acks + wrh_hints_stored h)%nat
  else (wrh_required h <=? acks)%nat.

Definition WriteResponseHandler_is_cl_impossible (h : WriteResponseHandler) : bool :=
  let failure_count := size (wrh_failures h) in
  let acks := wrh_acks_received h in
  let remaining := (wrh_total_replicas h - (acks + failure_count))%nat in
  (acks + remaining <? wrh_required h)%nat.

(** The test that leads to [notify_waiters] uses the count the call has seen;
    the method returns its value. *)
Definition WriteResponseHandler_on_response (h : WriteResponseHandler) (from : Endpoint)
    : WriteResponseHandler * (WriteResponseHandler -> bool) :=
  let new_count := S (wrh_acks_received h) in
  ({| wrh_cl := wrh_cl h; wrh_write_type := wrh_write_type h; wrh_required := wrh_required h;
      wrh_acks_received := new_count; wrh_failures := wrh_failures h;
      wrh_total_replicas := wrh_total_replicas h; wrh_contacted := wrh_contacted h;
      wrh_all_acked := if (new_count =? wrh_total_replicas h)%nat then 1%nat else wrh_all_acked h;
      wrh_hints_stored := wrh_hints_stored h |},
   fun _ => (wrh_required h <=? new_count)%nat).

Definition WriteResponseHandler_on_failure (h : WriteResponseHandler) (from : Endpoint)
    (reason : RequestFailureReason) : WriteResponseHandler * (WriteResponseHandler -> bool) :=
  ({| wrh_cl := wrh_cl h; wrh_write_type := wrh_write_type h; wrh_required := wrh_required h;
      wrh_acks_received := wrh_acks_received h; wrh_failures := <[from := reason]> (wrh_failures h);
      wrh_total_replicas := wrh_total_replicas h; wrh_contacted := wrh_contacted h;
      wrh_all_acked := wrh_all_acked h; wrh_hints_stored := wrh_hints_stored h |},
   WriteResponseHandler_is_cl_impossible).

Definition WriteResponseHandler_on_hint_stored (h : WriteResponseHandler) : WriteResponseHandler :=
  {| wrh_cl := wrh_cl h; wrh_write_type := wrh_write_type h; wrh_required := wrh_required h;
     wrh_acks_received := wrh_acks_received h; wrh_failures := wrh_failures h;
     wrh_total_replicas := wrh_total_replicas h; wrh_contacted := wrh_contacted h;
     wrh_all_acked := wrh_all_acked h; wrh_hints_stored := S (wrh_hints_stored h) |}.

Definition WriteResponseHandler_make_result (h : WriteResponseHandler) : write_outcome :=
  inl {| wr_acks_received := wrh_acks_received h; wr_acks_required := wrh_required h;
         wr_contacted_replicas := wrh_contacted h; wr_hints_stored := wrh_hints_stored h |}.

Definition WriteResponseHandler_make_timeout_error (h : WriteResponseHandler) : write_outcome :=
  inr (Timeout (wrh_cl h) (wrh_write_type h) (wrh_required h) (wrh_acks_received h) (wrh_required h)).

Definition WriteResponseHandler_make_failure_error (h : WriteResponseHandler) : write_outcome :=
  inr (WriteFailure (wrh_cl h) (wrh_write_type h) (wrh_required h) (wrh_acks_received h) (wrh_required h)
         (size (wrh_failures h)) (RequestFailureReason_code <$> wrh_failures h)).

#[export] Instance WriteResponseHandler_handler : ResponseHandler WriteResponseHandler := {
  contacted_of := wrh_contacted;
  on_response := WriteResponseHandler_on_response;
  on_failure := WriteResponseHandler_on_failure;
  on_hint_stored := WriteResponseHandler_on_hint_stored;
  cl_met := WriteResponseHandler_is_cl_met;
  cl_impossible := WriteResponseHandler_is_cl_impossible;
  make_result := WriteResponseHandler_make_result;
  make_timeout_error := WriteResponseHandler_make_timeout_error;
  make_failure_error := WriteResponseHandler_make_failure_error;
}.

(** * The handler of one count per datacenter *)

Record DatacenterWriteResponseHandler := {
  dch_cl : ConsistencyLevel;
  dch_write_type : WriteType;
  dch_dc_acks : gmap string nat;
  dch_dc_required : gmap string nat;
  dch_dc_failures : gmap string nat;
  dch_total_replicas : nat;
  dch_contacted : list Endpoint;
  dch_endpoint_dc : gmap Endpoint string;
  dch_hints_stored : nat;
}.

Definition DatacenterWriteResponseHandler_new_dc_aware (cl : ConsistencyLevel) (write_type : WriteType)
    (dc_required : gmap string nat) (contacted : list Endpoint) (endpoint_dc : gmap Endpoint string)
    : DatacenterWriteResponseHandler :=
  {| dch_cl := cl; dch_write_type := write_type; dch_dc_acks := (fun _ => 0%nat) <$> dc_required;
     dch_dc_required := dc_required; dch_dc_failures := (fun _ => 0%nat) <$> dc_required;
     dch_total_replicas := length contacted; dch_contacted := contacted;
     dch_endpoint_dc := endpoint_dc; dch_hints_stored := 0 |}.

Definition DatacenterWriteResponseHandler_is_dc_cl_met (h : DatacenterWriteResponseHandler) : bool :=
  forallb (fun e => (e.2 <=? default 0 (dch_dc_acks h !! e.1))%nat) (map_to_list (dch_dc_required h)).

(** [endpoint_dc.values().filter(|d| *d == dc).count()] *)
Definition dc_total (h : DatacenterWriteResponseHandler) (dc : string) : nat :=
  length (filter (fun e => e.2 = dc) (map_to_list (dch_endpoint_dc h))).

Definition dc_impossible (h : DatacenterWriteResponseHandler) (dc : string) (required : nat) : bool :=
  let got := default 0%nat (dch_dc_acks h !! dc) in
  let failed := default 0%nat (dch_dc_failures h !! dc) in
  let remaining := (dc_total h dc - (got + failed))%nat in
  (got + remaining <? required)%nat.

Definition DatacenterWriteResponseHandler_is_dc_cl_impossible (h : DatacenterWriteResponseHandler) : bool :=
  existsb (fun e => dc_impossible h e.1 e.2) (map_to_list (dch_dc_required h)).

Definition dc_of (h : DatacenterWriteResponseHandler) (e : Endpoint) : string :=
  default "unknown"%string (dch_endpoint_dc h !! e).

(** [*entry(dc).or_insert(0) += 1] *)
Definition bump (dc : string) (m : gmap string nat) : gmap string nat :=
  <[dc := S (default 0%nat (m !! dc))]> m.

Definition DatacenterWriteResponseHandler_on_response_from_dc (h : DatacenterWriteResponseHandler)
    (from : Endpoint) : DatacenterWriteResponseHandler * (DatacenterWriteResponseHandler -> bool) :=
  ({| dch_cl := dch_cl h; dch_write_type := dch_write_type h;
      dch_dc_acks := bump (dc_of h from) (dch_dc_acks h); dch_dc_required := dch_dc_required h;
      dch_dc_failures := dch_dc_failures h; dch_total_replicas := dch_total_replicas h;
      dch_contacted := dch_contacted h; dch_endpoint_dc := dch_endpoint_dc h;
      dch_hints_stored := dch_hints_stored h |},
   DatacenterWriteResponseHandler_is_dc_cl_met).

Definition DatacenterWriteResponseHandler_on_failure_from_dc (h : DatacenterWriteResponseHandler)
    (from : Endpoint) (reason : RequestFailureReason)
    : DatacenterWriteResponseHandler * (DatacenterWriteResponseHandler -> bool) :=
  ({| dch_cl := dch_cl h; dch_write_type := dch_write_type h;
      dch_dc_acks := dch_dc_acks h; dch_dc_required := dch_dc_required h;
      dch_dc_failures := bump (dc_of h from) (dch_dc_failures h); dch_total_replicas := dch_total_replicas h;
      dch_contacted := dch_contacted h; dch_endpoint_dc := dch_endpoint_dc h;
      dch_hints_stored := dch_hints_stored h |},
   DatacenterWriteResponseHandler_is_dc_cl_impossible).

Definition DatacenterWriteResponseHandler_on_hint_stored (h : DatacenterWriteResponseHandler)
    : DatacenterWriteResponseHandler :=
  {| dch_cl := dch_cl h; dch_write_type := dch_write_type h;
     dch_dc_acks := dch_dc_acks h; dch_dc_required := dch_dc_required h;
     dch_dc_failures := dch_dc_failures h; dch_total_replicas := dch_total_replicas h;
     dch_contacted := dch_contacted h; dch_endpoint_dc := dch_endpoint_dc h;
     dch_hints_stored := S (dch_hints_stored h) |}.

Definition DatacenterWriteResponseHandler_total_acks (h : DatacenterWriteResponseHandler) : nat :=
  sum_values id (dch_dc_acks h).
Definition DatacenterWriteResponseHandler_total_required (h : DatacenterWriteResponseHandler) : nat :=
  sum_values id (dch_dc_required h).

Definition DatacenterWriteResponseHandler_make_result (h : DatacenterWriteResponseHandler) : write_outcome :=
  inl {| wr_acks_received := DatacenterWriteResponseHandler_total_acks h;
         wr_acks_required := DatacenterWriteResponseHandler_total_required h;
         wr_contacted_replicas := dch_contacted h; wr_hints_stored := dch_hints_stored h |}.

Definition DatacenterWriteResponseHandler_make_timeout_error (h : DatacenterWriteResponseHandler)
    : write_outcome :=
  let required := DatacenterWriteResponseHandler_total_required h in
  inr (Timeout (dch_cl h) (dch_write_type h) required (DatacenterWriteResponseHandler_total_acks h) required).

Definition DatacenterWriteResponseHandler_make_failure_error (h : DatacenterWriteResponseHandler)
    : write_outcome :=
  let required := DatacenterWriteResponseHandler_total_required h in
  let failures := sum_values id (dch_dc_failures h) in
  inr (WriteFailure (dch_cl h) (dch_write_type h) required (DatacenterWriteResponseHandler_total_acks h)
         required failures ∅).

#[export] Instance DatacenterWriteResponseHandler_handler : ResponseHandler DatacenterWriteResponseHandler := {
  contacted_of := dch_contacted;
  on_response := DatacenterWriteResponseHandler_on_response_from_dc;
  on_failure := DatacenterWriteResponseHandler_on_failure_from_dc;
  on_hint_stored := DatacenterWriteResponseHandler_on_hint_stored;
  cl_met := DatacenterWriteResponseHandler_is_dc_cl_met;
  cl_impossible := DatacenterWriteResponseHandler_is_dc_cl_impossible;
  make_result := DatacenterWriteResponseHandler_make_result;
  make_timeout_error := DatacenterWriteResponseHandler_make_timeout_error;
  make_failure_error := DatacenterWriteResponseHandler_make_failure_error;
}.

(** * The counters of the first handler *)

Section CountLaws.
Context (cl : ConsistencyLevel) (required : nat) (contacted : list Endpoint).

(** Every replica has been counted once. *)
Definition wrh_inv (h : WriteResponseHandler) (rs : list Endpoint) : Prop :=
  (wrh_cl h = cl /\ wrh_required h = required /\ wrh_contacted h = contacted
   /\ wrh_total_replicas h = length contacted)
  /\ NoDup rs /\ rs ⊆ contacted
  /\ (forall e, e ∈ dom (wrh_failures h) -> e ∈ rs)
  /\ (wrh_acks_received h + size (wrh_failures h) = length rs)%nat.

Lemma wrh_inv_answers h rs e :
  e ∈ wrh_contacted h -> e ∉ rs -> wrh_inv h rs ->
  (wrh_acks_received h + size (wrh_failures h) < wrh_total_replicas h)%nat
  /\ wrh_failures h !! e = None /\ NoDup (e :: rs) /\ e :: rs ⊆ contacted.
Proof.
  intros Hc He ((_ & _ & <- & ->) & Hnd & Hsub & Hdom & ->).
  assert (Hnd' : NoDup (e :: rs)) by by constructor.
  assert (Hsub' : e :: rs ⊆ wrh_contacted h) by set_solver.
  pose proof (submseteq_length _ _ (NoDup_submseteq _ _ Hnd' Hsub')) as Hlen. simpl in Hlen.
  split_and!; try done. apply not_elem_of_dom. auto.
Qed.

(** What a met level means: at ANY a stored hint will do. *)
Definition level_met (acks hints : nat) : Prop := if decide (cl = Any) then (0 < acks + hints)%nat else (required <= acks)%nat.
Lemma wrh_met_spec h rs :
  wrh_inv h rs -> WriteResponseHandler_is_cl_met h = true -> level_met (wrh_acks_received h) (wrh_hints_stored h).
Proof.
  intros ((E & E' & _) & _). unfold WriteResponseHandler_is_cl_met, level_met. rewrite E, E'.
  destruct (decide (cl = Any)); [rewrite bool_decide_eq_true_2 by done; apply Nat.ltb_lt|rewrite bool_decide_eq_false_2 by done; apply Nat.leb_le].
Qed.

#[local] Program Instance WriteResponseHandler_laws : ResponseHandlerLaws WriteResponseHandler :=
  {| handler_inv := wrh_inv; short h := (wrh_acks_received h < required)%nat |}.
Next Obligation.
  intros h rs e Hc He Hi. destruct (wrh_inv_answers h rs e Hc He Hi) as (? & ? & ? & ?).
  destruct Hi as (? & ? & ? & Hdom & ?). split_and!; simpl in *; try naive_solver; set_solver.
Qed.
Next Obligation.
  intros h rs e r Hc He Hi. destruct (wrh_inv_answers h rs e Hc He Hi) as (? & Hn & ? & ?).
  destruct Hi as (? & ? & ? & Hdom & ?). split_and!; simpl in *; try naive_solver; [set_solver|].
  rewrite map_size_insert_None by done. lia.
Qed.
Next Obligation. done. Qed.
Next Obligation.
  intros h e. simpl. unfold WriteResponseHandler_is_cl_met; simpl. case_bool_decide; rewrite ?Nat.ltb_lt, ?Nat.leb_le; lia.
Qed.
Next Obligation. done. Qed.
Next Obligation.
  intros h. simpl. unfold WriteResponseHandler_is_cl_met; simpl. case_bool_decide; rewrite ?Nat.ltb_lt, ?Nat.leb_le; lia.
Qed.
Next Obligation.
  intros h rs e Hc He Hi. destruct (wrh_inv_answers h rs e Hc He Hi) as (? & _).
  simpl. unfold WriteResponseHandler_is_cl_impossible; simpl. rewrite !Nat.ltb_lt. lia.
Qed.
Next Obligation.
  intros h e r. simpl. unfold WriteResponseHandler_is_cl_impossible; simpl. rewrite !Nat.ltb_lt.
  rewrite map_size_insert. case_match; unfold id; lia.
Qed.
Next Obligation. done. Qed.
Next Obligation.
  intros h rs ((_ & E & _) & _). simpl. unfold WriteResponseHandler_is_cl_impossible. rewrite E, Nat.ltb_lt. lia.
Qed.

(** C23. The answer of [await_completion] can be trusted.  In every interleaving of
    the waiter with the stored hints and with replica answers that come once per
    contacted replica: the answers counted are of distinct contacted replicas; a
    result is returned only when at least [required] replicas have acknowledged the
    write or, at the level ANY, when an acknowledgement or a stored hint was counted;
    and after a write failure, at ANY as well, no continuation of the run ever
    reaches [required] acknowledgements. *)
Theorem write_await_sound wt r o
    (Hr : rtc run_step (run_start (WriteResponseHandler_new cl wt required contacted)) r)
    (Ho : run_waiter r = AwaitReturned o) :
  (NoDup (run_responded r) /\ run_responded r ⊆ contacted
   /\ (wrh_acks_received (run_handler r) + size (wrh_failures (run_handler r)) = length (run_responded r))%nat)
  /\ match o with
     | inl res => level_met (wr_acks_received res) (wr_hints_stored res) /\ wr_contacted_replicas res = contacted
     | inr (WriteFailure _ _ _ _ _ _ _) =>
         forall r', rtc run_step r r' -> (wrh_acks_received (run_handler r') < required)%nat
     | inr (Timeout _ _ _ _ _) => True
     end.
Proof.
  set (h0 := WriteResponseHandler_new cl wt required contacted) in *.
  assert (Hi : handler_inv h0 []) by (split_and!; simpl; try done; try apply NoDup_nil_2; set_solver).
  split; [destruct (proj1 (run_inv_reach _ _ Hr (conj Hi I))) as (_ & ? & ? & _ & ?); done|].
  destruct (await_sound _ _ _ Hi Hr Ho) as [(h & rs & Hh & Hm & -> & _)|[(h & -> & Hnever)|(h & ->)]]; simpl; [|intros r' Hr'|done].
  - split; [by apply (wrh_met_spec h rs)|apply Hh].
  - by apply Hnever.
Qed.

End CountLaws.

Lemma write_await_sound_witness :
  exists r o,
    rtc run_step (run_start (WriteResponseHandler_new One Simple 1 [example_endpoint 1])) r
    /\ run_waiter r = AwaitReturned (inl o) /\ (1 <= wr_acks_received o)%nat.
Proof.
  set (h0 := WriteResponseHandler_new One Simple 1 [example_endpoint 1]).
  set (h1 := (on_response h0 (example_endpoint 1)).1).
  assert (Hr : rtc run_step (run_start h0)
                 (mkRun h1 [(on_response h0 (example_endpoint 1)).2] 0 (AwaitReturned (make_result h1))
                    [example_endpoint 1])).
  { eapply rtc_l; [apply (StepResponse h0 [] 0 AwaitStart [] (example_endpoint 1)); [by left|by apply not_elem_of_nil]|]. apply rtc_once. by apply StepAwait. }
  eexists _, _. split; [exact Hr|]. split; [reflexivity|].
  apply (write_await_sound One 1 [example_endpoint 1] Simple _ _ Hr eq_refl).
Defined.

(** * The counters of the second handler *)

Section DatacenterLaws.
Context (dc_required : gmap string nat) (contacted : list Endpoint) (endpoint_dc : gmap Endpoint string).
Context (Hmapped : forall e, e ∈ contacted -> is_Some (endpoint_dc !! e)).

(** The answers of one datacenter. *)
Definition answers (h : DatacenterWriteResponseHandler) (dc : string) : nat :=
  (default 0 (dch_dc_acks h !! dc) + default 0 (dch_dc_failures h !! dc))%nat.

Definition dch_inv (h : DatacenterWriteResponseHandler) (rs : list Endpoint) : Prop :=
  (dch_dc_required h = dc_required /\ dch_contacted h = contacted /\ dch_endpoint_dc h = endpoint_dc)
  /\ NoDup rs /\ rs ⊆ contacted
  /\ forall dc, answers h dc = length (filter (fun e => dc_of h e = dc) rs).

Lemma bump_lookup dc dc' m :
  default 0%nat (bump dc m !! dc')
  = ((if decide (dc = dc') then 1 else 0) + default 0 (m !! dc'))%nat.
Proof. unfold bump. destruct (decide _) as [->|?]; by simplify_map_eq. Qed.

(** Distinct replicas of a datacenter are at most its replicas. *)
Lemma dc_answers_le h rs dc :
  dch_endpoint_dc h = endpoint_dc -> NoDup rs -> rs ⊆ contacted ->
  (length (filter (fun e => dc_of h e = dc) rs) <= dc_total h dc)%nat.
Proof.
  intros E Hnd Hsub. unfold dc_total, dc_of. rewrite E.
  rewrite <- (length_fmap fst). apply submseteq_length, NoDup_submseteq; [by apply NoDup_filter|].
  intros e (Hdc & He)%list_elem_of_filter. destruct (Hmapped e (Hsub e He)) as [d Ed].
  rewrite Ed in Hdc. simpl in Hdc. subst d. apply list_elem_of_fmap. exists (e, dc). split; [done|].
  apply list_elem_of_filter. split; [done|]. by apply elem_of_map_to_list.
Qed.

Lemma dch_inv_answers h rs e :
  e ∈ dch_contacted h -> e ∉ rs -> dch_inv h rs ->
  (answers h (dc_of h e) < dc_total h (dc_of h e))%nat /\ NoDup (e :: rs) /\ e :: rs ⊆ contacted
  /\ forall dc, ((if decide (dc_of h e = dc) then 1 else 0) + answers h dc)%nat
                = length (filter (fun e => dc_of h e = dc) (e :: rs)).
Proof.
  intros Hc He ((_ & Hco & Hed) & Hnd & Hsub & Hans). rewrite Hco in Hc.
  assert (Hnd' : NoDup (e :: rs)) by by constructor.
  assert (Hsub' : e :: rs ⊆ contacted) by set_solver.
  assert (Hcount : forall dc, ((if decide (dc_of h e = dc) then 1 else 0) + answers h dc)%nat
                              = length (filter (fun e => dc_of h e = dc) (e :: rs))).
  { intros dc. rewrite Hans, filter_cons. by destruct (decide _). }
  split_and!; try done. pose proof (dc_answers_le h (e :: rs) (dc_of h e) Hed Hnd' Hsub') as Hle.
  rewrite <- Hcount, decide_True in Hle by done. lia.
Qed.

Lemma dch_met_spec h :
  DatacenterWriteResponseHandler_is_dc_cl_met h = true
  <-> forall dc n, dch_dc_required h !! dc = Some n -> (n <= default 0 (dch_dc_acks h !! dc))%nat.
Proof.
  unfold DatacenterWriteResponseHandler_is_dc_cl_met. rewrite forallb_forall. split; intros Hall.
  - intros dc n E. apply Nat.leb_le, (Hall (dc, n)), list_elem_of_In, elem_of_map_to_list, E.
  - intros [dc n] Hin%list_elem_of_In%elem_of_map_to_list. by apply Nat.leb_le, Hall.
Qed.

Lemma dch_not_met h :
  DatacenterWriteResponseHandler_is_dc_cl_met h = false ->
  exists dc n, dch_dc_required h !! dc = Some n /\ (default 0 (dch_dc_acks h !! dc) < n)%nat.
Proof.
  unfold DatacenterWriteResponseHandler_is_dc_cl_met. intros Hf.
  apply not_true_iff_false in Hf. rewrite <- Is_true_true, forallb_True in Hf.
  apply not_Forall_Exists in Hf; [|tc_solve]. apply Exists_exists in Hf as ([dc n] & Hin & Hlt).
  exists dc, n. split; [by apply elem_of_map_to_list|]. simpl in Hlt.
  apply Nat.lt_nge. intros Hle. apply Hlt. by apply Is_true_true, Nat.leb_le.
Qed.

Lemma dch_impossible_spec h :
  DatacenterWriteResponseHandler_is_dc_cl_impossible h = true
  <-> exists dc n, dch_dc_required h !! dc = Some n /\ dc_impossible h dc n = true.
Proof.
  unfold DatacenterWriteResponseHandler_is_dc_cl_impossible. rewrite existsb_exists. split.
  - intros ([dc n] & Hin%list_elem_of_In%elem_of_map_to_list & ?). eauto.
  - intros (dc & n & E & Him). exists (dc, n). split; [|done]. by apply list_elem_of_In, elem_of_map_to_list.
Qed.

Lemma dc_impossible_mono h h' dc n :
  dc_total h' dc = dc_total h dc ->
  (answers h dc <= answers h' dc)%nat ->
  (default 0 (dch_dc_acks h' !! dc) <= default 0 (dch_dc_acks h !! dc)
   \/ answers h' dc <= dc_total h dc /\ default 0 (dch_dc_failures h' !! dc) = default 0 (dch_dc_failures h !! dc))%nat ->
  dc_impossible h dc n = true -> dc_impossible h' dc n = true.
Proof. unfold dc_impossible, answers. rewrite !Nat.ltb_lt. intros ->. lia. Qed.

#[local] Program Instance DatacenterWriteResponseHandler_laws : ResponseHandlerLaws DatacenterWriteResponseHandler :=
  {| handler_inv := dch_inv; short h := DatacenterWriteResponseHandler_is_dc_cl_met h = false |}.
Next Obligation.
  intros h rs e Hc He Hi. destruct (dch_inv_answers h rs e Hc He Hi) as (_ & ? & ? & Hcount).
  destruct Hi as (Hstat & _). split; [exact Hstat|]. split_and!; try done. intros dc. rewrite <- Hcount.
  unfold answers; simpl. rewrite bump_lookup. case_match; lia.
Qed.
Next Obligation.
  intros h rs e r Hc He Hi. destruct (dch_inv_answers h rs e Hc He Hi) as (_ & ? & ? & Hcount).
  destruct Hi as (Hstat & _). split; [exact Hstat|]. split_and!; try done. intros dc. rewrite <- Hcount.
  unfold answers; simpl. rewrite bump_lookup. case_match; lia.
Qed.
Next Obligation. done. Qed.
Next Obligation.
  intros h e. simpl. rewrite !dch_met_spec. intros Hall dc n E. simpl. rewrite bump_lookup.
  specialize (Hall dc n E). lia.
Qed.
Next Obligation. done. Qed.
Next Obligation. done. Qed.
Next Obligation.
  intros h rs e Hc He Hi. simpl. rewrite !dch_impossible_spec. intros (dc & n & E & Him).
  exists dc, n. split; [done|]. destruct (dch_inv_answers h rs e Hc He Hi) as (Hlt & _).
  revert Him. apply dc_impossible_mono; [done|..]; unfold answers in *; simpl; rewrite bump_lookup;
    destruct (decide _) as [<-|?]; lia.
Qed.
Next Obligation.
  intros h e r. simpl. rewrite !dch_impossible_spec. intros (dc & n & E & Him).
  exists dc, n. split; [done|]. revert Him.
  apply dc_impossible_mono; [done|..]; unfold answers; simpl; rewrite ?bump_lookup; [lia|by left].
Qed.
Next Obligation. done. Qed.
Next Obligation.
  intros h rs _ (dc & n & E & Him)%dch_impossible_spec. apply not_true_is_false. simpl.
  rewrite dch_met_spec. intros Hall. specialize (Hall dc n E). revert Him. unfold dc_impossible.
  rewrite Nat.ltb_lt. lia.
Qed.

(** C32. The same for per-datacenter counts, when every contacted replica has a
    datacenter: a result is returned only when every datacenter has its required
    acknowledgements, and the totals it reports agree; after a write failure some
    datacenter's requirement is missed for ever. *)
Theorem dc_write_await_sound cl wt r o
    (Hr : rtc run_step
            (run_start (DatacenterWriteResponseHandler_new_dc_aware cl wt dc_required contacted endpoint_dc)) r)
    (Ho : run_waiter r = AwaitReturned o) :
  match o with
  | inl res =>
      (forall dc n, dc_required !! dc = Some n -> (n <= default 0 (dch_dc_acks (run_handler r) !! dc))%nat)
      /\ (wr_acks_required res <= wr_acks_received res)%nat
  | inr (WriteFailure _ _ _ _ _ _ _) =>
      forall r', rtc run_step r r' ->
        exists dc n, dc_required !! dc = Some n /\ (default 0 (dch_dc_acks (run_handler r') !! dc) < n)%nat
  | inr (Timeout _ _ _ _ _) => True
  end.
Proof.
  set (h0 := DatacenterWriteResponseHandler_new_dc_aware _ _ _ _ _) in *.
  assert (Hi : handler_inv h0 []).
  { split_and!; simpl; try done; try apply NoDup_nil_2; [set_solver|]. intros dc. unfold answers; simpl.
    rewrite lookup_fmap. by destruct (dc_required !! dc). }
  assert (Hinv : forall r', rtc run_step (run_start h0) r' -> dch_dc_required (run_handler r') = dc_required)
    by (intros r' Hr'; apply (proj1 (run_inv_reach _ _ Hr' (conj Hi I)))).
  destruct (await_sound _ _ _ Hi Hr Ho) as [(h & rs & Hh & Hm & -> & Hm')|[(h & -> & Hnever)|(h & ->)]];
    simpl; [|intros r' Hr'|done].
  - simpl in Hm, Hm'. rewrite dch_met_spec in Hm, Hm'. rewrite (Hinv r Hr) in Hm'. split; [done|].
    by apply received_ge.
  - specialize (Hnever r' Hr'). simpl in Hnever. rewrite <- (Hinv r' ltac:(by etrans)).
    by apply dch_not_met.
Qed.

End DatacenterLaws.

Lemma dc_write_await_sound_witness :
  exists r o,
    rtc run_step (run_start (DatacenterWriteResponseHandler_new_dc_aware EachQuorum Simple {[ "dc1" := 1%nat ]}
                               [example_endpoint 1] {[ example_endpoint 1 := "dc1"%string ]})) r
    /\ run_waiter r = AwaitReturned (inl o) /\ (wr_acks_required o <= wr_acks_received o)%nat.
Proof.
  set (h0 := DatacenterWriteResponseHandler_new_dc_aware _ _ _ _ _).
  set (h1 := (on_response h0 (example_endpoint 1)).1).
  assert (Hr : rtc run_step (run_start h0)
                 (mkRun h1 [(on_response h0 (example_endpoint 1)).2] 0 (AwaitReturned (make_result h1))
                    [example_endpoint 1])).
  { eapply rtc_l; [apply (StepResponse h0 [] 0 AwaitStart [] (example_endpoint 1)); [by left|by apply not_elem_of_nil]|]. apply rtc_once. by apply StepAwait. }
  eexists _, _. split; [exact Hr|]. split; [reflexivity|].
  unshelve eapply (dc_write_await_sound _ _ _ _ EachQuorum Simple _ _ Hr eq_refl).
  intros e ->%list_elem_of_singleton. by eexists.
Defined.

(** * A lost wake-up *)

(** Every contacted replica has acknowledged, no call is under way, and the waiter
    is parked or timed out. *)
Definition stuck_run (wt : WriteType) (e : Endpoint) (r : Run WriteResponseHandler) : Prop :=
  run_calls r = [] /\ run_notify r = 0%nat /\ run_responded r = [e]
  /\ wrh_contacted (run_handler r) = [e]
  /\ WriteResponseHandler_make_timeout_error (run_handler r) = inr (Timeout One wt 1 1 1)
  /\ (run_waiter r = AwaitParked \/ run_waiter r = AwaitReturned (inr (Timeout One wt 1 1 1))).

Lemma stuck_run_step wt e r r' : run_step r r' -> stuck_run wt e r -> stuck_run wt e r'.
Proof.
  intros Hs (Hc & Hn & Hr & Hct & Ht & Hw). 
  destruct Hs as [h cs n w rs e' Hin Hout|h cs n w rs e' reason Hin Hout|h cs n w rs|h cs cs' c n w rs|h cs n w rs
                 |h cs n w w' rs Ew|h cs n w rs _]; simpl in *.
  - subst rs. rewrite Hct in Hin. done.
  - subst rs. rewrite Hct in Hin. done.
  - by split_and!.
  - by destruct cs.
  - done.
  - destruct Hw; by subst w.
  - split_and!; simpl; auto. right. by rewrite Ht.
Qed.

Lemma stuck_run_reach wt e r r' : rtc run_step r r' -> stuck_run wt e r -> stuck_run wt e r'.
Proof. induction 1; eauto using stuck_run_step. Qed.

(** An acknowledged write can still time out.  When the last acknowledgement
    arrives between the waiter's test and its call of [notified], its notification
    finds no waiter, and none follows: from there every run leaves the waiter
    parked until the clock ends it, with a timeout that reports as many
    acknowledgements as the level requires. *)
Theorem write_await_lost_wakeup (wt : WriteType) (e : Endpoint) :
  exists r,
    rtc run_step (run_start (WriteResponseHandler_new One wt 1 [e])) r
    /\ WriteResponseHandler_is_cl_met (run_handler r) = true
    /\ forall r', rtc run_step r r' ->
         run_waiter r' = AwaitParked \/ run_waiter r' = AwaitReturned (inr (Timeout One wt 1 1 1)).
Proof.
  set (h0 := WriteResponseHandler_new One wt 1 [e]).
  set (h1 := (on_response h0 e).1). exists (mkRun h1 [] 0 AwaitParked [e]).
  split_and!; [|done|].
  - eapply rtc_l; [by apply StepAwait|]. eapply rtc_l; [by apply StepAwait|].
    eapply rtc_l; [apply (StepResponse h0 [] 0 AwaitRegister [] e); set_solver|].
    eapply rtc_l; [apply (StepTest h1 [] [])|]. eapply rtc_l; [apply StepNotify|].
    eapply rtc_l; [by apply StepAwait|]. apply rtc_refl.
  - intros r' Hr'.
    assert (Hstuck : stuck_run wt e r'); [|by destruct Hstuck as (_ & _ & _ & _ & _ & ?)].
    apply (stuck_run_reach _ _ _ _ Hr'). split_and!; auto.
Qed.

(** At ANY a write can fail although its hint is stored.  The failure of the last
    replica is reported before the hint is stored; a waiter woken in between returns
    a failure, and the level is met right after it. *)
Lemma any_fails_before_hint (wt : WriteType) (e : Endpoint) (reason : RequestFailureReason) :
  exists r r' cl wt req got bf n fs,
    rtc run_step (run_start (WriteResponseHandler_new Any wt 1 [e])) r
    /\ run_waiter r = AwaitReturned (inr (WriteFailure cl wt req got bf n fs))
    /\ run_step r r' /\ WriteResponseHandler_is_cl_met (run_handler r') = true.
Proof.
  set (h0 := WriteResponseHandler_new Any wt 1 [e]). set (h1 := (on_failure h0 e reason).1).
  assert (Hi : cl_impossible h1 = true).
  { simpl. unfold WriteResponseHandler_is_cl_impossible. simpl. by rewrite map_size_insert_None by apply lookup_empty. }
  exists (mkRun h1 [(on_failure h0 e reason).2] 0 (AwaitReturned (make_failure_error h1)) [e]). eexists.
  do 7 eexists. split; [|split; [reflexivity|split; [apply StepHint|done]]].
  eapply rtc_l; [apply (StepFailure h0 [] 0 AwaitStart [] e reason); [by left|by apply not_elem_of_nil]|].
  eapply rtc_l; [by apply StepAwait|]. eapply rtc_l; [apply (StepAwait h1 _ _ AwaitTest AwaitEnd); unfold await_step; by rewrite Hi, orb_true_r|].
  apply rtc_once. by apply StepAwait.
Qed.
