(* ===== verification/Ring.v ===== *)
(** The token ring (crates/cassandra-cluster-metadata/src/ring.rs).

    The file shows that the ring and its reverse map stay inverse to each other,
    that every token has one owner, that the replica walk yields the first
    distinct endpoints of the ring read clockwise, and that writes reach pending
    owners as well. *)
From S2P Require Export Prelude OrdMap Token Node.

Record TokenRing := mkTokenRing {
  ring_entries : ordmap Z Endpoint;
  endpoint_tokens : gmap Endpoint (gset Z);
  pending_ranges : ordmap Z (list Endpoint);
}.

Definition TokenRing_new : TokenRing := mkTokenRing ∅ ∅ ∅.
Definition TokenRing_token_count (r : TokenRing) : nat := length (entries (ring_entries r)).
Definition TokenRing_endpoint_count (r : TokenRing) : nat := size (endpoint_tokens r).
Definition TokenRing_is_empty (r : TokenRing) : bool :=
  match entries (ring_entries r) with [] => true | _ => false end.

(** [tokens.remove(&token)] and the removal of an emptied set. *)
Definition drop_token (token : Z) (ep : Endpoint) (m : gmap Endpoint (gset Z)) : gmap Endpoint (gset Z) :=
  match m !! ep with
  | Some tokens =>
      let tokens := tokens ∖ {[ token ]} in
      if bool_decide (tokens = ∅) then delete ep m else <[ep := tokens]> m
  | None => m
  end.

Definition TokenRing_add_token (r : TokenRing) (token : Z) (endpoint : Endpoint) : TokenRing :=
  let m :=
    match ring_entries r !! token with
    | Some old_ep =>
        if bool_decide (old_ep = endpoint) then endpoint_tokens r
        else drop_token token old_ep (endpoint_tokens r)
    | None => endpoint_tokens r
    end in
  mkTokenRing (<[token := endpoint]> (ring_entries r))
    (<[endpoint := {[ token ]} ∪ default ∅ (m !! endpoint)]> m) (pending_ranges r).

Definition TokenRing_add_node (r : TokenRing) (endpoint : Endpoint) (tokens : list Z) : TokenRing :=
  foldl (fun r token => TokenRing_add_token r token endpoint) r tokens.

Definition TokenRing_remove_node (r : TokenRing) (endpoint : Endpoint) : TokenRing :=
  match endpoint_tokens r !! endpoint with
  | Some tokens =>
      mkTokenRing (foldl (fun m t => delete t m) (ring_entries r) (elements tokens))
        (delete endpoint (endpoint_tokens r)) (pending_ranges r)
  | None => r
  end.

Definition TokenRing_primary_endpoint (r : TokenRing) (token : Z) : option Endpoint :=
  if TokenRing_is_empty r then None
  else match range_from token (ring_entries r) with
       | (_, ep) :: _ => Some ep
       | [] => head (values (ring_entries r))
       end.

(** One of the two loops of [natural_endpoints]: either it runs to its end, or it
    returns from the function with [count] endpoints. *)
Fixpoint collect_endpoints (count : nat) (l : list (Z * Endpoint)) (seen : gset Endpoint)
    (result : list Endpoint) : (gset Endpoint * list Endpoint) + list Endpoint :=
  match l with
  | [] => inl (seen, result)
  | (_, ep) :: l =>
      if bool_decide (ep ∈ seen) then collect_endpoints count l seen result
      else
        let result := result ++ [ep] in
        if (count <=? length result)%nat then inr result
        else collect_endpoints count l ({[ ep ]} ∪ seen) result
  end.

Definition TokenRing_natural_endpoints (r : TokenRing) (token : Z) (count : nat) : list Endpoint :=
  if TokenRing_is_empty r || (count =? 0)%nat then []
  else
    match collect_endpoints count (range_from token (ring_entries r)) ∅ [] with
    | inr result => result
    | inl (seen, result) =>
        match collect_endpoints count (entries (ring_entries r)) seen result with
        | inr result => result
        | inl (_, result) => result
        end
    end.

Definition TokenRing_all_endpoints (r : TokenRing) : list Endpoint := (map_to_list (endpoint_tokens r)).*1.

Definition TokenRing_tokens_for (r : TokenRing) (endpoint : Endpoint) : list Z :=
  match endpoint_tokens r !! endpoint with
  | Some s => sort_by cmp (elements s)
  | None => []
  end.

Definition TokenRing_iter (r : TokenRing) : list (Z * Endpoint) := entries (ring_entries r).

Definition TokenRing_previous_token (r : TokenRing) (token : Z) : option Z :=
  if TokenRing_is_empty r then None
  else match last (range_to token (ring_entries r)) with
       | Some (prev_token, _) => Some prev_token
       | None => last (keys (ring_entries r))
       end.

(** * Pending ranges *)

Definition with_pending (r : TokenRing) (p : ordmap Z (list Endpoint)) : TokenRing :=
  mkTokenRing (ring_entries r) (endpoint_tokens r) p.

Definition TokenRing_add_pending_range (r : TokenRing) (token : Z) (endpoint : Endpoint) : TokenRing :=
  let entry := default [] (pending_ranges r !! token) in
  let entry := if bool_decide (endpoint ∈ entry) then entry else entry ++ [endpoint] in
  with_pending r (<[token := entry]> (pending_ranges r)).

Definition TokenRing_remove_pending_ranges_for (r : TokenRing) (endpoint : Endpoint) : TokenRing :=
  with_pending r
    (omap (fun eps => let eps := filter (fun e => e <> endpoint) eps in
                      match eps with [] => None | _ => Some eps end) (pending_ranges r)).

Definition TokenRing_clear_pending_ranges (r : TokenRing) : TokenRing := with_pending r ∅.

Definition TokenRing_pending_endpoints_for (r : TokenRing) (token : Z) : list Endpoint :=
  if bool_decide (entries (pending_ranges r) = []) then []
  else match range_from token (pending_ranges r) with
       | (_, eps) :: _ => eps
       | [] => default [] (head (values (pending_ranges r)))
       end.

Definition TokenRing_has_pending_ranges (r : TokenRing) : bool :=
  negb (bool_decide (entries (pending_ranges r) = [])).

Definition TokenRing_write_replicas (r : TokenRing) (token : Z) (natural_count : nat) : list Endpoint :=
  foldl (fun replicas ep => if bool_decide (ep ∈ replicas) then replicas else replicas ++ [ep])
    (TokenRing_natural_endpoints r token natural_count) (TokenRing_pending_endpoints_for r token).

(** * The two maps *)

Inductive RingOp :=
| AddToken (token : Z) (ep : Endpoint)
| AddNode (ep : Endpoint) (tokens : list Z)
| RemoveNode (ep : Endpoint)
| AddPending (token : Z) (ep : Endpoint)
| RemovePending (ep : Endpoint)
| ClearPending.

Definition ring_op (r : TokenRing) (o : RingOp) : TokenRing :=
  match o with
  | AddToken t ep => TokenRing_add_token r t ep
  | AddNode ep ts => TokenRing_add_node r ep ts
  | RemoveNode ep => TokenRing_remove_node r ep
  | AddPending t ep => TokenRing_add_pending_range r t ep
  | RemovePending ep => TokenRing_remove_pending_ranges_for r ep
  | ClearPending => TokenRing_clear_pending_ranges r
  end.

(** The tokens of an endpoint in the reverse map. *)
Definition owned (m : gmap Endpoint (gset Z)) (ep : Endpoint) : gset Z := default ∅ (m !! ep).

(** The reverse map lists exactly the tokens each endpoint owns and has no empty
    sets; pending lists have no duplicates and are not empty. *)
Record ring_wf (r : TokenRing) : Prop := {
  wf_inverse t ep : ring_entries r !! t = Some ep <-> t ∈ owned (endpoint_tokens r) ep;
  wf_nonempty ep ts : endpoint_tokens r !! ep = Some ts -> ts <> ∅;
  wf_pending t eps : pending_ranges r !! t = Some eps -> NoDup eps /\ eps <> [];
}.

Lemma owned_insert m ep ts ep' :
  owned (<[ep := ts]> m) ep' = if decide (ep = ep') then ts else owned m ep'.
Proof. unfold owned. destruct (decide _) as [->|?]; by simplify_map_eq. Qed.

Lemma owned_delete m ep ep' : owned (delete ep m) ep' = if decide (ep = ep') then ∅ else owned m ep'.
Proof. unfold owned. destruct (decide _) as [->|?]; by simplify_map_eq. Qed.

Lemma owned_drop t ep m ep' :
  owned (drop_token t ep m) ep' = if decide (ep = ep') then owned m ep ∖ {[ t ]} else owned m ep'.
Proof.
  unfold drop_token. destruct (m !! ep) as [ts|] eqn:E.
  - case_bool_decide as Hts; rewrite ?owned_delete, ?owned_insert; destruct (decide _); try done;
      unfold owned; rewrite E; simpl; set_solver.
  - destruct (decide _) as [<-|?]; [|done]. unfold owned. rewrite E. set_solver.
Qed.

Lemma drop_token_nonempty t ep m ep' ts :
  (forall ep ts, m !! ep = Some ts -> ts <> ∅) -> drop_token t ep m !! ep' = Some ts -> ts <> ∅.
Proof.
  intros Hne. unfold drop_token. destruct (m !! ep) as [s|] eqn:E; [|apply Hne].
  case_bool_decide as Hs.
  - intros [_ ?]%lookup_delete_Some. by eapply Hne.
  - intros [[<- <-]|[_ ?]]%lookup_insert_Some; [done|by eapply Hne].
Qed.

Lemma add_token_wf r t ep : ring_wf r -> ring_wf (TokenRing_add_token r t ep).
Proof.
  intros [Hinv Hne Hp]. split; [..|done]; unfold TokenRing_add_token; simpl.
  - intros t' ep'. rewrite owned_insert. change (default ∅ (?m !! ep)) with (owned m ep).
    destruct (decide (t = t')) as [<-|Ht]; [rewrite lookup_insert_eq|rewrite lookup_insert_ne by done].
    + destruct (ring_entries r !! t) as [old|] eqn:E; [case_bool_decide as Hold|];
        rewrite ?owned_drop; repeat destruct (decide _); set_solver.
    + destruct (ring_entries r !! t) as [old|] eqn:E; [case_bool_decide as Hold|];
        rewrite ?owned_drop, ?Hinv; repeat destruct (decide _); set_solver.
  - intros ep' ts [[<- <-]|[_ E]]%lookup_insert_Some; [set_solver|].
    destruct (ring_entries r !! t) as [old|]; [case_bool_decide|]; eauto using drop_token_nonempty.
Qed.

Lemma lookup_delete_all (l : list Z) (m : ordmap Z Endpoint) t :
  foldl (fun m t => delete t m) m l !! t = if decide (t ∈ l) then None else m !! t.
Proof.
  revert m. induction l as [|x l IH]; intros m; simpl; [done|]. rewrite IH.
  destruct (decide (t = x)) as [->|Hne].
  - rewrite lookup_delete_eq, (decide_True (P := x ∈ x :: l)) by left. by destruct (decide _).
  - rewrite lookup_delete_ne by done. destruct (decide (t ∈ l)) as [Hin|Hout].
    + by rewrite decide_True by by right.
    + rewrite decide_False; [done|]. by intros [?|?]%elem_of_cons.
Qed.

Lemma remove_node_wf r ep : ring_wf r -> ring_wf (TokenRing_remove_node r ep).
Proof.
  intros [Hinv Hne Hp]. unfold TokenRing_remove_node.
  destruct (endpoint_tokens r !! ep) as [ts|] eqn:E; [|by split]. split; simpl; [..|done].
  - intros t ep'. rewrite lookup_delete_all, owned_delete.
    assert (Hts : t ∈ elements ts <-> ring_entries r !! t = Some ep)
      by (rewrite Hinv, elem_of_elements; unfold owned; by rewrite E).
    destruct (decide (t ∈ elements ts)) as [Hin|Hout], (decide (ep = ep')) as [<-|Hep];
      rewrite <- ?Hinv; clear Hinv Hne Hp; [set_solver| |set_solver|done].
    apply Hts in Hin. split; [done|congruence].
  - intros ep' ts' [_ ?]%lookup_delete_Some. by eapply Hne.
Qed.

Lemma ring_op_wf r o : ring_wf r -> ring_wf (ring_op r o).
Proof.
  intros Hwf. destruct o as [t ep|ep ts|ep|t ep|ep|]; simpl.
  - by apply add_token_wf.
  - unfold TokenRing_add_node. revert r Hwf. induction ts; simpl; eauto using add_token_wf.
  - by apply remove_node_wf.
  - destruct Hwf as [Hinv Hne Hp]. split; [done..|]. simpl.
    intros t' eps [[<- <-]|[_ ?]]%lookup_insert_Some; [|by eapply Hp].
    assert (Hnd : NoDup (default [] (pending_ranges r !! t))).
    { destruct (pending_ranges r !! t) eqn:E; [by eapply Hp|apply NoDup_nil_2]. }
    case_bool_decide as Hin; [split; [done|]; intros E; by rewrite E in Hin; apply elem_of_nil in Hin|].
    split; [|by destruct (default _ _)].
    apply NoDup_app. split_and!; [done| |apply NoDup_singleton]. by intros x Hx ->%list_elem_of_singleton.
  - destruct Hwf as [Hinv Hne Hp]. split; [done..|]. simpl. intros t eps. rewrite lookup_omap.
    destruct (pending_ranges r !! t) as [l|] eqn:E; [|done]. simpl. intros Heps.
    assert (NoDup (filter (fun e => e <> ep) l)) by (apply NoDup_filter; by eapply Hp).
    destruct (filter _ l); by simplify_eq.
  - destruct Hwf as [Hinv Hne Hp]. split; [done..|]. simpl. intros t eps.
    by rewrite (lookup_empty (M:=ordmap Z)).
Qed.

(** * The walk around the ring *)

(** The endpoints of the ring clockwise from a token. *)
Definition clockwise (r : TokenRing) (token : Z) : list Endpoint :=
  (range_from token (ring_entries r) ++ range_to token (ring_entries r)).*2.

(** The first occurrences in a list of the elements outside a set. *)
Fixpoint firsts (seen : gset Endpoint) (l : list Endpoint) : list Endpoint :=
  match l with
  | [] => []
  | e :: l => if bool_decide (e ∈ seen) then firsts seen l else e :: firsts ({[ e ]} ∪ seen) l
  end.

Lemma firsts_app seen l1 l2 : firsts seen (l1 ++ l2) = firsts seen l1 ++ firsts (list_to_set l1 ∪ seen) l2.
Proof.
  revert seen. induction l1 as [|e l1 IH]; intros seen; simpl.
  - f_equal. set_solver.
  - case_bool_decide as He; rewrite IH; [|simpl; f_equal]; do 2 f_equal; set_solver.
Qed.

Lemma elem_of_firsts seen l e : e ∈ firsts seen l <-> e ∈ l /\ e ∉ seen.
Proof.
  revert seen. induction l as [|x l IH]; intros seen; simpl; [set_solver|].
  destruct (decide (e = x)) as [->|]; case_bool_decide; rewrite ?elem_of_cons, IH; set_solver.
Qed.

Lemma firsts_NoDup seen l : NoDup (firsts seen l).
Proof.
  revert seen. induction l as [|x l IH]; intros seen; simpl; [apply NoDup_nil_2|].
  case_bool_decide; [done|]. constructor; [|done]. rewrite elem_of_firsts. set_solver.
Qed.

Lemma firsts_seen seen l : (forall e, e ∈ l -> e ∈ seen) -> firsts seen l = [].
Proof.
  induction l as [|x l IH]; intros Hs; simpl; [done|].
  rewrite bool_decide_eq_true_2 by (apply Hs; left). apply IH. intros e He. apply Hs. by right.
Qed.

Lemma collect_endpoints_spec count l seen result :
  (length result < count)%nat ->
  let all := result ++ firsts seen l.*2 in
  collect_endpoints count l seen result
  = if (count <=? length all)%nat then inr (take count all) else inl (list_to_set l.*2 ∪ seen, all).
Proof.
  revert seen result. induction l as [|[t ep] l IH]; intros seen result Hlen; csimpl.
  - rewrite app_nil_r. destruct (Nat.leb_spec count (length result)); [lia|]. do 2 f_equal. set_solver.
  - case_bool_decide as Hin.
    + rewrite IH by done. cbv zeta. destruct (_ <=? _)%nat; [done|]. do 2 f_equal. set_solver.
    + rewrite length_app; simpl. destruct (Nat.leb_spec count (length result + 1)).
      * destruct (Nat.leb_spec count (length (result ++ ep :: firsts ({[ep]} ∪ seen) l.*2))) as [_|Hlt];
          [|rewrite length_app in Hlt; simpl in Hlt; lia].
        f_equal. rewrite take_app, (take_ge result) by lia. replace (count - length result)%nat with 1%nat by lia.
        done.
      * rewrite IH by (rewrite length_app; simpl; lia). cbv zeta. rewrite <- (assoc_L (++)). simpl.
        destruct (_ <=? _)%nat; [done|]. do 2 f_equal. set_solver.
Qed.

Lemma entries_split (token : Z) (m : ordmap Z Endpoint) e :
  e ∈ entries m <-> e ∈ range_from token m \/ e ∈ range_to token m.
Proof.
  unfold range_from, range_to. rewrite !list_elem_of_In, !filter_In.
  destruct (cmp e.1 token); simpl; naive_solver.
Qed.

Lemma is_empty_spec r : TokenRing_is_empty r = true <-> entries (ring_entries r) = [].
Proof. unfold TokenRing_is_empty. by destruct (entries _). Qed.

Lemma elem_of_clockwise r token ep : ep ∈ clockwise r token <-> exists t, ring_entries r !! t = Some ep.
Proof.
  unfold clockwise. rewrite list_elem_of_fmap. setoid_rewrite elem_of_app. setoid_rewrite <- entries_split.
  setoid_rewrite ordmap_elem. split; [intros ([t ?] & -> & ?); eauto|intros [t ?]; by exists (t, ep)].
Qed.

(** [natural_endpoints] is the reference: the first [count] distinct endpoints
    met clockwise. *)
Lemma natural_endpoints_firsts r token count :
  TokenRing_natural_endpoints r token count = take count (firsts ∅ (clockwise r token)).
Proof.
  unfold TokenRing_natural_endpoints, clockwise.
  destruct (TokenRing_is_empty r) eqn:Ee; simpl.
  { apply is_empty_spec in Ee. unfold range_from, range_to. rewrite Ee. symmetry. apply take_nil. }
  destruct (Nat.eqb_spec count 0) as [->|Hc]; [by rewrite take_0|].
  rewrite collect_endpoints_spec by (simpl; lia). simpl.
  rewrite fmap_app, firsts_app. set (F := firsts ∅ (range_from _ _).*2).
  destruct (Nat.leb_spec count (length F)) as [Hle|Hgt].
  { by rewrite take_app_le. }
  rewrite collect_endpoints_spec by done. cbv zeta.
  assert (E : firsts (list_to_set (range_from token (ring_entries r)).*2 ∪ ∅) (entries (ring_entries r)).*2
              = firsts (list_to_set (range_from token (ring_entries r)).*2 ∪ ∅) (range_to token (ring_entries r)).*2).
  { rewrite (entries_range_split token), fmap_app, firsts_app.
    rewrite (firsts_seen _ (range_from _ _).*2), app_nil_r; [done|]. set_solver. }
  rewrite E. destruct (Nat.leb_spec count (length (F ++ firsts (list_to_set (range_from token (ring_entries r)).*2 ∪ ∅)
     (range_to token (ring_entries r)).*2))) as [?|?]; [done|]. by rewrite take_ge by lia.
Qed.

Lemma endpoint_in_map r ep :
  ring_wf r -> is_Some (endpoint_tokens r !! ep) <-> exists t, ring_entries r !! t = Some ep.
Proof.
  intros [Hinv Hne _]. setoid_rewrite Hinv. unfold owned. split.
  - intros [ts E]. rewrite E. simpl. apply set_choose_L. by eapply Hne.
  - intros [t Ht]. destruct (endpoint_tokens r !! ep); [eauto|set_solver].
Qed.

Lemma length_firsts_clockwise r token :
  ring_wf r -> length (firsts ∅ (clockwise r token)) = TokenRing_endpoint_count r.
Proof.
  intros Hwf. unfold TokenRing_endpoint_count. rewrite <- length_map_to_list, <- (length_fmap fst).
  apply Permutation_length, NoDup_Permutation; [apply firsts_NoDup|apply NoDup_fst_map_to_list|].
  intros ep. rewrite elem_of_firsts, elem_of_clockwise, <- (endpoint_in_map r ep Hwf), list_elem_of_fmap.
  split.
  - intros [[ts E] _]. exists (ep, ts). by rewrite elem_of_map_to_list.
  - intros ([e ts] & -> & E%elem_of_map_to_list). split; [by exists ts|set_solver].
Qed.

Lemma primary_endpoint_clockwise r token :
  TokenRing_primary_endpoint r token = head (clockwise r token).
Proof.
  unfold TokenRing_primary_endpoint, clockwise. destruct (TokenRing_is_empty r) eqn:E.
  { apply is_empty_spec in E. unfold range_from, range_to. by rewrite E. }
  unfold values. rewrite (entries_range_split token). by destruct (range_from _ _) as [|[t ep] l]; [rewrite app_nil_r|].
Qed.

Lemma head_firsts l : head (firsts ∅ l) = head l.
Proof. destruct l; [done|]. simpl. by rewrite bool_decide_eq_false_2 by set_solver. Qed.

Lemma sort_Z_strict (l : list Z) : NoDup l -> StronglySorted Z.lt (sort_by cmp l).
Proof.
  intros Hnd. assert (Hnd' : NoDup (sort_by cmp l)) by (by rewrite sort_by_perm). revert Hnd'.
  assert (Hs : StronglySorted Z.le (sort_by cmp l)).
  { apply Sorted_StronglySorted; [intros x y z; lia|].
    apply sort_by_sorted; intros x y; unfold cmp, Z_ord; destruct (Z.compare_spec x y); simpl; intros; try done; lia. }
  clear Hnd. induction Hs as [|x m _ IH Hx]; intros Hnd; [constructor|]. apply NoDup_cons in Hnd as [Hx' Hnd].
  constructor; [auto|]. rewrite Forall_forall in *. intros y Hy. specialize (Hx y Hy).
  assert (x <> y) by congruence. lia.
Qed.

Lemma ring_ops_wf ops : ring_wf (foldl ring_op TokenRing_new ops).
Proof.
  assert (Hwf : ring_wf TokenRing_new).
  { split; simpl; intros.
    - rewrite (lookup_empty (M:=ordmap Z)). unfold owned. rewrite lookup_empty. set_solver.
    - by rewrite lookup_empty in *.
    - by rewrite (lookup_empty (M:=ordmap Z)) in *. }
  revert Hwf. generalize TokenRing_new. induction ops; simpl; eauto using ring_op_wf.
Qed.

(** C38. The two maps of the ring agree.  After any sequence of operations,
    [tokens_for] lists exactly the tokens an endpoint owns, in ascending order, and
    the endpoints of the ring are those that own a token. *)
Theorem token_ring_consistent (ops : list RingOp) :
  let r := foldl ring_op TokenRing_new ops in
  (forall t ep, ring_entries r !! t = Some ep <-> t ∈ TokenRing_tokens_for r ep)
  /\ (forall ep, StronglySorted Z.lt (TokenRing_tokens_for r ep))
  /\ (forall ep, ep ∈ TokenRing_all_endpoints r <-> exists t, ring_entries r !! t = Some ep).
Proof.
  intros r. pose proof (ring_ops_wf ops) as Hwf. fold r in Hwf. split_and!.
  - intros t ep. rewrite (wf_inverse r Hwf). unfold owned, TokenRing_tokens_for.
    destruct (endpoint_tokens r !! ep); simpl; [|set_solver]. by rewrite sort_by_perm, elem_of_elements.
  - intros ep. unfold TokenRing_tokens_for. destruct (endpoint_tokens r !! ep) as [ts|]; [|constructor].
    apply sort_Z_strict, NoDup_elements.
  - intros ep. rewrite <- (endpoint_in_map r ep Hwf). unfold TokenRing_all_endpoints.
    rewrite list_elem_of_fmap. split.
    + intros ([e ts] & -> & E%elem_of_map_to_list). by exists ts.
    + intros [ts E]. exists (ep, ts). by rewrite elem_of_map_to_list.
Qed.

(** C37. Replica placement on the ring.  [natural_endpoints] returns the first
    [count] distinct endpoints met clockwise from the token: no endpoint twice, as
    many as asked for unless the ring has fewer, and the primary endpoint first. *)
Theorem natural_endpoints_correct (ops : list RingOp) (token : Z) (count : nat) :
  let r := foldl ring_op TokenRing_new ops in
  let eps := TokenRing_natural_endpoints r token count in
  eps = take count (firsts ∅ (clockwise r token))
  /\ NoDup eps
  /\ length eps = Nat.min count (TokenRing_endpoint_count r)
  /\ head eps = (if (count =? 0)%nat then None else TokenRing_primary_endpoint r token).
Proof.
  intros r eps. pose proof (ring_ops_wf ops) as Hwf. fold r in Hwf.
  assert (E : eps = take count (firsts ∅ (clockwise r token))) by apply natural_endpoints_firsts.
  rewrite E. split_and!; [done|..].
  - eapply sublist_NoDup; [apply firsts_NoDup|apply sublist_take].
  - rewrite length_take, (length_firsts_clockwise r token Hwf). done.
  - rewrite primary_endpoint_clockwise, <- (head_firsts (clockwise r token)).
    destruct count; [by rewrite take_0|]. by destruct (firsts _ _).
Qed.

(** * Ownership *)

Lemma elem_of_ring_key r t : t ∈ keys (ring_entries r) <-> is_Some (ring_entries r !! t).
Proof. apply elem_of_keys. Qed.

(** In an ascending list, the head is least and the last is greatest. *)
Lemma sorted_head (l : list Z) x y : StronglySorted lt_of l -> head l = Some x -> y ∈ l -> x <= y.
Proof.
  destruct 1 as [|z l _ Hz]; [done|]. intros [= ->] [->|Hy]%elem_of_cons; [lia|].
  rewrite Forall_forall in Hz. specialize (Hz y Hy). rewrite lt_of_Z in Hz. lia.
Qed.

Lemma sorted_last (l : list Z) x y : StronglySorted lt_of l -> last l = Some x -> y ∈ l -> y <= x.
Proof.
  induction 1 as [|z l Hs IH Hz]; [done|]. rewrite Forall_forall in Hz. intros Hl Hy.
  destruct l as [|z' l]; [simpl in Hl; simplify_eq; apply list_elem_of_singleton in Hy; subst; lia|].
  assert (Hx : x ∈ z' :: l) by (apply last_Some_elem_of; done).
  apply elem_of_cons in Hy as [->|Hy]; [|by apply IH].
  specialize (Hz x Hx). rewrite lt_of_Z in Hz. lia.
Qed.

Lemma range_to_keys {A} t (m : ordmap Z A) k : k ∈ (range_to t m).*1 -> k < t.
Proof.
  intros ([k' v] & -> & Hin)%list_elem_of_fmap. apply list_elem_of_In, filter_In in Hin as [_ Hin].
  apply is_lt_spec in Hin. by rewrite lt_of_Z in Hin.
Qed.

Lemma range_from_keys {A} t (m : ordmap Z A) k : k ∈ (range_from t m).*1 -> t <= k.
Proof.
  intros ([k' v] & -> & Hin)%list_elem_of_fmap. apply list_elem_of_In, filter_In in Hin as [_ Hin].
  simpl in Hin |- *. unfold cmp, Z_ord in Hin. by destruct (Z.compare_spec k' t); simpl in Hin; try done; lia.
Qed.

(** [previous_token] of a ring token: the next lower one, or the greatest from
    the least. *)
Definition predecessor (ks : list Z) (t p : Z) : Prop :=
  p ∈ ks
  /\ ((p < t /\ forall k, k ∈ ks -> k < t -> k <= p)
      \/ ((forall k, k ∈ ks -> t <= k) /\ forall k, k ∈ ks -> k <= p)).

(** The ring token that owns a token: the next one up, or the least past the
    greatest. *)
Definition successor (ks : list Z) (token t : Z) : Prop :=
  t ∈ ks
  /\ ((token <= t /\ forall k, k ∈ ks -> token <= k -> t <= k)
      \/ ((forall k, k ∈ ks -> k < token) /\ forall k, k ∈ ks -> t <= k)).

Lemma successor_unique ks token t t' : successor ks token t -> successor ks token t' -> t = t'.
Proof.
  intros [Ht Hs] [Ht' Hs'].
  destruct Hs as [[? Hs]|[Hall Hs]], Hs' as [[? Hs']|[Hall' Hs']].
  - specialize (Hs t' Ht'). specialize (Hs' t Ht). lia.
  - specialize (Hall' t Ht). lia.
  - specialize (Hall t' Ht'). lia.
  - specialize (Hs t' Ht'). specialize (Hs' t Ht). lia.
Qed.

Lemma range_of_successor ks token t p :
  t ∈ ks -> predecessor ks t p ->
  TokenRange_contains (mkTokenRange p t) token = true <-> successor ks token t.
Proof.
  intros Ht [Hp Hpred].
  assert (E : TokenRange_contains (mkTokenRange p t) token = true
              <-> (if t <=? p then p < token \/ token <= t \/ p = t else p < token /\ token <= t)).
  { unfold TokenRange_contains, TokenRange_wraps_around, TokenRange_FULL_RING; simpl.
    case_bool_decide as Hf; [inversion Hf|]; z_tests; simpl; z_tests;
      rewrite ?orb_true_iff, ?andb_true_iff, ?Z.ltb_lt, ?Z.leb_le; lia || (split; intros; done || lia). }
  rewrite E. clear E. unfold successor. destruct Hpred as [[Hlt Hpred]|[Hmin Hmax]].
  - z_tests. split.
    + intros [? ?]. split; [done|]. left. split; [done|]. intros k Hk Hle.
      apply Z.le_ngt. intros Hkt. specialize (Hpred k Hk Hkt). lia.
    + intros [_ [[Hle Hs]|[Hall Hs]]].
      * split; [|done]. apply Z.lt_nge. intros Hge. specialize (Hs p Hp Hge). lia.
      * specialize (Hs p Hp). lia.
  - pose proof (Hmin p Hp). z_tests. split.
    + intros Hor. split; [done|]. destruct (Z.le_gt_cases token t) as [Hle|Hgt].
      * left. split; [done|]. intros k Hk _. auto.
      * right. split; [|done]. intros k Hk. specialize (Hmax k Hk). lia.
    + intros [_ [[Hle _]|[Hall _]]]; [lia|]. specialize (Hall p Hp). lia.
Qed.

Lemma previous_token_predecessor r t :
  TokenRing_is_empty r = false ->
  exists p, TokenRing_previous_token r t = Some p /\ predecessor (keys (ring_entries r)) t p.
Proof.
  intros He. unfold TokenRing_previous_token. rewrite He.
  pose proof (keys_strongly_sorted (ring_entries r)) as Hs. unfold keys in *.
  rewrite (entries_range_split t (ring_entries r)) in *. rewrite fmap_app in *.
  pose proof (range_to_keys t (ring_entries r)) as Hto. pose proof (range_from_keys t (ring_entries r)) as Hfrom.
  destruct (last (range_to t (ring_entries r))) as [[p e]|] eqn:El.
  - exists p. split; [done|]. assert (El' : last (range_to t (ring_entries r)).*1 = Some p) by by rewrite fmap_last, El.
    assert (Hp : p ∈ (range_to t (ring_entries r)).*1) by by apply last_Some_elem_of.
    split; [set_solver|]. left. split; [auto|]. intros k [Hk|Hk]%elem_of_app Hlt; [|specialize (Hfrom k Hk); lia].
    eapply sorted_last; [|done|done]. by apply StronglySorted_app_1_l in Hs.
  - apply last_None in El. rewrite El in *. simpl in *.
    destruct (last (range_from t (ring_entries r)).*1) as [p|] eqn:Ep.
    + exists p. split; [done|]. split; [by apply last_Some_elem_of|]. right. split; [done|].
      intros k Hk. by eapply sorted_last.
    + apply last_None, fmap_nil_inv in Ep. unfold TokenRing_is_empty in He.
      by rewrite (entries_range_split t), El, Ep in He.
Qed.

Lemma primary_endpoint_successor r token :
  TokenRing_is_empty r = false ->
  exists t, successor (keys (ring_entries r)) token t
    /\ TokenRing_primary_endpoint r token = ring_entries r !! t.
Proof.
  intros He. rewrite primary_endpoint_clockwise. unfold clockwise.
  pose proof (keys_strongly_sorted (ring_entries r)) as Hs.
  assert (Hin : forall t ep, (t, ep) ∈ entries (ring_entries r) ->
            t ∈ keys (ring_entries r) /\ Some ep = ring_entries r !! t).
  { intros t ep Hin%ordmap_elem. rewrite elem_of_keys, Hin. eauto. }
  unfold keys in *. rewrite (entries_range_split token (ring_entries r)) in *. rewrite fmap_app in *.
  pose proof (range_to_keys token (ring_entries r)) as Hto. pose proof (range_from_keys token (ring_entries r)) as Hfrom.
  destruct (range_from token (ring_entries r)) as [|[t ep] l] eqn:Ef.
  - destruct (range_to token (ring_entries r)) as [|[t ep] l'] eqn:Et.
    { unfold TokenRing_is_empty in He. by rewrite (entries_range_split token), Ef, Et in He. }
    csimpl in *. rewrite app_nil_r in *. exists t. destruct (Hin t ep ltac:(left)) as [Hk <-]. split; [|done].
    split; [left|]. right. split; [done|]. intros k Hkk. by eapply (sorted_head _ t).
  - exists t. destruct (Hin t ep ltac:(apply elem_of_app; right; left)) as [Hk <-]. split; [|done].
    split; [done|]. left. split; [apply Hfrom; left|]. intros k [Hkk|Hkk]%elem_of_app Hle.
    + specialize (Hto k Hkk). lia.
    + apply StronglySorted_app_1_r in Hs. by eapply (sorted_head _ t).
Qed.

(** Every token has exactly one owner.  The ranges between neighbouring ring
    tokens, each open at the previous token and closed at its own, contain any
    given token exactly once, and [primary_endpoint] is the endpoint of that
    range's token. *)
Theorem ring_single_owner (r : TokenRing) (token : Z) (Hne : TokenRing_is_empty r = false) :
  exists t,
    TokenRing_primary_endpoint r token = ring_entries r !! t
    /\ forall t', is_Some (ring_entries r !! t') ->
         (t' = t <->
          exists p, TokenRing_previous_token r t' = Some p
                    /\ TokenRange_contains (mkTokenRange p t') token = true).
Proof.
  destruct (primary_endpoint_successor r token Hne) as (t & Ht & Hp). exists t. split; [done|].
  intros t' Hk%elem_of_keys. destruct (previous_token_predecessor r t' Hne) as (p & Ep & Hpred).
  pose proof (range_of_successor _ token t' p Hk Hpred) as Hr. split.
  - intros ->. exists p. split; [done|]. by apply Hr.
  - intros (p' & Ep' & Hc). simplify_eq. eapply successor_unique; [by apply Hr|done].
Qed.

Lemma ring_single_owner_witness :
  let r := TokenRing_add_node (TokenRing_add_node TokenRing_new (example_endpoint 1) [0; 200]) (example_endpoint 2) [100] in
  exists t, TokenRing_primary_endpoint r 150 = ring_entries r !! t.
Proof.
  intros r. destruct (ring_single_owner r 150 eq_refl) as (t & Ht & _). by exists t.
Defined.

Lemma write_replicas_fold (l base : list Endpoint) :
  let res := foldl (fun replicas ep => if bool_decide (ep ∈ replicas) then replicas else replicas ++ [ep]) base l in
  (NoDup base -> NoDup res) /\ base `prefix_of` res /\ forall ep, ep ∈ res <-> ep ∈ base \/ ep ∈ l.
Proof.
  revert base. induction l as [|x l IH]; intros base; simpl.
  - split_and!; [done..|]. set_solver.
  - case_bool_decide as Hx.
    + destruct (IH base) as (? & ? & Hin). split_and!; [done..|]. intros ep. rewrite Hin. set_solver.
    + destruct (IH (base ++ [x])) as (Hnd & Hpre & Hin). split_and!.
      * intros Hb. apply Hnd, NoDup_app. split_and!; [done| |apply NoDup_singleton].
        by intros y Hy ->%list_elem_of_singleton.
      * etrans; [|done]. by apply prefix_app_r.
      * intros ep. rewrite Hin. set_solver.
Qed.

(** Writes during a topology change go to the natural endpoints first, then to
    the pending endpoints that are not among them, and to no others; no endpoint
    is written twice. *)
Lemma write_replicas_cover (ops : list RingOp) (token : Z) (count : nat) :
  let r := foldl ring_op TokenRing_new ops in
  let w := TokenRing_write_replicas r token count in
  NoDup w /\ TokenRing_natural_endpoints r token count `prefix_of` w
  /\ forall ep, ep ∈ w <-> ep ∈ TokenRing_natural_endpoints r token count
                           \/ ep ∈ TokenRing_pending_endpoints_for r token.
Proof.
  intros r w. destruct (write_replicas_fold (TokenRing_pending_endpoints_for r token)
                          (TokenRing_natural_endpoints r token count)) as (Hnd & Hpre & Hin).
  split_and!; [|done..]. apply Hnd. rewrite natural_endpoints_firsts.
  eapply sublist_NoDup; [apply firsts_NoDup|apply sublist_take].
Qed.
