(* ===== verification/Replication.v ===== *)
(** Replication strategies (crates/cassandra-cluster-metadata/src/replication.rs)
    and the snitch interface they consult (snitch.rs).

    The file shows that NetworkTopologyStrategy gives every datacenter as many
    distinct replicas as it asks for and has, over as many racks as possible, and
    that transient replicas are marked so that every datacenter keeps a full one. *)
From S2P Require Export Prelude OrdMap Token Node Ring.

(** A [&dyn Snitch]: the two lookups its implementations provide. *)
Record Snitch := mkSnitch {
  snitch_datacenter : Endpoint -> string;
  snitch_rack : Endpoint -> string;
}.

Definition SimpleSnitch : Snitch := mkSnitch (fun _ => "datacenter1"%string) (fun _ => "rack1"%string).

Definition proximity_score (src_dc src_rack dc rack : string) : Z :=
  if bool_decide (dc = src_dc) && bool_decide (rack = src_rack) then 0
  else if bool_decide (dc = src_dc) then 1
  else 2.

Definition Snitch_sort_by_proximity (s : Snitch) (source : Endpoint) (endpoints : list Endpoint) : list Endpoint :=
  let score e := proximity_score (snitch_datacenter s source) (snitch_rack s source)
                   (snitch_datacenter s e) (snitch_rack s e) in
  sort_by (fun a b => cmp (score a) (score b)) endpoints.

Record Replica := mkReplica { replica_endpoint : Endpoint; is_transient : bool }.
Definition Replica_full (e : Endpoint) : Replica := mkReplica e false.
Definition Replica_transient (e : Endpoint) : Replica := mkReplica e true.
Definition Replica_is_full (r : Replica) : bool := negb (is_transient r).
Definition Replica_promote (r : Replica) : Replica := mkReplica (replica_endpoint r) false.

(** The trait; replication factors are [usize] values. *)
Class ReplicationStrategy (S : Type) := {
  calculate_natural_endpoints : S -> Z -> TokenRing -> Snitch -> list Endpoint;
  calculate_natural_replicas : S -> Z -> TokenRing -> Snitch -> list Replica;
  replication_factor : S -> Z;
  strategy_name : S -> string;
}.

(** The trait's default for [calculate_natural_replicas]. *)
Definition default_natural_replicas (eps : list Endpoint) : list Replica := Replica_full <$> eps.

(** * Ring walks without topology *)

Record SimpleStrategy := { simple_rf : nat }.
Definition SimpleStrategy_calculate_natural_endpoints (s : SimpleStrategy) (token : Z) (ring : TokenRing)
    (snitch : Snitch) : list Endpoint := TokenRing_natural_endpoints ring token (simple_rf s).
#[export] Instance SimpleStrategy_strategy : ReplicationStrategy SimpleStrategy := {
  calculate_natural_endpoints := SimpleStrategy_calculate_natural_endpoints;
  calculate_natural_replicas s t r sn :=
    default_natural_replicas (SimpleStrategy_calculate_natural_endpoints s t r sn);
  replication_factor s := Z.of_nat (simple_rf s);
  strategy_name _ := "SimpleStrategy"%string;
}.

Record OldNetworkTopologyStrategy := { old_rf : nat }.
Definition OldNetworkTopologyStrategy_calculate_natural_endpoints (s : OldNetworkTopologyStrategy) (token : Z)
    (ring : TokenRing) (snitch : Snitch) : list Endpoint := TokenRing_natural_endpoints ring token (old_rf s).
#[export] Instance OldNetworkTopologyStrategy_strategy : ReplicationStrategy OldNetworkTopologyStrategy := {
  calculate_natural_endpoints := OldNetworkTopologyStrategy_calculate_natural_endpoints;
  calculate_natural_replicas s t r sn :=
    default_natural_replicas (OldNetworkTopologyStrategy_calculate_natural_endpoints s t r sn);
  replication_factor s := Z.of_nat (old_rf s);
  strategy_name _ := "OldNetworkTopologyStrategy"%string;
}.

Inductive LocalStrategy := mkLocalStrategy.
Definition LocalStrategy_calculate_natural_endpoints (s : LocalStrategy) (token : Z) (ring : TokenRing)
    (snitch : Snitch) : list Endpoint := option_list (TokenRing_primary_endpoint ring token).
#[export] Instance LocalStrategy_strategy : ReplicationStrategy LocalStrategy := {
  calculate_natural_endpoints := LocalStrategy_calculate_natural_endpoints;
  calculate_natural_replicas s t r sn :=
    default_natural_replicas (LocalStrategy_calculate_natural_endpoints s t r sn);
  replication_factor _ := 1;
  strategy_name _ := "LocalStrategy"%string;
}.

Inductive EverywhereStrategy := mkEverywhereStrategy.
Definition EverywhereStrategy_calculate_natural_endpoints (s : EverywhereStrategy) (token : Z) (ring : TokenRing)
    (snitch : Snitch) : list Endpoint := TokenRing_all_endpoints ring.
#[export] Instance EverywhereStrategy_strategy : ReplicationStrategy EverywhereStrategy := {
  calculate_natural_endpoints := EverywhereStrategy_calculate_natural_endpoints;
  calculate_natural_replicas s t r sn :=
    default_natural_replicas (EverywhereStrategy_calculate_natural_endpoints s t r sn);
  replication_factor _ := u64_MAX;
  strategy_name _ := "EverywhereStrategy"%string;
}.

(** * NetworkTopologyStrategy *)

Record NetworkTopologyStrategy := { dc_replication : ordmap string nat }.

(** Factors are far from the width of usize, so their sum is taken in [nat]. *)
Definition NetworkTopologyStrategy_total_rf (s : NetworkTopologyStrategy) : nat :=
  sum_list (values (dc_replication s)).

(** [binary_search_by_key] on entries with ascending distinct tokens: the index
    of the token, or the index where it would go. *)
Fixpoint binary_search_by_key (token : Z) (l : list (Z * Endpoint)) (i : nat) : nat + nat :=
  match l with
  | [] => inr i
  | (t, _) :: l =>
      match cmp t token with
      | Lt => binary_search_by_key token l (S i)
      | Eq => inl i
      | Gt => inr i
      end
  end.

(** [(start_idx + offset) % n] for the offsets [0..n]. *)
Definition ring_walk (all_entries : list (Z * Endpoint)) (start_idx : nat) : list Endpoint :=
  let n := length all_entries in
  omap (fun offset => snd <$> all_entries !! ((start_idx + offset) mod n)%nat) (seq 0 n).

(** The loop's variables.  An [entry] that the code creates empty is an absent key
    here. *)
Record NtsState := mkNts {
  nts_dc_replicas : gmap string (list Endpoint);
  nts_dc_racks_used : gmap string (gset string);
  nts_seen_endpoints : gset Endpoint;
  nts_result : list Endpoint;
}.

Definition nts_reps (st : NtsState) (dc : string) : list Endpoint := default [] (nts_dc_replicas st !! dc).
Definition nts_racks (st : NtsState) (dc : string) : gset string := default ∅ (nts_dc_racks_used st !! dc).

Section Nts.
Context (strategy : NetworkTopologyStrategy) (snitch : Snitch) (all_entries : list (Z * Endpoint)).
Abbreviation dcof := (snitch_datacenter snitch).
Abbreviation rackof := (snitch_rack snitch).

(** [dc_nodes_in_ring] *)
Definition nts_unseen (st : NtsState) (dc : string) : nat :=
  size (list_to_set (filter (fun e => e ∉ nts_seen_endpoints st /\ dcof e = dc) all_entries.*2) : gset Endpoint).

(** The body of the first loop: the new state, or nothing on [continue]. *)
Definition nts_visit_racks (st : NtsState) (ep : Endpoint) : option NtsState :=
  if bool_decide (ep ∈ nts_seen_endpoints st) then None
  else
    let dc := dcof ep in
    let rack := rackof ep in
    match dc_replication strategy !! dc with
    | None => None
    | Some dc_rf =>
        if (dc_rf <=? length (nts_reps st dc))%nat then None
        else if bool_decide (rack ∈ nts_racks st dc)
                && (dc_rf <? length (nts_reps st dc) + nts_unseen st dc)%nat then None
        else Some (mkNts (<[dc := nts_reps st dc ++ [ep]]> (nts_dc_replicas st))
                         (<[dc := {[ rack ]} ∪ nts_racks st dc]> (nts_dc_racks_used st))
                         ({[ ep ]} ∪ nts_seen_endpoints st) (nts_result st ++ [ep]))
    end.

(** The body of the second loop. *)
Definition nts_visit_any (st : NtsState) (ep : Endpoint) : option NtsState :=
  if bool_decide (ep ∈ nts_seen_endpoints st) then None
  else
    let dc := dcof ep in
    match dc_replication strategy !! dc with
    | None => None
    | Some dc_rf =>
        if (dc_rf <=? length (nts_reps st dc))%nat then None
        else Some (mkNts (<[dc := nts_reps st dc ++ [ep]]> (nts_dc_replicas st)) (nts_dc_racks_used st)
                         ({[ ep ]} ∪ nts_seen_endpoints st) (nts_result st ++ [ep]))
    end.

(** A loop over the walk that breaks when it has [total_rf] results. *)
Fixpoint nts_loop (visit : NtsState -> Endpoint -> option NtsState) (walk : list Endpoint) (st : NtsState)
    : NtsState :=
  match walk with
  | [] => st
  | ep :: walk =>
      match visit st ep with
      | None => nts_loop visit walk st
      | Some st' =>
          if (NetworkTopologyStrategy_total_rf strategy <=? length (nts_result st'))%nat then st'
          else nts_loop visit walk st'
      end
  end.
End Nts.

Definition NetworkTopologyStrategy_calculate_natural_endpoints (s : NetworkTopologyStrategy) (token : Z)
    (ring : TokenRing) (snitch : Snitch) : list Endpoint :=
  let total_rf := NetworkTopologyStrategy_total_rf s in
  if TokenRing_is_empty ring || (total_rf =? 0)%nat then []
  else
    let all_entries := TokenRing_iter ring in
    let start_idx := match binary_search_by_key token all_entries 0 with inl i => i | inr i => i end in
    let walk := ring_walk all_entries start_idx in
    let st := nts_loop s (nts_visit_racks s snitch all_entries) walk (mkNts ∅ ∅ ∅ []) in
    if (length (nts_result st) <? total_rf)%nat
    then nts_result (nts_loop s (nts_visit_any s snitch) walk st)
    else nts_result st.

#[export] Instance NetworkTopologyStrategy_strategy : ReplicationStrategy NetworkTopologyStrategy := {
  calculate_natural_endpoints := NetworkTopologyStrategy_calculate_natural_endpoints;
  calculate_natural_replicas s t r sn :=
    default_natural_replicas (NetworkTopologyStrategy_calculate_natural_endpoints s t r sn);
  replication_factor s := Z.of_nat (NetworkTopologyStrategy_total_rf s);
  strategy_name _ := "NetworkTopologyStrategy"%string;
}.

(** * TransientReplicationStrategy *)

Record TransientReplicationStrategy := {
  inner : NetworkTopologyStrategy;
  dc_transient : ordmap string nat;
}.
Definition TransientReplicationStrategy_new (dc_rep dc_trans : ordmap string nat) : TransientReplicationStrategy :=
  {| inner := {| dc_replication := dc_rep |}; dc_transient := dc_trans |}.

Definition TransientReplicationStrategy_full_rf_for_dc (s : TransientReplicationStrategy) (dc : string) : nat :=
  (default 0 (dc_replication (inner s) !! dc) - default 0 (dc_transient s !! dc))%nat.
Definition TransientReplicationStrategy_transient_rf_for_dc (s : TransientReplicationStrategy) (dc : string) : nat :=
  default 0%nat (dc_transient s !! dc).

(** [*map.entry(dc).or_insert(0) += 1] *)
Definition count_dc (m : gmap string nat) (dc : string) : gmap string nat :=
  <[dc := S (default 0%nat (m !! dc))]> m.

Definition mark_replica (s : TransientReplicationStrategy) (snitch : Snitch) (dc_totals : gmap string nat)
    (acc : gmap string nat * list Replica) (ep : Endpoint) : gmap string nat * list Replica :=
  let '(dc_seen, replicas) := acc in
  let dc := snitch_datacenter snitch ep in
  let dc_seen := count_dc dc_seen dc in
  let seen := default 0%nat (dc_seen !! dc) in
  let total := default 0%nat (dc_totals !! dc) in
  let transient_count := (Nat.min (default 0%nat (dc_transient s !! dc)) (total - 1))%nat in
  let remaining := (total - seen + 1)%nat in
  (dc_seen, replicas ++ [if (remaining <=? transient_count)%nat then Replica_transient ep else Replica_full ep]).

Definition TransientReplicationStrategy_calculate_natural_replicas (s : TransientReplicationStrategy) (token : Z)
    (ring : TokenRing) (snitch : Snitch) : list Replica :=
  let endpoints := NetworkTopologyStrategy_calculate_natural_endpoints (inner s) token ring snitch in
  let dc_totals := foldl (fun m ep => count_dc m (snitch_datacenter snitch ep)) ∅ endpoints in
  let replicas := (foldl (mark_replica s snitch dc_totals) (∅, []) endpoints).2 in
  sort_by (fun a b => cmp (Z.b2z (is_transient a)) (Z.b2z (is_transient b))) replicas.

#[export] Instance TransientReplicationStrategy_strategy : ReplicationStrategy TransientReplicationStrategy := {
  calculate_natural_endpoints s := NetworkTopologyStrategy_calculate_natural_endpoints (inner s);
  calculate_natural_replicas := TransientReplicationStrategy_calculate_natural_replicas;
  replication_factor s := Z.of_nat (NetworkTopologyStrategy_total_rf (inner s));
  strategy_name _ := "TransientReplicationStrategy"%string;
}.

Definition TransientReplicationStrategy_calculate_read_endpoints s token ring snitch : list Endpoint :=
  replica_endpoint <$> List.filter Replica_is_full
    (TransientReplicationStrategy_calculate_natural_replicas s token ring snitch).
Definition TransientReplicationStrategy_calculate_write_endpoints s token ring snitch : list Endpoint :=
  replica_endpoint <$> TransientReplicationStrategy_calculate_natural_replicas s token ring snitch.
Definition TransientReplicationStrategy_calculate_full_replicas s token ring snitch : list Replica :=
  List.filter Replica_is_full (TransientReplicationStrategy_calculate_natural_replicas s token ring snitch).
Definition TransientReplicationStrategy_calculate_transient_replicas s token ring snitch : list Replica :=
  List.filter is_transient (TransientReplicationStrategy_calculate_natural_replicas s token ring snitch).

(** * The walk *)

Lemma binary_search_index token l i :
  keys_sorted l = true ->
  match binary_search_by_key token l i with inl j => j | inr j => j end
  = (i + length (List.filter (fun p => is_lt (cmp p.1 token)) l))%nat.
Proof.
  revert i. induction l as [|[t e] l IH]; intros i Hs; [simpl; lia|].
  apply keys_sorted_cons in Hs as [Hab Hs]. cbn [binary_search_by_key List.filter fst].
  destruct (cmp t token) eqn:E; cbn [is_lt].
  - apply cmp_eq in E as ->. destruct (filter_above token l Hab) as [-> _]. simpl. lia.
  - rewrite (IH (S i) Hs). simpl. lia.
  - destruct (filter_above token l) as [-> _]; [|simpl; lia].
    intros q Hq. eapply lt_of_trans; [apply cmp_gt_lt, E|by apply Hab].
Qed.

Lemma omap_seq_lookup {A B} (f : A -> B) (l : list A) (g : nat -> nat) m k s :
  (forall i, (i < m)%nat -> g (s + i)%nat = (k + i)%nat) -> (k + m <= length l)%nat ->
  omap (fun i => f <$> l !! g i) (seq s m) = f <$> take m (drop k l).
Proof.
  revert k s. induction m as [|m IH]; intros k s Hg Hlen; [done|].
  cbn [seq]. destruct (lookup_lt_is_Some_2 l k ltac:(lia)) as [x Hx].
  rewrite (drop_S l x k Hx). cbn [take]. rewrite fmap_cons. pose proof (Hg 0%nat ltac:(lia)) as H0.
  rewrite !Nat.add_0_r in H0. cbn [omap list_omap]. rewrite H0, Hx. cbn. f_equal.
  apply (IH (S k) (S s)); [|lia]. intros i Hi. replace (S s + i)%nat with (s + S i)%nat by lia. rewrite Hg; lia.
Qed.

Lemma ring_walk_rotate (l : list (Z * Endpoint)) start :
  (start <= length l)%nat -> ring_walk l start = (drop start l ++ take start l).*2.
Proof.
  intros Hs. unfold ring_walk. cbv zeta. set (n := length l).
  assert (En : seq 0 n = seq 0 (n - start) ++ seq (n - start) start)
    by (etrans; [|apply (seq_app (n - start) start 0)]; f_equal; lia).
  rewrite En, omap_app, fmap_app. f_equal.
  - rewrite (omap_seq_lookup snd l _ (n - start) start); [|intros i Hi|lia].
    + rewrite take_ge; [done|]. rewrite length_drop. lia.
    + rewrite Nat.mod_small; lia.
  - rewrite (omap_seq_lookup snd l _ start 0); [by rewrite drop_0|intros i Hi|lia].
    replace (start + (n - start + i))%nat with (i + 1 * n)%nat by lia.
    rewrite Nat.Div0.mod_add, Nat.mod_small; lia.
Qed.

Lemma walk_clockwise r token :
  ring_walk (TokenRing_iter r)
    match binary_search_by_key token (TokenRing_iter r) 0 with inl i => i | inr i => i end = clockwise r token.
Proof.
  unfold TokenRing_iter, clockwise. rewrite binary_search_index by apply sorted_of. simpl.
  change (List.filter _ (entries (ring_entries r))) with (range_to token (ring_entries r)).
  assert (E : entries (ring_entries r) = range_to token (ring_entries r) ++ range_from token (ring_entries r))
    by apply entries_range_split.
  rewrite ring_walk_rotate by (rewrite E, length_app; lia).
  rewrite E, drop_app_length, take_app_length. done.
Qed.

(** * Counting over datacenters *)

Lemma sum_list_zero {A} (l : list A) : sum_list ((fun _ => 0%nat) <$> l) = 0%nat.
Proof. by induction l. Qed.

Lemma sum_list_app (l1 l2 : list nat) : sum_list (l1 ++ l2) = (sum_list l1 + sum_list l2)%nat.
Proof. induction l1; simpl; lia. Qed.

Lemma sum_list_add {A} (f g : A -> nat) l :
  sum_list ((fun x => f x + g x)%nat <$> l) = (sum_list (f <$> l) + sum_list (g <$> l))%nat.
Proof. induction l as [|x l IH]; csimpl; [done|]. rewrite IH. lia. Qed.

Lemma sum_list_indicator {A} `{EqDecision A} (l : list A) k :
  NoDup l -> k ∈ l -> sum_list ((fun x => if decide (k = x) then 1 else 0)%nat <$> l) = 1%nat.
Proof.
  induction l as [|x l IH]; intros Hnd Hk; csimpl; [by apply elem_of_nil in Hk|].
  apply NoDup_cons in Hnd as [Hx Hnd]. destruct (decide (k = x)) as [->|Hne].
  - assert (E : (fun y => if decide (x = y) then 1 else 0)%nat <$> l = (fun _ => 0%nat) <$> l).
    { apply list_fmap_ext. intros i y Hy. rewrite decide_False; [done|]. intros ->.
      by apply Hx, (list_elem_of_lookup_2 _ i). }
    rewrite E, sum_list_zero. done.
  - rewrite IH; [done..|]. by apply elem_of_cons in Hk as [?|?].
Qed.

Lemma sum_list_tight {A} (f g : A -> nat) l x :
  (forall y, y ∈ l -> (f y <= g y)%nat) -> (sum_list (g <$> l) <= sum_list (f <$> l))%nat -> x ∈ l ->
  f x = g x.
Proof.
  intros Hle Hsum Hx. assert (Hall : forall l, (forall y, y ∈ l -> (f y <= g y)%nat) ->
                           (sum_list (f <$> l) <= sum_list (g <$> l))%nat).
  { clear. induction l as [|y l IH]; intros Hle; csimpl; [lia|]. specialize (Hle y ltac:(left)) as Hy.
    assert (sum_list (f <$> l) <= sum_list (g <$> l))%nat by (apply IH; intros; apply Hle; by right). lia. }
  apply list_elem_of_split in Hx as (l1 & l2 & ->).
  rewrite !fmap_app, !fmap_cons, !sum_list_app in Hsum; simpl in Hsum.
  assert (H1 : (sum_list (f <$> l1) <= sum_list (g <$> l1))%nat) by (apply Hall; set_solver).
  assert (H2 : (sum_list (f <$> l2) <= sum_list (g <$> l2))%nat) by (apply Hall; set_solver).
  specialize (Hle x ltac:(set_solver)). lia.
Qed.

(** * NetworkTopologyStrategy *)

Section NtsFacts.
Context (strategy : NetworkTopologyStrategy) (snitch : Snitch) (all_entries : list (Z * Endpoint)).
Abbreviation dcof := (snitch_datacenter snitch).
Abbreviation rackof := (snitch_rack snitch).
Abbreviation rf_of dc := (dc_replication strategy !! dc).

(** The endpoints of a list in a datacenter, the distinct ones of the ring, and
    the racks they stand in. *)
Definition in_dc (dc : string) (l : list Endpoint) : list Endpoint := filter (fun e => dcof e = dc) l.
Definition dc_nodes (dc : string) : gset Endpoint := list_to_set (in_dc dc all_entries.*2).
Definition racks_of (dc : string) (l : list Endpoint) : gset string := list_to_set (rackof <$> in_dc dc l).

Lemma elem_of_in_dc dc l e : e ∈ in_dc dc l <-> dcof e = dc /\ e ∈ l.
Proof. unfold in_dc. by rewrite list_elem_of_filter. Qed.

Lemma in_dc_app dc l1 l2 : in_dc dc (l1 ++ l2) = in_dc dc l1 ++ in_dc dc l2.
Proof. apply filter_app. Qed.

Lemma in_dc_snoc dc l e : in_dc dc (l ++ [e]) = in_dc dc l ++ (if decide (dcof e = dc) then [e] else []).
Proof. rewrite in_dc_app. unfold in_dc at 2. rewrite filter_cons. by destruct (decide _). Qed.

Lemma elem_of_racks_of dc l rk : rk ∈ racks_of dc l <-> exists e, rk = rackof e /\ dcof e = dc /\ e ∈ l.
Proof.
  unfold racks_of. rewrite elem_of_list_to_set, list_elem_of_fmap. by setoid_rewrite elem_of_in_dc.
Qed.

(** Every replica chosen belongs to one configured datacenter. *)
Lemma length_by_dc (l : list Endpoint) :
  (forall e, e ∈ l -> is_Some (rf_of (dcof e))) ->
  length l = sum_list ((fun p => length (in_dc p.1 l)) <$> entries (dc_replication strategy)).
Proof.
  induction l as [|e l IH]; intros Hl.
  { unfold in_dc. simpl. symmetry. apply sum_list_zero. }
  assert (E : forall p : string * nat, length (in_dc p.1 (e :: l))
              = ((if decide (dcof e = p.1) then 1 else 0) + length (in_dc p.1 l))%nat).
  { intros p. unfold in_dc. rewrite filter_cons. by destruct (decide _). }
  rewrite (list_fmap_ext _ (fun p => ((if decide (dcof e = p.1) then 1 else 0) + length (in_dc p.1 l))%nat))
    by (intros; apply E).
  rewrite sum_list_add, <- IH by (intros; apply Hl; by right). simpl.
  change (S (length l)) with (1 + length l)%nat. f_equal.
  pose proof (sum_list_indicator (keys (dc_replication strategy)) (dcof e) (keys_NoDup _)) as Hind.
  unfold keys in Hind. rewrite <- list_fmap_compose in Hind. symmetry. apply Hind.
  apply elem_of_keys, Hl. left.
Qed.

(** What both loops keep. *)
Record nts_inv (st : NtsState) : Prop := {
  ni_seen : nts_seen_endpoints st = list_to_set (nts_result st);
  ni_nodup : NoDup (nts_result st);
  ni_from e : e ∈ nts_result st -> e ∈ all_entries.*2 /\ is_Some (rf_of (dcof e));
  ni_reps dc : nts_reps st dc = in_dc dc (nts_result st);
  ni_le dc rf : rf_of dc = Some rf -> (length (in_dc dc (nts_result st)) <= rf)%nat;
}.

(** What the first loop keeps as well: while a datacenter has nodes to spare, its
    replicas stand in different racks. *)
Record nts_rack_inv (st : NtsState) : Prop := {
  nr_inv : nts_inv st;
  nr_racks dc : nts_racks st dc = racks_of dc (nts_result st);
  nr_spread dc rf : rf_of dc = Some rf -> (rf < size (dc_nodes dc))%nat ->
    size (racks_of dc (nts_result st)) = length (in_dc dc (nts_result st));
}.

Lemma nts_full st dc rf :
  nts_inv st -> (NetworkTopologyStrategy_total_rf strategy <= length (nts_result st))%nat ->
  rf_of dc = Some rf -> (rf <= length (in_dc dc (nts_result st)))%nat.
Proof.
  intros Hi Hlen Hrf. rewrite (length_by_dc (nts_result st)) in Hlen by (intros e He; apply (ni_from st Hi e He)).
  unfold NetworkTopologyStrategy_total_rf, values in Hlen.
  enough (length (in_dc dc (nts_result st)) = rf) by lia.
  apply (sum_list_tight (fun p => length (in_dc p.1 (nts_result st))) snd (entries (dc_replication strategy)) (dc, rf)).
  - intros [d r] Hd%ordmap_elem. by apply (ni_le st Hi).
  - done.
  - by apply ordmap_elem.
Qed.

(** The nodes not yet seen and the replicas chosen make up the datacenter. *)
Lemma nts_unseen_count st dc :
  nts_inv st -> (length (nts_reps st dc) + nts_unseen snitch all_entries st dc = size (dc_nodes dc))%nat.
Proof.
  intros Hi. rewrite (ni_reps st Hi). unfold nts_unseen.
  assert (Hnd : NoDup (in_dc dc (nts_result st))) by (apply NoDup_filter, (ni_nodup st Hi)).
  rewrite <- (size_list_to_set (C:=gset Endpoint) _ Hnd), <- size_union.
  - f_equal. apply set_eq. intros e. unfold dc_nodes.
    rewrite elem_of_union, !elem_of_list_to_set, !elem_of_in_dc, list_elem_of_filter, (ni_seen st Hi), elem_of_list_to_set.
    pose proof (ni_from st Hi e). destruct (decide (e ∈ nts_result st)); naive_solver.
  - intros e. rewrite !elem_of_list_to_set, elem_of_in_dc, list_elem_of_filter, (ni_seen st Hi), elem_of_list_to_set.
    naive_solver.
Qed.

(** A replica added. *)
Lemma nts_push st ep rf racks :
  nts_inv st -> ep ∈ all_entries.*2 -> ep ∉ nts_seen_endpoints st ->
  rf_of (dcof ep) = Some rf -> (length (nts_reps st (dcof ep)) < rf)%nat ->
  nts_inv (mkNts (<[dcof ep := nts_reps st (dcof ep) ++ [ep]]> (nts_dc_replicas st)) racks
             ({[ ep ]} ∪ nts_seen_endpoints st) (nts_result st ++ [ep])).
Proof.
  intros Hi Hring Hseen Hrf Hlt. rewrite (ni_seen st Hi), elem_of_list_to_set in Hseen.
  rewrite (ni_reps st Hi) in Hlt. split; simpl.
  - rewrite (ni_seen st Hi). set_solver.
  - apply NoDup_app. split_and!; [apply (ni_nodup st Hi)| |apply NoDup_singleton].
    by intros y Hy ->%list_elem_of_singleton.
  - intros e [He| ->%list_elem_of_singleton]%elem_of_app; [by apply (ni_from st Hi)|eauto].
  - intros dc. rewrite in_dc_snoc. unfold nts_reps at 1; simpl. destruct (decide (dcof ep = dc)) as [<-|Hne].
    + rewrite lookup_insert_eq. simpl. by rewrite (ni_reps st Hi).
    + rewrite lookup_insert_ne by done. rewrite app_nil_r. apply (ni_reps st Hi).
  - intros dc rf' Hrf'. rewrite in_dc_snoc, length_app. pose proof (ni_le st Hi dc rf' Hrf').
    destruct (decide _) as [<-|]; simpl; [simplify_eq|]; lia.
Qed.

Lemma racks_snoc dc l e :
  racks_of dc (l ++ [e]) = (if decide (dcof e = dc) then {[ rackof e ]} else ∅) ∪ racks_of dc l.
Proof.
  unfold racks_of. rewrite in_dc_snoc, fmap_app, list_to_set_app_L, (comm_L (∪)). f_equal.
  destruct (decide _); csimpl; set_solver.
Qed.

(** Why an endpoint was passed over, as a property of the replicas chosen. *)
Definition covered_any (res : list Endpoint) (ep : Endpoint) : Prop :=
  forall rf, rf_of (dcof ep) = Some rf -> ep ∈ res \/ (rf <= length (in_dc (dcof ep) res))%nat.
Definition covered_rack (res : list Endpoint) (ep : Endpoint) : Prop :=
  forall rf, rf_of (dcof ep) = Some rf ->
    ep ∈ res \/ (rf <= length (in_dc (dcof ep) res))%nat
    \/ (rackof ep ∈ racks_of (dcof ep) res /\ (rf < size (dc_nodes (dcof ep)))%nat).

Lemma covered_any_app res l ep : covered_any res ep -> covered_any (res ++ l) ep.
Proof.
  intros Hc rf Hrf. rewrite in_dc_app, length_app, elem_of_app. destruct (Hc rf Hrf); [auto|right; lia].
Qed.

Lemma covered_rack_app res l ep : covered_rack res ep -> covered_rack (res ++ l) ep.
Proof.
  intros Hc rf Hrf. rewrite in_dc_app, length_app, elem_of_app.
  destruct (Hc rf Hrf) as [?|[?|[Hrk ?]]]; [auto|right; left; lia|]. right; right. split; [|done].
  apply elem_of_racks_of in Hrk as (e & ? & ? & ?). apply elem_of_racks_of. exists e. set_solver.
Qed.

Lemma visit_racks_spec st ep :
  nts_rack_inv st -> ep ∈ all_entries.*2 ->
  match nts_visit_racks strategy snitch all_entries st ep with
  | None => covered_rack (nts_result st) ep
  | Some st' => nts_rack_inv st' /\ nts_result st' = nts_result st ++ [ep]
  end.
Proof.
  intros [Hi Hr Hs] Hring. unfold nts_visit_racks.
  case_bool_decide as Hseen.
  { rewrite (ni_seen st Hi), elem_of_list_to_set in Hseen. intros rf _. auto. }
  destruct (rf_of (dcof ep)) as [rf|] eqn:Hrf; [|by intros rf Hrf'; rewrite Hrf in Hrf'].
  destruct (Nat.leb_spec rf (length (nts_reps st (dcof ep)))) as [Hfull|Hlt].
  { intros rf' Hrf'. simplify_eq. rewrite (ni_reps st Hi) in Hfull. auto. }
  rewrite (nts_unseen_count st (dcof ep) Hi), Hr.
  destruct (bool_decide (rackof ep ∈ racks_of (dcof ep) (nts_result st))
            && (rf <? size (dc_nodes (dcof ep)))%nat) eqn:Edefer.
  { apply andb_true_iff in Edefer as [Hrk%bool_decide_eq_true Hn%Nat.ltb_lt].
    intros rf' Hrf'. simplify_eq. auto. }
  split; [|done]. split; simpl; [by eapply nts_push|..].
  - intros dc. rewrite racks_snoc. unfold nts_racks at 1; simpl.
    destruct (decide (dcof ep = dc)) as [<-|Hne]; [by rewrite lookup_insert_eq|].
    rewrite lookup_insert_ne by done. rewrite (left_id_L ∅ (∪)). apply Hr.
  - intros dc rf' Hrf' Hn. rewrite racks_snoc, in_dc_snoc, length_app. specialize (Hs dc rf' Hrf' Hn).
    destruct (decide (dcof ep = dc)) as [<-|Hne]; simpl; [|rewrite (left_id_L ∅ (∪)); lia].
    simplify_eq. apply Nat.ltb_lt in Hn. rewrite Hn, andb_true_r in Edefer.
    apply bool_decide_eq_false in Edefer. rewrite size_union by set_solver. rewrite size_singleton. lia.
Qed.

Lemma visit_any_spec st ep :
  nts_inv st -> ep ∈ all_entries.*2 ->
  match nts_visit_any strategy snitch st ep with
  | None => covered_any (nts_result st) ep
  | Some st' => nts_inv st' /\ nts_result st' = nts_result st ++ [ep]
  end.
Proof.
  intros Hi Hring. unfold nts_visit_any. case_bool_decide as Hseen.
  { rewrite (ni_seen st Hi), elem_of_list_to_set in Hseen. intros rf _. auto. }
  destruct (rf_of (dcof ep)) as [rf|] eqn:Hrf; [|by intros rf Hrf'; rewrite Hrf in Hrf'].
  destruct (Nat.leb_spec rf (length (nts_reps st (dcof ep)))) as [Hfull|Hlt].
  { intros rf' Hrf'. simplify_eq. rewrite (ni_reps st Hi) in Hfull. auto. }
  split; [|done]. by eapply nts_push.
Qed.

Lemma in_dc_nodes st dc :
  nts_inv st ->
  (list_to_set (in_dc dc (nts_result st)) : gset Endpoint) ⊆ dc_nodes dc
  /\ length (in_dc dc (nts_result st)) = size (list_to_set (in_dc dc (nts_result st)) : gset Endpoint).
Proof.
  intros Hi. split.
  - intros e. unfold dc_nodes. rewrite !elem_of_list_to_set, !elem_of_in_dc. intros [? ?]. split; [done|].
    by apply (ni_from st Hi).
  - symmetry. apply size_list_to_set, NoDup_filter, (ni_nodup st Hi).
Qed.

Lemma in_dc_size_le st dc : nts_inv st -> (length (in_dc dc (nts_result st)) <= size (dc_nodes dc))%nat.
Proof. intros [Hsub ->]%(in_dc_nodes st dc). by apply subseteq_size. Qed.

(** A datacenter with no more nodes than its factor, or whose factor is not
    reached, has all its nodes chosen. *)
Lemma in_dc_all st dc rf :
  nts_inv st -> rf_of dc = Some rf -> (forall ep, ep ∈ all_entries.*2 -> covered_any (nts_result st) ep) ->
  (length (in_dc dc (nts_result st)) < rf \/ size (dc_nodes dc) <= rf)%nat ->
  list_to_set (in_dc dc (nts_result st)) = dc_nodes dc.
Proof.
  intros Hi Hrf Hcov Hlt. destruct (in_dc_nodes st dc Hi) as [Hsub Hlen].
  destruct (decide (length (in_dc dc (nts_result st)) < rf)%nat) as [Hnf|Hf].
  - apply set_eq. intros e. split; [apply Hsub|]. unfold dc_nodes.
    rewrite !elem_of_list_to_set, !elem_of_in_dc. intros [<- He]. split; [done|].
    destruct (Hcov e He rf Hrf); [done|lia].
  - apply set_subseteq_size_eq; [done|]. lia.
Qed.

Lemma racks_of_sub dc l l' :
  (forall e, e ∈ in_dc dc l -> rackof e ∈ racks_of dc l') -> racks_of dc l ⊆ racks_of dc l'.
Proof.
  intros Hl rk (e & -> & Hdc & He)%elem_of_racks_of. by apply Hl, elem_of_in_dc.
Qed.

Lemma racks_of_le dc l : (size (racks_of dc l) <= length (in_dc dc l))%nat.
Proof.
  unfold racks_of. rewrite <- (length_fmap rackof). generalize (rackof <$> in_dc dc l).
  intros rks. induction rks as [|x k IH]; [done|]. cbn [list_to_set length].
  pose proof (size_union_alt ({[ x ]} : gset string) (list_to_set k)) as E.
  rewrite size_singleton in E. pose proof (subseteq_size (list_to_set k ∖ {[ x ]} : gset string) (list_to_set k) ltac:(set_solver)).
  lia.
Qed.

(** A loop whose visits keep an invariant and account for the endpoints they pass
    over accounts for the whole walk, also when it breaks. *)
Lemma nts_loop_spec visit (I : NtsState -> Prop) (cov : list Endpoint -> Endpoint -> Prop) walk st :
  (forall st, I st -> nts_inv st) ->
  (forall res l ep, cov res ep -> cov (res ++ l) ep) ->
  (forall res ep, covered_any res ep -> cov res ep) ->
  (forall st ep, I st -> ep ∈ walk ->
     match visit st ep with
     | None => cov (nts_result st) ep
     | Some st' => I st' /\ nts_result st' = nts_result st ++ [ep]
     end) ->
  I st ->
  let st' := nts_loop strategy visit walk st in
  I st' /\ nts_result st `prefix_of` nts_result st' /\ forall ep, ep ∈ walk -> cov (nts_result st') ep.
Proof.
  intros HI Happ Hany. revert st. induction walk as [|ep walk IH]; intros st Hv Hst; simpl.
  { split_and!; [done..|]. by intros ep ?%elem_of_nil. }
  pose proof (Hv st ep Hst ltac:(left)) as Hep. destruct (visit st ep) as [st1|].
  - destruct Hep as [Hst1 E1].
    assert (Hself : cov (nts_result st1) ep) by (apply Hany; intros rf _; left; rewrite E1; set_solver).
    destruct (Nat.leb_spec (NetworkTopologyStrategy_total_rf strategy) (length (nts_result st1))) as [Hbreak|_].
    + split_and!; [done|rewrite E1; by apply prefix_app_r|]. intros e _. apply Hany. intros rf Hrf. right.
      by eapply nts_full; [apply HI|..].
    + destruct (IH st1) as (HI' & Hpre & Hcov); [intros; apply Hv; [done|by right]|done|]. split_and!; [done|..].
      * etrans; [|done]. rewrite E1. by apply prefix_app_r.
      * intros e [->|He]%elem_of_cons; [|auto]. destruct Hpre as [l ->]. by apply Happ.
  - destruct (IH st) as (HI' & Hpre & Hcov); [intros; apply Hv; [done|by right]|done|]. split_and!; [done..|].
    intros e [->|He]%elem_of_cons; [|auto]. destruct Hpre as [l ->]. by apply Happ.
Qed.
End NtsFacts.

Section NtsResult.
Context (s : NetworkTopologyStrategy) (token : Z) (ring : TokenRing) (snitch : Snitch).
Abbreviation all_entries := (TokenRing_iter ring).
Abbreviation eps := (NetworkTopologyStrategy_calculate_natural_endpoints s token ring snitch).

Lemma nts_start : nts_rack_inv s snitch all_entries (mkNts ∅ ∅ ∅ []).
Proof.
  split; [split|..]; simpl; try done.
  - apply NoDup_nil_2.
  - by intros e ?%elem_of_nil.
  - intros. simpl. lia.
Qed.

(** The two loops together: the replicas after the first loop, which spread over
    racks, and the final ones, which leave out an endpoint only when its
    datacenter is full. *)
Lemma nts_outcome :
  exists st1 st2,
    nts_rack_inv s snitch all_entries st1
    /\ (forall ep, ep ∈ all_entries.*2 -> covered_rack s snitch all_entries (nts_result st1) ep)
    /\ nts_inv s snitch all_entries st2 /\ nts_result st1 `prefix_of` nts_result st2
    /\ (forall ep, ep ∈ all_entries.*2 -> covered_any s snitch (nts_result st2) ep)
    /\ nts_result st2 = eps.
Proof.
  assert (Hany_rack : forall res ep, covered_any s snitch res ep -> covered_rack s snitch all_entries res ep)
    by (intros res ep Hc rf Hrf; destruct (Hc rf Hrf); auto).
  unfold NetworkTopologyStrategy_calculate_natural_endpoints.
  destruct (TokenRing_is_empty ring || (NetworkTopologyStrategy_total_rf s =? 0)%nat) eqn:E0.
  { exists (mkNts ∅ ∅ ∅ []), (mkNts ∅ ∅ ∅ []). pose proof nts_start as Hst.
    assert (Hcov : forall ep, ep ∈ all_entries.*2 -> covered_any s snitch [] ep).
    { intros ep Hep. apply orb_true_iff in E0 as [He%is_empty_spec|Ht%Nat.eqb_eq].
      - unfold TokenRing_iter in Hep. rewrite He in Hep. by apply elem_of_nil in Hep.
      - intros rf Hrf. right. eapply (nts_full s snitch all_entries (mkNts ∅ ∅ ∅ [])); [apply Hst| |done].
        simpl. lia. }
    split_and!; eauto using nr_inv. }
  rewrite walk_clockwise.
  assert (Hwalk : forall ep, ep ∈ clockwise ring token <-> ep ∈ all_entries.*2).
  { intros ep. rewrite elem_of_clockwise. unfold TokenRing_iter.
    change ((entries (ring_entries ring)).*2) with (values (ring_entries ring)). by rewrite elem_of_values. }
  set (st1 := nts_loop s (nts_visit_racks s snitch all_entries) _ _).
  destruct (nts_loop_spec s snitch all_entries (nts_visit_racks s snitch all_entries)
              (nts_rack_inv s snitch all_entries) (covered_rack s snitch all_entries) (clockwise ring token)
              (mkNts ∅ ∅ ∅ [])) as (H1 & _ & Hcov1); eauto using nr_inv, covered_rack_app, nts_start.
  { intros st ep Hst Hep. apply visit_racks_spec; [done|by apply Hwalk]. }
  fold st1 in H1, Hcov1. pose proof (nr_inv _ _ _ _ H1) as H1'.
  destruct (Nat.ltb_spec (length (nts_result st1)) (NetworkTopologyStrategy_total_rf s)) as [Hlt|Hge].
  - destruct (nts_loop_spec s snitch all_entries (nts_visit_any s snitch)
              (nts_inv s snitch all_entries) (covered_any s snitch) (clockwise ring token) st1)
      as (H2 & Hpre & Hcov2); eauto using covered_any_app.
    { intros st ep Hst Hep. apply (visit_any_spec s snitch all_entries); [done|by apply Hwalk]. }
    exists st1. eexists. split_and!; [done| |exact H2|done| |done]; intros ep Hep%Hwalk; auto.
  - exists st1, st1. split_and!; try done.
    + intros ep Hep%Hwalk. auto.
    + intros ep _ rf Hrf. right. by eapply nts_full.
Qed.

(** C10. NetworkTopologyStrategy places exactly what it can: no endpoint twice, only
    ring endpoints of configured datacenters, and in each datacenter as many
    replicas as its replication factor, or all of its endpoints if they are
    fewer. *)
Theorem nts_replica_count :
  NoDup eps
  /\ (forall e, e ∈ eps -> (exists t, ring_entries ring !! t = Some e)
                          /\ is_Some (dc_replication s !! snitch_datacenter snitch e))
  /\ forall dc rf, dc_replication s !! dc = Some rf ->
       length (in_dc snitch dc eps) = Nat.min rf (size (dc_nodes snitch all_entries dc)).
Proof.
  destruct nts_outcome as (st1 & st2 & _ & _ & H2 & _ & Hcov & <-). split_and!.
  - apply (ni_nodup _ _ _ _ H2).
  - intros e He. destruct (ni_from _ _ _ _ H2 e He) as [Hr ?]. split; [|done]. by apply elem_of_values in Hr.
  - intros dc rf Hrf. pose proof (ni_le _ _ _ _ H2 dc rf Hrf) as Hle.
    pose proof (in_dc_size_le s snitch all_entries st2 dc H2) as Hn.
    destruct (decide (rf <= length (in_dc snitch dc (nts_result st2)))%nat) as [?|Hnf]; [lia|].
    destruct (in_dc_nodes s snitch all_entries st2 dc H2) as [_ Hlen].
    rewrite (in_dc_all s snitch all_entries st2 dc rf H2 Hrf Hcov) in Hlen by lia. lia.
Qed.

(** C8. NetworkTopologyStrategy spreads over racks as far as possible: the replicas
    of a datacenter stand in as many racks as its replication factor, or in all
    of its racks if they are fewer. *)
Theorem nts_rack_spread dc rf (Hrf : dc_replication s !! dc = Some rf) :
  size (racks_of snitch dc eps) = Nat.min rf (size (racks_of snitch dc all_entries.*2)).
Proof.
  destruct nts_outcome as (st1 & st2 & [H1 _ Hspread] & Hcov1 & H2 & Hpre & Hcov & <-).
  pose proof (ni_le _ _ _ _ H2 dc rf Hrf) as Hle. pose proof (racks_of_le snitch dc (nts_result st2)) as Hrl.
  destruct (in_dc_nodes s snitch all_entries st2 dc H2) as [_ Hlen].
  assert (Hup : racks_of snitch dc (nts_result st2) ⊆ racks_of snitch dc all_entries.*2).
  { apply racks_of_sub. intros e [Hdc He]%elem_of_in_dc. apply elem_of_racks_of. exists e.
    split_and!; [done..|]. by apply (ni_from _ _ _ _ H2). }
  pose proof (subseteq_size _ _ Hup) as Hup'.
  destruct (decide (size (dc_nodes snitch all_entries dc) <= rf)%nat) as [Hsmall|Hbig].
  - pose proof (in_dc_all s snitch all_entries st2 dc rf H2 Hrf Hcov ltac:(by right)) as Hall.
    assert (Hdown : racks_of snitch dc all_entries.*2 ⊆ racks_of snitch dc (nts_result st2)).
    { apply racks_of_sub. intros e He. apply elem_of_racks_of. exists e. split; [done|].
      apply elem_of_in_dc, (elem_of_list_to_set (C:=gset Endpoint)). rewrite Hall. by apply elem_of_list_to_set. }
    apply subseteq_size in Hdown. lia.
  - assert (Hpre' : racks_of snitch dc (nts_result st1) ⊆ racks_of snitch dc (nts_result st2)).
    { apply racks_of_sub. intros e [Hdc He]%elem_of_in_dc. apply elem_of_racks_of. exists e.
      destruct Hpre as [l ->]. set_solver. }
    apply subseteq_size in Hpre'. pose proof (Hspread dc rf Hrf ltac:(lia)) as Hsp.
    destruct (decide (rf <= length (in_dc snitch dc (nts_result st1)))%nat) as [?|Hnf]; [lia|].
    assert (Hdown : racks_of snitch dc all_entries.*2 ⊆ racks_of snitch dc (nts_result st1)).
    { apply racks_of_sub. intros e [<- He]%elem_of_in_dc.
      destruct (Hcov1 e He rf Hrf) as [?|[?|[? _]]]; [|lia|done]. apply elem_of_racks_of. by exists e. }
    apply subseteq_size in Hdown. lia.
Qed.
End NtsResult.

(** Two datacenters, the first with two racks. *)
Definition example_ring : TokenRing :=
  foldl (fun r n => TokenRing_add_token r (100 * n) (example_endpoint n)) TokenRing_new [1; 2; 3; 4; 5].
Definition example_snitch : Snitch :=
  mkSnitch (fun e => if bool_decide (e = example_endpoint 5) then "b"%string else "a"%string)
           (fun e => if bool_decide (e = example_endpoint 4) then "r2"%string else "r1"%string).
Definition example_strategy : NetworkTopologyStrategy := {| dc_replication := {[ "a"%string := 3%nat ]} |}.

Lemma nts_rack_spread_witness :
  NetworkTopologyStrategy_calculate_natural_endpoints example_strategy 0 example_ring example_snitch
    = example_endpoint <$> [1; 4; 2]
  /\ size (racks_of example_snitch "a" (example_endpoint <$> [1; 4; 2]))
     = Nat.min 3 (size (racks_of example_snitch "a" (TokenRing_iter example_ring).*2)).
Proof.
  split; [by vm_compute|].
  exact (nts_rack_spread example_strategy 0 example_ring example_snitch "a" 3 eq_refl).
Defined.

(** * Transient replicas *)

Section TransientFacts.
Context (s : TransientReplicationStrategy) (snitch : Snitch).
Abbreviation dcof := (snitch_datacenter snitch).

Definition transient_in (dc : string) (l : list Replica) : list Replica :=
  filter (fun r => dcof (replica_endpoint r) = dc /\ is_transient r = true) l.

Lemma count_dc_lookup m dc dc' :
  default 0%nat (count_dc m dc !! dc') = ((if decide (dc = dc') then 1 else 0) + default 0 (m !! dc'))%nat.
Proof. unfold count_dc. destruct (decide _) as [->|?]; by simplify_map_eq. Qed.

Lemma dc_totals_count l dc :
  default 0%nat (foldl (fun m ep => count_dc m (dcof ep)) ∅ l !! dc) = length (in_dc snitch dc l).
Proof.
  induction l as [|e l IH] using rev_ind; [done|]. rewrite foldl_snoc, count_dc_lookup, IH, in_dc_snoc, length_app.
  destruct (decide _); simpl; lia.
Qed.

Definition transient_count (total : nat) (dc : string) : nat :=
  Nat.min (default 0%nat (dc_transient s !! dc)) (total - 1).

Lemma mark_replicas_spec totals l :
  (forall dc, (length (in_dc snitch dc l) <= default 0 (totals !! dc))%nat) ->
  let '(seen, reps) := foldl (mark_replica s snitch totals) (∅, []) l in
  (forall dc, default 0%nat (seen !! dc) = length (in_dc snitch dc l))
  /\ replica_endpoint <$> reps = l
  /\ forall dc, let total := default 0%nat (totals !! dc) in
       length (transient_in dc reps) = (length (in_dc snitch dc l) - (total - transient_count total dc))%nat.
Proof.
  induction l as [|e l IH] using rev_ind; intros Hle; [done|]. rewrite foldl_snoc.
  assert (Hle' : forall dc, (length (in_dc snitch dc l) <= default 0 (totals !! dc))%nat).
  { intros dc. specialize (Hle dc). rewrite in_dc_snoc, length_app in Hle. lia. }
  destruct (foldl _ _ l) as [seen reps]. destruct (IH Hle') as (Hseen & Heps & Htr). simpl.
  rewrite count_dc_lookup, decide_True, Hseen by done. split_and!.
  - intros dc. rewrite count_dc_lookup, Hseen, in_dc_snoc, length_app. destruct (decide _); simpl; lia.
  - rewrite fmap_app, Heps. by case_match.
  - intros dc. rewrite in_dc_snoc. unfold transient_in. rewrite filter_app, !length_app.
    fold (transient_in dc reps). rewrite Htr, filter_cons. specialize (Hle dc).
    rewrite in_dc_snoc, length_app in Hle. unfold transient_count.
    destruct (decide (dcof e = dc)) as [<-|Hne]; simpl in Hle |- *.
    + destruct (_ <=? _)%nat eqn:Em; simpl; [apply Nat.leb_le in Em|apply Nat.leb_gt in Em];
        [rewrite decide_True by done|rewrite decide_False by naive_solver]; simpl; lia.
    + rewrite decide_False; [simpl; lia|]. case_match; naive_solver.
Qed.
End TransientFacts.

Lemma filter_all_true {A} (f : A -> bool) l :
  (forall b, b ∈ l -> f b = true) ->
  List.filter (fun a => negb (f a)) l = [] /\ List.filter f l = l.
Proof.
  induction l as [|b l IH]; intros Hall; [done|]. cbn [List.filter].
  destruct IH as [IH1 IH2]; [intros; apply Hall; by right|].
  rewrite (Hall b) by left. simpl. by rewrite IH1, IH2.
Qed.

Lemma bool_sorted_partition {A} (f : A -> bool) l :
  StronglySorted (fun a b => Z.b2z (f a) <= Z.b2z (f b)) l ->
  l = List.filter (fun a => negb (f a)) l ++ List.filter f l.
Proof.
  induction 1 as [|a l _ IH Ha]; [done|]. cbn [List.filter]. destruct (f a) eqn:E; cbn [negb].
  - destruct (filter_all_true f l) as [-> ->]; [|done].
    intros b Hb. rewrite Forall_forall in Ha. specialize (Ha b Hb).  by destruct (f b).
  - simpl. by f_equal.
Qed.

(** Transient replication marks replicas and moves none: the replicas are the
    endpoints of NetworkTopologyStrategy, full replicas come first, and each
    datacenter has the configured number of transient replicas, capped so that one
    replica stays full. *)
Theorem transient_replicas_correct (s : TransientReplicationStrategy) (token : Z) (ring : TokenRing) (snitch : Snitch) :
  let reps := TransientReplicationStrategy_calculate_natural_replicas s token ring snitch in
  let eps := NetworkTopologyStrategy_calculate_natural_endpoints (inner s) token ring snitch in
  TransientReplicationStrategy_calculate_write_endpoints s token ring snitch ≡ₚ eps
  /\ reps = TransientReplicationStrategy_calculate_full_replicas s token ring snitch
            ++ TransientReplicationStrategy_calculate_transient_replicas s token ring snitch
  /\ forall dc, length (transient_in snitch dc reps)
       = Nat.min (TransientReplicationStrategy_transient_rf_for_dc s dc) (length (in_dc snitch dc eps) - 1).
Proof.
  intros reps eps. set (totals := foldl (fun m ep => count_dc m (snitch_datacenter snitch ep)) ∅ eps).
  assert (Htot : forall dc, default 0%nat (totals !! dc) = length (in_dc snitch dc eps))
    by (intros dc; apply dc_totals_count).
  pose proof (mark_replicas_spec s snitch totals eps ltac:(intros dc; rewrite Htot; lia)) as Hmark.
  destruct (foldl (mark_replica s snitch totals) (∅, []) eps) as [seen marked] eqn:Em.
  destruct Hmark as (_ & Heps & Htr).
  assert (Hreps : reps ≡ₚ marked).
  { unfold reps, TransientReplicationStrategy_calculate_natural_replicas. fold eps. fold totals. rewrite Em.
    apply sort_by_perm. }
  split_and!.
  - unfold TransientReplicationStrategy_calculate_write_endpoints. fold reps. by rewrite Hreps, Heps.
  - apply bool_sorted_partition. apply Sorted_StronglySorted; [intros x y z; lia|].
    apply sort_by_sorted; intros x y; unfold cmp, Z_ord;
      destruct (Z.compare_spec (Z.b2z (is_transient x)) (Z.b2z (is_transient y))); simpl; intros; try done; lia.
  - intros dc. unfold transient_in. rewrite Hreps. fold (transient_in snitch dc marked). rewrite Htr, Htot.
    unfold transient_count, TransientReplicationStrategy_transient_rf_for_dc. lia.
Qed.
