(* ===== verification/ReadCoordinate.v ===== *)
(** * Coordinating a read

    crates/cassandra-coordinator/src/read/mod.rs (plan_read), executor.rs,
    speculative_retry.rs, short_read.rs, and storage_proxy.rs (fetch_rows and the
    messages it sends).

    The messages of a read are numbered in the order they are sent.  The replicas'
    contents may change between messages: [held n e] is what [e] holds for the partition
    when it answers message [n], and [delivered n e] whether that answer, and not
    a failure, comes back.  JSON carries the payloads unchanged, and one clock
    reading serves the whole read. *)
From S2P Require Export ReadRepair Consistency Replication.

(** ** Speculative retry (speculative_retry.rs) and the plan (executor.rs) *)

(** [F64] stands for [f64]; a delay is in milliseconds. *)
Inductive SpeculativeRetryPolicy (F64 : Type) :=
| NeverSpeculate
| AlwaysSpeculate
| Percentile (p : F64)
| FixedDelay (ms : Z).
Arguments NeverSpeculate {F64}.
Arguments AlwaysSpeculate {F64}.
Arguments Percentile {F64}.
Arguments FixedDelay {F64}.

Inductive ReadExecutorType := NeverSpeculating | Speculating | AlwaysSpeculating.
#[export] Instance ReadExecutorType_eq_dec : EqDecision ReadExecutorType.
Proof. solve_decision. Defined.

Record ReadExecutionPlan := mkReadExecutionPlan {
  rx_data_replica : Endpoint;
  rx_digest_replicas : list Endpoint;
  rx_speculative_replica : option Endpoint;
  rx_speculative_delay : option Z;
  rx_required_responses : nat;
}.

Section Plan.
Context {F64 : Type}.

Definition SpeculativeRetryPolicy_speculative_delay (policy : SpeculativeRetryPolicy F64) (percentile_latency_ms : F64 -> Z) :
    option Z :=
  match policy with
  | NeverSpeculate => None
  | AlwaysSpeculate => Some 0
  | Percentile p => Some (percentile_latency_ms p)
  | FixedDelay d => Some d
  end.
Definition ReadExecutorType_from_policy (policy : SpeculativeRetryPolicy F64) : ReadExecutorType :=
  match policy with
  | NeverSpeculate => NeverSpeculating
  | AlwaysSpeculate => AlwaysSpeculating
  | Percentile _ | FixedDelay _ => Speculating
  end.

(** [None] where an assertion or a slice of the code panics. *)
Definition compute_execution_plan (sorted_replicas : list Endpoint) (required : nat) (policy : SpeculativeRetryPolicy F64)
    (percentile_latency_ms : F64 -> Z) : option ReadExecutionPlan :=
  match sorted_replicas with
  | [] => None
  | data_replica :: rest =>
      if (length sorted_replicas <? required)%nat then None
      else
        let digest_end := Nat.min required (length sorted_replicas) in
        if (digest_end <? 1)%nat then None
        else
          let speculative_replica :=
            if negb (bool_decide (ReadExecutorType_from_policy policy = NeverSpeculating))
               && (required <? length sorted_replicas)%nat
            then sorted_replicas !! required else None in
          let speculative_delay :=
            if bool_decide (is_Some speculative_replica)
            then SpeculativeRetryPolicy_speculative_delay policy percentile_latency_ms else None in
          Some (mkReadExecutionPlan data_replica (take (digest_end - 1) rest) speculative_replica speculative_delay required)
  end.
End Plan.

(** ** Planning (mod.rs) *)

Inductive ReadError :=
| ReadFailure (cl : ConsistencyLevel) (required received num_failures : nat) (data_present : bool) (failure_map : gset Endpoint)
| ReadUnavailable (cl : ConsistencyLevel) (required alive : nat)
| ReadDigestMismatch (replicas_mismatched : nat)
| ReadInternal.

(** Without the paging state, which these paths never set. *)
Record ReadResult := mkReadResult {
  rr_result_data : option (list Z);
  rr_partitions : list PartitionResult;
  rr_responses_received : nat;
  rr_responses_required : nat;
  rr_read_repair_triggered : bool;
  rr_digest_mismatch_resolved : bool;
  rr_contacted_replicas : list Endpoint;
  rr_warnings : list (Z * Z);
  rr_speculative_retry_used : bool;
  rr_speculative_replica : option Endpoint;
  rr_speculative_delay : option Z;
  rr_tombstones_read : Z;
}.

(** Without the schema version. *)
Record ClusterSnapshot := mkClusterSnapshot { cs_ring : TokenRing; cs_nodes : gmap Endpoint NodeInfo }.

(** Without the timeout and the metrics; the scheduler is passed along. *)
Record ReadCoordinator (F64 : Type) := mkReadCoordinator {
  rc_cluster : ClusterSnapshot;
  rc_local_endpoint : Endpoint;
  rc_local_datacenter : string;
  rc_speculative_retry_policy : SpeculativeRetryPolicy F64;
  rc_read_repair_strategy : ReadRepairStrategy;
  rc_tombstone_thresholds : TombstoneThresholds;
  rc_latency_estimator : F64 -> Z;
}.
Arguments rc_cluster {F64}.
Arguments rc_local_endpoint {F64}.
Arguments rc_local_datacenter {F64}.
Arguments rc_speculative_retry_policy {F64}.
Arguments rc_read_repair_strategy {F64}.
Arguments rc_tombstone_thresholds {F64}.
Arguments rc_latency_estimator {F64}.

Section Planning.
Context {F64 S : Type} `{ReplicationStrategy S} (self : ReadCoordinator F64).

(** Unknown nodes count as local. *)
Definition dc_matches (e : Endpoint) : bool :=
  match cs_nodes (rc_cluster self) !! e with
  | Some n => bool_decide (datacenter n = rc_local_datacenter self)
  | None => true
  end.
(** The replicas of the level's scope. *)
Definition read_scope (cl : ConsistencyLevel) (natural_replicas : list Replica) : list Replica :=
  List.filter (fun r => negb (ConsistencyLevel_is_datacenter_local cl) || dc_matches (replica_endpoint r)) natural_replicas.
Definition replica_live (e : Endpoint) : bool :=
  match cs_nodes (rc_cluster self) !! e with Some n => NodeState_is_live (Node.state n) | None => false end.
(** The loop that sorts the live replicas of the scope into full and transient. *)
Definition live_replicas (full : bool) (scope : list Replica) : list Endpoint :=
  replica_endpoint <$> List.filter (fun r => replica_live (replica_endpoint r) && Bool.eqb (Replica_is_full r) full) scope.

(** [None] is a panic of the plan. *)
Definition plan_read (read : CoordinatedRead) (cl : ConsistencyLevel) (strategy : S) (snitch : Snitch) :
    option (ReadError + ReadResult) :=
  let token := Token_from_partition_key (cr_partition_key read) in
  let natural_replicas := calculate_natural_replicas strategy token (cs_ring (rc_cluster self)) snitch in
  let scope := read_scope cl natural_replicas in
  let rf := length scope in
  if (rf =? 0)%nat
  then Some (inl (ReadUnavailable cl (ConsistencyLevel_block_for cl (Z.to_nat (replication_factor strategy))) 0))
  else
    let required := ConsistencyLevel_block_for cl rf in
    let full_replicas := live_replicas true scope in
    let transient_replicas := live_replicas false scope in
    let live_count := (length full_replicas + length transient_replicas)%nat in
    if (live_count <? required)%nat then Some (inl (ReadUnavailable cl required live_count))
    else
      let sorted_replicas := Snitch_sort_by_proximity snitch (rc_local_endpoint self) full_replicas
                             ++ Snitch_sort_by_proximity snitch (rc_local_endpoint self) transient_replicas in
      plan ← compute_execution_plan sorted_replicas required (rc_speculative_retry_policy self) (rc_latency_estimator self);
      let contacted := rx_data_replica plan :: rx_digest_replicas plan in
      let '(contacted, speculative_retry_used, speculative_replica, speculative_delay) :=
        match rx_speculative_replica plan with
        | Some spec =>
            if bool_decide (rx_speculative_delay plan = Some 0) then (contacted ++ [spec], true, None, None)
            else (contacted, false, Some spec, rx_speculative_delay plan)
        | None => (contacted, false, None, None)
        end in
      Some (inr (mkReadResult None [] 0 required false false contacted [] speculative_retry_used speculative_replica
                   speculative_delay 0)).
End Planning.

(** ** Short reads (short_read.rs, storage_proxy.rs) *)

Record ShortReadProtection := mkShortReadProtection { sp_max_retries : nat; sp_retries : nat; sp_enabled : bool }.
Definition ShortReadProtection_new : ShortReadProtection := mkShortReadProtection 3 0 true.
Definition ShortReadProtection_needs_retry (s : ShortReadProtection) (rows_requested rows_received : nat)
    (tombstones_encountered : Z) : bool :=
  if negb (sp_enabled s) then false
  else if (sp_max_retries s <=? sp_retries s)%nat then false
  else (rows_received <? rows_requested)%nat && (0 <? tombstones_encountered).
Definition ShortReadProtection_record_retry (s : ShortReadProtection) : ShortReadProtection :=
  mkShortReadProtection (sp_max_retries s) (S (sp_retries s)) (sp_enabled s).

(** The bytes of a payload that fail to decode are [ReadError::Internal], [None] here. *)
Definition wire_data (partition : WirePartitionResult) : option (option PartitionData) :=
  match wp_data partition with [] => Some None | bytes => Some <$> decode_partition_data bytes end.
Definition read_data_payload_to_response (payload : ReadDataResponsePayload) : option DataResponse :=
  partitions ← mapM (fun partition =>
      data ← wire_data partition;
      Some (mkPartitionResult (wp_partition_key partition) data (wp_live_row_count partition) (wp_was_truncated partition)))
    (rp_partitions payload);
  Some (mkDataResponse partitions (rp_tombstones_read payload) (rp_is_short_read payload)).

Definition last_clustering_key_from_payload (payload : ReadDataResponsePayload) : option (option (list Z)) :=
  foldl (fun acc partition =>
      last_key ← acc;
      data ← wire_data partition;
      Some (match data with
            | Some data => match last (entries (pd_rows data)) with Some (ck, _) => Some ck | None => last_key end
            | None => last_key
            end)) (Some None) (rp_partitions payload).

Section ShortReads.
Context (hash : list HashItem -> Digest).

Definition refresh_payload_digest (payload : ReadDataResponsePayload) : option ReadDataResponsePayload :=
  let set digest := mkReadDataResponsePayload (rp_partitions payload) digest (rp_tombstones_read payload) (rp_is_short_read payload) in
  match rp_partitions payload with
  | [] => Some (set Digest_empty)
  | [partition] =>
      data ← wire_data partition;
      Some (set (match data with Some data => Digest_from_partition hash data | None => Digest_empty end))
  | _ => response ← read_data_payload_to_response payload; Some (set (DataResponse_digest hash response))
  end.

(** One partition of [next]: merged into the first with its key, or pushed. *)
Fixpoint merge_short_read_partition (partitions : list WirePartitionResult) (next_partition : WirePartitionResult) :
    option (list WirePartitionResult) :=
  match partitions with
  | [] => Some [next_partition]
  | existing :: rest =>
      if bool_decide (wp_partition_key existing = wp_partition_key next_partition) then
        merged ← wire_data existing;
        incoming ← wire_data next_partition;
        let incoming := default PartitionData_new incoming in
        let merged := absorb_tombstone (absorb_rows (default PartitionData_new merged) incoming) incoming in
        Some (mkWirePartitionResult (wp_partition_key existing) (encode_partition_data merged) (length (entries (pd_rows merged)))
                (wp_was_truncated existing || wp_was_truncated next_partition) :: rest)
      else rest ← merge_short_read_partition rest next_partition; Some (existing :: rest)
  end.
Definition merge_short_read_payload (base next : ReadDataResponsePayload) : option ReadDataResponsePayload :=
  partitions ← foldl (fun acc p => acc ≫= fun l => merge_short_read_partition l p) (Some (rp_partitions base)) (rp_partitions next);
  refresh_payload_digest
    (mkReadDataResponsePayload partitions (rp_digest base)
       (Z.min (2 ^ 32 - 1) (rp_tombstones_read base + rp_tombstones_read next)) (rp_is_short_read next)).
End ShortReads.

(** ** Messages (storage_proxy.rs) *)

Section Proxy.
Context (hash : list HashItem -> Digest) (held : nat -> Endpoint -> option PartitionData) (delivered : nat -> Endpoint -> bool)
  (now : Z).

(** The functions take the next message number and return it; [None] is an error. *)
Definition fetch_full_data_payload_with_bounds (read : CoordinatedRead) (endpoint : Endpoint) (start_after : option (list Z))
    (row_limit : option nat) (id : nat) : option ReadDataResponsePayload * nat :=
  (if delivered id endpoint
   then Some (read_data_response hash now (held id endpoint) (cr_partition_key read) start_after row_limit)
   else None, S id).
Definition fetch_full_data_payload (read : CoordinatedRead) (endpoint : Endpoint) (id : nat) : option ReadDataResponsePayload * nat :=
  fetch_full_data_payload_with_bounds read endpoint (cr_start_after read) (cr_row_limit read) id.
Definition fetch_digest (endpoint : Endpoint) (id : nat) : option Digest * nat :=
  (if delivered id endpoint then Some (read_digest_response hash (held id endpoint)) else None, S id).

(** The loop; [budget] bounds the retries that remain. *)
Fixpoint short_read_loop (budget : nat) (read : CoordinatedRead) (endpoint : Endpoint) (short_read : ShortReadProtection)
    (payload : ReadDataResponsePayload) (id : nat) : option ReadDataResponsePayload * nat :=
  if negb (rp_is_short_read payload) then (Some payload, id)
  else
    let rows_received := sum_list (wp_live_row_count <$> rp_partitions payload) in
    let rows_requested := S rows_received in
    if negb (ShortReadProtection_needs_retry short_read rows_requested rows_received (rp_tombstones_read payload))
    then (Some payload, id)
    else match budget with
         | O => (None, id)
         | S budget =>
             let short_read := ShortReadProtection_record_retry short_read in
             match last_clustering_key_from_payload payload with
             | None => (None, id)
             | Some None =>
                 match fetch_full_data_payload read endpoint id with
                 | (Some payload, id) => short_read_loop budget read endpoint short_read payload id
                 | (None, id) => (None, id)
                 end
             | Some (Some last_clustering_key) =>
                 match fetch_full_data_payload_with_bounds read endpoint (Some last_clustering_key) (Some rows_requested) id with
                 | (Some next_payload, id) =>
                     match merge_short_read_payload hash payload next_payload with
                     | Some payload => short_read_loop budget read endpoint short_read payload id
                     | None => (None, id)
                     end
                 | (None, id) => (None, id)
                 end
             end
         end.
Definition fetch_full_data_payload_with_short_read_retry (read : CoordinatedRead) (endpoint : Endpoint) (id : nat) :
    option ReadDataResponsePayload * nat :=
  match fetch_full_data_payload read endpoint id with
  | (Some payload, id) => short_read_loop (sp_max_retries ShortReadProtection_new) read endpoint ShortReadProtection_new payload id
  | (None, id) => (None, id)
  end.
(** The search for a replica that answers with data. *)
Fixpoint find_data_replica (read : CoordinatedRead) (candidates : list Endpoint) (num_failures : nat) (failure_map : gset Endpoint)
    (id : nat) : option (Endpoint * ReadDataResponsePayload) * nat * gset Endpoint * nat :=
  match candidates with
  | [] => (None, num_failures, failure_map, id)
  | candidate :: candidates =>
      match fetch_full_data_payload_with_short_read_retry read candidate id with
      | (Some payload, id) => (Some (candidate, payload), num_failures, failure_map, id)
      | (None, id) => find_data_replica read candidates (S num_failures) ({[ candidate ]} ∪ failure_map) id
      end
  end.

(** The variables of the loop over the digest replicas. *)
Record DigestRound := mkDigestRound {
  dr_responses_received : nat;
  dr_contacted : list Endpoint;
  dr_digest_mismatches : nat;
  dr_digest_responses : list Digest;
  dr_num_failures : nat;
  dr_failure_map : gset Endpoint;
}.
(** One digest request; whether an answer came is part of the result. *)
Definition request_digest (data_digest : Digest) (r : DigestRound) (digest_replica : Endpoint) (id : nat) : bool * DigestRound * nat :=
  match fetch_digest digest_replica id with
  | (Some digest, id) =>
      (true, mkDigestRound (S (dr_responses_received r)) (dr_contacted r ++ [digest_replica])
         (if digest =? data_digest then dr_digest_mismatches r else S (dr_digest_mismatches r))
         (dr_digest_responses r ++ [digest]) (dr_num_failures r) (dr_failure_map r), id)
  | (None, id) =>
      (false, mkDigestRound (dr_responses_received r) (dr_contacted r) (dr_digest_mismatches r) (dr_digest_responses r)
         (S (dr_num_failures r)) ({[ digest_replica ]} ∪ dr_failure_map r), id)
  end.
Fixpoint digest_loop (data_digest : Digest) (required : nat) (speculative_retry_used : bool) (candidates : list Endpoint)
    (r : DigestRound) (id : nat) : DigestRound * nat :=
  match candidates with
  | [] => (r, id)
  | digest_replica :: candidates =>
      match request_digest data_digest r digest_replica id with
      | (true, r, id) =>
          if (required <=? dr_responses_received r)%nat && negb speculative_retry_used then (r, id)
          else digest_loop data_digest required speculative_retry_used candidates r id
      | (false, r, id) => digest_loop data_digest required speculative_retry_used candidates r id
      end
  end.

(** The full responses of the other replicas after a mismatch. *)
Fixpoint fetch_full_responses (read : CoordinatedRead) (replicas : list Endpoint) (id : nat) : option (list DataResponse) * nat :=
  match replicas with
  | [] => (Some [], id)
  | replica :: replicas =>
      match fetch_full_data_payload_with_short_read_retry read replica id with
      | (None, id) => (None, id)
      | (Some payload, id) =>
          match read_data_payload_to_response payload with
          | None => (None, id)
          | Some response =>
              let '(responses, id) := fetch_full_responses read replicas id in (cons response <$> responses, id)
          end
      end
  end.

Context {F64 : Type} (self : ReadCoordinator F64).

Definition fetch_rows_via_messaging (read : CoordinatedRead) (cl : ConsistencyLevel) (planned : ReadResult)
    (scheduler : AsyncReadRepairScheduler) (id : nat) : (ReadError + ReadResult) * AsyncReadRepairScheduler :=
  let required := rr_responses_required planned in
  match rr_contacted_replicas planned with
  | [] => (inr planned, scheduler)
  | candidates =>
      let '(found, num_failures, failure_map, id) := find_data_replica read candidates 0 ∅ id in
      let '(found, num_failures, failure_map, speculated, id) :=
        match found, rr_speculative_replica planned with
        | None, Some speculative_replica =>
            let '(found, num_failures, failure_map, id) := find_data_replica read [speculative_replica] num_failures failure_map id in
            (found, num_failures, failure_map, bool_decide (is_Some found), id)
        | _, _ => (found, num_failures, failure_map, false, id)
        end in
      match found with
      | None => (inl (ReadFailure cl required 0 num_failures false failure_map), scheduler)
      | Some (data_replica, data_payload) =>
          let digest_candidates := List.filter (fun replica =>
              negb (bool_decide (replica = data_replica)) && negb (bool_decide (replica ∈ failure_map))) candidates in
          let '(round, id) := digest_loop (rp_digest data_payload) required (rr_speculative_retry_used planned) digest_candidates
            (mkDigestRound 1 [data_replica] 0 [] num_failures failure_map) id in
          let '(round, speculated, id) :=
            match rr_speculative_replica planned with
            | Some speculative_replica =>
                if (dr_responses_received round <? required)%nat
                   && negb (bool_decide (speculative_replica = data_replica))
                   && negb (bool_decide (speculative_replica ∈ dr_failure_map round))
                   && negb (bool_decide (speculative_replica ∈ dr_contacted round))
                then let '(answered, round, id) := request_digest (rp_digest data_payload) round speculative_replica id in
                     (round, speculated || answered, id)
                else (round, speculated, id)
            | None => (round, speculated, id)
            end in
          let speculative_retry_used := rr_speculative_retry_used planned || speculated in
          if (dr_responses_received round <? required)%nat
          then (inl (ReadFailure cl required (dr_responses_received round) (dr_num_failures round) true (dr_failure_map round)), scheduler)
          else if (0 <? dr_digest_mismatches round)%nat then
            match read_data_payload_to_response data_payload with
            | None => (inl ReadInternal, scheduler)
            | Some data_response =>
                match fetch_full_responses read (tail (dr_contacted round)) id with
                | (None, _) => (inl ReadInternal, scheduler)
                | (Some others, _) =>
                    match resolve_replica_responses hash (rc_read_repair_strategy self) (rc_tombstone_thresholds self) read
                        (dr_contacted round) data_response (dr_digest_responses round) (data_response :: others) now with
                    | inl mismatched => (inl (ReadDigestMismatch mismatched), scheduler)
                    | inr resolved =>
                        let '(_, scheduler, _) :=
                          if (0 <? length (rh_pending (rs_read_repair resolved)))%nat
                          then AsyncReadRepairScheduler_enqueue_from_handler scheduler (rs_read_repair resolved)
                          else (O, scheduler, rs_read_repair resolved) in
                        (inr (mkReadResult
                           (partition ← head (dr_partitions (rs_data resolved)); encode_partition_data <$> pr_data partition)
                           (dr_partitions (rs_data resolved)) (dr_responses_received round) required true true (dr_contacted round)
                           (rs_warnings resolved) speculative_retry_used (rr_speculative_replica planned)
                           (rr_speculative_delay planned) (rs_tombstones_read resolved)), scheduler)
                    end
                end
            end
          else
            (inr (mkReadResult (wp_data <$> head (rp_partitions data_payload)) [] (dr_responses_received round) required false false
               (dr_contacted round) (rr_warnings planned) speculative_retry_used (rr_speculative_replica planned)
               (rr_speculative_delay planned) (rp_tombstones_read data_payload)), scheduler)
      end
  end.

(** [None] is a panic of the plan. *)
Definition fetch_rows {S : Type} `{ReplicationStrategy S} (read : CoordinatedRead) (cl : ConsistencyLevel) (strategy : S)
    (snitch : Snitch) (scheduler : AsyncReadRepairScheduler) (id : nat) : option ((ReadError + ReadResult) * AsyncReadRepairScheduler) :=
  planned ← plan_read self read cl strategy snitch;
  Some (match planned with
        | inl err => (inl err, scheduler)
        | inr planned => fetch_rows_via_messaging read cl planned scheduler id
        end).
End Proxy.

(** The budget of retries is enough: any larger one gives the same result, for the
    protection stops the loop at its own bound. *)
Lemma short_read_budget hash held delivered now read e budget budget' s payload id :
  (sp_max_retries s - sp_retries s <= budget)%nat -> (sp_max_retries s - sp_retries s <= budget')%nat ->
  short_read_loop hash held delivered now budget read e s payload id = short_read_loop hash held delivered now budget' read e s payload id.
Proof.
  revert budget' s payload id. induction budget as [|budget IH]; intros [|budget'] s payload id H1 H2; cbn [short_read_loop]; [done| | |];
    (destruct (negb (rp_is_short_read payload)); [done|]);
    (destruct (ShortReadProtection_needs_retry s _ _ _) eqn:E; cbn [negb]; [|done]).
  1, 2: exfalso; unfold ShortReadProtection_needs_retry in E; destruct (negb (sp_enabled s)); [done|];
    destruct (Nat.leb_spec (sp_max_retries s) (sp_retries s)); [done|lia].
  destruct (last_clustering_key_from_payload payload) as [[ck|]|]; [| |done].
  - destruct (fetch_full_data_payload_with_bounds _ _ _ _ _ _ _ _ _) as [[p|] id']; [|done].
    destruct (merge_short_read_payload hash payload p); [|done]. apply IH; simpl; lia.
  - destruct (fetch_full_data_payload _ _ _ _ _ _ _) as [[p|] id']; [|done]. apply IH; simpl; lia.
Qed.
