(* ===== verification/QuorumRead.v ===== *)
(** * Reads that see acknowledged writes

    The correctness of the read path of ReadCoordinate: a read that succeeds has
    heard from as many distinct replicas as its level asks for, each of them seen at
    some moment during the read, and what it returns is no older than what any of
    them then showed.  With enough replicas for the read and for an earlier write, the
    read returns that write or a newer one. *)
From S2P Require Export ReadCoordinate.

(** ** Plans *)

(** What the strategies promise the planner. *)
Class ReplicationLaws (S : Type) `{ReplicationStrategy S} : Prop :=
  natural_replicas_distinct : forall (s : S) token ring snitch, NoDup (replica_endpoint <$> calculate_natural_replicas s token ring snitch).

Lemma default_replicas_endpoints l : replica_endpoint <$> default_natural_replicas l = l.
Proof. unfold default_natural_replicas. rewrite <- list_fmap_compose. apply list_fmap_id. Qed.
Lemma natural_endpoints_distinct r token count : NoDup (TokenRing_natural_endpoints r token count).
Proof. rewrite natural_endpoints_firsts. eapply sublist_NoDup; [apply firsts_NoDup|apply sublist_take]. Qed.
Lemma nts_endpoints_distinct s token ring snitch : NoDup (NetworkTopologyStrategy_calculate_natural_endpoints s token ring snitch).
Proof. destruct (nts_outcome s token ring snitch) as (st1 & st2 & _ & _ & H & _ & _ & <-). apply H. Qed.

#[export] Instance SimpleStrategy_laws : ReplicationLaws SimpleStrategy.
Proof. intros s token ring snitch. simpl. rewrite default_replicas_endpoints. apply natural_endpoints_distinct. Qed.
#[export] Instance OldNetworkTopologyStrategy_laws : ReplicationLaws OldNetworkTopologyStrategy.
Proof. intros s token ring snitch. simpl. rewrite default_replicas_endpoints. apply natural_endpoints_distinct. Qed.
#[export] Instance LocalStrategy_laws : ReplicationLaws LocalStrategy.
Proof.
  intros s token ring snitch. simpl. rewrite default_replicas_endpoints. unfold LocalStrategy_calculate_natural_endpoints.
  destruct (TokenRing_primary_endpoint ring token); [apply NoDup_singleton|apply NoDup_nil_2].
Qed.
#[export] Instance EverywhereStrategy_laws : ReplicationLaws EverywhereStrategy.
Proof. intros s token ring snitch. simpl. rewrite default_replicas_endpoints. apply NoDup_fst_map_to_list. Qed.
#[export] Instance NetworkTopologyStrategy_laws : ReplicationLaws NetworkTopologyStrategy.
Proof. intros s token ring snitch. simpl. rewrite default_replicas_endpoints. apply nts_endpoints_distinct. Qed.
#[export] Instance TransientReplicationStrategy_laws : ReplicationLaws TransientReplicationStrategy.
Proof.
  intros s token ring snitch. destruct (transient_replicas_correct s token ring snitch) as [H _].
  unfold TransientReplicationStrategy_calculate_write_endpoints in H. simpl. rewrite H. apply nts_endpoints_distinct.
Qed.

Section Plans.
Context {F64 S : Type} `{ReplicationLaws S} (self : ReadCoordinator F64).

(** The endpoints a read at this level may use. *)
Definition scope_endpoints (read : CoordinatedRead) (cl : ConsistencyLevel) (strategy : S) (snitch : Snitch) : list Endpoint :=
  replica_endpoint <$> read_scope self cl
    (calculate_natural_replicas strategy (Token_from_partition_key (cr_partition_key read)) (cs_ring (rc_cluster self)) snitch).

Lemma live_replicas_split scope :
  live_replicas self true scope ++ live_replicas self false scope
  ≡ₚ replica_endpoint <$> List.filter (fun r => replica_live self (replica_endpoint r)) scope.
Proof.
  unfold live_replicas. induction scope as [|r scope IH]; [done|]. cbn [List.filter].
  destruct (replica_live self (replica_endpoint r)), (Replica_is_full r); simpl; rewrite <- ?IH; try done.
  symmetry. apply Permutation_middle.
Qed.
Lemma filter_endpoints (f : Replica -> bool) l : sublist (replica_endpoint <$> List.filter f l) (replica_endpoint <$> l).
Proof. induction l as [|r l IH]; simpl; [constructor|]. destruct (f r); by constructor. Qed.

Lemma proximity_perm snitch e l : Snitch_sort_by_proximity snitch e l ≡ₚ l.
Proof. apply sort_by_perm. Qed.

Lemma scope_NoDup read cl strategy snitch : NoDup (scope_endpoints read cl strategy snitch).
Proof. eapply sublist_NoDup; [apply natural_replicas_distinct|apply filter_endpoints]. Qed.

Definition plan_candidates (planned : ReadResult) : list Endpoint :=
  rr_contacted_replicas planned ++ option_list (rr_speculative_replica planned).

Lemma execution_plan_prefix sorted required (policy : SpeculativeRetryPolicy F64) latency plan :
  compute_execution_plan sorted required policy latency = Some plan ->
  exists n, (rx_data_replica plan :: rx_digest_replicas plan) ++ option_list (rx_speculative_replica plan) = take n sorted.
Proof.
  unfold compute_execution_plan. destruct sorted as [|d rest]; [done|]. destruct (_ <? required)%nat eqn:E1; [done|].
  destruct (_ <? 1)%nat eqn:E2; [done|]. bool_to_prop. intros [= <-]. simpl length in *. rewrite Nat.min_l in * by lia.
  destruct required as [|n]; [simpl in *; lia|]. cbn [rx_data_replica rx_digest_replicas rx_speculative_replica].
  rewrite Nat.sub_succ, Nat.sub_0_r. destruct (_ && _); [|exists (Datatypes.S n); by rewrite app_nil_r].
  simpl. destruct (rest !! n) as [s|] eqn:Es; [|exists (Datatypes.S n); by rewrite app_nil_r].
  exists (Datatypes.S (Datatypes.S n)). change (take (Datatypes.S (Datatypes.S n)) (d :: rest)) with (d :: take (Datatypes.S n) rest).
  by rewrite (take_S_r _ _ _ Es).
Qed.

Lemma plan_read_spec read cl strategy snitch planned :
  plan_read self read cl strategy snitch = Some (inr planned) ->
  let scope := scope_endpoints read cl strategy snitch in
  rr_responses_required planned = ConsistencyLevel_block_for cl (length scope)
  /\ NoDup (plan_candidates planned) /\ plan_candidates planned ⊆ scope /\ rr_contacted_replicas planned <> [].
Proof.
  intros Hp scope. pose proof (scope_NoDup read cl strategy snitch) as Hnd. fold scope in Hnd.
  unfold plan_read in Hp. fold (scope_endpoints read cl strategy snitch) in Hp. revert Hp. set (s := read_scope _ _ _).
  assert (length scope = length s) as El by apply length_fmap. rewrite El. destruct (_ =? 0)%nat; [done|]. destruct (_ <? _)%nat; [done|].
  destruct (compute_execution_plan _ _ _ _) as [plan|] eqn:E; [|done]. apply execution_plan_prefix in E as [n E]. cbn [mbind option_bind].
  assert (exists l, sublist l scope /\ take n (Snitch_sort_by_proximity snitch (rc_local_endpoint self) (live_replicas self true s)
    ++ Snitch_sort_by_proximity snitch (rc_local_endpoint self) (live_replicas self false s)) ⊆+ l) as (l & Hl & Hsub).
  { eexists. split; [apply (filter_endpoints (fun r => replica_live self (replica_endpoint r)))|]. 
    etrans; [apply sublist_submseteq, sublist_take|]. by rewrite !proximity_perm, live_replicas_split. }
  rewrite <- E in Hsub.
  assert (forall c, c ≡ₚ (rx_data_replica plan :: rx_digest_replicas plan) ++ option_list (rx_speculative_replica plan) ->
    NoDup c /\ c ⊆ scope) as Hc.
  { intros c Hc. rewrite <- Hc in Hsub. split.
    - apply submseteq_Permutation in Hsub as [k Hk]. assert (NoDup l) as Hn by (by eapply sublist_NoDup).
      rewrite Hk in Hn. by apply NoDup_app in Hn as [? _].
    - intros e He. eapply elem_of_submseteq; [|by apply sublist_submseteq]. by eapply elem_of_submseteq. }
  destruct (rx_speculative_replica plan) as [spec|]; [destruct (bool_decide _)|]; intros [= <-]; unfold plan_candidates;
    cbn [rr_responses_required rr_contacted_replicas rr_speculative_replica option_list];
    (split; [done|]);
    match goal with |- NoDup ?c /\ _ => destruct (Hc c) as [? ?]; [by rewrite ?app_nil_r|done] end.
Qed.
End Plans.

(** ** Answers *)

Lemma entries_le {A B} (m : ordmap (list Z) A) (m' : ordmap (list Z) B) :
  (forall k, is_Some (m' !! k) -> is_Some (m !! k)) -> (length (entries m') <= length (entries m))%nat.
Proof.
  intros Hsub. rewrite <- (length_fmap fst (entries m')), <- (length_fmap fst (entries m)).
  apply submseteq_length, NoDup_submseteq; [apply keys_NoDup|]. intros k Hk. apply list_elem_of_fmap in Hk as ([k' v] & -> & Hk).
  apply ordmap_elem in Hk. destruct (Hsub k') as [w Hw]; [eauto|]. apply list_elem_of_fmap. exists (k', w). split; [done|]. by apply ordmap_elem.
Qed.

Section Answers.
Context (hash : list HashItem -> Digest) (now : Z) (read : CoordinatedRead).

(** What a replica takes from its partition before it answers, and the answer. *)
Definition bounds_of (p : PartitionData) : PartitionData * bool :=
  apply_bounds_to_partition p (cr_start_after read) (cr_row_limit read).
Definition bounded (p : PartitionData) : PartitionData := (bounds_of p).1.
Definition untruncated (p : PartitionData) : Prop := (bounds_of p).2 = false.
Definition admitted (ck : list Z) : bool := match cr_start_after read with Some start => (ck >' start)%ord | None => true end.
Definition answer (p : PartitionData) : PartitionData := kept_part now (bounded p).

Lemma bounded_spec p :
  p_wf p -> untruncated p ->
  tombstone_timestamp (bounded p) = tombstone_timestamp p
  /\ tombstone_local_deletion_time (bounded p) = tombstone_local_deletion_time p
  /\ forall ck, pd_rows (bounded p) !! ck = if admitted ck then pd_rows p !! ck else None.
Proof.
  intros [Hr Ht] Hu. unfold untruncated, bounds_of, apply_bounds_to_partition in Hu. unfold bounded, bounds_of, apply_bounds_to_partition.
  set (rows := List.filter _ (entries (pd_rows p))) in *.
  assert (match cr_row_limit read with Some limit => if (limit <? length rows)%nat then (take limit rows, true) else (rows, false) | None => (rows, false) end
    = (rows, false)) as E by (destruct (cr_row_limit read) as [n|]; [destruct (_ <? _)%nat; simpl in Hu; done|done]).
  rewrite E. cbn [fst]. clear E Hu.
  assert (absorb_tombstone PartitionData_new p = mkPartitionData ∅ (tombstone_timestamp p) (tombstone_local_deletion_time p)) as ->.
  { unfold absorb_tombstone. destruct (tombstone_timestamp p) as [ts|] eqn:E1, (tombstone_local_deletion_time p) as [ldt|] eqn:E2; try done.
    all: exfalso; destruct Ht as [Ha Hb]; first [by destruct Ha | by destruct Hb]. }
  assert (forall d (l : list (list Z * Row)), foldl (fun b p => PartitionData_apply_row b p.2) d l = foldl PartitionData_apply_row d l.*2) as ->.
  { clear. intros d l. revert d. induction l as [|x l IH]; intros d; [done|apply IH]. }
  assert (NoDup rows.*1) as Hnd.
  { eapply sublist_NoDup; [apply (keys_NoDup (pd_rows p))|]. unfold rows, keys. clear. induction (entries (pd_rows p)) as [|x l IH]; [constructor|].
    cbn [List.filter]. match goal with |- context [if ?b then _ :: _ else _] => destruct b end; by constructor. }
  rewrite absorb_fresh; [|done|].
  - cbn [tombstone_timestamp tombstone_local_deletion_time pd_rows]. split_and!; [done..|]. intros ck. destruct (pd_rows p !! ck) as [r|] eqn:Er.
    + destruct (admitted ck) eqn:Ea.
      * apply lookup_insert_all_in; [done|]. apply list_elem_of_In, List.filter_In. split; [by apply list_elem_of_In, ordmap_elem|exact Ea].
      * rewrite lookup_insert_all_out; [apply lookup_empty|]. intros ([k v] & -> & Hin)%list_elem_of_fmap.
        apply list_elem_of_In, List.filter_In in Hin as [_ Hin]. unfold admitted in Ea. simpl in Ea, Hin. congruence.
    + rewrite lookup_insert_all_out; [rewrite lookup_empty; by destruct (admitted ck)|]. intros ([k v] & -> & Hin)%list_elem_of_fmap.
      apply list_elem_of_In, List.filter_In in Hin as [Hin%list_elem_of_In%ordmap_elem _]. simpl in Er. congruence.
  - intros [ck r] Hin. apply list_elem_of_In, List.filter_In in Hin as [Hin%list_elem_of_In%ordmap_elem _].
    split; [by apply (Hr ck)|apply lookup_empty].
Qed.

Lemma bounded_wf p : p_wf p -> untruncated p -> p_wf (bounded p).
Proof.
  intros Hp Hu. destruct (bounded_spec p Hp Hu) as (E1 & E2 & E). destruct Hp as [Hr Ht]. split; [|by rewrite E1, E2].
  intros ck r. rewrite E. destruct (admitted ck); [apply Hr|done].
Qed.

(** The rows of an answer. *)
Lemma answer_row p ck :
  p_wf p -> untruncated p ->
  pd_rows (answer p) !! ck = if admitted ck then pd_rows p !! ck ≫= kept_row now (tombstone_timestamp p) else None.
Proof.
  intros Hp Hu. destruct (bounded_spec p Hp Hu) as (E1 & E2 & E). unfold answer, kept_part. cbn [pd_rows].
  rewrite lookup_omap, E, E1. by destruct (admitted ck).
Qed.
Lemma kept_row_inv tombstone r r' :
  kept_row now tombstone r = Some r' ->
  r' = mkRow (Row_clustering_key r) (kept_cells now (Row_cells r)) false None /\ Row_is_tombstone r = false.
Proof.
  unfold kept_row. destruct (Row_is_tombstone r); [done|]. destruct (match tombstone with Some _ => _ | None => _ end); [done|].
  destruct (kept_cells now (Row_cells r)); [done|]. by intros [= <-].
Qed.

Lemma kept_cells_sublist l : sublist (kept_cells now l) l.
Proof. unfold kept_cells. induction l as [|c l IH]; simpl; [constructor|]. destruct (Cell_is_live_at c now); by constructor. Qed.

Lemma answer_wf p : p_wf p -> untruncated p -> p_wf (answer p).
Proof.
  intros Hp Hu. pose proof (answer_row p) as Ha. destruct (bounded_spec p Hp Hu) as (E1 & E2 & _).
  split; [|unfold answer, kept_part; simpl; rewrite E1, E2; apply Hp]. intros ck r. rewrite Ha by done. destruct (admitted ck); [|done].
  destruct (pd_rows p !! ck) as [r0|] eqn:Er; [|done]. simpl. intros [-> _]%kept_row_inv. destruct (pw_rows _ Hp ck r0 Er) as [Hk Hw].
  split; [done|]. unfold row_wf. simpl. eapply sublist_NoDup; [exact Hw|]. by apply fmap_sublist, kept_cells_sublist.
Qed.
Lemma answer_fits p : p_wf p -> untruncated p -> data_fits p -> data_fits (answer p).
Proof.
  intros Hp Hu (Hr & Hn & Ht & Hl). pose proof (answer_row p) as Ha. destruct (bounded_spec p Hp Hu) as (E1 & E2 & _).
  split_and!; [| |by unfold answer; simpl; rewrite E1|by unfold answer; simpl; rewrite E2].
  - intros ck r. rewrite Ha by done. destruct (admitted ck); [|done]. destruct (pd_rows p !! ck) as [r0|] eqn:Er; [|done]. simpl.
    intros [-> _]%kept_row_inv. destruct (Hr ck r0 Er) as (H1 & H2 & H3 & H4 & H5). split_and!; simpl; [done..| | |done].
    + pose proof (sublist_length _ _ (kept_cells_sublist (Row_cells r0))). unfold in_u in *. lia.
    + eapply Forall_forall. intros c Hc. rewrite Forall_forall in H4. apply H4. eapply elem_of_sublist; [done|apply kept_cells_sublist].
  - assert (length (entries (pd_rows (answer p))) <= length (entries (pd_rows p)))%nat; [|unfold in_u in *; lia].
    apply entries_le. intros k. rewrite Ha by done. destruct (admitted k); [|by intros []]. destruct (pd_rows p !! k); [eauto|by intros []].
Qed.

Definition answer_data (p : PartitionData) : option PartitionData := if says_nothing (answer p) then None else Some (answer p).

Lemma encode_nonempty p : encode_partition_data p <> [].
Proof. unfold encode_partition_data. by destruct (tombstone_timestamp p). Qed.

(** The payload of a replica that holds [stored], and what the coordinator reads from it. *)
Lemma payload_spec stored :
  (forall p, stored = Some p -> p_wf p /\ data_fits p /\ untruncated p) ->
  let payload := read_data_response hash now stored (cr_partition_key read) (cr_start_after read) (cr_row_limit read) in
  rp_is_short_read payload = false /\ rp_digest payload = version_digest hash (bounded <$> stored)
  /\ wp_data <$> head (rp_partitions payload) = (fun p => match answer_data p with Some d => encode_partition_data d | None => [] end) <$> stored
  /\ exists response, read_data_payload_to_response payload = Some response /\ answers_for (cr_partition_key read) response
     /\ (dr_partitions response = [] <-> stored = None) /\ head (dr_partitions response) ≫= pr_data = stored ≫= answer_data.
Proof.
  intros Hs payload. unfold payload, read_data_response. destruct stored as [p|].
  - destruct (Hs p eq_refl) as (Hw & Hf & Hu). pose proof (bounded_wf p Hw Hu) as Hb. pose proof Hu as Hu'. unfold untruncated, bounds_of in Hu'.
    destruct (apply_bounds_to_partition p _ _) as [b short] eqn:E. simpl in Hu'. subst short.
    assert (b = bounded p) as -> by (unfold bounded, bounds_of; by rewrite E). unfold DataResponse_from_partition.
    destruct (from_partition_data_spec (cr_partition_key read) (bounded p) now (TombstoneTracker_new TombstoneThresholds_default) Hb) as [t ->].
    fold (answer p). fold (answer_data p). cbn. split_and!; [done|done|by destruct (answer_data p)|].
    unfold read_data_payload_to_response. cbn [rp_partitions mapM fmap list_fmap dr_partitions].
    unfold wire_data. cbn [wp_data pr_data]. unfold answer_data. destruct (says_nothing (answer p)) eqn:Es.
    + eexists. split; [reflexivity|]. cbn. split_and!; [right; by eexists|done|done].
    + pose proof (encode_nonempty (answer p)). destruct (encode_partition_data (answer p)) eqn:En; [done|]. rewrite <- En.
      rewrite partition_data_roundtrip by (by apply answer_fits). eexists. split; [reflexivity|]. cbn. split_and!; [right; by eexists|done|done].
  - split_and!; [done..|]. eexists. split; [reflexivity|]. split_and!; [by left|done|done].
Qed.


End Answers.

(** ** Messages *)

Section Messages.
Context (hash : list HashItem -> Digest) (held : nat -> Endpoint -> option PartitionData) (delivered : nat -> Endpoint -> bool)
  (now : Z) (read : CoordinatedRead).

(** Every partition is well formed, fits the wire format, and has no more rows than
    the limit of the read. *)
Definition contents_ok : Prop := forall id e p, held id e = Some p -> p_wf p /\ data_fits p /\ untruncated read p.
Context (Hheld : contents_ok).

Definition payload_at (id : nat) (e : Endpoint) : ReadDataResponsePayload :=
  read_data_response hash now (held id e) (cr_partition_key read) (cr_start_after read) (cr_row_limit read).

Lemma fetch_retry e id :
  fetch_full_data_payload_with_short_read_retry hash held delivered now read e id
  = (if delivered id e then Some (payload_at id e) else None, S id).
Proof.
  unfold fetch_full_data_payload_with_short_read_retry, fetch_full_data_payload, fetch_full_data_payload_with_bounds.
  destruct (delivered id e); [|done]. fold (payload_at id e).
  destruct (payload_spec hash now read (held id e)) as [Hs _]; [intros p; apply Hheld|]. fold (payload_at id e) in Hs.
  cbn [ShortReadProtection_new sp_max_retries short_read_loop]. by rewrite Hs.
Qed.

Lemma find_data_replica_spec candidates nf fm id e payload nf' fm' id' :
  find_data_replica hash held delivered now read candidates nf fm id = (Some (e, payload), nf', fm', id') ->
  e ∈ candidates /\ exists i, payload = payload_at i e.
Proof.
  revert nf fm id. induction candidates as [|c l IH]; intros nf fm id; [done|]. cbn [find_data_replica]. rewrite fetch_retry.
  destruct (delivered id c); [intros [= <- <- <- <- <-]; split; [left|eauto]|]. intros [He Hp]%IH. split; [by right|done].
Qed.

Lemma fetch_full_responses_spec replicas id responses id' :
  fetch_full_responses hash held delivered now read replicas id = (Some responses, id') ->
  Forall2 (fun e r => exists i, read_data_payload_to_response (payload_at i e) = Some r) replicas responses.
Proof.
  revert id responses. induction replicas as [|e l IH]; intros id responses; cbn [fetch_full_responses]; [intros [= <- <-]; constructor|].
  rewrite fetch_retry. destruct (delivered id e); [|done]. destruct (read_data_payload_to_response _) as [r|] eqn:Er; [|done].
  destruct (fetch_full_responses _ _ _ _ _ l _) as [[rs|] i] eqn:E; [|done]. intros [= <- <-]. constructor; [eauto|]. by eapply IH.
Qed.

(** A round in which replica [d] gave the data with digest [x], and others of the
    candidates theirs. *)
Record round_inv (candidates : list Endpoint) (d : Endpoint) (x : Digest) (r : DigestRound) : Prop := {
  ri_received : dr_responses_received r = length (dr_contacted r);
  ri_contacted : exists others, dr_contacted r = d :: others /\ Forall2 (fun e y => exists i, y = version_digest hash (held i e)) others (dr_digest_responses r);
  ri_distinct : NoDup (dr_contacted r) /\ dr_contacted r ⊆ candidates;
  ri_mismatches : dr_digest_mismatches r = O <-> Forall (fun y => y = x) (dr_digest_responses r);
}.

Lemma request_digest_inv candidates d x r e id b r' id' :
  round_inv candidates d x r -> e ∈ candidates -> e ∉ dr_contacted r ->
  request_digest hash held delivered x r e id = (b, r', id') -> round_inv candidates d x r' /\ dr_contacted r' ⊆ e :: dr_contacted r.
Proof.
  intros [Hr (others & Hc & Hd) [Hn Hs] Hm] He Hne. unfold request_digest, fetch_digest. destruct (delivered id e); intros [= <- <- <-].
  - split; [split|set_solver]; cbn [dr_responses_received dr_contacted dr_digest_responses dr_digest_mismatches].
    + rewrite length_app, Hr. simpl. lia.
    + exists (others ++ [e]). split; [by rewrite Hc|]. apply Forall2_app; [done|]. constructor; [|constructor]. exists id. by destruct (held id e).
    + split; [|set_solver]. apply NoDup_app. split_and!; [done|set_solver|apply NoDup_singleton].
    + rewrite Forall_app, Forall_singleton. destruct (Z.eqb_spec (read_digest_response hash (held id e)) x) as [E|E]; rewrite <- ?Hm; [tauto|].
      split; [done|]. intros [_ ?]. done.
  - split; [by split; eauto|set_solver].
Qed.

Lemma digest_loop_inv candidates d x required spec l r id r' id' :
  round_inv candidates d x r -> l ⊆ candidates -> NoDup l -> (forall e, e ∈ l -> e ∉ dr_contacted r) ->
  digest_loop hash held delivered x required spec l r id = (r', id') -> round_inv candidates d x r'.
Proof.
  revert r id. induction l as [|e l IH]; intros r id Hr Hs Hn Hd; cbn [digest_loop]; [by intros [= <- <-]|].
  destruct (request_digest hash held delivered x r e id) as [[b r1] id1] eqn:E. apply NoDup_cons in Hn as [He Hn].
  destruct (request_digest_inv candidates d x r e id b r1 id1 Hr ltac:(set_solver) ltac:(apply Hd; left) E) as [H1 H2].
  destruct b; [destruct (_ && _); [by intros [= <- <-]|]|]; (apply IH; [done|set_solver|done|]); intros e' He' [->|?]%H2%elem_of_cons; try done;
    (eapply Hd; [right; exact He'|done]).
Qed.
(** What a successful read has done: either all digests agree with the data it
    returns, or it returns the merge of full responses. *)
Definition digests_agree (result : ReadResult) (d : Endpoint) (i : nat) (digests : list Digest) : Prop :=
  Forall (fun y => y = rp_digest (payload_at i d)) digests
  /\ rr_result_data result = wp_data <$> head (rp_partitions (payload_at i d)).
Definition merges_responses {F64} (self : ReadCoordinator F64) (result : ReadResult) (d : Endpoint) (others : list Endpoint) (digests : list Digest) : Prop :=
  digests <> [] /\ exists response responses resolved,
    Forall2 (fun e r => exists i, read_data_payload_to_response (payload_at i e) = Some r) (d :: others) (response :: responses)
    /\ resolve_replica_responses hash (rc_read_repair_strategy self) (rc_tombstone_thresholds self) read (d :: others) response digests
         (response :: responses) now = inr resolved
    /\ rr_result_data result = (partition ← head (dr_partitions (rs_data resolved)); encode_partition_data <$> pr_data partition).

Context {F64 : Type} (self : ReadCoordinator F64).

Lemma data_phase (planned : ReadResult) id d payload nf fm speculated id' :
  (let '(found, num_failures, failure_map, id) := find_data_replica hash held delivered now read (rr_contacted_replicas planned) 0 ∅ id in
   match found, rr_speculative_replica planned with
   | None, Some speculative_replica =>
       let '(found, num_failures, failure_map, id) :=
         find_data_replica hash held delivered now read [speculative_replica] num_failures failure_map id in
       (found, num_failures, failure_map, bool_decide (is_Some found), id)
   | _, _ => (found, num_failures, failure_map, false, id)
   end) = (Some (d, payload), nf, fm, speculated, id') ->
  d ∈ plan_candidates planned /\ exists i, payload = payload_at i d.
Proof.
  unfold plan_candidates. destruct (find_data_replica _ _ _ _ _ (rr_contacted_replicas planned) _ _ _) as [[[[[e q]|] nf1] fm1] id1] eqn:E1.
  - intros [= <- <- <- <- <- <-]. apply find_data_replica_spec in E1 as [He Hq]. set_solver.
  - destruct (rr_speculative_replica planned) as [s|]; [|done].
    destruct (find_data_replica _ _ _ _ _ [s] _ _ _) as [[[found nf2] fm2] id2] eqn:E2. intros [= -> <- <- <- <-].
    apply find_data_replica_spec in E2 as [He Hq]. set_solver.
Qed.

Lemma digest_phase (planned : ReadResult) d payload nf fm id spec round1 id1 round2 speculated2 id2 :
  NoDup (plan_candidates planned) -> d ∈ plan_candidates planned ->
  digest_loop hash held delivered (rp_digest payload) (rr_responses_required planned) (rr_speculative_retry_used planned)
    (List.filter (fun replica => negb (bool_decide (replica = d)) && negb (bool_decide (replica ∈ fm))) (rr_contacted_replicas planned))
    (mkDigestRound 1 [d] 0 [] nf fm) id = (round1, id1) ->
  match rr_speculative_replica planned with
  | Some speculative_replica =>
      if (dr_responses_received round1 <? rr_responses_required planned)%nat
         && negb (bool_decide (speculative_replica = d))
         && negb (bool_decide (speculative_replica ∈ dr_failure_map round1))
         && negb (bool_decide (speculative_replica ∈ dr_contacted round1))
      then let '(answered, round, id) := request_digest hash held delivered (rp_digest payload) round1 speculative_replica id1 in
           (round, spec || answered, id)
      else (round1, spec, id1)
  | None => (round1, spec, id1)
  end = (round2, speculated2, id2) ->
  round_inv (plan_candidates planned) d (rp_digest payload) round2.
Proof.
  intros Hn Hd E1 E2. apply NoDup_app in Hn as (Hn & _ & _).
  assert (round_inv (plan_candidates planned) d (rp_digest payload) round1) as H1.
  { eapply digest_loop_inv; [| | | |exact E1].
    - split; cbn; [done|exists []; split; [done|constructor]|split; [apply NoDup_singleton|set_solver]|by split].
    - intros e He. apply list_elem_of_In, List.filter_In in He as [He _]. apply list_elem_of_In in He. unfold plan_candidates. set_solver.
    - eapply sublist_NoDup; [exact Hn|]. clear. induction (rr_contacted_replicas planned) as [|e l IH]; [constructor|]. simpl.
      destruct (_ && _); by constructor.
    - intros e He. apply list_elem_of_In, List.filter_In in He as [_ [He _]%andb_true_iff].
      apply negb_true_iff, bool_decide_eq_false in He. cbn. set_solver. }
  unfold plan_candidates in *. destruct (rr_speculative_replica planned) as [s|]; [|by simplify_eq].
  destruct (_ && _ && _ && _) eqn:Es; [|by simplify_eq].
  destruct (request_digest _ _ _ _ _ _ _) as [[b r] i] eqn:Er. simplify_eq. apply andb_true_iff in Es as [_ Es]. apply negb_true_iff, bool_decide_eq_false in Es.
  eapply request_digest_inv in Er as [H _]; [done|done|set_solver|done].
Qed.

Lemma fetch_rows_spec cl planned scheduler id result s' :
  rr_contacted_replicas planned <> [] -> NoDup (plan_candidates planned) ->
  fetch_rows_via_messaging hash held delivered now self read cl planned scheduler id = (inr result, s') ->
  exists d others i digests, rr_contacted_replicas result = d :: others
    /\ NoDup (d :: others) /\ d :: others ⊆ plan_candidates planned /\ (rr_responses_required planned <= length (d :: others))%nat
    /\ Forall2 (fun e y => exists j, y = version_digest hash (held j e)) others digests
    /\ (digests_agree result d i digests \/ merges_responses self result d others digests).
Proof.
  intros Hne Hnd. unfold fetch_rows_via_messaging. pose proof (data_phase planned id) as Hdata.
  destruct (rr_contacted_replicas planned) as [|c0 cs] eqn:Ec; [done|].
  destruct (find_data_replica hash held delivered now read (c0 :: cs) 0 ∅ id) as [[[found nf] fm] id1].
  destruct (match found with Some _ => _ | None => _ end) as [[[[found' nf'] fm'] speculated] id2].
  destruct found' as [[d payload]|]; [|done]. destruct (Hdata _ _ _ _ _ _ eq_refl) as [Hd [i ->]]. clear Hdata.
  rewrite <- Ec. destruct (digest_loop _ _ _ _ _ _ _ _ _) as [round1 id3] eqn:E1.
  destruct (match rr_speculative_replica planned with Some _ => _ | None => _ end) as [[round speculated'] id4] eqn:E2.
  destruct (digest_phase _ _ _ _ _ _ _ _ _ _ _ _ Hnd Hd E1 E2) as [Hr (others & Hc & Hdig) [Hn Hs] Hm]. rewrite Hr, Hc in *.
  destruct (Nat.ltb_spec (length (d :: others)) (rr_responses_required planned)) as [|Hreq]; [done|].
  cbn [tail] in *.
  destruct (Nat.ltb_spec 0 (dr_digest_mismatches round)) as [Hmm|Hmm].
  - destruct (read_data_payload_to_response (payload_at i d)) as [response|] eqn:Ed; [|done].
    destruct (fetch_full_responses _ _ _ _ _ others _) as [[responses|] id5] eqn:Ef; [|done]. apply fetch_full_responses_spec in Ef.
    destruct (resolve_replica_responses _ _ _ _ _ _ _ _ _) as [n|resolved] eqn:Er; [done|].
    match goal with |- (let '(_, _) := ?x in _) = _ -> _ => destruct x as [[k1 k2] k3] end. intros [= <- <-].
    exists d, others, i, (dr_digest_responses round). split_and!; try done.
    right. split; [intros E; rewrite E in Hm; destruct Hm as [_ Hm]; rewrite Hm in Hmm by constructor; lia|].
    exists response, responses, resolved. split_and!; [constructor; eauto|done|done].
  - intros [= <- <-]. exists d, others, i, (dr_digest_responses round). split_and!; try done. left. split; [|done]. apply Hm. lia.
Qed.

End Messages.

(** ** What partitions show *)

(** The partition has a cell of the column at least as new as [ts], that is neither
    deleted nor expires. *)
Definition shows (p : PartitionData) (ck : list Z) (column : string) (ts : Z) : Prop :=
  exists r c, pd_rows p !! ck = Some r /\ Row_is_tombstone r = false /\ c ∈ Row_cells r /\ Cell_column c = column
    /\ ts <= Cell_timestamp c /\ Cell_is_tombstone c = false /\ Cell_ttl c <= 0.
(** The partition was not deleted at [ts] or later. *)
Definition deleted_before (p : PartitionData) (ts : Z) : Prop := forall t, tombstone_timestamp p = Some t -> t < ts.
Definition returns (p : PartitionData) (ck : list Z) (column : string) (ts : Z) : Prop :=
  exists r c, pd_rows p !! ck = Some r /\ c ∈ Row_cells r /\ Cell_column c = column /\ ts <= Cell_timestamp c.

Section Shows.
Context (now : Z).

Lemma kept_row_some tombstone r c :
  Row_is_tombstone r = false -> c ∈ Row_cells r -> Cell_is_live_at c now = true ->
  (forall t, tombstone = Some t -> t < Cell_timestamp c) ->
  kept_row now tombstone r = Some (mkRow (Row_clustering_key r) (kept_cells now (Row_cells r)) false None) /\ c ∈ kept_cells now (Row_cells r).
Proof.
  intros Ht Hc Hl Hd. assert (c ∈ kept_cells now (Row_cells r)) as Hk by (apply list_elem_of_In, List.filter_In; by rewrite <- list_elem_of_In).
  split; [|done]. unfold kept_row. rewrite Ht. destruct tombstone as [t|].
  - assert (existsb (fun c => t <? Cell_timestamp c) (Row_cells r) = true) as ->.
    { apply existsb_exists. exists c. split; [by apply list_elem_of_In|]. apply Z.ltb_lt. by apply Hd. }
    simpl. destruct (kept_cells now (Row_cells r)); [by apply elem_of_nil in Hk|done].
  - destruct (kept_cells now (Row_cells r)); [by apply elem_of_nil in Hk|done].
Qed.

Lemma shows_kept p ck column ts : shows p ck column ts -> deleted_before p ts -> shows (kept_part now p) ck column ts.
Proof.
  intros (r & c & Hr & Ht & Hc & Hcol & Hts & Hd & Httl) Hb.
  destruct (kept_row_some (tombstone_timestamp p) r c) as [Hk Hin]; [done|done| |intros t Et; specialize (Hb t Et); lia|].
  { unfold Cell_is_live_at. rewrite Hd. by destruct (Z.ltb_spec 0 (Cell_ttl c)); [lia|]. }
  eexists _, c. split; [cbn [kept_part pd_rows]; rewrite lookup_omap, Hr; exact Hk|]. by split_and!.
Qed.

Lemma shows_items p q ck column ts : digest_items p = digest_items q -> shows q ck column ts -> shows p ck column ts.
Proof.
  intros (_ & _ & HF)%digest_items_inj (r & c & Hr & Ht & Hc & Hcol & Hts & Hd & Httl).
  apply ordmap_elem, list_elem_of_lookup in Hr as [i Hi]. apply Forall2_flip in HF. destruct (Forall2_lookup_l _ _ _ _ _ HF Hi) as ([k r'] & Hi' & Hs).
  destruct Hs as (E1 & E2 & _ & Hcs). simpl in E1, E2, Hcs. subst k. apply Forall2_flip in Hcs. apply list_elem_of_lookup in Hc as [j Hj].
  destruct (Forall2_lookup_l _ _ _ _ _ Hcs Hj) as (c' & Hj' & Hsame). apply list_elem_of_lookup_2 in Hi', Hj'.
  injection Hsame as H1 H2 H3 H4 H5. exists r', c'. split; [by apply ordmap_elem|]. split_and!; congruence || lia.
Qed.
End Shows.

Lemma shows_bounded read p ck column ts :
  p_wf p -> untruncated read p -> admitted read ck = true -> shows p ck column ts -> shows (bounded read p) ck column ts.
Proof.
  intros Hp Hu Ha (r & c & Hr & Hrest). destruct (bounded_spec read p Hp Hu) as (_ & _ & E). exists r, c. by rewrite E, Ha.
Qed.

(** ** Views of merges *)

Definition view_has (v : PView) (ck : list Z) (column : string) (ts : Z) : Prop :=
  exists (x : RowView) c, v.1 !! ck = Some x /\ x.2 !! column = Some c /\ ts <= Cell_timestamp c.
Definition view_all (P : list Z -> Cell -> Prop) (v : PView) : Prop :=
  forall ck (x : RowView), v.1 !! ck = Some x -> x.1 = false /\ forall column c, x.2 !! column = Some c -> P ck c.

Lemma merged_cell_newer c d : Cell_timestamp c <= Cell_timestamp (Cell_merge_with c d) /\ Cell_timestamp d <= Cell_timestamp (Cell_merge_with c d).
Proof. unfold Cell_merge_with. destruct (Z.ltb_spec (Cell_timestamp c) (Cell_timestamp d)); [lia|]. case_match; bool_to_prop; lia. Qed.

Lemma join_row v w ck : (pview_join v w).1 !! ck = merge_opt row_join (v.1 !! ck) (w.1 !! ck).
Proof. unfold pview_join, pair_merge. cbn [fst]. apply lookup_merge_loop. Qed.
Lemma join_cell (x y : RowView) column : (row_join x y).2 !! column = merge_opt Cell_merge_with (x.2 !! column) (y.2 !! column).
Proof. unfold row_join, pair_merge. cbn [snd]. apply lookup_merge_loop. Qed.

(** What a row view has, its joins have. *)
Lemma row_has_join (x y : RowView) column c :
  x.2 !! column = Some c \/ y.2 !! column = Some c ->
  exists d, (row_join x y).2 !! column = Some d /\ Cell_timestamp c <= Cell_timestamp d.
Proof.
  rewrite join_cell. intros [E|E]; rewrite E; [destruct (y.2 !! column) as [d|]|destruct (x.2 !! column) as [d|]]; cbn [merge_opt];
    (eexists; split; [done|]); try lia; apply merged_cell_newer.
Qed.
Lemma view_has_join v w ck column ts : view_has v ck column ts \/ view_has w ck column ts -> view_has (pview_join v w) ck column ts.
Proof.
  intros H. unfold view_has. rewrite join_row. destruct H as [(x & c & Hv & Hc & Ht)|(y & c & Hv & Hc & Ht)]; rewrite Hv.
  - destruct (w.1 !! ck) as [y|]; cbn [merge_opt]; [|by exists x, c].
    destruct (row_has_join x y column c ltac:(by left)) as (d & Hd & Hle). eexists _, d. split_and!; [done..|lia].
  - destruct (v.1 !! ck) as [x|]; cbn [merge_opt]; [|by exists y, c].
    destruct (row_has_join x y column c ltac:(by right)) as (d & Hd & Hle). eexists _, d. split_and!; [done..|lia].
Qed.

Lemma view_all_join P v w : view_all P v -> view_all P w -> view_all P (pview_join v w).
Proof.
  intros Hv Hw ck x. rewrite join_row.
  destruct (v.1 !! ck) as [x1|] eqn:E1, (w.1 !! ck) as [x2|] eqn:E2; cbn [merge_opt]; intros [= <-]; [|by apply Hv|by apply Hw].
  destruct (Hv _ _ E1) as [F1 H1], (Hw _ _ E2) as [F2 H2]. split; [unfold row_join, pair_merge; simpl; by rewrite F1, F2|].
  intros column c. rewrite join_cell. specialize (H1 column). specialize (H2 column).
  destruct (x1.2 !! column) as [c1|], (x2.2 !! column) as [c2|]; cbn [merge_opt]; intros [= <-]; auto.
  unfold Cell_merge_with. repeat case_match; auto.
Qed.

Definition view_older (v : PView) (ts : Z) : Prop := forall t, v.2 = Some t -> t.1 < ts.
Lemma view_older_join v w ts : view_older v ts -> view_older w ts -> view_older (pview_join v w) ts.
Proof.
  intros Hv Hw t. unfold pview_join, pair_merge. cbn [snd]. destruct v.2 as [a|] eqn:E1, w.2 as [b|] eqn:E2; cbn [merge_opt]; intros [= <-]; auto.
  unfold tomb_join. destruct (_ <=? _); auto.
Qed.

Lemma sup_has l p ck column ts : p ∈ l -> view_has (pview p) ck column ts -> view_has (pview_sup l) ck column ts.
Proof.
  unfold pview_sup. generalize ((∅, None) : PView). induction l as [|q l IH]; intros v Hin Hp; [by apply elem_of_nil in Hin|]. rewrite fmap_cons. cbn [foldl].
  apply elem_of_cons in Hin as [<-|Hin]; [|by apply IH].
  assert (view_has (pview_join v (pview p)) ck column ts) as Hv by (apply view_has_join; by right). clear -Hv. revert Hv. generalize (pview_join v (pview p)).
  induction l as [|q l IH]; intros w Hw; [done|]. apply IH, view_has_join. by left.
Qed.
Lemma sup_all (P : PView -> Prop) l :
  (forall v w, P v -> P w -> P (pview_join v w)) -> P (∅, None) -> Forall (fun p => P (pview p)) l -> P (pview_sup l).
Proof.
  intros Hj. unfold pview_sup. generalize ((∅, None) : PView). induction l as [|q l IH]; intros v Hv Hl; [done|].
  apply Forall_cons in Hl as [Hq Hl]. rewrite fmap_cons. apply IH; auto.
Qed.

Lemma cells_view_elem r column c : row_wf r -> cells_view (Row_cells r) !! column = Some c <-> c ∈ Row_cells r /\ Cell_column c = column.
Proof.
  intros Hw. split.
  - rewrite lookup_cells_view by done. intros [Hc Hcol%String.eqb_eq]%List.find_some. by rewrite list_elem_of_In.
  - intros [Hc <-]. apply lookup_insert_all_in; [by rewrite cells_columns|]. apply list_elem_of_fmap. by exists c.
Qed.
Lemma pview_row p ck (x : RowView) : (pview p).1 !! ck = Some x <-> exists r, pd_rows p !! ck = Some r /\ x = row_view r.
Proof. unfold pview. cbn [fst]. rewrite lookup_fmap. destruct (pd_rows p !! ck) as [r|]; simpl; naive_solver. Qed.

Lemma shows_view p ck column ts : p_wf p -> shows p ck column ts -> view_has (pview p) ck column ts.
Proof.
  intros [Hw _] (r & c & Hr & _ & Hc & Hcol & Hts & _). exists (row_view r), c. split; [apply pview_row; eauto|]. split; [|done].
  apply cells_view_elem; [by apply (Hw ck)|done].
Qed.
Lemma all_view (P : list Z -> Cell -> Prop) p :
  p_wf p -> (forall ck r, pd_rows p !! ck = Some r -> Row_is_tombstone r = false /\ forall c, c ∈ Row_cells r -> P ck c) -> view_all P (pview p).
Proof.
  intros [Hw _] Hp ck x (r & Hr & ->)%pview_row. destruct (Hp ck r Hr) as [Ht Hc]. split; [done|]. intros column c Hin.
  apply cells_view_elem in Hin as [Hin _]; [by apply Hc|by apply (Hw ck)].
Qed.
Lemma older_view p ts : deleted_before p ts -> view_older (pview p) ts.
Proof.
  intros Hd [t l]. unfold pview, pd_tomb. cbn [snd]. destruct (tombstone_timestamp p) as [a|] eqn:E; [|done].
  destruct (tombstone_local_deletion_time p); [|done]. intros [= <- <-]. by apply Hd.
Qed.

(** The live data of a merge whose view has the cell. *)
Lemma kept_returns now (Q : list Z -> Cell -> Prop) p ck column ts :
  p_wf p -> view_has (pview p) ck column ts -> view_older (pview p) ts ->
  view_all (fun ck c => Cell_is_live_at c now = true /\ Q ck c) (pview p) ->
  returns (kept_part now p) ck column ts
  /\ forall ck r c, pd_rows (kept_part now p) !! ck = Some r -> c ∈ Row_cells r -> Q ck c.
Proof.
  intros Hp (x & c & (r & Hr & ->)%pview_row & Hc & Hts) Ho Ha. destruct (pw_rows _ Hp ck r Hr) as [_ Hw]. split.
  - destruct (Ha ck (row_view r)) as [Ht Hl]; [apply pview_row; eauto|]. specialize (Hl column c Hc). apply cells_view_elem in Hc as [Hc Hcol]; [|done].
    destruct (kept_row_some now (tombstone_timestamp p) r c Ht Hc (proj1 Hl)) as [Hk Hin].
    { intros t Et. destruct (proj1 (pw_tomb _ Hp)) as [l El]; [eauto|]. specialize (Ho (t, l)). unfold pview, pd_tomb in Ho. rewrite Et, El in Ho.
      specialize (Ho eq_refl). simpl in Ho. lia. }
    eexists _, c. split; [cbn [kept_part pd_rows]; rewrite lookup_omap, Hr; exact Hk|]. done.
  - intros ck' r' c'. cbn [kept_part pd_rows]. rewrite lookup_omap. destruct (pd_rows p !! ck') as [r0|] eqn:E0; [|done]. simpl.
    intros [-> _]%kept_row_inv Hin. cbn [Row_cells] in Hin. eapply elem_of_sublist in Hin; [|apply kept_cells_sublist].
    destruct (pw_rows _ Hp ck' r0 E0) as [_ Hw0]. destruct (Ha ck' (row_view r0)) as [_ Hl]; [apply pview_row; eauto|].
    apply (Hl (Cell_column c') c'). by apply cells_view_elem.
Qed.

(** ** The two ways to answer *)

Lemma resolve_mismatch hash strategy thresholds read contacted response digests response' responses now :
  digests <> [] -> Forall (fun y => DataResponse_digest hash response <> y) digests ->
  exists resolved, resolve_replica_responses hash strategy thresholds read contacted response digests (response' :: responses) now = inr resolved
    /\ rs_data resolved = rd_data (DataResolver_resolve hash thresholds (response' :: responses) now).
Proof.
  intros Hne Hd. unfold resolve_replica_responses.
  assert (forall r, foldl DigestResolver_add_digest_response r digests
    = mkDigestResolver (dg_data_response r) (dg_data_digest r) (dg_digest_responses r ++ digests) (dg_required r)) as ->.
  { clear. induction digests as [|y l IH]; intros r; simpl; [by destruct r; rewrite app_nil_r|]. rewrite IH. simpl. by rewrite <- app_assoc. }
  unfold DigestResolver_resolve. cbn. destruct digests as [|y l]; [done|]. apply Forall_cons in Hd as [Hy _]. cbn [imap List.filter snd].
  rewrite (proj2 (Z.eqb_neq y _)) by congruence. cbn [negb]. by eexists.
Qed.

Section Fresh.
Context (hash : list HashItem -> Digest) (held : nat -> Endpoint -> option PartitionData) (now : Z) (read : CoordinatedRead).

(** The hash tells apart what is hashed in this read: the contents of replicas, whole
    and within the bounds of the read, and the responses. *)
Definition hashed_content (v : option PartitionData) : Prop := exists i e, v = held i e \/ v = bounded read <$> held i e.
Record digests_sound : Prop := {
  ds_contents a b : hashed_content a -> hashed_content b -> version_digest hash a = version_digest hash b ->
    digest_items <$> a = digest_items <$> b;
  ds_response i e r j e' : read_data_payload_to_response (payload_at hash held now read i e) = Some r ->
    DataResponse_digest hash r <> version_digest hash (held j e');
}.

Context (Hheld : contents_ok held read) (Hsound : digests_sound).

(** A cell that one of these replicas held during the read. *)
Definition held_by (replicas : list Endpoint) (ck : list Z) (c : Cell) : Prop :=
  exists e i p r, e ∈ replicas /\ held i e = Some p /\ pd_rows p !! ck = Some r /\ c ∈ Row_cells r.

Lemma answer_cells p :
  p_wf p -> untruncated read p ->
  forall ck r, pd_rows (answer now read p) !! ck = Some r -> Row_is_tombstone r = false
    /\ forall c, c ∈ Row_cells r -> Cell_is_live_at c now = true /\ exists r0, pd_rows p !! ck = Some r0 /\ c ∈ Row_cells r0.
Proof.
  intros Hw Hu ck r. rewrite answer_row by done. destruct (admitted read ck); [|done]. destruct (pd_rows p !! ck) as [r0|]; [|done]. simpl.
  intros [-> _]%kept_row_inv. split; [done|]. intros c Hc. cbn [Row_cells] in Hc.
  apply list_elem_of_In, List.filter_In in Hc as [Hc Hl]. split; [done|]. exists r0. by rewrite list_elem_of_In.
Qed.

Section Cell.
Context (ck : list Z) (column : string) (ts : Z) (Hck : admitted read ck = true)
  (Hdel : forall i e p, held i e = Some p -> deleted_before p ts).

Lemma shows_says p : shows p ck column ts -> says_nothing p = false.
Proof.
  intros (r & _ & Hr & _). apply andb_false_iff. left. apply bool_decide_eq_false. intros E. apply ordmap_elem in Hr. rewrite E in Hr. by apply elem_of_nil in Hr.
Qed.

Lemma answer_shows i e p : held i e = Some p -> shows (bounded read p) ck column ts -> shows (answer now read p) ck column ts.
Proof.
  intros Hp Hs. destruct (Hheld i e p Hp) as (Hw & _ & Hu). apply shows_kept; [done|]. intros t.
  destruct (bounded_spec read p Hw Hu) as (-> & _). by apply (Hdel i e).
Qed.

(** All digests agree: the data replica shows what the others show. *)
Lemma agree_fresh result d others i digests e :
  Forall2 (fun e y => exists j, y = version_digest hash (held j e)) others digests ->
  digests_agree hash held now read result d i digests -> e ∈ d :: others ->
  (forall i, exists p, held i e = Some p /\ shows p ck column ts) ->
  exists p, rr_result_data result = Some (encode_partition_data p) /\ returns p ck column ts
    /\ forall ck r c, pd_rows p !! ck = Some r -> c ∈ Row_cells r -> held_by (d :: others) ck c.
Proof.
  intros HF [Hall Hres] He Hshow.
  destruct (payload_spec hash now read (held i d)) as (_ & Hdig & Hdata & _); [intros p; apply Hheld|].
  fold (payload_at hash held now read i d) in Hdig, Hdata.
  assert (exists p, held i d = Some p /\ shows (bounded read p) ck column ts) as (p & Hp & Hs).
  { apply elem_of_cons in He as [->|He].
    - destruct (Hshow i) as (p & Hp & Hs). exists p. split; [done|]. destruct (Hheld i d p Hp) as (Hw & _ & Hu). by apply shows_bounded.
    - apply list_elem_of_lookup in He as [k Hk]. destruct (Forall2_lookup_l _ _ _ _ _ HF Hk) as (y & Hy & j & Ey).
      rewrite Forall_forall in Hall. specialize (Hall y (list_elem_of_lookup_2 _ _ _ Hy)). rewrite Hdig, Ey in Hall.
      destruct (Hshow j) as (q & Hq & Hs). apply (ds_contents Hsound) in Hall; [|exists j, e; by left|exists i, d; by right].
      rewrite Hq in Hall. destruct (held i d) as [p|]; [|done]. apply (inj Some) in Hall. exists p. split; [done|]. by eapply shows_items. }
  pose proof (answer_shows i d p Hp Hs) as Ha. destruct (Hheld i d p Hp) as (Hw & _ & Hu). exists (answer now read p). split_and!.
  - rewrite Hres, Hdata, Hp. simpl. unfold answer_data. by rewrite (shows_says _ Ha).
  - destruct Ha as (r & c & Hr & _ & Hc & Hcol & Ht & _). by exists r, c.
  - intros ck' r c Hr Hc. destruct (answer_cells p Hw Hu ck' r Hr) as [_ H]. destruct (H c Hc) as (_ & r0 & Hr0 & Hc0).
    exists d, i, p, r0. split_and!; [left|done..].
Qed.

Definition response_of (e : Endpoint) (r : DataResponse) : Prop :=
  exists i, read_data_payload_to_response (payload_at hash held now read i e) = Some r.
Definition response_data (r : DataResponse) : option PartitionData := head (dr_partitions r) ≫= pr_data.

Lemma response_of_spec e r :
  response_of e r -> exists i, answers_for (cr_partition_key read) r /\ (dr_partitions r = [] <-> held i e = None)
    /\ response_data r = held i e ≫= answer_data now read.
Proof.
  intros [i Hr]. exists i. destruct (payload_spec hash now read (held i e)) as (_ & _ & _ & r' & Hr' & H); [intros p; apply Hheld|].
  fold (payload_at hash held now read i e) in Hr'. rewrite Hr in Hr'. by injection Hr' as <-.
Qed.

Lemma responses_answered replicas responses :
  Forall2 response_of replicas responses ->
  Forall (answers_for (cr_partition_key read)) responses
  /\ forall v, v ∈ omap id (response_data <$> responses) -> exists e i p, e ∈ replicas /\ held i e = Some p /\ v = answer now read p.
Proof.
  induction 1 as [|e r replicas responses Her HF [IH1 IH2]]; [split; [constructor|intros v Hv; by apply elem_of_nil in Hv]|].
  destruct (response_of_spec e r Her) as (i & Ha & _ & Hd). split; [by constructor|]. intros v Hv. rewrite fmap_cons in Hv.
  apply list_elem_of_omap in Hv as (o & Ho & Hv). unfold id in Hv. subst o. apply elem_of_cons in Ho as [Ho|Ho].
  - rewrite Hd in Ho. destruct (held i e) as [p|] eqn:Ep; [|done]. cbn [mbind option_bind] in Ho. unfold answer_data in Ho.
    destruct (says_nothing _); [done|]. injection Ho as ->. exists e, i, p. split_and!; [left|done..].
  - destruct (IH2 v) as (e' & i' & p & He & Hp & ->); [apply list_elem_of_omap; by exists (Some v)|]. exists e', i', p. split_and!; [by right|done..].
Qed.

(** The merge of responses has what each replica shows. *)
Lemma merged_answers replicas all e :
  Forall2 response_of replicas all -> e ∈ replicas -> (forall i, exists p, held i e = Some p /\ shows p ck column ts) ->
  let merged := merge_partition_data (response_data <$> all) in
  Forall p_wf (omap id (response_data <$> all)) /\ ~ Forall (fun r => dr_partitions r = []) all
  /\ returns (kept_part now merged) ck column ts
  /\ forall ck r c, pd_rows (kept_part now merged) !! ck = Some r -> c ∈ Row_cells r -> held_by replicas ck c.
Proof.
  intros HR He Hshow merged. destruct (responses_answered _ _ HR) as [Hans Hver].
  assert (Forall (fun v => exists e i p, e ∈ replicas /\ held i e = Some p /\ v = answer now read p) (omap id (response_data <$> all))) as Hall
    by (by apply Forall_forall).
  assert (Forall p_wf (omap id (response_data <$> all))) as Hwf.
  { eapply Forall_impl; [exact Hall|]. intros v (e' & i & p & _ & Hp & ->). destruct (Hheld i e' p Hp) as (Hw & _ & Hu). by apply answer_wf. }
  apply list_elem_of_lookup in He as [k Hk]. destruct (Forall2_lookup_l _ _ _ _ _ HR Hk) as (r & Hr & Her).
  destruct (response_of_spec e r Her) as (i & _ & Hempty & Hrd). destruct (Hshow i) as (p & Hp & Hs). rewrite Hp in Hempty, Hrd.
  destruct (Hheld i e p Hp) as (Hw & _ & Hu). pose proof (answer_shows i e p Hp (shows_bounded read p ck column ts Hw Hu Hck Hs)) as Ha.
  cbn [mbind option_bind] in Hrd. unfold answer_data in Hrd. rewrite (shows_says _ Ha) in Hrd. apply list_elem_of_lookup_2 in Hr.
  split; [done|]. split; [intros Hn; rewrite Forall_forall in Hn; by apply Hn, Hempty in Hr|].
  destruct (merge_partition_data_view _ Hwf) as [Hmw Hmv]. apply kept_returns; [done|..]; unfold merged; rewrite Hmv.
  - eapply sup_has; [|by apply shows_view; [apply answer_wf|exact Ha]]. apply list_elem_of_omap. eexists (Some _). split; [|done].
    rewrite <- Hrd. by apply list_elem_of_fmap_2.
  - apply (sup_all (fun v => view_older v ts)); [intros v w; apply view_older_join|done|]. eapply Forall_impl; [exact Hall|].
    intros v (e' & i' & q & _ & Hq & ->). apply older_view. intros t. destruct (Hheld i' e' q Hq) as (Hqw & _ & Hqu).
    unfold answer. cbn [kept_part tombstone_timestamp]. destruct (bounded_spec read q Hqw Hqu) as (-> & _). by apply (Hdel i' e').
  - apply sup_all; [intros v w; apply view_all_join|intros ck' x; cbn [fst]; by rewrite lookup_empty|]. eapply Forall_impl; [exact Hall|].
    intros v (e' & i' & q & He' & Hq & ->). destruct (Hheld i' e' q Hq) as (Hqw & _ & Hqu). apply all_view; [by apply answer_wf|].
    intros ck' r' Hr'. destruct (answer_cells q Hqw Hqu ck' r' Hr') as [Ht Hc]. split; [done|]. intros c Hin.
    destruct (Hc c Hin) as (Hl & r0 & Hr0 & Hc0). split; [done|]. by exists e', i', q, r0.
Qed.

(** The digests differ: the result is that merge. *)
Lemma merge_fresh {F64} (self : ReadCoordinator F64) result d others digests e :
  Forall2 (fun e y => exists j, y = version_digest hash (held j e)) others digests ->
  merges_responses hash held now read self result d others digests -> e ∈ d :: others ->
  (forall i, exists p, held i e = Some p /\ shows p ck column ts) ->
  exists p, rr_result_data result = Some (encode_partition_data p) /\ returns p ck column ts
    /\ forall ck r c, pd_rows p !! ck = Some r -> c ∈ Row_cells r -> held_by (d :: others) ck c.
Proof.
  intros HF (Hne & response & responses & resolved & HR & Hres & Hdata) He Hshow. set (all := response :: responses) in *.
  destruct (resolve_mismatch hash (rc_read_repair_strategy self) (rc_tombstone_thresholds self) read (d :: others) response digests response responses now)
    as (resolved' & Hres' & Hd); [done| |].
  { apply Forall_forall. intros y Hy. apply list_elem_of_lookup in Hy as [k Hk]. destruct (Forall2_lookup_r _ _ _ _ _ HF Hk) as (e' & _ & j & ->).
    apply Forall2_cons_1 in HR as [[i Hi] _]. by eapply (ds_response Hsound). }
  fold all in Hres', Hd. rewrite Hres in Hres'. injection Hres' as <-. destruct (responses_answered _ _ HR) as [Hans _].
  destruct (merged_answers _ _ e HR He Hshow) as (Hwf & Hsome & Hret & Hfrom).
  destruct (resolve_one hash (rc_tombstone_thresholds self) all (cr_partition_key read) now) as [tracker E]; [|done..|].
  { apply Forall2_length in HF, HR. destruct digests; [done|]. unfold all in *. simpl in *. lia. }
  fold (response_data <$> all) in E. eexists. split; [|split; [exact Hret|exact Hfrom]].
  rewrite Hdata, Hd, E. cbn [rd_data dr_partitions]. destruct (says_nothing _) eqn:Es; [|done]. exfalso.
  destruct Hret as (r & c & Hr & _). apply andb_true_iff in Es as [Es _]. apply bool_decide_eq_true in Es. apply ordmap_elem in Hr.
  setoid_rewrite Es in Hr. by apply elem_of_nil in Hr.
Qed.
End Cell.
End Fresh.

Lemma subsets_intersect {A} `{EqDecision A} (l Q R : list A) :
  NoDup Q -> NoDup R -> Q ⊆ l -> R ⊆ l -> (length l < length Q + length R)%nat -> exists x, x ∈ Q /\ x ∈ R.
Proof.
  intros HQ HR Hq Hr Hlen. destruct (decide (Exists (.∈ R) Q)) as [He|Hne]; [apply Exists_exists in He as (x & ? & ?); eauto|].
  exfalso. assert (NoDup (Q ++ R)) as Hnd.
  { apply NoDup_app. split_and!; [done| |done]. intros x Hx Hx'. apply Hne, Exists_exists. eauto. }
  assert (length (Q ++ R) <= length l)%nat; [|rewrite length_app in *; lia].
  apply submseteq_length, NoDup_submseteq; [done|]. intros x [?|?]%elem_of_app; auto.
Qed.

(** C2.  A read returns what an earlier write made durable.  Let a write of a cell be
    held throughout the read by distinct replicas [W] of the partition, as many as
    its level asks for, each of which has the cell or a newer one that is neither
    deleted nor expires, in a row that is not deleted; and let the levels of the read
    and of the write overlap.  If
    the read succeeds, whichever messages are lost, whichever replica gives the
    data, speculation and concurrent writes included, then it has heard from as many
    distinct replicas as its level asks for, the partition it returns has a cell of that
    column at least as new as the write, and every cell it returns was held by one of
    the replicas it contacted.

    The key of the row is after the start of the page; all replicas hold
    well-formed partitions that fit the wire, no more rows than the limit of the
    read, and no partition deletion as new as the write; and the hash tells the
    contents and the responses apart ([digests_sound]).  [limited_read_stale] and
    [deleted_row_returns] show reads outside of these conditions. *)
Theorem quorum_read_fresh {F64 S : Type} `{ReplicationLaws S} (hash : list HashItem -> Digest)
    (held : nat -> Endpoint -> option PartitionData) (delivered : nat -> Endpoint -> bool) (now : Z) (self : ReadCoordinator F64)
    (read : CoordinatedRead) (cl wcl : ConsistencyLevel) (strategy : S) (snitch : Snitch) (scheduler scheduler' : AsyncReadRepairScheduler)
    (id : nat) (result : ReadResult) (W : list Endpoint) (ck : list Z) (column : string) (ts : Z)
    (Hread : fetch_rows hash held delivered now self read cl strategy snitch scheduler id = Some (inr result, scheduler'))
    (Hlevels : let rf := length (scope_endpoints self read cl strategy snitch) in
       (rf < ConsistencyLevel_block_for wcl rf + ConsistencyLevel_block_for cl rf)%nat
       /\ (ConsistencyLevel_block_for wcl rf <= length W)%nat)
    (HW : NoDup W /\ W ⊆ scope_endpoints self read cl strategy snitch)
    (Hwritten : forall e, e ∈ W -> forall i, exists p, held i e = Some p /\ shows p ck column ts)
    (Hck : admitted read ck = true) (Hheld : contents_ok held read)
    (Hdel : forall i e p, held i e = Some p -> deleted_before p ts) (Hsound : digests_sound hash held now read) :
  NoDup (rr_contacted_replicas result)
  /\ (ConsistencyLevel_block_for cl (length (scope_endpoints self read cl strategy snitch)) <= length (rr_contacted_replicas result))%nat
  /\ exists p, rr_result_data result = Some (encode_partition_data p) /\ returns p ck column ts
     /\ forall ck r c, pd_rows p !! ck = Some r -> c ∈ Row_cells r -> held_by held (rr_contacted_replicas result) ck c.
Proof.
  unfold fetch_rows in Hread. destruct (plan_read self read cl strategy snitch) as [[err|planned]|] eqn:Ep; [done| |done].
  cbn [mbind option_bind] in Hread. injection Hread as Hread. destruct (plan_read_spec self _ _ _ _ _ Ep) as (Hreq & Hnd & Hsub & Hne).
  destruct (fetch_rows_spec hash held delivered now read Hheld self cl planned scheduler id result scheduler' Hne Hnd Hread)
    as (d & others & i & digests & Hc & Hcn & Hcs & Hlen & HF & Hcase). rewrite Hc. rewrite Hreq in Hlen. split; [done|]. split; [done|].
  destruct (subsets_intersect (scope_endpoints self read cl strategy snitch) W (d :: others)) as (e & HeW & Hec);
    [apply HW|done|apply HW|set_solver|simpl in *; lia|].
  destruct Hcase as [Hagree|Hmerge].
  - by apply (agree_fresh hash held now read Hheld Hsound ck column ts Hck Hdel result d others i digests e HF Hagree Hec (Hwritten e HeW)).
  - by apply (merge_fresh hash held now read Hheld Hsound ck column ts Hck Hdel self result d others digests e HF Hmerge Hec (Hwritten e HeW)).
Qed.

(** ** Samples *)
Module QuorumSample.
Import RepairSample.

(** A hash that tells the samples apart. *)
Definition hash (l : list HashItem) : Digest :=
  foldl (fun n i => match i with HashInt v => n + v | HashBytes _ => n + 100 | HashBool true => n + 1000 | _ => n end) 0 l.

(** Three replicas of which the first has missed the write of [8]; the first digest
    request is lost. *)
Definition node (n : Z) : Endpoint * NodeInfo := (example_endpoint n, NodeInfo_new n (example_endpoint n) "dc1" "r1" [n]).
Definition ring : TokenRing := foldl (fun r n => TokenRing_add_node r (example_endpoint n) [n]) TokenRing_new [1; 2; 3].
Definition coordinator : ReadCoordinator Z :=
  mkReadCoordinator Z (mkClusterSnapshot ring (list_to_map (node <$> [1; 2; 3]))) (example_endpoint 1) "dc1" (FixedDelay 5) Blocking
    TombstoneThresholds_default id.
Definition strategy : SimpleStrategy := {| simple_rf := 3 |}.
Definition idle : AsyncReadRepairScheduler := mkAsyncReadRepairScheduler Blocking [].
Definition held (i : nat) (e : Endpoint) : option PartitionData :=
  Some (if decide (e = example_endpoint 1) then holding (cell [7] 1) else holding (cell [8] 2)).
Definition delivered (i : nat) (e : Endpoint) : bool := negb (i =? 1)%nat.
Abbreviation run := (fetch_rows hash held delivered 100 coordinator read Quorum strategy SimpleSnitch idle 0).

Definition ok {A B} (o : option ((A + ReadResult) * B)) : bool := match o with Some (inr _, _) => true | _ => false end.
Definition result_of {A B} (o : option ((A + ReadResult) * B)) : ReadResult :=
  match o with Some (inr r, _) => r | _ => mkReadResult None [] 0 0 false false [] [] false None None 0 end.
Definition queue_of {A} (o : option (A * AsyncReadRepairScheduler)) : AsyncReadRepairScheduler := match o with Some (_, s) => s | None => idle end.
Lemma run_ok {A} (o : option ((A + ReadResult) * AsyncReadRepairScheduler)) : ok o = true -> o = Some (inr (result_of o), queue_of o).
Proof. by destruct o as [[[]]|]. Qed.

Lemma held_inv i e p : held i e = Some p -> exists c, p = holding c /\ (c = cell [7] 1 \/ c = cell [8] 2).
Proof. unfold held. intros [= <-]. case_decide; eauto. Qed.
Lemma sample_entries c : entries (pd_rows (holding c)) = [([1], mkRow [1] [c] false None)].
Proof. reflexivity. Qed.
Lemma sample_plain c : c = cell [7] 1 \/ c = cell [8] 2 -> plain_cell c /\ cell_fits c.
Proof.
  intros [-> | ->]; (split; [split_and!; eauto|]);
    (split_and!; [reflexivity|unfold in_u; simpl; lia|intros v [= <-]; unfold in_u; simpl; lia|unfold in_s; simpl; lia..|discriminate]).
Qed.

Lemma sample_contents : contents_ok held read.
Proof.
  intros i e p (c & -> & Hc)%held_inv. destruct (sample_plain c Hc) as [Hp Hf]. destruct (holding_ok c Hp Hc) as (Hw & _ & _).
  split; [done|]. split; [|by unfold untruncated, bounds_of]. split_and!; [|rewrite sample_entries; unfold in_u; simpl; lia|discriminate|discriminate].
  intros ck r Hr%ordmap_elem. rewrite sample_entries in Hr. apply list_elem_of_singleton in Hr as [= -> ->].
  split_and!; [reflexivity|unfold in_u; simpl; lia..|by apply Forall_singleton|discriminate].
Qed.

(** The digests of contents are 101 and 102, and those of responses 201 and 202. *)
Lemma sample_content v :
  hashed_content held read v -> exists c, (c = cell [7] 1 \/ c = cell [8] 2) /\ digest_items <$> v = Some (digest_items (holding c)).
Proof.
  intros (i & e & [->| ->]); (destruct (held i e) as [p|] eqn:E; [|done]); destruct (held_inv i e p E) as (c & -> & Hc); exists c; (split; [done|]); [done|].
  by destruct Hc as [-> | ->]; vm_compute.
Qed.
Lemma sample_sound : digests_sound hash held 100 read.
Proof.
  assert (forall v c, digest_items <$> v = Some (digest_items (holding c)) -> version_digest hash v = hash (digest_items (holding c))) as Hv.
  { intros [v|] c; [|done]. intros E. apply (inj Some) in E. simpl. unfold Digest_from_partition. by rewrite E. }
  split.
  - intros a b (c & Hc & Ea)%sample_content (c' & Hc' & Eb)%sample_content. rewrite (Hv _ _ Ea), (Hv _ _ Eb), Ea, Eb.
    destruct Hc as [-> | ->], Hc' as [-> | ->]; vm_compute; congruence.
  - intros i e r j e' Hr. destruct (sample_content (held j e')) as (c & Hc & Ec); [by exists j, e'; left|]. rewrite (Hv _ _ Ec).
    assert (DataResponse_digest hash r = 201 \/ DataResponse_digest hash r = 202) as Hd.
    { destruct (held i e) as [p|] eqn:E; [|done]. unfold payload_at in Hr. rewrite E in Hr. destruct (held_inv i e p E) as (c' & -> & [-> | ->]);
        [left|right]; (vm_compute in Hr; injection Hr as <-; vm_compute; reflexivity). }
    destruct Hc as [-> | ->], Hd as [-> | ->]; vm_compute; congruence.
Qed.
Lemma sample_shows i e : e ∈ [example_endpoint 2; example_endpoint 3] -> exists p, held i e = Some p /\ shows p [1] "a" 2.
Proof.
  intros He. exists (holding (cell [8] 2)). split.
  - unfold held. rewrite decide_False; [done|]. apply elem_of_cons in He as [->|He%list_elem_of_singleton]; [done|by subst].
  - exists (mkRow [1] [cell [8] 2] false None), (cell [8] 2). split; [reflexivity|]. split_and!; try done. left.
Qed.

(** The theorem at this run, in which the merge is needed. *)
Lemma quorum_read_fresh_witness :
  NoDup (rr_contacted_replicas (result_of run))
  /\ (ConsistencyLevel_block_for Quorum (length (scope_endpoints coordinator read Quorum strategy SimpleSnitch))
      <= length (rr_contacted_replicas (result_of run)))%nat
  /\ exists p, rr_result_data (result_of run) = Some (encode_partition_data p) /\ returns p [1] "a" 2
     /\ forall ck r c, pd_rows p !! ck = Some r -> c ∈ Row_cells r -> held_by held (rr_contacted_replicas (result_of run)) ck c.
Proof.
  assert (ok run = true) as Hok by (vm_compute; reflexivity).
  assert (scope_endpoints coordinator read Quorum strategy SimpleSnitch = example_endpoint <$> [1; 2; 3]) as Hs by (vm_compute; reflexivity).
  refine (quorum_read_fresh hash held delivered 100 coordinator read Quorum Quorum strategy SimpleSnitch idle (queue_of run) 0 (result_of run)
    [example_endpoint 2; example_endpoint 3] [1] "a" 2 (run_ok run Hok) _ _ (fun e He i => sample_shows i e He) eq_refl sample_contents _ sample_sound).
  - rewrite Hs. split; vm_compute; lia.
  - rewrite Hs. split; [apply (bool_decide_eq_true_1 (NoDup _)); vm_compute; reflexivity|].
    intros e He. apply elem_of_cons in He as [->|He]; [right; left|]. apply list_elem_of_singleton in He as ->. right; right; left.
  - intros i e p (c & -> & _)%held_inv t. discriminate.
Defined.

(** The cells of a result. *)
Definition cells_of (r : ReadResult) : list (list Z * list Cell) :=
  match rr_result_data r ≫= decode_partition_data with
  | Some p => (fun e => (e.1, Row_cells e.2)) <$> entries (pd_rows p)
  | None => []
  end.
Abbreviation always := (fun _ _ => true).

(** A replica answers without its deletions: read at ALL from one replica that has
    missed the deletion of the row, the row is returned, although the deletion is
    known to the others. *)
Definition row_deleted (i : nat) (e : Endpoint) : option PartitionData :=
  Some (if decide (e = example_endpoint 1) then holding (cell [7] 1)
        else PartitionData_apply_row (holding (cell [7] 1)) (mkRow [1] [] true (Some 50))).
Example deleted_row_returns :
  cells_of (result_of (fetch_rows hash row_deleted always 100 coordinator read All strategy SimpleSnitch idle 0)) = [([1], [cell [7] 1])].
Proof. vm_compute. reflexivity. Qed.

(** With a limit of two rows, the first replica answers with rows 1 and 2 and
    not with its newer row 5; no tombstone was met, so nothing more is asked, and the
    merge has the second replica's older row 5. *)
Definition rows (l : list (Z * Z)) : option PartitionData :=
  Some (foldl (fun p '(k, ts) => PartitionData_apply_row p (mkRow [k] [cell [k] ts] false None)) PartitionData_new l).
Definition five_updated (i : nat) (e : Endpoint) : option PartitionData :=
  if decide (e = example_endpoint 2) then rows [(5, 1); (6, 3)] else rows [(1, 1); (2, 1); (5, 9)].
Example limited_read_stale :
  cells_of (result_of (fetch_rows hash five_updated always 100 coordinator (mkCoordinatedRead "ks" "t" [9] None (Some 2%nat)) Quorum strategy
    SimpleSnitch idle 0))
  = [([1], [cell [1] 1]); ([2], [cell [2] 1]); ([5], [cell [5] 1]); ([6], [cell [6] 3])].
Proof. vm_compute. reflexivity. Qed.

(** A row with one cell newer than the partition's deletion is returned whole. *)
Definition cut_row : PartitionData :=
  PartitionData_set_tombstone (PartitionData_apply_row PartitionData_new
    (mkRow [1] [cell [7] 1; mkCell "b" (Some [8]) 9 0 None false] false None)) 5 50.
Example covered_cell_returns :
  cells_of (result_of (fetch_rows hash (fun _ _ => Some cut_row) always 100 coordinator read Quorum strategy SimpleSnitch idle 0))
  = [([1], [cell [7] 1; mkCell "b" (Some [8]) 9 0 None false])].
Proof. vm_compute. reflexivity. Qed.

End QuorumSample.
