(* ===== verification/Coordinated.v ===== *)
(** * Coordinated mutations

    crates/cassandra-coordinator/src/write.rs: the mutation a coordinator sends and its
    guardrails; verb_handlers/mutation_handler.rs: what a replica makes of it. *)
From S2P Require Export Engine.

(** ** Data (write.rs) *)

Inductive MutationKind := StandardMutation | CounterMutation | ViewMutation.

Inductive CollectionOp :=
| Append (elems : list (list Z))
| Remove (elems : list (list Z))
| MapPut (entries : list (list Z * list Z)).

Record CoordinatedCell := mkCoordinatedCell {
  cc_column : string;
  cc_value : option (list Z);
  cc_timestamp : Z;
  cc_ttl : Z;
  cc_is_tombstone : bool;
  cc_collection_op : option CollectionOp;
}.
Record CoordinatedRangeTombstone := mkCoordinatedRangeTombstone {
  crt_start : list Z;
  crt_end : list Z;
  crt_deletion_time : Z;
  crt_local_deletion_time : Z;
}.
Record CoordinatedRow := mkCoordinatedRow {
  co_clustering_key : list Z;
  co_cells : list CoordinatedCell;
  co_is_tombstone : bool;
  co_range_tombstone : option CoordinatedRangeTombstone;
}.
Record CoordinatedTombstone := mkCoordinatedTombstone { ct_deletion_time : Z; ct_local_deletion_time : Z }.
Record CoordinatedMutation := mkCoordinatedMutation {
  com_keyspace : string;
  com_table : string;
  com_partition_key : list Z;
  com_rows : list CoordinatedRow;
  com_timestamp : Z;
  com_kind : MutationKind;
  com_static_cells : list CoordinatedCell;
  com_partition_tombstone : option CoordinatedTombstone;
}.
Definition CoordinatedMutation_simple (keyspace table : string) (partition_key : list Z) (rows : list CoordinatedRow)
    (timestamp : Z) : CoordinatedMutation :=
  mkCoordinatedMutation keyspace table partition_key rows timestamp StandardMutation [] None.

(** Sizes are [usize]; a mutation is far from their bound. *)
Definition cell_size (cell : CoordinatedCell) : nat :=
  (length (string_bytes (cc_column cell)) + match cc_value cell with Some v => length v | None => 0 end + 16)%nat.
Definition CoordinatedMutation_estimated_size (m : CoordinatedMutation) : nat :=
  let size := (length (string_bytes (com_keyspace m)) + length (string_bytes (com_table m)) + length (com_partition_key m) + 8)%nat in
  let size := foldl (fun size row =>
      foldl (fun size cell => size + cell_size cell) (size + (length (co_clustering_key row) + 2)) (co_cells row))%nat size (com_rows m) in
  foldl (fun size cell => size + cell_size cell)%nat size (com_static_cells m).

(** ** Guardrails (write.rs) *)

Record WriteGuardrails := mkWriteGuardrails {
  wg_max_mutation_size : nat;
  wg_timestamp_drift_threshold_us : Z;
  wg_partition_size_warn : nat;
  wg_tombstone_warn_threshold : nat;
  wg_collection_size_warn : nat;
  wg_columns_per_query_warn : nat;
}.

Definition flag_count (b : bool) : nat := if b then 1 else 0.
Definition WriteCoordinator_count_tombstones (m : CoordinatedMutation) : nat :=
  let count := flag_count (bool_decide (is_Some (com_partition_tombstone m))) in
  let count := foldl (fun count row =>
      foldl (fun count cell => count + flag_count (cc_is_tombstone cell))
        (count + flag_count (co_is_tombstone row) + flag_count (bool_decide (is_Some (co_range_tombstone row)))) (co_cells row))%nat
    count (com_rows m) in
  foldl (fun count cell => count + flag_count (cc_is_tombstone cell))%nat count (com_static_cells m).
Definition all_cells (m : CoordinatedMutation) : list CoordinatedCell := mjoin (co_cells <$> com_rows m) ++ com_static_cells m.
Definition CollectionOp_size (op : CollectionOp) : nat :=
  match op with Append elems | Remove elems => length elems | MapPut entries => length entries end.
Definition WriteCoordinator_max_collection_size (m : CoordinatedMutation) : nat :=
  foldl (fun max_size cell =>
      match cc_collection_op cell with
      | Some op => let sz := CollectionOp_size op in if (max_size <? sz)%nat then sz else max_size
      | None => max_size
      end) O (all_cells m).
Definition WriteCoordinator_count_columns (m : CoordinatedMutation) : nat :=
  size (list_to_set (cc_column <$> all_cells m) : gset string).

(** The warnings that are logged. *)
Inductive GuardrailWarning := TimestampDrift | PartitionSize | ExcessiveTombstones | CollectionSize | ColumnCount.
(** The error is [MutationTooLarge] with the size and the limit; [now_us] is the clock. *)
Definition WriteCoordinator_check_guardrails (g : WriteGuardrails) (now_us : Z) (m : CoordinatedMutation) :
    (nat * nat) + list GuardrailWarning :=
  let size := CoordinatedMutation_estimated_size m in
  if (wg_max_mutation_size g <? size)%nat then inl (size, wg_max_mutation_size g)
  else
    let drift := wrap_s 64 (Z.abs (wrap_s 64 (com_timestamp m - now_us))) in
    let warn (b : bool) (w : GuardrailWarning) := if b then [w] else [] in
    inr (warn (wg_timestamp_drift_threshold_us g <? drift) TimestampDrift
         ++ warn (wg_partition_size_warn g <? size)%nat PartitionSize
         ++ warn (wg_tombstone_warn_threshold g <? WriteCoordinator_count_tombstones m)%nat ExcessiveTombstones
         ++ warn (wg_collection_size_warn g <? WriteCoordinator_max_collection_size m)%nat CollectionSize
         ++ warn (wg_columns_per_query_warn g <? WriteCoordinator_count_columns m)%nat ColumnCount).

(** ** On the replica (mutation_handler.rs) *)

Definition to_storage_cell (cell : CoordinatedCell) : CellMutation :=
  mkCellMutation (cc_column cell) (cc_value cell) (cc_timestamp cell) (cc_ttl cell) None (cc_is_tombstone cell).
Definition to_storage_range_tombstone (marker : CoordinatedRangeTombstone) : CommitLog.RangeTombstoneMarker :=
  CommitLog.mkRangeTombstoneMarker (crt_start marker) (crt_end marker) (crt_deletion_time marker) (crt_local_deletion_time marker).
Definition to_storage_row (row : CoordinatedRow) : MutationRow :=
  mkMutationRow (co_clustering_key row) (to_storage_cell <$> co_cells row)
    (co_is_tombstone row || bool_decide (is_Some (co_range_tombstone row))) (crt_local_deletion_time <$> co_range_tombstone row).
Definition to_storage_mutation (m : CoordinatedMutation) : Mutation :=
  mkMutation (com_keyspace m) (com_table m) (com_partition_key m) (to_storage_row <$> com_rows m) (com_timestamp m) false
    (to_storage_cell <$> com_static_cells m)
    ((fun marker => mkTombstoneMarker (ct_deletion_time marker) (ct_local_deletion_time marker)) <$> com_partition_tombstone m)
    (omap (fun row => to_storage_range_tombstone <$> co_range_tombstone row) (com_rows m)).

(** A value with a time to live reaches the storage engine without a deletion time, and
    such a cell is live at every time. *)
Lemma written_ttl_never_expires cell now :
  cc_is_tombstone cell = false -> Cell_is_live_at (cell_of (to_storage_cell cell)) now = true.
Proof. intros H. unfold Cell_is_live_at. simpl. rewrite H. by destruct (0 <? cc_ttl cell). Qed.
