(* ===== verification/Hints.v ===== *)
(** * Hinted handoff

    crates/cassandra-coordinator/src/hints.rs: the hints a coordinator keeps in memory
    for replicas that have missed a mutation, and hint_delivery.rs: their delivery.
    The store is the one without a hints directory, the default of [HintConfig]; of
    the metrics it has those that count hints.  Every hint ever stored is accounted for:
    it is queued, being delivered or delivered, or it expired, made room for a newer
    one or was removed. *)
From S2P Require Export Coordinated Node.

(** ** The store (hints.rs) *)

Record HintConfig := mkHintConfig {
  hcf_enabled : bool;
  hcf_max_hint_window_ms : Z;
  hcf_max_hints_per_endpoint : nat;
  hcf_max_total_hints : Z;
}.
Definition HintConfig_default : HintConfig := mkHintConfig true (3 * 3600 * 1000) (Z.to_nat 100000) 1000000.

Record Hint := mkHint { hint_target : Endpoint; hint_mutation : CoordinatedMutation; hint_created_at : Z; hint_id : Z }.

Record HintMetrics := mkHintMetrics {
  hm_created : Z;
  hm_replayed : Z;
  hm_expired : Z;
  hm_dropped_overflow : Z;
}.
Record HintStore := mkHintStore {
  hs_hints : gmap Endpoint (list Hint);
  hs_config : HintConfig;
  hs_next_id : Z;
  hs_total_hints : Z;
  hs_paused : bool;
  hs_metrics : HintMetrics;
}.
Definition HintStore_with_config (config : HintConfig) : HintStore := mkHintStore ∅ config 1 0 false (mkHintMetrics 0 0 0 0).

(** [fetch_add] and [fetch_sub] on an [AtomicU64]. *)
Definition fetch_add (counter : Z) (n : nat) : Z := wrap_u 64 (counter + Z.of_nat n).
Definition fetch_sub (counter : Z) (n : nat) : Z := wrap_u 64 (counter - Z.of_nat n).

Definition set_hints (hints : gmap Endpoint (list Hint)) (total : Z) (s : HintStore) : HintStore :=
  mkHintStore hints (hs_config s) (hs_next_id s) total (hs_paused s) (hs_metrics s).
Definition set_paused (paused : bool) (s : HintStore) : HintStore :=
  mkHintStore (hs_hints s) (hs_config s) (hs_next_id s) (hs_total_hints s) paused (hs_metrics s).
Definition count_metrics (replayed expired overflow : nat) (s : HintStore) : HintStore :=
  let m := hs_metrics s in
  mkHintStore (hs_hints s) (hs_config s) (hs_next_id s) (hs_total_hints s) (hs_paused s)
    (mkHintMetrics (hm_created m) (fetch_add (hm_replayed m) replayed) (fetch_add (hm_expired m) expired)
       (fetch_add (hm_dropped_overflow m) overflow)).

Definition HintStore_queue (s : HintStore) (target : Endpoint) : list Hint := default [] (hs_hints s !! target).

Definition HintStore_store_hint (now : Z) (target : Endpoint) (mutation : CoordinatedMutation) (s : HintStore) : bool * HintStore :=
  if negb (hcf_enabled (hs_config s)) then (false, s)
  else if hcf_max_total_hints (hs_config s) <=? hs_total_hints s then (false, count_metrics 0 0 1 s)
  else
    let hint := mkHint target mutation now (hs_next_id s) in
    let queue := HintStore_queue s target in
    let full := (hcf_max_hints_per_endpoint (hs_config s) <=? length queue)%nat in
    let m := hs_metrics s in
    (true, mkHintStore (<[target := (if full then tail queue else queue) ++ [hint]]> (hs_hints s)) (hs_config s)
             (fetch_add (hs_next_id s) 1) (if full then hs_total_hints s else fetch_add (hs_total_hints s) 1) (hs_paused s)
             (mkHintMetrics (fetch_add (hm_created m) 1) (hm_replayed m) (hm_expired m)
                (if full then fetch_add (hm_dropped_overflow m) 1 else hm_dropped_overflow m))).

Definition hint_cutoff (s : HintStore) (now : Z) : Z := wrap_s 64 (now - hcf_max_hint_window_ms (hs_config s)).
Definition hint_live (cutoff : Z) (h : Hint) : bool := cutoff <=? hint_created_at h.

Definition HintStore_drain_hints (now : Z) (target : Endpoint) (s : HintStore) : list Hint * HintStore :=
  if hs_paused s then ([], s)
  else
    match hs_hints s !! target with
    | Some queue =>
        let cutoff := hint_cutoff s now in
        let live := List.filter (hint_live cutoff) queue in
        let expired := List.filter (fun h => negb (hint_live cutoff h)) queue in
        (live, count_metrics 0 (length expired) 0
                 (set_hints (delete target (hs_hints s)) (fetch_sub (hs_total_hints s) (length live + length expired)%nat) s))
    | None => ([], s)
    end.

(** The loop of [requeue_hints], newest hint first: the queue, the hints put back
    and those for which there was no room. *)
Fixpoint requeue_loop (max : nat) (newest_first : list Hint) (queue : list Hint) (requeued dropped : nat) : list Hint * nat * nat :=
  match newest_first with
  | [] => (queue, requeued, dropped)
  | hint :: rest =>
      if (max <=? length queue)%nat then requeue_loop max rest queue requeued (Datatypes.S dropped)
      else requeue_loop max rest (hint :: queue) (Datatypes.S requeued) dropped
  end.
Definition HintStore_requeue_hints (target : Endpoint) (hints_to_requeue : list Hint) (s : HintStore) : nat * HintStore :=
  match hints_to_requeue with
  | [] => (O, s)
  | _ =>
      let '(queue, requeued, dropped) :=
        requeue_loop (hcf_max_hints_per_endpoint (hs_config s)) (reverse hints_to_requeue) (HintStore_queue s target) 0 0 in
      (requeued, count_metrics 0 0 dropped (set_hints (<[target := queue]> (hs_hints s)) (fetch_add (hs_total_hints s) requeued) s))
  end.

Definition HintStore_hint_count (s : HintStore) (target : Endpoint) : nat := length (HintStore_queue s target).
Definition HintStore_endpoints_with_hints (s : HintStore) : nat := size (hs_hints s).
Definition HintStore_stats_per_endpoint (s : HintStore) : gmap Endpoint nat := length <$> hs_hints s.
Definition HintStore_pause : HintStore -> HintStore := set_paused true.
Definition HintStore_resume : HintStore -> HintStore := set_paused false.

Definition HintStore_delete_hints_for (target : Endpoint) (s : HintStore) : HintStore :=
  match hs_hints s !! target with
  | Some queue => set_hints (delete target (hs_hints s)) (fetch_sub (hs_total_hints s) (length queue)) s
  | None => s
  end.
Definition HintStore_truncate_all_hints (s : HintStore) : HintStore := set_hints ∅ 0 s.
Definition HintStore_purge_hints_for_removed_nodes (live_endpoints : gset Endpoint) (s : HintStore) : HintStore :=
  let targets_to_remove := List.filter (fun ep => negb (bool_decide (ep ∈ live_endpoints))) (map_to_list (hs_hints s)).*1 in
  foldl (fun s target => HintStore_delete_hints_for target s) s targets_to_remove.

(** The queues, each with the hints [keep] keeps; the queues that are left empty are
    removed. *)
Definition retain_queue (keep : Endpoint -> Hint -> bool) (target : Endpoint) (queue : list Hint) : option (list Hint) :=
  match List.filter (keep target) queue with [] => None | q => Some q end.
Definition retain_hints (keep : Endpoint -> Hint -> bool) (hints : gmap Endpoint (list Hint)) : gmap Endpoint (list Hint) :=
  map_imap (retain_queue keep) hints.
Definition dropped_hints (keep : Endpoint -> Hint -> bool) (hints : gmap Endpoint (list Hint)) : list Hint :=
  mjoin ((fun e => List.filter (fun h => negb (keep e.1 h)) e.2) <$> map_to_list hints).
Definition HintStore_purge_expired (now : Z) (s : HintStore) : Z * HintStore :=
  let keep (_ : Endpoint) (h : Hint) := hint_live (hint_cutoff s now) h in
  let total_purged := length (dropped_hints keep (hs_hints s)) in
  (Z.of_nat total_purged,
   count_metrics 0 total_purged 0 (set_hints (retain_hints keep (hs_hints s)) (fetch_sub (hs_total_hints s) total_purged) s)).

(** ** The manager (hints.rs) *)

(** The replicas of a partition key in each keyspace of which the strategy is known:
    [replicas_for_key] of the snapshot. *)
Definition Owners : Type := gmap string (list Z -> list Endpoint).
Definition still_owned (owners : Owners) (target : Endpoint) (h : Hint) : bool :=
  match owners !! com_keyspace (hint_mutation h) with
  | Some replicas => bool_decide (target ∈ replicas (com_partition_key (hint_mutation h)))
  | None => true
  end.
Definition HintedHandoffManager_has_hints_for (s : HintStore) (target : Endpoint) : bool := (0 <? HintStore_hint_count s target)%nat.
Definition HintedHandoffManager_on_node_recovered (now : Z) (target : Endpoint) (owners : Owners) (s : HintStore) : list Hint * HintStore :=
  if negb (hcf_enabled (hs_config s)) then ([], s)
  else let '(drained, s) := HintStore_drain_hints now target s in (List.filter (still_owned owners target) drained, s).
Definition HintedHandoffManager_on_topology_change (owners : Owners) (s : HintStore) : HintStore :=
  let s := HintStore_pause s in
  let total_dropped := length (dropped_hints (still_owned owners) (hs_hints s)) in
  HintStore_resume (set_hints (retain_hints (still_owned owners) (hs_hints s)) (fetch_sub (hs_total_hints s) total_dropped) s).

(** ** Delivery (hint_delivery.rs) *)

(** How one attempt to send a hint ends. *)
Inductive SendOutcome := Acknowledged | NotAcknowledged | ShutDown.
(** What the loop meets at one hint: the flags it polls, whether the request can be
    serialised and the outcome of each attempt. *)
Record HintTurn := mkHintTurn { ht_shutdown : bool; ht_paused : bool; ht_serializes : bool; ht_attempt : nat -> SendOutcome }.

Fixpoint send_attempts (outcome : nat -> SendOutcome) (attempt left_over : nat) : bool :=
  match outcome attempt with
  | Acknowledged => true
  | ShutDown => false
  | NotAcknowledged => match left_over with O => false | Datatypes.S n => send_attempts outcome (Datatypes.S attempt) n end
  end.

Record Delivery := mkDelivery { dv_delivered : list Hint; dv_failed : nat; dv_expired : nat; dv_requeue : list Hint }.
Fixpoint delivery_loop (cutoff : Z) (max_retries : nat) (turn : nat -> HintTurn) (i : nat) (pending : list Hint) (d : Delivery) : Delivery :=
  match pending with
  | [] => d
  | hint :: rest =>
      let t := turn i in
      if ht_shutdown t || ht_paused t then mkDelivery (dv_delivered d) (dv_failed d) (dv_expired d) (dv_requeue d ++ hint :: rest)
      else
        delivery_loop cutoff max_retries turn (Datatypes.S i) rest
          (if negb (hint_live cutoff hint) then mkDelivery (dv_delivered d) (dv_failed d) (Datatypes.S (dv_expired d)) (dv_requeue d)
           else if negb (ht_serializes t) then mkDelivery (dv_delivered d) (Datatypes.S (dv_failed d)) (dv_expired d) (dv_requeue d)
           else if send_attempts (ht_attempt t) 0 max_retries then
             mkDelivery (dv_delivered d ++ [hint]) (dv_failed d) (dv_expired d) (dv_requeue d)
           else mkDelivery (dv_delivered d) (Datatypes.S (dv_failed d)) (dv_expired d) (dv_requeue d ++ [hint]))
  end.

(** The delivered hints and the store afterwards; [DeliveryResult] has the number of
    delivered and failed hints. *)
Definition HintDeliveryService_deliver_hint_batch (max_retries : nat) (now : Z) (turn : nat -> HintTurn) (target : Endpoint) (hints : list Hint)
    (s : HintStore) : Delivery * HintStore :=
  match hints with
  | [] => (mkDelivery [] 0 0 [], s)
  | _ =>
      let d := delivery_loop (hint_cutoff s now) max_retries turn 0 hints (mkDelivery [] 0 0 []) in
      let '(_, s) := HintStore_requeue_hints target (dv_requeue d) (count_metrics 0 (dv_expired d) 0 s) in
      (d, count_metrics (length (dv_delivered d)) 0 0 s)
  end.

(** ** Everything that happens to a store *)

(** Deliveries run beside the rest: the batches taken and not yet finished are kept
    with their targets.  [ho_stored] are the hints stored so far, [ho_delivered] those
    a target has acknowledged. *)
Record Handoff := mkHandoff {
  ho_store : HintStore;
  ho_flight : list (Endpoint * list Hint);
  ho_stored : list Hint;
  ho_delivered : list Hint;
}.
Definition Handoff_new (config : HintConfig) : Handoff := mkHandoff (HintStore_with_config config) [] [] [].

Inductive HandoffEvent :=
| StoreHint (now : Z) (target : Endpoint) (mutation : CoordinatedMutation)
| StartDelivery (now : Z) (target : Endpoint)
| StartRecovered (now : Z) (target : Endpoint) (owners : Owners)
| FinishDelivery (now : Z) (batch : nat) (turn : nat -> HintTurn)
| PurgeExpired (now : Z)
| DeleteHintsFor (target : Endpoint)
| TruncateAllHints
| PurgeRemovedNodes (live : gset Endpoint)
| TopologyChange (owners : Owners)
| PauseDelivery
| ResumeDelivery.

Definition with_store (s : HintStore) (st : Handoff) : Handoff := mkHandoff s (ho_flight st) (ho_stored st) (ho_delivered st).
Definition take_batch (target : Endpoint) (taken : list Hint * HintStore) (st : Handoff) : Handoff :=
  mkHandoff taken.2 (ho_flight st ++ [(target, taken.1)]) (ho_stored st) (ho_delivered st).
Definition handoff_event (max_retries : nat) (st : Handoff) (e : HandoffEvent) : Handoff :=
  let s := ho_store st in
  match e with
  | StoreHint now target mutation =>
      let '(stored, s') := HintStore_store_hint now target mutation s in
      mkHandoff s' (ho_flight st) (if stored then ho_stored st ++ [mkHint target mutation now (hs_next_id s)] else ho_stored st) (ho_delivered st)
  | StartDelivery now target => take_batch target (HintStore_drain_hints now target s) st
  | StartRecovered now target owners => take_batch target (HintedHandoffManager_on_node_recovered now target owners s) st
  | FinishDelivery now batch turn =>
      match ho_flight st !! batch with
      | Some (target, hints) =>
          let '(d, s') := HintDeliveryService_deliver_hint_batch max_retries now turn target hints s in
          mkHandoff s' (delete batch (ho_flight st)) (ho_stored st) (ho_delivered st ++ dv_delivered d)
      | None => st
      end
  | PurgeExpired now => with_store (HintStore_purge_expired now s).2 st
  | DeleteHintsFor target => with_store (HintStore_delete_hints_for target s) st
  | TruncateAllHints => with_store (HintStore_truncate_all_hints s) st
  | PurgeRemovedNodes live => with_store (HintStore_purge_hints_for_removed_nodes live s) st
  | TopologyChange owners => with_store (HintedHandoffManager_on_topology_change owners s) st
  | PauseDelivery => with_store (HintStore_pause s) st
  | ResumeDelivery => with_store (HintStore_resume s) st
  end.
Definition handoff_run (config : HintConfig) (max_retries : nat) (events : list HandoffEvent) : Handoff :=
  foldl (handoff_event max_retries) (Handoff_new config) events.

(** ** Bookkeeping lemmas *)

Definition all_hints (hints : gmap Endpoint (list Hint)) : list Hint := mjoin (map_to_list hints).*2.
Definition in_flight (st : Handoff) : list Hint := mjoin (ho_flight st).*2.

Lemma all_hints_delete hints t : all_hints hints ≡ₚ default [] (hints !! t) ++ all_hints (delete t hints).
Proof.
  destruct (hints !! t) as [q|] eqn:E; simpl; [|by rewrite delete_id]. unfold all_hints.
  by rewrite <- (map_to_list_delete hints t q E).
Qed.
Lemma all_hints_insert hints t q : all_hints (<[t := q]> hints) ≡ₚ q ++ all_hints (delete t hints).
Proof. rewrite (all_hints_delete _ t), lookup_insert_eq. simpl. by rewrite delete_insert_eq. Qed.

Lemma filter_split {A} (f : A -> bool) l : l ≡ₚ List.filter f l ++ List.filter (fun x => negb (f x)) l.
Proof.
  induction l as [|x l IH]; [done|]. simpl. destruct (f x); simpl; [by rewrite <- IH|].
  rewrite <- Permutation_middle. by rewrite <- IH.
Qed.

Lemma retain_insert keep m t q :
  m !! t = None -> all_hints (retain_hints keep (<[t := q]> m)) ≡ₚ List.filter (keep t) q ++ all_hints (retain_hints keep m).
Proof.
  intros Hm. assert (retain_hints keep m !! t = None) as Hr by (unfold retain_hints; by rewrite map_lookup_imap, Hm).
  unfold retain_hints at 1. rewrite map_imap_insert. fold (retain_hints keep m). unfold retain_queue.
  destruct (List.filter (keep t) q) as [|h l]; [by rewrite delete_id|]. by rewrite all_hints_insert, delete_id.
Qed.
Lemma retain_split keep hints : all_hints hints ≡ₚ all_hints (retain_hints keep hints) ++ dropped_hints keep hints.
Proof.
  induction hints as [|t q m Hm IH] using map_ind; [done|].
  assert (dropped_hints keep (<[t := q]> m) ≡ₚ List.filter (fun h => negb (keep t h)) q ++ dropped_hints keep m) as ->
    by (unfold dropped_hints; by rewrite map_to_list_insert).
  rewrite all_hints_insert, delete_id by done. rewrite IH, (filter_split (keep t) q) at 1. rewrite retain_insert by done.
  set (a := List.filter (keep t) q). solve_Permutation.
Qed.

Lemma retained_queue keep hints t q :
  retain_hints keep hints !! t = Some q -> exists q0, hints !! t = Some q0 /\ q = List.filter (keep t) q0.
Proof.
  unfold retain_hints. rewrite map_lookup_imap. destruct (hints !! t) as [q0|]; [|done]. simpl. intros H. exists q0. split; [done|].
  unfold retain_queue in H. by destruct (List.filter (keep t) q0); simplify_eq.
Qed.

(** The newest of the hints that fit are put back in front, in their order. *)
Lemma requeue_loop_spec max l queue a b :
  (length queue <= max)%nat ->
  exists k, (k <= length l)%nat
    /\ requeue_loop max l queue a b = (reverse (take k l) ++ queue, a + k, b + (length l - k))%nat
    /\ (k + length queue <= max)%nat /\ (k < length l -> k + length queue = max)%nat.
Proof.
  revert queue a b. induction l as [|h l IH]; intros queue a b Hq; [exists O; rewrite !Nat.add_0_r; simpl; repeat split; lia|].
  simpl. destruct (max <=? length queue)%nat eqn:E; [apply Nat.leb_le in E|apply Nat.leb_gt in E].
  - destruct (IH queue a (Datatypes.S b)) as (k & Hk & He & Hm & Hlt); [done|]. exists O. assert (k = O) as -> by lia. rewrite He.
    simpl. repeat split; try lia. repeat f_equal; lia.
  - destruct (IH (h :: queue) (Datatypes.S a) b) as (k & Hk & He & Hm & Hlt); [simpl; lia|]. exists (Datatypes.S k). rewrite He. simpl in *.
    rewrite reverse_cons, <- (assoc_L (++)). repeat split; try lia. repeat f_equal; lia.
Qed.

Ltac next_turn :=
  match goal with IH : forall i d, _ |- context [delivery_loop _ _ _ (Datatypes.S ?i) _ ?d'] =>
    destruct (IH (Datatypes.S i) d') as (ex & un & Hp & He & Hf & Hu); simpl in Hp, He end.
Lemma delivery_loop_spec cutoff max_retries turn l i d :
  exists expired unsent,
    let r := delivery_loop cutoff max_retries turn i l d in
    dv_delivered r ++ dv_requeue r ++ expired ++ unsent ≡ₚ dv_delivered d ++ dv_requeue d ++ l
    /\ dv_expired r = (dv_expired d + length expired)%nat /\ Forall (fun h => hint_live cutoff h = false) expired
    /\ ((forall i, ht_serializes (turn i) = true) -> unsent = []).
Proof.
  revert i d. induction l as [|h l IH]; intros i d; simpl; [exists [], []; rewrite !(right_id_L [] (++)); simpl; rewrite Nat.add_0_r; done|].
  destruct (ht_shutdown (turn i) || ht_paused (turn i)); simpl.
  { exists [], []. simpl. rewrite Nat.add_0_r, !(right_id_L [] (++)). done. }
  destruct (hint_live cutoff h) eqn:El; simpl.
  - destruct (ht_serializes (turn i)) eqn:Es; simpl; [destruct (send_attempts (ht_attempt (turn i)) 0 max_retries)|].
    + next_turn. exists ex, un. split; [|auto]. rewrite Hp. simpl. solve_Permutation.
    + next_turn. exists ex, un. split; [|auto]. rewrite Hp. simpl. solve_Permutation.
    + next_turn. exists ex, (h :: un). split; [|split; [done|split; [done|]]].
      * trans (h :: (dv_delivered d ++ dv_requeue d ++ l)); [rewrite <- Hp|]; simpl; solve_Permutation.
      * intros H. by rewrite H in Es.
  - next_turn. exists (h :: ex), un. split; [|split; [|split; [by constructor|auto]]].
    + trans (h :: (dv_delivered d ++ dv_requeue d ++ l)); [rewrite <- Hp|]; simpl; solve_Permutation.
    + rewrite He. simpl. lia.
Qed.

(** ** The ledger *)

(** The time a drain, a delivery or a purge reads from the clock. *)
Definition event_time (e : HandoffEvent) : option Z :=
  match e with
  | StartDelivery now _ | StartRecovered now _ _ | FinishDelivery now _ _ | PurgeExpired now => Some now
  | _ => None
  end.
(** The events after which no hint has been removed on purpose. *)
Definition removes_nothing (e : HandoffEvent) : Prop :=
  match e with
  | StoreHint _ _ _ | StartDelivery _ _ | PurgeExpired _ | PauseDelivery | ResumeDelivery => True
  | FinishDelivery _ _ turn => forall i, ht_serializes (turn i) = true
  | StartRecovered _ _ _ | DeleteHintsFor _ | TruncateAllHints | PurgeRemovedNodes _ | TopologyChange _ => False
  end.
Definition expired_by (config : HintConfig) (times : list Z) (h : Hint) : Prop :=
  exists now, now ∈ times /\ hint_created_at h < wrap_s 64 (now - hcf_max_hint_window_ms config).

Record HintLedger := mkHintLedger { lg_expired : list Hint; lg_displaced : list Hint; lg_removed : list Hint; lg_refused : nat }.

Record queues_ok (config : HintConfig) (hints : gmap Endpoint (list Hint)) (flight : list (Endpoint * list Hint)) : Prop := {
  qo_queue : forall t q, hints !! t = Some q -> (length q <= hcf_max_hints_per_endpoint config)%nat /\ Forall (fun h => hint_target h = t) q;
  qo_flight : Forall (fun b => Forall (fun h => hint_target h = b.1) b.2) flight;
}.
Record accounted (config : HintConfig) (times : list Z) (n : nat) (st : Handoff) (l : HintLedger) : Prop := {
  ac_config : hs_config (ho_store st) = config;
  ac_hints : ho_stored st ≡ₚ all_hints (hs_hints (ho_store st)) ++ in_flight st ++ ho_delivered st
                              ++ lg_expired l ++ lg_displaced l ++ lg_removed l;
  ac_total : hs_total_hints (ho_store st) = Z.of_nat (length (all_hints (hs_hints (ho_store st))));
  ac_ids : hint_id <$> ho_stored st = Z.of_nat <$> seq 1 (length (ho_stored st));
  ac_next : hs_next_id (ho_store st) = Z.of_nat (Datatypes.S (length (ho_stored st)));
  ac_queues : queues_ok config (hs_hints (ho_store st)) (ho_flight st);
  ac_created : hm_created (hs_metrics (ho_store st)) = Z.of_nat (length (ho_stored st));
  ac_replayed : hm_replayed (hs_metrics (ho_store st)) = Z.of_nat (length (ho_delivered st));
  ac_expired : hm_expired (hs_metrics (ho_store st)) = Z.of_nat (length (lg_expired l));
  ac_overflow : hm_dropped_overflow (hs_metrics (ho_store st)) = Z.of_nat (length (lg_displaced l) + lg_refused l);
  ac_times : Forall (expired_by config times) (lg_expired l);
  ac_events : (length (ho_stored st) + lg_refused l <= n)%nat;
}.

Lemma wrap_nat n : Z.of_nat n < 2 ^ 64 -> wrap_u 64 (Z.of_nat n) = Z.of_nat n.
Proof. intros H. unfold wrap_u. apply Z.mod_small. lia. Qed.
Lemma expired_by_more config times e h : expired_by config times h -> expired_by config (times ++ e) h.
Proof. intros (now & H & Hc). exists now. set_solver. Qed.

(** A step that stores no hint keeps the books when the hints it takes from one place
    turn up in another and the counters follow. *)
Lemma accounted_move config times times' n st l st' l' :
  accounted config times n st l -> Z.of_nat n < 2 ^ 64 ->
  hs_config (ho_store st') = hs_config (ho_store st) -> hs_next_id (ho_store st') = hs_next_id (ho_store st) ->
  ho_stored st' = ho_stored st -> hm_created (hs_metrics (ho_store st')) = hm_created (hs_metrics (ho_store st)) ->
  all_hints (hs_hints (ho_store st')) ++ in_flight st' ++ ho_delivered st' ++ lg_expired l' ++ lg_displaced l' ++ lg_removed l'
  ≡ₚ all_hints (hs_hints (ho_store st)) ++ in_flight st ++ ho_delivered st ++ lg_expired l ++ lg_displaced l ++ lg_removed l ->
  hs_total_hints (ho_store st') = wrap_u 64 (Z.of_nat (length (all_hints (hs_hints (ho_store st'))))) ->
  queues_ok config (hs_hints (ho_store st')) (ho_flight st') ->
  hm_replayed (hs_metrics (ho_store st')) = wrap_u 64 (Z.of_nat (length (ho_delivered st'))) ->
  hm_expired (hs_metrics (ho_store st')) = wrap_u 64 (Z.of_nat (length (lg_expired l'))) ->
  hm_dropped_overflow (hs_metrics (ho_store st')) = wrap_u 64 (Z.of_nat (length (lg_displaced l') + lg_refused l')) ->
  lg_refused l' = lg_refused l -> Forall (expired_by config (times ++ times')) (lg_expired l') ->
  accounted config (times ++ times') (Datatypes.S n) st' l'.
Proof.
  intros A Hn Hc Hx Hs Hcr Hp Ht Hq Hr He Ho Hrf Hex. pose proof (ac_events _ _ _ _ _ A) as Hev.
  pose proof (Permutation_length (ac_hints _ _ _ _ _ A)) as Hl. pose proof (Permutation_length Hp) as Hl'. repeat rewrite length_app in Hl. repeat rewrite length_app in Hl'.
  split; [by rewrite Hc; apply A|by rewrite Hs, Hp; apply A| |by rewrite Hs; apply A|by rewrite Hx, Hs; apply A|done|by rewrite Hcr, Hs; apply A
         | | | |done|rewrite Hs, Hrf; lia].
  all: rewrite ?Ht, ?Hr, ?He, ?Ho; apply wrap_nat; lia.
Qed.

(** A store that has lost the hints [gone] and nothing else. *)
Record shrinks (s s' : HintStore) (gone : list Hint) : Prop := {
  sh_config : hs_config s' = hs_config s;
  sh_next : hs_next_id s' = hs_next_id s;
  sh_metrics : hs_metrics s' = hs_metrics s;
  sh_hints : all_hints (hs_hints s) ≡ₚ all_hints (hs_hints s') ++ gone;
  sh_total : Z.of_nat (length (all_hints (hs_hints s))) < 2 ^ 64 -> hs_total_hints s = Z.of_nat (length (all_hints (hs_hints s))) ->
             hs_total_hints s' = Z.of_nat (length (all_hints (hs_hints s')));
  sh_queues : forall t q', hs_hints s' !! t = Some q' -> exists q, hs_hints s !! t = Some q /\ sublist q' q;
}.
Lemma filter_sublist_bool {A} (f : A -> bool) l : sublist (List.filter f l) l.
Proof. induction l as [|x l IH]; simpl; [constructor|]. destruct (f x); by constructor. Qed.
Lemma sub_total s (hints : gmap Endpoint (list Hint)) gone n :
  all_hints (hs_hints s) ≡ₚ all_hints hints ++ gone -> n = length gone ->
  Z.of_nat (length (all_hints (hs_hints s))) < 2 ^ 64 -> hs_total_hints s = Z.of_nat (length (all_hints (hs_hints s))) ->
  fetch_sub (hs_total_hints s) n = Z.of_nat (length (all_hints hints)).
Proof.
  intros Hp -> Hlt ->. rewrite Hp, length_app in *. rewrite <- (wrap_nat (length (all_hints hints))) by lia. unfold fetch_sub. f_equal. lia.
Qed.

Lemma delete_shrinks target s n :
  n = length (HintStore_queue s target) ->
  shrinks s (set_hints (delete target (hs_hints s)) (fetch_sub (hs_total_hints s) n) s) (HintStore_queue s target).
Proof.
  intros Hn. assert (all_hints (hs_hints s) ≡ₚ all_hints (delete target (hs_hints s)) ++ HintStore_queue s target) as Hp
    by (rewrite (all_hints_delete _ target); apply Permutation_app_comm).
  split; simpl; try done; [by apply sub_total with (HintStore_queue s target)|]. intros t q' H. exists q'. split; [|done].
  by apply lookup_delete_Some in H as [_ H].
Qed.
Lemma retain_shrinks keep s :
  shrinks s (set_hints (retain_hints keep (hs_hints s)) (fetch_sub (hs_total_hints s) (length (dropped_hints keep (hs_hints s)))) s)
    (dropped_hints keep (hs_hints s)).
Proof.
  split; simpl; try done; [apply retain_split|apply sub_total with (dropped_hints keep (hs_hints s)); [apply retain_split|done]|].
  intros t q' (q & Hq & ->)%retained_queue. exists q. split; [done|apply filter_sublist_bool].
Qed.

Lemma shrunk_queues config s s' gone flight flight' :
  shrinks s s' gone -> queues_ok config (hs_hints s) flight ->
  Forall (fun b => Forall (fun h => hint_target h = b.1) b.2) flight' -> queues_ok config (hs_hints s') flight'.
Proof.
  intros S Q Hf. split; [|done]. intros t q' (q & Hq & Hs)%(sh_queues _ _ _ S). destruct (qo_queue _ _ _ Q _ _ Hq) as [Hl Ht].
  split; [apply sublist_length in Hs; lia|]. rewrite Forall_forall in *. intros h Hh. apply Ht. by eapply elem_of_sublist.
Qed.

Lemma fetch_add_zero config times n st l (f : HintMetrics -> Z) :
  accounted config times n st l -> Z.of_nat n < 2 ^ 64 -> f ∈ [hm_replayed; hm_expired; hm_dropped_overflow] ->
  fetch_add (f (hs_metrics (ho_store st))) 0 = f (hs_metrics (ho_store st)).
Proof.
  intros A Hn Hf. pose proof (ac_events _ _ _ _ _ A) as Hev. pose proof (Permutation_length (ac_hints _ _ _ _ _ A)) as Hl.
  rewrite !length_app in Hl. unfold fetch_add. rewrite Z.add_0_r.
  repeat (apply elem_of_cons in Hf as [->|Hf]); [| | |by apply not_elem_of_nil in Hf].
  all: rewrite ?(ac_replayed _ _ _ _ _ A), ?(ac_expired _ _ _ _ _ A), ?(ac_overflow _ _ _ _ _ A); apply wrap_nat; lia.
Qed.

(** The hints a store loses are in flight, have expired or have been removed. *)
Lemma accounted_shrink config times times' n st l s' gone flight' ex re :
  accounted config times n st l -> Z.of_nat n < 2 ^ 64 -> shrinks (ho_store st) s' gone ->
  Forall (fun b => Forall (fun h => hint_target h = b.1) b.2) flight' -> mjoin flight'.*2 ++ ex ++ re ≡ₚ in_flight st ++ gone ->
  Forall (expired_by config (times ++ times')) ex ->
  accounted config (times ++ times') (Datatypes.S n) (mkHandoff (count_metrics 0 (length ex) 0 s') flight' (ho_stored st) (ho_delivered st))
    (mkHintLedger (lg_expired l ++ ex) (lg_displaced l) (lg_removed l ++ re) (lg_refused l)).
Proof.
  intros A Hn S Hf Hp He. apply (accounted_move config times times' n st l); simpl; try done.
  - apply S.
  - apply S.
  - by rewrite (sh_metrics _ _ _ S).
  - rewrite (sh_hints _ _ _ S). unfold in_flight at 1. simpl.
    trans (all_hints (hs_hints s') ++ ho_delivered st ++ lg_expired l ++ lg_displaced l ++ lg_removed l ++ (mjoin flight'.*2 ++ ex ++ re));
      [solve_Permutation|]. rewrite Hp. solve_Permutation.
  - pose proof (ac_events _ _ _ _ _ A) as Hev. pose proof (Permutation_length (ac_hints _ _ _ _ _ A)) as Hl. rewrite !length_app in Hl.
    pose proof (Permutation_length (sh_hints _ _ _ S)) as Hs. rewrite length_app in Hs.
    rewrite wrap_nat by lia. apply S; [lia|apply A].
  - by apply (shrunk_queues config _ _ _ _ _ S (ac_queues _ _ _ _ _ A)).
  - rewrite (sh_metrics _ _ _ S), (ac_replayed _ _ _ _ _ A). unfold fetch_add. f_equal. lia.
  - rewrite (sh_metrics _ _ _ S), (ac_expired _ _ _ _ _ A), length_app. unfold fetch_add. f_equal. lia.
  - rewrite (sh_metrics _ _ _ S), (ac_overflow _ _ _ _ _ A). unfold fetch_add. f_equal. lia.
  - apply Forall_app_2; [|done]. eapply Forall_impl; [apply (ac_times _ _ _ _ _ A)|]. intros h. apply expired_by_more.
Qed.
Lemma count_nothing config times n st l s' gone :
  accounted config times n st l -> Z.of_nat n < 2 ^ 64 -> shrinks (ho_store st) s' gone -> count_metrics 0 0 0 s' = s'.
Proof.
  intros A Hn S. destruct s' as [h c i t p m]. unfold count_metrics. simpl. f_equal. pose proof (sh_metrics _ _ _ S) as Hm. simpl in Hm. subst m.
  rewrite !(fetch_add_zero config times n st l _ A Hn) by set_solver. by destruct (hs_metrics (ho_store st)).
Qed.
(** An operation that only removes hints. *)
Lemma accounted_removal config times times' n st l s' gone :
  accounted config times n st l -> Z.of_nat n < 2 ^ 64 -> shrinks (ho_store st) s' gone ->
  accounted config (times ++ times') (Datatypes.S n) (with_store s' st)
    (mkHintLedger (lg_expired l ++ []) (lg_displaced l) (lg_removed l ++ gone) (lg_refused l)).
Proof.
  intros A Hn S. unfold with_store. rewrite <- (count_nothing _ _ _ _ _ _ _ A Hn S).
  apply (accounted_shrink config times times' n st l s' gone (ho_flight st) [] gone); try done. apply A.
Qed.

Lemma pause_shrinks s b : shrinks s (set_paused b s) [].
Proof. split; simpl; try done; [by rewrite (right_id_L [] (++))|by eauto]. Qed.
Lemma shrinks_refl s : shrinks s s [].
Proof. pose proof (pause_shrinks s (hs_paused s)) as H. by destruct s. Qed.
Lemma dropped_all (keep : Hint -> bool) hints : Forall (fun h => keep h = false) (dropped_hints (fun _ => keep) hints).
Proof.
  apply Forall_forall. intros h. unfold dropped_hints. rewrite list_elem_of_join. intros (q & Hh & (e & -> & _)%list_elem_of_fmap).
  apply list_elem_of_In, filter_In in Hh as [_ Hh]. by apply negb_true_iff in Hh.
Qed.
Lemma shrinks_trans s1 s2 s3 gone1 gone2 : shrinks s1 s2 gone1 -> shrinks s2 s3 gone2 -> shrinks s1 s3 (gone2 ++ gone1).
Proof.
  intros A B. split.
  - by rewrite (sh_config _ _ _ B), (sh_config _ _ _ A).
  - by rewrite (sh_next _ _ _ B), (sh_next _ _ _ A).
  - by rewrite (sh_metrics _ _ _ B), (sh_metrics _ _ _ A).
  - by rewrite (sh_hints _ _ _ A), (sh_hints _ _ _ B), (assoc_L (++)).
  - intros Hl Ht. apply B; [|by apply A]. rewrite (sh_hints _ _ _ A), length_app in Hl. lia.
  - intros t q (q2 & H2 & S2)%(sh_queues _ _ _ B). apply (sh_queues _ _ _ A) in H2 as (q1 & H1 & S1). exists q1. split; [done|]. by trans q2.
Qed.
Lemma delete_hints_shrinks target s : exists gone, shrinks s (HintStore_delete_hints_for target s) gone.
Proof.
  unfold HintStore_delete_hints_for. destruct (hs_hints s !! target) as [q|] eqn:E.
  - exists (HintStore_queue s target). apply delete_shrinks. unfold HintStore_queue. by rewrite E.
  - exists []. apply shrinks_refl.
Qed.
Lemma purge_shrinks live s : exists gone, shrinks s (HintStore_purge_hints_for_removed_nodes live s) gone.
Proof.
  unfold HintStore_purge_hints_for_removed_nodes. generalize (List.filter (fun ep => negb (bool_decide (ep ∈ live))) (map_to_list (hs_hints s)).*1).
  intros l. revert s. induction l as [|t l IH]; intros s; simpl.
  - exists []. apply shrinks_refl.
  - destruct (delete_hints_shrinks t s) as [g1 H1]. destruct (IH (HintStore_delete_hints_for t s)) as [g2 H2]. exists (g2 ++ g1).
    by eapply shrinks_trans.
Qed.
Lemma truncate_shrinks s : shrinks s (HintStore_truncate_all_hints s) (all_hints (hs_hints s)).
Proof. by split. Qed.
Lemma topology_shrinks owners s : exists gone, shrinks s (HintedHandoffManager_on_topology_change owners s) gone.
Proof.
  eexists. eapply shrinks_trans; [apply (pause_shrinks s true)|]. eapply shrinks_trans; [apply retain_shrinks|apply (pause_shrinks _ false)].
Qed.

Lemma drain_spec now target s live s' :
  HintStore_drain_hints now target s = (live, s') ->
  exists s0 expired, shrinks s s0 (live ++ expired) /\ (s' = s0 /\ expired = [] \/ s' = count_metrics 0 (length expired) 0 s0)
    /\ Forall (fun h => hint_live (hint_cutoff s now) h = false) expired /\ live ⊆ HintStore_queue s target.
Proof.
  intros H. unfold HintStore_drain_hints in H. pose proof (shrinks_refl s) as Hr.
  assert (exists s0 expired, shrinks s s0 ([] ++ expired) /\ (s = s0 /\ expired = [] \/ s = count_metrics 0 (length expired) 0 s0)
    /\ Forall (fun h => hint_live (hint_cutoff s now) h = false) expired /\ [] ⊆ HintStore_queue s target) as Hn.
  { exists s, []. split; [done|]. split; [by left|]. split; [done|]. apply list_subseteq_nil. }
  destruct (hs_paused s); [by simplify_eq|]. destruct (hs_hints s !! target) as [q|] eqn:Eq; [|by simplify_eq].
  assert (HintStore_queue s target = q) as Hq by (unfold HintStore_queue; by rewrite Eq). injection H as <- <-.
  pose proof (filter_split (hint_live (hint_cutoff s now)) q) as Hs. eexists _, (List.filter (fun h => negb (hint_live (hint_cutoff s now) h)) q).
  split; [|split; [by right|split]].
  - destruct (delete_shrinks target s (length (List.filter (hint_live (hint_cutoff s now)) q)
      + length (List.filter (fun h => negb (hint_live (hint_cutoff s now) h)) q))%nat) as [C X M P T Q];
      [by rewrite Hq, <- length_app, <- Hs|]. split; try done. by rewrite P, <- Hs, Hq.
  - apply Forall_forall. intros h Hh. apply list_elem_of_In, filter_In in Hh as [_ Hh]. by apply negb_true_iff in Hh.
  - rewrite Hq. intros h Hh. apply list_elem_of_In, filter_In in Hh as [Hh _]. by apply list_elem_of_In.
Qed.

Lemma fetch_add_wrap x n : fetch_add (wrap_u 64 x) n = wrap_u 64 (x + Z.of_nat n).
Proof. unfold fetch_add, wrap_u. apply Zplus_mod_idemp_l. Qed.

(** A counter that has grown by [n], modulo its width. *)
Definition grown (before after : Z) (n : nat) : Prop := forall x, before = wrap_u 64 x -> after = wrap_u 64 (x + Z.of_nat n).
Lemma grown_zero x : grown x x 0.
Proof. intros y ->. by rewrite Z.add_0_r. Qed.
Lemma grown_add x n : grown x (fetch_add x n) n.
Proof. intros y ->. apply fetch_add_wrap. Qed.
Lemma grown_trans x y z n m : grown x y n -> grown y z m -> grown x z (n + m).
Proof. intros H1 H2 a ->. rewrite (H2 (a + Z.of_nat n)); [f_equal; lia|by apply H1]. Qed.
Lemma grown_to x y n a b : grown x y n -> x = wrap_u 64 (Z.of_nat a) -> b = (a + n)%nat -> y = wrap_u 64 (Z.of_nat b).
Proof. intros H Hx ->. rewrite (H _ Hx). f_equal. lia. Qed.
#[local] Hint Resolve grown_zero grown_add : core.

(** The newest part of the batch is put back, ahead of the queue. *)
Record requeued (target : Endpoint) (s s' : HintStore) (dropped kept : list Hint) : Prop := {
  rq_config : hs_config s' = hs_config s;
  rq_next : hs_next_id s' = hs_next_id s;
  rq_created : hm_created (hs_metrics s') = hm_created (hs_metrics s);
  rq_replayed : grown (hm_replayed (hs_metrics s)) (hm_replayed (hs_metrics s')) 0;
  rq_expired : grown (hm_expired (hs_metrics s)) (hm_expired (hs_metrics s')) 0;
  rq_overflow : grown (hm_dropped_overflow (hs_metrics s)) (hm_dropped_overflow (hs_metrics s')) (length dropped);
  rq_total : grown (hs_total_hints s) (hs_total_hints s') (length kept);
  rq_hints : all_hints (hs_hints s') ≡ₚ kept ++ all_hints (hs_hints s);
  rq_room : kept = [] \/ (length kept + length (HintStore_queue s target) <= hcf_max_hints_per_endpoint (hs_config s))%nat;
  rq_queues : forall t q, hs_hints s' !! t = Some q -> t = target /\ q = kept ++ HintStore_queue s target \/ hs_hints s !! t = Some q;
}.
Lemma requeue_spec target l s :
  (length (HintStore_queue s target) <= hcf_max_hints_per_endpoint (hs_config s))%nat ->
  exists dropped kept, l = dropped ++ kept /\ requeued target s (HintStore_requeue_hints target l s).2 dropped kept.
Proof.
  intros Hq. unfold HintStore_requeue_hints. destruct l as [|h l']; [exists [], []; split; [done|]; split; simpl; auto|].
  generalize (h :: l'). intros l. destruct (requeue_loop_spec (hcf_max_hints_per_endpoint (hs_config s)) (reverse l) _ 0 0 Hq) as (k & Hk & He & Hm & _).
  rewrite He. simpl. rewrite length_reverse in *. exists (reverse (drop k (reverse l))), (reverse (take k (reverse l))).
  split; [by rewrite <- reverse_app, take_drop, reverse_involutive|].
  assert (length (reverse (take k (reverse l))) = k) as Hlk by (rewrite length_reverse, length_take, length_reverse; lia).
  assert (length (reverse (drop k (reverse l))) = (length l - k)%nat) as Hld by (rewrite length_reverse, length_drop, length_reverse; lia).
  split; simpl; rewrite ?Hlk, ?Hld; auto.
  - rewrite all_hints_insert, (all_hints_delete (hs_hints s) target). fold (HintStore_queue s target). solve_Permutation.
  - intros t q. destruct (decide (t = target)) as [->|Hne]; [rewrite lookup_insert_eq; intros [= <-]; by left|].
    rewrite lookup_insert_ne by done. by right.
Qed.

Section Events.
Context (config : HintConfig) (Hroom : (0 < hcf_max_hints_per_endpoint config)%nat) (max_retries : nat).

(** What one event does to the books. *)
Definition event_accounted (times : list Z) (n : nat) (st : Handoff) (l : HintLedger) (e : HandoffEvent) : Prop :=
  exists l', accounted config (times ++ option_list (event_time e)) (Datatypes.S n) (handoff_event max_retries st e) l'
    /\ (removes_nothing e -> lg_removed l = [] -> lg_removed l' = []).

Lemma queue_targets times n st l t : accounted config times n st l -> Forall (fun h => hint_target h = t) (HintStore_queue (ho_store st) t).
Proof.
  intros A. unfold HintStore_queue. destruct (hs_hints (ho_store st) !! t) eqn:E; [|constructor]. by apply (qo_queue _ _ _ (ac_queues _ _ _ _ _ A)) in E as [_ E].
Qed.
Lemma expired_now times n st l now ex :
  accounted config times n st l -> Forall (fun h => hint_live (hint_cutoff (ho_store st) now) h = false) ex ->
  Forall (expired_by config (times ++ [now])) ex.
Proof.
  intros A H. eapply Forall_impl; [exact H|]. intros h Hh. simpl in Hh. exists now. split; [set_solver|]. unfold hint_live in Hh.
  apply Z.leb_gt in Hh. unfold hint_cutoff in Hh. by rewrite (ac_config _ _ _ _ _ A) in Hh.
Qed.

Lemma account_taken times n st l now target live s' kept lost :
  accounted config times n st l -> Z.of_nat n < 2 ^ 64 -> HintStore_drain_hints now target (ho_store st) = (live, s') -> live ≡ₚ kept ++ lost ->
  exists l', accounted config (times ++ [now]) (Datatypes.S n) (take_batch target (kept, s') st) l' /\ lg_removed l' = lg_removed l ++ lost.
Proof.
  intros A Hn (s0 & ex & S & Hs & He & Hl)%drain_spec Hp.
  assert (s' = count_metrics 0 (length ex) 0 s0) as -> by (destruct Hs as [[-> ->]|]; [symmetry; exact (count_nothing _ _ _ _ _ _ _ A Hn S)|done]).
  eexists. split; [apply (accounted_shrink config times [now] n st l s0 (live ++ ex) (ho_flight st ++ [(target, kept)]) ex lost A Hn S)|done].
  - apply Forall_app_2; [apply A|]. constructor; [|constructor]. simpl. apply Forall_forall. intros h Hh.
    pose proof (queue_targets _ _ _ _ target A) as Hq. rewrite Forall_forall in Hq. apply Hq, Hl. rewrite Hp. set_solver.
  - unfold in_flight. rewrite fmap_app, join_app, Hp. simpl. solve_Permutation.
  - by apply expired_now with n st l.
Qed.

Lemma store_spec now target mutation s s' :
  HintStore_store_hint now target mutation s = (true, s') -> (0 < hcf_max_hints_per_endpoint (hs_config s))%nat ->
  (length (HintStore_queue s target) <= hcf_max_hints_per_endpoint (hs_config s))%nat ->
  let h := mkHint target mutation now (hs_next_id s) in let m := hs_metrics s in
  exists displaced kept total overflow,
    HintStore_queue s target = displaced ++ kept /\ (length kept < hcf_max_hints_per_endpoint (hs_config s))%nat
    /\ s' = mkHintStore (<[target := kept ++ [h]]> (hs_hints s)) (hs_config s) (fetch_add (hs_next_id s) 1) total (hs_paused s)
              (mkHintMetrics (fetch_add (hm_created m) 1) (hm_replayed m) (hm_expired m) overflow)
    /\ (displaced = [] /\ total = fetch_add (hs_total_hints s) 1 /\ overflow = hm_dropped_overflow m
        \/ length displaced = 1%nat /\ total = hs_total_hints s /\ overflow = fetch_add (hm_dropped_overflow m) 1).
Proof.
  unfold HintStore_store_hint. intros H Hr Hq. destruct (hcf_enabled (hs_config s)); [|done]. simpl in H.
  destruct (hcf_max_total_hints (hs_config s) <=? hs_total_hints s); [done|].
  destruct (hcf_max_hints_per_endpoint (hs_config s) <=? length (HintStore_queue s target))%nat eqn:Ef; injection H as <-.
  - apply Nat.leb_le in Ef. destruct (HintStore_queue s target) as [|x q]; simpl in *; [lia|].
    exists [x], q. do 2 eexists. split; [done|]. split; [lia|]. split; [done|]. by right.
  - apply Nat.leb_gt in Ef. exists [], (HintStore_queue s target). do 2 eexists. split; [done|]. split; [lia|]. split; [done|]. by left.
Qed.

(** Closes an equation of counters. *)
Ltac counters := unfold fetch_add; rewrite <- ?Nat2Z.inj_add, ?wrap_nat by lia; lia.

Lemma account_stored times n st l now target mutation s' :
  accounted config times n st l -> Z.of_nat n + 2 < 2 ^ 64 -> HintStore_store_hint now target mutation (ho_store st) = (true, s') ->
  exists displaced, accounted config times (Datatypes.S n)
    (mkHandoff s' (ho_flight st) (ho_stored st ++ [mkHint target mutation now (hs_next_id (ho_store st))]) (ho_delivered st))
    (mkHintLedger (lg_expired l) (lg_displaced l ++ displaced) (lg_removed l) (lg_refused l)).
Proof.
  intros [C P T I X Q Cr R E O Tm Ev] Hn Hs. pose proof (Permutation_length P) as Hl. rewrite !length_app in Hl.
  assert (length (HintStore_queue (ho_store st) target) <= hcf_max_hints_per_endpoint config
          /\ Forall (fun h => hint_target h = target) (HintStore_queue (ho_store st) target))%nat as [Hq Hqt].
  { unfold HintStore_queue. destruct (hs_hints (ho_store st) !! target) eqn:Eq; simpl; [by apply (qo_queue _ _ _ Q)|split; [lia|constructor]]. }
  destruct (store_spec _ _ _ _ _ Hs) as (dis & kept & total & overflow & Hd & Hk & -> & Hcase); [by rewrite C|by rewrite C|]. rewrite Hd in Hqt.
  apply Forall_app in Hqt as [_ Hkt]. exists dis. set (h := mkHint target mutation now (hs_next_id (ho_store st))).
  pose proof (all_hints_delete (hs_hints (ho_store st)) target) as Ha. fold (HintStore_queue (ho_store st) target) in Ha. rewrite Hd in Ha.
  pose proof (Permutation_length Ha) as Hal. rewrite !length_app in Hal.
  pose proof (all_hints_insert (hs_hints (ho_store st)) target (kept ++ [h])) as Hi. pose proof (Permutation_length Hi) as Hil.
  rewrite !length_app in Hil. simpl in Hil.
  split; simpl; try done; rewrite ?length_app; simpl.
  - unfold in_flight. simpl. fold (in_flight st). rewrite P, Hi, Ha. solve_Permutation.
  - rewrite Hil. destruct Hcase as [(-> & -> & _)|(H1 & -> & _)]; simpl in *; rewrite T; [counters|lia].
  - rewrite fmap_app, I, seq_app, fmap_app. simpl. by rewrite X.
  - rewrite X. counters.
  - split; [|apply Q]. intros t q. destruct (decide (t = target)) as [->|Hne].
    + rewrite lookup_insert_eq. intros [= <-]. rewrite length_app. simpl. split; [rewrite <- C; lia|]. apply Forall_app_2; [done|by constructor].
    + rewrite lookup_insert_ne by done. apply Q.
  - rewrite Cr. counters.
  - destruct Hcase as [(-> & _ & ->)|(H1 & _ & ->)]; rewrite O; simpl; [lia|rewrite H1; counters].
  - lia.
Qed.

Lemma account_store times n st l now target mutation :
  accounted config times n st l -> Z.of_nat n + 2 < 2 ^ 64 -> event_accounted times n st l (StoreHint now target mutation).
Proof.
  intros A Hn. unfold event_accounted. simpl. rewrite (right_id_L [] (++)).
  destruct (HintStore_store_hint now target mutation (ho_store st)) as [[] s'] eqn:Es.
  { destruct (account_stored _ _ _ _ _ _ _ _ A Hn Es) as [dis H]. eexists. split; [exact H|done]. }
  unfold HintStore_store_hint in Es. destruct A as [C P T I X Q Cr R E O Tm Ev]. rewrite C in Es.
  pose proof (Permutation_length P) as Hl. rewrite !length_app in Hl.
  destruct (hcf_enabled config); simpl in Es; [|injection Es as <-; exists l; split; [split; simpl; try done; lia|done]].
  destruct (hcf_max_total_hints config <=? hs_total_hints (ho_store st)); [|done]. injection Es as <-.
  exists (mkHintLedger (lg_expired l) (lg_displaced l) (lg_removed l) (Datatypes.S (lg_refused l))). split; [|done].
  split; simpl; try done; [| | |lia]; rewrite ?R, ?E, ?O; counters.
Qed.

Lemma queue_room times n st l t :
  accounted config times n st l -> (length (HintStore_queue (ho_store st) t) <= hcf_max_hints_per_endpoint config)%nat.
Proof.
  intros A. unfold HintStore_queue. destruct (hs_hints (ho_store st) !! t) eqn:E; simpl; [|lia].
  by apply (qo_queue _ _ _ (ac_queues _ _ _ _ _ A)) in E as [E _].
Qed.
Lemma requeued_queues times n st l target s0 s' dropped kept flight :
  accounted config times n st l -> hs_hints s0 = hs_hints (ho_store st) -> hs_config s0 = config ->
  requeued target s0 s' dropped kept -> Forall (fun h => hint_target h = target) kept ->
  Forall (fun b => Forall (fun h => hint_target h = b.1) b.2) flight -> queues_ok config (hs_hints s') flight.
Proof.
  intros A Hs Hc R Hk Hf. split; [|done].
  assert (HintStore_queue s0 target = HintStore_queue (ho_store st) target) as Hq by (unfold HintStore_queue; by rewrite Hs).
  intros t q [[-> ->]|H]%(rq_queues _ _ _ _ _ R); [|rewrite Hs in H; by apply (qo_queue _ _ _ (ac_queues _ _ _ _ _ A))].
  pose proof (queue_room _ _ _ _ target A) as Hr. rewrite <- Hq in Hr. split.
  - rewrite length_app. destruct (rq_room _ _ _ _ _ R) as [->|H]; simpl; [done|]. by rewrite Hc in H.
  - apply Forall_app_2; [done|]. rewrite Hq. by apply (queue_targets times n st l).
Qed.

Lemma counters_wrapped times n st l :
  accounted config times n st l -> Z.of_nat n < 2 ^ 64 ->
  hs_total_hints (ho_store st) = wrap_u 64 (Z.of_nat (length (all_hints (hs_hints (ho_store st)))))
  /\ hm_replayed (hs_metrics (ho_store st)) = wrap_u 64 (Z.of_nat (length (ho_delivered st)))
  /\ hm_expired (hs_metrics (ho_store st)) = wrap_u 64 (Z.of_nat (length (lg_expired l)))
  /\ hm_dropped_overflow (hs_metrics (ho_store st)) = wrap_u 64 (Z.of_nat (length (lg_displaced l) + lg_refused l)).
Proof.
  intros [C P T I X Q Cr R E O Tm Ev] Hn. pose proof (Permutation_length P) as Hl. rewrite !length_app in Hl.
  rewrite T, R, E, O, !wrap_nat by lia. done.
Qed.
Lemma account_batch times n st l now turn target hints flight :
  accounted config times n st l -> Z.of_nat n + 2 < 2 ^ 64 -> hints <> [] -> in_flight st ≡ₚ hints ++ mjoin flight.*2 ->
  Forall (fun h => hint_target h = target) hints -> Forall (fun b => Forall (fun h => hint_target h = b.1) b.2) flight ->
  let '(d, s') := HintDeliveryService_deliver_hint_batch max_retries now turn target hints (ho_store st) in
  exists l', accounted config (times ++ [now]) (Datatypes.S n) (mkHandoff s' flight (ho_stored st) (ho_delivered st ++ dv_delivered d)) l'
    /\ (removes_nothing (FinishDelivery now 0 turn) -> lg_removed l = [] -> lg_removed l' = []).
Proof.
  intros A Hn Hne Hfl Ht Hf. unfold HintDeliveryService_deliver_hint_batch. destruct hints as [|h hints']; [done|]. revert Hfl Ht. clear Hne.
  generalize (h :: hints'). clear h hints'. intros hints Hfl Ht.
  destruct (delivery_loop_spec (hint_cutoff (ho_store st) now) max_retries turn hints 0 (mkDelivery [] 0 0 [])) as (ex & un & Hp & He & Hx & Hu).
  set (d := delivery_loop _ _ _ _ _ _) in *. cbn [dv_delivered dv_requeue dv_expired app Nat.add] in Hp, He.
  set (s1 := count_metrics 0 (dv_expired d) 0 (ho_store st)).
  destruct (requeue_spec target (dv_requeue d) s1) as (dropped & kept & Hr & R).
  { rewrite (ac_config _ _ _ _ _ A : hs_config s1 = config). by apply (queue_room times n st l). }
  destruct (HintStore_requeue_hints target (dv_requeue d) s1) as [r s2]. simpl in R.
  exists (mkHintLedger (lg_expired l ++ ex) (lg_displaced l ++ dropped) (lg_removed l ++ un) (lg_refused l)).
  split; [|intros Hs Hl; simpl; by rewrite Hl, (Hu Hs)].
  destruct (counters_wrapped _ _ _ _ A ltac:(lia)) as (Wt & Wr & We & Wo).
  apply (accounted_move config times [now] n st l); simpl; try done; try lia.
  - apply R.
  - apply R.
  - apply R.
  - unfold in_flight at 1. simpl. rewrite (rq_hints _ _ _ _ _ R), Hfl, <- Hp, Hr. unfold s1. simpl. solve_Permutation.
  - apply (grown_to _ _ _ _ _ (rq_total _ _ _ _ _ R) Wt). rewrite (rq_hints _ _ _ _ _ R), length_app. unfold s1. simpl. lia.
  - apply (requeued_queues times n st l target s1 s2 dropped kept flight A eq_refl (ac_config _ _ _ _ _ A) R); [|done].
    rewrite Forall_forall in *. intros h Hh. apply Ht. rewrite <- Hp, Hr. set_solver.
  - eapply (grown_to _ _ _ _ _ (grown_trans _ _ _ _ _ (grown_add _ 0) (grown_trans _ _ _ _ _ (rq_replayed _ _ _ _ _ R) (grown_add _ _))) Wr).
    rewrite length_app. lia.
  - eapply (grown_to _ _ _ _ _ (grown_trans _ _ _ _ _ (grown_add _ _) (grown_trans _ _ _ _ _ (rq_expired _ _ _ _ _ R) (grown_add _ _))) We).
    rewrite length_app. lia.
  - eapply (grown_to _ _ _ _ _ (grown_trans _ _ _ _ _ (grown_add _ _) (grown_trans _ _ _ _ _ (rq_overflow _ _ _ _ _ R) (grown_add _ _))) Wo).
    rewrite length_app. lia.
  - apply Forall_app_2; [|by apply expired_now with n st l]. eapply Forall_impl; [apply (ac_times _ _ _ _ _ A)|]. intros h. apply expired_by_more.
Qed.

Lemma account_finish times n st l now batch turn :
  accounted config times n st l -> Z.of_nat n + 2 < 2 ^ 64 -> event_accounted times n st l (FinishDelivery now batch turn).
Proof.
  intros A Hn. unfold event_accounted. cbn [handoff_event event_time option_list].
  destruct (ho_flight st !! batch) as [[target hints]|] eqn:Eb.
  2:{ exists l. split; [|done]. destruct A as [C P T I X Q Cr R E O Tm Ev]. split; try done; [|lia].
      eapply Forall_impl; [exact Tm|]. intros h. apply expired_by_more. }
  pose proof (delete_Permutation _ _ _ Eb) as Hp. pose proof (qo_flight _ _ _ (ac_queues _ _ _ _ _ A)) as Hf.
  assert (in_flight st ≡ₚ hints ++ mjoin (delete batch (ho_flight st)).*2) as Hfl by (unfold in_flight; by rewrite Hp at 1).
  rewrite Hp in Hf. apply Forall_cons in Hf as [Ht Hf]. simpl in Ht.
  destruct hints as [|h hints'].
  { simpl. rewrite (right_id_L [] (++)). exists l. split; [|done]. destruct A as [C P T I X Q Cr R E O Tm Ev]. split; simpl; try done; [| | |lia].
    - unfold in_flight. simpl. by rewrite P, Hfl.
    - split; [apply Q|done].
    - eapply Forall_impl; [exact Tm|]. intros h. apply expired_by_more. }
  pose proof (account_batch times n st l now turn target (h :: hints') (delete batch (ho_flight st)) A Hn ltac:(done) Hfl Ht Hf) as H.
  by destruct (HintDeliveryService_deliver_hint_batch max_retries now turn target (h :: hints') (ho_store st)) as [d s'].
Qed.

Lemma account_event times n st l e :
  accounted config times n st l -> Z.of_nat n + 2 < 2 ^ 64 -> event_accounted times n st l e.
Proof.
  intros A Hn. assert (Z.of_nat n < 2 ^ 64) as Hn' by lia.
  assert (forall gone s', handoff_event max_retries st e = with_store s' st -> shrinks (ho_store st) s' gone ->
    (removes_nothing e -> gone = []) -> event_accounted times n st l e) as Hremoval.
  { intros gone s' He S Hg. eexists. rewrite He. split; [by apply accounted_removal|]. simpl. intros H ->. by rewrite (Hg H). }
  destruct e as [now target m|now target|now target owners|now batch turn|now|target| |live|owners| |].
  - by apply account_store.
  - unfold event_accounted. simpl. destruct (HintStore_drain_hints now target (ho_store st)) as [hints s'] eqn:E.
    destruct (account_taken _ _ _ _ _ _ _ _ hints [] A Hn' E) as (l' & H & Hr); [by rewrite (right_id_L [] (++))|].
    exists l'. split; [done|]. intros _ Hl. by rewrite Hr, Hl.
  - unfold event_accounted. simpl. unfold HintedHandoffManager_on_node_recovered.
    destruct (hcf_enabled (hs_config (ho_store st))) eqn:Een; simpl.
    + destruct (HintStore_drain_hints now target (ho_store st)) as [hints s'] eqn:E.
      destruct (account_taken _ _ _ _ _ _ _ _ _ _ A Hn' E (filter_split (still_owned owners target) hints)) as (l' & H & Hr). by exists l'.
    + eexists (mkHintLedger (lg_expired l ++ []) (lg_displaced l) (lg_removed l ++ []) (lg_refused l)). split; [|done]. unfold take_batch. simpl. rewrite <- (count_nothing _ _ _ _ _ _ [] A Hn' (shrinks_refl _)).
      apply (accounted_shrink config times [now] n st l (ho_store st) [] _ [] [] A Hn' (shrinks_refl _)); [|rewrite fmap_app, join_app; simpl; by rewrite !(right_id_L [] (++))|done].
      apply Forall_app_2; [apply A|]. by constructor.
  - by apply account_finish.
  - unfold event_accounted. simpl. eexists. split.
    + apply (accounted_shrink config times [now] n st l _ _ (ho_flight st) _ [] A Hn' (retain_shrinks _ _)); [apply A|by rewrite (right_id_L [] (++))|].
      apply (expired_now times n st l); [done|]. apply dropped_all. 
    + intros _ ->. done.
  - destruct (delete_hints_shrinks target (ho_store st)) as [g H]. by apply (Hremoval g _ eq_refl H).
  - by apply (Hremoval _ _ eq_refl (truncate_shrinks _)).
  - destruct (purge_shrinks live (ho_store st)) as [g H]. by apply (Hremoval g _ eq_refl H).
  - destruct (topology_shrinks owners (ho_store st)) as [g H]. by apply (Hremoval g _ eq_refl H).
  - by apply (Hremoval [] _ eq_refl (pause_shrinks _ _)).
  - by apply (Hremoval [] _ eq_refl (pause_shrinks _ _)).
Qed.
End Events.

Lemma accounted_new config : accounted config [] 0 (Handoff_new config) (mkHintLedger [] [] [] 0).
Proof. by split. Qed.
Lemma accounted_run config max_retries events :
  (0 < hcf_max_hints_per_endpoint config)%nat -> Z.of_nat (length events) + 2 < 2 ^ 64 ->
  exists l, accounted config (omap event_time events) (length events) (handoff_run config max_retries events) l
    /\ (Forall removes_nothing events -> lg_removed l = []).
Proof.
  intros Hr. induction events as [|e events IH] using rev_ind; intros Hn; [eexists; split; [apply accounted_new|done]|].
  rewrite length_app in *. simpl in Hn. destruct IH as (l & A & Hl); [lia|].
  destruct (account_event config Hr max_retries _ _ _ _ e A) as (l' & A' & Hl'); [lia|]. exists l'. split.
  - unfold handoff_run. rewrite foldl_app, omap_app, Nat.add_comm. cbn [foldl omap list_omap]. by destruct (event_time e).
  - intros [H He]%Forall_app. apply Forall_cons in He as [He _]. auto.
Qed.

(** C24.  Hinted handoff loses no hint in silence.  After any sequence of stores,
    deliveries (which run beside the rest, with any pattern of failures, pauses and
    shutdowns), purges, deletions and topology changes, the counter of hints is the
    number of queued hints; no queue is longer than [max_hints_per_endpoint] or holds a
    hint for another node; no two hints have the same id; and every hint stored is
    queued, in a batch being delivered, acknowledged by its target, expired, displaced
    for want of room or removed, each of them once.  The expired ones are as many as the
    metric says, and each was older than the window at a time the clock was read; the
    displaced ones are counted in the overflow metric; none is removed unless a node is
    deleted, the topology changes or the hints are truncated.

    The configuration keeps at least one hint per node (0 < [max_hints_per_endpoint]:
    at zero the first hint is queued but not counted), there are fewer
    than 2^64 - 2 events, so no counter wraps around, and the store has no hints
    directory. *)
Theorem hints_accounted (config : HintConfig) (max_retries : nat) (events : list HandoffEvent)
    (Hroom : (0 < hcf_max_hints_per_endpoint config)%nat) (Hevents : Z.of_nat (length events) + 2 < 2 ^ 64) :
  let st := handoff_run config max_retries events in
  let s := ho_store st in
  hs_total_hints s = Z.of_nat (length (all_hints (hs_hints s)))
  /\ (forall t q, hs_hints s !! t = Some q -> (length q <= hcf_max_hints_per_endpoint config)%nat /\ Forall (fun h => hint_target h = t) q)
  /\ NoDup (hint_id <$> ho_stored st)
  /\ exists expired displaced removed,
       ho_stored st ≡ₚ all_hints (hs_hints s) ++ in_flight st ++ ho_delivered st ++ expired ++ displaced ++ removed
       /\ hm_expired (hs_metrics s) = Z.of_nat (length expired) /\ Forall (expired_by config (omap event_time events)) expired
       /\ Z.of_nat (length displaced) <= hm_dropped_overflow (hs_metrics s)
       /\ (Forall removes_nothing events -> removed = []).
Proof.
  simpl. destruct (accounted_run config max_retries events Hroom Hevents) as (l & A & Hl). split; [apply A|]. split; [apply A|]. split.
  - rewrite (ac_ids _ _ _ _ _ A). apply NoDup_fmap_2; [apply _|apply NoDup_seq].
  - exists (lg_expired l), (lg_displaced l), (lg_removed l). split; [apply A|]. split; [apply A|]. split; [apply A|]. split; [|done].
    rewrite (ac_overflow _ _ _ _ _ A). lia.
Qed.

(** ** Samples *)
Module HintSample.
Definition config : HintConfig := mkHintConfig true 1000 2 10.
Definition down : Endpoint := example_endpoint 2.
Definition write (ts : Z) : CoordinatedMutation := CoordinatedMutation_simple "ks" "t" [9] [] ts.
Definition answers (l : list SendOutcome) (_ : nat) : HintTurn := mkHintTurn false false true (fun attempt => nth attempt l NotAcknowledged).
(** Three hints for two places; the batch fails once and is then acknowledged at the
    third attempt, while a fourth hint has come in and expires. *)
Definition events : list HandoffEvent :=
  [StoreHint 0 down (write 1); StoreHint 10 down (write 2); StoreHint 20 down (write 3); StartDelivery 30 down;
   StoreHint 40 down (write 4); FinishDelivery 50 0 (answers []); StartDelivery 60 down; StoreHint 70 down (write 5);
   FinishDelivery 80 0 (answers [NotAcknowledged; NotAcknowledged; Acknowledged]); PurgeExpired 2000].

Lemma hints_accounted_witness :
  let st := handoff_run config 3 events in
  let s := ho_store st in
  hs_total_hints s = Z.of_nat (length (all_hints (hs_hints s)))
  /\ (forall t q, hs_hints s !! t = Some q -> (length q <= hcf_max_hints_per_endpoint config)%nat /\ Forall (fun h => hint_target h = t) q)
  /\ NoDup (hint_id <$> ho_stored st)
  /\ exists expired displaced removed,
       ho_stored st ≡ₚ all_hints (hs_hints s) ++ in_flight st ++ ho_delivered st ++ expired ++ displaced ++ removed
       /\ hm_expired (hs_metrics s) = Z.of_nat (length expired) /\ Forall (expired_by config (omap event_time events)) expired
       /\ Z.of_nat (length displaced) <= hm_dropped_overflow (hs_metrics s)
       /\ (Forall removes_nothing events -> removed = []).
Proof. apply (hints_accounted config 3 events); vm_compute; [lia|reflexivity]. Defined.

Example handoff_sample :
  let st := handoff_run config 3 events in
  hint_id <$> ho_stored st = [1; 2; 3; 4; 5] /\ hint_id <$> ho_delivered st = [3; 4]
  /\ all_hints (hs_hints (ho_store st)) = [] /\ hs_metrics (ho_store st) = mkHintMetrics 5 2 1 2.
Proof. vm_compute. done. Qed.

(** With room for no hint, a queue keeps one that the counter does not count: when it
    is removed the counter wraps, and every later hint is refused. *)
Example no_room_counter_wraps :
  let s := ho_store (handoff_run (mkHintConfig true 1000 0 10) 3 [StoreHint 0 down (write 1); DeleteHintsFor down]) in
  hs_total_hints s = 2 ^ 64 - 1 /\ (HintStore_store_hint 5 down (write 2) s).1 = false.
Proof. vm_compute. done. Qed.

(** A change of topology resumes the deliveries an operator has paused. *)
Example topology_change_resumes :
  hs_paused (ho_store (handoff_run config 3 [PauseDelivery; TopologyChange ∅])) = false.
Proof. reflexivity. Qed.
End HintSample.
