(* ===== verification/Paxos.v ===== *)
(** Lightweight transactions (crates/cassandra-coordinator/src/paxos: ballot.rs,
    state.rs, messages.rs, coordinator.rs, cleanup.rs).

    The per-partition state machine, the replica's message handlers over its map
    of states, and the coordinator's compare-and-set loop as a machine whose
    steps run from one suspension point ([await]) to the next, so that several
    coordinators interleave on shared replicas. *)
From S2P Require Export Prelude.

(** * Ballots (ballot.rs) *)

(** A UUID is its 128-bit big-endian value; [nil] is zero. *)
Record Ballot := mkBallot { timestamp_micros : Z; node_id : Z }.
#[export] Instance Ballot_eq_dec : EqDecision Ballot.
Proof. solve_decision. Defined.

Definition Ballot_with_timestamp (ts node : Z) : Ballot := mkBallot ts node.
Definition Ballot_none : Ballot := mkBallot 0 0.
Definition Ballot_is_none (b : Ballot) : bool := (timestamp_micros b =? 0) && (node_id b =? 0).
Definition Ballot_newer_than (other : Ballot) (node : Z) : Ballot :=
  mkBallot (wrap_s 64 (timestamp_micros other + 1)) node.

#[export] Instance Ballot_cmp : RustOrd Ballot := fun a b =>
  then_with (cmp (timestamp_micros a) (timestamp_micros b)) (cmp (node_id a) (node_id b)).
#[export] Instance Ballot_ord_laws : OrdLaws Ballot.
Proof.
  pose proof (ord_via_laws (fun b => (timestamp_micros b, node_id b))) as Hl.
  apply Hl. by intros [] [] ?; simplify_eq/=.
Qed.

(** * The state of one partition (state.rs) *)

Record Proposal := mkProposal { prop_ballot : Ballot; mutation : list Z }.
#[export] Instance Proposal_eq_dec : EqDecision Proposal.
Proof. solve_decision. Defined.

Record PaxosState := mkPaxosState {
  promised : Ballot;
  accepted : option Proposal;
  committed : option Proposal;
}.
#[export] Instance PaxosState_eq_dec : EqDecision PaxosState.
Proof. solve_decision. Defined.

Record PrepareResponse := mkPrepareResponse {
  pr_promised : bool;
  pr_ballot : Ballot;
  pr_accepted : option Proposal;
  pr_committed : option Proposal;
}.
Record ProposeResponse := mkProposeResponse { por_accepted : bool; por_ballot : Ballot }.

Definition PaxosState_new : PaxosState := mkPaxosState Ballot_none None None.

Definition PaxosState_prepare (self : PaxosState) (ballot : Ballot) : PaxosState * PrepareResponse :=
  if (ballot >' promised self)%ord then
    let self := mkPaxosState ballot (accepted self) (committed self) in
    (self, mkPrepareResponse true ballot (accepted self) (committed self))
  else if bool_decide (ballot = promised self) then
    (self, mkPrepareResponse true ballot (accepted self) (committed self))
  else
    (self, mkPrepareResponse false (promised self) (accepted self) (committed self)).

Definition PaxosState_propose (self : PaxosState) (proposal : Proposal) : PaxosState * ProposeResponse :=
  if (prop_ballot proposal >=' promised self)%ord then
    let self := mkPaxosState (prop_ballot proposal) (Some proposal) (committed self) in
    (self, mkProposeResponse true (promised self))
  else (self, mkProposeResponse false (promised self)).

Definition PaxosState_commit (self : PaxosState) (proposal : Proposal) : PaxosState :=
  let self :=
    if match committed self with
       | None => true
       | Some c => (prop_ballot proposal >' prop_ballot c)%ord
       end
    then mkPaxosState (promised self) (accepted self) (Some proposal)
    else self in
  match accepted self with
  | Some acc =>
      if (prop_ballot acc <=' match committed self with Some c => prop_ballot c | None => Ballot_none end)%ord
      then mkPaxosState (promised self) None (committed self)
      else self
  | None => self
  end.

Definition PaxosState_has_in_progress (self : PaxosState) : bool :=
  match accepted self with
  | Some acc => match committed self with
                | Some c => (prop_ballot acc >' prop_ballot c)%ord
                | None => true
                end
  | None => false
  end.
Definition PaxosState_needs_recovery (self : PaxosState) : bool := PaxosState_has_in_progress self.
Definition PaxosState_in_progress_proposal (self : PaxosState) : option Proposal :=
  if PaxosState_has_in_progress self then accepted self else None.

(** cleanup.rs; [now_micros] is the clock. *)
Definition PaxosCleanup_is_eligible (gc_grace_micros now_micros : Z) (state : PaxosState) : bool :=
  if PaxosState_has_in_progress state then false
  else match committed state with
       | Some c => gc_grace_micros <? wrap_s 64 (now_micros - timestamp_micros (prop_ballot c))
       | None => Ballot_is_none (promised state)
       end.

(** * Messages (messages.rs) and the replica (coordinator.rs) *)

Record PaxosPrepare := mkPaxosPrepare { pp_partition_key : list Z; pp_ballot : Ballot }.
Record PaxosPromise := mkPaxosPromise {
  pm_promised : bool;
  pm_ballot : Ballot;
  in_progress : option Proposal;
  most_recent_commit : option Proposal;
}.
Record PaxosPropose := mkPaxosPropose { po_partition_key : list Z; po_proposal : Proposal }.
Record PaxosAccept := mkPaxosAccept { pa_accepted : bool; pa_ballot : Ballot }.
Record PaxosCommit := mkPaxosCommit { pc_partition_key : list Z; pc_proposal : Proposal }.

(** The persistence behind a replica (storage.rs, over the storage engine):
    what is saved can be loaded as a state per key.  A failed save is only
    logged, so the operations return the store they leave. *)
Class PaxosStorage (St : Type) := {
  save_promise : St -> list Z -> Ballot -> St;
  save_proposal : St -> list Z -> Proposal -> St;
  save_commit : St -> list Z -> Proposal -> St;
  load_state : St -> list Z -> PaxosState;
}.

Section Replica.
Context {St : Type} `{PaxosStorage St}.

Record PaxosReplica := mkPaxosReplica {
  rep_states : gmap (list Z) PaxosState;
  rep_node_id : Z;
  rep_storage : option St;
}.

Definition PaxosReplica_new (node : Z) : PaxosReplica := mkPaxosReplica ∅ node None.
Definition PaxosReplica_with_storage (node : Z) (storage : St) : PaxosReplica :=
  mkPaxosReplica ∅ node (Some storage).

(** [self.states.entry(key).or_default()]. *)
Definition state_of (self : PaxosReplica) (key : list Z) : PaxosState :=
  default PaxosState_new (rep_states self !! key).

Definition update (self : PaxosReplica) (key : list Z) (state : PaxosState) (storage : option St) : PaxosReplica :=
  mkPaxosReplica (<[key := state]> (rep_states self)) (rep_node_id self) storage.

Definition PaxosReplica_handle_prepare (self : PaxosReplica) (msg : PaxosPrepare) : PaxosReplica * PaxosPromise :=
  let '(state, resp) := PaxosState_prepare (state_of self (pp_partition_key msg)) (pp_ballot msg) in
  let storage := if pr_promised resp
    then (fun s => save_promise s (pp_partition_key msg) (pp_ballot msg)) <$> rep_storage self
    else rep_storage self in
  (update self (pp_partition_key msg) state storage,
   mkPaxosPromise (pr_promised resp) (pr_ballot resp) (pr_accepted resp) (pr_committed resp)).

Definition PaxosReplica_handle_propose (self : PaxosReplica) (msg : PaxosPropose) : PaxosReplica * PaxosAccept :=
  let '(state, resp) := PaxosState_propose (state_of self (po_partition_key msg)) (po_proposal msg) in
  let storage := if por_accepted resp
    then (fun s => save_proposal s (po_partition_key msg) (po_proposal msg)) <$> rep_storage self
    else rep_storage self in
  (update self (po_partition_key msg) state storage, mkPaxosAccept (por_accepted resp) (por_ballot resp)).

Definition PaxosReplica_handle_commit (self : PaxosReplica) (msg : PaxosCommit) : PaxosReplica :=
  let state := PaxosState_commit (state_of self (pc_partition_key msg)) (pc_proposal msg) in
  update self (pc_partition_key msg) state
    ((fun s => save_commit s (pc_partition_key msg) (pc_proposal msg)) <$> rep_storage self).

Definition load_all_uncommitted (storage : St) (known_keys : list (list Z)) : list (list Z * PaxosState) :=
  List.filter (fun e => PaxosState_has_in_progress e.2) ((fun k => (k, load_state storage k)) <$> known_keys).

Definition PaxosReplica_recover (self : PaxosReplica) (known_keys : list (list Z)) : PaxosReplica * nat :=
  match rep_storage self with
  | None => (self, 0%nat)
  | Some storage =>
      let uncommitted := load_all_uncommitted storage known_keys in
      (mkPaxosReplica (foldl (fun m e => <[e.1 := e.2]> m) (rep_states self) uncommitted)
         (rep_node_id self) (rep_storage self),
       length uncommitted)
  end.

(** * The coordinator (coordinator.rs) *)

Record PaxosCoordinator := mkPaxosCoordinator {
  coord_node_id : Z;
  coord_replicas : list nat;
  quorum_size : nat;
  max_contention_retries : Z;
}.

Inductive CasResult :=
| CasSuccess
| ConditionNotMet (current_row : list Z)
| ContentionAborted (attempts : Z).

(** The replicas are shared objects ([Arc<PaxosReplica>]): a store of replicas
    and, in each coordinator, the references it holds. *)
Abbreviation Store := (list PaxosReplica).

(** [self.replicas.iter().map(|r| r.handle(..)).collect()], calls within the
    process that do not suspend.  A step makes all of them; other coordinators run
    between the steps of the loop, though threads could also meet inside one. *)
Fixpoint broadcast {R} (handle : PaxosReplica -> PaxosReplica * R) (ids : list nat) (st : Store) : Store * list R :=
  match ids with
  | [] => (st, [])
  | i :: ids' =>
      match st !! i with
      | Some r =>
          let '(r', resp) := handle r in
          let '(st', resps) := broadcast handle ids' (<[i := r']> st) in
          (st', resp :: resps)
      | None => broadcast handle ids' st
      end
  end.

Definition count_if {R} (f : R -> bool) (l : list R) : nat := length (List.filter f l).

Definition choose_in_progress (promises : list PaxosPromise) : option Proposal :=
  max_by (fun p q => cmp (prop_ballot p) (prop_ballot q)) (omap in_progress promises).

(** The propose and commit phases: [None] when the accepts miss the quorum. *)
Definition propose_and_commit (c : PaxosCoordinator) (key : list Z) (proposal : Proposal) (st : Store)
    : Store * bool :=
  let '(st, accepts) :=
    broadcast (fun r => PaxosReplica_handle_propose r (mkPaxosPropose key proposal)) (coord_replicas c) st in
  if (count_if pa_accepted accepts <? quorum_size c)%nat then (st, false)
  else
    let '(st, _) :=
      broadcast (fun r => (PaxosReplica_handle_commit r (mkPaxosCommit key proposal), ()))
        (coord_replicas c) st in
    (st, true).

(** Where an [execute_cas] call is suspended: before a round, at the read of
    the current row, or returned. *)
Inductive CasPc :=
| PcRound (attempts : Z)
| PcRead (attempts : Z) (ballot : Ballot)
| PcDone (result : CasResult).

(** The ballot of a round, from the clock: [Ballot::new] in the first attempt,
    and the clock plus the attempt number later. *)
Definition round_ballot (c : PaxosCoordinator) (attempts now_micros : Z) : Ballot :=
  if attempts =? 1 then mkBallot now_micros (coord_node_id c)
  else mkBallot (wrap_s 64 (now_micros + attempts)) (coord_node_id c).

(** One iteration of the [while] loop up to the read, or to its end. *)
Definition cas_round (c : PaxosCoordinator) (key : list Z) (now_micros attempts : Z) (st : Store)
    : Store * CasPc :=
  if attempts <? max_contention_retries c then
    let attempts := attempts + 1 in
    let ballot := round_ballot c attempts now_micros in
    let '(st, promises) :=
      broadcast (fun r => PaxosReplica_handle_prepare r (mkPaxosPrepare key ballot)) (coord_replicas c) st in
    if (count_if pm_promised promises <? quorum_size c)%nat then (st, PcRound attempts)
    else match choose_in_progress promises with
    | Some adopted =>
        let '(st, _) := propose_and_commit c key (mkProposal ballot (mutation adopted)) st in
        (st, PcRound attempts)
    | None => (st, PcRead attempts ballot)
    end
  else (st, PcDone (ContentionAborted (max_contention_retries c))).

(** From the value read to the end of the iteration. *)
Definition cas_after_read (c : PaxosCoordinator) (key : list Z) (mutation : list Z)
    (condition : option (list Z) -> bool) (current_row : option (list Z))
    (attempts : Z) (ballot : Ballot) (st : Store) : Store * CasPc :=
  if negb (condition current_row) then (st, PcDone (ConditionNotMet (default [] current_row)))
  else
    let '(st, ok) := propose_and_commit c key (mkProposal ballot mutation) st in
    if ok : bool then (st, PcDone CasSuccess) else (st, PcRound attempts).
End Replica.
Arguments PaxosReplica St : clear implicits.

(** * One partition's state machine *)

Inductive PaxosOp :=
| OpPrepare (b : Ballot)
| OpPropose (p : Proposal)
| OpCommit (p : Proposal).

Definition paxos_step (s : PaxosState) (op : PaxosOp) : PaxosState :=
  match op with
  | OpPrepare b => (PaxosState_prepare s b).1
  | OpPropose p => (PaxosState_propose s p).1
  | OpCommit p => PaxosState_commit s p
  end.
Definition paxos_run (s : PaxosState) (ops : list PaxosOp) : PaxosState := foldl paxos_step s ops.

(** The ballot of an optional proposal, [Ballot_none] when there is none. *)
Definition opt_ballot (o : option Proposal) : Ballot := match o with Some p => prop_ballot p | None => Ballot_none end.

(** The accepted ballot is never above the promised one. *)
Definition paxos_wf (s : PaxosState) : Prop :=
  forall p, accepted s = Some p -> le_of (prop_ballot p) (promised s).

(** The committed proposal only advances. *)
Definition committed_le (o o' : option Proposal) : Prop :=
  match o, o' with
  | None, _ => True
  | Some c, Some c' => le_of (prop_ballot c) (prop_ballot c')
  | Some _, None => False
  end.

Lemma committed_le_refl o : committed_le o o.
Proof. destruct o; simpl; [apply le_of_refl|done]. Qed.
Lemma committed_le_trans o1 o2 o3 : committed_le o1 o2 -> committed_le o2 o3 -> committed_le o1 o3.
Proof. destruct o1, o2, o3; simpl; try done. apply le_of_trans. Qed.

Lemma prepare_spec s b :
  let '(s', resp) := PaxosState_prepare s b in
  accepted s' = accepted s /\ committed s' = committed s
  /\ pr_accepted resp = accepted s /\ pr_committed resp = committed s
  /\ le_of (promised s) (promised s')
  /\ (if pr_promised resp then promised s' = b else promised s' = promised s /\ lt_of b (promised s)).
Proof.
  unfold PaxosState_prepare. destruct (is_gt (cmp b (promised s))) eqn:E; simpl.
  - apply is_gt_spec, lt_of_le in E. by split_and!.
  - case_bool_decide as Eb; simpl.
    + subst. split_and!; try done; try apply le_of_refl.
    + apply is_gt_false in E. split_and!; try done; try apply le_of_refl.
      apply le_of_lt_eq in E as [?|?]; [done|congruence].
Qed.

Lemma propose_spec s p :
  let '(s', resp) := PaxosState_propose s p in
  committed s' = committed s /\ le_of (promised s) (promised s')
  /\ (if por_accepted resp
      then le_of (promised s) (prop_ballot p) /\ promised s' = prop_ballot p /\ accepted s' = Some p
      else s' = s /\ lt_of (prop_ballot p) (promised s)).
Proof.
  unfold PaxosState_propose. destruct (is_ge (cmp (prop_ballot p) (promised s))) eqn:E; simpl.
  - apply is_ge_spec in E. auto.
  - apply is_ge_false in E. split_and!; try done; try apply le_of_refl.
Qed.

Lemma commit_spec s p :
  let s' := PaxosState_commit s p in
  promised s' = promised s
  /\ committed_le (committed s) (committed s') /\ committed_le (Some p) (committed s')
  /\ (accepted s' = None
      \/ accepted s' = accepted s /\ exists a, accepted s = Some a /\ lt_of (opt_ballot (committed s')) (prop_ballot a)).
Proof.
  unfold PaxosState_commit.
  set (s1 := if match committed s with None => true | Some c => (prop_ballot p >' prop_ballot c)%ord end
    then mkPaxosState (promised s) (accepted s) (Some p) else s).
  assert (H1 : promised s1 = promised s /\ accepted s1 = accepted s
    /\ committed_le (committed s) (committed s1) /\ committed_le (Some p) (committed s1)).
  { unfold s1. destruct (committed s) as [c|] eqn:Ec; simpl.
    - destruct (is_gt _) eqn:E; simpl; rewrite ?Ec; simpl.
      + apply is_gt_spec, lt_of_le in E. split_and!; try done; try apply le_of_refl.
      + apply is_gt_false in E. split_and!; try done; try apply le_of_refl.
    - split_and!; try done; try apply le_of_refl. }
  destruct H1 as (Hp & Ha & Hc1 & Hc2). clearbody s1. rewrite Ha.
  destruct (accepted s) as [a|]; [|by rewrite Ha; auto].
  destruct (is_le _) eqn:E; simpl; [by auto|]. apply is_le_false in E. split_and!; [done..|].
  right. split; [done|]. exists a. split; [done|]. by destruct (committed s1).
Qed.

Lemma paxos_step_mono s op :
  paxos_wf s ->
  paxos_wf (paxos_step s op) /\ le_of (promised s) (promised (paxos_step s op))
  /\ committed_le (committed s) (committed (paxos_step s op)).
Proof.
  intros Hwf. destruct op as [b|p|p]; simpl.
  - pose proof (prepare_spec s b) as H. destruct (PaxosState_prepare s b) as [s' resp]; simpl.
    destruct H as (Ha & Hc & _ & _ & Hp & _). rewrite Hc. split_and!; [|done|apply committed_le_refl].
    intros p Hacc. rewrite Ha in Hacc. by apply (le_of_trans _ (promised s)); [apply Hwf|].
  - pose proof (propose_spec s p) as H. destruct (PaxosState_propose s p) as [s' resp]; simpl.
    destruct H as (Hc & Hp & Hr). rewrite Hc. split_and!; [|done|apply committed_le_refl].
    destruct (por_accepted resp); [|by destruct Hr as [-> _]]. destruct Hr as (_ & Hpr & Hac).
    intros q Hq. rewrite Hac in Hq. simplify_eq. rewrite Hpr. apply le_of_refl.
  - destruct (commit_spec s p) as (Hp & Hc & _ & Ha). split_and!; [|rewrite Hp; apply le_of_refl|done].
    intros q Hq. rewrite Hp. destruct Ha as [Ha|[Ha _]]; rewrite Ha in Hq; [done|by apply Hwf].
Qed.

Lemma paxos_run_mono s ops :
  paxos_wf s ->
  paxos_wf (paxos_run s ops) /\ le_of (promised s) (promised (paxos_run s ops))
  /\ committed_le (committed s) (committed (paxos_run s ops)).
Proof.
  revert s. induction ops as [|op ops IH]; intros s Hwf; simpl.
  - split_and!; [done|apply le_of_refl|apply committed_le_refl].
  - destruct (paxos_step_mono s op Hwf) as (H1 & H2 & H3). destruct (IH _ H1) as (I1 & I2 & I3).
    split_and!; [done|by apply (le_of_trans _ (promised (paxos_step s op)))|by eapply committed_le_trans].
Qed.

Lemma PaxosState_new_wf : paxos_wf PaxosState_new.
Proof. done. Qed.

(** C27. A promise is kept.  Over any history of messages: once a prepare with
    ballot [b] has been granted, a proposal accepted at any later point has a
    ballot of at least [b]; accepted ballots never exceed the promise; and the
    committed proposal never goes back. *)
Theorem promise_kept (before after : list PaxosOp) (b : Ballot) (p : Proposal)
    (Hgranted : pr_promised (PaxosState_prepare (paxos_run PaxosState_new before) b).2 = true)
    (Haccepted : por_accepted
       (PaxosState_propose (paxos_run PaxosState_new (before ++ OpPrepare b :: after)) p).2 = true) :
  le_of b (prop_ballot p)
  /\ paxos_wf (paxos_run PaxosState_new (before ++ OpPrepare b :: after))
  /\ committed_le (committed (paxos_run PaxosState_new before))
       (committed (paxos_run PaxosState_new (before ++ OpPrepare b :: after))).
Proof.
  unfold paxos_run in *. rewrite foldl_app in *. fold (paxos_run PaxosState_new before) in *.
  destruct (paxos_run_mono _ before PaxosState_new_wf) as (Hwf & _ & _).
  set (s := paxos_run PaxosState_new before) in *. simpl foldl in *.
  destruct (paxos_step_mono s (OpPrepare b) Hwf) as (Hwf1 & _ & Hc1). simpl in *.
  pose proof (prepare_spec s b) as Hp. destruct (PaxosState_prepare s b) as [s1 resp]; simpl in *.
  rewrite Hgranted in Hp. destruct Hp as (_ & _ & _ & _ & _ & Hpb).
  destruct (paxos_run_mono s1 after Hwf1) as (Hwf2 & Hm & Hc2). unfold paxos_run in *.
  pose proof (propose_spec (foldl paxos_step s1 after) p) as Hq.
  destruct (PaxosState_propose _ p) as [s3 r3]; simpl in *. rewrite Haccepted in Hq.
  destruct Hq as (_ & _ & Hle & _). split_and!; [|done|by eapply committed_le_trans].
  rewrite <- Hpb. by apply (le_of_trans _ (promised (foldl paxos_step s1 after))).
Qed.

Lemma promise_kept_witness :
  le_of (mkBallot 5 1) (mkBallot 7 2).
Proof.
  apply (promise_kept [OpCommit (mkProposal (mkBallot 3 1) [])] [OpPropose (mkProposal (mkBallot 6 0) [1])]
    (mkBallot 5 1) (mkProposal (mkBallot 7 2) [2])); reflexivity.
Defined.

(** The ballot order of the documented invariant [promised >= accepted >=
    committed] does not hold: a commit that reaches a replica which has not
    promised its ballot leaves the promise below the committed ballot. *)
Lemma commit_above_promise (p : Proposal) (H : lt_of Ballot_none (prop_ballot p)) :
  let s := paxos_run PaxosState_new [OpCommit p] in
  committed s = Some p /\ lt_of (promised s) (prop_ballot p)
  /\ forall q, le_of (prop_ballot q) (prop_ballot p) -> le_of Ballot_none (prop_ballot q) ->
       por_accepted (PaxosState_propose s q).2 = true.
Proof.
  simpl. split_and!; [done..|]. intros q _ Hq. unfold PaxosState_propose; simpl.
  by rewrite (proj2 (is_ge_spec _ _) Hq).
Qed.

(** * Broadcasts over the shared replicas *)

Section Coordinator.
Context {St : Type} `{PaxosStorage St}.
Implicit Types (st : list (PaxosReplica St)) (ids : list nat) (c : PaxosCoordinator).

Definition refs_ok ids st : Prop := NoDup ids /\ forall i, i ∈ ids -> is_Some (st !! i).

(** Every referenced replica handles the message once, independently. *)
Lemma broadcast_spec {R} (h : PaxosReplica St -> PaxosReplica St * R) ids st :
  refs_ok ids st ->
  let '(st', resps) := broadcast h ids st in
  (forall j, st' !! j = if bool_decide (j ∈ ids) then fst ∘ h <$> st !! j else st !! j)
  /\ resps = omap (fun i => snd ∘ h <$> st !! i) ids.
Proof.
  intros [Hnd Hin]. revert st Hin. induction Hnd as [|i ids Hi Hnd IH]; intros st Hin; cbn [broadcast].
  - split; [intros j; by rewrite bool_decide_eq_false_2 by apply not_elem_of_nil|done].
  - destruct (Hin i ltac:(left)) as [r Hr]. rewrite Hr. destruct (h r) as [r' resp] eqn:Eh.
    specialize (IH (<[i := r']> st)). destruct (broadcast h ids (<[i := r']> st)) as [st' resps].
    pose proof (lookup_lt_Some _ _ _ Hr) as Hlt. destruct IH as [IH1 IH2].
    { intros j Hj. destruct (decide (i = j)) as [->|]; [done|].
      rewrite list_lookup_insert_ne by done. apply Hin. by right. }
    split.
    + intros j. rewrite IH1. destruct (decide (i = j)) as [<-|Hne].
      * rewrite bool_decide_eq_false_2, (bool_decide_eq_true_2 (i ∈ i :: ids)) by (done || left).
        rewrite list_lookup_insert_eq by done. by rewrite Hr; simpl; rewrite Eh.
      * rewrite list_lookup_insert_ne by done.
        by rewrite (bool_decide_ext (j ∈ i :: ids) (j ∈ ids)) by set_solver.
    + cbn. rewrite Hr. cbn. rewrite Eh. cbn. f_equal. rewrite IH2. apply omap_cong. intros j Hj.
      rewrite list_lookup_insert_ne; [done|]. by intros ->.
Qed.

Lemma broadcast_refs {R} (h : PaxosReplica St -> PaxosReplica St * R) ids st :
  refs_ok ids st -> refs_ok ids (broadcast h ids st).1.
Proof.
  intros Hr. pose proof (broadcast_spec h ids st Hr) as Hb. destruct (broadcast h ids st) as [st' resps].
  destruct Hr as [Hnd Hin], Hb as [Hb _]. split; [done|]. intros i Hi. rewrite Hb.
  rewrite bool_decide_eq_true_2 by done. by apply fmap_is_Some, Hin.
Qed.

Lemma state_of_update (r : PaxosReplica St) key s storage : state_of (update r key s storage) key = s.
Proof. unfold state_of, update; simpl. by rewrite lookup_insert_eq. Qed.

Lemma handle_prepare_state (r : PaxosReplica St) key b :
  state_of (PaxosReplica_handle_prepare r (mkPaxosPrepare key b)).1 key = (PaxosState_prepare (state_of r key) b).1
  /\ in_progress (PaxosReplica_handle_prepare r (mkPaxosPrepare key b)).2 = accepted (state_of r key).
Proof.
  unfold PaxosReplica_handle_prepare; simpl. pose proof (prepare_spec (state_of r key) b) as Hp.
  destruct (PaxosState_prepare (state_of r key) b) as [s resp]; simpl.
  split; [apply state_of_update|apply Hp].
Qed.

Lemma handle_propose_state (r : PaxosReplica St) key p :
  state_of (PaxosReplica_handle_propose r (mkPaxosPropose key p)).1 key = (PaxosState_propose (state_of r key) p).1
  /\ pa_accepted (PaxosReplica_handle_propose r (mkPaxosPropose key p)).2
     = por_accepted (PaxosState_propose (state_of r key) p).2.
Proof.
  unfold PaxosReplica_handle_propose; simpl. destruct (PaxosState_propose (state_of r key) p) as [s resp]; simpl.
  split; [apply state_of_update|done].
Qed.

Lemma handle_commit_state (r : PaxosReplica St) key p :
  state_of (PaxosReplica_handle_commit r (mkPaxosCommit key p)) key = PaxosState_commit (state_of r key) p.
Proof. apply state_of_update. Qed.

(** The accepted proposals the references hold for a key. *)
Definition accepted_at ids st (key : list Z) : list Proposal :=
  omap (fun i => r ← st !! i; accepted (state_of r key)) ids.

Lemma promises_in_progress ids st key b :
  refs_ok ids st ->
  omap in_progress (broadcast (fun r => PaxosReplica_handle_prepare r (mkPaxosPrepare key b)) ids st).2
  = accepted_at ids st key.
Proof.
  intros Hr. pose proof (broadcast_spec (fun r => PaxosReplica_handle_prepare r (mkPaxosPrepare key b)) ids st Hr) as Hb.
  destruct (broadcast _ ids st) as [st' resps]. destruct Hb as [_ ->]. unfold accepted_at. simpl.
  destruct Hr as [_ Hin]. clear st'. induction ids as [|i ids IH]; [done|]. cbn.
  destruct (Hin i ltac:(left)) as [r ->]. cbn. rewrite (proj2 (handle_prepare_state r key b)).
  rewrite IH by (intros; apply Hin; by right). done.
Qed.
End Coordinator.

(** C26. A chosen value is not lost.  If a set [Q] of replicas holds an accepted
    proposal [p0] for a key and [Q] intersects every set of a coordinator's
    size, then a round of any coordinator never reaches the point where it
    would propose its own mutation: it either fails to get promises, or
    re-proposes, under its ballot, the mutation of an accepted proposal whose
    ballot is at least that of [p0]. *)
Theorem chosen_value_adopted {St} `{PaxosStorage St} (c : PaxosCoordinator) (key : list Z) (now attempts : Z)
    (st : list (PaxosReplica St)) (Q : list nat) (p0 : Proposal)
    (Hrefs : refs_ok (coord_replicas c) st) (HQ : NoDup Q)
    (Hchosen : forall i, i ∈ Q -> exists r, st !! i = Some r /\ accepted (state_of r key) = Some p0)
    (Hmajority : (length st < length Q + length (coord_replicas c))%nat)
    (Hattempt : attempts < max_contention_retries c) :
  let ballot := round_ballot c (attempts + 1) now in
  let st1 := (broadcast (fun r => PaxosReplica_handle_prepare r (mkPaxosPrepare key ballot))
                (coord_replicas c) st).1 in
  let '(st', pc) := cas_round c key now attempts st in
  pc = PcRound (attempts + 1)
  /\ (st' = st1
      \/ exists p, p ∈ accepted_at (coord_replicas c) st key /\ le_of (prop_ballot p0) (prop_ballot p)
           /\ st' = (propose_and_commit c key (mkProposal ballot (mutation p)) st1).1).
Proof.
  intros ballot st1. unfold cas_round. rewrite (proj2 (Z.ltb_lt _ _) Hattempt). fold ballot.
  pose proof (promises_in_progress (coord_replicas c) st key ballot Hrefs) as Hip. subst st1.
  destruct (broadcast _ (coord_replicas c) st) as [st1 promises]. simpl in Hip |- *.
  destruct (_ <? _)%nat; [by auto|].
  destruct (quorums_intersect (length st) Q (coord_replicas c)) as (i & HiQ & Hic); [done|apply Hrefs|..|done|].
  { intros i (r & Hr & _)%Hchosen. by apply lookup_lt_Some in Hr. }
  { intros i [r Hr]%(proj2 Hrefs). by apply lookup_lt_Some in Hr. }
  destruct (Hchosen i HiQ) as (r & Hr & Ha).
  assert (p0 ∈ accepted_at (coord_replicas c) st key) as Hp0.
  { apply list_elem_of_omap. exists i. by rewrite Hr. }
  unfold choose_in_progress. rewrite Hip. destruct (max_by _ _) as [p|] eqn:Em.
  - apply (max_by_Some prop_ballot) in Em as [Hin Hmax].
    destruct (propose_and_commit c key (mkProposal ballot (mutation p)) st1) as [st2 ok] eqn:Ep.
    split; [done|]. right. exists p. split_and!; [done|by apply Hmax|by rewrite Ep].
  - apply (max_by_None prop_ballot) in Em. rewrite Em in Hp0. by apply not_elem_of_nil in Hp0.
Qed.

(** Replicas without persistence, for concrete runs. *)
#[export] Instance no_storage : PaxosStorage unit := {
  save_promise s _ _ := s; save_proposal s _ _ := s; save_commit s _ _ := s;
  load_state _ _ := PaxosState_new;
}.

Definition example_replica (s : PaxosState) : PaxosReplica unit := mkPaxosReplica {[ [1] := s ]} 0 None.
Definition example_coordinator (node : Z) (ids : list nat) : PaxosCoordinator :=
  mkPaxosCoordinator node ids 2 4.

Lemma chosen_value_adopted_witness :
  let held := mkPaxosState (mkBallot 5 1) (Some (mkProposal (mkBallot 5 1) [42])) None in
  let st := [example_replica held; example_replica held; example_replica PaxosState_new] in
  (cas_round (example_coordinator 9 [0; 2]%nat) [1] 8 0 st).2 = PcRound 1.
Proof.
  intros held st.
  pose proof (chosen_value_adopted (example_coordinator 9 [0; 2]%nat) [1] 8 0 st [0; 1]%nat
    (mkProposal (mkBallot 5 1) [42])) as H.
  destruct (cas_round _ _ _ _ _) as [st' pc]. apply H.
  - split; [repeat constructor; set_solver|]. intros i Hi.
    repeat (apply elem_of_cons in Hi as [->|Hi]; [eexists; reflexivity|]). by apply not_elem_of_nil in Hi.
  - repeat constructor; set_solver.
  - intros i Hi. repeat (apply elem_of_cons in Hi as [->|Hi]; [eexists; split; reflexivity|]).
    by apply not_elem_of_nil in Hi.
  - simpl. lia.
  - reflexivity.
Defined.

Section Success.
Context {St : Type} `{PaxosStorage St}.
Implicit Types (st : list (PaxosReplica St)) (c : PaxosCoordinator).

(** The replicas whose promise allows a ballot. *)
Definition would_accept st (key : list Z) (b : Ballot) (i : nat) : bool :=
  match st !! i with Some r => (b >=' promised (state_of r key))%ord | None => false end.

Lemma accepts_count ids st key p :
  refs_ok ids st ->
  count_if pa_accepted
    (broadcast (fun r => PaxosReplica_handle_propose r (mkPaxosPropose key p)) ids st).2
  = count_if (would_accept st key (prop_ballot p)) ids.
Proof.
  intros Hr. pose proof (broadcast_spec (fun r => PaxosReplica_handle_propose r (mkPaxosPropose key p)) ids st Hr) as Hb.
  destruct (broadcast _ ids st) as [st' resps]. destruct Hb as [_ ->]. simpl. unfold count_if.
  destruct Hr as [_ Hin]. clear st'. induction ids as [|i ids IH]; [done|]. cbn.
  destruct (Hin i ltac:(left)) as [r Hr]. unfold would_accept at 1. rewrite Hr. cbn.
  rewrite (proj2 (handle_propose_state r key p)). unfold PaxosState_propose.
  destruct (is_ge _); cbn; rewrite IH by (intros; apply Hin; by right); done.
Qed.

Lemma propose_and_commit_ok c key p st :
  refs_ok (coord_replicas c) st ->
  let '(st', ok) := propose_and_commit c key p st in
  ok = true ->
  (quorum_size c <= count_if (would_accept st key (prop_ballot p)) (coord_replicas c))%nat
  /\ forall i, i ∈ coord_replicas c -> exists r, st' !! i = Some r
       /\ committed_le (Some p) (committed (state_of r key))
       /\ accepted (state_of r key) <> Some p.
Proof.
  intros Hr. unfold propose_and_commit.
  pose proof (accepts_count (coord_replicas c) st key p Hr) as Hc.
  pose proof (broadcast_refs (fun r => PaxosReplica_handle_propose r (mkPaxosPropose key p)) _ _ Hr) as Hr1.
  destruct (broadcast _ (coord_replicas c) st) as [st1 accepts]. simpl in Hc, Hr1. rewrite Hc.
  destruct (Nat.ltb_spec (count_if (would_accept st key (prop_ballot p)) (coord_replicas c)) (quorum_size c)); [done|].
  pose proof (broadcast_spec (fun r => (PaxosReplica_handle_commit r (mkPaxosCommit key p), ())) _ _ Hr1) as Hb.
  destruct (broadcast _ (coord_replicas c) st1) as [st2 units]. destruct Hb as [Hb _]. intros _. split; [done|].
  intros i Hi. destruct (proj2 Hr1 i Hi) as [r Hri]. exists (PaxosReplica_handle_commit r (mkPaxosCommit key p)).
  rewrite Hb, bool_decide_eq_true_2, Hri by done. split; [done|]. rewrite handle_commit_state.
  destruct (commit_spec (state_of r key) p) as (_ & _ & Hcp & Ha). split; [done|].
  destruct Ha as [Ha|[Ha (a & Ea & Hlt)]]; [by rewrite Ha|]. rewrite Ha, Ea. intros [= ->].
  destruct (committed (PaxosState_commit (state_of r key) p)); [|done]. simpl in *.
  by apply not_lt_of in Hcp.
Qed.
End Success.

(** C28. A successful compare-and-set is decided and visible: its condition
    held on the row read; a quorum of the coordinator's replicas had no promise
    above its ballot when it was proposed; and on return every replica of the
    coordinator has committed it or a later proposal, and no replica still
    holds it as in progress. *)
Theorem cas_success_committed {St} `{PaxosStorage St} (c : PaxosCoordinator) (key value : list Z)
    (condition : option (list Z) -> bool) (row : option (list Z)) (attempts : Z) (ballot : Ballot)
    (st : list (PaxosReplica St))
    (Hrefs : refs_ok (coord_replicas c) st)
    (Hok : (cas_after_read c key value condition row attempts ballot st).2 = PcDone CasSuccess) :
  condition row = true
  /\ (quorum_size c <= count_if (would_accept st key ballot) (coord_replicas c))%nat
  /\ forall i, i ∈ coord_replicas c -> exists r,
       (cas_after_read c key value condition row attempts ballot st).1 !! i = Some r
       /\ committed_le (Some (mkProposal ballot value)) (committed (state_of r key))
       /\ accepted (state_of r key) <> Some (mkProposal ballot value).
Proof.
  revert Hok. unfold cas_after_read. destruct (condition row); simpl; [|done].
  pose proof (propose_and_commit_ok c key (mkProposal ballot value) st Hrefs) as Hp.
  destruct (propose_and_commit c key (mkProposal ballot value) st) as [st' []]; [|done].
  intros _. split; [done|]. by apply Hp.
Qed.

Lemma cas_success_committed_witness :
  let st := [example_replica PaxosState_new; example_replica PaxosState_new] in
  let c := example_coordinator 3 [0; 1]%nat in
  exists r, (cas_after_read c [1] [42] (fun _ => true) None 1 (mkBallot 5 3) st).1 !! 1%nat = Some r
    /\ committed_le (Some (mkProposal (mkBallot 5 3) [42])) (committed (state_of r [1])).
Proof.
  intros st c.
  destruct (cas_success_committed c [1] [42] (fun _ => true) None 1 (mkBallot 5 3) st) as (_ & _ & H).
  - split; [repeat constructor; set_solver|]. intros i Hi.
    repeat (apply elem_of_cons in Hi as [->|Hi]; [eexists; reflexivity|]). by apply not_elem_of_nil in Hi.
  - reflexivity.
  - destruct (H 1%nat) as (r & Hr & Hc & _); [set_solver|]. exists r. split; [exact Hr|exact Hc].
Defined.

(** * Termination under any interleaving *)

Section Termination.
Context {St : Type} `{PaxosStorage St}.
Context (c : PaxosCoordinator) (key value : list Z) (condition : option (list Z) -> bool).

(** What the environment provides at a step of one [execute_cas] call: the
    replicas as other coordinators left them, the clock and the row read. *)
Record CasEnv := mkCasEnv {
  env_store : list (PaxosReplica St);
  env_now : Z;
  env_row : option (list Z);
}.

Definition cas_step (pc : CasPc) (e : CasEnv) : CasPc :=
  match pc with
  | PcRound attempts => (cas_round c key (env_now e) attempts (env_store e)).2
  | PcRead attempts ballot =>
      (cas_after_read c key value condition (env_row e) attempts ballot (env_store e)).2
  | PcDone r => PcDone r
  end.

Definition cas_measure (pc : CasPc) : Z :=
  match pc with
  | PcRound a => 2 * Z.max 0 (max_contention_retries c - a) + 1
  | PcRead a _ => 2 * Z.max 0 (max_contention_retries c - a) + 2
  | PcDone _ => 0
  end.

Lemma cas_step_measure pc e : cas_measure (cas_step pc e) <= Z.max 0 (cas_measure pc - 1).
Proof.
  destruct pc as [a|a b|r]; simpl.
  - unfold cas_round. destruct (Z.ltb_spec a (max_contention_retries c)); [|simpl; lia].
    destruct (broadcast _ _ _) as [st promises]. destruct (_ <? _)%nat; [simpl; lia|].
    destruct (choose_in_progress promises); [|simpl; lia].
    destruct (propose_and_commit _ _ _ _); simpl; lia.
  - unfold cas_after_read. destruct (condition _); [|simpl; lia]. simpl.
    destruct (propose_and_commit _ _ _ _) as [st []]; simpl; lia.
  - lia.
Qed.

Lemma cas_measure_done pc : cas_measure pc <= 0 -> exists r, pc = PcDone r.
Proof. destruct pc; simpl; [lia..|eauto]. Qed.

Lemma cas_steps_measure envs pc :
  cas_measure (foldl cas_step pc envs) <= Z.max 0 (cas_measure pc - Z.of_nat (length envs)).
Proof.
  revert pc. induction envs as [|e envs IH]; intros pc; simpl length; simpl foldl.
  - destruct pc; simpl; lia.
  - specialize (IH (cas_step pc e)). pose proof (cas_step_measure pc e). lia.
Qed.
End Termination.

(** C40. [execute_cas] returns: whatever the other coordinators do to the
    replicas between its steps, whatever the clock says and whatever it reads,
    a call makes at most [2 * max_contention_retries + 1] steps. *)
Theorem execute_cas_terminates {St} `{PaxosStorage St} (c : PaxosCoordinator) (key value : list Z)
    (condition : option (list Z) -> bool) (envs : list CasEnv)
    (Hmax : 0 <= max_contention_retries c)
    (Hlen : 2 * max_contention_retries c + 1 <= Z.of_nat (length envs)) :
  exists r, foldl (cas_step c key value condition) (PcRound 0) envs = PcDone r.
Proof.
  apply (cas_measure_done c).
  pose proof (cas_steps_measure c key value condition envs (PcRound 0)) as Hm. simpl in Hm. lia.
Qed.

Lemma execute_cas_terminates_witness :
  exists r, foldl (cas_step (example_coordinator 1 [0]%nat) [1] [2] (fun _ => true)) (PcRound 0)
    (replicate 9 (mkCasEnv [example_replica PaxosState_new] 5 None)) = PcDone r.
Proof. apply execute_cas_terminates; vm_compute; discriminate. Defined.

(** * Where the rounds are not linearizable *)

(** A proposal that failed can overwrite a later committed one.  The
    coordinator adopts the in-progress proposal with the highest ballot without
    comparing it with the commits the promises report.  Coordinator X, on the
    replicas 0, 1 and 2, prepares and reads; Y, on replicas 1 and 2, then
    commits the value 2; X's proposal of 1 is accepted by replica 0 only and
    fails; X's next round adopts it from replica 0 and commits it over Y's
    value on every replica. *)
Theorem stale_proposal_overwrites_commit :
  let st0 := replicate 3 (example_replica PaxosState_new) in
  let X := example_coordinator 1 [0; 1; 2]%nat in
  let Y := example_coordinator 2 [1; 2]%nat in
  let '(st1, x1) := cas_round X [1] 10 0 st0 in
  let '(st2, y1) := cas_round Y [1] 20 0 st1 in
  let '(st3, y2) := cas_after_read Y [1] [2] (fun _ => true) None 1 (mkBallot 20 2) st2 in
  let '(st4, x2) := cas_after_read X [1] [1] (fun _ => true) None 1 (mkBallot 10 1) st3 in
  let '(st5, x3) := cas_round X [1] 30 1 st4 in
  x1 = PcRead 1 (mkBallot 10 1) /\ y1 = PcRead 1 (mkBallot 20 2)
  /\ y2 = PcDone CasSuccess
  /\ ((fun r => committed (state_of r [1])) <$> st3)
     = [None; Some (mkProposal (mkBallot 20 2) [2]); Some (mkProposal (mkBallot 20 2) [2])]
  /\ x2 = PcRound 1 /\ x3 = PcRound 2
  /\ ((fun r => committed (state_of r [1])) <$> st5) = replicate 3 (Some (mkProposal (mkBallot 32 1) [1])).
Proof. vm_compute. split_and!; reflexivity. Qed.

(** A promise does not survive a restart unless a proposal was accepted
    under it.  For any storage that holds no in-progress proposal for a key,
    a replica restarted on it and recovered accepts every ballot not below the
    nil ballot, whatever promise the storage holds. *)
Theorem recovery_forgets_promise {St} `{PaxosStorage St} (node : Z) (storage : St)
    (keys : list (list Z)) (key : list Z) (p : Proposal)
    (Hload : PaxosState_has_in_progress (load_state storage key) = false)
    (Hp : le_of Ballot_none (prop_ballot p)) :
  let r := (PaxosReplica_recover (PaxosReplica_with_storage node storage) keys).1 in
  pa_accepted (PaxosReplica_handle_propose r (mkPaxosPropose key p)).2 = true.
Proof.
  intros r. rewrite (proj2 (handle_propose_state r key p)).
  assert (state_of r key = PaxosState_new) as ->.
  { unfold r, state_of, PaxosReplica_recover; simpl.
    assert (Hk : forall e, e ∈ load_all_uncommitted storage keys -> e.1 <> key).
    { intros [k s] [Hin Hs]%list_elem_of_In%filter_In <-. apply list_elem_of_In, list_elem_of_fmap in Hin as (k' & [= -> ->] & _).
      simpl in *. congruence. }
    assert (Hf : forall l (m : gmap (list Z) PaxosState), (forall e, e ∈ l -> e.1 <> key) ->
      foldl (fun m e => <[e.1 := e.2]> m) m l !! key = m !! key).
    { induction l as [|e l IH]; intros m Hl; simpl; [done|]. rewrite IH by (intros; apply Hl; by right).
      apply lookup_insert_ne, Hl. left. }
    by rewrite Hf. }
  unfold PaxosState_propose; simpl. by rewrite (proj2 (is_ge_spec _ _) Hp).
Qed.

(** A storage that keeps the last promise of each key. *)
Definition promise_storage : PaxosStorage (list (list Z * Ballot)) := {|
  save_promise s k b := (k, b) :: s;
  save_proposal s _ _ := s;
  save_commit s _ _ := s;
  load_state s k := mkPaxosState
    (match List.find (fun e => bool_decide (e.1 = k)) s with Some e => e.2 | None => Ballot_none end) None None;
|}.

Lemma recovery_forgets_promise_witness :
  let r := (PaxosReplica_recover (H:=promise_storage)
    (PaxosReplica_with_storage 1 [([1], mkBallot 50 2)]) [[1]]).1 in
  promised (load_state (PaxosStorage:=promise_storage) [([1], mkBallot 50 2)] [1]) = mkBallot 50 2
  /\ pa_accepted (PaxosReplica_handle_propose (H:=promise_storage) r
       (mkPaxosPropose [1] (mkProposal (mkBallot 3 1) [9]))).2 = true.
Proof.
  intros r. split; [reflexivity|].
  apply (recovery_forgets_promise (H:=promise_storage)); [reflexivity|vm_compute; discriminate].
Defined.
